(* ===== verification/_CoqProject ===== *)
-Q . S2P
Prelude.v
Revision.v
Record.v
KvStore.v
Lease.v
Cache.v
Auth.v
Store.v
StoreCore.v
StoreSpec.v
StoreInv.v
StoreApply.v
StoreCommit.v
StoreOpen.v
StoreDemo.v
StoreWrite.v
StoreRead.v
StoreTxn.v
StoreMany.v
StoreCompact.v
StoreSide.v
StoreLease.v
StoreMeta.v
StoreEvents.v
StoreTwin.v
StorePlan.v
SnapshotPolicy.v
StateMachine.v
SmSteps.v
SmTwin.v
SmReplay.v
SmLog.v
SmDemo.v
SmOnce.v
SmAgree.v
LogStore.v
EntryCodec.v
LogKv.v
WriteBehind.v
Crc.v
Snapshot.v
SnapshotBody.v
SnapshotInstall.v
SnapshotStore.v
SnapshotDir.v
SnapshotKeep.v
SnapshotFile.v
Wal.v
WalCodec.v
WalLog.v
WalDisk.v
WalOps.v
WalRun.v
WalCrash.v
WalStore.v
WalMem.v
WalThread.v
WalTurn.v
WalCalls.v
WalEvents.v
WalReads.v
WalRecover.v
WalMigrate.v
WalLimits.v
RangeOptions.v
Conv.v
Authz.v
Precheck.v
KvService.v
KvAuth.v
KvAnswer.v
Watch.v
WatchInv.v
WatchExact.v
WatchRun.v
