(* ===== verification/Prelude.v ===== *)
(** * A verification of fastetcd

    fastetcd is an etcd v3 server in Rust: clients speak etcd's gRPC to
    [crates/server], requests that write become raft log entries
    ([crates/raft], around the vendored openraft library), and a state
    machine applies committed entries to a multi-version key store
    ([crates/storage]) over a table engine.  This library models those parts
    as Rocq functions on explicit states and proves what each promises to
    the one above it.

    ** How the code is modelled

    A pure function is a function; a method that changes state or fails is a
    [prog S E A], a function from the state to a [result] and the new state,
    written with [let*].  An [i64] or [u64] is a [Z], with wrap-around
    written out where the code wraps; bytes are [list Byte.byte]; a Rust
    [String] is its UTF-8 bytes, or a [string] for fixed messages; tables,
    maps and directories are stdpp finite maps, so a [HashMap] is iterated
    in the order of its finite map, which no theorem depends on.  Clocks,
    random numbers and hashers are arguments.  A lock held for a whole
    method makes the method one step; where the code lets go of a lock, or
    waits, the method is split there, and the theorems speak of every
    interleaving.  A call that can fail takes its outcome from a list of
    faults, so that every theorem over faults is a theorem over all runs in
    which those calls fail.  A crash keeps of a file what was synced and some
    prefix of the rest, and of an engine what was committed.

    Code outside the sources is an argument with named laws: the engine below
    the tables ([KvStore], [KvStoreLaws], [DurableStore], [DurableLaws] in
    KvStore.v), bincode ([Bincode], [BincodeLaws] in Lease.v and its
    reader and writer in Snapshot.v), openraft's memberships, and prost's
    message sizes (Watch.v).  Each has a concrete instance the witnesses run
    on: an in-memory engine, [countable_codec], StoreDemo.v, SmDemo.v,
    EntryCodec.v.

    Loops whose recursion is not structural take fuel: the number of rows
    still to page through (StoreOpen.v, WriteBehind.v, WalMigrate.v), of
    bytes still to parse (Wal.v), of events still to split (Watch.v); each
    file proves that amount enough, by proving what the loop answers.

    ** Storage ([crates/storage/src])

    - Revision.v, Record.v: revisions and row keys byte for byte, stored
      records and the per-key index ([mvcc/revision.rs], [mvcc/record.rs]).
      Reading an index at a revision, putting, deleting and compacting are
      operations on a flat history.
    - KvStore.v, WriteBehind.v: the engine interface and the write-behind
      engine over it ([kvstore.rs], [write_behind.rs]).  Merged reads are
      exact, snapshots see every commit once, a crash keeps a prefix of the
      commits that has all the durable ones.
    - Lease.v, Cache.v, Auth.v: lease rows, the value cache and resident
      index, and the authentication state ([mvcc/lease.rs], [mvcc/cache.rs],
      [mvcc/auth.rs]).
    - Store.v: the MVCC store ([mvcc/store.rs]), every method.  StoreSpec.v
      is the abstract store; StoreCore.v and StoreInv.v the invariant;
      StoreApply.v, StoreCommit.v, StoreWrite.v, StoreRead.v, StoreTxn.v,
      StoreMany.v, StoreCompact.v, StoreSide.v, StoreLease.v, StoreMeta.v,
      StoreEvents.v and StoreOpen.v prove the methods against it: each
      implements the abstract operation on every branch, keeps the
      invariant, and leaves all or nothing on disk when its commit fails or
      the process stops.
    - Crc.v, Wal.v, WalCodec.v, WalLog.v, WalDisk.v, WalOps.v, WalRun.v,
      WalCrash.v: the write-ahead log ([raft_wal.rs]).  Damage is detected,
      and after a crash at any point the log opens as a prefix of what was
      appended that has everything synced.

    ** Raft ([crates/raft/src])

    - StateMachine.v and StoreTwin.v, StorePlan.v, SmSteps.v, SmTwin.v,
      SmReplay.v, SmLog.v, SmOnce.v, SmAgree.v: log entries and the state
      machine ([types.rs], [state_machine.rs]).  An apply is a list of steps;
      a member that crashes anywhere and replays takes each step exactly
      once, and members that apply the same log agree.
    - Snapshot.v, SnapshotBody.v, SnapshotInstall.v: building and installing
      snapshots.  SnapshotStore.v, SnapshotDir.v, SnapshotKeep.v,
      SnapshotFile.v: the directory they are kept in and the files they
      travel in ([snapshot_store.rs], [snapshot_data.rs]).  SnapshotPolicy.v:
      when one is taken and how much of the log is kept.
    - LogStore.v, LogKv.v: the log in memory, which is the specification, and
      in the tables of an engine ([log_store.rs], [kv_log_store.rs]).
      WalStore.v, WalMem.v, WalThread.v, WalTurn.v, WalCalls.v, WalEvents.v,
      WalReads.v, WalRecover.v, WalMigrate.v, WalLimits.v: the log in the
      WAL, with its writer thread, cache, checkpoints and migration
      ([wal_log_store.rs]).  Both read as the one in memory.

    ** Server ([crates/server/src])

    - Watch.v, WatchInv.v, WatchExact.v, WatchRun.v: watch streams
      ([watch.rs]) over an interface of the store.  A watch is sent exactly
      the events it selects, once and in order, in any interleaving with
      commits, compactions and lost broadcasts, or is cancelled; it catches
      up when the forwarder does.  The interface reads the history in one
      step; [backfill_races_with_compaction] (StoreEvents.v) shows where the
      store does not.
    - RangeOptions.v, Conv.v: the sort and filters of a range request and the
      translation of requests ([range_options.rs], [conv.rs]).  A range is
      answered with the records it asks for, in the order it asks for.
    - Authz.v: permissions ([authz.rs]).  A permission covers a range exactly
      when it has every key of it.
    - Precheck.v: what the leader refuses before proposing
      ([raft/src/precheck.rs]).  The state machine would refuse it too.
    - KvService.v: the calls of the KV service ([kv.rs]) and how a write is
      proposed and a read made linearizable ([state.rs]), with raft and the
      other members as arguments ([Server]).  KvAuth.v: an authorized
      transaction shows and changes only keys its user may, and nothing else
      makes a difference to it.  KvAnswer.v: what a call answers, in the
      messages of the protocol, is what its request asks of the store it
      applied to.

    ** Where the code falls short

    Some lemmas show what the code does against its comments: among them
    [version_restarts_after_compaction] (Record.v),
    [lease_keys_bounds_edge_ids] (Lease.v), [range_compare_counts_deleted_keys]
    (StoreTxn.v), [backfill_races_with_compaction] (StoreEvents.v),
    [durable_commit_goes_below] (WriteBehind.v), [interrupted_roll_loses_vote]
    and [stale_record_follows_later_write] (WalCrash.v),
    [stale_checkpoint_leaves_hole] (WalRecover.v), [long_key_survives] and
    [cut_trailer_accepted] (SnapshotInstall.v), [progress_overtakes_events]
    and [id_in_use_taken_over] (WatchRun.v), [value_sort_lost_with_keys_only]
    (RangeOptions.v).  The theorems about the same
    code have the hypotheses that exclude them.

    ** Not modelled

    - openraft itself, redb's file format, gRPC, TLS, bcrypt and the file
      system's own metadata: libraries the sources call.
    - The network between members, proposal batching, the read index, the
      lessor and leader transfer ([raft/src/network.rs], [proposer.rs],
      [read_index.rs], [lessor.rs], [leader_transfer.rs],
      [version_gate.rs]): their effect is openraft's state over time, which
      the sources only observe through metrics and calls.
    - The lease, auth, maintenance and cluster services ([server/src/lease.rs],
      [auth.rs], [maintenance.rs], [cluster.rs]) and the HTTP gateway; what
      they propose is modelled where it is applied.
    - Process start-up, flags, metrics, health, admin pages and backups
      ([server/src/main.rs], [startup.rs], [metrics.rs], [admin.rs],
      [backup.rs] and the like): I/O and text.
    - Migration from etcd ([crates/migrate]) and the command-line tools
      ([crates/ctl]).
    - Statistics kept for metrics, in every part. *)

From Stdlib Require Export Strings.Byte.
From stdpp Require Export base gmap strings list sorting.

#[global] Open Scope Z_scope.

(** ** Machine integers

    An [i64] is a [Z]; [i64_wrap] is two's-complement wrap-around. *)

Definition i64_min : Z := -9223372036854775808.
Definition i64_max : Z := 9223372036854775807.
Definition two64 : Z := 18446744073709551616.

Definition is_i64 (z : Z) : Prop := i64_min ≤ z ≤ i64_max.
Definition is_u64 (z : Z) : Prop := 0 ≤ z < two64.

Definition i64_wrap (z : Z) : Z := (z - i64_min) mod two64 + i64_min.

(** [i64::saturating_add] and [i64::saturating_sub]. *)
Definition i64_clamp (z : Z) : Z := Z.max i64_min (Z.min i64_max z).
Definition saturating_add (a b : Z) : Z := i64_clamp (a + b).
Definition saturating_sub (a b : Z) : Z := i64_clamp (a - b).

(** [i64::checked_add]. *)
Definition checked_add (a b : Z) : option Z :=
  if decide (is_i64 (a + b)) then Some (a + b) else None.

(** The bit pattern of an [i64] read as a [u64], and back. *)
Definition u64_of_i64 (z : Z) : Z := z mod two64.
Definition i64_of_u64 (u : Z) : Z := if u <=? i64_max then u else u - two64.

Create HintDb ints.
#[global] Hint Unfold i64_min i64_max two64 is_i64 is_u64 : ints.

Ltac ints := autounfold with ints in *; lia.

Lemma i64_wrap_id z : is_i64 z → i64_wrap z = z.
Proof.
  intros Hz. unfold i64_wrap. rewrite Z.mod_small; ints.
Qed.

Lemma i64_wrap_range z : is_i64 (i64_wrap z).
Proof.
  unfold i64_wrap.
  pose proof (Z.mod_pos_bound (z - i64_min) two64 eq_refl). ints.
Qed.

Lemma i64_of_u64_of_i64 z : is_i64 z → i64_of_u64 (u64_of_i64 z) = z.
Proof.
  intros Hz. unfold i64_of_u64, u64_of_i64.
  destruct (decide (0 ≤ z)).
  - rewrite Z.mod_small by ints.
    destruct (Z.leb_spec z i64_max); ints.
  - assert (z mod two64 = z + two64) as ->.
    { rewrite <- (Z_mod_plus_full z 1 two64), Z.mod_small; ints. }
    destruct (Z.leb_spec (z + two64) i64_max); ints.
Qed.

Lemma u64_of_i64_range z : is_u64 (u64_of_i64 z).
Proof. unfold u64_of_i64, is_u64. apply Z.mod_pos_bound. reflexivity. Qed.

Lemma u64_of_i64_nonneg z : 0 ≤ z → is_i64 z → u64_of_i64 z = z.
Proof. intros. unfold u64_of_i64. apply Z.mod_small. ints. Qed.

Lemma u64_of_i64_neg z : z < 0 → is_i64 z → u64_of_i64 z = z + two64.
Proof.
  intros. unfold u64_of_i64.
  rewrite <- (Z_mod_plus_full z 1 two64), Z.mod_small; ints.
Qed.

Lemma i64_clamp_range z : is_i64 (i64_clamp z).
Proof. unfold i64_clamp. ints. Qed.

(** ** Bytes *)

#[global] Instance byte_eq_dec : EqDecision byte := Byte.byte_eq_dec.

Definition byte_val (b : byte) : Z := Z.of_N (Byte.to_N b).

(** [z as u8]. *)
Definition byte_of (z : Z) : byte :=
  default x00 (Byte.of_N (Z.to_N (z mod 256))).

Lemma byte_val_range b : 0 ≤ byte_val b < 256.
Proof. unfold byte_val. pose proof (Byte.to_N_bounded b). lia. Qed.

Lemma byte_val_of z : byte_val (byte_of z) = z mod 256.
Proof.
  unfold byte_val, byte_of.
  pose proof (Z.mod_pos_bound z 256 eq_refl) as Hz.
  destruct (Byte.of_N (Z.to_N (z mod 256))) as [b|] eqn:E; simpl.
  - apply Byte.to_of_N in E. rewrite E. lia.
  - apply Byte.of_N_None_iff in E. lia.
Qed.

Lemma byte_val_inj a b : byte_val a = byte_val b → a = b.
Proof.
  unfold byte_val. intros H. apply N2Z.inj in H.
  pose proof (Byte.of_to_N a) as Ha. pose proof (Byte.of_to_N b) as Hb.
  rewrite H in Ha. congruence.
Qed.

#[global] Instance byte_val_Inj : Inj (=) (=) byte_val := byte_val_inj.

#[global] Instance byte_countable : Countable byte.
Proof.
  refine (inj_countable (Byte.to_N) (Byte.of_N) _).
  intros b. apply Byte.of_to_N.
Defined.

(** A [Vec<u8>] or [&[u8]]. *)
Abbreviation bytes := (list byte).

(** The slice order of Rust ([Ord for [u8]]): lexicographic, a proper
    prefix first. *)
Fixpoint bytes_cmp (a b : bytes) : comparison :=
  match a, b with
  | [], [] => Eq
  | [], _ :: _ => Lt
  | _ :: _, [] => Gt
  | x :: a', y :: b' =>
      match byte_val x ?= byte_val y with
      | Eq => bytes_cmp a' b'
      | c => c
      end
  end.

(** A string literal as its bytes. *)
Definition str (s : string) : bytes := String.list_byte_of_string s.

Definition bytes_ltb (a b : bytes) : bool :=
  match bytes_cmp a b with Lt => true | _ => false end.
Definition bytes_leb (a b : bytes) : bool :=
  match bytes_cmp a b with Gt => false | _ => true end.

Definition bytes_lt (a b : bytes) : Prop := bytes_cmp a b = Lt.
Definition bytes_le (a b : bytes) : Prop := bytes_cmp a b ≠ Gt.

#[global] Instance bytes_lt_dec : RelDecision bytes_lt.
Proof. intros a b. unfold bytes_lt. apply _. Defined.
#[global] Instance bytes_le_dec : RelDecision bytes_le.
Proof. intros a b. unfold bytes_le. apply _. Defined.

Lemma bytes_cmp_refl a : bytes_cmp a a = Eq.
Proof. induction a as [|x a IH]; simpl; [done|]. by rewrite Z.compare_refl. Qed.

Lemma bytes_cmp_eq a b : bytes_cmp a b = Eq ↔ a = b.
Proof.
  split; [|intros ->; apply bytes_cmp_refl].
  revert b. induction a as [|x a IH]; intros [|y b]; simpl; try done.
  destruct (Z.compare_spec (byte_val x) (byte_val y)) as [E| |]; try done.
  intros H. f_equal; [by apply byte_val_inj | by apply IH].
Qed.

Lemma bytes_cmp_antisym a b : bytes_cmp b a = CompOpp (bytes_cmp a b).
Proof.
  revert b. induction a as [|x a IH]; intros [|y b]; simpl; try done.
  rewrite (Z.compare_antisym (byte_val x) (byte_val y)).
  destruct (byte_val x ?= byte_val y); simpl; auto.
Qed.

Lemma bytes_lt_trans a b c : bytes_lt a b → bytes_lt b c → bytes_lt a c.
Proof.
  unfold bytes_lt. revert b c.
  induction a as [|x a IH]; intros [|y b] [|z c]; simpl; try done.
  destruct (Z.compare_spec (byte_val x) (byte_val y)) as [E1|E1|E1],
    (Z.compare_spec (byte_val y) (byte_val z)) as [E2|E2|E2]; try done; intros.
  all: destruct (Z.compare_spec (byte_val x) (byte_val z)); try done; try lia.
  eauto.
Qed.

Lemma bytes_lt_irrefl a : ¬ bytes_lt a a.
Proof. unfold bytes_lt. by rewrite bytes_cmp_refl. Qed.

#[global] Instance bytes_lt_strict : StrictOrder bytes_lt.
Proof.
  split; [intros a; apply bytes_lt_irrefl | intros a b c; apply bytes_lt_trans].
Qed.

Lemma bytes_le_lt_or_eq a b : bytes_le a b ↔ bytes_lt a b ∨ a = b.
Proof.
  unfold bytes_le, bytes_lt. rewrite <- bytes_cmp_eq.
  destruct (bytes_cmp a b); naive_solver.
Qed.

Lemma bytes_not_le a b : ¬ bytes_le a b ↔ bytes_lt b a.
Proof.
  unfold bytes_le, bytes_lt. rewrite (bytes_cmp_antisym a b).
  destruct (bytes_cmp a b); naive_solver.
Qed.

Lemma bytes_not_lt a b : ¬ bytes_lt a b ↔ bytes_le b a.
Proof.
  unfold bytes_le, bytes_lt. rewrite (bytes_cmp_antisym a b).
  destruct (bytes_cmp a b); naive_solver.
Qed.

#[global] Instance bytes_le_preorder : PreOrder bytes_le.
Proof.
  split.
  - intros a. apply bytes_le_lt_or_eq. by right.
  - intros a b c. rewrite !bytes_le_lt_or_eq.
    intros [?| ->] [?| ->]; auto. left. by etrans.
Qed.

#[global] Instance bytes_le_antisymm : AntiSymm (=) bytes_le.
Proof.
  intros a b. rewrite !bytes_le_lt_or_eq. intros [H1|?] [H2|?]; try done.
  destruct (bytes_lt_irrefl a). by etrans.
Qed.

#[global] Instance bytes_le_total : Total bytes_le.
Proof.
  intros a b. destruct (decide (bytes_le a b)) as [?|H]; [by left|right].
  apply bytes_not_le in H. apply bytes_le_lt_or_eq. by left.
Qed.

Lemma bytes_ltb_lt a b : bytes_ltb a b = true ↔ bytes_lt a b.
Proof. unfold bytes_ltb, bytes_lt. destruct (bytes_cmp a b); naive_solver. Qed.

Lemma bytes_leb_le a b : bytes_leb a b = true ↔ bytes_le a b.
Proof. unfold bytes_leb, bytes_le. destruct (bytes_cmp a b); naive_solver. Qed.

Lemma bytes_ltb_nlt a b : bytes_ltb a b = false ↔ bytes_le b a.
Proof.
  rewrite <- bytes_not_lt, <- bytes_ltb_lt.
  destruct (bytes_ltb a b); naive_solver.
Qed.

Lemma bytes_leb_nle a b : bytes_leb a b = false ↔ bytes_lt b a.
Proof.
  rewrite <- bytes_not_le, <- bytes_leb_le.
  destruct (bytes_leb a b); naive_solver.
Qed.

Lemma bytes_le_lt_trans a b c : bytes_le a b → bytes_lt b c → bytes_lt a c.
Proof. rewrite bytes_le_lt_or_eq. intros [?| ->] ?; [by etrans|done]. Qed.

Lemma bytes_lt_le_trans a b c : bytes_lt a b → bytes_le b c → bytes_lt a c.
Proof. rewrite bytes_le_lt_or_eq. intros ? [?| <-]; [by etrans|done]. Qed.

Lemma bytes_cmp_app_same p a b : bytes_cmp (p ++ a) (p ++ b) = bytes_cmp a b.
Proof. induction p as [|x p IH]; simpl; [done|]. by rewrite Z.compare_refl. Qed.

Lemma bytes_lt_nil a : a ≠ [] → bytes_lt [] a.
Proof. by destruct a. Qed.

Lemma bytes_le_nil a : bytes_le [] a.
Proof. by destruct a. Qed.

(** Comparison of two concatenations whose heads have equal length. *)
Lemma bytes_cmp_app p q a b :
  length p = length q →
  bytes_cmp (p ++ a) (q ++ b) =
    match bytes_cmp p q with Eq => bytes_cmp a b | c => c end.
Proof.
  revert q. induction p as [|x p IH]; intros [|y q] Hl; simplify_eq/=; [done|].
  destruct (byte_val x ?= byte_val y); auto.
Qed.

(** ** Big-endian encodings *)

(** The [n] low-order bytes of [z], most significant first
    ([to_be_bytes] of an unsigned integer of [n] bytes). *)
Fixpoint be_bytes (n : nat) (z : Z) : bytes :=
  match n with
  | O => []
  | S n' => byte_of (z / 256 ^ Z.of_nat n') :: be_bytes n' z
  end.

(** [from_be_bytes] of an unsigned integer. *)
Fixpoint be_value (bs : bytes) : Z :=
  match bs with
  | [] => 0
  | b :: bs' => byte_val b * 256 ^ Z.of_nat (length bs') + be_value bs'
  end.

Lemma length_be_bytes n z : length (be_bytes n z) = n.
Proof. induction n as [|n IH]; simpl; congruence. Qed.

Lemma be_value_range bs : 0 ≤ be_value bs < 256 ^ Z.of_nat (length bs).
Proof.
  induction bs as [|b bs IH]; simpl; [lia|].
  pose proof (byte_val_range b).
  replace (Z.of_nat (S (length bs))) with (Z.succ (Z.of_nat (length bs))) by lia.
  rewrite Z.pow_succ_r by lia. nia.
Qed.

Lemma be_value_bytes n z : be_value (be_bytes n z) = z mod 256 ^ Z.of_nat n.
Proof.
  induction n as [|n IH]; simpl; [by rewrite Z.mod_1_r|].
  rewrite IH, length_be_bytes, byte_val_of.
  replace (Z.of_nat (S n)) with (Z.succ (Z.of_nat n)) by lia.
  rewrite Z.pow_succ_r by lia.
  rewrite (Z.mul_comm 256 (256 ^ Z.of_nat n)), Z.rem_mul_r; lia.
Qed.

Lemma be_bytes_value n z : 0 ≤ z < 256 ^ Z.of_nat n → be_value (be_bytes n z) = z.
Proof. intros Hz. rewrite be_value_bytes. by apply Z.mod_small. Qed.

Lemma be_value_cmp a b :
  length a = length b → bytes_cmp a b = (be_value a ?= be_value b).
Proof.
  revert b. induction a as [|x a IH]; intros [|y b] Hl; simplify_eq/=; [done|].
  pose proof (be_value_range a) as Ha. pose proof (be_value_range b) as Hb.
  rewrite Hl in *. set (w := 256 ^ Z.of_nat (length b)) in *.
  destruct (Z.compare_spec (byte_val x) (byte_val y)) as [E|E|E].
  - rewrite E, IH by done. symmetry. apply Zcompare_plus_compat.
  - symmetry. apply Z.compare_lt_iff. nia.
  - symmetry. apply Z.compare_gt_iff. nia.
Qed.

Lemma be_value_inj a b : length a = length b → be_value a = be_value b → a = b.
Proof.
  intros Hl Hv. apply bytes_cmp_eq. rewrite be_value_cmp by done.
  by apply Z.compare_eq_iff.
Qed.

Lemma be_bytes_of_value n bs : length bs = n → be_bytes n (be_value bs) = bs.
Proof.
  intros <-. apply be_value_inj; [apply length_be_bytes|].
  rewrite be_value_bytes. apply Z.mod_small, be_value_range.
Qed.

Lemma be_bytes_cmp n a b :
  0 ≤ a < 256 ^ Z.of_nat n → 0 ≤ b < 256 ^ Z.of_nat n →
  bytes_cmp (be_bytes n a) (be_bytes n b) = (a ?= b).
Proof.
  intros Ha Hb. rewrite be_value_cmp by by rewrite !length_be_bytes.
  by rewrite !be_bytes_value.
Qed.

(** [i64::to_be_bytes] and [i64::from_be_bytes] (on 8 bytes). *)
Definition i64_to_be_bytes (z : Z) : bytes := be_bytes 8 (u64_of_i64 z).
Definition i64_from_be_bytes (bs : bytes) : Z := i64_of_u64 (be_value bs).

Lemma length_i64_to_be_bytes z : length (i64_to_be_bytes z) = 8%nat.
Proof. apply length_be_bytes. Qed.

Lemma i64_from_to_be_bytes z :
  is_i64 z → i64_from_be_bytes (i64_to_be_bytes z) = z.
Proof.
  intros Hz. unfold i64_from_be_bytes, i64_to_be_bytes.
  rewrite be_bytes_value.
  - by apply i64_of_u64_of_i64.
  - pose proof (u64_of_i64_range z). change (256 ^ Z.of_nat 8) with two64. ints.
Qed.

Lemma i64_from_be_bytes_range bs :
  length bs = 8%nat → is_i64 (i64_from_be_bytes bs).
Proof.
  intros Hl. unfold i64_from_be_bytes, i64_of_u64.
  pose proof (be_value_range bs) as H. rewrite Hl in H.
  change (256 ^ Z.of_nat 8) with two64 in H.
  destruct (Z.leb_spec (be_value bs) i64_max); ints.
Qed.

Lemma i64_to_be_bytes_inj a b :
  is_i64 a → is_i64 b → i64_to_be_bytes a = i64_to_be_bytes b → a = b.
Proof.
  intros Ha Hb H. apply (f_equal i64_from_be_bytes) in H.
  by rewrite !i64_from_to_be_bytes in H.
Qed.

(** On non-negative integers the byte order is the numeric order. *)
Lemma i64_to_be_bytes_cmp a b :
  0 ≤ a → is_i64 a → 0 ≤ b → is_i64 b →
  bytes_cmp (i64_to_be_bytes a) (i64_to_be_bytes b) = (a ?= b).
Proof.
  intros. unfold i64_to_be_bytes. rewrite !u64_of_i64_nonneg by done.
  apply be_bytes_cmp; change (256 ^ Z.of_nat 8) with two64; ints.
Qed.

(** ** Results

    [Result<T, E>] of Rust; [?] is the bind. *)

Inductive result (E A : Type) : Type :=
| Ok (a : A)
| Err (e : E).
Arguments Ok {E A} _.
Arguments Err {E A} _.

Definition res_bind {E A B} (r : result E A) (f : A → result E B) : result E B :=
  match r with Ok a => f a | Err e => Err e end.

Definition ok_or {E A} (o : option A) (e : E) : result E A :=
  match o with Some a => Ok a | None => Err e end.

Definition is_ok {E A} (r : result E A) : bool :=
  match r with Ok _ => true | Err _ => false end.

Declare Scope res_scope.
Delimit Scope res_scope with res.
Notation "'let?' x := r 'in' k" := (res_bind r (λ x, k))
  (at level 10, x pattern, r at level 200, k at level 200) : res_scope.
#[global] Open Scope res_scope.

(** [iter().map(f).collect::<Result<Vec<_>, _>>()]: the first error wins. *)
Fixpoint res_map {E A B} (f : A → result E B) (l : list A) : result E (list B) :=
  match l with
  | [] => Ok []
  | x :: l' => let? y := f x in let? ys := res_map f l' in Ok (y :: ys)
  end.

Lemma res_bind_ok {E A B} (r : result E A) (f : A → result E B) b :
  res_bind r f = Ok b → ∃ a, r = Ok a ∧ f a = Ok b.
Proof. destruct r; naive_solver. Qed.

Lemma res_map_ok {E A B} (f : A → result E B) (g : A → B) l :
  (∀ x, x ∈ l → f x = Ok (g x)) → res_map f l = Ok (g <$> l).
Proof.
  induction l as [|x l IH]; intros H; simpl; [done|].
  rewrite (H x) by set_solver. simpl. rewrite IH by set_solver. done.
Qed.

(** ** Stateful, fallible operations

    [prog S E A] is a method that takes [&mut S] and returns
    [Result<A, E>]: what it changed before an error stays changed. *)

Definition prog (S E A : Type) : Type := S → result E A * S.

Definition pret {S E A} (a : A) : prog S E A := λ s, (Ok a, s).
Definition pfail {S E A} (e : E) : prog S E A := λ s, (Err e, s).
Definition pbind {S E A B} (m : prog S E A) (f : A → prog S E B) : prog S E B :=
  λ s, match m s with
       | (Ok a, s') => f a s'
       | (Err e, s') => (Err e, s')
       end.
Definition pget {S E} : prog S E S := λ s, (Ok s, s).
Definition pput {S E} (s' : S) : prog S E () := λ _, (Ok (), s').
Definition pmodify {S E} (f : S → S) : prog S E () := λ s, (Ok (), f s).
Definition plift {S E A} (r : result E A) : prog S E A := λ s, (r, s).

Declare Scope prog_scope.
Delimit Scope prog_scope with prog.
Notation "'let*' x := m 'in' k" := (pbind m (λ x, k))
  (at level 10, x pattern, m at level 200, k at level 200) : prog_scope.
#[global] Open Scope prog_scope.

Lemma pbind_ok {S E A B} (m : prog S E A) (f : A → prog S E B) s b s' :
  pbind m f s = (Ok b, s') → ∃ a s1, m s = (Ok a, s1) ∧ f a s1 = (Ok b, s').
Proof. unfold pbind. destruct (m s) as [[a|e] s1]; naive_solver. Qed.

(** Running the first half of a sequence. *)
Lemma pbind_run {S E A B} (m : prog S E A) (f : A → prog S E B) s a s' :
  m s = (Ok a, s') → pbind m f s = f a s'.
Proof. unfold pbind. by intros ->. Qed.

Lemma pbind_fail {S E A B} (m : prog S E A) (f : A → prog S E B) s e s' :
  m s = (Err e, s') → pbind m f s = (Err e, s').
Proof. unfold pbind. by intros ->. Qed.

(** ** Key ranges and ordered maps *)

(** [std::ops::Bound]. *)
Inductive Bound : Type :=
| Included (k : bytes)
| Excluded (k : bytes)
| Unbounded.

Definition above (lo : Bound) (k : bytes) : bool :=
  match lo with
  | Included s => bytes_leb s k
  | Excluded s => bytes_ltb s k
  | Unbounded => true
  end.

Definition below (hi : Bound) (k : bytes) : bool :=
  match hi with
  | Included e => bytes_leb k e
  | Excluded e => bytes_ltb k e
  | Unbounded => true
  end.

Definition within (lo hi : Bound) (k : bytes) : bool := above lo k && below hi k.

(** The entries of a [BTreeMap] keyed by bytes, in key order. *)
Definition key_le {A} (p q : bytes * A) : Prop := bytes_le p.1 q.1.

#[global] Instance key_le_dec {A} : RelDecision (@key_le A).
Proof. intros p q. unfold key_le. apply _. Defined.
#[global] Instance key_le_trans {A} : Transitive (@key_le A).
Proof. intros p q r. unfold key_le. by etrans. Qed.
#[global] Instance key_le_total {A} : Total (@key_le A).
Proof. intros p q. apply bytes_le_total. Qed.

Definition sorted_entries {A} (m : gmap bytes A) : list (bytes * A) :=
  merge_sort key_le (map_to_list m).

(** [BTreeMap::range]. *)
Definition map_range {A} (lo hi : Bound) (m : gmap bytes A) : list (bytes * A) :=
  base.filter (λ p, within lo hi p.1 = true) (sorted_entries m).

Lemma sorted_entries_perm {A} (m : gmap bytes A) :
  sorted_entries m ≡ₚ map_to_list m.
Proof. apply merge_sort_Permutation. Qed.

Lemma elem_of_sorted_entries {A} (m : gmap bytes A) k x :
  (k, x) ∈ sorted_entries m ↔ m !! k = Some x.
Proof. rewrite sorted_entries_perm. apply elem_of_map_to_list. Qed.

Lemma elem_of_map_range {A} (lo hi : Bound) (m : gmap bytes A) k x :
  (k, x) ∈ map_range lo hi m ↔ m !! k = Some x ∧ within lo hi k = true.
Proof.
  unfold map_range. rewrite list_elem_of_filter, elem_of_sorted_entries. naive_solver.
Qed.

(** Keys in strictly increasing order. *)
Definition key_sorted {A} (l : list (bytes * A)) : Prop :=
  StronglySorted bytes_lt l.*1.

Lemma key_sorted_cons {A} (p : bytes * A) l :
  key_sorted (p :: l) ↔ (∀ q, q ∈ l → bytes_lt p.1 q.1) ∧ key_sorted l.
Proof.
  unfold key_sorted. rewrite fmap_cons, StronglySorted_cons, Forall_fmap, Forall_forall.
  done.
Qed.

Lemma key_sorted_nil {A} : key_sorted (@nil (bytes * A)).
Proof. constructor. Qed.

Lemma key_sorted_NoDup {A} (l : list (bytes * A)) : key_sorted l → NoDup l.*1.
Proof.
  induction l as [|p l IH]; [constructor|]. rewrite key_sorted_cons, fmap_cons.
  intros [Hp Hl]. constructor; [|auto].
  intros [q [E Hq]]%list_elem_of_fmap. apply (bytes_lt_irrefl p.1).
  rewrite E at 2. by apply Hp.
Qed.

Lemma key_le_sorted {A} (l : list (bytes * A)) :
  StronglySorted key_le l → NoDup l.*1 → key_sorted l.
Proof.
  induction l as [|p l IH]; [constructor|].
  rewrite key_sorted_cons, fmap_cons, StronglySorted_cons, NoDup_cons, Forall_forall.
  intros [Hp Hs] [Hni Hnd]. split; [|auto].
  intros q Hq. destruct (proj1 (bytes_le_lt_or_eq _ _) (Hp _ Hq)) as [?|E]; [done|].
  destruct Hni. rewrite E. by apply list_elem_of_fmap_2.
Qed.

Lemma merge_sort_key_sorted {A} (l : list (bytes * A)) :
  NoDup l.*1 → key_sorted (merge_sort key_le l).
Proof.
  intros Hnd. apply key_le_sorted; [apply StronglySorted_merge_sort; apply _|].
  by rewrite merge_sort_Permutation.
Qed.

Lemma sorted_entries_sorted {A} (m : gmap bytes A) : key_sorted (sorted_entries m).
Proof. apply merge_sort_key_sorted, NoDup_fst_map_to_list. Qed.

Lemma key_sorted_filter {A} (P : bytes * A → Prop) `{!∀ p, Decision (P p)}
    (l : list (bytes * A)) :
  key_sorted l → key_sorted (base.filter P l).
Proof.
  induction l as [|p l IH]; [done|]. rewrite key_sorted_cons, filter_cons.
  intros [Hp Hl]. case_decide; [|auto].
  rewrite key_sorted_cons. split; [|auto].
  intros q [_ Hq]%list_elem_of_filter. auto.
Qed.

Lemma map_range_sorted {A} (lo hi : Bound) (m : gmap bytes A) :
  key_sorted (map_range lo hi m).
Proof. apply key_sorted_filter, sorted_entries_sorted. Qed.

(** Two key-sorted lists with the same entries are the same list. *)
Lemma key_sorted_ext {A} (l1 l2 : list (bytes * A)) :
  key_sorted l1 → key_sorted l2 → (∀ p, p ∈ l1 ↔ p ∈ l2) → l1 = l2.
Proof.
  revert l2. induction l1 as [|p l1 IH]; intros [|q l2].
  - done.
  - intros _ _ H. exfalso. eapply not_elem_of_nil, (H q). by left.
  - intros _ _ H. exfalso. eapply not_elem_of_nil, (H p). by left.
  - rewrite !key_sorted_cons. intros [Hp H1] [Hq H2] H.
    assert (p = q) as ->.
    { assert (p ∈ q :: l2) as [|Hpq]%elem_of_cons by (apply H; by left); [done|].
      assert (q ∈ p :: l1) as [|Hqp]%elem_of_cons by (apply H; by left); [done|].
      destruct (bytes_lt_irrefl p.1). etrans; [by apply Hp|by apply Hq]. }
    f_equal. apply IH; [done..|]. intros r. specialize (H r).
    rewrite !elem_of_cons in H.
    split; intros Hr.
    + destruct (proj1 H) as [->|]; [by right| |done].
      destruct (bytes_lt_irrefl q.1). by apply Hp.
    + destruct (proj2 H) as [->|]; [by right| |done].
      destruct (bytes_lt_irrefl q.1). by apply Hq.
Qed.

Lemma key_sorted_app {A} (l1 l2 : list (bytes * A)) :
  key_sorted (l1 ++ l2) ↔
  key_sorted l1 ∧ key_sorted l2 ∧ (∀ p q, p ∈ l1 → q ∈ l2 → bytes_lt p.1 q.1).
Proof.
  induction l1 as [|p l1 IH]; cbn [app].
  - split; [|by intros (_ & ? & _)]. intros Hl. split_and!; [apply key_sorted_nil|done|].
    by intros p q ?%elem_of_nil.
  - rewrite !key_sorted_cons, IH. setoid_rewrite elem_of_app. setoid_rewrite elem_of_cons.
    naive_solver.
Qed.

Lemma above_trans lo k k' : above lo k = true → bytes_lt k k' → above lo k' = true.
Proof.
  destruct lo as [s|s|]; cbn; rewrite ?bytes_leb_le, ?bytes_ltb_lt; [| |done].
  - intros Hs Hk. apply bytes_le_lt_or_eq. left. by eapply bytes_le_lt_trans.
  - intros Hs Hk. by etrans.
Qed.

(** The rows after one of a range. *)
Lemma map_range_after {A} (m : gmap bytes A) start stop l1 k v l2 :
  map_range start stop m = l1 ++ (k, v) :: l2 → map_range (Excluded k) stop m = l2.
Proof.
  intros Hr. pose proof (map_range_sorted start stop m) as Hs. rewrite Hr in Hs.
  apply key_sorted_app in Hs as (_ & [H2 Hs2]%key_sorted_cons & H1).
  assert ((k, v) ∈ map_range start stop m) as [_ Hk]%elem_of_map_range
    by (rewrite Hr; apply elem_of_app; right; by left).
  unfold within in Hk. apply andb_true_iff in Hk as [Hk _].
  apply key_sorted_ext; [apply map_range_sorted|done|]. intros [k' v'].
  rewrite elem_of_map_range. unfold within. cbn [above]. rewrite andb_true_iff, bytes_ltb_lt. split.
  - intros (Hm & Hlt & Hb).
    assert ((k', v') ∈ map_range start stop m) as Hin.
    { apply elem_of_map_range. split; [done|]. unfold within. rewrite Hb, andb_true_r.
      by eapply above_trans. }
    rewrite Hr in Hin. apply elem_of_app in Hin as [Hin|[?|Hin]%elem_of_cons]; [..|done].
    + destruct (bytes_lt_irrefl k). etrans; [exact Hlt|].
      apply (H1 (k', v') (k, v)); [done|by left].
    + simplify_eq. by destruct (bytes_lt_irrefl k).
  - intros Hin. assert ((k', v') ∈ map_range start stop m) as [Hm Hw]%elem_of_map_range.
    { rewrite Hr. apply elem_of_app. right. by right. }
    unfold within in Hw. apply andb_true_iff in Hw as [_ Hb].
    split_and!; [done|by apply (H2 (k', v'))|done].
Qed.

Lemma key_sorted_omap {A B} (f : bytes * A → option (bytes * B)) (l : list (bytes * A)) :
  (∀ p q, f p = Some q → q.1 = p.1) → key_sorted l → key_sorted (omap f l).
Proof.
  intros Hf. induction l as [|p l IH]; [done|]. rewrite key_sorted_cons. intros [Hp Hl].
  cbn. destruct (f p) as [q|] eqn:Hq; [|by apply IH].
  apply key_sorted_cons. split; [|by apply IH].
  intros r (p' & Hp' & Hr)%list_elem_of_omap. rewrite (Hf _ _ Hq), (Hf _ _ Hr). by apply Hp.
Qed.

Lemma key_sorted_fmap {A B} (f : bytes * A → bytes * B) (l : list (bytes * A)) :
  (∀ p, (f p).1 = p.1) → key_sorted l → key_sorted (f <$> l).
Proof.
  intros Hf. unfold key_sorted. rewrite <- list_fmap_compose.
  by rewrite (list_fmap_ext (fst ∘ f) fst l) by (intros; apply Hf).
Qed.

(** Two duplicate-free sorted lists of keys with the same elements. *)
Lemma sorted_keys_ext (l1 l2 : list bytes) :
  StronglySorted bytes_le l1 → StronglySorted bytes_le l2 → NoDup l1 → NoDup l2 →
  (∀ k, k ∈ l1 ↔ k ∈ l2) → l1 = l2.
Proof.
  intros H1 H2 N1 N2 Hin. eapply StronglySorted_unique; [apply _|done..|].
  by apply NoDup_Permutation.
Qed.

Lemma key_sorted_le {A} (l : list (bytes * A)) :
  key_sorted l → StronglySorted bytes_le l.*1 ∧ NoDup l.*1.
Proof.
  intros Hl. split; [|by apply key_sorted_NoDup]. unfold key_sorted in Hl.
  induction Hl as [|k l' Hs IH Hall]; constructor; [done|].
  eapply Forall_impl; [done|]. intros x Hx. apply bytes_le_lt_or_eq. by left.
Qed.
