(* ===== verification/Revision.v ===== *)
(** * MVCC revisions ([crates/storage/src/mvcc/revision.rs])

    A revision is a pair [(main, sub)] of [i64]s, ordered
    lexicographically (the derived [Ord]).  Its 16-byte big-endian form and
    the [mvcc_kv] table key built from it are modelled byte for byte; the
    theorems are the round trips, injectivity, and that the byte order of a
    key's records is the order of their revisions. *)

From S2P Require Import Prelude.

Record Revision := mkRev { main : Z; sub : Z }.

#[global] Instance Revision_eq_dec : EqDecision Revision.
Proof. solve_decision. Defined.
#[global] Instance Revision_countable : Countable Revision.
Proof.
  refine (inj_countable' (λ r, (main r, sub r)) (λ p, mkRev p.1 p.2) _).
  by intros [].
Defined.

Definition ZERO : Revision := mkRev 0 0.

(** The derived [Ord]. *)
Definition rev_cmp (a b : Revision) : comparison :=
  match main a ?= main b with Eq => sub a ?= sub b | c => c end.

Definition rev_ltb (a b : Revision) : bool :=
  match rev_cmp a b with Lt => true | _ => false end.

Definition rev_leb (a b : Revision) : bool :=
  match rev_cmp a b with Gt => false | _ => true end.

Definition rev_lt (a b : Revision) : Prop :=
  main a < main b ∨ main a = main b ∧ sub a < sub b.
Definition rev_le (a b : Revision) : Prop :=
  main a < main b ∨ main a = main b ∧ sub a ≤ sub b.

Definition less_or_equal (self other : Revision) : bool := rev_leb self other.

Lemma rev_ltb_lt a b : rev_ltb a b = true ↔ rev_lt a b.
Proof.
  unfold rev_ltb, rev_cmp, rev_lt.
  destruct (Z.compare_spec (main a) (main b)), (Z.compare_spec (sub a) (sub b));
    split; intros; try done; lia.
Qed.

Lemma rev_leb_le a b : rev_leb a b = true ↔ rev_le a b.
Proof.
  unfold rev_leb, rev_cmp, rev_le.
  destruct (Z.compare_spec (main a) (main b)), (Z.compare_spec (sub a) (sub b));
    split; intros; try done; lia.
Qed.

Lemma rev_ltb_nlt a b : rev_ltb a b = false ↔ rev_le b a.
Proof.
  pose proof (rev_ltb_lt a b) as H. unfold rev_lt, rev_le in *.
  destruct (rev_ltb a b); split; intros; try done.
  - destruct (proj1 H eq_refl); lia.
  - destruct (Z.lt_trichotomy (main a) (main b)) as [?|[?|?]]; [|
      destruct (decide (sub a < sub b))|]; try lia;
      exfalso; by assert (false = true) by (apply H; lia).
Qed.

Lemma rev_leb_nle a b : rev_leb a b = false ↔ rev_lt b a.
Proof.
  pose proof (rev_leb_le a b) as H. pose proof (rev_ltb_lt b a) as H'.
  pose proof (rev_ltb_nlt b a) as H''.
  destruct (rev_leb a b), (rev_ltb b a); unfold rev_le, rev_lt in *; naive_solver lia.
Qed.

#[global] Instance rev_lt_dec : RelDecision rev_lt.
Proof.
  refine (λ a b, cast_if (decide (rev_ltb a b = true))); by rewrite <- rev_ltb_lt.
Defined.
#[global] Instance rev_le_dec : RelDecision rev_le.
Proof.
  refine (λ a b, cast_if (decide (rev_leb a b = true))); by rewrite <- rev_leb_le.
Defined.

(** Order goals on revisions reduce to linear arithmetic on the fields. *)
Ltac rev_unfold :=
  rewrite ?rev_ltb_lt, ?rev_leb_le, ?rev_ltb_nlt, ?rev_leb_nle in *;
  unfold rev_lt, rev_le in *.
Ltac rev_lia :=
  repeat match goal with
  | r : Revision |- _ => destruct r
  | H : @eq Revision _ _ |- _ => injection H as; subst
  end; rev_unfold; simpl in *;
  try match goal with |- @eq Revision _ _ => f_equal end; lia.

#[global] Instance rev_lt_strict : StrictOrder rev_lt.
Proof. split; [intros r; unfold complement|intros r s t]; rev_lia. Qed.
#[global] Instance rev_le_order : PartialOrder rev_le.
Proof. repeat split; [intros r|intros r s t|intros r s]; intros; rev_lia. Qed.

Lemma rev_lt_le a b : rev_lt a b → rev_le a b.
Proof. rev_lia. Qed.
Lemma rev_le_lt_trans a b c : rev_le a b → rev_lt b c → rev_lt a c.
Proof. rev_lia. Qed.
Lemma rev_lt_le_trans a b c : rev_lt a b → rev_le b c → rev_lt a c.
Proof. rev_lia. Qed.
Lemma rev_not_le a b : ¬ rev_le a b ↔ rev_lt b a.
Proof. split; rev_lia. Qed.
Lemma rev_not_lt a b : ¬ rev_lt a b ↔ rev_le b a.
Proof. split; rev_lia. Qed.

(** ** The 16-byte form *)

Definition to_bytes (self : Revision) : bytes :=
  i64_to_be_bytes (main self) ++ i64_to_be_bytes (sub self).

Definition from_bytes (bs : bytes) : option Revision :=
  if decide (length bs = 16%nat) then
    Some (mkRev (i64_from_be_bytes (take 8 bs)) (i64_from_be_bytes (drop 8 bs)))
  else None.

(** [user_key.len() as u32]: the length is truncated to 32 bits. *)
Definition make_kv_key (user_key : bytes) (rev : Revision) : bytes :=
  be_bytes 4 (Z.of_nat (length user_key)) ++ user_key ++ to_bytes rev.

Definition parse_kv_key (bs : bytes) : option (bytes * Revision) :=
  if decide (length bs < 4 + 16)%nat then None
  else
    let len := Z.to_nat (be_value (take 4 bs)) in
    if decide (length bs = 4 + len + 16)%nat then
      match from_bytes (drop (4 + len) bs) with
      | Some rev => Some (take len (drop 4 bs), rev)
      | None => None
      end
    else None.

#[global] Arguments make_kv_key : simpl never.

(** Both fields fit an [i64]. *)
Definition rev_wf (r : Revision) : Prop := is_i64 (main r) ∧ is_i64 (sub r).

Lemma length_to_bytes r : length (to_bytes r) = 16%nat.
Proof. unfold to_bytes. rewrite length_app, !length_i64_to_be_bytes. done. Qed.

Lemma from_to_bytes r : rev_wf r → from_bytes (to_bytes r) = Some r.
Proof.
  intros [Hm Hs]. unfold from_bytes. rewrite length_to_bytes.
  case_decide; [|done]. unfold to_bytes.
  rewrite take_app_length', drop_app_length' by by rewrite length_i64_to_be_bytes.
  rewrite !i64_from_to_be_bytes by done. by destruct r.
Qed.

Lemma to_bytes_inj a b : rev_wf a → rev_wf b → to_bytes a = to_bytes b → a = b.
Proof.
  intros Ha Hb H. apply (f_equal from_bytes) in H.
  rewrite !from_to_bytes in H by done. congruence.
Qed.

Lemma length_make_kv_key k r : length (make_kv_key k r) = (4 + length k + 16)%nat.
Proof.
  unfold make_kv_key. rewrite !length_app, length_be_bytes, length_to_bytes. lia.
Qed.

Lemma to_bytes_cmp a b :
  rev_wf a → rev_wf b → 0 ≤ main a → 0 ≤ sub a → 0 ≤ main b → 0 ≤ sub b →
  bytes_cmp (to_bytes a) (to_bytes b) = rev_cmp a b.
Proof.
  intros [] [] ????. unfold to_bytes, rev_cmp.
  rewrite bytes_cmp_app by by rewrite !length_i64_to_be_bytes.
  by rewrite !i64_to_be_bytes_cmp.
Qed.

Lemma make_kv_key_inj k1 r1 k2 r2 :
  rev_wf r1 → rev_wf r2 → make_kv_key k1 r1 = make_kv_key k2 r2 →
  k1 = k2 ∧ r1 = r2.
Proof.
  intros H1 H2 H. pose proof (f_equal length H) as Hl.
  rewrite !length_make_kv_key in Hl. unfold make_kv_key in H.
  apply app_inj_1 in H as [_ H]; [|by rewrite !length_be_bytes].
  apply app_inj_1 in H as [-> H]; [|lia].
  split; [done|]. by apply to_bytes_inj.
Qed.

(**  [make_kv_key] is injective on user keys of any length and bytes:
    two different (key, revision) pairs never share a row of [mvcc_kv],
    even though the length prefix is truncated to 32 bits. *)
Theorem make_kv_key_injective k1 r1 k2 r2 :
  rev_wf r1 → rev_wf r2 → make_kv_key k1 r1 = make_kv_key k2 r2 →
  k1 = k2 ∧ r1 = r2.
Proof. apply make_kv_key_inj. Qed.

(**  [parse_kv_key] inverts [make_kv_key] for every user key shorter
    than 2^32 bytes, whatever its bytes, and every revision of [i64]s. *)
Theorem parse_make_kv_key k r :
  rev_wf r → Z.of_nat (length k) < 4294967296 →
  parse_kv_key (make_kv_key k r) = Some (k, r).
Proof.
  intros Hr Hk. unfold parse_kv_key. rewrite length_make_kv_key.
  case_decide; [lia|].
  assert (be_value (take 4 (make_kv_key k r)) = Z.of_nat (length k)) as ->.
  { unfold make_kv_key. rewrite take_app_length' by by rewrite length_be_bytes.
    apply be_bytes_value. change (256 ^ Z.of_nat 4) with 4294967296. lia. }
  rewrite Nat2Z.id. case_decide; [|lia].
  replace (drop (4 + length k) (make_kv_key k r)) with (to_bytes r).
  2:{ unfold make_kv_key. rewrite app_assoc, drop_app_length'; [done|].
      rewrite length_app, length_be_bytes. lia. }
  rewrite from_to_bytes by done.
  unfold make_kv_key. rewrite drop_app_length' by by rewrite length_be_bytes.
  by rewrite take_app_length.
Qed.

(**  the records of one user key lie in [mvcc_kv] in revision order:
    the byte order of the table keys is the order of the revisions, for
    the non-negative revisions the store allocates. *)
Theorem kv_key_revision_order k a b :
  rev_wf a → rev_wf b → 0 ≤ main a → 0 ≤ sub a → 0 ≤ main b → 0 ≤ sub b →
  bytes_lt (make_kv_key k a) (make_kv_key k b) ↔ rev_lt a b.
Proof.
  intros. unfold bytes_lt, make_kv_key. rewrite !bytes_cmp_app_same, to_bytes_cmp by done.
  rewrite <- rev_ltb_lt. unfold rev_ltb. destruct (rev_cmp a b); naive_solver.
Qed.


Lemma make_kv_key_injective_witness :
  [x00; x61] = [x00; x61] ∧ mkRev 7 1 = mkRev 7 1.
Proof.
  apply (make_kv_key_injective [x00; x61] (mkRev 7 1) [x00; x61] (mkRev 7 1));
    [split; simpl; ints|split; simpl; ints|reflexivity].
Defined.

Lemma parse_make_kv_key_witness :
  parse_kv_key (make_kv_key [x00; x01] (mkRev 100 3)) = Some ([x00; x01], mkRev 100 3).
Proof.
  apply (parse_make_kv_key [x00; x01] (mkRev 100 3)); [split; simpl; ints|simpl; lia].
Defined.

Lemma kv_key_revision_order_witness :
  bytes_lt (make_kv_key [x61] (mkRev 5 9)) (make_kv_key [x61] (mkRev 10 0)) ↔
  rev_lt (mkRev 5 9) (mkRev 10 0).
Proof.
  apply (kv_key_revision_order [x61] (mkRev 5 9) (mkRev 10 0));
    try (split; simpl; ints); simpl; lia.
Defined.

(** The table key starts with the user key's length, so [mvcc_kv] is not
    in user-key order: a longer key sorts after a shorter one. *)
Example kv_key_order_is_by_length :
  bytes_lt [x61; x61] [x62] ∧
  bytes_lt (make_kv_key [x62] (mkRev 1 0)) (make_kv_key [x61; x61] (mkRev 1 0)).
Proof. split; vm_compute; reflexivity. Qed.
