(* ===== verification/Record.v ===== *)
(** * Stored records and the per-key index ([crates/storage/src/mvcc/record.rs])

    [KvRecord], [Generation] and [KeyIndex] with their operations, as the
    code has them (loops as folds, [Vec] updates as list updates).

    The specification of an index is its flat [history]: every put and
    delete of the key in revision order.  The theorems say that a read at a
    revision finds the newest event at or below it, that puts and deletes
    append to the history, and that compaction drops exactly the events no
    read at or above the compacted revision can see. *)

From S2P Require Import Prelude Revision.

(** ** Data *)

Record KvRecord := mkKv {
  rec_key : bytes;
  rec_value : bytes;
  create_revision : Z;
  mod_revision : Z;
  version : Z;
  rec_lease : Z;
  deleted : bool
}.

#[global] Instance KvRecord_eq_dec : EqDecision KvRecord.
Proof. solve_decision. Defined.

Definition is_tombstone (self : KvRecord) : bool := deleted self.

Record Generation := mkGen {
  created : Revision;
  revs : list Revision;
  tombstone : option Revision
}.

#[global] Instance Generation_eq_dec : EqDecision Generation.
Proof. solve_decision. Defined.

Record KeyIndex := mkIdx { idx_key : bytes; generations : list Generation }.

#[global] Instance KeyIndex_eq_dec : EqDecision KeyIndex.
Proof. solve_decision. Defined.

(** ** Generations *)

Definition is_open (self : Generation) : bool :=
  match tombstone self with None => true | Some _ => false end.

Definition version_for_next_put (self : Generation) : Z :=
  Z.of_nat (length (revs self)) + 1.

(** One turn of the loop over [self.revs]. *)
Definition latest_step (target : Revision) (best : option (Revision * bool))
    (r : Revision) : option (Revision * bool) :=
  if rev_leb r target then
    match best with
    | Some (b, _) => if rev_leb r b then Some (b, false) else Some (r, false)
    | None => Some (r, false)
    end
  else best.

Definition latest_at_or_before (self : Generation) (target : Revision)
    : option (Revision * bool) :=
  let best := foldl (latest_step target) None (revs self) in
  match tombstone self with
  | Some t =>
      if rev_leb t target then
        match best with
        | Some (b, _) => if rev_ltb t b then best else Some (t, true)
        | None => Some (t, true)
        end
      else best
  | None => best
  end.

(** ** The key index *)

Definition KeyIndex_new (key : bytes) : KeyIndex := mkIdx key [].

Definition gens_live (gens : list Generation) : bool :=
  match last gens with Some g => is_open g | None => false end.

Definition is_live (self : KeyIndex) : bool := gens_live (generations self).

Definition current (self : KeyIndex) : option (Revision * Z) :=
  match last (generations self) with
  | None => None
  | Some g =>
      if is_open g then
        match last (revs g) with
        | Some rev => Some (rev, Z.of_nat (length (revs g)))
        | None => None
        end
      else None
  end.

(** [last_mut]: change the last element. *)
Fixpoint alter_last {A} (f : A → A) (l : list A) : list A :=
  match l with
  | [] => []
  | [x] => [f x]
  | x :: l' => x :: alter_last f l'
  end.

Definition push_rev (rev : Revision) (g : Generation) : Generation :=
  mkGen (created g) (revs g ++ [rev]) (tombstone g).

Definition close_gen (rev : Revision) (g : Generation) : Generation :=
  mkGen (created g) (revs g) (Some rev).

Definition needs_new (gens : list Generation) : bool :=
  match last gens with None => true | Some g => negb (is_open g) end.

Definition record_put (self : KeyIndex) (rev : Revision) : KeyIndex * (Z * Revision) :=
  let gens := generations self in
  if needs_new gens then
    (mkIdx (idx_key self) (gens ++ [mkGen rev [rev] None]), (1, rev))
  else
    let gens' := alter_last (push_rev rev) gens in
    (mkIdx (idx_key self) gens',
     match last gens' with
     | Some g => (Z.of_nat (length (revs g)), created g)
     | None => (1, rev)
     end).

Definition record_delete (self : KeyIndex) (rev : Revision) : KeyIndex * bool :=
  match last (generations self) with
  | Some g =>
      if is_open g then
        (mkIdx (idx_key self) (alter_last (close_gen rev) (generations self)), true)
      else (self, false)
  | None => (self, false)
  end.

(** The loop of [revision_at] over the generations, newest first. *)
Fixpoint revision_at_from (newest_first : list Generation) (target_rev : Revision)
    : option Revision :=
  match newest_first with
  | [] => None
  | g :: rest =>
      if rev_ltb target_rev (created g) then revision_at_from rest target_rev
      else
        match latest_at_or_before g target_rev with
        | Some (rev, is_tomb) => if is_tomb : bool then None else Some rev
        | None => revision_at_from rest target_rev
        end
  end.

Definition revision_at (gens : list Generation) (target_rev : Revision) : option Revision :=
  revision_at_from (reverse gens) target_rev.

Definition idx_revision_at (self : KeyIndex) (target_rev : Revision) : option Revision :=
  revision_at (generations self) target_rev.

(** ** Compaction *)

(** The index of the latest put at or below [compact_rev]; the loop stops
    at the first put above it. *)
Fixpoint floor_idx (i : nat) (acc : option nat) (l : list Revision)
    (compact_rev : Revision) : option nat :=
  match l with
  | [] => acc
  | r :: l' =>
      if rev_leb r compact_rev then floor_idx (S i) (Some i) l' compact_rev else acc
  end.

(** One generation's turn: what it drops and what is kept of it. *)
Definition compact_gen (g : Generation) (compact_rev : Revision)
    : list Revision * list Generation :=
  let keep_part :=
    let '(dropped, new_revs) :=
      match floor_idx 0 None (revs g) compact_rev with
      | Some fi => (take fi (revs g), drop fi (revs g))
      | None => ([], revs g)
      end in
    if bool_decide (new_revs = []) && is_open g then (dropped, [])
    else (dropped, [mkGen (created g) new_revs (tombstone g)]) in
  match tombstone g with
  | Some t => if rev_leb t compact_rev then (revs g ++ [t], []) else keep_part
  | None => keep_part
  end.

Fixpoint compact_gens (gens : list Generation) (compact_rev : Revision)
    : list Revision * list Generation :=
  match gens with
  | [] => ([], [])
  | g :: gs =>
      let '(d, k) := compact_gen g compact_rev in
      let '(ds, ks) := compact_gens gs compact_rev in
      (d ++ ds, k ++ ks)
  end.

Definition idx_compact (self : KeyIndex) (compact_rev : Revision) : KeyIndex * list Revision :=
  let '(dropped, keep) := compact_gens (generations self) compact_rev in
  (mkIdx (idx_key self) keep, dropped).

Definition gen_compaction_changes (compact_rev : Revision) (g : Generation) : bool :=
  match tombstone g with Some t => rev_leb t compact_rev | None => false end ||
  match revs g with
  | _ :: r1 :: _ => rev_leb r1 compact_rev
  | _ => false
  end.

Definition compaction_changes (gens : list Generation) (compact_rev : Revision) : bool :=
  existsb (gen_compaction_changes compact_rev) gens.

(** ** Specification: the history of a key *)

(** An event of a key: its revision, and whether it is a delete. *)
Abbreviation event := (Revision * bool)%type.

Definition gen_events (g : Generation) : list event :=
  ((λ r, (r, false)) <$> revs g) ++
  match tombstone g with Some t => [(t, true)] | None => [] end.

Definition history (gens : list Generation) : list event := gens ≫= gen_events.

(** The newest event at or below [target]. *)
Definition newest_at (h : list event) (target : Revision) : option event :=
  last (base.filter (λ e, rev_le e.1 target) h).

(** The put a read at [target] sees. *)
Definition hist_at (h : list event) (target : Revision) : option Revision :=
  match newest_at h target with
  | Some (r, false) => Some r
  | _ => None
  end.

Definition hist_sorted (h : list event) : Prop := StronglySorted rev_lt h.*1.

(** Well-formed generations: events in revision order, none before
    [created]; every generation but the last is closed, before the next
    one was created. *)
Definition gen_wf (g : Generation) : Prop :=
  gen_events g ≠ [] ∧ hist_sorted (gen_events g) ∧
  (∀ e, e ∈ gen_events g → rev_le (created g) e.1).

Definition gen_before (g g' : Generation) : Prop :=
  is_open g = false ∧ (∀ e, e ∈ gen_events g → rev_lt e.1 (created g')).

Definition gens_wf (gens : list Generation) : Prop :=
  Forall gen_wf gens ∧ StronglySorted gen_before gens.

(** What compaction keeps of a history. *)
Definition hist_compact (h : list event) (c : Revision) : list event :=
  match newest_at h c with
  | Some (r, false) => [(r, false)]
  | _ => []
  end ++ base.filter (λ e, ¬ rev_le e.1 c) h.

(** ** Sorted histories *)

Lemma newest_at_app h1 h2 t :
  newest_at (h1 ++ h2) t =
    match newest_at h2 t with Some e => Some e | None => newest_at h1 t end.
Proof. unfold newest_at. by rewrite filter_app, last_app. Qed.

Lemma newest_at_singleton e t :
  newest_at [e] t = if decide (rev_le e.1 t) then Some e else None.
Proof. unfold newest_at. rewrite filter_cons. by case_decide. Qed.

Lemma newest_at_elem h t e : newest_at h t = Some e → e ∈ h ∧ rev_le e.1 t.
Proof.
  unfold newest_at. intros H%last_Some_elem_of.
  apply list_elem_of_filter in H. naive_solver.
Qed.

Lemma newest_at_None h t : newest_at h t = None ↔ ∀ e, e ∈ h → ¬ rev_le e.1 t.
Proof.
  unfold newest_at. rewrite last_None. split.
  - intros H e He Hle. eapply not_elem_of_nil. rewrite <- H.
    by apply list_elem_of_filter.
  - intros H. apply elem_of_nil_inv. intros e [? ?]%list_elem_of_filter. by eapply H.
Qed.

Lemma hist_sorted_app h1 h2 :
  hist_sorted (h1 ++ h2) ↔
    (∀ e1 e2, e1 ∈ h1 → e2 ∈ h2 → rev_lt e1.1 e2.1) ∧
    hist_sorted h1 ∧ hist_sorted h2.
Proof.
  unfold hist_sorted. rewrite fmap_app, StronglySorted_app.
  split; intros (H & ? & ?); (split; [|done]).
  - intros e1 e2 He1 He2. apply H; by apply list_elem_of_fmap_2.
  - intros x1 x2 [e1 [-> ?]]%list_elem_of_fmap [e2 [-> ?]]%list_elem_of_fmap. eauto.
Qed.

Lemma hist_sorted_cons e h :
  hist_sorted (e :: h) ↔ (∀ e', e' ∈ h → rev_lt e.1 e'.1) ∧ hist_sorted h.
Proof.
  unfold hist_sorted. rewrite fmap_cons, StronglySorted_cons, Forall_fmap, Forall_forall.
  done.
Qed.

Lemma hist_sorted_filter (P : event → Prop) `{!∀ e, Decision (P e)} h :
  hist_sorted h → hist_sorted (base.filter P h).
Proof.
  induction h as [|e h IH]; [done|]. rewrite hist_sorted_cons, filter_cons.
  intros [He Hh]. case_decide; [|auto]. rewrite hist_sorted_cons.
  split; [|auto]. intros e' [_ ?]%list_elem_of_filter. auto.
Qed.

(** In a sorted history the newest event is the greatest one. *)
Lemma newest_at_max h t e :
  hist_sorted h →
  newest_at h t = Some e ↔
    e ∈ h ∧ rev_le e.1 t ∧ (∀ e', e' ∈ h → rev_le e'.1 t → rev_le e'.1 e.1).
Proof.
  intros Hs. split.
  - intros H. destruct (newest_at_elem _ _ _ H) as [??]. split_and!; [done..|].
    intros e' Hin Hle. unfold newest_at in H. apply last_Some in H as [l E].
    assert (e' ∈ l ++ [e]) as Hin' by (rewrite <- E; by apply list_elem_of_filter).
    assert (hist_sorted (l ++ [e])) as Hs' by (rewrite <- E; by apply hist_sorted_filter).
    apply hist_sorted_app in Hs' as (Hs' & _).
    apply elem_of_app in Hin' as [?|Hx%list_elem_of_singleton]; [|by rewrite Hx].
    apply rev_lt_le, Hs'; [done|]. by apply list_elem_of_singleton.
  - intros (Hin & Hle & Hmax). destruct (newest_at h t) as [e'|] eqn:E.
    + f_equal. assert (e'.1 = e.1) as Heq.
      { destruct (newest_at_elem _ _ _ E) as [Hin' ?].
        apply (anti_symm rev_le); [by apply Hmax|].
        unfold newest_at in E. apply last_Some in E as [l E].
        assert (e ∈ l ++ [e']) as He by (rewrite <- E; by apply list_elem_of_filter).
        assert (hist_sorted (l ++ [e'])) as Hs' by (rewrite <- E; by apply hist_sorted_filter).
        apply hist_sorted_app in Hs' as (Hs' & _).
        apply elem_of_app in He as [?|Hx%list_elem_of_singleton]; [|by rewrite Hx].
        apply rev_lt_le, Hs'; [done|]. by apply list_elem_of_singleton. }
      destruct (newest_at_elem _ _ _ E) as [Hin' _].
      apply list_elem_of_lookup in Hin as [i Hi], Hin' as [j Hj].
      assert (NoDup h.*1) as Hnd.
      { clear -Hs. induction h as [|x h IH]; [constructor|].
        apply hist_sorted_cons in Hs as [Hx Hh]. rewrite fmap_cons. constructor; [|auto].
        intros [y [Ey Hy]]%list_elem_of_fmap. specialize (Hx _ Hy). rewrite Ey in Hx.
        by apply (irreflexivity rev_lt) in Hx. }
      assert (i = j) as ->; [|congruence].
      eapply NoDup_lookup; [done| |].
      * rewrite list_lookup_fmap, Hi. simpl. done.
      * rewrite list_lookup_fmap, Hj. simpl. by rewrite Heq.
    + rewrite newest_at_None in E. by destruct (E e).
Qed.

(** ** Reads through the generations *)

Lemma latest_puts_sorted t l :
  StronglySorted rev_lt l →
  foldl (latest_step t) None l =
    (λ r, (r, false)) <$> last (base.filter (λ r, rev_le r t) l).
Proof.
  induction l as [|r l IH] using rev_ind; [done|].
  rewrite StronglySorted_app. intros (Hr & Hl & _).
  rewrite foldl_app, IH by done. simpl. unfold latest_step.
  rewrite filter_app, last_app, filter_cons, filter_nil.
  destruct (rev_leb r t) eqn:E.
  - rewrite rev_leb_le in E. rewrite decide_True by done. simpl.
    destruct (last (base.filter _ l)) as [b|] eqn:Eb; simpl; [|done].
    apply last_Some_elem_of, list_elem_of_filter in Eb as [_ Hb].
    specialize (Hr b r Hb ltac:(by apply list_elem_of_singleton)).
    apply rev_leb_nle in Hr. by rewrite Hr.
  - rewrite rev_leb_nle in E. rewrite decide_False; [done|].
    by apply rev_not_le.
Qed.

Lemma filter_puts t (l : list Revision) :
  base.filter (λ e : event, rev_le e.1 t) ((λ r, (r, false)) <$> l) =
  (λ r, (r, false)) <$> base.filter (λ r, rev_le r t) l.
Proof.
  induction l as [|r l IH]; [done|]. csimpl. rewrite !filter_cons. simpl.
  case_decide; csimpl; by rewrite IH.
Qed.

Lemma gen_events_puts g :
  hist_sorted (gen_events g) →
  StronglySorted rev_lt (revs g) ∧
  (∀ t r, tombstone g = Some t → r ∈ revs g → rev_lt r t).
Proof.
  unfold gen_events. rewrite hist_sorted_app. intros (H & Hp & _). split.
  - unfold hist_sorted in Hp. rewrite <- list_fmap_compose in Hp.
    by rewrite list_fmap_id in Hp.
  - intros t r Ht Hr. rewrite Ht in H.
    apply (H (r, false) (t, true)); [|by apply list_elem_of_singleton].
    by apply (list_elem_of_fmap_2 (λ r, (r, false))).
Qed.

Lemma latest_at_or_before_spec g t :
  hist_sorted (gen_events g) → latest_at_or_before g t = newest_at (gen_events g) t.
Proof.
  intros Hs. destruct (gen_events_puts g Hs) as [Hp Ht].
  unfold latest_at_or_before. rewrite latest_puts_sorted by done.
  unfold gen_events. rewrite newest_at_app. unfold newest_at at 2.
  rewrite filter_puts, fmap_last. destruct (tombstone g) as [t0|]; [|done].
  unfold newest_at. rewrite filter_cons, filter_nil. simpl.
  destruct (rev_leb t0 t) eqn:E.
  - rewrite rev_leb_le in E. rewrite decide_True by done. simpl.
    destruct (last (base.filter _ (revs g))) as [b|] eqn:Eb; simpl; [|done].
    apply last_Some_elem_of, list_elem_of_filter in Eb as [_ Hb].
    specialize (Ht t0 b eq_refl Hb). apply rev_lt_le, rev_ltb_nlt in Ht. by rewrite Ht.
  - rewrite rev_leb_nle in E. rewrite decide_False by by apply rev_not_le. done.
Qed.

Lemma revision_at_snoc gens g t :
  revision_at (gens ++ [g]) t =
    if rev_ltb t (created g) then revision_at gens t
    else match latest_at_or_before g t with
         | Some (rev, is_tomb) => if is_tomb then None else Some rev
         | None => revision_at gens t
         end.
Proof. unfold revision_at. by rewrite reverse_app. Qed.

Lemma history_snoc gens g : history (gens ++ [g]) = history gens ++ gen_events g.
Proof. unfold history. rewrite bind_app. simpl. by rewrite app_nil_r. Qed.

Lemma history_cons g gens : history (g :: gens) = gen_events g ++ history gens.
Proof. done. Qed.

Lemma gens_wf_snoc gens g :
  gens_wf (gens ++ [g]) ↔
    gens_wf gens ∧ gen_wf g ∧ (∀ g', g' ∈ gens → gen_before g' g).
Proof.
  unfold gens_wf. rewrite Forall_app, Forall_singleton, StronglySorted_app.
  split.
  - intros [[??] (Hb & ? & _)]. split_and!; [done..|].
    intros g' Hg'. apply Hb; [done|]. by apply list_elem_of_singleton.
  - intros [[??] [? Hb]]. split_and!; [done..| |done|repeat constructor].
    intros g1 g2 Hg1 Hg2%list_elem_of_singleton. subst. auto.
Qed.

Lemma revision_at_hist gens t :
  Forall gen_wf gens → revision_at gens t = hist_at (history gens) t.
Proof.
  induction gens as [|g gens IH] using rev_ind; [done|].
  rewrite Forall_app, Forall_singleton. intros [Hgs (Hne & Hs & Hc)].
  rewrite revision_at_snoc, history_snoc, IH, latest_at_or_before_spec by done.
  unfold hist_at. rewrite newest_at_app.
  destruct (rev_ltb t (created g)) eqn:E.
  - apply rev_ltb_lt in E.
    rewrite (proj2 (newest_at_None (gen_events g) t)); [done|].
    intros e He Hle. specialize (Hc _ He). rev_lia.
  - destruct (newest_at (gen_events g) t) as [[r []]|]; done.
Qed.

Lemma history_elem gens e : e ∈ history gens ↔ ∃ g, g ∈ gens ∧ e ∈ gen_events g.
Proof. unfold history. rewrite list_elem_of_bind. naive_solver. Qed.

Lemma history_sorted gens : gens_wf gens → hist_sorted (history gens).
Proof.
  induction gens as [|g gens IH] using rev_ind; [constructor|].
  rewrite gens_wf_snoc, history_snoc, hist_sorted_app.
  intros (Hwf & (? & ? & Hc) & Hb). split_and!; [|auto|done].
  intros e1 e2 (g' & Hg' & He1)%history_elem He2.
  destruct (Hb _ Hg') as [_ Hlt]. eapply rev_lt_le_trans; [by apply Hlt|by apply Hc].
Qed.

(** A read finds put [r] exactly when [r] is the newest event of the
    history at or below [t]. *)
Lemma revision_at_iff gens t r :
  gens_wf gens →
  revision_at gens t = Some r ↔
    (r, false) ∈ history gens ∧ rev_le r t ∧
    (∀ e, e ∈ history gens → rev_le e.1 t → rev_le e.1 r).
Proof.
  intros Hwf. rewrite revision_at_hist by apply Hwf. unfold hist_at.
  rewrite <- (newest_at_max _ t (r, false)) by by apply history_sorted.
  destruct (newest_at (history gens) t) as [[? []]|]; naive_solver.
Qed.

(** ** Puts and deletes append to the history *)

Lemma alter_last_snoc {A} (f : A → A) l x : alter_last f (l ++ [x]) = l ++ [f x].
Proof.
  induction l as [|y l IH]; [done|]. simpl. rewrite IH.
  destruct (l ++ [x]) eqn:E; [|done]. by apply app_nil in E as [_ ?].
Qed.

Lemma gen_events_push g r :
  is_open g = true → gen_events (push_rev r g) = gen_events g ++ [(r, false)].
Proof.
  unfold is_open, gen_events, push_rev. destruct (tombstone g); [done|]. simpl.
  intros _. by rewrite fmap_app, !app_nil_r.
Qed.

Lemma gen_events_close g r :
  is_open g = true → gen_events (close_gen r g) = gen_events g ++ [(r, true)].
Proof.
  unfold is_open, gen_events, close_gen. destruct (tombstone g); [done|]. simpl.
  intros _. by rewrite app_nil_r.
Qed.

(** An event after all of an open generation's extends it. *)
Lemma gen_wf_extend g g' e :
  gen_wf g → created g' = created g → gen_events g' = gen_events g ++ [e] →
  (∀ e', e' ∈ gen_events g → rev_lt e'.1 e.1) → gen_wf g'.
Proof.
  intros (Hne & Hs & Hc) Hcr Hev Hlt. unfold gen_wf. rewrite Hev, Hcr. split_and!.
  - by destruct (gen_events g).
  - apply hist_sorted_app. split_and!; [|done|repeat constructor].
    intros e1 e2 H1 H2%list_elem_of_singleton. subst. auto.
  - intros e' [He'|He'%list_elem_of_singleton]%elem_of_app; [auto|]. subst.
    destruct (gen_events g) as [|e0 l]; [done|].
    assert (e0 ∈ e0 :: l) as He0 by left.
    apply rev_lt_le. eapply rev_le_lt_trans; [by apply Hc|by apply Hlt].
Qed.

Lemma gens_live_snoc gens g : gens_live (gens ++ [g]) = is_open g.
Proof. unfold gens_live. by rewrite last_snoc. Qed.

Lemma needs_new_live gens : needs_new gens = negb (gens_live gens).
Proof. unfold needs_new, gens_live. by destruct (last gens). Qed.

Lemma gens_live_inv gens :
  gens_live gens = true → ∃ gs g, gens = gs ++ [g] ∧ is_open g = true.
Proof.
  destruct gens as [|g gens _] using rev_ind; [done|].
  rewrite gens_live_snoc. eauto.
Qed.

(** In a well-formed index that is not live every generation is closed. *)
Lemma gens_not_live_closed gens g :
  gens_wf gens → gens_live gens = false → g ∈ gens → is_open g = false.
Proof.
  destruct gens as [|g0 gens _] using rev_ind; [by intros _ _ ?%not_elem_of_nil|].
  rewrite gens_live_snoc, gens_wf_snoc. intros (_ & _ & Hb) Hg0.
  intros [Hg|Hg%list_elem_of_singleton]%elem_of_app; [by apply Hb|by subst].
Qed.

(** The history grows by one event on both branches of [record_put]; a
    live key keeps its creation revision, a new generation starts at 1. *)
Lemma record_put_spec idx rev idx' v c :
  gens_wf (generations idx) →
  (∀ e, e ∈ history (generations idx) → rev_lt e.1 rev) →
  record_put idx rev = (idx', (v, c)) →
  gens_wf (generations idx') ∧
  history (generations idx') = history (generations idx) ++ [(rev, false)] ∧
  idx_key idx' = idx_key idx ∧ current idx' = Some (rev, v) ∧
  match last (generations idx) with
  | Some g => if is_open g
              then v = Z.of_nat (length (revs g)) + 1 ∧ c = created g
              else v = 1 ∧ c = rev
  | None => v = 1 ∧ c = rev
  end.
Proof.
  intros Hwf Hlt. unfold record_put. rewrite needs_new_live.
  destruct (gens_live (generations idx)) eqn:Hl; simpl.
  - destruct (gens_live_inv _ Hl) as (gs & g & E & Hg). rewrite E in *.
    rewrite alter_last_snoc, !last_snoc. intros [= <- <- <-]. simpl.
    apply gens_wf_snoc in Hwf as (Hgs & Hwg & Hb).
    rewrite history_snoc in Hlt.
    rewrite !history_snoc, gen_events_push, Hg by done. split_and!.
    + apply gens_wf_snoc. split_and!; [done| |].
      * eapply gen_wf_extend; [done|done|by apply gen_events_push|].
        intros e He. apply Hlt, elem_of_app. by right.
      * intros g' Hg'. destruct (Hb _ Hg') as [??]. by split.
    + by rewrite app_assoc.
    + done.
    + unfold current. simpl. rewrite last_snoc. unfold is_open, push_rev in *. simpl.
      destruct (tombstone g); [done|]. by rewrite last_snoc.
    + rewrite length_app. simpl. lia.
    + done.
  - intros [= <- <- <-]. simpl. rewrite history_snoc. split_and!.
    + apply gens_wf_snoc. split_and!; [done| |].
      * split_and!; [done|repeat constructor|].
        intros e He%list_elem_of_singleton. by subst.
      * intros g' Hg'. split; [by eapply gens_not_live_closed|].
        intros e He. apply Hlt, history_elem. eauto.
    + done.
    + done.
    + unfold current. simpl. by rewrite last_snoc.
    + unfold gens_live in Hl. destruct (last (generations idx)) as [g|]; [|done].
      by rewrite Hl.
Qed.

(** A delete of a live key appends a tombstone; of any other it does
    nothing. *)
Lemma record_delete_spec idx rev idx' closed :
  gens_wf (generations idx) →
  (∀ e, e ∈ history (generations idx) → rev_lt e.1 rev) →
  record_delete idx rev = (idx', closed) →
  closed = is_live idx ∧ gens_wf (generations idx') ∧ idx_key idx' = idx_key idx ∧
  (if closed
   then history (generations idx') = history (generations idx) ++ [(rev, true)] ∧
        is_live idx' = false
   else idx' = idx).
Proof.
  intros Hwf Hlt. unfold record_delete, is_live.
  destruct (gens_live (generations idx)) eqn:Hl.
  - destruct (gens_live_inv _ Hl) as (gs & g & E & Hg). rewrite E in *.
    rewrite last_snoc, Hg, alter_last_snoc. intros [= <- <-]. simpl.
    apply gens_wf_snoc in Hwf as (Hgs & Hwg & Hb).
    rewrite history_snoc in Hlt.
    rewrite !history_snoc, gens_live_snoc, gen_events_close by done.
    split_and!; [done| |done|by rewrite app_assoc|done].
    apply gens_wf_snoc. split_and!; [done| |].
    + eapply gen_wf_extend; [done|done|by apply gen_events_close|].
      intros e He. apply Hlt, elem_of_app. by right.
    + intros g' Hg'. destruct (Hb _ Hg') as [??]. by split.
  - unfold gens_live in Hl. destruct (last (generations idx)) as [g|].
    + rewrite Hl. by intros [= <- <-].
    + by intros [= <- <-].
Qed.

(** ** Compaction *)

(** What compaction drops of a history, in order. *)
Definition hist_dropped (h : list event) (c : Revision) : list Revision :=
  let l := base.filter (λ e, rev_le e.1 c) h in
  match last l with
  | Some (_, false) => (take (length l - 1) l).*1
  | _ => l.*1
  end.

Lemma filter_all {A} (P : A → Prop) `{!∀ x, Decision (P x)} (l : list A) :
  (∀ x, x ∈ l → P x) → base.filter P l = l.
Proof.
  induction l as [|x l IH]; intros Hall; [done|]. rewrite filter_cons.
  rewrite decide_True by (apply Hall; left). rewrite IH; [done|].
  intros; apply Hall; by right.
Qed.

Lemma filter_none {A} (P : A → Prop) `{!∀ x, Decision (P x)} (l : list A) :
  (∀ x, x ∈ l → ¬ P x) → base.filter P l = [].
Proof.
  intros Hno. apply elem_of_nil_inv. intros x [??]%list_elem_of_filter. by eapply Hno.
Qed.

Lemma sorted_split (l : list Revision) c :
  StronglySorted rev_lt l →
  l = base.filter (λ r, rev_le r c) l ++ base.filter (λ r, ¬ rev_le r c) l.
Proof.
  induction l as [|r l IH]; [done|]. rewrite StronglySorted_cons, Forall_forall.
  intros [Hr Hl]. rewrite !filter_cons. destruct (decide (rev_le r c)) as [Hle|Hle].
  - rewrite decide_False by tauto. simpl. by rewrite <- IH.
  - rewrite decide_True by tauto. rewrite filter_none, filter_all; [done| |].
    all: intros x Hx ?; specialize (Hr _ Hx); rev_lia.
Qed.

Lemma floor_idx_spec i acc l c :
  StronglySorted rev_lt l →
  floor_idx i acc l c =
    match length (base.filter (λ r, rev_le r c) l) with
    | O => acc
    | S n => Some (i + n)%nat
    end.
Proof.
  revert i acc. induction l as [|r l IH]; intros i acc; [done|].
  rewrite StronglySorted_cons, Forall_forall. intros [Hr Hl].
  simpl. rewrite filter_cons. destruct (rev_leb r c) eqn:E.
  - rewrite rev_leb_le in E. rewrite decide_True by done. rewrite IH by done. simpl.
    destruct (length (base.filter _ l)); f_equal; lia.
  - rewrite rev_leb_nle in E. rewrite decide_False by by apply rev_not_le.
    rewrite filter_none; [done|]. intros x Hx ?. specialize (Hr _ Hx). rev_lia.
Qed.

(** The puts a surviving generation loses and keeps. *)
Lemma compact_revs_spec (l : list Revision) c :
  StronglySorted rev_lt l →
  match floor_idx 0 None l c with
  | Some fi => (take fi l, drop fi l)
  | None => ([], l)
  end =
  let p := base.filter (λ r, rev_le r c) l in
  (take (length p - 1) p, drop (length p - 1) p ++ base.filter (λ r, ¬ rev_le r c) l).
Proof.
  intros Hl. rewrite floor_idx_spec by done. pose proof (sorted_split l c Hl) as E.
  simpl. destruct (base.filter (λ r, rev_le r c) l) as [|r p] eqn:Ep; simpl.
  - by rewrite E at 1.
  - rewrite Nat.sub_0_r. rewrite E at 1 2.
    rewrite take_app_le, drop_app_le by (simpl; lia). done.
Qed.

Lemma last_drop_singleton {A} (l : list A) x :
  last l = Some x → drop (length l - 1) l = [x].
Proof.
  intros [l' ->]%last_Some. rewrite length_app. simpl.
  rewrite drop_app_length'; [done|lia].
Qed.

(** The events at or below the compacted revision that a generation keeps. *)
Lemma compact_puts_kept (l : list Revision) c :
  let p := base.filter (λ r, rev_le r c) l in
  (λ r, (r, false)) <$> drop (length p - 1) p =
    match newest_at ((λ r, (r, false)) <$> l) c with
    | Some (r, false) => [(r, false)]
    | _ => []
    end.
Proof.
  intros p. unfold newest_at. rewrite filter_puts. fold p. rewrite fmap_last.
  destruct (last p) as [r|] eqn:E; simpl.
  - by rewrite (last_drop_singleton _ _ E).
  - apply last_None in E. by rewrite E.
Qed.

(** A generation that survives: open, or closed above [c]. *)
Definition survives (g : Generation) (c : Revision) : Prop :=
  ∀ t, tombstone g = Some t → ¬ rev_le t c.

#[global] Instance survives_dec g c : Decision (survives g c).
Proof.
  unfold survives. destruct (tombstone g) as [t|].
  - destruct (decide (rev_le t c)).
    + right. intros H. by apply (H t).
    + left. by intros ? [= <-].
  - by left.
Defined.

Lemma filter_not_puts c (l : list Revision) :
  base.filter (λ e : event, ¬ rev_le e.1 c) ((λ r, (r, false)) <$> l) =
  (λ r, (r, false)) <$> base.filter (λ r, ¬ rev_le r c) l.
Proof.
  induction l as [|r l IH]; [done|]. csimpl. rewrite !filter_cons. simpl.
  case_decide; csimpl; by rewrite IH.
Qed.

Lemma survives_filter_le g c :
  survives g c →
  base.filter (λ e : event, rev_le e.1 c) (gen_events g) =
  (λ r, (r, false)) <$> base.filter (λ r, rev_le r c) (revs g).
Proof.
  intros H. unfold gen_events. rewrite filter_app, filter_puts.
  destruct (tombstone g) as [t|] eqn:E; [|by rewrite app_nil_r].
  rewrite filter_cons, decide_False by by apply H. by rewrite app_nil_r.
Qed.

Lemma compact_gen_survives g c :
  gen_wf g → survives g c →
  ∃ rs, compact_gen g c =
    (take (length (base.filter (λ r, rev_le r c) (revs g)) - 1)
       (base.filter (λ r, rev_le r c) (revs g)),
     [mkGen (created g) rs (tombstone g)]) ∧
    gen_events (mkGen (created g) rs (tombstone g)) = hist_compact (gen_events g) c.
Proof.
  intros (Hne & Hs & Hc) Hsv. destruct (gen_events_puts g Hs) as [Hp Ht].
  set (p := base.filter (λ r, rev_le r c) (revs g)).
  set (rs := drop (length p - 1) p ++ base.filter (λ r, ¬ rev_le r c) (revs g)).
  assert (gen_events (mkGen (created g) rs (tombstone g)) =
          hist_compact (gen_events g) c) as Hev.
  { unfold hist_compact, gen_events at 1. simpl. unfold rs.
    rewrite fmap_app. unfold p. rewrite compact_puts_kept, <- app_assoc. f_equal.
    - unfold newest_at. by rewrite survives_filter_le, filter_puts by done.
    - unfold gen_events. rewrite filter_app, filter_not_puts. f_equal.
      destruct (tombstone g) as [t|] eqn:E; [|done].
      by rewrite filter_cons, decide_True by by apply Hsv. }
  exists rs. split; [|done].
  assert (bool_decide (rs = []) && is_open g = false) as Hopen.
  { destruct (is_open g) eqn:Ho; [|by rewrite andb_false_r].
    rewrite andb_true_r, bool_decide_eq_false. intros [H1 H2]%app_nil.
    assert (revs g = []) as Hnil.
    { rewrite (sorted_split _ c Hp), H2, app_nil_r. fold p.
      apply (f_equal length) in H1. rewrite length_drop in H1.
      destruct p; simpl in *; [done|lia]. }
    apply Hne. unfold gen_events, is_open in *. rewrite Hnil. by destruct (tombstone g). }
  unfold compact_gen. rewrite compact_revs_spec by done. cbv zeta. fold p. fold rs. cbv iota beta.
  rewrite Hopen. destruct (tombstone g) as [t|] eqn:E; [|done].
  destruct (rev_leb t c) eqn:El; [|done].
  apply rev_leb_le in El. by destruct (Hsv t E).
Qed.

Lemma compact_gen_dies g c t :
  tombstone g = Some t → rev_le t c → compact_gen g c = (revs g ++ [t], []).
Proof.
  intros Ht Hle. unfold compact_gen. rewrite Ht.
  apply rev_leb_le in Hle. by rewrite Hle.
Qed.

(** Generations entirely above [c] are untouched. *)
Lemma compact_gens_above gens c :
  Forall gen_wf gens → (∀ e, e ∈ history gens → ¬ rev_le e.1 c) →
  compact_gens gens c = ([], gens).
Proof.
  induction gens as [|g gens IH]; [done|].
  rewrite Forall_cons, history_cons. intros [Hg Hgs] H. simpl.
  rewrite IH by (done || (intros e He; apply H, elem_of_app; by right)).
  assert (∀ r, r ∈ revs g → ¬ rev_le r c) as Hr.
  { intros r Hr. apply (H (r, false)), elem_of_app. left. unfold gen_events.
    apply elem_of_app. left. by apply (list_elem_of_fmap_2 (λ r, (r, false))). }
  assert (survives g c) as Hsv.
  { intros t Ht. apply (H (t, true)), elem_of_app. left. unfold gen_events.
    rewrite Ht. apply elem_of_app. right. by apply list_elem_of_singleton. }
  assert (compact_gen g c = ([], [g])) as ->; [|done].
  destruct Hg as (Hne & Hs & _). destruct (gen_events_puts g Hs) as [Hp _].
  unfold compact_gen. rewrite compact_revs_spec by done.
  rewrite filter_none, (filter_all (λ r, ¬ rev_le r c)) by done. simpl.
  assert (bool_decide (revs g = []) && is_open g = false) as ->.
  { unfold gen_events, is_open in *. destruct (tombstone g), (revs g); by try rewrite andb_false_r. }
  destruct (tombstone g) as [t|] eqn:E; [|by destruct g; simplify_eq/=].
  destruct (rev_leb t c) eqn:El; [|by destruct g; simplify_eq/=].
  apply rev_leb_le in El. by destruct (Hsv t E).
Qed.

Lemma gens_wf_cons g gens :
  gens_wf (g :: gens) ↔
    gen_wf g ∧ (∀ g', g' ∈ gens → gen_before g g') ∧ gens_wf gens.
Proof.
  unfold gens_wf. rewrite Forall_cons, StronglySorted_cons, (Forall_forall (gen_before g)). tauto.
Qed.

(** If the first generation survives, nothing later is at or below [c]. *)
Lemma survives_rest_above g gens c :
  gens_wf (g :: gens) → survives g c → ∀ e, e ∈ history gens → ¬ rev_le e.1 c.
Proof.
  intros [Hg [Hb Hgs]]%gens_wf_cons Hsv e (g' & Hg' & He)%history_elem Hle.
  destruct (Hb _ Hg') as [Ho Hlt]. unfold is_open in Ho.
  destruct (tombstone g) as [t|] eqn:Et; [|done].
  apply (Hsv t Et).
  destruct (proj1 (Forall_forall _ _) (proj1 Hgs) _ Hg') as (_ & _ & Hc).
  assert (rev_lt t (created g')) as Ht.
  { apply (Hlt (t, true)). unfold gen_events. rewrite Et.
    apply elem_of_app. right. by apply list_elem_of_singleton. }
  specialize (Hc _ He). rev_lia.
Qed.

Lemma dies_events_below g c t :
  gen_wf g → tombstone g = Some t → rev_le t c → ∀ e, e ∈ gen_events g → rev_le e.1 c.
Proof.
  intros (_ & Hs & _) Ht Hle e He. destruct (gen_events_puts g Hs) as [_ Hr].
  unfold gen_events in He. rewrite Ht in He.
  apply elem_of_app in He as [[r [-> Hin]]%list_elem_of_fmap|He%list_elem_of_singleton].
  - specialize (Hr _ _ Ht Hin). simpl. rev_lia.
  - by subst.
Qed.

(** Compaction works on the flat history. *)
Lemma compact_gens_hist gens c :
  gens_wf gens →
  history (compact_gens gens c).2 = hist_compact (history gens) c ∧
  (compact_gens gens c).1 = hist_dropped (history gens) c.
Proof.
  induction gens as [|g gens IH]; [done|]. intros Hwf.
  pose proof (proj1 (gens_wf_cons g gens) Hwf) as (Hg & Hb & Hgs).
  destruct (IH Hgs) as [IHh IHd]. rewrite history_cons. simpl.
  destruct (decide (survives g c)) as [Hsv|Hd].
  - pose proof (survives_rest_above _ _ _ Hwf Hsv) as Hab.
    rewrite compact_gens_above by (done || apply Hgs).
    destruct (compact_gen_survives g c Hg Hsv) as (rs & Ecg & Hev).
    rewrite Ecg. cbn [fst snd]. rewrite app_nil_r. split.
    + cbn [app]. rewrite history_cons, Hev. unfold hist_compact.
      rewrite newest_at_app, (proj2 (newest_at_None (history gens) c)) by done.
      rewrite filter_app, <- app_assoc. f_equal. f_equal.
      by rewrite filter_all.
    + unfold hist_dropped. rewrite filter_app, (filter_none _ (history gens)) by done.
      rewrite app_nil_r, survives_filter_le, fmap_last, length_fmap by done.
      destruct (last (base.filter _ (revs g))) eqn:El; simpl.
      * by rewrite <- fmap_take, <- list_fmap_compose, list_fmap_id.
      * apply last_None in El. by rewrite El.
  - assert (∃ t, tombstone g = Some t ∧ rev_le t c) as (t & Ht & Hle).
    { unfold survives in Hd. destruct (tombstone g) as [t|].
      - exists t. split; [done|]. destruct (decide (rev_le t c)); [done|].
        destruct Hd. by intros ? [= <-].
      - by destruct Hd. }
    pose proof (dies_events_below g c t Hg Ht Hle) as Hbel.
    rewrite (compact_gen_dies g c t) by done. destruct (compact_gens gens c) as [ds ks].
    simpl in *. split.
    + rewrite IHh. unfold hist_compact. rewrite newest_at_app, filter_app.
      rewrite (filter_none _ (gen_events g)) by (intros e He Hn; by apply Hn, Hbel).
      destruct (newest_at (history gens) c) as [[r []]|]; [done..|].
      unfold newest_at. rewrite (filter_all _ (gen_events g)) by done. unfold gen_events. rewrite Ht, last_snoc.
      done.
    + rewrite IHd. unfold hist_dropped. rewrite filter_app, (filter_all _ (gen_events g)) by done.
      rewrite last_app.
      assert ((gen_events g).*1 = revs g ++ [t]) as Hev.
      { unfold gen_events. rewrite Ht, fmap_app, <- list_fmap_compose, list_fmap_id. done. }
      destruct (last (base.filter _ (history gens))) as [[r []]|] eqn:El; cbv iota beta.
      * by rewrite fmap_app, Hev.
      * rewrite <- Hev, <- fmap_app. apply last_Some in El as [l' El].
        rewrite El, !length_app. simpl.
        f_equal. rewrite (take_app_ge (gen_events g)) by lia. f_equal. f_equal. lia.
      * apply last_None in El. rewrite El, !app_nil_r, <- Hev.
        replace (last (gen_events g)) with (Some (t, true)); [done|].
        unfold gen_events. by rewrite Ht, last_snoc.
Qed.

(** A kept generation is a part of the original one. *)
Lemma compact_gens_sub gens c g' :
  gens_wf gens → g' ∈ (compact_gens gens c).2 →
  ∃ g, g ∈ gens ∧ created g' = created g ∧ tombstone g' = tombstone g ∧
       gen_events g' ≠ [] ∧ gen_events g' = hist_compact (gen_events g) c.
Proof.
  induction gens as [|g gens IH]; [by intros _ ?%not_elem_of_nil|].
  intros (Hg & Hb & Hgs)%gens_wf_cons. simpl.
  destruct (decide (survives g c)) as [Hsv|Hd].
  - destruct (compact_gen_survives g c Hg Hsv) as (rs & Ecg & Hev). rewrite Ecg.
    destruct (compact_gens gens c) as [ds ks]. simpl.
    intros [->|Hin]%elem_of_cons.
    + exists g. split_and!; [by left|done..| |done]. rewrite Hev. unfold hist_compact.
      destruct Hg as (Hne & _). destruct (gen_events g) as [|e h] eqn:E; [done|].
      destruct (newest_at (e :: h) c) as [[r b]|] eqn:En.
      * assert (b = false) as ->; [|done].
        destruct (newest_at_elem _ _ _ En) as [Hin Hle]. rewrite <- E in Hin.
        unfold gen_events in Hin. apply elem_of_app in Hin as [(?&[= -> ->]&?)%list_elem_of_fmap|Hin]; [done|].
        destruct (tombstone g) as [t|] eqn:Et; [|by apply not_elem_of_nil in Hin].
        apply list_elem_of_singleton in Hin as [= -> ->]. by destruct (Hsv t Et).
      * rewrite newest_at_None in En. rewrite filter_all; [done|]. auto.
    + destruct (IH Hgs Hin) as (g0 & ? & ?). exists g0. split; [by right|done].
  - assert (compact_gen g c = (revs g ++ default [] ((λ t, [t]) <$> tombstone g), [])) as ->.
    { unfold survives in Hd. destruct (tombstone g) as [t|] eqn:Et; [|by destruct Hd].
      destruct (decide (rev_le t c)); [by apply compact_gen_dies|].
      destruct Hd. by intros ? [= <-]. }
    destruct (compact_gens gens c) as [ds ks]. simpl. intros Hin.
    destruct (IH Hgs Hin) as (g0 & ? & ?). exists g0. split; [by right|done].
Qed.

Lemma hist_compact_elem h c e : e ∈ hist_compact h c → e ∈ h.
Proof.
  unfold hist_compact. intros [He|[_ He]%list_elem_of_filter]%elem_of_app; [|done].
  destruct (newest_at h c) as [[r []]|] eqn:E; try by apply not_elem_of_nil in He.
  apply list_elem_of_singleton in He as ->. by apply newest_at_elem in E as [? _].
Qed.

Lemma hist_compact_sorted h c : hist_sorted h → hist_sorted (hist_compact h c).
Proof.
  intros Hs. unfold hist_compact. apply hist_sorted_app. split_and!.
  - intros e1 e2 H1 [H2 _]%list_elem_of_filter.
    destruct (newest_at h c) as [[r []]|] eqn:E; try by apply not_elem_of_nil in H1.
    apply list_elem_of_singleton in H1 as ->. apply newest_at_elem in E as [_ E]. rev_lia.
  - destruct (newest_at h c) as [[r []]|]; repeat constructor.
  - by apply hist_sorted_filter.
Qed.

Lemma compact_gens_wf gens c : gens_wf gens → gens_wf (compact_gens gens c).2.
Proof.
  induction gens as [|g gens IH]; [done|]. intros Hwf.
  pose proof (proj1 (gens_wf_cons g gens) Hwf) as (Hg & Hb & Hgs).
  specialize (IH Hgs). simpl.
  destruct (decide (survives g c)) as [Hsv|Hd].
  - pose proof (compact_gens_sub (g :: gens) c) as Hsub. simpl in Hsub.
    destruct (compact_gen_survives g c Hg Hsv) as (rs & Ecg & Hev). rewrite Ecg in *.
    destruct (compact_gens gens c) as [ds ks] eqn:Ek. simpl in *.
    apply gens_wf_cons. split_and!; [| |done].
    + split_and!.
      * destruct (Hsub (mkGen (created g) rs (tombstone g)) Hwf) as (?&_&_&_&?&_);
          [by left|done].
      * rewrite Hev. apply hist_compact_sorted, Hg.
      * intros e He. rewrite Hev in He. by apply hist_compact_elem, Hg in He.
    + intros g' Hg'. pose proof (compact_gens_sub gens c g' Hgs) as Hs'.
      rewrite Ek in Hs'. destruct (Hs' Hg') as (g0 & Hg0 & Hcr & _).
      destruct (Hb _ Hg0) as [Ho Hlt]. split; [done|].
      intros e He. rewrite Hev in He. rewrite Hcr. by apply hist_compact_elem, Hlt in He.
  - assert ((compact_gen g c).2 = []) as E.
    { unfold survives in Hd. destruct (tombstone g) as [t|] eqn:Et; [|by destruct Hd].
      destruct (decide (rev_le t c)); [by rewrite (compact_gen_dies g c t)|].
      destruct Hd. by intros ? [= <-]. }
    destruct (compact_gen g c), (compact_gens gens c). simpl in *. by subst.
Qed.

Lemma hist_at_compact h c t :
  hist_sorted h → rev_le c t → hist_at (hist_compact h c) t = hist_at h t.
Proof.
  intros Hs Hct. unfold hist_at.
  assert (newest_at h t =
    match newest_at (base.filter (λ e, ¬ rev_le e.1 c) h) t with
    | Some e => Some e | None => newest_at h c end) as ->.
  { induction h as [|e h IH] using rev_ind; [done|].
    apply hist_sorted_app in Hs as (Hlt & Hs & _). specialize (IH Hs).
    rewrite filter_app, !newest_at_app, IH, !newest_at_singleton, filter_cons, filter_nil.
    destruct (decide (rev_le e.1 c)).
    - rewrite (decide_False (P:=¬ rev_le e.1 c)) by tauto.
      rewrite decide_True by (etrans; eassumption). simpl.
      destruct (newest_at (base.filter _ h) t) as [e'|] eqn:E; [|done].
      apply newest_at_elem in E as [[Hn Hin]%list_elem_of_filter _].
      specialize (Hlt e' e Hin ltac:(by apply list_elem_of_singleton)). rev_lia.
    - rewrite (decide_True (P:=¬ rev_le e.1 c)) by tauto. rewrite newest_at_singleton.
      by destruct (decide (rev_le e.1 t)). }
  unfold hist_compact. rewrite newest_at_app.
  destruct (newest_at (base.filter _ h) t); [done|].
  destruct (newest_at h c) as [[r []]|] eqn:E; [done| |done].
  apply newest_at_elem in E as [_ E].
  rewrite newest_at_singleton. by rewrite decide_True by (etrans; eassumption).
Qed.

(** Compaction at [c] changes no read at or above [c]. *)
Lemma compact_gens_reads gens c t :
  gens_wf gens → rev_le c t →
  revision_at (compact_gens gens c).2 t = revision_at gens t.
Proof.
  intros Hwf Hct. rewrite !revision_at_hist by first [apply Hwf|by apply compact_gens_wf].
  destruct (compact_gens_hist gens c Hwf) as [-> _].
  apply hist_at_compact; [by apply history_sorted|done].
Qed.

(** What compaction reports as dropped is what left the index; none of it
    is above the compacted revision or readable at or above it. *)
Lemma compact_gens_dropped gens c :
  gens_wf gens →
  (history gens).*1 =
    (compact_gens gens c).1 ++ (history (compact_gens gens c).2).*1 ∧
  (∀ r, r ∈ (compact_gens gens c).1 →
     rev_le r c ∧ (∀ t, rev_le c t → revision_at gens t ≠ Some r)).
Proof.
  intros Hwf. pose proof (history_sorted _ Hwf) as Hs.
  assert ((history gens).*1 =
    (compact_gens gens c).1 ++ (history (compact_gens gens c).2).*1) as Hsplit.
  { destruct (compact_gens_hist gens c Hwf) as [-> ->].
    revert Hs. generalize (history gens). clear gens Hwf. intros h Hs.
    assert (h = base.filter (λ e, rev_le e.1 c) h ++ base.filter (λ e, ¬ rev_le e.1 c) h) as E.
    { induction h as [|e h IH]; [done|]. apply hist_sorted_cons in Hs as [He Hs].
      rewrite !filter_cons. destruct (decide (rev_le e.1 c)).
      - rewrite decide_False by tauto. simpl. by rewrite <- IH.
      - rewrite decide_True by tauto. rewrite filter_none, filter_all; [done| |].
        all: intros x Hx ?; specialize (He _ Hx); rev_lia. }
    rewrite E at 1. unfold hist_dropped, hist_compact, newest_at.
    destruct (last (base.filter (λ e, rev_le e.1 c) h)) as [[r []]|] eqn:El;
      rewrite fmap_app; [done| |done].
    rewrite fmap_app, app_assoc. f_equal.
    apply last_Some in El as [l ->]. rewrite length_app, Nat.add_sub, take_app_length.
    by rewrite fmap_app. }
  split; [done|]. intros r Hr. split.
  - destruct (compact_gens_hist gens c Hwf) as [_ E]. rewrite E in Hr.
    unfold hist_dropped in Hr.
    assert (r ∈ (base.filter (λ e : event, rev_le e.1 c) (history gens)).*1) as Hin.
    { destruct (last _) as [[? []]|]; [done| |done].
      apply list_elem_of_fmap in Hr as (e & -> & He).
      apply list_elem_of_fmap_2. by apply elem_of_take in He as (?&?%list_elem_of_lookup_2&_). }
    by apply list_elem_of_fmap in Hin as (e & -> & [? _]%list_elem_of_filter).
  - intros t Hct Hrt. rewrite <- (compact_gens_reads gens c t) in Hrt by done.
    apply revision_at_iff in Hrt as [Hin _]; [|by apply compact_gens_wf].
    unfold hist_sorted in Hs. rewrite Hsplit in Hs.
    eapply (irreflexivity rev_lt r), StronglySorted_app_1_elem_of; [done..|].
    by apply (list_elem_of_fmap_2 fst _ (r, false)).
Qed.

Lemma take_pred_nil {A} (l : list A) :
  take (length l - 1) l = [] ↔ (length l ≤ 1)%nat.
Proof.
  destruct l as [|x [|y l]]; simpl; [naive_solver lia..|].
  split; [done|lia].
Qed.

Lemma gen_compaction_changes_spec g c :
  gen_wf g →
  gen_compaction_changes c g = false ↔ compact_gen g c = ([], [g]).
Proof.
  intros Hg. unfold gen_compaction_changes.
  destruct (decide (survives g c)) as [Hsv|Hd].
  - assert (match tombstone g with Some t => rev_leb t c | None => false end = false) as ->.
    { destruct (tombstone g) as [t|] eqn:E; [|done]. apply rev_leb_nle, rev_not_le, Hsv, E. }
    destruct Hg as (Hne & Hs & Hc). destruct (gen_events_puts g Hs) as [Hp _].
    unfold compact_gen. rewrite compact_revs_spec by done. cbv zeta.
    pose proof (sorted_split (revs g) c Hp) as Hsplit.
    set (p := base.filter (λ r, rev_le r c) (revs g)) in *.
    set (q := base.filter (λ r, ¬ rev_le r c) (revs g)) in *.
    assert (match revs g with _ :: r1 :: _ => rev_leb r1 c | _ => false end = false ↔
            (length p ≤ 1)%nat) as Hlen.
    { unfold p. clear Hsplit. destruct (revs g) as [|r0 [|r1 l]]; [naive_solver lia| |].
      - rewrite filter_cons. case_decide; simpl; naive_solver lia.
      - apply StronglySorted_cons in Hp as [Hr0 [Hr1 _]%StronglySorted_cons].
        rewrite Forall_forall in Hr0, Hr1. rewrite rev_leb_nle.
        rewrite !filter_cons. specialize (Hr0 r1 ltac:(by left)).
        destruct (decide (rev_le r1 c)).
        + rewrite decide_True by rev_lia. simpl. split; [rev_lia|lia].
        + rewrite (filter_none _ l) by (intros x Hx ?; specialize (Hr1 _ Hx); rev_lia).
          split; [|rev_lia]. case_decide; simpl; lia. }
    rewrite orb_false_l, Hlen, <- take_pred_nil. split.
    + intros Hp'. rewrite Hp'.
      assert (drop (length p - 1) p = p) as ->.
      { pose proof (take_drop (length p - 1) p) as Htd. by rewrite Hp' in Htd. }
      rewrite <- Hsplit.
      assert (bool_decide (revs g = []) && is_open g = false) as ->.
      { unfold gen_events, is_open in Hne |- *.
        destruct (tombstone g), (revs g); by try rewrite andb_false_r. }
      destruct (tombstone g) as [t|] eqn:E; [|by destruct g; simplify_eq/=].
      destruct (rev_leb t c) eqn:El; [|by destruct g; simplify_eq/=].
      apply rev_leb_le in El. by destruct (Hsv t E).
    + destruct (tombstone g) as [t|]; [destruct (rev_leb t c)|];
        repeat case_match; naive_solver.
  - unfold survives in Hd. destruct (tombstone g) as [t|] eqn:Et; [|by destruct Hd].
    destruct (rev_leb t c) eqn:El.
    + split; [done|]. apply rev_leb_le in El. by rewrite (compact_gen_dies g c t).
    + apply rev_leb_nle in El. destruct Hd. intros ? [= <-]. by apply rev_not_le.
Qed.

Lemma compact_gen_dropped_nil g c :
  gen_wf g → (compact_gen g c).1 = [] → compact_gen g c = ([], [g]).
Proof.
  intros Hg Hd. apply gen_compaction_changes_spec; [done|].
  destruct (decide (survives g c)) as [Hsv|Hn].
  - destruct (compact_gen_survives g c Hg Hsv) as (rs & E & _). rewrite E in Hd.
    apply take_pred_nil in Hd. unfold gen_compaction_changes.
    assert (match tombstone g with Some t => rev_leb t c | None => false end = false) as ->.
    { destruct (tombstone g) as [t|] eqn:Et; [|done]. apply rev_leb_nle, rev_not_le, Hsv, Et. }
    destruct (revs g) as [|r0 [|r1 l]] eqn:Er; [done..|]. simpl.
    destruct Hg as (_ & Hs & _). destruct (gen_events_puts g Hs) as [Hp _].
    rewrite Er in Hp. apply StronglySorted_cons in Hp as [Hr0 _]. rewrite Forall_forall in Hr0.
    specialize (Hr0 r1 ltac:(by left)).
    apply rev_leb_nle, rev_not_le. intros Hle.
    rewrite !filter_cons, !decide_True in Hd by rev_lia. simpl in Hd. lia.
  - unfold survives in Hn. destruct (tombstone g) as [t|] eqn:Et; [|by destruct Hn].
    destruct (decide (rev_le t c)); [|destruct Hn; by intros ? [= <-]].
    rewrite (compact_gen_dies g c t) in Hd by done. by destruct (revs g).
Qed.

(** ** Properties of the key index *)

(**  a read of a key at [t] ([KeyIndex::revision_at]) finds put [r]
    exactly when [r] is the newest event of the key's history at or below
    [t]: nothing newer, in particular no delete, comes between. *)
Theorem revision_at_newest idx t r :
  gens_wf (generations idx) →
  idx_revision_at idx t = Some r ↔
    (r, false) ∈ history (generations idx) ∧ rev_le r t ∧
    (∀ e, e ∈ history (generations idx) → rev_le e.1 t → rev_le e.1 r).
Proof. apply revision_at_iff. Qed.

Lemma hist_at_snoc_below h e t : rev_lt t e.1 → hist_at (h ++ [e]) t = hist_at h t.
Proof.
  intros H. unfold hist_at. rewrite newest_at_app, newest_at_singleton.
  by rewrite decide_False by by apply rev_not_le.
Qed.

Lemma hist_at_snoc_above h r b t :
  rev_le r t → hist_at (h ++ [(r, b)]) t = if b then None else Some r.
Proof.
  intros H. unfold hist_at. rewrite newest_at_app, newest_at_singleton.
  by rewrite decide_True by done.
Qed.

(**  [KeyIndex::record_put] at a new revision keeps the index
    well-formed, makes the key live at that revision, leaves every read
    below it as it was, and numbers the put: one more than the puts the
    open generation holds, or 1 in a new generation. *)
Theorem record_put_correct idx rev :
  gens_wf (generations idx) →
  (∀ e, e ∈ history (generations idx) → rev_lt e.1 rev) →
  let '(idx', (v, c)) := record_put idx rev in
  gens_wf (generations idx') ∧
  (∀ t, rev_le rev t → idx_revision_at idx' t = Some rev) ∧
  (∀ t, rev_lt t rev → idx_revision_at idx' t = idx_revision_at idx t) ∧
  current idx' = Some (rev, v) ∧
  match current idx with
  | Some (_, n) => v = n + 1
  | None => is_live idx = false → v = 1 ∧ c = rev
  end.
Proof.
  intros Hwf Hlt. destruct (record_put idx rev) as [idx' [v c]] eqn:E.
  destruct (record_put_spec idx rev idx' v c Hwf Hlt E) as (Hwf' & Hh & _ & Hcur & Hv).
  unfold idx_revision_at. split_and!; [done| | |done|].
  - intros t Ht. rewrite revision_at_hist, Hh by apply Hwf'. by apply hist_at_snoc_above.
  - intros t Ht. rewrite !revision_at_hist, Hh by (apply Hwf' || apply Hwf).
    by apply hist_at_snoc_below.
  - unfold current, is_live, gens_live.
    destruct (last (generations idx)) as [g|]; [|done].
    destruct (is_open g); [|done]. destruct Hv as [-> ->].
    destruct (last (revs g)); done.
Qed.

(**  [KeyIndex::record_delete] reports whether the key was live; if it
    was, the key is absent from that revision on and every earlier read is
    unchanged, and if it was not the index is untouched. *)
Theorem record_delete_correct idx rev :
  gens_wf (generations idx) →
  (∀ e, e ∈ history (generations idx) → rev_lt e.1 rev) →
  let '(idx', closed) := record_delete idx rev in
  closed = is_live idx ∧ gens_wf (generations idx') ∧
  (if closed
   then (∀ t, rev_le rev t → idx_revision_at idx' t = None) ∧
        (∀ t, rev_lt t rev → idx_revision_at idx' t = idx_revision_at idx t)
   else idx' = idx).
Proof.
  intros Hwf Hlt. destruct (record_delete idx rev) as [idx' closed] eqn:E.
  destruct (record_delete_spec idx rev idx' closed Hwf Hlt E) as (-> & Hwf' & _ & H).
  split_and!; [done..|]. destruct (is_live idx); [|done]. destruct H as [Hh _].
  unfold idx_revision_at. split; intros t Ht.
  - rewrite revision_at_hist, Hh by apply Hwf'. by apply hist_at_snoc_above.
  - rewrite !revision_at_hist, Hh by (apply Hwf' || apply Hwf). by apply hist_at_snoc_below.
Qed.


Lemma compaction_changes_iff gens c :
  Forall gen_wf gens →
  compaction_changes gens c = false ↔ compact_gens gens c = ([], gens).
Proof.
  induction 1 as [|g gens Hg Hgs IH]; [done|]. unfold compaction_changes in *. simpl.
  rewrite orb_false_iff, gen_compaction_changes_spec, IH by done. split.
  - intros [-> ->]. done.
  - destruct (compact_gen g c) as [d k] eqn:E, (compact_gens gens c) as [ds ks].
    intros [= [Hd ->]%app_nil Hk]. simpl in *.
    assert (compact_gen g c = ([], [g])) as Eg
      by (apply compact_gen_dropped_nil; [done|by rewrite E]).
    rewrite E in Eg. injection Eg as -> ->. by injection Hk as ->.
Qed.

(**  the check that skips keys a compaction would not touch
    ([compaction_changes]) is exact: it answers false iff
    [KeyIndex::compact] would drop nothing and leave the index as it is. *)
Theorem compaction_changes_exact idx c :
  gens_wf (generations idx) →
  (compaction_changes (generations idx) c = false ↔ idx_compact idx c = (idx, [])) ∧
  (compaction_changes (generations idx) c = false ↔ (idx_compact idx c).2 = []).
Proof.
  intros [Hwf _]. pose proof (compaction_changes_iff (generations idx) c Hwf) as H1.
  assert (compaction_changes (generations idx) c = false ↔
          (compact_gens (generations idx) c).1 = []) as H2.
  { rewrite H1. split; [by intros ->|]. clear H1.
    induction Hwf as [|g gens Hg Hgs IH]; [done|]. simpl.
    pose proof (compact_gen_dropped_nil g c Hg) as Hn.
    destruct (compact_gen g c) as [d k], (compact_gens gens c) as [ds ks]. simpl in *.
    intros [-> ->]%app_nil. specialize (Hn eq_refl). injection Hn as ->.
    specialize (IH eq_refl). injection IH as ->. done. }
  unfold idx_compact. destruct (compact_gens (generations idx) c) as [d k]. simpl in *.
  split; [|done]. rewrite H1. destruct idx as [key gens]; simpl. naive_solver.
Qed.

(**  [KvRecord::version] is documented as the number of puts since the
    generation began, but a compaction forgets them: after a live key is
    compacted at or above its latest put, its next put gets version 2
    however many puts the generation has seen. *)
Theorem version_restarts_after_compaction idx c rev :
  gens_wf (generations idx) → is_live idx = true →
  (∀ e, e ∈ history (generations idx) → rev_le e.1 c ∧ rev_lt e.1 rev) →
  (record_put (idx_compact idx c).1 rev).2.1 = 2.
Proof.
  intros Hwf Hl Hle. unfold idx_compact.
  pose proof (compact_gens_wf _ c Hwf) as Hwf'.
  destruct (compact_gens_hist _ c Hwf) as [Hh _].
  destruct (compact_gens (generations idx) c) as [d gens']. simpl in *.
  destruct (gens_live_inv _ Hl) as (gs & g & E & Ho).
  assert (∃ r, history gens' = [(r, false)]) as [r Hr].
  { rewrite Hh. unfold hist_compact.
    rewrite (filter_none (λ e : event, ¬ rev_le e.1 c))
      by (intros e He Hn; apply Hn; by apply Hle).
    rewrite E, history_snoc, newest_at_app. unfold newest_at.
    rewrite (filter_all _ (gen_events g))
      by (intros e He; apply Hle; rewrite E, history_snoc; apply elem_of_app; by right).
    destruct Hwf as [Hwf _]. rewrite E, Forall_app, Forall_singleton in Hwf.
    destruct Hwf as [_ (Hne & _)]. unfold gen_events, is_open in *.
    destruct (tombstone g); [done|]. rewrite !app_nil_r in *. rewrite ?app_nil_r.
    rewrite fmap_last. destruct (last (revs g)) as [r|] eqn:El; [by exists r|].
    apply last_None in El. by rewrite El in Hne. }
  assert (∃ cr, gens' = [mkGen cr [r] None]) as [cr ->].
  { destruct gens' as [|[cr rs tb] [|g2 gens']]; [done| |].
    - exists cr. rewrite history_cons in Hr. unfold gen_events, history in Hr. simpl in Hr.
      rewrite app_nil_r in Hr. destruct rs as [|r1 [|r2 rs]], tb; simplify_eq/=; done.
    - exfalso. rewrite !history_cons in Hr.
      apply gens_wf_cons in Hwf' as ((Hn1 & _) & _ & Hwf').
      apply gens_wf_cons in Hwf' as ((Hn2 & _) & _).
      destruct (gen_events _) as [|e1 l1]; [done|].
      destruct (gen_events g2) as [|e2 l2]; [done|]. simpl in Hr.
      injection Hr as _ Hr. by destruct l1. }
  done.
Qed.

(** ** Witnesses *)

#[global] Instance gen_wf_dec g : Decision (gen_wf g).
Proof.
  refine (cast_if (decide (gen_events g ≠ [] ∧ hist_sorted (gen_events g) ∧
    Forall (λ e, rev_le (created g) e.1) (gen_events g)))).
  - abstract (by rewrite Forall_forall in *).
  - abstract (unfold gen_wf; by rewrite <- Forall_forall).
Defined.

#[global] Instance gen_before_dec g g' : Decision (gen_before g g').
Proof.
  refine (cast_if (decide (is_open g = false ∧
    Forall (λ e, rev_lt e.1 (created g')) (gen_events g)))).
  - abstract (by rewrite Forall_forall in *).
  - abstract (unfold gen_before; by rewrite <- Forall_forall).
Defined.

#[global] Instance gens_wf_dec gens : Decision (gens_wf gens).
Proof. unfold gens_wf. apply _. Defined.

(** Puts at 2, 4, a delete at 6, puts at 8 and 9. *)
Definition sample_index : KeyIndex :=
  mkIdx [x6b] [mkGen (mkRev 2 0) [mkRev 2 0; mkRev 4 0] (Some (mkRev 6 0));
               mkGen (mkRev 8 0) [mkRev 8 0; mkRev 9 0] None].

Lemma sample_wf : gens_wf (generations sample_index).
Proof. apply (bool_decide_unpack _). vm_compute. exact I. Qed.

Lemma sample_before_12 e :
  e ∈ history (generations sample_index) → rev_lt e.1 (mkRev 12 0).
Proof.
  revert e. apply Forall_forall. apply (bool_decide_unpack _). vm_compute. exact I.
Qed.

Lemma revision_at_newest_witness :
  idx_revision_at sample_index (mkRev 7 0) = None ∧
  (idx_revision_at sample_index (mkRev 5 0) = Some (mkRev 4 0) ↔
    (mkRev 4 0, false) ∈ history (generations sample_index) ∧ rev_le (mkRev 4 0) (mkRev 5 0) ∧
    (∀ e, e ∈ history (generations sample_index) →
       rev_le e.1 (mkRev 5 0) → rev_le e.1 (mkRev 4 0))).
Proof.
  split; [vm_compute; reflexivity|].
  apply (revision_at_newest sample_index (mkRev 5 0) (mkRev 4 0) sample_wf).
Defined.

Lemma record_put_correct_witness :
  let '(idx', (v, c)) := record_put sample_index (mkRev 12 0) in
  gens_wf (generations idx') ∧
  (∀ t, rev_le (mkRev 12 0) t → idx_revision_at idx' t = Some (mkRev 12 0)) ∧
  (∀ t, rev_lt t (mkRev 12 0) → idx_revision_at idx' t = idx_revision_at sample_index t) ∧
  current idx' = Some (mkRev 12 0, v) ∧
  match current sample_index with
  | Some (_, n) => v = n + 1
  | None => is_live sample_index = false → v = 1 ∧ c = mkRev 12 0
  end.
Proof.
  exact (record_put_correct sample_index (mkRev 12 0) sample_wf sample_before_12).
Defined.

Lemma record_delete_correct_witness :
  let '(idx', closed) := record_delete sample_index (mkRev 12 0) in
  closed = is_live sample_index ∧ gens_wf (generations idx') ∧
  (if closed
   then (∀ t, rev_le (mkRev 12 0) t → idx_revision_at idx' t = None) ∧
        (∀ t, rev_lt t (mkRev 12 0) → idx_revision_at idx' t = idx_revision_at sample_index t)
   else idx' = sample_index).
Proof.
  exact (record_delete_correct sample_index (mkRev 12 0) sample_wf sample_before_12).
Defined.


Lemma compaction_changes_exact_witness :
  compaction_changes (generations sample_index) (mkRev 3 i64_max) = false ∧
  idx_compact sample_index (mkRev 3 i64_max) = (sample_index, []).
Proof.
  split; [vm_compute; reflexivity|].
  apply (compaction_changes_exact sample_index (mkRev 3 i64_max) sample_wf).
  vm_compute. reflexivity.
Defined.

(** Four puts of one live key, compacted at its latest: the fifth is
    numbered 2. *)
Lemma version_restarts_after_compaction_witness :
  let idx := mkIdx [x6b] [mkGen (mkRev 1 0)
               [mkRev 1 0; mkRev 2 0; mkRev 3 0; mkRev 4 0] None] in
  (record_put idx (mkRev 5 0)).2.1 = 5 ∧
  (record_put (idx_compact idx (mkRev 4 i64_max)).1 (mkRev 5 0)).2.1 = 2.
Proof.
  split; [vm_compute; reflexivity|].
  apply version_restarts_after_compaction.
  - apply (bool_decide_unpack _). vm_compute. exact I.
  - reflexivity.
  - apply Forall_forall. apply (bool_decide_unpack _). vm_compute. exact I.
Defined.
