(* ===== verification/KvStore.v ===== *)
(** * The storage engine interface ([crates/storage/src/kvstore.rs])

    Tables, write batches, snapshots, and the [KvStore] trait as a type
    class: what an engine promises to the layers above it.  The reads and
    the per-op effect are those [RedbEngine] gives
    ([crates/storage/src/redb_engine.rs]); redb itself is a library, and
    appears only through the class. *)

From S2P Require Import Prelude.

(** ** Data *)

Inductive StorageError :=
| Io (source : string)
| Conflict (msg : string)
| Misuse (msg : string)
| Closed
| Corrupted (msg : string).

#[global] Instance StorageError_eq_dec : EqDecision StorageError.
Proof. solve_decision. Defined.

Abbreviation StorageResult := (result StorageError).

Record WriteOptions := mkWriteOptions { opt_sync : bool }.

Definition WriteOptions_default : WriteOptions := mkWriteOptions true.

Inductive BatchOp :=
| OpPut (table : string) (key value : bytes)
| OpDelete (table : string) (key : bytes)
| OpDeleteRange (table : string) (start stop : bytes).

#[global] Instance BatchOp_eq_dec : EqDecision BatchOp.
Proof. solve_decision. Defined.

Abbreviation WriteBatch := (list BatchOp).

Definition WriteBatch_new : WriteBatch := [].

Definition batch_put (table : string) (key value : bytes) (b : WriteBatch) : WriteBatch :=
  b ++ [OpPut table key value].

Definition batch_delete (table : string) (key : bytes) (b : WriteBatch) : WriteBatch :=
  b ++ [OpDelete table key].

Definition batch_delete_range (table : string) (start stop : bytes) (b : WriteBatch)
    : WriteBatch :=
  b ++ [OpDeleteRange table start stop].

Definition batch_is_empty (b : WriteBatch) : bool :=
  match b with [] => true | _ :: _ => false end.

(** ** Contents of a store

    A row is a (table, key) pair with its value; a table with no row is
    an absent one. *)

Abbreviation Tables := (gmap (string * bytes) bytes).

Definition in_del_range (start stop key : bytes) : bool :=
  bytes_leb start key && bytes_ltb key stop.

(** [RedbEngine]'s [apply_op]. *)
Definition apply_op (op : BatchOp) (ts : Tables) : Tables :=
  match op with
  | OpPut table key value => <[(table, key) := value]> ts
  | OpDelete table key => delete (table, key) ts
  | OpDeleteRange table start stop =>
      base.filter (λ r : string * bytes * bytes,
        ¬ (r.1.1 = table ∧ in_del_range start stop r.1.2 = true)) ts
  end.

Definition apply_batch (b : WriteBatch) (ts : Tables) : Tables :=
  foldl (λ ts op, apply_op op ts) ts b.

(** ** Snapshots *)

(** The rows of one table. *)
Definition table_rows (table : string) (ts : Tables) : gmap bytes bytes :=
  list_to_map (omap (λ r : string * bytes * bytes,
    if decide (r.1.1 = table) then Some (r.1.2, r.2) else None) (map_to_list ts)).

Definition snap_get (ts : Tables) (table : string) (key : bytes) : option bytes :=
  ts !! (table, key).

(** [limit = 0] is no limit. *)
Definition limited {A} (limit : nat) (l : list A) : list A :=
  match limit with O => l | S _ => take limit l end.

Definition snap_range (ts : Tables) (table : string) (start stop : Bound) (limit : nat)
    : list (bytes * bytes) :=
  limited limit (map_range start stop (table_rows table ts)).

Definition snap_count (ts : Tables) (table : string) (start stop : Bound) : Z :=
  Z.of_nat (length (map_range start stop (table_rows table ts))).

Definition snap_last (ts : Tables) (table : string) : option (bytes * bytes) :=
  last (sorted_entries (table_rows table ts)).

(** ** The engine interface *)

Class KvStore (E : Type) := {
  (** What a snapshot taken now sees. *)
  contents : E → Tables;
  commit : WriteBatch → WriteOptions → E → StorageResult () * E;
  engine_sync : E → StorageResult () * E;
  (** The fsync a checkpoint runs ahead of [engine_sync]. *)
  presync : E → StorageResult () * E
}.

(** What the layers above rely on: a commit that returns [Ok] has applied
    its whole batch, in order, and nothing else; one that fails has applied
    the batch or not, never a part of it; a sync changes no contents. *)
Class KvStoreLaws (E : Type) `{KvStore E} : Prop := {
  commit_ok b o e e' :
    commit b o e = (Ok (), e') → contents e' = apply_batch b (contents e);
  commit_err b o e x e' :
    commit b o e = (Err x, e') →
    contents e' = contents e ∨ contents e' = apply_batch b (contents e);
  sync_contents e r e' : engine_sync e = (r, e') → contents e' = contents e;
  presync_contents e r e' : presync e = (r, e') → contents e' = contents e
}.

(** What survives a crash.  A durable commit, or a sync, makes everything
    committed so far survive; a commit that is not durable adds nothing to
    it until then. *)
Class DurableStore (E : Type) := durable : E → Tables.

Class DurableLaws (E : Type) `{KvStore E, DurableStore E} : Prop := {
  durable_commit b o e e' :
    commit b o e = (Ok (), e') →
    durable e' = if opt_sync o then contents e' else durable e;
  durable_commit_err b o e x e' :
    commit b o e = (Err x, e') →
    durable e' = durable e ∨ opt_sync o = true ∧ durable e' = contents e';
  durable_sync e e' : engine_sync e = (Ok (), e') → durable e' = contents e';
  durable_sync_err e x e' :
    engine_sync e = (Err x, e') → durable e' = durable e ∨ durable e' = contents e';
  durable_presync e r e' : presync e = (r, e') → durable e' = durable e
}.

(** [commit_stream]'s default: collect the ops; the first error aborts. *)
Fixpoint collect_ops (ops : list (StorageResult BatchOp)) (batch : WriteBatch)
    : StorageResult WriteBatch :=
  match ops with
  | [] => Ok batch
  | Ok op :: ops' => collect_ops ops' (batch ++ [op])
  | Err e :: _ => Err e
  end.

Definition commit_stream `{KvStore E} (ops : list (StorageResult BatchOp))
    (opts : WriteOptions) (e : E) : StorageResult () * E :=
  match collect_ops ops WriteBatch_new with
  | Ok batch => commit batch opts e
  | Err x => (Err x, e)
  end.

(** ** Row-level reading of batches *)

Lemma table_rows_lookup table ts key :
  table_rows table ts !! key = ts !! (table, key).
Proof.
  unfold table_rows. apply option_eq. intros v.
  rewrite <- elem_of_list_to_map.
  - rewrite list_elem_of_omap. split.
    + intros ([[t k] w] & Hin & H). simpl in H. case_decide; simplify_eq.
      by apply elem_of_map_to_list in Hin.
    + intros H. exists ((table, key), v). simpl. rewrite decide_True by done.
      split; [by apply elem_of_map_to_list|done].
  - assert (NoDup (map_to_list ts).*1) as Hnd by apply NoDup_fst_map_to_list.
    revert Hnd. generalize (map_to_list ts). intros l.
    induction l as [|[[t k] w] l IH]; simpl; [constructor|].
    intros [Hni Hnd]%NoDup_cons. case_decide; [|auto]. simplify_eq/=.
    constructor; [|auto]. intros ([k' w'] & -> & Hin)%list_elem_of_fmap. simpl in *.
    apply list_elem_of_omap in Hin as ([[t k] w''] & Hin & H). simpl in H.
    case_decide; simplify_eq. apply Hni.
    by apply (list_elem_of_fmap_2 fst _ (table, k', w')).
Qed.

Lemma apply_op_lookup op ts table key :
  apply_op op ts !! (table, key) =
    match op with
    | OpPut t k v => if decide (t = table ∧ k = key) then Some v else ts !! (table, key)
    | OpDelete t k => if decide (t = table ∧ k = key) then None else ts !! (table, key)
    | OpDeleteRange t s e =>
        if decide (t = table ∧ in_del_range s e key = true) then None
        else ts !! (table, key)
    end.
Proof.
  destruct op as [t k v|t k|t s e]; simpl.
  - rewrite lookup_insert. repeat case_decide; naive_solver.
  - rewrite lookup_delete. repeat case_decide; naive_solver.
  - rewrite map_lookup_filter. destruct (ts !! (table, key)) as [v|]; simpl.
    + case_decide; [rewrite option_guard_False|rewrite option_guard_True];
        simpl; naive_solver.
    + by case_decide.
Qed.

Lemma apply_batch_app b1 b2 ts :
  apply_batch (b1 ++ b2) ts = apply_batch b2 (apply_batch b1 ts).
Proof. apply foldl_app. Qed.

Lemma apply_batch_snoc b op ts :
  apply_batch (b ++ [op]) ts = apply_op op (apply_batch b ts).
Proof. by rewrite apply_batch_app. Qed.

(** The table an op names. *)
Definition op_table (op : BatchOp) : string :=
  match op with OpPut t _ _ => t | OpDelete t _ => t | OpDeleteRange t _ _ => t end.

(** A batch that never names a table leaves its rows alone. *)
Lemma apply_batch_other b ts table key :
  (∀ op, op ∈ b → op_table op ≠ table) →
  apply_batch b ts !! (table, key) = ts !! (table, key).
Proof.
  induction b as [|op b IH] using rev_ind; [done|]. intros Hb.
  rewrite apply_batch_snoc, apply_op_lookup.
  assert (op_table op ≠ table) as Hne by (apply Hb; set_solver).
  rewrite IH by set_solver. destruct op; simpl in *; case_decide; naive_solver.
Qed.

Lemma snap_range_elem ts table lo hi k v :
  (k, v) ∈ snap_range ts table lo hi 0 ↔
    ts !! (table, k) = Some v ∧ within lo hi k = true.
Proof. unfold snap_range. simpl. by rewrite elem_of_map_range, table_rows_lookup. Qed.

(** No table has more rows than the whole. *)
Lemma rows_fuel table ts lo hi :
  (length (map_range lo hi (table_rows table ts)) ≤ base.size ts)%nat.
Proof.
  set (R := map_range lo hi (table_rows table ts)).
  rewrite <- length_map_to_list, <- (length_fmap (λ r : bytes * bytes, ((table, r.1), r.2)) R).
  apply submseteq_length, NoDup_submseteq.
  - apply NoDup_fmap_2; [by intros [] [] [=]; simplify_eq/=|].
    eapply (NoDup_fmap_1 fst), key_sorted_NoDup, map_range_sorted.
  - intros x ([k v] & -> & [Hk _]%elem_of_map_range)%list_elem_of_fmap.
    apply elem_of_map_to_list. by rewrite <- table_rows_lookup.
Qed.

(** ** An engine in memory

    The simplest instance: a map, and a list of faults for the next
    commits.  It shows that the laws can hold. *)

Record MemEngine := mkMem { mem_rows : Tables; mem_faults : list (option StorageError) }.

#[global] Instance MemEngine_KvStore : KvStore MemEngine := {
  contents := mem_rows;
  commit b o e :=
    match mem_faults e with
    | Some x :: fs => (Err x, mkMem (mem_rows e) fs)
    | None :: fs => (Ok (), mkMem (apply_batch b (mem_rows e)) fs)
    | [] => (Ok (), mkMem (apply_batch b (mem_rows e)) [])
    end;
  engine_sync e := (Ok (), e);
  presync e := (Ok (), e)
}.

#[global] Instance MemEngine_laws : KvStoreLaws MemEngine.
Proof.
  split; simpl.
  - intros b o e e'. repeat case_match; naive_solver.
  - intros b o e x e'. repeat case_match; naive_solver.
  - naive_solver.
  - naive_solver.
Qed.

(** The same with what is durable kept apart. *)
Record DiskEngine := mkDisk { disk_live : Tables; disk_durable : Tables }.

#[global] Instance DiskEngine_KvStore : KvStore DiskEngine := {
  contents := disk_live;
  commit b o e :=
    let ts := apply_batch b (disk_live e) in
    (Ok (), mkDisk ts (if opt_sync o then ts else disk_durable e));
  engine_sync e := (Ok (), mkDisk (disk_live e) (disk_live e));
  presync e := (Ok (), e)
}.

#[global] Instance DiskEngine_laws : KvStoreLaws DiskEngine.
Proof. split; simpl; naive_solver. Qed.

#[global] Instance DiskEngine_durable : DurableStore DiskEngine := disk_durable.

#[global] Instance DiskEngine_durable_laws : DurableLaws DiskEngine.
Proof. split; simpl; unfold durable, DiskEngine_durable; naive_solver. Qed.
