(* ===== verification/Lease.v ===== *)
(** * Errors and leases ([store.rs]'s [MvccError]/[Refusal], [lease.rs])

    The error type of the MVCC layer, the lease records, and the
    [lease_keys] reverse index: its row keys, the scan bounds a revoke uses,
    and the raw tables a raft snapshot carries.  The theorems: a row key
    parses back; the scan of lease [id] finds exactly that lease's rows for
    every id but -1 and [i64::MAX]; and what it does for those two. *)

From S2P Require Import Prelude KvStore.

(** ** Errors of the MVCC layer *)

Inductive Refusal :=
| KeyNotFound
| LeaseNotFound
| RefCompacted
| RefFutureRevision
| InvalidArgument (msg : string).

#[global] Instance Refusal_eq_dec : EqDecision Refusal.
Proof. solve_decision. Defined.

Definition refusal_message (self : Refusal) : string :=
  match self with
  | KeyNotFound => "etcdserver: key not found"
  | LeaseNotFound => "etcdserver: requested lease not found"
  | RefCompacted => "etcdserver: mvcc: required revision has been compacted"
  | RefFutureRevision => "etcdserver: mvcc: required revision is a future revision"
  | InvalidArgument m => m
  end.

Inductive MvccError :=
| Storage (e : StorageError)
| Compacted (requested compact_rev : Z)
| FutureRevision (requested current_rev : Z)
| Refused (r : Refusal)
| Internal (msg : string).

#[global] Instance MvccError_eq_dec : EqDecision MvccError.
Proof. solve_decision. Defined.

Abbreviation MvccResult := (result MvccError).

Definition refusal (self : MvccError) : option Refusal :=
  match self with
  | Refused r => Some r
  | Compacted _ _ => Some RefCompacted
  | FutureRevision _ _ => Some RefFutureRevision
  | Storage _ | Internal _ => None
  end.

(** ** Serialization

    [bincode] is a library: a codec is a pair of functions per type, and
    what the code relies on is that serializing succeeds and round-trips. *)

Class Bincode (A : Type) := {
  serialize : A → option bytes;
  deserialize : bytes → option A
}.

Class BincodeLaws (A : Type) `{Bincode A} : Prop := {
  serialize_ok a : is_Some (serialize a);
  deserialize_serialize a b : serialize a = Some b → deserialize b = Some a
}.

(** A codec that satisfies the laws, for any countable type: the bits of
    the value's code, one byte each. *)
Fixpoint pos_to_bits (p : positive) : bytes :=
  match p with
  | xH => []
  | xO p' => x00 :: pos_to_bits p'
  | xI p' => x01 :: pos_to_bits p'
  end.

Fixpoint bits_to_pos (bs : bytes) : positive :=
  match bs with
  | [] => xH
  | x00 :: bs' => xO (bits_to_pos bs')
  | _ :: bs' => xI (bits_to_pos bs')
  end.

Definition countable_codec (A : Type) `{Countable A} : Bincode A := {|
  serialize a := Some (pos_to_bits (encode a));
  deserialize b := decode (bits_to_pos b)
|}.

Lemma bits_to_pos_to_bits p : bits_to_pos (pos_to_bits p) = p.
Proof. induction p as [p IH|p IH|]; cbn; by rewrite ?IH. Qed.

Lemma countable_codec_laws (A : Type) `{Countable A} : @BincodeLaws A (countable_codec A).
Proof.
  split; cbn; [done|]. intros a b ?. simplify_eq.
  by rewrite bits_to_pos_to_bits, decode_encode.
Qed.

Definition TABLE_LEASE : string := "lease".
Definition TABLE_LEASE_KEYS : string := "lease_keys".

Record LeaseRecord := mkLease {
  lease_id : Z;
  ttl_secs : Z;
  deadline_unix_secs : Z
}.

#[global] Instance LeaseRecord_eq_dec : EqDecision LeaseRecord.
Proof. solve_decision. Defined.

#[global] Instance LeaseRecord_countable : Countable LeaseRecord.
Proof.
  apply (inj_countable' (λ r, (lease_id r, ttl_secs r, deadline_unix_secs r))
           (λ '(i, t, d), mkLease i t d)). by intros [].
Defined.

(** ** Row keys *)

Definition lease_id_key (id : Z) : bytes := i64_to_be_bytes id.

Definition lease_key_index (id : Z) (user_key : bytes) : bytes :=
  lease_id_key id ++ user_key.

#[global] Arguments lease_key_index : simpl never.

Definition lease_keys_bounds (id : Z) : Bound * Bound :=
  let start := lease_id_key id in
  match checked_add (i64_from_be_bytes (lease_id_key id)) 1 with
  | Some n => (Included start, Excluded (i64_to_be_bytes n))
  | None => (Included start, Unbounded)
  end.

Definition parse_lease_keys_key (bs : bytes) : MvccResult (Z * bytes) :=
  if decide (length bs < 8)%nat then Err (Internal "lease_keys key too short")
  else Ok (i64_from_be_bytes (take 8 bs), drop 8 bs).

(** ** The raw tables *)

Record LeaseTables := mkLeaseTables {
  lt_leases : list (bytes * bytes);
  lt_keys : list (bytes * bytes)
}.

Definition LeaseTables_read (snap : Tables) : LeaseTables :=
  mkLeaseTables (snap_range snap TABLE_LEASE Unbounded Unbounded 0)
    (snap_range snap TABLE_LEASE_KEYS Unbounded Unbounded 0).

Definition put_rows (table : string) (rows : list (bytes * bytes)) : WriteBatch :=
  (λ r, OpPut table r.1 r.2) <$> rows.
Definition delete_rows (table : string) (rows : list (bytes * bytes)) : WriteBatch :=
  (λ r, OpDelete table r.1) <$> rows.

Definition lease_replace_into (self current : LeaseTables) (batch : WriteBatch) : WriteBatch :=
  batch ++ delete_rows TABLE_LEASE (lt_leases current)
    ++ delete_rows TABLE_LEASE_KEYS (lt_keys current)
    ++ put_rows TABLE_LEASE (lt_leases self)
    ++ put_rows TABLE_LEASE_KEYS (lt_keys self).

(** ** Facts *)

Lemma length_lease_id_key id : length (lease_id_key id) = 8%nat.
Proof. apply length_i64_to_be_bytes. Qed.

Lemma lease_key_index_inj id1 k1 id2 k2 :
  is_i64 id1 → is_i64 id2 → lease_key_index id1 k1 = lease_key_index id2 k2 →
  id1 = id2 ∧ k1 = k2.
Proof.
  intros H1 H2 H. unfold lease_key_index in H.
  apply app_inj_1 in H as [H ->]; [|by rewrite !length_lease_id_key].
  split; [|done]. by apply i64_to_be_bytes_inj.
Qed.

Lemma parse_lease_key_index id k :
  is_i64 id → parse_lease_keys_key (lease_key_index id k) = Ok (id, k).
Proof.
  intros Hid. unfold parse_lease_keys_key, lease_key_index.
  rewrite length_app, length_lease_id_key. case_decide; [lia|].
  rewrite take_app_length', drop_app_length' by by rewrite length_lease_id_key.
  by rewrite i64_from_to_be_bytes.
Qed.

(** The byte order of row keys is the order of the unsigned ids, then of
    the user keys. *)
Lemma lease_id_key_cmp a b :
  bytes_cmp (lease_id_key a) (lease_id_key b) = (u64_of_i64 a ?= u64_of_i64 b).
Proof.
  unfold lease_id_key, i64_to_be_bytes.
  pose proof (u64_of_i64_range a). pose proof (u64_of_i64_range b).
  apply be_bytes_cmp; change (256 ^ Z.of_nat 8) with two64; ints.
Qed.

Lemma lease_row_above id id' k :
  above (Included (lease_id_key id)) (lease_key_index id' k) = true ↔
  u64_of_i64 id ≤ u64_of_i64 id'.
Proof.
  simpl. rewrite bytes_leb_le. unfold bytes_le, lease_key_index.
  rewrite <- (app_nil_r (lease_id_key id)), bytes_cmp_app, lease_id_key_cmp
    by by rewrite !length_lease_id_key.
  destruct (Z.compare_spec (u64_of_i64 id) (u64_of_i64 id')) as [E|E|E].
  - split; [lia|]. destruct k; done.
  - split; [lia|done].
  - split; [done|lia].
Qed.

Lemma lease_row_below n id' k :
  below (Excluded (i64_to_be_bytes n)) (lease_key_index id' k) = true ↔
  u64_of_i64 id' < u64_of_i64 n.
Proof.
  simpl. rewrite bytes_ltb_lt. unfold bytes_lt, lease_key_index.
  fold (lease_id_key n).
  rewrite <- (app_nil_r (lease_id_key n)), bytes_cmp_app, lease_id_key_cmp
    by by rewrite !length_lease_id_key.
  destruct (Z.compare_spec (u64_of_i64 id') (u64_of_i64 n)) as [E|E|E].
  - split; [|lia]. destruct k; done.
  - split; [lia|done].
  - split; [done|lia].
Qed.

Lemma lease_keys_bounds_max :
  lease_keys_bounds i64_max = (Included (lease_id_key i64_max), Unbounded).
Proof. vm_compute. reflexivity. Qed.

Lemma lease_keys_bounds_succ id :
  is_i64 id → id ≠ i64_max →
  lease_keys_bounds id = (Included (lease_id_key id), Excluded (i64_to_be_bytes (id + 1))).
Proof.
  intros Hid Hne. unfold lease_keys_bounds.
  replace (i64_from_be_bytes (lease_id_key id)) with id by (symmetry; by apply i64_from_to_be_bytes).
  unfold checked_add. rewrite decide_True by ints. done.
Qed.

Lemma lease_keys_bounds_iff id id' k :
  is_i64 id → is_i64 id' → id ≠ -1 → id ≠ i64_max →
  within (lease_keys_bounds id).1 (lease_keys_bounds id).2 (lease_key_index id' k) = true ↔
  id' = id.
Proof.
  intros Hid Hid' H1 H2. rewrite lease_keys_bounds_succ by done. simpl.
  unfold within. rewrite andb_true_iff, lease_row_above, lease_row_below.
  destruct (decide (0 ≤ id)), (decide (0 ≤ id'));
    rewrite ?(u64_of_i64_nonneg id), ?(u64_of_i64_neg id),
      ?(u64_of_i64_nonneg (id + 1)), ?(u64_of_i64_neg (id + 1)),
      ?(u64_of_i64_nonneg id'), ?(u64_of_i64_neg id') by ints; ints.
Qed.

(** ** Replacing a table's rows *)

Lemma put_rows_table t rows op : op ∈ put_rows t rows → op_table op = t.
Proof. by intros (r & -> & _)%list_elem_of_fmap. Qed.

Lemma delete_rows_table t rows op : op ∈ delete_rows t rows → op_table op = t.
Proof. by intros (r & -> & _)%list_elem_of_fmap. Qed.

Lemma put_rows_lookup t (rows : list (bytes * bytes)) ts n :
  NoDup rows.*1 →
  apply_batch (put_rows t rows) ts !! (t, n) =
  match (list_to_map rows : gmap bytes bytes) !! n with
  | Some v => Some v
  | None => ts !! (t, n)
  end.
Proof.
  revert ts. induction rows as [|[k v] rows IH]; intros ts Hnd; [done|].
  cbn [fmap list_fmap fst] in Hnd. apply NoDup_cons in Hnd as [Hk Hnd].
  change (apply_batch (put_rows t ((k, v) :: rows)) ts)
    with (apply_batch (put_rows t rows) (apply_op (OpPut t k v) ts)).
  rewrite IH, apply_op_lookup by done. cbn [list_to_map foldr].
  destruct (decide (k = n)) as [->|Hne].
  - rewrite decide_True by done. cbn. rewrite lookup_insert_eq.
    by rewrite (not_elem_of_list_to_map_1 rows).
  - cbn. rewrite decide_False by naive_solver. by rewrite lookup_insert_ne.
Qed.

Lemma put_rows_skip t (rows : list (bytes * bytes)) ts k :
  (∀ r, r ∈ rows → r.1 ≠ k) → apply_batch (put_rows t rows) ts !! (t, k) = ts !! (t, k).
Proof.
  induction rows as [|r rows IH] using rev_ind; intros Hr; [done|].
  unfold put_rows in *. rewrite fmap_app, apply_batch_app. cbn.
  rewrite lookup_insert_ne; [apply IH; set_solver|].
  intros [= ?]. apply (Hr r); [set_solver|done].
Qed.

Lemma put_rows_ext t (rows : list (bytes * bytes)) ts ts' k :
  ts !! (t, k) = ts' !! (t, k) →
  apply_batch (put_rows t rows) ts !! (t, k) = apply_batch (put_rows t rows) ts' !! (t, k).
Proof.
  revert ts ts'. induction rows as [|[n v] rows IH]; intros ts ts' Hk; [done|].
  change (apply_batch (put_rows t ((n, v) :: rows)) ?x)
    with (apply_batch (put_rows t rows) (apply_op (OpPut t n v) x)).
  apply IH. rewrite !apply_op_lookup. by case_decide.
Qed.

Lemma delete_rows_lookup t (rows : list (bytes * bytes)) ts n :
  apply_batch (delete_rows t rows) ts !! (t, n) =
  if decide (n ∈ rows.*1) then None else ts !! (t, n).
Proof.
  revert ts. induction rows as [|[k v] rows IH]; intros ts; [done|].
  change (apply_batch (delete_rows t ((k, v) :: rows)) ts)
    with (apply_batch (delete_rows t rows) (apply_op (OpDelete t k) ts)).
  rewrite IH, apply_op_lookup. cbn [fmap list_fmap fst].
  repeat case_decide; set_solver.
Qed.

(** Reading a table whose rows are a key-ordered list gives the list. *)
Lemma snap_range_rows ts t (rows : list (bytes * bytes)) :
  key_sorted rows →
  (∀ n, ts !! (t, n) = (list_to_map rows : gmap bytes bytes) !! n) →
  snap_range ts t Unbounded Unbounded 0 = rows.
Proof.
  intros Hs Hts. apply key_sorted_ext; [apply map_range_sorted|done|].
  intros [k v]. rewrite snap_range_elem, Hts.
  rewrite <- elem_of_list_to_map by by apply key_sorted_NoDup.
  split; [by intros [? _]|done].
Qed.

(**  the scan a lease revoke makes ([lease_keys_bounds]) covers exactly
    the rows of that lease and no other lease's, whatever the user keys,
    for every lease id except -1 and [i64::MAX]; and a row it finds parses
    back to the lease and the key it was written for. *)
Theorem lease_keys_bounds_exact id id' k :
  is_i64 id → is_i64 id' → id ≠ -1 → id ≠ i64_max →
  (within (lease_keys_bounds id).1 (lease_keys_bounds id).2 (lease_key_index id' k) = true ↔
   id' = id) ∧
  parse_lease_keys_key (lease_key_index id' k) = Ok (id', k).
Proof. intros. split; [by apply lease_keys_bounds_iff|by apply parse_lease_key_index]. Qed.

Lemma lease_keys_bounds_exact_witness :
  (within (lease_keys_bounds 7).1 (lease_keys_bounds 7).2 (lease_key_index 7 [xff]) = true ↔
   7 = 7) ∧
  parse_lease_keys_key (lease_key_index 7 [xff]) = Ok (7, [xff]).
Proof. apply (lease_keys_bounds_exact 7 7 [xff]); ints. Defined.

(**  for lease id -1 the scan is empty (its successor's key, that of 0,
    sorts first), so a revoke of lease -1 finds none of its keys; and for
    [i64::MAX] the scan is unbounded and also covers every row of every
    negative lease id, whose keys sort after it. *)
Theorem lease_keys_bounds_edge_ids id k :
  is_i64 id →
  within (lease_keys_bounds (-1)).1 (lease_keys_bounds (-1)).2 (lease_key_index id k) = false ∧
  (within (lease_keys_bounds i64_max).1 (lease_keys_bounds i64_max).2
     (lease_key_index id k) = true ↔ id = i64_max ∨ id < 0).
Proof.
  intros Hid. split.
  - rewrite lease_keys_bounds_succ by ints. simpl.
    apply not_true_iff_false. unfold within.
    rewrite andb_true_iff, lease_row_above, lease_row_below.
    change (u64_of_i64 (-1)) with (two64 - 1). change (u64_of_i64 (-1 + 1)) with 0.
    pose proof (u64_of_i64_range id). ints.
  - rewrite lease_keys_bounds_max. unfold within. cbn [fst snd below].
    rewrite andb_true_r, lease_row_above. change (u64_of_i64 i64_max) with i64_max.
    destruct (decide (0 ≤ id));
      [rewrite u64_of_i64_nonneg by ints|rewrite u64_of_i64_neg by ints]; ints.
Qed.

Lemma lease_keys_bounds_edge_ids_witness :
  within (lease_keys_bounds (-1)).1 (lease_keys_bounds (-1)).2 (lease_key_index (-1) [x61]) = false ∧
  (within (lease_keys_bounds i64_max).1 (lease_keys_bounds i64_max).2
     (lease_key_index (-1) [x61]) = true ↔ -1 = i64_max ∨ -1 < 0).
Proof. apply (lease_keys_bounds_edge_ids (-1) [x61]). ints. Defined.

(**  Installing a raft snapshot's lease tables: whatever the store
    held, after [replace_into] (given what it held) commits, the two
    tables are exactly the snapshot's rows, and no other table changes. *)
Theorem lease_replace_exact (self : LeaseTables) (ts : Tables) :
  key_sorted (lt_leases self) → key_sorted (lt_keys self) →
  let ts' := apply_batch (lease_replace_into self (LeaseTables_read ts) []) ts in
  LeaseTables_read ts' = self ∧
  ∀ t k, t ≠ TABLE_LEASE → t ≠ TABLE_LEASE_KEYS → ts' !! (t, k) = ts !! (t, k).
Proof.
  intros Hl Hk. unfold lease_replace_into. cbn [app].
  set (cur := LeaseTables_read ts).
  assert (∀ rows : list (bytes * bytes), key_sorted rows → NoDup rows.*1) as Hnd
    by (intros; by apply key_sorted_NoDup).
  assert (∀ t rows t', t ≠ t' → ∀ op, op ∈ delete_rows t rows → op_table op ≠ t') as Hd
    by (intros t rows t' ? op Hop; by rewrite (delete_rows_table _ _ _ Hop)).
  assert (∀ t rows t', t ≠ t' → ∀ op, op ∈ put_rows t rows → op_table op ≠ t') as Hp
    by (intros t rows t' ? op Hop; by rewrite (put_rows_table _ _ _ Hop)).
  split.
  - destruct self as [ls ks]. unfold LeaseTables_read at 1. cbn [lt_leases lt_keys] in *.
    f_equal; (apply snap_range_rows; [done|]); intros n; rewrite !apply_batch_app.
    + rewrite apply_batch_other by by apply Hp. rewrite put_rows_lookup by auto.
      destruct (_ !! n); [done|]. rewrite apply_batch_other by by apply Hd.
      rewrite delete_rows_lookup. case_decide as Hin; [done|].
      destruct (ts !! _) as [v|] eqn:Hv; [|done]. exfalso. apply Hin.
      by apply (list_elem_of_fmap_2 fst _ (n, v)), snap_range_elem.
    + rewrite put_rows_lookup by auto.
      destruct (_ !! n); [done|]. rewrite apply_batch_other by by apply Hp.
      rewrite delete_rows_lookup. case_decide as Hin; [done|].
      rewrite apply_batch_other by by apply Hd.
      destruct (ts !! _) as [v|] eqn:Hv; [|done]. exfalso. apply Hin.
      by apply (list_elem_of_fmap_2 fst _ (n, v)), snap_range_elem.
  - intros t k H1 H2. rewrite !apply_batch_app, !apply_batch_other; naive_solver.
Qed.

Lemma lease_replace_exact_witness :
  let self := mkLeaseTables [([x01], [x0a])] [([x01; x62], [])] in
  let ts := <[(TABLE_LEASE, [x09]) := [x0b]]> (∅ : Tables) in
  LeaseTables_read (apply_batch (lease_replace_into self (LeaseTables_read ts) []) ts) = self.
Proof.
  refine (proj1 (lease_replace_exact (mkLeaseTables [([x01], [x0a])] [([x01; x62], [])])
                   (<[(TABLE_LEASE, [x09]) := [x0b]]> ∅) _ _));
    apply key_sorted_cons; (split; [set_solver|apply key_sorted_nil]).
Defined.
