(* ===== verification/Cache.v ===== *)
(** * What the MVCC layer keeps in RAM ([crates/storage/src/mvcc/cache.rs])

    The resident key index, and the latest-value cache: sixteen LRU shards
    bounded in bytes.  Locks and atomics are plain fields (each method runs
    under its shard's lock); the hasher's random state is a parameter of
    the cache value.

    The theorems: the index's byte counter is exact; the cache stays inside
    its budget with exact counters; [get] answers only with a record that
    was inserted for that key at that revision. *)

From S2P Require Import Prelude Revision Record.

(** ** Constants and configuration *)

Definition SHARDS : nat := 16.
Definition ENTRY_OVERHEAD : Z := 160.
Definition INDEX_KEY_OVERHEAD : Z := 64.
Definition DEFAULT_VALUE_CACHE_BYTES : Z := 128 * 1024 * 1024.
Definition DEFAULT_MAX_ENTRY_BYTES : Z := 256 * 1024.

(** [size_of::<Revision>()] and [size_of::<Generation>()] on a 64-bit
    target: two [i64]s; a [Revision], a [Vec] and an [Option<Revision>]. *)
Definition SIZE_OF_REVISION : Z := 16.
Definition SIZE_OF_GENERATION : Z := 64.

Record CacheConfig := mkCacheConfig {
  value_cache_bytes : Z;
  max_entry_bytes : Z
}.

Definition CacheConfig_default : CacheConfig :=
  mkCacheConfig DEFAULT_VALUE_CACHE_BYTES DEFAULT_MAX_ENTRY_BYTES.

(** Sum of a function over a map's values. *)
Definition map_sum {A} (f : bytes → A → Z) (m : gmap bytes A) : Z :=
  map_fold (λ k x acc, f k x + acc) 0 m.

(** ** The resident key index *)

Record ResidentIndex := mkIndex {
  index_map : gmap bytes (list Generation);
  index_bytes : Z
}.

Definition ResidentIndex_default : ResidentIndex := mkIndex ∅ 0.

Definition index_entry_bytes (key : bytes) (gens : list Generation) : Z :=
  let nrevs := foldr (λ g n, Z.of_nat (length (revs g)) + n) 0 gens in
  Z.of_nat (length key) + INDEX_KEY_OVERHEAD
    + Z.of_nat (length gens) * SIZE_OF_GENERATION + nrevs * SIZE_OF_REVISION.

Definition index_get (self : ResidentIndex) (key : bytes) : option KeyIndex :=
  (λ g, mkIdx key g) <$> index_map self !! key.

Definition index_get_generations (self : ResidentIndex) (key : bytes)
    : option (list Generation) :=
  index_map self !! key.

Definition index_contains (self : ResidentIndex) (key : bytes) : bool :=
  bool_decide (is_Some (index_map self !! key)).

Definition index_range (self : ResidentIndex) (start stop : Bound)
    : list (bytes * list Generation) :=
  map_range start stop (index_map self).

Definition index_iter (self : ResidentIndex) : list (bytes * list Generation) :=
  sorted_entries (index_map self).

Definition index_remove (key : bytes) (self : ResidentIndex) : ResidentIndex :=
  match index_map self !! key with
  | Some old =>
      mkIndex (delete key (index_map self)) (index_bytes self - index_entry_bytes key old)
  | None => self
  end.

Definition index_set (key : bytes) (gens : list Generation) (self : ResidentIndex)
    : ResidentIndex :=
  match gens with
  | [] => index_remove key self
  | _ :: _ =>
      let add := index_entry_bytes key gens in
      let freed := match index_map self !! key with
                   | Some old => index_entry_bytes key old
                   | None => 0
                   end in
      mkIndex (<[key := gens]> (index_map self)) (index_bytes self - freed + add)
  end.

Definition index_clear (self : ResidentIndex) : ResidentIndex := mkIndex ∅ 0.

(** ** The latest-value cache *)

Record Slot := mkSlot {
  slot_rev : Revision;
  slot_rec : KvRecord;
  slot_tick : Z;
  slot_size : Z
}.

Record Shard := mkShard {
  sh_map : gmap bytes Slot;
  sh_order : gmap Z bytes;
  sh_bytes : Z;
  sh_tick : Z
}.

Definition Shard_default : Shard := mkShard ∅ ∅ 0 0.

Definition next_tick (self : Shard) : Z * Shard :=
  let t := sh_tick self + 1 in
  (t, mkShard (sh_map self) (sh_order self) (sh_bytes self) t).

Definition shard_remove (key : bytes) (self : Shard) : option Z * Shard :=
  match sh_map self !! key with
  | Some slot =>
      (Some (slot_size slot),
       mkShard (delete key (sh_map self)) (delete (slot_tick slot) (sh_order self))
         (sh_bytes self - slot_size slot) (sh_tick self))
  | None => (None, self)
  end.

Record ValueCache := mkCache {
  shards : list Shard;
  hasher : bytes → N;
  shard_budget : Z;
  budget : Z;
  max_entry : Z;
  hits : Z;
  misses : Z;
  evictions : Z;
  cache_bytes : Z;
  cache_entries : Z
}.

Definition ValueCache_new (hash : bytes → N) (cfg : CacheConfig) : ValueCache :=
  let shard_budget := value_cache_bytes cfg / Z.of_nat SHARDS in
  mkCache (replicate SHARDS Shard_default) hash shard_budget
    (shard_budget * Z.of_nat SHARDS)
    (Z.min (max_entry_bytes cfg) (shard_budget / 4)) 0 0 0 0 0.

Definition enabled (self : ValueCache) : bool := 0 <? budget self.

(** [hash_one(key) as usize % SHARDS]. *)
Definition shard_index (self : ValueCache) (key : bytes) : nat :=
  N.to_nat (hasher self key mod N.of_nat SHARDS).

Definition shard_of (self : ValueCache) (key : bytes) : Shard :=
  default Shard_default (shards self !! shard_index self key).

Definition set_shard (key : bytes) (s : Shard) (self : ValueCache) : ValueCache :=
  mkCache (<[shard_index self key := s]> (shards self)) (hasher self) (shard_budget self)
    (budget self) (max_entry self) (hits self) (misses self) (evictions self)
    (cache_bytes self) (cache_entries self).

(** Add to the counters. *)
Definition count_cache (dh dm de db dn : Z) (self : ValueCache) : ValueCache :=
  mkCache (shards self) (hasher self) (shard_budget self) (budget self) (max_entry self)
    (hits self + dh) (misses self + dm) (evictions self + de)
    (cache_bytes self + db) (cache_entries self + dn).

Definition cache_get (key : bytes) (rev : Revision) (self : ValueCache)
    : option KvRecord * ValueCache :=
  if enabled self then
    let '(tick, shard) := next_tick (shard_of self key) in
    match sh_map shard !! key with
    | Some slot =>
        if decide (slot_rev slot = rev) then
          let map' := <[key := mkSlot (slot_rev slot) (slot_rec slot) tick (slot_size slot)]>
                        (sh_map shard) in
          let order' := match sh_order shard !! slot_tick slot with
                        | Some k => <[tick := k]> (delete (slot_tick slot) (sh_order shard))
                        | None => sh_order shard
                        end in
          (Some (slot_rec slot),
           count_cache 1 0 0 0 0
             (set_shard key (mkShard map' order' (sh_bytes shard) (sh_tick shard)) self))
        else (None, count_cache 0 1 0 0 0 (set_shard key shard self))
    | None => (None, count_cache 0 1 0 0 0 (set_shard key shard self))
    end
  else (None, self).

(** [BTreeMap::pop_first]: the least tick. *)
Definition pop_first (order : gmap Z bytes) : option (Z * bytes) :=
  foldr (λ p acc, match acc with
                  | Some q => if p.1 <=? q.1 then Some p else acc
                  | None => Some p
                  end) None (map_to_list order).

(** [while shard.bytes > self.shard_budget]: evict the least recently
    used.  Each turn removes an entry of the order, so its size is enough
    fuel.  Returns the shard, and the entries and bytes evicted. *)
Fixpoint evict (fuel : nat) (limit : Z) (s : Shard) (n freed : Z) : Shard * Z * Z :=
  if sh_bytes s >? limit then
    match fuel, pop_first (sh_order s) with
    | S fuel', Some (tick, victim) =>
        let order' := delete tick (sh_order s) in
        match sh_map s !! victim with
        | Some slot =>
            evict fuel' limit
              (mkShard (delete victim (sh_map s)) order' (sh_bytes s - slot_size slot)
                 (sh_tick s)) (n + 1) (freed + slot_size slot)
        | None => evict fuel' limit (mkShard (sh_map s) order' (sh_bytes s) (sh_tick s)) n freed
        end
    | _, _ => (s, n, freed)
    end
  else (s, n, freed).

Definition entry_size (key : bytes) (rec : KvRecord) : Z :=
  ENTRY_OVERHEAD + 2 * Z.of_nat (length key) + Z.of_nat (length (rec_value rec)).

Definition cache_insert (key : bytes) (rev : Revision) (rec : KvRecord)
    (only_if_newer : bool) (self : ValueCache) : ValueCache :=
  if enabled self then
    let size := entry_size key rec in
    let shard := shard_of self key in
    let newer_there :=
      match sh_map shard !! key with
      | Some slot => rev_leb rev (slot_rev slot)
      | None => false
      end in
    if only_if_newer && newer_there then self
    else
      let '(removed, shard) := shard_remove key shard in
      let self := match removed with
                  | Some freed => count_cache 0 0 0 (- freed) (-1) self
                  | None => self
                  end in
      if max_entry self <? Z.of_nat (length (rec_value rec)) then set_shard key shard self
      else
        let '(tick, shard) := next_tick shard in
        let shard := mkShard (<[key := mkSlot rev rec tick size]> (sh_map shard))
                       (<[tick := key]> (sh_order shard)) (sh_bytes shard + size)
                       (sh_tick shard) in
        let '(shard, n, freed) :=
          evict (base.size (sh_order shard)) (shard_budget self) shard 0 0 in
        count_cache 0 0 n (size - freed) (1 - n) (set_shard key shard self)
  else self.

Definition cache_remove (key : bytes) (self : ValueCache) : ValueCache :=
  if enabled self then
    match shard_remove key (shard_of self key) with
    | (Some freed, shard) => count_cache 0 0 0 (- freed) (-1) (set_shard key shard self)
    | (None, _) => self
    end
  else self.

Definition cache_clear (self : ValueCache) : ValueCache :=
  let n := foldr (λ s acc, Z.of_nat (base.size (sh_map s)) + acc) 0 (shards self) in
  let b := foldr (λ s acc, sh_bytes s + acc) 0 (shards self) in
  mkCache (const Shard_default <$> shards self) (hasher self) (shard_budget self)
    (budget self) (max_entry self) (hits self) (misses self) (evictions self)
    (cache_bytes self - b) (cache_entries self - n).

(** ** Sums over maps *)

Lemma map_sum_empty {A} (f : bytes → A → Z) : map_sum f ∅ = 0.
Proof. apply map_fold_empty. Qed.

Lemma map_sum_insert {A} (f : bytes → A → Z) (m : gmap bytes A) k x :
  m !! k = None → map_sum f (<[k := x]> m) = f k x + map_sum f m.
Proof.
  intros Hk. unfold map_sum. rewrite map_fold_insert_L; [done| |done].
  intros. lia.
Qed.

Lemma map_sum_delete {A} (f : bytes → A → Z) (m : gmap bytes A) k x :
  m !! k = Some x → map_sum f (delete k m) = map_sum f m - f k x.
Proof.
  intros Hk. rewrite <- (insert_delete_id m k x Hk) at 2.
  rewrite map_sum_insert by apply lookup_delete_eq. lia.
Qed.

Lemma map_sum_update {A} (f : bytes → A → Z) (m : gmap bytes A) k x y :
  m !! k = Some x → map_sum f (<[k := y]> m) = map_sum f m - f k x + f k y.
Proof.
  intros Hk. rewrite <- insert_delete_eq.
  rewrite map_sum_insert by apply lookup_delete_eq.
  rewrite (map_sum_delete _ _ _ x) by done. lia.
Qed.

Lemma map_sum_nonneg {A} (f : bytes → A → Z) (m : gmap bytes A) :
  (∀ k x, m !! k = Some x → 0 ≤ f k x) → 0 ≤ map_sum f m.
Proof.
  induction m as [|k x m Hk IH] using map_ind; [by rewrite map_sum_empty|].
  intros Hf. rewrite map_sum_insert by done.
  assert (0 ≤ f k x) by (apply Hf; by simplify_map_eq).
  assert (0 ≤ map_sum f m); [|lia].
  apply IH. intros k' x' ?. apply Hf. rewrite lookup_insert_ne; [done|congruence].
Qed.

(** ** The index: its byte counter is the sum over its entries *)

Definition index_ok (i : ResidentIndex) : Prop :=
  index_bytes i = map_sum index_entry_bytes (index_map i) ∧
  ∀ k, index_map i !! k ≠ Some [].

Lemma index_ok_default : index_ok ResidentIndex_default.
Proof. split; cbn; [by rewrite map_sum_empty|]. intros k. by rewrite lookup_empty. Qed.

Lemma index_ok_remove k i : index_ok i → index_ok (index_remove k i).
Proof.
  intros [Hb Hne]. unfold index_remove.
  destruct (index_map i !! k) as [old|] eqn:Hk; [|done]. split; cbn.
  - by rewrite Hb, (map_sum_delete _ _ _ old).
  - intros k'. rewrite lookup_delete_Some. intros [_ ?]. by apply (Hne k').
Qed.

Lemma index_ok_set k gens i : index_ok i → index_ok (index_set k gens i).
Proof.
  intros Hi. destruct gens as [|g gens]; [by apply index_ok_remove|].
  destruct Hi as [Hb Hne]. split.
  - cbn [index_set index_map index_bytes].
    destruct (index_map i !! k) as [old|] eqn:Hk.
    + by rewrite Hb, (map_sum_update _ _ _ old).
    + rewrite Hb, map_sum_insert by done. lia.
  - cbn. intros k'. destruct (decide (k = k')) as [->|]; simplify_map_eq; [done|apply Hne].
Qed.

Lemma index_ok_clear i : index_ok (index_clear i).
Proof. apply index_ok_default. Qed.

Lemma index_map_remove k i : index_map (index_remove k i) = delete k (index_map i).
Proof.
  unfold index_remove. destruct (index_map i !! k) eqn:Hk; [done|].
  by rewrite delete_id.
Qed.

(** What a table keyed by user key holds after [set]: an empty list of
    generations is no entry. *)
Definition set_gens (k : bytes) (gens : list Generation) (m : gmap bytes (list Generation))
    : gmap bytes (list Generation) :=
  match gens with [] => delete k m | _ :: _ => <[k := gens]> m end.

Lemma index_map_set k gens i :
  index_map (index_set k gens i) = set_gens k gens (index_map i).
Proof. destruct gens; [apply index_map_remove|done]. Qed.

Lemma set_gens_lookup k gens m k' :
  default [] (set_gens k gens m !! k') =
  if decide (k = k') then gens else default [] (m !! k').
Proof.
  destruct gens as [|g gens]; cbn; destruct (decide (k = k')) as [->|];
    by simplify_map_eq.
Qed.

(** ** One shard *)

Definition shard_size (m : gmap bytes Slot) : Z := map_sum (λ _ s, slot_size s) m.

(** The order lists exactly the slots, each under its own tick; the byte
    count is the sum of the slots' sizes; no tick is in the future. *)
Record shard_wf (s : Shard) : Prop := {
  shard_order t k :
    sh_order s !! t = Some k ↔ ∃ slot, sh_map s !! k = Some slot ∧ slot_tick slot = t;
  shard_bytes : sh_bytes s = shard_size (sh_map s);
  shard_slot k slot :
    sh_map s !! k = Some slot →
    slot_tick slot ≤ sh_tick s ∧ slot_size slot = entry_size k (slot_rec slot)
}.

Lemma entry_size_pos k r : 0 < entry_size k r.
Proof. unfold entry_size, ENTRY_OVERHEAD. lia. Qed.

Lemma shard_wf_default : shard_wf Shard_default.
Proof.
  split; cbn.
  - intros t k. rewrite lookup_empty. split; [done|].
    intros (slot & Hs & _). by rewrite lookup_empty in Hs.
  - unfold shard_size. by rewrite map_sum_empty.
  - intros k slot. by rewrite lookup_empty.
Qed.

Lemma shard_tick_inj s k k' a b :
  shard_wf s → sh_map s !! k = Some a → sh_map s !! k' = Some b →
  slot_tick a = slot_tick b → k = k'.
Proof.
  intros Hs Hk Hk' Heq.
  assert (sh_order s !! slot_tick a = Some k) by (apply (shard_order s Hs); eauto).
  assert (sh_order s !! slot_tick a = Some k') by (apply (shard_order s Hs); eauto).
  congruence.
Qed.

Lemma next_tick_wf s : shard_wf s → shard_wf (next_tick s).2.
Proof.
  intros [Ho Hb Hk]. split; cbn; [done..|].
  intros k slot ?. destruct (Hk k slot); [done|]. split; [lia|done].
Qed.

(** Dropping one slot with its order entry. *)
Lemma shard_drop_wf s k slot :
  shard_wf s → sh_map s !! k = Some slot →
  shard_wf (mkShard (delete k (sh_map s)) (delete (slot_tick slot) (sh_order s))
              (sh_bytes s - slot_size slot) (sh_tick s)).
Proof.
  intros Hs Hk. pose proof Hs as [Ho Hb Hsl]. split; cbn.
  - intros t k'. rewrite lookup_delete_Some, Ho. split.
    + intros [Hne (sl & Hsl' & <-)]. exists sl. split; [|done].
      apply lookup_delete_Some. split; [|done]. intros ->. congruence.
    + intros (sl & Hd & <-). apply lookup_delete_Some in Hd as [Hne Hd].
      split; [|by eauto]. intros Heq. apply Hne.
      by apply (shard_tick_inj s k k' slot sl).
  - unfold shard_size in *. rewrite (map_sum_delete _ _ _ slot) by done. lia.
  - intros k' sl Hd. apply lookup_delete_Some in Hd as [_ Hd]. by apply Hsl.
Qed.

Lemma shard_remove_wf k s : shard_wf s → shard_wf (shard_remove k s).2.
Proof.
  intros Hs. unfold shard_remove. destruct (sh_map s !! k) eqn:Hk; [|done].
  by apply shard_drop_wf.
Qed.

Lemma shard_remove_map k s : sh_map (shard_remove k s).2 = delete k (sh_map s).
Proof.
  unfold shard_remove. destruct (sh_map s !! k) eqn:Hk; cbn; [done|].
  by rewrite delete_id.
Qed.

(** Adding a slot for an absent key at a fresh tick. *)
Lemma shard_push_wf s k rev rec :
  shard_wf s → sh_map s !! k = None →
  let t := sh_tick s + 1 in
  shard_wf (mkShard (<[k := mkSlot rev rec t (entry_size k rec)]> (sh_map s))
              (<[t := k]> (sh_order s)) (sh_bytes s + entry_size k rec) t).
Proof.
  intros Hs Hk t. pose proof Hs as [Ho Hb Hsl]. split; cbn.
  - intros t' k'. rewrite lookup_insert_Some, Ho. split.
    + intros [[<- <-]|[Hne (sl & Hsl' & <-)]].
      * eexists; split; [by rewrite lookup_insert_eq|done].
      * exists sl. split; [|done]. rewrite lookup_insert_ne; [done|congruence].
    + intros (sl & Hi & <-). apply lookup_insert_Some in Hi as [[<- <-]|[Hne Hi]].
      * by left.
      * right. split; [|by eauto]. apply Hsl in Hi as [Ht _]. unfold t. lia.
  - unfold shard_size in *. rewrite map_sum_insert by done. cbn. lia.
  - intros k' sl Hi. apply lookup_insert_Some in Hi as [[<- <-]|[Hne Hi]]; cbn.
    + split; [lia|done].
    + apply Hsl in Hi as [Ht ?]. split; [unfold t; lia|done].
Qed.

(** Moving a slot to a fresh tick, which is what a hit does. *)
Lemma shard_touch_wf s k slot :
  shard_wf s → sh_map s !! k = Some slot →
  let t := sh_tick s + 1 in
  shard_wf (mkShard (<[k := mkSlot (slot_rev slot) (slot_rec slot) t (slot_size slot)]>
                       (sh_map s))
              (<[t := k]> (delete (slot_tick slot) (sh_order s))) (sh_bytes s) t).
Proof.
  intros Hs Hk t. pose proof (shard_drop_wf s k slot Hs Hk) as Hd.
  pose proof (shard_slot s Hs k slot Hk) as [_ Hsize].
  pose proof (shard_push_wf _ k (slot_rev slot) (slot_rec slot) Hd) as Hp.
  cbn in Hp. rewrite lookup_delete_eq, insert_delete_eq, <- Hsize in Hp.
  replace (sh_bytes s - slot_size slot + slot_size slot) with (sh_bytes s) in Hp by lia.
  by apply Hp.
Qed.

(** ** Eviction *)

Lemma pop_first_spec (o : gmap Z bytes) :
  match pop_first o with
  | Some (t, k) => o !! t = Some k ∧ ∀ t' k', o !! t' = Some k' → t ≤ t'
  | None => o = ∅
  end.
Proof.
  unfold pop_first.
  assert (∀ l : list (Z * bytes),
    match foldr (λ p acc, match acc with
                          | Some q => if p.1 <=? q.1 then Some p else acc
                          | None => Some p end) None l with
    | Some p => p ∈ l ∧ ∀ q, q ∈ l → p.1 ≤ q.1
    | None => l = []
    end) as Hl.
  { induction l as [|p l IH]; cbn [foldr]; [done|].
    destruct (foldr _ None l) as [q|].
    - destruct IH as [Hq Hmin]. destruct (Z.leb_spec p.1 q.1).
      + split; [by left|]. intros x [->|Hx]%elem_of_cons; [lia|].
        specialize (Hmin x Hx). lia.
      + split; [by right|]. intros x [->|Hx]%elem_of_cons; [lia|by apply Hmin].
    - subst l. split; [by left|]. intros x ->%list_elem_of_singleton. lia. }
  specialize (Hl (map_to_list o)). destruct (foldr _ _ _) as [[t k]|].
  - destruct Hl as [Hin Hmin]. split; [by apply elem_of_map_to_list|].
    intros t' k' Ht%elem_of_map_to_list. by apply (Hmin (t', k')).
  - by apply map_to_list_empty_iff.
Qed.

Lemma shard_order_empty s :
  shard_wf s → sh_order s = ∅ → sh_map s = ∅ ∧ sh_bytes s = 0.
Proof.
  intros Hs Ho. assert (sh_map s = ∅) as Hm.
  { apply map_empty. intros k. destruct (sh_map s !! k) as [slot|] eqn:Hk; [|done].
    assert (sh_order s !! slot_tick slot = Some k) as Hx
      by (apply (shard_order s Hs); eauto).
    by rewrite Ho, lookup_empty in Hx. }
  split; [done|]. rewrite (shard_bytes s Hs), Hm. apply map_sum_empty.
Qed.

(** The loop ends inside the budget, having removed the least recently used
    slots and counted them. *)
Lemma evict_spec fuel limit s n freed :
  shard_wf s → (base.size (sh_order s) ≤ fuel)%nat → 0 ≤ limit →
  let '(s', n', freed') := evict fuel limit s n freed in
  shard_wf s' ∧ sh_bytes s' ≤ limit ∧ sh_map s' ⊆ sh_map s ∧
  sh_bytes s' = sh_bytes s - (freed' - freed) ∧
  Z.of_nat (base.size (sh_map s')) = Z.of_nat (base.size (sh_map s)) - (n' - n) ∧
  (∀ k k' a b, sh_map s !! k = Some a → sh_map s' !! k = None →
     sh_map s' !! k' = Some b → slot_tick a < slot_tick b).
Proof.
  revert s n freed. induction fuel as [|fuel IH]; intros s n freed Hs Hfuel Hlim.
  - destruct (shard_order_empty s) as [Hm Hb]; [done|apply map_size_empty_iff; lia|].
    assert (evict 0 limit s n freed = (s, n, freed)) as ->
      by (cbn; by destruct (_ >? _)).
    split_and!; try done; try lia. intros. congruence.
  - cbn [evict]. rewrite Z.gtb_ltb. destruct (Z.ltb_spec limit (sh_bytes s)) as [Hgt|Hle].
    2:{ split_and!; try done; try lia. intros. congruence. }
    pose proof (pop_first_spec (sh_order s)) as Hpop.
    destruct (pop_first (sh_order s)) as [[t k]|].
    2:{ destruct (shard_order_empty s); [done..|lia]. }
    destruct Hpop as [Ht Hmin].
    pose proof Ht as (slot & Hk & <-)%(shard_order s Hs). rewrite Hk.
    set (s1 := mkShard _ _ _ _).
    assert (shard_wf s1) as Hs1 by by apply shard_drop_wf.
    specialize (IH s1 (n + 1) (freed + slot_size slot) Hs1).
    destruct (evict fuel limit s1 _ _) as [[s' n'] freed'].
    destruct IH as (Hwf & Hb & Hsub & Hbytes & Hsize & Hlru); [|done|].
    { cbn. rewrite map_size_delete_Some by eauto. lia. }
    split_and!; try done.
    + etrans; [exact Hsub|]. apply delete_subseteq.
    + cbn in Hbytes. lia.
    + cbn in Hsize. rewrite map_size_delete_Some in Hsize by eauto.
      assert (base.size (sh_map s) ≠ 0%nat); [|lia].
      intros Hz%map_size_empty_iff. rewrite Hz in Hk. by rewrite lookup_empty in Hk.
    + intros k1 k2 a b Ha Hn Hb2.
      assert (sh_map s1 !! k2 = Some b) as Hb1 by (by eapply lookup_weaken).
      cbn in Hb1. apply lookup_delete_Some in Hb1 as [Hne Hb1].
      destruct (decide (k1 = k)) as [->|Hne1].
      * assert (sh_order s !! slot_tick b = Some k2) as Hob
          by (apply (shard_order s Hs); eauto).
        specialize (Hmin _ _ Hob).
        assert (slot_tick slot ≠ slot_tick b).
        { intros Heq. apply Hne. by apply (shard_tick_inj s k k2 slot b). }
        assert (a = slot) by congruence. subst. lia.
      * apply (Hlru k1 k2); [|done..]. cbn. by rewrite lookup_delete_ne.
Qed.

(** ** The whole cache *)

Definition shard_sum (f : Shard → Z) (l : list Shard) : Z :=
  foldr (λ s acc, f s + acc) 0 l.

Lemma shard_sum_insert f l i x y :
  l !! i = Some x → shard_sum f (<[i := y]> l) = shard_sum f l - f x + f y.
Proof.
  revert i. induction l as [|z l IH]; intros [|i] Hi; simplify_eq/=; [lia|].
  rewrite (IH i Hi). lia.
Qed.

#[global] Arguments shard_sum : simpl never.

Definition shard_count (s : Shard) : Z := Z.of_nat (base.size (sh_map s)).

(** Every shard is well formed, inside its share of the budget and holds
    only keys that hash to it; the two gauges are exact. *)
Record cache_wf (c : ValueCache) : Prop := {
  cache_shards : length (shards c) = SHARDS;
  cache_budget : 0 ≤ shard_budget c;
  cache_total : budget c = shard_budget c * Z.of_nat SHARDS;
  cache_shard i s :
    shards c !! i = Some s →
    shard_wf s ∧ sh_bytes s ≤ shard_budget c ∧
    ∀ k, is_Some (sh_map s !! k) → shard_index c k = i;
  cache_bytes_exact : cache_bytes c = shard_sum sh_bytes (shards c);
  cache_entries_exact : cache_entries c = shard_sum shard_count (shards c)
}.

(** What the cache holds for a key. *)
Definition cached (c : ValueCache) (k : bytes) : option (Revision * KvRecord) :=
  (λ s, (slot_rev s, slot_rec s)) <$> sh_map (shard_of c k) !! k.

Lemma shard_index_lt c k : (shard_index c k < SHARDS)%nat.
Proof.
  unfold shard_index. pose proof (N.mod_lt (hasher c k) (N.of_nat SHARDS)).
  unfold SHARDS in *. lia.
Qed.

Lemma shard_of_lookup c k :
  length (shards c) = SHARDS → shards c !! shard_index c k = Some (shard_of c k).
Proof.
  intros Hlen. unfold shard_of.
  destruct (lookup_lt_is_Some_2 (shards c) (shard_index c k)) as [s Hs].
  { rewrite Hlen. apply shard_index_lt. }
  by rewrite Hs.
Qed.

Lemma shard_of_wf c k : cache_wf c → shard_wf (shard_of c k).
Proof. intros Hc. by eapply (cache_shard c Hc), shard_of_lookup, cache_shards. Qed.

Lemma shard_of_bytes c k : cache_wf c → sh_bytes (shard_of c k) ≤ shard_budget c.
Proof. intros Hc. by eapply (cache_shard c Hc), shard_of_lookup, cache_shards. Qed.

(** Replacing a key's shard, with the counters moved by the difference. *)
Lemma cache_wf_update c k s' dh dm de db dn :
  cache_wf c → shard_wf s' → sh_bytes s' ≤ shard_budget c →
  (∀ k', is_Some (sh_map s' !! k') → k' = k ∨ is_Some (sh_map (shard_of c k) !! k')) →
  db = sh_bytes s' - sh_bytes (shard_of c k) →
  dn = shard_count s' - shard_count (shard_of c k) →
  cache_wf (count_cache dh dm de db dn (set_shard k s' c)).
Proof.
  intros Hc Hs Hb Hkeys -> ->.
  pose proof (shard_of_lookup c k (cache_shards c Hc)) as Hlook.
  destruct Hc as [Hlen Hbud Htot Hshard Hbytes Hent]. split; cbn; try done.
  - by rewrite length_insert.
  - intros i s. rewrite list_lookup_insert_Some.
    intros [(<- & <- & _)|[_ Hi]]; [|by apply Hshard].
    split_and!; [done..|]. intros k' [->|Hk']%Hkeys; [done|].
    by apply (Hshard _ _ Hlook).
  - rewrite (shard_sum_insert _ _ _ _ _ Hlook), Hbytes. lia.
  - rewrite (shard_sum_insert _ _ _ _ _ Hlook), Hent. lia.
Qed.

Lemma cached_update c k s' dh dm de db dn k' :
  length (shards c) = SHARDS →
  cached (count_cache dh dm de db dn (set_shard k s' c)) k' =
  if decide (shard_index c k = shard_index c k')
  then (λ s, (slot_rev s, slot_rec s)) <$> sh_map s' !! k'
  else cached c k'.
Proof.
  intros Hlen. unfold cached. f_equal. unfold shard_of. cbn.
  change (shard_index (count_cache dh dm de db dn (set_shard k s' c)) k')
    with (shard_index c k').
  destruct (decide _) as [Heq|Hne].
  - rewrite Heq, list_lookup_insert_eq; [done|].
    rewrite Hlen. apply shard_index_lt.
  - by rewrite list_lookup_insert_ne.
Qed.

Lemma shard_of_same_index c k k' :
  shard_index c k = shard_index c k' → shard_of c k = shard_of c k'.
Proof. unfold shard_of. by intros ->. Qed.

Lemma count_set_count k s a b c d e a' b' c' d' e' self :
  count_cache a b c d e (set_shard k s (count_cache a' b' c' d' e' self)) =
  count_cache (a' + a) (b' + b) (c' + c) (d' + d) (e' + e) (set_shard k s self).
Proof. unfold count_cache, set_shard; cbn. by rewrite <- !Z.add_assoc. Qed.

Lemma count_zero self : count_cache 0 0 0 0 0 self = self.
Proof. destruct self. unfold count_cache; cbn. by rewrite !Z.add_0_r. Qed.

(** ** The operations *)

Lemma cache_wf_new hash cfg :
  0 ≤ value_cache_bytes cfg → cache_wf (ValueCache_new hash cfg).
Proof.
  intros Hc. assert (0 ≤ value_cache_bytes cfg / Z.of_nat SHARDS)
    by (apply Z.div_pos; [done|unfold SHARDS; lia]).
  split; cbn [shards shard_budget budget cache_bytes cache_entries ValueCache_new]; try done.
  intros i s Hi%list_elem_of_lookup_2. apply elem_of_replicate in Hi as [-> _].
  split_and!; [apply shard_wf_default|done|].
  intros k [x Hx]. cbn in Hx. by rewrite lookup_empty in Hx.
Qed.

Lemma cached_new hash cfg k : cached (ValueCache_new hash cfg) k = None.
Proof.
  unfold cached, shard_of. cbn [shards ValueCache_new].
  destruct (replicate SHARDS Shard_default !! _) as [s|] eqn:Hs; [|done].
  apply list_elem_of_lookup_2, elem_of_replicate in Hs as [-> _].
  cbn. by rewrite lookup_empty.
Qed.

(** A lookup that touches the shard without changing what it holds. *)
Lemma cache_get_spec k rev c :
  cache_wf c →
  let '(r, c') := cache_get k rev c in
  cache_wf c' ∧ enabled c' = enabled c ∧ (∀ k', cached c' k' = cached c k') ∧
  (∀ rec, r = Some rec ↔ enabled c = true ∧ cached c k = Some (rev, rec)).
Proof.
  intros Hc. unfold cache_get. destruct (enabled c) eqn:Hen; cbn.
  2:{ split_and!; try done. naive_solver. }
  pose proof (shard_of_wf c k Hc) as Hs. pose proof (shard_of_bytes c k Hc) as Hb.
  pose proof (cache_shards c Hc) as Hlen.
  assert (cache_wf (count_cache 0 1 0 0 0 (set_shard k (next_tick (shard_of c k)).2 c)))
    as Hmiss.
  { apply cache_wf_update; auto using next_tick_wf; unfold shard_count; cbn; lia. }
  assert (∀ k', cached (count_cache 0 1 0 0 0 (set_shard k (next_tick (shard_of c k)).2 c)) k'
                = cached c k') as Hsame.
  { intros k'. rewrite cached_update by done. destruct (decide _) as [Heq|]; [|done].
    unfold cached. cbn. by rewrite (shard_of_same_index _ _ _ Heq). }
  destruct (sh_map (shard_of c k) !! k) as [slot|] eqn:Hk.
  2:{ split_and!; try done. unfold cached. rewrite Hk. split; [done|]. by intros [_ ?]. }
  destruct (decide (slot_rev slot = rev)) as [<-|Hne].
  2:{ split_and!; try done. unfold cached. rewrite Hk. split; [done|].
      intros [_ ?]. simplify_eq/=. }
  assert (sh_order (shard_of c k) !! slot_tick slot = Some k) as ->
    by (apply (shard_order _ Hs); eauto).
  pose proof (shard_touch_wf _ _ _ Hs Hk) as Ht.
  split_and!.
  - apply cache_wf_update; try done; cbn.
    + intros k' [x Hx]. apply lookup_insert_Some in Hx as [[<- _]|[_ Hx]]; eauto.
    + lia.
    + unfold shard_count. cbn. rewrite map_size_insert_Some by eauto. lia.
  - done.
  - intros k'. rewrite cached_update by done. destruct (decide _) as [Heq|]; [|done].
    unfold cached. rewrite <- (shard_of_same_index _ _ _ Heq). cbn.
    destruct (decide (k = k')) as [<-|]; [by rewrite lookup_insert_eq, Hk|].
    by rewrite lookup_insert_ne.
  - intros rec. unfold cached. rewrite Hk. cbn. naive_solver.
Qed.

Lemma shard_remove_spec k s :
  shard_wf s →
  match shard_remove k s with
  | (r, s1) =>
      shard_wf s1 ∧ sh_map s1 = delete k (sh_map s) ∧ sh_bytes s1 ≤ sh_bytes s ∧
      match r with
      | Some freed => sh_bytes s1 = sh_bytes s - freed ∧ shard_count s1 = shard_count s - 1
      | None => s1 = s
      end
  end.
Proof.
  intros Hs. pose proof (shard_remove_wf k s Hs) as Hw.
  pose proof (shard_remove_map k s) as Hm. unfold shard_remove in *.
  destruct (sh_map s !! k) as [slot|] eqn:Hk; cbn in *; [|by split_and!].
  pose proof (shard_slot s Hs k slot Hk) as [_ Hsz].
  pose proof (entry_size_pos k (slot_rec slot)).
  split_and!; try done; [lia|]. unfold shard_count. cbn.
  rewrite map_size_delete_Some by eauto.
  assert (base.size (sh_map s) ≠ 0%nat); [|lia].
  intros Hz%map_size_empty_iff. rewrite Hz in Hk. by rewrite lookup_empty in Hk.
Qed.

Lemma cache_remove_spec k c :
  cache_wf c →
  cache_wf (cache_remove k c) ∧ enabled (cache_remove k c) = enabled c ∧
  (∀ k', k' ≠ k → cached (cache_remove k c) k' = cached c k') ∧
  (enabled c = true → cached (cache_remove k c) k = None).
Proof.
  intros Hc. unfold cache_remove. destruct (enabled c) eqn:Hen; [|by split_and!].
  pose proof (shard_of_wf c k Hc) as Hs. pose proof (shard_of_bytes c k Hc) as Hb.
  pose proof (cache_shards c Hc) as Hlen.
  pose proof (shard_remove_spec k (shard_of c k) Hs) as Hr.
  destruct (shard_remove k (shard_of c k)) as [[freed|] s1];
    destruct Hr as (Hs1 & Hm & Hle & Hr).
  - destruct Hr as [Hbytes Hcount]. split_and!.
    + apply cache_wf_update; try done; try lia. rewrite Hm.
      intros k' [x Hx]. apply lookup_delete_Some in Hx as [_ Hx]. eauto.
    + done.
    + intros k' Hne. rewrite cached_update by done.
      destruct (decide _) as [Heq|]; [|done]. unfold cached.
      by rewrite Hm, (shard_of_same_index _ _ _ Heq), lookup_delete_ne.
    + intros _. rewrite cached_update by done.
      by rewrite decide_True, Hm, lookup_delete_eq.
  - split_and!; try done. intros _. unfold cached.
    by rewrite <- Hr, Hm, lookup_delete_eq.
Qed.

(** [insert] either keeps an entry at least as new, or replaces the key's
    entry (by nothing when the record is too large or does not fit); every
    other key keeps its entry or loses it to eviction. *)
Lemma cache_insert_spec k rev rec newer c :
  cache_wf c →
  let c' := cache_insert k rev rec newer c in
  cache_wf c' ∧ enabled c' = enabled c ∧
  (∀ k', k' ≠ k → cached c' k' = cached c k' ∨ cached c' k' = None) ∧
  (enabled c = true →
     cached c' k = None ∨ cached c' k = Some (rev, rec) ∨
     (newer = true ∧ cached c' k = cached c k ∧
      ∃ r x, cached c k = Some (r, x) ∧ rev_leb rev r = true)).
Proof.
  intros Hc. cbn zeta. unfold cache_insert.
  destruct (enabled c) eqn:Hen; [|by split_and!; eauto].
  destruct (newer && _) eqn:Hnew.
  { apply andb_true_iff in Hnew as [-> Hnew]. split_and!; eauto. intros _. right. right.
    split_and!; try done. unfold cached.
    destruct (sh_map (shard_of c k) !! k) as [slot|]; [|done]. by do 2 eexists. }
  clear Hnew. pose proof (shard_of_wf c k Hc) as Hs. pose proof (shard_of_bytes c k Hc) as Hb.
  pose proof (cache_shards c Hc) as Hlen. pose proof (cache_budget c Hc) as Hbud.
  pose proof (shard_remove_spec k (shard_of c k) Hs) as Hr.
  destruct (shard_remove k (shard_of c k)) as [r s1]; destruct Hr as (Hs1 & Hm & Hle & Hr).
  set (freed0 := match r with Some f => f | None => 0 end).
  set (n0 := match r with Some _ => 1 | None => 0 end).
  assert (match r with Some freed => count_cache 0 0 0 (- freed) (-1) c | None => c end
          = count_cache 0 0 0 (- freed0) (- n0) c) as ->
    by (unfold freed0, n0; destruct r; [done|by rewrite count_zero]).
  assert (sh_bytes s1 = sh_bytes (shard_of c k) - freed0 ∧
          shard_count s1 = shard_count (shard_of c k) - n0) as [Hf0 Hn0]
    by (unfold freed0, n0; destruct r; [done|subst s1; lia]).
  clearbody freed0 n0. clear Hr r. cbn [max_entry count_cache].
  destruct (max_entry c <? _).
  { rewrite <- (count_zero (set_shard _ _ _)), count_set_count. split_and!.
    - apply cache_wf_update; try done; try lia. rewrite Hm.
      intros k' [x Hx]. apply lookup_delete_Some in Hx as [_ Hx]. eauto.
    - done.
    - intros k' Hne. left. rewrite cached_update by done.
      destruct (decide _) as [Heq|]; [|done]. unfold cached.
      by rewrite Hm, (shard_of_same_index _ _ _ Heq), lookup_delete_ne.
    - intros _. left. by rewrite cached_update, decide_True, Hm, lookup_delete_eq. }
  cbn [next_tick]. cbn [sh_map sh_order sh_bytes sh_tick].
  assert (sh_map s1 !! k = None) as Hk1 by (by rewrite Hm, lookup_delete_eq).
  pose proof (shard_push_wf s1 k rev rec Hs1 Hk1) as Hs2. cbn zeta in Hs2.
  set (s2 := mkShard _ _ _ _) in *.
  pose proof (evict_spec (base.size (sh_order s2)) (shard_budget c) s2 0 0 Hs2
                (Nat.le_refl _) Hbud) as He.
  change (sh_order (mkShard _ _ _ _)) with (sh_order s2).
  cbn [shard_budget count_cache].
  destruct (evict _ _ s2 0 0) as [[s3 n] freed].
  destruct He as (Hs3 & Hb3 & Hsub & Hbytes & Hcount & _).
  rewrite count_set_count.
  assert (∀ k' slot, sh_map s3 !! k' = Some slot →
            k' = k ∧ slot_rev slot = rev ∧ slot_rec slot = rec ∨
            k' ≠ k ∧ sh_map (shard_of c k) !! k' = Some slot) as Hin.
  { intros k' slot H3. assert (sh_map s2 !! k' = Some slot) as H2 by (by eapply lookup_weaken).
    unfold s2 in H2. cbn in H2. apply lookup_insert_Some in H2 as [[<- <-]|[Hne H2]]; [by left|].
    rewrite Hm in H2. apply lookup_delete_Some in H2 as [? H2]. by right. }
  split_and!.
  - apply cache_wf_update; try done.
    + intros k' [x Hx]. destruct (Hin k' x Hx) as [[-> _]|[_ ?]]; eauto.
    + unfold s2 in Hbytes. cbn in Hbytes. lia.
    + unfold shard_count in *. unfold s2 in Hcount. cbn in Hcount.
      rewrite map_size_insert_None in Hcount by done. lia.
  - done.
  - intros k' Hne. rewrite cached_update by done.
    destruct (decide _) as [Heq|]; [|by left]. unfold cached.
    rewrite <- (shard_of_same_index _ _ _ Heq).
    destruct (sh_map s3 !! k') as [slot|] eqn:H3; [|by right]. left.
    destruct (Hin k' slot H3) as [[-> _]|[_ ->]]; done.
  - intros _. rewrite cached_update, decide_True by done.
    destruct (sh_map s3 !! k) as [slot|] eqn:H3; [|by left]. right. left.
    destruct (Hin k slot H3) as [(_ & <- & <-)|[? _]]; done.
Qed.

Lemma cache_clear_spec c :
  cache_wf c →
  cache_wf (cache_clear c) ∧ enabled (cache_clear c) = enabled c ∧
  ∀ k, cached (cache_clear c) k = None.
Proof.
  intros [Hlen Hbud Htot Hshard Hbytes Hent].
  assert (∀ f, f Shard_default = 0 → ∀ l : list Shard,
            shard_sum f (const Shard_default <$> l) = 0) as Hzero.
  { intros f Hf l. induction l as [|s l IH]; cbn; [done|].
    change (f Shard_default + shard_sum f (const Shard_default <$> l) = 0). lia. }
  split_and!; [split; cbn; try done| |].
  - by rewrite length_fmap.
  - intros i s Hi. apply list_lookup_fmap_Some in Hi as (s0 & -> & _).
    split_and!; [apply shard_wf_default|done|].
    intros k [x Hx]. cbn in Hx. by rewrite lookup_empty in Hx.
  - rewrite Hzero by done. unfold shard_sum in Hbytes. rewrite Hbytes. lia.
  - rewrite Hzero by done. unfold shard_sum, shard_count in Hent. rewrite Hent. lia.
  - done.
  - intros k. unfold cached, shard_of. cbn. rewrite list_lookup_fmap.
    destruct (shards c !! _); cbn; by rewrite lookup_empty.
Qed.

(** ** Properties of every entry

    What holds of every entry still does after a lookup, a removal, and an
    insert of an entry it holds of. *)

Definition cache_all (P : bytes → Revision → KvRecord → Prop) (c : ValueCache) : Prop :=
  cache_wf c ∧ (enabled c = true → ∀ k r rec, cached c k = Some (r, rec) → P k r rec).

Lemma cache_all_get P k rev c : cache_all P c → cache_all P (cache_get k rev c).2.
Proof.
  intros [Hwf Hall]. pose proof (cache_get_spec k rev c Hwf) as Hg.
  destruct (cache_get k rev c) as [r c']. destruct Hg as (Hwf' & Hen & Hsame & _).
  split; [done|]. cbn. rewrite Hen. intros He k' r' rec'. rewrite Hsame. by apply Hall.
Qed.

Lemma cache_all_remove P k c : cache_all P c → cache_all P (cache_remove k c).
Proof.
  intros [Hwf Hall]. destruct (cache_remove_spec k c Hwf) as (Hwf' & Hen & Hother & Hk).
  split; [done|]. rewrite Hen. intros He k' r' rec'.
  destruct (decide (k' = k)) as [->|]; [by rewrite Hk|rewrite Hother by done; by apply Hall].
Qed.

Lemma cache_all_insert (P : bytes → Revision → KvRecord → Prop) k rev rec newer c :
  cache_all P c → P k rev rec → cache_all P (cache_insert k rev rec newer c).
Proof.
  intros [Hwf Hall] HP.
  destruct (cache_insert_spec k rev rec newer c Hwf) as (Hwf' & Hen & Hother & Hk).
  split; [done|]. rewrite Hen. intros He k' r' rec'.
  destruct (decide (k' = k)) as [->|Hne].
  - destruct (Hk He) as [-> |[-> |(_ & -> & _)]]; [done| |by apply Hall].
    intros ?. by simplify_eq.
  - destruct (Hother k' Hne) as [-> | ->]; [by apply Hall|done].
Qed.

Lemma cache_all_clear P c : cache_wf c → cache_all P (cache_clear c).
Proof.
  intros Hwf. destruct (cache_clear_spec c Hwf) as (Hwf' & _ & Hnone).
  split; [done|]. intros _ k r rec. by rewrite Hnone.
Qed.

Lemma cache_all_impl (P Q : bytes → Revision → KvRecord → Prop) c :
  (∀ k r rec, P k r rec → Q k r rec) → cache_all P c → cache_all Q c.
Proof. intros HPQ [Hwf Hall]. split; [done|]. eauto. Qed.

(** ** Whole runs of the cache *)

Inductive CacheOp : Type :=
  | CGet (k : bytes) (rev : Revision)
  | CInsert (k : bytes) (rev : Revision) (rec : KvRecord) (only_if_newer : bool)
  | CRemove (k : bytes)
  | CClear.

Definition cache_step (op : CacheOp) (c : ValueCache) : ValueCache :=
  match op with
  | CGet k rev => (cache_get k rev c).2
  | CInsert k rev rec newer => cache_insert k rev rec newer c
  | CRemove k => cache_remove k c
  | CClear => cache_clear c
  end.

(** The operations so far, newest first, leave [k] possibly cached as
    [rec] at [rev]: it was inserted so, and no later operation dropped or
    unconditionally replaced it. *)
Fixpoint may_hold (ops : list CacheOp) (k : bytes) (rev : Revision) (rec : KvRecord)
    : Prop :=
  match ops with
  | [] => False
  | CGet _ _ :: ops' => may_hold ops' k rev rec
  | CInsert k' rev' rec' newer :: ops' =>
      (k' = k ∧ rev' = rev ∧ rec' = rec) ∨
      ((k' = k → newer = true ∧ rev_leb rev' rev = true) ∧ may_hold ops' k rev rec)
  | CRemove k' :: ops' => k' ≠ k ∧ may_hold ops' k rev rec
  | CClear :: _ => False
  end.

Lemma cache_step_wf op c :
  cache_wf c → cache_wf (cache_step op c) ∧ enabled (cache_step op c) = enabled c.
Proof.
  intros Hc. destruct op as [k rev|k rev rec newer|k|]; cbn.
  - pose proof (cache_get_spec k rev c Hc) as Hg. destruct (cache_get k rev c). naive_solver.
  - pose proof (cache_insert_spec k rev rec newer c Hc). naive_solver.
  - pose proof (cache_remove_spec k c Hc). naive_solver.
  - pose proof (cache_clear_spec c Hc). naive_solver.
Qed.

Lemma cache_step_budget op c : budget (cache_step op c) = budget c.
Proof.
  destruct op as [k rev|k rev rec newer|k|]; cbn;
    unfold cache_get, cache_insert, cache_remove; repeat case_match; by simplify_eq/=.
Qed.

Lemma cache_run_budget ops c : budget (foldr cache_step c ops) = budget c.
Proof. induction ops as [|op ops IH]; cbn; [done|]. by rewrite cache_step_budget. Qed.

Lemma shard_sum_ext f g l : (∀ s, s ∈ l → f s = g s) → shard_sum f l = shard_sum g l.
Proof.
  induction l as [|s l IH]; intros Hfg; [done|]. unfold shard_sum in *. cbn.
  rewrite Hfg, IH; [done|set_solver..].
Qed.

Lemma shard_sum_bounds f l b :
  (∀ s, s ∈ l → 0 ≤ f s ≤ b) → 0 ≤ shard_sum f l ≤ b * Z.of_nat (length l).
Proof.
  induction l as [|s l IH]; intros Hf; [unfold shard_sum; cbn; lia|].
  unfold shard_sum in *. cbn [foldr length].
  assert (0 ≤ f s ≤ b) by (apply Hf; by left).
  destruct IH; [|nia]. intros; apply Hf; by right.
Qed.

Lemma cache_bytes_bounds c : cache_wf c → 0 ≤ cache_bytes c ≤ budget c.
Proof.
  intros Hc. rewrite (cache_bytes_exact c Hc), (cache_total c Hc), <- (cache_shards c Hc).
  apply shard_sum_bounds. intros s [i Hi]%list_elem_of_lookup.
  destruct (cache_shard c Hc i s Hi) as (Hs & Hb & _). split; [|done].
  rewrite (shard_bytes s Hs). apply map_sum_nonneg. intros k slot Hk.
  destruct (shard_slot s Hs k slot Hk) as [_ ->].
  pose proof (entry_size_pos k (slot_rec slot)). lia.
Qed.

Lemma cache_run_wf ops c :
  cache_wf c →
  cache_wf (foldr cache_step c ops) ∧ enabled (foldr cache_step c ops) = enabled c.
Proof.
  intros Hc. induction ops as [|op ops [IH1 IH2]]; cbn; [done|].
  destruct (cache_step_wf op _ IH1). by rewrite <- IH2.
Qed.

Lemma cache_run_holds ops c k rev rec :
  cache_wf c → enabled c = true → (∀ k', cached c k' = None) →
  cached (foldr cache_step c ops) k = Some (rev, rec) → may_hold ops k rev rec.
Proof.
  intros Hc Hen Hnil. revert k rev rec. induction ops as [|op ops IH]; intros k rev rec; cbn.
  { by rewrite Hnil. }
  destruct (cache_run_wf ops c Hc) as [Hw He]. rewrite Hen in He.
  set (c1 := foldr cache_step c ops) in *.
  destruct op as [k' rev'|k' rev' rec' newer|k'|]; cbn.
  - pose proof (cache_get_spec k' rev' c1 Hw) as Hg.
    destruct (cache_get k' rev' c1) as [r c2]. destruct Hg as (_ & _ & Hsame & _).
    cbn. rewrite Hsame. apply IH.
  - destruct (cache_insert_spec k' rev' rec' newer c1 Hw) as (_ & _ & Hother & Hk).
    intros Hcached. destruct (decide (k' = k)) as [->|Hne].
    + destruct (Hk He) as [?|[?|(-> & Hsame & r & x & Hrx & Hle)]]; [congruence|..].
      * left. simplify_eq. by rewrite Hcached in *; simplify_eq.
      * right. rewrite Hsame in Hcached. split; [|by apply IH].
        rewrite Hrx in Hcached. by simplify_eq.
    + right. split; [done|]. apply IH.
      destruct (Hother k) as [<-|?]; [congruence|done|congruence].
  - destruct (cache_remove_spec k' c1 Hw) as (_ & _ & Hother & Hk). intros Hcached.
    destruct (decide (k' = k)) as [->|Hne]; [by rewrite Hk in Hcached|].
    split; [done|]. apply IH. by rewrite <- Hother.
  - destruct (cache_clear_spec c1 Hw) as (_ & _ & Hno). by rewrite Hno.
Qed.

(**  Over every run of the value cache from empty: what [get] answers
    was inserted for exactly that key and revision and not dropped or
    replaced since; the bytes held never exceed the configured budget, and
    the two gauges equal the bytes and entries actually held. *)
Theorem value_cache_sound hash cfg ops k rev rec :
  0 ≤ value_cache_bytes cfg →
  let c := foldr cache_step (ValueCache_new hash cfg) ops in
  ((cache_get k rev c).1 = Some rec → may_hold ops k rev rec) ∧
  0 ≤ cache_bytes c ≤ value_cache_bytes cfg ∧
  cache_bytes c = shard_sum (λ s, shard_size (sh_map s)) (shards c) ∧
  cache_entries c = shard_sum shard_count (shards c).
Proof.
  intros Hcfg c. pose proof (cache_wf_new hash cfg Hcfg) as H0.
  destruct (cache_run_wf ops _ H0) as [Hw He]. fold c in Hw, He.
  split_and!.
  - pose proof (cache_get_spec k rev c Hw) as Hg. destruct (cache_get k rev c) as [r c'].
    destruct Hg as (_ & _ & _ & Hg). cbn. intros [Hen Hk]%Hg. rewrite He in Hen.
    by apply (cache_run_holds ops (ValueCache_new hash cfg)); auto using cached_new.
  - by apply cache_bytes_bounds.
  - etrans; [by apply cache_bytes_bounds|]. unfold c. rewrite cache_run_budget. cbn.
    pose proof (Z.div_mod (value_cache_bytes cfg) (Z.of_nat SHARDS)).
    pose proof (Z.mod_pos_bound (value_cache_bytes cfg) (Z.of_nat SHARDS)).
    unfold SHARDS in *. lia.
  - rewrite (cache_bytes_exact c Hw). apply shard_sum_ext.
    intros s [i Hi]%list_elem_of_lookup. by eapply shard_bytes, (cache_shard c Hw).
  - apply (cache_entries_exact c Hw).
Qed.

Definition sample_record : KvRecord :=
  mkKv [x61] [x31; x32] 2 3 1 0 false.

Lemma value_cache_sound_witness :
  let c := foldr cache_step (ValueCache_new (λ _, 7%N) CacheConfig_default)
             [CInsert [x62] (mkRev 4 0) sample_record true;
              CInsert [x61] (mkRev 3 0) sample_record false] in
  (cache_get [x61] (mkRev 3 0) c).1 = Some sample_record ∧ cache_entries c = 2 ∧
  cache_bytes c ≤ value_cache_bytes CacheConfig_default.
Proof.
  split_and!; [vm_compute; reflexivity..|].
  refine (proj2 (proj1 (proj2 (value_cache_sound (λ _, 7%N) CacheConfig_default
            [CInsert [x62] (mkRev 4 0) sample_record true;
             CInsert [x61] (mkRev 3 0) sample_record false] [] (mkRev 0 0)
            sample_record _)))).
  vm_compute. discriminate.
Defined.

(**  The eviction loop ends with the shard inside its share of the
    budget, keeps the shard well formed, removes slots only in
    least-recently-used order, and reports exactly what it removed. *)
Theorem eviction_is_lru limit s :
  shard_wf s → 0 ≤ limit →
  let '(s', n, freed) := evict (base.size (sh_order s)) limit s 0 0 in
  shard_wf s' ∧ sh_bytes s' ≤ limit ∧ sh_map s' ⊆ sh_map s ∧
  sh_bytes s' = sh_bytes s - freed ∧ shard_count s' = shard_count s - n ∧
  (∀ k k' a b, sh_map s !! k = Some a → sh_map s' !! k = None →
     sh_map s' !! k' = Some b → slot_tick a < slot_tick b).
Proof.
  intros Hs Hlim.
  pose proof (evict_spec (base.size (sh_order s)) limit s 0 0 Hs (Nat.le_refl _) Hlim) as He.
  destruct (evict _ _ _ _ _) as [[s' n] freed].
  destruct He as (? & ? & ? & Hb & Hc & ?). unfold shard_count.
  rewrite Z.sub_0_r in Hb, Hc. by split_and!.
Qed.

Definition sample_shard : Shard :=
  shard_of (cache_insert [x61] (mkRev 3 0) sample_record false
              (ValueCache_new (λ _, 7%N) CacheConfig_default)) [x61].

Lemma eviction_is_lru_witness :
  let '(s', n, freed) := evict (base.size (sh_order sample_shard)) 100 sample_shard 0 0 in
  sh_bytes s' ≤ 100 ∧ n = 1 ∧ freed = 164 ∧
  shard_count s' = shard_count sample_shard - n.
Proof.
  assert (shard_wf sample_shard) as Hs.
  { apply shard_of_wf, cache_insert_spec, cache_wf_new. vm_compute. discriminate. }
  pose proof (eviction_is_lru 100 sample_shard Hs ltac:(lia)) as He.
  assert ((evict (base.size (sh_order sample_shard)) 100 sample_shard 0 0).1.2 = 1 ∧
          (evict (base.size (sh_order sample_shard)) 100 sample_shard 0 0).2 = 164)
    as [Hn Hf] by (vm_compute; done).
  destruct (evict _ _ _ _ _) as [[s' n] freed]. cbn in Hn, Hf. subst.
  destruct He as (_ & ? & _ & _ & ? & _). done.
Defined.
