(* ===== verification/Auth.v ===== *)
(** * Replicated authentication state ([crates/storage/src/mvcc/auth.rs])

    Users, roles, the operations a raft entry carries ([AuthOp]), [plan],
    which validates one against the tables and stages its writes, and the
    in-memory half ([AuthMemory]: the enabled flag and the token set).  A
    Rust [String] is its UTF-8 bytes; an [Instant] or [Duration] is a
    number of nanoseconds, and the clock is an argument.

    The theorems: [plan] refines an abstract table of users and roles on
    every operation, refusals included; a refusal stages nothing; every
    token names a user that exists; a token lives exactly [ttl] from its
    last use. *)

From S2P Require Import Prelude KvStore Lease.

Definition TABLE_AUTH_STATE : string := "auth_state".
Definition TABLE_AUTH_USERS : string := "auth_users".
Definition TABLE_AUTH_ROLES : string := "auth_roles".
Definition META_AUTH_ENABLED : bytes := str "enabled".

(** ** Data *)

Record StoredUser := mkUser {
  user_name : bytes;
  password_hash : bytes;
  user_roles : list bytes;
  no_password : bool
}.

Inductive PermType := PermRead | PermWrite | PermReadWrite.

Record StoredPermission := mkPerm {
  perm_type : PermType;
  perm_key : bytes;
  perm_range_end : bytes
}.

Record StoredRole := mkRole {
  role_name : bytes;
  permissions : list StoredPermission
}.

Definition allows_read (self : PermType) : bool :=
  match self with PermRead | PermReadWrite => true | PermWrite => false end.

Definition allows_write (self : PermType) : bool :=
  match self with PermWrite | PermReadWrite => true | PermRead => false end.

Definition covers (self : StoredPermission) (key : bytes) : bool :=
  if bool_decide (perm_range_end self = []) then bool_decide (key = perm_key self)
  else if bool_decide (perm_range_end self = [x00]) then bytes_leb (perm_key self) key
  else bytes_leb (perm_key self) key && bytes_ltb key (perm_range_end self).

(** The raw contents of the three tables. *)
Record AuthTables := mkAuthTables {
  at_users : list (bytes * bytes);
  at_roles : list (bytes * bytes);
  at_state : list (bytes * bytes)
}.

Inductive AuthOp :=
| Enable
| Disable
| Authenticate (user token checked_hash : bytes)
| UserAdd (name password_hash : bytes) (no_password : bool)
| UserDelete (name : bytes)
| UserChangePassword (name password_hash : bytes)
| UserGrantRole (user role : bytes)
| UserRevokeRole (name role : bytes)
| RoleAdd (name : bytes)
| RoleDelete (name : bytes)
| RoleGrantPermission (name : bytes) (perm : StoredPermission)
| RoleRevokePermission (name key range_end : bytes)
| Adopt (tables : AuthTables).

Inductive AuthApplyError :=
| NotFound (msg : string)
| AlreadyExists (msg : string)
| FailedPrecondition (msg : string).

#[global] Instance PermType_eq_dec : EqDecision PermType.
Proof. solve_decision. Defined.
#[global] Instance StoredPermission_eq_dec : EqDecision StoredPermission.
Proof. solve_decision. Defined.
#[global] Instance StoredUser_eq_dec : EqDecision StoredUser.
Proof. solve_decision. Defined.
#[global] Instance StoredRole_eq_dec : EqDecision StoredRole.
Proof. solve_decision. Defined.
#[global] Instance AuthApplyError_eq_dec : EqDecision AuthApplyError.
Proof. solve_decision. Defined.

#[global] Instance PermType_countable : Countable PermType.
Proof.
  apply (inj_countable' (λ p, match p with PermRead => 0 | PermWrite => 1 | _ => 2 end)
           (λ z, if z =? 0 then PermRead else if z =? 1 then PermWrite else PermReadWrite)).
  by intros [].
Defined.
#[global] Instance StoredPermission_countable : Countable StoredPermission.
Proof.
  apply (inj_countable' (λ p, (perm_type p, perm_key p, perm_range_end p))
           (λ '(t, k, e), mkPerm t k e)). by intros [].
Defined.
#[global] Instance StoredUser_countable : Countable StoredUser.
Proof.
  apply (inj_countable' (λ u, (user_name u, password_hash u, user_roles u, no_password u))
           (λ '(n, h, r, p), mkUser n h r p)). by intros [].
Defined.
#[global] Instance StoredRole_countable : Countable StoredRole.
Proof.
  apply (inj_countable' (λ r, (role_name r, permissions r)) (λ '(n, p), mkRole n p)).
  by intros [].
Defined.

(** ** The raw tables *)

Definition AuthTables_read (snap : Tables) : AuthTables :=
  let all t := snap_range snap t Unbounded Unbounded 0 in
  mkAuthTables (all TABLE_AUTH_USERS) (all TABLE_AUTH_ROLES) (all TABLE_AUTH_STATE).

(** [v.first().copied().unwrap_or(0) != 0]. *)
Definition flag_set (v : bytes) : bool :=
  match v with b :: _ => negb (byte_val b =? 0) | [] => false end.

Definition tables_enabled (self : AuthTables) : bool :=
  existsb (λ r, bool_decide (r.1 = META_AUTH_ENABLED) && flag_set r.2) (at_state self).

(** [&[0xFFu8; 64]]. *)
Definition LAST_KEY : bytes := replicate 64 xff.

Definition auth_replace_into (self : AuthTables) (batch : WriteBatch) : WriteBatch :=
  batch
    ++ [OpDeleteRange TABLE_AUTH_USERS [] LAST_KEY;
        OpDeleteRange TABLE_AUTH_ROLES [] LAST_KEY;
        OpDeleteRange TABLE_AUTH_STATE [] LAST_KEY]
    ++ put_rows TABLE_AUTH_USERS (at_users self)
    ++ put_rows TABLE_AUTH_ROLES (at_roles self)
    ++ put_rows TABLE_AUTH_STATE (at_state self).

Definition tables_is_empty (self : AuthTables) : bool :=
  bool_decide (at_users self = []) && bool_decide (at_roles self = [])
    && negb (tables_enabled self).

(** The bytes [digest] feeds to SHA-256 ([usize as u64] lengths). *)
Definition digest_row (tag : byte) (r : bytes * bytes) : bytes :=
  tag :: be_bytes 8 (Z.of_nat (length r.1)) ++ r.1
    ++ be_bytes 8 (Z.of_nat (length r.2)) ++ r.2.

Definition digest_input (self : AuthTables) : bytes :=
  concat (digest_row x75 <$> at_users self) ++ concat (digest_row x72 <$> at_roles self)
    ++ [x65; byte_of (Z.b2z (tables_enabled self))].

(** ** The in-memory half *)

Record Tokens := mkTokens {
  tok_map : gmap bytes (bytes * Z);
  tok_ttl : Z;
  tok_last_purge : Z
}.

Record AuthMemory := mkAuthMemory {
  am_enabled : bool;
  am_tokens : Tokens;
  am_adoptions : Z
}.

Definition NANOS_PER_SEC : Z := 1000000000.
Definition DEFAULT_TOKEN_TTL : Z := 300 * NANOS_PER_SEC.

(** [Instant::duration_since], which saturates to zero. *)
Definition duration_since (now earlier : Z) : Z := Z.max 0 (now - earlier).

Definition purge (now : Z) (self : Tokens) : Tokens :=
  if duration_since now (tok_last_purge self) <? NANOS_PER_SEC then self
  else
    mkTokens (base.filter (λ r : bytes * (bytes * Z),
                duration_since now r.2.2 < tok_ttl self) (tok_map self))
      (tok_ttl self) now.

Definition AuthMemory_default (now : Z) : AuthMemory :=
  mkAuthMemory false (mkTokens ∅ DEFAULT_TOKEN_TTL now) 0.

Definition set_tokens (t : Tokens) (self : AuthMemory) : AuthMemory :=
  mkAuthMemory (am_enabled self) t (am_adoptions self).
Definition set_tok_map (m : gmap bytes (bytes * Z)) (self : Tokens) : Tokens :=
  mkTokens m (tok_ttl self) (tok_last_purge self).

Definition set_enabled (e : bool) (self : AuthMemory) : AuthMemory :=
  mkAuthMemory e (am_tokens self) (am_adoptions self).

Definition set_token_ttl (ttl : Z) (self : AuthMemory) : AuthMemory :=
  set_tokens (mkTokens (tok_map (am_tokens self)) ttl (tok_last_purge (am_tokens self))) self.

Definition user_for_token (now : Z) (token : bytes) (self : AuthMemory)
    : option bytes * AuthMemory :=
  let g := purge now (am_tokens self) in
  match tok_map g !! token with
  | None => (None, set_tokens g self)
  | Some (user, used) =>
      if tok_ttl g <=? duration_since now used
      then (None, set_tokens (set_tok_map (delete token (tok_map g)) g) self)
      else (Some user, set_tokens (set_tok_map (<[token := (user, now)]> (tok_map g)) g) self)
  end.

Definition insert_token (now : Z) (token user : bytes) (self : AuthMemory) : AuthMemory :=
  let g := purge now (am_tokens self) in
  set_tokens (set_tok_map (<[token := (user, now)]> (tok_map g)) g) self.

Definition retain_users (keep : bytes → bool) (self : AuthMemory) : AuthMemory :=
  let g := am_tokens self in
  set_tokens (set_tok_map (base.filter (λ r : bytes * (bytes * Z),
                             keep r.2.1 = true) (tok_map g)) g) self.

Definition revoke_user_tokens (user : bytes) (self : AuthMemory) : AuthMemory :=
  retain_users (λ u, negb (bool_decide (u = user))) self.

Record AuthEffects := mkEffects {
  fx_set_enabled : option bool;
  fx_add_token : option (bytes * bytes);
  fx_revoke_user : option bytes;
  fx_keep_only_users : option (list bytes);
  fx_adopted : bool
}.

Definition AuthEffects_default : AuthEffects := mkEffects None None None None false.

Definition effects_apply (now : Z) (self : AuthEffects) (mem : AuthMemory) : AuthMemory :=
  let mem := match fx_set_enabled self with Some e => set_enabled e mem | None => mem end in
  let mem := match fx_revoke_user self with
             | Some u => revoke_user_tokens u mem | None => mem end in
  let mem := match fx_keep_only_users self with
             | Some keep => retain_users (λ u, bool_decide (u ∈ keep)) mem
             | None => mem
             end in
  let mem := match fx_add_token self with
             | Some (token, user) => insert_token now token user mem
             | None => mem
             end in
  if fx_adopted self
  then mkAuthMemory (am_enabled mem) (am_tokens mem) (am_adoptions mem + 1)
  else mem.

(** ** UTF-8 ([String::from_utf8]) *)

Definition byte_in (lo hi : Z) (b : byte) : bool :=
  (lo <=? byte_val b) && (byte_val b <=? hi).
Definition is_cont : byte → bool := byte_in 0x80 0xBF.

Fixpoint utf8_valid (bs : bytes) : bool :=
  match bs with
  | [] => true
  | b :: rest =>
      if byte_in 0 0x7F b then utf8_valid rest
      else if byte_in 0xC2 0xDF b then
        match rest with b1 :: rest => is_cont b1 && utf8_valid rest | _ => false end
      else if byte_in 0xE0 0xEF b then
        match rest with
        | b1 :: b2 :: rest =>
            (if byte_val b =? 0xE0 then byte_in 0xA0 0xBF b1
             else if byte_val b =? 0xED then byte_in 0x80 0x9F b1 else is_cont b1)
              && is_cont b2 && utf8_valid rest
        | _ => false
        end
      else if byte_in 0xF0 0xF4 b then
        match rest with
        | b1 :: b2 :: b3 :: rest =>
            (if byte_val b =? 0xF0 then byte_in 0x90 0xBF b1
             else if byte_val b =? 0xF4 then byte_in 0x80 0x8F b1 else is_cont b1)
              && is_cont b2 && is_cont b3 && utf8_valid rest
        | _ => false
        end
      else false
  end.

Definition from_utf8 (bs : bytes) : option bytes :=
  if utf8_valid bs then Some bs else None.

(** ** Planning an operation *)

Section plan.
Context `{Bincode StoredUser, Bincode StoredRole}.

Definition auth_encode {A} `{Bincode A} (v : A) : StorageResult bytes :=
  ok_or (serialize v) (Io "auth encode").

Definition get_user (snap : Tables) (name : bytes) : StorageResult (option StoredUser) :=
  match snap_get snap TABLE_AUTH_USERS name with
  | Some b => let? u := ok_or (deserialize b) (Io "auth decode user") in Ok (Some u)
  | None => Ok None
  end.

Definition get_role (snap : Tables) (name : bytes) : StorageResult (option StoredRole) :=
  match snap_get snap TABLE_AUTH_ROLES name with
  | Some b => let? r := ok_or (deserialize b) (Io "auth decode role") in Ok (Some r)
  | None => Ok None
  end.

Definition user_not_found : AuthApplyError := NotFound "etcdserver: user name not found".
Definition role_not_found : AuthApplyError := NotFound "etcdserver: role name not found".

Definition put_user (u : StoredUser) (batch : WriteBatch) : StorageResult WriteBatch :=
  let? v := auth_encode u in Ok (batch_put TABLE_AUTH_USERS (user_name u) v batch).

Definition put_role (r : StoredRole) (batch : WriteBatch) : StorageResult WriteBatch :=
  let? v := auth_encode r in Ok (batch_put TABLE_AUTH_ROLES (role_name r) v batch).

Definition set_roles (roles : list bytes) (u : StoredUser) : StoredUser :=
  mkUser (user_name u) (password_hash u) roles (no_password u).
Definition retain_roles (role : bytes) (u : StoredUser) : StoredUser :=
  set_roles (base.filter (λ r, r ≠ role) (user_roles u)) u.

(** [RoleDelete]'s loop over the user rows. *)
Fixpoint strip_role (role : bytes) (rows : list (bytes * bytes)) (batch : WriteBatch)
    : StorageResult WriteBatch :=
  match rows with
  | [] => Ok batch
  | (_, v) :: rows' =>
      match deserialize (A := StoredUser) v with
      | None => strip_role role rows' batch
      | Some u =>
          let u' := retain_roles role u in
          if bool_decide (length (user_roles u') = length (user_roles u))
          then strip_role role rows' batch
          else let? batch := put_user u' batch in strip_role role rows' batch
      end
  end.

(** A refusal, or the effects; with the batch as staged. *)
Abbreviation Planned := (result AuthApplyError AuthEffects * WriteBatch)%type.

Definition plan (snap : Tables) (op : AuthOp) (batch : WriteBatch) : StorageResult Planned :=
  let fx := AuthEffects_default in
  match op with
  | Enable =>
      let? root := get_user snap (str "root") in
      match root with
      | None => Ok (Err (FailedPrecondition "etcdserver: root user does not exist"), batch)
      | Some _ =>
          Ok (Ok (mkEffects (Some true) None None None false),
              batch_put TABLE_AUTH_STATE META_AUTH_ENABLED [x01] batch)
      end
  | Disable =>
      Ok (Ok (mkEffects (Some false) None None None false),
          batch_put TABLE_AUTH_STATE META_AUTH_ENABLED [x00] batch)
  | Authenticate user token checked_hash =>
      let? u := get_user snap user in
      match u with
      | None => Ok (Err user_not_found, batch)
      | Some u =>
          if negb (bool_decide (password_hash u = checked_hash)) || no_password u
          then Ok (Err (FailedPrecondition "etcdserver: revision of auth store is old"), batch)
          else Ok (Ok (mkEffects None (Some (token, user)) None None false), batch)
      end
  | UserAdd name hash nopw =>
      let? u := get_user snap name in
      match u with
      | Some _ => Ok (Err (AlreadyExists "etcdserver: user name already exists"), batch)
      | None => let? batch := put_user (mkUser name hash [] nopw) batch in Ok (Ok fx, batch)
      end
  | UserDelete name =>
      let? u := get_user snap name in
      match u with
      | None => Ok (Err user_not_found, batch)
      | Some _ =>
          Ok (Ok (mkEffects None None (Some name) None false),
              batch_delete TABLE_AUTH_USERS name batch)
      end
  | UserChangePassword name hash =>
      let? u := get_user snap name in
      match u with
      | None => Ok (Err user_not_found, batch)
      | Some u =>
          let? batch := put_user (mkUser (user_name u) hash (user_roles u) false) batch in
          Ok (Ok (mkEffects None None (Some name) None false), batch)
      end
  | UserGrantRole user role =>
      let? u := get_user snap user in
      match u with
      | None => Ok (Err user_not_found, batch)
      | Some u =>
          let? r := get_role snap role in
          match r with
          | None => Ok (Err role_not_found, batch)
          | Some _ =>
              let u := if bool_decide (role ∈ user_roles u) then u
                       else set_roles (user_roles u ++ [role]) u in
              let? batch := put_user u batch in Ok (Ok fx, batch)
          end
      end
  | UserRevokeRole name role =>
      let? u := get_user snap name in
      match u with
      | None => Ok (Err user_not_found, batch)
      | Some u => let? batch := put_user (retain_roles role u) batch in Ok (Ok fx, batch)
      end
  | RoleAdd name =>
      let? r := get_role snap name in
      match r with
      | Some _ => Ok (Err (AlreadyExists "etcdserver: role name already exists"), batch)
      | None => let? batch := put_role (mkRole name []) batch in Ok (Ok fx, batch)
      end
  | RoleDelete name =>
      let? r := get_role snap name in
      match r with
      | None => Ok (Err role_not_found, batch)
      | Some _ =>
          let batch := batch_delete TABLE_AUTH_ROLES name batch in
          let? batch :=
            strip_role name (snap_range snap TABLE_AUTH_USERS Unbounded Unbounded 0) batch in
          Ok (Ok fx, batch)
      end
  | RoleGrantPermission name perm =>
      let? r := get_role snap name in
      match r with
      | None => Ok (Err role_not_found, batch)
      | Some r =>
          let? batch := put_role (mkRole (role_name r) (permissions r ++ [perm])) batch in
          Ok (Ok fx, batch)
      end
  | RoleRevokePermission name key range_end =>
      let? r := get_role snap name in
      match r with
      | None => Ok (Err role_not_found, batch)
      | Some r =>
          let perms := base.filter (λ p, perm_key p ≠ key ∨ perm_range_end p ≠ range_end)
                         (permissions r) in
          let? batch := put_role (mkRole (role_name r) perms) batch in Ok (Ok fx, batch)
      end
  | Adopt tables =>
      Ok (Ok (mkEffects (Some (tables_enabled tables)) None None
                (Some (omap (λ r, from_utf8 r.1) (at_users tables))) true),
          auth_replace_into tables batch)
  end.
End plan.

(** ** The abstract state *)

Record AuthSpec := mkAuthSpec {
  sp_users : gmap bytes StoredUser;
  sp_roles : gmap bytes StoredRole;
  sp_enabled : bool
}.

Section spec.
Context `{Bincode StoredUser, Bincode StoredRole}.

(** What raw rows mean. *)
Definition decode_rows {A} `{Bincode A} (rows : list (bytes * bytes)) : gmap bytes A :=
  list_to_map (omap (λ r, (λ x, (r.1, x)) <$> deserialize r.2) rows).

(** What each operation does to the users and roles, and when it is
    refused. *)
Definition auth_spec (op : AuthOp) (sp : AuthSpec) : result AuthApplyError AuthSpec :=
  let users := sp_users sp in
  let roles := sp_roles sp in
  let with_users us := mkAuthSpec us roles (sp_enabled sp) in
  let with_roles rs := mkAuthSpec users rs (sp_enabled sp) in
  let user n (k : StoredUser → result AuthApplyError AuthSpec) :=
    match users !! n with Some u => k u | None => Err user_not_found end in
  let role n (k : StoredRole → result AuthApplyError AuthSpec) :=
    match roles !! n with Some r => k r | None => Err role_not_found end in
  match op with
  | Enable =>
      if decide (is_Some (users !! str "root")) then Ok (mkAuthSpec users roles true)
      else Err (FailedPrecondition "etcdserver: root user does not exist")
  | Disable => Ok (mkAuthSpec users roles false)
  | Authenticate n _ hash =>
      user n (λ u, if decide (password_hash u = hash ∧ no_password u = false) then Ok sp
                   else Err (FailedPrecondition "etcdserver: revision of auth store is old"))
  | UserAdd n hash nopw =>
      if decide (is_Some (users !! n))
      then Err (AlreadyExists "etcdserver: user name already exists")
      else Ok (with_users (<[n := mkUser n hash [] nopw]> users))
  | UserDelete n => user n (λ _, Ok (with_users (delete n users)))
  | UserChangePassword n hash =>
      user n (λ u, Ok (with_users (<[n := mkUser n hash (user_roles u) false]> users)))
  | UserGrantRole n r =>
      user n (λ u, role r (λ _, Ok (with_users (<[n := set_roles
        (if decide (r ∈ user_roles u) then user_roles u else user_roles u ++ [r]) u]> users))))
  | UserRevokeRole n r => user n (λ u, Ok (with_users (<[n := retain_roles r u]> users)))
  | RoleAdd n =>
      if decide (is_Some (roles !! n))
      then Err (AlreadyExists "etcdserver: role name already exists")
      else Ok (with_roles (<[n := mkRole n []]> roles))
  | RoleDelete n =>
      role n (λ _, Ok (mkAuthSpec (retain_roles n <$> users) (delete n roles) (sp_enabled sp)))
  | RoleGrantPermission n p =>
      role n (λ r, Ok (with_roles (<[n := mkRole n (permissions r ++ [p])]> roles)))
  | RoleRevokePermission n k e =>
      role n (λ r, Ok (with_roles (<[n := mkRole n
        (base.filter (λ p, perm_key p ≠ k ∨ perm_range_end p ≠ e) (permissions r))]> roles)))
  | Adopt t =>
      Ok (mkAuthSpec (decode_rows (at_users t)) (decode_rows (at_roles t)) (tables_enabled t))
  end.

(** Table [t] holds exactly the named values of [m], under their names. *)
Definition rows_rel {A} `{Bincode A} (t : string) (name : A → bytes) (ts : Tables)
    (m : gmap bytes A) : Prop :=
  ∀ n, match ts !! (t, n) with
       | Some b => ∃ x, deserialize b = Some x ∧ m !! n = Some x ∧ name x = n ∧
                        utf8_valid n = true
       | None => m !! n = None
       end.

Record auth_rel (ts : Tables) (sp : AuthSpec) : Prop := {
  rel_users : rows_rel TABLE_AUTH_USERS user_name ts (sp_users sp);
  rel_roles : rows_rel TABLE_AUTH_ROLES role_name ts (sp_roles sp);
  rel_enabled :
    sp_enabled sp = default false (flag_set <$> ts !! (TABLE_AUTH_STATE, META_AUTH_ENABLED));
  rel_state k : is_Some (ts !! (TABLE_AUTH_STATE, k)) → k = META_AUTH_ENABLED
}.

(** Raw rows in key order, each named value under its name. *)
Definition rows_wf {A} `{Bincode A} (name : A → bytes) (rows : list (bytes * bytes)) : Prop :=
  key_sorted rows ∧
  ∀ k v, (k, v) ∈ rows → ∃ x, deserialize (A := A) v = Some x ∧ name x = k ∧
                               utf8_valid k = true.

(** What the types of an operation promise: names are Rust strings, and
    adopted tables are what [AuthTables::read] gives. *)
Definition op_wf (op : AuthOp) : Prop :=
  match op with
  | UserAdd n _ _ | RoleAdd n => utf8_valid n = true
  | Adopt t =>
      rows_wf user_name (at_users t) ∧ rows_wf role_name (at_roles t) ∧
      key_sorted (at_state t) ∧ ∀ k v, (k, v) ∈ at_state t → k = META_AUTH_ENABLED
  | _ => True
  end.

Context `{!BincodeLaws StoredUser, !BincodeLaws StoredRole}.

Lemma utf8_below_last n : utf8_valid n = true → in_del_range [] LAST_KEY n = true.
Proof.
  intros Hn. unfold in_del_range. apply andb_true_iff. split.
  { apply bytes_leb_le, bytes_le_nil. }
  apply bytes_ltb_lt. destruct n as [|b n]; [done|].
  unfold LAST_KEY, bytes_lt. cbn [replicate bytes_cmp].
  assert (byte_val b < byte_val xff) as Hb.
  { change (byte_val xff) with 255. cbn [utf8_valid] in Hn.
    unfold byte_in in Hn. repeat case_match; lia. }
  apply Z.compare_lt_iff in Hb. by rewrite Hb.
Qed.

Section rows.
Context {A} `{BincodeLaws A} (t : string) (name : A → bytes).

Lemma rows_rel_put ts m n x v :
  rows_rel t name ts m → serialize x = Some v → name x = n → utf8_valid n = true →
  rows_rel t name (apply_op (OpPut t n v) ts) (<[n := x]> m).
Proof.
  intros Hr Hv Hn Hu k. rewrite apply_op_lookup.
  destruct (decide (n = k)) as [->|Hne].
  - rewrite decide_True by done. exists x. rewrite lookup_insert_eq.
    split_and!; [by apply deserialize_serialize|done..].
  - rewrite decide_False by naive_solver. rewrite lookup_insert_ne by done. apply Hr.
Qed.

Lemma rows_rel_delete ts m n :
  rows_rel t name ts m → rows_rel t name (apply_op (OpDelete t n) ts) (delete n m).
Proof.
  intros Hr k. rewrite apply_op_lookup. destruct (decide (n = k)) as [->|Hne].
  - by rewrite decide_True, lookup_delete_eq by done.
  - rewrite decide_False by naive_solver. rewrite lookup_delete_ne by done. apply Hr.
Qed.

Lemma rows_rel_other b ts m :
  (∀ op, op ∈ b → op_table op ≠ t) → rows_rel t name ts m →
  rows_rel t name (apply_batch b ts) m.
Proof. intros Hb Hr k. rewrite apply_batch_other by done. apply Hr. Qed.

Lemma rows_rel_lookup ts m n x :
  rows_rel t name ts m → m !! n = Some x →
  ∃ b, ts !! (t, n) = Some b ∧ deserialize b = Some x ∧ name x = n ∧ utf8_valid n = true.
Proof.
  intros Hr Hm. specialize (Hr n). destruct (ts !! (t, n)) as [b|]; [|congruence].
  destruct Hr as (y & ? & ? & ? & ?). simplify_eq. eauto.
Qed.
End rows.

Lemma get_user_rel ts sp n : auth_rel ts sp → get_user ts n = Ok (sp_users sp !! n).
Proof.
  intros Hr. pose proof (rel_users _ _ Hr n) as Hn. unfold get_user, snap_get.
  destruct (ts !! _) as [b|]; [|by rewrite Hn].
  destruct Hn as (u & Hd & -> & _). by rewrite Hd.
Qed.

Lemma get_role_rel ts sp n : auth_rel ts sp → get_role ts n = Ok (sp_roles sp !! n).
Proof.
  intros Hr. pose proof (rel_roles _ _ Hr n) as Hn. unfold get_role, snap_get.
  destruct (ts !! _) as [b|]; [|by rewrite Hn].
  destruct Hn as (u & Hd & -> & _). by rewrite Hd.
Qed.

Lemma put_user_ok u b :
  ∃ v, serialize u = Some v ∧
       put_user u b = Ok (b ++ [OpPut TABLE_AUTH_USERS (user_name u) v]).
Proof.
  destruct (serialize_ok u) as [v Hv]. exists v. split; [done|].
  unfold put_user, auth_encode. by rewrite Hv.
Qed.

Lemma put_role_ok r b :
  ∃ v, serialize r = Some v ∧
       put_role r b = Ok (b ++ [OpPut TABLE_AUTH_ROLES (role_name r) v]).
Proof.
  destruct (serialize_ok r) as [v Hv]. exists v. split; [done|].
  unfold put_role, auth_encode. by rewrite Hv.
Qed.
End spec.

(** ** [plan] refines the abstract operations *)

Lemma adopt_table (t : string) (rows : list (bytes * bytes)) ts b1 b2 b3 n :
  NoDup rows.*1 →
  (∀ op, op ∈ b1 ∨ op ∈ b2 ∨ op ∈ b3 → op_table op ≠ t) →
  (is_Some (ts !! (t, n)) → in_del_range [] LAST_KEY n = true) →
  apply_batch (b1 ++ [OpDeleteRange t [] LAST_KEY] ++ b2 ++ put_rows t rows ++ b3) ts !! (t, n)
  = (list_to_map rows : gmap bytes bytes) !! n.
Proof.
  intros Hnd Hb Hold. rewrite !apply_batch_app.
  rewrite apply_batch_other by set_solver. rewrite put_rows_lookup by done.
  destruct (list_to_map rows !! n); [done|]. rewrite apply_batch_other by set_solver.
  change (apply_batch [?op] ?x) with (apply_op op x).
  rewrite apply_op_lookup, (apply_batch_other b1) by set_solver.
  destruct (ts !! (t, n)); [|by case_decide]. rewrite decide_True; [done|].
  split; [done|]. by apply Hold.
Qed.

Section refine.
Context `{BincodeLaws StoredUser, BincodeLaws StoredRole}.

(** A batch on the users table alone, and one on the roles table alone. *)
Lemma auth_rel_users b ts sp us :
  auth_rel ts sp → (∀ op, op ∈ b → op_table op = TABLE_AUTH_USERS) →
  rows_rel TABLE_AUTH_USERS user_name (apply_batch b ts) us →
  auth_rel (apply_batch b ts) (mkAuthSpec us (sp_roles sp) (sp_enabled sp)).
Proof.
  intros [Hu Hr He Hs] Hb Hus.
  assert (∀ t, t ≠ TABLE_AUTH_USERS → ∀ op, op ∈ b → op_table op ≠ t) as Hot
    by (intros t Ht op Hop; rewrite (Hb op Hop); done).
  split; cbn; [done|apply rows_rel_other; auto| |].
  - rewrite apply_batch_other by auto. done.
  - intros k. rewrite apply_batch_other by auto. apply Hs.
Qed.

Lemma auth_rel_roles b ts sp rs :
  auth_rel ts sp → (∀ op, op ∈ b → op_table op = TABLE_AUTH_ROLES) →
  rows_rel TABLE_AUTH_ROLES role_name (apply_batch b ts) rs →
  auth_rel (apply_batch b ts) (mkAuthSpec (sp_users sp) rs (sp_enabled sp)).
Proof.
  intros [Hu Hr He Hs] Hb Hus.
  assert (∀ t, t ≠ TABLE_AUTH_ROLES → ∀ op, op ∈ b → op_table op ≠ t) as Hot
    by (intros t Ht op Hop; rewrite (Hb op Hop); done).
  split; cbn; [apply rows_rel_other; auto|done| |].
  - rewrite apply_batch_other by auto. done.
  - intros k. rewrite apply_batch_other by auto. apply Hs.
Qed.

Lemma auth_rel_put_user ts sp u v :
  auth_rel ts sp → serialize u = Some v → utf8_valid (user_name u) = true →
  auth_rel (apply_batch [OpPut TABLE_AUTH_USERS (user_name u) v] ts)
    (mkAuthSpec (<[user_name u := u]> (sp_users sp)) (sp_roles sp) (sp_enabled sp)).
Proof.
  intros Hr Hv Hu. apply auth_rel_users; [done|set_solver|].
  apply rows_rel_put; [apply rel_users| |..]; done.
Qed.

Lemma auth_rel_put_role ts sp r v :
  auth_rel ts sp → serialize r = Some v → utf8_valid (role_name r) = true →
  auth_rel (apply_batch [OpPut TABLE_AUTH_ROLES (role_name r) v] ts)
    (mkAuthSpec (sp_users sp) (<[role_name r := r]> (sp_roles sp)) (sp_enabled sp)).
Proof.
  intros Hr Hv Hu. apply auth_rel_roles; [done|set_solver|].
  apply rows_rel_put; [apply rel_roles| |..]; done.
Qed.

Lemma auth_rel_flag ts sp b :
  auth_rel ts sp →
  auth_rel (apply_batch [OpPut TABLE_AUTH_STATE META_AUTH_ENABLED [b]] ts)
    (mkAuthSpec (sp_users sp) (sp_roles sp) (negb (byte_val b =? 0))).
Proof.
  intros [Hu Hr He Hs]. split; cbn -[apply_batch].
  - apply rows_rel_other; [set_solver|done].
  - apply rows_rel_other; [set_solver|done].
  - change (apply_batch [?op] ?t) with (apply_op op t).
    by rewrite apply_op_lookup, decide_True.
  - intros k. change (apply_batch [?op] ?t) with (apply_op op t).
    rewrite apply_op_lookup. case_decide; [naive_solver|apply Hs].
Qed.

Lemma auth_rel_user ts sp n u :
  auth_rel ts sp → sp_users sp !! n = Some u → user_name u = n ∧ utf8_valid n = true.
Proof.
  intros Hr Hu. destruct (rows_rel_lookup _ _ _ _ _ _ (rel_users _ _ Hr) Hu)
    as (? & _ & _ & ? & ?). done.
Qed.

Lemma auth_rel_role ts sp n r :
  auth_rel ts sp → sp_roles sp !! n = Some r → role_name r = n ∧ utf8_valid n = true.
Proof.
  intros Hr Hu. destruct (rows_rel_lookup _ _ _ _ _ _ (rel_roles _ _ Hr) Hu)
    as (? & _ & _ & ? & ?). done.
Qed.

(** [RoleDelete]'s loop. *)
Lemma retain_roles_same role u :
  length (user_roles (retain_roles role u)) = length (user_roles u) →
  retain_roles role u = u.
Proof.
  destruct u as [n h rs np]. unfold retain_roles, set_roles. cbn. intros Hlen. f_equal.
  induction rs as [|r rs IH]; [done|]. rewrite filter_cons in *. case_decide.
  - cbn in Hlen. f_equal. apply IH. lia.
  - pose proof (length_filter (λ x, x ≠ role) rs). cbn in Hlen. lia.
Qed.

Lemma strip_role_spec role rows batch ts m :
  rows_rel TABLE_AUTH_USERS user_name ts m → NoDup rows.*1 →
  (∀ k v, (k, v) ∈ rows → deserialize v = m !! k) →
  ∃ ops, strip_role role rows batch = Ok (batch ++ ops) ∧
    (∀ op, op ∈ ops → op_table op = TABLE_AUTH_USERS) ∧
    rows_rel TABLE_AUTH_USERS user_name (apply_batch ops ts)
      (foldl (λ m r, alter (retain_roles role) r.1 m) m rows).
Proof.
  revert batch ts m. induction rows as [|[k v] rows IH]; intros batch ts m Hr Hnd Hrows.
  { exists []. rewrite app_nil_r. split_and!; [done|set_solver|done]. }
  cbn [strip_role fmap list_fmap fst] in *. apply NoDup_cons in Hnd as [Hk Hnd].
  assert (deserialize v = m !! k) as Hv by (apply Hrows; by left).
  assert (∀ f k' v', (k', v') ∈ rows → deserialize v' = alter f k m !! k') as Hrest.
  { intros f k' v' Hin. rewrite lookup_alter_ne; [apply Hrows; by right|].
    intros ->. apply Hk. by apply (list_elem_of_fmap_2 fst _ (k', v')). }
  rewrite Hv. destruct (m !! k) as [u|] eqn:Hmk.
  2:{ assert (alter (retain_roles role) k m = m) as Hsame.
      { apply map_eq. intros j. destruct (decide (j = k)) as [->|];
          [by rewrite lookup_alter_eq, Hmk|by rewrite lookup_alter_ne]. }
      cbn. rewrite Hsame. apply IH; try done. rewrite <- Hsame. apply Hrest. }
  case_bool_decide as Hlen.
  { assert (alter (retain_roles role) k m = m) as Hsame.
    { apply map_eq. intros j. destruct (decide (j = k)) as [->|];
        [by rewrite lookup_alter_eq, Hmk; cbn; rewrite retain_roles_same
        |by rewrite lookup_alter_ne]. }
    cbn. rewrite Hsame. apply IH; try done. rewrite <- Hsame. apply Hrest. }
  destruct (put_user_ok (retain_roles role u) batch) as (w & Hw & ->). cbn [res_bind].
  destruct (rows_rel_lookup _ _ _ _ _ _ Hr Hmk) as (_ & _ & _ & Hname & Hutf).
  assert (alter (retain_roles role) k m = <[k := retain_roles role u]> m) as Halt.
  { apply map_eq. intros j. destruct (decide (j = k)) as [->|];
      [by rewrite lookup_alter_eq, lookup_insert_eq, Hmk
      |by rewrite lookup_alter_ne, lookup_insert_ne]. }
  set (op := OpPut TABLE_AUTH_USERS (user_name (retain_roles role u)) w).
  destruct (IH (batch ++ [op]) (apply_op op ts) (alter (retain_roles role) k m))
    as (ops & -> & Htab & Hrel); [|done|apply Hrest|].
  - rewrite Halt. unfold op. cbn [user_name retain_roles set_roles]. rewrite Hname.
    by apply rows_rel_put.
  - exists (op :: ops). rewrite <- app_assoc. split_and!; [done|set_solver|done].
Qed.

Lemma alter_all_lookup (f : StoredUser → StoredUser) (rows : list (bytes * bytes))
    (m : gmap bytes StoredUser) k :
  NoDup rows.*1 →
  foldl (λ m r, alter f r.1 m) m rows !! k =
  if decide (k ∈ rows.*1) then f <$> m !! k else m !! k.
Proof.
  revert m. induction rows as [|[j v] rows IH]; intros m Hnd; [done|].
  cbn [foldl fmap list_fmap fst] in *. apply NoDup_cons in Hnd as [Hj Hnd].
  rewrite IH by done. destruct (decide (j = k)) as [->|Hne].
  - rewrite decide_False, decide_True by set_solver. by rewrite lookup_alter_eq.
  - rewrite lookup_alter_ne by done. repeat case_decide; set_solver.
Qed.

Lemma strip_all ts ts' sp role batch :
  auth_rel ts sp → rows_rel TABLE_AUTH_USERS user_name ts' (sp_users sp) →
  ∃ ops, strip_role role (snap_range ts TABLE_AUTH_USERS Unbounded Unbounded 0) batch
         = Ok (batch ++ ops) ∧
    (∀ op, op ∈ ops → op_table op = TABLE_AUTH_USERS) ∧
    rows_rel TABLE_AUTH_USERS user_name (apply_batch ops ts')
      (retain_roles role <$> sp_users sp).
Proof.
  intros Hr Hr'. set (rows := snap_range ts TABLE_AUTH_USERS Unbounded Unbounded 0).
  assert (NoDup rows.*1) as Hnd by apply key_sorted_NoDup, map_range_sorted.
  destruct (strip_role_spec role rows batch ts' (sp_users sp)) as (ops & Hs & Ht & Hops);
    [done..| |].
  { intros k v [Hkv _]%snap_range_elem. pose proof (rel_users _ _ Hr k) as Hk.
    rewrite Hkv in Hk. destruct Hk as (u & -> & -> & _). done. }
  exists ops. split_and!; [done..|].
  assert (foldl (λ m r, alter (retain_roles role) r.1 m) (sp_users sp) rows
          = retain_roles role <$> sp_users sp) as <-; [|done].
  apply map_eq. intros k. rewrite alter_all_lookup, lookup_fmap by done.
  case_decide as Hin; [done|]. destruct (sp_users sp !! k) as [u|] eqn:Hu; [|done].
  exfalso. apply Hin.
  destruct (rows_rel_lookup _ _ _ _ _ _ (rel_users _ _ Hr) Hu) as (b & Hb & _).
  apply (list_elem_of_fmap_2 fst _ (k, b)), snap_range_elem. done.
Qed.

(** Adopting tables. *)
Lemma decode_rows_lookup {A} `{Bincode A} (rows : list (bytes * bytes)) n :
  NoDup rows.*1 →
  (∀ k v, (k, v) ∈ rows → is_Some (deserialize (A := A) v)) →
  decode_rows (A := A) rows !! n = (list_to_map rows : gmap bytes bytes) !! n ≫= deserialize.
Proof.
  induction rows as [|[k v] rows IH]; intros Hnd Hdec; [done|].
  cbn [fmap list_fmap fst] in Hnd. apply NoDup_cons in Hnd as [Hk Hnd].
  destruct (Hdec k v) as [x Hx]; [by left|]. unfold decode_rows in *.
  cbn. rewrite Hx. cbn. destruct (decide (k = n)) as [->|Hne].
  - by rewrite !lookup_insert_eq.
  - rewrite !lookup_insert_ne by done. apply IH; [done|]. intros; eapply Hdec; by right.
Qed.

Lemma rows_rel_adopt {A} `{BincodeLaws A} t (name : A → bytes) ts m rows b1 b2 b3 :
  rows_rel t name ts m → rows_wf name rows →
  (∀ op, op ∈ b1 ∨ op ∈ b2 ∨ op ∈ b3 → op_table op ≠ t) →
  rows_rel t name
    (apply_batch (b1 ++ [OpDeleteRange t [] LAST_KEY] ++ b2 ++ put_rows t rows ++ b3) ts)
    (decode_rows rows).
Proof.
  intros Hr [Hsort Hrows] Hb n. pose proof (key_sorted_NoDup _ Hsort) as Hnd.
  rewrite adopt_table; [|done..|].
  2:{ intros [v Hv]. specialize (Hr n). rewrite Hv in Hr.
      destruct Hr as (_ & _ & _ & _ & ?). by apply utf8_below_last. }
  rewrite decode_rows_lookup by naive_solver.
  destruct ((list_to_map rows : gmap bytes bytes) !! n) as [v|] eqn:Hn; [|done].
  apply elem_of_list_to_map in Hn; [|done].
  destruct (Hrows n v Hn) as (x & Hx & <- & Hu). exists x. by rewrite Hx.
Qed.

Lemma rows_tables b1 b2 t :
  (∀ op, op ∈ b1 → op_table op ≠ t) → (∀ op, op ∈ b2 → op_table op ≠ t) →
  ∀ op, op ∈ b1 ++ b2 → op_table op ≠ t.
Proof. set_solver. Qed.

Lemma auth_rel_adopt ts sp t :
  auth_rel ts sp → op_wf (Adopt t) →
  auth_rel (apply_batch (auth_replace_into t []) ts)
    (mkAuthSpec (decode_rows (at_users t)) (decode_rows (at_roles t)) (tables_enabled t)).
Proof.
  intros Hr (Hus & Hrs & Hss & Hst). unfold auth_replace_into. cbn [app].
  assert (∀ t rows t', t ≠ t' → ∀ op, op ∈ put_rows t rows → op_table op ≠ t') as Hp
    by (intros ? rows t' ? op Hop; by rewrite (put_rows_table _ _ _ Hop)).
  set (du := OpDeleteRange TABLE_AUTH_USERS [] LAST_KEY).
  set (dr := OpDeleteRange TABLE_AUTH_ROLES [] LAST_KEY).
  set (ds := OpDeleteRange TABLE_AUTH_STATE [] LAST_KEY).
  set (pu := put_rows TABLE_AUTH_USERS _). set (pr := put_rows TABLE_AUTH_ROLES _).
  set (ps := put_rows TABLE_AUTH_STATE _).
  assert (∀ n, apply_batch (du :: dr :: ds :: pu ++ pr ++ ps) ts !! (TABLE_AUTH_STATE, n)
               = (list_to_map (at_state t) : gmap bytes bytes) !! n) as Hstate.
  { intros n. rewrite <- (adopt_table TABLE_AUTH_STATE (at_state t) ts [du; dr] (pu ++ pr) [] n).
    - unfold ps. by rewrite app_nil_r, <- app_assoc.
    - by apply key_sorted_NoDup.
    - intros op [Hop|[Hop|Hop]]; [set_solver| |set_solver].
      revert op Hop. apply rows_tables; by apply Hp.
    - intros Hn. apply (rel_state _ _ Hr) in Hn as ->. reflexivity. }
  split; cbn [sp_users sp_roles sp_enabled].
  - change (du :: dr :: ds :: pu ++ pr ++ ps)
      with ([] ++ [du] ++ [dr; ds] ++ pu ++ (pr ++ ps)).
    apply (rows_rel_adopt _ _ _ (sp_users sp)); [apply Hr|done|].
    intros op [Hop|[Hop|Hop]]; [set_solver..|].
    revert op Hop. apply rows_tables; by apply Hp.
  - replace (du :: dr :: ds :: pu ++ pr ++ ps)
      with ([du] ++ [dr] ++ (ds :: pu) ++ pr ++ ps) by done.
    apply (rows_rel_adopt _ _ _ (sp_roles sp)); [apply Hr|done|].
    intros op [Hop|[Hop|Hop]]; [set_solver| |by apply (Hp TABLE_AUTH_STATE (at_state t))].
    apply elem_of_cons in Hop as [->|Hop]; [done|].
    by apply (Hp TABLE_AUTH_USERS (at_users t)).
  - rewrite Hstate. unfold tables_enabled.
    destruct (at_state t) as [|[k v] rest] eqn:Hrows; [done|].
    assert (k = META_AUTH_ENABLED) as -> by (eapply Hst; by left).
    assert (rest = []) as ->.
    { destruct rest as [|[k' v'] rest']; [done|]. exfalso.
      apply key_sorted_cons in Hss as [Hlt _].
      assert (k' = META_AUTH_ENABLED) as -> by (eapply Hst; right; by left).
      apply (bytes_lt_irrefl META_AUTH_ENABLED).
      apply (Hlt (META_AUTH_ENABLED, v')). by left. }
    cbn. rewrite lookup_insert_eq, bool_decide_true by done. cbn. by rewrite orb_false_r.
  - intros k [v Hv]. rewrite Hstate in Hv.
    apply elem_of_list_to_map in Hv; [by eapply Hst|by apply key_sorted_NoDup].
Qed.

(** What the in-memory effects of an accepted operation must do for the
    memory to follow the tables. *)
Record effects_follow (sp sp' : AuthSpec) (fx : AuthEffects) : Prop := {
  fx_enabled : sp_enabled sp' = default (sp_enabled sp) (fx_set_enabled fx);
  fx_token t u : fx_add_token fx = Some (t, u) → is_Some (sp_users sp' !! u);
  fx_kept u :
    is_Some (sp_users sp !! u) → fx_revoke_user fx ≠ Some u →
    (∀ l, fx_keep_only_users fx = Some l → u ∈ l) → is_Some (sp_users sp' !! u)
}.

(** An accepted operation: the effects and the batch it plans lead to the
    abstract result. *)
Definition accepted (ts : Tables) (sp sp' : AuthSpec)
    (r : StorageResult (result AuthApplyError AuthEffects * WriteBatch)) : Prop :=
  ∃ fx b, r = Ok (Ok fx, b) ∧ auth_rel (apply_batch b ts) sp' ∧ effects_follow sp sp' fx.

Lemma accept_put_user ts sp n u revoked :
  auth_rel ts sp → user_name u = n → utf8_valid n = true →
  accepted ts sp (mkAuthSpec (<[n := u]> (sp_users sp)) (sp_roles sp) (sp_enabled sp))
    (let? batch := put_user u [] in Ok (Ok (mkEffects None None revoked None false), batch)).
Proof.
  intros Hr <- Hu. destruct (put_user_ok u []) as (v & Hv & ->). do 2 eexists.
  split; [done|]. split; [by apply (auth_rel_put_user _ _ _ _ Hr Hv)|].
  split; cbn; [done..|]. intros u' ? _ _. rewrite lookup_insert. by case_decide.
Qed.

Lemma accept_put_role ts sp n r :
  auth_rel ts sp → role_name r = n → utf8_valid n = true →
  accepted ts sp (mkAuthSpec (sp_users sp) (<[n := r]> (sp_roles sp)) (sp_enabled sp))
    (let? batch := put_role r [] in Ok (Ok AuthEffects_default, batch)).
Proof.
  intros Hr <- Hu. destruct (put_role_ok r []) as (v & Hv & ->). do 2 eexists.
  split; [done|]. split; [by apply (auth_rel_put_role _ _ _ _ Hr Hv)|]. by split.
Qed.

Lemma accept_role_delete ts sp n :
  auth_rel ts sp →
  accepted ts sp
    (mkAuthSpec (retain_roles n <$> sp_users sp) (delete n (sp_roles sp)) (sp_enabled sp))
    (let? batch := strip_role n (snap_range ts TABLE_AUTH_USERS Unbounded Unbounded 0)
                     (batch_delete TABLE_AUTH_ROLES n []) in
     Ok (Ok AuthEffects_default, batch)).
Proof.
  intros Hr. unfold batch_delete. cbn [app]. set (d := OpDelete TABLE_AUTH_ROLES n).
  assert (auth_rel (apply_batch [d] ts)
            (mkAuthSpec (sp_users sp) (delete n (sp_roles sp)) (sp_enabled sp))) as Hd.
  { apply auth_rel_roles; [done|set_solver|]. by apply rows_rel_delete, Hr. }
  destruct (strip_all ts (apply_batch [d] ts) sp n [d] Hr (rel_users _ _ Hd))
    as (ops & -> & Htab & Hrows).
  do 2 eexists. split; [done|]. rewrite apply_batch_app.
  split; [by apply (auth_rel_users _ _ _ _ Hd Htab)|].
  split; cbn; [done..|]. intros u' ? _ _. by rewrite lookup_fmap, fmap_is_Some.
Qed.

Lemma accept_adopt ts sp t :
  auth_rel ts sp → op_wf (Adopt t) →
  accepted ts sp
    (mkAuthSpec (decode_rows (at_users t)) (decode_rows (at_roles t)) (tables_enabled t))
    (plan ts (Adopt t) []).
Proof.
  intros Hr Hop. do 2 eexists. split; [done|]. split; [by apply (auth_rel_adopt _ _ _ Hr)|].
  split; cbn -[decode_rows]; [done..|]. intros u _ _ Hin. specialize (Hin _ eq_refl).
  apply list_elem_of_omap in Hin as ([k v] & Hkv & Hu). unfold from_utf8 in Hu.
  cbn in Hu. case_match; [|done]. simplify_eq. destruct Hop as ([Hs Hrows] & _).
  rewrite decode_rows_lookup by (try (by apply key_sorted_NoDup); naive_solver).
  destruct (Hrows u v Hkv) as (x & Hx & _).
  apply elem_of_list_to_map in Hkv as ->; [|by apply key_sorted_NoDup].
  cbn. by rewrite Hx.
Qed.

Lemma accept_flag ts sp b :
  auth_rel ts sp →
  accepted ts sp (mkAuthSpec (sp_users sp) (sp_roles sp) (negb (byte_val b =? 0)))
    (Ok (Ok (mkEffects (Some (negb (byte_val b =? 0))) None None None false),
         batch_put TABLE_AUTH_STATE META_AUTH_ENABLED [b] [])).
Proof.
  intros Hr. do 2 eexists. split; [done|]. split; [by apply auth_rel_flag|].
  by split; naive_solver.
Qed.

Lemma accept_user_delete ts sp n :
  auth_rel ts sp →
  accepted ts sp (mkAuthSpec (delete n (sp_users sp)) (sp_roles sp) (sp_enabled sp))
    (Ok (Ok (mkEffects None None (Some n) None false), batch_delete TABLE_AUTH_USERS n [])).
Proof.
  intros Hr. do 2 eexists. split; [done|]. split.
  - apply auth_rel_users; [done|set_solver|]. by apply rows_rel_delete, Hr.
  - split; cbn; [done..|]. intros u' ? ? _. rewrite lookup_delete_ne; congruence.
Qed.

Lemma plan_refines ts sp op :
  auth_rel ts sp → op_wf op →
  match auth_spec op sp with
  | Err e => plan ts op [] = Ok (Err e, [])
  | Ok sp' => accepted ts sp sp' (plan ts op [])
  end.
Proof.
  intros Hr Hop.
  assert (∀ n u, sp_users sp !! n = Some u → user_name u = n ∧ utf8_valid n = true) as Hun
    by eauto using auth_rel_user.
  assert (∀ n r, sp_roles sp !! n = Some r → role_name r = n ∧ utf8_valid n = true) as Hrn
    by eauto using auth_rel_role.
  destruct op; [..|by apply accept_adopt]; cbn [auth_spec plan];
    rewrite ?(get_user_rel _ _ _ Hr), ?(get_role_rel _ _ _ Hr); cbn [res_bind];
    [| |destruct (sp_users sp !! user) as [u|] eqn:Hu; [destruct (Hun _ _ Hu) as [Hn Hutf]|done]
     |destruct (sp_users sp !! name) as [u|] eqn:Hu
     |destruct (sp_users sp !! name) as [u|] eqn:Hu; [destruct (Hun _ _ Hu) as [Hn Hutf]|done]
     |destruct (sp_users sp !! name) as [u|] eqn:Hu; [destruct (Hun _ _ Hu) as [Hn Hutf]|done]
     |destruct (sp_users sp !! user) as [u|] eqn:Hu; [destruct (Hun _ _ Hu) as [Hn Hutf]|done]
     |destruct (sp_users sp !! name) as [u|] eqn:Hu; [destruct (Hun _ _ Hu) as [Hn Hutf]|done]
     |destruct (sp_roles sp !! name) as [r|] eqn:Hrole
     |destruct (sp_roles sp !! name) as [r|] eqn:Hrole; [destruct (Hrn _ _ Hrole) as [Hn Hutf]|done]..].
  - destruct (sp_users sp !! str "root"); [|done]. rewrite decide_True by done.
    by apply (accept_flag _ _ x01).
  - by apply (accept_flag _ _ x00).
  - destruct (decide _) as [[Hh Hnp]|Hno].
    + rewrite bool_decide_true, Hnp by done. do 2 eexists. split_and!; [done..|].
      split; naive_solver.
    + case_bool_decide; cbn; destruct (no_password u); naive_solver.
  - done.
  - rewrite decide_False by (by intros [? ?]). by apply accept_put_user.
  - by apply accept_user_delete.
  - rewrite Hn. by apply accept_put_user.
  - rewrite ?(get_role_rel _ _ _ Hr). cbn [res_bind].
    destruct (sp_roles sp !! role) as [r|] eqn:Hrole; [|done].
    case_bool_decide; case_decide; try done; [|by apply accept_put_user].
    destruct u. by apply accept_put_user.
  - by apply accept_put_user.
  - done.
  - rewrite decide_False by (by intros [? ?]). by apply accept_put_role.
  - by apply accept_role_delete.
  - rewrite Hn. by apply accept_put_role.
  - rewrite Hn. by apply accept_put_role.
Qed.
End refine.

(** ** The memory follows the tables *)

(** Every token names a user that exists, and the flag is the table's. *)
Record auth_inv `{Bincode StoredUser, Bincode StoredRole} (ts : Tables) (mem : AuthMemory)
    (sp : AuthSpec) : Prop := {
  inv_rel : auth_rel ts sp;
  inv_enabled : am_enabled mem = sp_enabled sp;
  inv_tokens t u used :
    tok_map (am_tokens mem) !! t = Some (u, used) → is_Some (sp_users sp !! u)
}.

Lemma purge_lookup now tk t x :
  tok_map (purge now tk) !! t = Some x → tok_map tk !! t = Some x.
Proof.
  unfold purge. case_match; [done|]. cbn. by intros [? _]%map_lookup_filter_Some.
Qed.

Lemma retain_users_lookup keep mem t u used :
  tok_map (am_tokens (retain_users keep mem)) !! t = Some (u, used) ↔
  tok_map (am_tokens mem) !! t = Some (u, used) ∧ keep u = true.
Proof. cbn. by rewrite map_lookup_filter_Some. Qed.

(** A token left after the effects is new, or an old one that no effect
    dropped. *)
Lemma effects_tokens now fx mem t u used :
  tok_map (am_tokens (effects_apply now fx mem)) !! t = Some (u, used) →
  fx_add_token fx = Some (t, u) ∨
  (∃ used', tok_map (am_tokens mem) !! t = Some (u, used')) ∧
  fx_revoke_user fx ≠ Some u ∧ (∀ l, fx_keep_only_users fx = Some l → u ∈ l).
Proof.
  destruct fx as [en tok rev keep ad]. unfold effects_apply. cbn.
  set (m1 := match en with Some e => set_enabled e mem | None => mem end).
  set (m2 := match rev with Some x => revoke_user_tokens x m1 | None => m1 end).
  set (m3 := match keep with
             | Some k => retain_users (λ x, bool_decide (x ∈ k)) m2 | None => m2 end).
  set (m4 := match tok with Some (a, b) => insert_token now a b m3 | None => m3 end).
  intros H4. assert (tok_map (am_tokens m4) !! t = Some (u, used)) as H4' by by destruct ad.
  clear H4. assert (tok = Some (t, u) ∨ tok_map (am_tokens m3) !! t = Some (u, used)) as [?|H3].
  { unfold m4 in H4'. destruct tok as [[a b]|]; [|by right]. cbn in H4'.
    apply lookup_insert_Some in H4' as [[-> ?]|[_ ?]]; [left; congruence|right].
    by eapply purge_lookup. }
  { by left. }
  right.
  assert (tok_map (am_tokens m2) !! t = Some (u, used) ∧ ∀ l, keep = Some l → u ∈ l)
    as [H2 Hkeep].
  { unfold m3 in H3. destruct keep as [l|]; [|done].
    apply retain_users_lookup in H3 as [? ?%bool_decide_eq_true]. naive_solver. }
  assert (tok_map (am_tokens m1) !! t = Some (u, used) ∧ rev ≠ Some u) as [H1 Hrev].
  { unfold m2 in H2. destruct rev as [x|]; [|done].
    apply retain_users_lookup in H2 as [? Hx]. case_bool_decide; [done|]. naive_solver. }
  split_and!; [|done..]. exists used. unfold m1 in H1. by destruct en.
Qed.

Lemma effects_enabled now fx mem :
  am_enabled (effects_apply now fx mem) = default (am_enabled mem) (fx_set_enabled fx).
Proof. destruct fx as [[]  [[]|] [] [] []]; done. Qed.

Lemma effects_inv `{Bincode StoredUser, Bincode StoredRole} now fx ts ts' mem sp sp' :
  auth_inv ts mem sp → auth_rel ts' sp' → effects_follow sp sp' fx →
  auth_inv ts' (effects_apply now fx mem) sp'.
Proof.
  intros [Hrel Hen Htok] Hrel' [He Ht Hk]. split; [done| |].
  - by rewrite effects_enabled, He, Hen.
  - intros t u used [Hadd|((used' & Hold) & Hrev & Hkeep)]%effects_tokens; [by eapply Ht|].
    eapply Hk; eauto.
Qed.

(** Writes go to the auth tables only. *)
Definition is_auth_table (t : string) : Prop :=
  t = TABLE_AUTH_USERS ∨ t = TABLE_AUTH_ROLES ∨ t = TABLE_AUTH_STATE.

Lemma strip_role_tables `{Bincode StoredUser} role rows batch b :
  strip_role role rows batch = Ok b →
  ∀ o, o ∈ b → o ∈ batch ∨ op_table o = TABLE_AUTH_USERS.
Proof.
  revert batch. induction rows as [|[k v] rows IH]; intros batch; cbn; [naive_solver|].
  destruct (deserialize v); [|by apply IH]. case_match; [by apply IH|].
  unfold put_user, batch_put. destruct (auth_encode _); cbn; [|done].
  intros Hs o Ho. destruct (IH _ Hs o Ho) as [[?|?]%elem_of_app|?]; set_solver.
Qed.

Lemma plan_tables `{Bincode StoredUser, Bincode StoredRole} ts op batch r b :
  plan ts op batch = Ok (r, b) →
  ∀ o, o ∈ b → o ∈ batch ∨ is_auth_table (op_table o).
Proof.
  unfold plan, is_auth_table, put_user, put_role, batch_put, batch_delete, res_bind.
  intros Hp o Ho. destruct op; repeat case_match; simplify_eq; auto;
    try (apply elem_of_app in Ho; set_solver).
  match goal with Hs : strip_role _ _ _ = Ok _ |- _ =>
    apply (strip_role_tables _ _ _ _ Hs) in Ho as [[?|?]%elem_of_app|?] end; set_solver.
Qed.

Lemma plan_refusal `{Bincode StoredUser, Bincode StoredRole} ts op batch e b :
  plan ts op batch = Ok (Err e, b) → b = batch.
Proof.
  unfold plan, put_user, put_role, res_bind. intros Hp.
  destruct op; repeat case_match; simplify_eq; done.
Qed.

(** ** Token expiry

    Purging is an optimisation: the answers are those of a token set that
    is never purged. *)

Inductive TokenOp : Type :=
| TokUse (now : Z) (token : bytes)
| TokInsert (now : Z) (token user : bytes)
| TokRevoke (user : bytes).

Definition token_step (op : TokenOp) (m : AuthMemory) : option bytes * AuthMemory :=
  match op with
  | TokUse now t => user_for_token now t m
  | TokInsert now t u => (None, insert_token now t u m)
  | TokRevoke u => (None, revoke_user_tokens u m)
  end.

Fixpoint token_run (ops : list TokenOp) (m : AuthMemory) : list (option bytes) * AuthMemory :=
  match ops with
  | [] => ([], m)
  | op :: ops' =>
      let '(r, m) := token_step op m in
      let '(rs, m) := token_run ops' m in (r :: rs, m)
  end.

(** The reference: tokens with the time of their last use; a use answers
    and renews exactly when less than [ttl] has passed. *)
Definition ref_step (ttl : Z) (op : TokenOp) (m : gmap bytes (bytes * Z))
    : option bytes * gmap bytes (bytes * Z) :=
  match op with
  | TokUse now t =>
      match m !! t with
      | Some (u, used) => if now - used <? ttl then (Some u, <[t := (u, now)]> m) else (None, m)
      | None => (None, m)
      end
  | TokInsert now t u => (None, <[t := (u, now)]> m)
  | TokRevoke u => (None, base.filter (λ r : bytes * (bytes * Z), r.2.1 ≠ u) m)
  end.

Fixpoint ref_run (ttl : Z) (ops : list TokenOp) (m : gmap bytes (bytes * Z))
    : list (option bytes) :=
  match ops with
  | [] => []
  | op :: ops' => let '(r, m) := ref_step ttl op m in r :: ref_run ttl ops' m
  end.

(** The clock does not run backwards. *)
Fixpoint clock_ok (now : Z) (ops : list TokenOp) : Prop :=
  match ops with
  | [] => True
  | TokUse n _ :: ops' | TokInsert n _ _ :: ops' => now ≤ n ∧ clock_ok n ops'
  | TokRevoke _ :: ops' => clock_ok now ops'
  end.

(** The purged set agrees with the reference but for expired tokens. *)
Definition token_sim (now : Z) (m : AuthMemory) (ref : gmap bytes (bytes * Z)) : Prop :=
  0 < tok_ttl (am_tokens m) ∧ ∀ t,
  match ref !! t with
  | Some (u, used) =>
      used ≤ now ∧
      (tok_map (am_tokens m) !! t = Some (u, used) ∨
       tok_map (am_tokens m) !! t = None ∧ tok_ttl (am_tokens m) ≤ now - used)
  | None => tok_map (am_tokens m) !! t = None
  end.

Lemma token_sim_purge now now' m ref :
  token_sim now m ref → now ≤ now' →
  token_sim now' (set_tokens (purge now' (am_tokens m)) m) ref.
Proof.
  intros [Httl Hs] Hle. split; [cbn; unfold purge; by case_match|].
  assert (tok_ttl (purge now' (am_tokens m)) = tok_ttl (am_tokens m)) as Hp
    by (unfold purge; by case_match).
  intros t. specialize (Hs t). cbn. rewrite Hp.
  destruct (ref !! t) as [[u used]|].
  - destruct Hs as [Hu Hs]. split; [lia|].
    destruct Hs as [Hs|[Hs ?]]; [|right; split; [|lia]].
    + unfold purge. case_match; [by left|]. cbn.
      rewrite map_lookup_filter, Hs. cbn.
      destruct (decide (duration_since now' used < tok_ttl (am_tokens m))) as [|Hx];
        [left; by rewrite option_guard_True|right; rewrite option_guard_False by done].
      unfold duration_since in Hx. split; [done|lia].
    + destruct (tok_map (purge _ _) !! t) eqn:Hx; [|done].
      apply purge_lookup in Hx. congruence.
  - destruct (tok_map (purge _ _) !! t) eqn:Hx; [|done].
    apply purge_lookup in Hx. congruence.
Qed.

Lemma token_sim_insert now m ref t u :
  token_sim now m ref →
  token_sim now
    (set_tokens (set_tok_map (<[t := (u, now)]> (tok_map (am_tokens m))) (am_tokens m)) m)
    (<[t := (u, now)]> ref).
Proof.
  intros [Httl Hs]. split; [done|]. intros t'. specialize (Hs t'). cbn.
  destruct (decide (t = t')) as [->|Hne].
  - rewrite !lookup_insert_eq. split; [lia|by left].
  - by rewrite !lookup_insert_ne.
Qed.

Lemma token_sim_step now m ref op :
  token_sim now m ref → clock_ok now [op] →
  let '(r, m') := token_step op m in
  let '(r', ref') := ref_step (tok_ttl (am_tokens m)) op ref in
  r = r' ∧ tok_ttl (am_tokens m') = tok_ttl (am_tokens m) ∧
  token_sim (match op with TokUse n _ | TokInsert n _ _ => n | TokRevoke _ => now end) m' ref'.
Proof.
  intros Hs Hc.
  assert (∀ n, tok_ttl (purge n (am_tokens m)) = tok_ttl (am_tokens m)) as Hp
    by (intros; unfold purge; by case_match).
  destruct op as [n t|n t u|u]; cbn [token_step ref_step clock_ok] in *.
  - destruct Hc as [Hle _]. pose proof (token_sim_purge _ _ _ _ Hs Hle) as Hs'.
    unfold user_for_token. set (g := purge n (am_tokens m)) in *.
    set (m' := set_tokens g m) in *. pose proof Hs' as [Httl Hall]. specialize (Hall t).
    cbn in Httl, Hall. destruct (ref !! t) as [[u used]|] eqn:Href.
    + destruct Hall as [Hu [Hm|[Hm Hexp]]].
      * rewrite Hm. unfold duration_since.
        destruct (Z.leb_spec (tok_ttl g) (Z.max 0 (n - used))) as [Hx|Hx].
        { fold g in Hp. unfold g in Hx. rewrite Hp in Hx.
          destruct (Z.ltb_spec (n - used) (tok_ttl (am_tokens m))); [lia|].
          split_and!; [done|by apply Hp|]. split; [done|]. intros t'.
          pose proof (proj2 Hs' t') as Ht'. cbn in Ht' |- *.
          destruct (decide (t = t')) as [->|Hne].
          - rewrite Href, lookup_delete_eq. split; [lia|]. right.
            unfold g. rewrite Hp. split; [done|lia].
          - by rewrite lookup_delete_ne. }
        { unfold g in Hx. rewrite Hp in Hx.
          destruct (Z.ltb_spec (n - used) (tok_ttl (am_tokens m))); [|lia].
          split_and!; [done|by apply Hp|]. by apply (token_sim_insert n m'). }
      * rewrite Hm. unfold g in Hexp. rewrite Hp in Hexp.
        destruct (Z.ltb_spec (n - used) (tok_ttl (am_tokens m))); [lia|].
        split_and!; [done|by apply Hp|done].
    + rewrite Hall. split_and!; [done|by apply Hp|done].
  - destruct Hc as [Hle _]. pose proof (token_sim_purge _ _ _ _ Hs Hle) as Hs'.
    split_and!; [done|by apply Hp|]. by apply (token_sim_insert n _ _ t u) in Hs'.
  - split_and!; [done..|]. destruct Hs as [Httl Hall]. split; [done|].
    intros t. specialize (Hall t). cbn. rewrite !map_lookup_filter.
    destruct (ref !! t) as [[u' used]|]; cbn.
    + destruct Hall as [Hu Hall]. destruct (decide (u' = u)) as [->|Hne].
      * rewrite option_guard_False by (cbn; naive_solver).
        destruct Hall as [->|[-> _]]; [|done]. cbn.
        by rewrite option_guard_False; [|rewrite bool_decide_true].
      * rewrite option_guard_True by done. cbn. split; [done|].
        destruct Hall as [->|[-> ?]]; [left|by right]. cbn.
        by rewrite option_guard_True; [|rewrite bool_decide_false].
    + by rewrite Hall.
Qed.

Lemma token_run_ref now m ref ops :
  token_sim now m ref → clock_ok now ops →
  (token_run ops m).1 = ref_run (tok_ttl (am_tokens m)) ops ref.
Proof.
  revert now m ref. induction ops as [|op ops IH]; intros now m ref Hs Hc; [done|].
  assert (clock_ok now [op]) as Hc1 by (destruct op; cbn in *; naive_solver).
  pose proof (token_sim_step now m ref op Hs Hc1) as Hstep. cbn [token_run ref_run].
  destruct (token_step op m) as [r m']. destruct (ref_step _ op ref) as [r' ref'].
  destruct Hstep as (-> & Httl & Hs'). specialize (IH _ _ _ Hs').
  destruct (token_run ops m') as [rs m'']. cbn in *. rewrite IH, Httl; [done|].
  destruct op; naive_solver.
Qed.

(** ** Theorems *)

(**  Applying an auth entry refines the abstract state of users, roles
    and the enabled flag.  Whatever the operation, [plan] either refuses it
    with the abstract refusal and stages nothing, or stages a batch that
    takes the tables to the abstract result; and after the in-memory
    effects the flag is the tables' and every token still names an
    existing user. *)
Theorem auth_op_refines `{BincodeLaws StoredUser, BincodeLaws StoredRole}
    now ts mem sp op :
  auth_inv ts mem sp → op_wf op →
  match auth_spec op sp with
  | Err e => plan ts op [] = Ok (Err e, [])
  | Ok sp' =>
      ∃ fx b, plan ts op [] = Ok (Ok fx, b) ∧
        auth_inv (apply_batch b ts) (effects_apply now fx mem) sp'
  end.
Proof.
  intros Hinv Hop. pose proof (plan_refines ts sp op (inv_rel _ _ _ Hinv) Hop) as Hp.
  destruct (auth_spec op sp) as [sp'|e]; [|done].
  destruct Hp as (fx & b & Hplan & Hrel & Hfx). exists fx, b. split; [done|].
  by apply (effects_inv now fx ts _ mem sp).
Qed.

Lemma auth_inv_empty `{Bincode StoredUser, Bincode StoredRole} now :
  auth_inv ∅ (AuthMemory_default now) (mkAuthSpec ∅ ∅ false).
Proof.
  split; [split| |]; cbn; try done; intros k [v Hv]; by rewrite lookup_empty in Hv.
Qed.

Lemma auth_op_refines_witness :
  let user_codec := countable_codec StoredUser in
  let role_codec := countable_codec StoredRole in
  let op := UserAdd (str "root") (str "hash") false in
  ∃ fx b, plan ∅ op [] = Ok (Ok fx, b) ∧
    auth_inv (apply_batch b ∅) (effects_apply 7 fx (AuthMemory_default 5))
      (mkAuthSpec {[ str "root" := mkUser (str "root") (str "hash") [] false ]} ∅ false).
Proof.
  intros uc rc op.
  pose proof (auth_op_refines (H0 := countable_codec_laws StoredUser)
                (H2 := countable_codec_laws StoredRole)
                7 ∅ (AuthMemory_default 5) (mkAuthSpec ∅ ∅ false) op
                (auth_inv_empty 5) eq_refl) as Hr.
  exact Hr.
Defined.

(**  Token expiry is exact: over every run of token uses, inserts and
    revocations under a clock that does not go back, each use answers
    exactly as an unpurged token set would, a token naming its user until
    [ttl] has passed since its last use on this member. *)
Theorem token_expiry_exact ttl t0 ops :
  0 < ttl → clock_ok t0 ops →
  (token_run ops (set_token_ttl ttl (AuthMemory_default t0))).1 = ref_run ttl ops ∅.
Proof.
  intros Httl Hc. apply (token_run_ref t0); [|done].
  split; [done|]. intros t. by rewrite lookup_empty.
Qed.

Lemma token_expiry_exact_witness :
  (token_run [TokInsert 0 (str "t") (str "ann"); TokUse 90 (str "t"); TokUse 180 (str "t");
              TokUse 300 (str "t")]
     (set_token_ttl 100 (AuthMemory_default 0))).1
  = [None; Some (str "ann"); Some (str "ann"); None].
Proof.
  rewrite (token_expiry_exact 100 0); [reflexivity|lia|cbn; lia].
Defined.

(**  A refused operation stages nothing, whatever the tables hold and
    whatever was staged before. *)
Theorem auth_refusal_stages_nothing `{Bincode StoredUser, Bincode StoredRole}
    ts op batch e b :
  plan ts op batch = Ok (Err e, b) → b = batch.
Proof. apply plan_refusal. Qed.

Lemma auth_refusal_stages_nothing_witness :
  let user_codec := countable_codec StoredUser in
  let role_codec := countable_codec StoredRole in
  plan ∅ Enable [OpDelete "x" []]
  = Ok (Err (FailedPrecondition "etcdserver: root user does not exist"), [OpDelete "x" []]) ∧
  [OpDelete "x" []] = [OpDelete "x" []].
Proof.
  intros uc rc. split; [reflexivity|].
  exact (auth_refusal_stages_nothing ∅ Enable [OpDelete "x" []] _ _ eq_refl).
Defined.
