(* ===== verification/Store.v ===== *)
(** * The MVCC store ([crates/storage/src/mvcc/store.rs]): data and operations

    [Inner] is the store's state: the engine, the write state under its
    lock, the revisions readers see, the resident index and value cache,
    staged raft metadata, lease stamps and the event batches broadcast so
    far.  A method is a [prog] over it; an apply in progress also threads
    its [ApplyContext].  A lock is held for a whole method, so each method
    is one step here.

    Clocks are arguments.  A [HashMap] is iterated in the order of its
    finite map.  [i64] additions wrap.  Engine reads do not fail. *)

From S2P Require Import Prelude Revision Record KvStore Lease Cache Auth.

(** ** Tables and meta keys *)

Definition TABLE_KV : string := "mvcc_kv".
Definition TABLE_IDX : string := "mvcc_idx".
Definition TABLE_META : string := "mvcc_meta".

Definition META_KEY_CURRENT_REV : bytes := str "current_rev".
Definition META_KEY_COMPACT_REV : bytes := str "compact_rev".
Definition META_KEY_NEXT_LEASE_ID : bytes := str "next_lease_id".
Definition META_KEY_RAFT_APPLIED : bytes := str "raft_applied".
Definition META_KEY_RAFT_MEMBERSHIP : bytes := str "raft_membership".
Definition META_KEY_RAFT_BATCH : bytes := str "raft_batch_progress".
Definition META_KEY_BATCHED : bytes := str "batched".
Definition META_KEY_CLUSTER_ID : bytes := str "cluster_id".
Definition META_KEY_FORMAT_VERSION : bytes := str "format_version".
Definition META_KEY_FASTETCD_VERSION : bytes := str "fastetcd_version".
Definition FORMAT_VERSION : Z := 1.

(** ** Requests and results *)

Inductive Mutation :=
| Put (key value : bytes) (lease : Z) (ignore_value ignore_lease prev_kv : bool)
| DeleteRange (key range_end : bytes) (prev_kv : bool).

Record MutationResult := mkMutationResult { mr_n : Z; mr_prev_kvs : list KvRecord }.
Definition MutationResult_default : MutationResult := mkMutationResult 0 [].

Record RangeResult := mkRangeResult {
  rr_kvs : list KvRecord;
  rr_more : bool;
  rr_count : Z
}.

Inductive CompareOp := CmpEqual | CmpNotEqual | CmpGreater | CmpLess.

Inductive CompareTarget :=
| TgVersion (v : Z)
| TgCreateRevision (v : Z)
| TgModRevision (v : Z)
| TgValue (v : bytes)
| TgLease (v : Z).

Record Compare := mkCompare {
  cmp_key : bytes;
  cmp_range_end : bytes;
  cmp_op : CompareOp;
  cmp_target : CompareTarget
}.

Record RangeOp := mkRangeOp {
  ro_key : bytes;
  ro_range_end : bytes;
  ro_limit : nat;
  ro_revision : Z;
  ro_keys_only : bool;
  ro_count_only : bool
}.

(** [TxnOp], with [NestedTxn]'s fields inline. *)
Inductive TxnOp :=
| OpRange (r : RangeOp)
| OpMutation (m : Mutation)
| OpTxn (compares : list Compare) (success failure : list TxnOp).

Inductive TxnOpResult :=
| ResRange (r : RangeResult)
| ResMutation (m : MutationResult)
| ResTxn (succeeded : bool) (op_results : list TxnOpResult).

Record BulkKey := mkBulkKey {
  bk_key : bytes;
  bk_puts : list KvRecord;
  bk_tombstone : option KvRecord
}.

Record LeaseGrantResult := mkGrantResult { lg_id : Z; lg_ttl_secs : Z; lg_revision : Z }.
Record LeaseRevokeResult := mkRevokeResult { lr_revision : Z; lr_deleted_keys : Z }.
Record LeaseTtlResult := mkTtlResult {
  ltr_id : Z;
  ltr_granted_ttl_secs : Z;
  ltr_remaining_ttl_secs : Z;
  ltr_keys : list bytes
}.

Record TxnExec := mkExec { ex_main : Z; ex_sub : Z; ex_produced_any : bool }.

Record TxnResult := mkTxnResult {
  tr_succeeded : bool;
  tr_revision : Z;
  tr_op_results : list TxnOpResult
}.

Record OpCounts := mkOpCounts { oc_put : Z; oc_delete : Z; oc_range : Z; oc_txn : Z }.

(** [event.rs]. *)
Inductive EventKind := EvPut | EvDelete.
Record MvccEvent := mkEvent {
  ev_kind : EventKind;
  ev_kv : KvRecord;
  ev_prev_kv : option KvRecord
}.
Record EventBatch := mkEventBatch { eb_revision : Z; eb_events : list MvccEvent }.

Inductive ApplyItem :=
| ItemMutations (mutations : list Mutation)
| ItemTxn (compares : list Compare) (success failure : list TxnOp).

Inductive ApplyOutcome :=
| OutMutations (revision : Z) (results : list MutationResult)
| OutTxn (result : TxnResult)
| OutRefused (revision : Z) (r : Refusal).

(** ** State *)

Record WriteState := mkWriteState {
  current_rev : Z;
  compact_rev : Z;
  next_lease_id : Z
}.

Record Revs := mkRevs { rv_current : Z; rv_compact : Z }.

Definition ws_revs (self : WriteState) : Revs := mkRevs (current_rev self) (compact_rev self).

Definition set_current_rev (r : Z) (s : WriteState) : WriteState :=
  mkWriteState r (compact_rev s) (next_lease_id s).
Definition set_compact_rev (r : Z) (s : WriteState) : WriteState :=
  mkWriteState (current_rev s) r (next_lease_id s).
Definition set_next_lease_id (n : Z) (s : WriteState) : WriteState :=
  mkWriteState (current_rev s) (compact_rev s) n.

Record ReadView := mkReadView {
  view_revs : Revs;
  engine_commits : Z;
  published : Z
}.

Definition view_store (revs : Revs) (v : ReadView) : ReadView :=
  mkReadView revs (engine_commits v) (published v).
Definition view_publish (revs : Revs) (v : ReadView) : ReadView :=
  mkReadView revs (engine_commits v) (published v + 1).
Definition view_committed (v : ReadView) : ReadView :=
  mkReadView (view_revs v) (engine_commits v + 1) (published v).

Record Inner (E : Type) := mkInner {
  engine : E;
  write_state : WriteState;
  view : ReadView;
  sent : list EventBatch;
  pending_raft_meta : list (bytes * bytes);
  batched : bool;
  cluster_id : Z;
  auth : AuthMemory;
  lease_applied : gmap Z Z;
  ops : OpCounts;
  apply_sync : bool;
  index : ResidentIndex;
  values : ValueCache
}.
Arguments mkInner {E}.
Arguments engine {E}.
Arguments write_state {E}.
Arguments view {E}.
Arguments sent {E}.
Arguments pending_raft_meta {E}.
Arguments batched {E}.
Arguments cluster_id {E}.
Arguments auth {E}.
Arguments lease_applied {E}.
Arguments ops {E}.
Arguments apply_sync {E}.
Arguments index {E}.
Arguments values {E}.

Record ApplyContext := mkCtx {
  batch : WriteBatch;
  idx_cache : gmap bytes KeyIndex;
  latest_record_cache : gmap bytes KvRecord;
  pending_events : list MvccEvent;
  event_marks : list (Z * nat)
}.

Definition ApplyContext_default : ApplyContext := mkCtx WriteBatch_new ∅ ∅ [] [].

(** ** Setters *)

Definition set_engine {E} (x : E) (st : Inner E) : Inner E :=
  mkInner x (write_state st) (view st) (sent st) (pending_raft_meta st) (batched st)
  (cluster_id st) (auth st) (lease_applied st) (ops st) (apply_sync st) (index st) (values st).
Definition set_write_state {E} (x : WriteState) (st : Inner E) : Inner E :=
  mkInner (engine st) x (view st) (sent st) (pending_raft_meta st) (batched st) (cluster_id st)
  (auth st) (lease_applied st) (ops st) (apply_sync st) (index st) (values st).
Definition set_view {E} (x : ReadView) (st : Inner E) : Inner E :=
  mkInner (engine st) (write_state st) x (sent st) (pending_raft_meta st) (batched st)
  (cluster_id st) (auth st) (lease_applied st) (ops st) (apply_sync st) (index st) (values st).
Definition set_sent {E} (x : list EventBatch) (st : Inner E) : Inner E :=
  mkInner (engine st) (write_state st) (view st) x (pending_raft_meta st) (batched st)
  (cluster_id st) (auth st) (lease_applied st) (ops st) (apply_sync st) (index st) (values st).
Definition set_pending_raft_meta {E} (x : list (bytes * bytes)) (st : Inner E) : Inner E :=
  mkInner (engine st) (write_state st) (view st) (sent st) x (batched st) (cluster_id st)
  (auth st) (lease_applied st) (ops st) (apply_sync st) (index st) (values st).
Definition set_batched {E} (x : bool) (st : Inner E) : Inner E :=
  mkInner (engine st) (write_state st) (view st) (sent st) (pending_raft_meta st) x
  (cluster_id st) (auth st) (lease_applied st) (ops st) (apply_sync st) (index st) (values st).
Definition set_cluster_id {E} (x : Z) (st : Inner E) : Inner E :=
  mkInner (engine st) (write_state st) (view st) (sent st) (pending_raft_meta st) (batched st) x
  (auth st) (lease_applied st) (ops st) (apply_sync st) (index st) (values st).
Definition set_auth {E} (x : AuthMemory) (st : Inner E) : Inner E :=
  mkInner (engine st) (write_state st) (view st) (sent st) (pending_raft_meta st) (batched st)
  (cluster_id st) x (lease_applied st) (ops st) (apply_sync st) (index st) (values st).
Definition set_lease_applied {E} (x : gmap Z Z) (st : Inner E) : Inner E :=
  mkInner (engine st) (write_state st) (view st) (sent st) (pending_raft_meta st) (batched st)
  (cluster_id st) (auth st) x (ops st) (apply_sync st) (index st) (values st).
Definition set_ops {E} (x : OpCounts) (st : Inner E) : Inner E :=
  mkInner (engine st) (write_state st) (view st) (sent st) (pending_raft_meta st) (batched st)
  (cluster_id st) (auth st) (lease_applied st) x (apply_sync st) (index st) (values st).
Definition set_apply_sync {E} (x : bool) (st : Inner E) : Inner E :=
  mkInner (engine st) (write_state st) (view st) (sent st) (pending_raft_meta st) (batched st)
  (cluster_id st) (auth st) (lease_applied st) (ops st) x (index st) (values st).
Definition set_index {E} (x : ResidentIndex) (st : Inner E) : Inner E :=
  mkInner (engine st) (write_state st) (view st) (sent st) (pending_raft_meta st) (batched st)
  (cluster_id st) (auth st) (lease_applied st) (ops st) (apply_sync st) x (values st).
Definition set_values {E} (x : ValueCache) (st : Inner E) : Inner E :=
  mkInner (engine st) (write_state st) (view st) (sent st) (pending_raft_meta st) (batched st)
  (cluster_id st) (auth st) (lease_applied st) (ops st) (apply_sync st) (index st) x.

Definition set_batch (x : WriteBatch) (c : ApplyContext) : ApplyContext :=
  mkCtx x (idx_cache c) (latest_record_cache c) (pending_events c) (event_marks c).
Definition set_idx_cache (x : gmap bytes KeyIndex) (c : ApplyContext) : ApplyContext :=
  mkCtx (batch c) x (latest_record_cache c) (pending_events c) (event_marks c).
Definition set_latest_record_cache (x : gmap bytes KvRecord) (c : ApplyContext) : ApplyContext :=
  mkCtx (batch c) (idx_cache c) x (pending_events c) (event_marks c).
Definition set_pending_events (x : list MvccEvent) (c : ApplyContext) : ApplyContext :=
  mkCtx (batch c) (idx_cache c) (latest_record_cache c) x (event_marks c).
Definition set_event_marks (x : list (Z * nat)) (c : ApplyContext) : ApplyContext :=
  mkCtx (batch c) (idx_cache c) (latest_record_cache c) (pending_events c) x.

(** ** Pure helpers *)

Definition current_of (gens : list Generation) : option Revision :=
  match last gens with
  | Some g => if is_open g then last (revs g) else None
  | None => None
  end.

Definition restore_index (idx : KeyIndex) (from_ctx : bool) (c : ApplyContext) : ApplyContext :=
  if from_ctx then set_idx_cache (<[idx_key idx := idx]> (idx_cache c)) c else c.

Definition ignores_prev (m : Mutation) : bool :=
  match m with
  | Put _ _ _ ignore_value ignore_lease _ => ignore_value || ignore_lease
  | DeleteRange _ _ _ => false
  end.

(** [ApplyItem::mutations] and [ApplyItem::txn]. *)
Definition ApplyItem_mutations (mutations : list Mutation) : option ApplyItem :=
  if (length mutations =? 1)%nat || negb (existsb ignores_prev mutations)
  then Some (ItemMutations mutations) else None.

Definition plain_ops (ops : list TxnOp) : bool :=
  forallb (λ op, match op with
                 | OpMutation m => negb (ignores_prev m)
                 | OpRange r => ro_revision r =? 0
                 | OpTxn _ _ _ => false
                 end) ops.

Definition ApplyItem_txn (compares : list Compare) (success failure : list TxnOp)
    : option ApplyItem :=
  if plain_ops success && plain_ops failure
  then Some (ItemTxn compares success failure) else None.

Definition implicit_zero_record (key : bytes) : KvRecord := mkKv key [] 0 0 0 0 false.

Definition eval_compare (rec : KvRecord) (op : CompareOp) (target : CompareTarget) : bool :=
  let ordering :=
    match target with
    | TgVersion v => version rec ?= v
    | TgCreateRevision v => create_revision rec ?= v
    | TgModRevision v => mod_revision rec ?= v
    | TgLease v => rec_lease rec ?= v
    | TgValue v => bytes_cmp (rec_value rec) v
    end in
  match op, ordering with
  | CmpEqual, Eq => true
  | CmpNotEqual, (Lt | Gt) => true
  | CmpGreater, Gt => true
  | CmpLess, Lt => true
  | _, _ => false
  end.

Definition read_u64 (snap : Tables) (key : bytes) : MvccResult (option Z) :=
  match snap_get snap TABLE_META key with
  | Some b => if (length b =? 8)%nat then Ok (Some (be_value b))
              else Err (Internal "meta key is not 8 bytes")
  | None => Ok None
  end.

Definition read_i64 (snap : Tables) (key : bytes) : option Z :=
  match snap_get snap TABLE_META key with
  | Some b => if (length b =? 8)%nat then Some (i64_from_be_bytes b) else None
  | None => None
  end.

Definition write_i64 (key : bytes) (value : Z) (b : WriteBatch) : WriteBatch :=
  batch_put TABLE_META key (i64_to_be_bytes value) b.

Definition check_read_rev (state : Revs) (target_rev : Z) : MvccResult Revision :=
  let? _ :=
    (if 0 <? target_rev then
       if rv_current state <? target_rev
       then Err (FutureRevision target_rev (rv_current state))
       else if target_rev <? rv_compact state
       then Err (Compacted target_rev (rv_compact state))
       else Ok ()
     else Ok ()) in
  let main := if target_rev =? 0 then rv_current state else target_rev in
  Ok (mkRev main i64_max).

Definition index_bounds (key range_end : bytes) : option (Bound * Bound) :=
  if bool_decide (range_end = []) then Some (Included key, Included key)
  else if bool_decide (range_end = [x00]) then Some (Included key, Unbounded)
  else if bytes_leb range_end key then None
  else Some (Included key, Excluded range_end).

Definition range_bounds (key range_end : bytes) : Bound * Bound :=
  if bool_decide (range_end = []) then (Included key, Included key)
  else if bool_decide (range_end = [x00]) then (Included key, Unbounded)
  else (Included key, Excluded range_end).

Definition in_range (probe key range_end : bytes) : bool :=
  if bool_decide (range_end = []) then bool_decide (probe = key)
  else if bool_decide (range_end = [x00]) then bytes_leb key probe
  else bytes_leb key probe && bytes_ltb probe range_end.

Definition trim (rec : KvRecord) (keys_only : bool) : KvRecord :=
  if keys_only
  then mkKv (rec_key rec) [] (create_revision rec) (mod_revision rec) (version rec)
         (rec_lease rec) (deleted rec)
  else rec.

Record RangePlan := mkPlan {
  pl_hits : list (bytes * Revision);
  pl_total : Z;
  pl_more : bool
}.

Definition into_result (self : RangePlan) (kvs : list KvRecord) (count_only : bool)
    : RangeResult :=
  mkRangeResult (if count_only then [] else kvs) (pl_more self) (pl_total self).

(** The index's rows in a key range; an empty range has none. *)
Definition index_rows (i : ResidentIndex) (key range_end : bytes)
    : list (bytes * list Generation) :=
  match index_bounds key range_end with
  | Some (start, stop) => index_range i start stop
  | None => []
  end.

(** A stable sort by key. *)
Definition sort_hits (hits : list (bytes * Revision)) : list (bytes * Revision) :=
  merge_sort key_le hits.

(** [cap]: [None] is [usize::MAX]. *)
Definition below_cap (n : nat) (cap : option nat) : bool :=
  match cap with Some c => (n <? c)%nat | None => true end.

Definition plan_range (i : ResidentIndex) (c : ApplyContext) (key range_end : bytes)
    (read_rev : Revision) (limit : nat) (count_only : bool) : RangePlan :=
  let overlay := negb (bool_decide (idx_cache c = ∅)) in
  let cap := if count_only then Some 0%nat
             else if (0 <? limit)%nat && negb overlay then Some limit else None in
  let '(hits, total) :=
    foldl (λ '(hits, total) '(k, gens),
      let gens := match idx_cache c !! k with Some x => generations x | None => gens end in
      match revision_at gens read_rev with
      | Some rev =>
          (if below_cap (length hits) cap then hits ++ [(k, rev)] else hits, total + 1)
      | None => (hits, total)
      end) ([], 0) (index_rows i key range_end) in
  let '(hits, total) :=
    if overlay then
      let '(hits, total, added) :=
        foldl (λ '(hits, total, added) '(k, idx),
          if negb (in_range k key range_end) || index_contains i k then (hits, total, added)
          else
            match idx_revision_at idx read_rev with
            | Some rev =>
                if count_only then (hits, total + 1, added)
                else (hits ++ [(k, rev)], total + 1, true)
            | None => (hits, total, added)
            end) (hits, total, false) (map_to_list (idx_cache c)) in
      (if added : bool then sort_hits hits else hits, total)
    else (hits, total) in
  let more := negb count_only && (0 <? limit)%nat && (Z.of_nat limit <? total) in
  mkPlan (if (0 <? limit)%nat then take limit hits else hits) total more.

(** Each compare's keys with their live revision. *)
Definition compare_targets_in (i : ResidentIndex) (c : ApplyContext) (compares : list Compare)
    : list (list (bytes * option Revision)) :=
  let current k (resident : option (list Generation)) :=
    match idx_cache c !! k with
    | Some idx => fst <$> Record.current idx
    | None => resident ≫= current_of
    end in
  (λ cmp,
    if bool_decide (cmp_range_end cmp = []) then
      let resident := index_get_generations i (cmp_key cmp) in
      if bool_decide (resident = None) && bool_decide (idx_cache c !! cmp_key cmp = None)
      then [] else [(cmp_key cmp, current (cmp_key cmp) resident)]
    else
      ((λ r, (r.1, current r.1 (Some r.2)))
         <$> index_rows i (cmp_key cmp) (cmp_range_end cmp))
      ++ omap (λ r : bytes * KeyIndex,
           if in_range r.1 (cmp_key cmp) (cmp_range_end cmp) && negb (index_contains i r.1)
           then Some (r.1, fst <$> Record.current r.2) else None) (map_to_list (idx_cache c)))
    <$> compares.

(** ** Methods *)

Section methods.
Context {E : Type} `{KvStore E}.
Context `{Bincode KvRecord, Bincode KeyIndex, Bincode LeaseRecord,
          Bincode StoredUser, Bincode StoredRole}.

Abbreviation M := (prog (Inner E) MvccError).
(** An apply in progress: the store and its context. *)
Abbreviation MX := (prog (Inner E * ApplyContext) MvccError).

Definition snapshot : M Tables := λ st, (Ok (contents (engine st)), st).

Definition engine_commit (b : WriteBatch) (o : WriteOptions) : M () := λ st,
  match commit b o (engine st) with
  | (Ok _, e) => (Ok (), set_engine e st)
  | (Err x, e) => (Err (Storage x), set_engine e st)
  end.

(** Run a method of the store inside an apply; read and change the context. *)
Definition xlift {A} (m : M A) : MX A := λ '(st, c),
  let '(r, st) := m st in (r, (st, c)).
Definition xctx : MX ApplyContext := λ '(st, c), (Ok c, (st, c)).
Definition xmodify (f : ApplyContext → ApplyContext) : MX () := λ '(st, c),
  (Ok (), (st, f c)).

Definition storage {A} (r : StorageResult A) : MvccResult A :=
  match r with Ok a => Ok a | Err e => Err (Storage e) end.

Definition apply_write_options (st : Inner E) : WriteOptions := mkWriteOptions (apply_sync st).

Definition defer_apply_sync : M () := pmodify (set_apply_sync false).

(** [MvccStore::sync]. *)
Definition store_sync : M () := λ st,
  match engine_sync (engine st) with
  | (Ok _, e) => (Ok (), set_engine e st)
  | (Err x, e) => (Err (Storage x), set_engine e st)
  end.

Definition current_revision : M Z := λ st, (Ok (rv_current (view_revs (view st))), st).
Definition compact_revision : M Z := λ st, (Ok (rv_compact (view_revs (view st))), st).

(** *** Raft metadata *)

Definition stage_raft_meta (applied : bytes) (membership : option bytes) : M () :=
  pmodify (λ st,
    let kept := base.filter (λ r : bytes * bytes,
      r.1 ≠ META_KEY_RAFT_APPLIED ∧
      (membership = None ∨ r.1 ≠ META_KEY_RAFT_MEMBERSHIP)) (pending_raft_meta st) in
    set_pending_raft_meta
      (kept ++ [(META_KEY_RAFT_APPLIED, applied)]
            ++ match membership with
               | Some m => [(META_KEY_RAFT_MEMBERSHIP, m)]
               | None => []
               end) st).

Definition stage_batch_progress (progress : bytes) : M () :=
  pmodify (λ st,
    set_pending_raft_meta
      (base.filter (λ r : bytes * bytes, r.1 ≠ META_KEY_RAFT_BATCH) (pending_raft_meta st)
         ++ [(META_KEY_RAFT_BATCH, progress)]) st).

Definition has_batched (st : Inner E) : bool := batched st.

Definition stage_batched_marker : M () :=
  pmodify (λ st,
    if batched st then st
    else set_pending_raft_meta (pending_raft_meta st ++ [(META_KEY_BATCHED, [x01])])
           (set_batched true st)).

(** Drain the staged metadata into a batch; whether anything was added. *)
Definition fold_raft_meta (b : WriteBatch) : M (WriteBatch * bool) := λ st,
  match pending_raft_meta st with
  | [] => (Ok (b, false), st)
  | _ :: _ => (Ok (b ++ put_rows TABLE_META (pending_raft_meta st), true),
               set_pending_raft_meta [] st)
  end.

Definition flush_raft_meta : M () :=
  let* (b, staged) := fold_raft_meta WriteBatch_new in
  if staged : bool then let* st := pget in engine_commit b (apply_write_options st) else pret ().

Definition read_batch_progress : M (option bytes) :=
  let* snap := snapshot in pret (snap_get snap TABLE_META META_KEY_RAFT_BATCH).

Definition read_raft_meta : M (option bytes * option bytes) :=
  let* snap := snapshot in
  pret (snap_get snap TABLE_META META_KEY_RAFT_APPLIED,
        snap_get snap TABLE_META META_KEY_RAFT_MEMBERSHIP).

Definition persist_membership (membership : bytes) : M () :=
  engine_commit (batch_put TABLE_META META_KEY_RAFT_MEMBERSHIP membership WriteBatch_new)
    WriteOptions_default.

Definition get_cluster_id (st : Inner E) : option Z :=
  if cluster_id st =? 0 then None else Some (cluster_id st).

Definition apply_cluster_id (id : Z) : M Z :=
  let* st := pget in
  let current := get_cluster_id st in
  let b := match current with
           | None => batch_put TABLE_META META_KEY_CLUSTER_ID (be_bytes 8 id) WriteBatch_new
           | Some _ => WriteBatch_new
           end in
  let* (b, _) := fold_raft_meta b in
  let* _ := (if batch_is_empty b then pret () else engine_commit b (apply_write_options st)) in
  match current with
  | Some c => pret c
  | None => let* _ := pmodify (set_cluster_id id) in pret id
  end.

Definition read_format_version : M (option Z) :=
  let* snap := snapshot in
  pret match snap_get snap TABLE_META META_KEY_FORMAT_VERSION with
       | Some b => if (length b =? 4)%nat then Some (be_value b) else None
       | None => None
       end.

Definition write_format_version (v : Z) : M () :=
  engine_commit (batch_put TABLE_META META_KEY_FORMAT_VERSION (be_bytes 4 v) WriteBatch_new)
    WriteOptions_default.

Definition write_open_version (v : bytes) : M () :=
  engine_commit (batch_put TABLE_META META_KEY_FASTETCD_VERSION v WriteBatch_new)
    WriteOptions_default.

(** *** Opening and reloading *)

Definition INDEX_LOAD_CHUNK : nat := N.to_nat 10000.

(** Read [mvcc_idx] in chunks: each turn reads rows after the last one, so
    the number of rows is enough fuel. *)
Fixpoint load_chunks (fuel : nat) (snap : Tables) (start : Bound)
    (loaded : list (bytes * list Generation)) : MvccResult (list (bytes * list Generation)) :=
  let chunk := snap_range snap TABLE_IDX start Unbounded INDEX_LOAD_CHUNK in
  let n := length chunk in
  let? rows := res_map (λ r : bytes * bytes,
      let? idx := ok_or (deserialize (A := KeyIndex) r.2) (Internal "deserialize KeyIndex") in
      Ok (r.1, generations idx)) chunk in
  let loaded := loaded ++ rows in
  match last loaded, fuel with
  | Some (k, _), S fuel' =>
      if (n =? INDEX_LOAD_CHUNK)%nat then load_chunks fuel' snap (Excluded k) loaded
      else Ok loaded
  | _, _ => Ok loaded
  end.

Definition load_index : M () :=
  let* snap := snapshot in
  let* loaded := plift (load_chunks (base.size snap) snap Unbounded []) in
  pmodify (λ st,
    set_values (cache_clear (values st))
      (set_index (foldl (λ i r, index_set r.1 r.2 i) (index_clear (index st)) loaded) st)).

Definition reload_auth : M () :=
  let* snap := snapshot in
  let enabled := match snap_get snap TABLE_AUTH_STATE META_AUTH_ENABLED with
                 | Some b => flag_set b
                 | None => false
                 end in
  pmodify (λ st, set_auth (set_enabled enabled (auth st)) st).

Definition reload_locked : M () :=
  let* snap := snapshot in
  let current := default 0 (read_i64 snap META_KEY_CURRENT_REV) in
  let compact := default 0 (read_i64 snap META_KEY_COMPACT_REV) in
  let next_lease := default 0 (read_i64 snap META_KEY_NEXT_LEASE_ID) in
  let marker := bool_decide (is_Some (snap_get snap TABLE_META META_KEY_BATCHED)) in
  let* cid := plift (read_u64 snap META_KEY_CLUSTER_ID) in
  let cid := default 0 cid in
  let* _ := pmodify (λ st, set_batched (batched st || marker) st) in
  let* _ := pmodify (λ st, if cid =? 0 then st else set_cluster_id cid st) in
  let* _ := load_index in
  pmodify (λ st,
    set_view (view_store (mkRevs current compact) (view st))
      (set_write_state (mkWriteState current compact next_lease) st)).

Definition reload_write_state : M () := reload_locked.

Definition install_tables (b : WriteBatch) : M () :=
  let* _ := engine_commit b WriteOptions_default in reload_locked.

Definition install_tables_stream (ops : list (StorageResult BatchOp)) : M () :=
  let* _ := (λ st, match commit_stream ops WriteOptions_default (engine st) with
                   | (Ok _, e) => (Ok (), set_engine e st)
                   | (Err x, e) => (Err (Storage x), set_engine e st)
                   end) in
  reload_locked.

Definition open_with (e : E) (hash : bytes → N) (cfg : CacheConfig) (now : Z)
    : MvccResult (Inner E) :=
  let snap := contents e in
  let current := default 0 (read_i64 snap META_KEY_CURRENT_REV) in
  let compact := default 0 (read_i64 snap META_KEY_COMPACT_REV) in
  let next_lease := default 0 (read_i64 snap META_KEY_NEXT_LEASE_ID) in
  let marker := bool_decide (is_Some (snap_get snap TABLE_META META_KEY_BATCHED)) in
  let? cid := read_u64 snap META_KEY_CLUSTER_ID in
  let? e :=
    (if (current =? 0) && (compact =? 0) && (next_lease =? 0) then
       let b := write_i64 META_KEY_NEXT_LEASE_ID 0
                  (write_i64 META_KEY_COMPACT_REV 0
                     (write_i64 META_KEY_CURRENT_REV 0 WriteBatch_new)) in
       match commit b WriteOptions_default e with
       | (Ok _, e') => Ok e'
       | (Err x, _) => Err (Storage x)
       end
     else Ok e) in
  let st := mkInner e (mkWriteState current compact next_lease)
              (mkReadView (mkRevs current compact) 0 0) [] [] marker (default 0 cid)
              (AuthMemory_default now) ∅ (mkOpCounts 0 0 0 0) true
              ResidentIndex_default (ValueCache_new hash cfg) in
  match (let* _ := reload_auth in load_index) st with
  | (Ok _, st') => Ok st'
  | (Err x, _) => Err x
  end.

Definition apply_auth (now : Z) (op : AuthOp) : M (Z * result AuthApplyError ()) :=
  let* snap := snapshot in
  let* (planned, b) := plift (storage (plan snap op WriteBatch_new)) in
  let* rev := current_revision in
  match planned with
  | Err refused => pret (rev, Err refused)
  | Ok effects =>
      let* (b, staged) := fold_raft_meta b in
      let* st := pget in
      let* _ := (if staged || negb (batch_is_empty b)
                 then engine_commit b (apply_write_options st) else pret ()) in
      let* _ := pmodify (λ st, set_auth (effects_apply now effects (auth st)) st) in
      pret (rev, Ok ())
  end.

(** *** Records *)

Definition read_record (snap : Tables) (key : bytes) (rev : Revision) : MvccResult KvRecord :=
  let? b := ok_or (snap_get snap TABLE_KV (make_kv_key key rev))
              (Internal "missing KvRecord for key") in
  ok_or (deserialize b) (Internal "deserialize KvRecord").

Definition cache_lookup (key : bytes) (rev : Revision) : M (option KvRecord) := λ st,
  let '(r, v) := cache_get key rev (values st) in (Ok r, set_values v st).

Definition cache_fill (key : bytes) (rev : Revision) (rec : KvRecord) (only_if_newer : bool)
    : M () :=
  pmodify (λ st, set_values (cache_insert key rev rec only_if_newer (values st)) st).

Definition latest_record (snap : Tables) (key : bytes) (idx : KeyIndex) : M (option KvRecord) :=
  match Record.current idx with
  | None => pret None
  | Some (rev, _) =>
      let* hit := cache_lookup key rev in
      match hit with
      | Some rec => pret (Some rec)
      | None =>
          match snap_get snap TABLE_KV (make_kv_key key rev) with
          | None => pret None
          | Some b =>
              let* rec := plift (ok_or (deserialize b) (Internal "deserialize KvRecord")) in
              pret (if is_tombstone rec then None else Some rec)
          end
      end
  end.

Definition latest_record_in (snap : Tables) (c : ApplyContext) (key : bytes) (idx : KeyIndex)
    : M (option KvRecord) :=
  match latest_record_cache c !! key with
  | Some r => pret (if is_tombstone r then None else Some r)
  | None => latest_record snap key idx
  end.

Definition record_at (snap : Tables) (c : ApplyContext) (key : bytes) (rev : Revision)
    : M KvRecord :=
  let pending := match latest_record_cache c !! key with
                 | Some rec => if negb (is_tombstone rec) && (mod_revision rec =? main rev)
                               then Some rec else None
                 | None => None
                 end in
  match pending with
  | Some rec => pret rec
  | None =>
      let* hit := cache_lookup key rev in
      match hit with
      | Some rec => pret rec
      | None => plift (read_record snap key rev)
      end
  end.

(** [for (key, rev) in hits], with [out] and [disk_reads]. *)
Fixpoint fetch_loop (snap : Tables) (c : ApplyContext) (hits : list (bytes * Revision))
    (keys_only fill : bool) (out : list KvRecord) (disk_reads : nat)
    : M (list KvRecord * nat) :=
  match hits with
  | [] => pret (out, disk_reads)
  | (key, rev) :: hits' =>
      let pending := match latest_record_cache c !! key with
                     | Some rec => if negb (is_tombstone rec) && (mod_revision rec =? main rev)
                                   then Some rec else None
                     | None => None
                     end in
      match pending with
      | Some rec =>
          fetch_loop snap c hits' keys_only fill (out ++ [trim rec keys_only]) disk_reads
      | None =>
          let* hit := cache_lookup key rev in
          match hit with
          | Some rec =>
              fetch_loop snap c hits' keys_only fill (out ++ [trim rec keys_only]) disk_reads
          | None =>
              let* rec := plift (read_record snap key rev) in
              let* _ := (if fill then cache_fill key rev rec true else pret ()) in
              fetch_loop snap c hits' keys_only fill (out ++ [trim rec keys_only])
                (S disk_reads)
          end
      end
  end.

Definition fetch_records (snap : Tables) (c : ApplyContext) (hits : list (bytes * Revision))
    (keys_only fill : bool) : M (list KvRecord * nat) :=
  fetch_loop snap c hits keys_only fill [] 0.

(** *** Counters *)

Definition count_put : M () := pmodify (λ st, let o := ops st in
  set_ops (mkOpCounts (oc_put o + 1) (oc_delete o) (oc_range o) (oc_txn o)) st).
Definition count_delete : M () := pmodify (λ st, let o := ops st in
  set_ops (mkOpCounts (oc_put o) (oc_delete o + 1) (oc_range o) (oc_txn o)) st).
Definition count_range : M () := pmodify (λ st, let o := ops st in
  set_ops (mkOpCounts (oc_put o) (oc_delete o) (oc_range o + 1) (oc_txn o)) st).
Definition count_txn : M () := pmodify (λ st, let o := ops st in
  set_ops (mkOpCounts (oc_put o) (oc_delete o) (oc_range o) (oc_txn o + 1)) st).

(** *** Applying mutations *)

Definition take_index (key : bytes) : MX (KeyIndex * bool) := λ '(st, c),
  match idx_cache c !! key with
  | Some idx => (Ok (idx, true), (st, set_idx_cache (delete key (idx_cache c)) c))
  | None => (Ok (default (KeyIndex_new key) (index_get (index st) key), false), (st, c))
  end.

(** Run [m]; on an error put the index back first. *)
Definition or_restore {A} (idx : KeyIndex) (from_ctx : bool) (m : MX A) : MX A := λ s,
  match m s with
  | (Ok a, s') => (Ok a, s')
  | (Err e, (st, c)) => (Err e, (st, restore_index idx from_ctx c))
  end.

Definition push_event (e : MvccEvent) (c : ApplyContext) : ApplyContext :=
  set_pending_events (pending_events c ++ [e]) c.

Definition put_record (snap : Tables) (rev : Revision) (key value : bytes) (lease : Z)
    (ignore_value ignore_lease prev_kv : bool) : MX (MutationResult * bool) :=
  let* (idx, from_ctx) := take_index key in
  let* prev :=
    (if is_live idx then
       or_restore idx from_ctx
         (let* c := xctx in xlift (latest_record_in snap c key idx))
     else pret None) in
  if (ignore_value || ignore_lease) && bool_decide (prev = None) then
    let* _ := xmodify (restore_index idx from_ctx) in pfail (Refused KeyNotFound)
  else
    let effective_value := if ignore_value then default [] (rec_value <$> prev) else value in
    let effective_lease := if ignore_lease then default 0 (rec_lease <$> prev) else lease in
    let '(idx, (version, created)) := record_put idx rev in
    let record := mkKv key effective_value (main created) (main rev) version
                    effective_lease false in
    let kv_key := make_kv_key key rev in
    let* record_bytes :=
      or_restore idx from_ctx
        (plift (ok_or (serialize record) (Internal "serialize KvRecord"))) in
    let* _ := xmodify (λ c, set_batch (batch_put TABLE_KV kv_key record_bytes (batch c)) c) in
    let old_lease := default 0 (rec_lease <$> prev) in
    let* _ :=
      (if old_lease =? rec_lease record then pret ()
       else
         let* _ :=
           (if old_lease =? 0 then pret ()
            else xmodify (λ c, set_batch (batch_delete TABLE_LEASE_KEYS
                                            (lease_key_index old_lease key) (batch c)) c)) in
         (if rec_lease record =? 0 then pret ()
          else xmodify (λ c, set_batch (batch_put TABLE_LEASE_KEYS
                               (lease_key_index (rec_lease record) key) [] (batch c)) c))) in
    let* _ := xmodify (λ c, set_idx_cache (<[key := idx]> (idx_cache c)) c) in
    let* _ := xmodify (λ c,
                set_latest_record_cache (<[key := record]> (latest_record_cache c)) c) in
    let* _ := xmodify (push_event (mkEvent EvPut record prev)) in
    pret (mkMutationResult 1 (if prev_kv then option_list prev else []), true).

(** One turn of [DeleteRange]'s loop. *)
Definition delete_key (snap : Tables) (rev : Revision) (live_key : bytes) (prev_kv : bool)
    (result : MutationResult) : MX MutationResult :=
  let* (idx, from_ctx) := take_index live_key in
  let* prev :=
    (if is_live idx then
       or_restore idx from_ctx
         (let* c := xctx in xlift (latest_record_in snap c live_key idx))
     else pret None) in
  let '(idx, closed) := record_delete idx rev in
  if negb closed then
    let* _ := xmodify (restore_index idx from_ctx) in pret result
  else
    let tombstone := mkKv live_key [] 0 (main rev) 0 0 true in
    let kv_key := make_kv_key live_key rev in
    let* b := or_restore idx from_ctx
                (plift (ok_or (serialize tombstone) (Internal "serialize tombstone"))) in
    let* _ := xmodify (λ c, set_batch (batch_put TABLE_KV kv_key b (batch c)) c) in
    let* _ :=
      (match prev with
       | Some p =>
           if rec_lease p =? 0 then pret ()
           else xmodify (λ c, set_batch (batch_delete TABLE_LEASE_KEYS
                                (lease_key_index (rec_lease p) live_key) (batch c)) c)
       | None => pret ()
       end) in
    let* _ := xmodify (λ c, set_idx_cache (<[live_key := idx]> (idx_cache c)) c) in
    let* _ := xmodify (λ c,
                set_latest_record_cache (<[live_key := tombstone]> (latest_record_cache c)) c) in
    let* _ := xmodify (push_event (mkEvent EvDelete tombstone prev)) in
    pret (mkMutationResult (mr_n result + 1)
            (mr_prev_kvs result ++ (if prev_kv then option_list prev else []))).

Fixpoint delete_keys (snap : Tables) (rev : Revision) (live_keys : list bytes) (prev_kv : bool)
    (result : MutationResult) : MX MutationResult :=
  match live_keys with
  | [] => pret result
  | k :: ks =>
      let* result := delete_key snap rev k prev_kv result in
      delete_keys snap rev ks prev_kv result
  end.

(** Live keys in the range as the apply in progress sees them, sorted. *)
Definition live_keys_in_range (i : ResidentIndex) (c : ApplyContext) (key range_end : bytes)
    : list bytes :=
  let keys :=
    omap (λ r : bytes * list Generation,
      let live := match idx_cache c !! r.1 with
                  | Some x => is_live x
                  | None => gens_live r.2
                  end in
      if live then Some r.1 else None) (index_rows i key range_end) in
  let extra :=
    omap (λ r : bytes * KeyIndex,
      if in_range r.1 key range_end && is_live r.2 && negb (bool_decide (r.1 ∈ keys))
      then Some r.1 else None) (map_to_list (idx_cache c)) in
  match extra with
  | [] => keys
  | _ :: _ => merge_sort bytes_le (keys ++ extra)
  end.

Definition apply_one_uncounted (snap : Tables) (rev : Revision) (mutation : Mutation)
    : MX (MutationResult * bool) :=
  match mutation with
  | Put key value lease ignore_value ignore_lease prev_kv =>
      put_record snap rev key value lease ignore_value ignore_lease prev_kv
  | DeleteRange key range_end prev_kv =>
      let* live_keys := (λ '(st, c), (Ok (live_keys_in_range (index st) c key range_end),
                                      (st, c))) in
      let* result := delete_keys snap rev live_keys prev_kv MutationResult_default in
      pret (result, 0 <? mr_n result)
  end.

Definition apply_one (snap : Tables) (rev : Revision) (mutation : Mutation)
    : MX (MutationResult * bool) :=
  let* out := apply_one_uncounted snap rev mutation in
  let* _ := xlift (match mutation with Put _ _ _ _ _ _ => count_put
                                     | DeleteRange _ _ _ => count_delete end) in
  pret out.

Fixpoint apply_loop (snap : Tables) (main sub : Z) (mutations : list Mutation)
    (results : list MutationResult) (produced_any : bool)
    : MX (list MutationResult * bool) :=
  match mutations with
  | [] => pret (results, produced_any)
  | m :: ms =>
      let* (result, produced) := apply_one snap (mkRev main sub) m in
      apply_loop snap main (sub + 1) ms (results ++ [result]) (produced_any || produced)
  end.

(** The new revision, the results, and whether anything changed. *)
Definition apply_inner (snap : Tables) (state : WriteState) (mutations : list Mutation)
    : MX (Z * list MutationResult * bool) :=
  let main := i64_wrap (current_rev state + 1) in
  let* (results, produced) := apply_loop snap main 0 mutations [] false in
  pret (main, results, produced).

(** Each changed key's index, written once. *)
Fixpoint put_indexes (l : list (bytes * KeyIndex)) (b : WriteBatch) : MvccResult WriteBatch :=
  match l with
  | [] => Ok b
  | (key, idx) :: l' =>
      let? v := ok_or (serialize idx) (Internal "serialize KeyIndex") in
      put_indexes l' (batch_put TABLE_IDX key v b)
  end.

(** What RAM learns of a committed context. *)
Definition cache_commit (c : ApplyContext) (v : ValueCache) : ValueCache :=
  foldl (λ v '(key, rec),
    match idx_cache c !! key ≫= Record.current with
    | Some (rev, _) => if is_tombstone rec then cache_remove key v
                       else cache_insert key rev rec false v
    | None => cache_remove key v
    end) v (map_to_list (latest_record_cache c)).

Definition index_commit (c : ApplyContext) (i : ResidentIndex) : ResidentIndex :=
  foldl (λ i '(key, idx), index_set key (generations idx) i) i (map_to_list (idx_cache c)).

(** One event batch per mark. *)
Fixpoint split_events (marks : list (Z * nat)) (start : nat) (events : list MvccEvent)
    : list EventBatch :=
  match marks with
  | [] => []
  | (revision, stop) :: marks' =>
      let n := (stop - start)%nat in
      let rest := split_events marks' stop (drop n events) in
      match take n events with
      | [] => rest
      | b => mkEventBatch revision b :: rest
      end
  end.

Definition event_batches (new_rev : Z) (c : ApplyContext) : list EventBatch :=
  match event_marks c with
  | [] => match pending_events c with [] => [] | evs => [mkEventBatch new_rev evs] end
  | marks => split_events marks 0 (pending_events c)
  end.

Definition commit_ctx (new_rev : Z) (c : ApplyContext) : M () :=
  let* b := plift (put_indexes (map_to_list (idx_cache c)) (batch c)) in
  let b := write_i64 META_KEY_CURRENT_REV new_rev b in
  let* (b, _) := fold_raft_meta b in
  let* st := pget in
  let* _ := engine_commit b (apply_write_options st) in
  let* _ := pmodify (λ st, set_view (view_committed (view st)) st) in
  let* _ := pmodify (λ st, set_values (cache_commit c (values st)) st) in
  let* _ := pmodify (λ st,
    set_view (view_publish (mkRevs new_rev (compact_rev (write_state st))) (view st))
      (set_index (index_commit c (index st)) st)) in
  let* _ := pmodify (λ st, set_write_state (set_current_rev new_rev (write_state st)) st) in
  pmodify (λ st, set_sent (sent st ++ event_batches new_rev c) st).

(** Run an apply from an empty context, and give the context it ends with. *)
Definition with_ctx {A} (m : MX A) : M (A * ApplyContext) := λ st,
  match m (st, ApplyContext_default) with
  | (Ok a, (st, c)) => (Ok (a, c), st)
  | (Err e, (st, _)) => (Err e, st)
  end.

Definition apply (mutations : list Mutation) : M (Z * list MutationResult) :=
  match mutations with
  | [] => let* current := current_revision in pret (current, [])
  | _ :: _ =>
      let* snap := snapshot in
      let* st := pget in
      let* ((revision, results, produced), c) :=
        with_ctx (apply_inner snap (write_state st) mutations) in
      let* _ := (if produced : bool then commit_ctx revision c else pret ()) in
      pret (revision, results)
  end.

(** *** Compares and transactions *)

Fixpoint compare_all (snap : Tables) (c : ApplyContext) (cmp : Compare)
    (keys : list (bytes * option Revision)) : M bool :=
  match keys with
  | [] => pret true
  | (key, rev) :: keys' =>
      let* rec := (match rev with
                   | None => pret (implicit_zero_record key)
                   | Some rev => record_at snap c key rev
                   end) in
      if eval_compare rec (cmp_op cmp) (cmp_target cmp)
      then compare_all snap c cmp keys' else pret false
  end.

Fixpoint evaluate_compares_with (snap : Tables) (c : ApplyContext)
    (targets : list (Compare * list (bytes * option Revision))) : M bool :=
  match targets with
  | [] => pret true
  | (cmp, keys) :: targets' =>
      let* ok :=
        (if bool_decide (cmp_range_end cmp = []) && bool_decide (keys = [])
         then pret (eval_compare (implicit_zero_record (cmp_key cmp)) (cmp_op cmp)
                      (cmp_target cmp))
         else compare_all snap c cmp keys) in
      if ok : bool then evaluate_compares_with snap c targets' else pret false
  end.

Definition evaluate_compares (snap : Tables) (c : ApplyContext) (compares : list Compare)
    : M bool :=
  let* st := pget in
  evaluate_compares_with snap c (zip compares (compare_targets_in (index st) c compares)).

Definition range_inner (snap : Tables) (c : ApplyContext) (state : WriteState) (r : RangeOp)
    : M RangeResult :=
  let* _ := count_range in
  let* read_rev := plift (check_read_rev (ws_revs state) (ro_revision r)) in
  let* st := pget in
  let plan := plan_range (index st) c (ro_key r) (ro_range_end r) read_rev (ro_limit r)
                (ro_count_only r) in
  let* (kvs, _) := fetch_records snap c (pl_hits plan) (ro_keys_only r) false in
  pret (into_result plan kvs (ro_count_only r)).

Fixpoint txn_op (snap : Tables) (state : WriteState) (exec : TxnExec) (op : TxnOp)
    : MX (TxnOpResult * TxnExec) :=
  match op with
  | OpRange r =>
      let read_state := if ex_produced_any exec
                        then set_current_rev (ex_main exec) state else state in
      let* c := xctx in
      let* res := xlift (range_inner snap c read_state r) in
      pret (ResRange res, exec)
  | OpMutation m =>
      let* (res, produced) := apply_one snap (mkRev (ex_main exec) (ex_sub exec)) m in
      pret (ResMutation res,
            mkExec (ex_main exec) (ex_sub exec + 1) (ex_produced_any exec || produced))
  | OpTxn compares success failure =>
      let* succeeded := xlift (evaluate_compares snap ApplyContext_default compares) in
      let branch := if succeeded : bool then success else failure in
      let* (results, exec) :=
        (fix txn_ops (exec : TxnExec) (l : list TxnOp) : MX (list TxnOpResult * TxnExec) :=
           match l with
           | [] => pret ([], exec)
           | op :: l' =>
               let* (res, exec) := txn_op snap state exec op in
               let* (rest, exec) := txn_ops exec l' in
               pret (res :: rest, exec)
           end) exec branch in
      pret (ResTxn succeeded results, exec)
  end.

Fixpoint txn_ops (snap : Tables) (state : WriteState) (exec : TxnExec) (ops : list TxnOp)
    : MX (list TxnOpResult * TxnExec) :=
  match ops with
  | [] => pret ([], exec)
  | op :: ops' =>
      let* (res, exec) := txn_op snap state exec op in
      let* (rest, exec) := txn_ops snap state exec ops' in
      pret (res :: rest, exec)
  end.

Definition txn (compares : list Compare) (success failure : list TxnOp) : M TxnResult :=
  let* snap := snapshot in
  let* succeeded := evaluate_compares snap ApplyContext_default compares in
  let branch := if succeeded : bool then success else failure in
  let* st := pget in
  let state := write_state st in
  let exec := mkExec (i64_wrap (current_rev state + 1)) 0 false in
  let* ((op_results, exec), c) := with_ctx (txn_ops snap state exec branch) in
  let* _ := (if ex_produced_any exec then commit_ctx (ex_main exec) c else pret ()) in
  let* _ := count_txn in
  let* st := pget in
  let revision := if ex_produced_any exec then ex_main exec
                  else current_rev (write_state st) in
  pret (mkTxnResult succeeded revision op_results).

(** [apply_many]'s loop over its items, with [local] the write state as the
    items so far leave it. *)
Definition mark_events (revision : Z) : MX () :=
  xmodify (λ c, set_event_marks (event_marks c ++ [(revision, length (pending_events c))]) c).

Definition many_item (snap : Tables) (local : WriteState) (item : ApplyItem)
    : MX (ApplyOutcome * WriteState) :=
  match item with
  | ItemMutations [] => pret (OutMutations (current_rev local) [], local)
  | ItemMutations mutations => λ s,
      match apply_inner snap local mutations s with
      | (Ok (revision, results, produced), s') =>
          if produced : bool
          then (let* _ := mark_events revision in
                pret (OutMutations revision results, set_current_rev revision local)) s'
          else (Ok (OutMutations revision results, local), s')
      | (Err (Refused refusal), s') =>
          (Ok (OutRefused (current_rev local) refusal, local), s')
      | (Err e, s') => (Err e, s')
      end
  | ItemTxn compares success failure =>
      let* c := xctx in
      let* succeeded := xlift (evaluate_compares snap c compares) in
      let branch := if succeeded : bool then success else failure in
      let exec := mkExec (i64_wrap (current_rev local + 1)) 0 false in
      let* (op_results, exec) := txn_ops snap local exec branch in
      let* _ := xlift count_txn in
      let* local := (if ex_produced_any exec
                     then let* _ := mark_events (ex_main exec) in
                          pret (set_current_rev (ex_main exec) local)
                     else pret local) in
      pret (OutTxn (mkTxnResult succeeded (current_rev local) op_results), local)
  end.

Fixpoint many_loop (snap : Tables) (local : WriteState) (items : list ApplyItem)
    : MX (list ApplyOutcome * WriteState) :=
  match items with
  | [] => pret ([], local)
  | item :: items' =>
      let* (out, local) := many_item snap local item in
      let* (rest, local) := many_loop snap local items' in
      pret (out :: rest, local)
  end.

Definition apply_many (items : list ApplyItem) : M (list ApplyOutcome) :=
  let* snap := snapshot in
  let* st := pget in
  let* ((out, local), c) := with_ctx (many_loop snap (write_state st) items) in
  let* _ := (if current_rev local =? current_rev (write_state st) then pret ()
             else commit_ctx (current_rev local) c) in
  pret out.

(** *** Reads *)

Definition READ_VIEW_TRIES : nat := 8.

(** A snapshot, the revisions and [f] over the index, from one view; the
    write-state lock's when commits keep landing in between. *)
Fixpoint read_view_try {R} (tries : nat) (f : ResidentIndex → Revs → MvccResult R)
    : M (Tables * Revs * R) :=
  match tries with
  | O =>
      let* st := pget in
      let* snap := snapshot in
      let revs := ws_revs (write_state st) in
      let* r := plift (f (index st) revs) in
      pret (snap, revs, r)
  | S tries' =>
      let* st := pget in
      let commits := engine_commits (view st) in
      let* snap := snapshot in
      if published (view st) <=? commits then
        let revs := view_revs (view st) in
        let* r := plift (f (index st) revs) in
        pret (snap, revs, r)
      else read_view_try tries' f
  end.

Definition read_view {R} (f : ResidentIndex → Revs → MvccResult R) : M (Tables * Revs * R) :=
  read_view_try READ_VIEW_TRIES f.

Definition range_with_revision (key range_end : bytes) (limit : nat) (target_rev : Z)
    (keys_only count_only : bool) : M (RangeResult * Z) :=
  let* _ := count_range in
  let c := ApplyContext_default in
  let* (snap, state_copy, plan) :=
    read_view (λ i revs,
      let? read_rev := check_read_rev revs target_rev in
      Ok (plan_range i c key range_end read_rev limit count_only)) in
  let fill := (target_rev =? 0) || (target_rev =? rv_current state_copy) in
  let* (kvs, _) := fetch_records snap c (pl_hits plan) keys_only fill in
  pret (into_result plan kvs count_only, rv_current state_copy).

Definition range (key range_end : bytes) (limit : nat) (target_rev : Z)
    (keys_only count_only : bool) : M RangeResult :=
  let* (result, _) := range_with_revision key range_end limit target_rev keys_only count_only in
  pret result.

Definition txn_would_succeed (compares : list Compare) : M bool :=
  let c := ApplyContext_default in
  let* (snap, _, targets) := read_view (λ i _, Ok (compare_targets_in i c compares)) in
  evaluate_compares_with snap c (zip compares targets).

(** *** Compaction *)

(** The batch and the compacted indexes of [changed]. *)
Fixpoint compact_keys (rev : Revision) (changed : list KeyIndex) (b : WriteBatch)
    : MvccResult (WriteBatch * list KeyIndex) :=
  match changed with
  | [] => Ok (b, [])
  | idx :: changed' =>
      let '(idx, dropped) := idx_compact idx rev in
      let b := b ++ ((λ r, OpDelete TABLE_KV (make_kv_key (idx_key idx) r)) <$> dropped) in
      let? b :=
        (match generations idx with
         | [] => Ok (batch_delete TABLE_IDX (idx_key idx) b)
         | _ :: _ =>
             let? v := ok_or (serialize idx) (Internal "serialize KeyIndex") in
             Ok (batch_put TABLE_IDX (idx_key idx) v b)
         end) in
      let? (b, compacted) := compact_keys rev changed' b in
      Ok (b, idx :: compacted)
  end.

Definition compact (rev : Z) : M Z :=
  if rev <=? 0 then pfail (Refused (InvalidArgument "compact rev must be > 0"))
  else
    let* st := pget in
    let state := write_state st in
    if current_rev state <? rev then pfail (FutureRevision rev (current_rev state))
    else if rev <? compact_rev state then pfail (Compacted rev (compact_rev state))
    else if rev =? compact_rev state then pret rev
    else
      let packed := mkRev rev i64_max in
      let changed := omap (λ r : bytes * list Generation,
                       if compaction_changes r.2 packed then Some (mkIdx r.1 r.2) else None)
                       (index_iter (index st)) in
      let* (b, compacted) := plift (compact_keys packed changed WriteBatch_new) in
      let b := write_i64 META_KEY_COMPACT_REV rev b in
      let* (b, _) := fold_raft_meta b in
      let before := ws_revs state in
      let after := mkRevs (rv_current before) rev in
      let* _ := pmodify (λ st, set_view (view_store after (view st)) st) in
      let* _ := (λ st,
        match engine_commit b (apply_write_options st) st with
        | (Ok _, st) => (Ok (), st)
        | (Err e, st) => (Err e, set_view (view_store before (view st)) st)
        end) in
      let* _ := pmodify (λ st, set_view (view_committed (view st)) st) in
      let* _ := pmodify (λ st,
        set_view (view_publish after (view st))
          (set_index (foldl (λ i idx, index_set (idx_key idx) (generations idx) i)
                        (index st) compacted) st)) in
      let* _ := pmodify (λ st, set_write_state (set_compact_rev rev (write_state st)) st) in
      pret rev.

(** *** Leases *)

Definition stamp_lease_applied (now : Z) (id : Z) : M () :=
  pmodify (λ st, set_lease_applied (<[id := now]> (lease_applied st)) st).

(** [now]: the monotonic clock; [now_unix]: the wall clock. *)
Definition apply_lease_grant (now id ttl now_unix : Z) : M LeaseGrantResult :=
  if ttl <=? 0 then pfail (Refused (InvalidArgument "lease TTL must be positive"))
  else
    let* st := pget in
    let next := next_lease_id (write_state st) in
    let '(final_id, high, b) :=
      if id =? 0 then
        let n := i64_wrap (next + 1) in
        (n, n, write_i64 META_KEY_NEXT_LEASE_ID n WriteBatch_new)
      else if next <? id then (id, id, write_i64 META_KEY_NEXT_LEASE_ID id WriteBatch_new)
      else (id, next, WriteBatch_new) in
    let* _ := pmodify (λ st, set_write_state (set_next_lease_id high (write_state st)) st) in
    let rec := mkLease final_id ttl (saturating_add now_unix ttl) in
    let* v := plift (ok_or (serialize rec) (Internal "serialize LeaseRecord")) in
    let* (b, _) := fold_raft_meta (batch_put TABLE_LEASE (lease_id_key final_id) v b) in
    let* _ := engine_commit b (apply_write_options st) in
    let* _ := stamp_lease_applied now final_id in
    pret (mkGrantResult final_id ttl (current_rev (write_state st))).

Definition read_lease (snap : Tables) (id : Z) : MvccResult (option LeaseRecord) :=
  match snap_get snap TABLE_LEASE (lease_id_key id) with
  | None => Ok None
  | Some b => let? r := ok_or (deserialize b) (Internal "deserialize LeaseRecord") in Ok (Some r)
  end.

Definition apply_lease_keepalive (now id now_unix : Z) : M LeaseTtlResult :=
  let* snap := snapshot in
  let* found := plift (read_lease snap id) in
  match found with
  | None => pfail (Refused LeaseNotFound)
  | Some rec =>
      let rec := mkLease (lease_id rec) (ttl_secs rec)
                   (saturating_add now_unix (ttl_secs rec)) in
      let* v := plift (ok_or (serialize rec) (Internal "serialize LeaseRecord")) in
      let* (b, _) :=
        fold_raft_meta (batch_put TABLE_LEASE (lease_id_key id) v WriteBatch_new) in
      let* st := pget in
      let* _ := engine_commit b (apply_write_options st) in
      let* _ := stamp_lease_applied now id in
      pret (mkTtlResult id (ttl_secs rec) (ttl_secs rec) [])
  end.

(** The rows a lease's scan covers, and the user keys they name. *)
Definition lease_rows (snap : Tables) (id : Z) : list (bytes * bytes) :=
  snap_range snap TABLE_LEASE_KEYS (lease_keys_bounds id).1 (lease_keys_bounds id).2 0.

Definition row_keys (rows : list (bytes * bytes)) : MvccResult (list bytes) :=
  res_map (λ r, let? p := parse_lease_keys_key r.1 in Ok p.2) rows.

Definition lease_ttl (id : Z) (include_keys : bool) (now_unix : Z)
    : M (option LeaseTtlResult) :=
  let* snap := snapshot in
  let* found := plift (read_lease snap id) in
  match found with
  | None => pret None
  | Some rec =>
      let remaining := saturating_sub (deadline_unix_secs rec) now_unix in
      let* keys := (if include_keys then plift (row_keys (lease_rows snap id)) else pret []) in
      pret (Some (mkTtlResult id (ttl_secs rec) remaining keys))
  end.

Definition lease_exists (id : Z) : M bool :=
  let* snap := snapshot in
  pret (bool_decide (is_Some (snap_get snap TABLE_LEASE (lease_id_key id)))).

Definition lease_attached_keys (id : Z) : M (list bytes) :=
  let* snap := snapshot in plift (row_keys (lease_rows snap id)).

Definition all_lease_attached_keys : M (list bytes) :=
  let* snap := snapshot in
  plift (row_keys (snap_range snap TABLE_LEASE_KEYS Unbounded Unbounded 0)).

Definition lease_records : M (list LeaseRecord) :=
  let* snap := snapshot in
  plift (res_map (λ r : bytes * bytes, ok_or (deserialize r.2) (Internal "deserialize LeaseRecord"))
           (snap_range snap TABLE_LEASE Unbounded Unbounded 0)).

Definition lease_list : M (list Z) :=
  let* snap := snapshot in
  pret (omap (λ r : bytes * bytes,
          if (length r.1 =? 8)%nat then Some (i64_from_be_bytes r.1) else None)
          (snap_range snap TABLE_LEASE Unbounded Unbounded 0)).

Definition apply_lease_revoke (id : Z) : M LeaseRevokeResult :=
  let* snap := snapshot in
  let entries := lease_rows snap id in
  let* attached := plift (row_keys entries) in
  let mutations := (λ k, DeleteRange k [] false) <$> attached in
  let* st := pget in
  let state := write_state st in
  let* ((revision, deleted_keys, produced), c) :=
    with_ctx
      (match mutations with
       | [] => pret (current_rev state, 0, false)
       | _ :: _ =>
           let* (rev, results, produced) := apply_inner snap state mutations in
           pret (rev, foldl (λ n r, n + mr_n r) 0 results, produced)
       end) in
  let b := batch_delete TABLE_LEASE (lease_id_key id) (batch c)
             ++ delete_rows TABLE_LEASE_KEYS entries in
  let* _ :=
    (if produced : bool then commit_ctx revision (set_batch b c)
     else
       let* (b, _) := fold_raft_meta b in
       let* st := pget in engine_commit b (apply_write_options st)) in
  let* _ := pmodify (λ st, set_lease_applied (delete id (lease_applied st)) st) in
  pret (mkRevokeResult revision deleted_keys).

(** *** Backfilled events *)

Definition read_index (snap : Tables) (key : bytes) : MvccResult (option KeyIndex) :=
  match snap_get snap TABLE_IDX key with
  | None => Ok None
  | Some b => let? i := ok_or (deserialize b) (Internal "deserialize KeyIndex") in Ok (Some i)
  end.

(** The search of [previous_live_record]: newest generation first, its puts
    newest first, the first one before [before_rev]. *)
Definition previous_put (gens : list Generation) (before_rev : Revision) : option Revision :=
  head (base.filter (λ r, rev_ltb r before_rev = true)
          (reverse gens ≫= λ g, reverse (revs g))).

Definition previous_live_record (snap : Tables) (user_key : bytes) (before_rev : Revision)
    : MvccResult (option KvRecord) :=
  let? found := read_index snap user_key in
  match found ≫= λ idx, previous_put (generations idx) before_rev with
  | None => Ok None
  | Some rev =>
      match snap_get snap TABLE_KV (make_kv_key user_key rev) with
      | None => Ok None
      | Some b =>
          let? rec := ok_or (deserialize b) (Internal "deserialize KvRecord") in
          Ok (if is_tombstone rec then None else Some rec)
      end
  end.

(** The (revision, key) pairs of one index row in the window. *)
Definition window_pairs (start_rev current : Z) (user_key : bytes) (gens : list Generation)
    : list (Revision * bytes) :=
  let inside (r : Revision) := (start_rev <? main r) && (main r <=? current) in
  gens ≫= λ g,
    ((λ r, (r, user_key)) <$> base.filter (λ r, inside r = true) (revs g))
    ++ match tombstone g with
       | Some t => if inside t then [(t, user_key)] else []
       | None => []
       end.

(** [a.0.cmp(&b.0).then_with(|| a.1.cmp(&b.1))]. *)
Definition pair_le (a b : Revision * bytes) : Prop :=
  rev_lt a.1 b.1 ∨ (a.1 = b.1 ∧ bytes_le a.2 b.2).

#[global] Instance pair_le_dec a b : Decision (pair_le a b).
Proof. unfold pair_le. apply _. Defined.

Definition backfill_event (snap : Tables) (p : Revision * bytes) : MvccResult MvccEvent :=
  let '(rev, user_key) := p in
  let? b := ok_or (snap_get snap TABLE_KV (make_kv_key user_key rev))
              (Internal "missing KvRecord for backfill key") in
  let? rec := ok_or (deserialize b) (Internal "deserialize KvRecord") in
  let? prev := previous_live_record snap user_key rev in
  Ok (mkEvent (if is_tombstone rec then EvDelete else EvPut) rec prev).

(** What [range_events_until] does once it has read the revisions. *)
Definition read_events (key range_end : bytes) (start_rev current : Z) : M (list MvccEvent) :=
  let* snap := snapshot in
  let '(start, stop) := range_bounds key range_end in
  let* rows := plift (res_map (λ r : bytes * bytes,
      let? idx := ok_or (deserialize (A := KeyIndex) r.2) (Internal "deserialize KeyIndex") in
      Ok (window_pairs start_rev current r.1 (generations idx)))
      (snap_range snap TABLE_IDX start stop 0)) in
  let pairs := merge_sort pair_le (concat rows) in
  plift (res_map (backfill_event snap) pairs).

Definition range_events_until (key range_end : bytes) (start_rev end_rev : Z)
    : M (list MvccEvent) :=
  let* st := pget in
  let revs := view_revs (view st) in
  let current := Z.min (rv_current revs) end_rev in
  let compact := rv_compact revs in
  if (start_rev <? compact) && (0 <? compact) then pfail (Compacted start_rev compact)
  else if current <? start_rev then pret []
  else read_events key range_end start_rev current.

Definition range_events (key range_end : bytes) (start_rev : Z) : M (list MvccEvent) :=
  range_events_until key range_end start_rev i64_max.

(** *** Bulk loading *)

Fixpoint put_records (key : bytes) (recs : list KvRecord) (b : WriteBatch)
    : MvccResult WriteBatch :=
  match recs with
  | [] => Ok b
  | rec :: recs' =>
      let? v := ok_or (serialize rec) (Internal "serialize KvRecord") in
      put_records key recs'
        (batch_put TABLE_KV (make_kv_key key (mkRev (mod_revision rec) 0)) v b)
  end.

(** The generations one bulk-loaded key gets. *)
Definition bulk_gens (puts : list KvRecord) (tomb : option KvRecord) : list Generation :=
  let revs := (λ rec, mkRev (mod_revision rec) 0) <$> puts in
  match tomb with
  | Some t => let rev := mkRev (mod_revision t) 0 in
              [mkGen (default rev (head revs)) revs (Some rev)]
  | None => match revs with [] => [] | r :: _ => [mkGen r revs None] end
  end.

Definition bulk_key (e : BulkKey) (b : WriteBatch) : MvccResult WriteBatch :=
  let '(mkBulkKey key puts tomb) := e in
  if bool_decide (puts = []) && bool_decide (tomb = None) then Ok b
  else
    let? b := put_records key puts b in
    let b := match tomb, last puts with
             | None, Some rec =>
                 if rec_lease rec =? 0 then b
                 else batch_put TABLE_LEASE_KEYS (lease_key_index (rec_lease rec) key) [] b
             | _, _ => b
             end in
    let? b := (match tomb with
               | Some t => put_records key [t] b
               | None => Ok b
               end) in
    let? v := ok_or (serialize (mkIdx key (bulk_gens puts tomb)))
                (Internal "serialize KeyIndex") in
    Ok (batch_put TABLE_IDX key v b).

Fixpoint bulk_keys (l : list BulkKey) (b : WriteBatch) : MvccResult WriteBatch :=
  match l with
  | [] => Ok b
  | e :: l' => let? b := bulk_key e b in bulk_keys l' b
  end.

Definition bulk_load_records (per_key : list BulkKey) (next_rev : Z) : M () :=
  let* st := pget in
  if negb (current_rev (write_state st) =? 0)
  then pfail (Internal "bulk_load_records requires an empty store")
  else
    let* b := plift (bulk_keys per_key WriteBatch_new) in
    let* _ := engine_commit (write_i64 META_KEY_CURRENT_REV next_rev b)
                WriteOptions_default in
    let* _ := load_index in
    pmodify (λ st,
      set_view (view_store (mkRevs next_rev (compact_rev (write_state st))) (view st))
        (set_write_state (set_current_rev next_rev (write_state st)) st)).
End methods.
