(* ===== verification/StoreCore.v ===== *)
(** * What makes an MVCC state well formed

    The index and the tables, without the machinery around them: [G] gives
    every key's generations, [ts] the table rows.  [core_inv] ties them:
    generations in revision order, one record per event, and one
    [lease_keys] row per live key on a lease.  The lemmas say what a put, a
    delete and a compaction do to it and to what reads see; the store's
    methods reduce to them. *)

From S2P Require Import Prelude Revision Record KvStore Lease Cache Auth Store.

Section core.
Context `{BincodeLaws KvRecord}.

Definition kv_row (ts : Tables) (k : bytes) (rev : Revision) : option KvRecord :=
  ts !! (TABLE_KV, make_kv_key k rev) ≫= deserialize.

(** The live record of a key, and the one a read at revision [t] sees. *)
Definition live_rec (G : bytes → list Generation) (ts : Tables) (k : bytes) : option KvRecord :=
  current_of (G k) ≫= kv_row ts k.
Definition read_rec (G : bytes → list Generation) (ts : Tables) (k : bytes) (t : Z)
    : option KvRecord :=
  revision_at (G k) (mkRev t i64_max) ≫= kv_row ts k.

Definition tomb_rec (k : bytes) (t : Revision) : KvRecord := mkKv k [] 0 (main t) 0 0 true.

(** A stored put of key [k] at [rev], in a generation created at [c]. *)
Definition put_rec_ok (k : bytes) (c rev : Revision) (rec : KvRecord) : Prop :=
  rec_key rec = k ∧ create_revision rec = main c ∧ mod_revision rec = main rev ∧
  1 ≤ version rec ∧ is_i64 (rec_lease rec) ∧ deleted rec = false.

(** A revision the store allocates. *)
Definition rev_pos (r : Revision) : Prop :=
  0 < main r ≤ i64_max ∧ 0 ≤ sub r ≤ i64_max.

Lemma rev_pos_wf r : rev_pos r → rev_wf r.
Proof. unfold rev_pos, rev_wf. ints. Qed.

Record core_inv (G : bytes → list Generation) (ts : Tables) (bound : Revision) : Prop := {
  ci_wf k : gens_wf (G k);
  ci_bound k e : e ∈ history (G k) → rev_lt e.1 bound ∧ rev_pos e.1;
  ci_puts k g r :
    g ∈ G k → r ∈ revs g → ∃ rec, kv_row ts k r = Some rec ∧ put_rec_ok k (created g) r rec;
  ci_tomb k g t : g ∈ G k → tombstone g = Some t → kv_row ts k t = Some (tomb_rec k t);
  ci_lease rk :
    is_Some (ts !! (TABLE_LEASE_KEYS, rk)) ↔
    ∃ k rec, live_rec G ts k = Some rec ∧ rec_lease rec ≠ 0 ∧
             rk = lease_key_index (rec_lease rec) k
}.

Definition upd (G : bytes → list Generation) (k : bytes) (gens : list Generation)
    : bytes → list Generation :=
  λ k', if decide (k = k') then gens else G k'.

Lemma upd_eq G k gens : upd G k gens k = gens.
Proof. unfold upd. by rewrite decide_True. Qed.
Lemma upd_ne G k gens k' : k ≠ k' → upd G k gens k' = G k'.
Proof. intros. unfold upd. by rewrite decide_False. Qed.

(** ** Events and generations *)

Lemma elem_of_snoc {A} (l : list A) x : x ∈ l ++ [x].
Proof. apply elem_of_app. right. by apply list_elem_of_singleton. Qed.

Lemma elem_of_gen_events g r d :
  (r, d) ∈ gen_events g ↔ (d = false ∧ r ∈ revs g) ∨ (d = true ∧ tombstone g = Some r).
Proof.
  unfold gen_events. rewrite elem_of_app, list_elem_of_fmap.
  destruct (tombstone g) as [t|].
  - rewrite list_elem_of_singleton. naive_solver.
  - rewrite elem_of_nil. naive_solver.
Qed.

Lemma elem_of_snoc_iff {A} (l : list A) x y : x ∈ l ++ [y] ↔ x ∈ l ∨ x = y.
Proof. by rewrite elem_of_app, list_elem_of_singleton. Qed.

Lemma history_put gens g r : g ∈ gens → r ∈ revs g → (r, false) ∈ history gens.
Proof. intros Hg Hr. apply history_elem. exists g. split; [done|]. apply elem_of_gen_events. auto. Qed.

Lemma history_tomb gens g t : g ∈ gens → tombstone g = Some t → (t, true) ∈ history gens.
Proof. intros Hg Hr. apply history_elem. exists g. split; [done|]. apply elem_of_gen_events. auto. Qed.

(** The live revision is the last event, a put of the last generation. *)
Lemma current_of_Some gens r :
  current_of gens = Some r →
  ∃ gs g rs, gens = gs ++ [g] ∧ is_open g = true ∧ revs g = rs ++ [r] ∧
             history gens = history gs ++ ((λ r, (r, false)) <$> rs) ++ [(r, false)].
Proof.
  unfold current_of. destruct gens as [|g gs _] using rev_ind; [done|].
  rewrite last_snoc. destruct (is_open g) eqn:Ho; [|done]. intros [rs Hrs]%last_Some.
  exists gs, g, rs. split_and!; [done..|]. rewrite history_snoc. unfold gen_events.
  rewrite Hrs, fmap_app. unfold is_open in Ho. destruct (tombstone g); [done|].
  cbn. by rewrite app_nil_r.
Qed.

Lemma current_of_live gens : gens_wf gens → gens_live gens = true → is_Some (current_of gens).
Proof.
  intros Hwf (gs & g & -> & Ho)%gens_live_inv. unfold current_of. rewrite last_snoc, Ho.
  apply gens_wf_snoc in Hwf as (_ & (Hne & _) & _). unfold gen_events, is_open in *.
  destruct (tombstone g); [done|]. rewrite app_nil_r in Hne.
  destruct (revs g) as [|r rs _] using rev_ind; [done|]. rewrite last_snoc. eauto.
Qed.

Lemma current_of_not_live gens : gens_live gens = false → current_of gens = None.
Proof.
  unfold gens_live, current_of. destruct (last gens); [|done]. by intros ->.
Qed.

Lemma current_current_of idx : fst <$> current idx = current_of (generations idx).
Proof.
  unfold current, current_of. destruct (last _) as [g|]; [|done].
  destruct (is_open g); [|done]. by destruct (last (revs g)).
Qed.

Lemma current_of_elem gens r : current_of gens = Some r → (r, false) ∈ history gens.
Proof. intros (gs & g & rs & _ & _ & _ & ->)%current_of_Some. set_solver. Qed.

(** A read at or above every event sees the live revision. *)
Lemma revision_at_current gens t :
  gens_wf gens → (∀ e, e ∈ history gens → rev_le e.1 t) →
  revision_at gens t = current_of gens.
Proof.
  intros Hwf Hle. rewrite revision_at_hist by apply Hwf.
  destruct gens as [|g gs _] using rev_ind; [done|].
  rewrite history_snoc. unfold current_of. rewrite last_snoc.
  apply gens_wf_snoc in Hwf as (_ & (Hne & _) & _). unfold is_open, gen_events in *.
  destruct (tombstone g) as [t'|] eqn:Ht.
  - rewrite app_assoc. rewrite hist_at_snoc_above; [done|].
    apply (Hle (t', true)), (history_tomb _ g); [apply elem_of_snoc|done].
  - rewrite app_nil_r in *. destruct (revs g) as [|r rs _] eqn:Hrs using rev_ind; [done|].
    rewrite last_snoc, fmap_app. cbn. rewrite app_assoc, hist_at_snoc_above; [done|].
    apply (Hle (r, false)), (history_put _ g); [apply elem_of_snoc|].
    rewrite Hrs. apply elem_of_snoc.
Qed.

(** ** What the index operations do to the generations *)

Lemma alter_last_live {A} (f : A → A) gs g : alter_last f (gs ++ [g]) = gs ++ [f g].
Proof. apply alter_last_snoc. Qed.

Lemma record_put_gens k gens rev idx' v c :
  record_put (mkIdx k gens) rev = (idx', (v, c)) →
  1 ≤ v ∧ idx_key idx' = k ∧ generations idx' ≠ [] ∧
  (∀ g r, g ∈ generations idx' → r ∈ revs g →
     r = rev ∧ created g = c ∨ ∃ g0, g0 ∈ gens ∧ created g0 = created g ∧ r ∈ revs g0) ∧
  (∀ g t, g ∈ generations idx' → tombstone g = Some t →
     ∃ g0, g0 ∈ gens ∧ tombstone g0 = Some t).
Proof.
  unfold record_put. cbn [generations idx_key]. rewrite needs_new_live.
  destruct (gens_live gens) eqn:Hl; cbn [negb].
  - destruct (gens_live_inv _ Hl) as (gs & g0 & -> & Ho).
    rewrite alter_last_snoc, last_snoc. intros [= <- <- <-]. cbn.
    split_and!; [rewrite length_app; cbn; lia|done|by destruct gs|..].
    + intros g r [Hg| ->]%elem_of_snoc_iff; cbn.
      * right. exists g. split_and!; [by apply elem_of_app; left|done..].
      * intros [Hr| ->]%elem_of_snoc_iff; [right|by left].
        exists g0. split_and!; [apply elem_of_snoc|done..].
    + intros g t [Hg| ->]%elem_of_snoc_iff; cbn.
      * exists g. split; [by apply elem_of_app; left|done].
      * unfold is_open in Ho. by destruct (tombstone g0).
  - intros [= <- <- <-]. cbn. split_and!; [lia|done|by destruct gens|..].
    + intros g r [Hg| ->]%elem_of_snoc_iff; cbn.
      * right. by exists g.
      * intros ->%list_elem_of_singleton. by left.
    + intros g t [Hg| ->]%elem_of_snoc_iff; [by exists g|done].
Qed.

Lemma record_delete_gens k gens rev idx' :
  record_delete (mkIdx k gens) rev = (idx', true) →
  idx_key idx' = k ∧ generations idx' ≠ [] ∧
  (∀ g r, g ∈ generations idx' → r ∈ revs g →
     ∃ g0, g0 ∈ gens ∧ created g0 = created g ∧ r ∈ revs g0) ∧
  (∀ g t, g ∈ generations idx' → tombstone g = Some t →
     t = rev ∨ ∃ g0, g0 ∈ gens ∧ tombstone g0 = Some t).
Proof.
  unfold record_delete. cbn [generations idx_key].
  destruct gens as [|g0 gs _] using rev_ind; [done|]. rewrite last_snoc.
  destruct (is_open g0); [|done]. rewrite alter_last_snoc. intros [= <-]. cbn.
  split_and!; [done|by destruct gs|..].
  - intros g r [Hg| ->]%elem_of_snoc_iff Hr.
    + exists g. split_and!; [by apply elem_of_app; left|done..].
    + exists g0. split_and!; [apply elem_of_snoc|done..].
  - intros g t [Hg| ->]%elem_of_snoc_iff.
    + intros Ht. right. exists g. split; [by apply elem_of_app; left|done].
    + cbn. intros [= ->]. by left.
Qed.

(** ** Rows *)

Lemma kv_row_put ts k rev rec b k' r :
  rev_wf rev → rev_wf r → serialize rec = Some b →
  kv_row (apply_op (OpPut TABLE_KV (make_kv_key k rev) b) ts) k' r =
  if decide (k = k' ∧ rev = r) then Some rec else kv_row ts k' r.
Proof.
  intros Hrev Hr Hb. unfold kv_row. rewrite apply_op_lookup.
  destruct (decide (k = k' ∧ rev = r)) as [[-> ->]|Hne].
  - rewrite decide_True by done. cbn. by apply deserialize_serialize.
  - rewrite decide_False; [done|]. intros [_ [??]%make_kv_key_inj]; naive_solver.
Qed.

Lemma kv_row_other b ts k r :
  (∀ op, op ∈ b → op_table op ≠ TABLE_KV) → kv_row (apply_batch b ts) k r = kv_row ts k r.
Proof. intros Hb. unfold kv_row. by rewrite apply_batch_other. Qed.

(** The [lease_keys] writes of a key moving from lease [old] to [new]. *)
Definition lease_ops (old new : Z) (k : bytes) : WriteBatch :=
  if old =? new then []
  else (if old =? 0 then [] else [OpDelete TABLE_LEASE_KEYS (lease_key_index old k)])
       ++ (if new =? 0 then [] else [OpPut TABLE_LEASE_KEYS (lease_key_index new k) []]).

Lemma lease_ops_table old new k op : op ∈ lease_ops old new k → op_table op = TABLE_LEASE_KEYS.
Proof.
  unfold lease_ops. repeat case_match; cbn; try rewrite elem_of_nil; set_solver.
Qed.

Lemma lease_ops_rows old new k ts rk :
  is_i64 old → is_i64 new →
  (old ≠ 0 → is_Some (ts !! (TABLE_LEASE_KEYS, lease_key_index old k))) →
  is_Some (apply_batch (lease_ops old new k) ts !! (TABLE_LEASE_KEYS, rk)) ↔
  (new ≠ 0 ∧ rk = lease_key_index new k) ∨
  (is_Some (ts !! (TABLE_LEASE_KEYS, rk)) ∧ ¬ (old ≠ 0 ∧ rk = lease_key_index old k)).
Proof.
  intros Hold Hnew Hrow. unfold lease_ops.
  destruct (Z.eqb_spec old new) as [->|Hne].
  { cbn. destruct (decide (new ≠ 0 ∧ rk = lease_key_index new k)) as [[? ->]|]; naive_solver. }
  destruct (Z.eqb_spec old 0) as [->|Hz0], (Z.eqb_spec new 0) as [->|Hz1]; cbn [app];
    rewrite ?apply_batch_app;
    repeat change (apply_batch (?op :: ?b) ?t) with (apply_batch b (apply_op op t));
    change (apply_batch [] ?t) with t; rewrite ?apply_op_lookup.
  - naive_solver.
  - case_decide as Hd; naive_solver.
  - case_decide as Hd; [|naive_solver].
    destruct Hd as [_ <-]. split; [by intros []|]. naive_solver.
  - case_decide as Hd; [naive_solver|]. case_decide as Hd'; [|naive_solver].
    destruct Hd' as [_ <-]. split; [by intros []|].
    intros [[_ Heq]|[_ Hn]]; exfalso; [by apply Hd|by apply Hn].
Qed.

(** ** One more event *)

Definition rev_next (r : Revision) : Revision := mkRev (main r) (sub r + 1).

Lemma rev_lt_next r : rev_lt r (rev_next r).
Proof. unfold rev_lt, rev_next. cbn. lia. Qed.

Lemma live_rec_inv G ts bound k rec :
  core_inv G ts bound → live_rec G ts k = Some rec →
  ∃ r g, current_of (G k) = Some r ∧ g ∈ G k ∧ r ∈ revs g ∧ kv_row ts k r = Some rec ∧
         put_rec_ok k (created g) r rec.
Proof.
  intros Hc Hl. unfold live_rec in Hl.
  destruct (current_of (G k)) as [r|] eqn:Hr; [|done]. cbn in Hl.
  pose proof Hr as (gs & g & rs & HG & _ & Hrs & _)%current_of_Some.
  exists r, g. rewrite HG. assert (g ∈ gs ++ [g]) as Hg by apply elem_of_snoc.
  assert (r ∈ revs g) as Hin by (rewrite Hrs; apply elem_of_snoc).
  split_and!; try done. destruct (ci_puts _ _ _ Hc k g r) as (rec' & Hrow & Hok);
    [by rewrite HG|done|]. congruence.
Qed.

Lemma revision_at_elem gens t r :
  gens_wf gens → revision_at gens t = Some r → (r, false) ∈ history gens.
Proof. intros Hwf. rewrite revision_at_iff by done. naive_solver. Qed.

Lemma core_bound_wf G ts bound k e : core_inv G ts bound → e ∈ history (G k) → rev_wf e.1.
Proof. intros Hc He. by eapply rev_pos_wf, (ci_bound _ _ _ Hc k). Qed.

Section event.
Context (G : bytes → list Generation) (ts : Tables) (bound : Revision).
Context (k : bytes) (rev : Revision) (d : bool) (gens' : list Generation).
Context (rec : KvRecord) (b : bytes) (old new : Z).
Context (bound' : Revision) (Hlt : rev_lt rev bound') (Hle : rev_le bound bound').
Context (Hc : core_inv G ts bound) (Hpos : rev_pos rev).
Context (Hfresh : ∀ e, e ∈ history (G k) → rev_lt e.1 rev).
Context (Hb : serialize rec = Some b).
Context (Hwf : gens_wf gens') (Hhist : history gens' = history (G k) ++ [(rev, d)]).
Context (Hputs : ∀ g r, g ∈ gens' → r ∈ revs g →
  r = rev ∧ put_rec_ok k (created g) rev rec ∨
  ∃ g0, g0 ∈ G k ∧ created g0 = created g ∧ r ∈ revs g0).
Context (Htomb : ∀ g t, g ∈ gens' → tombstone g = Some t →
  t = rev ∧ rec = tomb_rec k rev ∨ ∃ g0, g0 ∈ G k ∧ tombstone g0 = Some t).
Context (Hcur : current_of gens' = if d then None else Some rev).
Context (Hold : old = default 0 (rec_lease <$> live_rec G ts k)).
Context (Hnew : new = if d then 0 else rec_lease rec) (Hi64 : is_i64 new).

Let G' := upd G k gens'.
Let ts' := apply_batch (OpPut TABLE_KV (make_kv_key k rev) b :: lease_ops old new k) ts.

Lemma event_row k' r :
  rev_wf r → kv_row ts' k' r = if decide (k = k' ∧ rev = r) then Some rec else kv_row ts k' r.
Proof.
  intros Hr. unfold ts'.
  change (apply_batch (?op :: ?l) ts) with (apply_batch l (apply_op op ts)).
  rewrite kv_row_other by (intros op Hop; by rewrite (lease_ops_table _ _ _ _ Hop)).
  apply kv_row_put; [by apply rev_pos_wf|done..].
Qed.

Lemma event_old_row k' r x : (r, x) ∈ history (G k') → kv_row ts' k' r = kv_row ts k' r.
Proof.
  intros He. rewrite event_row by by eapply (core_bound_wf _ _ _ k' (r, x)).
  rewrite decide_False; [done|]. intros [<- Heq]. apply Hfresh in He. cbn in He.
  rewrite <- Heq in He. by apply (irreflexivity rev_lt) in He.
Qed.

Lemma event_live k' :
  live_rec G' ts' k' = if decide (k = k') then (if d then None else Some rec)
                       else live_rec G ts k'.
Proof.
  unfold live_rec, G'. destruct (decide (k = k')) as [<-|Hne].
  - rewrite upd_eq, Hcur. destruct d; [done|]. cbn.
    rewrite event_row by by apply rev_pos_wf. by rewrite decide_True.
  - rewrite upd_ne by done. destruct (current_of (G k')) as [r|] eqn:Hr; [|done]. cbn.
    by apply (event_old_row k' r false), current_of_elem.
Qed.

Lemma event_read k' t : t < main rev → read_rec G' ts' k' t = read_rec G ts k' t.
Proof.
  intros Ht. unfold read_rec, G'.
  assert (revision_at (upd G k gens' k') (mkRev t i64_max)
          = revision_at (G k') (mkRev t i64_max)) as ->.
  { unfold upd. case_decide as Hk; [subst k'|done].
    rewrite !revision_at_hist by first [apply Hwf|apply (ci_wf _ _ _ Hc)].
    rewrite Hhist. apply hist_at_snoc_below. unfold rev_lt. cbn. lia. }
  destruct (revision_at (G k') _) as [r|] eqn:Hr; [|done]. cbn.
  apply (event_old_row k' r false), (revision_at_elem _ (mkRev t i64_max));
    [apply (ci_wf _ _ _ Hc)|done].
Qed.

Lemma event_lease_row : old ≠ 0 → is_Some (ts !! (TABLE_LEASE_KEYS, lease_key_index old k)).
Proof.
  intros Hne. apply (ci_lease _ _ _ Hc). subst old.
  destruct (live_rec G ts k) as [p|] eqn:Hp; [|done]. cbn in *. by exists k, p.
Qed.

Lemma event_old_i64 : is_i64 old.
Proof.
  rewrite Hold. destruct (live_rec G ts k) as [p|] eqn:Hp; [|done].
  destruct (live_rec_inv _ _ _ _ _ Hc Hp) as (r & g & _ & _ & _ & _ & Hok). apply Hok.
Qed.

Lemma event_lease rk :
  is_Some (ts' !! (TABLE_LEASE_KEYS, rk)) ↔
  ∃ k' rec', live_rec G' ts' k' = Some rec' ∧ rec_lease rec' ≠ 0 ∧
             rk = lease_key_index (rec_lease rec') k'.
Proof.
  unfold ts'. change (apply_batch (?op :: ?l) ts) with (apply_batch l (apply_op op ts)).
  rewrite lease_ops_rows; [|apply event_old_i64|done|].
  2:{ rewrite apply_op_lookup, decide_False by (by intros []). apply event_lease_row. }
  rewrite apply_op_lookup, decide_False by (by intros []).
  rewrite (ci_lease _ _ _ Hc). split.
  - intros [[Hn ->]|[(k' & rec' & Hl & Hz & ->) Hno]].
    + exists k, rec. rewrite event_live, decide_True by done.
      rewrite Hnew in Hn |- *. by destruct d.
    + exists k', rec'. rewrite event_live. destruct (decide (k = k')) as [<-|]; [|done].
      exfalso. apply Hno. by rewrite Hold, Hl.
  - intros (k' & rec' & Hl & Hz & ->). rewrite event_live in Hl.
    destruct (decide (k = k')) as [<-|Hne].
    + left. rewrite Hnew. destruct d; [done|]. by simplify_eq.
    + right. split; [by eauto|]. intros [_ Heq].
      apply lease_key_index_inj in Heq as [_ ?]; [done| |apply event_old_i64].
      destruct (live_rec_inv _ _ _ _ _ Hc Hl) as (? & ? & _ & _ & _ & _ & Hok). apply Hok.
Qed.

Lemma event_inv : core_inv G' ts' bound'.
Proof.
  split.
  - intros k'. unfold G', upd. case_decide; [done|apply (ci_wf _ _ _ Hc)].
  - assert (∀ k' e, e ∈ history (G k') → rev_lt e.1 bound' ∧ rev_pos e.1) as Hold'.
    { intros k' e He. destruct (ci_bound _ _ _ Hc k' e He). split; [|done].
      by eapply rev_lt_le_trans. }
    intros k' e. unfold G', upd. case_decide as Hk; [|by apply Hold'].
    rewrite Hhist. intros [He| ->]%elem_of_snoc_iff; [by eapply Hold'|]. cbn.
    by split.
  - intros k' g r Hg Hr. unfold G', upd in Hg. case_decide as Hk.
    + subst k'. destruct (Hputs g r Hg Hr) as [[-> Hok]|(g0 & Hg0 & Hcr & Hr0)].
      * exists rec. split; [|done]. rewrite event_row by by apply rev_pos_wf.
        by rewrite decide_True.
      * rewrite <- Hcr. rewrite (event_old_row k r false) by by eapply history_put.
        by apply (ci_puts _ _ _ Hc).
    + rewrite (event_old_row k' r false) by by eapply history_put.
      by apply (ci_puts _ _ _ Hc).
  - intros k' g t Hg Ht. unfold G', upd in Hg. case_decide as Hk.
    + subst k'. destruct (Htomb g t Hg Ht) as [[-> Hrec]|(g0 & Hg0 & Ht0)].
      * rewrite event_row by by apply rev_pos_wf. by rewrite decide_True, Hrec.
      * rewrite (event_old_row k t true) by by eapply history_tomb.
        by apply (ci_tomb _ _ _ Hc k g0).
    + rewrite (event_old_row k' t true) by by eapply history_tomb.
      by apply (ci_tomb _ _ _ Hc k' g).
  - apply event_lease.
Qed.
End event.

(** What one event of key [k] does: the key's live record becomes [now];
    reads below the event see what they saw. *)
Record event_step (G : bytes → list Generation) (ts : Tables)
    (G' : bytes → list Generation) (ts' : Tables) (k : bytes) (rev bound : Revision)
    (now : option KvRecord) : Prop := {
  es_inv : core_inv G' ts' bound;
  es_live k' : live_rec G' ts' k' = if decide (k = k') then now else live_rec G ts k';
  es_read k' t : t < main rev → read_rec G' ts' k' t = read_rec G ts k' t
}.

Lemma core_put G ts bound bound' k rev idx' v c value lease b :
  core_inv G ts bound → rev_lt rev bound' → rev_le bound bound' → rev_pos rev →
  (∀ e, e ∈ history (G k) → rev_lt e.1 rev) → is_i64 lease →
  record_put (mkIdx k (G k)) rev = (idx', (v, c)) →
  let rec := mkKv k value (main c) (main rev) v lease false in
  serialize rec = Some b →
  event_step G ts (upd G k (generations idx'))
    (apply_batch (OpPut TABLE_KV (make_kv_key k rev) b
       :: lease_ops (default 0 (rec_lease <$> live_rec G ts k)) lease k) ts)
    k rev bound' (Some rec) ∧
  match live_rec G ts k with
  | Some p => main c = create_revision p
  | None => v = 1 ∧ c = rev
  end.
Proof.
  intros Hc Hlt Hle Hpos Hfresh Hi64 Hput rec Hb.
  destruct (record_put_spec (mkIdx k (G k)) rev idx' v c) as (Hwf & Hhist & _ & Hcur & Hver);
    [apply (ci_wf _ _ _ Hc)|done|done|].
  destruct (record_put_gens _ _ _ _ _ _ Hput) as (Hv & _ & _ & Hputs & Htomb).
  assert (current_of (generations idx') = Some rev) as Hcur'
    by (rewrite <- current_current_of, Hcur; done).
  split.
  - assert (∀ g r, g ∈ generations idx' → r ∈ revs g →
      r = rev ∧ put_rec_ok k (created g) rev rec ∨
      ∃ g0, g0 ∈ G k ∧ created g0 = created g ∧ r ∈ revs g0) as Hputs'.
    { intros g r Hg Hr. destruct (Hputs g r Hg Hr) as [[-> <-]|?]; [left|by right].
      by split_and!. }
    split.
    + by eapply (event_inv _ _ bound _ _ false); eauto.
    + intros k'. by eapply (event_live _ _ bound _ _ false); eauto.
    + intros k' t. by eapply (event_read _ _ bound _ _ false); eauto.
  - cbn in Hver. unfold live_rec, current_of.
    destruct (last (G k)) as [g|] eqn:Hlast; [|done].
    destruct (is_open g) eqn:Ho; [|done]. destruct Hver as [_ ->].
    apply last_Some in Hlast as [gs Hgs].
    destruct (last (revs g)) as [r|] eqn:Hr; cbn.
    + apply last_Some in Hr as [rs Hrs].
      destruct (ci_puts _ _ _ Hc k g r) as (p & -> & Hok);
        [rewrite Hgs; apply elem_of_snoc|rewrite Hrs; apply elem_of_snoc|].
      symmetry. apply Hok.
    + apply last_None in Hr. pose proof (ci_wf _ _ _ Hc k) as Hw. rewrite Hgs in Hw.
      apply gens_wf_snoc in Hw as (_ & (Hne & _) & _). exfalso. apply Hne.
      unfold gen_events, is_open in *. rewrite Hr. by destruct (tombstone g).
Qed.

Lemma core_delete G ts bound bound' k rev idx' b :
  core_inv G ts bound → rev_lt rev bound' → rev_le bound bound' → rev_pos rev →
  (∀ e, e ∈ history (G k) → rev_lt e.1 rev) →
  record_delete (mkIdx k (G k)) rev = (idx', true) →
  serialize (tomb_rec k rev) = Some b →
  event_step G ts (upd G k (generations idx'))
    (apply_batch (OpPut TABLE_KV (make_kv_key k rev) b
       :: lease_ops (default 0 (rec_lease <$> live_rec G ts k)) 0 k) ts) k rev bound' None.
Proof.
  intros Hc Hlt Hle Hpos Hfresh Hdel Hb.
  destruct (record_delete_spec (mkIdx k (G k)) rev idx' true)
    as (_ & Hwf & _ & Hhist & Hlive); [apply (ci_wf _ _ _ Hc)|done|done|].
  destruct (record_delete_gens _ _ _ _ Hdel) as (_ & _ & Hputs & Htomb).
  assert (current_of (generations idx') = None) as Hcur by (by apply current_of_not_live).
  assert (∀ g t, g ∈ generations idx' → tombstone g = Some t →
    t = rev ∧ tomb_rec k rev = tomb_rec k rev ∨
    ∃ g0, g0 ∈ G k ∧ tombstone g0 = Some t) as Htomb' by naive_solver.
  split.
  - by eapply (event_inv _ _ bound _ _ true); eauto.
  - intros k'. by eapply (event_live _ _ bound _ _ true); eauto.
  - intros k' t. by eapply (event_read _ _ bound _ _ true); eauto.
Qed.

(** A read at or above the newest event sees the live record. *)
Lemma read_live G ts bound k t :
  core_inv G ts bound → rev_le bound (mkRev (t + 1) 0) → read_rec G ts k t = live_rec G ts k.
Proof.
  intros Hc Hb. unfold read_rec, live_rec. rewrite revision_at_current; [done|apply Hc|].
  intros e He. destruct (ci_bound _ _ _ Hc k e He) as [Hlt [_ Hs]].
  unfold rev_le, rev_lt in *. cbn in *. lia.
Qed.

Lemma core_weaken G ts b1 b2 : core_inv G ts b1 → rev_le b1 b2 → core_inv G ts b2.
Proof.
  intros [Hwf Hb Hp Ht Hl] Hle. split; try done. intros k e He.
  destruct (Hb k e He). split; [by eapply rev_lt_le_trans|done].
Qed.

Lemma live_gens_live G ts bound k :
  core_inv G ts bound → gens_live (G k) = bool_decide (is_Some (live_rec G ts k)).
Proof.
  intros Hc. unfold live_rec. destruct (gens_live (G k)) eqn:Hl.
  - destruct (current_of_live _ (ci_wf _ _ _ Hc k) Hl) as [r Hr]. rewrite Hr. cbn.
    pose proof Hr as (gs & g & rs & HG & _ & Hrs & _)%current_of_Some.
    destruct (ci_puts _ _ _ Hc k g r) as (rec & -> & _);
      [rewrite HG; apply elem_of_snoc|rewrite Hrs; apply elem_of_snoc|].
    by rewrite bool_decide_true.
  - rewrite current_of_not_live by done. done.
Qed.

(** ** Compaction *)

Definition compacted_gens (G : bytes → list Generation) (c : Revision) : bytes → list Generation :=
  λ k, (compact_gens (G k) c).2.
Definition dropped_revs (G : bytes → list Generation) (c : Revision) (k : bytes)
    : list Revision :=
  (compact_gens (G k) c).1.

Lemma hist_sorted_NoDup h : hist_sorted h → NoDup h.*1.
Proof.
  unfold hist_sorted. intros Hs. induction Hs as [|r l Hs IH Hall]; constructor; [|done].
  rewrite Forall_forall in Hall. intros Hin. apply Hall in Hin.
  by apply (irreflexivity rev_lt) in Hin.
Qed.

(** A revision is a put or a tombstone, not both. *)
Lemma history_kind gens r d d' :
  gens_wf gens → (r, d) ∈ history gens → (r, d') ∈ history gens → d = d'.
Proof.
  intros Hwf. pose proof (hist_sorted_NoDup _ (history_sorted _ Hwf)) as Hnd.
  revert Hnd. generalize (history gens). intros h.
  induction h as [|[r0 d0] h IH]; cbn; [by intros _ ?%elem_of_nil|]. intros [Hr Hnd]%NoDup_cons.
  rewrite !elem_of_cons. intros [?|Hin] [?|Hd]; simplify_eq; try done.
  - exfalso. apply Hr. by apply (list_elem_of_fmap_2 fst) in Hd.
  - exfalso. apply Hr. by apply (list_elem_of_fmap_2 fst) in Hin.
  - by apply IH.
Qed.

Lemma kept_not_dropped gens c e :
  gens_wf gens → e ∈ history (compact_gens gens c).2 →
  e ∈ history gens ∧ e.1 ∉ (compact_gens gens c).1.
Proof.
  intros Hwf He. pose proof (history_sorted _ Hwf) as Hs.
  pose proof (hist_sorted_NoDup _ Hs) as Hnd.
  destruct (compact_gens_dropped gens c Hwf) as [Hsplit _]. rewrite Hsplit in Hnd.
  destruct (compact_gens_hist gens c Hwf) as [Hk _]. split.
  - rewrite Hk in He. by eapply hist_compact_elem.
  - apply NoDup_app in Hnd as (_ & Hdisj & _). intros Hin. apply (Hdisj _ Hin).
    by apply list_elem_of_fmap_2.
Qed.

Section compact.
Context (G : bytes → list Generation) (ts ts' : Tables) (bound c : Revision).
Context (Hc : core_inv G ts bound) (Hcb : rev_le c bound).
Context (Hrows : ∀ k r, rev_wf r → r ∉ dropped_revs G c k → kv_row ts' k r = kv_row ts k r).
Context (Hlk : ∀ rk, ts' !! (TABLE_LEASE_KEYS, rk) = ts !! (TABLE_LEASE_KEYS, rk)).

Lemma compact_row k e :
  e ∈ history (compacted_gens G c k) → e ∈ history (G k) ∧ kv_row ts' k e.1 = kv_row ts k e.1.
Proof.
  intros He. destruct (kept_not_dropped (G k) c e) as [Hin Hnd]; [apply Hc|done|].
  split; [done|]. apply Hrows; [by eapply core_bound_wf|done].
Qed.

Lemma compact_read k t :
  rev_le c (mkRev t i64_max) → read_rec (compacted_gens G c) ts' k t = read_rec G ts k t.
Proof.
  intros Ht. unfold read_rec, compacted_gens at 1.
  rewrite compact_gens_reads by first [done|apply Hc].
  destruct (revision_at (G k) _) as [r|] eqn:Hr; [|done]. cbn.
  apply (compact_row k (r, false)).
  rewrite <- (compact_gens_reads (G k) c) in Hr by first [done|apply Hc].
  eapply revision_at_elem; [apply compact_gens_wf, Hc|done].
Qed.

Lemma compact_live k : live_rec (compacted_gens G c) ts' k = live_rec G ts k.
Proof.
  pose proof (ci_wf _ _ _ Hc k) as Hwf. unfold live_rec.
  assert (current_of (compacted_gens G c k) = current_of (G k)) as Heq.
  { rewrite <- (revision_at_current (G k) bound), <- (revision_at_current _ bound).
    - by apply compact_gens_reads.
    - by apply compact_gens_wf.
    - intros e He%compact_row. apply rev_lt_le, (ci_bound _ _ _ Hc k), He.
    - done.
    - intros e He. by apply rev_lt_le, (ci_bound _ _ _ Hc k). }
  rewrite Heq. destruct (current_of (G k)) as [r|] eqn:Hr; [|done]. cbn.
  apply (compact_row k (r, false)), current_of_elem. congruence.
Qed.

Lemma compact_inv : core_inv (compacted_gens G c) ts' bound.
Proof.
  split.
  - intros k. apply compact_gens_wf, Hc.
  - intros k e [He _]%compact_row. by apply (ci_bound _ _ _ Hc k).
  - intros k g' r Hg' Hr.
    destruct (compact_gens_sub (G k) c g') as (g & Hg & Hcr & _ & _ & Hev);
      [apply Hc|done|].
    assert (r ∈ revs g) as Hrg.
    { assert ((r, false) ∈ gen_events g') as He by (apply elem_of_gen_events; auto).
      rewrite Hev in He. apply hist_compact_elem, elem_of_gen_events in He. naive_solver. }
    rewrite Hcr.
    destruct (compact_row k (r, false)) as [_ Hrow]; [by eapply history_put|].
    cbn in Hrow. rewrite Hrow. by apply (ci_puts _ _ _ Hc).
  - intros k g' t Hg' Ht.
    destruct (compact_gens_sub (G k) c g') as (g & Hg & _ & Htg & _); [apply Hc|done|].
    destruct (compact_row k (t, true)) as [_ Hrow]; [by eapply history_tomb|].
    cbn in Hrow. rewrite Hrow. apply (ci_tomb _ _ _ Hc k g); [done|]. by rewrite <- Htg.
  - intros rk. rewrite Hlk, (ci_lease _ _ _ Hc). by setoid_rewrite compact_live.
Qed.
End compact.

End core.
