(* ===== verification/StoreSpec.v ===== *)
(** * What the MVCC store promises

    The abstract state is what a client can tell of the keys at one
    revision: every key with a history, with its record if it is live and
    the number of puts its generation still holds.  Mutations, ranges,
    compares and transactions as functions on it, without an index, tables,
    caches or a context.  [StoreWrite.v], [StoreTxn.v],
    [StoreMany.v] and [StoreRead.v] prove that the store's methods implement
    these functions. *)

From S2P Require Import Prelude Revision Record KvStore Lease Cache Auth Store StoreCore.

(** A live key: its record, and the puts its generation holds. *)
Abbreviation LiveKey := (KvRecord * Z)%type.
(** Every key with a history; [None] is a deleted one. *)
Abbreviation Abs := (gmap bytes (option LiveKey)).

Definition a_live (A : Abs) (k : bytes) : option KvRecord := fst <$> mjoin (A !! k).
Definition a_puts (A : Abs) (k : bytes) : Z := default 0 (snd <$> mjoin (A !! k)).

(** The live keys in a range with their records, in key order. *)
Definition a_range (A : Abs) (key range_end : bytes) : list (bytes * KvRecord) :=
  omap (λ p : bytes * option LiveKey,
    if in_range p.1 key range_end then (λ l, (p.1, l.1)) <$> p.2 else None)
    (sorted_entries A).

(** ** Mutations *)

(** What one mutation gives: the state, its result, its events. *)
Record Effect := mkEffect {
  ef_abs : Abs;
  ef_result : MutationResult;
  ef_events : list MvccEvent
}.

Definition spec_put (rev : Revision) (key value : bytes) (lease : Z)
    (ignore_value ignore_lease prev_kv : bool) (A : Abs) : result Refusal Effect :=
  let prev := a_live A key in
  if (ignore_value || ignore_lease) && bool_decide (prev = None) then Err KeyNotFound
  else
    let n := a_puts A key + 1 in
    let rec := mkKv key
      (if ignore_value then default [] (rec_value <$> prev) else value)
      (default (main rev) (create_revision <$> prev)) (main rev) n
      (if ignore_lease then default 0 (rec_lease <$> prev) else lease) false in
    Ok (mkEffect (<[key := Some (rec, n)]> A)
          (mkMutationResult 1 (if prev_kv then option_list prev else []))
          [mkEvent EvPut rec prev]).

Definition spec_delete (rev : Revision) (key range_end : bytes) (prev_kv : bool) (A : Abs)
    : Effect :=
  let victims := a_range A key range_end in
  mkEffect (foldl (λ A p, <[p.1 := None]> A) A victims)
    (mkMutationResult (Z.of_nat (length victims)) (if prev_kv then victims.*2 else []))
    ((λ p, mkEvent EvDelete (tomb_rec p.1 rev) (Some p.2)) <$> victims).

Definition spec_mutation (rev : Revision) (m : Mutation) (A : Abs) : result Refusal Effect :=
  match m with
  | Put key value lease iv il pk => spec_put rev key value lease iv il pk A
  | DeleteRange key range_end pk => Ok (spec_delete rev key range_end pk A)
  end.

(** Several mutations at one revision. *)
Fixpoint spec_mutations (main sub : Z) (ms : list Mutation) (A : Abs)
    : result Refusal (Abs * list MutationResult * list MvccEvent) :=
  match ms with
  | [] => Ok (A, [], [])
  | m :: ms' =>
      let? e := spec_mutation (mkRev main sub) m A in
      let? (A', rs, evs) := spec_mutations main (sub + 1) ms' (ef_abs e) in
      Ok (A', ef_result e :: rs, ef_events e ++ evs)
  end.

(** ** Ranges and compares *)

Definition spec_range (view : list (bytes * KvRecord)) (limit : nat)
    (keys_only count_only : bool) : RangeResult :=
  let total := Z.of_nat (length view) in
  mkRangeResult
    (if count_only then []
     else (λ p, trim p.2 keys_only) <$> limited limit view)
    (negb count_only && (0 <? limit)%nat && (Z.of_nat limit <? total)) total.

(** A range compare covers every key with a history, the deleted ones as
    zero records. *)
Definition spec_compare (A : Abs) (cmp : Compare) : bool :=
  let holds k := eval_compare (default (implicit_zero_record k) (a_live A k))
                   (cmp_op cmp) (cmp_target cmp) in
  if bool_decide (cmp_range_end cmp = []) then holds (cmp_key cmp)
  else forallb (λ p : bytes * option LiveKey,
         implb (in_range p.1 (cmp_key cmp) (cmp_range_end cmp)) (holds p.1))
         (map_to_list A).

Definition spec_compares (A : Abs) (compares : list Compare) : bool :=
  forallb (spec_compare A) compares.

(** ** Transactions *)

(** What a transaction runs against: the keys before it, the revisions, and
    the older views a range may ask for. *)
Record TxnEnv := mkEnv {
  te_start : Abs;
  te_current : Z;
  te_compact : Z;
  te_past : Z → bytes → bytes → list (bytes * KvRecord)
}.

(** Where it is: the keys so far, the next sub-revision, whether anything
    changed, and the events so far. *)
Record TxnState := mkTxnState {
  ts_abs : Abs;
  ts_sub : Z;
  ts_produced : bool;
  ts_events : list MvccEvent
}.

(** A range sees what the transaction did so far. *)
Definition spec_txn_range (env : TxnEnv) (s : TxnState) (r : RangeOp) : MvccResult RangeResult :=
  let now := if ts_produced s then te_current env + 1 else te_current env in
  let t := ro_revision r in
  if (0 <? t) && (now <? t) then Err (FutureRevision t now)
  else if (0 <? t) && (t <? te_compact env) then Err (Compacted t (te_compact env))
  else
    let view := if (t =? 0) || (t =? now) then a_range (ts_abs s) (ro_key r) (ro_range_end r)
                else te_past env t (ro_key r) (ro_range_end r) in
    Ok (spec_range view (ro_limit r) (ro_keys_only r) (ro_count_only r)).

Definition spec_txn_mutation (env : TxnEnv) (s : TxnState) (m : Mutation)
    : MvccResult (TxnOpResult * TxnState) :=
  match spec_mutation (mkRev (te_current env + 1) (ts_sub s)) m (ts_abs s) with
  | Err refusal => Err (Refused refusal)
  | Ok e => Ok (ResMutation (ef_result e),
                mkTxnState (ef_abs e) (ts_sub s + 1)
                  (ts_produced s || (0 <? mr_n (ef_result e))) (ts_events s ++ ef_events e))
  end.

(** A nested transaction's compares see the keys before the outermost one. *)
Fixpoint spec_txn_op (env : TxnEnv) (s : TxnState) (op : TxnOp)
    : MvccResult (TxnOpResult * TxnState) :=
  match op with
  | OpRange r => let? res := spec_txn_range env s r in Ok (ResRange res, s)
  | OpMutation m => spec_txn_mutation env s m
  | OpTxn compares success failure =>
      let ok := spec_compares (te_start env) compares in
      let? (rs, s) :=
        (fix go (s : TxnState) (l : list TxnOp) : MvccResult (list TxnOpResult * TxnState) :=
           match l with
           | [] => Ok ([], s)
           | op :: l' =>
               let? (r, s) := spec_txn_op env s op in
               let? (rs, s) := go s l' in
               Ok (r :: rs, s)
           end) s (if ok then success else failure) in
      Ok (ResTxn ok rs, s)
  end.

Fixpoint spec_txn_ops (env : TxnEnv) (s : TxnState) (l : list TxnOp)
    : MvccResult (list TxnOpResult * TxnState) :=
  match l with
  | [] => Ok ([], s)
  | op :: l' =>
      let? (r, s) := spec_txn_op env s op in
      let? (rs, s) := spec_txn_ops env s l' in
      Ok (r :: rs, s)
  end.

Definition spec_txn (env : TxnEnv) (A : Abs) (compares : list Compare)
    (success failure : list TxnOp) : MvccResult (bool * list TxnOpResult * TxnState) :=
  let ok := spec_compares A compares in
  let? (rs, s) := spec_txn_ops env (mkTxnState A 0 false []) (if ok then success else failure) in
  Ok (ok, rs, s).

(** ** Several requests *)

(** Where a run of requests is: the keys, the revision, the batches sent. *)
Record ManyState := mkMany { ms_abs : Abs; ms_rev : Z; ms_sent : list EventBatch }.

(** One request as if alone. *)
Definition spec_item (compact : Z) (s : ManyState) (item : ApplyItem)
    : MvccResult (ApplyOutcome * ManyState) :=
  let cur := ms_rev s in
  let next A events :=
    mkMany A (cur + 1) (ms_sent s ++ [mkEventBatch (cur + 1) events]) in
  match item with
  | ItemMutations [] => Ok (OutMutations cur [], s)
  | ItemMutations ms =>
      match spec_mutations (cur + 1) 0 ms (ms_abs s) with
      | Err refusal => Ok (OutRefused cur refusal, s)
      | Ok (A, rs, events) =>
          Ok (OutMutations (cur + 1) rs,
              if existsb (λ r, 0 <? mr_n r) rs then next A events else s)
      end
  | ItemTxn compares success failure =>
      let env := mkEnv (ms_abs s) cur compact (λ _ _ _, []) in
      let? (ok, rs, t) := spec_txn env (ms_abs s) compares success failure in
      Ok (OutTxn (mkTxnResult ok (if ts_produced t then cur + 1 else cur) rs),
          if ts_produced t then next (ts_abs t) (ts_events t) else s)
  end.

Fixpoint spec_items (compact : Z) (s : ManyState) (items : list ApplyItem)
    : MvccResult (list ApplyOutcome * ManyState) :=
  match items with
  | [] => Ok ([], s)
  | item :: items' =>
      let? (out, s) := spec_item compact s item in
      let? (outs, s) := spec_items compact s items' in
      Ok (out :: outs, s)
  end.
