(* ===== verification/StoreInv.v ===== *)
(** * The store's invariant, and that of an apply in progress

    [store_inv]: the index is what [mvcc_idx] holds, the counters are those
    of [mvcc_meta] and of the read view, the value cache agrees with the
    tables, and index and tables are well formed ([core_inv]).  [ctx_inv]:
    the same for the state an [ApplyContext] would commit. *)

From S2P Require Import Prelude Revision Record KvStore Lease Cache Auth Store StoreCore.
From S2P Require Import StoreSpec.

Definition idx_gens (i : ResidentIndex) : bytes → list Generation :=
  λ k, default [] (index_map i !! k).

Definition ctx_gens (i : ResidentIndex) (c : ApplyContext) : bytes → list Generation :=
  λ k, match idx_cache c !! k with Some x => generations x | None => idx_gens i k end.

(** The puts the open generation holds. *)
Definition puts_of (gens : list Generation) : Z :=
  match last gens with
  | Some g => if is_open g then Z.of_nat (length (revs g)) else 0
  | None => 0
  end.

Lemma record_put_puts k gens rev idx' v c :
  record_put (mkIdx k gens) rev = (idx', (v, c)) →
  v = puts_of gens + 1 ∧ puts_of (generations idx') = v.
Proof.
  unfold record_put, puts_of. cbn [generations idx_key]. rewrite needs_new_live.
  destruct (gens_live gens) eqn:Hl; cbn [negb].
  - destruct (gens_live_inv _ Hl) as (gs & g & -> & Ho).
    rewrite alter_last_snoc, !last_snoc. intros [= <- <- <-]. cbn.
    rewrite last_snoc, Ho. unfold is_open in *. cbn. destruct (tombstone g); [done|].
    rewrite length_app. cbn. lia.
  - intros [= <- <- <-]. cbn. rewrite last_snoc. cbn. unfold gens_live in Hl.
    destruct (last gens) as [g|]; [by rewrite Hl|done].
Qed.

Section inv.
Context {E : Type} `{KvStore E} `{BincodeLaws KvRecord, BincodeLaws KeyIndex}.

(** An abstract state describes generations and tables. *)
Definition abs_rel (A : Abs) (G : bytes → list Generation) (ts : Tables) : Prop :=
  ∀ k, A !! k = if decide (G k = []) then None
                else Some ((λ rec, (rec, puts_of (G k))) <$> live_rec G ts k).

(** The value cache: what it holds at a revision still in the key's history
    is that revision's record. *)
Definition entry_ok (G : bytes → list Generation) (ts : Tables) (cur : Z)
    (k : bytes) (r : Revision) (rec : KvRecord) : Prop :=
  main r ≤ cur ∧ ∀ d, (r, d) ∈ history (G k) → d = false ∧ kv_row ts k r = Some rec.

Definition cache_coh (v : ValueCache) (G : bytes → list Generation) (ts : Tables) (cur : Z)
    : Prop :=
  cache_all (entry_ok G ts cur) v.

(** Raft metadata never names the store's own rows. *)
Definition raft_key (k : bytes) : Prop :=
  k ≠ META_KEY_CURRENT_REV ∧ k ≠ META_KEY_COMPACT_REV ∧ k ≠ META_KEY_NEXT_LEASE_ID ∧
  k ≠ META_KEY_CLUSTER_ID.

Record store_inv (st : Inner E) : Prop := {
  si_core : core_inv (idx_gens (index st)) (contents (engine st))
              (mkRev (current_rev (write_state st) + 1) 0);
  si_index : index_ok (index st);
  si_idx k :
    match contents (engine st) !! (TABLE_IDX, k) with
    | Some b => ∃ gens, deserialize b = Some (mkIdx k gens) ∧
                        index_map (index st) !! k = Some gens
    | None => index_map (index st) !! k = None
    end;
  si_current : default 0 (read_i64 (contents (engine st)) META_KEY_CURRENT_REV)
               = current_rev (write_state st);
  si_compact : default 0 (read_i64 (contents (engine st)) META_KEY_COMPACT_REV)
               = compact_rev (write_state st);
  si_lease : default 0 (read_i64 (contents (engine st)) META_KEY_NEXT_LEASE_ID)
             = next_lease_id (write_state st);
  si_revs : 0 ≤ compact_rev (write_state st) ≤ current_rev (write_state st) ∧
            current_rev (write_state st) ≤ i64_max ∧ is_i64 (next_lease_id (write_state st));
  si_view : view_revs (view st) = ws_revs (write_state st);
  si_commits : engine_commits (view st) = published (view st);
  si_cache : cache_coh (values st) (idx_gens (index st)) (contents (engine st))
               (current_rev (write_state st));
  si_cluster : ∃ o, read_u64 (contents (engine st)) META_KEY_CLUSTER_ID = Ok o ∧
                    default 0 o = cluster_id st;
  si_pending r : r ∈ pending_raft_meta st → raft_key r.1
}.

Record ctx_inv (i : ResidentIndex) (snap : Tables) (c : ApplyContext) (base : Z)
    (bound : Revision) : Prop := {
  cx_core : core_inv (ctx_gens i c) (apply_batch (batch c) snap) bound;
  cx_key k x : idx_cache c !! k = Some x → idx_key x = k ∧ generations x ≠ [];
  cx_latest k :
    match latest_record_cache c !! k with
    | Some r => is_Some (idx_cache c !! k) ∧
        live_rec (ctx_gens i c) (apply_batch (batch c) snap) k
        = if is_tombstone r then None else Some r
    | None => idx_cache c !! k = None
    end;
  cx_old k r d :
    (r, d) ∈ history (idx_gens i k) →
    kv_row (apply_batch (batch c) snap) k r = kv_row snap k r;
  cx_hist k : ∃ new, history (ctx_gens i c k) = history (idx_gens i k) ++ new ∧
                     ∀ e, e ∈ new → base < main e.1;
  cx_tables op :
    op ∈ batch c →
    op_table op = TABLE_KV ∨ op_table op = TABLE_LEASE_KEYS ∨ op_table op = TABLE_LEASE
}.

(** ** The state of the store during an apply: only the value cache and the
    counters move. *)
Definition st_with (st : Inner E) (v : ValueCache) (o : OpCounts) : Inner E :=
  set_ops o (set_values v st).

Lemma st_with_id st : st_with st (values st) (ops st) = st.
Proof. by destruct st. Qed.

Lemma store_inv_with st v o :
  store_inv st →
  cache_coh v (idx_gens (index st)) (contents (engine st)) (current_rev (write_state st)) →
  store_inv (st_with st v o).
Proof. intros [] Hv. by split. Qed.

Lemma ctx_gens_default i : ctx_gens i ApplyContext_default = idx_gens i.
Proof. done. Qed.

Lemma ctx_inv_default i snap base bound :
  core_inv (idx_gens i) snap bound → ctx_inv i snap ApplyContext_default base bound.
Proof.
  intros Hc. split; cbn; try done; try set_solver.
  intros k. exists []. rewrite app_nil_r. split; [done|set_solver].
Qed.

(** ** Reading records during an apply *)

Lemma cache_lookup_ok st v o G ts cur k r d :
  cache_coh v G ts cur → (r, d) ∈ history (G k) →
  ∃ v' hit, cache_lookup k r (st_with st v o) = (Ok hit, st_with st v' o) ∧
    cache_coh v' G ts cur ∧
    (∀ rec, hit = Some rec → d = false ∧ kv_row ts k r = Some rec).
Proof.
  intros [Hwf Hcoh] Hr. unfold cache_lookup. cbn [values st_with set_ops set_values].
  pose proof (cache_get_spec k r v Hwf) as Hg. destruct (cache_get k r v) as [hit v'].
  destruct Hg as (Hwf' & Hen & Hsame & Hhit). exists v', hit. split_and!; [done|..].
  - split; [done|]. rewrite Hen. intros He k' r' rec'. rewrite Hsame. by apply Hcoh.
  - intros rec [He Hc]%Hhit. by destruct (Hcoh He k r rec Hc) as [_ Hrow]; apply Hrow.
Qed.

Lemma latest_record_in_ok st v o i snap c c' base bound cur k x :
  ctx_inv i snap c base bound → cache_coh v (idx_gens i) snap cur →
  latest_record_cache c' = latest_record_cache c →
  generations x = ctx_gens i c k → is_live x = true →
  ∃ v', latest_record_in snap c' k x (st_with st v o)
        = (Ok (live_rec (ctx_gens i c) (apply_batch (batch c) snap) k), st_with st v' o) ∧
        cache_coh v' (idx_gens i) snap cur.
Proof.
  intros Hc Hv Hl Hx Hlive. unfold latest_record_in. rewrite Hl.
  pose proof (cx_latest _ _ _ _ _ Hc k) as Hk.
  destruct (latest_record_cache c !! k) as [r|].
  { destruct Hk as [_ ->]. exists v. by split. }
  pose proof (ci_wf _ _ _ (cx_core _ _ _ _ _ Hc) k) as Hwf.
  unfold is_live in Hlive. rewrite Hx in Hlive.
  destruct (current_of_live _ Hwf Hlive) as [rev Hrev].
  unfold latest_record.
  assert (∃ n, current x = Some (rev, n)) as [n ->].
  { pose proof (current_current_of x) as Hcur. rewrite Hx, Hrev in Hcur.
    destruct (current x) as [[r n]|]; [|done]. exists n. by simplify_eq/=. }
  assert ((rev, false) ∈ history (idx_gens i k)) as Hin.
  { apply current_of_elem in Hrev. unfold ctx_gens in Hrev. by rewrite Hk in Hrev. }
  assert (∃ rec, live_rec (ctx_gens i c) (apply_batch (batch c) snap) k = Some rec ∧
                 kv_row snap k rev = Some rec ∧ is_tombstone rec = false)
    as (rec & Hlr & Hrow & Htomb).
  { pose proof (live_gens_live _ _ _ k (cx_core _ _ _ _ _ Hc)) as Hlg.
    rewrite Hlive in Hlg. symmetry in Hlg. apply bool_decide_eq_true in Hlg as [rec Hrec].
    exists rec. split; [done|].
    destruct (live_rec_inv _ _ _ _ _ (cx_core _ _ _ _ _ Hc) Hrec)
      as (r' & g & Hcur & _ & _ & Hrow & Hok).
    assert (r' = rev) as -> by congruence.
    rewrite <- (cx_old _ _ _ _ _ Hc k rev false Hin). split; [done|apply Hok]. }
  rewrite Hlr. unfold pbind.
  destruct (cache_lookup_ok st v o (idx_gens i) snap cur k rev false Hv Hin)
    as (v' & hit & -> & Hv' & Hhit).
  exists v'. split; [|done]. destruct hit as [rec'|].
  { destruct (Hhit rec' eq_refl) as [_ Hr']. unfold pret. by rewrite Hrow in Hr'; simplify_eq. }
  unfold kv_row, snap_get in *. destruct (snap !! _) as [b|]; [|done]. cbn in Hrow.
  unfold plift. rewrite Hrow. cbn. by rewrite Htomb.
Qed.
End inv.

(** ** Setting many keys of the index *)

Definition index_set_all (l : list (bytes * list Generation)) (i : ResidentIndex)
    : ResidentIndex :=
  foldl (λ i r, index_set r.1 r.2 i) i l.

Lemma index_set_all_map l i k :
  NoDup l.*1 →
  index_map (index_set_all l i) !! k =
  match (list_to_map l : gmap bytes (list Generation)) !! k with
  | Some [] => None
  | Some gens => Some gens
  | None => index_map i !! k
  end.
Proof.
  revert i. induction l as [|[j gens] l IH]; intros i Hnd; [done|].
  cbn [fmap list_fmap fst] in *. apply NoDup_cons in Hnd as [Hj Hnd].
  change (index_set_all ((j, gens) :: l) i) with (index_set_all l (index_set j gens i)).
  rewrite IH, index_map_set by done. cbn. destruct (decide (j = k)) as [->|Hk].
  - rewrite lookup_insert_eq, (not_elem_of_list_to_map_1 l) by done.
    unfold set_gens. destruct gens; [by rewrite lookup_delete_eq|by rewrite lookup_insert_eq].
  - rewrite lookup_insert_ne by done. destruct (list_to_map l !! k) as [[|]|]; try done.
    unfold set_gens. destruct gens; [by rewrite lookup_delete_ne|by rewrite lookup_insert_ne].
Qed.

Lemma index_set_all_ok l i : index_ok i → index_ok (index_set_all l i).
Proof.
  revert i. induction l as [|r l IH]; intros i Hi; [done|]. by apply IH, index_ok_set.
Qed.

(** ** Ranges of keys *)

Lemma in_range_bounds k key range_end :
  in_range k key range_end = true ↔
  match index_bounds key range_end with
  | Some (lo, hi) => within lo hi k = true
  | None => False
  end.
Proof.
  unfold in_range, index_bounds, within. case_bool_decide; [|case_bool_decide].
  - cbn. rewrite bool_decide_eq_true, andb_true_iff, !bytes_leb_le. split; [by intros ->|].
    intros [??]. by apply (anti_symm bytes_le).
  - cbn. by rewrite andb_true_r.
  - destruct (bytes_leb range_end key) eqn:Hle; [|done].
    rewrite andb_true_iff, bytes_leb_le, bytes_ltb_lt.
    split; [|done]. intros [H1 H2]. apply bytes_leb_le in Hle.
    apply (bytes_lt_irrefl k). eapply bytes_lt_le_trans; [done|]. by etrans.
Qed.

Lemma in_range_range_bounds k key range_end :
  in_range k key range_end = true ↔
  within (range_bounds key range_end).1 (range_bounds key range_end).2 k = true.
Proof.
  unfold in_range, range_bounds, within. case_bool_decide; [|case_bool_decide].
  - cbn. rewrite bool_decide_eq_true, andb_true_iff, !bytes_leb_le. split; [by intros ->|].
    intros [??]. by apply (anti_symm bytes_le).
  - cbn. by rewrite andb_true_r.
  - done.
Qed.

Lemma index_rows_elem i key range_end k gens :
  (k, gens) ∈ index_rows i key range_end ↔
  index_map i !! k = Some gens ∧ in_range k key range_end = true.
Proof.
  rewrite in_range_bounds. unfold index_rows.
  destruct (index_bounds key range_end) as [[lo hi]|].
  - apply elem_of_map_range.
  - rewrite elem_of_nil. naive_solver.
Qed.

Lemma index_rows_sorted i key range_end : key_sorted (index_rows i key range_end).
Proof.
  unfold index_rows. destruct (index_bounds key range_end) as [[lo hi]|];
    [apply map_range_sorted|apply key_sorted_nil].
Qed.

Lemma index_contains_spec i k : index_contains i k = true ↔ idx_gens i k ≠ [] ∨
  index_map i !! k = Some [].
Proof.
  unfold index_contains, idx_gens. rewrite bool_decide_eq_true.
  destruct (index_map i !! k) as [[|g gens]|]; cbn; split; intros; try naive_solver; done.
Qed.

(** ** The live keys of an apply in progress *)

Lemma omap_fst_sorted (f : bytes → list Generation → bool) (l : list (bytes * list Generation)) :
  key_sorted l →
  let keys := omap (λ r : bytes * list Generation, if f r.1 r.2 then Some r.1 else None) l in
  StronglySorted bytes_le keys ∧ NoDup keys.
Proof.
  intros Hl keys.
  assert (keys = (omap (λ r : bytes * list Generation,
                     if f r.1 r.2 then Some (r.1, ()) else None) l).*1) as ->.
  { unfold keys. clear. induction l as [|r l IH]; cbn; [done|].
    destruct (f r.1 r.2); cbn; by rewrite IH. }
  apply key_sorted_le, key_sorted_omap; [|done].
  intros p q. destruct (f p.1 p.2); [|done]. by intros [= <-].
Qed.

Lemma live_keys_elem i c key range_end k :
  (∀ k x, idx_cache c !! k = Some x → generations x ≠ []) →
  k ∈ live_keys_in_range i c key range_end ↔
  in_range k key range_end = true ∧ gens_live (ctx_gens i c k) = true.
Proof.
  intros Hne. unfold live_keys_in_range.
  set (live k gens := match idx_cache c !! k with Some x => is_live x | None => gens_live gens end).
  set (keys := omap _ (index_rows i key range_end)).
  assert (∀ k', k' ∈ keys ↔
    in_range k' key range_end = true ∧ gens_live (ctx_gens i c k') = true ∧
    is_Some (index_map i !! k')) as Hkeys.
  { intros k'. unfold keys. rewrite list_elem_of_omap. split.
    - intros ([k0 gens] & [Hg Hr]%index_rows_elem & Hl). cbn in Hl.
      case_match eqn:Hlive; simplify_eq. split_and!; [done| |by eauto].
      unfold ctx_gens, idx_gens. rewrite Hg. by destruct (idx_cache c !! k').
    - intros (Hr & Hl & [gens Hg]). exists (k', gens).
      split; [by apply index_rows_elem|]. cbn.
      unfold ctx_gens, idx_gens in Hl. rewrite Hg in Hl.
      destruct (idx_cache c !! k'); [unfold is_live; by rewrite Hl|].
      cbn in Hl. by rewrite Hl. }
  set (extra := omap _ (map_to_list (idx_cache c))).
  assert (∀ k', k' ∈ extra ↔ ∃ x, idx_cache c !! k' = Some x ∧
    in_range k' key range_end = true ∧ is_live x = true ∧ k' ∉ keys) as Hextra.
  { intros k'. unfold extra. rewrite list_elem_of_omap. split.
    - intros ([k0 x] & Hx%elem_of_map_to_list & Hl). cbn in Hl.
      case_match eqn:Hb; [|done]. simplify_eq.
      rewrite !andb_true_iff, negb_true_iff, bool_decide_eq_false in Hb. naive_solver.
    - intros (x & Hx & Hr & Hl & Hni). exists (k', x).
      split; [by apply elem_of_map_to_list|]. cbn.
      rewrite Hr, Hl, bool_decide_false by done. done. }
  assert (k ∈ keys ++ extra ↔
          in_range k key range_end = true ∧ gens_live (ctx_gens i c k) = true) as Hboth.
  { rewrite elem_of_app, Hkeys, Hextra. split.
    - intros [?|(x & Hx & Hr & Hl & _)]; [naive_solver|]. split; [done|].
      unfold ctx_gens. by rewrite Hx.
    - intros [Hr Hl]. destruct (decide (k ∈ keys)) as [Hk|Hk]; [left; by apply Hkeys|].
      unfold ctx_gens in Hl. destruct (idx_cache c !! k) as [x|] eqn:Hx.
      + right. by exists x.
      + exfalso. apply Hk, Hkeys. unfold ctx_gens. rewrite Hx. split_and!; [done..|].
        unfold idx_gens in Hl. by destruct (index_map i !! k). }
  rewrite <- Hboth. destruct extra as [|e es] eqn:He.
  - by rewrite app_nil_r.
  - by rewrite merge_sort_Permutation.
Qed.

Lemma live_keys_sorted i c key range_end :
  StronglySorted bytes_le (live_keys_in_range i c key range_end) ∧
  NoDup (live_keys_in_range i c key range_end).
Proof.
  unfold live_keys_in_range. set (keys := omap _ (index_rows i key range_end)).
  destruct (omap_fst_sorted
    (λ k gens, match idx_cache c !! k with Some x => is_live x | None => gens_live gens end)
    _ (index_rows_sorted i key range_end)) as [Hs Hnd].
  fold keys in Hs, Hnd. set (extra := omap _ (map_to_list (idx_cache c))).
  assert (NoDup extra ∧ ∀ k, k ∈ keys → k ∉ extra) as [Hex Hdisj].
  { unfold extra. split.
    - assert (NoDup (map_to_list (idx_cache c)).*1) as Hm by apply NoDup_fst_map_to_list.
      revert Hm. generalize (map_to_list (idx_cache c)). intros l.
      induction l as [|[k x] l IH]; cbn; [constructor|]. intros [Hk Hl]%NoDup_cons.
      destruct (in_range k key range_end && _ && _); [|by apply IH].
      constructor; [|by apply IH].
      intros ([k' x'] & Hin & Hp)%list_elem_of_omap. case_match; simplify_eq/=.
      apply Hk. by apply (list_elem_of_fmap_2 fst) in Hin.
    - intros k Hk ([k' x] & _ & Hp)%list_elem_of_omap. case_match eqn:Hb; simplify_eq/=.
      rewrite !andb_true_iff, negb_true_iff, bool_decide_eq_false in Hb. naive_solver. }
  destruct extra as [|e es] eqn:He; [done|]. split.
  - apply StronglySorted_merge_sort; apply _.
  - rewrite merge_sort_Permutation. apply NoDup_app. naive_solver.
Qed.
