(* ===== verification/StoreApply.v ===== *)
(** * Applying mutations implements the specification

    [put_record], [delete_key] and the loops above them against
    [spec_mutation]: the records they write, the events they add and the
    guards that refuse a mutation.  [StoreCommit.v] goes on with the commit
    and [StoreWrite.v] with the whole of [apply]. *)

From S2P Require Import Prelude Revision Record KvStore Lease Cache Auth Store StoreCore.
From S2P Require Import StoreSpec StoreInv.

Section apply.
Context {E : Type} `{KvStoreLaws E}
  `{BincodeLaws KvRecord, BincodeLaws KeyIndex}.

(** ** Generations up to pointwise equality *)

Lemma live_rec_ext G G' ts k : G k = G' k → live_rec G ts k = live_rec G' ts k.
Proof. unfold live_rec. by intros ->. Qed.

Lemma read_rec_ext G G' ts k t : G k = G' k → read_rec G ts k t = read_rec G' ts k t.
Proof. unfold read_rec. by intros ->. Qed.

Lemma core_inv_ext G G' ts b : (∀ k, G k = G' k) → core_inv G ts b → core_inv G' ts b.
Proof.
  intros HG [Hwf Hb Hp Ht Hl]. split; intros k; rewrite <- ?HG; [apply Hwf|apply Hb|apply Hp
    |apply Ht|]. rewrite Hl. by setoid_rewrite (λ k, live_rec_ext G G' ts k (HG k)).
Qed.

(** ** The index a mutation works on *)

Lemma take_index_ok (st : Inner E) v o snap c base bound k :
  ctx_inv (index st) snap c base bound →
  ∃ from c0,
    take_index k (st_with st v o, c)
    = (Ok (mkIdx k (ctx_gens (index st) c k), from), (st_with st v o, c0)) ∧
    restore_index (mkIdx k (ctx_gens (index st) c k)) from c0 = c ∧
    batch c0 = batch c ∧ latest_record_cache c0 = latest_record_cache c ∧
    pending_events c0 = pending_events c ∧ event_marks c0 = event_marks c ∧
    ∀ x, <[k := x]> (idx_cache c0) = <[k := x]> (idx_cache c).
Proof.
  intros Hc. unfold take_index, ctx_gens.
  destruct (idx_cache c !! k) as [x|] eqn:Hx.
  - destruct (cx_key _ _ _ _ _ Hc k x Hx) as [<- _].
    exists true. eexists. split; [by destruct x|]. split_and!; try done; cbn.
    + unfold restore_index, set_idx_cache. cbn.
      destruct x as [k gens]; cbn in *. rewrite insert_delete_id by done. by destruct c.
    + intros y. by rewrite insert_delete_eq.
  - exists false, c. split; [|by split_and!]. cbn.
    unfold index_get, idx_gens. by destruct (index_map (index st) !! k).
Qed.

(** ** One event in a context *)

Lemma abs_rel_event A G ts G' ts' k rev bound now n :
  abs_rel A G ts → event_step G ts (upd G k G') ts' k rev bound now →
  G' ≠ [] → puts_of G' = n →
  abs_rel (<[k := (λ rec, (rec, n)) <$> now]> A) (upd G k G') ts'.
Proof.
  intros HA Hs Hne Hn k'. destruct (decide (k = k')) as [<-|Hk].
  - rewrite lookup_insert_eq, (es_live _ _ _ _ _ _ _ _ Hs), upd_eq.
    rewrite decide_False, decide_True by done. by rewrite Hn.
  - rewrite lookup_insert_ne, HA, (es_live _ _ _ _ _ _ _ _ Hs) by done.
    rewrite (decide_False (P := k = k')) by done. by rewrite upd_ne.
Qed.

Lemma abs_rel_ext A G G' ts : (∀ k, G k = G' k) → abs_rel A G ts → abs_rel A G' ts.
Proof.
  intros HG HA k. rewrite HA, (live_rec_ext G G' ts k (HG k)), (HG k). done.
Qed.

Lemma abs_live A G ts bound k :
  core_inv G ts bound → abs_rel A G ts → a_live A k = live_rec G ts k.
Proof.
  intros Hc HA. unfold a_live. rewrite HA. case_decide as Hnil.
  - unfold live_rec. by rewrite Hnil.
  - cbn. by destruct (live_rec G ts k).
Qed.

Lemma abs_puts A G ts bound k :
  core_inv G ts bound → abs_rel A G ts → a_puts A k = puts_of (G k).
Proof.
  intros Hc HA. unfold a_puts. rewrite HA. case_decide as Hnil; [by rewrite Hnil|].
  cbn. pose proof (live_gens_live _ _ _ k Hc) as Hl.
  destruct (live_rec G ts k); [done|]. cbn. rewrite bool_decide_false in Hl by (by intros []).
  unfold gens_live in Hl. unfold puts_of. destruct (last (G k)); [by rewrite Hl|done].
Qed.

(** The context after one event of key [k]. *)
Definition ctx_event (c : ApplyContext) (k : bytes) (ops : WriteBatch) (idx : KeyIndex)
    (rec : KvRecord) (ev : MvccEvent) : ApplyContext :=
  mkCtx (batch c ++ ops) (<[k := idx]> (idx_cache c)) (<[k := rec]> (latest_record_cache c))
    (pending_events c ++ [ev]) (event_marks c).

Lemma ctx_event_gens i c k ops idx rec ev k' :
  upd (ctx_gens i c) k (generations idx) k' = ctx_gens i (ctx_event c k ops idx rec ev) k'.
Proof.
  unfold upd, ctx_gens. cbn. destruct (decide (k = k')) as [->|];
    [by rewrite lookup_insert_eq|by rewrite lookup_insert_ne].
Qed.

Lemma ctx_event_inv i snap c base bound bound' k rev d idx rec ev b new :
  ctx_inv i snap c base bound → rev_pos rev → base < main rev →
  (∀ e, e ∈ history (ctx_gens i c k) → rev_lt e.1 rev) → idx_key idx = k → generations idx ≠ [] → serialize rec = Some b →
  history (generations idx) = history (ctx_gens i c k) ++ [(rev, d)] →
  let ops := OpPut TABLE_KV (make_kv_key k rev) b
    :: lease_ops (default 0 (rec_lease <$>
         live_rec (ctx_gens i c) (apply_batch (batch c) snap) k)) new k in
  event_step (ctx_gens i c) (apply_batch (batch c) snap)
    (upd (ctx_gens i c) k (generations idx)) (apply_batch ops (apply_batch (batch c) snap))
    k rev bound' (if is_tombstone rec then None else Some rec) →
  ctx_inv i snap (ctx_event c k ops idx rec ev) base bound'.
Proof.
  intros Hc Hpos Hbase Hfresh Hkey Hne Hb Hhist ops Hs.
  pose proof (λ k', ctx_event_gens i c k ops idx rec ev k') as HG.
  split; cbn [batch idx_cache latest_record_cache ctx_event]; rewrite ?apply_batch_app.
  - eapply core_inv_ext; [apply HG|]. apply (es_inv _ _ _ _ _ _ _ _ Hs).
  - intros k' x [[<- <-]|[_ Hx]]%lookup_insert_Some; [done|].
    by apply (cx_key _ _ _ _ _ Hc).
  - intros k'. rewrite <- (live_rec_ext _ _ _ _ (HG k')), (es_live _ _ _ _ _ _ _ _ Hs).
    destruct (decide (k = k')) as [<-|Hk].
    + rewrite !lookup_insert_eq. split; [by eexists|done].
    + rewrite !lookup_insert_ne by done. apply (cx_latest _ _ _ _ _ Hc).
  - intros k' r d' Hr. rewrite <- (cx_old _ _ _ _ _ Hc k' r d' Hr).
    pose proof Hr as Hr'. destruct (cx_hist _ _ _ _ _ Hc k') as (nw & Hh & _).
    assert ((r, d') ∈ history (ctx_gens i c k')) as Hin by (rewrite Hh; set_solver).
    eapply (event_old_row _ _ bound); eauto. apply (cx_core _ _ _ _ _ Hc).
  - intros k'. rewrite <- HG. unfold upd. case_decide as Hk.
    + subst k'. destruct (cx_hist _ _ _ _ _ Hc k) as (nw & Hh & Hnw).
      exists (nw ++ [(rev, d)]). rewrite Hhist, Hh, app_assoc. split; [done|].
      intros e [He| ->]%elem_of_snoc_iff; [by apply Hnw|done].
    + apply (cx_hist _ _ _ _ _ Hc).
  - intros op [Hop|Hop]%elem_of_app; [by apply (cx_tables _ _ _ _ _ Hc)|].
    apply elem_of_cons in Hop as [->|Hop]; [by left|right; left].
    by eapply lease_ops_table.
Qed.

(** Reads at or below the revision an apply started from see what they did. *)
Lemma ctx_read i snap c base bound b0 k t :
  ctx_inv i snap c base bound → core_inv (idx_gens i) snap b0 → t ≤ base →
  read_rec (ctx_gens i c) (apply_batch (batch c) snap) k t = read_rec (idx_gens i) snap k t.
Proof.
  intros Hc Hc0 Ht. unfold read_rec. destruct (cx_hist _ _ _ _ _ Hc k) as (nw & Hh & Hnw).
  pose proof (ci_wf _ _ _ Hc0 k) as Hwf0.
  pose proof (ci_wf _ _ _ (cx_core _ _ _ _ _ Hc) k) as Hwf1.
  assert (revision_at (ctx_gens i c k) (mkRev t i64_max)
          = revision_at (idx_gens i k) (mkRev t i64_max)) as ->.
  { rewrite !revision_at_hist by first [apply Hwf0|apply Hwf1]. rewrite Hh.
    unfold hist_at. rewrite newest_at_app.
    assert (newest_at nw (mkRev t i64_max) = None) as ->; [|done].
    apply newest_at_None. intros x Hx Hle. specialize (Hnw x Hx).
    unfold rev_le in Hle. cbn in Hle. lia. }
  destruct (revision_at (idx_gens i k) _) as [r|] eqn:Hr; [|done]. cbn.
  apply (cx_old _ _ _ _ _ Hc k r false). by apply (revision_at_elem _ (mkRev t i64_max)).
Qed.

(** ** Putting a key *)

(** The previous record, as both mutations look it up. *)
Lemma prev_record_ok (st : Inner E) v o snap c c0 base bound cur k from :
  let i := index st in
  let x := mkIdx k (ctx_gens i c k) in
  ctx_inv i snap c base bound → cache_coh v (idx_gens i) snap cur →
  latest_record_cache c0 = latest_record_cache c →
  ∃ v', (if is_live x
         then or_restore x from (let* c := xctx in xlift (latest_record_in snap c k x))
         else pret None) (st_with st v o, c0)
        = (Ok (live_rec (ctx_gens i c) (apply_batch (batch c) snap) k), (st_with st v' o, c0)) ∧
        cache_coh v' (idx_gens i) snap cur.
Proof.
  intros i x Hc Hv Hl. destruct (is_live x) eqn:Hlive.
  - destruct (latest_record_in_ok st v o i snap c c0 base bound cur k x Hc Hv Hl eq_refl Hlive)
      as (v' & Hrun & Hv').
    exists v'. split; [|done]. unfold or_restore.
    change ((let* c := xctx in xlift (latest_record_in snap c k x)) (st_with st v o, c0))
      with (xlift (latest_record_in snap c0 k x) (st_with st v o, c0)).
    unfold xlift. by rewrite Hrun.
  - exists v. split; [|done]. unfold pret.
    pose proof (live_gens_live _ _ _ k (cx_core _ _ _ _ _ Hc)) as Hlg.
    unfold is_live, x in Hlive. cbn in Hlive. rewrite Hlive in Hlg.
    symmetry in Hlg. apply bool_decide_eq_false in Hlg.
    destruct (live_rec _ _ k); [|done]. exfalso. by apply Hlg.
Qed.

(** The staging of the lease rows. *)
Lemma lease_stage_ok (st : Inner E) c old new k :
  (if old =? new then pret ()
   else
     let* _ := (if old =? 0 then pret ()
                else xmodify (λ c, set_batch (batch_delete TABLE_LEASE_KEYS
                                               (lease_key_index old k) (batch c)) c)) in
     (if new =? 0 then pret ()
      else xmodify (λ c, set_batch (batch_put TABLE_LEASE_KEYS (lease_key_index new k) []
                                     (batch c)) c))) (st, c)
  = (Ok (), (st, set_batch (batch c ++ lease_ops old new k) c)) :> (MvccResult () * _).
Proof.
  unfold lease_ops. destruct (old =? new).
  { rewrite app_nil_r. by destruct c. }
  destruct (old =? 0), (new =? 0); cbn; unfold pbind, pret, xmodify, batch_put, batch_delete;
    cbn; rewrite ?app_nil_r, <- ?app_assoc; by destruct c.
Qed.

Lemma put_record_ok (st : Inner E) v o snap c base bound cur rev key value lease iv il pk A :
  let i := index st in
  ctx_inv i snap c base bound → cache_coh v (idx_gens i) snap cur →
  rev_le bound rev → rev_pos rev → base < main rev → is_i64 lease →
  abs_rel A (ctx_gens i c) (apply_batch (batch c) snap) →
  match spec_put rev key value lease iv il pk A with
  | Err r =>
      ∃ v', put_record snap rev key value lease iv il pk (st_with st v o, c)
            = (Err (Refused r), (st_with st v' o, c)) ∧ cache_coh v' (idx_gens i) snap cur
  | Ok e =>
      ∃ v' c', put_record snap rev key value lease iv il pk (st_with st v o, c)
               = (Ok (ef_result e, true), (st_with st v' o, c')) ∧
        cache_coh v' (idx_gens i) snap cur ∧ ctx_inv i snap c' base (rev_next rev) ∧
        abs_rel (ef_abs e) (ctx_gens i c') (apply_batch (batch c') snap) ∧
        pending_events c' = pending_events c ++ ef_events e ∧ event_marks c' = event_marks c
  end.
Proof.
  intros i Hc Hv Hle Hpos Hbase Hi64 HA. unfold put_record.
  set (G := ctx_gens i c). set (vts := apply_batch (batch c) snap).
  destruct (take_index_ok st v o snap c base bound key Hc)
    as (from & c0 & Htake & Hrestore & Hb0 & Hl0 & He0 & Hm0 & Hins).
  rewrite (pbind_run _ _ _ _ _ Htake). fold i G in Htake, Hrestore |- *.
  pose proof (cx_core _ _ _ _ _ Hc) as Hcore. fold G vts in Hcore.
  destruct (prev_record_ok st v o snap c c0 base bound cur key from Hc Hv Hl0)
    as (v' & Hprev & Hv').
  rewrite (pbind_run _ _ _ _ _ Hprev). fold i G vts.
  unfold spec_put. rewrite (abs_live A G vts bound key Hcore HA).
  destruct ((iv || il) && bool_decide (live_rec G vts key = None)) eqn:Href.
  { exists v'. split; [|done]. unfold pbind, xmodify, pfail. by rewrite Hrestore. }
  set (eff_value := if iv then _ else value). set (eff_lease := if il then _ else lease).
  assert (is_i64 eff_lease) as Hi64'.
  { unfold eff_lease. destruct il; [|done].
    destruct (live_rec G vts key) as [p|] eqn:Hp; [|done].
    destruct (live_rec_inv _ _ _ _ _ Hcore Hp) as (? & ? & _ & _ & _ & _ & Hok). apply Hok. }
  destruct (record_put (mkIdx key (G key)) rev) as [idx [ver cr]] eqn:Hput.
  set (rec := mkKv key eff_value (main cr) (main rev) ver eff_lease false).
  destruct (serialize_ok rec) as [b Hb].
  assert (∀ e, e ∈ history (G key) → rev_lt e.1 rev) as Hfresh.
  { intros e He. eapply rev_lt_le_trans; [by eapply (ci_bound _ _ _ Hcore)|done]. }
  assert (rev_le bound (rev_next rev)) as Hle' by (etrans; [done|apply rev_lt_le, rev_lt_next]).
  destruct (core_put G vts bound (rev_next rev) key rev idx ver cr eff_value eff_lease b Hcore
              (rev_lt_next _) Hle' Hpos Hfresh Hi64' Hput Hb) as [Hstep Hcr].
  destruct (record_put_puts _ _ _ _ _ _ Hput) as [Hver Hputs].
  destruct (record_put_gens _ _ _ _ _ _ Hput) as (_ & Hkey & Hne & _ & _).
  destruct (record_put_spec (mkIdx key (G key)) rev idx ver cr)
    as (_ & Hhist & _); [apply Hcore|done..|].
  set (ops := OpPut TABLE_KV (make_kv_key key rev) b
    :: lease_ops (default 0 (rec_lease <$> live_rec G vts key)) eff_lease key) in *.
  set (ev := mkEvent EvPut rec (live_rec G vts key)).
  exists v', (ctx_event c key ops idx rec ev).
  assert (mkKv key eff_value (default (main rev) (create_revision <$> live_rec G vts key))
            (main rev) (a_puts A key + 1) eff_lease false = rec) as Hrec.
  { unfold rec. rewrite (abs_puts A G vts bound key Hcore HA), <- Hver. f_equal.
    destruct (live_rec G vts key); cbn; [done|]. by destruct Hcr as [_ ->]. }
  rewrite Hrec. split_and!.
  - unfold or_restore, plift. rewrite Hb. cbn [ok_or]. unfold pbind at 1.
    unfold pbind at 1. unfold xmodify at 1.
    rewrite (pbind_run _ _ _ _ _ (lease_stage_ok _ _ _ _ _)).
    unfold pbind, xmodify, pret, push_event. cbn.
    unfold set_batch, set_idx_cache, set_latest_record_cache, set_pending_events, ctx_event, ops.
    cbn. unfold batch_put. rewrite Hb0, Hl0, He0, Hm0, Hins, <- app_assoc. done.
  - done.
  - by eapply (ctx_event_inv i snap c base bound (rev_next rev) key rev false).
  - cbn [batch ctx_event]. rewrite apply_batch_app.
    apply (abs_rel_ext _ (upd G key (generations idx))); [apply ctx_event_gens|].
    rewrite (abs_puts A G vts bound key Hcore HA), <- Hver.
    by apply (abs_rel_event A G vts (generations idx) _ key rev (rev_next rev) (Some rec) ver).
  - done.
  - done.
Qed.

(** ** Deleting keys *)

Lemma lease_ops_drop old k :
  lease_ops old 0 k =
  if old =? 0 then [] else [OpDelete TABLE_LEASE_KEYS (lease_key_index old k)].
Proof. unfold lease_ops. by destruct (old =? 0). Qed.

Lemma delete_key_ok (st : Inner E) v o snap c base bound bound' cur rev k pk r p A :
  let i := index st in
  ctx_inv i snap c base bound → cache_coh v (idx_gens i) snap cur →
  rev_lt rev bound' → rev_le bound bound' → rev_pos rev → base < main rev →
  (∀ e, e ∈ history (ctx_gens i c k) → rev_lt e.1 rev) →
  abs_rel A (ctx_gens i c) (apply_batch (batch c) snap) → a_live A k = Some p →
  ∃ v' c',
    delete_key snap rev k pk r (st_with st v o, c)
    = (Ok (mkMutationResult (mr_n r + 1) (mr_prev_kvs r ++ if pk then [p] else [])),
       (st_with st v' o, c')) ∧
    cache_coh v' (idx_gens i) snap cur ∧ ctx_inv i snap c' base bound' ∧
    abs_rel (<[k := None]> A) (ctx_gens i c') (apply_batch (batch c') snap) ∧
    pending_events c' = pending_events c ++ [mkEvent EvDelete (tomb_rec k rev) (Some p)] ∧
    event_marks c' = event_marks c ∧
    (∀ k', k ≠ k' → ctx_gens i c' k' = ctx_gens i c k').
Proof.
  intros i Hc Hv Hlt Hle Hpos Hbase Hfresh HA Hp. unfold delete_key.
  set (G := ctx_gens i c) in *. set (vts := apply_batch (batch c) snap).
  destruct (take_index_ok st v o snap c base bound k Hc)
    as (from & c0 & Htake & Hrestore & Hb0 & Hl0 & He0 & Hm0 & Hins).
  rewrite (pbind_run _ _ _ _ _ Htake). fold i G in Htake, Hrestore |- *.
  pose proof (cx_core _ _ _ _ _ Hc) as Hcore. fold G vts in Hcore.
  destruct (prev_record_ok st v o snap c c0 base bound cur k from Hc Hv Hl0)
    as (v' & Hprev & Hv').
  rewrite (pbind_run _ _ _ _ _ Hprev). fold i G vts.
  assert (live_rec G vts k = Some p) as Hlive by by rewrite <- (abs_live A G vts bound k).
  destruct (record_delete (mkIdx k (G k)) rev) as [idx closed] eqn:Hdel.
  destruct (record_delete_spec (mkIdx k (G k)) rev idx closed)
    as (Hclosed & Hwf & Hkey & Hh); [apply Hcore|done..|].
  assert (closed = true) as ->.
  { rewrite Hclosed. unfold is_live. cbn. rewrite (live_gens_live _ _ _ k Hcore), Hlive. done. }
  destruct Hh as [Hhist _]. cbn [negb].
  destruct (serialize_ok (tomb_rec k rev)) as [b Hb].
  pose proof (core_delete G vts bound bound' k rev idx b Hcore Hlt Hle Hpos Hfresh Hdel Hb)
    as Hstep.
  destruct (record_delete_gens _ _ _ _ Hdel) as (_ & Hne & _ & _).
  set (ops := OpPut TABLE_KV (make_kv_key k rev) b
    :: lease_ops (default 0 (rec_lease <$> live_rec G vts k)) 0 k) in *.
  set (ev := mkEvent EvDelete (tomb_rec k rev) (Some p)).
  exists v', (ctx_event c k ops idx (tomb_rec k rev) ev). split_and!.
  - unfold or_restore, plift. unfold tomb_rec in Hb. rewrite Hb. cbn [ok_or].
    unfold pbind, xmodify, ops. rewrite Hlive.
    change (default 0 (rec_lease <$> Some p)) with (rec_lease p). rewrite lease_ops_drop.
    destruct (rec_lease p =? 0); cbn;
      unfold pret, set_batch, set_idx_cache, set_latest_record_cache, push_event,
        set_pending_events, ctx_event, batch_put, batch_delete; cbn;
      rewrite Hb0, Hl0, He0, Hm0, Hins, <- ?app_assoc; by destruct pk.
  - done.
  - by eapply (ctx_event_inv i snap c base bound bound' k rev true).
  - cbn [batch ctx_event]. rewrite apply_batch_app.
    apply (abs_rel_ext _ (upd G k (generations idx))); [apply ctx_event_gens|].
    by apply (abs_rel_event A G vts (generations idx) _ k rev bound' None
                (puts_of (generations idx))).
  - done.
  - done.
  - intros k' Hk'. rewrite <- ctx_event_gens. by apply upd_ne.
Qed.

Lemma ctx_inv_weaken i snap c base b1 b2 :
  ctx_inv i snap c base b1 → rev_le b1 b2 → ctx_inv i snap c base b2.
Proof. intros [Hc] Hle. split; try done. by eapply core_weaken. Qed.

Lemma delete_keys_ok (st : Inner E) v o snap c base bound bound' cur rev pk vs r A :
  let i := index st in
  ctx_inv i snap c base bound → cache_coh v (idx_gens i) snap cur →
  rev_lt rev bound' → rev_le bound bound' → rev_pos rev → base < main rev →
  NoDup vs.*1 →
  (∀ k p, (k, p) ∈ vs → a_live A k = Some p ∧
     ∀ e, e ∈ history (ctx_gens i c k) → rev_lt e.1 rev) →
  abs_rel A (ctx_gens i c) (apply_batch (batch c) snap) →
  ∃ v' c',
    delete_keys snap rev vs.*1 pk r (st_with st v o, c)
    = (Ok (mkMutationResult (mr_n r + Z.of_nat (length vs))
             (mr_prev_kvs r ++ if pk then vs.*2 else [])), (st_with st v' o, c')) ∧
    cache_coh v' (idx_gens i) snap cur ∧ ctx_inv i snap c' base bound' ∧
    abs_rel (foldl (λ A p, <[p.1 := None]> A) A vs) (ctx_gens i c')
      (apply_batch (batch c') snap) ∧
    pending_events c' = pending_events c
      ++ ((λ p, mkEvent EvDelete (tomb_rec p.1 rev) (Some p.2)) <$> vs) ∧
    event_marks c' = event_marks c ∧ (vs = [] → c' = c).
Proof.
  intros i. revert v c bound r A.
  induction vs as [|[k p] vs IH]; intros v c bound r A Hc Hv Hlt Hle Hpos Hbase Hnd Hvs HA.
  - exists v, c. cbn [fmap list_fmap delete_keys length foldl]. split_and!; try done.
    + rewrite Z.add_0_r. destruct pk; rewrite app_nil_r; by destruct r.
    + by eapply ctx_inv_weaken.
    + by rewrite app_nil_r.
  - cbn [fmap list_fmap fst snd delete_keys foldl]. apply NoDup_cons in Hnd as [Hk Hnd].
    destruct (Hvs k p) as [Hp Hfresh]; [by left|].
    destruct (delete_key_ok st v o snap c base bound bound' cur rev k pk r p A
                Hc Hv Hlt Hle Hpos Hbase Hfresh HA Hp)
      as (v1 & c1 & Hrun & Hv1 & Hc1 & HA1 & Hev1 & Hm1 & Hsame).
    rewrite (pbind_run _ _ _ _ _ Hrun).
    edestruct (IH v1 c1 bound') as (v' & c' & Hrun' & Hv' & Hc' & HA' & Hev' & Hm' & _);
      [exact Hc1|exact Hv1|exact Hlt|done|done|done|done| |exact HA1|].
    { intros k' p' Hin. destruct (Hvs k' p') as [Hp' Hf']; [by right|].
      assert (k ≠ k') as Hne.
      { intros <-. apply Hk. by apply (list_elem_of_fmap_2 fst _ (k, p')). }
      split; [|by rewrite Hsame]. unfold a_live. by rewrite lookup_insert_ne. }
    exists v', c'. rewrite Hrun'. split_and!; try done.
    + cbn [mr_n mr_prev_kvs length]. do 3 f_equal; [lia|].
      destruct pk; rewrite <- app_assoc; done.
    + rewrite Hev', Hev1, <- app_assoc. done.
    + by rewrite Hm'.
Qed.

(** The keys [DeleteRange] walks are the abstract range's. *)
Lemma a_range_sorted A key range_end : key_sorted (a_range A key range_end).
Proof.
  apply key_sorted_omap; [|apply sorted_entries_sorted].
  intros p q. destruct (in_range _ _ _); [|done]. destruct p.2; [|done]. by intros [= <-].
Qed.

Lemma a_range_elem A key range_end k p :
  (k, p) ∈ a_range A key range_end ↔ in_range k key range_end = true ∧ a_live A k = Some p.
Proof.
  unfold a_range, a_live. rewrite list_elem_of_omap. split.
  - intros ([k' l] & Hin%elem_of_sorted_entries & Hl). cbn in Hl.
    destruct (in_range k' key range_end) eqn:Hr; [|done]. destruct l as [l|]; [|done].
    cbn in Hl. simplify_eq. by rewrite Hin.
  - intros [Hr Hl]. destruct (A !! k) as [l|] eqn:Hk; [|done].
    exists (k, l). split; [by apply elem_of_sorted_entries|]. cbn in *. rewrite Hr.
    destruct l; [|done]. by simplify_eq/=.
Qed.

Lemma live_keys_range i snap c base bound A key range_end :
  ctx_inv i snap c base bound →
  abs_rel A (ctx_gens i c) (apply_batch (batch c) snap) →
  live_keys_in_range i c key range_end = (a_range A key range_end).*1.
Proof.
  intros Hc HA. destruct (live_keys_sorted i c key range_end) as [Hs Hnd].
  destruct (key_sorted_le _ (a_range_sorted A key range_end)) as [Hs' Hnd'].
  apply sorted_keys_ext; try done. intros k.
  rewrite live_keys_elem by (intros; by eapply (cx_key _ _ _ _ _ Hc)).
  pose proof (cx_core _ _ _ _ _ Hc) as Hcore.
  rewrite (live_gens_live _ _ _ k Hcore), <- (abs_live A _ _ bound k Hcore HA).
  rewrite bool_decide_eq_true, list_elem_of_fmap. split.
  - intros [Hr [p Hp]]. exists (k, p). split; [done|]. by apply a_range_elem.
  - intros ([k' p] & -> & [Hr Hp]%a_range_elem). cbn. eauto.
Qed.

(** ** One mutation, and several at one revision *)

Definition mutation_wf (m : Mutation) : Prop :=
  match m with Put _ _ lease _ _ _ => is_i64 lease | DeleteRange _ _ _ => True end.

(** Does an effect change anything. *)
Definition produces (e : Effect) : bool := 0 <? mr_n (ef_result e).

Lemma apply_one_ok (st : Inner E) v o snap c base bound cur rev m A :
  let i := index st in
  ctx_inv i snap c base bound → cache_coh v (idx_gens i) snap cur →
  rev_le bound rev → rev_pos rev → base < main rev → mutation_wf m →
  abs_rel A (ctx_gens i c) (apply_batch (batch c) snap) →
  match spec_mutation rev m A with
  | Err r =>
      ∃ v', apply_one snap rev m (st_with st v o, c)
            = (Err (Refused r), (st_with st v' o, c)) ∧ cache_coh v' (idx_gens i) snap cur
  | Ok e =>
      ∃ v' o' c', apply_one snap rev m (st_with st v o, c)
               = (Ok (ef_result e, produces e), (st_with st v' o', c')) ∧
        cache_coh v' (idx_gens i) snap cur ∧ ctx_inv i snap c' base (rev_next rev) ∧
        abs_rel (ef_abs e) (ctx_gens i c') (apply_batch (batch c') snap) ∧
        pending_events c' = pending_events c ++ ef_events e ∧ event_marks c' = event_marks c ∧
        (produces e = false → c' = c)
  end.
Proof.
  intros i Hc Hv Hle Hpos Hbase Hm HA. unfold apply_one.
  destruct m as [key value lease iv il pk|key range_end pk]; cbn [apply_one_uncounted spec_mutation].
  - pose proof (put_record_ok st v o snap c base bound cur rev key value lease iv il pk A
                  Hc Hv Hle Hpos Hbase Hm HA) as Hput.
    unfold spec_put in *. destruct (_ && _).
    + destruct Hput as (v' & Hrun & Hv'). exists v'. split; [|done].
      by apply pbind_fail.
    + destruct Hput as (v' & c' & Hrun & Hv' & Hc' & HA' & Hev & Hmk). exists v'. do 2 eexists.
      rewrite (pbind_run _ _ _ _ _ Hrun). by split_and!.
  - assert (rev_le bound (rev_next rev)) as Hle'
      by (etrans; [done|apply rev_lt_le, rev_lt_next]).
    destruct (delete_keys_ok st v o snap c base bound (rev_next rev) cur rev pk
                (a_range A key range_end) MutationResult_default A)
      as (v' & c' & Hrun & Hv' & Hc' & HA' & Hev & Hmk & Hnil); try done.
    { apply rev_lt_next. }
    { apply key_sorted_NoDup, a_range_sorted. }
    { intros k p [_ Hp]%a_range_elem. split; [done|]. intros e He.
      eapply rev_lt_le_trans; [by eapply (ci_bound _ _ _ (cx_core _ _ _ _ _ Hc))|done]. }
    exists v'. do 2 eexists. split_and!; [|done..|].
    2:{ unfold produces, spec_delete. cbn. intros Hp. apply Hnil.
        by destruct (a_range A key range_end). }
    unfold pbind at 1 2. unfold pbind at 1.
    cbn [index st_with set_ops set_values]. fold i.
    by rewrite (live_keys_range i snap c base bound A key range_end Hc HA), Hrun.
Qed.

Definition any_produced (rs : list MutationResult) : bool := existsb (λ r, 0 <? mr_n r) rs.

Lemma apply_loop_ok (st : Inner E) snap base cur main ms :
  let i := index st in
  0 < main ≤ i64_max → base < main → Forall mutation_wf ms →
  ∀ v o c bound sub rs0 p0 A,
  0 ≤ sub → sub + Z.of_nat (length ms) ≤ i64_max →
  ctx_inv i snap c base bound → cache_coh v (idx_gens i) snap cur →
  rev_le bound (mkRev main sub) →
  abs_rel A (ctx_gens i c) (apply_batch (batch c) snap) →
  match spec_mutations main sub ms A with
  | Err r =>
      ∃ v' o' c', apply_loop snap main sub ms rs0 p0 (st_with st v o, c)
            = (Err (Refused r), (st_with st v' o', c')) ∧ cache_coh v' (idx_gens i) snap cur ∧
            (length ms = 1%nat → c' = c)
  | Ok (A', rs, evs) =>
      ∃ v' o' c', apply_loop snap main sub ms rs0 p0 (st_with st v o, c)
        = (Ok (rs0 ++ rs, p0 || any_produced rs), (st_with st v' o', c')) ∧
        cache_coh v' (idx_gens i) snap cur ∧
        ctx_inv i snap c' base (mkRev main (sub + Z.of_nat (length ms))) ∧
        abs_rel A' (ctx_gens i c') (apply_batch (batch c') snap) ∧
        pending_events c' = pending_events c ++ evs ∧ event_marks c' = event_marks c ∧
        (any_produced rs = false → c' = c)
  end.
Proof.
  intros i Hmain Hbase Hms. induction Hms as [|m ms Hm Hms IH];
    intros v o c bound sub rs0 p0 A Hsub Hlen Hc Hv Hle HA.
  { cbn [spec_mutations apply_loop]. exists v, o, c. unfold pret. cbn [any_produced existsb].
    rewrite !app_nil_r, orb_false_r, Z.add_0_r. split_and!; try done.
    by eapply ctx_inv_weaken. }
  cbn [spec_mutations apply_loop length] in *.
  assert (rev_pos (mkRev main sub)) as Hpos by (unfold rev_pos; cbn; lia).
  pose proof (apply_one_ok st v o snap c base bound cur (mkRev main sub) m A
                Hc Hv Hle Hpos Hbase Hm HA) as Hone.
  destruct (spec_mutation (mkRev main sub) m A) as [e|r]; cbn [res_bind].
  2:{ destruct Hone as (v' & Hrun & Hv'). exists v', o, c. split_and!; try done.
      by apply pbind_fail. }
  destruct Hone as (v1 & o1 & c1 & Hrun & Hv1 & Hc1 & HA1 & Hev1 & Hm1 & Hs1).
  rewrite (pbind_run _ _ _ _ _ Hrun).
  specialize (IH v1 o1 c1 (rev_next (mkRev main sub)) (sub + 1) (rs0 ++ [ef_result e])
                (p0 || produces e) (ef_abs e) ltac:(lia) ltac:(lia) Hc1 Hv1 (reflexivity _) HA1).
  destruct (spec_mutations main (sub + 1) ms (ef_abs e)) as [[[A' rs] evs]|r]; cbn [res_bind].
  - destruct IH as (v' & o' & c' & Hrun' & Hv' & Hc' & HA' & Hev' & Hm' & Hs').
    exists v', o', c'. rewrite Hrun'. split_and!; try done.
    + cbn [any_produced existsb]. unfold produces. rewrite <- app_assoc, orb_assoc. done.
    + replace (sub + Z.of_nat (S (length ms))) with (sub + 1 + Z.of_nat (length ms)) by lia.
      done.
    + by rewrite Hev', Hev1, app_assoc.
    + by rewrite Hm'.
    + cbn [any_produced existsb]. intros [Hp1 Hp2]%orb_false_iff. by rewrite Hs', Hs1.
  - destruct IH as (v' & o' & c' & Hrun' & Hv' & Hc'). exists v', o', c'. split_and!; try done.
    intros [= Hnil]. destruct ms; [|done]. cbn in Hrun'. done.
Qed.
End apply.
