(* ===== verification/StoreCommit.v ===== *)
(** * Committing a context

    [commit_ctx] turns the state a context describes into the store's own:
    one batch to the engine with the indexes, the revision and the staged
    raft metadata, and only then the caches, the index and the revisions
    readers see. *)

From S2P Require Import Prelude Revision Record KvStore Lease Cache Auth Store StoreCore.
From S2P Require Import StoreSpec StoreInv StoreApply.

Section commit.
Context {E : Type} `{KvStoreLaws E}
  `{BincodeLaws KvRecord, BincodeLaws KeyIndex}.

(** ** The batch *)

(** The index rows a commit writes. *)
Definition index_ops (l : list (bytes * KeyIndex)) : WriteBatch :=
  omap (λ r : bytes * KeyIndex, OpPut TABLE_IDX r.1 <$> serialize r.2) l.

Lemma put_indexes_ok l b : put_indexes l b = Ok (b ++ index_ops l).
Proof.
  revert b. induction l as [|[k x] l IH]; intros b; cbn; [by rewrite app_nil_r|].
  destruct (serialize_ok x) as [v Hv]. rewrite Hv. cbn. rewrite IH.
  unfold batch_put. by rewrite <- app_assoc.
Qed.

Lemma index_ops_table l op : op ∈ index_ops l → op_table op = TABLE_IDX.
Proof.
  intros ([k x] & _ & Hop)%list_elem_of_omap. cbn in Hop.
  destruct (serialize x); [|done]. by simplify_eq/=.
Qed.

Lemma index_ops_lookup (l : list (bytes * KeyIndex)) ts k :
  NoDup l.*1 →
  apply_batch (index_ops l) ts !! (TABLE_IDX, k) =
  match (list_to_map l : gmap bytes KeyIndex) !! k with
  | Some x => serialize x
  | None => ts !! (TABLE_IDX, k)
  end.
Proof.
  revert ts. induction l as [|[j x] l IH]; intros ts Hnd; [done|].
  cbn [fmap list_fmap fst] in Hnd. apply NoDup_cons in Hnd as [Hj Hnd].
  unfold index_ops. cbn [omap list_omap]. destruct (serialize_ok x) as [v Hv]. cbn.
  rewrite Hv. cbn. fold (index_ops l).
  change (foldl _ ?t (index_ops l)) with (apply_batch (index_ops l) t).
  change (<[(TABLE_IDX, j):=v]> ts) with (apply_op (OpPut TABLE_IDX j v) ts).
  rewrite IH, apply_op_lookup by done. destruct (decide (j = k)) as [->|Hne].
  - rewrite decide_True by done. rewrite lookup_insert_eq, Hv.
    by rewrite (not_elem_of_list_to_map_1 l).
  - rewrite decide_False by naive_solver. by rewrite lookup_insert_ne.
Qed.

(** Everything [commit_ctx] writes. *)
Definition commit_batch (st : Inner E) (new_rev : Z) (c : ApplyContext) : WriteBatch :=
  batch c ++ index_ops (map_to_list (idx_cache c))
    ++ OpPut TABLE_META META_KEY_CURRENT_REV (i64_to_be_bytes new_rev)
    :: put_rows TABLE_META (pending_raft_meta st).

(** The store after the commit. *)
Definition committed (st : Inner E) (e : E) (new_rev : Z) (c : ApplyContext) : Inner E :=
  mkInner e (set_current_rev new_rev (write_state st))
    (view_publish (mkRevs new_rev (compact_rev (write_state st))) (view_committed (view st)))
    (sent st ++ event_batches new_rev c) [] (batched st) (cluster_id st) (auth st)
    (lease_applied st) (ops st) (apply_sync st) (index_commit c (index st))
    (cache_commit c (values st)).

(** A row of [mvcc_meta] once the staged rows are written. *)
Definition staged_meta (rows : list (bytes * bytes)) (ts : Tables) (k : bytes) : option bytes :=
  apply_batch (put_rows TABLE_META rows) ts !! (TABLE_META, k).

Lemma fold_raft_meta_run (st : Inner E) b :
  ∃ any, fold_raft_meta b st
    = (Ok (b ++ put_rows TABLE_META (pending_raft_meta st), any), set_pending_raft_meta [] st)
      ∧ any = negb (bool_decide (pending_raft_meta st = [])).
Proof.
  unfold fold_raft_meta. destruct (pending_raft_meta st) eqn:Hp.
  - exists false. cbn. rewrite app_nil_r. split; [|done].
    assert (set_pending_raft_meta [] st = st) as ->; [|done].
    rewrite <- Hp. by destruct st.
  - by eexists.
Qed.

Lemma commit_ctx_run (st : Inner E) new_rev c :
  commit_ctx new_rev c st =
  match commit (commit_batch st new_rev c) (apply_write_options st) (engine st) with
  | (Ok _, e) => (Ok (), committed st e new_rev c)
  | (Err x, e) => (Err (Storage x), set_engine e (set_pending_raft_meta [] st))
  end.
Proof.
  unfold commit_ctx. unfold plift at 1. rewrite put_indexes_ok. unfold pbind at 1.
  destruct (fold_raft_meta_run st
    (write_i64 META_KEY_CURRENT_REV new_rev (batch c ++ index_ops (map_to_list (idx_cache c)))))
    as (any & Hf & _).
  rewrite (pbind_run _ _ _ _ _ Hf). unfold pget. unfold pbind at 1.
  unfold write_i64, batch_put. rewrite <- !app_assoc. cbn [app].
  fold (commit_batch st new_rev c). unfold engine_commit. unfold pbind at 1.
  cbn [engine set_pending_raft_meta].
  change (apply_write_options (set_pending_raft_meta [] st)) with (apply_write_options st).
  by destruct (commit _ _ (engine st)) as [[[]|x] e].
Qed.

(** ** The index *)

Lemma index_commit_set_all c i :
  index_commit c i
  = index_set_all (prod_map id generations <$> map_to_list (idx_cache c)) i.
Proof.
  unfold index_commit, index_set_all. generalize (map_to_list (idx_cache c)). intros l.
  revert i. induction l as [|[k x] l IH]; intros i; [done|]. cbn. apply IH.
Qed.

Lemma index_commit_map i snap c base bound k :
  ctx_inv i snap c base bound →
  index_map (index_commit c i) !! k =
  match idx_cache c !! k with Some x => Some (generations x) | None => index_map i !! k end.
Proof.
  intros Hc. rewrite index_commit_set_all, index_set_all_map.
  - rewrite list_to_map_fmap, list_to_map_to_list, lookup_fmap.
    destruct (idx_cache c !! k) as [x|] eqn:Hx; [|done]. cbn.
    destruct (cx_key _ _ _ _ _ Hc k x Hx) as [_ Hne]. by destruct (generations x).
  - rewrite <- list_fmap_compose. apply NoDup_fst_map_to_list.
Qed.

Lemma index_commit_gens i snap c base bound k :
  ctx_inv i snap c base bound → idx_gens (index_commit c i) k = ctx_gens i c k.
Proof.
  intros Hc. unfold idx_gens, ctx_gens. rewrite (index_commit_map i snap c base bound) by done.
  by destruct (idx_cache c !! k).
Qed.

Lemma index_commit_ok c i : index_ok i → index_ok (index_commit c i).
Proof. rewrite index_commit_set_all. apply index_set_all_ok. Qed.

(** ** The value cache *)

Lemma cache_commit_all P c v :
  cache_all P v →
  (∀ k x rec rev n, idx_cache c !! k = Some x → latest_record_cache c !! k = Some rec →
     current x = Some (rev, n) → is_tombstone rec = false → P k rev rec) →
  cache_all P (cache_commit c v).
Proof.
  intros Hv HP. unfold cache_commit.
  assert (∀ l : list (bytes * KvRecord),
    (∀ k rec, (k, rec) ∈ l → latest_record_cache c !! k = Some rec) → ∀ v, cache_all P v →
    cache_all P (foldl (λ v '(key, rec),
      match idx_cache c !! key ≫= current with
      | Some (rev, _) => if is_tombstone rec then cache_remove key v
                         else cache_insert key rev rec false v
      | None => cache_remove key v
      end) v l)) as Hl.
  { induction l as [|[k rec] l IH]; intros Hin v' Hv'; [done|]. cbn [foldl].
    apply IH; [intros; apply Hin; by right|].
    assert (latest_record_cache c !! k = Some rec) as Hrec by (apply Hin; by left).
    destruct (idx_cache c !! k) as [x|] eqn:Hx; cbn; [|by apply cache_all_remove].
    destruct (current x) as [[rev n]|] eqn:Hcur; [|by apply cache_all_remove].
    destruct (is_tombstone rec) eqn:Ht; [by apply cache_all_remove|].
    apply cache_all_insert; [done|]. by eapply HP. }
  apply Hl; [|done]. by intros k rec ?%elem_of_map_to_list.
Qed.

(** ** What the tables hold after the commit *)

Section after.
Context (st : Inner E) (new_rev : Z) (c : ApplyContext) (bound : Revision).
Let snap := contents (engine st).
Let cur := current_rev (write_state st).
Context (Hst : store_inv st).
Context (Hc : ctx_inv (index st) snap c cur bound).
Context (Hbound : rev_le bound (mkRev (new_rev + 1) 0)).
Context (Hnew : cur < new_rev ≤ i64_max).

Let ts' := apply_batch (commit_batch st new_rev c) snap.

(** Tables the context's own batch names. *)
Lemma commit_data t k :
  t ≠ TABLE_IDX → t ≠ TABLE_META → ts' !! (t, k) = apply_batch (batch c) snap !! (t, k).
Proof.
  intros Hi Hm. unfold ts', commit_batch. rewrite apply_batch_app, apply_batch_other; [done|].
  intros op [Hop%index_ops_table|[->|Hop%put_rows_table]%elem_of_cons]%elem_of_app; cbn;
    congruence.
Qed.

Lemma commit_idx k :
  ts' !! (TABLE_IDX, k) =
  match idx_cache c !! k with Some x => serialize x | None => snap !! (TABLE_IDX, k) end.
Proof.
  unfold ts', commit_batch. rewrite !apply_batch_app, apply_batch_other.
  2:{ intros op [->|Hop%put_rows_table]%elem_of_cons; cbn; [done|by rewrite Hop]. }
  rewrite index_ops_lookup by apply NoDup_fst_map_to_list. rewrite list_to_map_to_list.
  destruct (idx_cache c !! k); [done|]. apply apply_batch_other.
  intros op [Ht|[Ht|Ht]]%(cx_tables _ _ _ _ _ Hc); by rewrite Ht.
Qed.

Lemma commit_meta k :
  k ≠ META_KEY_CURRENT_REV → (∀ r, r ∈ pending_raft_meta st → r.1 ≠ k) →
  ts' !! (TABLE_META, k) = snap !! (TABLE_META, k).
Proof.
  intros Hk Hp. unfold ts', commit_batch. rewrite !apply_batch_app.
  change (apply_batch (?op :: ?b) ?t) with (apply_batch b (apply_op op t)).
  rewrite put_rows_skip by done. rewrite apply_op_lookup, decide_False by naive_solver.
  rewrite apply_batch_other by (by intros op ->%index_ops_table).
  apply apply_batch_other. intros op [Ht|[Ht|Ht]]%(cx_tables _ _ _ _ _ Hc); by rewrite Ht.
Qed.

(** The staged metadata is part of the commit. *)
Lemma commit_meta_rows k :
  k ≠ META_KEY_CURRENT_REV →
  ts' !! (TABLE_META, k) = staged_meta (pending_raft_meta st) snap k.
Proof.
  intros Hk. unfold ts', commit_batch, staged_meta. rewrite !apply_batch_app.
  change (apply_batch (?op :: ?b) ?t) with (apply_batch b (apply_op op t)).
  apply put_rows_ext. rewrite apply_op_lookup, decide_False by naive_solver.
  rewrite apply_batch_other by (by intros op ->%index_ops_table).
  apply apply_batch_other. intros op [Ht|[Ht|Ht]]%(cx_tables _ _ _ _ _ Hc); by rewrite Ht.
Qed.

Lemma commit_current : read_i64 ts' META_KEY_CURRENT_REV = Some new_rev.
Proof.
  unfold read_i64, snap_get, ts', commit_batch. rewrite !apply_batch_app.
  change (apply_batch (?op :: ?b) ?t) with (apply_batch b (apply_op op t)).
  rewrite put_rows_skip by (intros r Hr; apply (si_pending _ Hst r Hr)).
  rewrite apply_op_lookup, decide_True by done.
  rewrite length_i64_to_be_bytes. cbn [Nat.eqb].
  rewrite i64_from_to_be_bytes; [done|].
  pose proof (si_revs _ Hst). pose proof Hnew as Hn. unfold cur in Hn. ints.
Qed.

Lemma commit_kv k r : kv_row ts' k r = kv_row (apply_batch (batch c) snap) k r.
Proof. unfold kv_row. by rewrite commit_data. Qed.

Lemma commit_live G k : live_rec G ts' k = live_rec G (apply_batch (batch c) snap) k.
Proof. unfold live_rec. destruct (current_of (G k)); [|done]. apply commit_kv. Qed.

Lemma commit_core : core_inv (ctx_gens (index st) c) ts' (mkRev (new_rev + 1) 0).
Proof.
  apply (core_weaken _ _ bound); [|done]. destruct (cx_core _ _ _ _ _ Hc) as [Hwf Hb Hp Ht Hl].
  split; try done.
  - intros k g r Hg Hr. rewrite commit_kv. by apply Hp.
  - intros k g t Hg Hr. rewrite commit_kv. by eapply Ht.
  - intros rk. rewrite commit_data by done. setoid_rewrite commit_live. apply Hl.
Qed.

(** Entries of the value cache stay right: old ones are about old revisions. *)
Lemma commit_entry k r rec :
  entry_ok (idx_gens (index st)) snap cur k r rec →
  entry_ok (ctx_gens (index st) c) ts' new_rev k r rec.
Proof.
  intros [Hr Hrow]. split; [lia|]. intros d Hd.
  destruct (cx_hist _ _ _ _ _ Hc k) as (nw & Hh & Hnw). rewrite Hh in Hd.
  apply elem_of_app in Hd as [Hd|Hd];
    [|assert (cur < main r) by exact (Hnw _ Hd); lia].
  destruct (Hrow d Hd) as [-> Hk]. split; [done|].
  by rewrite commit_kv, (cx_old _ _ _ _ _ Hc k r false Hd).
Qed.

Lemma commit_new_entry k x rec rev n :
  idx_cache c !! k = Some x → latest_record_cache c !! k = Some rec →
  current x = Some (rev, n) → is_tombstone rec = false →
  entry_ok (ctx_gens (index st) c) ts' new_rev k rev rec.
Proof.
  intros Hx Hrec Hcur Ht.
  pose proof (cx_latest _ _ _ _ _ Hc k) as Hl. rewrite Hrec, Ht in Hl. destruct Hl as [_ Hl].
  assert (current_of (ctx_gens (index st) c k) = Some rev) as Hco.
  { unfold ctx_gens. rewrite Hx, <- current_current_of, Hcur. done. }
  pose proof (cx_core _ _ _ _ _ Hc) as Hcore.
  assert ((rev, false) ∈ history (ctx_gens (index st) c k)) as Hin
    by by apply current_of_elem.
  split.
  - destruct (ci_bound _ _ _ Hcore k _ Hin) as [Hlt _].
    pose proof (rev_lt_le_trans _ _ _ Hlt Hbound) as Hx'. unfold rev_lt in Hx'.
    cbn in Hx'. destruct (ci_bound _ _ _ Hcore k _ Hin) as [_ [_ ?]]. cbn in *. lia.
  - intros d Hd. assert (d = false) as ->.
    { symmetry. eapply history_kind; [apply (ci_wf _ _ _ Hcore k)|done..]. }
    split; [done|]. rewrite commit_kv. unfold live_rec in Hl. by rewrite Hco in Hl.
Qed.

Lemma committed_inv e : contents e = ts' → store_inv (committed st e new_rev c).
Proof.
  intros He.
  pose proof (λ k, index_commit_gens (index st) snap c cur bound k Hc) as HG.
  destruct (si_revs _ Hst) as (Hr1 & Hr2 & Hr3). pose proof Hnew as Hn. unfold cur in Hn.
  assert (∀ k, k ≠ META_KEY_CURRENT_REV → ¬ raft_key k →
            snap_get ts' TABLE_META k = snap_get snap TABLE_META k) as Hmeta.
  { intros k Hk Hr. apply commit_meta; [done|].
    intros r Hp <-. by apply Hr, (si_pending _ Hst r). }
  split; cbn [engine index write_state view values pending_raft_meta committed]; rewrite ?He.
  - cbn [current_rev set_current_rev].
    eapply core_inv_ext; [intros k; symmetry; apply HG|apply commit_core].
  - apply index_commit_ok, Hst.
  - intros k. rewrite commit_idx, (index_commit_map (index st) snap c cur bound) by done.
    destruct (idx_cache c !! k) as [x|] eqn:Hx; [|apply (si_idx _ Hst k)].
    destruct (serialize_ok x) as [b Hb]. rewrite Hb. exists (generations x).
    split; [|done]. apply deserialize_serialize in Hb. rewrite Hb.
    destruct (cx_key _ _ _ _ _ Hc k x Hx) as [<- _]. by destruct x.
  - by rewrite commit_current.
  - unfold read_i64. rewrite Hmeta by (try done; unfold raft_key; naive_solver).
    apply (si_compact _ Hst).
  - unfold read_i64. rewrite Hmeta by (try done; unfold raft_key; naive_solver).
    apply (si_lease _ Hst).
  - cbn. split_and!; [lia..|done].
  - done.
  - cbn. f_equal. apply (si_commits _ Hst).
  - cbn [current_rev set_current_rev]. unfold cache_coh.
    apply (cache_all_impl (entry_ok (ctx_gens (index st) c) ts' new_rev)).
    { intros k r rec [Hm Hrow]. split; [done|]. rewrite HG. apply Hrow. }
    apply cache_commit_all; [|intros; by eapply commit_new_entry].
    eapply cache_all_impl; [apply commit_entry|apply (si_cache _ Hst)].
  - unfold read_u64. rewrite Hmeta by (try done; unfold raft_key; naive_solver).
    apply (si_cluster _ Hst).
  - by intros r ?%elem_of_nil.
Qed.

Lemma committed_abs e A :
  contents e = ts' → abs_rel A (ctx_gens (index st) c) (apply_batch (batch c) snap) →
  abs_rel A (idx_gens (index (committed st e new_rev c))) (contents e).
Proof.
  intros He HA k. rewrite He.
  rewrite (live_rec_ext _ (ctx_gens (index st) c))
    by apply (index_commit_gens (index st) snap c cur bound k Hc).
  rewrite commit_live, HA. cbn [index committed].
  by rewrite (index_commit_gens (index st) snap c cur bound k Hc).
Qed.

(** History is not rewritten. *)
Lemma committed_read e k t :
  contents e = ts' → t ≤ cur →
  read_rec (idx_gens (index (committed st e new_rev c))) (contents e) k t
  = read_rec (idx_gens (index st)) snap k t.
Proof.
  intros He Ht. rewrite He. cbn [index committed].
  rewrite (read_rec_ext _ (ctx_gens (index st) c))
    by apply (index_commit_gens (index st) snap c cur bound k Hc).
  rewrite <- (ctx_read _ _ _ _ _ _ k t Hc (si_core _ Hst) Ht). unfold read_rec.
  destruct (revision_at (ctx_gens (index st) c k) _); [apply commit_kv|done].
Qed.
End after.

(** ** The commit as a whole *)

(** What readers see below the current revision, and what the store holds. *)
Record advanced (st st' : Inner E) (new_rev : Z) (A : Abs) : Prop := {
  adv_inv : store_inv st';
  adv_abs : abs_rel A (idx_gens (index st')) (contents (engine st'));
  adv_rev : current_rev (write_state st') = new_rev;
  adv_compact : compact_rev (write_state st') = compact_rev (write_state st);
  adv_read k t :
    t ≤ current_rev (write_state st) →
    read_rec (idx_gens (index st')) (contents (engine st')) k t
    = read_rec (idx_gens (index st)) (contents (engine st)) k t;
  adv_meta k :
    raft_key k →
    contents (engine st') !! (TABLE_META, k)
    = staged_meta (pending_raft_meta st) (contents (engine st)) k;
  adv_pending : pending_raft_meta st' = []
}.

(** A commit that failed: RAM is as it was but for the staged metadata. *)
Definition commit_failed (st st' : Inner E) (b : WriteBatch) (x : StorageError) : Prop :=
  ∃ e, commit b (apply_write_options st) (engine st) = (Err x, e) ∧
       st' = set_engine e (set_pending_raft_meta [] st) ∧
       (contents e = contents (engine st) ∨
        contents e = apply_batch b (contents (engine st))).

Lemma commit_ctx_ok (st : Inner E) new_rev c bound A :
  store_inv st →
  ctx_inv (index st) (contents (engine st)) c (current_rev (write_state st)) bound →
  rev_le bound (mkRev (new_rev + 1) 0) →
  current_rev (write_state st) < new_rev ≤ i64_max →
  abs_rel A (ctx_gens (index st) c) (apply_batch (batch c) (contents (engine st))) →
  let '(r, st') := commit_ctx new_rev c st in
  match r with
  | Ok _ => ∃ e, st' = committed st e new_rev c ∧ advanced st st' new_rev A ∧
      contents e = apply_batch (commit_batch st new_rev c) (contents (engine st))
  | Err x => ∃ y, x = Storage y ∧ commit_failed st st' (commit_batch st new_rev c) y
  end.
Proof.
  intros Hst Hc Hb Hn HA. rewrite commit_ctx_run.
  destruct (commit _ _ (engine st)) as [[[]|x] e] eqn:Hcm.
  - apply commit_ok in Hcm as He. exists e. split; [done|]. split; [|done]. split.
    + by eapply committed_inv.
    + by eapply committed_abs.
    + done.
    + done.
    + intros k t Ht. by eapply committed_read.
    + intros k [Hk _]. cbn [engine committed]. rewrite He. by eapply commit_meta_rows.
    + done.
  - exists x. split; [done|]. exists e. split_and!; [done..|]. by apply commit_err in Hcm.
Qed.
End commit.
