(* ===== verification/StoreOpen.v ===== *)
(** * Opening, reloading and crash recovery

    [disk_inv] is the invariant of the tables alone.  Loading them gives a
    store that satisfies [store_inv] and reads the same as the tables say,
    so a store opened on what another left behind is that store. *)

From S2P Require Import Prelude Revision Record KvStore Lease Cache Auth Store StoreCore.
From S2P Require Import StoreSpec StoreInv StoreApply StoreCommit.

Lemma INDEX_LOAD_CHUNK_pos : (0 < INDEX_LOAD_CHUNK)%nat.
Proof. unfold INDEX_LOAD_CHUNK. lia. Qed.

#[local] Opaque INDEX_LOAD_CHUNK.

Lemma limited_chunk {A} (l : list A) : limited INDEX_LOAD_CHUNK l = take INDEX_LOAD_CHUNK l.
Proof. pose proof INDEX_LOAD_CHUNK_pos. unfold limited. destruct INDEX_LOAD_CHUNK; [lia|done]. Qed.

Section open.
Context {E : Type} `{KvStoreLaws E} `{BincodeLaws KvRecord, BincodeLaws KeyIndex}.

(** ** What the tables say *)

Definition disk_gens (ts : Tables) (k : bytes) : list Generation :=
  default [] (generations <$> (ts !! (TABLE_IDX, k) ≫= deserialize)).
Definition disk_i64 (ts : Tables) (k : bytes) : Z := default 0 (read_i64 ts k).

Record disk_inv (ts : Tables) : Prop := {
  di_idx k b :
    ts !! (TABLE_IDX, k) = Some b → ∃ gens, deserialize b = Some (mkIdx k gens) ∧ gens ≠ [];
  di_core : core_inv (disk_gens ts) ts (mkRev (disk_i64 ts META_KEY_CURRENT_REV + 1) 0);
  di_revs : 0 ≤ disk_i64 ts META_KEY_COMPACT_REV ≤ disk_i64 ts META_KEY_CURRENT_REV;
  di_cluster : ∃ o, read_u64 ts META_KEY_CLUSTER_ID = Ok o
}.

Lemma disk_i64_range ts k : is_i64 (disk_i64 ts k).
Proof.
  unfold disk_i64, read_i64. destruct (snap_get ts TABLE_META k) as [b|]; [|done].
  destruct (length b =? 8)%nat eqn:Hb; [|done]. cbn.
  apply i64_from_be_bytes_range. by apply Nat.eqb_eq.
Qed.

Lemma store_disk_gens (st : Inner E) k :
  store_inv st → disk_gens (contents (engine st)) k = idx_gens (index st) k.
Proof.
  intros Hst. unfold disk_gens, idx_gens. pose proof (si_idx _ Hst k) as Hk.
  destruct (contents (engine st) !! (TABLE_IDX, k)) as [b|]; cbn; [|by rewrite Hk].
  destruct Hk as (gens & -> & ->). done.
Qed.

Lemma store_disk_inv (st : Inner E) : store_inv st → disk_inv (contents (engine st)).
Proof.
  intros Hst. split.
  - intros k b Hb. pose proof (si_idx _ Hst k) as Hk. rewrite Hb in Hk.
    destruct Hk as (gens & Hd & Hg). exists gens. split; [done|].
    intros ->. by apply (proj2 (si_index _ Hst) k).
  - unfold disk_i64. rewrite (si_current _ Hst).
    eapply core_inv_ext; [|apply (si_core _ Hst)]. intros k. by rewrite store_disk_gens.
  - unfold disk_i64. rewrite (si_current _ Hst), (si_compact _ Hst). apply (si_revs _ Hst).
  - destruct (si_cluster _ Hst) as (o & -> & _). by exists o.
Qed.

(** Tables that agree on the keys' rows. *)
Definition data_eq (ts ts' : Tables) : Prop :=
  ∀ t k, t = TABLE_KV ∨ t = TABLE_IDX ∨ t = TABLE_LEASE_KEYS → ts' !! (t, k) = ts !! (t, k).

Lemma data_eq_kv ts ts' k r : data_eq ts ts' → kv_row ts' k r = kv_row ts k r.
Proof. intros Ht. unfold kv_row. by rewrite Ht by auto. Qed.

Lemma data_eq_live G ts ts' k : data_eq ts ts' → live_rec G ts' k = live_rec G ts k.
Proof. intros Ht. unfold live_rec. destruct (current_of (G k)); [by apply data_eq_kv|done]. Qed.

Lemma data_eq_read G ts ts' k t : data_eq ts ts' → read_rec G ts' k t = read_rec G ts k t.
Proof. intros Ht. unfold read_rec. destruct (revision_at _ _); [by apply data_eq_kv|done]. Qed.

Lemma data_eq_gens ts ts' k : data_eq ts ts' → disk_gens ts' k = disk_gens ts k.
Proof. intros Ht. unfold disk_gens. by rewrite Ht by auto. Qed.

Lemma data_eq_core G ts ts' b : data_eq ts ts' → core_inv G ts b → core_inv G ts' b.
Proof.
  intros Ht [Hwf Hb Hp Htm Hl]. split; try done.
  - intros k g r. rewrite (data_eq_kv ts) by done. apply Hp.
  - intros k g r. rewrite (data_eq_kv ts) by done. apply Htm.
  - intros rk. rewrite Ht, Hl by auto.
    by setoid_rewrite (λ k, data_eq_live G ts ts' k Ht).
Qed.

Lemma data_eq_disk ts ts' :
  data_eq ts ts' → disk_i64 ts' META_KEY_CURRENT_REV = disk_i64 ts META_KEY_CURRENT_REV →
  disk_i64 ts' META_KEY_COMPACT_REV = disk_i64 ts META_KEY_COMPACT_REV →
  (∃ o, read_u64 ts' META_KEY_CLUSTER_ID = Ok o) →
  disk_inv ts → disk_inv ts'.
Proof.
  intros Ht Hc Hk Ho [Hi Hcore Hr Hcl]. split; rewrite ?Hc, ?Hk; try done.
  - intros k b. rewrite Ht by auto. apply Hi.
  - eapply data_eq_core; [done|]. eapply core_inv_ext; [|done].
    intros k. symmetry. by apply data_eq_gens.
Qed.

(** ** Loading the index in chunks *)

(** One row of [mvcc_idx] as the loader keeps it. *)
Definition load_row (r : bytes * bytes) : bytes * list Generation :=
  (r.1, default [] (generations <$> deserialize (A := KeyIndex) r.2)).

Lemma load_chunks_ok ts fuel start loaded :
  (∀ r, r ∈ map_range start Unbounded (table_rows TABLE_IDX ts) →
        is_Some (deserialize (A := KeyIndex) r.2)) →
  (length (map_range start Unbounded (table_rows TABLE_IDX ts)) ≤ fuel)%nat →
  load_chunks fuel ts start loaded
  = Ok (loaded ++ (load_row <$> map_range start Unbounded (table_rows TABLE_IDX ts))).
Proof.
  pose proof INDEX_LOAD_CHUNK_pos as Hpos.
  revert start loaded. induction fuel as [|fuel IH]; intros start loaded; cbn [load_chunks];
    unfold snap_range; rewrite limited_chunk;
    set (R := map_range start Unbounded (table_rows TABLE_IDX ts)); intros Hdec Hlen;
    rewrite (res_map_ok _ load_row);
    try (intros r Hr; apply elem_of_take in Hr as (i & Hr%list_elem_of_lookup_2 & _);
         destruct (Hdec r Hr) as [idx Hidx]; unfold load_row; by rewrite Hidx); cbn [res_bind].
  - assert (R = []) as -> by (apply nil_length_inv; lia).
    rewrite take_nil. cbn. by destruct (last _) as [[]|].
  - destruct (last (loaded ++ (load_row <$> take INDEX_LOAD_CHUNK R))) as [[k gens]|] eqn:Hl.
    2:{ apply last_None, app_eq_nil in Hl as [-> Hl%fmap_nil_inv]. f_equal. cbn.
        destruct R; [by rewrite Hl|]. by destruct INDEX_LOAD_CHUNK; [lia|]. }
    rewrite length_take. destruct (Nat.eqb_spec (INDEX_LOAD_CHUNK `min` length R) INDEX_LOAD_CHUNK)
      as [Hn|Hn].
    2:{ by rewrite take_ge by lia. }
    destruct (take INDEX_LOAD_CHUNK R) as [|r l1 _] eqn:Htake using rev_ind.
    { apply (f_equal length) in Htake. rewrite length_take in Htake. cbn in Htake. lia. }
    rewrite fmap_app, app_assoc in Hl. cbn [fmap list_fmap] in Hl. rewrite last_snoc in Hl.
    destruct r as [k0 v0]. unfold load_row in Hl. cbn in Hl. simplify_eq.
    assert (R = l1 ++ (k, v0) :: drop INDEX_LOAD_CHUNK R) as HR.
    { rewrite <- (take_drop INDEX_LOAD_CHUNK R) at 1. rewrite Htake, <- app_assoc. done. }
    pose proof (map_range_after _ _ _ _ _ _ _ HR) as Hafter.
    assert (length R = length l1 + S (length (drop INDEX_LOAD_CHUNK R)))%nat as HlenR.
    { rewrite HR at 1. by rewrite length_app. }
    rewrite IH; rewrite Hafter.
    + rewrite HR at 2. by rewrite !fmap_app, <- !app_assoc.
    + intros r Hr. apply Hdec. fold R. rewrite HR. apply elem_of_app. right. by right.
    + lia.
Qed.

Lemma load_index_ok (st : Inner E) :
  disk_inv (contents (engine st)) →
  ∃ i, load_index st = (Ok (), set_values (cache_clear (values st)) (set_index i st)) ∧
    index_ok i ∧
    ∀ k, index_map i !! k
         = generations <$> (contents (engine st) !! (TABLE_IDX, k) ≫= deserialize).
Proof.
  intros Hd. set (ts := contents (engine st)) in *.
  set (R := map_range Unbounded Unbounded (table_rows TABLE_IDX ts)).
  exists (index_set_all (load_row <$> R) (index_clear (index st))). split_and!.
  - unfold load_index. rewrite (pbind_run snapshot _ st ts st) by done.
    unfold plift, pbind. rewrite load_chunks_ok; [done| |apply rows_fuel].
    intros [k b] [Hk _]%elem_of_map_range. rewrite table_rows_lookup in Hk.
    destruct (di_idx _ Hd k b Hk) as (gens & Hb & _). cbn. by rewrite Hb.
  - apply index_set_all_ok, index_ok_clear.
  - assert (NoDup (load_row <$> R).*1) as Hnd.
    { rewrite <- list_fmap_compose. apply key_sorted_NoDup, map_range_sorted. }
    intros k. rewrite index_set_all_map by done. cbn. rewrite lookup_empty.
    destruct (ts !! (TABLE_IDX, k)) as [b|] eqn:Hb; cbn.
    + destruct (di_idx _ Hd k b Hb) as (gens & Hdes & Hne). rewrite Hdes. cbn.
      assert ((k, gens) ∈ load_row <$> R) as Hin.
      { apply list_elem_of_fmap. exists (k, b). unfold load_row. cbn. rewrite Hdes.
        split; [done|]. apply elem_of_map_range. by rewrite table_rows_lookup. }
      rewrite (elem_of_list_to_map_1 _ k gens) by done. by destruct gens.
    + rewrite not_elem_of_list_to_map_1; [done|].
      intros ([k' gens] & -> & Hin)%list_elem_of_fmap. cbn in *.
      apply list_elem_of_fmap in Hin as ([k0 b0] & [= -> _] & [Hk _]%elem_of_map_range).
      rewrite table_rows_lookup in Hk. cbn in *. congruence.
Qed.

(** ** A store over loaded tables *)

Lemma loaded_inv (st : Inner E) i :
  let ts := contents (engine st) in
  disk_inv ts → index_ok i →
  (∀ k, index_map i !! k = generations <$> (ts !! (TABLE_IDX, k) ≫= deserialize)) →
  index st = i →
  write_state st = mkWriteState (disk_i64 ts META_KEY_CURRENT_REV)
                     (disk_i64 ts META_KEY_COMPACT_REV) (disk_i64 ts META_KEY_NEXT_LEASE_ID) →
  view_revs (view st) = ws_revs (write_state st) → engine_commits (view st) = published (view st) →
  cache_all (λ _ _ _, False) (values st) →
  (∃ o, read_u64 ts META_KEY_CLUSTER_ID = Ok o ∧ default 0 o = cluster_id st) →
  (∀ r, r ∈ pending_raft_meta st → raft_key r.1) →
  store_inv st ∧ ∀ k, idx_gens (index st) k = disk_gens ts k.
Proof.
  intros ts Hd Hi Hmap <- Hws Hv Hp Hc Hcl Hpend.
  assert (∀ k, idx_gens (index st) k = disk_gens ts k) as Hg.
  { intros k. unfold idx_gens, disk_gens. by rewrite Hmap. }
  split; [|done]. split; rewrite ?Hws; cbn [current_rev compact_rev next_lease_id]; try done.
  - eapply core_inv_ext; [intros k; symmetry; apply Hg|apply (di_core _ Hd)].
  - intros k. fold ts. rewrite Hmap. destruct (ts !! (TABLE_IDX, k)) as [b|] eqn:Hb; [|done].
    destruct (di_idx _ Hd k b Hb) as (gens & Hdes & _). exists gens. cbn. by rewrite Hdes.
  - pose proof (di_revs _ Hd). pose proof (disk_i64_range ts META_KEY_CURRENT_REV).
    pose proof (disk_i64_range ts META_KEY_NEXT_LEASE_ID). ints.
  - by rewrite Hv, Hws.
  - by eapply cache_all_impl; [|done].
Qed.

(** ** Opening *)

Context `{Bincode StoredUser, Bincode StoredRole, Bincode LeaseRecord}.

Definition fresh_batch : WriteBatch :=
  [OpPut TABLE_META META_KEY_CURRENT_REV (i64_to_be_bytes 0);
   OpPut TABLE_META META_KEY_COMPACT_REV (i64_to_be_bytes 0);
   OpPut TABLE_META META_KEY_NEXT_LEASE_ID (i64_to_be_bytes 0)].

(** What opening may write: zero counters, over none. *)
Lemma fresh_batch_ok ts :
  disk_i64 ts META_KEY_CURRENT_REV = 0 → disk_i64 ts META_KEY_COMPACT_REV = 0 →
  disk_i64 ts META_KEY_NEXT_LEASE_ID = 0 →
  let ts' := apply_batch fresh_batch ts in
  data_eq ts ts' ∧ read_u64 ts' META_KEY_CLUSTER_ID = read_u64 ts META_KEY_CLUSTER_ID ∧
  ∀ k, disk_i64 ts' k = disk_i64 ts k.
Proof.
  intros Hz1 Hz2 Hz3 ts'. split_and!.
  - intros t k Ht. apply apply_batch_other. intros op Hop.
    assert (op_table op = TABLE_META) as -> by (unfold fresh_batch in Hop; set_solver).
    by destruct Ht as [->|[->| ->]].
  - unfold read_u64, snap_get, ts', fresh_batch, apply_batch. cbn [foldl].
    by rewrite !apply_op_lookup, !decide_False by (by intros []).
  - intros k. unfold disk_i64, read_i64, snap_get, ts', fresh_batch, apply_batch in *.
    cbn [foldl]. rewrite !apply_op_lookup.
    assert (default 0 (if (length (i64_to_be_bytes 0) =? 8)%nat
                       then Some (i64_from_be_bytes (i64_to_be_bytes 0)) else None) = 0)
      as Hz by done.
    repeat (case_decide as Hk;
      [destruct Hk as [_ <-]; rewrite Hz; symmetry; first [exact Hz1|exact Hz2|exact Hz3]|clear Hk]).
    done.
Qed.

Definition same_data (e e' : E) : Prop :=
  data_eq (contents e) (contents e') ∧ ∀ k, disk_i64 (contents e') k = disk_i64 (contents e) k.

Lemma open_ok (e : E) hash cfg now :
  disk_inv (contents e) → 0 ≤ value_cache_bytes cfg →
  match open_with e hash cfg now with
  | Ok st => store_inv st ∧ same_data e (engine st) ∧
      (∀ k, idx_gens (index st) k = disk_gens (contents e) k) ∧
      write_state st = mkWriteState (disk_i64 (contents e) META_KEY_CURRENT_REV)
        (disk_i64 (contents e) META_KEY_COMPACT_REV) (disk_i64 (contents e) META_KEY_NEXT_LEASE_ID) ∧
      read_u64 (contents e) META_KEY_CLUSTER_ID
        = read_u64 (contents (engine st)) META_KEY_CLUSTER_ID
  | Err x => ∃ y e', x = Storage y ∧ commit fresh_batch WriteOptions_default e = (Err y, e')
  end.
Proof.
  intros Hd Hcfg. unfold open_with. fold (disk_i64 (contents e) META_KEY_CURRENT_REV)
    (disk_i64 (contents e) META_KEY_COMPACT_REV) (disk_i64 (contents e) META_KEY_NEXT_LEASE_ID).
  set (cur := disk_i64 _ META_KEY_CURRENT_REV). set (cmp := disk_i64 _ META_KEY_COMPACT_REV).
  set (nxt := disk_i64 _ META_KEY_NEXT_LEASE_ID).
  destruct (di_cluster _ Hd) as [cid Hcid]. rewrite Hcid. cbn [res_bind].
  set (boot := if (_ && _ && _) then _ else _).
  assert (match boot with
          | Ok e' => disk_inv (contents e') ∧ same_data e e' ∧
                     read_u64 (contents e') META_KEY_CLUSTER_ID = Ok cid
          | Err x => ∃ y e', x = Storage y ∧ commit fresh_batch WriteOptions_default e = (Err y, e')
          end) as Hboot.
  { unfold boot. destruct ((cur =? 0) && (cmp =? 0) && (nxt =? 0)) eqn:Hz; [|done].
    change (write_i64 META_KEY_NEXT_LEASE_ID 0 _) with fresh_batch.
    destruct (commit fresh_batch WriteOptions_default e) as [[[]|x] e'] eqn:Hcm;
      [|by eauto]. apply commit_ok in Hcm.
    rewrite !andb_true_iff, !Z.eqb_eq in Hz. destruct Hz as [[Hz1 Hz2] Hz3].
    destruct (fresh_batch_ok (contents e) Hz1 Hz2 Hz3) as (Hde & Hcl & Hi).
    rewrite <- Hcm in Hde, Hcl, Hi. split_and!; [|done|by rewrite Hcl].
    eapply data_eq_disk; [done|apply Hi|apply Hi|rewrite Hcl; by eauto|done]. }
  destruct boot as [e'|x]; [|done]. cbn [res_bind].
  destruct Hboot as (Hd' & Hsame & Hcl).
  set (st0 := mkInner e' _ _ _ _ _ _ _ _ _ _ _ _).
  set (en := match snap_get (contents e') TABLE_AUTH_STATE META_AUTH_ENABLED with
             | Some b => flag_set b | None => false end).
  rewrite (pbind_run reload_auth _ st0 () (set_auth (set_enabled en (auth st0)) st0)) by done.
  destruct (load_index_ok (set_auth (set_enabled en (auth st0)) st0) Hd') as (i & -> & Hi & Hm).
  set (st := set_values _ _).
  destruct (loaded_inv st i) as [Hinv Hg]; try done.
  - cbn. destruct Hsame as [_ Hs]. by rewrite !Hs.
  - apply cache_all_clear, cache_wf_new, Hcfg.
  - cbn. eauto.
  - by intros r ?%elem_of_nil.
  - split_and!; try done. intros k. rewrite Hg. apply data_eq_gens, Hsame.
Qed.

(** Reloading in place, as a snapshot install does. *)
Lemma reload_ok (st : Inner E) :
  disk_inv (contents (engine st)) → cache_wf (values st) →
  engine_commits (view st) = published (view st) →
  (∀ r, r ∈ pending_raft_meta st → raft_key r.1) →
  (∀ o, read_u64 (contents (engine st)) META_KEY_CLUSTER_ID = Ok o → default 0 o = 0 →
        cluster_id st = 0) →
  ∃ st', reload_locked st = (Ok (), st') ∧ store_inv st' ∧ engine st' = engine st ∧
    (∀ k, idx_gens (index st') k = disk_gens (contents (engine st)) k) ∧
    sent st' = sent st ∧ pending_raft_meta st' = pending_raft_meta st.
Proof.
  intros Hd Hc Hp Hpend Hcl0. unfold reload_locked.
  rewrite (pbind_run snapshot _ st (contents (engine st)) st) by done.
  destruct (di_cluster _ Hd) as [o Ho]. rewrite Ho. unfold plift at 1. unfold pbind at 1.
  unfold pmodify at 1 2. unfold pbind at 1 2.
  set (st1 := if default 0 o =? 0 then _ else _).
  assert (engine st1 = engine st ∧ values st1 = values st ∧ view st1 = view st ∧
    sent st1 = sent st ∧ pending_raft_meta st1 = pending_raft_meta st ∧
    cluster_id st1 = default 0 o) as (He & Hv & Hvw & Hs & Hpm & Hcid).
  { unfold st1. destruct (Z.eqb_spec (default 0 o) 0) as [Hz|Hz]; [|done].
    split_and!; try done. cbn. rewrite Hz. by eapply Hcl0. }
  clearbody st1. destruct (load_index_ok st1) as (i & Hload & Hi & Hm); [by rewrite He|].
  rewrite (pbind_run _ _ _ _ _ Hload). unfold pmodify. eexists. split; [done|].
  set (st2 := set_view _ _). destruct (loaded_inv st2 i) as [Hinv Hg]; try done.
  - cbn. by rewrite He.
  - cbn. by rewrite He.
  - cbn. by rewrite Hvw.
  - cbn. rewrite Hv. by apply cache_all_clear.
  - cbn. rewrite He. eauto.
  - cbn. by rewrite Hpm.
  - cbn in *. rewrite He in Hg. by rewrite Hs, Hpm.
Qed.
End open.
