(* ===== verification/StoreDemo.v ===== *)
(** * A concrete store

    The in-memory engine with concrete codecs: the store that opening an
    empty engine gives.  Witnesses run on it. *)

From S2P Require Import Prelude Revision Record KvStore Lease Cache Auth Store StoreCore.
From S2P Require Import StoreSpec StoreInv StoreApply StoreCommit StoreOpen.

#[global] Instance KvRecord_countable : Countable KvRecord.
Proof.
  apply (inj_countable'
    (λ r, (rec_key r, rec_value r, create_revision r, mod_revision r, version r, rec_lease r,
           deleted r))
    (λ '(k, v, c, m, n, l, d), mkKv k v c m n l d)). by intros [].
Defined.

#[global] Instance Generation_countable : Countable Generation.
Proof.
  apply (inj_countable' (λ g, (created g, revs g, tombstone g))
           (λ '(c, r, t), mkGen c r t)). by intros [].
Defined.

#[global] Instance KeyIndex_countable : Countable KeyIndex.
Proof.
  apply (inj_countable' (λ x, (idx_key x, generations x)) (λ '(k, g), mkIdx k g)). by intros [].
Defined.

Module Demo.
#[export] Instance kv_codec : Bincode KvRecord := countable_codec KvRecord.
#[export] Instance kv_laws : BincodeLaws KvRecord := countable_codec_laws KvRecord.
#[export] Instance idx_codec : Bincode KeyIndex := countable_codec KeyIndex.
#[export] Instance idx_laws : BincodeLaws KeyIndex := countable_codec_laws KeyIndex.
#[export] Instance lease_codec : Bincode LeaseRecord := countable_codec LeaseRecord.
#[export] Instance lease_laws : BincodeLaws LeaseRecord := countable_codec_laws LeaseRecord.
#[export] Instance user_codec : Bincode StoredUser := countable_codec StoredUser.
#[export] Instance user_laws : BincodeLaws StoredUser := countable_codec_laws StoredUser.
#[export] Instance role_codec : Bincode StoredRole := countable_codec StoredRole.
#[export] Instance role_laws : BincodeLaws StoredRole := countable_codec_laws StoredRole.

Definition demo_cache : CacheConfig := mkCacheConfig 65536 4096.
Definition demo_hash : bytes → N := λ k, N.of_nat (length k).

(** The store an empty engine opens to; [faults] are for its next commits. *)
Definition demo_store (faults : list (option StorageError)) : Inner MemEngine :=
  mkInner (mkMem (apply_batch fresh_batch ∅) faults) (mkWriteState 0 0 0)
    (mkReadView (mkRevs 0 0) 0 0) [] [] false 0
    (set_enabled false (AuthMemory_default 0)) ∅ (mkOpCounts 0 0 0 0) true
    ResidentIndex_default (cache_clear (ValueCache_new demo_hash demo_cache)).

Lemma demo_opens faults :
  open_with (mkMem ∅ (None :: faults)) demo_hash demo_cache 0 = Ok (demo_store faults).
Proof. vm_compute. reflexivity. Qed.

Lemma disk_inv_empty : disk_inv ∅.
Proof.
  split; try done.
  - split; cbn; try done; try by intros ? ? ?%elem_of_nil.
    + intros k. split; constructor.
    + intros k g r ?%elem_of_nil. done.
    + intros k g t ?%elem_of_nil. done.
    + intros rk. split; [by intros [? ?]|]. by intros (k & rec & ? & _).
  - by exists None.
Qed.

Lemma demo_inv faults : store_inv (demo_store faults).
Proof.
  pose proof (open_ok (mkMem ∅ (None :: faults)) demo_hash demo_cache 0 disk_inv_empty) as Hopen.
  rewrite demo_opens in Hopen. apply Hopen. done.
Qed.

Lemma demo_abs faults :
  abs_rel ∅ (idx_gens (index (demo_store faults))) (contents (engine (demo_store faults))).
Proof. intros k. done. Qed.
End Demo.
