(* ===== verification/StoreWrite.v ===== *)
(** * [apply]: the whole of a write

    What [apply] answers, what the store holds after it, the events it
    sends, and what is on disk whatever happens to its commit. *)

From S2P Require Import Prelude Revision Record KvStore Lease Cache Auth Store StoreCore.
From S2P Require Import StoreSpec StoreInv StoreApply StoreCommit StoreOpen StoreDemo.

(** ** Effects of the specification *)

Lemma spec_mutation_events rev m A e :
  spec_mutation rev m A = Ok e → produces e = negb (bool_decide (ef_events e = [])).
Proof.
  unfold produces. destruct m as [key value lease iv il pk|key range_end pk]; cbn.
  - unfold spec_put. destruct (_ && _); [done|]. by intros [= <-].
  - intros [= <-]. cbn. destruct (a_range A key range_end); [done|].
    rewrite bool_decide_false by done. cbn. done.
Qed.

Lemma spec_mutations_events main ms sub A A' rs evs :
  spec_mutations main sub ms A = Ok (A', rs, evs) →
  any_produced rs = negb (bool_decide (evs = [])) ∧ length rs = length ms.
Proof.
  revert sub A rs evs. induction ms as [|m ms IH]; intros sub A rs evs; cbn.
  { by intros [= <- <- <-]. }
  intros (e & He & Hr)%res_bind_ok. apply res_bind_ok in Hr as ([[A1 rs1] evs1] & Hms & [= <- <- <-]).
  apply spec_mutation_events in He. destruct (IH _ _ _ _ Hms) as [Hany Hlen].
  split; [|cbn; by rewrite Hlen]. unfold any_produced in *. cbn [existsb].
  unfold produces in He. rewrite He, Hany.
  destruct (ef_events e); [done|]. rewrite !bool_decide_false by done. done.
Qed.

Section write.
Context {E : Type} `{KvStoreLaws E} `{BincodeLaws KvRecord, BincodeLaws KeyIndex}.

(** ** What is on disk *)

(** The tables describe the keys [A] at revision [rev]. *)
Definition disk_holds (ts : Tables) (A : Abs) (rev : Z) : Prop :=
  disk_inv ts ∧ abs_rel A (disk_gens ts) ts ∧ disk_i64 ts META_KEY_CURRENT_REV = rev.

Lemma store_disk_holds (st : Inner E) A :
  store_inv st → abs_rel A (idx_gens (index st)) (contents (engine st)) →
  disk_holds (contents (engine st)) A (current_rev (write_state st)).
Proof.
  intros Hst HA. split_and!.
  - by apply store_disk_inv.
  - eapply abs_rel_ext; [|done]. intros k. by rewrite store_disk_gens.
  - apply (si_current _ Hst).
Qed.

(** ** Outcomes *)

(** Nothing but the value cache and the counters moved. *)
Definition same_store (st st' : Inner E) : Prop :=
  ∃ v o, st' = st_with st v o ∧ store_inv st'.

(** The engine failed the commit: RAM is as it was, but for the cache, the
    counters and the staged raft metadata; on disk is the state before, or
    the state after with that metadata. *)
Definition failed_write (st st' : Inner E) (y : StorageError) (A A' : Abs) (new_rev : Z)
    : Prop :=
  ∃ v o b e, commit b (apply_write_options st) (engine st) = (Err y, e) ∧
    st' = set_engine e (set_pending_raft_meta [] (st_with st v o)) ∧
    ((disk_holds (contents e) A (current_rev (write_state st)) ∧
      contents e = contents (engine st)) ∨
     (disk_holds (contents e) A' new_rev ∧
      ∀ k, raft_key k → contents e !! (TABLE_META, k)
                        = staged_meta (pending_raft_meta st) (contents (engine st)) k)).

Lemma advanced_with (st st' : Inner E) v o new_rev A :
  advanced (st_with st v o) st' new_rev A → advanced st st' new_rev A.
Proof. by intros []. Qed.

Lemma commit_write (st : Inner E) v o new_rev c bound A A' :
  store_inv st → abs_rel A (idx_gens (index st)) (contents (engine st)) →
  ctx_inv (index st) (contents (engine st)) c (current_rev (write_state st)) bound →
  cache_coh v (idx_gens (index st)) (contents (engine st)) (current_rev (write_state st)) →
  rev_le bound (mkRev (new_rev + 1) 0) →
  current_rev (write_state st) < new_rev ≤ i64_max →
  abs_rel A' (ctx_gens (index st) c) (apply_batch (batch c) (contents (engine st))) →
  let '(r, st') := commit_ctx new_rev c (st_with st v o) in
  match r with
  | Ok _ => ∃ e, st' = committed (st_with st v o) e new_rev c ∧ advanced st st' new_rev A'
  | Err x => ∃ y, x = Storage y ∧ failed_write st st' y A A' new_rev
  end.
Proof.
  intros Hst HA Hc Hv Hb Hn HA'.
  pose proof (store_inv_with st v o Hst Hv) as Hst0.
  pose proof (commit_ctx_ok (st_with st v o) new_rev c bound A' Hst0 Hc Hb Hn HA') as Hcm.
  destruct (commit_ctx new_rev c (st_with st v o)) as [[[]|x] st'].
  - destruct Hcm as (e & Hst' & Hadv & _). exists e. split; [done|]. by eapply advanced_with.
  - destruct Hcm as (y & -> & e & Hcommit & -> & Hdisk). exists y. split; [done|].
    exists v, o, (commit_batch (st_with st v o) new_rev c), e. split_and!; [done..|]. destruct Hdisk as [->|Hdisk].
    + left. split; [exact (store_disk_holds st A Hst HA)|done].
    + right. split.
      2:{ intros k [Hk _]. rewrite Hdisk. by eapply (commit_meta_rows (st_with st v o)). }
      pose proof (committed_inv _ new_rev c bound Hst0 Hc Hb Hn e Hdisk) as Hinv.
      pose proof (committed_abs _ new_rev c bound Hc e A' Hdisk HA') as Habs.
      apply (store_disk_holds _ _ Hinv Habs).
Qed.

(** ** [apply] *)

Lemma with_ctx_ok {A} (m : prog (Inner E * ApplyContext) MvccError A) st a st' c :
  m (st, ApplyContext_default) = (Ok a, (st', c)) → with_ctx m st = (Ok (a, c), st').
Proof. unfold with_ctx. by intros ->. Qed.

Lemma with_ctx_err {A} (m : prog (Inner E * ApplyContext) MvccError A) st x st' c :
  m (st, ApplyContext_default) = (Err x, (st', c)) → with_ctx m st = (Err x, st').
Proof. unfold with_ctx. by intros ->. Qed.

Lemma apply_ok (st : Inner E) A ms :
  store_inv st → abs_rel A (idx_gens (index st)) (contents (engine st)) →
  ms ≠ [] → Forall mutation_wf ms →
  current_rev (write_state st) < i64_max → Z.of_nat (length ms) ≤ i64_max →
  let new_rev := current_rev (write_state st) + 1 in
  let '(r, st') := apply ms st in
  match spec_mutations new_rev 0 ms A with
  | Err refusal => r = Err (Refused refusal) ∧ same_store st st'
  | Ok (A', results, events) =>
      if any_produced results then
        match r with
        | Ok out => out = (new_rev, results) ∧ advanced st st' new_rev A' ∧
            sent st' = sent st ++ [mkEventBatch new_rev events]
        | Err x => ∃ y, x = Storage y ∧ failed_write st st' y A A' new_rev
        end
      else r = Ok (new_rev, results) ∧ same_store st st'
  end.
Proof.
  intros Hst HA Hne Hms Hmax Hlen new_rev.
  destruct (si_revs _ Hst) as (Hr1 & Hr2 & _).
  assert (i64_wrap (current_rev (write_state st) + 1) = new_rev) as Hwrap
    by (apply i64_wrap_id; ints).
  pose proof (apply_loop_ok st (contents (engine st)) (current_rev (write_state st))
    (current_rev (write_state st)) new_rev ms ltac:(lia) ltac:(lia) Hms
    (values st) (ops st) ApplyContext_default (mkRev new_rev 0) 0 [] false A
    ltac:(lia) Hlen (ctx_inv_default _ _ _ _ (si_core _ Hst)) (si_cache _ Hst) (reflexivity _) HA)
    as Hloop.
  rewrite st_with_id in Hloop.
  assert (apply ms st =
    (let* ((revision, results, produced), c) :=
       with_ctx (apply_inner (contents (engine st)) (write_state st) ms) in
     let* _ := (if produced : bool then commit_ctx revision c else pret ()) in
     pret (revision, results)) st) as -> by by destruct ms.
  destruct (spec_mutations new_rev 0 ms A) as [[[A' rs] evs]|refusal] eqn:Hspec.
  - destruct Hloop as (v & o & c & Hrun & Hv & Hc & HA' & Hev & Hmk & _).
    assert (apply_inner (contents (engine st)) (write_state st) ms (st, ApplyContext_default)
            = (Ok (new_rev, rs, any_produced rs), (st_with st v o, c))) as Hinner.
    { unfold apply_inner. by rewrite Hwrap, (pbind_run _ _ _ _ _ Hrun). }
    rewrite (pbind_run _ _ _ _ _ (with_ctx_ok _ _ _ _ _ Hinner)).
    apply spec_mutations_events in Hspec as [Hany _].
    destruct (any_produced rs) eqn:Hp.
    + pose proof (commit_write st v o new_rev c _ A A' Hst HA Hc Hv) as Hcm.
      specialize (Hcm ltac:(unfold rev_le; cbn; lia) ltac:(lia) HA').
      unfold pbind. destruct (commit_ctx new_rev c (st_with st v o)) as [[[]|x] st'].
      * destruct Hcm as (e & -> & Hadv). split_and!; [done..|].
        cbn [sent committed st_with set_ops set_values]. unfold event_batches.
        rewrite Hmk, Hev. cbn. by destruct evs.
      * done.
    + split; [done|]. exists v, o. split; [done|]. by apply store_inv_with.
  - destruct Hloop as (v & o & c & Hrun & Hv & _).
    assert (apply_inner (contents (engine st)) (write_state st) ms (st, ApplyContext_default)
            = (Err (Refused refusal), (st_with st v o, c))) as Hinner.
    { unfold apply_inner. rewrite Hwrap. by apply pbind_fail. }
    rewrite (pbind_fail _ _ _ _ _ (with_ctx_err _ _ _ _ _ Hinner)). split; [done|].
    exists v, o. split; [done|]. by apply store_inv_with.
Qed.


(** ** Crashes *)

Context `{Bincode LeaseRecord, Bincode StoredUser, Bincode StoredRole}.

Lemma open_holds (e : E) hash cfg now A rev st :
  disk_holds (contents e) A rev → 0 ≤ value_cache_bytes cfg →
  open_with e hash cfg now = Ok st →
  store_inv st ∧ abs_rel A (idx_gens (index st)) (contents (engine st)) ∧
  current_rev (write_state st) = rev.
Proof.
  intros (Hd & HA & Hrev) Hcfg Hopen. pose proof (open_ok e hash cfg now Hd Hcfg) as Hok.
  rewrite Hopen in Hok. destruct Hok as (Hst & [Hde _] & Hg & Hws & _).
  split_and!; [done| |by rewrite Hws].
  intros k. rewrite HA, Hg, (data_eq_live _ _ _ k Hde).
  by rewrite (live_rec_ext (disk_gens (contents e)) (idx_gens (index st))) by (by rewrite Hg).
Qed.

Lemma apply_disk (st : Inner E) A ms r st' :
  store_inv st → abs_rel A (idx_gens (index st)) (contents (engine st)) →
  ms ≠ [] → Forall mutation_wf ms →
  current_rev (write_state st) < i64_max → Z.of_nat (length ms) ≤ i64_max →
  apply ms st = (r, st') →
  let before := disk_holds (contents (engine st')) A (current_rev (write_state st)) in
  match spec_mutations (current_rev (write_state st) + 1) 0 ms A with
  | Ok (A', results, _) =>
      let after := disk_holds (contents (engine st')) A' (current_rev (write_state st) + 1) in
      if any_produced results then if is_ok r then after else before ∨ after else before
  | Err _ => before
  end.
Proof.
  intros Hst HA Hne Hms Hmax Hlen Happ before.
  assert (same_store st st' → before) as Hsame.
  { intros (v & o & -> & _). exact (store_disk_holds st A Hst HA). }
  pose proof (apply_ok st A ms Hst HA Hne Hms Hmax Hlen) as Hok. cbv zeta in Hok.
  rewrite Happ in Hok. cbv zeta beta in Hok.
  destruct (spec_mutations _ 0 ms A) as [[[A' rs] evs]|refusal]; [|apply Hsame, Hok].
  destruct (any_produced rs); [|apply Hsame, Hok]. cbv zeta. destruct r as [out|x]; cbn [is_ok].
  - destruct Hok as (_ & Hadv & _). destruct Hadv as [Hinv' HA' <- _ _].
    by apply store_disk_holds.
  - destruct Hok as (y & -> & v & o & b & e & _ & -> & Hd). destruct Hd as [[Hd _]|[Hd _]]; auto.
Qed.


(**  A [DeleteRange] that matches nothing writes nothing, yet [apply]
    answers with the next revision, one the store does not have. *)
Theorem noop_delete_reports_future_revision (st : Inner E) A key range_end prev_kv :
  store_inv st → abs_rel A (idx_gens (index st)) (contents (engine st)) →
  current_rev (write_state st) < i64_max → a_range A key range_end = [] →
  let '(r, st') := apply [DeleteRange key range_end prev_kv] st in
  r = Ok (current_rev (write_state st) + 1, [mkMutationResult 0 []]) ∧
  rv_current (view_revs (view st')) = current_rev (write_state st) ∧
  contents (engine st') = contents (engine st).
Proof.
  intros Hst HA Hmax Hnone.
  pose proof (apply_ok st A [DeleteRange key range_end prev_kv] Hst HA ltac:(done)
                ltac:(by repeat constructor) Hmax ltac:(done)) as Hok.
  destruct (apply _ st) as [r st']. cbn in Hok. unfold spec_delete in Hok.
  rewrite Hnone in Hok. cbn in Hok. destruct Hok as (-> & v & o & -> & Hst').
  split_and!; [by destruct prev_kv| |done].
  by rewrite (si_view _ Hst').
Qed.
End write.

(** ** Witnesses *)

Section witnesses.
Import Demo.

Definition demo_ms : list Mutation :=
  [Put (str "a") (str "1") 7 false false false;
   Put (str "b") (str "2") 0 false false false;
   DeleteRange (str "a") [] true].

Definition demo_rec (k v : bytes) (c m n l : Z) : KvRecord := mkKv k v c m n l false.

Definition demo_results : list MutationResult :=
  [mkMutationResult 1 []; mkMutationResult 1 [];
   mkMutationResult 1 [demo_rec (str "a") (str "1") 1 1 1 7]].
Definition demo_abs1 : Abs :=
  {[ str "a" := None; str "b" := Some (demo_rec (str "b") (str "2") 1 1 1 0, 1) ]}.

Lemma demo_spec :
  ∃ evs, spec_mutations 1 0 demo_ms ∅ = Ok (demo_abs1, demo_results, evs) ∧ length evs = 3%nat.
Proof. eexists. split; vm_compute; reflexivity. Qed.

Lemma demo_ms_wf : Forall mutation_wf demo_ms.
Proof. repeat constructor; cbn; done. Qed.



Lemma noop_delete_reports_future_revision_witness :
  (apply [DeleteRange (str "a") [] false] (demo_store [])).1 = Ok (1, [mkMutationResult 0 []]) ∧
  rv_current (view_revs (view (apply [DeleteRange (str "a") [] false] (demo_store [])).2)) = 0.
Proof.
  pose proof (noop_delete_reports_future_revision (demo_store []) ∅ (str "a") [] false
                (demo_inv []) (demo_abs []) ltac:(done) ltac:(vm_compute; reflexivity)) as Hok.
  destruct (apply _ (demo_store [])) as [r st']. cbn [fst snd] in *.
  destruct Hok as (-> & Hv & _). split; [reflexivity|exact Hv].
Defined.
End witnesses.
