(* ===== verification/StoreRead.v ===== *)
(** * Reading ranges

    [plan_range] chooses the keys a range answers, from the index and the
    context over it; [fetch_records] gives their records from the context,
    the value cache or the engine.  Together they are [spec_range] of the
    keys visible at the revision read. *)

From S2P Require Import Prelude Revision Record KvStore Lease Cache Auth Store StoreCore.
From S2P Require Import StoreSpec StoreInv StoreApply StoreCommit StoreOpen StoreDemo StoreWrite.

#[local] Arguments revision_at : simpl never.

(** ** The plan *)

(** The keys of a range visible at [t], with the revision each is seen at. *)
Definition hits_spec (G : bytes → list Generation) (key range_end : bytes) (t : Revision)
    (hits : list (bytes * Revision)) : Prop :=
  key_sorted hits ∧
  ∀ k rev, (k, rev) ∈ hits ↔ in_range k key range_end = true ∧ revision_at (G k) t = Some rev.

(** The first loop of [plan_range]: at most [cap] hits, and all counted. *)
Definition cap_take {A} (cap : option nat) (l : list A) : list A :=
  match cap with Some n => take n l | None => l end.

Lemma cap_take_snoc {A} cap (l : list A) x :
  cap_take cap (l ++ [x])
  = if below_cap (length (cap_take cap l)) cap then cap_take cap l ++ [x] else cap_take cap l.
Proof.
  destruct cap as [n|]; [|done]. unfold cap_take, below_cap. rewrite length_take.
  destruct (Nat.ltb_spec (n `min` length l) n) as [Hlt|Hge].
  - rewrite !take_ge by (rewrite ?length_app; cbn; lia). done.
  - by rewrite take_app_le by lia.
Qed.

Lemma plan_fold {A} (f : bytes * A → option Revision) cap (l : list (bytes * A)) X :
  foldl (λ '(hits, total) r,
    match f r with
    | Some rev => (if below_cap (length hits) cap then hits ++ [(r.1, rev)] else hits, total + 1)
    | None => (hits, total)
    end) (cap_take cap X, Z.of_nat (length X)) l
  = let H := X ++ omap (λ r, (λ rev, (r.1, rev)) <$> f r) l in
    (cap_take cap H, Z.of_nat (length H)).
Proof.
  revert X. induction l as [|r l IH]; intros X; cbn [foldl omap list_omap].
  { by rewrite app_nil_r. }
  destruct (f r) as [rev|]; cbn [fmap option_fmap option_map]; [|apply IH].
  rewrite <- cap_take_snoc.
  replace (Z.of_nat (length X) + 1) with (Z.of_nat (length (X ++ [(r.1, rev)])))
    by (rewrite length_app; cbn; lia).
  rewrite IH. by rewrite <- app_assoc.
Qed.

(** The second one: keys only the context has. *)
Lemma overlay_fold {A} (f : bytes * A → option Revision) (co : bool) (l : list (bytes * A))
    hits total added :
  foldl (λ '(hits, total, added) r,
    match f r with
    | Some rev => if co then (hits, total + 1, added) else (hits ++ [(r.1, rev)], total + 1, true)
    | None => (hits, total, added)
    end) (hits, total, added) l
  = let X := omap (λ r, (λ rev, (r.1, rev)) <$> f r) l in
    (if co then hits else hits ++ X, total + Z.of_nat (length X),
     added || negb co && negb (bool_decide (X = []))).
Proof.
  revert hits total added. induction l as [|r l IH]; intros hits total added;
    cbn [foldl omap list_omap].
  { destruct co; cbn; by rewrite ?app_nil_r, Z.add_0_r, orb_false_r. }
  destruct (f r) as [rev|]; cbn [fmap option_fmap option_map]; [|apply IH].
  destruct co; rewrite IH; cbn [negb andb length]; rewrite ?orb_false_r, ?(bool_decide_false (_ = [])) by done.
  - do 2 f_equal. lia.
  - cbn. rewrite orb_true_r, <- app_assoc. do 2 f_equal. lia.
Qed.

Lemma foldl_pointwise {A B} (f g : A → B → A) l a :
  (∀ a x, f a x = g a x) → foldl f a l = foldl g a l.
Proof. intros Hfg. revert a. induction l as [|x l IH]; intros a; cbn; [done|]. by rewrite Hfg. Qed.

(** What [plan_range] gives, from the list of all hits. *)
Definition plan_of (hits : list (bytes * Revision)) (limit : nat) (count_only : bool) : RangePlan :=
  mkPlan (if count_only then [] else limited limit hits) (Z.of_nat (length hits))
    (negb count_only && (0 <? limit)%nat && (Z.of_nat limit <? Z.of_nat (length hits))).

(** The hits of the index's keys, and those of keys only the context has. *)
Definition index_rev (c : ApplyContext) (t : Revision) (r : bytes * list Generation)
    : option Revision :=
  revision_at (match idx_cache c !! r.1 with Some x => generations x | None => r.2 end) t.
Definition extra_rev (i : ResidentIndex) (key range_end : bytes) (t : Revision)
    (r : bytes * KeyIndex) : option Revision :=
  if negb (in_range r.1 key range_end) || index_contains i r.1 then None
  else idx_revision_at r.2 t.
Definition index_hits i c key range_end t : list (bytes * Revision) :=
  omap (λ r, (λ rev, (r.1, rev)) <$> index_rev c t r) (index_rows i key range_end).
Definition extra_hits i c key range_end t : list (bytes * Revision) :=
  omap (λ r, (λ rev, (r.1, rev)) <$> extra_rev i key range_end t r) (map_to_list (idx_cache c)).

Lemma index_hits_sorted i c key range_end t : key_sorted (index_hits i c key range_end t).
Proof.
  apply key_sorted_omap; [|apply index_rows_sorted].
  intros p q. destruct (index_rev c t p); [|done]. by intros [= <-].
Qed.

Lemma index_hits_elem i c key range_end t k rev :
  (k, rev) ∈ index_hits i c key range_end t ↔
  in_range k key range_end = true ∧ is_Some (index_map i !! k) ∧
  revision_at (ctx_gens i c k) t = Some rev.
Proof.
  unfold index_hits, index_rev. rewrite list_elem_of_omap. split.
  - intros ([k' gens] & [Hg Hr]%index_rows_elem & Hf). cbn in Hf.
    destruct (revision_at _ _) as [r|] eqn:Hrev; [|done]. cbn in Hf. simplify_eq.
    split_and!; [done|by eauto|]. unfold ctx_gens, idx_gens. rewrite Hg.
    by destruct (idx_cache c !! k).
  - intros (Hr & [gens Hg] & Hrev). exists (k, gens). split; [by apply index_rows_elem|].
    cbn. unfold ctx_gens, idx_gens in Hrev. rewrite Hg in Hrev.
    destruct (idx_cache c !! k); cbn in *; by rewrite Hrev.
Qed.

Lemma extra_hits_elem i c key range_end t k rev :
  (k, rev) ∈ extra_hits i c key range_end t ↔
  in_range k key range_end = true ∧ index_map i !! k = None ∧
  revision_at (ctx_gens i c k) t = Some rev.
Proof.
  unfold extra_hits, extra_rev, index_contains, idx_revision_at. rewrite list_elem_of_omap. split.
  - intros ([k' x] & Hx%elem_of_map_to_list & Hf). cbn in Hf.
    destruct (in_range k' key range_end) eqn:Hr; [|done]. cbn in Hf.
    case_bool_decide as Hc; [done|]. apply eq_None_not_Some in Hc.
    destruct (revision_at _ _) as [r|] eqn:Hrev; [|done].
    cbn in Hf. simplify_eq. split_and!; [done..|]. unfold ctx_gens. by rewrite Hx.
  - intros (Hr & Hg & Hrev). unfold ctx_gens, idx_gens in Hrev. rewrite Hg in Hrev.
    destruct (idx_cache c !! k) as [x|] eqn:Hx; [|done].
    exists (k, x). split; [by apply elem_of_map_to_list|]. cbn.
    rewrite Hr, Hg, bool_decide_false by (by intros []). cbn. by rewrite Hrev.
Qed.

Lemma omap_fst_NoDup {A} (f : bytes * A → option Revision) (l : list (bytes * A)) :
  NoDup l.*1 → NoDup (omap (λ r, (λ rev, (r.1, rev)) <$> f r) l).*1.
Proof.
  induction l as [|r l IH]; cbn; [constructor|]. intros [Hr Hl]%NoDup_cons.
  destruct (f r); cbn; [|by apply IH]. constructor; [|by apply IH].
  intros ([k2 r2] & Heq & (r' & Hr' & Hf)%list_elem_of_omap)%list_elem_of_fmap.
  destruct (f r'); [|done]. cbn in *. injection Hf as Hk _. apply Hr.
  rewrite Heq, <- Hk. by apply list_elem_of_fmap_2.
Qed.

Lemma hits_NoDup i c key range_end t :
  NoDup (index_hits i c key range_end t ++ extra_hits i c key range_end t).*1.
Proof.
  rewrite fmap_app. apply NoDup_app. split_and!.
  - apply key_sorted_NoDup, index_hits_sorted.
  - intros k ([k1 r1] & -> & [_ [[g Hg] _]]%index_hits_elem)%list_elem_of_fmap
      ([k2 r2] & Heq & [_ [Hn _]]%extra_hits_elem)%list_elem_of_fmap. cbn in *. congruence.
  - apply omap_fst_NoDup, NoDup_fst_map_to_list.
Qed.

(** All of them in key order. *)
Definition all_hits i c key range_end t : list (bytes * Revision) :=
  let extra := extra_hits i c key range_end t in
  if bool_decide (extra = []) then index_hits i c key range_end t
  else merge_sort key_le (index_hits i c key range_end t ++ extra).

Lemma all_hits_perm i c key range_end t :
  all_hits i c key range_end t
  ≡ₚ index_hits i c key range_end t ++ extra_hits i c key range_end t.
Proof.
  unfold all_hits. case_bool_decide as Hx; [by rewrite Hx, app_nil_r|].
  apply merge_sort_Permutation.
Qed.

Lemma all_hits_spec i c key range_end t :
  hits_spec (ctx_gens i c) key range_end t (all_hits i c key range_end t).
Proof.
  split.
  - unfold all_hits. case_bool_decide; [apply index_hits_sorted|].
    apply merge_sort_key_sorted, hits_NoDup.
  - intros k rev. rewrite all_hits_perm, elem_of_app, index_hits_elem, extra_hits_elem.
    destruct (index_map i !! k); [rewrite is_Some_alt|]; naive_solver.
Qed.

Lemma plan_range_ok i c key range_end t limit co :
  plan_range i c key range_end t limit co = plan_of (all_hits i c key range_end t) limit co.
Proof.
  unfold plan_range.
  rewrite (foldl_pointwise _ (λ '(hits, total) r,
    match index_rev c t r with
    | Some rev => (if below_cap (length hits)
          (if co then Some 0%nat
           else if (0 <? limit)%nat && negb (negb (bool_decide (idx_cache c = ∅)))
                then Some limit else None)
        then hits ++ [(r.1, rev)] else hits, total + 1)
    | None => (hits, total)
    end)) by (intros [] []; done).
  set (cap := if co then _ else _).
  pose proof (plan_fold (index_rev c t) cap (index_rows i key range_end) []) as Hfold.
  assert (cap_take cap ([] : list (bytes * Revision)) = []) as Hnil by (by destruct cap as [[]|]).
  rewrite Hnil in Hfold. cbn [length] in Hfold. change (Z.of_nat 0) with 0 in Hfold.
  rewrite Hfold. cbn [app]. clear Hfold. fold (index_hits i c key range_end t).
  rewrite (foldl_pointwise _ (λ '(hits, total, added) r,
    match extra_rev i key range_end t r with
    | Some rev => if co then (hits, total + 1, added) else (hits ++ [(r.1, rev)], total + 1, true)
    | None => (hits, total, added)
    end)).
  2:{ intros [[]] []. unfold extra_rev. cbn. by destruct (_ || _). }
  rewrite overlay_fold. fold (extra_hits i c key range_end t).
  unfold plan_of. rewrite (Permutation_length (all_hits_perm i c key range_end t)), length_app.
  unfold all_hits. set (H1 := index_hits i c key range_end t).
  set (X := extra_hits i c key range_end t).
  assert (∀ l : list (bytes * Revision), (if (0 <? limit)%nat then take limit l else l) = limited limit l)
    as Hlim by (intros l; by destruct limit).
  case_bool_decide as Hov; cbn [negb].
  - assert (X = []) as HX by (unfold X, extra_hits; by rewrite Hov, map_to_list_empty).
    rewrite HX. cbn [length]. rewrite Nat.add_0_r, Hlim. f_equal.
    unfold cap. cbn [negb]. rewrite andb_true_r. destruct co; [by destruct limit|].
    destruct limit; [done|]. cbn [Nat.ltb Nat.leb andb cap_take limited].
    rewrite take_take. by rewrite Nat.min_id.
  - unfold cap. cbn [negb]. rewrite andb_false_r. cbn [orb].
    rewrite Hlim, <- Nat2Z.inj_add. f_equal. destruct co; cbn [cap_take negb andb].
    + by destruct limit.
    + unfold sort_hits. case_bool_decide as HX; [by rewrite HX, app_nil_r|done].
Qed.

(** ** Records *)

Section fetch.
Context {E : Type} `{KvStoreLaws E} `{BincodeLaws KvRecord, BincodeLaws KeyIndex}.

(** The live revision is the newest of all. *)
Lemma current_of_max gens r e :
  gens_wf gens → current_of gens = Some r → e ∈ history gens → rev_le e.1 r.
Proof.
  intros Hwf Hcur He. pose proof (history_sorted _ Hwf) as Hs.
  apply current_of_Some in Hcur as (gs & g & rs & _ & _ & _ & Hh). rewrite Hh in He, Hs.
  rewrite app_assoc in He, Hs. apply hist_sorted_app in Hs as (Hlt & _).
  apply elem_of_snoc_iff in He as [He| ->]; [|done].
  apply rev_lt_le. apply (Hlt e (r, false)); [done|]. by apply list_elem_of_singleton.
Qed.

Lemma put_row G ts bound k r :
  core_inv G ts bound → (r, false) ∈ history (G k) →
  ∃ rec g, g ∈ G k ∧ kv_row ts k r = Some rec ∧ put_rec_ok k (created g) r rec.
Proof.
  intros Hc (g & Hg & [[_ Hr]|[? _]]%elem_of_gen_events)%history_elem; [|done].
  destruct (ci_puts _ _ _ Hc k g r Hg Hr) as (rec & Hrow & Hok). by exists rec, g.
Qed.

Context (st : Inner E) (snap : Tables) (c : ApplyContext) (base cur : Z) (bound : Revision).
Context (Hc : ctx_inv (index st) snap c base bound).
Context (Hcore0 : core_inv (idx_gens (index st)) snap (mkRev (cur + 1) 0)).

Let G := ctx_gens (index st) c.
Let vts := apply_batch (batch c) snap.

(** A revision an apply in progress may read at: one above all it did, or
    one it started from. *)
Definition readable (t : Z) : Prop :=
  (∀ k e, e ∈ history (G k) → rev_le e.1 (mkRev t i64_max)) ∨ t ≤ base.

(** The context's record of a key, if it is the one at [rev]. *)
Definition pending_at (k : bytes) (rev : Revision) : option KvRecord :=
  match latest_record_cache c !! k with
  | Some rec => if negb (is_tombstone rec) && (mod_revision rec =? main rev) then Some rec else None
  | None => None
  end.

Lemma pending_right t k rev rec :
  revision_at (G k) (mkRev t i64_max) = Some rev → pending_at k rev = Some rec →
  kv_row vts k rev = Some rec.
Proof.
  intros Hrev Hp. unfold pending_at in Hp. pose proof (cx_latest _ _ _ _ _ Hc k) as Hl.
  destruct (latest_record_cache c !! k) as [r0|]; [|done].
  destruct (is_tombstone r0); [done|]. cbn in Hp.
  destruct (Z.eqb_spec (mod_revision r0) (main rev)) as [Hm|]; [|done]. simplify_eq.
  destruct Hl as [_ Hl]. pose proof (cx_core _ _ _ _ _ Hc) as Hcore.
  destruct (live_rec_inv _ _ _ _ _ Hcore Hl) as (r' & g & Hco & Hg & Hr' & Hrow & Hok).
  assert (r' = rev) as <-; [|done].
  apply revision_at_iff in Hrev as (Hin & Hle & Hmax); [|apply Hcore].
  assert (main r' = main rev) as Hmain by (destruct Hok as (_ & _ & Hmr & _); congruence).
  apply (anti_symm rev_le).
  - apply (Hmax (r', false)); [by eapply history_put|].
    destruct (ci_bound _ _ _ Hcore k (r', false)) as [_ [_ Hs]]; [by eapply history_put|].
    unfold rev_le in *. cbn in *. lia.
  - by apply (current_of_max (G k) r' (rev, false)); [apply Hcore|..].
Qed.

Lemma pending_new t k rev :
  readable t → revision_at (G k) (mkRev t i64_max) = Some rev → pending_at k rev = None →
  (rev, false) ∈ history (idx_gens (index st) k).
Proof.
  intros Ht Hrev Hp. pose proof (cx_core _ _ _ _ _ Hc) as Hcore.
  pose proof (ci_wf _ _ _ Hcore k) as Hwf.
  pose proof (revision_at_elem _ _ _ Hwf Hrev) as Hin.
  destruct (cx_hist _ _ _ _ _ Hc k) as (nw & Hh & Hnw). fold G in Hh, Hin.
  rewrite Hh in Hin. apply elem_of_app in Hin as [Hin|Hin]; [done|exfalso].
  destruct Ht as [Ht|Ht].
  2:{ specialize (Hnw _ Hin). apply revision_at_iff in Hrev as (_ & Hle & _); [|done].
      unfold rev_le in Hle. cbn in *. lia. }
  rewrite revision_at_current in Hrev by (try done; apply Ht).
  assert ((rev, false) ∈ history (G k)) as Hin' by by apply current_of_elem.
  destruct (put_row G vts bound k rev Hcore Hin') as (rec & g & _ & Hrow & Hok).
  assert (live_rec G vts k = Some rec) as Hlive by (unfold live_rec; by rewrite Hrev).
  pose proof (cx_latest _ _ _ _ _ Hc k) as Hl. fold G vts in Hl. unfold pending_at in Hp.
  destruct (latest_record_cache c !! k) as [r0|].
  - rewrite Hlive in Hl. destruct Hl as [_ Hl]. destruct (is_tombstone r0); [done|].
    simplify_eq. destruct Hok as (_ & _ & Hm & _). by rewrite Hm, Z.eqb_refl in Hp.
  - unfold G, ctx_gens in Hh. rewrite Hl in Hh.
    apply (f_equal length) in Hh. rewrite length_app in Hh. destruct nw; [|cbn in *; lia].
    by apply elem_of_nil in Hin.
Qed.

(** An entry a read may put in the value cache. *)
Lemma fill_entry k rev rec :
  (rev, false) ∈ history (idx_gens (index st) k) → kv_row snap k rev = Some rec →
  entry_ok (idx_gens (index st)) snap cur k rev rec.
Proof.
  intros Hin Hrow. split.
  - destruct (ci_bound _ _ _ Hcore0 k _ Hin) as [Hlt [_ Hs]]. unfold rev_lt in Hlt.
    cbn in *. lia.
  - intros d Hd. split; [|done]. by eapply history_kind; [apply Hcore0|..].
Qed.

(** The record of a hit. *)
Definition hit_record (h : bytes * Revision) : KvRecord :=
  default (implicit_zero_record h.1) (kv_row vts h.1 h.2).

Lemma hit_row t k rev :
  revision_at (G k) (mkRev t i64_max) = Some rev →
  kv_row vts k rev = Some (hit_record (k, rev)).
Proof.
  intros Hrev. unfold hit_record. cbn.
  destruct (put_row G vts bound k rev) as (rec & _ & _ & -> & _); [apply Hc| |done].
  apply (revision_at_elem _ (mkRev t i64_max)); [apply Hc|done].
Qed.

Lemma fetch_loop_ok t o ko fill hits v out n :
  readable t → (∀ k rev, (k, rev) ∈ hits → revision_at (G k) (mkRev t i64_max) = Some rev) →
  cache_coh v (idx_gens (index st)) snap cur →
  ∃ v' n', fetch_loop snap c hits ko fill out n (st_with st v o)
    = (Ok (out ++ ((λ h, trim (hit_record h) ko) <$> hits), n'), st_with st v' o) ∧
    cache_coh v' (idx_gens (index st)) snap cur.
Proof.
  intros Ht. revert v out n. induction hits as [|[k rev] hits IH]; intros v out n Hhits Hv.
  { exists v, n. cbn. by rewrite app_nil_r. }
  cbn [fetch_loop fmap list_fmap]. fold (pending_at k rev).
  assert (revision_at (G k) (mkRev t i64_max) = Some rev) as Hrev by (apply Hhits; by left).
  assert (∀ k rev, (k, rev) ∈ hits → revision_at (G k) (mkRev t i64_max) = Some rev) as Hhits'
    by (intros; apply Hhits; by right).
  pose proof (hit_row t k rev Hrev) as Hrow.
  assert (∀ v1 n1 rec, cache_coh v1 (idx_gens (index st)) snap cur → kv_row vts k rev = Some rec →
    ∃ v' n', fetch_loop snap c hits ko fill (out ++ [trim rec ko]) n1 (st_with st v1 o)
      = (Ok (out ++ trim (hit_record (k, rev)) ko
               :: ((λ h, trim (hit_record h) ko) <$> hits), n'), st_with st v' o) ∧
      cache_coh v' (idx_gens (index st)) snap cur) as Hgo.
  { intros v1 n1 rec Hv1 Hr. destruct (IH v1 (out ++ [trim rec ko]) n1) as (v' & n' & -> & Hv');
      [done..|]. exists v', n'. split; [|done]. rewrite <- app_assoc.
    rewrite Hrow in Hr. by simplify_eq. }
  destruct (pending_at k rev) as [rec|] eqn:Hp.
  { apply Hgo; [done|]. by apply (pending_right t). }
  pose proof (pending_new t k rev Ht Hrev Hp) as Hin.
  pose proof (cx_old _ _ _ _ _ Hc k rev false Hin) as Hold. fold vts in Hold.
  destruct (cache_lookup_ok st v o _ snap cur k rev false Hv Hin) as (v1 & hit & Hl & Hv1 & Hhit).
  rewrite (pbind_run _ _ _ _ _ Hl). destruct hit as [rec|].
  { apply Hgo; [done|]. rewrite Hold. by apply Hhit. }
  assert (read_record snap k rev = Ok (hit_record (k, rev))) as Hread.
  { rewrite Hold in Hrow. unfold read_record. unfold kv_row in Hrow.
    unfold snap_get. destruct (snap !! _) as [b|]; [|done]. cbn in *. by rewrite Hrow. }
  unfold plift at 1. rewrite Hread. unfold pbind at 1. destruct fill.
  - unfold cache_fill, pmodify, pbind at 1.
    apply (Hgo (cache_insert k rev (hit_record (k, rev)) true v1)); [|done].
    apply cache_all_insert; [done|]. apply fill_entry; [done|]. by rewrite <- Hold.
  - by apply Hgo.
Qed.

(** ** The answer *)

(** The records of a range that [V] shows. *)
Definition view_spec (V : bytes → option KvRecord) (key range_end : bytes)
    (l : list (bytes * KvRecord)) : Prop :=
  key_sorted l ∧ ∀ k rec, (k, rec) ∈ l ↔ in_range k key range_end = true ∧ V k = Some rec.

Lemma hits_view t key range_end hits l :
  hits_spec G key range_end (mkRev t i64_max) hits →
  view_spec (λ k, read_rec G vts k t) key range_end l →
  l = (λ h, (h.1, hit_record h)) <$> hits.
Proof.
  intros [Hs Hh] [Hl Hv]. apply key_sorted_ext; [done|by apply key_sorted_fmap|].
  intros [k rec]. rewrite Hv, list_elem_of_fmap. unfold read_rec. split.
  - intros [Hr Hrow]. destruct (revision_at (G k) _) as [rev|] eqn:Hrev; [|done].
    cbn in Hrow. exists (k, rev). cbn. split; [|by apply Hh].
    rewrite (hit_row t) in Hrow by done. by simplify_eq.
  - intros ([k' rev] & [= -> ->] & [Hr Hrev]%Hh). cbn in *. split; [done|].
    rewrite Hrev. cbn. by apply (hit_row t).
Qed.

Lemma limited_fmap {A B} (f : A → B) n l : limited n (f <$> l) = f <$> limited n l.
Proof. destruct n; [done|]. unfold limited. by rewrite fmap_take. Qed.

Lemma elem_of_limited {A} n (l : list A) x : x ∈ limited n l → x ∈ l.
Proof. destruct n; [done|]. unfold limited. by intros (? & ?%list_elem_of_lookup_2 & _)%elem_of_take. Qed.

Lemma fetch_plan_ok t o key range_end limit ko co fill v l :
  readable t → cache_coh v (idx_gens (index st)) snap cur →
  view_spec (λ k, read_rec G vts k t) key range_end l →
  let plan := plan_range (index st) c key range_end (mkRev t i64_max) limit co in
  ∃ v' kvs n, fetch_records snap c (pl_hits plan) ko fill (st_with st v o)
      = (Ok (kvs, n), st_with st v' o) ∧
    cache_coh v' (idx_gens (index st)) snap cur ∧
    into_result plan kvs co = spec_range l limit ko co.
Proof.
  intros Ht Hv Hl plan. unfold plan. rewrite plan_range_ok.
  pose proof (all_hits_spec (index st) c key range_end (mkRev t i64_max)) as Hh.
  set (hits := all_hits _ _ _ _ _) in *. fold G in Hh.
  pose proof (hits_view t key range_end hits l Hh Hl) as ->.
  destruct (fetch_loop_ok t o ko fill (pl_hits (plan_of hits limit co)) v [] 0)
    as (v' & n & Hrun & Hv'); [done| |done|].
  { intros k rev Hin. apply Hh. cbn in Hin. destruct co; [by apply elem_of_nil in Hin|].
    by eapply elem_of_limited. }
  do 3 eexists. split; [exact Hrun|]. split; [done|].
  unfold into_result, spec_range, plan_of. cbn. rewrite length_fmap. f_equal.
  destruct co; [done|]. by rewrite limited_fmap, <- list_fmap_compose.
Qed.
End fetch.

(** ** Ranges of the store *)

Section range.
Context {E : Type} `{KvStoreLaws E} `{BincodeLaws KvRecord, BincodeLaws KeyIndex}.

(** The records of a key range at a revision, in key order. *)
Definition store_view (st : Inner E) (t : Z) (key range_end : bytes) : list (bytes * KvRecord) :=
  omap (λ r : bytes * list Generation,
    (λ rec, (r.1, rec)) <$> read_rec (idx_gens (index st)) (contents (engine st)) r.1 t)
    (index_rows (index st) key range_end).

Lemma store_view_spec (st : Inner E) t key range_end :
  view_spec (λ k, read_rec (idx_gens (index st)) (contents (engine st)) k t) key range_end
    (store_view st t key range_end).
Proof.
  split.
  - apply key_sorted_omap; [|apply index_rows_sorted].
    intros p q. destruct (read_rec _ _ _ _); [|done]. by intros [= <-].
  - intros k rec. unfold store_view. rewrite list_elem_of_omap. split.
    + intros ([k' gens] & [Hg Hr]%index_rows_elem & Hrec). cbn in Hrec.
      destruct (read_rec _ _ k' t) eqn:Hread; [|done]. cbn in Hrec. by simplify_eq.
    + intros [Hr Hrec]. destruct (index_map (index st) !! k) as [gens|] eqn:Hg.
      * exists (k, gens). split; [by apply index_rows_elem|]. cbn. by rewrite Hrec.
      * unfold read_rec, idx_gens in Hrec. by rewrite Hg in Hrec.
Qed.

Lemma view_spec_unique V V' key range_end l l' :
  (∀ k, V k = V' k) → view_spec V key range_end l → view_spec V' key range_end l' → l = l'.
Proof.
  intros HV [Hs Hl] [Hs' Hl']. apply key_sorted_ext; [done..|].
  intros [k rec]. by rewrite Hl, Hl', HV.
Qed.

Lemma a_range_view A key range_end : view_spec (a_live A) key range_end (a_range A key range_end).
Proof. split; [apply a_range_sorted|]. intros k rec. apply a_range_elem. Qed.

(** At the current revision the view is the keys the store holds. *)
Lemma store_view_current (st : Inner E) A key range_end :
  store_inv st → abs_rel A (idx_gens (index st)) (contents (engine st)) →
  store_view st (current_rev (write_state st)) key range_end = a_range A key range_end.
Proof.
  intros Hst HA. eapply view_spec_unique; [|apply store_view_spec|apply a_range_view].
  intros k. cbn. rewrite (abs_live A _ _ _ k (si_core _ Hst) HA).
  eapply read_live; [apply (si_core _ Hst)|done].
Qed.

Definition range_answer (st : Inner E) (key range_end : bytes) (limit : nat) (t : Z)
    (keys_only count_only : bool) : MvccResult (RangeResult * Z) :=
  let cur := current_rev (write_state st) in
  let cmp := compact_rev (write_state st) in
  if (0 <? t) && (cur <? t) then Err (FutureRevision t cur)
  else if (0 <? t) && (t <? cmp) then Err (Compacted t cmp)
  else Ok (spec_range (store_view st (if t =? 0 then cur else t) key range_end)
             limit keys_only count_only, cur).

(** With no commit under way the first try of [read_view] gives the state. *)
Lemma read_view_ok {R} (f : ResidentIndex → Revs → MvccResult R) (st : Inner E) :
  store_inv st →
  read_view f st
  = (let? r := f (index st) (ws_revs (write_state st)) in
     Ok (contents (engine st), ws_revs (write_state st), r), st).
Proof.
  intros Hst. unfold read_view, READ_VIEW_TRIES. cbn [read_view_try].
  rewrite (pbind_run pget _ st st st) by done.
  rewrite (pbind_run snapshot _ st (contents (engine st)) st) by done.
  rewrite (si_commits _ Hst), Z.leb_refl, (si_view _ Hst). unfold plift, pbind.
  by destruct (f _ _).
Qed.

Lemma range_ok (st : Inner E) key range_end limit t ko co :
  store_inv st →
  let '(r, st') := range_with_revision key range_end limit t ko co st in
  r = range_answer st key range_end limit t ko co ∧ same_store st st'.
Proof.
  intros Hst. unfold range_with_revision, count_range, pmodify. unfold pbind at 1.
  set (o := mkOpCounts _ _ _ _). change (set_ops o st) with (st_with st (values st) o).
  assert (∀ v, cache_coh v (idx_gens (index st)) (contents (engine st))
                 (current_rev (write_state st)) → same_store st (st_with st v o)) as Hsame.
  { intros v Hv. exists v, o. split; [done|]. by apply store_inv_with. }
  destruct (Hsame (values st) (si_cache _ Hst)) as (? & ? & _ & Hst0).
  unfold pbind at 1. rewrite read_view_ok by done.
  change (index (st_with st (values st) o)) with (index st).
  change (write_state (st_with st (values st) o)) with (write_state st).
  change (engine (st_with st (values st) o)) with (engine st).
  unfold range_answer, check_read_rev. cbn [rv_current rv_compact ws_revs].
  set (cur := current_rev (write_state st)) in *. set (cmp := compact_rev (write_state st)).
  destruct (0 <? t) eqn:Hpos; cbn [andb];
    [destruct (cur <? t) eqn:Hfut; [split; [done|apply Hsame, (si_cache _ Hst)]|];
     destruct (t <? cmp) eqn:Hcmp; [split; [done|apply Hsame, (si_cache _ Hst)]|]|];
    cbn [res_bind].
  all: set (t' := if t =? 0 then cur else t).
  all: assert (t' ≤ cur) as Ht' by (unfold t'; pose proof (si_revs _ Hst); destruct (Z.eqb_spec t 0); lia).
  all: destruct (fetch_plan_ok st (contents (engine st)) ApplyContext_default cur cur
         (mkRev (cur + 1) 0) (ctx_inv_default _ _ _ _ (si_core _ Hst)) (si_core _ Hst) t' o
         key range_end limit ko co ((t =? 0) || (t =? cur)) (values st)
         (store_view st t' key range_end) ltac:(by right) (si_cache _ Hst)
         (store_view_spec st t' key range_end)) as (v' & kvs & n & Hrun & Hv' & Hres).
  all: rewrite (pbind_run _ _ _ _ _ Hrun); split; [by rewrite <- Hres|by apply Hsame].
Qed.

(** C3.  A range read is exact: over a well-formed store it answers the
    records of the key range at the revision asked (the current one for 0),
    in key order, cut at [limit], with the full count and whether more
    remain; a revision not reached or already compacted is refused with its
    own error; the read moves only the value cache and the counters, so a
    cached value never shows in the answer. *)
Theorem range_exact (st : Inner E) key range_end limit t keys_only count_only :
  store_inv st →
  let '(r, st') := range_with_revision key range_end limit t keys_only count_only st in
  let cur := current_rev (write_state st) in
  let cmp := compact_rev (write_state st) in
  same_store st st' ∧
  r = if (0 <? t) && (cur <? t) then Err (FutureRevision t cur)
      else if (0 <? t) && (t <? cmp) then Err (Compacted t cmp)
      else Ok (spec_range (store_view st (if t =? 0 then cur else t) key range_end)
                 limit keys_only count_only, cur).
Proof.
  intros Hst. pose proof (range_ok st key range_end limit t keys_only count_only Hst) as Hok.
  destruct (range_with_revision _ _ _ _ _ _ st) as [r st']. by destruct Hok.
Qed.

Lemma store_view_stable (st st' : Inner E) new_rev A t key range_end :
  advanced st st' new_rev A → t ≤ current_rev (write_state st) →
  store_view st' t key range_end = store_view st t key range_end.
Proof.
  intros Hadv Ht. eapply view_spec_unique; [|apply store_view_spec|apply store_view_spec].
  intros k. cbn. by apply (adv_read _ _ _ _ Hadv).
Qed.

Lemma apply_extends (st : Inner E) A ms out st' t key range_end :
  store_inv st → abs_rel A (idx_gens (index st)) (contents (engine st)) →
  Forall mutation_wf ms →
  current_rev (write_state st) < i64_max → Z.of_nat (length ms) ≤ i64_max →
  apply ms st = (Ok out, st') → 0 < t ≤ current_rev (write_state st) →
  store_inv st' ∧ current_rev (write_state st) ≤ current_rev (write_state st') ∧
  compact_rev (write_state st') = compact_rev (write_state st) ∧
  store_view st' t key range_end = store_view st t key range_end.
Proof.
  intros Hst HA Hms Hmax Hlen Happ Ht.
  destruct ms as [|m ms]; [by injection Happ as _ <-|].
  pose proof (apply_ok st A (m :: ms) Hst HA ltac:(done) Hms Hmax Hlen) as Hok.
  cbv zeta in Hok. rewrite Happ in Hok.
  destruct (spec_mutations _ _ _ _) as [[[A' rs] evs]|refusal]; [|by destruct Hok].
  destruct (any_produced rs).
  - destruct Hok as (_ & Hadv & _). split_and!.
    + apply (adv_inv _ _ _ _ Hadv).
    + rewrite (adv_rev _ _ _ _ Hadv). lia.
    + apply (adv_compact _ _ _ _ Hadv).
    + eapply store_view_stable; [done|lia].
  - destruct Hok as (_ & v & o & -> & Hst'). by split_and!.
Qed.

(** C27.  The past does not change: a range at a revision the store already
    has answers the same records before and after any successful [apply]. *)
Theorem past_reads_never_change (st : Inner E) A ms out st' key range_end limit t ko co :
  store_inv st → abs_rel A (idx_gens (index st)) (contents (engine st)) →
  Forall mutation_wf ms →
  current_rev (write_state st) < i64_max → Z.of_nat (length ms) ≤ i64_max →
  apply ms st = (Ok out, st') → 0 < t ≤ current_rev (write_state st) →
  (range key range_end limit t ko co st').1 = (range key range_end limit t ko co st).1.
Proof.
  intros Hst HA Hms Hmax Hlen Happ Ht.
  destruct (apply_extends st A ms out st' t key range_end)
    as (Hst' & Hcur & Hcmp & Hview); [done..|].
  unfold range, pbind.
  pose proof (range_ok st key range_end limit t ko co Hst) as Hr.
  pose proof (range_ok st' key range_end limit t ko co Hst') as Hr'.
  destruct (range_with_revision _ _ _ _ _ _ st) as [r1 s1].
  destruct (range_with_revision _ _ _ _ _ _ st') as [r2 s2].
  destruct Hr as [-> _], Hr' as [-> _]. unfold range_answer. rewrite Hcmp.
  destruct (Z.ltb_spec 0 t); [|lia]. cbn [andb].
  destruct (Z.ltb_spec (current_rev (write_state st)) t); [lia|].
  destruct (Z.ltb_spec (current_rev (write_state st')) t); [lia|].
  destruct (t <? _); [done|]. destruct (Z.eqb_spec t 0); [lia|]. by rewrite Hview.
Qed.
End range.

(** ** Witnesses *)

Section witnesses.
Import Demo.

(** The demo store after a first [apply]. *)
Definition demo_store1 : Inner MemEngine := (apply demo_ms (demo_store [])).2.

Lemma demo_inv1 :
  store_inv demo_store1 ∧
  abs_rel demo_abs1 (idx_gens (index demo_store1)) (contents (engine demo_store1)).
Proof.
  pose proof (apply_ok (demo_store []) ∅ demo_ms (demo_inv []) (demo_abs [])
                ltac:(done) demo_ms_wf ltac:(done) ltac:(done)) as Hok.
  cbv zeta in Hok. change (current_rev (write_state (demo_store [])) + 1) with 1 in Hok.
  destruct demo_spec as (evs & Hspec & _). rewrite Hspec in Hok.
  assert ((apply demo_ms (demo_store [])).1 = Ok (1, demo_results)) as Hr
    by (vm_compute; reflexivity).
  unfold demo_store1. destruct (apply demo_ms (demo_store [])) as [r st'].
  cbn [fst snd] in *. subst r. destruct Hok as (_ & Hadv & _). by destruct Hadv.
Qed.

Lemma range_exact_witness :
  (range_with_revision (str "a") [x00] 0 0 false false demo_store1).1
  = Ok (mkRangeResult [demo_rec (str "b") (str "2") 1 1 1 0] false 1, 1).
Proof.
  pose proof (range_exact demo_store1 (str "a") [x00] 0 0 false false (proj1 demo_inv1)) as Hok.
  destruct (range_with_revision _ _ _ _ _ _ demo_store1) as [r st'].
  destruct Hok as [_ Hr]. cbn [fst]. rewrite Hr. vm_compute. reflexivity.
Defined.

Lemma past_reads_never_change_witness :
  let st2 := (apply [DeleteRange (str "b") [] false] demo_store1).2 in
  (range (str "b") [] 0 1 false false st2).1 = (range (str "b") [] 0 1 false false demo_store1).1
  ∧ (range (str "b") [] 0 1 false false st2).1
    = Ok (mkRangeResult [demo_rec (str "b") (str "2") 1 1 1 0] false 1).
Proof.
  destruct (apply [DeleteRange (str "b") [] false] demo_store1) as [r st2] eqn:Happ. cbn [snd].
  assert (r = Ok (2, [mkMutationResult 1 []])) as ->
    by (rewrite <- (f_equal fst Happ : _ = r); vm_compute; reflexivity).
  assert ((range (str "b") [] 0 1 false false demo_store1).1
          = Ok (mkRangeResult [demo_rec (str "b") (str "2") 1 1 1 0] false 1)) as Hr1
    by (vm_compute; reflexivity).
  assert (current_rev (write_state demo_store1) = 1) as Hcur by (vm_compute; reflexivity).
  pose proof (past_reads_never_change demo_store1 demo_abs1 [DeleteRange (str "b") [] false]
    (2, [mkMutationResult 1 []]) st2 (str "b") [] 0 1 false false (proj1 demo_inv1)
    (proj2 demo_inv1) ltac:(repeat constructor) ltac:(rewrite Hcur; reflexivity)
    ltac:(discriminate) Happ ltac:(rewrite Hcur; split; [reflexivity|discriminate])) as Hok.
  split; [exact Hok|]. rewrite Hok. exact Hr1.
Defined.
End witnesses.
