(* ===== verification/StoreTxn.v ===== *)
(** * Transactions

    Compares, ranges inside a transaction, nested transactions and [txn],
    against [spec_txn]. *)

From S2P Require Import Prelude Revision Record KvStore Lease Cache Auth Store StoreCore.
From S2P Require Import StoreSpec StoreInv StoreApply StoreCommit StoreOpen StoreDemo StoreWrite.
From S2P Require Import StoreRead.

(** ** Induction over operations *)

Section txn_op_ind.
Context (P : TxnOp → Prop).
Context (Hrange : ∀ r, P (OpRange r)) (Hmut : ∀ m, P (OpMutation m)).
Context (Htxn : ∀ cs s f, Forall P s → Forall P f → P (OpTxn cs s f)).

Definition txn_op_ind' : ∀ op, P op :=
  fix go op :=
    let all := fix all (l : list TxnOp) : Forall P l :=
      match l with
      | [] => Forall_nil_2 P
      | op :: l' => Forall_cons_2 P op l' (go op) (all l')
      end in
    match op with
    | OpRange r => Hrange r
    | OpMutation m => Hmut m
    | OpTxn cs s f => Htxn cs s f (all s) (all f)
    end.
End txn_op_ind.

(** The mutations an operation may run. *)
Fixpoint op_size (op : TxnOp) : nat :=
  match op with
  | OpRange _ => 0
  | OpMutation _ => 1
  | OpTxn _ s f => sum_list_with op_size s + sum_list_with op_size f
  end.

Fixpoint op_ok (op : TxnOp) : Prop :=
  match op with
  | OpRange _ => True
  | OpMutation m => mutation_wf m
  | OpTxn _ s f => foldr and True (op_ok <$> s) ∧ foldr and True (op_ok <$> f)
  end.

Definition ops_size (l : list TxnOp) : nat := sum_list_with op_size l.
Definition ops_ok (l : list TxnOp) : Prop := foldr and True (op_ok <$> l).

(** ** Compares *)

Section compare.
Context {E : Type} `{KvStoreLaws E} `{BincodeLaws KvRecord, BincodeLaws KeyIndex}.

Context (st : Inner E) (snap : Tables) (c : ApplyContext) (base cur : Z) (bound : Revision).
Context (Hc : ctx_inv (index st) snap c base bound) (Hi : index_ok (index st)).
Context (Hcore0 : core_inv (idx_gens (index st)) snap (mkRev (cur + 1) 0)).

Let G := ctx_gens (index st) c.
Let vts := apply_batch (batch c) snap.

Lemma all_below k e : e ∈ history (G k) → rev_le e.1 (mkRev i64_max i64_max).
Proof.
  intros He. destruct (ci_bound _ _ _ (cx_core _ _ _ _ _ Hc) k e He) as [_ [??]].
  unfold rev_le. cbn. lia.
Qed.

Lemma current_hit k : revision_at (G k) (mkRev i64_max i64_max) = current_of (G k).
Proof. apply revision_at_current; [apply (cx_core _ _ _ _ _ Hc)|]. apply all_below. Qed.

Lemma record_at_ok v o k rev :
  cache_coh v (idx_gens (index st)) snap cur → current_of (G k) = Some rev →
  ∃ v' rec, record_at snap c k rev (st_with st v o) = (Ok rec, st_with st v' o) ∧
    live_rec G vts k = Some rec ∧ cache_coh v' (idx_gens (index st)) snap cur.
Proof.
  intros Hv Hcur. assert (revision_at (G k) (mkRev i64_max i64_max) = Some rev) as Hrev
    by by rewrite current_hit.
  pose proof (hit_row st snap c base bound Hc i64_max k rev Hrev) as Hrow.
  set (rec := hit_record snap c (k, rev)) in *. fold vts in Hrow.
  assert (live_rec G vts k = Some rec) as Hlive by (unfold live_rec; by rewrite Hcur).
  unfold record_at. fold (pending_at c k rev).
  destruct (pending_at c k rev) as [r0|] eqn:Hp.
  { exists v, r0. split_and!; [done| |done]. unfold live_rec. rewrite Hcur. cbn.
    by eapply pending_right. }
  pose proof (pending_new st snap c base bound Hc i64_max k rev (or_introl all_below) Hrev Hp)
    as Hin.
  pose proof (cx_old _ _ _ _ _ Hc k rev false Hin) as Hold. fold vts in Hold.
  destruct (cache_lookup_ok st v o _ snap cur k rev false Hv Hin) as (v1 & hit & Hl & Hv1 & Hhit).
  rewrite (pbind_run _ _ _ _ _ Hl). exists v1, rec. split_and!; [|done..].
  destruct hit as [r0|].
  - destruct (Hhit r0 eq_refl) as [_ Hr0]. rewrite <- Hold, Hrow in Hr0. by simplify_eq.
  - unfold plift. rewrite Hold in Hrow. unfold read_record, snap_get. unfold kv_row in Hrow.
    destruct (snap !! _) as [b|]; [|done]. cbn in *. by rewrite Hrow.
Qed.

(** The record a compare looks at. *)
Definition compare_holds (cmp : Compare) (k : bytes) : bool :=
  eval_compare (default (implicit_zero_record k) (live_rec G vts k)) (cmp_op cmp) (cmp_target cmp).

Lemma compare_all_ok v o cmp keys :
  (∀ k rev, (k, rev) ∈ keys → current_of (G k) = rev) →
  cache_coh v (idx_gens (index st)) snap cur →
  ∃ v', compare_all snap c cmp keys (st_with st v o)
        = (Ok (forallb (λ p, compare_holds cmp p.1) keys), st_with st v' o) ∧
        cache_coh v' (idx_gens (index st)) snap cur.
Proof.
  revert v. induction keys as [|[k rev] keys IH]; intros v Hk Hv; [by exists v|].
  cbn [compare_all forallb fst]. assert (current_of (G k) = rev) as Hrev by (apply Hk; by left).
  assert (∃ v1 rec, (match rev with
                     | None => pret (implicit_zero_record k)
                     | Some rev => record_at snap c k rev
                     end) (st_with st v o) = (Ok rec, st_with st v1 o) ∧
    rec = default (implicit_zero_record k) (live_rec G vts k) ∧
    cache_coh v1 (idx_gens (index st)) snap cur) as (v1 & rec & Hrun & -> & Hv1).
  { destruct rev as [rev|].
    - destruct (record_at_ok v o k rev Hv Hrev) as (v1 & rec & Hrun & Hlive & Hv1).
      exists v1, rec. by rewrite Hlive.
    - exists v. eexists. split; [done|]. split; [|done]. unfold live_rec. by rewrite Hrev. }
  rewrite (pbind_run _ _ _ _ _ Hrun). fold (compare_holds cmp k).
  destruct (compare_holds cmp k); cbn [andb].
  - apply IH; [|done]. intros; apply Hk; by right.
  - by exists v1.
Qed.

(** The keys one compare covers, with their live revisions. *)
Definition target_keys (i : ResidentIndex) (c : ApplyContext) (cmp : Compare)
    : list (bytes * option Revision) :=
  let current k (resident : option (list Generation)) :=
    match idx_cache c !! k with
    | Some idx => fst <$> Record.current idx
    | None => resident ≫= current_of
    end in
  if bool_decide (cmp_range_end cmp = []) then
    let resident := index_get_generations i (cmp_key cmp) in
    if bool_decide (resident = None) && bool_decide (idx_cache c !! cmp_key cmp = None)
    then [] else [(cmp_key cmp, current (cmp_key cmp) resident)]
  else
    ((λ r, (r.1, current r.1 (Some r.2))) <$> index_rows i (cmp_key cmp) (cmp_range_end cmp))
    ++ omap (λ r : bytes * KeyIndex,
         if in_range r.1 (cmp_key cmp) (cmp_range_end cmp) && negb (index_contains i r.1)
         then Some (r.1, fst <$> Record.current r.2) else None) (map_to_list (idx_cache c)).

Lemma compare_targets_in_map i c' cmps : compare_targets_in i c' cmps = target_keys i c' <$> cmps.
Proof. done. Qed.

Lemma target_current k :
  match idx_cache c !! k with
  | Some idx => fst <$> Record.current idx
  | None => index_map (index st) !! k ≫= current_of
  end = current_of (G k).
Proof.
  unfold G, ctx_gens, idx_gens. destruct (idx_cache c !! k); [apply current_current_of|].
  by destruct (index_map (index st) !! k).
Qed.

Lemma target_keys_current cmp k rev :
  (k, rev) ∈ target_keys (index st) c cmp → current_of (G k) = rev.
Proof.
  unfold target_keys. case_bool_decide as Hre.
  - destruct (_ && _); [by intros ?%elem_of_nil|].
    intros [= -> ->]%list_elem_of_singleton. symmetry. apply target_current.
  - intros [([k' gens] & [= -> ->] & [Hg _]%index_rows_elem)%list_elem_of_fmap
           |([k' x] & Hx%elem_of_map_to_list & Hp)%list_elem_of_omap]%elem_of_app; cbn in *.
    + rewrite <- target_current, Hg. done.
    + destruct (_ && _); [|done]. simplify_eq. rewrite <- target_current. by rewrite Hx.
Qed.

(** A range compare covers the keys with a history. *)
Lemma target_keys_range cmp k :
  cmp_range_end cmp ≠ [] →
  (∃ rev, (k, rev) ∈ target_keys (index st) c cmp) ↔
  in_range k (cmp_key cmp) (cmp_range_end cmp) = true ∧ G k ≠ [].
Proof.
  intros Hre. unfold target_keys. rewrite bool_decide_false by done. split.
  - intros (rev & [([k' gens] & [= -> ->] & [Hg Hr]%index_rows_elem)%list_elem_of_fmap
             |([k' x] & Hx%elem_of_map_to_list & Hp)%list_elem_of_omap]%elem_of_app); cbn in *.
    + split; [done|]. unfold G, ctx_gens, idx_gens. rewrite Hg. cbn.
      destruct (idx_cache c !! k') as [x|] eqn:Hx; [by eapply (cx_key _ _ _ _ _ Hc)|].
      intros ->. by apply (proj2 Hi k').
    + destruct (in_range k' _ _) eqn:Hr; [|done]. destruct (negb _); [|done]. simplify_eq/=.
      split; [done|]. unfold G, ctx_gens. rewrite Hx. by eapply (cx_key _ _ _ _ _ Hc).
  - intros [Hr Hne]. unfold G, ctx_gens, idx_gens in Hne.
    destruct (index_map (index st) !! k) as [gens|] eqn:Hg.
    + eexists. apply elem_of_app. left. apply list_elem_of_fmap. exists (k, gens).
      split; [done|]. by apply index_rows_elem.
    + destruct (idx_cache c !! k) as [x|] eqn:Hx; [|done].
      eexists. apply elem_of_app. right. apply list_elem_of_omap. exists (k, x).
      split; [by apply elem_of_map_to_list|]. cbn. unfold index_contains.
      rewrite Hr, Hg, bool_decide_false by (by intros []). done.
Qed.

Lemma target_keys_ok A cmp :
  abs_rel A G vts →
  (if bool_decide (cmp_range_end cmp = []) && bool_decide (target_keys (index st) c cmp = [])
   then eval_compare (implicit_zero_record (cmp_key cmp)) (cmp_op cmp) (cmp_target cmp)
   else forallb (λ p, compare_holds cmp p.1) (target_keys (index st) c cmp))
  = spec_compare A cmp.
Proof.
  intros HA. pose proof (cx_core _ _ _ _ _ Hc) as Hcore.
  assert (∀ k, compare_holds cmp k
    = eval_compare (default (implicit_zero_record k) (a_live A k)) (cmp_op cmp) (cmp_target cmp))
    as Hholds by (intros k; unfold compare_holds; by rewrite <- (abs_live A G vts bound k)).
  unfold spec_compare. case_bool_decide as Hre; cbn [andb].
  - unfold target_keys. rewrite (bool_decide_true (cmp_range_end cmp = [])) by done.
    unfold index_get_generations.
    destruct (bool_decide (index_map (index st) !! cmp_key cmp = None) &&
              bool_decide (idx_cache c !! cmp_key cmp = None)) eqn:Hb.
    + rewrite (bool_decide_true ([] = [])) by done.
      apply andb_true_iff in Hb as [Hg%bool_decide_eq_true Hx%bool_decide_eq_true].
      unfold a_live. rewrite HA. unfold G, ctx_gens, idx_gens. by rewrite Hx, Hg.
    + rewrite (bool_decide_false (_ = [])) by done. cbn. by rewrite andb_true_r, Hholds.
  - apply eq_true_iff_eq. rewrite !forallb_forall. split.
    + intros Hall [k l] Hin%list_elem_of_In%elem_of_map_to_list. cbn.
      destruct (in_range k _ _) eqn:Hr; [|done]. cbn. rewrite <- Hholds.
      destruct (proj2 (target_keys_range cmp k Hre)) as [rev Hrev].
      { split; [done|]. intros Hnil. rewrite HA, decide_True in Hin by done. done. }
      by apply (Hall (k, rev)), list_elem_of_In.
    + intros Hall [k rev] Hin%list_elem_of_In. cbn.
      destruct (proj1 (target_keys_range cmp k Hre)) as [Hr Hne]; [by eexists|].
      rewrite Hholds. specialize (HA k). rewrite decide_False in HA by done.
      specialize (Hall (k, _) (proj1 (list_elem_of_In _ _) (proj2 (elem_of_map_to_list _ _ _) HA))).
      cbn in Hall. by rewrite Hr in Hall.
Qed.

Lemma evaluate_compares_with_ok A cmps v o :
  abs_rel A G vts → cache_coh v (idx_gens (index st)) snap cur →
  ∃ v', evaluate_compares_with snap c (zip cmps (target_keys (index st) c <$> cmps))
          (st_with st v o) = (Ok (spec_compares A cmps), st_with st v' o) ∧
        cache_coh v' (idx_gens (index st)) snap cur.
Proof.
  intros HA. revert v. induction cmps as [|cmp cmps IH]; intros v Hv; [by exists v|].
  cbn [fmap list_fmap zip_with evaluate_compares_with spec_compares forallb].
  pose proof (target_keys_ok A cmp HA) as Hspec.
  assert (∃ v1, (if bool_decide (cmp_range_end cmp = []) &&
                    bool_decide (target_keys (index st) c cmp = [])
                 then pret (eval_compare (implicit_zero_record (cmp_key cmp)) (cmp_op cmp)
                              (cmp_target cmp))
                 else compare_all snap c cmp (target_keys (index st) c cmp)) (st_with st v o)
                = (Ok (spec_compare A cmp), st_with st v1 o) ∧
                cache_coh v1 (idx_gens (index st)) snap cur) as (v1 & Hrun & Hv1).
  { destruct (_ && _); [exists v; by rewrite Hspec|]. rewrite <- Hspec.
    apply compare_all_ok; [|done]. apply target_keys_current. }
  rewrite (pbind_run _ _ _ _ _ Hrun). destruct (spec_compare A cmp); cbn [andb].
  - by apply IH.
  - by exists v1.
Qed.

Lemma evaluate_compares_ok A cmps v o :
  abs_rel A G vts → cache_coh v (idx_gens (index st)) snap cur →
  ∃ v', evaluate_compares snap c cmps (st_with st v o)
        = (Ok (spec_compares A cmps), st_with st v' o) ∧
        cache_coh v' (idx_gens (index st)) snap cur.
Proof.
  intros HA Hv. unfold evaluate_compares.
  rewrite (pbind_run pget _ (st_with st v o) (st_with st v o) (st_with st v o)) by done.
  rewrite compare_targets_in_map. by apply evaluate_compares_with_ok.
Qed.
End compare.

(** ** Operations *)

(** Ranges of an operation name no revision. *)
Fixpoint op_plain (op : TxnOp) : Prop :=
  match op with
  | OpRange r => ro_revision r = 0
  | OpMutation _ => True
  | OpTxn _ s f => foldr and True (op_plain <$> s) ∧ foldr and True (op_plain <$> f)
  end.
Definition ops_plain (l : list TxnOp) : Prop := foldr and True (op_plain <$> l).

Section ops.
Context {E : Type} `{KvStoreLaws E} `{BincodeLaws KvRecord, BincodeLaws KeyIndex}.

Context (st : Inner E) (env : TxnEnv) (state : WriteState).
Let i := index st.
Let snap := contents (engine st).
Let base := current_rev (write_state st).
Let lc := te_current env.
Context (Hst : store_inv st) (Hlc : base ≤ lc < i64_max).
Context (Hstate : current_rev state = lc ∧ compact_rev state = te_compact env).
Context (Hstart : abs_rel (te_start env) (idx_gens i) snap).
Context (Hpast : ∀ t key range_end, t ≤ base →
  view_spec (λ k, read_rec (idx_gens i) snap k t) key range_end (te_past env t key range_end)).

(** What the events so far stay below. *)
Definition txn_bound (s : TxnState) : Revision :=
  mkRev (lc + 1) (if ts_produced s then ts_sub s else 0).

Definition txn_exec (s : TxnState) : TxnExec := mkExec (lc + 1) (ts_sub s) (ts_produced s).

(** The context holds what the specification's state says. *)
Record txn_rel (c : ApplyContext) (s : TxnState) (ev0 : list MvccEvent) (m0 : list (Z * nat))
    : Prop := {
  tr_inv : ctx_inv i snap c base (txn_bound s);
  tr_abs : abs_rel (ts_abs s) (ctx_gens i c) (apply_batch (batch c) snap);
  tr_sub : 0 ≤ ts_sub s;
  tr_events : pending_events c = ev0 ++ ts_events s;
  tr_marks : event_marks c = m0
}.

Definition coh (v : ValueCache) : Prop := cache_coh v (idx_gens i) snap base.

Lemma txn_range_ok v o c s ev0 m0 r :
  coh v → txn_rel c s ev0 m0 → (base = lc ∨ ro_revision r = 0) →
  let read_state := if ts_produced s then set_current_rev (lc + 1) state else state in
  ∃ v' o', range_inner snap c read_state r (st_with st v o)
           = (spec_txn_range env s r, st_with st v' o') ∧ coh v'.
Proof.
  intros Hv Hr Hplain read_state. unfold range_inner, count_range, pmodify. unfold pbind at 1.
  set (o' := mkOpCounts _ _ _ _).
  change (set_ops o' (st_with st v o)) with (st_with st v o').
  set (now := if ts_produced s then lc + 1 else lc).
  assert (ws_revs read_state = mkRevs now (te_compact env)) as ->.
  { unfold read_state, now, ws_revs. destruct Hstate as [Hs1 Hs2].
    destruct (ts_produced s); cbn; by rewrite ?Hs1, Hs2. }
  unfold spec_txn_range, check_read_rev. cbn [rv_current rv_compact]. fold lc now.
  set (t := ro_revision r) in *.
  set (t' := if t =? 0 then now else t).
  assert ((0 <? t) && (now <? t) = false → (0 <? t) && (t <? te_compact env) = false →
    let view := if (t =? 0) || (t =? now) then a_range (ts_abs s) (ro_key r) (ro_range_end r)
                else te_past env t (ro_key r) (ro_range_end r) in
    ∃ v', (let* st0 := pget in
           let plan := plan_range (index st0) c (ro_key r) (ro_range_end r) (mkRev t' i64_max)
                         (ro_limit r) (ro_count_only r) in
           let* (kvs, _) := fetch_records snap c (pl_hits plan) (ro_keys_only r) false in
           pret (into_result plan kvs (ro_count_only r))) (st_with st v o')
          = (Ok (spec_range view (ro_limit r) (ro_keys_only r) (ro_count_only r)),
             st_with st v' o') :> (MvccResult RangeResult * _) ∧ coh v') as Hgo.
  { intros Hfut Hcmp view.
    rewrite (pbind_run pget _ (st_with st v o') (st_with st v o') (st_with st v o')) by done.
    change (index (st_with st v o')) with i.
    assert (rev_le (txn_bound s) (mkRev (now + 1) 0)) as Hbound.
    { unfold txn_bound, now, rev_le. pose proof (tr_sub _ _ _ _ Hr).
      destruct (ts_produced s); cbn; lia. }
    pose proof (tr_inv _ _ _ _ Hr) as Hc. pose proof (cx_core _ _ _ _ _ Hc) as Hcore.
    assert (t' = now ∨ t' ≤ base) as Ht'.
    { unfold t', t in *. unfold now in *. destruct (Z.eqb_spec (ro_revision r) 0); [by left|].
      destruct Hplain as [Hb|?]; [|done]. destruct (Z.ltb_spec 0 (ro_revision r)); cbn in *;
      [|right; pose proof (si_revs _ Hst); unfold base; lia].
      destruct (Z.ltb_spec (if ts_produced s then lc + 1 else lc) (ro_revision r)); [done|].
      destruct (ts_produced s); lia. }
    assert (readable st c base t') as Hread.
    { destruct Ht' as [->|Ht']; [left|by right]. intros k e He.
      destruct (ci_bound _ _ _ Hcore k e He) as [Hlt [_ ?]].
      pose proof (rev_lt_le_trans _ _ _ Hlt Hbound) as Hx. unfold rev_lt in Hx.
      unfold rev_le. cbn in *. lia. }
    assert (view_spec (λ k, read_rec (ctx_gens i c) (apply_batch (batch c) snap) k t')
              (ro_key r) (ro_range_end r) view) as Hview.
    { assert (t' = now → view_spec (λ k, read_rec (ctx_gens i c) (apply_batch (batch c) snap) k t')
        (ro_key r) (ro_range_end r) (a_range (ts_abs s) (ro_key r) (ro_range_end r))) as Hnow.
      { intros ->. destruct (a_range_view (ts_abs s) (ro_key r) (ro_range_end r)) as [Hs Hl].
        split; [done|]. intros k rec. rewrite Hl, (abs_live _ _ _ _ k Hcore (tr_abs _ _ _ _ Hr)).
        cbn. by rewrite (read_live _ _ _ k now Hcore Hbound). }
      unfold view, t' in *. destruct (Z.eqb_spec t 0); [by apply Hnow|]. cbn [orb].
      destruct (Z.eqb_spec t now) as [Heq|Hne]; [by apply Hnow|].
      destruct Ht' as [?|Ht']; [done|].
      destruct (Hpast t (ro_key r) (ro_range_end r) Ht') as [Hs Hl].
      split; [done|]. intros k rec. rewrite Hl. cbn.
      by rewrite (ctx_read _ _ _ _ _ _ k t Hc (si_core _ Hst) Ht'). }
    destruct (fetch_plan_ok st snap c base base (txn_bound s) Hc (si_core _ Hst) t' o'
      (ro_key r) (ro_range_end r) (ro_limit r) (ro_keys_only r) (ro_count_only r) false v view
      Hread Hv Hview) as (v' & kvs & n & Hrun & Hv' & Hres).
    exists v'. rewrite (pbind_run _ _ _ _ _ Hrun). split; [|done]. unfold pret.
    by rewrite <- Hres. }
  destruct (0 <? t) eqn:Hpos; cbn [andb] in *;
    [destruct (now <? t) eqn:Hfut; [by exists v, o'|];
     destruct (t <? te_compact env) eqn:Hcmp; [by exists v, o'|]|];
    cbn [res_bind]; unfold plift; unfold pbind at 1;
    (destruct Hgo as (v' & Hrun & Hv'); [done..|]); exists v', o'; split; [exact Hrun|done|exact Hrun|done].
Qed.

Lemma txn_mutation_ok v o c s ev0 m0 m :
  coh v → txn_rel c s ev0 m0 → mutation_wf m → ts_sub s < i64_max →
  match spec_txn_mutation env s m with
  | Err x => ∃ v' o' c', txn_op snap state (txn_exec s) (OpMutation m) (st_with st v o, c)
                         = (Err x, (st_with st v' o', c')) ∧ coh v'
  | Ok (r, s') => ∃ v' o' c',
      txn_op snap state (txn_exec s) (OpMutation m) (st_with st v o, c)
      = (Ok (r, txn_exec s'), (st_with st v' o', c')) ∧ coh v' ∧ txn_rel c' s' ev0 m0 ∧
      ts_sub s' = ts_sub s + 1
  end.
Proof.
  intros Hv Hr Hm Hsub. pose proof (tr_sub _ _ _ _ Hr) as Hsub0.
  pose proof (si_revs _ Hst) as (Hrevs & _).
  set (rev := mkRev (lc + 1) (ts_sub s)).
  assert (rev_le (txn_bound s) rev) as Hle.
  { unfold txn_bound, rev, rev_le. destruct (ts_produced s); cbn; lia. }
  pose proof (apply_one_ok st v o snap c base (txn_bound s) base rev m (ts_abs s)
    (tr_inv _ _ _ _ Hr) Hv Hle ltac:(unfold rev_pos, rev, base in *; cbn; lia)
    ltac:(unfold rev; cbn; lia) Hm (tr_abs _ _ _ _ Hr)) as Hone.
  unfold spec_txn_mutation. fold lc rev. cbn [txn_op txn_exec ex_main ex_sub].
  destruct (spec_mutation rev m (ts_abs s)) as [e|refusal].
  - destruct Hone as (v' & o' & c' & Hrun & Hv' & Hc' & HA' & Hev & Hmk & Hsame).
    exists v', o', c'. rewrite (pbind_run _ _ _ _ _ Hrun). split_and!; [done..| |done].
    split; cbn [ts_abs ts_sub ts_events ts_produced]; [|done|lia|..].
    + unfold txn_bound. cbn [ts_abs ts_sub ts_events ts_produced]. unfold produces in Hsame.
      destruct (0 <? mr_n (ef_result e)).
      * by rewrite orb_true_r.
      * rewrite Hsame, orb_false_r by done. eapply ctx_inv_weaken; [apply (tr_inv _ _ _ _ Hr)|].
        unfold txn_bound, rev_le. destruct (ts_produced s); cbn; lia.
    + by rewrite Hev, (tr_events _ _ _ _ Hr), app_assoc.
    + by rewrite Hmk, (tr_marks _ _ _ _ Hr).
  - destruct Hone as (v' & Hrun & Hv'). exists v', o, c. split; [|done]. by apply pbind_fail.
Qed.

(** The statement proved of every operation. *)
Definition op_refines (op : TxnOp) : Prop :=
  op_ok op → (base = lc ∨ op_plain op) → ∀ v o c s ev0 m0,
  coh v → txn_rel c s ev0 m0 → ts_sub s + Z.of_nat (op_size op) ≤ i64_max →
  match spec_txn_op env s op with
  | Err x => ∃ v' o' c', txn_op snap state (txn_exec s) op (st_with st v o, c)
                         = (Err x, (st_with st v' o', c')) ∧ coh v'
  | Ok (r, s') => ∃ v' o' c',
      txn_op snap state (txn_exec s) op (st_with st v o, c)
      = (Ok (r, txn_exec s'), (st_with st v' o', c')) ∧ coh v' ∧ txn_rel c' s' ev0 m0 ∧
      ts_sub s' ≤ ts_sub s + Z.of_nat (op_size op)
  end.

Lemma txn_ops_refine l :
  Forall op_refines l → ops_ok l → (base = lc ∨ ops_plain l) → ∀ v o c s ev0 m0,
  coh v → txn_rel c s ev0 m0 → ts_sub s + Z.of_nat (ops_size l) ≤ i64_max →
  match spec_txn_ops env s l with
  | Err x => ∃ v' o' c', txn_ops snap state (txn_exec s) l (st_with st v o, c)
                         = (Err x, (st_with st v' o', c')) ∧ coh v'
  | Ok (rs, s') => ∃ v' o' c',
      txn_ops snap state (txn_exec s) l (st_with st v o, c)
      = (Ok (rs, txn_exec s'), (st_with st v' o', c')) ∧ coh v' ∧ txn_rel c' s' ev0 m0 ∧
      ts_sub s' ≤ ts_sub s + Z.of_nat (ops_size l)
  end.
Proof.
  induction 1 as [|op l Hop Hl IH]; intros Hok Hplain v o c s ev0 m0 Hv Hr Hsub.
  { exists v, o, c. split_and!; try done. lia. }
  unfold ops_size in *. cbn [spec_txn_ops txn_ops sum_list_with] in *. destruct Hok as [Ho Hok].
  assert (base = lc ∨ op_plain op) as Hp1 by (destruct Hplain as [?|[??]]; auto).
  assert (base = lc ∨ ops_plain l) as Hp2 by (destruct Hplain as [?|[??]]; auto).
  specialize (Hop Ho Hp1 v o c s ev0 m0 Hv Hr ltac:(lia)).
  destruct (spec_txn_op env s op) as [[r s1]|x]; cbn [res_bind].
  2:{ destruct Hop as (v' & o' & c' & Hrun & Hv'). exists v', o', c'. split; [|done].
      by apply pbind_fail. }
  destruct Hop as (v1 & o1 & c1 & Hrun & Hv1 & Hr1 & Hs1).
  specialize (IH Hok Hp2 v1 o1 c1 s1 ev0 m0 Hv1 Hr1 ltac:(lia)).
  rewrite (pbind_run _ _ _ _ _ Hrun).
  destruct (spec_txn_ops env s1 l) as [[rs s2]|x]; cbn [res_bind].
  - destruct IH as (v2 & o2 & c2 & Hrun2 & Hv2 & Hr2 & Hs2). exists v2, o2, c2.
    rewrite (pbind_run _ _ _ _ _ Hrun2). split_and!; try done. lia.
  - destruct IH as (v2 & o2 & c2 & Hrun2 & Hv2). exists v2, o2, c2. split; [|done].
    by apply pbind_fail.
Qed.

Lemma txn_op_nested e cs succ fail x :
  txn_op (E := E) snap state e (OpTxn cs succ fail) x =
  (let* succeeded := xlift (evaluate_compares snap ApplyContext_default cs) in
   let* (results, exec) := txn_ops snap state e (if succeeded : bool then succ else fail) in
   pret (ResTxn succeeded results, exec)) x.
Proof.
  cbn [txn_op]. unfold pbind. destruct (xlift _ x) as [[ok|err] y]; [|done].
  set (go := fix txn_ops (exec : TxnExec) (l : list TxnOp) := _).
  assert (∀ l e z, go e l z = txn_ops snap state e l z) as ->; [|done].
  induction l as [|op l IH]; intros e' z; [done|]. cbn. unfold pbind.
  destruct (txn_op snap state e' op z) as [[[res e1]|err] z1]; [|done]. by rewrite IH.
Qed.

Lemma spec_txn_op_nested s cs succ fail :
  spec_txn_op env s (OpTxn cs succ fail) =
  (let? (rs, s) := spec_txn_ops env s
     (if spec_compares (te_start env) cs then succ else fail) in
   Ok (ResTxn (spec_compares (te_start env) cs) rs, s)).
Proof.
  cbn [spec_txn_op]. set (go := fix go (s : TxnState) (l : list TxnOp) := _).
  assert (∀ l s, go s l = spec_txn_ops env s l) as ->; [|done].
  induction l as [|op l IH]; intros s'; [done|]. cbn.
  destruct (spec_txn_op env s' op) as [[r s1]|err]; [|done]. cbn. by rewrite IH.
Qed.

Lemma txn_op_refines op : op_refines op.
Proof.
  induction op as [r|m|cs succ fail Hs Hf] using txn_op_ind'; intros Hok Hplain v o c s ev0 m0 Hv Hr Hsub.
  - destruct (txn_range_ok v o c s ev0 m0 r Hv Hr Hplain) as (v' & o' & Hrun & Hv').
    cbn [spec_txn_op txn_op txn_exec ex_produced_any ex_main].
    rewrite (pbind_run xctx _ (st_with st v o, c) c (st_with st v o, c)) by done.
    destruct (spec_txn_range env s r) as [res|x]; cbn [res_bind]; exists v', o', c;
      unfold pbind, xlift; rewrite Hrun; split_and!; try done. cbn. lia.
  - cbn [op_size] in Hsub. cbn [spec_txn_op].
    pose proof (txn_mutation_ok v o c s ev0 m0 m Hv Hr Hok ltac:(lia)) as Hm.
    destruct (spec_txn_mutation env s m) as [[r s']|x]; [|done].
    destruct Hm as (v' & o' & c' & ? & ? & ? & Hsub'). exists v', o', c'.
    split_and!; try done. rewrite Hsub'. cbn. lia.
  - rewrite txn_op_nested, spec_txn_op_nested.
    destruct (evaluate_compares_ok st snap ApplyContext_default base base (mkRev (base + 1) 0)
      (ctx_inv_default _ _ _ _ (si_core _ Hst)) (si_index _ Hst) (te_start env) cs v o Hstart Hv)
      as (v1 & Hcmp & Hv1).
    assert (xlift (evaluate_compares snap ApplyContext_default cs) (st_with st v o, c)
      = (Ok (spec_compares (te_start env) cs), (st_with st v1 o, c))) as Hx
      by (unfold xlift; by rewrite Hcmp).
    rewrite (pbind_run _ _ _ _ _ Hx). set (ok := spec_compares (te_start env) cs).
    destruct Hok as [Hok1 Hok2]. cbn [op_size] in Hsub.
    assert (Forall op_refines (if ok then succ else fail)) as Hall by by destruct ok.
    assert (ops_ok (if ok then succ else fail)) as Hok' by by destruct ok.
    assert (base = lc ∨ ops_plain (if ok then succ else fail)) as Hp'
      by (destruct Hplain as [?|[??]]; [by left|right; by destruct ok]).
    pose proof (txn_ops_refine (if ok then succ else fail) Hall Hok' Hp' v1 o c s ev0 m0 Hv1 Hr) as Hops.
    assert (ops_size (if ok then succ else fail) ≤ op_size (OpTxn cs succ fail))%nat as Hsz
      by (unfold ops_size; cbn; destruct ok; lia).
    specialize (Hops ltac:(cbn [op_size] in *; lia)).
    destruct (spec_txn_ops env s (if ok then succ else fail)) as [[rs s']|x]; cbn [res_bind].
    + destruct Hops as (v' & o' & c' & Hrun & Hv' & Hr' & Hs'). exists v', o', c'.
      rewrite (pbind_run _ _ _ _ _ Hrun). split_and!; try done. lia.
    + destruct Hops as (v' & o' & c' & Hrun & Hv'). exists v', o', c'. split; [|done].
      by apply pbind_fail.
Qed.

Lemma txn_ops_ok l v o c s ev0 m0 :
  ops_ok l → (base = lc ∨ ops_plain l) → coh v → txn_rel c s ev0 m0 →
  ts_sub s + Z.of_nat (ops_size l) ≤ i64_max →
  match spec_txn_ops env s l with
  | Err x => ∃ v' o' c', txn_ops snap state (txn_exec s) l (st_with st v o, c)
                         = (Err x, (st_with st v' o', c')) ∧ coh v'
  | Ok (rs, s') => ∃ v' o' c',
      txn_ops snap state (txn_exec s) l (st_with st v o, c)
      = (Ok (rs, txn_exec s'), (st_with st v' o', c')) ∧ coh v' ∧ txn_rel c' s' ev0 m0 ∧
      ts_sub s' ≤ ts_sub s + Z.of_nat (ops_size l)
  end.
Proof.
  intros. apply txn_ops_refine; try done. apply Forall_forall. intros op _. apply txn_op_refines.
Qed.
End ops.

(** ** Events of a transaction *)

Definition txn_changed (s : TxnState) : Prop :=
  ts_produced s = negb (bool_decide (ts_events s = [])).

Lemma spec_txn_events env op :
  ∀ s r s', txn_changed s → spec_txn_op env s op = Ok (r, s') → txn_changed s'.
Proof.
  induction op as [r|m|cs succ fail Hs Hf] using txn_op_ind'; intros s r' s' Hc Hop.
  - cbn [spec_txn_op] in Hop. destruct (spec_txn_range env s r); by simplify_eq/=.
  - cbn [spec_txn_op] in Hop. unfold spec_txn_mutation in Hop.
    destruct (spec_mutation _ m (ts_abs s)) as [e|] eqn:He; [|done]. simplify_eq.
    apply spec_mutation_events in He. unfold produces in He. unfold txn_changed in *. cbn.
    rewrite He, Hc. destruct (ts_events s), (ef_events e); done.
  - rewrite spec_txn_op_nested in Hop. apply res_bind_ok in Hop as ([rs s1] & Hops & Hop).
    simplify_eq. set (l := if spec_compares (te_start env) cs then succ else fail) in Hops.
    assert (Forall (λ op, ∀ s r s', txn_changed s → spec_txn_op env s op = Ok (r, s') →
              txn_changed s') l) as Hl by (unfold l; by destruct (spec_compares _ _)).
    clearbody l. clear Hs Hf. revert s rs Hc Hops.
    induction Hl as [|op l Hop Hl IH]; intros s rs Hc Hops; cbn in Hops; [by simplify_eq|].
    apply res_bind_ok in Hops as ([r1 s2] & H1 & Hops).
    apply res_bind_ok in Hops as ([rs2 s3] & H2 & Hops). simplify_eq.
    eapply IH; [|done]. by eapply Hop.
Qed.

Lemma spec_txn_ops_events env l s rs s' :
  txn_changed s → spec_txn_ops env s l = Ok (rs, s') → txn_changed s'.
Proof.
  revert s rs. induction l as [|op l IH]; intros s rs Hc Hops; cbn in Hops; [by simplify_eq|].
  apply res_bind_ok in Hops as ([r1 s2] & H1 & Hops).
  apply res_bind_ok in Hops as ([rs2 s3] & H2 & Hops). simplify_eq.
  eapply IH; [|done]. by eapply spec_txn_events.
Qed.

(** A transaction that changed nothing left the keys alone. *)
Definition txn_idle (s s' : TxnState) : Prop :=
  ts_produced s' = false → ts_produced s = false ∧ ts_abs s' = ts_abs s.

Lemma txn_idle_trans s1 s2 s3 : txn_idle s1 s2 → txn_idle s2 s3 → txn_idle s1 s3.
Proof. unfold txn_idle. intros H1 H2 H3. destruct (H2 H3) as [Hp ->]. by destruct (H1 Hp) as [? ->]. Qed.

Lemma spec_txn_idle env op : ∀ s r s', spec_txn_op env s op = Ok (r, s') → txn_idle s s'.
Proof.
  induction op as [r|m|cs succ fail Hs Hf] using txn_op_ind'; intros s r' s' Hop.
  - cbn [spec_txn_op] in Hop. destruct (spec_txn_range env s r); by simplify_eq/=.
  - cbn [spec_txn_op] in Hop. unfold spec_txn_mutation in Hop.
    destruct (spec_mutation _ m (ts_abs s)) as [e|] eqn:He; [|done]. simplify_eq.
    unfold txn_idle. cbn. intros [Hp Hn]%orb_false_iff. split; [done|].
    destruct m as [key value lease iv il pk|key range_end pk]; cbn in He.
    + unfold spec_put in He. destruct (_ && _); by simplify_eq/=.
    + simplify_eq/=. by destruct (a_range (ts_abs s) key range_end).
  - rewrite spec_txn_op_nested in Hop. apply res_bind_ok in Hop as ([rs s1] & Hops & Hop).
    simplify_eq. set (l := if spec_compares (te_start env) cs then succ else fail) in Hops.
    assert (Forall (λ op, ∀ s r s', spec_txn_op env s op = Ok (r, s') → txn_idle s s') l) as Hl
      by (unfold l; by destruct (spec_compares _ _)).
    clearbody l. clear Hs Hf. revert s rs Hops.
    induction Hl as [|op l Hop Hl IH]; intros s rs Hops; cbn in Hops; [by simplify_eq|].
    apply res_bind_ok in Hops as ([r1 s2] & H1 & Hops).
    apply res_bind_ok in Hops as ([rs2 s3] & H2 & Hops). simplify_eq.
    eapply txn_idle_trans; [by eapply Hop|by eapply IH].
Qed.

Lemma spec_txn_ops_idle env l s rs s' : spec_txn_ops env s l = Ok (rs, s') → txn_idle s s'.
Proof.
  revert s rs. induction l as [|op l IH]; intros s rs Hops; cbn in Hops; [by simplify_eq|].
  apply res_bind_ok in Hops as ([r1 s2] & H1 & Hops).
  apply res_bind_ok in Hops as ([rs2 s3] & H2 & Hops). simplify_eq.
  eapply txn_idle_trans; [by eapply spec_txn_idle|by eapply IH].
Qed.

(** ** [txn] *)

Section txn.
Context {E : Type} `{KvStoreLaws E} `{BincodeLaws KvRecord, BincodeLaws KeyIndex}.

(** What a transaction of this store runs against. *)
Definition store_env (st : Inner E) (A : Abs) : TxnEnv :=
  mkEnv A (current_rev (write_state st)) (compact_rev (write_state st)) (store_view st).

Lemma store_inv_ops (st : Inner E) o : store_inv st → store_inv (set_ops o st).
Proof. intros []. by split. Qed.

Lemma advanced_ops (st st' : Inner E) o new_rev A :
  advanced st st' new_rev A → advanced st (set_ops o st') new_rev A.
Proof. intros []. split; try done. by apply store_inv_ops. Qed.

Lemma txn_start (st : Inner E) A :
  store_inv st → abs_rel A (idx_gens (index st)) (contents (engine st)) →
  txn_rel st (store_env st A) ApplyContext_default (mkTxnState A 0 false []) [] [].
Proof.
  intros Hst HA. split; try done. apply ctx_inv_default. apply (si_core _ Hst).
Qed.

Lemma txn_ok (st : Inner E) A cs succ fail :
  store_inv st → abs_rel A (idx_gens (index st)) (contents (engine st)) →
  current_rev (write_state st) < i64_max →
  ops_ok succ → ops_ok fail →
  Z.of_nat (ops_size succ) ≤ i64_max → Z.of_nat (ops_size fail) ≤ i64_max →
  let cur := current_rev (write_state st) in
  let '(r, st') := txn cs succ fail st in
  match spec_txn (store_env st A) A cs succ fail with
  | Err x => r = Err x ∧ same_store st st'
  | Ok (ok, rs, s) =>
      if ts_produced s then
        match r with
        | Ok out => out = mkTxnResult ok (cur + 1) rs ∧ advanced st st' (cur + 1) (ts_abs s) ∧
            sent st' = sent st ++ [mkEventBatch (cur + 1) (ts_events s)]
        | Err x => ∃ y, x = Storage y ∧ failed_write st st' y A (ts_abs s) (cur + 1)
        end
      else r = Ok (mkTxnResult ok cur rs) ∧ same_store st st'
  end.
Proof.
  intros Hst HA Hmax Hok1 Hok2 Hsz1 Hsz2 cur. unfold txn, spec_txn.
  rewrite (pbind_run snapshot _ st (contents (engine st)) st) by done.
  pose proof (evaluate_compares_ok st (contents (engine st)) ApplyContext_default cur cur
    (mkRev (cur + 1) 0) (ctx_inv_default _ _ _ _ (si_core _ Hst)) (si_index _ Hst) A cs
    (values st) (ops st) HA (si_cache _ Hst)) as (v0 & Hcmp & Hv0).
  rewrite st_with_id in Hcmp. rewrite (pbind_run _ _ _ _ _ Hcmp).
  set (ok := spec_compares A cs). set (branch := if ok then succ else fail).
  rewrite (pbind_run pget _ (st_with st v0 (ops st)) (st_with st v0 (ops st))
             (st_with st v0 (ops st))) by done.
  change (write_state (st_with st v0 (ops st))) with (write_state st).
  pose proof (si_revs _ Hst) as (Hrevs & _).
  assert (i64_wrap (current_rev (write_state st) + 1) = cur + 1) as -> by (apply i64_wrap_id; unfold cur; ints).
  pose proof (txn_ops_ok st (store_env st A) (write_state st) Hst ltac:(done) ltac:(done) HA
    (λ t key range_end _, store_view_spec st t key range_end) branch v0 (ops st)
    ApplyContext_default (mkTxnState A 0 false []) [] [] ltac:(unfold branch; by destruct ok)
    ltac:(by left) Hv0 (txn_start st A Hst HA) ltac:(unfold branch; destruct ok; cbn; lia)) as Hops.
  destruct (spec_txn_ops _ _ branch) as [[rs s]|x] eqn:Hspec; cbn [res_bind].
  - apply spec_txn_ops_events in Hspec as Hch; [|done].
    destruct Hops as (v & o & c & Hrun & Hv & Hr & Hsub).
    rewrite (pbind_run _ _ _ _ _ (with_ctx_ok _ _ _ _ _ Hrun)).
    cbn [txn_exec ex_produced_any ex_main]. change (te_current (store_env st A)) with cur.
    unfold pbind at 1.
    destruct (ts_produced s) eqn:Hp.
    + pose proof (commit_write st v o (cur + 1) c _ A (ts_abs s) Hst HA
        (tr_inv _ _ _ _ _ _ Hr) Hv) as Hcm.
      specialize (Hcm ltac:(unfold txn_bound, rev_le; cbn; unfold cur; lia)
                      ltac:(unfold cur; lia) (tr_abs _ _ _ _ _ _ Hr)).
      destruct (commit_ctx (cur + 1) c (st_with st v o)) as [[[]|x] st'].
      * destruct Hcm as (e & -> & Hadv). unfold count_txn, pmodify, pbind, pget, pret.
        split_and!; [done|by apply advanced_ops|].
        cbn [sent set_ops committed st_with set_values]. unfold event_batches.
        rewrite (tr_marks _ _ _ _ _ _ Hr), (tr_events _ _ _ _ _ _ Hr). cbn.
        unfold txn_changed in Hch. rewrite Hp in Hch. by destruct (ts_events s).
      * done.
    + unfold pret at 1. unfold count_txn, pmodify, pbind, pget, pret. split; [done|].
      eexists v, _. split; [done|]. by apply store_inv_with.
  - destruct Hops as (v & o & c & Hrun & Hv).
    rewrite (pbind_fail _ _ _ _ _ (with_ctx_err _ _ _ _ _ Hrun)). split; [done|].
    exists v, o. split; [done|]. by apply store_inv_with.
Qed.


(** ** Deciding compares without running the transaction *)

Lemma txn_would_succeed_ok (st : Inner E) A cs :
  store_inv st → abs_rel A (idx_gens (index st)) (contents (engine st)) →
  ∃ st', txn_would_succeed cs st = (Ok (spec_compares A cs), st') ∧ same_store st st'.
Proof.
  intros Hst HA. unfold txn_would_succeed. unfold pbind. rewrite read_view_ok by done.
  cbn [res_bind]. rewrite compare_targets_in_map.
  pose proof (evaluate_compares_with_ok st (contents (engine st)) ApplyContext_default
    (current_rev (write_state st)) (current_rev (write_state st)) _
    (ctx_inv_default _ _ _ _ (si_core _ Hst)) (si_index _ Hst) A cs (values st) (ops st) HA
    (si_cache _ Hst)) as (v & Hrun & Hv).
  rewrite st_with_id in Hrun. rewrite Hrun. eexists. split; [done|].
  exists v, (ops st). split; [done|]. by apply store_inv_with.
Qed.

(**  [txn_would_succeed] predicts [txn]: it decides the compares as the
    transaction run on the same store does, and changes nothing. *)
Theorem txn_would_succeed_predicts (st : Inner E) A compares success failure out st' :
  store_inv st → abs_rel A (idx_gens (index st)) (contents (engine st)) →
  current_rev (write_state st) < i64_max →
  ops_ok success → ops_ok failure →
  Z.of_nat (ops_size success) ≤ i64_max → Z.of_nat (ops_size failure) ≤ i64_max →
  txn compares success failure st = (Ok out, st') →
  let '(r, st2) := txn_would_succeed compares st in
  r = Ok (tr_succeeded out) ∧ same_store st st2.
Proof.
  intros Hst HA Hmax Hok1 Hok2 Hsz1 Hsz2 Htxn.
  pose proof (txn_ok st A compares success failure Hst HA Hmax Hok1 Hok2 Hsz1 Hsz2) as Hok.
  cbv zeta in Hok. rewrite Htxn in Hok.
  destruct (txn_would_succeed_ok st A compares Hst HA) as (st2 & -> & Hsame).
  split; [|done]. unfold spec_txn in Hok. destruct (spec_txn_ops _ _ _) as [[rs s]|x]; cbn in Hok.
  - destruct (ts_produced s); destruct Hok as [Hout _]; by simplify_eq/=.
  - by destruct Hok.
Qed.

(**  A range compare counts keys that are deleted: while a deleted key's
    history is not compacted away, it takes part as a zero record, so a
    compare that zero records fail does not succeed over a range whose keys
    are all deleted. *)
Theorem range_compare_counts_deleted_keys (st : Inner E) A cmp k :
  store_inv st → abs_rel A (idx_gens (index st)) (contents (engine st)) →
  cmp_range_end cmp ≠ [] → in_range k (cmp_key cmp) (cmp_range_end cmp) = true →
  A !! k = Some None →
  eval_compare (implicit_zero_record k) (cmp_op cmp) (cmp_target cmp) = false →
  (txn_would_succeed [cmp] st).1 = Ok false.
Proof.
  intros Hst HA Hre Hr Hk Hev.
  destruct (txn_would_succeed_ok st A [cmp] Hst HA) as (st2 & -> & _). cbn.
  rewrite andb_true_r. f_equal. unfold spec_compare. rewrite bool_decide_false by done.
  destruct (forallb _ (map_to_list A)) eqn:Hall; [|done]. exfalso.
  rewrite forallb_forall in Hall.
  specialize (Hall (k, None) (proj1 (list_elem_of_In _ _) (proj2 (elem_of_map_to_list _ _ _) Hk))).
  cbn in Hall. rewrite Hr in Hall. cbn in Hall. unfold a_live in Hall. rewrite Hk in Hall.
  cbn in Hall. congruence.
Qed.
End txn.

(** ** Witnesses *)

Section witnesses.
Import Demo.

(** If ["b"] is at version 1: put ["c"], read it, and in a nested
    transaction delete ["b"]; else nothing. *)
Definition demo_compares : list Compare :=
  [mkCompare (str "b") [] CmpEqual (TgVersion 1)].
Definition demo_success : list TxnOp :=
  [OpMutation (Put (str "c") (str "3") 0 false false false);
   OpRange (mkRangeOp (str "a") [x00] 0 0 false false);
   OpTxn [mkCompare (str "c") [] CmpEqual (TgVersion 0)]
     [OpMutation (DeleteRange (str "b") [] false)] []].
Definition demo_txn_result : TxnResult :=
  mkTxnResult true 2
    [ResMutation (mkMutationResult 1 []);
     ResRange (mkRangeResult [demo_rec (str "b") (str "2") 1 1 1 0;
                              demo_rec (str "c") (str "3") 2 2 1 0] false 2);
     ResTxn true [ResMutation (mkMutationResult 1 [])]].

Lemma demo_cur1 : current_rev (write_state demo_store1) = 1.
Proof. vm_compute. reflexivity. Qed.


Lemma txn_would_succeed_predicts_witness :
  (txn_would_succeed demo_compares demo_store1).1 = Ok true.
Proof.
  destruct (txn demo_compares demo_success [] demo_store1) as [r st'] eqn:Htxn.
  assert (r = Ok demo_txn_result) as ->
    by (rewrite <- (f_equal fst Htxn : _ = r); vm_compute; reflexivity).
  pose proof (txn_would_succeed_predicts demo_store1 demo_abs1 demo_compares demo_success []
    demo_txn_result st' (proj1 demo_inv1) (proj2 demo_inv1) ltac:(rewrite demo_cur1; reflexivity)
    ltac:(repeat constructor; done) ltac:(repeat constructor) ltac:(vm_compute; discriminate)
    ltac:(vm_compute; discriminate) Htxn) as Hok.
  destruct (txn_would_succeed demo_compares demo_store1) as [r2 st2]. apply Hok.
Defined.

(** Every key of [["a", "b")] is deleted; yet the compare fails. *)
Lemma range_compare_counts_deleted_keys_witness :
  (txn_would_succeed [mkCompare (str "a") (str "b") CmpGreater (TgVersion 0)] demo_store1).1
  = Ok false ∧
  (range (str "a") (str "b") 0 0 false false demo_store1).1 = Ok (mkRangeResult [] false 0).
Proof.
  split; [|vm_compute; reflexivity].
  apply (range_compare_counts_deleted_keys demo_store1 demo_abs1 _ (str "a") (proj1 demo_inv1)
           (proj2 demo_inv1)); [discriminate|vm_compute; reflexivity..].
Defined.
End witnesses.
