(* ===== verification/StoreMany.v ===== *)
(** * [apply_many]: several requests, one commit

    [apply_many] runs requests over one context and commits once.  The
    result is the one of running them one at a time: the same answers, the
    same revisions, the same event batches. *)

From S2P Require Import Prelude Revision Record KvStore Lease Cache Auth Store StoreCore.
From S2P Require Import StoreSpec StoreInv StoreApply StoreCommit StoreOpen StoreDemo StoreWrite.
From S2P Require Import StoreRead StoreTxn.

(** ** Requests that may share a commit *)

Definition item_ok (item : ApplyItem) : Prop :=
  match item with
  | ItemMutations ms =>
      ApplyItem_mutations ms = Some item ∧ Forall mutation_wf ms ∧
      Z.of_nat (length ms) ≤ i64_max
  | ItemTxn cs succ fail =>
      ApplyItem_txn cs succ fail = Some item ∧ ops_ok succ ∧ ops_ok fail ∧
      Z.of_nat (ops_size succ) ≤ i64_max ∧ Z.of_nat (ops_size fail) ≤ i64_max
  end.

(** A mutation that takes nothing from the key's previous record cannot be
    refused. *)
Lemma spec_mutation_accepts rev m A :
  ignores_prev m = false → ∃ e, spec_mutation rev m A = Ok e.
Proof.
  destruct m as [key value lease iv il pk|]; cbn; [|by eauto].
  intros Hi. unfold spec_put. rewrite Hi. cbn. by eauto.
Qed.

Lemma spec_mutations_accept main ms sub A :
  existsb ignores_prev ms = false → ∃ x, spec_mutations main sub ms A = Ok x.
Proof.
  revert sub A. induction ms as [|m ms IH]; intros sub A; cbn; [by eauto|].
  intros [Hm Hms]%orb_false_iff. destruct (spec_mutation_accepts (mkRev main sub) m A Hm) as [e ->].
  cbn. destruct (IH (sub + 1) (ef_abs e) Hms) as [[[A' rs] evs] ->]. cbn. by eauto.
Qed.

(** Plain operations cannot fail, and see nothing of the past. *)
Lemma plain_op_accepts env s op :
  plain_ops [op] = true → ∃ x, spec_txn_op env s op = Ok x.
Proof.
  destruct op as [r|m|]; cbn; [..|done]; rewrite andb_true_r.
  - intros Hr%Z.eqb_eq. unfold spec_txn_range. rewrite Hr. cbn. by eauto.
  - intros Hm%negb_true_iff. unfold spec_txn_mutation.
    destruct (spec_mutation_accepts (mkRev (te_current env + 1) (ts_sub s)) m (ts_abs s) Hm)
      as [e ->]. by eauto.
Qed.

Lemma plain_op_env env env' s op :
  te_current env = te_current env' → plain_ops [op] = true →
  spec_txn_op env s op = spec_txn_op env' s op.
Proof.
  intros Hc. destruct op as [r|m|]; cbn; [..|done]; rewrite andb_true_r.
  - intros Hr%Z.eqb_eq. unfold spec_txn_range. rewrite Hr. cbn. done.
  - intros _. unfold spec_txn_mutation. by rewrite Hc.
Qed.

Lemma plain_ops_cons op l : plain_ops (op :: l) = plain_ops [op] && plain_ops l.
Proof. unfold plain_ops. cbn. by rewrite andb_true_r. Qed.

Lemma plain_ops_accept env s l : plain_ops l = true → ∃ x, spec_txn_ops env s l = Ok x.
Proof.
  revert s. induction l as [|op l IH]; intros s; [by eauto|].
  rewrite plain_ops_cons. intros [Hop Hl]%andb_true_iff. cbn [spec_txn_ops].
  destruct (plain_op_accepts env s op Hop) as [[r s1] ->]. cbn.
  destruct (IH s1 Hl) as [[rs s2] ->]. cbn. by eauto.
Qed.

Lemma plain_ops_env env env' s l :
  te_current env = te_current env' → plain_ops l = true →
  spec_txn_ops env s l = spec_txn_ops env' s l.
Proof.
  intros Hc. revert s. induction l as [|op l IH]; intros s; [done|].
  rewrite plain_ops_cons. intros [Hop Hl]%andb_true_iff. cbn [spec_txn_ops].
  rewrite (plain_op_env env env' s op Hc Hop).
  destruct (spec_txn_op env' s op) as [[r s1]|]; [|done]. cbn. by rewrite IH.
Qed.

Lemma plain_ops_plain l : plain_ops l = true → ops_plain l.
Proof.
  induction l as [|op l IH]; [done|]. rewrite plain_ops_cons. intros [Hop Hl]%andb_true_iff.
  split; [|by apply IH]. destruct op as [r|m|]; cbn in *; [|done..].
  rewrite andb_true_r in Hop. by apply Z.eqb_eq.
Qed.

Lemma item_txn_plain cs succ fail item (ok : bool) :
  ApplyItem_txn cs succ fail = Some item → plain_ops (if ok then succ else fail) = true.
Proof.
  unfold ApplyItem_txn. destruct (plain_ops succ && plain_ops fail) eqn:Hp; [|done].
  apply andb_true_iff in Hp as [??]. by destruct ok.
Qed.

(** Requests that took no revision changed nothing. *)
Lemma spec_item_idle cmp s item out s' :
  spec_item cmp s item = Ok (out, s') → ms_rev s ≤ ms_rev s' ∧ (ms_rev s' = ms_rev s → s' = s).
Proof.
  destruct item as [[|m ms]|cs succ fail]; cbn [spec_item].
  - intros. by simplify_eq.
  - destruct (spec_mutations _ _ _ _) as [[[A rs] evs]|]; [|intros; by simplify_eq].
    destruct (existsb _ rs); intros; simplify_eq; cbn; [|done]. split; [lia|]. intros. lia.
  - destruct (spec_txn _ _ _ _ _) as [[[ok rs] t]|]; cbn; [|done].
    destruct (ts_produced t); intros; simplify_eq; cbn; [|done]. split; [lia|]. intros. lia.
Qed.

Lemma spec_items_idle cmp items s outs s' :
  spec_items cmp s items = Ok (outs, s') → ms_rev s' = ms_rev s → s' = s.
Proof.
  assert (∀ s outs, spec_items cmp s items = Ok (outs, s') →
    ms_rev s ≤ ms_rev s' ∧ (ms_rev s' = ms_rev s → s' = s)) as Hgo; [|intros Hs; by eapply Hgo].
  clear. induction items as [|item items IH]; intros s outs Hs; cbn in Hs; [by simplify_eq|].
  apply res_bind_ok in Hs as ([out s1] & Hone & Hs).
  apply res_bind_ok in Hs as ([outs2 s2] & Hrest & Hs). simplify_eq.
  apply spec_item_idle in Hone as [Hle Heq]. destruct (IH _ _ Hrest) as [Hle2 Heq2].
  split; [lia|]. intros Hrev. rewrite Heq2 by lia. apply Heq. lia.
Qed.

(** ** Marks split the events into the requests' batches *)

Fixpoint marks_wf (start : nat) (marks : list (Z * nat)) (total : nat) : Prop :=
  match marks with
  | [] => total = 0%nat
  | (_, stop) :: marks' =>
      (start ≤ stop)%nat ∧ (stop - start ≤ total)%nat ∧
      marks_wf stop marks' (total - (stop - start))
  end.

Lemma marks_wf_snoc marks start total n rev :
  marks_wf start marks total →
  marks_wf start (marks ++ [(rev, start + total + n)%nat]) (total + n).
Proof.
  revert start total. induction marks as [|[r stop] marks IH]; intros start total; cbn.
  - intros ->. lia.
  - intros (Hle & Hn & Hwf). split_and!; [lia..|].
    specialize (IH _ _ Hwf). replace (total + n - (stop - start))%nat
      with (total - (stop - start) + n)%nat by lia.
    replace (start + total + n)%nat with (stop + (total - (stop - start)) + n)%nat by lia.
    done.
Qed.

Lemma split_events_snoc marks start evs new rev :
  marks_wf start marks (length evs) → new ≠ [] →
  split_events (marks ++ [(rev, start + length evs + length new)%nat]) start (evs ++ new)
  = split_events marks start evs ++ [mkEventBatch rev new].
Proof.
  revert start evs. induction marks as [|[r stop] marks IH]; intros start evs; cbn.
  - intros ->%nil_length_inv Hne. cbn. rewrite take_ge by lia. by destruct new.
  - intros (Hle & Hn & Hwf) Hne.
    rewrite take_app_le, drop_app_le by lia.
    assert (length (drop (stop - start) evs) = length evs - (stop - start))%nat as Hlen
      by apply length_drop.
    specialize (IH stop (drop (stop - start) evs)). rewrite Hlen in IH.
    replace (start + length evs + length new)%nat
      with (stop + (length evs - (stop - start)) + length new)%nat by lia.
    rewrite IH by done. by destruct (take (stop - start) evs).
Qed.

(** ** The loop *)

Lemma set_current_rev_id w : set_current_rev (current_rev w) w = w.
Proof. by destruct w. Qed.

Section many.
Context {E : Type} `{KvStoreLaws E} `{BincodeLaws KvRecord, BincodeLaws KeyIndex}.

Context (st : Inner E) (A0 : Abs).
Let i := index st.
Let snap := contents (engine st).
Let base := current_rev (write_state st).
Let cmp := compact_rev (write_state st).
Context (Hst : store_inv st) (HA0 : abs_rel A0 (idx_gens i) snap).

(** The context after the requests so far. *)
Record many_rel (c : ApplyContext) (s : ManyState) : Prop := {
  my_rev : base ≤ ms_rev s;
  my_inv : ctx_inv i snap c base (mkRev (ms_rev s + 1) 0);
  my_abs : abs_rel (ms_abs s) (ctx_gens i c) (apply_batch (batch c) snap);
  my_marks : marks_wf 0 (event_marks c) (length (pending_events c));
  my_sent : split_events (event_marks c) 0 (pending_events c) = ms_sent s
}.

Definition many_local (s : ManyState) : WriteState := set_current_rev (ms_rev s) (write_state st).

Definition marked (rev : Z) (c : ApplyContext) : ApplyContext :=
  set_event_marks (event_marks c ++ [(rev, length (pending_events c))]) c.

Lemma many_rel_mark c c' s A' evs bound :
  many_rel c s → ctx_inv i snap c' base bound → rev_le bound (mkRev (ms_rev s + 2) 0) →
  abs_rel A' (ctx_gens i c') (apply_batch (batch c') snap) →
  pending_events c' = pending_events c ++ evs → event_marks c' = event_marks c → evs ≠ [] →
  many_rel (marked (ms_rev s + 1) c')
    (mkMany A' (ms_rev s + 1) (ms_sent s ++ [mkEventBatch (ms_rev s + 1) evs])).
Proof.
  intros Hm Hc Hb HA Hev Hmk Hne. pose proof (my_rev _ _ Hm). split; cbn [ms_rev ms_abs ms_sent].
  - lia.
  - apply (ctx_inv_weaken _ _ _ _ bound).
    + by destruct Hc; split.
    + by replace (ms_rev s + 1 + 1) with (ms_rev s + 2) by lia.
  - done.
  - cbn. rewrite Hev, Hmk, length_app. apply (marks_wf_snoc _ 0), (my_marks _ _ Hm).
  - cbn. rewrite Hev, Hmk, length_app, <- (my_sent _ _ Hm).
    apply (split_events_snoc _ 0); [apply (my_marks _ _ Hm)|done].
Qed.

Lemma many_mutations_ok m ms v o c s :
  item_ok (ItemMutations (m :: ms)) → coh st v → many_rel c s → ms_rev s < i64_max →
  ∃ out s' v' o' c', spec_item cmp s (ItemMutations (m :: ms)) = Ok (out, s') ∧
    many_item snap (many_local s) (ItemMutations (m :: ms)) (st_with st v o, c)
    = (Ok (out, many_local s'), (st_with st v' o', c')) ∧
    coh st v' ∧ many_rel c' s' ∧ ms_rev s ≤ ms_rev s' ≤ ms_rev s + 1.
Proof.
  intros (Hitem & Hwf & Hlen) Hv Hr Hmax. pose proof (my_rev _ _ Hr) as Hrev.
  pose proof (si_revs _ Hst) as (Hrevs & _). fold base in Hrevs.
  set (lc := ms_rev s) in *. set (l := m :: ms) in *.
  assert (i64_wrap (current_rev (many_local s) + 1) = lc + 1) as Hwrap
    by (apply i64_wrap_id; unfold many_local; cbn; fold lc; ints).
  pose proof (apply_loop_ok st snap base base (lc + 1) l ltac:(lia) ltac:(lia) Hwf
    v o c (mkRev (lc + 1) 0) 0 [] false (ms_abs s) ltac:(lia) Hlen (my_inv _ _ Hr) Hv
    (reflexivity _) (my_abs _ _ Hr)) as Hloop.
  assert (∀ A : Inner E * ApplyContext, many_item snap (many_local s) (ItemMutations l) A =
    match apply_inner snap (many_local s) l A with
    | (Ok (revision, results, produced), s') =>
        if produced : bool
        then (let* _ := mark_events revision in
              pret (OutMutations revision results, set_current_rev revision (many_local s))) s'
        else (Ok (OutMutations revision results, many_local s), s')
    | (Err (Refused refusal), s') =>
        (Ok (OutRefused (current_rev (many_local s)) refusal, many_local s), s')
    | (Err e, s') => (Err e, s')
    end) as Hitem_run by done.
  rewrite Hitem_run. clear Hitem_run. cbn [spec_item]. fold l lc.
  change (match l with [] => _ | _ => ?x end) with x. unfold apply_inner. rewrite Hwrap.
  destruct (spec_mutations (lc + 1) 0 l (ms_abs s)) as [[[A' rs] evs]|refusal] eqn:Hspec.
  - destruct Hloop as (v' & o' & c' & Hrun & Hv' & Hc' & HA' & Hev & Hmk & Hsame).
    rewrite (pbind_run _ _ _ _ _ Hrun). unfold pret at 1. cbn [app orb].
    apply spec_mutations_events in Hspec as [Hany _]. fold (any_produced rs).
    destruct (any_produced rs) eqn:Hp.
    + eexists _, _, v', o', (marked (lc + 1) c'). split_and!; [done|done|done| |cbn; lia..].
      apply (many_rel_mark c c' s A' evs (mkRev (lc + 1) (0 + Z.of_nat (length l)))); try done.
      * unfold rev_le. cbn. lia.
      * by destruct evs.
    + rewrite (Hsame eq_refl). eexists _, s, v', o', c. split_and!; try done; lia.
  - destruct Hloop as (v' & o' & c' & Hrun & Hv' & Hone). rewrite (pbind_fail _ _ _ _ _ Hrun).
    assert (c' = c) as ->.
    { apply Hone. unfold ApplyItem_mutations in Hitem. destruct (Nat.eqb_spec (length l) 1); [done|].
      cbn [orb] in Hitem. destruct (existsb ignores_prev l) eqn:Hi; [done|].
      destruct (spec_mutations_accept (lc + 1) l 0 (ms_abs s) Hi) as [x Hx]. congruence. }
    eexists _, s, v', o', c. split_and!; try done; lia.
Qed.

Lemma many_txn_ok cs succ fail v o c s :
  item_ok (ItemTxn cs succ fail) → coh st v → many_rel c s → ms_rev s < i64_max →
  ∃ out s' v' o' c', spec_item cmp s (ItemTxn cs succ fail) = Ok (out, s') ∧
    many_item snap (many_local s) (ItemTxn cs succ fail) (st_with st v o, c)
    = (Ok (out, many_local s'), (st_with st v' o', c')) ∧
    coh st v' ∧ many_rel c' s' ∧ ms_rev s ≤ ms_rev s' ≤ ms_rev s + 1.
Proof.
  intros (Hitem & Hok1 & Hok2 & Hsz1 & Hsz2) Hv Hr Hmax. pose proof (my_rev _ _ Hr) as Hrev.
  pose proof (si_revs _ Hst) as (Hrevs & _). fold base in Hrevs.
  set (lc := ms_rev s) in *. cbn [many_item].
  rewrite (pbind_run xctx _ (st_with st v o, c) c (st_with st v o, c)) by done.
  destruct (evaluate_compares_ok st snap c base base _ (my_inv _ _ Hr) (si_index _ Hst)
    (ms_abs s) cs v o (my_abs _ _ Hr) Hv) as (v1 & Hcmp & Hv1).
  assert (xlift (evaluate_compares snap c cs) (st_with st v o, c)
    = (Ok (spec_compares (ms_abs s) cs), (st_with st v1 o, c))) as Hx
    by (unfold xlift; by rewrite Hcmp).
  rewrite (pbind_run _ _ _ _ _ Hx). clear Hx. set (ok := spec_compares (ms_abs s) cs).
  set (branch := if ok then succ else fail).
  assert (i64_wrap (current_rev (many_local s) + 1) = lc + 1) as ->
    by (apply i64_wrap_id; unfold many_local; cbn; fold lc; ints).
  assert (plain_ops branch = true) as Hplain by by eapply item_txn_plain.
  set (env := mkEnv A0 lc cmp (store_view st)). set (s0 := mkTxnState (ms_abs s) 0 false []).
  assert (txn_rel st env c s0 (pending_events c) (event_marks c)) as Hrel.
  { split; try done; [|apply (my_abs _ _ Hr)|by rewrite app_nil_r].
    unfold txn_bound. cbn. apply (my_inv _ _ Hr). }
  pose proof (txn_ops_ok st env (many_local s) Hst ltac:(cbn; fold lc base; lia) ltac:(done) HA0
    (λ t key range_end _, store_view_spec st t key range_end) branch v1 o c s0
    (pending_events c) (event_marks c) ltac:(unfold branch; by destruct ok)
    ltac:(right; by apply plain_ops_plain) Hv1 Hrel
    ltac:(unfold branch; destruct ok; cbn; lia)) as Hops.
  cbn [spec_item]. unfold spec_txn. fold ok branch lc. fold s0.
  rewrite (plain_ops_env _ env) by done.
  destruct (plain_ops_accept env s0 branch Hplain) as [[rs t] Hspec]. rewrite Hspec in *.
  apply spec_txn_ops_events in Hspec as Hch; [|done].
  destruct Hops as (v' & o' & c' & Hrun & Hv' & Hr' & Hsub).
  change (mkExec (lc + 1) 0 false) with (txn_exec env s0).
  rewrite (pbind_run _ _ _ _ _ Hrun). cbn [txn_exec ex_produced_any ex_main res_bind].
  unfold count_txn. unfold xlift at 1, pmodify, pbind at 1. cbn [te_current env].
  set (o2 := mkOpCounts _ _ _ _). change (set_ops o2 (st_with st v' o')) with (st_with st v' o2).
  destruct (ts_produced t) eqn:Hp.
  - eexists _, _, v', o2, (marked (lc + 1) c'). split_and!; [done|done|done| |cbn; lia..].
    apply (many_rel_mark c c' s (ts_abs t) (ts_events t) (txn_bound env t)); try done.
    + apply (tr_inv _ _ _ _ _ _ Hr').
    + unfold txn_bound, rev_le. cbn. fold lc. lia.
    + apply (tr_abs _ _ _ _ _ _ Hr').
    + apply (tr_events _ _ _ _ _ _ Hr').
    + apply (tr_marks _ _ _ _ _ _ Hr').
    + unfold txn_changed in Hch. rewrite Hp in Hch. by destruct (ts_events t).
  - eexists _, s, v', o2, c'. split_and!; try done; [|lia..].
    assert (ts_events t = []) as Hnil.
    { unfold txn_changed in Hch. rewrite Hp in Hch. by destruct (ts_events t). }
    destruct (spec_txn_ops_idle _ _ _ _ _ Hspec Hp) as [_ Habs]. cbn in Habs.
    pose proof (tr_events _ _ _ _ _ _ Hr') as Hev. rewrite Hnil, app_nil_r in Hev.
    split; [done|..].
    + pose proof (tr_inv _ _ _ _ _ _ Hr') as Hc'. unfold txn_bound in Hc'.
      rewrite Hp in Hc'. apply Hc'.
    + rewrite <- Habs. apply (tr_abs _ _ _ _ _ _ Hr').
    + rewrite Hev, (tr_marks _ _ _ _ _ _ Hr'). apply (my_marks _ _ Hr).
    + rewrite Hev, (tr_marks _ _ _ _ _ _ Hr'). apply (my_sent _ _ Hr).
Qed.

Lemma many_item_ok item v o c s :
  item_ok item → coh st v → many_rel c s → ms_rev s < i64_max →
  ∃ out s' v' o' c', spec_item cmp s item = Ok (out, s') ∧
    many_item snap (many_local s) item (st_with st v o, c)
    = (Ok (out, many_local s'), (st_with st v' o', c')) ∧
    coh st v' ∧ many_rel c' s' ∧ ms_rev s ≤ ms_rev s' ≤ ms_rev s + 1.
Proof.
  destruct item as [[|m ms]|cs succ fail]; [|apply many_mutations_ok|apply many_txn_ok].
  intros _ Hv Hr Hmax. eexists _, s, v, o, c. split_and!; try done; lia.
Qed.

Lemma many_loop_ok items v o c s :
  Forall item_ok items → coh st v → many_rel c s →
  ms_rev s + Z.of_nat (length items) ≤ i64_max →
  ∃ outs s' v' o' c', spec_items cmp s items = Ok (outs, s') ∧
    many_loop snap (many_local s) items (st_with st v o, c)
    = (Ok (outs, many_local s'), (st_with st v' o', c')) ∧
    coh st v' ∧ many_rel c' s' ∧ ms_rev s' ≤ ms_rev s + Z.of_nat (length items).
Proof.
  revert v o c s. induction items as [|item items IH]; intros v o c s Hitems Hv Hr Hmax.
  { eexists [], s, v, o, c. split_and!; try done. cbn. lia. }
  apply Forall_cons in Hitems as [Hitem Hitems]. cbn [length] in Hmax.
  destruct (many_item_ok item v o c s Hitem Hv Hr ltac:(lia))
    as (out & s1 & v1 & o1 & c1 & Hspec & Hrun & Hv1 & Hr1 & Hle1).
  destruct (IH v1 o1 c1 s1 Hitems Hv1 Hr1 ltac:(lia))
    as (outs & s2 & v2 & o2 & c2 & Hspec2 & Hrun2 & Hv2 & Hr2 & Hle2).
  exists (out :: outs), s2, v2, o2, c2. cbn [spec_items many_loop length].
  rewrite Hspec. cbn [res_bind]. rewrite Hspec2.
  rewrite (pbind_run _ _ _ _ _ Hrun), (pbind_run _ _ _ _ _ Hrun2). split_and!; try done. lia.
Qed.

Lemma apply_many_ok items :
  Forall item_ok items → base + Z.of_nat (length items) ≤ i64_max →
  ∃ outs s, spec_items cmp (mkMany A0 base []) items = Ok (outs, s) ∧
  let '(r, st') := apply_many items st in
  if ms_rev s =? base then r = Ok outs ∧ same_store st st'
  else match r with
       | Ok out => out = outs ∧ advanced st st' (ms_rev s) (ms_abs s) ∧
                   sent st' = sent st ++ ms_sent s
       | Err x => ∃ y, x = Storage y ∧ failed_write st st' y A0 (ms_abs s) (ms_rev s)
       end.
Proof.
  intros Hitems Hmax. set (s0 := mkMany A0 base []).
  assert (many_rel ApplyContext_default s0) as Hr0.
  { split; try done. apply ctx_inv_default, (si_core _ Hst). }
  destruct (many_loop_ok items (values st) (ops st) ApplyContext_default s0 Hitems
    (si_cache _ Hst) Hr0 Hmax) as (outs & s & v & o & c & Hspec & Hrun & Hv & Hr & Hle).
  exists outs, s. split; [done|]. rewrite st_with_id in Hrun.
  assert (many_local s0 = write_state st) as Hl0
    by apply set_current_rev_id.
  rewrite Hl0 in Hrun. unfold apply_many.
  rewrite (pbind_run snapshot _ st snap st) by done.
  rewrite (pbind_run pget _ st st st) by done.
  rewrite (pbind_run _ _ _ _ _ (with_ctx_ok _ _ _ _ _ Hrun)).
  change (current_rev (many_local s)) with (ms_rev s). fold base.
  destruct (Z.eqb_spec (ms_rev s) base) as [Heq|Hne].
  - split; [done|]. exists v, o. split; [done|]. by apply store_inv_with.
  - pose proof (my_rev _ _ Hr) as Hrev. cbn in Hle.
    pose proof (commit_write st v o (ms_rev s) c _ A0 (ms_abs s) Hst HA0 (my_inv _ _ Hr) Hv
      (reflexivity _) ltac:(fold base; lia) (my_abs _ _ Hr)) as Hcm. unfold pbind.
    destruct (commit_ctx (ms_rev s) c (st_with st v o)) as [[[]|x] st']; [|done].
    destruct Hcm as (e & -> & Hadv). split_and!; [done..|].
    cbn [sent committed st_with set_ops set_values]. f_equal. rewrite <- (my_sent _ _ Hr).
    unfold event_batches. pose proof (my_marks _ _ Hr) as Hmk.
    destruct (event_marks c); [|done]. cbn in Hmk. by apply nil_length_inv in Hmk as ->.
Qed.
End many.

(** ** One at a time *)

Section one_by_one.
Context {E : Type} `{KvStoreLaws E} `{BincodeLaws KvRecord, BincodeLaws KeyIndex}.

(** A request as a call of its own, with [apply_many]'s outcome. *)
Definition one_item (item : ApplyItem) : prog (Inner E) MvccError ApplyOutcome :=
  match item with
  | ItemMutations ms => λ st,
      match apply ms st with
      | (Ok (revision, results), st') => (Ok (OutMutations revision results), st')
      | (Err (Refused refusal), st') =>
          (Ok (OutRefused (current_rev (write_state st')) refusal), st')
      | (Err e, st') => (Err e, st')
      end
  | ItemTxn cs succ fail => let* r := txn cs succ fail in pret (OutTxn r)
  end.

Fixpoint one_by_one (items : list ApplyItem) : prog (Inner E) MvccError (list ApplyOutcome) :=
  match items with
  | [] => pret []
  | item :: items' =>
      let* out := one_item item in
      let* outs := one_by_one items' in
      pret (out :: outs)
  end.

(** A store holds what a run of requests started from [sent0] got to. *)
Definition holds_many (st : Inner E) (sent0 : list EventBatch) (s : ManyState) : Prop :=
  store_inv st ∧ abs_rel (ms_abs s) (idx_gens (index st)) (contents (engine st)) ∧
  current_rev (write_state st) = ms_rev s ∧ sent st = sent0 ++ ms_sent s.

Lemma holds_many_same (st st' : Inner E) sent0 s :
  holds_many st sent0 s → same_store st st' → holds_many st' sent0 s.
Proof. intros (_ & HA & Hrev & Hs) (v & o & -> & Hst'). by split_and!. Qed.

Lemma one_item_ok item (st : Inner E) sent0 s out st' :
  item_ok item → holds_many st sent0 s → ms_rev s < i64_max →
  one_item item st = (Ok out, st') →
  ∃ s', spec_item (compact_rev (write_state st)) s item = Ok (out, s') ∧
        holds_many st' sent0 s' ∧ ms_rev s' ≤ ms_rev s + 1 ∧
        compact_rev (write_state st') = compact_rev (write_state st).
Proof.
  intros Hitem Hh Hmax Hrun. pose proof Hh as (Hst & HA & Hrev & Hsent).
  assert (∀ st2 : Inner E, same_store st st2 →
    compact_rev (write_state st2) = compact_rev (write_state st) ∧
    current_rev (write_state st2) = ms_rev s) as Hsame.
  { by intros st2 (v & o & -> & _). }
  destruct item as [ms|cs succ fail].
  - destruct Hitem as (Hitem & Hwf & Hlen). destruct ms as [|m ms].
    { cbn in Hrun. simplify_eq. exists s. rewrite (si_view _ Hst). cbn. rewrite Hrev.
      split_and!; try done. lia. }
    pose proof (apply_ok st (ms_abs s) (m :: ms) Hst HA ltac:(done) Hwf ltac:(lia) Hlen) as Hok.
    cbv zeta in Hok. unfold one_item in Hrun. cbn [spec_item]. rewrite Hrev in Hok.
    destruct (apply (m :: ms) st) as [r st1].
    destruct (spec_mutations (ms_rev s + 1) 0 (m :: ms) (ms_abs s)) as [[[A' rs] evs]|refusal].
    + fold (any_produced rs). destruct (any_produced rs).
      * destruct r as [r|x]; [|destruct Hok as (y & -> & _); done].
        destruct Hok as (-> & Hadv & Hs). simplify_eq. eexists. split; [done|].
        split_and!; [|cbn; lia|apply (adv_compact _ _ _ _ Hadv)].
        destruct Hadv. split_and!; try done. cbn. by rewrite Hs, Hsent, app_assoc.
      * destruct Hok as [-> Hs]. simplify_eq. exists s.
        split_and!; [done|by eapply holds_many_same|lia|by apply Hsame].
    + destruct Hok as [-> Hs]. simplify_eq. exists s. destruct (Hsame _ Hs) as [Hc ->].
      split_and!; [done|by eapply holds_many_same|lia|done].
  - destruct Hitem as (Hitem & Hok1 & Hok2 & Hsz1 & Hsz2).
    pose proof (txn_ok st (ms_abs s) cs succ fail Hst HA ltac:(lia) Hok1 Hok2 Hsz1 Hsz2) as Hok.
    cbv zeta in Hok. rewrite Hrev in Hok. cbn [one_item] in Hrun. cbn [spec_item].
    unfold pbind, pret in Hrun. destruct (txn cs succ fail st) as [[r|x] st1]; [|done]. simplify_eq.
    unfold spec_txn in *. set (ok := spec_compares (ms_abs s) cs) in *.
    rewrite (plain_ops_env (store_env st (ms_abs s))
      (mkEnv (ms_abs s) (ms_rev s) (compact_rev (write_state st)) (λ _ _ _, []))) in Hok
      by (try done; by eapply item_txn_plain).
    destruct (spec_txn_ops _ _ _) as [[rs t]|x]; cbn [res_bind] in *; [|by destruct Hok].
    destruct (ts_produced t).
    + destruct Hok as (-> & Hadv & Hs). eexists. split; [done|].
      split_and!; [|cbn; lia|apply (adv_compact _ _ _ _ Hadv)].
      destruct Hadv. split_and!; try done. cbn. by rewrite Hs, Hsent, app_assoc.
    + destruct Hok as [Hr Hs]. simplify_eq. exists s.
      split_and!; [done|by eapply holds_many_same|lia|by apply Hsame].
Qed.

Lemma one_by_one_ok items (st : Inner E) sent0 s outs st' :
  Forall item_ok items → holds_many st sent0 s →
  ms_rev s + Z.of_nat (length items) ≤ i64_max →
  one_by_one items st = (Ok outs, st') →
  ∃ s', spec_items (compact_rev (write_state st)) s items = Ok (outs, s') ∧
        holds_many st' sent0 s'.
Proof.
  intros Hitems. revert st s outs. induction Hitems as [|item items Hitem Hitems IH];
    intros st s outs Hh Hmax Hrun; [injection Hrun as <- <-; by exists s|].
  cbn [one_by_one length spec_items] in *.
  apply pbind_ok in Hrun as (out & st1 & Hone & Hrun).
  apply pbind_ok in Hrun as (outs1 & st2 & Hrest & Hrun). injection Hrun as <- <-.
  destruct (one_item_ok item st sent0 s out st1 Hitem Hh ltac:(lia) Hone)
    as (s1 & Hspec & Hh1 & Hle & Hcmp).
  destruct (IH st1 s1 outs1 Hh1 ltac:(lia) Hrest) as (s2 & Hspec2 & Hh2).
  exists s2. rewrite Hspec. cbn. rewrite <- Hcmp, Hspec2. done.
Qed.
End one_by_one.

Section claims.
Context {E : Type} `{KvStoreLaws E} `{BincodeLaws KvRecord, BincodeLaws KeyIndex}.

(** C4.  [apply_many] is one commit of what separate calls would do: on the
    same store, it answers every request as [apply] and [txn] called one
    after the other answer it (refusals included), and leaves the same keys,
    the same revision and the same event batches, one per revision. *)
Theorem apply_many_one_by_one (st : Inner E) A items outs1 st1 outs2 st2 :
  store_inv st → abs_rel A (idx_gens (index st)) (contents (engine st)) →
  Forall item_ok items →
  current_rev (write_state st) + Z.of_nat (length items) ≤ i64_max →
  apply_many items st = (Ok outs1, st1) → one_by_one items st = (Ok outs2, st2) →
  outs1 = outs2 ∧ sent st1 = sent st2 ∧
  current_rev (write_state st1) = current_rev (write_state st2) ∧
  ∃ B, abs_rel B (idx_gens (index st1)) (contents (engine st1)) ∧
       abs_rel B (idx_gens (index st2)) (contents (engine st2)) ∧
       store_inv st1 ∧ store_inv st2.
Proof.
  intros Hst HA Hitems Hmax Hmany Hone.
  destruct (apply_many_ok st A Hst HA items Hitems Hmax) as (outs & s & Hspec & Hok).
  rewrite Hmany in Hok.
  set (s0 := mkMany A (current_rev (write_state st)) []) in *.
  assert (holds_many st (sent st) s0) as Hh0 by (split_and!; try done; cbn; by rewrite app_nil_r).
  destruct (one_by_one_ok items st (sent st) s0 outs2 st2 Hitems Hh0 Hmax Hone)
    as (s' & Hspec' & Hst2 & HA2 & Hrev2 & Hsent2).
  rewrite Hspec in Hspec'. simplify_eq.
  assert (holds_many st1 (sent st) s' ∧ outs1 = outs2) as [(Hst1 & HA1 & Hrev1 & Hsent1) ->].
  { destruct (Z.eqb_spec (ms_rev s') (current_rev (write_state st))) as [Heq|Hne].
    - destruct Hok as [Ho Hsame]. simplify_eq. split; [|done].
      eapply holds_many_same; [|done].
      enough (s' = s0) as -> by done. eapply spec_items_idle; [done|]. by rewrite Heq.
    - destruct Hok as (-> & Hadv & Hs). split; [|done]. destruct Hadv. by split_and!. }
  split_and!; [done|congruence..|]. by exists (ms_abs s').
Qed.
End claims.

(** ** Witnesses *)

Section witnesses.
Import Demo.

Definition demo_items : list ApplyItem :=
  [ItemMutations [Put (str "x") (str "1") 0 false false false];
   ItemMutations [Put (str "y") [] 0 true false false];
   ItemTxn [mkCompare (str "x") [] CmpEqual (TgVersion 1)]
     [OpMutation (Put (str "x") (str "2") 0 false false true)] [];
   ItemMutations [DeleteRange (str "q") [] false]].

Definition demo_outcomes : list ApplyOutcome :=
  [OutMutations 1 [mkMutationResult 1 []];
   OutRefused 1 KeyNotFound;
   OutTxn (mkTxnResult true 2
     [ResMutation (mkMutationResult 1 [demo_rec (str "x") (str "1") 1 1 1 0])]);
   OutMutations 3 [mkMutationResult 0 []]].

Lemma demo_items_ok : Forall item_ok demo_items.
Proof. repeat constructor; vm_compute; try done; split; discriminate. Qed.

Lemma apply_many_one_by_one_witness :
  (apply_many demo_items (demo_store [])).1 = Ok demo_outcomes ∧
  sent (apply_many demo_items (demo_store [])).2 = sent (one_by_one demo_items (demo_store [])).2.
Proof.
  assert ((apply_many demo_items (demo_store [])).1 = Ok demo_outcomes) as H1
    by (vm_compute; reflexivity).
  assert ((one_by_one demo_items (demo_store [])).1 = Ok demo_outcomes) as H2
    by (vm_compute; reflexivity).
  destruct (apply_many demo_items (demo_store [])) as [r1 st1] eqn:Hm.
  destruct (one_by_one demo_items (demo_store [])) as [r2 st2] eqn:Ho.
  cbn [fst snd] in *. subst r1 r2. split; [reflexivity|].
  apply (apply_many_one_by_one (demo_store []) ∅ demo_items demo_outcomes st1 demo_outcomes st2
           (demo_inv []) (demo_abs []) demo_items_ok); [discriminate|exact Hm|exact Ho].
Defined.
End witnesses.
