(* ===== verification/StoreCompact.v ===== *)
(** * Compaction

    [compact] drops what no read at or above the revision can see: the rows,
    the index, and nothing a reader is still allowed to ask for. *)

From S2P Require Import Prelude Revision Record KvStore Lease Cache Auth Store StoreCore.
From S2P Require Import StoreSpec StoreInv StoreApply StoreCommit StoreOpen StoreDemo StoreWrite.
From S2P Require Import StoreRead.

Section compact.
Context {E : Type} `{KvStoreLaws E} `{BincodeLaws KvRecord, BincodeLaws KeyIndex}.

(** ** The batch *)

(** One changed key's ops. *)
Definition compact_key_ops (c : Revision) (x : KeyIndex) : WriteBatch :=
  ((λ r, OpDelete TABLE_KV (make_kv_key (idx_key x) r)) <$> (compact_gens (generations x) c).1)
  ++ match (compact_gens (generations x) c).2 with
     | [] => [OpDelete TABLE_IDX (idx_key x)]
     | gens => option_list (OpPut TABLE_IDX (idx_key x) <$> serialize (mkIdx (idx_key x) gens))
     end.

Definition compact_ops (c : Revision) (l : list KeyIndex) : WriteBatch := l ≫= compact_key_ops c.

Lemma idx_compact_eq x c :
  idx_compact x c
  = (mkIdx (idx_key x) (compact_gens (generations x) c).2, (compact_gens (generations x) c).1).
Proof. unfold idx_compact. by destruct (compact_gens (generations x) c). Qed.

Lemma compact_keys_ok c l b :
  compact_keys c l b = Ok (b ++ compact_ops c l, (λ x, (idx_compact x c).1) <$> l).
Proof.
  revert b. induction l as [|x l IH]; intros b; cbn [compact_keys fmap list_fmap].
  { by rewrite app_nil_r. }
  rewrite idx_compact_eq. unfold compact_ops. cbn [mbind list_bind fst].
  fold (compact_ops c l). unfold compact_key_ops.
  destruct (compact_gens (generations x) c) as [dropped keep]. cbn [idx_key generations fst snd].
  destruct keep as [|g keep].
  - cbn [res_bind]. rewrite IH. cbn. unfold batch_delete. by rewrite <- !app_assoc.
  - destruct (serialize_ok (mkIdx (idx_key x) (g :: keep))) as [v Hv]. rewrite Hv. cbn.
    rewrite IH. cbn. unfold batch_put. by rewrite <- !app_assoc.
Qed.

Lemma index_compact_all c l i :
  foldl (λ i idx, index_set (idx_key idx) (generations idx) i) i ((λ x, (idx_compact x c).1) <$> l)
  = index_set_all ((λ x, (idx_key x, (compact_gens (generations x) c).2)) <$> l) i.
Proof.
  revert i. induction l as [|x l IH]; intros i; [done|]. cbn [fmap list_fmap foldl].
  rewrite IH, idx_compact_eq. done.
Qed.

Lemma compact_key_ops_table c x op :
  op ∈ compact_key_ops c x →
  (∃ r, r ∈ (compact_gens (generations x) c).1 ∧ op = OpDelete TABLE_KV (make_kv_key (idx_key x) r))
  ∨ op = OpDelete TABLE_IDX (idx_key x) ∨ ∃ v, op = OpPut TABLE_IDX (idx_key x) v.
Proof.
  intros [(r & -> & Hr)%list_elem_of_fmap|Hop]%elem_of_app; [left; by exists r|right].
  destruct (compact_gens _ c).2; [left; by apply list_elem_of_singleton in Hop|right].
  destruct (serialize _) as [v|]; cbn in Hop; [|by apply elem_of_nil in Hop].
  apply list_elem_of_singleton in Hop. by eexists.
Qed.

Lemma compact_ops_table c l op :
  op ∈ compact_ops c l → op_table op = TABLE_KV ∨ op_table op = TABLE_IDX.
Proof.
  intros (x & Hop & _)%list_elem_of_bind.
  apply compact_key_ops_table in Hop as [(r & _ & ->)|[->|(v & ->)]]; auto.
Qed.

(** Rows of [mvcc_kv]: the dropped revisions go. *)
Lemma compact_ops_delete c l rk :
  OpDelete TABLE_KV rk ∈ compact_ops c l ↔
  ∃ x r, x ∈ l ∧ r ∈ (compact_gens (generations x) c).1 ∧ rk = make_kv_key (idx_key x) r.
Proof.
  split.
  - intros (x & Hop & Hx)%list_elem_of_bind.
    apply compact_key_ops_table in Hop as [(r & Hr & [= ->])|[?|(v & ?)]]; [|done..]. eauto.
  - intros (x & r & Hx & Hr & ->). apply list_elem_of_bind.
    exists x. split; [|done]. apply elem_of_app. left. apply list_elem_of_fmap. eauto.
Qed.

Lemma deletes_lookup b ts t rk :
  (∀ op, op ∈ b → op_table op = t → ∃ k, op = OpDelete t k) →
  apply_batch b ts !! (t, rk) = if decide (OpDelete t rk ∈ b) then None else ts !! (t, rk).
Proof.
  induction b as [|op b IH] using rev_ind; intros Hb; [done|].
  assert (OpDelete t rk ∈ b ++ [op] ↔ OpDelete t rk ∈ b ∨ op = OpDelete t rk)
    as Hin by (rewrite elem_of_snoc_iff; naive_solver).
  rewrite apply_batch_snoc, apply_op_lookup, IH by (intros; apply Hb; [set_solver|done]).
  destruct (decide (op_table op = t)) as [Ht|Ht].
  - destruct (Hb op) as [k ->]; [apply elem_of_snoc|done|].
    repeat case_decide; try done; naive_solver.
  - destruct op; cbn in Ht; repeat case_decide; try done; naive_solver.
Qed.

Lemma compact_ops_kv c l ts rk :
  apply_batch (compact_ops c l) ts !! (TABLE_KV, rk) =
  if decide (OpDelete TABLE_KV rk ∈ compact_ops c l) then None else ts !! (TABLE_KV, rk).
Proof.
  apply deletes_lookup. intros op (x & Hop & _)%list_elem_of_bind Ht.
  apply compact_key_ops_table in Hop as [(r & _ & ->)|[->|(v & ->)]]; [eauto|done..].
Qed.

(** The row of [mvcc_idx] a key gets. *)
Definition compact_idx_row (c : Revision) (x : KeyIndex) : option bytes :=
  match (compact_gens (generations x) c).2 with
  | [] => None
  | gens => serialize (mkIdx (idx_key x) gens)
  end.

Lemma compact_key_ops_idx c x ts k :
  apply_batch (compact_key_ops c x) ts !! (TABLE_IDX, k) =
  if decide (idx_key x = k) then compact_idx_row c x else ts !! (TABLE_IDX, k).
Proof.
  unfold compact_key_ops, compact_idx_row. rewrite apply_batch_app.
  assert (∀ ks, apply_batch ((λ r, OpDelete TABLE_KV (make_kv_key (idx_key x) r)) <$> ks) ts
                !! (TABLE_IDX, k) = ts !! (TABLE_IDX, k)) as Hkv.
  { intros ks. apply apply_batch_other. by intros op (r & -> & _)%list_elem_of_fmap. }
  destruct (compact_gens (generations x) c).2 as [|g gens].
  - change (apply_batch [?op] ?t) with (apply_op op t). rewrite apply_op_lookup, Hkv. repeat case_decide; naive_solver.
  - destruct (serialize_ok (mkIdx (idx_key x) (g :: gens))) as [v Hv]. rewrite Hv.
    change (apply_batch (option_list (OpPut TABLE_IDX (idx_key x) <$> Some v)) ?t)
      with (apply_op (OpPut TABLE_IDX (idx_key x) v) t).
    rewrite apply_op_lookup, Hkv. repeat case_decide; naive_solver.
Qed.

Lemma compact_ops_idx c l ts k :
  NoDup (idx_key <$> l) →
  (∀ x, x ∈ l → idx_key x = k →
     apply_batch (compact_ops c l) ts !! (TABLE_IDX, k) = compact_idx_row c x) ∧
  ((∀ x, x ∈ l → idx_key x ≠ k) →
     apply_batch (compact_ops c l) ts !! (TABLE_IDX, k) = ts !! (TABLE_IDX, k)).
Proof.
  revert ts. induction l as [|y l IH]; intros ts; cbn [fmap list_fmap].
  { intros _. split; [by intros x ?%elem_of_nil|done]. }
  intros [Hy Hnd]%NoDup_cons. unfold compact_ops. cbn [mbind list_bind].
  rewrite apply_batch_app. fold (compact_ops c l).
  destruct (IH (apply_batch (compact_key_ops c y) ts) Hnd) as [IH1 IH2]. split.
  - intros x [->|Hx]%elem_of_cons Hk; [|by apply IH1].
    rewrite IH2, compact_key_ops_idx, decide_True; [done..|].
    intros x Hx Hkx. apply Hy. rewrite Hk, <- Hkx. by apply list_elem_of_fmap_2.
  - intros Hne. rewrite IH2, compact_key_ops_idx, decide_False; [done| |].
    + apply Hne. by left.
    + intros x Hx. apply Hne. by right.
Qed.

(** ** What a compaction changes *)

Definition changed_keys (i : ResidentIndex) (c : Revision) : list KeyIndex :=
  omap (λ r : bytes * list Generation,
    if compaction_changes r.2 c then Some (mkIdx r.1 r.2) else None) (index_iter i).

Lemma changed_keys_elem i c x :
  x ∈ changed_keys i c ↔
  index_map i !! idx_key x = Some (generations x) ∧ compaction_changes (generations x) c = true.
Proof.
  unfold changed_keys, index_iter. rewrite list_elem_of_omap. split.
  - intros ([k gens] & Hin%elem_of_sorted_entries & Hx). cbn [fst snd] in Hx.
    destruct (compaction_changes gens c) eqn:Hch; [|done]. injection Hx as <-. by split.
  - intros [Hk Hch]. exists (idx_key x, generations x).
    split; [by apply elem_of_sorted_entries|]. cbn [fst snd]. rewrite Hch. by destruct x.
Qed.

Lemma changed_keys_NoDup i c : NoDup (idx_key <$> changed_keys i c).
Proof.
  unfold changed_keys, index_iter.
  assert (NoDup (sorted_entries (index_map i)).*1) as Hnd
    by apply key_sorted_NoDup, sorted_entries_sorted.
  induction (sorted_entries (index_map i)) as [|r l IH]; cbn; [constructor|].
  cbn in Hnd. apply NoDup_cons in Hnd as [Hr Hnd].
  destruct (compaction_changes r.2 c); cbn; [|by apply IH]. constructor; [|by apply IH].
  intros (x & Hx & ([k gens] & Hin & Hp)%list_elem_of_omap)%list_elem_of_fmap. cbn [fst snd] in Hp.
  destruct (compaction_changes gens c); [|done]. simplify_eq/=. apply Hr.
  by apply (list_elem_of_fmap_2 fst) in Hin.
Qed.

Lemma unchanged_key i c k gens :
  gens_wf gens → index_map i !! k = Some gens → (∀ x, x ∈ changed_keys i c → idx_key x ≠ k) →
  compact_gens gens c = ([], gens).
Proof.
  intros [Hwf _] Hk Hno. apply compaction_changes_iff; [done|].
  destruct (compaction_changes gens c) eqn:Hch; [|done]. exfalso.
  apply (Hno (mkIdx k gens)); [|done]. by apply changed_keys_elem.
Qed.

Lemma changed_key_dec i c k :
  (∃ x, x ∈ changed_keys i c ∧ idx_key x = k) ∨ (∀ x, x ∈ changed_keys i c → idx_key x ≠ k).
Proof.
  destruct (decide (k ∈ idx_key <$> changed_keys i c)) as [Hin|Hin].
  - left. apply list_elem_of_fmap in Hin as (x & -> & Hx). by exists x.
  - right. intros x Hx <-. apply Hin. by apply list_elem_of_fmap_2.
Qed.

(** ** The store after *)

Context (st : Inner E) (rev : Z).
Let c := mkRev rev i64_max.
Let G := idx_gens (index st).
Let snap := contents (engine st).
Let cur := current_rev (write_state st).
Context (Hst : store_inv st) (Hrev : compact_rev (write_state st) < rev ≤ cur).

Let changed := changed_keys (index st) c.

Definition compact_batch : WriteBatch :=
  compact_ops c changed ++ OpPut TABLE_META META_KEY_COMPACT_REV (i64_to_be_bytes rev)
    :: put_rows TABLE_META (pending_raft_meta st).

Definition compacted (e : E) : Inner E :=
  let after := mkRevs cur rev in
  mkInner e (set_compact_rev rev (write_state st))
    (view_publish after (view_committed (view_store after (view st))))
    (sent st) [] (batched st) (cluster_id st) (auth st) (lease_applied st) (ops st)
    (apply_sync st)
    (index_set_all ((λ x, (idx_key x, (compact_gens (generations x) c).2)) <$> changed) (index st))
    (values st).

Lemma compact_run :
  compact rev st =
  match commit compact_batch (apply_write_options st) (engine st) with
  | (Ok _, e) => (Ok rev, compacted e)
  | (Err x, e) => (Err (Storage x), set_engine e (set_pending_raft_meta [] st))
  end.
Proof.
  pose proof (si_revs _ Hst) as (Hrevs & _). unfold compact.
  destruct (Z.leb_spec rev 0); [lia|].
  rewrite (pbind_run pget _ st st st) by done. fold cur.
  destruct (Z.ltb_spec cur rev); [lia|].
  destruct (Z.ltb_spec rev (compact_rev (write_state st))); [lia|].
  destruct (Z.eqb_spec rev (compact_rev (write_state st))); [lia|].
  fold (changed_keys (index st) c). fold changed. fold c. rewrite compact_keys_ok.
  unfold plift at 1. unfold pbind at 1.
  destruct (fold_raft_meta_run st (write_i64 META_KEY_COMPACT_REV rev
    (WriteBatch_new ++ compact_ops c changed))) as (any & Hf & _).
  rewrite (pbind_run _ _ _ _ _ Hf). unfold write_i64, batch_put, WriteBatch_new.
  cbn [app]. rewrite <- app_assoc. cbn [app]. fold compact_batch.
  unfold pmodify at 1. unfold pbind at 1. unfold engine_commit.
  cbn [engine set_view set_pending_raft_meta]. unfold pbind at 1.
  change (apply_write_options (set_view _ (set_pending_raft_meta [] st)))
    with (apply_write_options st).
  change (engine (set_view _ (set_pending_raft_meta [] st))) with (engine st).
  destruct (commit compact_batch (apply_write_options st) (engine st)) as [[[]|x] e].
  - unfold pmodify, pbind, pret, compacted. rewrite index_compact_all. done.
  - do 2 f_equal. unfold set_view, set_engine, set_pending_raft_meta, view_store. cbn.
    rewrite <- (si_view _ Hst). by destruct (view st).
Qed.

Lemma compacted_gens_ok e k : idx_gens (index (compacted e)) k = compacted_gens G c k.
Proof.
  unfold idx_gens, compacted_gens. cbn [index compacted].
  rewrite index_set_all_map by (rewrite <- list_fmap_compose; apply changed_keys_NoDup).
  set (m := list_to_map _).
  destruct (changed_key_dec (index st) c k) as [(x & Hx & <-)|Hno].
  - assert (m !! idx_key x = Some (compact_gens (generations x) c).2) as ->.
    { apply elem_of_list_to_map_1; [rewrite <- list_fmap_compose; apply changed_keys_NoDup|].
      apply list_elem_of_fmap. by exists x. }
    apply changed_keys_elem in Hx as [Hx _]. unfold G, idx_gens. rewrite Hx. cbn.
    by destruct (compact_gens (generations x) c).2.
  - assert (m !! k = None) as ->.
    { apply not_elem_of_list_to_map_1. rewrite <- list_fmap_compose.
      intros (x & -> & Hx)%list_elem_of_fmap. by apply (Hno x). }
    unfold G, idx_gens. destruct (index_map (index st) !! k) as [gens|] eqn:Hk; [|done]. cbn.
    rewrite (unchanged_key (index st) c k gens); [done| |done|done].
    pose proof (ci_wf _ _ _ (si_core _ Hst) k) as Hwf. unfold idx_gens in Hwf.
    by rewrite Hk in Hwf.
Qed.

(** ** The tables after *)

Let ts' := apply_batch compact_batch snap.

Lemma compact_batch_head t k :
  t ≠ TABLE_META → ts' !! (t, k) = apply_batch (compact_ops c changed) snap !! (t, k).
Proof.
  intros Ht. unfold ts', compact_batch. rewrite apply_batch_app. apply apply_batch_other.
  intros op [->|Hop%put_rows_table]%elem_of_cons; cbn; congruence.
Qed.

Lemma compact_batch_lease k : ts' !! (TABLE_LEASE_KEYS, k) = snap !! (TABLE_LEASE_KEYS, k).
Proof.
  rewrite compact_batch_head by done. apply apply_batch_other.
  by intros op [Ht|Ht]%compact_ops_table; rewrite Ht.
Qed.

Lemma dropped_key k r :
  r ∈ dropped_revs G c k ↔
  ∃ x, x ∈ changed ∧ idx_key x = k ∧ r ∈ (compact_gens (generations x) c).1.
Proof.
  unfold dropped_revs, G, idx_gens. split.
  - intros Hr. destruct (index_map (index st) !! k) as [gens|] eqn:Hk; cbn in Hr;
      [|by apply elem_of_nil in Hr].
    destruct (changed_key_dec (index st) c k) as [(x & Hx & <-)|Hno].
    + exists x. split_and!; [done..|]. apply changed_keys_elem in Hx as [Hx _].
      by simplify_eq.
    + pose proof (ci_wf _ _ _ (si_core _ Hst) k) as Hwf. unfold idx_gens in Hwf.
      rewrite Hk in Hwf. rewrite (unchanged_key (index st) c k gens) in Hr by done.
      by apply elem_of_nil in Hr.
  - intros (x & [Hx _]%changed_keys_elem & <- & Hr). by rewrite Hx.
Qed.

Lemma dropped_history k r : r ∈ dropped_revs G c k → ∃ d, (r, d) ∈ history (G k).
Proof.
  intros Hr. pose proof (ci_wf _ _ _ (si_core _ Hst) k) as Hwf.
  destruct (compact_gens_dropped (G k) c Hwf) as [Hsplit _].
  assert (r ∈ (history (G k)).*1) as ([r' d] & -> & Hin)%list_elem_of_fmap; [|by exists d].
  rewrite Hsplit. apply elem_of_app. by left.
Qed.

(** The rows of the dropped revisions go, the others stay. *)
Lemma compact_kv k r :
  rev_wf r →
  kv_row ts' k r = if decide (r ∈ dropped_revs G c k) then None else kv_row snap k r.
Proof.
  intros Hr. unfold kv_row. rewrite compact_batch_head by done. rewrite compact_ops_kv.
  assert (OpDelete TABLE_KV (make_kv_key k r) ∈ compact_ops c changed ↔ r ∈ dropped_revs G c k)
    as Hiff.
  { rewrite compact_ops_delete. split.
    - intros (x & r' & Hx & Hr' & Hk).
      assert (r' ∈ dropped_revs G c (idx_key x)) as Hd by (apply dropped_key; eauto).
      destruct (dropped_history _ _ Hd) as [d Hh].
      pose proof (core_bound_wf _ _ _ _ _ (si_core _ Hst) Hh) as Hwf. cbn in Hwf.
      destruct (make_kv_key_inj _ _ _ _ Hr Hwf Hk) as [-> ->]. done.
    - intros (x & Hx & <- & Hd)%dropped_key. eauto. }
  repeat case_decide; try done; tauto.
Qed.

Lemma compact_bound : rev_le c (mkRev (cur + 1) 0).
Proof. unfold rev_le, rev_lt, c. left. cbn. lia. Qed.

Lemma compact_keeps k r :
  rev_wf r → r ∉ dropped_revs G c k → kv_row ts' k r = kv_row snap k r.
Proof. intros Hr Hd. by rewrite compact_kv, decide_False. Qed.

Lemma compact_meta k :
  k ≠ META_KEY_COMPACT_REV → (∀ r, r ∈ pending_raft_meta st → r.1 ≠ k) →
  ts' !! (TABLE_META, k) = snap !! (TABLE_META, k).
Proof.
  intros Hk Hp. unfold ts', compact_batch. rewrite !apply_batch_app.
  change (apply_batch (?op :: ?b) ?t) with (apply_batch b (apply_op op t)).
  rewrite put_rows_skip by done. rewrite apply_op_lookup, decide_False by naive_solver.
  apply apply_batch_other. by intros op [Ht|Ht]%compact_ops_table; rewrite Ht.
Qed.

Lemma compact_meta_rev : read_i64 ts' META_KEY_COMPACT_REV = Some rev.
Proof.
  unfold read_i64, snap_get, ts', compact_batch. rewrite !apply_batch_app.
  change (apply_batch (?op :: ?b) ?t) with (apply_batch b (apply_op op t)).
  rewrite put_rows_skip by (intros r Hr; apply (si_pending _ Hst r Hr)).
  rewrite apply_op_lookup, decide_True by done.
  rewrite length_i64_to_be_bytes. cbn [Nat.eqb].
  rewrite i64_from_to_be_bytes; [done|].
  pose proof (si_revs _ Hst). pose proof Hrev as Hn. unfold cur in Hn. ints.
Qed.

Lemma compact_idx e k :
  match ts' !! (TABLE_IDX, k) with
  | Some b => ∃ gens, deserialize b = Some (mkIdx k gens) ∧
                      index_map (index (compacted e)) !! k = Some gens
  | None => index_map (index (compacted e)) !! k = None
  end.
Proof.
  rewrite compact_batch_head by done. cbn [index compacted].
  rewrite index_set_all_map by (rewrite <- list_fmap_compose; apply changed_keys_NoDup).
  destruct (compact_ops_idx c changed snap k (changed_keys_NoDup _ _)) as [Hin Hout].
  destruct (changed_key_dec (index st) c k) as [(x & Hx & <-)|Hno].
  - rewrite (Hin x Hx eq_refl). erewrite elem_of_list_to_map_1; cycle 1.
    { rewrite <- list_fmap_compose. apply changed_keys_NoDup. }
    { apply list_elem_of_fmap. by exists x. }
    unfold compact_idx_row. destruct (compact_gens (generations x) c).2 as [|g gens]; [done|].
    destruct (serialize_ok (mkIdx (idx_key x) (g :: gens))) as [b Hb]. rewrite Hb.
    exists (g :: gens). split; [|done]. by apply deserialize_serialize.
  - rewrite (Hout Hno), not_elem_of_list_to_map_1; [apply (si_idx _ Hst k)|].
    rewrite <- list_fmap_compose. intros (x & -> & Hx)%list_elem_of_fmap. by apply (Hno x).
Qed.

(** ** The store after keeps the invariant *)

Lemma compacted_inv e : contents e = ts' → store_inv (compacted e).
Proof.
  intros He. destruct (si_revs _ Hst) as (Hr1 & Hr2 & Hr3).
  pose proof Hrev as Hn. unfold cur in Hn.
  assert (∀ k, k ≠ META_KEY_COMPACT_REV → ¬ raft_key k →
            snap_get ts' TABLE_META k = snap_get snap TABLE_META k) as Hmeta.
  { intros k Hk Hr. apply compact_meta; [done|].
    intros r Hp <-. by apply Hr, (si_pending _ Hst r). }
  split; cbn [engine write_state view values pending_raft_meta cluster_id compacted]; rewrite ?He.
  - eapply core_inv_ext; [intros k; symmetry; apply compacted_gens_ok|].
    apply (compact_inv G snap); [apply (si_core _ Hst)|apply compact_bound|apply compact_keeps|].
    apply compact_batch_lease.
  - apply index_set_all_ok, Hst.
  - apply compact_idx.
  - unfold read_i64. rewrite Hmeta by (try done; unfold raft_key; naive_solver).
    apply (si_current _ Hst).
  - by rewrite compact_meta_rev.
  - unfold read_i64. rewrite Hmeta by (try done; unfold raft_key; naive_solver).
    apply (si_lease _ Hst).
  - cbn. split_and!; [lia..|done].
  - done.
  - cbn. f_equal. apply (si_commits _ Hst).
  - eapply cache_all_impl; [|apply (si_cache _ Hst)]. intros k r rec [Hm Hrow].
    split; [done|]. intros d Hd. rewrite compacted_gens_ok in Hd.
    destruct (compact_row G snap ts' (mkRev (cur + 1) 0) c (si_core _ Hst) compact_keeps k
      (r, d)) as [Hin Heq]; [done|]. destruct (Hrow d Hin) as [-> Hk].
    split; [done|]. cbn in Heq. by rewrite Heq.
  - unfold read_u64. rewrite Hmeta by (try done; unfold raft_key; naive_solver).
    apply (si_cluster _ Hst).
  - by intros r ?%elem_of_nil.
Qed.

Lemma compacted_read e k t :
  contents e = ts' → rev ≤ t →
  read_rec (idx_gens (index (compacted e))) (contents e) k t = read_rec G snap k t.
Proof.
  intros He Ht. rewrite He, (read_rec_ext _ (compacted_gens G c)) by apply compacted_gens_ok.
  apply (compact_read _ _ _ (mkRev (cur + 1) 0));
    [apply (si_core _ Hst)|apply compact_keeps|].
  unfold rev_le, rev_lt, c. cbn. destruct (decide (rev = t)); [right; by subst|left; lia].
Qed.

Lemma compacted_live e k :
  contents e = ts' →
  live_rec (idx_gens (index (compacted e))) (contents e) k = live_rec G snap k.
Proof.
  intros He. rewrite He, (live_rec_ext _ (compacted_gens G c)) by apply compacted_gens_ok.
  apply (compact_live _ _ _ (mkRev (cur + 1) 0));
    [apply (si_core _ Hst)|apply compact_bound|apply compact_keeps].
Qed.
End compact.

Section claims.
Context {E : Type} `{KvStoreLaws E} `{BincodeLaws KvRecord, BincodeLaws KeyIndex}.

(** A compaction done: the histories are cut at the revision, exactly the
    rows cut from them are gone, and no read at or above it changed. *)
Record compaction_done (st st' : Inner E) (rev : Z) : Prop := {
  cd_inv : store_inv st';
  cd_current : current_rev (write_state st') = current_rev (write_state st);
  cd_compact : compact_rev (write_state st') = rev;
  cd_sent : sent st' = sent st;
  cd_history k : history (idx_gens (index st') k)
                 = hist_compact (history (idx_gens (index st) k)) (mkRev rev i64_max);
  cd_rows k r d :
    (r, d) ∈ history (idx_gens (index st) k) →
    kv_row (contents (engine st')) k r =
    if decide ((r, d) ∈ history (idx_gens (index st') k))
    then kv_row (contents (engine st)) k r else None;
  cd_read k t :
    rev ≤ t →
    read_rec (idx_gens (index st')) (contents (engine st')) k t
    = read_rec (idx_gens (index st)) (contents (engine st)) k t;
  cd_live k :
    live_rec (idx_gens (index st')) (contents (engine st')) k
    = live_rec (idx_gens (index st)) (contents (engine st)) k
}.

(** What [compact] refuses, and the call that has nothing to do. *)
Definition compact_early (state : WriteState) (rev : Z) : option (MvccResult Z) :=
  if rev <=? 0 then Some (Err (Refused (InvalidArgument "compact rev must be > 0")))
  else if current_rev state <? rev then Some (Err (FutureRevision rev (current_rev state)))
  else if rev <? compact_rev state then Some (Err (Compacted rev (compact_rev state)))
  else if rev =? compact_rev state then Some (Ok rev)
  else None.

Lemma compact_early_run (st : Inner E) rev r :
  compact_early (write_state st) rev = Some r → compact rev st = (r, st).
Proof.
  unfold compact_early, compact. destruct (rev <=? 0); [by intros [= <-]|].
  rewrite (pbind_run pget _ st st st) by done.
  do 3 (case_match; [by intros [= <-]|]). done.
Qed.

Lemma compact_early_none (st : Inner E) rev :
  compact_early (write_state st) rev = None →
  compact_rev (write_state st) < rev ≤ current_rev (write_state st).
Proof.
  unfold compact_early. destruct (Z.leb_spec rev 0), (Z.ltb_spec (current_rev (write_state st)) rev),
    (Z.ltb_spec rev (compact_rev (write_state st))),
    (Z.eqb_spec rev (compact_rev (write_state st))); try done. intros _. lia.
Qed.

Lemma compacted_done (st : Inner E) rev e :
  store_inv st → compact_rev (write_state st) < rev ≤ current_rev (write_state st) →
  contents e = apply_batch (compact_batch st rev) (contents (engine st)) →
  compaction_done st (compacted st rev e) rev.
Proof.
  intros Hst Hrev He. split; try done.
  - by apply compacted_inv.
  - intros k. rewrite compacted_gens_ok by done. apply compact_gens_hist.
    apply (ci_wf _ _ _ (si_core _ Hst) k).
  - intros k r d Hr. cbn [engine compacted]. rewrite He.
    pose proof (ci_wf _ _ _ (si_core _ Hst) k) as Hwf.
    pose proof (core_bound_wf _ _ _ _ _ (si_core _ Hst) Hr) as Hrw. cbn in Hrw.
    rewrite compact_kv by done. rewrite compacted_gens_ok by done.
    destruct (decide ((r, d) ∈ _)) as [Hin|Hout].
    + rewrite decide_False; [done|]. by apply (kept_not_dropped _ _ (r, d)).
    + rewrite decide_True; [done|].
      destruct (compact_gens_dropped _ (mkRev rev i64_max) Hwf) as [Hsplit _].
      assert (r ∈ (history (idx_gens (index st) k)).*1) as Hin
        by by apply (list_elem_of_fmap_2 fst) in Hr.
      rewrite Hsplit in Hin. apply elem_of_app in Hin as [Hin|Hin]; [done|].
      apply list_elem_of_fmap in Hin as ([r' d'] & Heq & Hin). cbn in Heq. subst r'.
      exfalso. apply Hout. assert (d' = d) as <-; [|done].
      eapply history_kind; [exact Hwf| |exact Hr]. exact (proj1 (kept_not_dropped _ _ _ Hwf Hin)).
  - intros k t Ht. by apply compacted_read.
  - intros k. by apply compacted_live.
Qed.

Lemma compact_ok (st : Inner E) rev :
  store_inv st →
  let '(r, st') := compact rev st in
  match compact_early (write_state st) rev with
  | Some x => r = x ∧ st' = st
  | None =>
      match r with
      | Ok n => n = rev ∧ compaction_done st st' rev
      | Err x => ∃ y, x = Storage y ∧ commit_failed st st' (compact_batch st rev) y ∧
          (contents (engine st') = contents (engine st) ∨
           ∃ st1, compaction_done st st1 rev ∧ contents (engine st1) = contents (engine st'))
      end
  end.
Proof.
  intros Hst. destruct (compact_early (write_state st) rev) as [x|] eqn:Hearly.
  { by rewrite (compact_early_run st rev x). }
  pose proof (compact_early_none st rev Hearly) as Hrev. rewrite compact_run by done.
  destruct (commit _ _ (engine st)) as [[[]|y] e] eqn:Hcommit.
  - split; [done|]. apply compacted_done; [done..|]. by apply commit_ok in Hcommit.
  - exists y. split; [done|]. pose proof (commit_err _ _ _ _ _ Hcommit) as Hdisk. split.
    + exists e. by split_and!.
    + destruct Hdisk as [Hd|Hd]; [by left|right].
      exists (compacted st rev e). split; [by apply compacted_done|done].
Qed.

(** C25.  Compaction drops exactly what it should.  [compact] refuses a
    revision that is not positive, in the future or below the last one, and
    does nothing for the last one.  Otherwise every key's history is cut as
    [hist_compact] says, the rows of [mvcc_kv] that go are exactly those of
    the revisions cut, no event is sent, and every read at or above the
    revision gives what it gave.  When the engine fails, RAM is unchanged but
    for the staged metadata, and the disk has all of the compaction or
    nothing. *)
Theorem compact_exact (st : Inner E) rev :
  store_inv st →
  let '(r, st') := compact rev st in
  match compact_early (write_state st) rev with
  | Some x => r = x ∧ st' = st
  | None =>
      match r with
      | Ok n => n = rev ∧ compaction_done st st' rev
      | Err x => ∃ y, x = Storage y ∧ commit_failed st st' (compact_batch st rev) y ∧
          (contents (engine st') = contents (engine st) ∨
           ∃ st1, compaction_done st st1 rev ∧ contents (engine st1) = contents (engine st'))
      end
  end.
Proof. apply compact_ok. Qed.

Lemma compact_view (st st' : Inner E) rev t key range_end :
  compaction_done st st' rev → rev ≤ t →
  store_view st' t key range_end = store_view st t key range_end.
Proof.
  intros Hd Ht. eapply view_spec_unique; [|apply store_view_spec..].
  intros k. cbn. by apply (cd_read _ _ _ Hd).
Qed.

Lemma compact_success (st st' : Inner E) rev :
  store_inv st → compact rev st = (Ok rev, st') →
  store_inv st' ∧ current_rev (write_state st') = current_rev (write_state st) ∧
  compact_rev (write_state st') = rev ∧
  compact_rev (write_state st) ≤ rev ≤ current_rev (write_state st) ∧
  (∀ t key range_end, rev ≤ t → store_view st' t key range_end = store_view st t key range_end).
Proof.
  intros Hst Hrun. pose proof (compact_ok st rev Hst) as Hok. rewrite Hrun in Hok.
  pose proof (si_revs _ Hst) as (Hrevs & _).
  destruct (compact_early (write_state st) rev) as [x|] eqn:Hearly.
  - destruct Hok as [<- ->]. unfold compact_early in Hearly.
    repeat (case_match; [done|]). destruct (Z.eqb_spec rev (compact_rev (write_state st))); [|done].
    split_and!; [done..|lia|lia|done].
  - pose proof (compact_early_none st rev Hearly). destruct Hok as [_ Hd].
    split_and!; [apply Hd..|lia|lia|]. intros t key range_end. by apply compact_view.
Qed.

(**  A client cannot tell a compaction from its reads: after [compact] a
    range at any revision that is not below the compacted one, the current
    one included, answers as before; one below is refused as compacted. *)
Theorem compaction_invisible (st st' : Inner E) rev key range_end limit t ko co :
  store_inv st → compact rev st = (Ok rev, st') → 0 ≤ t →
  (range key range_end limit t ko co st').1 =
  if (0 <? t) && (t <? rev) then Err (Compacted t rev)
  else (range key range_end limit t ko co st).1.
Proof.
  intros Hst Hrun Ht.
  destruct (compact_success st st' rev Hst Hrun) as (Hst' & Hcur & Hcmp & Hrev & Hview).
  unfold range, pbind. pose proof (range_ok st key range_end limit t ko co Hst) as Hr.
  pose proof (range_ok st' key range_end limit t ko co Hst') as Hr'.
  destruct (range_with_revision _ _ _ _ _ _ st) as [r1 s1].
  destruct (range_with_revision _ _ _ _ _ _ st') as [r2 s2].
  destruct Hr as [-> _], Hr' as [-> _]. unfold range_answer. rewrite Hcur, Hcmp.
  set (cur := current_rev (write_state st)) in *. set (cmp := compact_rev (write_state st)) in *.
  destruct (Z.ltb_spec 0 t); cbn [andb].
  - destruct (Z.ltb_spec cur t), (Z.ltb_spec t rev), (Z.ltb_spec t cmp); try lia; [done..|].
    destruct (Z.eqb_spec t 0); [lia|]. by rewrite Hview.
  - assert (t = 0) as -> by lia. cbn [Z.eqb]. by rewrite Hview by lia.
Qed.
End claims.

(** ** Witnesses *)

Section witnesses.
Import Demo.

(** The demo store after a second [apply], which writes [b] again. *)
Definition demo_ms2 : list Mutation := [Put (str "b") (str "3") 0 false false false].
Definition demo_store2 : Inner MemEngine := (apply demo_ms2 demo_store1).2.

Lemma demo_inv2 : store_inv demo_store2.
Proof.
  unfold demo_store2. destruct (apply demo_ms2 demo_store1) as [r st'] eqn:Happ.
  assert (r = Ok (2, [mkMutationResult 1 []])) as ->.
  { rewrite <- (f_equal fst Happ : _ = r). vm_compute. reflexivity. }
  assert (current_rev (write_state demo_store1) = 1) as Hcur by (vm_compute; reflexivity).
  exact (proj1 (apply_extends demo_store1 demo_abs1 demo_ms2 (2, [mkMutationResult 1 []]) st' 1 [] []
    (proj1 demo_inv1) (proj2 demo_inv1) ltac:(repeat constructor; discriminate)
    ltac:(rewrite Hcur; reflexivity)
    ltac:(discriminate) Happ ltac:(rewrite Hcur; split; [reflexivity|discriminate]))).
Qed.

Lemma compact_exact_witness :
  (compact 2 demo_store2).1 = Ok 2 ∧ compaction_done demo_store2 (compact 2 demo_store2).2 2.
Proof.
  pose proof (compact_exact demo_store2 2 demo_inv2) as Hok.
  assert ((compact 2 demo_store2).1 = Ok 2) as Hr by (vm_compute; reflexivity).
  assert (compact_early (write_state demo_store2) 2 = None) as Hn by (vm_compute; reflexivity).
  destruct (compact 2 demo_store2) as [r st']. cbn [fst snd] in *. rewrite Hn, Hr in Hok.
  split; [exact Hr|]. apply Hok.
Defined.

Lemma compaction_invisible_witness :
  let st' := (compact 2 demo_store2).2 in
  (range (str "a") [x00] 0 2 false false st').1 = (range (str "a") [x00] 0 2 false false demo_store2).1
  ∧ (range (str "a") [x00] 0 1 false false st').1 = Err (Compacted 1 2).
Proof.
  assert ((compact 2 demo_store2).1 = Ok 2) as Hr by (vm_compute; reflexivity).
  destruct (compact 2 demo_store2) as [r st'] eqn:Hc. cbn [fst snd] in *. rewrite Hr in Hc.
  split.
  - apply (compaction_invisible demo_store2 st' 2 (str "a") [x00] 0 2 false false demo_inv2 Hc).
    discriminate.
  - apply (compaction_invisible demo_store2 st' 2 (str "a") [x00] 0 1 false false demo_inv2 Hc).
    discriminate.
Defined.
End witnesses.
