(* ===== verification/StoreSide.v ===== *)
(** * Commits beside the keys

    Leases, auth, the cluster id and raft metadata are committed in batches
    that name none of the tables the keys live in.  Such a commit keeps the
    store's invariant and every read. *)

From S2P Require Import Prelude Revision Record KvStore Lease Cache Auth Store StoreCore.
From S2P Require Import StoreSpec StoreInv StoreApply StoreCommit StoreOpen.

(** An op of such a batch; of [mvcc_meta] it puts rows the index and the
    revisions do not depend on. *)
Definition side_op (op : BatchOp) : Prop :=
  op_table op ≠ TABLE_KV ∧ op_table op ≠ TABLE_IDX ∧ op_table op ≠ TABLE_LEASE_KEYS ∧
  (op_table op = TABLE_META →
   ∃ k v, op = OpPut TABLE_META k v ∧
     k ≠ META_KEY_CURRENT_REV ∧ k ≠ META_KEY_COMPACT_REV ∧ k ≠ META_KEY_CLUSTER_ID).

(** It leaves the lease counter alone too. *)
Definition quiet_op (op : BatchOp) : Prop :=
  side_op op ∧ ∀ v, op ≠ OpPut TABLE_META META_KEY_NEXT_LEASE_ID v.

Lemma side_data b ts : Forall side_op b → data_eq ts (apply_batch b ts).
Proof.
  rewrite Forall_forall. intros Hb t k Ht. apply apply_batch_other.
  intros op (Hkv & Hidx & Hlk & _)%Hb. by destruct Ht as [->|[->| ->]].
Qed.

Lemma meta_lookup b ts k :
  (∀ op, op ∈ b → op_table op = TABLE_META →
     ∃ k' v, op = OpPut TABLE_META k' v ∧ k' ≠ k) →
  apply_batch b ts !! (TABLE_META, k) = ts !! (TABLE_META, k).
Proof.
  induction b as [|op b IH] using rev_ind; intros Hb; [done|].
  rewrite apply_batch_snoc, apply_op_lookup, IH by (intros; apply Hb; [set_solver|done]).
  destruct (decide (op_table op = TABLE_META)) as [Ht|Ht].
  - destruct (Hb op) as (k' & v & -> & Hne); [apply elem_of_snoc|done|].
    by rewrite decide_False by naive_solver.
  - destruct op; cbn in Ht; by rewrite decide_False by naive_solver.
Qed.

Lemma side_meta b ts k :
  Forall side_op b → k = META_KEY_CURRENT_REV ∨ k = META_KEY_COMPACT_REV ∨ k = META_KEY_CLUSTER_ID →
  apply_batch b ts !! (TABLE_META, k) = ts !! (TABLE_META, k).
Proof.
  rewrite Forall_forall. intros Hb Hk. apply meta_lookup. intros op Hop Ht.
  destruct (Hb op Hop) as (_ & _ & _ & Hm). destruct (Hm Ht) as (k' & v & -> & Hne).
  exists k', v. naive_solver.
Qed.

Lemma quiet_side b : Forall quiet_op b → Forall side_op b.
Proof. intros Hb. eapply Forall_impl; [done|]. by intros op []. Qed.

Lemma quiet_next b ts :
  Forall quiet_op b →
  read_i64 (apply_batch b ts) META_KEY_NEXT_LEASE_ID = read_i64 ts META_KEY_NEXT_LEASE_ID.
Proof.
  rewrite Forall_forall. intros Hb. unfold read_i64, snap_get. rewrite meta_lookup; [done|].
  intros op Hop Ht. destruct (Hb op Hop) as ((_ & _ & _ & Hm) & Hn).
  destruct (Hm Ht) as (k' & v & -> & _). exists k', v. split; [done|]. intros ->. by apply (Hn v).
Qed.

Lemma pending_quiet {E} `{KvStore E} `{BincodeLaws KvRecord, BincodeLaws KeyIndex} (st : Inner E) :
  store_inv st → Forall quiet_op (put_rows TABLE_META (pending_raft_meta st)).
Proof.
  intros Hst. apply Forall_forall. intros op (r & -> & Hr)%list_elem_of_fmap.
  destruct (si_pending _ Hst r Hr) as (Hc & Hk & Hn & Hi).
  split; [|naive_solver]. split_and!; [done..|]. intros _. by exists r.1, r.2.
Qed.

Section side.
Context {E : Type} `{KvStoreLaws E} `{BincodeLaws KvRecord, BincodeLaws KeyIndex}.

(** What a side commit does not move. *)
Record side_step (st st' : Inner E) : Prop := {
  ss_current : current_rev (write_state st') = current_rev (write_state st);
  ss_compact : compact_rev (write_state st') = compact_rev (write_state st);
  ss_view : view st' = view st;
  ss_index : index st' = index st;
  ss_values : values st' = values st;
  ss_cluster : cluster_id st' = cluster_id st;
  ss_sent : sent st' = sent st;
  ss_pending : pending_raft_meta st' = [];
  ss_data : data_eq (contents (engine st)) (contents (engine st'))
}.

Lemma side_inv st st' b :
  store_inv st → side_step st st' →
  contents (engine st') = apply_batch b (contents (engine st)) → Forall side_op b →
  default 0 (read_i64 (contents (engine st')) META_KEY_NEXT_LEASE_ID)
    = next_lease_id (write_state st') →
  is_i64 (next_lease_id (write_state st')) →
  store_inv st'.
Proof.
  intros Hst [Hcur Hcmp Hview Hidx Hval Hcl Hsent Hpend Hdata] He Hb Hn Hi.
  assert (∀ k, k = META_KEY_CURRENT_REV ∨ k = META_KEY_COMPACT_REV ∨ k = META_KEY_CLUSTER_ID →
    snap_get (contents (engine st')) TABLE_META k = snap_get (contents (engine st)) TABLE_META k)
    as Hmeta by (intros k Hk; rewrite He; by apply side_meta).
  destruct (si_revs _ Hst) as (Hr1 & Hr2 & _).
  split; rewrite ?Hcur, ?Hcmp, ?Hview, ?Hidx, ?Hval, ?Hcl, ?Hpend.
  - eapply data_eq_core; [done|apply (si_core _ Hst)].
  - apply (si_index _ Hst).
  - intros k. rewrite (Hdata TABLE_IDX k) by auto. apply (si_idx _ Hst).
  - unfold read_i64. rewrite Hmeta by auto. apply (si_current _ Hst).
  - unfold read_i64. rewrite Hmeta by auto. apply (si_compact _ Hst).
  - done.
  - done.
  - rewrite (si_view _ Hst). unfold ws_revs. by rewrite Hcur, Hcmp.
  - apply (si_commits _ Hst).
  - eapply cache_all_impl; [|apply (si_cache _ Hst)]. intros k r rec [Hm Hrow].
    split; [done|]. intros d Hd. rewrite (data_eq_kv _ _ _ _ Hdata). by apply Hrow.
  - unfold read_u64. rewrite Hmeta by auto. apply (si_cluster _ Hst).
  - by intros r ?%elem_of_nil.
Qed.

Lemma side_abs st st' A :
  side_step st st' → abs_rel A (idx_gens (index st)) (contents (engine st)) →
  abs_rel A (idx_gens (index st')) (contents (engine st')).
Proof.
  intros Hs HA k. rewrite (ss_index _ _ Hs), (data_eq_live _ _ _ k (ss_data _ _ Hs)). apply HA.
Qed.

Lemma side_read st st' k t :
  side_step st st' →
  read_rec (idx_gens (index st')) (contents (engine st')) k t
  = read_rec (idx_gens (index st)) (contents (engine st)) k t.
Proof.
  intros Hs. rewrite (ss_index _ _ Hs). apply (data_eq_read _ _ _ _ _ (ss_data _ _ Hs)).
Qed.
End side.
