(* ===== verification/StoreLease.v ===== *)
(** * Leases in the store

    Granting, renewing, asking for and revoking a lease.  The [lease] table
    as a map from ids to records, the keys attached to a lease as the live
    keys that name it, and a revoke as one atomic delete of those keys and
    of the lease. *)

From S2P Require Import Prelude Revision Record KvStore Lease Cache Auth Store StoreCore.
From S2P Require Import StoreSpec StoreInv StoreApply StoreCommit StoreOpen StoreDemo StoreWrite.
From S2P Require Import StoreRead StoreSide.

(** ** What a revoke should do *)

(** The keys attached to a lease, with their records, in key order. *)
Definition lease_view (A : Abs) (id : Z) : list (bytes * KvRecord) :=
  base.filter (λ p, rec_lease p.2 = id ∧ id ≠ 0) (a_range A [] [x00]).

(** Their deletion at one revision. *)
Definition spec_revoke (rev : Z) (id : Z) (A : Abs) : Effect :=
  let victims := lease_view A id in
  mkEffect (foldl (λ A p, <[p.1 := None]> A) A victims)
    (mkMutationResult (Z.of_nat (length victims)) [])
    ((λ p, mkEvent EvDelete (tomb_rec p.1 (mkRev rev 0)) (Some p.2)) <$> victims).

Lemma in_range_all k : in_range k [] [x00] = true.
Proof. unfold in_range. destruct k; done. Qed.

Lemma lease_view_elem A id k rec :
  (k, rec) ∈ lease_view A id ↔ a_live A k = Some rec ∧ rec_lease rec = id ∧ id ≠ 0.
Proof.
  unfold lease_view. rewrite list_elem_of_filter, a_range_elem, in_range_all. cbn. naive_solver.
Qed.

Lemma lease_view_sorted A id : key_sorted (lease_view A id).
Proof. apply key_sorted_filter, a_range_sorted. Qed.

Definition delete_key_of (p : bytes * KvRecord) : Mutation := DeleteRange p.1 [] false.

(** One [DeleteRange] per key is what a revoke runs: together they are the
    specification. *)
Lemma a_range_single A k rec : a_live A k = Some rec → a_range A k [] = [(k, rec)].
Proof.
  intros Hk. apply key_sorted_ext; [apply a_range_sorted| |].
  { apply key_sorted_cons. split; [by intros q ?%elem_of_nil|apply key_sorted_nil]. }
  intros [k' rec']. rewrite a_range_elem, list_elem_of_singleton. unfold in_range. cbn. split.
  - intros [Hr Hl]. apply bool_decide_eq_true in Hr. subst k'. congruence.
  - intros [= -> ->]. split; [by apply bool_decide_eq_true|done].
Qed.

Lemma spec_deletes main (l : list (bytes * KvRecord)) sub A :
  NoDup l.*1 → (∀ p, p ∈ l → a_live A p.1 = Some p.2) →
  spec_mutations main sub (delete_key_of <$> l) A
  = Ok (foldl (λ A p, <[p.1 := None]> A) A l, (λ _, mkMutationResult 1 []) <$> l,
        (λ p, mkEvent EvDelete (tomb_rec p.1 (mkRev main 0)) (Some p.2)) <$> l).
Proof.
  revert sub A. induction l as [|[k rec] l IH]; intros sub A; [done|].
  cbn [fmap list_fmap fst]. intros [Hk Hnd]%NoDup_cons Hl. cbn [spec_mutations delete_key_of].
  unfold spec_mutation at 1, delete_key_of at 1. unfold spec_delete. cbn [fst].
  rewrite (a_range_single A k rec) by (apply (Hl (k, rec)); by left). cbn [res_bind ef_abs foldl fst].
  rewrite IH; [done|done|].
  intros p Hp. unfold a_live. rewrite lookup_insert_ne.
  - apply (Hl p). by right.
  - intros ->. apply Hk. by apply list_elem_of_fmap_2.
Qed.

Lemma deletes_count (l : list (bytes * KvRecord)) n :
  foldl (λ n r, n + mr_n r) n ((λ _ : bytes * KvRecord, mkMutationResult 1 []) <$> l)
  = n + Z.of_nat (length l).
Proof.
  revert n. induction l as [|p l IH]; intros n; cbn [fmap list_fmap foldl]; [cbn; lia|].
  rewrite IH. cbn. lia.
Qed.

Section lease.
Context {E : Type} `{KvStoreLaws E} `{BincodeLaws KvRecord, BincodeLaws KeyIndex}.
Context `{BincodeLaws LeaseRecord}.

(** ** The keys attached to a lease *)

(** Ids whose scan is exact. *)
Definition lease_scannable (id : Z) : Prop := is_i64 id ∧ id ≠ -1 ∧ id ≠ i64_max.

Lemma live_lease_i64 G ts bound k rec :
  core_inv G ts bound → live_rec G ts k = Some rec → is_i64 (rec_lease rec).
Proof.
  intros Hc Hl. destruct (live_rec_inv _ _ _ _ _ Hc Hl) as (r & g & _ & _ & _ & _ & Hok).
  by destruct Hok as (_ & _ & _ & _ & Hi & _).
Qed.

Lemma lease_rows_elem G ts bound id rk v :
  core_inv G ts bound → lease_scannable id →
  (rk, v) ∈ lease_rows ts id →
  ts !! (TABLE_LEASE_KEYS, rk) = Some v ∧
  ∃ k rec, rk = lease_key_index id k ∧ live_rec G ts k = Some rec ∧ rec_lease rec = id ∧ id ≠ 0.
Proof.
  intros Hc (Hid & Hm1 & Hmax) [Hrow Hin]%snap_range_elem. split; [done|].
  destruct (proj1 (ci_lease _ _ _ Hc rk) ltac:(by rewrite Hrow)) as (k & rec & Hl & Hne & ->).
  pose proof (live_lease_i64 _ _ _ _ _ Hc Hl) as Hi.
  apply lease_keys_bounds_iff in Hin; [|done..]. exists k, rec. rewrite Hin in *. done.
Qed.

Lemma row_keys_ok id (rows : list (bytes * bytes)) :
  is_i64 id → (∀ r, r ∈ rows → ∃ k, r.1 = lease_key_index id k) →
  row_keys rows = Ok ((λ r, drop 8 r.1) <$> rows).
Proof.
  intros Hid Hrows. unfold row_keys. induction rows as [|r rows IH]; [done|].
  cbn [res_map fmap list_fmap].
  destruct (Hrows r) as [k Hk]; [by left|]. rewrite Hk, parse_lease_key_index by done.
  cbn [res_bind snd]. rewrite IH by (intros; apply Hrows; by right). cbn.
  unfold lease_key_index. by rewrite drop_app_length' by by rewrite length_lease_id_key.
Qed.

Lemma lease_keys_sorted id (rows : list (bytes * bytes)) :
  key_sorted rows → (∀ r, r ∈ rows → ∃ k, r.1 = lease_key_index id k) →
  key_sorted ((λ r, (drop 8 r.1, r.2)) <$> rows).
Proof.
  induction rows as [|r rows IH]; [done|]. cbn [fmap list_fmap].
  rewrite !key_sorted_cons. intros [Hr Hs] Hk. split.
  - intros q (r' & -> & Hr')%list_elem_of_fmap. cbn [fst].
    specialize (Hr r' Hr'). destruct (Hk r) as [k1 Hk1]; [by left|].
    destruct (Hk r') as [k2 Hk2]; [by right|]. rewrite Hk1, Hk2 in *.
    unfold lease_key_index in *. rewrite !drop_app_length' by by rewrite length_lease_id_key.
    unfold bytes_lt in *. by rewrite bytes_cmp_app_same in Hr.
  - apply IH; [done|]. intros; apply Hk; by right.
Qed.

Lemma attached_ok (A : Abs) G ts bound id :
  core_inv G ts bound → abs_rel A G ts → lease_scannable id →
  row_keys (lease_rows ts id) = Ok (lease_view A id).*1.
Proof.
  intros Hc HA Hid.
  assert (∀ r, r ∈ lease_rows ts id → ∃ k, r.1 = lease_key_index id k) as Hk.
  { intros [rk v] (_ & k & _ & -> & _)%(lease_rows_elem G ts bound id); eauto. }
  rewrite (row_keys_ok id) by (done || apply Hid). f_equal.
  destruct (key_sorted_le _ (lease_keys_sorted id _ (map_range_sorted _ _ _) Hk)) as [Hs Hnd].
  destruct (key_sorted_le _ (lease_view_sorted A id)) as [Hs' Hnd'].
  rewrite <- list_fmap_compose in Hs, Hnd. apply sorted_keys_ext; try done. intros k.
  rewrite !list_elem_of_fmap. split.
  - intros ([rk v] & -> & (_ & k' & rec & -> & Hl & Hle & Hne)%(lease_rows_elem G ts bound id));
      [|done..]. cbn [fst]. unfold lease_key_index.
    rewrite drop_app_length' by by rewrite length_lease_id_key.
    exists (k', rec). split; [done|]. apply lease_view_elem.
    by rewrite (abs_live A G ts bound).
  - intros ([k' rec] & -> & (Hl & Hle & Hne)%lease_view_elem). cbn [fst].
    rewrite (abs_live A G ts bound) in Hl by done.
    destruct (proj2 (ci_lease _ _ _ Hc (lease_key_index id k'))) as [v Hv].
    { exists k', rec. by rewrite Hle. }
    exists (lease_key_index id k', v). cbn [fst]. split.
    + unfold lease_key_index. by rewrite drop_app_length' by by rewrite length_lease_id_key.
    + apply snap_range_elem. split; [done|]. destruct Hid as (? & ? & ?).
      by apply lease_keys_bounds_iff.
Qed.

(** ** The lease table *)

Definition lease_of (ts : Tables) (id : Z) : option LeaseRecord :=
  ts !! (TABLE_LEASE, lease_id_key id) ≫= deserialize.

Lemma lease_of_put b1 b2 ts id rec v :
  is_i64 id → serialize rec = Some v →
  (∀ op, op ∈ b2 → op_table op ≠ TABLE_LEASE) → (∀ op, op ∈ b1 → op_table op ≠ TABLE_LEASE) →
  ∀ j, is_i64 j →
  lease_of (apply_batch (b1 ++ OpPut TABLE_LEASE (lease_id_key id) v :: b2) ts) j
  = if decide (j = id) then Some rec else lease_of ts j.
Proof.
  intros Hid Hv Hb2 Hb1 j Hj. unfold lease_of. rewrite apply_batch_app.
  change (apply_batch (?op :: ?b) ?t) with (apply_batch b (apply_op op t)).
  rewrite (apply_batch_other b2), apply_op_lookup, (apply_batch_other b1) by done.
  destruct (decide (j = id)) as [->|Hne].
  - rewrite decide_True by done. cbn. by apply deserialize_serialize.
  - rewrite decide_False; [done|]. intros [_ Heq]. by apply i64_to_be_bytes_inj in Heq.
Qed.

Lemma pending_not_lease (st : Inner E) op :
  op ∈ put_rows TABLE_META (pending_raft_meta st) → op_table op ≠ TABLE_LEASE.
Proof. by intros ->%put_rows_table. Qed.

(** ** Granting *)

Definition grant_id (next id : Z) : Z := if id =? 0 then i64_wrap (next + 1) else id.
Definition grant_next (next id : Z) : Z :=
  if id =? 0 then i64_wrap (next + 1) else Z.max next id.

Definition grant_counter (next id : Z) : WriteBatch :=
  if (id =? 0) || (next <? id)
  then [OpPut TABLE_META META_KEY_NEXT_LEASE_ID (i64_to_be_bytes (grant_next next id))] else [].

Definition grant_batch (st : Inner E) (id : Z) (v : bytes) : WriteBatch :=
  let next := next_lease_id (write_state st) in
  grant_counter next id ++ OpPut TABLE_LEASE (lease_id_key (grant_id next id)) v
    :: put_rows TABLE_META (pending_raft_meta st).

Definition granted (st : Inner E) (e : E) (next : Z) (la : gmap Z Z) : Inner E :=
  set_lease_applied la (set_engine e (set_pending_raft_meta []
    (set_write_state (set_next_lease_id next (write_state st)) st))).

Lemma grant_run (st : Inner E) now id ttl now_unix v :
  0 < ttl →
  let next := next_lease_id (write_state st) in
  let fid := grant_id next id in
  serialize (mkLease fid ttl (saturating_add now_unix ttl)) = Some v →
  apply_lease_grant now id ttl now_unix st =
  match commit (grant_batch st id v) (apply_write_options st) (engine st) with
  | (Ok _, e) => (Ok (mkGrantResult fid ttl (current_rev (write_state st))),
                  granted st e (grant_next next id) (<[fid := now]> (lease_applied st)))
  | (Err x, e) => (Err (Storage x), granted st e (grant_next next id) (lease_applied st))
  end.
Proof.
  intros Httl next fid Hv. unfold apply_lease_grant. destruct (Z.leb_spec ttl 0); [lia|].
  rewrite (pbind_run pget _ st st st) by done. fold next.
  assert ((if id =? 0 then (i64_wrap (next + 1), i64_wrap (next + 1),
             write_i64 META_KEY_NEXT_LEASE_ID (i64_wrap (next + 1)) WriteBatch_new)
           else if next <? id then (id, id, write_i64 META_KEY_NEXT_LEASE_ID id WriteBatch_new)
           else (id, next, WriteBatch_new))
          = (fid, grant_next next id, grant_counter next id)) as ->.
  { unfold fid, grant_counter, grant_id, grant_next. destruct (id =? 0); [done|].
    destruct (Z.ltb_spec next id); cbn [orb]; rewrite ?Z.max_r, ?Z.max_l by lia; done. }
  unfold pmodify at 1. unfold pbind at 1. fold fid. rewrite Hv. cbn [ok_or].
  unfold plift at 1. unfold pbind at 1.
  set (st1 := set_write_state (set_next_lease_id (grant_next next id) (write_state st)) st).
  destruct (fold_raft_meta_run st1 (batch_put TABLE_LEASE (lease_id_key fid) v
    (grant_counter next id))) as (any & Hf & _).
  rewrite (pbind_run _ _ _ _ _ Hf). unfold batch_put. rewrite <- app_assoc. cbn [app].
  change (pending_raft_meta st1) with (pending_raft_meta st).
  change (grant_counter next id ++ _ :: _) with (grant_batch st id v).
  unfold engine_commit. unfold pbind at 1. cbn [engine set_pending_raft_meta].
  change (engine st1) with (engine st).
  by destruct (commit (grant_batch st id v) (apply_write_options st) (engine st)) as [[[]|x] e].
Qed.

(** Every id granted is at most the counter, so the next one is new. *)
Definition leases_below (ts : Tables) (next : Z) : Prop :=
  ∀ j, is_i64 j → is_Some (lease_of ts j) → j ≤ next.

Lemma grant_side (st : Inner E) id v : store_inv st → Forall side_op (grant_batch st id v).
Proof.
  intros Hst. apply Forall_app. split; [|apply Forall_cons; split].
  - unfold grant_counter. destruct (_ || _); [|done]. apply Forall_singleton.
    split_and!; [done..|]. intros _. by do 2 eexists.
  - by split_and!.
  - by apply quiet_side, pending_quiet.
Qed.

Lemma grant_counter_next (st : Inner E) id v :
  store_inv st → is_i64 (grant_next (next_lease_id (write_state st)) id) →
  default 0 (read_i64 (apply_batch (grant_batch st id v) (contents (engine st)))
               META_KEY_NEXT_LEASE_ID)
  = grant_next (next_lease_id (write_state st)) id.
Proof.
  intros Hst Hi. unfold grant_batch. rewrite apply_batch_app.
  rewrite quiet_next by (apply Forall_cons; split; [|by apply pending_quiet]; by split; [by split_and!|]).
  unfold grant_counter. destruct ((id =? 0) || _) eqn:Hc.
  - unfold read_i64, snap_get.
    change (apply_batch [?op] ?t) with (apply_op op t).
    rewrite apply_op_lookup, decide_True by done. rewrite length_i64_to_be_bytes. cbn [Nat.eqb].
    by rewrite i64_from_to_be_bytes.
  - cbn [apply_batch foldl]. rewrite (si_lease _ Hst). unfold grant_next.
    destruct (id =? 0); [done|]. cbn in Hc. lia.
Qed.

Lemma granted_step (st : Inner E) id v e la :
  store_inv st → contents e = apply_batch (grant_batch st id v) (contents (engine st)) →
  side_step st (granted st e (grant_next (next_lease_id (write_state st)) id) la).
Proof.
  intros Hst He. split; try done. cbn [engine granted set_lease_applied set_engine].
  rewrite He. by apply side_data, grant_side.
Qed.

Lemma grant_ok (st : Inner E) now id ttl now_unix :
  store_inv st → is_i64 id → next_lease_id (write_state st) < i64_max →
  let next := next_lease_id (write_state st) in
  let fid := if id =? 0 then next + 1 else id in
  let '(r, st') := apply_lease_grant now id ttl now_unix st in
  if ttl <=? 0
  then r = Err (Refused (InvalidArgument "lease TTL must be positive")) ∧ st' = st
  else next_lease_id (write_state st') = Z.max next fid ∧
    match r with
    | Ok out => out = mkGrantResult fid ttl (current_rev (write_state st)) ∧
        store_inv st' ∧ side_step st st' ∧
        ∀ j, is_i64 j →
          lease_of (contents (engine st')) j
          = if decide (j = fid) then Some (mkLease fid ttl (saturating_add now_unix ttl))
            else lease_of (contents (engine st)) j
    | Err x => ∃ y b e, x = Storage y ∧
        commit b (apply_write_options st) (engine st) = (Err y, e) ∧
        st' = granted st e (Z.max next fid) (lease_applied st)
    end.
Proof.
  intros Hst Hid Hmax next fid. destruct (si_revs _ Hst) as (_ & _ & Hni). fold next in Hmax, Hni.
  destruct (Z.leb_spec ttl 0) as [Httl|Httl].
  { unfold apply_lease_grant. destruct (Z.leb_spec ttl 0); [done|lia]. }
  assert (grant_id next id = fid ∧ grant_next next id = Z.max next fid) as [Hg Hn].
  { unfold grant_id, grant_next, fid. destruct (id =? 0); [|done].
    rewrite i64_wrap_id by ints. split; lia. }
  assert (is_i64 fid) as Hfi by (unfold fid; destruct (id =? 0); ints).
  destruct (serialize_ok (mkLease fid ttl (saturating_add now_unix ttl))) as [v Hv].
  pose proof (grant_run st now id ttl now_unix v Httl) as Hrun. cbv zeta in Hrun. fold next in Hrun.
  rewrite Hg, Hn in Hrun. rewrite Hrun by done.
  destruct (commit _ _ (engine st)) as [[[]|y] e] eqn:Hcommit.
  2:{ split; [done|]. by exists y, (grant_batch st id v), e. }
  split; [done|]. apply commit_ok in Hcommit as He.
  pose proof (granted_step st id v e (<[fid := now]> (lease_applied st)) Hst He) as Hs.
  pose proof (grant_counter_next st id v Hst) as Hc. fold next in Hs, Hc. rewrite Hn in Hs, Hc.
  assert (is_i64 (Z.max next fid)) as Hmi by (clear -Hfi Hni; ints).
  split_and!; [done| |done|].
  - eapply (side_inv st _ (grant_batch st id v)); [done..|by apply grant_side| |done].
    cbn [engine granted set_lease_applied set_engine write_state set_pending_raft_meta
         set_write_state next_lease_id set_next_lease_id]. rewrite He. by apply Hc.
  - intros j Hj. cbn [engine granted set_lease_applied set_engine]. rewrite He.
    unfold grant_batch. fold next. rewrite Hg. apply lease_of_put; try done.
    + apply pending_not_lease.
    + intros op. unfold grant_counter. destruct (_ || _); [|by intros ?%elem_of_nil].
      by intros ->%list_elem_of_singleton.
Qed.

(**  A lease granted is the one asked for.  A TTL that is not positive is
    refused and nothing moves.  Otherwise the lease gets the id asked for, or
    for id 0 one above every id granted so far, which no lease has; the
    lease table changes at that id only; no key, revision or event moves; and
    the counter stays above every id.  When the engine fails, only the
    counter in RAM has moved. *)
Theorem lease_grant_exact (st : Inner E) now id ttl now_unix :
  store_inv st → is_i64 id → next_lease_id (write_state st) < i64_max →
  leases_below (contents (engine st)) (next_lease_id (write_state st)) →
  let next := next_lease_id (write_state st) in
  let fid := if id =? 0 then next + 1 else id in
  let '(r, st') := apply_lease_grant now id ttl now_unix st in
  if ttl <=? 0
  then r = Err (Refused (InvalidArgument "lease TTL must be positive")) ∧ st' = st
  else next_lease_id (write_state st') = Z.max next fid ∧
    (id = 0 → lease_of (contents (engine st)) fid = None) ∧
    match r with
    | Ok out => out = mkGrantResult fid ttl (current_rev (write_state st)) ∧
        store_inv st' ∧ side_step st st' ∧
        leases_below (contents (engine st')) (next_lease_id (write_state st')) ∧
        ∀ j, is_i64 j →
          lease_of (contents (engine st')) j
          = if decide (j = fid) then Some (mkLease fid ttl (saturating_add now_unix ttl))
            else lease_of (contents (engine st)) j
    | Err x => ∃ y b e, x = Storage y ∧
        commit b (apply_write_options st) (engine st) = (Err y, e) ∧
        st' = granted st e (Z.max next fid) (lease_applied st)
    end.
Proof.
  intros Hst Hid Hmax Hbelow next fid.
  pose proof (grant_ok st now id ttl now_unix Hst Hid Hmax) as Hok. cbv zeta in Hok.
  fold next in Hok. fold fid in Hok.
  destruct (apply_lease_grant now id ttl now_unix st) as [r st'].
  destruct (ttl <=? 0); [done|]. destruct Hok as [Hn Hok]. split; [done|]. split.
  { intros ->. cbn in fid. destruct (si_revs _ Hst) as (_ & _ & Hni).
    destruct (lease_of (contents (engine st)) fid) as [rec|] eqn:Hl; [|done].
    assert (fid ≤ next); [|lia]. apply Hbelow; [fold next in Hni; ints|by rewrite Hl]. }
  destruct r as [out|x]; [|done]. destruct Hok as (-> & Hst' & Hs & Hl). split_and!; try done.
  intros j Hj. rewrite Hl, Hn by done. case_decide; [lia|]. intros Hlj.
  specialize (Hbelow j Hj Hlj). fold next in Hbelow. lia.
Qed.

(** ** Renewing and asking *)

Definition renewed (st : Inner E) (e : E) (la : gmap Z Z) : Inner E :=
  set_lease_applied la (set_engine e (set_pending_raft_meta [] st)).

Definition lease_batch (st : Inner E) (op : BatchOp) : WriteBatch :=
  op :: put_rows TABLE_META (pending_raft_meta st).

Lemma lease_batch_quiet (st : Inner E) op :
  store_inv st → op_table op = TABLE_LEASE → Forall quiet_op (lease_batch st op).
Proof.
  intros Hst Ht. apply Forall_cons. split; [|by apply pending_quiet].
  split; [|by intros v ->]. unfold side_op. rewrite Ht. by split_and!.
Qed.

Lemma renewed_ok (st : Inner E) e la op :
  store_inv st → op_table op = TABLE_LEASE →
  contents e = apply_batch (lease_batch st op) (contents (engine st)) →
  store_inv (renewed st e la) ∧ side_step st (renewed st e la).
Proof.
  intros Hst Ht He. pose proof (lease_batch_quiet st op Hst Ht) as Hq.
  assert (side_step st (renewed st e la)) as Hs.
  { split; try done. cbn [engine renewed set_lease_applied set_engine]. rewrite He.
    by apply side_data, quiet_side. }
  split; [|done]. destruct (si_revs _ Hst) as (_ & _ & Hi).
  eapply (side_inv st _ (lease_batch st op)); [done..|by apply quiet_side| |done].
  cbn [engine renewed set_lease_applied set_engine]. rewrite He, quiet_next by done.
  apply (si_lease _ Hst).
Qed.

Lemma read_lease_ok ts id rec : lease_of ts id = Some rec → read_lease ts id = Ok (Some rec).
Proof.
  unfold lease_of, read_lease, snap_get. destruct (ts !! _); [|done]. cbn.
  intros Hd. by rewrite Hd.
Qed.

Definition renew (rec : LeaseRecord) (now_unix : Z) : LeaseRecord :=
  mkLease (lease_id rec) (ttl_secs rec) (saturating_add now_unix (ttl_secs rec)).

Lemma keepalive_run (st : Inner E) now id now_unix rec v :
  lease_of (contents (engine st)) id = Some rec → serialize (renew rec now_unix) = Some v →
  apply_lease_keepalive now id now_unix st =
  match commit (lease_batch st (OpPut TABLE_LEASE (lease_id_key id) v))
          (apply_write_options st) (engine st) with
  | (Ok _, e) => (Ok (mkTtlResult id (ttl_secs rec) (ttl_secs rec) []),
                  renewed st e (<[id := now]> (lease_applied st)))
  | (Err x, e) => (Err (Storage x), renewed st e (lease_applied st))
  end.
Proof.
  intros Hl Hv. unfold apply_lease_keepalive.
  rewrite (pbind_run snapshot _ st (contents (engine st)) st) by done.
  rewrite (read_lease_ok _ _ rec) by done. unfold plift at 1. unfold pbind at 1.
  fold (renew rec now_unix). rewrite Hv. cbn [ok_or]. unfold plift at 1. unfold pbind at 1.
  destruct (fold_raft_meta_run st (batch_put TABLE_LEASE (lease_id_key id) v WriteBatch_new))
    as (any & Hf & _).
  rewrite (pbind_run _ _ _ _ _ Hf). unfold batch_put, WriteBatch_new. cbn [app].
  fold (lease_batch st (OpPut TABLE_LEASE (lease_id_key id) v)).
  rewrite (pbind_run pget _ _ (set_pending_raft_meta [] st) (set_pending_raft_meta [] st)) by done.
  unfold engine_commit. unfold pbind at 1. cbn [engine set_pending_raft_meta].
  change (apply_write_options (set_pending_raft_meta [] st)) with (apply_write_options st).
  by destruct (commit _ (apply_write_options st) (engine st)) as [[[]|x] e].
Qed.

Lemma keepalive_ok (st : Inner E) now id now_unix :
  store_inv st → is_i64 id →
  let '(r, st') := apply_lease_keepalive now id now_unix st in
  match read_lease (contents (engine st)) id with
  | Err x => r = Err x ∧ st' = st
  | Ok None => r = Err (Refused LeaseNotFound) ∧ st' = st
  | Ok (Some rec) =>
      match r with
      | Ok out => out = mkTtlResult id (ttl_secs rec) (ttl_secs rec) [] ∧
          store_inv st' ∧ side_step st st' ∧ lease_applied st' = <[id := now]> (lease_applied st) ∧
          ∀ j, is_i64 j →
            lease_of (contents (engine st')) j
            = if decide (j = id) then Some (renew rec now_unix)
              else lease_of (contents (engine st)) j
      | Err x => ∃ y b e, x = Storage y ∧
          commit b (apply_write_options st) (engine st) = (Err y, e) ∧
          st' = renewed st e (lease_applied st)
      end
  end.
Proof.
  intros Hst Hid. destruct (read_lease (contents (engine st)) id) as [[rec|]|x] eqn:Hread.
  - assert (lease_of (contents (engine st)) id = Some rec) as Hl.
    { unfold lease_of. unfold read_lease, snap_get in Hread. destruct (_ !! _); [|done]. cbn in *.
      by destruct (deserialize _); simplify_eq/=. }
    destruct (serialize_ok (renew rec now_unix)) as [v Hv]. rewrite (keepalive_run _ _ _ _ _ v Hl Hv).
    destruct (commit _ _ (engine st)) as [[[]|y] e] eqn:Hcommit.
    2:{ by exists y, (lease_batch st (OpPut TABLE_LEASE (lease_id_key id) v)), e. }
    apply commit_ok in Hcommit as He.
    destruct (renewed_ok st e (<[id := now]> (lease_applied st))
      (OpPut TABLE_LEASE (lease_id_key id) v) Hst eq_refl He) as [Hst' Hs].
    split_and!; try done. intros j Hj. cbn [engine renewed set_lease_applied set_engine]. rewrite He.
    apply (lease_of_put [] _ _ id (renew rec now_unix) v); try done.
    + apply pending_not_lease.
    + by intros op ?%elem_of_nil.
  - unfold apply_lease_keepalive.
    rewrite (pbind_run snapshot _ st (contents (engine st)) st) by done. by rewrite Hread.
  - unfold apply_lease_keepalive.
    rewrite (pbind_run snapshot _ st (contents (engine st)) st) by done. by rewrite Hread.
Qed.

Lemma ttl_run (st : Inner E) A id include_keys now_unix rec :
  store_inv st → abs_rel A (idx_gens (index st)) (contents (engine st)) → lease_scannable id →
  lease_of (contents (engine st)) id = Some rec →
  lease_ttl id include_keys now_unix st
  = (Ok (Some (mkTtlResult id (ttl_secs rec) (saturating_sub (deadline_unix_secs rec) now_unix)
                 (if include_keys then (lease_view A id).*1 else []))), st).
Proof.
  intros Hst HA Hid Hl. unfold lease_ttl.
  rewrite (pbind_run snapshot _ st (contents (engine st)) st) by done.
  rewrite (read_lease_ok _ _ rec) by done. unfold plift at 1. unfold pbind at 1.
  destruct include_keys; [|done].
  by rewrite (attached_ok A _ _ _ id (si_core _ Hst) HA Hid).
Qed.

(**  A renewed lease lasts its whole TTL again: [apply_lease_keepalive]
    answers the TTL and moves that lease's deadline only, and a [lease_ttl]
    asked afterwards, whenever it is, answers what is left of it and exactly
    the live keys attached, in key order.  A lease that is not there is
    refused. *)
Theorem keepalive_then_ttl (st : Inner E) A now id now_unix include_keys later :
  store_inv st → abs_rel A (idx_gens (index st)) (contents (engine st)) → lease_scannable id →
  let '(r, st') := apply_lease_keepalive now id now_unix st in
  match read_lease (contents (engine st)) id with
  | Err x => r = Err x ∧ st' = st
  | Ok None => r = Err (Refused LeaseNotFound) ∧ st' = st
  | Ok (Some rec) =>
      match r with
      | Ok out => out = mkTtlResult id (ttl_secs rec) (ttl_secs rec) [] ∧
          store_inv st' ∧ side_step st st' ∧
          (∀ j, is_i64 j → j ≠ id →
             lease_of (contents (engine st')) j = lease_of (contents (engine st)) j) ∧
          lease_ttl id include_keys later st'
          = (Ok (Some (mkTtlResult id (ttl_secs rec)
                   (saturating_sub (saturating_add now_unix (ttl_secs rec)) later)
                   (if include_keys then (lease_view A id).*1 else []))), st')
      | Err x => ∃ y b e, x = Storage y ∧
          commit b (apply_write_options st) (engine st) = (Err y, e) ∧
          st' = renewed st e (lease_applied st)
      end
  end.
Proof.
  intros Hst HA Hid. pose proof (keepalive_ok st now id now_unix Hst (proj1 Hid)) as Hok.
  destruct (apply_lease_keepalive now id now_unix st) as [r st'].
  destruct (read_lease (contents (engine st)) id) as [[rec|]|x]; [|done..].
  destruct r as [out|x]; [|done]. destruct Hok as (-> & Hst' & Hs & _ & Hl).
  split_and!; try done.
  - intros j Hj Hne. by rewrite Hl, decide_False.
  - pose proof (Hl id (proj1 Hid)) as Hli. rewrite decide_True in Hli by done.
    by rewrite (ttl_run st' A id include_keys later _ Hst' (side_abs _ _ _ Hs HA) Hid Hli).
Qed.

(** ** The batch of an apply names no lease *)

Definition lease_free (c : ApplyContext) : Prop :=
  ∀ op, op ∈ batch c → op_table op ≠ TABLE_LEASE.

Definition keeps_free {A} (m : prog (Inner E * ApplyContext) MvccError A) : Prop :=
  ∀ s, lease_free s.2 → lease_free (m s).2.2.

Lemma keeps_bind {A B} (m : prog (Inner E * ApplyContext) MvccError A)
    (k : A → prog (Inner E * ApplyContext) MvccError B) :
  keeps_free m → (∀ a, keeps_free (k a)) → keeps_free (pbind m k).
Proof.
  intros Hm Hk s Hs. unfold pbind. pose proof (Hm s Hs) as Hm'. destruct (m s) as [[a|e] s'].
  - by apply Hk.
  - done.
Qed.

Lemma keeps_ret {A} (a : A) : keeps_free (pret a).
Proof. by intros s Hs. Qed.
Lemma keeps_fail {A} e : keeps_free (@pfail (Inner E * ApplyContext) MvccError A e).
Proof. by intros s Hs. Qed.
Lemma keeps_lift {A} (r : MvccResult A) : keeps_free (plift r).
Proof. by intros s Hs. Qed.
Lemma keeps_xlift {A} (m : prog (Inner E) MvccError A) : keeps_free (xlift m).
Proof. intros [st c] Hs. unfold xlift. by destruct (m st). Qed.
Lemma keeps_ctx : keeps_free xctx.
Proof. by intros [st c] Hs. Qed.
Lemma keeps_modify f : (∀ c, batch (f c) = batch c) → keeps_free (xmodify f).
Proof. intros Hf [st c] Hs. unfold lease_free in *. cbn in *. by rewrite Hf. Qed.
Lemma keeps_add f op :
  (∀ c, batch (f c) = batch c ++ [op]) → op_table op ≠ TABLE_LEASE → keeps_free (xmodify f).
Proof.
  intros Hf Ht [st c] Hs. unfold lease_free in *. cbn in *. rewrite Hf.
  intros o [Ho| ->]%elem_of_snoc_iff; [by apply Hs|done].
Qed.
Lemma restore_index_batch idx from_ctx c : batch (restore_index idx from_ctx c) = batch c.
Proof. by destruct from_ctx. Qed.
Lemma keeps_restore {A} idx from_ctx (m : prog (Inner E * ApplyContext) MvccError A) :
  keeps_free m → keeps_free (or_restore idx from_ctx m).
Proof.
  intros Hm s Hs. unfold or_restore. pose proof (Hm s Hs) as Hm'.
  destruct (m s) as [[a|e] [st c]]; [done|]. cbn in *. unfold lease_free.
  by rewrite restore_index_batch.
Qed.
Lemma keeps_take key : keeps_free (take_index (E := E) key).
Proof. intros [st c] Hs. unfold take_index. by destruct (idx_cache c !! key). Qed.

(** Steps through a program by its shape. *)
Ltac keeps_tac :=
  repeat first
    [ apply keeps_ret | apply keeps_fail | apply keeps_lift | apply keeps_xlift | apply keeps_ctx
    | apply keeps_take | apply keeps_restore
    | apply keeps_modify; intros; first [reflexivity|apply restore_index_batch]
    | eapply keeps_add; [intros; reflexivity|done]
    | apply keeps_bind; [|intros] | case_match ].

Lemma keeps_put snap rev key value lease iv il pk :
  keeps_free (put_record (E := E) snap rev key value lease iv il pk).
Proof. unfold put_record. keeps_tac. Qed.

Lemma keeps_delete snap rev ks pk result :
  keeps_free (delete_keys (E := E) snap rev ks pk result).
Proof.
  revert result. induction ks as [|k ks IH]; intros result; cbn [delete_keys]; [apply keeps_ret|].
  apply keeps_bind; [|done]. unfold delete_key. keeps_tac.
Qed.

Lemma keeps_apply_loop snap main ms sub rs p :
  keeps_free (apply_loop (E := E) snap main sub ms rs p).
Proof.
  revert sub rs p. induction ms as [|m ms IH]; intros sub rs p; cbn [apply_loop]; [apply keeps_ret|].
  apply keeps_bind; [|intros []; apply IH]. unfold apply_one.
  apply keeps_bind; [|intros; keeps_tac]. unfold apply_one_uncounted. destruct m.
  - apply keeps_put.
  - apply keeps_bind; [by intros [st c]|]. intros ks.
    apply keeps_bind; [apply keeps_delete|]. intros. apply keeps_ret.
Qed.

(** ** Revoking *)

Lemma ctx_inv_batch i snap c base bound b :
  ctx_inv i snap c base bound → data_eq (apply_batch (batch c) snap) (apply_batch b snap) →
  (∀ op, op ∈ b →
     op_table op = TABLE_KV ∨ op_table op = TABLE_LEASE_KEYS ∨ op_table op = TABLE_LEASE) →
  ctx_inv i snap (set_batch b c) base bound.
Proof.
  intros Hc Hd Hb. destruct Hc as [Hcore Hkey Hlat Hold Hhist _]. split; try done.
  - by eapply data_eq_core.
  - intros k. specialize (Hlat k). cbn [latest_record_cache set_batch idx_cache batch].
    destruct (latest_record_cache c !! k); [|done]. destruct Hlat as [Hi Hl]. split; [done|].
    by rewrite (data_eq_live _ _ _ k Hd).
  - intros k r d Hr. cbn [batch set_batch]. rewrite (data_eq_kv _ _ k r Hd). by eapply Hold.
Qed.

(** The ops a revoke adds: the lease's row, and the rows of its keys. *)
Definition revoke_ops (ts : Tables) (id : Z) : WriteBatch :=
  OpDelete TABLE_LEASE (lease_id_key id) :: delete_rows TABLE_LEASE_KEYS (lease_rows ts id).

Lemma revoke_ops_data ts ts' id :
  (∀ r, r ∈ lease_rows ts id → ts' !! (TABLE_LEASE_KEYS, r.1) = None) →
  data_eq ts' (apply_batch (revoke_ops ts id) ts').
Proof.
  intros Hgone t k Ht. unfold revoke_ops.
  change (apply_batch (?op :: ?b) ?t) with (apply_batch b (apply_op op t)).
  destruct (decide (t = TABLE_LEASE_KEYS)) as [->|Hne].
  - rewrite delete_rows_lookup, apply_op_lookup. rewrite (decide_False (P := _ ∧ _)) by naive_solver.
    destruct (decide (k ∈ _)) as [Hin|]; [|done].
    apply list_elem_of_fmap in Hin as (r & -> & Hr). by rewrite Hgone.
  - rewrite apply_batch_other by (intros op ->%delete_rows_table; done).
    rewrite apply_op_lookup, decide_False; [done|]. naive_solver.
Qed.

Lemma revoke_ops_lease ts ts' id j :
  is_i64 id → is_i64 j →
  lease_of (apply_batch (revoke_ops ts id) ts') j
  = if decide (j = id) then None else lease_of ts' j.
Proof.
  intros Hid Hj. unfold revoke_ops, lease_of.
  change (apply_batch (?op :: ?b) ?t) with (apply_batch b (apply_op op t)).
  rewrite apply_batch_other by (by intros op ->%delete_rows_table). rewrite apply_op_lookup.
  destruct (decide (j = id)) as [->|Hne]; [by rewrite decide_True|].
  rewrite decide_False; [done|]. intros [_ Heq]. by apply i64_to_be_bytes_inj in Heq.
Qed.

(** Once its keys are deleted none of the lease's key rows is left. *)
Lemma deleted_rows_gone G ts bound G' ts' bound' A' id :
  core_inv G ts bound → core_inv G' ts' bound' → abs_rel A' G' ts' → lease_scannable id →
  (∀ k rec, live_rec G ts k = Some rec → rec_lease rec = id → id ≠ 0 → a_live A' k = None) →
  ∀ r, r ∈ lease_rows ts id → ts' !! (TABLE_LEASE_KEYS, r.1) = None.
Proof.
  intros Hc Hc' HA' Hid Hdel [rk v] Hr.
  destruct (lease_rows_elem _ _ _ _ _ _ Hc Hid Hr) as (_ & k & rec & -> & Hl & Hle & Hne). cbn [fst].
  destruct (ts' !! _) as [w|] eqn:Hw; [|done]. exfalso.
  destruct (proj1 (ci_lease _ _ _ Hc' (lease_key_index id k)) ltac:(by rewrite Hw))
    as (k' & rec' & Hl' & _ & Heq).
  apply lease_key_index_inj in Heq as [_ <-];
    [|apply Hid|by eapply live_lease_i64].
  specialize (Hdel k rec Hl Hle Hne). rewrite (abs_live A' _ _ _ k Hc' HA') in Hdel. congruence.
Qed.

Lemma revoke_deletes A id k rec :
  a_live A k = Some rec → rec_lease rec = id → id ≠ 0 →
  a_live (ef_abs (spec_revoke 0 id A)) k = None.
Proof.
  intros Hl Hle Hne. cbn [ef_abs spec_revoke]. unfold a_live.
  assert (k ∈ (lease_view A id).*1) as Hin.
  { apply list_elem_of_fmap. exists (k, rec). split; [done|]. by apply lease_view_elem. }
  revert Hin. clear. generalize A at 2. induction (lease_view A id) as [|p l IH] using rev_ind;
    intros B; [by intros ?%elem_of_nil|].
  rewrite fmap_app, foldl_app. cbn [foldl fmap list_fmap]. intros Hin.
  destruct (decide (p.1 = k)) as [<-|Hne]; [by rewrite lookup_insert_eq|].
  rewrite lookup_insert_ne by done. apply IH.
  apply elem_of_app in Hin as [?|Hin%list_elem_of_singleton]; [done|congruence].
Qed.

Definition lease_gone (st st' : Inner E) (id : Z) : Prop :=
  lease_applied st' = delete id (lease_applied st) ∧
  ∀ j, is_i64 j →
    lease_of (contents (engine st')) j
    = if decide (j = id) then None else lease_of (contents (engine st)) j.

Lemma store_inv_applied (st : Inner E) la : store_inv st → store_inv (set_lease_applied la st).
Proof. by intros []. Qed.

Lemma advanced_applied (st st' : Inner E) new_rev A la :
  advanced st st' new_rev A → advanced st (set_lease_applied la st') new_rev A.
Proof. intros []. split; try done. by apply store_inv_applied. Qed.

Lemma revoke_prefix {B} (st : Inner E) A id
    (k : list bytes → prog (Inner E) MvccError B) :
  store_inv st → abs_rel A (idx_gens (index st)) (contents (engine st)) → lease_scannable id →
  pbind (plift (row_keys (lease_rows (contents (engine st)) id))) k st
  = k (lease_view A id).*1 st.
Proof. intros Hst HA Hid. by rewrite (attached_ok A _ _ _ id (si_core _ Hst) HA Hid). Qed.

(** No key is attached. *)
Lemma revoke_idle (st : Inner E) A id :
  store_inv st → abs_rel A (idx_gens (index st)) (contents (engine st)) → lease_scannable id →
  lease_view A id = [] →
  apply_lease_revoke id st =
  match commit (lease_batch st (OpDelete TABLE_LEASE (lease_id_key id)))
          (apply_write_options st) (engine st) with
  | (Ok _, e) => (Ok (mkRevokeResult (current_rev (write_state st)) 0),
                  renewed st e (delete id (lease_applied st)))
  | (Err x, e) => (Err (Storage x), renewed st e (lease_applied st))
  end.
Proof.
  intros Hst HA Hid Hnil. unfold apply_lease_revoke.
  rewrite (pbind_run snapshot _ st (contents (engine st)) st) by done.
  rewrite (revoke_prefix st A id) by done. rewrite Hnil. cbn [fmap list_fmap].
  rewrite (pbind_run pget _ st st st) by done.
  rewrite (pbind_run (with_ctx _) _ st
    ((current_rev (write_state st), 0, false), ApplyContext_default) st) by done.
  assert (lease_rows (contents (engine st)) id = []) as ->.
  { pose proof (attached_ok A _ _ _ id (si_core _ Hst) HA Hid) as Hk. rewrite Hnil in Hk.
    destruct (lease_rows _ id) as [|r rows]; [done|]. unfold row_keys in Hk. cbn in Hk.
    destruct (parse_lease_keys_key r.1); [|done]. cbn in Hk. by destruct (res_map _ rows). }
  unfold batch_delete. cbn [batch ApplyContext_default delete_rows fmap list_fmap app].
  destruct (fold_raft_meta_run st [OpDelete TABLE_LEASE (lease_id_key id)]) as (any & Hf & _).
  unfold pbind at 1. unfold WriteBatch_new. cbn [app]. rewrite (pbind_run _ _ _ _ _ Hf). cbn [app].
  fold (lease_batch st (OpDelete TABLE_LEASE (lease_id_key id))).
  rewrite (pbind_run pget _ _ (set_pending_raft_meta [] st) (set_pending_raft_meta [] st)) by done.
  unfold engine_commit. cbn [engine set_pending_raft_meta].
  change (apply_write_options (set_pending_raft_meta [] st)) with (apply_write_options st).
  by destruct (commit _ (apply_write_options st) (engine st)) as [[[]|x] e].
Qed.

(** Keys are attached: their deletes run, and the commit has the rest. *)
Lemma revoke_busy (st : Inner E) A id v o c :
  store_inv st → abs_rel A (idx_gens (index st)) (contents (engine st)) → lease_scannable id →
  lease_view A id ≠ [] →
  let new_rev := current_rev (write_state st) + 1 in
  let victims := lease_view A id in
  i64_wrap new_rev = new_rev →
  apply_loop (contents (engine st)) new_rev 0 (delete_key_of <$> victims) [] false
    (st, ApplyContext_default)
  = (Ok ((λ _, mkMutationResult 1 []) <$> victims, true), (st_with st v o, c)) →
  apply_lease_revoke id st =
  match commit_ctx new_rev (set_batch (batch c ++ revoke_ops (contents (engine st)) id) c)
          (st_with st v o) with
  | (Ok _, st') => (Ok (mkRevokeResult new_rev (Z.of_nat (length victims))),
                    set_lease_applied (delete id (lease_applied st')) st')
  | (Err x, st') => (Err x, st')
  end.
Proof.
  intros Hst HA Hid Hne new_rev victims Hwrap Hrun. unfold apply_lease_revoke.
  rewrite (pbind_run snapshot _ st (contents (engine st)) st) by done.
  rewrite (revoke_prefix st A id) by done. rewrite <- list_fmap_compose.
  change ((λ k, DeleteRange k [] false) ∘ fst) with delete_key_of. fold victims.
  rewrite (pbind_run pget _ st st st) by done.
  assert (with_ctx
    (match delete_key_of <$> victims with
     | [] => pret (current_rev (write_state st), 0, false)
     | _ :: _ =>
         let* (rev, results, produced) :=
           apply_inner (contents (engine st)) (write_state st) (delete_key_of <$> victims) in
         pret (rev, foldl (λ n r, n + mr_n r) 0 results, produced)
     end) st = (Ok ((new_rev, Z.of_nat (length victims), true), c), st_with st v o)) as Hctx.
  { apply with_ctx_ok. destruct (delete_key_of <$> victims) as [|m ms] eqn:Hms.
    { by apply fmap_nil_inv in Hms. }
    unfold apply_inner. fold new_rev. rewrite Hwrap.
    unfold pbind at 1. rewrite (pbind_run _ _ _ _ _ Hrun).
    unfold pret at 1. by rewrite deletes_count. }
  rewrite (pbind_run _ _ _ _ _ Hctx). unfold batch_delete. rewrite <- app_assoc. cbn [app].
  change (OpDelete TABLE_LEASE _ :: _) with (revoke_ops (contents (engine st)) id).
  unfold pbind at 1. by destruct (commit_ctx new_rev _ (st_with st v o)) as [[[]|x] st'].
Qed.

(** The deletes of a lease's keys in a context. *)
Lemma revoke_loop (st : Inner E) A id :
  store_inv st → abs_rel A (idx_gens (index st)) (contents (engine st)) →
  lease_view A id ≠ [] → current_rev (write_state st) < i64_max →
  Z.of_nat (length (lease_view A id)) ≤ i64_max →
  let ts := contents (engine st) in
  let cur := current_rev (write_state st) in
  let eff := spec_revoke (cur + 1) id A in
  ∃ v o c,
    apply_loop ts (cur + 1) 0 (delete_key_of <$> lease_view A id) [] false
      (st, ApplyContext_default)
    = (Ok ((λ _, mkMutationResult 1 []) <$> lease_view A id, true), (st_with st v o, c)) ∧
    cache_coh v (idx_gens (index st)) ts cur ∧
    ctx_inv (index st) ts c cur (mkRev (cur + 1) (Z.of_nat (length (lease_view A id)))) ∧
    abs_rel (ef_abs eff) (ctx_gens (index st) c) (apply_batch (batch c) ts) ∧
    pending_events c = ef_events eff ∧ event_marks c = [] ∧ lease_free c.
Proof.
  intros Hst HA Hne Hmax Hlen ts cur eff. destruct (si_revs _ Hst) as (Hr1 & Hr2 & _).
  assert (Forall mutation_wf (delete_key_of <$> lease_view A id)) as Hwf
    by (apply Forall_fmap, Forall_true; done).
  pose proof (apply_loop_ok st ts cur cur (cur + 1) _ ltac:(unfold cur in *; lia) ltac:(lia) Hwf
    (values st) (ops st) ApplyContext_default (mkRev (cur + 1) 0) 0 [] false A
    ltac:(lia) ltac:(rewrite length_fmap; lia) (ctx_inv_default _ _ _ _ (si_core _ Hst))
    (si_cache _ Hst) (reflexivity _) HA) as Hloop.
  rewrite spec_deletes in Hloop.
  2:{ apply key_sorted_NoDup, lease_view_sorted. }
  2:{ intros [k rec] Hin. by apply lease_view_elem in Hin as [? _]. }
  rewrite st_with_id in Hloop. destruct Hloop as (v & o & c & Hrun & Hv & Hc & HA' & Hev & Hmk & _).
  exists v, o, c. rewrite length_fmap in Hc. split_and!; try done.
  - rewrite Hrun. cbn [app]. do 3 f_equal. destruct (lease_view A id); [done|]. done.
  - pose proof (keeps_apply_loop ts (cur + 1) (delete_key_of <$> lease_view A id) 0 [] false
      (st, ApplyContext_default)) as Hk. rewrite Hrun in Hk. apply Hk. by intros op ?%elem_of_nil.
Qed.

Lemma revoked_ctx (st : Inner E) A id c :
  store_inv st → abs_rel A (idx_gens (index st)) (contents (engine st)) → lease_scannable id →
  let ts := contents (engine st) in
  let cur := current_rev (write_state st) in
  let A' := ef_abs (spec_revoke (cur + 1) id A) in
  let bound := mkRev (cur + 1) (Z.of_nat (length (lease_view A id))) in
  ctx_inv (index st) ts c cur bound →
  abs_rel A' (ctx_gens (index st) c) (apply_batch (batch c) ts) →
  let c' := set_batch (batch c ++ revoke_ops ts id) c in
  ctx_inv (index st) ts c' cur bound ∧
  abs_rel A' (ctx_gens (index st) c') (apply_batch (batch c') ts).
Proof.
  intros Hst HA Hid ts cur A' bound Hc HA' c'.
  assert (data_eq (apply_batch (batch c) ts) (apply_batch (batch c ++ revoke_ops ts id) ts)) as Hd.
  { rewrite apply_batch_app. apply revoke_ops_data.
    eapply deleted_rows_gone; [apply (si_core _ Hst)|apply (cx_core _ _ _ _ _ Hc)|exact HA'|done|].
    intros k rec Hl Hle Hne. eapply revoke_deletes; [|exact Hle|done].
    by rewrite (abs_live A _ _ _ k (si_core _ Hst) HA). }
  split.
  - apply ctx_inv_batch; [done..|].
    intros op [Hop|[->|Hop%delete_rows_table]%elem_of_cons]%elem_of_app; [|auto..].
    by apply (cx_tables _ _ _ _ _ Hc).
  - intros k. rewrite HA'. by rewrite (data_eq_live _ _ _ k Hd).
Qed.

Lemma commit_lease (st : Inner E) v o new_rev c id j :
  lease_free c → is_i64 id → is_i64 j →
  let ts := contents (engine st) in
  lease_of (apply_batch (commit_batch (st_with st v o) new_rev
              (set_batch (batch c ++ revoke_ops ts id) c)) ts) j
  = if decide (j = id) then None else lease_of ts j.
Proof.
  intros Hfree Hid Hj ts. unfold commit_batch. cbn [batch set_batch].
  assert (∀ b ts', (∀ op, op ∈ b → op_table op ≠ TABLE_LEASE) →
            lease_of (apply_batch b ts') j = lease_of ts' j) as Hother
    by (intros b ts' Hb; unfold lease_of; by rewrite apply_batch_other).
  rewrite apply_batch_app, Hother.
  2:{ intros op [Hop%index_ops_table|[->|Hop%put_rows_table]%elem_of_cons]%elem_of_app;
      by rewrite ?Hop. }
  by rewrite apply_batch_app, revoke_ops_lease, Hother.
Qed.

Lemma revoke_busy_ok (st : Inner E) A id :
  store_inv st → abs_rel A (idx_gens (index st)) (contents (engine st)) → lease_scannable id →
  lease_view A id ≠ [] → current_rev (write_state st) < i64_max →
  Z.of_nat (length (lease_view A id)) ≤ i64_max →
  let new_rev := current_rev (write_state st) + 1 in
  let eff := spec_revoke new_rev id A in
  let '(r, st') := apply_lease_revoke id st in
  match r with
  | Ok out => out = mkRevokeResult new_rev (mr_n (ef_result eff)) ∧
      advanced st st' new_rev (ef_abs eff) ∧
      sent st' = sent st ++ [mkEventBatch new_rev (ef_events eff)] ∧ lease_gone st st' id
  | Err x => ∃ y, x = Storage y ∧ failed_write st st' y A (ef_abs eff) new_rev
  end.
Proof.
  intros Hst HA Hid Hne Hmax Hlen new_rev eff. destruct (si_revs _ Hst) as (Hr1 & Hr2 & _).
  destruct (revoke_loop st A id Hst HA Hne Hmax Hlen) as (v & o & c & Hrun & Hv & Hc & HA' & Hev & Hmk & Hfree).
  fold new_rev in Hrun, Hc, HA', Hev. fold eff in HA', Hev.
  pose proof (revoke_busy st A id v o c Hst HA Hid Hne ltac:(apply i64_wrap_id; ints) Hrun) as ->.
  fold new_rev.
  destruct (revoked_ctx st A id c Hst HA Hid Hc HA') as [Hc' HA''].
  set (c' := set_batch _ c) in *. fold new_rev in Hc', HA''.
  assert (rev_le (mkRev new_rev (Z.of_nat (length (lease_view A id)))) (mkRev (new_rev + 1) 0))
    as Hb by (unfold rev_le; cbn; lia).
  pose proof (commit_write st v o new_rev c' _ A _ Hst HA Hc' Hv Hb ltac:(lia) HA'') as Hcw.
  pose proof (commit_ctx_ok (st_with st v o) new_rev c' _ _ (store_inv_with st v o Hst Hv) Hc' Hb
    ltac:(cbn; lia) HA'') as Hco.
  destruct (commit_ctx new_rev c' (st_with st v o)) as [[[]|x] st']; [|done].
  destruct Hcw as (e & -> & Hadv). destruct Hco as (e' & Heq & _ & He').
  assert (e' = e) as -> by by injection Heq.
  split_and!; [done|by apply advanced_applied| |].
  - cbn [sent set_lease_applied committed st_with set_ops set_values]. unfold event_batches.
    cbn [event_marks pending_events c' set_batch]. rewrite Hmk, Hev. cbn.
    by destruct (lease_view A id).
  - split; [done|]. intros j Hj. cbn [engine set_lease_applied committed]. rewrite He'.
    exact (commit_lease st v o new_rev c id j Hfree (proj1 Hid) Hj).
Qed.

(** C26.  Revoking a lease deletes exactly the keys attached to it, at one
    revision and with one event batch, in key order, and the lease itself,
    in the same commit; no other lease changes.  With no key attached it
    takes no revision, sends nothing and changes no key.  When the engine
    fails, RAM is unchanged but for the cache, the counters and the staged
    metadata, and on disk is the state before or the state after. *)
Theorem lease_revoke_refines (st : Inner E) A id :
  store_inv st → abs_rel A (idx_gens (index st)) (contents (engine st)) → lease_scannable id →
  current_rev (write_state st) < i64_max → Z.of_nat (length (lease_view A id)) ≤ i64_max →
  let cur := current_rev (write_state st) in
  let eff := spec_revoke (cur + 1) id A in
  let '(r, st') := apply_lease_revoke id st in
  if bool_decide (lease_view A id = []) then
    match r with
    | Ok out => out = mkRevokeResult cur 0 ∧ store_inv st' ∧ side_step st st' ∧
        lease_gone st st' id
    | Err x => ∃ y b e, x = Storage y ∧
        commit b (apply_write_options st) (engine st) = (Err y, e) ∧
        st' = renewed st e (lease_applied st)
    end
  else
    match r with
    | Ok out => out = mkRevokeResult (cur + 1) (mr_n (ef_result eff)) ∧
        advanced st st' (cur + 1) (ef_abs eff) ∧
        sent st' = sent st ++ [mkEventBatch (cur + 1) (ef_events eff)] ∧ lease_gone st st' id
    | Err x => ∃ y, x = Storage y ∧ failed_write st st' y A (ef_abs eff) (cur + 1)
    end.
Proof.
  intros Hst HA Hid Hmax Hlen cur eff. case_bool_decide as Hnil.
  2:{ by apply revoke_busy_ok. }
  rewrite (revoke_idle st A id) by done.
  destruct (commit _ _ (engine st)) as [[[]|y] e] eqn:Hcommit.
  2:{ by exists y, (lease_batch st (OpDelete TABLE_LEASE (lease_id_key id))), e. }
  apply commit_ok in Hcommit as He.
  destruct (renewed_ok st e (delete id (lease_applied st))
    (OpDelete TABLE_LEASE (lease_id_key id)) Hst eq_refl He) as [Hst' Hs].
  split_and!; [done..|]. split; [done|]. intros j Hj.
  cbn [engine renewed set_lease_applied set_engine]. rewrite He.
  unfold lease_of, lease_batch.
  change (apply_batch (?op :: ?b) ?t) with (apply_batch b (apply_op op t)).
  rewrite apply_batch_other by (intros op; apply pending_not_lease). rewrite apply_op_lookup.
  destruct (decide (j = id)) as [->|Hne]; [by rewrite decide_True|].
  rewrite decide_False; [done|]. intros [_ Heq]. apply i64_to_be_bytes_inj in Heq;
    [by subst|apply Hid|done].
Qed.
End lease.
(** ** Witnesses *)

Section witnesses.
Import Demo.

(** The demo store with lease 7, then with a key attached to it. *)
Definition demo_lease1 : Inner MemEngine := (apply_lease_grant 5 7 60 100 (demo_store [])).2.
Definition demo_lease_ms : list Mutation :=
  [Put (str "a") (str "1") 7 false false false; Put (str "b") (str "2") 0 false false false].
Definition demo_lease2 : Inner MemEngine := (apply demo_lease_ms demo_lease1).2.
Definition demo_lease_abs : Abs :=
  {[ str "a" := Some (demo_rec (str "a") (str "1") 1 1 1 7, 1);
     str "b" := Some (demo_rec (str "b") (str "2") 1 1 1 0, 1) ]}.

Lemma demo_no_lease faults j : lease_of (contents (engine (demo_store faults))) j = None.
Proof.
  unfold lease_of. cbn [engine demo_store contents]. change (contents (mkMem ?t _)) with t.
  rewrite apply_batch_other; [done|].
  intros op Hop. assert (op_table op = TABLE_META) as ->; [|done]. revert op Hop.
  apply Forall_forall. vm_compute. repeat constructor.
Qed.

Lemma lease_grant_exact_witness :
  (apply_lease_grant 5 7 60 100 (demo_store [])).1 = Ok (mkGrantResult 7 60 0) ∧
  lease_of (contents (engine demo_lease1)) 7 = Some (mkLease 7 60 160).
Proof.
  pose proof (lease_grant_exact (demo_store []) 5 7 60 100 (demo_inv [])
    ltac:(split; discriminate) ltac:(reflexivity)) as Hok.
  specialize (Hok ltac:(intros j _ [rec Hl]; rewrite demo_no_lease in Hl; discriminate)).
  cbv zeta in Hok.
  assert ((apply_lease_grant 5 7 60 100 (demo_store [])).1 = Ok (mkGrantResult 7 60 0)) as Hr
    by (vm_compute; reflexivity).
  unfold demo_lease1. destruct (apply_lease_grant 5 7 60 100 (demo_store [])) as [r st'].
  cbn [fst snd] in *. rewrite Hr in *. split; [reflexivity|].
  destruct Hok as (_ & _ & _ & _ & _ & _ & Hl). rewrite Hl by (split; discriminate).
  vm_compute. reflexivity.
Defined.

Lemma demo_lease_inv1 :
  store_inv demo_lease1 ∧ abs_rel ∅ (idx_gens (index demo_lease1)) (contents (engine demo_lease1)).
Proof.
  pose proof (grant_ok (demo_store []) 5 7 60 100 (demo_inv [])
    ltac:(split; discriminate) ltac:(reflexivity)) as Hok. cbv zeta in Hok.
  assert ((apply_lease_grant 5 7 60 100 (demo_store [])).1 = Ok (mkGrantResult 7 60 0)) as Hr
    by (vm_compute; reflexivity).
  unfold demo_lease1. destruct (apply_lease_grant 5 7 60 100 (demo_store [])) as [r st'].
  cbn [fst snd] in *. rewrite Hr in Hok. destruct Hok as (_ & _ & Hst & Hs & _).
  split; [done|]. eapply side_abs; [done|apply demo_abs].
Qed.

Lemma demo_lease_inv2 :
  store_inv demo_lease2 ∧
  abs_rel demo_lease_abs (idx_gens (index demo_lease2)) (contents (engine demo_lease2)).
Proof.
  assert (current_rev (write_state demo_lease1) = 0) as Hcur by (vm_compute; reflexivity).
  pose proof (apply_ok demo_lease1 ∅ demo_lease_ms (proj1 demo_lease_inv1) (proj2 demo_lease_inv1)
    ltac:(done) ltac:(repeat constructor; discriminate) ltac:(rewrite Hcur; reflexivity)
    ltac:(discriminate)) as Hok.
  cbv zeta in Hok. rewrite Hcur in Hok. change (0 + 1) with 1 in Hok.
  assert (∃ evs, spec_mutations 1 0 demo_lease_ms ∅
            = Ok (demo_lease_abs, [mkMutationResult 1 []; mkMutationResult 1 []], evs))
    as (evs & Hspec) by (eexists; vm_compute; reflexivity).
  rewrite Hspec in Hok.
  assert ((apply demo_lease_ms demo_lease1).1
          = Ok (1, [mkMutationResult 1 []; mkMutationResult 1 []])) as Hr
    by (vm_compute; reflexivity).
  unfold demo_lease2. destruct (apply demo_lease_ms demo_lease1) as [r st'].
  cbn [fst snd] in *. subst r. destruct Hok as (_ & Hadv & _). by destruct Hadv.
Qed.

Lemma keepalive_then_ttl_witness :
  let st' := (apply_lease_keepalive 9 7 130 demo_lease2).2 in
  lease_ttl 7 true 150 st' = (Ok (Some (mkTtlResult 7 60 40 [str "a"])), st').
Proof.
  pose proof (keepalive_then_ttl demo_lease2 demo_lease_abs 9 7 130 true 150
    (proj1 demo_lease_inv2) (proj2 demo_lease_inv2)) as Hok.
  specialize (Hok ltac:(split_and!; [split; discriminate|discriminate|discriminate])).
  assert ((apply_lease_keepalive 9 7 130 demo_lease2).1 = Ok (mkTtlResult 7 60 60 [])) as Hr
    by (vm_compute; reflexivity).
  assert (read_lease (contents (engine demo_lease2)) 7 = Ok (Some (mkLease 7 60 160))) as Hl
    by (vm_compute; reflexivity).
  destruct (apply_lease_keepalive 9 7 130 demo_lease2) as [r st']. cbn [fst snd] in *.
  rewrite Hl, Hr in Hok. destruct Hok as (_ & _ & _ & _ & Hok). cbv zeta. rewrite Hok.
  replace (lease_view demo_lease_abs 7).*1 with [str "a"] by (vm_compute; reflexivity).
  reflexivity.
Defined.

Lemma lease_revoke_refines_witness :
  let st' := (apply_lease_revoke 7 demo_lease2).2 in
  (apply_lease_revoke 7 demo_lease2).1 = Ok (mkRevokeResult 2 1) ∧
  advanced demo_lease2 st' 2 (<[str "a" := None]> demo_lease_abs) ∧ lease_gone demo_lease2 st' 7.
Proof.
  assert (current_rev (write_state demo_lease2) = 1) as Hcur by (vm_compute; reflexivity).
  assert (lease_view demo_lease_abs 7 = [(str "a", demo_rec (str "a") (str "1") 1 1 1 7)]) as Hv
    by (vm_compute; reflexivity).
  pose proof (lease_revoke_refines demo_lease2 demo_lease_abs 7
    (proj1 demo_lease_inv2) (proj2 demo_lease_inv2)) as Hok.
  specialize (Hok ltac:(split_and!; [split; discriminate|discriminate|discriminate])
    ltac:(rewrite Hcur; reflexivity) ltac:(rewrite Hv; discriminate)).
  cbv zeta in Hok. rewrite Hcur in Hok. unfold spec_revoke in Hok. rewrite Hv in Hok.
  assert ((apply_lease_revoke 7 demo_lease2).1 = Ok (mkRevokeResult 2 1)) as Hr
    by (vm_compute; reflexivity).
  destruct (apply_lease_revoke 7 demo_lease2) as [r st']. cbn [fst snd] in *.
  rewrite Hr in *. split; [reflexivity|]. destruct Hok as (_ & Hadv & _ & Hg).
  split; [exact Hadv|exact Hg].
Defined.
End witnesses.
