(* ===== verification/StoreMeta.v ===== *)
(** * Metadata beside the keys

    The raft metadata a write carries, auth entries and the cluster id, as
    methods of the store: the applied index is on disk exactly with the
    write it is the index of, an auth entry implements the abstract auth
    state, the first cluster id wins, and a store opened on another's disk
    answers every read as it did. *)

From S2P Require Import Prelude Revision Record KvStore Lease Cache Auth Store StoreCore.
From S2P Require Import StoreSpec StoreInv StoreApply StoreCommit StoreOpen StoreDemo StoreWrite.
From S2P Require Import StoreRead StoreSide.

(** ** Staged rows *)

Lemma staged_meta_last rows1 k v rows2 ts :
  (∀ r, r ∈ rows2 → r.1 ≠ k) → staged_meta (rows1 ++ (k, v) :: rows2) ts k = Some v.
Proof.
  intros Hr. unfold staged_meta, put_rows. rewrite fmap_app, apply_batch_app.
  change (apply_batch ((λ r : bytes * bytes, OpPut TABLE_META r.1 r.2) <$> (k, v) :: rows2) ?t)
    with (apply_batch (put_rows TABLE_META rows2) (apply_op (OpPut TABLE_META k v) t)).
  rewrite put_rows_skip by done. by rewrite apply_op_lookup, decide_True.
Qed.

Lemma raft_applied_key : raft_key META_KEY_RAFT_APPLIED.
Proof. by split_and!. Qed.
Lemma raft_membership_key : raft_key META_KEY_RAFT_MEMBERSHIP.
Proof. by split_and!. Qed.
Lemma raft_batch_key : raft_key META_KEY_RAFT_BATCH.
Proof. by split_and!. Qed.
Lemma batched_key : raft_key META_KEY_BATCHED.
Proof. by split_and!. Qed.

Section meta.
Context {E : Type} `{KvStoreLaws E} `{BincodeLaws KvRecord, BincodeLaws KeyIndex}.

(** Staging is RAM only, and names no row of the store's own. *)
Definition stage (rows : list (bytes * bytes)) (st : Inner E) : Inner E :=
  set_pending_raft_meta rows st.

Lemma stage_inv (st : Inner E) rows :
  store_inv st → (∀ r, r ∈ rows → raft_key r.1) → store_inv (stage rows st).
Proof. intros [] Hr. by split. Qed.

Definition applied_rows (st : Inner E) (applied : bytes) (membership : option bytes)
    : list (bytes * bytes) :=
  base.filter (λ r : bytes * bytes,
      r.1 ≠ META_KEY_RAFT_APPLIED ∧ (membership = None ∨ r.1 ≠ META_KEY_RAFT_MEMBERSHIP))
      (pending_raft_meta st)
  ++ (META_KEY_RAFT_APPLIED, applied)
     :: match membership with Some m => [(META_KEY_RAFT_MEMBERSHIP, m)] | None => [] end.

Lemma stage_raft_meta_run (st : Inner E) applied membership :
  stage_raft_meta applied membership st
  = (Ok (), stage (applied_rows st applied membership) st).
Proof. done. Qed.

Lemma applied_rows_keys (st : Inner E) applied membership :
  store_inv st → ∀ r, r ∈ applied_rows st applied membership → raft_key r.1.
Proof.
  intros Hst r [[_ Hr]%list_elem_of_filter|[->|Hr]%elem_of_cons]%elem_of_app.
  - by apply (si_pending _ Hst).
  - apply raft_applied_key.
  - destruct membership; [|by apply elem_of_nil in Hr].
    apply list_elem_of_singleton in Hr as ->. apply raft_membership_key.
Qed.

Lemma applied_rows_row (st : Inner E) applied membership ts :
  staged_meta (applied_rows st applied membership) ts META_KEY_RAFT_APPLIED = Some applied.
Proof.
  apply staged_meta_last. intros r Hr. destruct membership; [|by apply elem_of_nil in Hr].
  by apply list_elem_of_singleton in Hr as ->.
Qed.

(** The applied index on disk. *)
Definition applied_on (ts : Tables) : option bytes := snap_get ts TABLE_META META_KEY_RAFT_APPLIED.

Lemma read_raft_meta_applied (st : Inner E) :
  (read_raft_meta st).1 = Ok (applied_on (contents (engine st)),
     snap_get (contents (engine st)) TABLE_META META_KEY_RAFT_MEMBERSHIP).
Proof. done. Qed.

(**  A write and its raft index are on disk together.  After
    [stage_raft_meta applied] and any [apply], the disk holds either the
    keys of before, with the applied index of before, or the keys of the
    whole request, with [applied]: a replay from the index read back runs no
    entry twice and skips none.  A call that changed nothing keeps the index
    staged for the next commit. *)
Theorem applied_index_moves_with_data (st : Inner E) A ms applied membership r st' :
  store_inv st → abs_rel A (idx_gens (index st)) (contents (engine st)) →
  ms ≠ [] → Forall mutation_wf ms →
  current_rev (write_state st) < i64_max → Z.of_nat (length ms) ≤ i64_max →
  apply ms (stage_raft_meta applied membership st).2 = (r, st') →
  let rev := current_rev (write_state st) in
  let ts' := contents (engine st') in
  let before := disk_holds ts' A rev ∧ applied_on ts' = applied_on (contents (engine st)) in
  let kept := pending_raft_meta st' = applied_rows st applied membership in
  match spec_mutations (rev + 1) 0 ms A with
  | Ok (A', results, _) =>
      let after := disk_holds ts' A' (rev + 1) ∧ applied_on ts' = Some applied in
      if any_produced results then if is_ok r then after else before ∨ after
      else before ∧ kept
  | Err _ => before ∧ kept
  end.
Proof.
  intros Hst HA Hne Hms Hmax Hlen Happ rev ts' before kept.
  rewrite stage_raft_meta_run in Happ. cbn [snd] in Happ.
  set (st0 := stage (applied_rows st applied membership) st) in *.
  assert (store_inv st0) as Hst0 by (apply stage_inv; [done|by apply applied_rows_keys]).
  assert (same_store st0 st' → before ∧ kept) as Hsame.
  { intros (v & o & -> & _). split; [|done]. split; [|done].
    exact (store_disk_holds st A Hst HA). }
  assert (∀ e, (∀ k, raft_key k → contents e !! (TABLE_META, k)
                    = staged_meta (pending_raft_meta st0) (contents (engine st0)) k) →
               applied_on (contents e) = Some applied) as Hrow.
  { intros e He. unfold applied_on, snap_get. rewrite He by apply raft_applied_key.
    apply applied_rows_row. }
  pose proof (apply_ok st0 A ms Hst0 HA Hne Hms Hmax Hlen) as Hok. cbv zeta in Hok.
  rewrite Happ in Hok. cbv zeta beta in Hok. change (current_rev (write_state st0)) with rev in Hok.
  destruct (spec_mutations (rev + 1) 0 ms A) as [[[A' rs] evs]|refusal]; [|apply Hsame, Hok].
  destruct (any_produced rs); [|apply Hsame, Hok]. destruct r as [out|x]; cbn [is_ok].
  - destruct Hok as (_ & Hadv & _). split; [|apply Hrow, (adv_meta _ _ _ _ Hadv)].
    destruct Hadv as [Hinv' HA' <- _ _ _ _]. by apply store_disk_holds.
  - destruct Hok as (y & -> & v & o & b & e & _ & -> & [[Hd He]|[Hd He]]).
    + left. split; [done|]. unfold ts', applied_on. cbn [engine set_engine]. by rewrite He.
    + right. split; [done|]. by apply Hrow.
Qed.

(** ** Auth entries *)

Context `{BincodeLaws StoredUser, BincodeLaws StoredRole}.

Lemma auth_rel_ext ts ts' sp :
  (∀ t k, is_auth_table t → ts' !! (t, k) = ts !! (t, k)) → auth_rel ts sp → auth_rel ts' sp.
Proof.
  intros Ht [Hu Hr He Hs].
  split; unfold rows_rel in *; intros; rewrite ?Ht in * by (unfold is_auth_table; auto);
    first [by apply Hu|by apply Hr|by eauto].
Qed.

Lemma auth_inv_ext ts ts' mem sp :
  (∀ t k, is_auth_table t → ts' !! (t, k) = ts !! (t, k)) → auth_inv ts mem sp →
  auth_inv ts' mem sp.
Proof. intros Ht [Hr He Htok]. split; [|done..]. by eapply auth_rel_ext. Qed.

Definition auth_batch (st : Inner E) (b : WriteBatch) : WriteBatch :=
  b ++ put_rows TABLE_META (pending_raft_meta st).

Lemma auth_batch_quiet (st : Inner E) op r b :
  store_inv st → plan (contents (engine st)) op [] = Ok (r, b) → Forall quiet_op (auth_batch st b).
Proof.
  intros Hst Hplan. apply Forall_app. split; [|by apply pending_quiet].
  apply Forall_forall. intros o Ho.
  destruct (plan_tables _ _ _ _ _ Hplan o Ho) as [?%elem_of_nil|Ht]; [done|].
  assert (op_table o ≠ TABLE_META) as Hm by (destruct Ht as [->|[->| ->]]; done).
  split; [split_and!|].
  - by destruct Ht as [->|[->| ->]].
  - by destruct Ht as [->|[->| ->]].
  - by destruct Ht as [->|[->| ->]].
  - done.
  - intros v ->. by apply Hm.
Qed.

Lemma auth_batch_tables (st : Inner E) b ts t k :
  is_auth_table t → apply_batch (auth_batch st b) ts !! (t, k) = apply_batch b ts !! (t, k).
Proof.
  intros Ht. unfold auth_batch. rewrite apply_batch_app. apply apply_batch_other.
  intros o ->%put_rows_table. by destruct Ht as [->|[->| ->]].
Qed.

(** The store once an entry's batch is committed. *)
Definition entered (st : Inner E) (e : E) (mem : AuthMemory) : Inner E :=
  set_auth mem (set_engine e (set_pending_raft_meta [] st)).

Lemma entered_ok (st : Inner E) e mem b :
  store_inv st → contents e = apply_batch b (contents (engine st)) → Forall quiet_op b →
  store_inv (entered st e mem) ∧ side_step st (entered st e mem).
Proof.
  intros Hst He Hq.
  assert (side_step st (entered st e mem)) as Hs.
  { split; try done. cbn [engine entered set_auth set_engine]. rewrite He.
    by apply side_data, quiet_side. }
  split; [|done]. destruct (si_revs _ Hst) as (_ & _ & Hi).
  eapply (side_inv st _ b); [done..|by apply quiet_side| |done].
  cbn [engine entered set_auth set_engine]. rewrite He, quiet_next by done.
  apply (si_lease _ Hst).
Qed.

Lemma set_engine_id (st : Inner E) : set_engine (engine st) st = st.
Proof. by destruct st. Qed.

Lemma apply_auth_run (st : Inner E) now op fx b :
  store_inv st → plan (contents (engine st)) op [] = Ok (Ok fx, b) →
  let cur := current_rev (write_state st) in
  let mem := effects_apply now fx (auth st) in
  apply_auth now op st =
  if batch_is_empty (auth_batch st b)
  then (Ok (cur, Ok ()), entered st (engine st) mem)
  else match commit (auth_batch st b) (apply_write_options st) (engine st) with
       | (Ok _, e) => (Ok (cur, Ok ()), entered st e mem)
       | (Err x, e) => (Err (Storage x), entered st e (auth st))
       end.
Proof.
  intros Hst Hplan cur mem. unfold apply_auth.
  rewrite (pbind_run snapshot _ st (contents (engine st)) st) by done.
  unfold WriteBatch_new. rewrite Hplan. cbn [storage]. unfold plift at 1. unfold pbind at 1.
  rewrite (pbind_run current_revision _ st cur st)
    by (unfold current_revision; by rewrite (si_view _ Hst)).
  destruct (fold_raft_meta_run st b) as (any & Hf & Hany). rewrite (pbind_run _ _ _ _ _ Hf).
  rewrite (pbind_run pget _ _ (set_pending_raft_meta [] st) (set_pending_raft_meta [] st)) by done.
  fold (auth_batch st b).
  assert (any || negb (batch_is_empty (auth_batch st b)) = negb (batch_is_empty (auth_batch st b)))
    as ->.
  { rewrite Hany. unfold auth_batch, batch_is_empty. destruct (pending_raft_meta st); [done|].
    by destruct b. }
  destruct (batch_is_empty (auth_batch st b)); cbn [negb].
  - unfold entered. cbn [set_pending_raft_meta engine]. done.
  - unfold engine_commit. unfold pbind at 1. cbn [engine set_pending_raft_meta].
    change (apply_write_options (set_pending_raft_meta [] st)) with (apply_write_options st).
    by destruct (commit (auth_batch st b) _ (engine st)) as [[[]|x] e].
Qed.


(** ** Reopening *)

Context `{BincodeLaws LeaseRecord}.

Lemma range_answer_ext (st st2 : Inner E) key range_end limit t ko co :
  store_inv st → store_inv st2 → write_state st2 = write_state st →
  (∀ k u, read_rec (idx_gens (index st2)) (contents (engine st2)) k u
          = read_rec (idx_gens (index st)) (contents (engine st)) k u) →
  (range key range_end limit t ko co st2).1 = (range key range_end limit t ko co st).1.
Proof.
  intros Hst Hst2 Hws Hread. unfold range, pbind.
  pose proof (range_ok st key range_end limit t ko co Hst) as Hr.
  pose proof (range_ok st2 key range_end limit t ko co Hst2) as Hr2.
  destruct (range_with_revision _ _ _ _ _ _ st) as [r s].
  destruct (range_with_revision _ _ _ _ _ _ st2) as [r2 s2].
  destruct Hr as [-> _], Hr2 as [-> _]. unfold range_answer. rewrite Hws.
  assert (∀ u, store_view st2 u key range_end = store_view st u key range_end) as Hv.
  { intros u. eapply view_spec_unique; [|apply store_view_spec..]. intros k. apply Hread. }
  rewrite Hv. by repeat case_match.
Qed.

Lemma open_restores (st : Inner E) hash cfg now st2 :
  store_inv st → 0 ≤ value_cache_bytes cfg → open_with (engine st) hash cfg now = Ok st2 →
  store_inv st2 ∧ write_state st2 = write_state st ∧ cluster_id st2 = cluster_id st ∧
  ∀ k u, read_rec (idx_gens (index st2)) (contents (engine st2)) k u
         = read_rec (idx_gens (index st)) (contents (engine st)) k u.
Proof.
  intros Hst Hcfg Hopen.
  pose proof (open_ok (engine st) hash cfg now (store_disk_inv _ Hst) Hcfg) as Hok.
  rewrite Hopen in Hok. destruct Hok as (Hst2 & [Hde _] & Hg & Hws & Hcl). split_and!; [done|..].
  - rewrite Hws. unfold disk_i64. rewrite (si_current _ Hst), (si_compact _ Hst), (si_lease _ Hst).
    by destruct (write_state st).
  - destruct (si_cluster _ Hst) as (o & Ho & <-), (si_cluster _ Hst2) as (o2 & Ho2 & <-).
    congruence.
  - intros k u. rewrite (data_eq_read _ _ _ k u Hde). apply read_rec_ext.
    by rewrite Hg, store_disk_gens.
Qed.


(** ** The cluster id *)

Definition id_batch (st : Inner E) (id : Z) : WriteBatch :=
  (if cluster_id st =? 0
   then [OpPut TABLE_META META_KEY_CLUSTER_ID (be_bytes 8 id)] else [])
  ++ put_rows TABLE_META (pending_raft_meta st).

Definition adopted (st : Inner E) (e : E) (id : Z) : Inner E :=
  set_cluster_id id (set_engine e (set_pending_raft_meta [] st)).

Lemma apply_cluster_id_run (st : Inner E) id :
  let c := if cluster_id st =? 0 then id else cluster_id st in
  apply_cluster_id id st =
  if batch_is_empty (id_batch st id) then (Ok c, adopted st (engine st) c)
  else match commit (id_batch st id) (apply_write_options st) (engine st) with
       | (Ok _, e) => (Ok c, adopted st e c)
       | (Err x, e) => (Err (Storage x), adopted st e (cluster_id st))
       end.
Proof.
  intros c. unfold apply_cluster_id. rewrite (pbind_run pget _ st st st) by done.
  unfold get_cluster_id, c, id_batch. set (z := cluster_id st =? 0).
  destruct (fold_raft_meta_run st (if z
    then [OpPut TABLE_META META_KEY_CLUSTER_ID (be_bytes 8 id)] else [])) as (any & Hf & _).
  assert (match (if z then None else Some (cluster_id st)) with
          | None => batch_put TABLE_META META_KEY_CLUSTER_ID (be_bytes 8 id) WriteBatch_new
          | Some _ => WriteBatch_new
          end = if z then [OpPut TABLE_META META_KEY_CLUSTER_ID (be_bytes 8 id)] else [])
    as -> by by destruct z.
  rewrite (pbind_run _ _ _ _ _ Hf).
  set (b := _ ++ put_rows TABLE_META _).
  destruct (batch_is_empty b); [by destruct z|].
  unfold engine_commit, pbind. cbn [engine set_pending_raft_meta].
  destruct (commit b _ (engine st)) as [[[]|x] e]; by destruct z.
Qed.

Lemma id_batch_meta (st : Inner E) id ts k :
  store_inv st → ¬ raft_key k → k ≠ META_KEY_CLUSTER_ID →
  apply_batch (id_batch st id) ts !! (TABLE_META, k) = ts !! (TABLE_META, k).
Proof.
  intros Hst Hk Hc. apply meta_lookup. intros op Hop _. unfold id_batch in Hop.
  apply elem_of_app in Hop as [Hop|(r & -> & Hr)%list_elem_of_fmap].
  - destruct (cluster_id st =? 0); [|by apply elem_of_nil in Hop].
    apply list_elem_of_singleton in Hop as ->. by eauto.
  - exists r.1, r.2. split; [done|]. intros <-. by apply Hk, (si_pending _ Hst).
Qed.

Lemma id_batch_id (st : Inner E) id ts :
  store_inv st → 0 < id < two64 →
  apply_batch (id_batch st id) ts !! (TABLE_META, META_KEY_CLUSTER_ID)
  = if cluster_id st =? 0 then Some (be_bytes 8 id) else ts !! (TABLE_META, META_KEY_CLUSTER_ID).
Proof.
  intros Hst Hid. unfold id_batch. rewrite apply_batch_app.
  rewrite put_rows_skip by (intros r Hr; by apply (si_pending _ Hst)).
  destruct (cluster_id st =? 0); [|done].
  change (apply_batch [?op] ?t) with (apply_op op t). by rewrite apply_op_lookup, decide_True.
Qed.

Lemma id_batch_data (st : Inner E) id ts : data_eq ts (apply_batch (id_batch st id) ts).
Proof.
  intros t k Ht. apply apply_batch_other. intros op Hop. unfold id_batch in Hop.
  assert (op_table op = TABLE_META) as ->; [|by destruct Ht as [->|[->| ->]]].
  apply elem_of_app in Hop as [Hop|Hop%put_rows_table]; [|done].
  destruct (cluster_id st =? 0); [|by apply elem_of_nil in Hop].
  by apply list_elem_of_singleton in Hop as ->.
Qed.

Lemma adopted_inv (st : Inner E) e id :
  store_inv st → 0 < id < two64 →
  contents e = apply_batch (id_batch st id) (contents (engine st)) →
  store_inv (adopted st e (if cluster_id st =? 0 then id else cluster_id st)).
Proof.
  intros Hst Hid He.
  assert (∀ k, ¬ raft_key k → k ≠ META_KEY_CLUSTER_ID →
    snap_get (contents e) TABLE_META k = snap_get (contents (engine st)) TABLE_META k) as Hmeta
    by (intros k Hk Hc; rewrite He; by apply id_batch_meta).
  assert (data_eq (contents (engine st)) (contents e)) as Hd by (rewrite He; apply id_batch_data).
  split; cbn [engine adopted set_cluster_id set_engine set_pending_raft_meta index write_state view
    values cluster_id pending_raft_meta].
  - eapply data_eq_core; [done|apply (si_core _ Hst)].
  - apply (si_index _ Hst).
  - intros k. rewrite (Hd TABLE_IDX k) by auto. apply (si_idx _ Hst).
  - unfold read_i64. rewrite Hmeta by (try done; unfold raft_key; naive_solver).
    apply (si_current _ Hst).
  - unfold read_i64. rewrite Hmeta by (try done; unfold raft_key; naive_solver).
    apply (si_compact _ Hst).
  - unfold read_i64. rewrite Hmeta by (try done; unfold raft_key; naive_solver).
    apply (si_lease _ Hst).
  - apply (si_revs _ Hst).
  - apply (si_view _ Hst).
  - apply (si_commits _ Hst).
  - eapply cache_all_impl; [|apply (si_cache _ Hst)]. intros k r rec [Hm Hrow].
    split; [done|]. intros d Hdd. rewrite (data_eq_kv _ _ _ _ Hd). by apply Hrow.
  - unfold read_u64, snap_get. rewrite He, id_batch_id by done.
    destruct (cluster_id st =? 0); [|apply (si_cluster _ Hst)].
    rewrite length_be_bytes. cbn [Nat.eqb]. eexists. split; [done|]. cbn [default].
    unfold Datatypes.id.
    rewrite be_value_bytes. change (256 ^ Z.of_nat 8) with two64. apply Z.mod_small. lia.
  - by intros r ?%elem_of_nil.
Qed.

(**  The first cluster id wins and lasts: [apply_cluster_id] answers the
    id the store has, or takes the one proposed if it has none, and a store
    opened on the disk afterwards has the id answered. *)
Theorem cluster_id_first_wins (st : Inner E) id hash cfg now :
  store_inv st → 0 < id < two64 → 0 ≤ value_cache_bytes cfg →
  let c := if cluster_id st =? 0 then id else cluster_id st in
  let '(r, st') := apply_cluster_id id st in
  match r with
  | Ok out => out = c ∧ cluster_id st' = c ∧ store_inv st' ∧
      match open_with (engine st') hash cfg now with
      | Ok st2 => cluster_id st2 = c
      | Err _ => True
      end
  | Err x => cluster_id st' = cluster_id st ∧ ∃ y, x = Storage y
  end.
Proof.
  intros Hst Hid Hcfg c. rewrite apply_cluster_id_run.
  assert (∀ e, contents e = apply_batch (id_batch st id) (contents (engine st)) →
    store_inv (adopted st e c) ∧
    match open_with e hash cfg now with
    | Ok st2 => cluster_id st2 = c
    | Err _ => True
    end) as Hdone.
  { intros e He. pose proof (adopted_inv st e id Hst Hid He) as Hst'. split; [done|].
    destruct (open_with e hash cfg now) as [st2|] eqn:Hopen; [|done].
    by destruct (open_restores (adopted st e c) hash cfg now st2 Hst' Hcfg Hopen)
      as (_ & _ & -> & _). }
  destruct (batch_is_empty (id_batch st id)) eqn:Hempty.
  - split; [done|]. split; [done|]. apply Hdone.
    unfold batch_is_empty in Hempty. by destruct (id_batch st id).
  - destruct (commit _ _ (engine st)) as [[[]|y] e] eqn:Hcommit; [|by eauto].
    split; [done|]. split; [done|]. apply Hdone. by apply commit_ok in Hcommit.
Qed.
End meta.

(** ** Witnesses *)

Section witnesses.
Import Demo.

Lemma applied_index_moves_with_data_witness :
  let st' := (apply demo_ms (stage_raft_meta (str "idx 9") None (demo_store [])).2).2 in
  applied_on (contents (engine st')) = Some (str "idx 9") ∧
  disk_holds (contents (engine st')) demo_abs1 1.
Proof.
  destruct (apply demo_ms (stage_raft_meta (str "idx 9") None (demo_store [])).2) as [r st'] eqn:Ha.
  assert (r = Ok (1, demo_results)) as ->.
  { rewrite <- (f_equal fst Ha : _ = r). vm_compute. reflexivity. }
  pose proof (applied_index_moves_with_data (demo_store []) ∅ demo_ms (str "idx 9") None _ st'
    (demo_inv []) (demo_abs []) ltac:(done) demo_ms_wf ltac:(done) ltac:(done) Ha) as Hok.
  cbv zeta in Hok. change (current_rev (write_state (demo_store [])) + 1) with 1 in Hok.
  destruct demo_spec as (evs & Hspec & _). rewrite Hspec in Hok. cbn [snd].
  destruct Hok as [Hd Hr]. split; [exact Hr|exact Hd].
Defined.



Lemma cluster_id_first_wins_witness :
  (apply_cluster_id 77 demo_store1).1 = Ok 77 ∧
  store_inv (apply_cluster_id 77 demo_store1).2.
Proof.
  pose proof (cluster_id_first_wins demo_store1 77 demo_hash demo_cache 0 (proj1 demo_inv1)
    ltac:(done) ltac:(done)) as Hok. cbv zeta in Hok.
  assert ((apply_cluster_id 77 demo_store1).1 = Ok 77) as Hr by (vm_compute; reflexivity).
  destruct (apply_cluster_id 77 demo_store1) as [r st']. cbn [fst snd] in *. rewrite Hr in Hok.
  split; [exact Hr|]. apply Hok.
Defined.
End witnesses.
