(* ===== verification/StoreEvents.v ===== *)
(** * Backfilled events

    [range_events_until] rebuilds from index and rows the events a watcher
    that starts late has missed: every event of the keys in range in the
    window of revisions, in order, each with its record.  And what it gives
    as the previous record. *)

From S2P Require Import Prelude Revision Record KvStore Lease Cache Auth Store StoreCore.
From S2P Require Import StoreSpec StoreInv StoreApply StoreCommit StoreOpen StoreDemo StoreWrite.
From S2P Require Import StoreRead.

(** ** The window *)

Definition in_window (start_rev current : Z) (r : Revision) : bool :=
  (start_rev <? main r) && (main r <=? current).

Lemma window_pairs_history start_rev current k gens :
  window_pairs start_rev current k gens
  = (λ e : event, (e.1, k)) <$> base.filter (λ e : event, in_window start_rev current e.1 = true)
                                  (history gens).
Proof.
  unfold window_pairs, history. induction gens as [|g gens IH]; [done|].
  cbn [mbind list_bind]. rewrite filter_app, fmap_app, IH. f_equal. unfold gen_events.
  rewrite filter_app, fmap_app. f_equal.
  - induction (revs g) as [|r rs IHr]; [done|]. cbn [fmap list_fmap].
    rewrite !filter_cons. cbn [fst].
    change (in_window start_rev current r) with ((start_rev <? main r) && (main r <=? current)).
    case_decide; cbn [fmap list_fmap fst]; by rewrite IHr.
  - destruct (tombstone g); [|done]. rewrite filter_cons. cbn [fst]. unfold in_window.
    destruct (_ && _) eqn:Hw; by case_decide.
Qed.

Lemma elem_of_concat {A} (x : A) ls : x ∈ concat ls ↔ ∃ l, x ∈ l ∧ l ∈ ls.
Proof.
  induction ls as [|l ls IH]; cbn.
  - split; [by intros ?%elem_of_nil|by intros (l & _ & ?%elem_of_nil)].
  - rewrite elem_of_app, IH. setoid_rewrite elem_of_cons. naive_solver.
Qed.

#[global] Instance pair_le_trans : Transitive pair_le.
Proof.
  intros a b c [Hab|[Hab Hk]] [Hbc|[Hbc Hk']].
  - left. by etrans.
  - left. by rewrite <- Hbc.
  - left. by rewrite Hab.
  - right. split; [congruence|by etrans].
Qed.

#[global] Instance pair_le_total : Total pair_le.
Proof.
  intros a b. unfold pair_le. destruct (decide (rev_lt a.1 b.1)) as [?|Hab]; [left; by left|].
  destruct (decide (rev_lt b.1 a.1)) as [?|Hba]; [right; by left|].
  assert (a.1 = b.1) as Heq by (apply (anti_symm rev_le); by apply rev_not_lt).
  destruct (bytes_le_total a.2 b.2); [left|right]; right; by split.
Qed.

(** ** The previous record *)

(** The newest event before a revision. *)
Definition newest_before (h : list event) (r : Revision) : option event :=
  last (base.filter (λ e : event, rev_ltb e.1 r = true) h).

Definition puts_of_gens (gens : list Generation) : list Revision := gens ≫= revs.

Lemma puts_history gens :
  puts_of_gens gens = (base.filter (λ e : event, e.2 = false) (history gens)).*1.
Proof.
  unfold puts_of_gens, history. induction gens as [|g gens IH]; [done|].
  cbn [mbind list_bind]. rewrite filter_app, fmap_app, <- IH. f_equal. unfold gen_events.
  rewrite filter_app, fmap_app.
  assert ((base.filter (λ e : event, e.2 = false) ((λ r, (r, false)) <$> revs g)).*1 = revs g) as ->.
  { induction (revs g) as [|r rs IHr]; [done|]. cbn [fmap list_fmap].
    rewrite filter_cons_True by done. cbn. by rewrite IHr. }
  destruct (tombstone g); cbn; by rewrite app_nil_r.
Qed.

Lemma bind_reverse {A B} (f : A → list B) l :
  (reverse l ≫= λ x, reverse (f x)) = reverse (l ≫= f).
Proof.
  induction l as [|x l IH]; [done|]. cbn [mbind list_bind].
  rewrite reverse_cons, bind_app, reverse_app, <- IH. cbn. by rewrite app_nil_r.
Qed.

Lemma head_reverse_last {A} (l : list A) : head (reverse l) = last l.
Proof. rewrite <- (reverse_involutive l) at 2. by rewrite last_reverse. Qed.

Lemma filter_reverse' {A} (P : A → Prop) `{!∀ x, Decision (P x)} (l : list A) :
  base.filter P (reverse l) = reverse (base.filter P l).
Proof.
  induction l as [|x l IH]; [done|]. rewrite reverse_cons, filter_app, IH, !filter_cons, filter_nil.
  case_decide; [by rewrite reverse_cons|by rewrite app_nil_r].
Qed.

Lemma previous_put_last gens before :
  previous_put gens before = last (base.filter (λ r, rev_ltb r before = true) (puts_of_gens gens)).
Proof.
  unfold previous_put. by rewrite bind_reverse, filter_reverse', head_reverse_last.
Qed.

Lemma last_filter_and {A} (P Q : A → Prop) `{!∀ x, Decision (P x), !∀ x, Decision (Q x)} l x :
  last (base.filter P l) = Some x → Q x → last (base.filter P (base.filter Q l)) = Some x.
Proof.
  induction l as [|y l IH] using rev_ind; [done|]. rewrite !filter_app, !filter_cons, !filter_nil.
  case_decide as HP.
  - rewrite last_snoc. intros [= ->] HQ. rewrite decide_True by done.
    rewrite filter_cons_True, filter_nil by done. by rewrite last_snoc.
  - rewrite app_nil_r. intros Hl HQ. case_decide; rewrite ?filter_cons_False, ?filter_nil, app_nil_r by done; by apply IH.
Qed.

(** A key live just before: the previous put is what it read then. *)
Lemma previous_put_live gens before r :
  newest_before (history gens) before = Some (r, false) → previous_put gens before = Some r.
Proof.
  intros Hn. rewrite previous_put_last, puts_history.
  apply (last_filter_and _ (λ e : event, e.2 = false)) in Hn; [|done].
  revert Hn. generalize (base.filter (λ e : event, e.2 = false) (history gens)). intros l Hn.
  assert (base.filter (λ r0, rev_ltb r0 before = true) l.*1
          = (base.filter (λ e : event, rev_ltb e.1 before = true) l).*1) as ->.
  { clear. induction l as [|e l IH]; [done|]. cbn [fmap list_fmap]. rewrite !filter_cons.
    case_decide; cbn; by rewrite IH. }
  by rewrite fmap_last, Hn.
Qed.

Lemma previous_put_none gens before :
  newest_before (history gens) before = None → previous_put gens before = None.
Proof.
  unfold newest_before. rewrite last_None. intros Hn. rewrite previous_put_last, puts_history.
  apply last_None, elem_of_nil_inv. intros r [Hlt Hr]%list_elem_of_filter.
  apply list_elem_of_fmap in Hr as (e & -> & [_ He]%list_elem_of_filter).
  assert (e ∈ base.filter (λ e : event, rev_ltb e.1 before = true) (history gens)) as Hin
    by by apply list_elem_of_filter.
  rewrite Hn in Hin. by apply elem_of_nil in Hin.
Qed.

Section events.
Context {E : Type} `{KvStoreLaws E} `{BincodeLaws KvRecord, BincodeLaws KeyIndex}.

(** ** One event *)

Lemma history_row G ts bound k r d :
  core_inv G ts bound → (r, d) ∈ history (G k) →
  ∃ rec, kv_row ts k r = Some rec ∧ is_tombstone rec = d.
Proof.
  intros Hc (g & Hr & Hg)%list_elem_of_bind.
  apply elem_of_gen_events in Hr as [[-> Hr]|[-> Hr]].
  - destruct (ci_puts _ _ _ Hc k g r Hg Hr) as (rec & Hrow & Hok). exists rec. split; [done|].
    unfold is_tombstone. by destruct Hok as (_ & _ & _ & _ & _ & ->).
  - exists (tomb_rec k r). split; [by eapply ci_tomb|done].
Qed.

Lemma kv_row_get ts k r rec :
  kv_row ts k r = Some rec →
  ∃ b, snap_get ts TABLE_KV (make_kv_key k r) = Some b ∧ deserialize b = Some rec.
Proof. unfold kv_row, snap_get. destruct (ts !! _); cbn; [eauto|done]. Qed.

(** The index row of a key with a history. *)
Lemma read_index_ok (st : Inner E) k gens :
  store_inv st → index_map (index st) !! k = Some gens →
  read_index (contents (engine st)) k = Ok (Some (mkIdx k gens)).
Proof.
  intros Hst Hk. pose proof (si_idx _ Hst k) as Hi. unfold read_index, snap_get.
  destruct (contents (engine st) !! (TABLE_IDX, k)) as [b|]; [|congruence].
  destruct Hi as (gens' & Hd & Hk'). simplify_eq. by rewrite Hd.
Qed.

Lemma previous_live_record_ok (st : Inner E) k gens before :
  store_inv st → index_map (index st) !! k = Some gens →
  previous_live_record (contents (engine st)) k before
  = Ok (previous_put gens before ≫= kv_row (contents (engine st)) k).
Proof.
  intros Hst Hk. unfold previous_live_record. rewrite (read_index_ok st k gens) by done.
  cbn [res_bind mbind option_bind generations].
  destruct (previous_put gens before) as [r|] eqn:Hp; [|done]. cbn [mbind option_bind].
  rewrite previous_put_last, puts_history in Hp. apply last_Some_elem_of in Hp.
  apply list_elem_of_filter in Hp as [_ (e & -> & [He Hin]%list_elem_of_filter)%list_elem_of_fmap].
  destruct e as [r d]. cbn in He. subst d. cbn [fst].
  destruct (history_row (idx_gens (index st)) (contents (engine st)) _ k r false (si_core _ Hst))
    as (rec & Hrow & Ht). { unfold idx_gens. by rewrite Hk. }
  rewrite Hrow. apply kv_row_get in Hrow as (b & -> & Hd). cbn. rewrite Hd. cbn. by rewrite Ht.
Qed.

(** What a backfilled event says. *)
Record backfilled (st : Inner E) (p : Revision * bytes) (e : MvccEvent) : Prop := {
  bf_row : kv_row (contents (engine st)) p.2 p.1 = Some (ev_kv e);
  bf_event : (p.1, is_tombstone (ev_kv e)) ∈ history (idx_gens (index st) p.2);
  bf_kind : ev_kind e = if is_tombstone (ev_kv e) then EvDelete else EvPut;
  bf_prev r : newest_before (history (idx_gens (index st) p.2)) p.1 = Some (r, false) →
              ev_prev_kv e = kv_row (contents (engine st)) p.2 r;
  bf_first : newest_before (history (idx_gens (index st) p.2)) p.1 = None → ev_prev_kv e = None
}.

Lemma backfill_event_ok (st : Inner E) r k d :
  store_inv st → (r, d) ∈ history (idx_gens (index st) k) →
  ∃ e, backfill_event (contents (engine st)) (r, k) = Ok e ∧ backfilled st (r, k) e.
Proof.
  intros Hst Hr. destruct (history_row _ _ _ _ _ _ (si_core _ Hst) Hr) as (rec & Hrow & Ht).
  assert (∃ gens, index_map (index st) !! k = Some gens) as [gens Hk].
  { unfold idx_gens in Hr. destruct (index_map (index st) !! k); [by eauto|by apply elem_of_nil in Hr]. }
  pose proof (kv_row_get _ _ _ _ Hrow) as (b & Hb & Hd). unfold backfill_event. rewrite Hb.
  cbn [ok_or res_bind]. rewrite Hd. cbn [ok_or res_bind].
  rewrite (previous_live_record_ok st k gens) by done. cbn [res_bind].
  assert (idx_gens (index st) k = gens) as Hg by (unfold idx_gens; by rewrite Hk).
  eexists. split; [done|]. split; cbn [ev_kv ev_kind ev_prev_kv fst snd]; rewrite ?Hg; try done.
  - rewrite Ht. by rewrite <- Hg.
  - intros r' Hn. by rewrite (previous_put_live _ _ _ Hn).
  - intros Hn. by rewrite (previous_put_none _ _ Hn).
Qed.

Lemma res_map_Forall2 {A B} (f : A → MvccResult B) (R : A → B → Prop) l :
  (∀ x, x ∈ l → ∃ y, f x = Ok y ∧ R x y) → ∃ ys, res_map f l = Ok ys ∧ Forall2 R l ys.
Proof.
  induction l as [|x l IH]; intros Hl; [exists []; by split; [|constructor]|].
  destruct (Hl x) as (y & Hy & HR); [by left|]. destruct IH as (ys & Hys & HRs).
  { intros z Hz. apply Hl. by right. }
  exists (y :: ys). cbn. rewrite Hy. cbn. rewrite Hys. split; [done|by constructor].
Qed.

(** ** The whole window *)

(** The index rows a range covers. *)
Definition idx_rows (ts : Tables) (key range_end : bytes) : list (bytes * bytes) :=
  snap_range ts TABLE_IDX (range_bounds key range_end).1 (range_bounds key range_end).2 0.

Lemma idx_rows_elem (st : Inner E) key range_end k b :
  store_inv st → (k, b) ∈ idx_rows (contents (engine st)) key range_end →
  in_range k key range_end = true ∧ ∃ gens, deserialize b = Some (mkIdx k gens) ∧
    index_map (index st) !! k = Some gens.
Proof.
  intros Hst [Hb Hin]%snap_range_elem. split; [by apply in_range_range_bounds|].
  pose proof (si_idx _ Hst k) as Hi. by rewrite Hb in Hi.
Qed.

Definition row_pairs (st : Inner E) (start_rev current : Z) (r : bytes * bytes)
    : list (Revision * bytes) :=
  window_pairs start_rev current r.1 (idx_gens (index st) r.1).

Lemma window_rows_ok (st : Inner E) key range_end start_rev current :
  store_inv st →
  res_map (λ r : bytes * bytes,
    let? idx := ok_or (deserialize (A := KeyIndex) r.2) (Internal "deserialize KeyIndex") in
    Ok (window_pairs start_rev current r.1 (generations idx)))
    (idx_rows (contents (engine st)) key range_end)
  = Ok (row_pairs st start_rev current <$> idx_rows (contents (engine st)) key range_end).
Proof.
  intros Hst. apply res_map_ok. intros [k b] Hin.
  destruct (idx_rows_elem st key range_end k b Hst Hin) as (_ & gens & Hd & Hk). cbn [fst snd].
  rewrite Hd. cbn. unfold row_pairs, idx_gens. cbn [fst]. by rewrite Hk.
Qed.

(** The (revision, key) pairs of the window. *)
Definition window (st : Inner E) (key range_end : bytes) (start_rev current : Z)
    : list (Revision * bytes) :=
  concat (row_pairs st start_rev current <$> idx_rows (contents (engine st)) key range_end).

Lemma window_elem (st : Inner E) key range_end start_rev current r k :
  store_inv st →
  (r, k) ∈ window st key range_end start_rev current ↔
  in_range k key range_end = true ∧ start_rev < main r ≤ current ∧
  ∃ d, (r, d) ∈ history (idx_gens (index st) k).
Proof.
  intros Hst. unfold window. rewrite elem_of_concat. setoid_rewrite list_elem_of_fmap.
  assert (∀ j, in_window start_rev current j = true ↔ start_rev < main j ≤ current) as Hw.
  { intros j. unfold in_window. rewrite andb_true_iff, Z.ltb_lt, Z.leb_le. done. }
  split.
  - intros (l & Hin & ([k' b] & -> & Hb)). unfold row_pairs in Hin. cbn [fst] in Hin.
    rewrite window_pairs_history in Hin.
    apply list_elem_of_fmap in Hin as ([r' d] & [= -> ->] & [He Hh]%list_elem_of_filter).
    destruct (idx_rows_elem st key range_end k' b Hst Hb) as [Hr _]. apply Hw in He. eauto.
  - intros (Hr & Hwin & d & Hh).
    assert (∃ gens, index_map (index st) !! k = Some gens) as [gens Hk].
    { unfold idx_gens in Hh.
      destruct (index_map (index st) !! k); [by eauto|by apply elem_of_nil in Hh]. }
    pose proof (si_idx _ Hst k) as Hi.
    destruct (contents (engine st) !! (TABLE_IDX, k)) as [b|] eqn:Hb; [|congruence].
    exists (row_pairs st start_rev current (k, b)). split.
    + unfold row_pairs. cbn [fst]. rewrite window_pairs_history. apply list_elem_of_fmap.
      exists (r, d). split; [done|]. apply list_elem_of_filter. split; [by apply Hw|done].
    + exists (k, b). split; [done|]. apply snap_range_elem.
      split; [done|]. by apply in_range_range_bounds.
Qed.

Lemma row_pairs_NoDup (st : Inner E) start_rev current row :
  store_inv st → NoDup (row_pairs st start_rev current row).
Proof.
  intros Hst. unfold row_pairs. rewrite window_pairs_history.
  pose proof (hist_sorted_NoDup _ (history_sorted _ (ci_wf _ _ _ (si_core _ Hst) row.1))) as Hnd.
  revert Hnd. generalize (history (idx_gens (index st) row.1)). intros h.
  induction h as [|e h IH]; [constructor|]. cbn [fmap list_fmap]. intros [He Hnd]%NoDup_cons.
  rewrite filter_cons. case_decide; [|by apply IH]. cbn. constructor; [|by apply IH].
  intros (e' & [= Heq] & [_ Hin]%list_elem_of_filter)%list_elem_of_fmap. apply He.
  rewrite Heq. by apply list_elem_of_fmap_2.
Qed.

Lemma window_NoDup (st : Inner E) key range_end start_rev current :
  store_inv st → NoDup (window st key range_end start_rev current).
Proof.
  intros Hst. unfold window.
  pose proof (key_sorted_NoDup _ (map_range_sorted (range_bounds key range_end).1
    (range_bounds key range_end).2 (table_rows TABLE_IDX (contents (engine st))))) as Hnd.
  change (map_range _ _ _) with (idx_rows (contents (engine st)) key range_end) in Hnd.
  revert Hnd. induction (idx_rows _ key range_end) as [|row rows IH]; [constructor|].
  cbn [fmap list_fmap concat]. intros [Hrow Hnd]%NoDup_cons. apply NoDup_app.
  split_and!; [by apply row_pairs_NoDup| |by apply IH].
  assert (∀ r' p, p ∈ row_pairs st start_rev current r' → p.2 = r'.1) as Hkey.
  { intros r' p. unfold row_pairs. rewrite window_pairs_history.
    by intros (e & -> & _)%list_elem_of_fmap. }
  intros p Hp (l & Hl & (row' & -> & Hrow')%list_elem_of_fmap)%elem_of_concat.
  apply Hrow. rewrite <- (Hkey _ _ Hp), (Hkey _ _ Hl). by apply list_elem_of_fmap_2.
Qed.

(** C31.  Backfill is exact.  For a window the compaction has not reached,
    [range_events_until] answers one event for every event of every key in
    range whose revision is in the window and for nothing else, ordered by
    revision and key; each with the stored record, the right kind, and the
    record the key had just before if it was live.  A window below the
    compacted revision is refused, an empty one gives nothing, and the store
    does not change. *)
Theorem backfill_exact (st : Inner E) key range_end start_rev end_rev :
  store_inv st →
  let '(r, st') := range_events_until key range_end start_rev end_rev st in
  let compact := compact_rev (write_state st) in
  let current := Z.min (current_rev (write_state st)) end_rev in
  st' = st ∧
  if (start_rev <? compact) && (0 <? compact) then r = Err (Compacted start_rev compact)
  else if current <? start_rev then r = Ok []
  else ∃ pairs events, r = Ok events ∧ Forall2 (backfilled st) pairs events ∧
    StronglySorted pair_le pairs ∧ NoDup pairs ∧
    ∀ rev k, (rev, k) ∈ pairs ↔
      in_range k key range_end = true ∧ start_rev < main rev ≤ current ∧
      ∃ d, (rev, d) ∈ history (idx_gens (index st) k).
Proof.
  intros Hst. unfold range_events_until. rewrite (pbind_run pget _ st st st) by done.
  rewrite (si_view _ Hst). cbn [rv_current rv_compact ws_revs].
  set (compact := compact_rev _). set (current := Z.min _ _).
  destruct ((start_rev <? compact) && (0 <? compact)); [done|].
  destruct (current <? start_rev); [done|]. unfold read_events.
  rewrite (pbind_run snapshot _ st (contents (engine st)) st) by done.
  destruct (range_bounds key range_end) as [lo hi] eqn:Hb.
  assert (snap_range (contents (engine st)) TABLE_IDX lo hi 0
          = idx_rows (contents (engine st)) key range_end) as ->
    by (unfold idx_rows; by rewrite Hb).
  rewrite window_rows_ok by done. unfold plift, pbind. fold (window st key range_end start_rev current).
  set (pairs := merge_sort pair_le _).
  assert (pairs ≡ₚ window st key range_end start_rev current) as Hperm by apply merge_sort_Permutation.
  destruct (res_map_Forall2 (backfill_event (contents (engine st))) (backfilled st) pairs)
    as (events & Hev & HF).
  { intros [r k] Hin. rewrite Hperm, window_elem in Hin by done. destruct Hin as (_ & _ & d & Hd).
    by eapply backfill_event_ok. }
  rewrite Hev. split; [done|]. exists pairs, events. split_and!; [done..| | |].
  - apply StronglySorted_merge_sort; apply _.
  - rewrite Hperm. by apply window_NoDup.
  - intros rev k. rewrite Hperm. by apply window_elem.
Qed.

(**  The previous record crosses a delete: a put that follows a delete is
    backfilled with the record from before the delete as its previous one,
    though the key was not live then (the comment in [previous_live_record]
    says that a closing tombstone yields none, and the event sent when the
    put was applied had none). *)
Theorem backfill_prev_outlives_delete (st : Inner E) k r t r' :
  store_inv st → (r, false) ∈ history (idx_gens (index st) k) →
  newest_before (history (idx_gens (index st) k)) r = Some (t, true) →
  (r', false) ∈ history (idx_gens (index st) k) → rev_lt r' r →
  ∃ e old, backfill_event (contents (engine st)) (r, k) = Ok e ∧ ev_kind e = EvPut ∧
    ev_prev_kv e = Some old ∧ is_tombstone old = false.
Proof.
  intros Hst Hr _ Hr' Hlt.
  destruct (history_row _ _ _ _ _ _ (si_core _ Hst) Hr) as (rec & Hrow & Ht).
  assert (∃ gens, index_map (index st) !! k = Some gens) as [gens Hk].
  { unfold idx_gens in Hr. destruct (index_map (index st) !! k); [by eauto|by apply elem_of_nil in Hr]. }
  assert (idx_gens (index st) k = gens) as Hg by (unfold idx_gens; by rewrite Hk).
  assert (∃ q, previous_put gens r = Some q ∧ (q, false) ∈ history gens) as (q & Hq & Hqh).
  { rewrite previous_put_last, puts_history.
    assert (r' ∈ base.filter (λ x, rev_ltb x r = true)
              (base.filter (λ e : event, e.2 = false) (history gens)).*1) as Hin.
    { apply list_elem_of_filter. split; [by apply rev_ltb_lt|]. apply list_elem_of_fmap.
      exists (r', false). split; [done|]. apply list_elem_of_filter. by rewrite Hg in Hr'. }
    destruct (last _) as [q|] eqn:Hl; [|apply last_None in Hl; rewrite Hl in Hin;
      by apply elem_of_nil in Hin].
    exists q. split; [done|]. apply last_Some_elem_of, list_elem_of_filter in Hl as [_ Hl].
    apply list_elem_of_fmap in Hl as ([q' d] & -> & [Hf Hh]%list_elem_of_filter).
    cbn in Hf. by subst d. }
  destruct (history_row (idx_gens (index st)) (contents (engine st)) _ k q false (si_core _ Hst))
    as (old & Hold & Hot); [by rewrite Hg|].
  pose proof (kv_row_get _ _ _ _ Hrow) as (b & Hb & Hd). unfold backfill_event. rewrite Hb.
  cbn [ok_or res_bind]. rewrite Hd. cbn [ok_or res_bind].
  rewrite (previous_live_record_ok st k gens) by done. rewrite Hq. cbn [mbind option_bind res_bind].
  do 2 eexists. split; [done|]. cbn. by rewrite Ht.
Qed.
End events.

(** ** Witnesses *)

Section witnesses.
Import Demo.

Lemma backfill_exact_witness :
  match (range_events_until (str "a") [x00] 0 100 demo_store1).1 with
  | Ok events => ∃ pairs, Forall2 (backfilled demo_store1) pairs events ∧ length events = 3%nat
  | Err _ => False
  end.
Proof.
  pose proof (backfill_exact demo_store1 (str "a") [x00] 0 100 (proj1 demo_inv1)) as Hok.
  assert (∃ evs, (range_events_until (str "a") [x00] 0 100 demo_store1).1 = Ok evs ∧
                 length evs = 3%nat) as (evs & Hr & Hlen)
    by (eexists; split; vm_compute; reflexivity).
  assert ((0 <? compact_rev (write_state demo_store1)) && (0 <? compact_rev (write_state demo_store1))
          = false ∧ (Z.min (current_rev (write_state demo_store1)) 100 <? 0) = false) as [H1 H2]
    by (vm_compute; auto).
  destruct (range_events_until (str "a") [x00] 0 100 demo_store1) as [r st']. cbn [fst] in *.
  destruct Hok as [_ Hok]. rewrite H1, H2 in Hok. destruct Hok as (pairs & events & Hev & HF & _).
  rewrite Hr in *. injection Hev as <-. exists pairs. split; [exact HF|exact Hlen].
Defined.

(** [a] put, deleted and put again. *)
Definition demo_again : Inner MemEngine :=
  (apply [Put (str "a") (str "9") 0 false false false] demo_store1).2.

Lemma demo_again_inv : store_inv demo_again.
Proof.
  unfold demo_again.
  destruct (apply [Put (str "a") (str "9") 0 false false false] demo_store1) as [r st'] eqn:Happ.
  assert (r = Ok (2, [mkMutationResult 1 []])) as ->.
  { rewrite <- (f_equal fst Happ : _ = r). vm_compute. reflexivity. }
  assert (current_rev (write_state demo_store1) = 1) as Hcur by (vm_compute; reflexivity).
  exact (proj1 (apply_extends demo_store1 demo_abs1
    [Put (str "a") (str "9") 0 false false false] (2, [mkMutationResult 1 []]) st' 1 [] []
    (proj1 demo_inv1) (proj2 demo_inv1) ltac:(repeat constructor; discriminate)
    ltac:(rewrite Hcur; reflexivity)
    ltac:(discriminate) Happ ltac:(rewrite Hcur; split; [reflexivity|discriminate]))).
Qed.

Definition kinds (r : MvccResult (list MvccEvent)) : option (list EventKind) :=
  match r with Ok l => Some (ev_kind <$> l) | Err _ => None end.

(** A compaction between the check and the read: [range_events_until] reads
    the revisions, and waits for its snapshot.  Of the three events of [a]
    the window was found to have, the snapshot of the compacted store has one
    left, and it is answered as if it were all there is. *)
Lemma backfill_races_with_compaction :
  let compacted := (compact 2 demo_again).2 in
  (range_events_until (str "a") [] 0 2 demo_again = read_events (str "a") [] 0 2 demo_again) ∧
  kinds (read_events (str "a") [] 0 2 demo_again).1 = Some [EvPut; EvDelete; EvPut] ∧
  kinds (read_events (str "a") [] 0 2 compacted).1 = Some [EvPut] ∧
  (range_events_until (str "a") [] 0 2 compacted).1 = Err (Compacted 0 2).
Proof. vm_compute. done. Qed.

Lemma backfill_prev_outlives_delete_witness :
  ∃ e old, backfill_event (contents (engine demo_again)) (mkRev 2 0, str "a") = Ok e ∧
    ev_kind e = EvPut ∧ ev_prev_kv e = Some old ∧ is_tombstone old = false.
Proof.
  assert (history (idx_gens (index demo_again) (str "a"))
          = [(mkRev 1 0, false); (mkRev 1 2, true); (mkRev 2 0, false)]) as Hh
    by (vm_compute; reflexivity).
  apply (backfill_prev_outlives_delete demo_again (str "a") (mkRev 2 0) (mkRev 1 2) (mkRev 1 0)
    demo_again_inv).
  - rewrite Hh. right. right. left.
  - rewrite Hh. vm_compute. reflexivity.
  - rewrite Hh. left.
  - left. reflexivity.
Defined.
End witnesses.
