(* ===== verification/StoreTwin.v ===== *)
(** * Stores that hold the same tables act alike

    Two members hold the same replicated rows; their engines, their caches,
    their clocks and the raft metadata they have staged differ.  Every
    request then plans the same batch for both, and gives the same answer:
    what a request does is a function of the replicated rows alone. *)

From S2P Require Import Prelude Revision Record KvStore Lease Cache Auth Store StoreCore.
From S2P Require Import StoreSpec StoreInv StoreApply StoreCommit StoreOpen StoreWrite StoreRead.
From S2P Require Import StoreTxn StoreMany StoreCompact StoreSide StoreLease StoreMeta.

(** ** The replicated rows *)

(** The tables whose rows all members share; of [mvcc_meta], they share the
    rows that are not a member's own.  A raft log in the same engine is in
    tables of its own. *)
Definition data_table (t : string) : bool :=
  bool_decide (t ∈ [TABLE_KV; TABLE_IDX; TABLE_LEASE; TABLE_LEASE_KEYS;
                    TABLE_AUTH_USERS; TABLE_AUTH_ROLES; TABLE_AUTH_STATE]).

Definition replicated (t : string) (k : bytes) : Prop :=
  data_table t = true ∨ t = TABLE_META ∧ ¬ raft_key k.

Definition same_rows (ts1 ts2 : Tables) : Prop :=
  ∀ t k, replicated t k → ts1 !! (t, k) = ts2 !! (t, k).

#[global] Instance same_rows_equiv : Equivalence same_rows.
Proof.
  split.
  - intros ts t k _. done.
  - intros ts1 ts2 H t k Hk. symmetry. by apply H.
  - intros ts1 ts2 ts3 H1 H2 t k Hk. rewrite H1 by done. by apply H2.
Qed.

Lemma same_rows_table ts1 ts2 t k :
  same_rows ts1 ts2 → data_table t = true → ts1 !! (t, k) = ts2 !! (t, k).
Proof. intros H Ht. apply H. by left. Qed.

Lemma same_rows_data ts1 ts2 : same_rows ts1 ts2 → data_eq ts1 ts2.
Proof.
  intros H t k Ht. symmetry. apply same_rows_table; [done|]. by destruct Ht as [->|[->| ->]].
Qed.

#[global] Instance apply_batch_same b : Proper (same_rows ==> same_rows) (apply_batch b).
Proof.
  induction b as [|op b IH]; intros ts1 ts2 H; [done|].
  change (apply_batch (op :: b) ?t) with (apply_batch b (apply_op op t)). apply IH.
  intros t k Hk. rewrite !apply_op_lookup. specialize (H t k Hk).
  destruct op; repeat case_decide; done.
Qed.

Lemma same_rows_raft rows ts :
  (∀ r, r ∈ rows → raft_key r.1) → same_rows (apply_batch (put_rows TABLE_META rows) ts) ts.
Proof.
  intros Hrows t k Hk. destruct (decide (t = TABLE_META)) as [->|Ht].
  - apply put_rows_skip. intros r Hr Heq. destruct Hk as [Hk|[_ Hk]]; [done|].
    apply Hk. rewrite <- Heq. by apply Hrows.
  - apply apply_batch_other. intros op ->%put_rows_table. done.
Qed.

Lemma snap_get_same ts1 ts2 t k :
  same_rows ts1 ts2 → data_table t = true → snap_get ts1 t k = snap_get ts2 t k.
Proof. apply same_rows_table. Qed.

Lemma snap_range_same ts1 ts2 t lo hi n :
  same_rows ts1 ts2 → data_table t = true → snap_range ts1 t lo hi n = snap_range ts2 t lo hi n.
Proof.
  intros H Ht. unfold snap_range. do 2 f_equal. apply map_eq. intros k.
  rewrite !table_rows_lookup. by apply same_rows_table.
Qed.

Lemma not_raft_current : ¬ raft_key META_KEY_CURRENT_REV.
Proof. intros (H & _). by apply H. Qed.
Lemma not_raft_compact : ¬ raft_key META_KEY_COMPACT_REV.
Proof. intros (_ & H & _). by apply H. Qed.
Lemma not_raft_lease : ¬ raft_key META_KEY_NEXT_LEASE_ID.
Proof. intros (_ & _ & H & _). by apply H. Qed.
Lemma not_raft_cluster : ¬ raft_key META_KEY_CLUSTER_ID.
Proof. intros (_ & _ & _ & H). by apply H. Qed.

Create HintDb twin.
#[export] Hint Resolve not_raft_current not_raft_compact not_raft_lease not_raft_cluster : twin.

Lemma read_i64_same ts1 ts2 k :
  same_rows ts1 ts2 → ¬ raft_key k → read_i64 ts1 k = read_i64 ts2 k.
Proof. intros H Hk. unfold read_i64, snap_get. by rewrite (H TABLE_META k) by (by right). Qed.

Lemma read_u64_same ts1 ts2 k :
  same_rows ts1 ts2 → ¬ raft_key k → read_u64 ts1 k = read_u64 ts2 k.
Proof. intros H Hk. unfold read_u64, snap_get. by rewrite (H TABLE_META k) by (by right). Qed.

(** ** Twins *)

Section twins.
Context {E1 E2 : Type} `{KvStoreLaws E1} `{KvStoreLaws E2}.
Context `{BincodeLaws KvRecord, BincodeLaws KeyIndex}.

Record twins (st1 : Inner E1) (st2 : Inner E2) : Prop := {
  tw_left : store_inv st1;
  tw_right : store_inv st2;
  tw_rows : same_rows (contents (engine st1)) (contents (engine st2))
}.

Lemma twins_write_state st1 st2 : twins st1 st2 → write_state st1 = write_state st2.
Proof.
  intros [L R Hr].
  assert (current_rev (write_state st1) = current_rev (write_state st2)) as Hc.
  { rewrite <- (si_current _ L), <- (si_current _ R), (read_i64_same _ _ _ Hr); auto with twin. }
  assert (compact_rev (write_state st1) = compact_rev (write_state st2)) as Hp.
  { rewrite <- (si_compact _ L), <- (si_compact _ R), (read_i64_same _ _ _ Hr); auto with twin. }
  assert (next_lease_id (write_state st1) = next_lease_id (write_state st2)) as Hn.
  { rewrite <- (si_lease _ L), <- (si_lease _ R), (read_i64_same _ _ _ Hr); auto with twin. }
  destruct (write_state st1), (write_state st2). cbn in *. congruence.
Qed.

Lemma twins_cluster st1 st2 : twins st1 st2 → cluster_id st1 = cluster_id st2.
Proof.
  intros [L R Hr]. destruct (si_cluster _ L) as (o1 & Ho1 & <-), (si_cluster _ R) as (o2 & Ho2 & <-).
  rewrite (read_u64_same _ _ _ Hr) in Ho1; auto with twin. congruence.
Qed.

Lemma twins_index st1 st2 : twins st1 st2 → index st1 = index st2.
Proof.
  intros [L R Hr].
  assert (index_map (index st1) = index_map (index st2)) as Hm.
  { apply map_eq. intros k. pose proof (si_idx _ L k) as K1. pose proof (si_idx _ R k) as K2.
    rewrite (same_rows_table _ _ TABLE_IDX k Hr) in K1 by done.
    destruct (contents (engine st2) !! (TABLE_IDX, k)) as [b|]; [|congruence].
    destruct K1 as (g1 & D1 & ->), K2 as (g2 & D2 & ->). congruence. }
  pose proof (proj1 (si_index _ L)) as B1. pose proof (proj1 (si_index _ R)) as B2.
  rewrite Hm in B1. destruct (index st1), (index st2). cbn in *. congruence.
Qed.

Lemma twins_read st1 st2 k t :
  twins st1 st2 →
  read_rec (idx_gens (index st1)) (contents (engine st1)) k t
  = read_rec (idx_gens (index st2)) (contents (engine st2)) k t.
Proof.
  intros Ht. rewrite (twins_index _ _ Ht). symmetry. apply data_eq_read, same_rows_data, Ht.
Qed.

Lemma twins_live st1 st2 k :
  twins st1 st2 →
  live_rec (idx_gens (index st1)) (contents (engine st1)) k
  = live_rec (idx_gens (index st2)) (contents (engine st2)) k.
Proof.
  intros Ht. rewrite (twins_index _ _ Ht). symmetry. apply data_eq_live, same_rows_data, Ht.
Qed.

Lemma twins_abs st1 st2 A :
  twins st1 st2 → abs_rel A (idx_gens (index st1)) (contents (engine st1)) →
  abs_rel A (idx_gens (index st2)) (contents (engine st2)).
Proof. intros Ht HA k. by rewrite HA, (twins_live _ _ k Ht), (twins_index _ _ Ht). Qed.

Lemma twins_view st1 st2 t key range_end :
  twins st1 st2 → store_view st1 t key range_end = store_view st2 t key range_end.
Proof.
  intros Ht. eapply view_spec_unique; [|apply store_view_spec..]. intros k. by apply twins_read.
Qed.
End twins.

(** What a store holds, as the specification sees it. *)
Section abs_of.
Context {E : Type} `{KvStoreLaws E} `{BincodeLaws KvRecord, BincodeLaws KeyIndex}.

Definition abs_of (st : Inner E) : Abs :=
  map_imap (λ k gens, if decide (gens = []) then None
    else Some ((λ rec, (rec, puts_of gens))
           <$> live_rec (idx_gens (index st)) (contents (engine st)) k)) (index_map (index st)).

Lemma abs_of_ok (st : Inner E) : abs_rel (abs_of st) (idx_gens (index st)) (contents (engine st)).
Proof.
  intros k. unfold abs_of. rewrite map_lookup_imap.
  set (l := live_rec _ _ k). clearbody l. unfold idx_gens.
  by destruct (index_map (index st) !! k).
Qed.
End abs_of.

(** ** Building the same context *)

Section context.
Context {E1 E2 : Type} `{KvStoreLaws E1} `{KvStoreLaws E2}.
Context `{BincodeLaws KvRecord, BincodeLaws KeyIndex}.
Context (st1 : Inner E1) (st2 : Inner E2) (Htw : twins st1 st2).

Let snap1 := contents (engine st1).
Let snap2 := contents (engine st2).

(** The two stores in the middle of an apply. *)
Definition near (s1 : Inner E1) (s2 : Inner E2) : Prop :=
  ∃ v1 o1 v2 o2, s1 = st_with st1 v1 o1 ∧ s2 = st_with st2 v2 o2 ∧
    coh st1 v1 ∧ coh st2 v2.

(** The two programs give the same answer and the same context. *)
Definition alike {A} (P : ApplyContext → Prop)
    (m1 : prog (Inner E1 * ApplyContext) MvccError A)
    (m2 : prog (Inner E2 * ApplyContext) MvccError A)
    (Q : A → ApplyContext → Prop) : Prop :=
  ∀ s1 s2 c, near s1 s2 → P c → ∃ r s1' s2' c',
    m1 (s1, c) = (r, (s1', c')) ∧ m2 (s2, c) = (r, (s2', c')) ∧ near s1' s2' ∧
    ∀ a, r = Ok a → Q a c'.

Definition anything {A} (_ : A) (_ : ApplyContext) : Prop := True.

Lemma alike_bind {A B} P Q R (m1 : prog _ _ A) (m2 : prog _ _ A)
    (k1 k2 : A → prog _ MvccError B) :
  alike P m1 m2 Q → (∀ a, alike (Q a) (k1 a) (k2 a) R) →
  alike P (pbind m1 k1) (pbind m2 k2) R.
Proof.
  intros Hm Hk s1 s2 c Hn HP. destruct (Hm s1 s2 c Hn HP) as (r & s1' & s2' & c' & R1 & R2 & Hn' & HQ).
  unfold pbind. rewrite R1, R2. destruct r as [a|x].
  - destruct (Hk a s1' s2' c' Hn' (HQ a eq_refl)) as (r & t1 & t2 & d & K1 & K2 & Ht & HR).
    by exists r, t1, t2, d.
  - by exists (Err x), s1', s2', c'.
Qed.

Lemma alike_weaken {A} (P P' : ApplyContext → Prop) (Q Q' : A → ApplyContext → Prop) m1 m2 :
  (∀ c, P' c → P c) → (∀ a c, Q a c → Q' a c) → alike P m1 m2 Q → alike P' m1 m2 Q'.
Proof.
  intros HP HQ Hm s1 s2 c Hn HPc.
  destruct (Hm s1 s2 c Hn (HP _ HPc)) as (r & s1' & s2' & c' & R1 & R2 & Hn' & HQ').
  exists r, s1', s2', c'. split_and!; auto.
Qed.

Lemma alike_ret {A} P (a : A) (Q : A → ApplyContext → Prop) :
  (∀ c, P c → Q a c) → alike P (pret a) (pret a) Q.
Proof.
  intros HQ s1 s2 c Hn HP. exists (Ok a), s1, s2, c. split_and!; try done.
  intros ? [= <-]. by apply HQ.
Qed.

Lemma alike_fail {A} P x (Q : A → ApplyContext → Prop) : alike P (pfail x) (pfail x) Q.
Proof. intros s1 s2 c Hn HP. by exists (Err x), s1, s2, c. Qed.

Lemma alike_lift {A} P (r : MvccResult A) (Q : A → ApplyContext → Prop) :
  (∀ a c, P c → Q a c) → alike P (plift r) (plift r) Q.
Proof. intros HQ s1 s2 c Hn HP. exists r, s1, s2, c. split_and!; try done. auto. Qed.

Lemma alike_modify P f (Q : () → ApplyContext → Prop) :
  (∀ c, P c → Q () (f c)) → alike P (xmodify f) (xmodify f) Q.
Proof.
  intros HQ s1 s2 c Hn HP. exists (Ok ()), s1, s2, (f c). split_and!; try done.
  intros [] _. by apply HQ.
Qed.

Lemma alike_ctx {A} P (k1 k2 : ApplyContext → prog _ MvccError A) Q :
  (∀ c, P c → alike (λ d, d = c) (k1 c) (k2 c) Q) →
  alike P (let* c := xctx in k1 c) (let* c := xctx in k2 c) Q.
Proof. intros Hk s1 s2 c Hn HP. by apply (Hk c HP s1 s2 c Hn). Qed.

Lemma alike_restore {A} P idx from (m1 : prog _ _ A) (m2 : prog _ _ A) Q :
  alike P m1 m2 Q → alike P (or_restore idx from m1) (or_restore idx from m2) Q.
Proof.
  intros Hm s1 s2 c Hn HP. destruct (Hm s1 s2 c Hn HP) as (r & s1' & s2' & c' & R1 & R2 & Hn' & HQ).
  unfold or_restore. rewrite R1, R2. destruct r as [a|x].
  - by exists (Ok a), s1', s2', c'.
  - by exists (Err x), s1', s2', (restore_index idx from c').
Qed.

(** A cached index is under its key, with its key's latest record beside it. *)
Definition ctx_light (c : ApplyContext) : Prop :=
  ∀ k x, idx_cache c !! k = Some x → idx_key x = k ∧ is_Some (latest_record_cache c !! k).

Lemma ctx_inv_light i snap c base bound : ctx_inv i snap c base bound → ctx_light c.
Proof.
  intros Hc k x Hx. split; [by apply (cx_key _ _ _ _ _ Hc k x)|].
  pose proof (cx_latest _ _ _ _ _ Hc k) as Hl. destruct (latest_record_cache c !! k); [done|].
  congruence.
Qed.

(** What [take_index] took. *)
Definition taken (key : bytes) (a : KeyIndex * bool) (c : ApplyContext) : Prop :=
  ctx_light c ∧
  if a.2 then idx_key a.1 = key ∧ is_Some (latest_record_cache c !! key)
  else a.1 = default (KeyIndex_new key) (index_get (index st1) key).

Lemma alike_take key : alike ctx_light (take_index key) (take_index key) (taken key).
Proof.
  intros s1 s2 c Hn Hc. unfold take_index. destruct (idx_cache c !! key) as [x|] eqn:Hx.
  - eexists _, s1, s2, _. split_and!; [done..|]. intros a [= <-]. split; [|by apply Hc].
    intros k y. cbn [idx_cache set_idx_cache latest_record_cache].
    intros [_ Hy]%lookup_delete_Some. by apply Hc.
  - destruct Hn as (v1 & o1 & v2 & o2 & -> & -> & Hv).
    cbn [index st_with set_ops set_values]. rewrite <- (twins_index _ _ Htw).
    eexists _, _, _, _. split_and!; [done..| |].
    + by exists v1, o1, v2, o2.
    + by intros a [= <-].
Qed.

Lemma index_get_gens i key :
  generations (default (KeyIndex_new key) (index_get i key)) = idx_gens i key.
Proof. unfold index_get, idx_gens. by destruct (index_map i !! key). Qed.

Lemma alike_latest key a :
  is_live a.1 = true →
  alike (taken key a)
    (let* c := xctx in xlift (latest_record_in snap1 c key a.1))
    (let* c := xctx in xlift (latest_record_in snap2 c key a.1))
    (λ _, taken key a).
Proof.
  intros Hlive s1 s2 c Hn Ht. unfold pbind, xctx, xlift.
  destruct (latest_record_cache c !! key) as [r|] eqn:Hr.
  { unfold latest_record_in. rewrite Hr. eexists _, s1, s2, c. split_and!; [done..|]. auto. }
  destruct Ht as [Hl Ht]. destruct a as [x [|]]; cbn [fst snd] in *.
  { destruct Ht as [_ Hs]. rewrite Hr in Hs. by destruct Hs. }
  destruct Hn as (v1 & o1 & v2 & o2 & -> & -> & Hv1 & Hv2).
  set (base := current_rev (write_state st1)).
  assert (∀ snap, latest_record_cache c = latest_record_cache c ∧
    latest_record_in (E := E1) snap c key x = latest_record_in snap ApplyContext_default key x)
    as Hdef1 by (intros snap; split; [done|]; unfold latest_record_in; by rewrite Hr).
  assert (∀ snap,
    latest_record_in (E := E2) snap c key x = latest_record_in snap ApplyContext_default key x)
    as Hdef2 by (intros snap; unfold latest_record_in; by rewrite Hr).
  assert (generations x = idx_gens (index st1) key) as Hx by (rewrite Ht; apply index_get_gens).
  destruct (latest_record_in_ok st1 v1 o1 (index st1) snap1 ApplyContext_default
    ApplyContext_default base (mkRev (base + 1) 0) base key x
    (ctx_inv_default _ _ _ _ (si_core _ (tw_left _ _ Htw))) Hv1 eq_refl Hx Hlive) as (w1 & R1 & Hw1).
  pose proof (twins_index _ _ Htw) as Hi. rewrite Hi in Hx.
  set (base2 := current_rev (write_state st2)).
  destruct (latest_record_in_ok st2 v2 o2 (index st2) snap2 ApplyContext_default
    ApplyContext_default base2 (mkRev (base2 + 1) 0) base2 key x
    (ctx_inv_default _ _ _ _ (si_core _ (tw_right _ _ Htw))) Hv2 eq_refl Hx Hlive) as (w2 & R2 & Hw2).
  destruct (Hdef1 snap1) as [_ ->]. rewrite Hdef2, R1, R2.
  change (ctx_gens ?i ApplyContext_default) with (idx_gens i).
  change (apply_batch (batch ApplyContext_default) ?s) with s. unfold snap1, snap2.
  rewrite (twins_live _ _ key Htw). eexists _, _, _, c. split_and!; [done..| |done].
  by exists w1, o1, w2, o2.
Qed.

(** The record before a put or a delete. *)
Lemma alike_prev key a :
  alike (taken key a)
    (if is_live a.1
     then or_restore a.1 a.2 (let* c := xctx in xlift (latest_record_in snap1 c key a.1))
     else pret None)
    (if is_live a.1
     then or_restore a.1 a.2 (let* c := xctx in xlift (latest_record_in snap2 c key a.1))
     else pret None)
    (λ _, taken key a).
Proof.
  destruct (is_live a.1) eqn:Hl; [by apply alike_restore, alike_latest|]. by apply alike_ret.
Qed.

Lemma ctx_light_stage key x rec c f :
  ctx_light c → idx_key x = key →
  ctx_light (push_event f (set_latest_record_cache (<[key := rec]> (latest_record_cache c))
    (set_idx_cache (<[key := x]> (idx_cache c)) c))).
Proof.
  intros Hc Hx k y. cbn [idx_cache set_idx_cache latest_record_cache set_latest_record_cache
    push_event set_pending_events].
  destruct (decide (key = k)) as [->|Hk].
  - rewrite !lookup_insert_eq. intros [= <-]. by eauto.
  - rewrite !lookup_insert_ne by done. apply Hc.
Qed.

Lemma ctx_light_batch b c : ctx_light c → ctx_light (set_batch b c).
Proof. done. Qed.

Lemma taken_key key a c : taken key a c → idx_key a.1 = key.
Proof.
  intros [_ Ht]. destruct a.2; [by destruct Ht|]. rewrite Ht. unfold index_get.
  by destruct (index_map (index st1) !! key).
Qed.

Lemma restore_light key a x c :
  taken key a c → idx_key x = key → ctx_light (restore_index x a.2 c).
Proof.
  intros [Hl Ht] Hx. unfold restore_index. destruct a.2; [|done]. destruct Ht as [_ Hs].
  rewrite Hx. intros k y. cbn. destruct (decide (key = k)) as [->|Hk].
  - rewrite lookup_insert_eq. by intros [= <-].
  - rewrite lookup_insert_ne by done. apply Hl.
Qed.

(** The last steps of a put and of a delete. *)
Lemma alike_stage {A} key x rec ev (a : A) :
  idx_key x = key →
  let m {E} : prog (Inner E * ApplyContext) MvccError A :=
    let* _ := xmodify (λ c, set_idx_cache (<[key := x]> (idx_cache c)) c) in
    let* _ := xmodify (λ c,
                set_latest_record_cache (<[key := rec]> (latest_record_cache c)) c) in
    let* _ := xmodify (push_event ev) in
    pret a in
  alike ctx_light m m (λ _, ctx_light).
Proof.
  intros Hx m s1 s2 c Hn Hc. eexists (Ok a), s1, s2, _. split_and!; [done..|].
  intros _ _. exact (ctx_light_stage key x rec c ev Hc Hx).
Qed.

Lemma idx_key_put x rev : idx_key (record_put x rev).1 = idx_key x.
Proof. unfold record_put. repeat case_match; done. Qed.

Lemma idx_key_delete x rev : idx_key (record_delete x rev).1 = idx_key x.
Proof. unfold record_delete. repeat case_match; done. Qed.

Lemma alike_put rev key value lease iv il pk :
  alike ctx_light (put_record snap1 rev key value lease iv il pk)
    (put_record snap2 rev key value lease iv il pk) (λ _, ctx_light).
Proof.
  unfold put_record. eapply alike_bind; [apply alike_take|]. intros [x from].
  eapply alike_bind; [apply (alike_prev key (x, from))|]. intros prev.
  destruct (_ && _).
  { eapply alike_bind; [|intros; apply alike_fail]. apply (alike_modify _ _ anything). done. }
  pose proof (idx_key_put x rev) as Hk. destruct (record_put x rev) as [x' [ver created]].
  cbn [fst] in Hk.
  apply (alike_weaken (λ c, ctx_light c ∧ idx_key x' = key) _ (λ _, ctx_light)); [|done|].
  { intros c Ht. split; [apply Ht|]. rewrite Hk. by apply (taken_key key (x, from) c). }
  eapply (alike_bind _ (λ _ c, ctx_light c ∧ idx_key x' = key)).
  { by apply alike_restore, alike_lift. }
  intros b. eapply (alike_bind _ (λ _ c, ctx_light c ∧ idx_key x' = key)).
  { by apply alike_modify. }
  intros []. eapply (alike_bind _ (λ _ c, ctx_light c ∧ idx_key x' = key)).
  { destruct (_ =? _); [by apply alike_ret|].
    eapply (alike_bind _ (λ _ c, ctx_light c ∧ idx_key x' = key)).
    - destruct (_ =? _); [by apply alike_ret|]. by apply alike_modify.
    - intros _. destruct (_ =? _); [by apply alike_ret|]. by apply alike_modify. }
  intros _ s1 s2 c Hn [Hc Hx]. by apply (alike_stage key x' _ _ _ Hx s1 s2 c Hn Hc).
Qed.

Lemma alike_delete_key rev key pk res :
  alike ctx_light (delete_key snap1 rev key pk res) (delete_key snap2 rev key pk res)
    (λ _, ctx_light).
Proof.
  unfold delete_key. eapply alike_bind; [apply alike_take|]. intros [x from].
  eapply alike_bind; [apply (alike_prev key (x, from))|]. intros prev.
  pose proof (idx_key_delete x rev) as Hk. destruct (record_delete x rev) as [x' closed].
  cbn [fst] in Hk. destruct closed; cbn [negb].
  2:{ eapply (alike_bind _ (λ _, ctx_light)); [|intros; by apply alike_ret].
      apply alike_modify. intros c Ht. apply (restore_light key (x, from)); [done|].
      rewrite Hk. by apply (taken_key key (x, from) c). }
  apply (alike_weaken (λ c, ctx_light c ∧ idx_key x' = key) _ (λ _, ctx_light)); [|done|].
  { intros c Ht. split; [apply Ht|]. rewrite Hk. by apply (taken_key key (x, from) c). }
  eapply (alike_bind _ (λ _ c, ctx_light c ∧ idx_key x' = key)).
  { by apply alike_restore, alike_lift. }
  intros b. eapply (alike_bind _ (λ _ c, ctx_light c ∧ idx_key x' = key)).
  { by apply alike_modify. }
  intros []. eapply (alike_bind _ (λ _ c, ctx_light c ∧ idx_key x' = key)).
  { destruct prev; [destruct (_ =? _); [by apply alike_ret|by apply alike_modify]|].
    by apply alike_ret. }
  intros _ s1 s2 c Hn [Hc Hx]. by apply (alike_stage key x' _ _ _ Hx s1 s2 c Hn Hc).
Qed.

Lemma alike_delete_keys rev keys pk res :
  alike ctx_light (delete_keys snap1 rev keys pk res) (delete_keys snap2 rev keys pk res)
    (λ _, ctx_light).
Proof.
  revert res. induction keys as [|k keys IH]; intros res; cbn [delete_keys].
  - by apply alike_ret.
  - eapply alike_bind; [apply alike_delete_key|]. intros r. apply IH.
Qed.

Lemma alike_xlift {A} P (m1 : prog (Inner E1) MvccError A) (m2 : prog (Inner E2) MvccError A) Q :
  (∀ s1 s2, near s1 s2 → ∃ a s1' s2', m1 s1 = (Ok a, s1') ∧ m2 s2 = (Ok a, s2') ∧ near s1' s2') →
  (∀ a c, P c → Q a c) → alike P (xlift m1) (xlift m2) Q.
Proof.
  intros Hm HQ s1 s2 c Hn HP. destruct (Hm s1 s2 Hn) as (a & s1' & s2' & R1 & R2 & Hn').
  unfold xlift. rewrite R1, R2. exists (Ok a), s1', s2', c. split_and!; auto.
Qed.

Lemma near_count s1 s2 p1 p2 : near s1 s2 → near (set_ops p1 s1) (set_ops p2 s2).
Proof. intros (v1 & o1 & v2 & o2 & -> & -> & Hv). by exists v1, p1, v2, p2. Qed.

Lemma alike_one rev m :
  alike ctx_light (apply_one snap1 rev m) (apply_one snap2 rev m) (λ _, ctx_light).
Proof.
  unfold apply_one. eapply alike_bind.
  - destruct m; cbn [apply_one_uncounted]; [apply alike_put|].
    eapply (alike_bind _ (λ _, ctx_light)).
    { intros s1 s2 c Hn Hc. pose proof Hn as (v1 & o1 & v2 & o2 & -> & -> & _).
      cbn [index st_with set_ops set_values]. rewrite <- (twins_index _ _ Htw).
      eexists (Ok _), _, _, c. split_and!; [done..|]. by intros. }
    intros ks. eapply alike_bind; [apply alike_delete_keys|]. intros res. by apply alike_ret.
  - intros out. eapply (alike_bind _ (λ _, ctx_light)); [|intros; by apply alike_ret].
    apply alike_xlift; [|done]. intros s1 s2 Hn.
    destruct m; unfold count_put, count_delete, pmodify; eexists (), _, _;
      (split_and!; [done..|]); by apply near_count.
Qed.

Lemma alike_loop main sub ms rs p :
  alike ctx_light (apply_loop snap1 main sub ms rs p) (apply_loop snap2 main sub ms rs p)
    (λ _, ctx_light).
Proof.
  revert sub rs p. induction ms as [|m ms IH]; intros sub rs p; cbn [apply_loop].
  - by apply alike_ret.
  - eapply alike_bind; [apply alike_one|]. intros [r produced]. apply IH.
Qed.
End context.

(** ** The same for transactions *)

Section txn_twin.
Context {E1 E2 : Type} `{KvStoreLaws E1} `{KvStoreLaws E2}.
Context `{BincodeLaws KvRecord, BincodeLaws KeyIndex}.
Context (st1 : Inner E1) (st2 : Inner E2) (Htw : twins st1 st2).
Context (env : TxnEnv) (state : WriteState).

Let snap1 := contents (engine st1).
Let snap2 := contents (engine st2).
Let base := current_rev (write_state st1).
Let lc := te_current env.
Context (Hlc : base ≤ lc < i64_max).
Context (Hstate : current_rev state = lc ∧ compact_rev state = te_compact env).
Context (Hstart : abs_rel (te_start env) (idx_gens (index st1)) snap1).
Context (Hpast : ∀ t key range_end, t ≤ base →
  view_spec (λ k, read_rec (idx_gens (index st1)) snap1 k t) key range_end
    (te_past env t key range_end)).

Let base_eq : current_rev (write_state st2) = base.
Proof. unfold base. by rewrite (twins_write_state _ _ Htw). Qed.

Let Hlc2 : current_rev (write_state st2) ≤ lc < i64_max.
Proof. rewrite base_eq. exact Hlc. Qed.

Let Hstart2 : abs_rel (te_start env) (idx_gens (index st2)) snap2.
Proof. exact (twins_abs _ _ _ Htw Hstart). Qed.

Let Hpast2 t key range_end :
  t ≤ current_rev (write_state st2) →
  view_spec (λ k, read_rec (idx_gens (index st2)) snap2 k t) key range_end
    (te_past env t key range_end).
Proof.
  rewrite base_eq. intros Ht. destruct (Hpast t key range_end Ht) as [Hs Hl].
  split; [done|]. intros k rec. rewrite Hl. unfold snap1, snap2. by rewrite (twins_read _ _ k t Htw).
Qed.

(** Both contexts hold what the specification's state says. *)
Definition both (s : TxnState) (ev0 : list MvccEvent) (m0 : list (Z * nat)) (c : ApplyContext)
    : Prop :=
  txn_rel st1 env c s ev0 m0 ∧ txn_rel st2 env c s ev0 m0.

Definition reached (n : nat) (s : TxnState) ev0 m0 {A} (a : A * TxnExec) (c : ApplyContext)
    : Prop :=
  ∃ s', a.2 = txn_exec env s' ∧ both s' ev0 m0 c ∧ ts_sub s' ≤ ts_sub s + Z.of_nat n.

Lemma both_light s ev0 m0 c : both s ev0 m0 c → ctx_light c.
Proof. intros [Hr _]. eapply ctx_inv_light. apply (tr_inv _ _ _ _ _ _ Hr). Qed.

Lemma alike_mutation m s ev0 m0 :
  mutation_wf m → ts_sub s < i64_max →
  alike st1 st2 (both s ev0 m0) (txn_op snap1 state (txn_exec env s) (OpMutation m))
    (txn_op snap2 state (txn_exec env s) (OpMutation m)) (reached 1 s ev0 m0).
Proof.
  intros Hm Hsub s1 s2 c Hn HP.
  assert (alike st1 st2 ctx_light (txn_op snap1 state (txn_exec env s) (OpMutation m))
    (txn_op snap2 state (txn_exec env s) (OpMutation m)) anything) as Hal.
  { cbn [txn_op]. eapply alike_bind; [by apply alike_one|]. intros [r p]. by apply alike_ret. }
  destruct (Hal s1 s2 c Hn (both_light _ _ _ _ HP)) as (r & s1' & s2' & c' & R1 & R2 & Hn' & _).
  exists r, s1', s2', c'. split_and!; [done..|]. intros a ->.
  destruct Hn as (v1 & o1 & v2 & o2 & -> & -> & Hv1 & Hv2), HP as [Hr1 Hr2].
  pose proof (txn_mutation_ok st1 env state (tw_left _ _ Htw) Hlc v1 o1 c s ev0 m0 m Hv1 Hr1 Hm Hsub) as U1.
  pose proof (txn_mutation_ok st2 env state (tw_right _ _ Htw) Hlc2 v2 o2 c s ev0 m0 m Hv2 Hr2 Hm Hsub) as U2.
  destruct (spec_txn_mutation env s m) as [[res s']|x].
  - destruct U1 as (w1 & p1 & c1 & U1 & _ & Ht1 & Hs1), U2 as (w2 & p2 & c2 & U2 & _ & Ht2 & _).
    unfold snap1, snap2 in *. rewrite R1 in U1. rewrite R2 in U2. simplify_eq.
    exists s'. split_and!; [done|by split|]. cbn. lia.
  - destruct U1 as (w1 & p1 & c1 & U1 & _). unfold snap1 in *. rewrite R1 in U1. done.
Qed.

Lemma alike_txn_range r s ev0 m0 :
  (base = lc ∨ ro_revision r = 0) →
  alike st1 st2 (both s ev0 m0) (txn_op snap1 state (txn_exec env s) (OpRange r))
    (txn_op snap2 state (txn_exec env s) (OpRange r)) (reached 0 s ev0 m0).
Proof.
  intros Hp s1 s2 c Hn HP.
  destruct Hn as (v1 & o1 & v2 & o2 & -> & -> & Hv1 & Hv2). pose proof HP as [Hr1 Hr2].
  destruct (txn_range_ok st1 env state (tw_left _ _ Htw) Hstate Hpast
    v1 o1 c s ev0 m0 r Hv1 Hr1 Hp) as (w1 & p1 & U1 & Hw1).
  rewrite <- base_eq in Hp.
  destruct (txn_range_ok st2 env state (tw_right _ _ Htw) Hstate Hpast2
    v2 o2 c s ev0 m0 r Hv2 Hr2 Hp) as (w2 & p2 & U2 & Hw2).
  cbn [txn_op txn_exec ex_produced_any ex_main]. unfold pbind, xctx, xlift, snap1, snap2.
  rewrite U1, U2. destruct (spec_txn_range env s r) as [res|x].
  - eexists (Ok _), _, _, c. split_and!; [done..| |].
    + by exists w1, p1, w2, p2.
    + intros a [= <-]. exists s. split_and!; [done|done|]. lia.
  - eexists (Err _), _, _, c. split_and!; [done..| |done]. by exists w1, p1, w2, p2.
Qed.

(** The statement proved of every operation. *)
Definition op_alike (op : TxnOp) : Prop :=
  op_ok op → (base = lc ∨ op_plain op) → ∀ s ev0 m0,
  ts_sub s + Z.of_nat (op_size op) ≤ i64_max →
  alike st1 st2 (both s ev0 m0) (txn_op snap1 state (txn_exec env s) op)
    (txn_op snap2 state (txn_exec env s) op) (reached (op_size op) s ev0 m0).

Lemma alike_txn_ops l :
  Forall op_alike l → ops_ok l → (base = lc ∨ ops_plain l) → ∀ s ev0 m0,
  ts_sub s + Z.of_nat (ops_size l) ≤ i64_max →
  alike st1 st2 (both s ev0 m0) (txn_ops snap1 state (txn_exec env s) l)
    (txn_ops snap2 state (txn_exec env s) l) (reached (ops_size l) s ev0 m0).
Proof.
  induction 1 as [|op l Hop Hl IH]; intros Hok Hplain s ev0 m0 Hsub.
  { cbn [txn_ops]. apply alike_ret. intros c Hc. exists s. split_and!; [done..|]. lia. }
  unfold ops_size in *. cbn [txn_ops sum_list_with] in *. destruct Hok as [Ho Hok].
  assert (base = lc ∨ op_plain op) as Hp1 by (destruct Hplain as [?|[??]]; auto).
  assert (base = lc ∨ ops_plain l) as Hp2 by (destruct Hplain as [?|[??]]; auto).
  eapply alike_bind; [apply (Hop Ho Hp1 s ev0 m0); lia|]. intros [res e] u1 u2 c Hn Hreach.
  destruct Hreach as (s' & He & Hb & Hs'). cbn [snd] in He. subst e.
  enough (alike st1 st2 (both s' ev0 m0)
    (let* (rest, exec) := txn_ops snap1 state (txn_exec env s') l in pret (res :: rest, exec))
    (let* (rest, exec) := txn_ops snap2 state (txn_exec env s') l in pret (res :: rest, exec))
    (reached (op_size op + sum_list_with op_size l) s ev0 m0)) as Hgo by by apply Hgo.
  eapply alike_bind; [apply (IH Hok Hp2); lia|]. intros [rest e]. apply alike_ret.
  intros d (s2 & Hd & Hb2 & Hs2). exists s2. split_and!; [done..|]. lia.
Qed.

Lemma alike_compares cs P (Q : bool → ApplyContext → Prop) :
  (∀ a c, P c → Q a c) →
  alike st1 st2 P (xlift (evaluate_compares snap1 ApplyContext_default cs))
    (xlift (evaluate_compares snap2 ApplyContext_default cs)) Q.
Proof.
  intros HQ. apply alike_xlift; [|done].
  intros s1 s2 (v1 & o1 & v2 & o2 & -> & -> & Hv1 & Hv2).
  destruct (evaluate_compares_ok st1 snap1 ApplyContext_default base base (mkRev (base + 1) 0)
    (ctx_inv_default _ _ _ _ (si_core _ (tw_left _ _ Htw))) (si_index _ (tw_left _ _ Htw))
    (te_start env) cs v1 o1 Hstart Hv1) as (w1 & R1 & Hw1).
  set (base2 := current_rev (write_state st2)).
  destruct (evaluate_compares_ok st2 snap2 ApplyContext_default base2 base2 (mkRev (base2 + 1) 0)
    (ctx_inv_default _ _ _ _ (si_core _ (tw_right _ _ Htw))) (si_index _ (tw_right _ _ Htw))
    (te_start env) cs v2 o2 Hstart2 Hv2) as (w2 & R2 & Hw2).
  rewrite R1, R2. eexists _, _, _. split_and!; [done..|]. by exists w1, o1, w2, o2.
Qed.

Lemma alike_txn_op op : op_alike op.
Proof.
  induction op as [r|m|cs succ fail Hs Hf] using txn_op_ind'; intros Hok Hplain s ev0 m0 Hsub.
  - eapply alike_weaken; [done| |by apply alike_txn_range].
    intros a c (s' & ? & ? & ?). exists s'. split_and!; [done..|]. lia.
  - apply alike_mutation; [done|]. cbn in Hsub. lia.
  - intros u1 u2 c Hn Hb. unfold snap1, snap2. rewrite !txn_op_nested.
    fold snap1 snap2.
    enough (alike st1 st2 (both s ev0 m0)
      (let* succeeded := xlift (evaluate_compares snap1 ApplyContext_default cs) in
       let* (results, exec) := txn_ops snap1 state (txn_exec env s)
                                 (if succeeded : bool then succ else fail) in
       pret (ResTxn succeeded results, exec))
      (let* succeeded := xlift (evaluate_compares snap2 ApplyContext_default cs) in
       let* (results, exec) := txn_ops snap2 state (txn_exec env s)
                                 (if succeeded : bool then succ else fail) in
       pret (ResTxn succeeded results, exec))
      (reached (op_size (OpTxn cs succ fail)) s ev0 m0)) as Hgo by by apply Hgo.
    eapply (alike_bind _ _ _ (λ _, both s ev0 m0)); [by apply alike_compares|]. intros ok.
    destruct Hok as [Hok1 Hok2].
    assert (ops_size (if ok then succ else fail) ≤ op_size (OpTxn cs succ fail))%nat as Hsz
      by (unfold ops_size; cbn; destruct ok; lia).
    eapply alike_bind.
    + apply (alike_txn_ops (if ok then succ else fail)); [by destruct ok..| |lia].
      destruct Hplain as [?|[??]]; [by left|right; by destruct ok].
    + intros [rs e]. apply alike_ret. intros d (s' & Hd & Hb' & Hs'). exists s'.
      split_and!; [done..|]. lia.
Qed.

Lemma alike_ops l s ev0 m0 :
  ops_ok l → (base = lc ∨ ops_plain l) → ts_sub s + Z.of_nat (ops_size l) ≤ i64_max →
  alike st1 st2 (both s ev0 m0) (txn_ops snap1 state (txn_exec env s) l)
    (txn_ops snap2 state (txn_exec env s) l) (reached (ops_size l) s ev0 m0).
Proof.
  intros Hok Hp Hsub. apply alike_txn_ops; [|done..]. apply Forall_forall. intros op _. apply alike_txn_op.
Qed.
End txn_twin.

(** ** The same for a run of requests in one commit *)

Section many_twin.
Context {E1 E2 : Type} `{KvStoreLaws E1} `{KvStoreLaws E2}.
Context `{BincodeLaws KvRecord, BincodeLaws KeyIndex}.
Context (st1 : Inner E1) (st2 : Inner E2) (Htw : twins st1 st2) (A0 : Abs).

Let snap1 := contents (engine st1).
Let snap2 := contents (engine st2).
Let base := current_rev (write_state st1).
Context (HA0 : abs_rel A0 (idx_gens (index st1)) snap1).

Let HA2 : abs_rel A0 (idx_gens (index st2)) snap2.
Proof. exact (twins_abs _ _ _ Htw HA0). Qed.

Definition both_many (s : ManyState) (c : ApplyContext) : Prop :=
  many_rel st1 c s ∧ many_rel st2 c s.

Definition reached_many (s : ManyState) {A} (a : A * WriteState) (c : ApplyContext) : Prop :=
  ∃ s', a.2 = many_local st1 s' ∧ both_many s' c ∧ ms_rev s' ≤ ms_rev s + 1.

Lemma alike_item_mutations ms local :
  alike st1 st2 ctx_light (many_item snap1 local (ItemMutations ms))
    (many_item snap2 local (ItemMutations ms)) anything.
Proof.
  destruct ms as [|m ms]; [by apply alike_ret|]. cbn [many_item]. set (l := m :: ms).
  assert (alike st1 st2 ctx_light (apply_inner snap1 local l) (apply_inner snap2 local l) anything)
    as Hin.
  { unfold apply_inner. eapply alike_bind; [by apply alike_loop|]. intros [rs p].
    by apply alike_ret. }
  intros s1 s2 c Hn Hc. destruct (Hin s1 s2 c Hn Hc) as (r & s1' & s2' & c' & R1 & R2 & Hn' & _).
  rewrite R1, R2. destruct r as [[[rev rs] [|]]|[]]; eexists _, _, _, _; split_and!; done.
Qed.

Lemma alike_item_txn cs succ fail s :
  item_ok (ItemTxn cs succ fail) → ms_rev s < i64_max →
  alike st1 st2 (both_many s) (many_item snap1 (many_local st1 s) (ItemTxn cs succ fail))
    (many_item snap2 (many_local st1 s) (ItemTxn cs succ fail)) anything.
Proof.
  intros (Hitem & Hok1 & Hok2 & Hsz1 & Hsz2) Hmax. cbn [many_item].
  apply alike_ctx. intros c [Hr1 Hr2].
  pose proof (my_rev _ _ _ Hr1) as Hrev. fold base in Hrev.
  pose proof (si_revs _ (tw_left _ _ Htw)) as (Hrevs & _). fold base in Hrevs.
  set (lc := ms_rev s) in *.
  eapply (alike_bind st1 st2 _ (λ _ d, d = c)).
  { apply alike_xlift; [|done]. intros s1 s2 (v1 & o1 & v2 & o2 & -> & -> & Hv1 & Hv2).
    destruct (evaluate_compares_ok st1 snap1 c base base _ (my_inv _ _ _ Hr1)
      (si_index _ (tw_left _ _ Htw)) (ms_abs s) cs v1 o1 (my_abs _ _ _ Hr1) Hv1) as (w1 & R1 & Hw1).
    destruct (evaluate_compares_ok st2 snap2 c _ _ _ (my_inv _ _ _ Hr2)
      (si_index _ (tw_right _ _ Htw)) (ms_abs s) cs v2 o2 (my_abs _ _ _ Hr2) Hv2) as (w2 & R2 & Hw2).
    rewrite R1, R2. eexists _, _, _. split_and!; [done..|]. by exists w1, o1, w2, o2. }
  intros ok. set (branch := if ok then succ else fail).
  assert (i64_wrap (current_rev (many_local st1 s) + 1) = lc + 1) as ->
    by (apply i64_wrap_id; unfold many_local; cbn; fold lc; ints).
  assert (plain_ops branch = true) as Hplain by by eapply item_txn_plain.
  set (env := mkEnv A0 lc (compact_rev (write_state st1)) (store_view st1)).
  set (s0 := mkTxnState (ms_abs s) 0 false []).
  assert (txn_rel st1 env c s0 (pending_events c) (event_marks c)) as T1.
  { split; try done; [apply (my_inv _ _ _ Hr1)|apply (my_abs _ _ _ Hr1)|by rewrite app_nil_r]. }
  assert (txn_rel st2 env c s0 (pending_events c) (event_marks c)) as T2.
  { split; try done; [apply (my_inv _ _ _ Hr2)|apply (my_abs _ _ _ Hr2)|by rewrite app_nil_r]. }
  change (mkExec (lc + 1) 0 false) with (txn_exec env s0).
  apply (alike_weaken st1 st2 (both st1 st2 env s0 (pending_events c) (event_marks c)) _ anything);
    [by intros d ->|done|].
  eapply (alike_bind st1 st2 _ anything).
  - eapply alike_weaken; [done| |apply (alike_ops st1 st2 Htw env (many_local st1 s))]; try done.
    + intros t key range_end _. apply store_view_spec.
    + by destruct ok.
    + right. by apply plain_ops_plain.
    + unfold branch. destruct ok; cbn; lia.
  - intros [res e]. eapply (alike_bind st1 st2 _ anything).
    + apply alike_xlift; [|done]. intros t1 t2 Ht. unfold count_txn, pmodify.
      eexists (), _, _. split_and!; [done..|]. by apply near_count.
    + intros []. eapply (alike_bind st1 st2 _ anything); [|intros; by apply alike_ret].
      destruct (ex_produced_any e); [|by apply alike_ret].
      eapply (alike_bind st1 st2 _ anything); [by apply alike_modify|]. intros. by apply alike_ret.
Qed.

Lemma alike_item item s :
  item_ok item → ms_rev s < i64_max →
  alike st1 st2 (both_many s) (many_item snap1 (many_local st1 s) item)
    (many_item snap2 (many_local st1 s) item) (reached_many s).
Proof.
  intros Hitem Hmax s1 s2 c Hn HP.
  assert (alike st1 st2 (both_many s) (many_item snap1 (many_local st1 s) item)
    (many_item snap2 (many_local st1 s) item) anything) as Hal.
  { destruct item; [|by apply alike_item_txn].
    eapply alike_weaken; [|done|apply alike_item_mutations].
    intros d [Hd _]. eapply ctx_inv_light, (my_inv _ _ _ Hd). }
  destruct (Hal s1 s2 c Hn HP) as (r & s1' & s2' & c' & R1 & R2 & Hn' & _).
  exists r, s1', s2', c'. split_and!; [done..|]. intros a ->.
  destruct Hn as (v1 & o1 & v2 & o2 & -> & -> & Hv1 & Hv2), HP as [Hr1 Hr2].
  destruct (many_item_ok st1 A0 (tw_left _ _ Htw) HA0 item v1 o1 c s Hitem Hv1 Hr1 Hmax)
    as (out & t & w1 & p1 & c1 & Hs1 & U1 & _ & Ht1 & Hle).
  destruct (many_item_ok st2 A0 (tw_right _ _ Htw) HA2 item v2 o2 c s Hitem Hv2 Hr2 Hmax)
    as (out2 & t2 & w2 & p2 & c2 & Hs2 & U2 & _ & Ht2 & _).
  rewrite (twins_write_state _ _ Htw) in Hs1. rewrite Hs1 in Hs2. simplify_eq.
  assert (many_local st2 s = many_local st1 s) as Hloc
    by (unfold many_local; by rewrite (twins_write_state _ _ Htw)).
  rewrite Hloc in U2. unfold snap1, snap2 in *. rewrite R1 in U1. rewrite R2 in U2. simplify_eq.
  exists t2. split_and!; [cbn; unfold many_local; by rewrite (twins_write_state _ _ Htw)|by split|lia].
Qed.

Lemma alike_many items s :
  Forall item_ok items → ms_rev s + Z.of_nat (length items) ≤ i64_max →
  alike st1 st2 (both_many s) (many_loop snap1 (many_local st1 s) items)
    (many_loop snap2 (many_local st1 s) items) anything.
Proof.
  intros Hitems. revert s. induction Hitems as [|item items Hitem Hitems IH]; intros s Hmax;
    cbn [many_loop length] in *; [by apply alike_ret|].
  eapply alike_bind; [apply alike_item; [done|lia]|].
  intros [out local] u1 u2 c Hn (s' & Hl & Hb & Hle). cbn [snd] in Hl. subst local.
  enough (alike st1 st2 (both_many s')
    (let* (rest, local) := many_loop snap1 (many_local st1 s') items in pret (out :: rest, local))
    (let* (rest, local) := many_loop snap2 (many_local st1 s') items in pret (out :: rest, local))
    anything) as Hgo by by apply Hgo.
  eapply alike_bind; [apply (IH s'); lia|]. intros [rest local]. by apply alike_ret.
Qed.
End many_twin.
