(* ===== verification/StorePlan.v ===== *)
(** * What a request plans

    [planned]: a request either answers from what the store holds, or plans
    a batch, which is committed with the staged raft metadata behind it; the
    answer and the batch are functions of the replicated rows.  One lemma
    per request: twins plan the same. *)

From S2P Require Import Prelude Revision Record KvStore Lease Cache Auth Store StoreCore.
From S2P Require Import StoreSpec StoreInv StoreApply StoreCommit StoreOpen StoreWrite StoreRead.
From S2P Require Import StoreTxn StoreMany StoreCompact StoreSide StoreLease StoreMeta StoreTwin.

Section planned.
Context {E : Type} `{KvStoreLaws E} `{BincodeLaws KvRecord, BincodeLaws KeyIndex}.

(** The batch committed: what the request planned, then the metadata. *)
Definition with_meta (st : Inner E) (b : WriteBatch) : WriteBatch :=
  b ++ put_rows TABLE_META (pending_raft_meta st).

(** Nothing reached the engine and nothing staged was lost. *)
Record idle (st st' : Inner E) : Prop := {
  id_inv : store_inv st';
  id_engine : engine st' = engine st;
  id_pending : pending_raft_meta st' = pending_raft_meta st
}.

Record took (st st' : Inner E) (b : WriteBatch) : Prop := {
  tk_inv : store_inv st';
  tk_rows : contents (engine st') = apply_batch (with_meta st b) (contents (engine st));
  tk_pending : pending_raft_meta st' = []
}.

(** The engine failed the batch: all of it is on disk, or nothing. *)
Definition broke (st st' : Inner E) (b : WriteBatch) : Prop :=
  contents (engine st') = contents (engine st) ∨
  contents (engine st') = apply_batch (with_meta st b) (contents (engine st)).

(** A batch that leaves a member's own rows alone, and puts eight-byte
    integers in the others of [mvcc_meta]. *)
Definition clean (b : WriteBatch) : Prop :=
  ∀ op, op ∈ b → op_table op = TABLE_META →
    ∃ k v, op = OpPut TABLE_META k v ∧ ¬ raft_key k ∧ length v = 8%nat.

(** What a store did with a request that answers [ans] and plans [p]. *)
Definition planned {A} (st : Inner E) (out : MvccResult A * Inner E) (ans : MvccResult A)
    (p : option WriteBatch) : Prop :=
  match p with
  | None => out.1 = ans ∧ idle st out.2
  | Some b =>
      is_ok ans = true ∧ clean b ∧
      match out.1 with
      | Ok _ => out.1 = ans ∧ took st out.2 b
      | Err x => (∃ y, x = Storage y) ∧ broke st out.2 b
      end
  end.

Lemma planned_idle {A} (st st' : Inner E) (r : MvccResult A) :
  store_inv st' → engine st' = engine st → pending_raft_meta st' = pending_raft_meta st →
  planned st (r, st') r None.
Proof. by intros. Qed.

Lemma clean_nil : clean [].
Proof. by intros op ?%elem_of_nil. Qed.

Lemma clean_app b1 b2 : clean b1 → clean b2 → clean (b1 ++ b2).
Proof. intros C1 C2 op [Hop|Hop]%elem_of_app; auto. Qed.

Lemma clean_meta k n : ¬ raft_key k → clean [OpPut TABLE_META k (be_bytes 8 n)].
Proof.
  intros Hk op ->%list_elem_of_singleton _. eexists _, _. split_and!; [done..|apply length_be_bytes].
Qed.

Lemma clean_other b : (∀ op, op ∈ b → op_table op ≠ TABLE_META) → clean b.
Proof. intros Hb op Hop Ht. by destruct (Hb op Hop). Qed.

Lemma clean_one op : op_table op ≠ TABLE_META → clean [op].
Proof. intros Ht. apply clean_other. by intros o ->%list_elem_of_singleton. Qed.

Lemma planned_commit {A} (st : Inner E) b o (a : A) (good bad : E → Inner E) :
  clean b →
  (∀ e, contents e = apply_batch (with_meta st b) (contents (engine st)) →
     took st (good e) b) →
  (∀ e, engine (bad e) = e) →
  planned st
    match commit (with_meta st b) o (engine st) with
    | (Ok _, e) => (Ok a, good e)
    | (Err x, e) => (Err (Storage x), bad e)
    end (Ok a) (Some b).
Proof.
  intros Hcl Hg Hb. destruct (commit _ _ _) as [[[]|x] e] eqn:Hc; (split; [done|]); (split; [done|]);
    cbn [fst snd].
  - apply commit_ok in Hc. auto.
  - split; [by eauto|]. unfold broke. rewrite Hb. by apply commit_err in Hc.
Qed.

(** The ops a context commits. *)
Definition ctx_ops (new_rev : Z) (c : ApplyContext) : WriteBatch :=
  batch c ++ index_ops (map_to_list (idx_cache c))
    ++ [OpPut TABLE_META META_KEY_CURRENT_REV (i64_to_be_bytes new_rev)].

Lemma ctx_ops_batch (st : Inner E) v o new_rev c :
  commit_batch (st_with st v o) new_rev c = with_meta st (ctx_ops new_rev c).
Proof. unfold commit_batch, with_meta, ctx_ops. by rewrite <- !app_assoc. Qed.

Lemma ctx_ops_clean i snap c base bound new_rev :
  ctx_inv i snap c base bound → clean (ctx_ops new_rev c).
Proof.
  intros Hc. unfold ctx_ops. apply clean_app; [|apply clean_app].
  - apply clean_other. intros op Hop. by destruct (cx_tables _ _ _ _ _ Hc op Hop) as [->|[->| ->]].
  - apply clean_other. intros op Hop. by rewrite (index_ops_table _ _ Hop).
  - apply clean_meta, not_raft_current.
Qed.

Lemma planned_ctx {A} (st : Inner E) v o new_rev c bound A' (a : A) (post : Inner E → Inner E) :
  store_inv st → coh st v →
  ctx_inv (index st) (contents (engine st)) c (current_rev (write_state st)) bound →
  rev_le bound (mkRev (new_rev + 1) 0) →
  current_rev (write_state st) < new_rev ≤ i64_max →
  abs_rel A' (ctx_gens (index st) c) (apply_batch (batch c) (contents (engine st))) →
  (∀ s, store_inv s → store_inv (post s) ∧ engine (post s) = engine s ∧
        pending_raft_meta (post s) = pending_raft_meta s) →
  planned st
    match commit_ctx new_rev c (st_with st v o) with
    | (Ok _, s) => (Ok a, post s)
    | (Err x, s) => (Err x, s)
    end (Ok a) (Some (ctx_ops new_rev c)).
Proof.
  intros Hst Hv Hc Hb Hn HA Hpost.
  pose proof (commit_ctx_ok (st_with st v o) new_rev c bound A' (store_inv_with st v o Hst Hv)
    Hc Hb Hn HA) as Hok.
  destruct (commit_ctx new_rev c (st_with st v o)) as [[[]|x] s]; (split; [done|]);
    (split; [by eapply ctx_ops_clean|]); cbn [fst snd].
  - destruct Hok as (e & -> & Hadv & He). split; [done|].
    destruct (Hpost _ (adv_inv _ _ _ _ Hadv)) as (Hi & Heng & Hp). split; [done|..].
    + rewrite Heng. cbn [engine committed]. rewrite He. by rewrite ctx_ops_batch.
    + by rewrite Hp.
  - destruct Hok as (y & -> & e & _ & -> & Hd). split; [by eauto|]. unfold broke.
    cbn [engine set_engine]. by rewrite ctx_ops_batch in Hd.
Qed.
End planned.

(** Twins that did the same are twins. *)
Section twins.
Context {E1 E2 : Type} `{KvStoreLaws E1} `{KvStoreLaws E2}.
Context `{BincodeLaws KvRecord, BincodeLaws KeyIndex}.

Lemma with_meta_same {E} `{KvStoreLaws E} (st : Inner E) b ts :
  store_inv st → same_rows (apply_batch (with_meta st b) ts) (apply_batch b ts).
Proof.
  intros Hst. unfold with_meta. rewrite apply_batch_app. apply same_rows_raft, (si_pending _ Hst).
Qed.

Lemma took_twins (st1 st1' : Inner E1) (st2 st2' : Inner E2) b :
  twins st1 st2 → took st1 st1' b → took st2 st2' b → twins st1' st2'.
Proof.
  intros [L R Hr] T1 T2. split; [apply T1|apply T2|].
  rewrite (tk_rows _ _ _ T1), (tk_rows _ _ _ T2), !with_meta_same by done. by rewrite Hr.
Qed.

Lemma idle_twins (st1 st1' : Inner E1) (st2 st2' : Inner E2) :
  twins st1 st2 → idle st1 st1' → idle st2 st2' → twins st1' st2'.
Proof.
  intros [L R Hr] I1 I2. split; [apply I1|apply I2|].
  by rewrite (id_engine _ _ I1), (id_engine _ _ I2).
Qed.
End twins.

(** ** Requests that run in a context *)

Section contexts.
Context {E : Type} `{KvStoreLaws E} `{BincodeLaws KvRecord, BincodeLaws KeyIndex}.
Context (st : Inner E) (A : Abs).
Context (Hst : store_inv st) (HA : abs_rel A (idx_gens (index st)) (contents (engine st))).

Let snap := contents (engine st).
Let cur := current_rev (write_state st).

(** What [apply_loop] gave decides what [apply] plans. *)
Definition loop_plan {A B} (f : A → B) (rev : Z) (r : MvccResult (A * bool)) (c : ApplyContext)
    : MvccResult B * option WriteBatch :=
  match r with
  | Ok (a, true) => (Ok (f a), Some (ctx_ops rev c))
  | Ok (a, false) => (Ok (f a), None)
  | Err x => (Err x, None)
  end.

Lemma apply_planned ms r s c :
  ms ≠ [] → Forall mutation_wf ms → cur < i64_max → Z.of_nat (length ms) ≤ i64_max →
  apply_loop snap (cur + 1) 0 ms [] false (st, ApplyContext_default) = (r, (s, c)) →
  let '(ans, p) := loop_plan (λ rs, (cur + 1, rs)) (cur + 1) r c in planned st (apply ms st) ans p.
Proof.
  intros Hne Hms Hmax Hlen Hrun. destruct (si_revs _ Hst) as (Hr1 & Hr2 & _). fold cur in Hr1, Hr2.
  assert (i64_wrap (cur + 1) = cur + 1) as Hwrap by (apply i64_wrap_id; ints).
  pose proof (apply_loop_ok st snap cur cur (cur + 1) ms ltac:(lia) ltac:(lia) Hms
    (values st) (ops st) ApplyContext_default (mkRev (cur + 1) 0) 0 [] false A
    ltac:(lia) Hlen (ctx_inv_default _ _ _ _ (si_core _ Hst)) (si_cache _ Hst) (reflexivity _) HA)
    as Hloop.
  rewrite st_with_id, Hrun in Hloop.
  assert (apply ms st =
    match r with
    | Ok (rs, true) =>
        match commit_ctx (cur + 1) c s with
        | (Ok _, s') => (Ok (cur + 1, rs), s')
        | (Err x, s') => (Err x, s')
        end
    | Ok (rs, false) => (Ok (cur + 1, rs), s)
    | Err x => (Err x, s)
    end) as ->.
  { destruct ms as [|m ms]; [done|]. unfold apply.
    rewrite (pbind_run snapshot _ st snap st) by done. rewrite (pbind_run pget _ st st st) by done.
    unfold pbind at 1, with_ctx, apply_inner. fold cur. rewrite Hwrap. unfold pbind at 1.
    rewrite Hrun. destruct r as [[rs [|]]|x]; [|done..]. cbn [pret]. unfold pret, pbind.
    by destruct (commit_ctx (cur + 1) c s) as [[[]|x] s']. }
  destruct (spec_mutations (cur + 1) 0 ms A) as [[[A' rs] evs]|refusal].
  - destruct Hloop as (v & o & c' & Heq & Hv & Hc & HA' & _). injection Heq as -> -> ->.
    cbn [app orb loop_plan]. destruct (any_produced rs).
    + apply (planned_ctx st v o (cur + 1) c' _ A' _ (λ s, s) Hst Hv Hc); try done.
      * unfold rev_le. cbn. lia.
      * fold cur. lia.
    + apply planned_idle; [by apply store_inv_with|done..].
  - destruct Hloop as (v & o & c' & Heq & Hv & _). injection Heq as -> -> ->. cbn [loop_plan].
    apply planned_idle; [by apply store_inv_with|done..].
Qed.

Definition txn_plan (ok : bool) (r : MvccResult (list TxnOpResult * TxnExec)) (c : ApplyContext)
    : MvccResult TxnResult * option WriteBatch :=
  match r with
  | Ok (rs, e) =>
      if ex_produced_any e
      then (Ok (mkTxnResult ok (cur + 1) rs), Some (ctx_ops (cur + 1) c))
      else (Ok (mkTxnResult ok cur rs), None)
  | Err x => (Err x, None)
  end.

Lemma txn_planned cs succ fail v0 r s c :
  cur < i64_max → ops_ok succ → ops_ok fail →
  Z.of_nat (ops_size succ) ≤ i64_max → Z.of_nat (ops_size fail) ≤ i64_max →
  let ok := spec_compares A cs in
  coh st v0 →
  evaluate_compares snap ApplyContext_default cs st = (Ok ok, st_with st v0 (ops st)) →
  txn_ops snap (write_state st) (mkExec (cur + 1) 0 false) (if ok then succ else fail)
    (st_with st v0 (ops st), ApplyContext_default) = (r, (s, c)) →
  let '(ans, p) := txn_plan ok r c in planned st (txn cs succ fail st) ans p.
Proof.
  intros Hmax Hok1 Hok2 Hsz1 Hsz2 ok Hv0 Hcmp Hrun.
  destruct (si_revs _ Hst) as (Hr1 & Hr2 & _). fold cur in Hr1, Hr2.
  assert (i64_wrap (cur + 1) = cur + 1) as Hwrap by (apply i64_wrap_id; ints).
  set (branch := if ok then succ else fail) in *.
  pose proof (txn_ops_ok st (store_env st A) (write_state st) Hst ltac:(done) ltac:(done) HA
    (λ t key range_end _, store_view_spec st t key range_end) branch v0 (ops st)
    ApplyContext_default (mkTxnState A 0 false []) [] [] ltac:(unfold branch; by destruct ok)
    ltac:(by left) Hv0 (txn_start st A Hst HA) ltac:(unfold branch; destruct ok; cbn; lia)) as Hops.
  change (txn_exec (store_env st A) (mkTxnState A 0 false [])) with (mkExec (cur + 1) 0 false) in Hops.
  fold snap in Hops. rewrite Hrun in Hops. unfold txn.
  rewrite (pbind_run snapshot _ st snap st) by done. rewrite (pbind_run _ _ _ _ _ Hcmp). fold branch.
  rewrite (pbind_run pget _ (st_with st v0 (ops st)) (st_with st v0 (ops st))
             (st_with st v0 (ops st))) by done.
  change (write_state (st_with st v0 (ops st))) with (write_state st). fold cur. rewrite Hwrap.
  destruct (spec_txn_ops _ _ branch) as [[rs t]|x].
  - destruct Hops as (v & o & c' & Heq & Hv & Hr & Hsub). injection Heq as -> -> ->.
    rewrite (pbind_run _ _ _ _ _ (with_ctx_ok _ _ _ _ _ Hrun)).
    cbn [txn_plan txn_exec ex_produced_any ex_main]. change (te_current (store_env st A)) with cur.
    destruct (ts_produced t) eqn:Hp.
    + pose proof (planned_ctx st v o (cur + 1) c' _ (ts_abs t) (mkTxnResult ok (cur + 1) rs)
        (λ s, let o := ops s in
              set_ops (mkOpCounts (oc_put o) (oc_delete o) (oc_range o) (oc_txn o + 1)) s)
        Hst Hv (tr_inv _ _ _ _ _ _ Hr) ltac:(unfold txn_bound, rev_le; cbn; unfold cur; lia)
        ltac:(fold cur; lia) (tr_abs _ _ _ _ _ _ Hr)) as Hpl.
      unfold pbind. destruct (commit_ctx (cur + 1) c' (st_with st v o)) as [[[]|x] s'].
      * unfold count_txn, pmodify, pget, pret. apply Hpl. intros s2 Hs2.
        split; [by apply store_inv_ops|done].
      * apply Hpl. intros s2 Hs2. split; [by apply store_inv_ops|done].
    + unfold pret at 1. unfold count_txn, pmodify, pbind, pget, pret.
      apply planned_idle; [|done..]. apply store_inv_ops. by apply store_inv_with.
  - destruct Hops as (v & o & c' & Heq & Hv). injection Heq as -> -> ->.
    rewrite (pbind_fail _ _ _ _ _ (with_ctx_err _ _ _ _ _ Hrun)). cbn [txn_plan].
    apply planned_idle; [by apply store_inv_with|done..].
Qed.

Definition many_plan (r : MvccResult (list ApplyOutcome * WriteState)) (c : ApplyContext)
    : MvccResult (list ApplyOutcome) * option WriteBatch :=
  match r with
  | Ok (outs, local) =>
      (Ok outs, if current_rev local =? cur then None else Some (ctx_ops (current_rev local) c))
  | Err x => (Err x, None)
  end.

Lemma many_start : many_rel st ApplyContext_default (mkMany A cur []).
Proof. split; try done. apply ctx_inv_default, (si_core _ Hst). Qed.

Lemma many_planned items r s c :
  Forall item_ok items → cur + Z.of_nat (length items) ≤ i64_max →
  many_loop snap (write_state st) items (st, ApplyContext_default) = (r, (s, c)) →
  let '(ans, p) := many_plan r c in planned st (apply_many items st) ans p.
Proof.
  intros Hitems Hmax Hrun. set (s0 := mkMany A cur []).
  destruct (many_loop_ok st A Hst HA items (values st) (ops st) ApplyContext_default s0 Hitems
    (si_cache _ Hst) many_start Hmax) as (outs & t & v & o & c' & Hspec & Hrun' & Hv & Hr & Hle).
  assert (many_local st s0 = write_state st) as Hl0 by apply set_current_rev_id.
  rewrite Hl0, st_with_id in Hrun'. unfold snap in Hrun. rewrite Hrun in Hrun'.
  injection Hrun' as -> -> ->. unfold apply_many.
  rewrite (pbind_run snapshot _ st snap st) by done. rewrite (pbind_run pget _ st st st) by done.
  rewrite (pbind_run _ _ _ _ _ (with_ctx_ok _ _ _ _ _ Hrun)).
  cbn [many_plan]. change (current_rev (many_local st t)) with (ms_rev t). fold cur.
  destruct (Z.eqb_spec (ms_rev t) cur) as [Heq|Hne].
  - apply planned_idle; [by apply store_inv_with|done..].
  - pose proof (my_rev _ _ _ Hr) as Hrev. fold cur in Hrev. cbn in Hle.
    pose proof (planned_ctx st v o (ms_rev t) c' _ (ms_abs t) outs (λ s, s) Hst Hv
      (my_inv _ _ _ Hr) (reflexivity _) ltac:(fold cur; lia) (my_abs _ _ _ Hr)) as Hpl.
    unfold pbind. destruct (commit_ctx (ms_rev t) c' (st_with st v o)) as [[[]|x] s'];
      by apply Hpl.
Qed.
End contexts.

(** ** One lemma per request *)

Lemma current_revision_run {E} `{KvStore E} `{BincodeLaws KvRecord, BincodeLaws KeyIndex}
    (st : Inner E) :
  store_inv st → current_revision st = (Ok (current_rev (write_state st)), st).
Proof. intros Hst. unfold current_revision. by rewrite (si_view _ Hst). Qed.

Section requests.
Context {E1 E2 : Type} `{KvStoreLaws E1} `{KvStoreLaws E2}.
Context `{BincodeLaws KvRecord, BincodeLaws KeyIndex, BincodeLaws LeaseRecord}.
Context `{BincodeLaws StoredUser, BincodeLaws StoredRole}.
Context (st1 : Inner E1) (st2 : Inner E2) (Htw : twins st1 st2).

Definition plan_alike {A} (f1 : prog (Inner E1) MvccError A) (f2 : prog (Inner E2) MvccError A)
    : Prop :=
  ∃ ans p, planned st1 (f1 st1) ans p ∧ planned st2 (f2 st2) ans p.

Let A0 := abs_of st1.
Let HA1 : abs_rel A0 (idx_gens (index st1)) (contents (engine st1)) := abs_of_ok st1.
Let HA2 : abs_rel A0 (idx_gens (index st2)) (contents (engine st2)) := twins_abs _ _ _ Htw HA1.
Let Hst1 : store_inv st1 := tw_left _ _ Htw.
Let Hst2 : store_inv st2 := tw_right _ _ Htw.
Let cur := current_rev (write_state st1).
Let Hws : write_state st1 = write_state st2 := twins_write_state _ _ Htw.

Lemma near_refl : near st1 st2 st1 st2.
Proof.
  exists (values st1), (ops st1), (values st2), (ops st2). rewrite !st_with_id.
  split_and!; [done..|apply (si_cache _ Hst1)|apply (si_cache _ Hst2)].
Qed.

Lemma ctx_light_default : ctx_light ApplyContext_default.
Proof. intros k x. cbn. by rewrite lookup_empty. Qed.

(** Both stores are left as they are. *)
Lemma alike_still {A} (f1 : prog (Inner E1) MvccError A) (f2 : prog (Inner E2) MvccError A) r :
  f1 st1 = (r, st1) → f2 st2 = (r, st2) → plan_alike f1 f2.
Proof. intros R1 R2. exists r, None. rewrite R1, R2. by split; apply planned_idle. Qed.

Lemma apply_alike ms :
  Forall mutation_wf ms → cur < i64_max → Z.of_nat (length ms) ≤ i64_max →
  plan_alike (apply ms) (apply ms).
Proof.
  intros Hms Hmax Hlen. destruct (decide (ms = [])) as [->|Hne].
  { apply (alike_still _ _ (Ok (cur, []))); cbn [apply].
    - by rewrite (pbind_run _ _ _ _ _ (current_revision_run st1 Hst1)).
    - rewrite (pbind_run _ _ _ _ _ (current_revision_run st2 Hst2)). by rewrite <- Hws. }
  destruct (alike_loop st1 st2 Htw (cur + 1) 0 ms [] false st1 st2 _ near_refl ctx_light_default)
    as (r & s1 & s2 & c & R1 & R2 & _).
  pose proof (apply_planned st1 A0 Hst1 HA1 ms r s1 c Hne Hms Hmax Hlen R1) as P1.
  pose proof (apply_planned st2 A0 Hst2 HA2 ms r s2 c Hne Hms) as P2. rewrite <- Hws in P2.
  specialize (P2 Hmax Hlen R2). fold cur in P1, P2.
  destruct (loop_plan _ (cur + 1) r c) as [ans p]. by exists ans, p.
Qed.

Lemma txn_alike cs succ fail :
  cur < i64_max → ops_ok succ → ops_ok fail →
  Z.of_nat (ops_size succ) ≤ i64_max → Z.of_nat (ops_size fail) ≤ i64_max →
  plan_alike (txn cs succ fail) (txn cs succ fail).
Proof.
  intros Hmax Hok1 Hok2 Hsz1 Hsz2. set (ok := spec_compares A0 cs).
  set (branch := if ok then succ else fail).
  destruct (evaluate_compares_ok st1 (contents (engine st1)) ApplyContext_default cur cur
    (mkRev (cur + 1) 0) (ctx_inv_default _ _ _ _ (si_core _ Hst1)) (si_index _ Hst1) A0 cs
    (values st1) (ops st1) HA1 (si_cache _ Hst1)) as (v1 & C1 & Hv1).
  set (cur2 := current_rev (write_state st2)).
  destruct (evaluate_compares_ok st2 (contents (engine st2)) ApplyContext_default cur2 cur2
    (mkRev (cur2 + 1) 0) (ctx_inv_default _ _ _ _ (si_core _ Hst2)) (si_index _ Hst2) A0 cs
    (values st2) (ops st2) HA2 (si_cache _ Hst2)) as (v2 & C2 & Hv2).
  rewrite st_with_id in C1. rewrite st_with_id in C2.
  assert (near st1 st2 (st_with st1 v1 (ops st1)) (st_with st2 v2 (ops st2))) as Hn
    by by exists v1, (ops st1), v2, (ops st2).
  set (env := store_env st1 A0).
  assert (txn_rel st2 env ApplyContext_default (mkTxnState A0 0 false []) [] []) as T2.
  { split; try done. unfold txn_bound. cbn [ts_produced ts_sub].
    change (te_current env) with cur. unfold cur. rewrite Hws.
    apply ctx_inv_default, (si_core _ Hst2). }
  destruct (alike_ops st1 st2 Htw env (write_state st1) ltac:(done) ltac:(done) HA1
    (λ t key range_end _, store_view_spec st1 t key range_end) branch (mkTxnState A0 0 false []) [] []
    ltac:(unfold branch; by destruct ok) ltac:(by left) ltac:(unfold branch; destruct ok; cbn; lia)
    _ _ _ Hn (conj (txn_start st1 A0 Hst1 HA1) T2)) as (r & s1 & s2 & c & R1 & R2 & _).
  pose proof (txn_planned st1 A0 Hst1 HA1 cs succ fail v1 r s1 c Hmax Hok1 Hok2 Hsz1 Hsz2 Hv1 C1 R1)
    as P1.
  pose proof (txn_planned st2 A0 Hst2 HA2 cs succ fail v2 r s2 c) as P2. rewrite <- Hws in P2.
  specialize (P2 Hmax Hok1 Hok2 Hsz1 Hsz2 Hv2 C2 R2). unfold txn_plan in P1, P2.
  rewrite <- Hws in P2. fold cur in P1, P2.
  destruct r as [[rs e]|x]; [destruct (ex_produced_any e)|]; eexists _, _; by split.
Qed.

Lemma many_alike items :
  Forall item_ok items → cur + Z.of_nat (length items) ≤ i64_max →
  plan_alike (apply_many items) (apply_many items).
Proof.
  intros Hitems Hmax. set (s0 := mkMany A0 cur []).
  assert (many_rel st2 ApplyContext_default s0) as M2.
  { unfold s0, cur. rewrite Hws. by apply many_start. }
  assert (many_local st1 s0 = write_state st1) as Hl0 by apply set_current_rev_id.
  destruct (alike_many st1 st2 Htw A0 HA1 items s0 Hitems Hmax st1 st2 ApplyContext_default near_refl
    (conj (many_start st1 A0 Hst1 HA1) M2)) as (r & s1 & s2 & c & R1 & R2 & _).
  rewrite Hl0 in R1, R2.
  pose proof (many_planned st1 A0 Hst1 HA1 items r s1 c Hitems Hmax R1) as P1.
  pose proof (many_planned st2 A0 Hst2 HA2 items r s2 c Hitems) as P2.
  rewrite <- Hws in P2. specialize (P2 Hmax R2). unfold many_plan in P1, P2. rewrite <- Hws in P2.
  destruct r as [[outs local]|x]; eexists _, _; by split.
Qed.

Lemma compact_alike rev : plan_alike (compact rev) (compact rev).
Proof.
  destruct (compact_early (write_state st1) rev) as [x|] eqn:He.
  { apply (alike_still _ _ x); apply compact_early_run; [done|by rewrite <- Hws]. }
  pose proof (compact_early_none st1 rev He) as Hr1. pose proof Hr1 as Hr2. rewrite Hws in Hr2.
  set (b := compact_ops (mkRev rev i64_max) (changed_keys (index st1) (mkRev rev i64_max))
              ++ [OpPut TABLE_META META_KEY_COMPACT_REV (i64_to_be_bytes rev)]).
  exists (Ok rev), (Some b). rewrite !compact_run by done.
  assert (compact_batch st1 rev = with_meta st1 b) as B1
    by (unfold compact_batch, with_meta, b; by rewrite <- app_assoc).
  assert (compact_batch st2 rev = with_meta st2 b) as B2.
  { unfold compact_batch, with_meta, b. rewrite <- app_assoc. by rewrite (twins_index _ _ Htw). }
  assert (clean b) as Hcl.
  { apply clean_app; [|apply clean_meta, not_raft_compact]. apply clean_other.
    intros op [Ht|Ht]%compact_ops_table; by rewrite Ht. }
  rewrite B1, B2. split; apply planned_commit; try done; intros e Hc.
  - split; [apply compacted_inv; [done..|by rewrite B1]|done..].
  - split; [apply compacted_inv; [done..|by rewrite B2]|done..].
Qed.

Lemma grant_alike now1 now2 id ttl now_unix :
  is_i64 id → next_lease_id (write_state st1) < i64_max →
  plan_alike (apply_lease_grant now1 id ttl now_unix) (apply_lease_grant now2 id ttl now_unix).
Proof.
  intros Hid Hmax. destruct (Z.leb_spec ttl 0) as [Httl|Httl].
  { eapply alike_still; unfold apply_lease_grant; destruct (Z.leb_spec ttl 0); done || lia. }
  set (next := next_lease_id (write_state st1)) in *.
  set (fid := grant_id next id).
  destruct (serialize_ok (mkLease fid ttl (saturating_add now_unix ttl))) as [v Hv].
  set (b := grant_counter next id ++ [OpPut TABLE_LEASE (lease_id_key fid) v]).
  assert (is_i64 (grant_next next id)) as Hgi.
  { destruct (si_revs _ Hst1) as (_ & _ & Hni). fold next in Hni. unfold grant_next.
    destruct (id =? 0); [rewrite i64_wrap_id by ints|]; ints. }
  assert (grant_batch st1 id v = with_meta st1 b) as B1.
  { unfold grant_batch, with_meta, b. by rewrite <- app_assoc. }
  assert (grant_batch st2 id v = with_meta st2 b) as B2.
  { unfold grant_batch, with_meta, b. rewrite <- app_assoc, <- Hws. done. }
  assert (clean b) as Hcl.
  { apply clean_app; [|by apply clean_one]. unfold grant_counter.
    destruct (_ || _); [apply clean_meta, not_raft_lease|apply clean_nil]. }
  exists (Ok (mkGrantResult fid ttl cur)), (Some b). split.
  - rewrite (grant_run st1 now1 id ttl now_unix v Httl Hv), B1.
    apply planned_commit; [done| |done]. intros e He. rewrite <- B1 in He. split; [|by rewrite <- B1|done].
    eapply (side_inv st1 _ (grant_batch st1 id v)); [done|by eapply granted_step|done|by apply grant_side| |done].
    cbn [engine granted set_lease_applied set_engine]. rewrite He. by apply grant_counter_next.
  - pose proof (grant_run st2 now2 id ttl now_unix v Httl) as Hrun. cbv zeta in Hrun.
    rewrite <- Hws in Hrun. rewrite (Hrun Hv), B2. fold next.
    apply planned_commit; [done| |done]. intros e He. rewrite <- B2 in He. split; [|by rewrite <- B2|done].
    pose proof (granted_step st2 id v e (<[fid:=now2]> (lease_applied st2)) Hst2 He) as Hs.
    rewrite <- Hws in Hs.
    eapply (side_inv st2 _ (grant_batch st2 id v)); [done|exact Hs|done|by apply grant_side| |done].
    cbn [engine granted set_lease_applied set_engine]. rewrite He.
    pose proof (grant_counter_next st2 id v Hst2) as Hc. rewrite <- Hws in Hc. by apply Hc.
Qed.

Lemma keepalive_alike now1 now2 id now_unix :
  plan_alike (apply_lease_keepalive now1 id now_unix) (apply_lease_keepalive now2 id now_unix).
Proof.
  assert (read_lease (contents (engine st1)) id = read_lease (contents (engine st2)) id) as Hread.
  { unfold read_lease. by rewrite (snap_get_same _ _ TABLE_LEASE _ (tw_rows _ _ Htw)). }
  destruct (read_lease (contents (engine st1)) id) as [[rec|]|x] eqn:Hr1; symmetry in Hread.
  - assert (∀ ts, read_lease ts id = Ok (Some rec) → lease_of ts id = Some rec) as Hl.
    { intros ts. unfold lease_of, read_lease, snap_get. destruct (_ !! _); [|done]. cbn.
      intros Hd. by destruct (deserialize _); simplify_eq/=. }
    destruct (serialize_ok (renew rec now_unix)) as [v Hv].
    exists (Ok (mkTtlResult id (ttl_secs rec) (ttl_secs rec) [])),
      (Some [OpPut TABLE_LEASE (lease_id_key id) v]).
    rewrite (keepalive_run st1 now1 id now_unix rec v (Hl _ Hr1) Hv),
      (keepalive_run st2 now2 id now_unix rec v (Hl _ Hread) Hv).
    split; apply (planned_commit _ [_]); try done; try (by apply clean_one); intros e He; (split; [|done..]).
    + by apply (renewed_ok st1 e _ (OpPut TABLE_LEASE (lease_id_key id) v)).
    + by apply (renewed_ok st2 e _ (OpPut TABLE_LEASE (lease_id_key id) v)).
  - eapply alike_still; unfold apply_lease_keepalive, pbind, snapshot, plift; by rewrite ?Hr1, ?Hread.
  - eapply alike_still; unfold apply_lease_keepalive, pbind, snapshot, plift; by rewrite ?Hr1, ?Hread.
Qed.

Lemma lease_rows_same id :
  lease_rows (contents (engine st1)) id = lease_rows (contents (engine st2)) id.
Proof. unfold lease_rows. by apply snap_range_same; [apply (tw_rows _ _ Htw)|]. Qed.

Lemma lease_view_size id : (length (lease_view A0 id) ≤ base.size (index_map (index st1)))%nat.
Proof.
  rewrite <- (size_dom (D := gset bytes)).
  rewrite <- (length_fmap fst), <- (size_list_to_set (C := gset bytes) (lease_view A0 id).*1)
    by apply key_sorted_NoDup, lease_view_sorted.
  apply subseteq_size. intros k [p [-> Hp]]%elem_of_list_to_set%list_elem_of_fmap.
  destruct p as [k rec]. apply lease_view_elem in Hp as [Hl _].
  rewrite (abs_live A0 _ _ _ k (si_core _ Hst1) HA1) in Hl.
  apply elem_of_dom. unfold live_rec in Hl. unfold idx_gens in Hl. cbn [fst].
  destruct (index_map (index st1) !! k); [by eexists|done].
Qed.

Lemma revoke_alike id :
  lease_scannable id → cur < i64_max → Z.of_nat (base.size (index_map (index st1))) ≤ i64_max →
  plan_alike (apply_lease_revoke id) (apply_lease_revoke id).
Proof.
  intros Hid Hmax Hsize. pose proof (lease_view_size id) as Hsz.
  destruct (si_revs _ Hst1) as (Hr1 & Hr2 & _). fold cur in Hr1, Hr2.
  destruct (decide (lease_view A0 id = [])) as [Hnil|Hne].
  { exists (Ok (mkRevokeResult cur 0)), (Some [OpDelete TABLE_LEASE (lease_id_key id)]).
    rewrite (revoke_idle st1 A0 id), (revoke_idle st2 A0 id) by done. rewrite <- Hws.
    split; apply (planned_commit _ [_]); try done; try (by apply clean_one); intros e He; (split; [|done..]).
    - by apply (renewed_ok st1 e _ (OpDelete TABLE_LEASE (lease_id_key id))).
    - by apply (renewed_ok st2 e _ (OpDelete TABLE_LEASE (lease_id_key id))). }
  assert (i64_wrap (cur + 1) = cur + 1) as Hwrap by (apply i64_wrap_id; ints).
  destruct (revoke_loop st1 A0 id Hst1 HA1 Hne Hmax ltac:(lia))
    as (v1 & o1 & c1 & L1 & Hv1 & Hc1 & HAc1 & _).
  assert (current_rev (write_state st2) < i64_max) as Hmax2 by by rewrite <- Hws.
  destruct (revoke_loop st2 A0 id Hst2 HA2 Hne Hmax2 ltac:(lia))
    as (v2 & o2 & c2 & L2 & Hv2 & Hc2 & HAc2 & _).
  pose proof (revoke_busy st1 A0 id v1 o1 c1 Hst1 HA1 Hid Hne Hwrap L1) as B1.
  pose proof (revoke_busy st2 A0 id v2 o2 c2 Hst2 HA2 Hid Hne) as B2.
  rewrite <- Hws in B2, L2. specialize (B2 Hwrap L2).
  destruct (alike_loop st1 st2 Htw (cur + 1) 0 (delete_key_of <$> lease_view A0 id) [] false
    st1 st2 _ near_refl ctx_light_default) as (r & s1 & s2 & c & R1 & R2 & _).
  unfold cur in R1, R2. rewrite L1 in R1. rewrite L2 in R2. simplify_eq.
  destruct (revoked_ctx st1 A0 id c Hst1 HA1 Hid Hc1 HAc1) as [Hd1 HD1].
  destruct (revoked_ctx st2 A0 id c Hst2 HA2 Hid Hc2 HAc2) as [Hd2 HD2].
  assert (revoke_ops (contents (engine st2)) id = revoke_ops (contents (engine st1)) id) as Hops
    by (unfold revoke_ops; by rewrite lease_rows_same).
  rewrite Hops in Hd2, HD2, B2. set (d := set_batch (batch c ++ revoke_ops _ id) c) in *.
  exists (Ok (mkRevokeResult (cur + 1) (Z.of_nat (length (lease_view A0 id))))),
    (Some (ctx_ops (cur + 1) d)).
  rewrite B1, B2. split.
  - eapply (planned_ctx st1 v1 o1 (cur + 1) d _ _ _
      (λ s, set_lease_applied (delete id (lease_applied s)) s)); [done..| | |exact HD1|].
    + unfold rev_le. cbn. unfold cur. lia.
    + unfold cur in *. lia.
    + intros s Hs. split; [by apply store_inv_applied|done].
  - eapply (planned_ctx st2 v2 o2 (cur + 1) d _ _ _
      (λ s, set_lease_applied (delete id (lease_applied s)) s)); [done..| | |exact HD2|].
    + rewrite <- Hws. unfold rev_le. cbn. unfold cur. lia.
    + rewrite <- Hws. unfold cur in *. lia.
    + intros s Hs. split; [by apply store_inv_applied|done].
Qed.

Lemma plan_same op b : plan (contents (engine st1)) op b = plan (contents (engine st2)) op b.
Proof.
  pose proof (tw_rows _ _ Htw) as Hr. unfold plan, get_user, get_role.
  destruct op; by rewrite ?(snap_get_same _ _ TABLE_AUTH_USERS _ Hr),
    ?(snap_get_same _ _ TABLE_AUTH_ROLES _ Hr), ?(snap_range_same _ _ TABLE_AUTH_USERS _ _ _ Hr).
Qed.

Lemma planned_auth {E} `{KvStoreLaws E} (st : Inner E) now op fx b :
  store_inv st → plan (contents (engine st)) op [] = Ok (Ok fx, b) →
  planned st (apply_auth now op st) (Ok (current_rev (write_state st), Ok ())) (Some b).
Proof.
  intros Hst Hplan. rewrite (apply_auth_run st now op fx b Hst Hplan).
  pose proof (auth_batch_quiet st op _ b Hst Hplan) as Hq.
  assert (∀ e, contents e = apply_batch (auth_batch st b) (contents (engine st)) →
    took st (entered st e (effects_apply now fx (auth st))) b) as Htook.
  { intros e He. split; [|done..]. by apply (entered_ok st e _ _ Hst He Hq). }
  assert (clean b) as Hcl.
  { apply clean_other. intros o Ho.
    destruct (plan_tables _ _ _ _ _ Hplan o Ho) as [?%elem_of_nil|Ht]; [done|].
    by destruct Ht as [->|[->| ->]]. }
  destruct (batch_is_empty (auth_batch st b)) eqn:Hempty.
  - split; [done|]. split; [done|]. split; [done|]. apply Htook.
    unfold batch_is_empty in Hempty. by destruct (auth_batch st b).
  - by apply planned_commit.
Qed.

Lemma auth_alike now1 now2 op : plan_alike (apply_auth now1 op) (apply_auth now2 op).
Proof.
  destruct (plan (contents (engine st1)) op []) as [[[fx|x] b]|x] eqn:Hp1; pose proof Hp1 as Hp2;
    rewrite plan_same in Hp2.
  - exists (Ok (cur, Ok ())), (Some b). split; [by eapply planned_auth|].
    unfold cur. rewrite Hws. by eapply planned_auth.
  - apply (alike_still _ _ (Ok (cur, Err x))); unfold apply_auth, pbind, snapshot, plift,
      WriteBatch_new, current_revision, pret; rewrite ?Hp1, ?Hp2; cbn [storage].
    + by rewrite (si_view _ Hst1).
    + by rewrite (si_view _ Hst2), <- Hws.
  - eapply alike_still; unfold apply_auth, pbind, snapshot, plift, WriteBatch_new;
      rewrite ?Hp1, ?Hp2; done.
Qed.

Lemma planned_cluster {E} `{KvStoreLaws E} (st : Inner E) id :
  store_inv st → 0 < id < two64 →
  planned st (apply_cluster_id id st) (Ok (if cluster_id st =? 0 then id else cluster_id st))
    (Some (if cluster_id st =? 0
           then [OpPut TABLE_META META_KEY_CLUSTER_ID (be_bytes 8 id)] else [])).
Proof.
  intros Hst Hid. rewrite apply_cluster_id_run. set (cid := if cluster_id st =? 0 then id else cluster_id st).
  assert (∀ e, contents e = apply_batch (id_batch st id) (contents (engine st)) →
    took st (adopted st e cid) (if cluster_id st =? 0
       then [OpPut TABLE_META META_KEY_CLUSTER_ID (be_bytes 8 id)] else [])) as Htook.
  { intros e He. split; [|done..]. by apply adopted_inv. }
  assert (clean (if cluster_id st =? 0
       then [OpPut TABLE_META META_KEY_CLUSTER_ID (be_bytes 8 id)] else [])) as Hcl
    by (destruct (_ =? _); [apply clean_meta, not_raft_cluster|apply clean_nil]).
  destruct (batch_is_empty (id_batch st id)) eqn:Hempty.
  - split; [done|]. split; [done|]. split; [done|]. apply Htook.
    unfold batch_is_empty in Hempty. by destruct (id_batch st id).
  - by apply planned_commit.
Qed.

Lemma cluster_alike id :
  0 < id < two64 → plan_alike (apply_cluster_id id) (apply_cluster_id id).
Proof.
  intros Hid. eexists _, _. split; [by apply planned_cluster|].
  rewrite (twins_cluster _ _ Htw). by apply planned_cluster.
Qed.
End requests.
