(* ===== verification/SnapshotPolicy.v ===== *)
(** * Snapshots and purges counted in proposals ([raft/snapshot_policy.rs])

    [ProposalLog] counts the proposals of the entries applied; the policy
    task takes a snapshot when enough were applied since the last one, and
    purges the log down to about [keep] proposals.  The counts are shown to
    be the sums over what was recorded, also after old entries are
    forgotten, and [purge_point] to be the newest index that keeps enough. *)

From S2P Require Import Prelude.

(** [(index, proposals applied up to and including it)], ascending. *)
Record ProposalLog := mkProposalLog {
  pl_entries : list (Z * Z);
  pl_floor : Z * Z;
  pl_total : Z
}.

Definition ProposalLog_default : ProposalLog := mkProposalLog [] (0, 0) 0.

Definition pl_record (index n : Z) (self : ProposalLog) : ProposalLog :=
  if n =? 0 then self
  else
    let total := pl_total self + n in
    mkProposalLog (pl_entries self ++ [(index, total)]) (pl_floor self) total.

(** The elements before the first one past [index]. *)
Fixpoint upto (index : Z) (e : list (Z * Z)) : list (Z * Z) :=
  match e with
  | [] => []
  | (i, c) :: e' => if i <=? index then (i, c) :: upto index e' else []
  end.

Definition cumulative_at (index : Z) (self : ProposalLog) : Z :=
  match last (upto index (pl_entries self)) with
  | Some (_, c) => c
  | None => let '(fi, fc) := pl_floor self in if fi <=? index then fc else 0
  end.

(** [for &(i, c) in e.iter()]. *)
Fixpoint purge_loop (snapshot_index at_ keep : Z) (e : list (Z * Z)) (point : option Z)
    : option Z :=
  match e with
  | [] => point
  | (i, c) :: e' =>
      if (snapshot_index <? i) || (at_ - c <? keep) then point
      else purge_loop snapshot_index at_ keep e' (Some i)
  end.

Definition purge_point (snapshot_index keep : Z) (self : ProposalLog) : option Z :=
  let at_ := cumulative_at snapshot_index self in
  if keep =? 0 then Some snapshot_index
  else purge_loop snapshot_index at_ keep (pl_entries self) None.

Fixpoint forget_loop (index : Z) (e : list (Z * Z)) (floor : Z * Z) : list (Z * Z) * (Z * Z) :=
  match e with
  | (i, c) :: e' => if i <=? index then forget_loop index e' (i, c) else (e, floor)
  | [] => ([], floor)
  end.

Definition forget_upto (index : Z) (self : ProposalLog) : ProposalLog :=
  let '(e, floor) := forget_loop index (pl_entries self) (pl_floor self) in
  mkProposalLog e floor (pl_total self).

Definition snapshot_due (since count age : Z) (interval : option Z) : bool :=
  ((0 <? count) && (count <=? since)) ||
  ((0 <? since) && match interval with Some i => i <=? age | None => false end).

Definition MIB : Z := 2 ^ 20.

Definition default_wal_max_bytes (volume_bytes : option Z) : Z :=
  match volume_bytes with
  | Some v => if 0 <? v then Z.max (64 * MIB) (Z.min (1024 * MIB) (v / 8)) else 1024 * MIB
  | None => 1024 * MIB
  end.

(** ** One turn of the policy task *)

(** What the task remembers between turns; [last_at] is when the snapshot
    last changed. *)
Record Policy := mkPolicy {
  asked_after : option Z;
  purged_for : option Z;
  last_snap : option Z;
  last_at : Z
}.

(** What the task reads in a turn: raft's metrics, the clock, the WAL. *)
Record Tick := mkTick {
  tk_snapshot : option Z;
  tk_applied : option Z;
  tk_purged : option Z;
  tk_now : Z;
  tk_over_bytes : bool;
  tk_by_bytes : Z → option Z
}.

Definition opt_ltb (a b : option Z) : bool :=
  match a, b with
  | None, Some _ => true
  | Some x, Some y => x <? y
  | _, None => false
  end.
Definition opt_max (a b : option Z) : option Z := if opt_ltb a b then b else a.

(** Whether to trigger a snapshot, where to purge, and the log and the
    policy after; the triggers succeed. *)
Definition policy_turn (count keep : Z) (interval : option Z) (t : Tick)
    (log : ProposalLog) (p : Policy) : bool * option Z * ProposalLog * Policy :=
  let snap := tk_snapshot t in
  let '(ls, la) := if bool_decide (snap = last_snap p) then (last_snap p, last_at p)
                   else (snap, tk_now t) in
  let since := Z.max 0 (pl_total log - match snap with
                                       | Some s => cumulative_at s log
                                       | None => 0
                                       end) in
  let over := tk_over_bytes t && opt_ltb snap (tk_applied t) in
  let trigger := (over || snapshot_due since count (tk_now t - la) interval)
                 && negb (bool_decide (asked_after p = Some (default 0 snap))) in
  let asked := if trigger then Some (default 0 snap) else asked_after p in
  match snap with
  | Some s =>
      if bool_decide (purged_for p = Some s)
      then (trigger, None, log, mkPolicy asked (purged_for p) ls la)
      else
        match opt_max (purge_point s keep log) (tk_by_bytes t s) with
        | Some q =>
            (trigger, if opt_ltb (tk_purged t) (Some q) then Some q else None,
             forget_upto q log, mkPolicy asked (Some s) ls la)
        | None => (trigger, None, log, mkPolicy asked (Some s) ls la)
        end
  | None => (trigger, None, log, mkPolicy asked (purged_for p) ls la)
  end.

(** ** What was recorded *)

(** The entries recorded, with their proposals, oldest first. *)
Abbreviation Recorded := (list (Z * Z)).

Fixpoint count_of (h : Recorded) : Z :=
  match h with [] => 0 | e :: h' => e.2 + count_of h' end.

(** The proposals up to and including an index. *)
Definition count_upto (index : Z) (h : Recorded) : Z :=
  count_of (base.filter (λ e : Z * Z, e.1 ≤ index) h).

Fixpoint cums (from : Z) (h : Recorded) : list (Z * Z) :=
  match h with
  | [] => []
  | (i, n) :: h' => (i, from + n) :: cums (from + n) h'
  end.

Definition recorded_wf (h : Recorded) : Prop :=
  StronglySorted Z.lt h.*1 ∧ Forall (λ e, 0 ≤ e.1 ∧ 0 < e.2) h.

(** The log holds what was recorded past the entries [old], which it has
    forgotten. *)
Definition holds_log (old h : Recorded) (l : ProposalLog) : Prop :=
  pl_entries l = cums (count_of old) h ∧
  pl_floor l = match last old with Some (i, _) => (i, count_of old) | None => (0, 0) end ∧
  pl_total l = count_of (old ++ h).

Inductive LogCall := LRecord (index n : Z) | LForget (index : Z).

Definition log_call (l : ProposalLog) (c : LogCall) : ProposalLog :=
  match c with
  | LRecord index n => pl_record index n l
  | LForget index => forget_upto index l
  end.

(** What a run of calls recorded. *)
Definition recorded (cs : list LogCall) : Recorded :=
  omap (λ c, match c with LRecord i n => if n =? 0 then None else Some (i, n) | _ => None end) cs.

Lemma count_of_app h1 h2 : count_of (h1 ++ h2) = count_of h1 + count_of h2.
Proof. induction h1 as [|e h1 IH]; cbn; lia. Qed.

Lemma cums_app from h1 h2 : cums from (h1 ++ h2) = cums from h1 ++ cums (from + count_of h1) h2.
Proof.
  revert from. induction h1 as [|[i n] h1 IH]; intros from; cbn; [by rewrite Z.add_0_r|].
  rewrite IH. do 3 f_equal. lia.
Qed.

Lemma cums_last from h : last (cums from h) = (λ e, (e.1, from + count_of h)) <$> last h.
Proof.
  induction h as [|[i n] h _] using rev_ind; [done|].
  rewrite cums_app, count_of_app. cbn [cums]. rewrite !last_snoc. cbn. do 2 f_equal. lia.
Qed.

(** Sorted records split at an index. *)
Lemma split_at index h :
  recorded_wf h → ∃ a b, h = a ++ b ∧ Forall (λ e, e.1 ≤ index) a ∧ Forall (λ e, index < e.1) b.
Proof.
  intros [Hs _]. induction h as [|[i n] h IH]; [by exists [], []|].
  cbn in Hs. apply StronglySorted_inv in Hs as [Hs Hi]. destruct (Z.le_gt_cases i index).
  - destruct (IH Hs) as (a & b & -> & Ha & Hb). exists ((i, n) :: a), b. by split_and!; try constructor.
  - exists [], ((i, n) :: h). split_and!; [done..|]. constructor; [done|].
    rewrite Forall_fmap in Hi. eapply Forall_impl; [exact Hi|]. intros [j m] Hj. cbn in *. lia.
Qed.

Lemma count_upto_split index a b :
  Forall (λ e, e.1 ≤ index) a → Forall (λ e, index < e.1) b → count_upto index (a ++ b) = count_of a.
Proof.
  intros Ha Hb. unfold count_upto. rewrite filter_app, count_of_app.
  assert (base.filter (λ e : Z * Z, e.1 ≤ index) a = a) as ->.
  { induction Ha; [done|]. rewrite filter_cons_True by done. by f_equal. }
  assert (base.filter (λ e : Z * Z, e.1 ≤ index) b = []) as ->; [|cbn; lia].
  induction Hb as [|e b He Hb IH]; [done|]. rewrite filter_cons_False by lia. done.
Qed.

Lemma upto_cums index from a b :
  Forall (λ e, e.1 ≤ index) a → Forall (λ e, index < e.1) b →
  upto index (cums from (a ++ b)) = cums from a.
Proof.
  intros Ha Hb. revert from. induction Ha as [|[i n] a Hi Ha IH]; intros from; cbn in *.
  - destruct Hb as [|[i n] b Hi Hb]; [done|]. cbn in *. by destruct (Z.leb_spec i index); [lia|].
  - destruct (Z.leb_spec i index); [|lia]. by rewrite IH.
Qed.

Lemma recorded_wf_app a b : recorded_wf (a ++ b) → recorded_wf a ∧ recorded_wf b.
Proof.
  intros [Hs Hf]. rewrite fmap_app in Hs. apply Forall_app in Hf as [H1 H2].
  split; (split; [|done]); [by eapply StronglySorted_app_1_l|by eapply StronglySorted_app_1_r].
Qed.

Lemma old_below old h index :
  recorded_wf (old ++ h) → (∀ e, last old = Some e → e.1 ≤ index) →
  Forall (λ e, e.1 ≤ index) old.
Proof.
  intros Hwf Hold. destruct (recorded_wf_app _ _ Hwf) as [Hwo _].
  destruct old as [|e old _] using rev_ind; [done|]. rewrite last_snoc in Hold.
  specialize (Hold e eq_refl). apply Forall_app. split; [|by constructor].
  destruct Hwo as [Hs _]. rewrite fmap_app in Hs. cbn in Hs.
  apply Forall_forall. intros x Hx.
  apply Z.lt_le_incl. eapply Z.lt_le_trans; [|done].
  eapply (StronglySorted_app_1_elem_of Z.lt _ _ x.1 e.1); [done| |set_solver].
  by apply list_elem_of_fmap_2.
Qed.

Lemma cumulative_holds old h l index :
  recorded_wf (old ++ h) → holds_log old h l →
  (∀ e, last old = Some e → e.1 ≤ index) →
  cumulative_at index l = count_upto index (old ++ h).
Proof.
  intros Hwf (He & Hf & _) Hold. destruct (recorded_wf_app _ _ Hwf) as [Hwo Hwh].
  destruct (split_at index h Hwh) as (a & b & -> & Ha & Hb).
  pose proof (old_below _ _ _ Hwf Hold) as Ho.
  rewrite app_assoc, count_upto_split by (try done; by apply Forall_app).
  unfold cumulative_at. rewrite He, upto_cums, cums_last by done. rewrite count_of_app, Hf.
  destruct a as [|e a _] using rev_ind; [|by rewrite last_snoc].
  cbn. destruct (last old) as [[i n]|] eqn:Hl.
  - specialize (Hold _ eq_refl). cbn in Hold. destruct (Z.leb_spec i index); lia.
  - apply last_None in Hl as ->. by destruct (0 <=? index).
Qed.

Lemma forget_loop_holds index a b from floor :
  Forall (λ e, e.1 ≤ index) a → Forall (λ e, index < e.1) b →
  forget_loop index (cums from (a ++ b)) floor
  = (cums (from + count_of a) b,
     match last a with Some (i, _) => (i, from + count_of a) | None => floor end).
Proof.
  intros Ha Hb. revert from floor. induction Ha as [|[i n] a Hi Ha IH]; intros from floor.
  - cbn [app count_of last]. rewrite Z.add_0_r.
    destruct Hb as [|[i n] b Hi Hb]; [done|]. cbn in *. by destruct (Z.leb_spec i index); [lia|].
  - cbn in *. destruct (Z.leb_spec i index); [|lia]. rewrite IH.
    replace (from + n + count_of a) with (from + (n + count_of a)) by lia. f_equal.
    destruct a as [|e a]; [cbn; f_equal; lia|].
    change (last ((i, n) :: e :: a)) with (last (e :: a)).
    destruct (last (e :: a)) eqn:Hl; [done|]. by apply last_None in Hl.
Qed.

Lemma forget_holds old h l index :
  recorded_wf (old ++ h) → holds_log old h l →
  ∃ a b, h = a ++ b ∧ holds_log (old ++ a) b (forget_upto index l).
Proof.
  intros Hwf (He & Hf & Ht). destruct (recorded_wf_app _ _ Hwf) as [_ Hwh].
  destruct (split_at index h Hwh) as (a & b & -> & Ha & Hb). exists a, b. split; [done|].
  unfold forget_upto. rewrite He, forget_loop_holds by done. split_and!; cbn.
  - by rewrite count_of_app.
  - rewrite Hf, count_of_app. destruct a as [|e a _] using rev_ind.
    + cbn. by rewrite app_nil_r, Z.add_0_r.
    + by rewrite app_assoc, !last_snoc.
  - by rewrite Ht, app_assoc.
Qed.

Lemma record_holds old h l index n :
  holds_log old h l → n ≠ 0 → holds_log old (h ++ [(index, n)]) (pl_record index n l).
Proof.
  intros (He & Hf & Ht) Hn. unfold pl_record. destruct (Z.eqb_spec n 0); [done|].
  split_and!; cbn; [|done|].
  - rewrite He, cums_app, Ht, count_of_app. done.
  - rewrite Ht, !count_of_app. cbn. lia.
Qed.

Lemma run_holds cs :
  recorded_wf (recorded cs) →
  ∃ old h, recorded cs = old ++ h ∧ holds_log old h (foldl log_call ProposalLog_default cs).
Proof.
  induction cs as [|c cs IH] using rev_ind; intros Hwf; [by exists [], []|].
  unfold recorded in *. rewrite omap_app in *. rewrite foldl_app.
  destruct (recorded_wf_app _ _ Hwf) as [Hwf1 _]. destruct (IH Hwf1) as (old & h & Heq & Hh).
  destruct c as [i n|i]; cbn [omap list_omap foldl log_call] in *.
  - destruct (Z.eqb_spec n 0) as [->|Hn].
    + rewrite app_nil_r. by exists old, h.
    + exists old, (h ++ [(i, n)]). rewrite Heq, app_assoc. split; [done|]. by apply record_holds.
  - rewrite app_nil_r. rewrite Heq in Hwf1.
    destruct (forget_holds old h _ i Hwf1 Hh) as (a & b & -> & Hb).
    exists (old ++ a), b. by rewrite Heq, app_assoc.
Qed.

(** ** The point of a purge *)

(** The newest of the entries [a] that leaves [keep] proposals after it. *)
Fixpoint best (keep : Z) (a : Recorded) (point : option Z) : option Z :=
  match a with
  | [] => point
  | (i, n) :: a' => if count_of a' <? keep then point else best keep a' (Some i)
  end.

Lemma purge_loop_best snap keep a b from point :
  Forall (λ e, e.1 ≤ snap) a → Forall (λ e, snap < e.1) b →
  purge_loop snap (from + count_of a) keep (cums from (a ++ b)) point = best keep a point.
Proof.
  intros Ha Hb. revert from point. induction Ha as [|[i n] a Hi Ha IH]; intros from point; cbn in *.
  - destruct Hb as [|[i n] b Hi Hb]; [done|]. cbn in *. by destruct (Z.ltb_spec snap i); [|lia].
  - destruct (Z.ltb_spec snap i); [lia|]. cbn.
    replace (from + (n + count_of a) - (from + n)) with (count_of a) by lia.
    destruct (count_of a <? keep); [done|]. rewrite <- (IH (from + n)). f_equal. lia.
Qed.

Lemma count_suffix a1 e a2 :
  Forall (λ e, 0 < e.2) (a1 ++ e :: a2) → count_of a2 < count_of (a1 ++ e :: a2).
Proof.
  intros [H1 [He H2]%Forall_cons]%Forall_app. rewrite count_of_app. cbn.
  assert (0 ≤ count_of a1); [|lia]. clear -H1. induction H1; cbn; lia.
Qed.

Lemma best_spec keep a point :
  Forall (λ e, 0 < e.2) a →
  (∃ a1 p n a2, a = a1 ++ (p, n) :: a2 ∧ best keep a point = Some p ∧ keep ≤ count_of a2 ∧
     ∀ a3 e a4, a2 = a3 ++ e :: a4 → count_of a4 < keep) ∨
  (best keep a point = point ∧ ∀ a3 e a4, a = a3 ++ e :: a4 → count_of a4 < keep).
Proof.
  intros Ha. revert point. induction Ha as [|[i n] a Hn Ha IH]; intros point; cbn.
  { right. split; [done|]. intros a3 e a4 Heq. by apply app_cons_not_nil in Heq. }
  destruct (Z.ltb_spec (count_of a) keep) as [Hlt|Hge].
  - right. split; [done|]. intros [|x a3] e a4 Heq; simplify_eq/=; [done|].
    pose proof (count_suffix a3 e a4 Ha). lia.
  - left. destruct (IH (Some i)) as [(a1 & p & m & a2 & -> & Hb & Hk & Hmax)|[Hb Hmax]].
    + by exists ((i, n) :: a1), p, m, a2.
    + by exists [], i, n, a.
Qed.

(** Counts across a split of the records. *)
Lemma count_upto_at a1 p n a2 :
  recorded_wf (a1 ++ (p, n) :: a2) → count_upto p (a1 ++ (p, n) :: a2) = count_of a1 + n.
Proof.
  intros [Hs _]. rewrite (cons_middle (p, n)), app_assoc, count_upto_split, count_of_app; [cbn; lia|..].
  - apply Forall_app. split; [|by constructor]. apply Forall_forall. intros e He.
    apply Z.lt_le_incl. rewrite fmap_app in Hs.
    eapply (StronglySorted_app_1_elem_of Z.lt _ _ e.1 p); [done|by apply list_elem_of_fmap_2|set_solver].
  - apply Forall_forall. intros e He. rewrite fmap_app in Hs. apply StronglySorted_app_1_r in Hs.
    cbn in Hs. apply StronglySorted_inv in Hs as [_ Hf]. rewrite Forall_fmap, Forall_forall in Hf.
    by apply Hf.
Qed.

(** The entries the log still has, and the proposals after one of them up to
    a snapshot. *)
Definition kept_after (h : Recorded) (p snap : Z) : Z := count_upto snap h - count_upto p h.

Lemma cums_keys from h : (cums from h).*1 = h.*1.
Proof. revert from. induction h as [|[i n] h IH]; intros from; cbn; [done|]. by rewrite IH. Qed.

Lemma cums_elem from h i c :
  (i, c) ∈ cums from h → ∃ h1 n h2, h = h1 ++ (i, n) :: h2 ∧ c = from + count_of h1 + n.
Proof.
  revert from. induction h as [|[j n] h IH]; intros from; cbn; [by intros ?%elem_of_nil|].
  intros [[= -> ->]|Hin]%elem_of_cons.
  - exists [], n, h. cbn. split; [done|lia].
  - destruct (IH _ Hin) as (h1 & m & h2 & -> & ->). exists ((j, n) :: h1), m, h2. cbn. split; [done|lia].
Qed.

Lemma count_upto_mono i j h :
  Forall (λ e, 0 < e.2) h → i ≤ j → count_upto i h ≤ count_upto j h.
Proof.
  intros Hh Hij. unfold count_upto. induction Hh as [|e h He Hh IH]; [done|].
  rewrite !filter_cons. repeat case_decide; cbn; lia.
Qed.

(** A later entry of a sorted list splits what follows the earlier one. *)
Lemma later_suffix (a1 : Recorded) p a2 b1 e b2 (P : Recorded → Prop) :
  StronglySorted Z.lt (a1 ++ p :: a2).*1 → p.1 < e.1 → b1 ++ e :: b2 = a1 ++ p :: a2 →
  (∀ a3 x a4, a2 = a3 ++ x :: a4 → P a4) → P b2.
Proof.
  intros Hs Hlt Heq HP. revert b1 Heq Hs. induction a1 as [|x a1 IH]; intros b1 Heq Hs; cbn in *.
  - destruct b1 as [|y b1]; simplify_eq/=; [lia|]. by eapply HP.
  - apply StronglySorted_inv in Hs as [Hs Hx]. destruct b1 as [|y b1]; simplify_eq/=; [|by eapply IH].
    rewrite Forall_fmap, Forall_forall in Hx. specialize (Hx p ltac:(set_solver)). cbn in Hx. lia.
Qed.

Lemma in_prefix (a b : Recorded) snap q :
  Forall (λ e, snap < e.1) b → q ∈ (a ++ b).*1 → q ≤ snap →
  ∃ a1 n a2, a = a1 ++ (q, n) :: a2.
Proof.
  rewrite fmap_app, elem_of_app. intros Hb [Hq|Hq] Hle.
  - apply list_elem_of_fmap in Hq as ([j n] & -> & Hin).
    apply list_elem_of_split in Hin as (a1 & a2 & ->). by exists a1, n, a2.
  - apply list_elem_of_fmap in Hq as (e & -> & Hin). rewrite Forall_forall in Hb.
    specialize (Hb e Hin). lia.
Qed.

Section point.
Context (old a b : Recorded) (snap : Z).
Context (Hwf : recorded_wf (old ++ a ++ b)) (Hold : ∀ e, last old = Some e → e.1 ≤ snap).
Context (Ha : Forall (λ e, e.1 ≤ snap) a) (Hb : Forall (λ e, snap < e.1) b).

Lemma kept_after_at a1 q n a2 :
  a = a1 ++ (q, n) :: a2 → kept_after (old ++ a ++ b) q snap = count_of a2.
Proof.
  intros ->. unfold kept_after.
  assert (count_upto q (old ++ (a1 ++ (q, n) :: a2) ++ b) = count_of (old ++ a1) + n) as ->.
  { replace (old ++ (a1 ++ (q, n) :: a2) ++ b) with ((old ++ a1) ++ (q, n) :: (a2 ++ b)) in *
      by by rewrite <- !app_assoc.
    by apply count_upto_at. }
  pose proof (old_below _ _ _ Hwf Hold) as Ho.
  rewrite (app_assoc old), count_upto_split by (try done; by apply Forall_app).
  rewrite !count_of_app. cbn. lia.
Qed.

End point.

(**  The counts are exact.  After any run of records and forgets, the
    log answers for an index the proposals recorded up to it, whatever was
    forgotten, for every index not below the newest entry forgotten; and
    the total is everything recorded. *)
Theorem cumulative_exact cs index :
  recorded_wf (recorded cs) →
  let l := foldl log_call ProposalLog_default cs in
  pl_total l = count_of (recorded cs) ∧
  ((pl_floor l).1 ≤ index → cumulative_at index l = count_upto index (recorded cs)).
Proof.
  intros Hwf l. destruct (run_holds cs Hwf) as (old & h & Heq & Hh). rewrite Heq in *.
  split; [apply Hh|]. intros Hf. apply cumulative_holds; [done..|].
  intros [i n] Hl. destruct Hh as (_ & Hfl & _). fold l in Hfl. rewrite Hl in Hfl.
  by rewrite Hfl in Hf.
Qed.

(**  A purge keeps enough and no more than it must.  With [keep] above
    zero, the point [purge_point] gives is an entry at or before the
    snapshot after which at least [keep] proposals up to the snapshot are
    left, and after any later entry fewer are; with none given, no entry
    leaves that many.  The subtraction never goes below zero. *)
Theorem purge_point_exact cs snap keep :
  recorded_wf (recorded cs) → 0 < keep →
  let l := foldl log_call ProposalLog_default cs in
  (pl_floor l).1 ≤ snap →
  let left p := kept_after (recorded cs) p snap in
  Forall (λ e, e.1 ≤ snap → 0 ≤ cumulative_at snap l - e.2) (pl_entries l) ∧
  match purge_point snap keep l with
  | Some p => p ≤ snap ∧ p ∈ (pl_entries l).*1 ∧ keep ≤ left p ∧
      ∀ q, q ∈ (pl_entries l).*1 → p < q ≤ snap → left q < keep
  | None => ∀ q, q ∈ (pl_entries l).*1 → q ≤ snap → left q < keep
  end.
Proof.
  intros Hwf Hk l Hf left. destruct (run_holds cs Hwf) as (old & h & Heq & Hh). fold l in Hh.
  assert (∀ e, last old = Some e → e.1 ≤ snap) as Hold.
  { intros [i n] Hl. destruct Hh as (_ & Hfl & _). rewrite Hl in Hfl. by rewrite Hfl in Hf. }
  unfold left. rewrite Heq in *. clear left Heq.
  pose proof (cumulative_holds old h l snap Hwf Hh Hold) as Hcum.
  destruct Hh as (He & _). rewrite He, cums_keys, Hcum.
  assert (Forall (λ e, 0 < e.2) (old ++ h)) as Hpos
    by (eapply Forall_impl; [apply Hwf|]; naive_solver).
  destruct (recorded_wf_app _ _ Hwf) as [_ Hwh].
  destruct (split_at snap h Hwh) as (a & b & -> & Ha & Hb). split.
  { apply Forall_forall. intros [i c] (h1 & n & h2 & Hab & ->)%cums_elem Hi. cbn in *.
    rewrite Hab in *. rewrite (app_assoc old) in *.
    pose proof (count_upto_at _ _ _ _ Hwf) as Hat. rewrite count_of_app in Hat.
    pose proof (count_upto_mono i snap _ Hpos Hi). lia. }
  assert (∀ q, q ∈ (a ++ b).*1 → q ≤ snap → ∃ a1 e a2, a = a1 ++ e :: a2 ∧ e.1 = q ∧
    kept_after (old ++ a ++ b) q snap = count_of a2) as Hin.
  { intros q Hq Hle. destruct (in_prefix a b snap q Hb Hq Hle) as (a1 & n & a2 & Heq).
    exists a1, (q, n), a2. split_and!; [done..|]. by eapply kept_after_at. }
  unfold purge_point. destruct (Z.eqb_spec keep 0); [lia|]. rewrite Hcum, He.
  assert (count_upto snap (old ++ a ++ b) = count_of old + count_of a) as ->.
  { pose proof (old_below _ _ _ Hwf Hold) as Ho.
    rewrite app_assoc, count_upto_split by (try done; by apply Forall_app). apply count_of_app. }
  rewrite purge_loop_best by done.
  assert (Forall (λ e, 0 < e.2) a) as Hpa
    by (apply Forall_app in Hpos as [_ [? _]%Forall_app]; done).
  destruct (best_spec keep a None Hpa) as [(a1 & p & np & a2 & Hsp & -> & Hge & Hmax)|[-> Hmax]].
  - split_and!.
    + rewrite Hsp, Forall_app in Ha. destruct Ha as [_ [? _]%Forall_cons]. done.
    + rewrite Hsp, !fmap_app. cbn. rewrite !elem_of_app. left. right. apply elem_of_cons. by left.
    + by rewrite (kept_after_at old a b snap Hwf Hold Ha Hb a1 p np a2 Hsp).
    + intros q Hq [Hpq Hle]. destruct (Hin q Hq Hle) as (b1 & e & b2 & Hb' & <- & ->).
      eapply (later_suffix a1 (p, np) a2 b1 e b2); [|done|by rewrite <- Hsp|done].
      destruct (recorded_wf_app _ _ Hwh) as [[? _] _]. by rewrite <- Hsp.
  - intros q Hq Hle. destruct (Hin q Hq Hle) as (b1 & e & b2 & Hb' & <- & ->). by eapply Hmax.
Qed.

(** ** Witnesses *)

Definition demo_calls : list LogCall := [LRecord 1 3; LRecord 2 5; LForget 1; LRecord 3 0; LRecord 4 2].

Lemma demo_calls_wf : recorded_wf (recorded demo_calls).
Proof. split; cbn; repeat constructor; cbn; lia. Qed.

Lemma cumulative_exact_witness :
  let l := foldl log_call ProposalLog_default demo_calls in
  pl_total l = 10 ∧ cumulative_at 3 l = 8.
Proof.
  destruct (cumulative_exact demo_calls 3 demo_calls_wf) as [Ht Hc].
  split; [exact Ht|]. apply Hc. vm_compute. discriminate.
Defined.

Lemma purge_point_exact_witness :
  let l := foldl log_call ProposalLog_default demo_calls in
  purge_point 4 2 l = Some 2 ∧ 2 ≤ kept_after (recorded demo_calls) 2 4.
Proof.
  assert (0 < 2) as Hk by lia.
  assert ((pl_floor (foldl log_call ProposalLog_default demo_calls)).1 ≤ 4) as Hf
    by (vm_compute; discriminate).
  pose proof (proj2 (purge_point_exact demo_calls 4 2 demo_calls_wf Hk Hf)) as Hp.
  assert (purge_point 4 2 (foldl log_call ProposalLog_default demo_calls) = Some 2) as Heq
    by (vm_compute; reflexivity).
  split; [exact Heq|]. apply Hp.
Defined.
