(* ===== verification/StateMachine.v ===== *)
(** * The raft state machine ([raft/types.rs], [raft/state_machine.rs])

    Log entries and their responses, and the state machine that applies
    committed entries to the MVCC store: each entry stages the raft metadata
    that says it was applied, then runs, and the commit of its data carries
    the metadata.  A batched entry is many requests; runs of them that cannot
    be refused share one commit, and the progress within the batch is staged
    with each.  Membership is openraft's own type, a parameter here. *)

From S2P Require Import Prelude Revision Record KvStore Lease Cache Auth Store SnapshotPolicy.

(** ** Types *)

(** openraft's [LogId]: a committed leader id and an index. *)
Record LogId := mkLogId { lid_term : Z; lid_node : Z; lid_index : Z }.

#[global] Instance LogId_eq_dec : EqDecision LogId.
Proof. solve_decision. Defined.

(** What the state machine uses of openraft's [Membership]. *)
Class MembershipOps (Mb : Type) := {
  mb_default : Mb;
  mb_voters : Mb → list Z
}.

Record StoredMembership (Mb : Type) := mkStored {
  stored_log_id : option LogId;
  stored_membership : Mb
}.
Arguments mkStored {Mb}.
Arguments stored_log_id {Mb}.
Arguments stored_membership {Mb}.

(** [FastetcdLogEntry]. *)
Inductive LogEntry :=
| EntApply (mutations : list Mutation)
| EntTxn (compares : list Compare) (success failure : list TxnOp)
| EntCompact (rev : Z)
| EntLeaseGrant (id ttl_secs now_unix : Z)
| EntLeaseRevoke (id : Z)
| EntLeaseKeepAlive (id now_unix : Z)
| EntNoop
| EntAuth (op : AuthOp)
| EntBatch (subs : list LogEntry)
| EntClusterId (id : Z).

(** [FastetcdLogResponse]. *)
Inductive LogResponse :=
| RspApply (revision : Z) (results : list MutationResult)
| RspTxn (r : TxnResult)
| RspCompact (compact_rev : Z)
| RspLeaseGrant (r : LeaseGrantResult)
| RspLeaseRevoke (r : LeaseRevokeResult)
| RspLeaseKeepAlive (r : LeaseTtlResult)
| RspNoop (revision : Z)
| RspAuth (revision log_index : Z) (r : result AuthApplyError ())
| RspBatch (rs : list LogResponse)
| RspRefused (revision : Z) (r : Refusal).

Fixpoint header_revision (self : LogResponse) : Z :=
  match self with
  | RspApply revision _ => revision
  | RspTxn t => tr_revision t
  | RspCompact compact_rev => compact_rev
  | RspLeaseGrant g => lg_revision g
  | RspLeaseRevoke r => lr_revision r
  | RspLeaseKeepAlive _ => 0
  | RspNoop revision => revision
  | RspAuth revision _ _ => revision
  | RspBatch rs =>
      match header_revision <$> rs with
      | [] => 0
      | r :: rs => foldl Z.max r rs
      end
  | RspRefused revision _ => revision
  end.

(** openraft's [EntryPayload] and [Entry]. *)
Inductive Payload (Mb : Type) :=
| PlBlank
| PlNormal (data : LogEntry)
| PlMembership (m : Mb).
Arguments PlBlank {Mb}.
Arguments PlNormal {Mb}.
Arguments PlMembership {Mb}.

Record Entry (Mb : Type) := mkEntry { entry_id : LogId; entry_payload : Payload Mb }.
Arguments mkEntry {Mb}.
Arguments entry_id {Mb}.
Arguments entry_payload {Mb}.

Record SnapshotMeta (Mb : Type) := mkSnapMeta {
  meta_last_log_id : option LogId;
  meta_membership : StoredMembership Mb;
  meta_snapshot_id : bytes
}.
Arguments mkSnapMeta {Mb}.
Arguments meta_last_log_id {Mb}.
Arguments meta_membership {Mb}.
Arguments meta_snapshot_id {Mb}.

(** [ApplyError]. *)
Inductive ApplyError := ErrMvcc (e : MvccError) | ErrOther (msg : string).

Definition next_index (log_id : option LogId) : Z :=
  match log_id with Some l => lid_index l + 1 | None => 0 end.

Definition encode_progress (index done_ : Z) : bytes := be_bytes 8 index ++ be_bytes 8 done_.

Definition decode_progress (b : bytes) : option (Z * Z) :=
  if (16 <=? length b)%nat then Some (be_value (take 8 b), be_value (take 8 (drop 8 b))) else None.

Definition MAX_RUN : nat := 256.

Definition groupable (entry : LogEntry) : option ApplyItem :=
  match entry with
  | EntApply mutations => ApplyItem_mutations mutations
  | EntTxn compares success failure => ApplyItem_txn compares success failure
  | _ => None
  end.

(** [iter().map_while(f)]. *)
Fixpoint map_while {A B} (f : A → option B) (l : list A) : list B :=
  match l with
  | [] => []
  | a :: l' => match f a with Some b => b :: map_while f l' | None => [] end
  end.

Definition is_batch (e : LogEntry) : bool := match e with EntBatch _ => true | _ => false end.

Definition outcome_response (r : ApplyOutcome) : LogResponse :=
  match r with
  | OutMutations revision results => RspApply revision results
  | OutTxn t => RspTxn t
  | OutRefused revision refusal => RspRefused revision refusal
  end.

(** ** Applying one request *)

Section requests.
Context {E : Type} `{KvStore E}.
Context `{Bincode KvRecord, Bincode KeyIndex, Bincode LeaseRecord,
          Bincode StoredUser, Bincode StoredRole}.

Abbreviation M := (prog (Inner E) MvccError).
Abbreviation MA := (prog (Inner E) ApplyError).

(** The [?] of a store method inside [apply_request]. *)
Definition call {A} (m : M A) : MA A := λ st,
  match m st with
  | (Ok a, st) => (Ok a, st)
  | (Err e, st) => (Err (ErrMvcc e), st)
  end.

(** [now]: the monotonic clock when the request applies. *)
Definition apply_request (now : Z) (data : LogEntry) (log_index : Z) : MA LogResponse :=
  match data with
  | EntApply mutations =>
      let* (revision, results) := call (apply mutations) in pret (RspApply revision results)
  | EntTxn compares success failure =>
      let* r := call (txn compares success failure) in pret (RspTxn r)
  | EntCompact rev => let* compact_rev := call (compact rev) in pret (RspCompact compact_rev)
  | EntLeaseGrant id ttl now_unix =>
      let* r := call (apply_lease_grant now id ttl now_unix) in pret (RspLeaseGrant r)
  | EntLeaseRevoke id =>
      let* r := call (apply_lease_revoke id) in pret (RspLeaseRevoke r)
  | EntLeaseKeepAlive id now_unix =>
      let* r := call (apply_lease_keepalive now id now_unix) in pret (RspLeaseKeepAlive r)
  | EntNoop => let* rev := call current_revision in pret (RspNoop rev)
  | EntClusterId id =>
      let* _ := call (apply_cluster_id id) in
      let* rev := call current_revision in pret (RspNoop rev)
  | EntAuth op =>
      let* (revision, r) := call (apply_auth now op) in pret (RspAuth revision log_index r)
  | EntBatch _ => pfail (ErrOther "nested batch in log entry")
  end.

Definition apply_data (now : Z) (data : LogEntry) (log_index : Z) : MA LogResponse := λ st,
  match apply_request now data log_index st with
  | (Ok r, st) => (Ok r, st)
  | (Err (ErrMvcc e), st) =>
      match refusal e with
      | Some rf => (let* revision := call current_revision in pret (RspRefused revision rf)) st
      | None => (Err (ErrMvcc e), st)
      end
  | (Err x, st) => (Err x, st)
  end.

(** [apply_batch]'s loop at sub-entry [j]; every turn raises [j], so the
    number of sub-entries is enough fuel.  [clock j]: when sub-entry [j]
    applies. *)
Fixpoint batch_loop (fuel : nat) (clock : nat → Z) (index : Z) (subs : list LogEntry) (skip : Z)
    (applied_bytes : bytes) (j : nat) (out : list LogResponse) (applied_staged : bool)
    : MA (list LogResponse * bool) :=
  match fuel, drop j subs with
  | _, [] => pret (out, applied_staged)
  | O, _ => pret (out, applied_staged)
  | S fuel', sub :: _ =>
      if is_batch sub then pfail (ErrOther "nested batch in log entry")
      else if Z.of_nat j <? skip then
        let* revision := call current_revision in
        batch_loop fuel' clock index subs skip applied_bytes (S j) (out ++ [RspNoop revision])
          applied_staged
      else
        let run := map_while groupable (take MAX_RUN (drop j subs)) in
        if (1 <? length run)%nat then
          let end_ := (j + length run)%nat in
          let* _ := call (stage_batch_progress (encode_progress index (Z.of_nat end_))) in
          let at_end := (end_ =? length subs)%nat in
          let* _ := (if at_end then call (stage_raft_meta applied_bytes None) else pret ()) in
          let* rs := call (apply_many run) in
          batch_loop fuel' clock index subs skip applied_bytes end_
            (out ++ (outcome_response <$> rs)) (applied_staged || at_end)
        else
          let* _ := call (stage_batch_progress (encode_progress index (Z.of_nat (S j)))) in
          let at_end := (S j =? length subs)%nat in
          let* _ := (if at_end then call (stage_raft_meta applied_bytes None) else pret ()) in
          let* r := apply_data (clock j) sub index in
          batch_loop fuel' clock index subs skip applied_bytes (S j) (out ++ [r])
            (applied_staged || at_end)
  end.

Definition apply_batch_entry (clock : nat → Z) (index : Z) (subs : list LogEntry) (skip : Z)
    (applied_bytes : bytes) : MA LogResponse :=
  let* _ := call stage_batched_marker in
  let* (out, applied_staged) :=
    batch_loop (length subs) clock index subs skip applied_bytes 0 [] false in
  let* _ := (if applied_staged : bool then pret ()
             else call (stage_raft_meta applied_bytes None)) in
  pret (RspBatch out).
End requests.

(** ** The state machine *)

Record Sm (E Mb : Type) := mkSm {
  mvcc : Inner E;
  last_applied : option LogId;
  last_membership : StoredMembership Mb;
  current_snapshot : option (SnapshotMeta Mb);
  snapshot_idx : Z;
  batch_progress : option (Z * Z);
  applied : Z;
  proposals : ProposalLog
}.
Arguments mkSm {E Mb}.
Arguments mvcc {E Mb}.
Arguments last_applied {E Mb}.
Arguments last_membership {E Mb}.
Arguments current_snapshot {E Mb}.
Arguments snapshot_idx {E Mb}.
Arguments batch_progress {E Mb}.
Arguments applied {E Mb}.
Arguments proposals {E Mb}.

Definition set_mvcc {E Mb} (x : Inner E) (sm : Sm E Mb) : Sm E Mb :=
  mkSm x (last_applied sm) (last_membership sm) (current_snapshot sm) (snapshot_idx sm)
    (batch_progress sm) (applied sm) (proposals sm).
Definition set_last_applied {E Mb} (l : LogId) (sm : Sm E Mb) : Sm E Mb :=
  mkSm (mvcc sm) (Some l) (last_membership sm) (current_snapshot sm) (snapshot_idx sm)
    (batch_progress sm) (lid_index l + 1) (proposals sm).
Definition set_last_membership {E Mb} (m : StoredMembership Mb) (sm : Sm E Mb) : Sm E Mb :=
  mkSm (mvcc sm) (last_applied sm) m (current_snapshot sm) (snapshot_idx sm)
    (batch_progress sm) (applied sm) (proposals sm).
Definition set_proposals {E Mb} (p : ProposalLog) (sm : Sm E Mb) : Sm E Mb :=
  mkSm (mvcc sm) (last_applied sm) (last_membership sm) (current_snapshot sm) (snapshot_idx sm)
    (batch_progress sm) (applied sm) p.

Section machine.
Context {E : Type} `{KvStore E}.
Context `{Bincode KvRecord, Bincode KeyIndex, Bincode LeaseRecord,
          Bincode StoredUser, Bincode StoredRole}.
Context {Mb : Type} `{MembershipOps Mb}.
Context `{Bincode (option LogId), Bincode (StoredMembership Mb)}.

Abbreviation MS := (prog (Sm E Mb) ApplyError).

Definition on_mvcc {A} (m : prog (Inner E) ApplyError A) : MS A := λ sm,
  let '(r, st) := m (mvcc sm) in (r, set_mvcc st sm).

Definition serialize_or {A} `{Bincode A} (a : A) (msg : string) : MS bytes :=
  plift (ok_or (serialize a) (ErrOther msg)).

(** One entry of [apply]'s loop.  The wait for the log's durability changes
    nothing here.  [clock j]: when its sub-entry [j] applies. *)
Definition apply_entry (clock : nat → Z) (e : Entry Mb) : MS LogResponse :=
  let log_id := entry_id e in
  let index := lid_index log_id in
  let* applied_bytes := serialize_or (Some log_id) "serialize last_applied" in
  match entry_payload e with
  | PlMembership m =>
      let membership := mkStored (Some log_id) m in
      let* membership_bytes := serialize_or membership "serialize last_membership" in
      let* _ := on_mvcc (call (stage_raft_meta applied_bytes (Some membership_bytes))) in
      let* _ := pmodify (set_last_membership membership) in
      let* rev := on_mvcc (call current_revision) in
      let* _ := pmodify (set_last_applied log_id) in
      pret (RspNoop rev)
  | PlNormal (EntBatch subs) =>
      let* sm := pget in
      let skip := match batch_progress sm with
                  | Some (i, done_) => if i =? index then done_ else 0
                  | None => 0
                  end in
      let* response := on_mvcc (apply_batch_entry clock index subs skip applied_bytes) in
      let* _ := pmodify (set_last_applied log_id) in
      let* _ := pmodify (λ sm, set_proposals
                  (pl_record index (Z.of_nat (length subs)) (proposals sm)) sm) in
      pret response
  | PlNormal data =>
      let* _ := on_mvcc (call (stage_raft_meta applied_bytes None)) in
      let* response := on_mvcc (apply_data (clock 0%nat) data index) in
      let* _ := pmodify (set_last_applied log_id) in
      let* _ := pmodify (λ sm, set_proposals (pl_record index 1 (proposals sm)) sm) in
      pret response
  | PlBlank =>
      let* _ := on_mvcc (call (stage_raft_meta applied_bytes None)) in
      let* rev := on_mvcc (call current_revision) in
      let* _ := pmodify (set_last_applied log_id) in
      pret (RspNoop rev)
  end.

Fixpoint apply_entries (clock : Z → nat → Z) (entries : list (Entry Mb)) : MS (list LogResponse) :=
  match entries with
  | [] => pret []
  | e :: es =>
      let* r := apply_entry (clock (lid_index (entry_id e))) e in
      let* rs := apply_entries clock es in
      pret (r :: rs)
  end.

(** [RaftStateMachine::apply]. *)
Definition sm_apply (clock : Z → nat → Z) (entries : list (Entry Mb)) : MS (list LogResponse) :=
  let* responses := apply_entries clock entries in
  let* _ := on_mvcc (call flush_raft_meta) in
  pret responses.

Definition applied_state (sm : Sm E Mb) : option LogId * StoredMembership Mb :=
  (last_applied sm, last_membership sm).

(** [open_with_retention], given the newest retained snapshot's metadata. *)
Definition open_sm (st : Inner E) (latest_meta : option (SnapshotMeta Mb))
    : result ApplyError (Sm E Mb) :=
  match read_raft_meta st, read_batch_progress st with
  | (Ok (applied_bytes, membership_bytes), _), (Ok progress, _) =>
      let? last_applied_log_id :=
        (match applied_bytes with
         | Some b => ok_or (deserialize (A := option LogId) b) (ErrOther "deserialize last_applied")
         | None => Ok None
         end) in
      let? last_membership :=
        (match membership_bytes with
         | Some b => ok_or (deserialize (A := StoredMembership Mb) b)
                       (ErrOther "deserialize last_membership")
         | None => Ok (mkStored None mb_default)
         end) in
      Ok (mkSm st last_applied_log_id last_membership latest_meta 0 (progress ≫= decode_progress)
            (next_index last_applied_log_id) ProposalLog_default)
  | (Err e, _), _ => Err (ErrMvcc e)
  | _, (Err e, _) => Err (ErrMvcc e)
  end.

Definition recover_applied_floor (floor : option LogId) : MS (option LogId) :=
  match floor with
  | None => pret None
  | Some floor =>
      let* sm := pget in
      let* rev := on_mvcc (call current_revision) in
      if bool_decide (is_Some (last_applied sm)) || (rev =? 0) then pret None
      else
        let* b := serialize_or (Some floor) "serialize last_applied" in
        let* _ := on_mvcc (call (stage_raft_meta b None)) in
        let* _ := on_mvcc (call flush_raft_meta) in
        let* _ := pmodify (set_last_applied floor) in
        pret (Some floor)
  end.

Definition membership_is_empty (sm : Sm E Mb) : bool :=
  bool_decide (mb_voters (stored_membership (last_membership sm)) = []).

Definition recover_membership (membership : StoredMembership Mb) : MS () :=
  let* b := serialize_or membership "serialize membership" in
  let* _ := on_mvcc (call (persist_membership b)) in
  pmodify (set_last_membership membership).
End machine.
