(* ===== verification/SmSteps.v ===== *)
(** * An apply as a list of steps

    What the state machine does to the store for a list of entries, as one
    list of steps: the metadata staged, the requests and the runs of
    requests, and the flush at the end of a call.  The loops of the source
    are shown to be runs of these lists. *)

From S2P Require Import Prelude Revision Record KvStore Lease Cache Auth Store SnapshotPolicy.
From S2P Require Import StateMachine.

(** [SRead] answers the current revision and changes nothing. *)
Inductive Step :=
| SMark
| SRead
| SFlush
| SProgress (b : bytes)
| SMeta (applied : bytes) (membership : option bytes)
| SReq (now : Z) (data : LogEntry) (index : Z)
| SRun (items : list ApplyItem).

Section run.
Context {E : Type} `{KvStore E}.
Context `{Bincode KvRecord, Bincode KeyIndex, Bincode LeaseRecord,
          Bincode StoredUser, Bincode StoredRole}.

Abbreviation MA := (prog (Inner E) ApplyError).

Definition step_run (s : Step) : MA (list LogResponse) :=
  match s with
  | SMark => let* _ := call stage_batched_marker in pret []
  | SRead => let* rev := call current_revision in pret [RspNoop rev]
  | SFlush => let* _ := call flush_raft_meta in pret []
  | SProgress b => let* _ := call (stage_batch_progress b) in pret []
  | SMeta a m => let* _ := call (stage_raft_meta a m) in pret []
  | SReq now data index => let* r := apply_data now data index in pret [r]
  | SRun items => let* rs := call (apply_many items) in pret (outcome_response <$> rs)
  end.

Fixpoint run_steps (l : list Step) : MA (list LogResponse) :=
  match l with
  | [] => pret []
  | s :: l' =>
      let* rs := step_run s in
      let* rest := run_steps l' in
      pret (rs ++ rest)
  end.

(** A run, answer and state, whatever the answer. *)
Lemma run_steps_cons s l (st : Inner E) :
  run_steps (s :: l) st =
  match step_run s st with
  | (Ok rs, st1) =>
      match run_steps l st1 with
      | (Ok rest, st2) => (Ok (rs ++ rest), st2)
      | (Err x, st2) => (Err x, st2)
      end
  | (Err x, st1) => (Err x, st1)
  end.
Proof.
  cbn [run_steps]. unfold pbind, pret. destruct (step_run s st) as [[rs|x] st1]; [|done].
  by destruct (run_steps l st1) as [[rest|x] st2].
Qed.

Lemma run_steps_app l1 l2 (st : Inner E) :
  run_steps (l1 ++ l2) st =
  match run_steps l1 st with
  | (Ok rs, st1) =>
      match run_steps l2 st1 with
      | (Ok rest, st2) => (Ok (rs ++ rest), st2)
      | (Err x, st2) => (Err x, st2)
      end
  | (Err x, st1) => (Err x, st1)
  end.
Proof.
  revert st. induction l1 as [|s l1 IH]; intros st.
  - cbn [app run_steps]. unfold pret. by destruct (run_steps l2 st) as [[]].
  - cbn [app]. rewrite !run_steps_cons. destruct (step_run s st) as [[rs|x] st1]; [|done].
    rewrite IH. destruct (run_steps l1 st1) as [[rs1|x] st2]; [|done].
    destruct (run_steps l2 st2) as [[rs2|x] st3]; [|done]. by rewrite app_assoc.
Qed.
End run.

(** ** The steps of a batch *)

(** From sub-entry [j] on. *)
Fixpoint batch_steps (fuel : nat) (clock : nat → Z) (index : Z) (subs : list LogEntry) (skip : Z)
    (ab : bytes) (j : nat) : list Step :=
  match fuel, drop j subs with
  | S fuel', sub :: _ =>
      if Z.of_nat j <? skip then SRead :: batch_steps fuel' clock index subs skip ab (S j)
      else
        let run := map_while groupable (take MAX_RUN (drop j subs)) in
        let end_ := if (1 <? length run)%nat then (j + length run)%nat else S j in
        SProgress (encode_progress index (Z.of_nat end_))
        :: (if (end_ =? length subs)%nat then [SMeta ab None] else [])
        ++ (if (1 <? length run)%nat then SRun run else SReq (clock j) sub index)
        :: batch_steps fuel' clock index subs skip ab end_
  | _, _ => []
  end.

(** Whether the loop stages the entry's id: it gets to the last sub-entry
    without skipping it. *)
Definition batch_stages (subs : list LogEntry) (skip : Z) : bool := skip <? Z.of_nat (length subs).

Lemma map_while_length {A B} (f : A → option B) l : (length (map_while f l) ≤ length l)%nat.
Proof. induction l as [|a l IH]; cbn; [lia|]. destruct (f a); cbn; lia. Qed.

Lemma run_length subs j :
  (length (map_while groupable (take MAX_RUN (drop j subs))) ≤ length subs - j)%nat.
Proof.
  etrans; [apply map_while_length|]. rewrite length_take, length_drop. lia.
Qed.

Section batch.
Context {E : Type} `{KvStore E}.
Context `{Bincode KvRecord, Bincode KeyIndex, Bincode LeaseRecord,
          Bincode StoredUser, Bincode StoredRole}.

(** The store with a sub-entry's metadata staged. *)
Definition sub_staged (b ab : bytes) (last : bool) (st : Inner E) : Inner E :=
  let st1 := (stage_batch_progress b st).2 in
  if last then (stage_raft_meta ab None st1).2 else st1.

Lemma sub_staged_steps b ab (last : bool) l (st : Inner E) :
  run_steps (SProgress b :: (if last then [SMeta ab None] else []) ++ l) st =
  run_steps l (sub_staged b ab last st).
Proof.
  rewrite run_steps_cons. cbn. destruct last; cbn [app].
  - rewrite run_steps_cons. cbn. by destruct (run_steps l _) as [[]].
  - by destruct (run_steps l _) as [[]].
Qed.

Lemma sub_staged_code {A} b ab (last : bool) (k : prog (Inner E) ApplyError A) (st : Inner E) :
  (let* _ := call (stage_batch_progress b) in
   let* _ := (if last then call (stage_raft_meta ab None) else pret ()) in k) st =
  k (sub_staged b ab last st).
Proof. by destruct last. Qed.

Lemma batch_loop_steps fuel clock index subs skip ab j out staged (st : Inner E) :
  Forall (λ e, is_batch e = false) subs → (length subs - j ≤ fuel)%nat →
  batch_loop fuel clock index subs skip ab j out staged st =
  match run_steps (batch_steps fuel clock index subs skip ab j) st with
  | (Ok rs, st') =>
      (Ok (out ++ rs, staged || ((j <? length subs)%nat && batch_stages subs skip)), st')
  | (Err x, st') => (Err x, st')
  end.
Proof.
  intros Hb. revert j out staged st. induction fuel as [|fuel IH]; intros j out staged st Hf.
  { assert (drop j subs = []) as Hd by (apply drop_ge; lia).
    cbn [batch_loop batch_steps run_steps]. rewrite Hd. unfold pret.
    rewrite app_nil_r. replace (j <? length subs)%nat with false by (symmetry; apply Nat.ltb_ge; lia).
    by rewrite orb_false_r. }
  cbn [batch_loop batch_steps]. destruct (drop j subs) as [|sub rest] eqn:Hd.
  { cbn [run_steps]. unfold pret.
    rewrite app_nil_r. apply (f_equal length) in Hd. rewrite length_drop in Hd. cbn in Hd.
    replace (j <? length subs)%nat with false by (symmetry; apply Nat.ltb_ge; lia).
    by rewrite orb_false_r. }
  assert (j < length subs)%nat as Hj.
  { apply (f_equal length) in Hd. rewrite length_drop in Hd. cbn in Hd. lia. }
  assert (is_batch sub = false) as ->.
  { apply (proj1 (Forall_forall _ _) Hb). rewrite <- (take_drop j subs), Hd. set_solver. }
  destruct (Nat.ltb_spec j (length subs)) as [_|?]; [|lia].
  destruct (Z.ltb_spec (Z.of_nat j) skip) as [Hs|Hs].
  - rewrite run_steps_cons. cbn [step_run]. unfold pbind at 1 2, pret at 1.
    destruct (call current_revision st) as [[rev|x] st1]; [|done].
    rewrite IH by lia. destruct (run_steps _ st1) as [[rs|x] st2]; [|done].
    rewrite <- app_assoc. do 3 f_equal. f_equal.
    destruct (Nat.ltb_spec (S j) (length subs)) as [|Hn]; [done|]. unfold batch_stages.
    symmetry. apply Z.ltb_ge. lia.
  - pose proof (run_length subs j) as Hrl. rewrite Hd in Hrl.
    set (run := map_while groupable (take MAX_RUN (sub :: rest))) in *.
    assert (batch_stages subs skip = true) as Hst by (apply Z.ltb_lt; lia).
    assert (∀ end_, (j < end_)%nat → (end_ ≤ length subs)%nat →
      (staged || (end_ =? length subs)%nat
         || ((end_ <? length subs)%nat && batch_stages subs skip)) = staged || (true && batch_stages subs skip)) as Hfl.
    { intros e He1 He2. rewrite Hst.
      destruct staged, (Nat.eqb_spec e (length subs)), (Nat.ltb_spec e (length subs)); (done || lia). }
    destruct (Nat.ltb_spec 1 (length run)) as [Hr|Hr].
    + rewrite sub_staged_code, sub_staged_steps, run_steps_cons. cbn [step_run]. unfold pbind, pret.
      destruct (call (apply_many run) _) as [[rs|x] st1]; [|done].
      rewrite IH by lia. destruct (run_steps _ st1) as [[rs1|x] st2]; [|done].
      by rewrite <- app_assoc, Hfl by lia.
    + rewrite sub_staged_code, sub_staged_steps, run_steps_cons. cbn [step_run]. unfold pbind, pret.
      destruct (apply_data _ _ _ _) as [[rs|x] st1]; [|done].
      rewrite IH by lia. destruct (run_steps _ st1) as [[rs1|x] st2]; [|done].
      by rewrite <- app_assoc, Hfl by lia.
Qed.
End batch.

(** ** The steps of an entry *)

Section entries.
Context {Mb : Type} `{MembershipOps Mb}.
Context `{BincodeLaws (option LogId)} `{BincodeLaws (StoredMembership Mb)}.

Definition id_bytes (id : LogId) : bytes := default [] (serialize (Some id)).
Definition mb_bytes (m : StoredMembership Mb) : bytes := default [] (serialize m).

Lemma id_bytes_ok id : serialize (Some id) = Some (id_bytes id).
Proof. unfold id_bytes. by destruct (serialize_ok (Some id)) as [b ->]. Qed.

Lemma mb_bytes_ok m : serialize m = Some (mb_bytes m).
Proof. unfold mb_bytes. by destruct (serialize_ok m) as [b ->]. Qed.

(** Requests already applied of the batch at [index]. *)
Definition skip_of (progress : option (Z * Z)) (index : Z) : Z :=
  match progress with
  | Some (i, done_) => if i =? index then done_ else 0
  | None => 0
  end.

Definition entry_steps (clock : nat → Z) (skip : Z) (e : Entry Mb) : list Step :=
  let index := lid_index (entry_id e) in
  let ab := id_bytes (entry_id e) in
  match entry_payload e with
  | PlMembership m => [SMeta ab (Some (mb_bytes (mkStored (Some (entry_id e)) m))); SRead]
  | PlNormal (EntBatch subs) =>
      SMark :: batch_steps (length subs) clock index subs skip ab 0
      ++ (if (0 <? length subs)%nat && batch_stages subs skip then [] else [SMeta ab None])
  | PlNormal data => [SMeta ab None; SReq (clock 0%nat) data index]
  | PlBlank => [SMeta ab None; SRead]
  end.

(** The entry's response, from the answers of its steps. *)
Definition entry_response (e : Entry Mb) (rs : list LogResponse) : LogResponse :=
  match entry_payload e with
  | PlNormal (EntBatch _) => RspBatch rs
  | _ => default (RspNoop 0) (head rs)
  end.

Definition membership_after (e : Entry Mb) (m : StoredMembership Mb) : StoredMembership Mb :=
  match entry_payload e with
  | PlMembership m' => mkStored (Some (entry_id e)) m'
  | _ => m
  end.

Definition proposals_after (e : Entry Mb) (p : ProposalLog) : ProposalLog :=
  match entry_payload e with
  | PlNormal (EntBatch subs) => pl_record (lid_index (entry_id e)) (Z.of_nat (length subs)) p
  | PlNormal _ => pl_record (lid_index (entry_id e)) 1 p
  | _ => p
  end.

(** No batch inside a batch. *)
Definition flat (e : Entry Mb) : Prop :=
  match entry_payload e with
  | PlNormal (EntBatch subs) => Forall (λ s, is_batch s = false) subs
  | _ => True
  end.

Section one.
Context {E : Type} `{KvStore E}.
Context `{Bincode KvRecord, Bincode KeyIndex, Bincode LeaseRecord,
          Bincode StoredUser, Bincode StoredRole}.

Definition sm_after (e : Entry Mb) (st : Inner E) (sm : Sm E Mb) : Sm E Mb :=
  mkSm st (Some (entry_id e)) (membership_after e (last_membership sm)) (current_snapshot sm)
    (snapshot_idx sm) (batch_progress sm) (lid_index (entry_id e) + 1) (proposals_after e (proposals sm)).

Lemma apply_batch_entry_steps clock index subs skip ab (st : Inner E) :
  Forall (λ s, is_batch s = false) subs →
  apply_batch_entry clock index subs skip ab st =
  match run_steps (SMark :: batch_steps (length subs) clock index subs skip ab 0
      ++ (if (0 <? length subs)%nat && batch_stages subs skip then [] else [SMeta ab None])) st with
  | (Ok rs, st') => (Ok (RspBatch rs), st')
  | (Err x, st') => (Err x, st')
  end.
Proof.
  intros Hf. rewrite run_steps_cons. cbn [step_run]. unfold apply_batch_entry, pbind, pret.
  destruct (call stage_batched_marker st) as [[[]|x] st1]; [|done].
  rewrite run_steps_app, batch_loop_steps by (done || lia).
  destruct (run_steps _ st1) as [[rs|x] st2]; [|done].
  cbn [app orb]. destruct (_ && _); cbn; by rewrite app_nil_r.
Qed.

Lemma apply_entry_steps clock e (sm : Sm E Mb) :
  flat e →
  apply_entry clock e sm =
  match run_steps (entry_steps clock (skip_of (batch_progress sm) (lid_index (entry_id e))) e)
          (mvcc sm) with
  | (Ok rs, st') => (Ok (entry_response e rs), sm_after e st' sm)
  | (Err x, st') => (Err x, set_mvcc st' sm)
  end.
Proof.
  intros Hf. unfold apply_entry, serialize_or, plift. rewrite id_bytes_ok.
  destruct e as [id pl]. unfold flat in Hf. unfold entry_steps, entry_response, sm_after, membership_after, proposals_after.
  cbn [entry_id entry_payload] in *. cbn [ok_or].
  destruct pl as [|data|m].
  - by destruct sm.
  - destruct data as [| | | | | | | |subs|].
    9: { unfold pbind, pget, on_mvcc. cbn -[run_steps batch_steps apply_batch_entry].
         fold (skip_of (batch_progress sm) (lid_index id)).
         rewrite apply_batch_entry_steps by done.
         by destruct (run_steps _ _) as [[rs|x] st']. }
    all: rewrite run_steps_cons; unfold pbind, on_mvcc; cbn -[apply_data];
      unfold pbind; destruct (apply_data _ _ _ _) as [[rs|x] st']; done.
  - rewrite run_steps_cons. cbn. unfold pbind, on_mvcc, plift. rewrite mb_bytes_ok. cbn.
    by destruct sm.
Qed.
End one.
End entries.
