(* ===== verification/SmTwin.v ===== *)
(** * Steps of two members

    A step of the state machine plans the same batch and gives the same
    answer on every member that holds the same replicated rows; [landed]
    says what it left on a disk, whether its commit succeeded or failed. *)

From S2P Require Import Prelude Revision Record KvStore Lease Cache Auth Store StoreCore.
From S2P Require Import StoreSpec StoreInv StoreApply StoreCommit StoreOpen StoreWrite StoreRead.
From S2P Require Import StoreTxn StoreMany StoreCompact StoreSide StoreLease StoreMeta StoreTwin.
From S2P Require Import StorePlan SnapshotPolicy StateMachine SmSteps.

(** ** Well-formed requests *)

Definition request_wf (d : LogEntry) : Prop :=
  match d with
  | EntApply ms => Forall mutation_wf ms ∧ Z.of_nat (length ms) ≤ i64_max
  | EntTxn _ succ fail =>
      ops_ok succ ∧ ops_ok fail ∧
      Z.of_nat (ops_size succ) ≤ i64_max ∧ Z.of_nat (ops_size fail) ≤ i64_max
  | EntLeaseGrant id _ _ => is_i64 id
  | EntLeaseRevoke id => lease_scannable id
  | EntClusterId id => 0 < id < two64
  | EntBatch _ => False
  | _ => True
  end.

Definition step_wf (s : Step) : Prop :=
  match s with
  | SReq _ d _ => request_wf d
  | SRun items => Forall item_ok items ∧ (length items ≤ MAX_RUN)%nat
  | _ => True
  end.

Lemma groupable_ok d item : groupable d = Some item → request_wf d → item_ok item.
Proof.
  destruct d as [ms|cs succ fail| | | | | | | |]; try done; cbn [groupable request_wf].
  - intros Hg [Hms Hlen]. unfold item_ok. pose proof Hg as Hi. unfold ApplyItem_mutations in Hi.
    destruct (_ || _); [|done]. by simplify_eq.
  - intros Hg (H1 & H2 & H3 & H4). unfold item_ok. pose proof Hg as Hi. unfold ApplyItem_txn in Hi.
    destruct (_ && _); [|done]. by simplify_eq.
Qed.

Lemma map_while_ok l :
  Forall request_wf l → Forall item_ok (map_while groupable l).
Proof.
  induction 1 as [|d l Hd Hl IH]; cbn; [done|].
  destruct (groupable d) as [item|] eqn:Hg; [|done]. constructor; [|done]. by eapply groupable_ok.
Qed.

Lemma request_not_batch d : request_wf d → is_batch d = false.
Proof. by destruct d. Qed.

Section roomy.
Context {E : Type}.

(** Room for one more step: the revision, the lease counter and the number
    of keys are short of the largest [i64]. *)
Definition roomy (st : Inner E) : Prop :=
  current_rev (write_state st) + Z.of_nat MAX_RUN ≤ i64_max ∧
  next_lease_id (write_state st) < i64_max ∧
  Z.of_nat (base.size (index_map (index st))) ≤ i64_max.
End roomy.

(** ** Plans of the state machine's calls *)

Section mplanned.
Context {E : Type} `{KvStoreLaws E} `{BincodeLaws KvRecord, BincodeLaws KeyIndex}.

(** [planned], with the state machine's errors. *)
Definition mplanned {A} (st : Inner E) (out : result ApplyError A * Inner E)
    (ans : result ApplyError A) (p : option WriteBatch) : Prop :=
  match p with
  | None => out.1 = ans ∧ idle st out.2
  | Some b =>
      is_ok ans = true ∧ clean b ∧
      match out.1 with
      | Ok _ => out.1 = ans ∧ took st out.2 b
      | Err x => (∃ y, x = ErrMvcc (Storage y)) ∧ broke st out.2 b
      end
  end.

Definition lift_ans {A} (r : MvccResult A) : result ApplyError A :=
  match r with Ok a => Ok a | Err e => Err (ErrMvcc e) end.

Lemma mplanned_call {A} st (m : prog (Inner E) MvccError A) ans p :
  planned st (m st) ans p → mplanned st (call m st) (lift_ans ans) p.
Proof.
  unfold planned, mplanned, call. destruct (m st) as [[a|x] st'], p as [b|]; cbn [fst snd].
  - intros (Ha & Hc & <- & Ht). done.
  - by intros [<- Hi].
  - intros (Ha & Hc & [y ->] & Hb). split_and!; [by destruct ans|done|by eauto|done].
  - by intros [<- Hi].
Qed.

(** The rest of a call makes a response of the answer. *)
Lemma mplanned_bind {A B} st (m : prog (Inner E) ApplyError A) k (f : A → B) ans p :
  mplanned st (m st) ans p →
  (∀ a st', m st = (Ok a, st') → k a st' = (Ok (f a), st')) →
  mplanned st (pbind m k st) (match ans with Ok a => Ok (f a) | Err x => Err x end) p.
Proof.
  unfold mplanned, pbind. destruct (m st) as [[a|x] st'], p as [b|]; cbn [fst snd]; intros Hm Hk;
    try rewrite (Hk _ _ eq_refl); cbn [fst snd].
  - by destruct Hm as (Ha & Hc & <- & Ht).
  - by destruct Hm as [<- Hi].
  - destruct Hm as (Ha & Hc & [y ->] & Hb). split_and!; [by destruct ans|done|by eauto|done].
  - by destruct Hm as [<- Hi].
Qed.
End mplanned.

Section requests.
Context {E1 E2 : Type} `{KvStoreLaws E1} `{KvStoreLaws E2}.
Context `{BincodeLaws KvRecord, BincodeLaws KeyIndex, BincodeLaws LeaseRecord}.
Context `{BincodeLaws StoredUser, BincodeLaws StoredRole}.
Context (st1 : Inner E1) (st2 : Inner E2) (Htw : twins st1 st2).

Definition mplan_alike {A} (f1 : prog (Inner E1) ApplyError A) (f2 : prog (Inner E2) ApplyError A)
    : Prop :=
  ∃ ans p, mplanned st1 (f1 st1) ans p ∧ mplanned st2 (f2 st2) ans p.

Lemma malike_call {A B} (m1 : prog (Inner E1) MvccError A) (m2 : prog (Inner E2) MvccError A)
    k1 k2 (f : A → B) :
  plan_alike st1 st2 m1 m2 →
  (∀ a st', k1 a st' = (Ok (f a), st')) → (∀ a st', k2 a st' = (Ok (f a), st')) →
  mplan_alike (pbind (call m1) k1) (pbind (call m2) k2).
Proof.
  intros (ans & p & P1 & P2) K1 K2. eexists _, p.
  split; eapply mplanned_bind; [by apply mplanned_call| |by apply mplanned_call|]; auto.
Qed.

Lemma cluster_revision {E} `{KvStoreLaws E} (st : Inner E) id a st' :
  store_inv st → call (apply_cluster_id id) st = (Ok a, st') →
  call current_revision st' = (Ok (current_rev (write_state st)), st').
Proof.
  intros Hst. unfold call. rewrite apply_cluster_id_run. unfold current_revision.
  change (current_rev (write_state st)) with (rv_current (ws_revs (write_state st))).
  rewrite <- (si_view _ Hst).
  destruct (batch_is_empty _); [by intros [= <- <-]|].
  destruct (commit _ _ _) as [[[]|x] e]; by intros [= <- <-].
Qed.

Lemma request_alike now1 now2 d index :
  request_wf d → roomy st2 →
  mplan_alike (apply_request now1 d index) (apply_request now2 d index).
Proof.
  intros Hwf (Hr1 & Hr2 & Hr3). pose proof (twins_write_state _ _ Htw) as Hws.
  pose proof (twins_index _ _ Htw) as Hix.
  destruct d; cbn [apply_request request_wf] in *.
  - destruct Hwf as [Hms Hlen].
    apply (malike_call _ _ _ _ (λ x : Z * list MutationResult, RspApply x.1 x.2)); [|by intros []..].
    apply apply_alike; [done|done|rewrite Hws; unfold MAX_RUN in Hr1; lia|done].
  - destruct Hwf as (H1' & H2' & H3' & H4').
    apply (malike_call _ _ _ _ RspTxn); [|done..].
    apply txn_alike; [done|rewrite Hws; unfold MAX_RUN in Hr1; lia|done..].
  - apply (malike_call _ _ _ _ RspCompact); [|done..]. by apply compact_alike.
  - apply (malike_call _ _ _ _ RspLeaseGrant); [|done..].
    apply grant_alike; [done|done|by rewrite Hws].
  - apply (malike_call _ _ _ _ RspLeaseRevoke); [|done..].
    apply revoke_alike; [done|done|rewrite Hws; unfold MAX_RUN in Hr1; lia|by rewrite Hix].
  - apply (malike_call _ _ _ _ RspLeaseKeepAlive); [|done..]. by apply keepalive_alike.
  - apply (malike_call _ _ _ _ RspNoop); [|done..].
    apply (alike_still _ _ Htw _ _ (Ok (current_rev (write_state st1)))).
    + apply current_revision_run, (tw_left _ _ Htw).
    + rewrite Hws. apply current_revision_run, (tw_right _ _ Htw).
  - apply (malike_call _ _ _ _ (λ x : Z * result AuthApplyError (), RspAuth x.1 index x.2)); [|by intros []..].
    by apply auth_alike.
  - done.
  - destruct (cluster_alike _ _ Htw id Hwf) as (ans & p & P1 & P2).
    eexists _, p. split; apply (mplanned_bind _ _ _ (λ _, RspNoop (current_rev (write_state st1))) (lift_ans ans));
      [by apply mplanned_call| |by apply mplanned_call|]; intros a st' Ha.
    + unfold pbind. by rewrite (cluster_revision _ _ _ _ (tw_left _ _ Htw) Ha).
    + unfold pbind. rewrite (cluster_revision _ _ _ _ (tw_right _ _ Htw) Ha). by rewrite Hws.
Qed.

Lemma idle_write_state {E} `{KvStoreLaws E} (st st' : Inner E) :
  store_inv st → idle st st' → write_state st' = write_state st.
Proof.
  intros Hst [Hi He _]. apply twins_write_state. split; [done..|]. by rewrite He.
Qed.

(** What [apply_data] makes of a refusal. *)
Definition data_ans (rev : Z) (ans : result ApplyError LogResponse) : result ApplyError LogResponse :=
  match ans with
  | Err (ErrMvcc e) => match refusal e with Some rf => Ok (RspRefused rev rf) | None => ans end
  | _ => ans
  end.

Lemma mplanned_data {E} `{KvStoreLaws E} (st : Inner E) now d index ans p :
  store_inv st → mplanned st (apply_request now d index st) ans p →
  mplanned st (apply_data now d index st) (data_ans (current_rev (write_state st)) ans) p.
Proof.
  intros Hst. unfold mplanned, apply_data. destruct p as [b|].
  - intros (Hok & Hcl & Hm). destruct ans as [r|]; [|done]. cbn [data_ans is_ok].
    destruct (apply_request now d index st) as [[r'|x] st']; cbn [fst snd] in *; [done|].
    destruct Hm as [[y ->] Hb]. cbn. by eauto.
  - intros [Ha Hi]. destruct (apply_request now d index st) as [r st']; cbn [fst snd] in *. subst r.
    destruct ans as [r|[e|msg]]; cbn [data_ans]; [done| |done].
    destruct (refusal e) as [rf|]; [|done].
    unfold pbind, call. rewrite (current_revision_run st' (id_inv _ _ Hi)). cbn.
    by rewrite (idle_write_state st st' Hst Hi).
Qed.

Lemma data_alike now1 now2 d index :
  request_wf d → roomy st2 → mplan_alike (apply_data now1 d index) (apply_data now2 d index).
Proof.
  intros Hwf Hr. destruct (request_alike now1 now2 d index Hwf Hr) as (ans & p & P1 & P2).
  exists (data_ans (current_rev (write_state st1)) ans), p.
  split; [by apply mplanned_data; [apply Htw|]|].
  rewrite (twins_write_state _ _ Htw). by apply mplanned_data; [apply Htw|].
Qed.

Lemma run_alike items :
  step_wf (SRun items) → roomy st2 →
  mplan_alike (let* rs := call (apply_many items) in pret (outcome_response <$> rs))
    (let* rs := call (apply_many items) in pret (outcome_response <$> rs)).
Proof.
  intros [Hit Hlen] (Hr1 & _). apply (malike_call _ _ _ _ (λ rs, outcome_response <$> rs)); [|done..].
  apply many_alike; [done|done|]. rewrite (twins_write_state _ _ Htw). lia.
Qed.
End requests.

(** ** A member's own rows *)

Definition own_rows (ts1 ts2 : Tables) : Prop :=
  ∀ k, raft_key k → ts1 !! (TABLE_META, k) = ts2 !! (TABLE_META, k).

#[global] Instance own_rows_equiv : Equivalence own_rows.
Proof.
  split.
  - by intros ts k _.
  - intros ts1 ts2 H k Hk. symmetry. by apply H.
  - intros ts1 ts2 ts3 H1 H2 k Hk. rewrite H1 by done. by apply H2.
Qed.

#[global] Instance apply_batch_own b : Proper (own_rows ==> own_rows) (apply_batch b).
Proof.
  induction b as [|op b IH]; intros ts1 ts2 H; [done|].
  change (apply_batch (op :: b) ?t) with (apply_batch b (apply_op op t)). apply IH.
  intros k Hk. rewrite !apply_op_lookup. specialize (H k Hk). destruct op; repeat case_decide; done.
Qed.

Lemma clean_own b ts : clean b → own_rows (apply_batch b ts) ts.
Proof.
  intros Hcl k Hk. induction b as [|op b IH] using rev_ind; [done|].
  rewrite apply_batch_snoc, apply_op_lookup.
  assert (clean b) as Hb by (intros o Ho; apply Hcl; set_solver).
  specialize (IH Hb). specialize (Hcl op ltac:(set_solver)).
  destruct (decide (op_table op = TABLE_META)) as [Ht|Ht].
  - destruct (Hcl Ht) as (k0 & v0 & -> & Hn & _). case_decide as Hd; [|done].
    by destruct Hd as [_ ->].
  - destruct op; repeat case_decide; naive_solver.
Qed.

(** The counters have rows, of eight bytes: [open] has nothing to write. *)
Definition booted (ts : Tables) : Prop :=
  ∀ k, k ∈ [META_KEY_CURRENT_REV; META_KEY_COMPACT_REV; META_KEY_NEXT_LEASE_ID] →
    ∃ v, ts !! (TABLE_META, k) = Some v ∧ length v = 8%nat.

#[global] Instance booted_same : Proper (same_rows ==> iff) booted.
Proof.
  assert (∀ ts1 ts2, same_rows ts1 ts2 → booted ts1 → booted ts2) as Hto.
  { intros ts1 ts2 Hs Hb k Hk. rewrite <- (Hs TABLE_META k); [by apply Hb|].
    right. split; [done|]. intros (H1 & H2 & H3 & _). set_solver. }
  intros ts1 ts2 Hs. split; apply Hto; [done|by symmetry].
Qed.

Lemma clean_booted b ts : clean b → booted ts → booted (apply_batch b ts).
Proof.
  intros Hcl Hbt. induction b as [|op b IH] using rev_ind; [done|].
  assert (clean b) as Hb by (intros o Ho; apply Hcl; set_solver).
  specialize (IH Hb). specialize (Hcl op ltac:(set_solver)). intros k Hk.
  rewrite apply_batch_snoc, apply_op_lookup. specialize (IH k Hk).
  destruct (decide (op_table op = TABLE_META)) as [Ht|Ht].
  - destruct (Hcl Ht) as (k0 & v0 & -> & _ & Hl). case_decide; [by eauto|done].
  - destruct op; repeat case_decide; naive_solver.
Qed.

(** The engine failed a commit; nothing else stops a replay. *)
Definition engine_failed (x : ApplyError) : Prop := ∃ y, x = ErrMvcc (Storage y).

Section landed.
Context {E1 E2 : Type} `{KvStoreLaws E1} `{KvStoreLaws E2}.
Context `{BincodeLaws KvRecord, BincodeLaws KeyIndex}.

(** The rows as the next commit would leave them. *)
Definition eff {E} `{KvStore E} (st : Inner E) : Tables :=
  apply_batch (put_rows TABLE_META (pending_raft_meta st)) (contents (engine st)).

(** The disk after a step: as before, or with the step's data and everything
    staged. *)
Definition landed {E} `{KvStore E} (st st' : Inner E) (data : Tables) : Prop :=
  contents (engine st') = contents (engine st) ∨
  (own_rows (contents (engine st')) (eff st) ∧ same_rows (contents (engine st')) data).

Lemma with_meta_own {E} `{KvStoreLaws E} (st : Inner E) b :
  clean b → own_rows (apply_batch (with_meta st b) (contents (engine st))) (eff st).
Proof.
  intros Hcl. unfold with_meta, eff. rewrite apply_batch_app. by rewrite (clean_own b _ Hcl).
Qed.

Lemma planned_landed {A} (st1 : Inner E1) (st2 st2' : Inner E2) out (a : A) ans p :
  twins st1 st2 → booted (contents (engine st2)) →
  mplanned st1 out ans p → mplanned st2 (Ok a, st2') ans p →
  store_inv st2' ∧ booted (contents (engine st2')) ∧ landed st1 out.2 (contents (engine st2')) ∧
  match out.1 with
  | Ok r => r = a ∧ twins out.2 st2' ∧ own_rows (eff out.2) (eff st1)
  | Err x => engine_failed x
  end.
Proof.
  intros Htw Hbt. unfold mplanned. destruct p as [b|]; cbn [fst snd].
  - intros (_ & Hcl & M1) (_ & _ & Ha & T2). pose proof (with_meta_own st1 b Hcl) as Hown.
    assert (∀ ts, ts = apply_batch (with_meta st1 b) (contents (engine st1)) →
      same_rows ts (contents (engine st2'))) as Hsame.
    { intros ts ->. rewrite (tk_rows _ _ _ T2), !with_meta_same by apply Htw. by rewrite (tw_rows _ _ Htw). }
    split; [apply T2|]. split.
    { rewrite (tk_rows _ _ _ T2), with_meta_same by apply Htw. by apply clean_booted. }
    destruct out as [[r|x] st1']; cbn [fst snd] in *.
    + destruct M1 as [Hr T1]. split.
      * right. rewrite (tk_rows _ _ _ T1) at 1. split; [done|]. apply Hsame, T1.
      * split_and!; [congruence|by eapply took_twins|].
        unfold eff at 1. rewrite (tk_pending _ _ _ T1). cbn. by rewrite (tk_rows _ _ _ T1).
    + destruct M1 as [Hx Hb]. split; [|done]. destruct Hb as [Hb|Hb]; [by left|right]. rewrite Hb at 1.
      split; [done|by apply Hsame].
  - intros [R1 I1] [R2 I2]. split; [apply I2|]. split; [by rewrite (id_engine _ _ I2)|]. split.
    { left. by rewrite (id_engine _ _ I1). }
    rewrite R1, <- R2. split_and!; [done|by eapply idle_twins|].
    unfold eff. by rewrite (id_engine _ _ I1), (id_pending _ _ I1).
Qed.
End landed.
