(* ===== verification/SmReplay.v ===== *)
(** * Crashes and replay

    A member that crashes anywhere in an apply restarts from what its disk
    holds: [open_sm] reads the applied index and the batch progress back, and
    the log is replayed from there.  Every disk a crash can leave stands for
    a position in the list of steps, with the data of exactly the steps
    before it. *)

From S2P Require Import Prelude Revision Record KvStore Lease Cache Auth Store StoreCore.
From S2P Require Import StoreSpec StoreInv StoreApply StoreCommit StoreOpen StoreWrite StoreRead.
From S2P Require Import StoreTxn StoreMany StoreCompact StoreSide StoreLease StoreMeta StoreTwin.
From S2P Require Import StorePlan SnapshotPolicy StateMachine SmSteps SmTwin.

(** ** The steps that count *)

(** Steps that leave the replicated rows and the position as they are. *)
Definition harmless (s : Step) : bool :=
  match s with SMark | SRead | SFlush => true | _ => false end.

(** The clock of a member is its own. *)
Definition erase (s : Step) : Step :=
  match s with SReq _ d index => SReq 0 d index | _ => s end.

Definition core (l : list Step) : list Step :=
  erase <$> base.filter (λ s, harmless s = false) l.

Lemma core_app l1 l2 : core (l1 ++ l2) = core l1 ++ core l2.
Proof. unfold core. by rewrite filter_app, fmap_app. Qed.

Lemma core_harmless s l : harmless s = true → core (s :: l) = core l.
Proof. intros Hs. unfold core. by rewrite filter_cons_False by (by rewrite Hs). Qed.

Lemma core_cons s l : harmless s = false → core (s :: l) = erase s :: core l.
Proof. intros Hs. unfold core. by rewrite filter_cons_True. Qed.

Lemma erase_wf s s' : erase s = erase s' → step_wf s → step_wf s'.
Proof. by destruct s, s'; intros [=]; simplify_eq/=. Qed.

(** ** Staged rows, by key *)

Lemma staged_snoc rows a v ts k :
  staged_meta (rows ++ [(a, v)]) ts k = if decide (a = k) then Some v else staged_meta rows ts k.
Proof.
  unfold staged_meta, put_rows. rewrite fmap_app, apply_batch_app. cbn [fmap list_fmap].
  change (apply_batch [?o] ?t) with (apply_op o t). rewrite apply_op_lookup. cbn [fst snd].
  repeat case_decide; naive_solver.
Qed.

Lemma staged_filter (P : bytes * bytes → Prop) `{∀ r, Decision (P r)} rows ts k :
  (∀ r, r.1 = k → P r) → staged_meta (base.filter P rows) ts k = staged_meta rows ts k.
Proof.
  intros HP. induction rows as [|[a v] rows IH] using rev_ind; [done|].
  rewrite filter_app, staged_snoc. rewrite filter_cons. case_decide as Hp.
  - rewrite filter_nil, staged_snoc. by rewrite IH.
  - rewrite filter_nil, app_nil_r, IH. case_decide; [|done]. by destruct Hp; apply HP.
Qed.

(** ** Positions *)

Section positions.
Context {Mb : Type} `{MembershipOps Mb}.
Context `{BincodeLaws (option LogId)} `{BincodeLaws (StoredMembership Mb)}.

(** What [open_sm] reads back. *)
Record Pos := mkPos {
  p_id : option LogId;
  p_mb : StoredMembership Mb;
  p_bp : option (Z * Z)
}.

Definition shows (ts : Tables) (pos : Pos) : Prop :=
  match ts !! (TABLE_META, META_KEY_RAFT_APPLIED) with
  | Some b => deserialize b = Some (p_id pos)
  | None => p_id pos = None
  end ∧
  match ts !! (TABLE_META, META_KEY_RAFT_MEMBERSHIP) with
  | Some b => deserialize b = Some (p_mb pos)
  | None => p_mb pos = mkStored None mb_default
  end ∧
  ts !! (TABLE_META, META_KEY_RAFT_BATCH) ≫= decode_progress = p_bp pos.

#[global] Instance shows_own : Proper (own_rows ==> eq ==> iff) shows.
Proof.
  intros ts1 ts2 Ho pos ? <-. unfold shows. rewrite (Ho _ raft_applied_key),
    (Ho _ raft_membership_key), (Ho _ raft_batch_key). done.
Qed.

Definition pos_step (s : Step) (pos : Pos) : Pos :=
  match s with
  | SProgress b => mkPos (p_id pos) (p_mb pos) (decode_progress b)
  | SMeta a m =>
      mkPos (default None (deserialize a)) (default (p_mb pos) (m ≫= deserialize)) (p_bp pos)
  | _ => pos
  end.

(** The metadata a step stages is an encoding. *)
Definition meta_wf (s : Step) : Prop :=
  match s with
  | SMeta a m => (∃ id, a = id_bytes id) ∧
      match m with Some b => ∃ x : StoredMembership Mb, b = mb_bytes x | None => True end
  | _ => True
  end.

Lemma id_bytes_decode id : deserialize (id_bytes id) = Some (Some id).
Proof. apply deserialize_serialize, id_bytes_ok. Qed.

Lemma mb_bytes_decode (m : StoredMembership Mb) : deserialize (mb_bytes m) = Some m.
Proof. apply deserialize_serialize, mb_bytes_ok. Qed.

Section open.
Context {E : Type} `{KvStoreLaws E}.
Context `{BincodeLaws KvRecord, BincodeLaws KeyIndex, BincodeLaws LeaseRecord}.
Context `{BincodeLaws StoredUser, BincodeLaws StoredRole}.

(** [open_sm] reads the position the disk shows. *)
Lemma open_sm_shows (st : Inner E) pos latest :
  shows (contents (engine st)) pos →
  open_sm st latest = Ok (mkSm st (p_id pos) (p_mb pos) latest 0 (p_bp pos)
                            (next_index (p_id pos)) ProposalLog_default).
Proof.
  intros (Ha & Hm & Hb). unfold open_sm, read_raft_meta, read_batch_progress, snapshot, pbind, pret.
  unfold snap_get. rewrite Hb.
  destruct (contents (engine st) !! (TABLE_META, META_KEY_RAFT_APPLIED)) as [a|];
    destruct (contents (engine st) !! (TABLE_META, META_KEY_RAFT_MEMBERSHIP)) as [b|];
    rewrite Ha, Hm; done.
Qed.
End open.
End positions.
Arguments Pos : clear implicits.
Arguments mkPos {Mb}.

Definition acts (s : Step) : bool := match s with SReq _ _ _ | SRun _ => true | _ => false end.

Section steps.
Context {Mb : Type} `{MembershipOps Mb}.
Context `{BincodeLaws (option LogId)} `{BincodeLaws (StoredMembership Mb)}.
Context `{BincodeLaws KvRecord, BincodeLaws KeyIndex, BincodeLaws LeaseRecord}.
Context `{BincodeLaws StoredUser, BincodeLaws StoredRole}.

Abbreviation Pos := (Pos Mb).

Section one.
Context {E : Type} `{KvStoreLaws E}.

Lemma flush_planned (st : Inner E) :
  store_inv st →
  planned st (flush_raft_meta st) (Ok ()) (if bool_decide (pending_raft_meta st = []) then None else Some []).
Proof.
  intros Hst. unfold flush_raft_meta, fold_raft_meta, pbind.
  destruct (pending_raft_meta st) as [|r rows] eqn:Hp.
  { by apply planned_idle. }
  rewrite bool_decide_false by done. unfold WriteBatch_new. cbn [app]. unfold pget, engine_commit.
  cbn [engine set_pending_raft_meta].
  change (put_rows TABLE_META (r :: rows)) with ([] ++ put_rows TABLE_META (r :: rows)).
  rewrite <- Hp. fold (with_meta st []).
  apply (planned_commit st [] _ () (λ e, set_engine e (set_pending_raft_meta [] st))
    (λ e, set_engine e (set_pending_raft_meta [] st))); [apply clean_nil| |done].
  intros e He. split; [|done..]. destruct (entered_ok st e (auth st) (with_meta st []) Hst He) as [Hi _]; [|exact Hi].
  by apply pending_quiet.
Qed.

Definition shows_rows (rows : list (bytes * bytes)) (ts : Tables) (pos : Pos) : Prop :=
  match staged_meta rows ts META_KEY_RAFT_APPLIED with
  | Some b => deserialize b = Some (p_id pos)
  | None => p_id pos = None
  end ∧
  match staged_meta rows ts META_KEY_RAFT_MEMBERSHIP with
  | Some b => deserialize b = Some (p_mb pos)
  | None => p_mb pos = mkStored None mb_default
  end ∧
  staged_meta rows ts META_KEY_RAFT_BATCH ≫= decode_progress = p_bp pos.

Lemma staging_step (st : Inner E) s :
  store_inv st → acts s = false → s ≠ SFlush → meta_wf (Mb := Mb) s →
  ∃ rs st', step_run s st = (Ok rs, st') ∧ store_inv st' ∧ engine st' = engine st ∧
    ∀ pos : Pos, shows (eff st) pos → shows (eff st') (pos_step s pos).
Proof.
  intros Hst Ha Hf Hm.
  destruct s as [| | |b|a m|now d i|items]; try done; cbn [step_run].
  - unfold call, stage_batched_marker, pbind, pmodify. destruct (batched st).
    { by exists [], st. }
    eexists _, _. split; [reflexivity|]. split_and!; [|done|].
    + apply (stage_inv (set_batched true st)); [by destruct Hst; split|].
      intros r [Hr|Hr]%elem_of_app; [by apply (si_pending _ Hst)|].
      apply list_elem_of_singleton in Hr as ->. apply batched_key.
    + intros pos (Sa & Sm & Sb). refine (_ : shows_rows (_ ++ [_]) (contents (engine st)) _). unfold shows_rows.
      by rewrite !staged_snoc.
  - unfold call, pbind. rewrite current_revision_run by done. by eexists _, st.
  - eexists _, _. split; [reflexivity|]. split_and!; [|done|].
    + apply stage_inv; [done|]. intros r [[_ Hr]%list_elem_of_filter|Hr]%elem_of_app;
        [by apply (si_pending _ Hst)|].
      apply list_elem_of_singleton in Hr as ->. apply raft_batch_key.
    + intros pos (Sa & Sm & Sb). refine (_ : shows_rows (_ ++ [_]) (contents (engine st)) _). unfold shows_rows.
      rewrite !staged_snoc. cbn [pos_step p_id p_mb p_bp].
      rewrite !staged_filter by (by intros r ->). done.
  - eexists _, _. split; [reflexivity|]. split_and!; [|done|].
    + apply stage_inv; [done|]. by apply applied_rows_keys.
    + intros pos (Sa & Sm & Sb). refine (_ : shows_rows (applied_rows st a m) (contents (engine st)) _). unfold shows_rows.
      destruct Hm as [[id ->] Hx]. cbn [pos_step p_id p_mb p_bp].
      rewrite applied_rows_row, id_bytes_decode. split; [done|].
      unfold applied_rows. destruct m as [b|].
      * destruct Hx as [x ->]. cbn [mbind option_bind]. rewrite mb_bytes_decode.
        rewrite cons_middle, app_assoc, !staged_snoc. cbn [default].
        split; [rewrite decide_True by done; apply mb_bytes_decode|].
        rewrite staged_filter; [done|]. intros r ->. split; [done|]. by right.
      * rewrite !staged_snoc. rewrite !staged_filter; [done|..]; intros r ->; (split; [done|by left]).
Qed.
(** A step that is no request. *)
Lemma quiet_step (st : Inner E) s :
  store_inv st → acts s = false → meta_wf (Mb := Mb) s →
  let out := step_run s st in
  landed st out.2 (contents (engine st)) ∧
  match out.1 with
  | Ok _ =>
      store_inv out.2 ∧ same_rows (contents (engine out.2)) (contents (engine st)) ∧
      ∀ pos : Pos, shows (eff st) pos → shows (eff out.2) (pos_step s pos)
  | Err x => engine_failed x
  end.
Proof.
  intros Hst Ha Hm out. assert (s = SFlush ∨ s ≠ SFlush) as [->|Hf] by (destruct s; auto).
  - pose proof (mplanned_call st _ _ _ (flush_planned st Hst)) as Hp.
    assert (out = match call flush_raft_meta st with
                  | (Ok _, st') => (Ok [], st') | (Err x, st') => (Err x, st') end) as Hout.
    { unfold out. cbn [step_run]. unfold pbind. by destruct (call flush_raft_meta st) as [[[]|]]. }
    unfold mplanned in Hp. destruct (bool_decide (pending_raft_meta st = [])).
    + destruct Hp as [Hr Hi]. destruct (call flush_raft_meta st) as [r st']; cbn [fst snd] in *.
      subst r. cbn [lift_ans] in Hout. rewrite Hout. cbn [fst snd]. split.
      { left. by rewrite (id_engine _ _ Hi). }
      split_and!; [apply Hi|by rewrite (id_engine _ _ Hi)|]. intros pos Hs.
      unfold eff. rewrite (id_engine _ _ Hi), (id_pending _ _ Hi). done.
    + destruct Hp as (_ & Hcl & Hp). pose proof (with_meta_own st [] Hcl) as Hown.
      pose proof (with_meta_same st [] (contents (engine st)) Hst) as Hsame.
      change (apply_batch [] ?t) with t in Hsame.
      destruct (call flush_raft_meta st) as [[[]|x] st']; cbn [fst snd] in *; rewrite Hout;
        cbn [fst snd].
      * destruct Hp as [_ Ht]. split.
        { right. rewrite (tk_rows _ _ _ Ht). done. }
        split_and!; [apply Ht|by rewrite (tk_rows _ _ _ Ht)|]. intros pos Hs.
        unfold eff at 1. rewrite (tk_pending _ _ _ Ht). cbn [put_rows fmap list_fmap].
        change (apply_batch [] ?t) with t. rewrite (tk_rows _ _ _ Ht). by rewrite Hown.
      * destruct Hp as [Hx Hb]. split; [|done]. destruct Hb as [Hb|Hb]; [by left|right]. by rewrite Hb.
  - destruct (staging_step st s Hst Ha Hf Hm) as (rs & st' & Hr & Hi & He & Hs').
    unfold out. rewrite Hr. cbn [fst snd]. split; [left; by rewrite He|].
    by rewrite He.
Qed.
End one.

(** ** The reference run *)

Section reference.
Context {E : Type} `{KvStoreLaws E}.

(** Room at every step of a run. *)
Fixpoint roomy_run (l : list Step) (st : Inner E) : Prop :=
  match l with
  | [] => True
  | s :: l' =>
      roomy st ∧ match step_run s st with (Ok _, st') => roomy_run l' st' | _ => True end
  end.

(** A run without failures, of steps that count as [l]. *)
Definition ref_run (l : list Step) (ref refN : Inner E) : Prop :=
  ∃ raw rs, core raw = l ∧ Forall (meta_wf (Mb := Mb)) raw ∧ roomy_run raw ref ∧
    run_steps raw ref = (Ok rs, refN).

Lemma ref_step s l (ref refN : Inner E) :
  ref_run (s :: l) ref refN → store_inv ref →
  ∃ ref1 s' rs1 ref2, store_inv ref1 ∧
    same_rows (contents (engine ref1)) (contents (engine ref)) ∧
    erase s' = s ∧ meta_wf (Mb := Mb) s' ∧ roomy ref1 ∧ step_run s' ref1 = (Ok rs1, ref2) ∧
    ref_run l ref2 refN.
Proof.
  intros (raw & rs & Hcore & Hm & Hroom & Hrun) Hinv. revert ref rs Hcore Hm Hroom Hrun Hinv.
  induction raw as [|s0 raw IH]; intros ref rs Hcore Hm Hroom Hrun Hinv; [done|].
  inversion_clear Hm as [|? ? Hm0 Hm']. destruct Hroom as [Hr0 Hroom].
  rewrite run_steps_cons in Hrun.
  destruct (step_run s0 ref) as [[rs0|] ref'] eqn:Hs0; [|done].
  destruct (run_steps raw ref') as [[rs'|] ?] eqn:Hrun'; [|done]. simplify_eq/=.
  destruct (harmless s0) eqn:Hh.
  - rewrite core_harmless in Hcore by done.
    pose proof (quiet_step ref s0 Hinv ltac:(by destruct s0) Hm0) as Hq.
    rewrite Hs0 in Hq. destruct Hq as [_ (Hi & Hsame & _)].
    destruct (IH ref' rs' Hcore Hm' Hroom Hrun' Hi) as (ref1 & s' & rs1 & ref2 & ? & Hsm & ?).
    exists ref1, s', rs1, ref2. split_and!; try naive_solver. cbn in Hsame. by rewrite Hsm.
  - rewrite core_cons in Hcore by done. simplify_eq.
    exists ref, s0, rs0, ref'. split_and!; try done. by exists raw, rs'.
Qed.

Lemma ref_done (ref refN : Inner E) :
  ref_run [] ref refN → store_inv ref →
  store_inv refN ∧ same_rows (contents (engine refN)) (contents (engine ref)).
Proof.
  intros (raw & rs & Hcore & Hm & _ & Hrun) Hinv. revert ref rs Hcore Hm Hrun Hinv.
  induction raw as [|s0 raw IH]; intros ref rs Hcore Hm Hrun Hinv.
  { by injection Hrun as _ <-. }
  inversion_clear Hm as [|? ? Hm0 Hm']. rewrite run_steps_cons in Hrun.
  destruct (step_run s0 ref) as [[rs0|] ref'] eqn:Hs0; [|done].
  destruct (run_steps raw ref') as [[rs'|] ?] eqn:Hrun'; [|done]. simplify_eq/=.
  destruct (harmless s0) eqn:Hh; [|by rewrite core_cons in Hcore].
  rewrite core_harmless in Hcore by done.
  pose proof (quiet_step ref s0 Hinv ltac:(by destruct s0) Hm0) as Hq.
  rewrite Hs0 in Hq. destruct Hq as [_ (Hi & Hsame & _)].
  destruct (IH ref' rs' Hcore Hm' Hrun' Hi) as [? Hsm]. split; [done|]. cbn in Hsame. by rewrite Hsm.
Qed.
End reference.
(** ** Runs with a crash *)

Section crash.
Context {E1 E2 : Type} `{KvStoreLaws E1} `{KvStoreLaws E2}.

Lemma act_alike (st1 : Inner E1) (st2 : Inner E2) s1 s2 :
  twins st1 st2 → acts s1 = true → erase s1 = erase s2 → step_wf s1 → roomy st2 →
  mplan_alike st1 st2 (step_run s1) (step_run s2).
Proof.
  intros Htw Ha He Hwf Hr. destruct s1 as [| | | | |now1 d i|items], s2 as [| | | | |now2 d2 i2|items2];
    try done; cbn [erase] in He; simplify_eq; cbn [step_run].
  - destruct (data_alike st1 st2 Htw now1 now2 d2 i2 Hwf Hr) as (ans & p & P1 & P2).
    eexists _, p. split; by eapply (mplanned_bind _ _ _ (λ r, [r])).
  - by apply run_alike.
Qed.

(** Where the rest of the log is applied from a position, and the run it has
    to end in. *)
Context (stands : Pos → list Step → Prop) (refN : Inner E2).

(** A disk a member may be restarted from. *)
Definition disk_ok (ts : Tables) : Prop :=
  ∃ ref pos l, store_inv ref ∧ booted (contents (engine ref)) ∧
    same_rows ts (contents (engine ref)) ∧ shows ts pos ∧ stands pos l ∧
    ref_run l ref refN.

Definition commits (s : Step) : bool := acts s || match s with SFlush => true | _ => false end.

(** Whatever a commit in [l] leaves on disk stands for the steps after it. *)
Fixpoint coherent (pos : Pos) (l : list Step) : Prop :=
  match l with
  | [] => True
  | s :: l' =>
      (commits s = true → stands (pos_step s pos) (core l')) ∧ coherent (pos_step s pos) l'
  end.

Lemma landed_disk (st st' : Inner E1) (ref' : Inner E2) pos l :
  landed st st' (contents (engine ref')) → disk_ok (contents (engine st)) →
  store_inv ref' → booted (contents (engine ref')) → shows (eff st) pos → stands pos l →
  ref_run l ref' refN → disk_ok (contents (engine st')).
Proof.
  intros [He|[Ho Hs]] Hd Hi Hb Hp Hst Hrun; [by rewrite He|].
  exists ref', pos, l. split_and!; try done. by rewrite Ho.
Qed.

Lemma step_disk s l (st : Inner E1) (ref : Inner E2) pos :
  twins st ref → booted (contents (engine ref)) → disk_ok (contents (engine st)) →
  shows (eff st) pos → (commits s = true → stands (pos_step s pos) (core l)) →
  ref_run (core (s :: l)) ref refN → step_wf s → meta_wf (Mb := Mb) s →
  let out := step_run s st in
  disk_ok (contents (engine out.2)) ∧
  match out.1 with
  | Ok _ => ∃ ref', twins out.2 ref' ∧ booted (contents (engine ref')) ∧
      shows (eff out.2) (pos_step s pos) ∧ ref_run (core l) ref' refN
  | Err x => engine_failed x
  end.
Proof.
  intros Htw Hbt Hd Hs Hst Href Hwf Hm out. pose proof (tw_left _ _ Htw) as Hinv.
  pose proof (tw_right _ _ Htw) as Hinv2. destruct (harmless s) eqn:Hh.
  - rewrite core_harmless in Href by done. assert (acts s = false) as Ha by by destruct s.
    pose proof (quiet_step st s Hinv Ha Hm) as [Hl Hok]. fold out in Hl, Hok. split.
    + assert (s = SFlush ∨ s ≠ SFlush) as [->|Hf] by (destruct s; auto).
      * eapply landed_disk; [|done..|by apply Hst|done].
        destruct Hl as [Hl|[Ho Hl]]; [by left|right]. split; [done|].
        etrans; [exact Hl|apply (tw_rows _ _ Htw)].
      * destruct (staging_step st s Hinv Ha Hf Hm) as (rs & st' & Hr & _ & He & _).
        unfold out. rewrite Hr. cbn [snd]. by rewrite He.
    + destruct out as [[rs|x] st']; cbn [fst snd] in *; [|done].
      destruct Hok as (Hi & Hsame & Hsh). exists ref.
      split_and!; [|done|by apply Hsh|done]. split; [done..|]. by rewrite Hsame, (tw_rows _ _ Htw).
  - rewrite core_cons in Href by done.
    destruct (ref_step _ _ _ _ Href Hinv2) as (ref1 & s' & rs1 & ref2 & Hi1 & Hsm & He & Hm1 & Hr1 & Hrun1 & Href').
    assert (twins st ref1) as Htw1 by (split; [done..|]; by rewrite Hsm, (tw_rows _ _ Htw)).
    assert (booted (contents (engine ref1))) as Hbt1 by by rewrite Hsm.
    destruct (acts s) eqn:Ha.
    + destruct (act_alike st ref1 s s' Htw1 Ha (eq_sym He) Hwf Hr1) as (ans & p & P1 & P2).
      rewrite Hrun1 in P2.
      destruct (planned_landed st ref1 ref2 _ _ _ _ Htw1 Hbt1 P1 P2) as (Hi2 & Hb2 & Hl & Hok).
      assert (pos_step s pos = pos) as Hp by by destruct s.
      split; [eapply landed_disk; try done; rewrite <- Hp; apply Hst; by destruct s|].
      unfold out. destruct (step_run s st) as [[rs|x] st']; cbn [fst snd] in *; [|done].
      destruct Hok as (_ & Htw2 & Ho). exists ref2. split_and!; try done. by rewrite Ho, Hp.
    + assert (s' = s) as -> by (destruct s, s'; cbn in He; try done; congruence).
      assert (s ≠ SFlush) as Hf by by intros ->.
      destruct (staging_step st s Hinv Ha Hf Hm) as (rs & st' & Hr & Hi & Heng & Hsh).
      destruct (staging_step ref1 s Hi1 Ha Hf Hm) as (rs2 & st2' & Hr2 & Hi2 & Heng2 & _).
      rewrite Hrun1 in Hr2. injection Hr2 as -> ->.
      unfold out. rewrite Hr. cbn [fst snd]. split; [by rewrite Heng|]. exists st2'.
      split_and!; [|by rewrite Heng2|by apply Hsh|done].
      split; [done..|]. by rewrite Heng, Heng2, (tw_rows _ _ Htw1).
Qed.

Lemma run_disk l1 l2 (st : Inner E1) (ref : Inner E2) pos :
  twins st ref → booted (contents (engine ref)) → disk_ok (contents (engine st)) →
  shows (eff st) pos → coherent pos (l1 ++ l2) → ref_run (core (l1 ++ l2)) ref refN →
  Forall step_wf l1 → Forall (meta_wf (Mb := Mb)) l1 →
  let out := run_steps l1 st in
  disk_ok (contents (engine out.2)) ∧
  match out.1 with
  | Ok _ => ∃ ref', twins out.2 ref' ∧ booted (contents (engine ref')) ∧
      shows (eff out.2) (foldl (λ p s, pos_step s p) pos l1) ∧ ref_run (core l2) ref' refN
  | Err x => engine_failed x
  end.
Proof.
  revert st ref pos. induction l1 as [|s l1 IH]; intros st ref pos Htw Hbt Hd Hs Hco Href Hwf Hm.
  { cbn. split; [done|]. by exists ref. }
  inversion_clear Hwf as [|? ? Hwf0 Hwf']. inversion_clear Hm as [|? ? Hm0 Hm'].
  cbn [app coherent] in Hco. destruct Hco as [Hc0 Hco]. cbn [app] in Href.
  cbv zeta. rewrite run_steps_cons. cbn [foldl].
  destruct (step_disk s (l1 ++ l2) st ref pos Htw Hbt Hd Hs Hc0 Href Hwf0 Hm0) as [Hd1 Hok].
  destruct (step_run s st) as [[rs|x] st1]; cbn [fst snd] in *; [|done].
  destruct Hok as (ref' & Htw' & Hbt' & Hs' & Href').
  destruct (IH st1 ref' _ Htw' Hbt' Hd1 Hs' Hco Href' Hwf' Hm') as [Hd2 Hok2].
  destruct (run_steps l1 st1) as [[rs2|x] st2]; cbn [fst snd] in *; done.
Qed.
End crash.
End steps.
