(* ===== verification/SmLog.v ===== *)
(** * Positions in the log

    Which steps a member takes when it starts from a position of the log,
    and why every commit it makes on the way leaves a disk that shows a
    position from which exactly the remaining steps are taken. *)

From S2P Require Import Prelude Revision Record KvStore Lease Cache Auth Store StoreCore.
From S2P Require Import StoreSpec StoreInv StoreApply StoreCommit StoreOpen StoreWrite StoreRead.
From S2P Require Import StoreTxn StoreMany StoreCompact StoreSide StoreLease StoreMeta StoreTwin.
From S2P Require Import StorePlan SnapshotPolicy StateMachine SmSteps SmTwin SmReplay.

(** ** Batch progress on disk *)

Lemma decode_encode_progress index done_ :
  0 ≤ index < two64 → 0 ≤ done_ < two64 →
  decode_progress (encode_progress index done_) = Some (index, done_).
Proof.
  intros Hi Hd. unfold decode_progress, encode_progress.
  rewrite length_app, !length_be_bytes. cbn [Nat.leb Nat.add].
  rewrite take_app_length', drop_app_length' by (by rewrite length_be_bytes).
  rewrite take_ge by (rewrite length_be_bytes; lia).
  rewrite !be_value_bytes. change (256 ^ Z.of_nat 8) with two64. by rewrite !Z.mod_small.
Qed.

(** ** The steps of a batch, from a sub-entry on *)

Lemma batch_steps_end fuel clock index subs skip ab j :
  (length subs ≤ j)%nat → batch_steps fuel clock index subs skip ab j = [].
Proof. intros Hj. destruct fuel; cbn; [done|]. by rewrite drop_ge. Qed.

(** Skipped sub-entries are read past. *)
Lemma batch_steps_skip fuel clock index subs skip ab j :
  (length subs - j ≤ fuel)%nat →
  ∃ n fuel' k, batch_steps fuel clock index subs skip ab j
    = replicate n SRead ++ batch_steps fuel' clock index subs skip ab k ∧
    (length subs - k ≤ fuel')%nat ∧ (j ≤ k)%nat ∧ (skip ≤ Z.of_nat k ∨ (length subs ≤ k)%nat) ∧
    Z.of_nat k ≤ Z.max (Z.of_nat j) skip.
Proof.
  revert j. induction fuel as [|fuel IH]; intros j Hf.
  { exists 0%nat, 0%nat, j. split_and!; try done; [right|]; lia. }
  destruct (decide (Z.of_nat j < skip ∧ (j < length subs)%nat)) as [[Hs Hl]|Hn].
  - destruct (IH (S j) ltac:(lia)) as (n & fuel' & k & Heq & Hf' & Hk & Hor & Hle).
    exists (S n), fuel', k. split_and!; try done; try lia.
    cbn [batch_steps replicate app]. destruct (drop j subs) as [|sub rest] eqn:Hd.
    + apply (f_equal length) in Hd. rewrite length_drop in Hd. cbn in Hd. lia.
    + rewrite (proj2 (Z.ltb_lt _ _) Hs). by rewrite Heq.
  - exists 0%nat, (S fuel), j. split_and!; try done; [|lia].
    destruct (decide (skip ≤ Z.of_nat j)); [by left|right]. lia.
Qed.

(** Past the skipped ones, neither the skip nor the clock counts. *)
Lemma batch_steps_core fuel1 fuel2 c1 c2 index subs skip1 skip2 ab j :
  skip1 = skip2 ∨ skip1 ≤ Z.of_nat j ∧ skip2 ≤ Z.of_nat j →
  (length subs - j ≤ fuel1)%nat → (length subs - j ≤ fuel2)%nat →
  core (batch_steps fuel1 c1 index subs skip1 ab j)
  = core (batch_steps fuel2 c2 index subs skip2 ab j).
Proof.
  revert fuel2 j. induction fuel1 as [|fuel1 IH]; intros fuel2 j Hs Hf1 Hf2.
  { by rewrite !batch_steps_end by lia. }
  destruct fuel2 as [|fuel2]; [by rewrite !batch_steps_end by lia|].
  cbn [batch_steps]. destruct (drop j subs) as [|sub rest] eqn:Hd; [done|].
  assert ((Z.of_nat j <? skip1) = (Z.of_nat j <? skip2)) as -> by
    (destruct Hs as [->|[H1 H2]]; [done|]; by rewrite (proj2 (Z.ltb_ge _ _) H1), (proj2 (Z.ltb_ge _ _) H2)).
  assert (j < length subs)%nat.
  { apply (f_equal length) in Hd. rewrite length_drop in Hd. cbn in Hd. lia. }
  destruct (Z.ltb_spec (Z.of_nat j) skip2).
  { rewrite !(core_harmless SRead) by done. apply IH; lia. }
  set (run := map_while groupable _).
  set (end_ := if (1 <? length run)%nat then _ else _).
  assert (j < end_)%nat by (unfold end_; destruct (Nat.ltb_spec 1 (length run)); lia).
  rewrite !(core_cons (SProgress _)) by done. f_equal. rewrite !core_app. f_equal.
  destruct (1 <? length run)%nat; rewrite !core_cons by done; f_equal; apply IH; lia.
Qed.

Lemma core_reads n l : core (replicate n SRead ++ l) = core l.
Proof. induction n as [|n IH]; [done|]. cbn [replicate app]. by rewrite core_harmless. Qed.

Section log.
Context {Mb : Type} `{MembershipOps Mb}.
Context `{BincodeLaws (option LogId)} `{BincodeLaws (StoredMembership Mb)}.

Abbreviation Pos := (Pos Mb).

Definition idx (e : Entry Mb) : Z := lid_index (entry_id e).

Definition log_steps (clock : Z → nat → Z) (bp : option (Z * Z)) (es : list (Entry Mb)) : list Step :=
  concat ((λ e, entry_steps (clock (idx e)) (skip_of bp (idx e)) e) <$> es).

(** Calls of [apply], one per chunk. *)
Definition life_steps (clock : Z → nat → Z) (bp : option (Z * Z)) (cs : list (list (Entry Mb)))
    : list Step :=
  concat ((λ c, log_steps clock bp c ++ [SFlush]) <$> cs).

(** The entries openraft replays, from the applied index on. *)
Definition todo (id : option LogId) (log : list (Entry Mb)) : list (Entry Mb) :=
  base.filter (λ e, next_index id ≤ idx e) log.

(** The applied id and the membership after [es]. *)
Definition applied_after (es : list (Entry Mb)) (x : option LogId * StoredMembership Mb)
    : option LogId * StoredMembership Mb :=
  foldl (λ x e, (Some (entry_id e), membership_after e x.2)) x es.

Definition entry_wf (e : Entry Mb) : Prop :=
  0 ≤ idx e < two64 ∧
  match entry_payload e with
  | PlNormal (EntBatch subs) => Forall request_wf subs ∧ Z.of_nat (length subs) < two64
  | PlNormal d => request_wf d
  | _ => True
  end.

Definition log_wf (log : list (Entry Mb)) : Prop :=
  StronglySorted (λ e e', idx e < idx e') log ∧ Forall entry_wf log.

Lemma entry_wf_flat e : entry_wf e → flat e.
Proof.
  intros [_ Hp]. unfold flat. destruct (entry_payload e) as [|d|]; [done| |done].
  destruct d; try done. destruct Hp as [Hs _]. eapply Forall_impl; [done|]. apply request_not_batch.
Qed.

(** *** The steps are well formed *)

Lemma batch_steps_wf fuel clock index subs skip ab j :
  Forall request_wf subs → (∃ id, ab = id_bytes id) →
  Forall (λ s, step_wf s ∧ meta_wf (Mb := Mb) s) (batch_steps fuel clock index subs skip ab j).
Proof.
  intros Hsubs Hab. revert j. induction fuel as [|fuel IH]; intros j; [constructor|].
  cbn [batch_steps]. destruct (drop j subs) as [|sub rest] eqn:Hd; [constructor|].
  assert (Forall request_wf (sub :: rest)) as Hw by (rewrite <- Hd; by apply Forall_drop).
  destruct (Z.of_nat j <? skip); [by constructor|].
  set (run := map_while groupable _). set (end_ := if (1 <? length run)%nat then _ else _).
  constructor; [done|]. apply Forall_app. split; [by destruct (_ =? _)%nat; repeat constructor|].
  constructor; [|done].
  destruct (1 <? length run)%nat; [|inversion_clear Hw; done].
  unfold run. split; [|done]. split; [by apply map_while_ok, Forall_take|].
  etrans; [apply map_while_length|]. rewrite length_take. lia.
Qed.

Lemma entry_steps_wf clock skip e :
  entry_wf e → Forall (λ s, step_wf s ∧ meta_wf (Mb := Mb) s) (entry_steps clock skip e).
Proof.
  intros [_ Hp]. unfold entry_steps.
  assert (∀ m, match m with Some b => ∃ x : StoredMembership Mb, b = mb_bytes x | None => True end →
    step_wf (SMeta (id_bytes (entry_id e)) m) ∧ meta_wf (Mb := Mb) (SMeta (id_bytes (entry_id e)) m)) as Hm.
  { intros m Hm. split; [done|]. split; [by eauto|done]. }
  destruct (entry_payload e) as [|d|m].
  - constructor; [by apply Hm|]. by constructor.
  - destruct d; try (constructor; [by apply Hm|]; by apply Forall_singleton).
    destruct Hp as [Hs _]. constructor; [done|]. apply Forall_app. split.
    + apply batch_steps_wf; eauto.
    + destruct (_ && _); [done|]. apply Forall_singleton. by apply Hm.
  - constructor; [apply Hm; by eauto|]. by constructor.
Qed.

Lemma log_steps_wf clock bp es :
  Forall entry_wf es → Forall (λ s, step_wf s ∧ meta_wf (Mb := Mb) s) (log_steps clock bp es).
Proof.
  intros Hw. unfold log_steps. induction Hw; [constructor|]. cbn. apply Forall_app. split; [|done].
  by apply entry_steps_wf.
Qed.

Lemma life_steps_wf clock bp cs :
  Forall entry_wf (concat cs) →
  Forall (λ s, step_wf s ∧ meta_wf (Mb := Mb) s) (life_steps clock bp cs).
Proof.
  intros Hw. unfold life_steps. induction cs as [|c cs IH]; [constructor|]. cbn in Hw |- *.
  apply Forall_app in Hw as [Hc Hcs]. rewrite <- app_assoc. apply Forall_app. split.
  - by apply log_steps_wf.
  - constructor; [done|]. by apply IH.
Qed.

(** *** The steps that count *)

Lemma core_entry c1 c2 skip e : core (entry_steps c1 skip e) = core (entry_steps c2 skip e).
Proof.
  unfold entry_steps. destruct (entry_payload e) as [|d|m]; [done| |done].
  destruct d; try done. rewrite !(core_harmless SMark), !core_app by done. f_equal.
  apply batch_steps_core; auto with lia.
Qed.

Lemma core_log c1 c2 bp es : core (log_steps c1 bp es) = core (log_steps c2 bp es).
Proof.
  unfold log_steps. induction es as [|e es IH]; [done|]. cbn [fmap list_fmap concat]. rewrite !core_app. f_equal; [|done].
  apply core_entry.
Qed.

Lemma core_log_skip c bp1 bp2 es :
  (∀ e, e ∈ es → skip_of bp1 (idx e) = skip_of bp2 (idx e)) →
  core (log_steps c bp1 es) = core (log_steps c bp2 es).
Proof.
  intros Hs. unfold log_steps. do 2 f_equal. apply list_fmap_ext. intros i e He.
  rewrite Hs; [done|]. by eapply list_elem_of_lookup_2.
Qed.

Lemma core_life c bp cs : core (life_steps c bp cs) = core (log_steps c bp (concat cs)).
Proof.
  unfold life_steps, log_steps. induction cs as [|es cs IH]; [done|]. cbn [fmap list_fmap concat].
  rewrite fmap_app, concat_app, !core_app. rewrite IH.
  change (core [SFlush]) with (@nil Step). by rewrite app_nil_r.
Qed.
(** ** Positions *)

Section positions.
Context (log : list (Entry Mb)) (Hlog : log_wf log) (final : option LogId * StoredMembership Mb).

Definition no_clock : Z → nat → Z := λ _ _, 0.

(** No sub-entry of a later batch is done. *)
Definition behind (bp : option (Z * Z)) (es : list (Entry Mb)) : Prop :=
  ∀ i d, bp = Some (i, d) → ∀ e, e ∈ es → i ≤ idx e.

(** A member that restarts at [pos] takes the steps [l], and ends with
    [final]. *)
Definition stands (pos : Pos) (l : list Step) : Prop :=
  core (log_steps no_clock (p_bp pos) (todo (p_id pos) log)) = l ∧
  applied_after (todo (p_id pos) log) (p_id pos, p_mb pos) = final ∧
  behind (p_bp pos) (todo (p_id pos) log).

(** At an entry boundary of a run started with the progress [bp], with [es]
    to come. *)
Record boundary (bp : option (Z * Z)) (es : list (Entry Mb)) (pos : Pos) : Prop := {
  bd_todo : todo (p_id pos) log = es;
  bd_skip e : e ∈ es → skip_of (p_bp pos) (idx e) = skip_of bp (idx e);
  bd_final : applied_after es (p_id pos, p_mb pos) = final;
  bd_behind : behind (p_bp pos) es
}.

Lemma boundary_stands bp es pos l c :
  boundary bp es pos → core l = core (log_steps c bp es) → stands pos (core l).
Proof.
  intros [Ht Hs Hf Hb] Hl. unfold stands. rewrite Ht. split_and!; [|done..].
  rewrite Hl, (core_log no_clock c). by apply core_log_skip.
Qed.

Lemma todo_tail (pos : Pos) e es :
  todo (p_id pos) log = e :: es → todo (Some (entry_id e)) log = es.
Proof.
  destruct Hlog as [Hsort _]. unfold todo. cbn [next_index]. fold (idx e).
  set (n := next_index (p_id pos)). intros Ht. clearbody n. clear Hlog.
  induction Hsort as [|a l Hl IH Ha]; [done|]. rewrite Forall_forall in Ha.
  rewrite filter_cons in Ht. rewrite filter_cons. case_decide as Hn.
  - injection Ht as -> <-. rewrite decide_False by lia.
    clear IH. induction Hl as [|b l Hl IH Hb]; [done|]. rewrite !filter_cons.
    assert (idx e < idx b) as Hlt by (apply Ha; left).
    rewrite !decide_True by lia. f_equal. apply IH. intros x Hx. apply Ha. by right.
  - assert (e ∈ l) as He.
    { assert (e ∈ base.filter (λ e, n ≤ idx e) l) as He by (rewrite Ht; left).
      by apply list_elem_of_filter in He as [_ He]. }
    specialize (Ha e He). rewrite decide_False by lia. by apply IH.
Qed.

Lemma todo_sorted id : StronglySorted (λ e e', idx e < idx e') (todo id log).
Proof.
  pose proof (proj1 Hlog) as Hs. clear Hlog. unfold todo. induction Hs as [|a l Hl IH Ha]; [constructor|].
  rewrite filter_cons. case_decide; [|done]. constructor; [done|].
  rewrite Forall_forall in Ha |- *. intros x [_ Hx]%list_elem_of_filter. by apply Ha.
Qed.

Lemma todo_wf id : Forall entry_wf (todo id log).
Proof.
  apply Forall_forall. intros e [_ He]%list_elem_of_filter. revert e He.
  apply Forall_forall, Hlog.
Qed.

(** The position after the entry. *)
Lemma boundary_next bp e es pos pos' :
  behind bp (e :: es) → boundary bp (e :: es) pos →
  p_id pos' = Some (entry_id e) → p_mb pos' = membership_after e (p_mb pos) →
  p_bp pos' = p_bp pos ∨ (∃ d, p_bp pos' = Some (idx e, d)) →
  boundary bp es pos'.
Proof.
  intros Hbp [Ht Hs Hf Hb] Hid Hmb Hp.
  pose proof (todo_sorted (p_id pos)) as Hsort. rewrite Ht in Hsort.
  inversion_clear Hsort as [|? ? _ Hlt]. rewrite Forall_forall in Hlt.
  split.
  - rewrite Hid. by eapply todo_tail.
  - intros e' He'. destruct Hp as [->|[d ->]]; [apply Hs; by right|].
    specialize (Hlt e' He'). cbn [skip_of]. rewrite (proj2 (Z.eqb_neq _ _)) by lia.
    unfold skip_of. destruct bp as [[i d']|]; [|done].
    specialize (Hbp i d' eq_refl e ltac:(left)). by rewrite (proj2 (Z.eqb_neq _ _)) by lia.
  - rewrite <- Hf, Hid, Hmb. done.
  - intros i d Hd e' He'. specialize (Hlt e' He'). destruct Hp as [Hp|[d' Hp]]; rewrite Hp in Hd.
    + apply (Hb i d Hd). by right.
    + simplify_eq. lia.
Qed.

Lemma act_pos s (pos : Pos) : acts s = true → pos_step s pos = pos.
Proof. by destruct s. Qed.

(** *** Batches *)

Section batch.
Context (bp : option (Z * Z)) (e : Entry Mb) (es : list (Entry Mb)) (subs : list LogEntry).
Context (clock : nat → Z) (L : list Step) (c : Z → nat → Z) (pos : Pos).
Context (He : entry_payload e = PlNormal (EntBatch subs)).
Context (Hbp : behind bp (e :: es)) (Hpos : boundary bp (e :: es) pos).
Context (HL : core L = core (log_steps c bp es)).
Context (Hnext : ∀ pos', boundary bp es pos' → coherent (stands) pos' L).

Let skip := skip_of bp (idx e).
Let ab := id_bytes (entry_id e).
Let trailing : list Step := if (0 <? length subs)%nat && batch_stages subs skip then [] else [SMeta ab None].

(** In the middle of the batch, [j] sub-entries done. *)
Definition midway (j : nat) (pos' : Pos) : Prop :=
  p_id pos' = p_id pos ∧ p_mb pos' = p_mb pos ∧
  (pos' = pos ∨ p_bp pos' = Some (idx e, Z.of_nat j)).

Lemma batch_bounds : 0 ≤ idx e < two64 ∧ Z.of_nat (length subs) < two64.
Proof.
  pose proof (todo_wf (p_id pos)) as Hw. rewrite (bd_todo _ _ _ Hpos) in Hw.
  inversion_clear Hw as [|? ? [Hi Hp] _]. rewrite He in Hp. split; [done|apply Hp].
Qed.

Lemma trailing_nil j : skip ≤ Z.of_nat j → (j < length subs)%nat → trailing = [].
Proof.
  intros Hs Hj. unfold trailing, batch_stages.
  by rewrite (proj2 (Nat.ltb_lt _ _)), (proj2 (Z.ltb_lt _ _)) by lia.
Qed.

Lemma midway_stands fuel j pos' :
  midway j pos' → p_bp pos' = Some (idx e, Z.of_nat j) →
  skip ≤ Z.of_nat j → (j < length subs)%nat → (length subs - j ≤ fuel)%nat →
  stands pos' (core (batch_steps fuel clock (idx e) subs skip ab j ++ trailing ++ L)).
Proof.
  intros (Hid & Hmb & _) Hp Hs Hj Hf. unfold stands. rewrite Hid, Hmb, Hp, (bd_todo _ _ _ Hpos).
  pose proof (todo_sorted (p_id pos)) as Hsort. rewrite (bd_todo _ _ _ Hpos) in Hsort.
  inversion_clear Hsort as [|? ? _ Hlt]. rewrite Forall_forall in Hlt.
  split_and!; [|apply Hpos|].
  - assert (trailing = []) as ->.
    { by apply (trailing_nil j). }
    cbn [app]. unfold log_steps. cbn [fmap list_fmap concat]. rewrite !core_app. f_equal.
    + unfold entry_steps. rewrite He, core_harmless by done. cbn [skip_of].
      rewrite Z.eqb_refl. unfold batch_stages.
      rewrite (proj2 (Nat.ltb_lt _ _)), (proj2 (Z.ltb_lt _ _)) by lia. cbn [andb]. rewrite app_nil_r.
      edestruct (batch_steps_skip (length subs)) as (n & f & k & -> & Hf' & _ & Hk & Hle); [lia|].
      rewrite core_reads. assert (k = j) as -> by lia. apply batch_steps_core; [right|..]; lia.
    + fold (log_steps no_clock (Some (idx e, Z.of_nat j)) es). rewrite HL, (core_log c no_clock).
      apply core_log_skip. intros e' He'. specialize (Hlt e' He'). cbn [skip_of].
      rewrite (proj2 (Z.eqb_neq _ _)) by lia. unfold skip_of. destruct bp as [[i d']|]; [|done].
      specialize (Hbp i d' eq_refl e ltac:(left)). by rewrite (proj2 (Z.eqb_neq _ _)) by lia.
  - intros i d [= <- <-] e' [->|He']%elem_of_cons; [lia|]. specialize (Hlt e' He'). lia.
Qed.

Lemma batch_coherent fuel j pos' :
  midway j pos' → (length subs - j ≤ fuel)%nat → (j < length subs)%nat → skip ≤ Z.of_nat j →
  coherent stands pos' (batch_steps fuel clock (idx e) subs skip ab j ++ trailing ++ L).
Proof.
  revert j pos'. induction fuel as [|fuel IH]; intros j pos' Hmid Hf Hj Hs; [lia|].
  cbn [batch_steps]. destruct (drop j subs) as [|sub rest] eqn:Hd.
  { apply (f_equal length) in Hd. rewrite length_drop in Hd. cbn in Hd. lia. }
  rewrite (proj2 (Z.ltb_ge _ _) Hs).
  pose proof (run_length subs j) as Hrl. rewrite Hd in Hrl.
  set (run := map_while groupable _) in *.
  set (end_ := if (1 <? length run)%nat then _ else _).
  assert (j < end_ ≤ length subs)%nat as Hend
    by (unfold end_; destruct (Nat.ltb_spec 1 (length run)); lia).
  set (act := if (1 <? length run)%nat then SRun run else SReq (clock j) sub (idx e)).
  assert (acts act = true) as Ha by (unfold act; by destruct (1 <? length run)%nat).
  clearbody run end_ act. cbn [app coherent]. split; [done|].
  assert (pos_step (SProgress (encode_progress (idx e) (Z.of_nat end_))) pos'
    = mkPos (p_id pos) (p_mb pos) (Some (idx e, Z.of_nat end_))) as ->.
  { destruct Hmid as (<- & <- & _). cbn [pos_step]. by rewrite decode_encode_progress by (destruct batch_bounds; lia). }
  set (pos1 := mkPos _ _ _). rewrite <- app_assoc. destruct (Nat.eqb_spec end_ (length subs)) as [He1|He1].
  - rewrite batch_steps_end by lia. rewrite (trailing_nil j) by done. cbn [app coherent].
    split; [done|]. rewrite act_pos by done.
    assert (boundary bp es (pos_step (SMeta ab None) pos1)) as Hb.
    { eapply boundary_next; [done..|cbn [pos_step p_id]; unfold ab; by rewrite id_bytes_decode| |right; by exists (Z.of_nat end_)].
      unfold membership_after. by rewrite He. }
    split; [|by apply Hnext]. intros _. by eapply boundary_stands.
  - cbn [app coherent]. rewrite act_pos by done.
    assert (midway end_ pos1) as Hm1 by (split_and!; [done..|by right]).
    split; [intros _; apply midway_stands; (done || lia)|]. apply IH; (done || lia).
Qed.

Lemma batch_entry_coherent : coherent stands pos (entry_steps clock skip e ++ L).
Proof.
  unfold entry_steps. rewrite He. cbn [app coherent]. split; [done|]. cbn [pos_step].
  edestruct (batch_steps_skip (length subs)) as (n & f & k & -> & Hf & _ & Hk & Hle); [lia|].
  rewrite <- !app_assoc. induction n as [|n IHn]; [|cbn [replicate app coherent]; by split].
  cbn [replicate app]. fold ab (idx e) trailing.
  destruct (decide (skip ≤ Z.of_nat k ∧ (k < length subs)%nat)) as [[Hs Hk']|Hn].
  - apply batch_coherent; try done. split_and!; [done..|by left].
  - rewrite batch_steps_end by lia. unfold trailing.
    destruct ((0 <? length subs)%nat && batch_stages subs skip) eqn:Hst.
    + apply andb_true_iff in Hst as [Hl%Nat.ltb_lt Hst%Z.ltb_lt]. lia.
    + cbn [app coherent]. split; [done|]. apply Hnext.
      eapply boundary_next; [done..|cbn [pos_step p_id]; unfold ab; by rewrite id_bytes_decode| |by left].
      unfold membership_after. by rewrite He.
Qed.
End batch.

Lemma entry_coherent bp e es clock L c pos :
  behind bp (e :: es) → boundary bp (e :: es) pos → core L = core (log_steps c bp es) →
  (∀ pos', boundary bp es pos' → coherent stands pos' L) →
  coherent stands pos (entry_steps clock (skip_of bp (idx e)) e ++ L).
Proof.
  intros Hbp Hpos HL Hnext.
  assert (∀ m, default (p_mb pos) (m ≫= deserialize) = membership_after e (p_mb pos) →
    boundary bp es (pos_step (SMeta (id_bytes (entry_id e)) m) pos)) as Hb.
  { intros m Hm. eapply boundary_next; [done..|cbn [pos_step p_id]; by rewrite id_bytes_decode|done|by left]. }
  destruct (entry_payload e) as [|d|m] eqn:He.
  - unfold entry_steps. rewrite He. cbn [app coherent]. split_and!; [done..|]. apply Hnext, Hb.
    unfold membership_after. by rewrite He.
  - destruct d as [| | | | | | | |subs|];
      try by (unfold entry_steps; rewrite He; cbn [app coherent]; split; [done|];
        assert (boundary bp es (pos_step (SMeta (id_bytes (entry_id e)) None) pos)) as Hb1
          by (apply Hb; unfold membership_after; by rewrite He);
        split; [intros _; by eapply boundary_stands|by apply Hnext]).
    by eapply batch_entry_coherent.
  - unfold entry_steps. rewrite He. cbn [app coherent]. split_and!; [done..|]. apply Hnext, Hb.
    cbn [mbind option_bind]. rewrite mb_bytes_decode. unfold membership_after. by rewrite He.
Qed.

Lemma behind_tail bp es1 es2 : behind bp (es1 ++ es2) → behind bp es2.
Proof. intros Hb i d Hd e He. apply (Hb i d Hd). set_solver. Qed.

Lemma log_coherent bp es es2 clock L c pos :
  behind bp (es ++ es2) → boundary bp (es ++ es2) pos → core L = core (log_steps c bp es2) →
  (∀ pos', boundary bp es2 pos' → coherent stands pos' L) →
  coherent stands pos (log_steps clock bp es ++ L).
Proof.
  intros Hbp Hpos HL Hnext. revert pos Hpos. induction es as [|e es IH]; intros pos Hpos; [by apply Hnext|].
  unfold log_steps. cbn [fmap list_fmap concat]. rewrite <- app_assoc.
  apply (entry_coherent _ _ (es ++ es2) _ _ c); [done..| |].
  - fold (log_steps clock bp es). unfold log_steps at 2.
    rewrite fmap_app, concat_app, !core_app. fold (log_steps c bp es) (log_steps c bp es2).
    rewrite HL. f_equal. apply core_log.
  - intros pos' Hpos'. apply IH; [|done]. by apply (behind_tail bp [e]).
Qed.

Lemma life_coherent bp cs clock pos :
  behind bp (concat cs) → boundary bp (concat cs) pos →
  coherent stands pos (life_steps clock bp cs).
Proof.
  revert pos. induction cs as [|es cs IH]; intros pos Hbp Hpos; [done|].
  unfold life_steps. cbn [fmap list_fmap concat]. rewrite <- app_assoc.
  fold (life_steps clock bp cs).
  apply (log_coherent _ _ (concat cs) _ _ clock); [done..| |].
  - cbn [app]. rewrite core_harmless by done. apply core_life.
  - intros pos' Hpos'. cbn [app coherent pos_step]. split.
    + intros _. eapply boundary_stands; [done|]. apply core_life.
    + apply IH; [by apply (behind_tail bp es)|done].
Qed.

(** A member opened at a position it stands at. *)
Lemma stands_boundary (pos : Pos) l :
  stands pos l → boundary (p_bp pos) (todo (p_id pos) log) pos.
Proof. by intros (_ & Hf & Hb). Qed.
End positions.
End log.
