(* ===== verification/SmDemo.v ===== *)
(** * A concrete member

    A log with a membership change, a batch and a blank entry, for a member
    on the in-memory engine, with a codec for log ids and memberships. *)

From S2P Require Import Prelude Revision Record KvStore Lease Cache Auth Store StoreCore.
From S2P Require Import StoreSpec StoreInv StoreApply StoreCommit StoreOpen StoreDemo StoreWrite.
From S2P Require Import StoreRead StoreTxn StoreMany StoreCompact StoreSide StoreLease StoreMeta.
From S2P Require Import StoreTwin StorePlan SnapshotPolicy StateMachine SmSteps SmTwin SmReplay.
From S2P Require Import SmLog.

#[global] Instance LogId_countable : Countable LogId.
Proof.
  apply (inj_countable' (λ l, (lid_term l, lid_node l, lid_index l))
           (λ '(t, n, i), mkLogId t n i)). by intros [].
Defined.

#[global] Instance StoredMembership_eq_dec Mb `{EqDecision Mb} : EqDecision (StoredMembership Mb).
Proof. solve_decision. Defined.

#[global] Instance StoredMembership_countable Mb `{Countable Mb} : Countable (StoredMembership Mb).
Proof.
  apply (inj_countable' (λ m, (stored_log_id m, stored_membership m)) (λ '(i, m), mkStored i m)).
  by intros [].
Defined.

#[global] Instance AuthTables_eq_dec : EqDecision AuthTables.
Proof. solve_decision. Defined.
#[global] Instance AuthTables_countable : Countable AuthTables.
Proof.
  apply (inj_countable' (λ t, (at_users t, at_roles t, at_state t))
           (λ '(u, r, s), mkAuthTables u r s)). by intros [].
Defined.
#[global] Instance LeaseTables_eq_dec : EqDecision LeaseTables.
Proof. solve_decision. Defined.
#[global] Instance LeaseTables_countable : Countable LeaseTables.
Proof.
  apply (inj_countable' (λ t, (lt_leases t, lt_keys t)) (λ '(l, k), mkLeaseTables l k)). by intros [].
Defined.

(** ** Room, computed *)

Section roomyb.
Context {E : Type} `{KvStore E}.
Context `{Bincode KvRecord, Bincode KeyIndex, Bincode LeaseRecord,
          Bincode StoredUser, Bincode StoredRole}.

Definition roomyb (st : Inner E) : bool :=
  (current_rev (write_state st) + Z.of_nat MAX_RUN <=? i64_max) &&
  (next_lease_id (write_state st) <? i64_max) &&
  (Z.of_nat (base.size (index_map (index st))) <=? i64_max).

Fixpoint roomyb_run (l : list Step) (st : Inner E) : bool :=
  match l with
  | [] => true
  | s :: l' =>
      roomyb st && match step_run s st with (Ok _, st') => roomyb_run l' st' | _ => true end
  end.

Lemma roomyb_run_ok `{!KvStoreLaws E} l st : roomyb_run l st = true → roomy_run l st.
Proof.
  revert st. induction l as [|s l IH]; intros st; [done|]. cbn [roomyb_run roomy_run].
  intros [Hr Hl]%andb_true_iff. split.
  - unfold roomyb in Hr. rewrite !andb_true_iff, Z.leb_le, Z.ltb_lt, Z.leb_le in Hr.
    unfold roomy. tauto.
  - destruct (step_run s st) as [[]]; [by apply IH|done].
Qed.
End roomyb.

Module SmDemo.
Export Demo.

#[export] Instance id_codec : Bincode (option LogId) := countable_codec (option LogId).
#[export] Instance id_laws : BincodeLaws (option LogId) := countable_codec_laws (option LogId).
#[export] Instance mb_codec : Bincode (StoredMembership (list Z)) :=
  countable_codec (StoredMembership (list Z)).
#[export] Instance mb_laws : BincodeLaws (StoredMembership (list Z)) :=
  countable_codec_laws (StoredMembership (list Z)).
#[export] Instance mb_ops : MembershipOps (list Z) := {| mb_default := []; mb_voters := λ m, m |}.

Definition demo_put (k v : string) : LogEntry :=
  EntApply [Put (str k) (str v) 0 false false false].

Definition demo_id (i : Z) : LogId := mkLogId 1 1 i.

(** The batch makes one run of two puts, a read and a put. *)
Definition demo_log : list (Entry (list Z)) :=
  [mkEntry (demo_id 1) (PlMembership [1; 2; 3]);
   mkEntry (demo_id 2) (PlNormal (EntBatch [demo_put "a" "1"; demo_put "b" "2"; EntNoop; demo_put "a" "3"]));
   mkEntry (demo_id 3) PlBlank;
   mkEntry (demo_id 4) (PlNormal (EntLeaseGrant 0 60 1000))].

Lemma demo_log_wf : log_wf demo_log.
Proof.
  split.
  - repeat constructor; cbn; lia.
  - repeat (constructor; [split; [done|cbn]|]); try done.
    split; [|done]. repeat constructor; done.
Qed.

Definition demo_clock : Z → nat → Z := λ i j, 10 * i + Z.of_nat j.

Definition demo_sm (faults : list (option StorageError)) : Sm MemEngine (list Z) :=
  mkSm (demo_store faults) None (mkStored None []) None 0 None 0 ProposalLog_default.

Lemma demo_booted faults : booted (contents (engine (demo_store faults))).
Proof.
  unfold booted. apply Forall_forall.
  repeat constructor; eexists; (split; [vm_compute; reflexivity|reflexivity]).
Qed.

Lemma demo_shows faults :
  shows (contents (engine (demo_store faults))) (mkPos None (mkStored None []) None).
Proof. by vm_compute. Qed.
End SmDemo.
