(* ===== verification/SmOnce.v ===== *)
(** * Every entry takes effect once

    A member that crashes at any point of an apply and is restarted, any
    number of times, ends where a member that never crashed ends. *)

From S2P Require Import Prelude Revision Record KvStore Lease Cache Auth Store StoreCore.
From S2P Require Import StoreSpec StoreInv StoreApply StoreCommit StoreOpen StoreDemo StoreWrite.
From S2P Require Import StoreRead StoreTxn StoreMany StoreCompact StoreSide StoreLease StoreMeta.
From S2P Require Import StoreTwin StorePlan SnapshotPolicy StateMachine SmSteps SmTwin SmReplay.
From S2P Require Import SmLog SmDemo.

(** ** Opening a disk *)

Section open.
Context {E : Type} `{KvStoreLaws E} `{BincodeLaws KvRecord, BincodeLaws KeyIndex}.
Context `{Bincode StoredUser, Bincode StoredRole, Bincode LeaseRecord}.

(** What opening does to the disk. *)
Lemma open_engine (e : E) hash cfg now st :
  open_with e hash cfg now = Ok st →
  pending_raft_meta st = [] ∧
  (engine st = e ∨
   disk_i64 (contents e) META_KEY_CURRENT_REV = 0 ∧ disk_i64 (contents e) META_KEY_COMPACT_REV = 0 ∧
   disk_i64 (contents e) META_KEY_NEXT_LEASE_ID = 0 ∧
   contents (engine st) = apply_batch fresh_batch (contents e)).
Proof.
  intros Hopen. unfold open_with in Hopen.
  destruct (read_u64 (contents e) META_KEY_CLUSTER_ID) as [cid|x]; [|done]. cbn [res_bind] in Hopen.
  set (boot := if (_ && _ && _) then _ else _) in Hopen.
  destruct boot as [e'|x] eqn:Hboot; [|done]. cbn [res_bind] in Hopen.
  set (st0 := mkInner e' _ _ _ _ _ _ _ _ _ _ _ _) in Hopen.
  assert (engine st = e' ∧ pending_raft_meta st = []) as [-> Hp].
  { unfold pbind in Hopen. destruct (reload_auth st0) as [[[]|x] st1] eqn:Hr; [|done].
    injection Hr as <-. unfold load_index, pbind, snapshot, plift, pmodify in Hopen.
    destruct (load_chunks _ _ _ _) as [rows|x]; [|done]. by injection Hopen as <-. }
  split; [done|]. unfold boot in Hboot.
  destruct (_ && _ && _) eqn:Hz; [right|left; by injection Hboot].
  rewrite !andb_true_iff, !Z.eqb_eq in Hz. destruct Hz as [[Hz1 Hz2] Hz3]. split_and!; [done..|].
  change (write_i64 META_KEY_NEXT_LEASE_ID 0 _) with fresh_batch in Hboot.
  destruct (commit fresh_batch WriteOptions_default e) as [[[]|x] e2] eqn:Hc; [|done].
  injection Hboot as <-. by apply commit_ok in Hc.
Qed.

Lemma zero_row v : length v = 8%nat → i64_from_be_bytes v = 0 → v = i64_to_be_bytes 0.
Proof.
  intros Hl Hz. rewrite <- (be_bytes_of_value 8 v Hl). unfold i64_to_be_bytes. f_equal.
  pose proof (be_value_range v) as Hr. rewrite Hl in Hr. unfold i64_from_be_bytes, i64_of_u64 in Hz.
  change (256 ^ Z.of_nat 8) with two64 in Hr. destruct (_ <=? _); [done|]. ints.
Qed.

(** Nothing, on a disk that has its counters. *)
Lemma open_booted (e : E) hash cfg now st :
  open_with e hash cfg now = Ok st → booted (contents e) →
  pending_raft_meta st = [] ∧ same_rows (contents (engine st)) (contents e) ∧
  own_rows (contents (engine st)) (contents e).
Proof.
  intros Hopen Hbt. destruct (open_engine e hash cfg now st Hopen) as [Hp [->|(Hz1 & Hz2 & Hz3 & ->)]];
    [done|]. split; [done|].
  assert (∀ k, k ∈ [META_KEY_CURRENT_REV; META_KEY_COMPACT_REV; META_KEY_NEXT_LEASE_ID] →
    disk_i64 (contents e) k = 0 → contents e !! (TABLE_META, k) = Some (i64_to_be_bytes 0)) as Hrow.
  { intros k Hk Hz. destruct (Hbt k Hk) as (v & Hv & Hl). rewrite Hv. f_equal. apply zero_row; [done|].
    unfold disk_i64, read_i64, snap_get in Hz. rewrite Hv, Hl in Hz. done. }
  assert (apply_batch fresh_batch (contents e) = contents e) as ->; [|done].
  unfold fresh_batch, apply_batch. cbn [foldl apply_op].
  rewrite (insert_id (contents e)) by (apply Hrow; [set_solver|done]).
  rewrite (insert_id (contents e)) by (apply Hrow; [set_solver|done]).
  apply insert_id, Hrow; [set_solver|done].
Qed.
End open.

(** ** The calls of [apply] as steps *)

Section members.
Context {Mb : Type} `{MembershipOps Mb}.
Context `{BincodeLaws (option LogId)} `{BincodeLaws (StoredMembership Mb)}.
Context `{BincodeLaws KvRecord, BincodeLaws KeyIndex, BincodeLaws LeaseRecord}.
Context `{BincodeLaws StoredUser, BincodeLaws StoredRole}.

Section calls.
Context {E : Type} `{KvStoreLaws E}.

(** Calls of [apply], one after the other. *)
Fixpoint sm_applies (clock : Z → nat → Z) (cs : list (list (Entry Mb)))
    : prog (Sm E Mb) ApplyError (list LogResponse) :=
  match cs with
  | [] => pret []
  | c :: cs' =>
      let* rs := sm_apply clock c in
      let* rest := sm_applies clock cs' in
      pret (rs ++ rest)
  end.

(** A run of the steps, seen from the state machine. *)
Definition mirrors (es : list (Entry Mb)) (sm : Sm E Mb)
    (out : result ApplyError (list LogResponse) * Sm E Mb)
    (run : result ApplyError (list LogResponse) * Inner E) : Prop :=
  run.2 = mvcc out.2 ∧ batch_progress out.2 = batch_progress sm ∧
  match out.1, run.1 with
  | Ok _, Ok _ => applied_state out.2 = applied_after es (applied_state sm)
  | Err x, Err y => x = y
  | _, _ => False
  end.

Lemma apply_entries_mirrors clock es (sm : Sm E Mb) :
  Forall flat es →
  mirrors es sm (apply_entries clock es sm)
    (run_steps (log_steps clock (batch_progress sm) es) (mvcc sm)).
Proof.
  intros Hf. revert sm. induction Hf as [|e es He Hes IH]; intros sm; [done|].
  unfold log_steps. cbn [fmap list_fmap concat apply_entries].
  rewrite run_steps_app. fold (idx e). unfold pbind.
  rewrite apply_entry_steps by done. fold (idx e).
  destruct (run_steps (entry_steps _ _ e) (mvcc sm)) as [[rs|x] st1]; [|done].
  specialize (IH (sm_after e st1 sm)). unfold log_steps in IH. cbn [mvcc sm_after batch_progress] in IH.
  destruct (apply_entries clock es (sm_after e st1 sm)) as [[rs1|x] sm'].
  all: destruct (run_steps _ st1) as [[rs2|y] st2]; destruct IH as (IH1 & IH2 & IH3);
    cbn [fst snd] in *; try done; by split_and!.
Qed.

Lemma sm_apply_mirrors clock es (sm : Sm E Mb) :
  Forall flat es →
  mirrors es sm (sm_apply clock es sm)
    (run_steps (log_steps clock (batch_progress sm) es ++ [SFlush]) (mvcc sm)).
Proof.
  intros Hf. rewrite run_steps_app. pose proof (apply_entries_mirrors clock es sm Hf) as Hm.
  unfold sm_apply, pbind at 1. destruct (apply_entries clock es sm) as [[rs|x] sm1];
    destruct (run_steps _ (mvcc sm)) as [[rs2|y] st2]; destruct Hm as (H1' & H2' & H3');
    cbn [fst snd] in *; try done. subst st2.
  rewrite run_steps_cons. cbn [step_run run_steps]. unfold pbind, on_mvcc, pret.
  destruct (call flush_raft_meta (mvcc sm1)) as [[[]|x] st3]; done.
Qed.

Lemma sm_applies_mirrors clock cs (sm : Sm E Mb) :
  Forall flat (concat cs) →
  mirrors (concat cs) sm (sm_applies clock cs sm)
    (run_steps (life_steps clock (batch_progress sm) cs) (mvcc sm)).
Proof.
  revert sm. induction cs as [|es cs IH]; intros sm Hf; [done|].
  cbn [concat] in Hf. apply Forall_app in Hf as [He Hf].
  unfold life_steps. cbn [fmap list_fmap concat sm_applies]. rewrite run_steps_app.
  pose proof (sm_apply_mirrors clock es sm He) as Hm. unfold pbind.
  destruct (sm_apply clock es sm) as [[rs|x] sm1];
    destruct (run_steps _ (mvcc sm)) as [[rs2|y] st2]; destruct Hm as (H1' & H2' & H3');
    cbn [fst snd] in *; try done. subst st2.
  specialize (IH sm1 Hf). rewrite H2' in IH. fold (life_steps clock (batch_progress sm) cs).
  destruct (sm_applies clock cs sm1) as [[rs3|x] sm2];
    destruct (run_steps _ (mvcc sm1)) as [[rs4|y] st4]; destruct IH as (I1 & I2 & I3);
    cbn [fst snd] in *; try done; unfold pret; split_and!; cbn [fst snd]; try congruence.
  rewrite I3, H3'. unfold applied_after. by rewrite foldl_app.
Qed.
End calls.
(** ** Restarts *)

Lemma same_rows_disk ts ts' : same_rows ts ts' → disk_inv ts → disk_inv ts'.
Proof.
  intros Hs Hd. symmetry in Hs. apply (data_eq_disk ts ts'); [symmetry in Hs; by apply same_rows_data|..|done].
  - unfold disk_i64. rewrite (read_i64_same _ _ _ Hs); auto with twin.
  - unfold disk_i64. rewrite (read_i64_same _ _ _ Hs); auto with twin.
  - rewrite (read_u64_same _ _ _ Hs); auto with twin. apply (di_cluster _ Hd).
Qed.

Section restarts.
Context {E1 E2 : Type} `{KvStoreLaws E1} `{KvStoreLaws E2}.

(** One life of a process: it opens its disk, replays the log from where its
    disk says, in calls of any size, and stops after [n] steps: it crashes
    there, or the engine failed a commit.  [e'] is an engine on that disk,
    or, where the engine loses its newest commits in a crash, on the disk of
    an earlier step. *)
Inductive life (log : list (Entry Mb)) : E1 → E1 → Prop :=
| life_crash e hash cfg now st latest sm cs clock n e' :
    0 ≤ value_cache_bytes cfg → open_with e hash cfg now = Ok st → open_sm st latest = Ok sm →
    concat cs = todo (last_applied sm) log →
    contents e' = contents (engine
      (run_steps (take n (life_steps clock (batch_progress sm) cs)) (mvcc sm)).2) →
    life log e e'.

Context (log : list (Entry Mb)) (Hlog : log_wf log) (final : option LogId * StoredMembership Mb).
Context (refN : Inner E2).

Abbreviation good := (disk_ok (Mb := Mb) (stands log final) refN).

Lemma open_good (e : E1) hash cfg now st latest :
  good (contents e) → 0 ≤ value_cache_bytes cfg → open_with e hash cfg now = Ok st →
  ∃ ref pos, open_sm st latest = Ok (mkSm st (p_id pos) (p_mb pos) latest 0 (p_bp pos)
                                       (next_index (p_id pos)) ProposalLog_default) ∧
    twins st ref ∧ booted (contents (engine ref)) ∧ good (contents (engine st)) ∧
    shows (eff st) pos ∧ ∃ l, stands log final pos l ∧ ref_run (Mb := Mb) l ref refN.
Proof.
  intros (ref & pos & l & Hinv & Hbt & Hsame & Hsh & Hst & Hrun) Hcfg Hopen.
  assert (booted (contents e)) as Hbe by by rewrite Hsame.
  destruct (open_booted e hash cfg now st Hopen Hbe) as (Hp & Hs & Ho).
  assert (disk_inv (contents e)) as Hd.
  { apply (same_rows_disk (contents (engine ref))); [by symmetry|]. by apply store_disk_inv. }
  pose proof (open_ok e hash cfg now Hd Hcfg) as Hok. rewrite Hopen in Hok.
  destruct Hok as (Hist & _).
  assert (shows (contents (engine st)) pos) as Hsh' by by rewrite Ho.
  assert (same_rows (contents (engine st)) (contents (engine ref))) as Hsr by by rewrite Hs.
  exists ref, pos. split_and!; [by apply open_sm_shows|by split|done|by exists ref, pos, l| |by eauto].
  unfold eff. by rewrite Hp.
Qed.

(** A life up to step [n]. *)
Lemma life_run (st : Inner E1) (ref : Inner E2) pos l clock cs n :
  twins st ref → booted (contents (engine ref)) → good (contents (engine st)) →
  shows (eff st) pos → stands log final pos l → ref_run (Mb := Mb) l ref refN →
  concat cs = todo (p_id pos) log →
  let L := life_steps clock (p_bp pos) cs in
  let out := run_steps (take n L) st in
  good (contents (engine out.2)) ∧
  match out.1 with
  | Ok _ => ∃ ref', twins out.2 ref' ∧ ref_run (Mb := Mb) (core (drop n L)) ref' refN
  | Err x => engine_failed x
  end.
Proof.
  intros Htw Hbt Hgs Hsh Hst Hrun Hcs L out.
  assert (Forall (λ s, step_wf s ∧ meta_wf (Mb := Mb) s) (take n L)) as [Hwf Hmw]%Forall_and.
  { apply Forall_take, life_steps_wf. rewrite Hcs. by apply todo_wf. }
  pose proof (stands_boundary log final pos l Hst) as Hbd. pose proof Hst as (Hcore & _ & Hbeh).
  destruct (run_disk (stands log final) refN (take n L) (drop n L) st ref pos) as [Hg Hok]; try done.
  - rewrite take_drop. apply life_coherent; [done|by rewrite Hcs..].
  - rewrite take_drop. unfold L. rewrite core_life, Hcs, (core_log _ no_clock). by rewrite Hcore.
  - split; [done|]. fold out in Hok. destruct out.1; [|done]. naive_solver.
Qed.

Lemma life_good e e' : life log e e' → good (contents e) → good (contents e').
Proof.
  intros Hl Hg. destruct Hl as [e hash cfg now st latest sm cs clock n e' Hcfg Hopen Hsm Hcs He'].
  destruct (open_good e hash cfg now st latest Hg Hcfg Hopen)
    as (ref & pos & Hsm' & Htw & Hbt & Hgs & Hsh & l & Hst & Hrun).
  rewrite Hsm' in Hsm. injection Hsm as <-. cbn [last_applied batch_progress mvcc] in *.
  rewrite He'. by apply (life_run st ref pos l clock cs n Htw Hbt Hgs Hsh Hst Hrun Hcs).
Qed.

Lemma lives_good e e' : rtc (life log) e e' → good (contents e) → good (contents e').
Proof. induction 1 as [|e1 e2 e3 Hl _ IH]; [done|]. intros Hg. by apply IH, (life_good e1). Qed.

(** A replay to the end. *)
Lemma replay_ends (e : E1) hash cfg now st latest :
  good (contents e) → 0 ≤ value_cache_bytes cfg → open_with e hash cfg now = Ok st →
  ∃ sm, open_sm st latest = Ok sm ∧
    ∀ clock cs, concat cs = todo (last_applied sm) log →
      match sm_applies clock cs sm with
      | (Ok _, sm') =>
          same_rows (contents (engine (mvcc sm'))) (contents (engine refN)) ∧
          applied_state sm' = final
      | (Err x, _) => engine_failed x
      end.
Proof.
  intros Hg Hcfg Hopen. destruct (open_good e hash cfg now st latest Hg Hcfg Hopen)
    as (ref & pos & Hsm & Htw & Hbt & Hgs & Hsh & l & Hst & Hrun).
  eexists. split; [done|]. set (sm := mkSm _ _ _ _ _ _ _ _). intros clock cs Hcs.
  change (last_applied sm) with (p_id pos) in Hcs.
  assert (Forall flat (concat cs)) as Hflat.
  { rewrite Hcs. eapply Forall_impl; [by apply todo_wf|apply entry_wf_flat]. }
  pose proof (sm_applies_mirrors clock cs sm Hflat) as (Hm1 & _ & Hm3).
  change (batch_progress sm) with (p_bp pos) in Hm1, Hm3. change (mvcc sm) with st in Hm1, Hm3.
  set (L := life_steps clock (p_bp pos) cs) in *.
  pose proof (life_run st ref pos l clock cs (length L) Htw Hbt Hgs Hsh Hst Hrun Hcs) as [_ Hok].
  fold L in Hok. rewrite firstn_all, drop_all in Hok.
  destruct (run_steps L st) as [[rs|x] st'], (sm_applies clock cs sm) as [[rs'|x'] sm'];
    cbn [fst snd] in *; try done; [|by subst x'].
  subst st'. destruct Hok as (ref' & Htw' & Hrun').
  destruct (ref_done (Mb := Mb) ref' refN Hrun' (tw_right _ _ Htw')) as [_ Hs]. split.
  - etrans; [apply (tw_rows _ _ Htw')|by symmetry].
  - rewrite Hm3, Hcs. apply Hst.
Qed.
End restarts.

Section once.
Context {E1 E2 : Type} `{KvStoreLaws E1} `{KvStoreLaws E2}.

(** Room for a whole log. *)
Definition roomy_log {E} `{KvStoreLaws E} (clock : Z → nat → Z) (log : list (Entry Mb)) (sm : Sm E Mb) : Prop :=
  roomy_run (log_steps clock (batch_progress sm) log) (mvcc sm).

(** C5.  Every entry of the log takes effect exactly once, whatever crashes.
    A member starts with the rows and the position of a reference member
    that applies the log without failing.  After any number of lives, each
    ended by a crash between any two steps or by a failed commit, its disk
    opens, and replaying the log from where the disk says either fails for
    the engine alone or ends with the reference member's rows, applied index
    and membership. *)
Theorem exactly_once log (smR smR' : Sm E2 Mb) clockR rsR (e0 e : E1) hash cfg now st latest :
  log_wf log → store_inv (mvcc smR) → booted (contents (engine (mvcc smR))) →
  apply_entries clockR log smR = (Ok rsR, smR') → roomy_log clockR log smR →
  same_rows (contents e0) (contents (engine (mvcc smR))) →
  shows (contents e0) (mkPos (last_applied smR) (last_membership smR) (batch_progress smR)) →
  todo (last_applied smR) log = log → behind (batch_progress smR) log →
  rtc (life log) e0 e → 0 ≤ value_cache_bytes cfg → open_with e hash cfg now = Ok st →
  ∃ sm, open_sm st latest = Ok sm ∧
    ∀ clock cs, concat cs = todo (last_applied sm) log →
      match sm_applies clock cs sm with
      | (Ok _, sm') =>
          same_rows (contents (engine (mvcc sm'))) (contents (engine (mvcc smR'))) ∧
          applied_state sm' = applied_state smR'
      | (Err x, _) => engine_failed x
      end.
Proof.
  intros Hlog Hinv Hbt HR Hroom Hsame Hsh Htodo Hbeh Hlives Hcfg Hopen.
  assert (Forall flat log) as Hflat by (eapply Forall_impl; [apply Hlog|apply entry_wf_flat]).
  pose proof (apply_entries_mirrors clockR log smR Hflat) as Hm. rewrite HR in Hm.
  destruct (run_steps _ (mvcc smR)) as [[rs|x] stR'] eqn:HrunR; destruct Hm as (Hm1 & _ & Hm3);
    cbn [fst snd] in *; [|done]. subst stR'.
  set (final := applied_state smR'). set (refN := mvcc smR').
  assert (disk_ok (Mb := Mb) (stands log final) refN (contents e0)) as Hg0.
  { exists (mvcc smR), (mkPos (last_applied smR) (last_membership smR) (batch_progress smR)),
      (core (log_steps clockR (batch_progress smR) log)).
    split_and!; try done.
    - unfold stands. cbn [p_id p_mb p_bp]. rewrite Htodo. split_and!; [apply core_log|done|done].
    - exists (log_steps clockR (batch_progress smR) log), rs. split_and!; try done.
      eapply Forall_impl; [apply log_steps_wf, Hlog|]. by intros s' []. }
  pose proof (lives_good log Hlog final refN e0 e Hlives Hg0) as Hg.
  exact (replay_ends log Hlog final refN e hash cfg now st latest Hg Hcfg Hopen).
Qed.
End once.
End members.

(** ** A member that crashes in the middle of the batch *)

Section witness.
Import SmDemo.

Definition opened (e : MemEngine) : Inner MemEngine :=
  match open_with e demo_hash demo_cache 0 with Ok st => st | Err _ => demo_store [] end.

(** It takes seven steps, past the commit of the run; the next life's second
    commit fails. *)
Definition demo_crash : MemEngine :=
  engine (run_steps (take 7 (life_steps demo_clock None [demo_log]))
            (opened (engine (demo_store [None; None])))).2.

Lemma opened_ok e :
  is_ok (open_with e demo_hash demo_cache 0) = true →
  open_with e demo_hash demo_cache 0 = Ok (opened e).
Proof. unfold opened. by destruct (open_with e demo_hash demo_cache 0). Qed.

Lemma demo_life : life demo_log (engine (demo_store [None; None])) demo_crash.
Proof.
  apply (life_crash demo_log (engine (demo_store [None; None])) demo_hash demo_cache 0
    (opened (engine (demo_store [None; None]))) None
    (mkSm (opened (engine (demo_store [None; None]))) None (mkStored None []) None 0 None 0 ProposalLog_default)
    [demo_log] demo_clock 7).
  - done.
  - apply opened_ok. vm_compute. reflexivity.
  - apply (open_sm_shows _ (mkPos None (mkStored None []) None)). by vm_compute.
  - vm_compute. reflexivity.
  - reflexivity.
Qed.

(** The crash left the batch half done. *)
Example demo_crash_midway :
  contents demo_crash !! (TABLE_META, META_KEY_RAFT_BATCH) ≫= decode_progress = Some (2, 2) ∧
  contents demo_crash !! (TABLE_META, META_KEY_RAFT_APPLIED) = Some (id_bytes (demo_id 1)).
Proof. split; by vm_compute. Qed.

Lemma exactly_once_witness :
  let smR' := (apply_entries demo_clock demo_log (demo_sm [])).2 in
  ∃ sm, open_sm (opened demo_crash) None = Ok sm ∧
    let out := sm_applies (λ _ _, 0) [todo (last_applied sm) demo_log] sm in
    same_rows (contents (engine (mvcc out.2))) (contents (engine (mvcc smR'))) ∧
    applied_state out.2 = (Some (demo_id 4), mkStored (Some (demo_id 1)) [1; 2; 3]).
Proof.
  assert (is_ok (apply_entries demo_clock demo_log (demo_sm [])).1 = true) as HR by (vm_compute; reflexivity).
  assert (applied_state (apply_entries demo_clock demo_log (demo_sm [])).2
    = (Some (demo_id 4), mkStored (Some (demo_id 1)) [1; 2; 3])) as HF by (vm_compute; reflexivity).
  assert (roomy_log demo_clock demo_log (demo_sm [])) as Hroom
    by (apply roomyb_run_ok; vm_compute; reflexivity).
  assert (open_with demo_crash demo_hash demo_cache 0 = Ok (opened demo_crash)) as Hopen
    by (apply opened_ok; vm_compute; reflexivity).
  assert (todo None demo_log = demo_log) as Htodo by (vm_compute; reflexivity).
  assert (same_rows (contents (engine (demo_store [None; None]))) (contents (engine (mvcc (demo_sm [])))))
    as Hsame by (intros t k Hk; cbn; reflexivity).
  assert (rtc (life demo_log) (engine (demo_store [None; None])) demo_crash) as Hlives
    by (apply rtc_once, demo_life).
  destruct (apply_entries demo_clock demo_log (demo_sm [])) as [[rsR|x] smR'] eqn:HrunR; [|discriminate HR].
  destruct (exactly_once demo_log (demo_sm []) smR' demo_clock rsR (engine (demo_store [None; None]))
    demo_crash demo_hash demo_cache 0 (opened demo_crash) None demo_log_wf (demo_inv []) (demo_booted [])
    HrunR Hroom Hsame (demo_shows _) Htodo ltac:(intros i d Hd; discriminate Hd)
    Hlives ltac:(vm_compute; discriminate) Hopen) as (sm & Hsm & Hok).
  exists sm. split; [exact Hsm|]. cbv zeta. specialize (Hok (λ _ _, 0) [todo (last_applied sm) demo_log]
    (app_nil_r _)).
  assert (is_ok (sm_applies (λ _ _, 0) [todo (last_applied sm) demo_log] sm).1 = true) as Hk.
  { assert (sm = match open_sm (opened demo_crash) None with Ok s => s | Err _ => demo_sm [] end) as ->
      by (rewrite Hsm; reflexivity). vm_compute. reflexivity. }
  destruct (sm_applies (λ _ _, 0) _ sm) as [[rs|x] sm']; [|discriminate Hk].
  cbn [snd] in *. rewrite HF in Hok. exact Hok.
Defined.
End witness.
