(* ===== verification/SmAgree.v ===== *)
(** * Members agree

    Two members that hold the same replicated rows apply the same entries,
    each with its own engine, clock and cache and its own division of the
    log into calls: they answer the same and hold the same rows. *)

From S2P Require Import Prelude Revision Record KvStore Lease Cache Auth Store StoreCore.
From S2P Require Import StoreSpec StoreInv StoreApply StoreCommit StoreOpen StoreDemo StoreWrite.
From S2P Require Import StoreRead StoreTxn StoreMany StoreCompact StoreSide StoreLease StoreMeta.
From S2P Require Import StoreTwin StorePlan SnapshotPolicy StateMachine SmSteps SmTwin SmReplay.
From S2P Require Import SmLog SmDemo SmOnce.

Section agree.
Context {Mb : Type} `{MembershipOps Mb}.
Context `{BincodeLaws (option LogId)} `{BincodeLaws (StoredMembership Mb)}.
Context `{BincodeLaws KvRecord, BincodeLaws KeyIndex, BincodeLaws LeaseRecord}.
Context `{BincodeLaws StoredUser, BincodeLaws StoredRole}.

(** ** Entries and flushes *)

Section events.
Context {E : Type} `{KvStoreLaws E}.

(** [None]: the flush at the end of a call. *)
Fixpoint run_events (clock : Z → nat → Z) (evs : list (option (Entry Mb)))
    : prog (Sm E Mb) ApplyError (list LogResponse) :=
  match evs with
  | [] => pret []
  | Some e :: evs' =>
      let* r := apply_entry (clock (idx e)) e in
      let* rs := run_events clock evs' in
      pret (r :: rs)
  | None :: evs' => let* _ := on_mvcc (call flush_raft_meta) in run_events clock evs'
  end.

Definition events (cs : list (list (Entry Mb))) : list (option (Entry Mb)) :=
  concat ((λ c, (Some <$> c) ++ [None]) <$> cs).

Lemma run_events_entries clock es evs (sm : Sm E Mb) :
  run_events clock ((Some <$> es) ++ None :: evs) sm =
  (let* rs := sm_apply clock es in
   let* rest := run_events clock evs in
   pret (rs ++ rest)) sm.
Proof.
  revert sm. unfold sm_apply. induction es as [|e es IH]; intros sm.
  - cbn [fmap list_fmap app run_events apply_entries]. unfold pbind, pret.
    destruct (on_mvcc _ sm) as [[[]|x] sm1]; [|done]. by destruct (run_events clock evs sm1) as [[rs|]].
  - cbn [fmap list_fmap app run_events apply_entries]. unfold pbind, pret in *. fold (idx e).
    destruct (apply_entry _ e sm) as [[r|x] sm1]; [|done]. rewrite IH.
    destruct (apply_entries clock es sm1) as [[rs|x] sm2]; [|done].
    destruct (on_mvcc _ sm2) as [[[]|x] sm3]; [|done].
    by destruct (run_events clock evs sm3) as [[rest|]].
Qed.

Lemma sm_applies_events clock cs (sm : Sm E Mb) :
  sm_applies clock cs sm = run_events clock (events cs) sm.
Proof.
  revert sm. induction cs as [|es cs IH]; intros sm; [done|].
  unfold events. cbn [fmap list_fmap concat sm_applies]. rewrite <- app_assoc. cbn [app].
  rewrite run_events_entries. unfold pbind. destruct (sm_apply clock es sm) as [[rs|x] sm1]; [|done].
  by rewrite IH.
Qed.
End events.

(** ** Steps in parallel *)

Section steps.
Context {E1 E2 : Type} `{KvStoreLaws E1} `{KvStoreLaws E2}.

Lemma step_agrees (st1 st1' : Inner E1) (st2 st2' : Inner E2) s1 s2 rs1 rs2 :
  twins st1 st2 → erase s1 = erase s2 → step_wf s1 → meta_wf (Mb := Mb) s1 →
  meta_wf (Mb := Mb) s2 → roomy st2 →
  step_run s1 st1 = (Ok rs1, st1') → step_run s2 st2 = (Ok rs2, st2') →
  rs1 = rs2 ∧ twins st1' st2'.
Proof.
  intros Htw He Hwf Hm1 Hm2 Hr R1 R2. destruct (acts s1) eqn:Ha.
  - destruct (act_alike st1 st2 s1 s2 Htw Ha He Hwf Hr) as (ans & p & P1 & P2).
    rewrite R1 in P1. rewrite R2 in P2. destruct p as [b|]; cbn in P1, P2.
    + destruct P1 as (_ & _ & A1 & T1), P2 as (_ & _ & A2 & T2). split; [congruence|by eapply took_twins].
    + destruct P1 as (A1 & T1), P2 as (A2 & T2). split; [congruence|by eapply idle_twins].
  - assert (acts s2 = false) as Ha2 by (by destruct s1, s2).
    pose proof (quiet_step (Mb := Mb) st1 s1 (tw_left _ _ Htw) Ha Hm1) as [_ Q1].
    pose proof (quiet_step (Mb := Mb) st2 s2 (tw_right _ _ Htw) Ha2 Hm2) as [_ Q2].
    rewrite R1 in Q1. rewrite R2 in Q2. cbn [fst snd] in Q1, Q2.
    destruct Q1 as (I1 & S1 & _), Q2 as (I2 & S2 & _). split.
    + destruct s1, s2; try done; cbn [step_run] in R1, R2; unfold pbind, call, pret in R1, R2;
        repeat case_match; simplify_eq/=; try done.
      rewrite (current_revision_run st1 (tw_left _ _ Htw)) in *.
      rewrite (current_revision_run st2 (tw_right _ _ Htw)) in *.
      rewrite (twins_write_state _ _ Htw) in *. by simplify_eq.
    + split; [done..|]. etrans; [exact S1|]. etrans; [apply Htw|by symmetry].
Qed.

Lemma steps_agree l1 l2 (st1 st1' : Inner E1) (st2 st2' : Inner E2) rs1 rs2 :
  twins st1 st2 → erase <$> l1 = erase <$> l2 →
  Forall (λ s, step_wf s ∧ meta_wf (Mb := Mb) s) l1 → Forall (meta_wf (Mb := Mb)) l2 →
  roomy_run l2 st2 →
  run_steps l1 st1 = (Ok rs1, st1') → run_steps l2 st2 = (Ok rs2, st2') →
  rs1 = rs2 ∧ twins st1' st2'.
Proof.
  intros Htw He Hwf Hm Hroom. revert l2 st1 st2 rs1 rs2 Htw He Hm Hroom.
  induction Hwf as [|s1 l1 [Hw1 Hm1] Hwf IH]; intros l2 st1 st2 rs1 rs2 Htw He Hm Hroom R1 R2.
  - destruct l2; [|done]. cbn [run_steps] in R1, R2. unfold pret in R1, R2. by simplify_eq.
  - destruct l2 as [|s2 l2]; [done|]. injection He as He1 He2.
    inversion_clear Hm as [|? ? Hm2 Hm']. destruct Hroom as [Hr Hroom].
    rewrite run_steps_cons in R1. rewrite run_steps_cons in R2.
    destruct (step_run s1 st1) as [[a1|] t1] eqn:S1; [|done].
    destruct (step_run s2 st2) as [[a2|] t2] eqn:S2; [|done].
    destruct (run_steps l1 t1) as [[b1|] u1] eqn:U1; [|done].
    destruct (run_steps l2 t2) as [[b2|] u2] eqn:U2; [|done]. simplify_eq.
    destruct (step_agrees st1 t1 st2 t2 s1 s2 a1 a2 Htw He1 Hw1 Hm1 Hm2 Hr S1 S2) as [-> Ht].
    by destruct (IH l2 t1 t2 b1 b2 Ht He2 Hm' Hroom U1 U2) as [-> ?].
Qed.

Lemma roomy_run_app {E} `{KvStoreLaws E} l1 l2 (st st' : Inner E) rs :
  roomy_run (l1 ++ l2) st → run_steps l1 st = (Ok rs, st') → roomy_run l1 st ∧ roomy_run l2 st'.
Proof.
  revert st rs. induction l1 as [|s l1 IH]; intros st rs Hr Hrun.
  { cbn [run_steps] in Hrun. unfold pret in Hrun. by simplify_eq. }
  destruct Hr as [Hr0 Hr]. rewrite run_steps_cons in Hrun. cbn [app roomy_run].
  destruct (step_run s st) as [[a|] t]; [|done].
  destruct (run_steps l1 t) as [[b|] u] eqn:U; [|done]. simplify_eq.
  by destruct (IH t b Hr U).
Qed.

(** ** Entries in parallel *)

Lemma batch_steps_erase fuel c1 c2 index subs skip ab j :
  erase <$> batch_steps fuel c1 index subs skip ab j
  = erase <$> batch_steps fuel c2 index subs skip ab j.
Proof.
  revert j. induction fuel as [|fuel IH]; intros j; [done|]. cbn [batch_steps].
  destruct (drop j subs) as [|sub rest]; [done|]. destruct (_ <? skip).
  { cbn [fmap list_fmap]. f_equal. apply IH. }
  rewrite !fmap_cons, !fmap_app, !fmap_cons. f_equal. f_equal. f_equal; [|apply IH].
  by destruct (1 <? _)%nat.
Qed.

Lemma entry_steps_erase c1 c2 skip (e : Entry Mb) :
  erase <$> entry_steps c1 skip e = erase <$> entry_steps c2 skip e.
Proof.
  unfold entry_steps. destruct (entry_payload e) as [|d|]; [done| |done]. destruct d; try done.
  rewrite !fmap_cons, !fmap_app. f_equal. f_equal. apply batch_steps_erase.
Qed.

(** The steps of entries and flushes. *)
Definition event_steps (clock : Z → nat → Z) (bp : option (Z * Z)) (evs : list (option (Entry Mb)))
    : list Step :=
  concat ((λ ev, match ev with
                 | Some e => entry_steps (clock (idx e)) (skip_of bp (idx e)) e
                 | None => [SFlush]
                 end) <$> evs).

Lemma event_steps_life clock bp cs : event_steps clock bp (events cs) = life_steps clock bp cs.
Proof.
  unfold event_steps, events, life_steps. induction cs as [|es cs IH]; [done|].
  cbn [fmap list_fmap concat]. rewrite fmap_app, concat_app, fmap_app, concat_app, IH.
  do 2 f_equal. unfold log_steps. f_equal. by rewrite <- list_fmap_compose.
Qed.

Record paired (sm1 : Sm E1 Mb) (sm2 : Sm E2 Mb) : Prop := {
  pr_twins : twins (mvcc sm1) (mvcc sm2);
  pr_state : applied_state sm1 = applied_state sm2
}.

(** Neither is in the middle of one of the batches, or both are alike. *)
Definition same_skips (sm1 : Sm E1 Mb) (sm2 : Sm E2 Mb) (es : list (Entry Mb)) : Prop :=
  ∀ e, e ∈ es → skip_of (batch_progress sm1) (idx e) = skip_of (batch_progress sm2) (idx e).

Lemma entry_agrees c1 c2 e (sm1 sm1' : Sm E1 Mb) (sm2 sm2' : Sm E2 Mb) r1 r2 L :
  entry_wf e → paired sm1 sm2 →
  skip_of (batch_progress sm1) (idx e) = skip_of (batch_progress sm2) (idx e) →
  roomy_run (entry_steps c2 (skip_of (batch_progress sm2) (idx e)) e ++ L) (mvcc sm2) →
  apply_entry c1 e sm1 = (Ok r1, sm1') → apply_entry c2 e sm2 = (Ok r2, sm2') →
  r1 = r2 ∧ paired sm1' sm2' ∧ roomy_run L (mvcc sm2') ∧
  batch_progress sm1' = batch_progress sm1 ∧ batch_progress sm2' = batch_progress sm2.
Proof.
  intros He [Htw Hst] Hpr Hroom R1 R2. pose proof (f_equal snd Hst) as Hmb. rewrite apply_entry_steps in R1 by by apply entry_wf_flat.
  rewrite apply_entry_steps in R2 by by apply entry_wf_flat. fold (idx e) in R1, R2.
  rewrite Hpr in R1.
  destruct (run_steps (entry_steps c1 _ e) (mvcc sm1)) as [[rs1|] st1'] eqn:S1; [|done].
  destruct (run_steps (entry_steps c2 _ e) (mvcc sm2)) as [[rs2|] st2'] eqn:S2; [|done].
  destruct (roomy_run_app _ _ _ _ _ Hroom S2) as [Hr1 Hr2]. simplify_eq.
  destruct (steps_agree _ _ _ _ _ _ _ _ Htw (entry_steps_erase c1 c2 _ e)
    (entry_steps_wf c1 _ e He) (proj2 (proj1 (Forall_and _ _) (entry_steps_wf c2 _ e He))) Hr1 S1 S2)
    as [-> Htw']. split_and!; try done.
  split; [done|]. unfold applied_state in *. cbn [last_applied last_membership sm_after snd] in *.
  by rewrite Hmb.
Qed.

Lemma flush_rows {E} `{KvStoreLaws E} (sm sm' : Sm E Mb) :
  store_inv (mvcc sm) → on_mvcc (call flush_raft_meta) sm = (Ok (), sm') →
  sm' = set_mvcc (mvcc sm') sm ∧ store_inv (mvcc sm') ∧
  same_rows (contents (engine (mvcc sm'))) (contents (engine (mvcc sm))) ∧
  ∀ L, roomy_run (SFlush :: L) (mvcc sm) → roomy_run L (mvcc sm').
Proof.
  intros Hinv Hf. pose proof (quiet_step (Mb := Mb) (mvcc sm) SFlush Hinv eq_refl I) as [_ Hq].
  unfold on_mvcc in Hf. cbn [roomy_run]. cbn [step_run] in *. unfold pbind in *.
  destruct (call flush_raft_meta (mvcc sm)) as [[[]|] st']; [|done]. injection Hf as <-.
  destruct Hq as (Hi & Hs & _). split_and!; [done|done|exact Hs|]. by intros L [_ Hr].
Qed.

Lemma flush_left (sm1 sm1' : Sm E1 Mb) (sm2 : Sm E2 Mb) u :
  paired sm1 sm2 → on_mvcc (call flush_raft_meta) sm1 = (Ok u, sm1') →
  paired sm1' sm2 ∧ batch_progress sm1' = batch_progress sm1.
Proof.
  intros [Htw Hst] Hf. destruct u.
  destruct (flush_rows sm1 sm1' (tw_left _ _ Htw) Hf) as (Heq & Hi & Hs & _).
  split; [|by rewrite Heq]. split; [|by rewrite Heq].
  split; [done|apply Htw|]. etrans; [exact Hs|apply Htw].
Qed.

Lemma flush_right (sm1 : Sm E1 Mb) (sm2 sm2' : Sm E2 Mb) u c bp evs :
  paired sm1 sm2 → on_mvcc (call flush_raft_meta) sm2 = (Ok u, sm2') →
  roomy_run (event_steps c bp (None :: evs)) (mvcc sm2) →
  paired sm1 sm2' ∧ batch_progress sm2' = batch_progress sm2 ∧
  roomy_run (event_steps c bp evs) (mvcc sm2').
Proof.
  intros [Htw Hst] Hf Hr. destruct u.
  destruct (flush_rows sm2 sm2' (tw_right _ _ Htw) Hf) as (Heq & Hi & Hs & Hroom).
  split_and!; [|by rewrite Heq|by apply Hroom].
  split; [|by rewrite Heq]. split; [apply Htw|done|].
  etrans; [apply Htw|]. by symmetry.
Qed.

Lemma events_agree c1 c2 evs1 evs2 (sm1 sm1' : Sm E1 Mb) (sm2 sm2' : Sm E2 Mb) rs1 rs2 :
  omap id evs1 = omap id evs2 → Forall entry_wf (omap id evs1) → paired sm1 sm2 →
  same_skips sm1 sm2 (omap id evs1) →
  roomy_run (event_steps c2 (batch_progress sm2) evs2) (mvcc sm2) →
  run_events c1 evs1 sm1 = (Ok rs1, sm1') → run_events c2 evs2 sm2 = (Ok rs2, sm2') →
  rs1 = rs2 ∧ paired sm1' sm2'.
Proof.
  revert evs2 sm1 sm2 rs1 rs2. induction evs1 as [|[e|] evs1 IH1].
  - intros evs2. induction evs2 as [|[e|] evs2 IH2]; intros sm1 sm2 rs1 rs2 Heq Hwf Hp Hsk Hroom R1 R2.
    + cbn in R1, R2. unfold pret in R1, R2. by simplify_eq.
    + done.
    + cbn [run_events] in R2. apply pbind_ok in R2 as (u & t2 & A2 & R2).
      destruct (flush_right _ _ _ _ _ _ _ Hp A2 Hroom) as (Hp' & Hb & Hr'). rewrite <- Hb in Hr'.
      apply (IH2 sm1 t2); try done. intros e0 He0. rewrite Hb. by apply Hsk.
  - intros evs2. induction evs2 as [|[e'|] evs2 IH2]; intros sm1 sm2 rs1 rs2 Heq Hwf Hp Hsk Hroom R1 R2.
    + done.
    + cbn in Heq. injection Heq as <- Heq. inversion_clear Hwf as [|? ? He Hwf'].
      cbn [run_events] in R1, R2.
      apply pbind_ok in R1 as (r1 & t1 & A1 & R1), R2 as (r2 & t2 & A2 & R2).
      apply pbind_ok in R1 as (q1 & u1 & B1 & R1), R2 as (q2 & u2 & B2 & R2).
      unfold pret in R1, R2. simplify_eq.
      destruct (entry_agrees _ _ e _ _ _ _ _ _ (event_steps c2 (batch_progress sm2) evs2) He Hp
        (Hsk e ltac:(left)) Hroom A1 A2) as (-> & Hp' & Hr' & Hb1 & Hb).
      assert (same_skips t1 t2 (omap id evs1)) as Hsk'
        by (intros e0 He0; rewrite Hb1, Hb; apply Hsk; by right).
      rewrite <- Hb in Hr'. by destruct (IH1 evs2 t1 t2 q1 q2 Heq Hwf' Hp' Hsk' Hr' B1 B2) as [-> ?].
    + cbn [run_events] in R2. apply pbind_ok in R2 as (u & t2 & A2 & R2).
      destruct (flush_right _ _ _ _ _ _ _ Hp A2 Hroom) as (Hp' & Hb & Hr'). rewrite <- Hb in Hr'.
      apply (IH2 sm1 t2); try done. intros e0 He0. rewrite Hb. by apply Hsk.
  - intros evs2 sm1 sm2 rs1 rs2 Heq Hwf Hp Hsk Hroom R1 R2.
    cbn [run_events] in R1. apply pbind_ok in R1 as (u & t1 & A1 & R1).
    destruct (flush_left _ _ _ _ Hp A1) as [Hp' Hb].
    apply (IH1 evs2 t1 sm2); try done. intros e0 He0. rewrite Hb. by apply Hsk.
Qed.

Lemma events_entries cs : omap id (events cs) = concat cs.
Proof.
  unfold events. induction cs as [|es cs IH]; [done|]. cbn [fmap list_fmap concat].
  rewrite !omap_app, IH. cbn. rewrite app_nil_r. f_equal.
  induction es as [|e es IHe]; [done|]. cbn. by f_equal.
Qed.

(** C6.  Members with the same log agree.  Two members that hold the same
    replicated rows at the same position apply the same entries, in calls of
    whatever size, on engines, caches and clocks of their own: every
    response is the same, and so are the rows, the applied index and the
    membership they end with. *)
Theorem members_agree c1 c2 cs1 cs2 (sm1 sm1' : Sm E1 Mb) (sm2 sm2' : Sm E2 Mb) rs1 rs2 :
  concat cs1 = concat cs2 → Forall entry_wf (concat cs1) → paired sm1 sm2 →
  same_skips sm1 sm2 (concat cs1) →
  roomy_run (life_steps c2 (batch_progress sm2) cs2) (mvcc sm2) →
  sm_applies c1 cs1 sm1 = (Ok rs1, sm1') → sm_applies c2 cs2 sm2 = (Ok rs2, sm2') →
  rs1 = rs2 ∧ paired sm1' sm2'.
Proof.
  intros Hcs Hwf Hp Hsk Hroom R1 R2. rewrite sm_applies_events in R1. rewrite sm_applies_events in R2.
  rewrite <- event_steps_life in Hroom.
  apply (events_agree c1 c2 (events cs1) (events cs2) sm1 _ sm2 _ rs1 rs2); try done.
  - by rewrite !events_entries.
  - by rewrite events_entries.
  - by rewrite events_entries.
Qed.
End steps.
End agree.

(** ** Two members that divide the log differently *)

Section witness.
Import SmDemo.

Lemma demo_paired : paired (demo_sm []) (demo_sm [None; None]).
Proof.
  split; [|done]. split; [apply demo_inv|apply demo_inv|]. intros t k Hk. cbn. reflexivity.
Qed.

Lemma members_agree_witness :
  let one := sm_applies demo_clock [demo_log] (demo_sm []) in
  let two := sm_applies (λ _ _, 0) [take 1 demo_log; []; drop 1 demo_log] (demo_sm [None; None]) in
  is_ok one.1 = true ∧ one.1 = two.1 ∧ paired one.2 two.2.
Proof.
  assert (is_ok (sm_applies demo_clock [demo_log] (demo_sm [])).1 = true) as H1 by (vm_compute; reflexivity).
  assert (is_ok (sm_applies (λ _ _, 0) [take 1 demo_log; []; drop 1 demo_log] (demo_sm [None; None])).1 = true)
    as H2 by (vm_compute; reflexivity).
  assert (roomy_run (life_steps (λ _ _, 0) None [take 1 demo_log; []; drop 1 demo_log]) (demo_store [None; None]))
    as Hroom by (apply roomyb_run_ok; vm_compute; reflexivity).
  destruct (sm_applies demo_clock [demo_log] (demo_sm [])) as [[rs1|x] sm1'] eqn:R1; [|discriminate H1].
  destruct (sm_applies (λ _ _, 0) [take 1 demo_log; []; drop 1 demo_log] (demo_sm [None; None]))
    as [[rs2|x] sm2'] eqn:R2; [|discriminate H2].
  destruct (members_agree demo_clock (λ _ _, 0) [demo_log] [take 1 demo_log; []; drop 1 demo_log]
    (demo_sm []) sm1' (demo_sm [None; None]) sm2' rs1 rs2) as [-> Hp].
  - reflexivity.
  - apply (proj2 demo_log_wf).
  - exact demo_paired.
  - intros e He. reflexivity.
  - exact Hroom.
  - exact R1.
  - exact R2.
  - cbv zeta. cbn [fst snd]. split; [reflexivity|]. split; [reflexivity|exact Hp].
Defined.
End witness.
