(* ===== verification/LogStore.v ===== *)
(** * Raft log stores ([raft/log_store.rs], [raft/kv_log_store.rs])

    [MemLogStore], a map of entries, is what openraft is promised of a log
    store.  [KvLogStore] keeps the log in two tables of an engine and, beside
    it, what the read barrier asks of the log ([LogProgress]).  A call is a
    program over the store. *)

From S2P Require Import Prelude Revision Record KvStore Lease Cache Auth Store.
From S2P Require Import SnapshotPolicy StateMachine.

(** openraft's [Vote]. *)
Record Vote := mkVote { vote_term : Z; vote_node : Z; vote_committed : bool }.

Record LogState := mkLogState { last_purged_log_id : option LogId; last_log_id : option LogId }.

(** A [RangeBounds<u64>]. *)
Inductive IBound := IIncluded (i : Z) | IExcluded (i : Z) | IUnbounded.

Definition idx_above (lo : IBound) (i : Z) : bool :=
  match lo with IIncluded j => j <=? i | IExcluded j => j <? i | IUnbounded => true end.
Definition idx_below (hi : IBound) (i : Z) : bool :=
  match hi with IIncluded j => i <=? j | IExcluded j => i <? j | IUnbounded => true end.

(** A [BTreeMap<u64, _>] in order. *)
Definition index_le {A} (a b : Z * A) : Prop := a.1 ≤ b.1.
#[global] Instance index_le_dec {A} (a b : Z * A) : Decision (index_le a b).
Proof. unfold index_le. apply _. Defined.

Definition by_index {A} (m : gmap Z A) : list (Z * A) := merge_sort index_le (map_to_list m).
Definition log_range {A} (lo hi : IBound) (m : gmap Z A) : list (Z * A) :=
  base.filter (λ x, idx_above lo x.1 && idx_below hi x.1 = true) (by_index m).

(** ** In memory *)

Section stores.
Context {Mb : Type}.

Record MemLog := mkMemLog {
  mem_log : gmap Z (Entry Mb);
  mem_purged : option LogId;
  mem_vote : option Vote;
  mem_committed : option LogId
}.

Definition MemLogStore_new : MemLog := mkMemLog ∅ None None None.

Definition entry_index (e : Entry Mb) : Z := lid_index (entry_id e).

Definition mem_try_get (lo hi : IBound) (m : MemLog) : list (Entry Mb) :=
  (log_range lo hi (mem_log m)).*2.

Definition or_else {A} (a b : option A) : option A := match a with Some _ => a | None => b end.

Definition mem_get_log_state (m : MemLog) : LogState :=
  mkLogState (mem_purged m)
    (or_else ((λ x, entry_id x.2) <$> last (by_index (mem_log m))) (mem_purged m)).

Definition mem_save_vote (v : Vote) (m : MemLog) : MemLog :=
  mkMemLog (mem_log m) (mem_purged m) (Some v) (mem_committed m).
Definition mem_save_committed (c : option LogId) (m : MemLog) : MemLog :=
  mkMemLog (mem_log m) (mem_purged m) (mem_vote m) c.
Definition mem_append (entries : list (Entry Mb)) (m : MemLog) : MemLog :=
  mkMemLog (foldl (λ l e, <[entry_index e := e]> l) (mem_log m) entries)
    (mem_purged m) (mem_vote m) (mem_committed m).
Definition mem_truncate (log_id : LogId) (m : MemLog) : MemLog :=
  mkMemLog (base.filter (λ x, ¬ lid_index log_id ≤ x.1) (mem_log m))
    (mem_purged m) (mem_vote m) (mem_committed m).
Definition mem_purge (log_id : LogId) (m : MemLog) : MemLog :=
  mkMemLog (base.filter (λ x, ¬ x.1 ≤ lid_index log_id) (mem_log m))
    (Some log_id) (mem_vote m) (mem_committed m).

(** ** In an engine's tables *)

Definition TABLE_LOG : string := "raft_log".
Definition TABLE_RAFT_META : string := "raft_meta".
Definition META_VOTE : bytes := str "vote".
Definition META_COMMITTED : bytes := str "committed".
Definition META_LAST_PURGED : bytes := str "last_purged_log_id".

Definition idx_key (index : Z) : bytes := be_bytes 8 index.

(** Every value is [index + 1], 0 meaning none. *)
Record LogProgress := mkLogProgress {
  lp_committed : Z;
  last_durable : Z;
  lp_membership : Z;
  lp_vote_term : Z;
  lp_term_start : Z * Z
}.

Definition LogProgress_default : LogProgress := mkLogProgress 0 0 0 0 (0, 0).

Definition set_last_durable (n : Z) (p : LogProgress) : LogProgress :=
  mkLogProgress (lp_committed p) n (lp_membership p) (lp_vote_term p) (lp_term_start p).
Definition saved_vote_term (p : LogProgress) : Z := lp_vote_term p.
Definition term_start (term : Z) (p : LogProgress) : option Z :=
  let '(t, i) := lp_term_start p in if (t =? term) && (0 <? i) then Some i else None.
Definition raise_durable (upto : Z) (p : LogProgress) : LogProgress :=
  set_last_durable (Z.max (last_durable p) upto) p.
(** [wait_durable]'s condition for returning. *)
Definition is_durable (index : Z) (p : LogProgress) : bool := index <? last_durable p.
Definition note_vote (v : Vote) (p : LogProgress) : LogProgress :=
  mkLogProgress (lp_committed p) (last_durable p) (lp_membership p)
    (Z.max (lp_vote_term p) (vote_term v)) (lp_term_start p).
Definition raise_committed (upto : Z) (p : LogProgress) : LogProgress :=
  mkLogProgress (Z.max (lp_committed p) upto) (last_durable p) (lp_membership p) (lp_vote_term p)
    (lp_term_start p).

(** What [append] notes of an entry before it is written. *)
Definition note_entry (e : Entry Mb) (p : LogProgress) : LogProgress :=
  let index := entry_index e in
  let term := lid_term (entry_id e) in
  mkLogProgress (lp_committed p) (last_durable p)
    (match entry_payload e with
     | PlMembership _ => Z.max (lp_membership p) (index + 1)
     | _ => lp_membership p
     end)
    (lp_vote_term p)
    (if (lp_term_start p).1 <? term then (term, index + 1) else lp_term_start p).

(** What [truncate] undoes. *)
Definition truncate_progress (index : Z) (p : LogProgress) : LogProgress :=
  mkLogProgress (lp_committed p) (Z.min (last_durable p) index) (lp_membership p) (lp_vote_term p)
    (if index <? (lp_term_start p).2 then (0, 0) else lp_term_start p).

Section kv.
Context {E : Type} `{KvStore E}.
Context `{Bincode (Entry Mb)} `{Bincode Vote} `{Bincode LogId} `{Bincode (option LogId)}.

Record KvLog := mkKvLog { kl_engine : E; committed_index : Z; progress : LogProgress }.

Definition KvLogStore_new (e : E) : KvLog := mkKvLog e 0 LogProgress_default.

Abbreviation ML := (prog KvLog string).

Definition set_progress (f : LogProgress → LogProgress) : ML () :=
  pmodify (λ s, mkKvLog (kl_engine s) (committed_index s) (f (progress s))).

(** [io_err] keeps only that the call failed. *)
Definition kl_commit (b : WriteBatch) (o : WriteOptions) : ML () := λ s,
  match commit b o (kl_engine s) with
  | (Ok _, e) => (Ok (), mkKvLog e (committed_index s) (progress s))
  | (Err _, e) => (Err "write", mkKvLog e (committed_index s) (progress s))
  end.
Definition kl_snapshot : ML Tables := λ s, (Ok (contents (kl_engine s)), s).
Definition decode_or {A} `{Bincode A} (b : bytes) : result string A := ok_or (deserialize b) "read".
Definition encode_or {A} `{Bincode A} (a : A) : result string bytes := ok_or (serialize a) "write".

Definition note_committed (c : option LogId) : ML () :=
  match c with
  | None => pret ()
  | Some c => pmodify (λ s, mkKvLog (kl_engine s) (Z.max (committed_index s) (lid_index c))
                              (raise_committed (lid_index c + 1) (progress s)))
  end.

Definition key_bound (b : IBound) : Bound :=
  match b with
  | IIncluded i => Included (idx_key i)
  | IExcluded i => Excluded (idx_key i)
  | IUnbounded => Unbounded
  end.

Fixpoint decode_rows_or (rows : list (bytes * bytes)) : result string (list (Entry Mb)) :=
  match rows with
  | [] => Ok []
  | (_, b) :: rows' => let? e := decode_or b in let? es := decode_rows_or rows' in Ok (e :: es)
  end.

Definition kv_try_get (lo hi : IBound) : ML (list (Entry Mb)) :=
  let* snap := kl_snapshot in
  plift (decode_rows_or (snap_range snap TABLE_LOG (key_bound lo) (key_bound hi) 0)).

Definition kv_get_log_state : ML LogState :=
  let* snap := kl_snapshot in
  let* last := (match snap_last snap TABLE_LOG with
                | Some (_, b) => let* e := plift (decode_or (A := Entry Mb) b) in pret (Some (entry_id e))
                | None => pret None
                end) in
  let* purged := (match snap_get snap TABLE_RAFT_META META_LAST_PURGED with
                  | Some b => let* id := plift (decode_or (A := LogId) b) in pret (Some id)
                  | None => pret None
                  end) in
  let last_log_id := or_else last purged in
  let* _ := (match last_log_id with
             | Some l => set_progress (raise_durable (lid_index l + 1))
             | None => pret ()
             end) in
  pret (mkLogState purged last_log_id).

Definition kv_save_vote (v : Vote) : ML () :=
  let* b := plift (encode_or v) in
  let* _ := kl_commit (batch_put TABLE_RAFT_META META_VOTE b WriteBatch_new) WriteOptions_default in
  set_progress (note_vote v).

Definition kv_read_vote : ML (option Vote) :=
  let* snap := kl_snapshot in
  match snap_get snap TABLE_RAFT_META META_VOTE with
  | Some b =>
      let* v := plift (decode_or (A := Vote) b) in
      let* _ := set_progress (note_vote v) in pret (Some v)
  | None => pret None
  end.

Definition kv_save_committed (c : option LogId) : ML () :=
  let* b := plift (encode_or c) in
  let* _ := note_committed c in
  kl_commit (batch_put TABLE_RAFT_META META_COMMITTED b WriteBatch_new) (mkWriteOptions false).

Definition kv_read_committed : ML (option LogId) :=
  let* snap := kl_snapshot in
  match snap_get snap TABLE_RAFT_META META_COMMITTED with
  | Some b =>
      let* c := plift (decode_or (A := option LogId) b) in
      let* _ := note_committed c in pret c
  | None => pret None
  end.

Fixpoint kv_append_loop (entries : list (Entry Mb)) (batch : WriteBatch) (last : option Z)
    : ML (WriteBatch * option Z) :=
  match entries with
  | [] => pret (batch, last)
  | e :: entries' =>
      let* _ := set_progress (note_entry e) in
      let* b := plift (encode_or e) in
      kv_append_loop entries' (batch_put TABLE_LOG (idx_key (entry_index e)) b batch)
        (Some (entry_index e))
  end.

(** Its callback is called once it answers [Ok]. *)
Definition kv_append (entries : list (Entry Mb)) : ML () :=
  let* (batch, last) := kv_append_loop entries WriteBatch_new None in
  let* _ := kl_commit batch WriteOptions_default in
  match last with
  | Some last => set_progress (raise_durable (last + 1))
  | None => pret ()
  end.

Definition kv_truncate (log_id : LogId) : ML () :=
  let start := idx_key (lid_index log_id) in
  let batch := batch_delete_range TABLE_LOG start (replicate 9 xff) WriteBatch_new in
  let* _ := kl_commit batch WriteOptions_default in
  set_progress (truncate_progress (lid_index log_id)).

Definition kv_purge (log_id : LogId) : ML () :=
  let end_ := idx_key (lid_index log_id) ++ [x00] in
  let batch := batch_delete_range TABLE_LOG [] end_ WriteBatch_new in
  let* b := plift (encode_or log_id) in
  kl_commit (batch_put TABLE_RAFT_META META_LAST_PURGED b batch) WriteOptions_default.
End kv.
End stores.
Arguments MemLog : clear implicits.
Arguments idx_key : simpl never.
