(* ===== verification/EntryCodec.v ===== *)
(** * A codec for log entries

    Requests and log entries are countable, so that [countable_codec] gives
    the encoding the log stores ask for a concrete instance. *)

From S2P Require Import Prelude Revision Record KvStore Lease Cache Auth Store.
From S2P Require Import SnapshotPolicy StateMachine SmDemo LogStore.

(** Decidable equality through a left inverse. *)
Lemma inverse_eq_dec {A B} `{EqDecision B} (f : A → B) (g : B → A) :
  (∀ x, g (f x) = x) → EqDecision A.
Proof.
  intros Hg x y. destruct (decide (f x = f y)) as [Heq|Hne].
  - left. rewrite <- (Hg x), <- (Hg y). by rewrite Heq.
  - right. congruence.
Defined.

(** ** Requests *)

#[global] Instance Mutation_eq_dec : EqDecision Mutation.
Proof. solve_decision. Defined.
#[global] Instance CompareOp_eq_dec : EqDecision CompareOp.
Proof. solve_decision. Defined.
#[global] Instance CompareTarget_eq_dec : EqDecision CompareTarget.
Proof. solve_decision. Defined.
#[global] Instance Compare_eq_dec : EqDecision Compare.
Proof. solve_decision. Defined.
#[global] Instance RangeOp_eq_dec : EqDecision RangeOp.
Proof. solve_decision. Defined.

#[global] Instance Mutation_countable : Countable Mutation.
Proof.
  apply (inj_countable'
    (λ m, match m with
          | Put k v l iv il p => inl (k, v, l, (iv, il, p))
          | DeleteRange k e p => inr (k, e, p)
          end)
    (λ s, match s with
          | inl (k, v, l, (iv, il, p)) => Put k v l iv il p
          | inr (k, e, p) => DeleteRange k e p
          end)). by intros [].
Defined.

#[global] Instance CompareOp_countable : Countable CompareOp.
Proof.
  apply (inj_countable'
    (λ c, match c with CmpEqual => 0 | CmpNotEqual => 1 | CmpGreater => 2 | CmpLess => 3 end)
    (λ n, if n =? 0 then CmpEqual else if n =? 1 then CmpNotEqual else if n =? 2 then CmpGreater else CmpLess)).
  by intros [].
Defined.

#[global] Instance CompareTarget_countable : Countable CompareTarget.
Proof.
  apply (inj_countable'
    (λ t, match t with
          | TgVersion v => inl (0, v) | TgCreateRevision v => inl (1, v) | TgModRevision v => inl (2, v)
          | TgLease v => inl (3, v) | TgValue v => inr v
          end)
    (λ s, match s with
          | inl (n, v) => if n =? 0 then TgVersion v else if n =? 1 then TgCreateRevision v
                          else if n =? 2 then TgModRevision v else TgLease v
          | inr v => TgValue v
          end)). by intros [].
Defined.

#[global] Instance Compare_countable : Countable Compare.
Proof.
  apply (inj_countable' (λ c, (cmp_key c, cmp_range_end c, cmp_op c, cmp_target c))
           (λ '(k, e, o, t), mkCompare k e o t)). by intros [].
Defined.

#[global] Instance RangeOp_countable : Countable RangeOp.
Proof.
  apply (inj_countable'
    (λ r, (ro_key r, ro_range_end r, ro_limit r, ro_revision r, ro_keys_only r, ro_count_only r))
    (λ '(k, e, l, r, ko, co), mkRangeOp k e l r ko co)). by intros [].
Defined.

(** ** Transactions *)

Abbreviation txn_tree := (gen_tree (RangeOp + Mutation + list Compare)).

Fixpoint txn_enc (op : TxnOp) : txn_tree :=
  match op with
  | OpRange r => GenLeaf (inl (inl r))
  | OpMutation m => GenLeaf (inl (inr m))
  | OpTxn compares success failure =>
      GenNode (length success) (GenLeaf (inr compares) :: map txn_enc success ++ map txn_enc failure)
  end.

Fixpoint txn_dec (t : txn_tree) : TxnOp :=
  match t with
  | GenLeaf (inl (inl r)) => OpRange r
  | GenLeaf (inl (inr m)) => OpMutation m
  | GenLeaf (inr c) => OpTxn c [] []
  | GenNode n (GenLeaf (inr c) :: l) => OpTxn c (take n (map txn_dec l)) (drop n (map txn_dec l))
  | GenNode _ _ => OpTxn [] [] []
  end.

Lemma txn_dec_enc : ∀ op, txn_dec (txn_enc op) = op.
Proof.
  fix IH 1. intros [r|m|c s f]; [reflexivity|reflexivity|]. cbn. rewrite map_app, !map_map.
  assert (∀ l, map (λ x, txn_dec (txn_enc x)) l = l) as Hl.
  { induction l as [|x l IHl]; cbn; [done|]. f_equal; [apply IH|apply IHl]. }
  rewrite !Hl, take_app_length, drop_app_length. done.
Qed.

#[global] Instance TxnOp_eq_dec : EqDecision TxnOp.
Proof. apply (inverse_eq_dec txn_enc txn_dec), txn_dec_enc. Defined.
#[global] Instance TxnOp_countable : Countable TxnOp.
Proof. apply (inj_countable' txn_enc txn_dec), txn_dec_enc. Defined.

(** ** Auth requests *)

Abbreviation auth_code := (Z * list bytes * bool * option StoredPermission * option AuthTables)%type.

Definition auth_enc (op : AuthOp) : auth_code :=
  match op with
  | Enable => (0, [], false, None, None)
  | Disable => (1, [], false, None, None)
  | Authenticate u t h => (2, [u; t; h], false, None, None)
  | UserAdd n p np => (3, [n; p], np, None, None)
  | UserDelete n => (4, [n], false, None, None)
  | UserChangePassword n p => (5, [n; p], false, None, None)
  | UserGrantRole u r => (6, [u; r], false, None, None)
  | UserRevokeRole n r => (7, [n; r], false, None, None)
  | RoleAdd n => (8, [n], false, None, None)
  | RoleDelete n => (9, [n], false, None, None)
  | RoleGrantPermission n p => (10, [n], false, Some p, None)
  | RoleRevokePermission n k e => (11, [n; k; e], false, None, None)
  | Adopt t => (12, [], false, None, Some t)
  end.

Definition auth_dec (c : auth_code) : AuthOp :=
  match c with
  | (0, [], _, _, _) => Enable
  | (2, [u; t; h], _, _, _) => Authenticate u t h
  | (3, [n; p], np, _, _) => UserAdd n p np
  | (4, [n], _, _, _) => UserDelete n
  | (5, [n; p], _, _, _) => UserChangePassword n p
  | (6, [u; r], _, _, _) => UserGrantRole u r
  | (7, [n; r], _, _, _) => UserRevokeRole n r
  | (8, [n], _, _, _) => RoleAdd n
  | (9, [n], _, _, _) => RoleDelete n
  | (10, [n], _, Some p, _) => RoleGrantPermission n p
  | (11, [n; k; e], _, _, _) => RoleRevokePermission n k e
  | (12, [], _, _, Some t) => Adopt t
  | _ => Disable
  end.

Lemma auth_dec_enc op : auth_dec (auth_enc op) = op.
Proof. by destruct op. Qed.

#[global] Instance AuthOp_eq_dec : EqDecision AuthOp.
Proof. apply (inverse_eq_dec auth_enc auth_dec), auth_dec_enc. Defined.
#[global] Instance AuthOp_countable : Countable AuthOp.
Proof. apply (inj_countable' auth_enc auth_dec), auth_dec_enc. Defined.

(** ** Log entries *)

Abbreviation entry_leaf :=
  (list Mutation + (list Compare * list TxnOp * list TxnOp) + (Z * list Z) + AuthOp)%type.

Fixpoint entry_enc (e : LogEntry) : gen_tree entry_leaf :=
  match e with
  | EntApply ms => GenLeaf (inl (inl (inl ms)))
  | EntTxn c s f => GenLeaf (inl (inl (inr (c, s, f))))
  | EntCompact r => GenLeaf (inl (inr (0, [r])))
  | EntLeaseGrant i t n => GenLeaf (inl (inr (1, [i; t; n])))
  | EntLeaseRevoke i => GenLeaf (inl (inr (2, [i])))
  | EntLeaseKeepAlive i n => GenLeaf (inl (inr (3, [i; n])))
  | EntNoop => GenLeaf (inl (inr (4, [])))
  | EntClusterId i => GenLeaf (inl (inr (5, [i])))
  | EntAuth op => GenLeaf (inr op)
  | EntBatch subs => GenNode 0 (map entry_enc subs)
  end.

Fixpoint entry_dec (t : gen_tree entry_leaf) : LogEntry :=
  match t with
  | GenLeaf (inl (inl (inl ms))) => EntApply ms
  | GenLeaf (inl (inl (inr (c, s, f)))) => EntTxn c s f
  | GenLeaf (inl (inr (0, [r]))) => EntCompact r
  | GenLeaf (inl (inr (1, [i; t; n]))) => EntLeaseGrant i t n
  | GenLeaf (inl (inr (2, [i]))) => EntLeaseRevoke i
  | GenLeaf (inl (inr (3, [i; n]))) => EntLeaseKeepAlive i n
  | GenLeaf (inl (inr (5, [i]))) => EntClusterId i
  | GenLeaf (inl (inr _)) => EntNoop
  | GenLeaf (inr op) => EntAuth op
  | GenNode _ l => EntBatch (map entry_dec l)
  end.

Lemma entry_dec_enc : ∀ e, entry_dec (entry_enc e) = e.
Proof.
  fix IH 1. intros e. destruct e as [| | | | | | | |subs|]; try reflexivity. cbn. rewrite map_map. f_equal.
  induction subs as [|x l IHl]; cbn; [done|]. f_equal; [apply IH|apply IHl].
Qed.

#[global] Instance LogEntry_eq_dec : EqDecision LogEntry.
Proof. apply (inverse_eq_dec entry_enc entry_dec), entry_dec_enc. Defined.
#[global] Instance LogEntry_countable : Countable LogEntry.
Proof. apply (inj_countable' entry_enc entry_dec), entry_dec_enc. Defined.

#[global] Instance Payload_eq_dec Mb `{EqDecision Mb} : EqDecision (Payload Mb).
Proof. solve_decision. Defined.
#[global] Instance Payload_countable Mb `{Countable Mb} : Countable (Payload Mb).
Proof.
  apply (inj_countable'
    (λ p, match p with
          | PlBlank => inl (inl ()) | PlNormal d => inl (inr d) | PlMembership m => inr m
          end)
    (λ s, match s with
          | inl (inl _) => PlBlank | inl (inr d) => PlNormal d | inr m => PlMembership m
          end)). by intros [].
Defined.

#[global] Instance Entry_eq_dec Mb `{EqDecision Mb} : EqDecision (Entry Mb).
Proof. solve_decision. Defined.
#[global] Instance Entry_countable Mb `{Countable Mb} : Countable (Entry Mb).
Proof.
  apply (inj_countable' (λ e, (entry_id e, entry_payload e)) (λ '(i, p), mkEntry i p)). by intros [].
Defined.

#[global] Instance Vote_eq_dec : EqDecision Vote.
Proof. solve_decision. Defined.
#[global] Instance Vote_countable : Countable Vote.
Proof.
  apply (inj_countable' (λ v, (vote_term v, vote_node v, vote_committed v)) (λ '(t, n, c), mkVote t n c)).
  by intros [].
Defined.
