(* ===== verification/LogKv.v ===== *)
(** * [KvLogStore] is a log store

    Every call of [KvLogStore] answers as [MemLogStore] does, leaves the rows
    of what [MemLogStore] holds, and, but for the committed index, has made
    them durable when it answers; a call whose commit fails did all of it or
    nothing. *)

From S2P Require Import Prelude Revision Record KvStore Lease Cache Auth Store.
From S2P Require Import SnapshotPolicy StateMachine SmDemo LogStore EntryCodec.

(** ** Order *)

#[global] Instance index_le_trans {A} : Transitive (@index_le A).
Proof. intros a b c. unfold index_le. lia. Qed.
#[global] Instance index_le_total {A} : Total (@index_le A).
Proof. intros a b. unfold index_le. lia. Qed.

Lemma by_index_elem {A} (m : gmap Z A) i a : (i, a) ∈ by_index m ↔ m !! i = Some a.
Proof. unfold by_index. rewrite merge_sort_Permutation. apply elem_of_map_to_list. Qed.

Lemma by_index_sorted {A} (m : gmap Z A) : StronglySorted Z.lt (by_index m).*1.
Proof.
  assert (StronglySorted index_le (by_index m)) as Hs by (apply StronglySorted_merge_sort; apply _).
  assert (NoDup (by_index m).*1) as Hnd.
  { unfold by_index. rewrite merge_sort_Permutation. apply NoDup_fst_map_to_list. }
  induction (by_index m) as [|x l IH]; [constructor|].
  rewrite fmap_cons in *. apply StronglySorted_cons in Hs as [Hx Hs]. apply NoDup_cons in Hnd as [Hni Hnd].
  apply StronglySorted_cons. split; [|by apply IH]. rewrite Forall_fmap, Forall_forall in *.
  intros y Hy. specialize (Hx y Hy). unfold index_le in Hx. cbn.
  assert (x.1 ≠ y.1); [|lia]. intros Heq. apply Hni. rewrite Heq. by apply list_elem_of_fmap_2.
Qed.

Lemma sorted_filter {A} (P : Z * A → Prop) `{!∀ x, Decision (P x)} (l : list (Z * A)) :
  StronglySorted Z.lt l.*1 → StronglySorted Z.lt (base.filter P l).*1.
Proof.
  induction l as [|x l IH]; [done|]. rewrite fmap_cons, StronglySorted_cons, filter_cons.
  intros [Hx Hs]. case_decide; [|by apply IH]. rewrite fmap_cons, StronglySorted_cons. split; [|by apply IH].
  rewrite Forall_fmap, Forall_forall in *. intros y [_ Hy]%list_elem_of_filter. by apply Hx.
Qed.

Lemma log_range_elem {A} lo hi (m : gmap Z A) i a :
  (i, a) ∈ log_range lo hi m ↔ m !! i = Some a ∧ idx_above lo i && idx_below hi i = true.
Proof. unfold log_range. rewrite list_elem_of_filter, by_index_elem. cbn. naive_solver. Qed.

(** Big-endian keys keep the order. *)
Lemma idx_key_cmp i j : is_u64 i → is_u64 j → bytes_cmp (idx_key i) (idx_key j) = (i ?= j).
Proof. unfold is_u64, two64. intros. apply be_bytes_cmp; cbn; lia. Qed.

Lemma idx_key_inj i j : is_u64 i → is_u64 j → idx_key i = idx_key j → i = j.
Proof.
  intros Hi Hj Heq. apply Z.compare_eq_iff. rewrite <- idx_key_cmp by done. rewrite Heq. apply bytes_cmp_refl.
Qed.

Definition bound_ok (b : IBound) : Prop :=
  match b with IIncluded i | IExcluded i => is_u64 i | IUnbounded => True end.

Lemma key_bound_within lo hi i :
  bound_ok lo → bound_ok hi → is_u64 i →
  within (key_bound lo) (key_bound hi) (idx_key i) = idx_above lo i && idx_below hi i.
Proof.
  intros Hlo Hhi Hi. unfold within. f_equal.
  - destruct lo as [j|j|]; cbn in *; [| |done]; unfold bytes_leb, bytes_ltb; rewrite idx_key_cmp by done;
      unfold Z.leb, Z.ltb; by destruct (j ?= i).
  - destruct hi as [j|j|]; cbn in *; [| |done]; unfold bytes_leb, bytes_ltb; rewrite idx_key_cmp by done;
      unfold Z.leb, Z.ltb; by destruct (i ?= j).
Qed.

Section refine.
Context {Mb : Type} {E : Type} `{KvStoreLaws E}.
Context `{BincodeLaws (Entry Mb)} `{BincodeLaws Vote} `{BincodeLaws LogId} `{BincodeLaws (option LogId)}.

(** ** Rows and entries *)

Record kv_rel (ts : Tables) (m : MemLog Mb) : Prop := {
  kr_log i : is_u64 i → ts !! (TABLE_LOG, idx_key i) = mem_log m !! i ≫= serialize;
  kr_keys k : is_Some (ts !! (TABLE_LOG, k)) → ∃ i, is_u64 i ∧ k = idx_key i;
  kr_index i e : mem_log m !! i = Some e → is_u64 i ∧ entry_index e = i;
  kr_vote : ts !! (TABLE_RAFT_META, META_VOTE) = mem_vote m ≫= serialize;
  kr_committed :
    match ts !! (TABLE_RAFT_META, META_COMMITTED) with
    | Some b => deserialize b = Some (mem_committed m)
    | None => mem_committed m = None
    end;
  kr_purged : ts !! (TABLE_RAFT_META, META_LAST_PURGED) = mem_purged m ≫= serialize
}.

Definition row_of (x : Z * Entry Mb) : bytes * bytes := (idx_key x.1, default [] (serialize x.2)).

Lemma serialized (e : Entry Mb) : serialize e = Some (default [] (serialize e)).
Proof. by destruct (serialize_ok e) as [b ->]. Qed.

Lemma rows_sorted (l : list (Z * Entry Mb)) :
  (∀ x, x ∈ l → is_u64 x.1) → StronglySorted Z.lt l.*1 → key_sorted (row_of <$> l).
Proof.
  induction l as [|x l IH]; intros Hu Hs; [apply key_sorted_nil|].
  rewrite fmap_cons in Hs. apply StronglySorted_cons in Hs as [Hx Hs].
  rewrite fmap_cons, key_sorted_cons. split; [|apply IH; [set_solver|done]].
  intros q (y & -> & Hy)%list_elem_of_fmap. unfold bytes_lt. cbn.
  rewrite idx_key_cmp by (apply Hu; set_solver). rewrite Forall_fmap, Forall_forall in Hx.
  apply Z.compare_lt_iff, Hx, Hy.
Qed.

Lemma range_rows ts m lo hi :
  kv_rel ts m → bound_ok lo → bound_ok hi →
  snap_range ts TABLE_LOG (key_bound lo) (key_bound hi) 0 = row_of <$> log_range lo hi (mem_log m).
Proof.
  intros Hr Hlo Hhi. apply key_sorted_ext; [apply map_range_sorted| |].
  - apply rows_sorted; [|apply sorted_filter, by_index_sorted].
    intros [i e] [Hi _]%log_range_elem. by apply (kr_index _ _ Hr) in Hi as [? _].
  - intros [k b]. rewrite snap_range_elem, list_elem_of_fmap. split.
    + intros [Hk Hw]. destruct (kr_keys _ _ Hr k) as (i & Hi & ->); [by eauto|].
      rewrite (kr_log _ _ Hr i Hi) in Hk. apply bind_Some in Hk as (e & He & Hb).
      exists (i, e). rewrite log_range_elem, <- (key_bound_within lo hi i) by done.
      unfold row_of. cbn. by rewrite Hb.
    + intros ([i e] & [= -> ->] & [Hi Hw]%log_range_elem).
      destruct (kr_index _ _ Hr i e Hi) as [Hu _]. rewrite (kr_log _ _ Hr i Hu), Hi. cbn.
      rewrite key_bound_within by done. split; [apply serialized|done].
Qed.

Lemma decode_rows_ok (l : list (Z * Entry Mb)) : decode_rows_or (row_of <$> l) = Ok l.*2.
Proof.
  induction l as [|[i e] l IH]; [done|]. rewrite fmap_cons. cbn [decode_rows_or row_of fst snd].
  unfold decode_or. rewrite (deserialize_serialize e _ (serialized e)). cbn [ok_or res_bind]. by rewrite IH.
Qed.

Lemma last_row ts m :
  kv_rel ts m → snap_last ts TABLE_LOG = row_of <$> last (by_index (mem_log m)).
Proof.
  intros Hr. pose proof (range_rows ts m IUnbounded IUnbounded Hr I I) as Hrows.
  assert (∀ {A} (l : list A) (P : A → Prop) `{!∀ x, Decision (P x)}, (∀ x, P x) → base.filter P l = l) as Hall.
  { intros A l P ? HP. induction l as [|x l IH]; [done|]. rewrite filter_cons_True by done. by rewrite IH. }
  unfold snap_range, limited, map_range, log_range in Hrows. cbn [key_bound] in Hrows.
  rewrite !Hall in Hrows by done. unfold snap_last. rewrite Hrows. by rewrite fmap_last.
Qed.

(** ** Reads *)

(**  What [KvLogStore] reads is what [MemLogStore] reads: the entries of
    any range, the log state, the vote and the committed id. *)
Theorem kv_reads_exact (s : KvLog) (m : MemLog Mb) lo hi :
  kv_rel (contents (kl_engine s)) m → bound_ok lo → bound_ok hi →
  (kv_try_get lo hi s).1 = Ok (mem_try_get lo hi m) ∧
  (kv_get_log_state (Mb := Mb) s).1 = Ok (mem_get_log_state m) ∧
  (kv_read_vote s).1 = Ok (mem_vote m) ∧
  (kv_read_committed s).1 = Ok (mem_committed m).
Proof.
  intros Hr Hlo Hhi. split_and!.
  - unfold kv_try_get, pbind, kl_snapshot, plift. rewrite (range_rows _ m) by done. by rewrite decode_rows_ok.
  - unfold kv_get_log_state, pbind at 1, kl_snapshot. rewrite (last_row _ m) by done.
    unfold snap_get. rewrite (kr_purged _ _ Hr). unfold mem_get_log_state, decode_or, plift.
    destruct (last (by_index (mem_log m))) as [[i e]|], (mem_purged m) as [p|]; cbn.
    all: rewrite ?(deserialize_serialize _ _ (serialized e)); cbn.
    all: try (destruct (serialize_ok p) as [b Hb]; rewrite Hb; cbn; rewrite (deserialize_serialize p b Hb); cbn).
    all: done.
  - unfold kv_read_vote, pbind at 1, kl_snapshot, snap_get. rewrite (kr_vote _ _ Hr).
    destruct (mem_vote m) as [v|]; cbn; [|done]. destruct (serialize_ok v) as [b Hb]. rewrite Hb.
    unfold pbind, plift, decode_or. by rewrite (deserialize_serialize v b Hb).
  - unfold kv_read_committed, pbind at 1, kl_snapshot, snap_get. pose proof (kr_committed _ _ Hr) as Hc.
    destruct (contents (kl_engine s) !! _) as [b|]; [|by rewrite Hc].
    unfold pbind, plift, decode_or. rewrite Hc. cbn. by destruct (mem_committed m).
Qed.

(** ** Writes *)

Inductive LogOp :=
| LAppend (entries : list (Entry Mb))
| LTruncate (log_id : LogId)
| LPurge (log_id : LogId)
| LVote (v : Vote)
| LCommitted (c : option LogId).

Definition mem_op (op : LogOp) : MemLog Mb → MemLog Mb :=
  match op with
  | LAppend entries => mem_append entries
  | LTruncate log_id => mem_truncate log_id
  | LPurge log_id => mem_purge log_id
  | LVote v => mem_save_vote v
  | LCommitted c => mem_save_committed c
  end.

Definition kv_op (op : LogOp) : prog KvLog string () :=
  match op with
  | LAppend entries => kv_append entries
  | LTruncate log_id => kv_truncate log_id
  | LPurge log_id => kv_purge log_id
  | LVote v => kv_save_vote v
  | LCommitted c => kv_save_committed c
  end.

Definition op_wf (op : LogOp) : Prop :=
  match op with
  | LAppend entries => Forall (λ e, is_u64 (entry_index e)) entries
  | LTruncate log_id | LPurge log_id => is_u64 (lid_index log_id)
  | _ => True
  end.

(** What an op commits. *)
Definition op_batch (op : LogOp) : WriteBatch :=
  match op with
  | LAppend entries => (λ e, OpPut TABLE_LOG (idx_key (entry_index e)) (default [] (serialize e))) <$> entries
  | LTruncate log_id => [OpDeleteRange TABLE_LOG (idx_key (lid_index log_id)) (replicate 9 xff)]
  | LPurge log_id =>
      [OpDeleteRange TABLE_LOG [] (idx_key (lid_index log_id) ++ [x00]);
       OpPut TABLE_RAFT_META META_LAST_PURGED (default [] (serialize log_id))]
  | LVote v => [OpPut TABLE_RAFT_META META_VOTE (default [] (serialize v))]
  | LCommitted c => [OpPut TABLE_RAFT_META META_COMMITTED (default [] (serialize c))]
  end.

Lemma rel_put ts m e :
  is_u64 (entry_index e) → kv_rel ts m →
  kv_rel (<[(TABLE_LOG, idx_key (entry_index e)) := default [] (serialize e)]> ts) (mem_append [e] m).
Proof.
  intros Hu [Hl Hk Hi Hv Hc Hp]. split; cbn.
  - intros i Hiu. destruct (decide (i = entry_index e)) as [->|Hne].
    + rewrite !lookup_insert_eq. cbn. by rewrite <- serialized.
    + rewrite !lookup_insert_ne by (try done; intros Heq; apply (f_equal snd) in Heq; by apply idx_key_inj in Heq). by apply Hl.
  - intros k [b Hb]. destruct (decide (k = idx_key (entry_index e))) as [->|Hne]; [by eauto|].
    rewrite lookup_insert_ne in Hb by congruence. apply Hk. by eauto.
  - intros i e' He. apply lookup_insert_Some in He as [[<- <-]|[_ He]]; [done|by apply Hi].
  - by rewrite lookup_insert_ne.
  - by rewrite lookup_insert_ne.
  - by rewrite lookup_insert_ne.
Qed.

Lemma below_ff l n : (length l < n)%nat → bytes_cmp l (replicate n xff) = Lt.
Proof.
  revert n. induction l as [|b l IH]; intros [|n] Hn; cbn in *; [lia|done|lia|].
  pose proof (byte_val_range b) as Hb. change (byte_val xff) with 255.
  destruct (Z.compare_spec (byte_val b) 255); [apply IH; lia|done|lia].
Qed.

Lemma truncate_range i j :
  is_u64 i → is_u64 j → in_del_range (idx_key i) (replicate 9 xff) (idx_key j) = (i <=? j).
Proof.
  intros Hi Hj. unfold in_del_range, bytes_leb, bytes_ltb. rewrite idx_key_cmp by done.
  rewrite below_ff by (unfold idx_key; rewrite length_be_bytes; lia). rewrite andb_true_r.
  unfold Z.leb. by destruct (i ?= j).
Qed.

Lemma cmp_longer a b x : length a = length b → bytes_cmp a (b ++ [x]) = match bytes_cmp a b with Eq => Lt | c => c end.
Proof.
  revert b. induction a as [|y a IH]; intros [|z b] Hl; try done. cbn.
  destruct (_ ?= _); [apply IH; by injection Hl|done..].
Qed.

Lemma purge_range i j :
  is_u64 i → is_u64 j → in_del_range [] (idx_key i ++ [x00]) (idx_key j) = (j <=? i).
Proof.
  intros Hi Hj. unfold in_del_range, bytes_leb, bytes_ltb.
  rewrite cmp_longer by (unfold idx_key; by rewrite !length_be_bytes). rewrite idx_key_cmp by done.
  destruct (idx_key j) eqn:Hk; [by apply (f_equal length) in Hk; unfold idx_key in Hk; rewrite length_be_bytes in Hk|].
  unfold Z.leb. by destruct (j ?= i).
Qed.

(** Removing the entries of a range of indices. *)
Lemma rel_remove ts m (P : Z → bool) lo hi purged :
  (∀ j, is_u64 j → in_del_range lo hi (idx_key j) = P j) → kv_rel ts m →
  mem_purged m = purged →
  kv_rel (apply_op (OpDeleteRange TABLE_LOG lo hi) ts)
    (mkMemLog (base.filter (λ x, ¬ P x.1 = true) (mem_log m)) purged (mem_vote m) (mem_committed m)).
Proof.
  intros HP [Hl Hk Hi Hv Hc Hp] <-. split; cbn [mem_log mem_vote mem_committed mem_purged].
  - intros i Hu. rewrite apply_op_lookup, HP, Hl, map_lookup_filter by done.
    destruct (mem_log m !! i) as [e|]; cbn; [|by case_decide].
    case_decide as Hd; [rewrite option_guard_False|rewrite option_guard_True]; naive_solver.
  - intros k [b Hb]. rewrite apply_op_lookup in Hb. case_decide; [done|]. apply Hk. by eauto.
  - intros i e [He _]%map_lookup_filter_Some. by apply Hi.
  - by rewrite apply_op_lookup, decide_False by naive_solver.
  - by rewrite apply_op_lookup, decide_False by naive_solver.
  - by rewrite apply_op_lookup, decide_False by naive_solver.
Qed.

Lemma filter_leb (l : gmap Z (Entry Mb)) (P : Z * Entry Mb → Prop) `{!∀ x, Decision (P x)} (f : Z → bool) :
  (∀ i e, P (i, e) ↔ ¬ f i = true) → base.filter P l = base.filter (λ x, ¬ f x.1 = true) l.
Proof. intros HP. apply map_filter_ext. intros i e _. apply HP. Qed.

(** A row of the metadata table. *)
Lemma rel_meta ts m k b m' :
  k ∈ [META_VOTE; META_COMMITTED; META_LAST_PURGED] → kv_rel ts m → mem_log m' = mem_log m →
  (if decide (k = META_VOTE) then Some b = mem_vote m' ≫= serialize else mem_vote m' = mem_vote m) →
  (if decide (k = META_COMMITTED) then deserialize b = Some (mem_committed m') else mem_committed m' = mem_committed m) →
  (if decide (k = META_LAST_PURGED) then Some b = mem_purged m' ≫= serialize else mem_purged m' = mem_purged m) →
  kv_rel (<[(TABLE_RAFT_META, k) := b]> ts) m'.
Proof.
  intros Hin [Hl Hk Hi Hv Hc Hp] Hlog Hv' Hc' Hp'. split.
  - intros i Hu. rewrite lookup_insert_ne by done. rewrite Hlog. by apply Hl.
  - intros j Hj. rewrite lookup_insert_ne in Hj by done. by apply Hk.
  - rewrite Hlog. apply Hi.
  - destruct (decide (k = META_VOTE)) as [->|]; [by rewrite lookup_insert_eq|].
    rewrite lookup_insert_ne by congruence. by rewrite Hv'.
  - destruct (decide (k = META_COMMITTED)) as [->|]; [by rewrite lookup_insert_eq|].
    rewrite lookup_insert_ne by congruence. by rewrite Hc'.
  - destruct (decide (k = META_LAST_PURGED)) as [->|]; [by rewrite lookup_insert_eq|].
    rewrite lookup_insert_ne by congruence. by rewrite Hp'.
Qed.

Lemma encoded {A} `{BincodeLaws A} (a : A) : serialize a = Some (default [] (serialize a)).
Proof. by destruct (serialize_ok a) as [b ->]. Qed.

(** What an op commits is what [MemLogStore] does. *)
Lemma batch_refines ts m op :
  op_wf op → kv_rel ts m → kv_rel (apply_batch (op_batch op) ts) (mem_op op m).
Proof.
  intros Hwf Hr. destruct op as [es|id|id|v|c]; cbn [op_batch mem_op op_wf] in *.
  - revert ts m Hr. induction es as [|e es IH]; intros ts m Hr; [by destruct m|].
    apply Forall_cons in Hwf as [He Hes]. cbn. apply (IH Hes _ (mem_append [e] m)). by apply rel_put.
  - unfold mem_truncate. rewrite (filter_leb _ _ (λ j, lid_index id <=? j)) by (intros; cbn; rewrite Z.leb_le; done).
    apply rel_remove; [|done|done]. intros j Hj. by apply truncate_range.
  - unfold mem_purge. rewrite (filter_leb _ _ (λ j, j <=? lid_index id)) by (intros; cbn; rewrite Z.leb_le; done).
    eapply rel_meta.
    2: { eapply (rel_remove ts m (λ j, j <=? lid_index id)); [|done|reflexivity].
         intros j Hj. by apply purge_range. }
    all: [> set_solver|done|done|done|]. rewrite decide_True by done. cbn. by rewrite <- encoded.
  - cbn. eapply rel_meta; [set_solver|exact Hr|done| |done|done]. rewrite decide_True by done. cbn. by rewrite <- encoded.
  - cbn. eapply rel_meta; [set_solver|exact Hr|done|done| |done]. rewrite decide_True by done. cbn.
    apply deserialize_serialize, encoded.
Qed.

Definition op_opts (op : LogOp) : WriteOptions :=
  match op with LCommitted _ => mkWriteOptions false | _ => WriteOptions_default end.

Lemma kv_append_loop_run es batch last (s : KvLog (E := E)) :
  ∃ s' last', kv_append_loop es batch last s = (Ok (batch ++ op_batch (LAppend es), last'), s') ∧
              kl_engine s' = kl_engine s.
Proof.
  revert batch last s. induction es as [|e es IH]; intros batch last s; cbn [kv_append_loop].
  - exists s, last. cbn. by rewrite app_nil_r.
  - unfold pbind at 1, set_progress, pmodify. unfold pbind at 1, plift, encode_or. rewrite serialized. cbn [ok_or].
    edestruct IH as (s' & last' & -> & Hs'). exists s', last'. split; [|done].
    unfold batch_put. cbn. by rewrite <- app_assoc.
Qed.

(** Every op is one commit. *)
Lemma kv_op_run op (s : KvLog (E := E)) :
  ∃ r e', commit (op_batch op) (op_opts op) (kl_engine s) = (r, e') ∧ kl_engine (kv_op op s).2 = e' ∧
          (kv_op op s).1 = match r with Ok _ => Ok () | Err _ => Err "write" end.
Proof.
  destruct (commit (op_batch op) (op_opts op) (kl_engine s)) as [r e'] eqn:Hc. exists r, e'. split; [done|].
  destruct op as [es|id|id|v|c]; cbn [kv_op op_opts] in *.
  - unfold kv_append. destruct (kv_append_loop_run es WriteBatch_new None s) as (s1 & last & Hl & He).
    unfold pbind. rewrite Hl. unfold kl_commit. rewrite He, app_nil_l, Hc. by destruct r as [[]|], last.
  - unfold kv_truncate, pbind, kl_commit. cbn in Hc. unfold batch_delete_range, WriteBatch_new. cbn. rewrite Hc.
    by destruct r as [[]|].
  - unfold kv_purge, pbind, plift, encode_or. rewrite encoded. cbn [ok_or]. unfold kl_commit.
    cbn in Hc. unfold batch_put, batch_delete_range, WriteBatch_new. cbn. rewrite Hc. by destruct r as [[]|].
  - unfold kv_save_vote, pbind, plift, encode_or. rewrite encoded. cbn [ok_or]. unfold kl_commit.
    cbn in Hc. unfold batch_put, WriteBatch_new. cbn. rewrite Hc. by destruct r as [[]|].
  - unfold kv_save_committed, pbind, plift, encode_or. rewrite encoded. cbn [ok_or]. unfold kl_commit, note_committed.
    cbn in Hc. unfold batch_put, WriteBatch_new. destruct c as [c|]; cbn; rewrite Hc; by destruct r as [[]|].
Qed.

(** ** What is durable *)

Section durability.
Context `{!DurableStore E} `{!DurableLaws E}.

(** The tables hold [m]; those a crash leaves do too, up to an older
    committed id. *)
Definition logged (s : KvLog (E := E)) (m : MemLog Mb) : Prop :=
  kv_rel (contents (kl_engine s)) m ∧ ∃ c, kv_rel (durable (kl_engine s)) (mem_save_committed c m).

Lemma save_committed_same (m : MemLog Mb) : mem_save_committed (mem_committed m) m = m.
Proof. by destruct m. Qed.

Lemma logged_synced (s : KvLog (E := E)) m :
  kv_rel (contents (kl_engine s)) m → durable (kl_engine s) = contents (kl_engine s) → logged s m.
Proof. intros Hr Hd. split; [done|]. exists (mem_committed m). by rewrite Hd, save_committed_same. Qed.

Lemma op_refines_ok op (s s' : KvLog (E := E)) m :
  op_wf op → logged s m → kv_op op s = (Ok (), s') → logged s' (mem_op op m).
Proof.
  intros Hwf [Hr [c Hd]] Hop. destruct (kv_op_run op s) as (r & e' & Hc & He & Hres).
  rewrite Hop in He, Hres. cbn in He, Hres. destruct r as [[]|]; [|done].
  pose proof (commit_ok _ _ _ _ Hc) as Hct. pose proof (durable_commit _ _ _ _ Hc) as Hdu. rewrite <- He in *.
  assert (kv_rel (contents (kl_engine s')) (mem_op op m)) as Hr' by (rewrite Hct; by apply batch_refines).
  destruct op; try (by apply logged_synced). split; [done|]. exists c. rewrite Hdu. done.
Qed.

(** C38.  A write answered [Ok] leaves the tables of what [MemLogStore] holds
    after it, and a crash then loses nothing of it but the committed id; one
    whose commit fails left either the tables from before it or those, live
    and after a crash. *)
Theorem kv_log_refines op (s : KvLog (E := E)) m :
  op_wf op → logged s m →
  let '(r, s') := kv_op op s in
  match r with
  | Ok _ => logged s' (mem_op op m)
  | Err _ =>
      ∃ live crashed, live ∈ [m; mem_op op m] ∧ crashed ∈ [m; mem_op op m] ∧
        kv_rel (contents (kl_engine s')) live ∧
        ∃ c, kv_rel (durable (kl_engine s')) (mem_save_committed c crashed)
  end.
Proof.
  intros Hwf Hlog. destruct (kv_op op s) as [[[]|x] s'] eqn:Hop; [by eapply op_refines_ok|].
  destruct Hlog as [Hr [c Hd]]. destruct (kv_op_run op s) as (r & e' & Hc & He & Hres).
  rewrite Hop in He, Hres. cbn in He, Hres. destruct r as [|y]; [done|]. rewrite <- He in *.
  assert (∃ live, live ∈ [m; mem_op op m] ∧ kv_rel (contents (kl_engine s')) live) as (live & Hin & Hl).
  { destruct (commit_err _ _ _ _ _ Hc) as [->| ->]; [exists m; by split; [left|]|].
    exists (mem_op op m). split; [by right; left|by apply batch_refines]. }
  destruct (durable_commit_err _ _ _ _ _ Hc) as [Hdu|[_ Hdu]]; rewrite Hdu.
  - exists live, m. split_and!; [done|by left|done|]. by exists c.
  - exists live, live. split_and!; [done..|]. exists (mem_committed live). by rewrite save_committed_same.
Qed.

(** ** What [wait_durable] promises *)

Definition held (m : MemLog Mb) (i : Z) : Prop :=
  is_Some (mem_log m !! i) ∨ ∃ p, mem_purged m = Some p ∧ i ≤ lid_index p.

(** openraft's log has no holes. *)
Definition contiguous (m : MemLog Mb) : Prop := ∀ i j, 0 ≤ i ≤ j → held m j → held m i.

Fixpoint follows (entries : list (Entry Mb)) (m : MemLog Mb) : Prop :=
  match entries with
  | [] => True
  | e :: entries' => (∀ i, 0 ≤ i < entry_index e → held m i) ∧ follows entries' (mem_append [e] m)
  end.

(** What openraft asks of a log store: appends continue the log, purges
    advance. *)
Definition fits (op : LogOp) (m : MemLog Mb) : Prop :=
  match op with
  | LAppend entries => follows entries m
  | LPurge log_id => ∀ p, mem_purged m = Some p → lid_index p ≤ lid_index log_id
  | _ => True
  end.

Definition durable_covered (p : LogProgress) (m : MemLog Mb) : Prop := ∀ i, 0 ≤ i < last_durable p → held m i.

Lemma held_append1 e m i : held m i ∨ i = entry_index e → held (mem_append [e] m) i.
Proof.
  intros [[[x Hx]|Hp]| ->].
  - left. cbn. destruct (decide (i = entry_index e)) as [->|]; [by rewrite lookup_insert_eq|].
    rewrite lookup_insert_ne by congruence. by eauto.
  - by right.
  - left. cbn. rewrite lookup_insert_eq. by eauto.
Qed.

Lemma held_append1_inv e m i : held (mem_append [e] m) i → held m i ∨ i = entry_index e.
Proof.
  intros [[x Hx]|Hp]; [|by left; right]. cbn in Hx.
  apply lookup_insert_Some in Hx as [[<- _]|[_ Hx]]; [by right|left; left; by eauto].
Qed.

Lemma mem_append_cons e es (m : MemLog Mb) : mem_append (e :: es) m = mem_append es (mem_append [e] m).
Proof. done. Qed.

Lemma contiguous_append es m : contiguous m → follows es m → contiguous (mem_append es m).
Proof.
  revert m. induction es as [|e es IH]; intros m Hm Hf; [by destruct m|].
  rewrite mem_append_cons. destruct Hf as [He Hf]. apply IH; [|done].
  intros i j Hij [Hj| ->]%held_append1_inv; apply held_append1; [left; by eapply Hm|].
  destruct (decide (i = entry_index e)); [by right|left]. apply He. lia.
Qed.

Lemma contiguous_op op m : contiguous m → fits op m → contiguous (mem_op op m).
Proof.
  intros Hm Hf. destruct op as [es|id|id|v|c]; [by apply contiguous_append| | |done|done].
  - intros i j Hij [[x Hx]|(p & Hp & Hj)]; [|right; exists p; split; [done|lia]].
    apply map_lookup_filter_Some in Hx as [Hx Hlt]. cbn in Hlt.
    destruct (Hm i j Hij) as [[y Hy]|Hp]; [left; by eauto| |by right].
    left. exists y. apply map_lookup_filter_Some. cbn. split; [done|lia].
  - intros i j Hij Hj. destruct (decide (i ≤ lid_index id)); [right; by exists id|].
    destruct Hj as [[x Hx]|(p & [= <-] & Hj)]; [|lia].
    apply map_lookup_filter_Some in Hx as [Hx _].
    destruct (Hm i j Hij) as [[y Hy]|(p & Hp & Hi)]; [left; by eauto| |specialize (Hf p Hp); lia].
    left. exists y. apply map_lookup_filter_Some. by split.
Qed.

Lemma append_progress es batch last (s : KvLog (E := E)) :
  let '(r, s') := kv_append_loop es batch last s in
  last_durable (progress s') = last_durable (progress s) ∧
  match r with
  | Ok (_, l) => l = match list.last es with Some e => Some (entry_index e) | None => last end
  | Err _ => True
  end.
Proof.
  revert batch last s. induction es as [|e es IH]; intros batch last s; cbn [kv_append_loop]; [done|].
  unfold pbind at 1, set_progress, pmodify. unfold pbind, plift, encode_or. rewrite serialized. cbn [ok_or].
  specialize (IH (batch_put TABLE_LOG (idx_key (entry_index e)) (default [] (serialize e)) batch) (Some (entry_index e))
    (mkKvLog (kl_engine s) (committed_index s) (note_entry e (progress s)))).
  destruct (kv_append_loop _ _ _ _) as [r s']. destruct IH as [-> IH]. split; [done|].
  destruct r as [[b l]|]; [|done]. rewrite IH. destruct es as [|x es]; [done|].
  change (list.last (e :: x :: es)) with (list.last (x :: es)).
  destruct (list.last (x :: es)) eqn:Hx; [done|by apply last_None in Hx].
Qed.

(** How far [last_durable] may have moved. *)
Definition durable_upto (op : LogOp) (before : Z) : Z :=
  match op with
  | LAppend es => match list.last es with Some e => Z.max before (entry_index e + 1) | None => before end
  | LTruncate id => Z.min before (lid_index id)
  | _ => before
  end.

Lemma op_durable op (s s' : KvLog (E := E)) :
  kv_op op s = (Ok (), s') → last_durable (progress s') = durable_upto op (last_durable (progress s)).
Proof.
  destruct op as [es|id|id|v|c]; cbn [kv_op durable_upto]; intros Hop.
  - unfold kv_append in Hop. apply pbind_ok in Hop as ([b l] & s1 & Hl & Hop).
    pose proof (append_progress es WriteBatch_new None s) as Hp. rewrite Hl in Hp. destruct Hp as [Hd ->].
    apply pbind_ok in Hop as ([] & s2 & Hc & Hop). unfold kl_commit in Hc.
    destruct (commit _ _ _) as [[[]|] e']; [|done]. injection Hc as <-.
    destruct (list.last es); injection Hop as <-; cbn; by rewrite Hd.
  - unfold kv_truncate in Hop. apply pbind_ok in Hop as ([] & s2 & Hc & Hop). unfold kl_commit in Hc.
    destruct (commit _ _ _) as [[[]|] e']; [|done]. injection Hc as <-. by injection Hop as <-.
  - unfold kv_purge in Hop. apply pbind_ok in Hop as (b & s2 & Hb & Hc).
    unfold plift, encode_or in Hb. rewrite encoded in Hb. injection Hb as <- <-. unfold kl_commit in Hc.
    destruct (commit _ _ _) as [[[]|] e']; [|done]. by injection Hc as <-.
  - unfold kv_save_vote in Hop. apply pbind_ok in Hop as (b & s2 & Hb & Hop).
    unfold plift, encode_or in Hb. rewrite encoded in Hb. injection Hb as <- <-.
    apply pbind_ok in Hop as ([] & s2 & Hc & Hop). unfold kl_commit in Hc.
    destruct (commit _ _ _) as [[[]|] e']; [|done]. injection Hc as <-. by injection Hop as <-.
  - unfold kv_save_committed in Hop. apply pbind_ok in Hop as (b & s2 & Hb & Hop).
    unfold plift, encode_or in Hb. rewrite encoded in Hb. injection Hb as <- <-.
    apply pbind_ok in Hop as ([] & s2 & Hn & Hc). unfold kl_commit in Hc.
    destruct (commit _ _ _) as [[[]|] e']; [|done]. injection Hc as <-.
    destruct c; by injection Hn as <-.
Qed.

Lemma held_append es m i : held m i → held (mem_append es m) i.
Proof.
  revert m. induction es as [|e es IH]; intros m Hi; [by destruct m|].
  rewrite mem_append_cons. apply IH, held_append1. by left.
Qed.

Lemma held_append_last es m e : list.last es = Some e → held (mem_append es m) (entry_index e).
Proof.
  revert m. induction es as [|e' es IH]; intros m Hl; [done|]. rewrite mem_append_cons.
  destruct es; [|by apply IH]. injection Hl as ->. apply held_append, held_append1. by right.
Qed.

Lemma durable_covered_op op m p p' :
  contiguous m → fits op m → durable_covered p m → last_durable p' = durable_upto op (last_durable p) →
  durable_covered p' (mem_op op m).
Proof.
  intros Hm Hf Hc Hd i Hi. rewrite Hd in Hi. destruct op as [es|id|id|v|c]; cbn [durable_upto mem_op] in *.
  - revert Hi. destruct (list.last es) as [e|] eqn:Hl; intros Hi; [|by apply held_append, Hc].
    destruct (decide (i < last_durable p)); [apply held_append, Hc; lia|].
    eapply contiguous_append; [done|done| |by apply held_append_last]. lia.
  - destruct (Hc i) as [[x Hx]|Hp]; [lia| |by right].
    left. exists x. apply map_lookup_filter_Some. cbn. split; [done|lia].
  - destruct (decide (i ≤ lid_index id)); [right; by exists id|].
    destruct (Hc i Hi) as [[x Hx]|(q & Hq & Hle)]; [|specialize (Hf q Hq); lia].
    left. exists x. by apply map_lookup_filter_Some.
  - by apply Hc.
  - by apply Hc.
Qed.

(** openraft's calls, until one fails. *)
Fixpoint kv_run (ops : list LogOp) : prog KvLog string () :=
  match ops with
  | [] => pret ()
  | op :: ops' => let* _ := kv_op op in kv_run ops'
  end.

Fixpoint mem_run (ops : list LogOp) (m : MemLog Mb) : MemLog Mb :=
  match ops with [] => m | op :: ops' => mem_run ops' (mem_op op m) end.

Fixpoint admissible (ops : list LogOp) (m : MemLog Mb) : Prop :=
  match ops with [] => True | op :: ops' => op_wf op ∧ fits op m ∧ admissible ops' (mem_op op m) end.

Lemma kv_run_ready ops (s s' : KvLog (E := E)) m :
  admissible ops m → logged s m → contiguous m → durable_covered (progress s) m → kv_run ops s = (Ok (), s') →
  logged s' (mem_run ops m) ∧ durable_covered (progress s') (mem_run ops m).
Proof.
  revert s m. induction ops as [|op ops IH]; intros s m Ha Hl Hm Hc Hr; cbn in *; [by injection Hr as <-|].
  apply pbind_ok in Hr as ([] & s1 & Hop & Hr). destruct Ha as (Hwf & Hf & Ha).
  apply (IH s1); [done|by eapply op_refines_ok|by apply contiguous_op| |done].
  eapply durable_covered_op; [done..|by apply op_durable].
Qed.

Lemma fresh_logged (e : E) :
  contents e = ∅ → durable e = ∅ → logged (KvLogStore_new e) MemLogStore_new.
Proof.
  intros Hc Hd. assert (∀ c, c = None → kv_rel ∅ (mem_save_committed c MemLogStore_new)) as Hr.
  { intros c ->. split; cbn; try done. intros k [b Hb]. done. }
  split; cbn; [rewrite Hc; by apply (Hr None)|]. exists None. rewrite Hd. by apply Hr.
Qed.

(**  Whatever openraft wrote to a fresh [KvLogStore], an index that
    [wait_durable] answers for is in the log a crash leaves, or was purged
    from it. *)
Theorem wait_durable_held (e : E) ops s i :
  contents e = ∅ → durable e = ∅ → admissible ops MemLogStore_new →
  kv_run ops (KvLogStore_new e) = (Ok (), s) → 0 ≤ i → is_durable i (progress s) = true →
  ∃ left, kv_rel (durable (kl_engine s)) left ∧ held left i.
Proof.
  intros Hc Hd Ha Hr Hi Hdu. unfold is_durable in Hdu. apply Z.ltb_lt in Hdu.
  destruct (kv_run_ready ops (KvLogStore_new e) s MemLogStore_new Ha) as [[_ [c Hl]] Hcov].
  - by apply fresh_logged.
  - intros ? ? ? [[? ?]|(? & ? & ?)]; done.
  - intros j Hj. cbn in Hj. lia.
  - done.
  - exists (mem_save_committed c (mem_run ops MemLogStore_new)). split; [done|]. apply Hcov. lia.
Qed.
End durability.
End refine.

(** ** A concrete log *)

Module LogDemo.
Export SmDemo.
#[global] Instance demo_entry_codec : Bincode (Entry (list Z)) := countable_codec _.
#[global] Instance demo_entry_laws : BincodeLaws (Entry (list Z)) := countable_codec_laws _.
#[global] Instance demo_vote_codec : Bincode Vote := countable_codec _.
#[global] Instance demo_vote_laws : BincodeLaws Vote := countable_codec_laws _.
#[global] Instance demo_logid_codec : Bincode LogId := countable_codec _.
#[global] Instance demo_logid_laws : BincodeLaws LogId := countable_codec_laws _.

Definition demo_entry (term i : Z) : Entry (list Z) := mkEntry (mkLogId term 1 i) PlBlank.

(** A vote, three entries, the last replaced in the next term, the first
    purged. *)
Definition demo_log_ops : list (LogOp (Mb := list Z)) :=
  [LVote (mkVote 1 1 true); LAppend [demo_entry 1 0; demo_entry 1 1; demo_entry 1 2];
   LTruncate (mkLogId 1 1 2); LAppend [demo_entry 2 2]; LCommitted (Some (mkLogId 1 1 1));
   LPurge (mkLogId 1 1 0)].

Definition demo_kv : KvLog := (kv_run demo_log_ops (KvLogStore_new (mkDisk ∅ ∅))).2.

Definition heldb (m : MemLog (list Z)) (i : Z) : bool :=
  match mem_log m !! i with
  | Some _ => true
  | None => match mem_purged m with Some p => i <=? lid_index p | None => false end
  end.

Lemma heldb_held m i : heldb m i = true → held m i.
Proof.
  unfold heldb, held. destruct (mem_log m !! i); [by left; eauto|]. destruct (mem_purged m) as [p|]; [|done].
  intros Hi%Z.leb_le. right. by exists p.
Qed.

Lemma demo_admissible : admissible demo_log_ops MemLogStore_new.
Proof.
  assert (∀ i m, 0 ≤ i < 1 → heldb m 0 = true → held m i) as H1.
  { intros i m Hi Hh. assert (i = 0) as -> by lia. by apply heldb_held. }
  assert (∀ i m, 0 ≤ i < 2 → heldb m 0 = true → heldb m 1 = true → held m i) as H2.
  { intros i m Hi Hh Hh'. assert (i = 0 ∨ i = 1) as [-> | ->] by lia; by apply heldb_held. }
  cbn [admissible demo_log_ops op_wf fits follows].
  split_and!; try done.
  all: try (repeat first [apply Forall_nil_2|apply Forall_cons_2]; unfold is_u64, two64; cbn; lia).
  all: intros i Hi; cbn in Hi; first [lia | by apply H1 | by apply H2].
Qed.

Lemma demo_kv_run : kv_run demo_log_ops (KvLogStore_new (mkDisk ∅ ∅)) = (Ok (), demo_kv).
Proof.
  unfold demo_kv. rewrite (surjective_pairing (kv_run _ _)) at 1. f_equal.
Qed.

Lemma demo_logged : logged demo_kv (mem_run demo_log_ops MemLogStore_new).
Proof.
  eapply (kv_run_ready _ (KvLogStore_new (mkDisk ∅ ∅))); [exact demo_admissible|by apply fresh_logged|..|exact demo_kv_run].
  - intros ? ? ? [[? ?]|(? & ? & ?)]; done.
  - intros j Hj. cbn in Hj. lia.
Qed.
End LogDemo.

Section witness.
Import LogDemo.

Lemma kv_reads_exact_witness :
  (kv_try_get (IIncluded 1) IUnbounded demo_kv).1 = Ok [demo_entry 1 1; demo_entry 2 2] ∧
  (kv_get_log_state (Mb := list Z) demo_kv).1 = Ok (mkLogState (Some (mkLogId 1 1 0)) (Some (mkLogId 2 1 2))) ∧
  (kv_read_vote demo_kv).1 = Ok (Some (mkVote 1 1 true)) ∧
  (kv_read_committed demo_kv).1 = Ok (Some (mkLogId 1 1 1)).
Proof.
  destruct (kv_reads_exact demo_kv _ (IIncluded 1) IUnbounded (proj1 demo_logged)) as (H1 & H2 & H3 & H4).
  - cbn. unfold is_u64, two64. lia.
  - done.
  - split_and!; (etrans; [first [exact H1|exact H2|exact H3|exact H4]|]); vm_compute; reflexivity.
Defined.

Lemma kv_log_refines_witness :
  let '(r, s') := kv_op (LTruncate (mkLogId 1 1 2)) demo_kv in
  match r with
  | Ok _ => logged s' (mem_truncate (mkLogId 1 1 2) (mem_run demo_log_ops MemLogStore_new))
  | Err _ =>
      ∃ live crashed,
        live ∈ [mem_run demo_log_ops MemLogStore_new; mem_op (LTruncate (mkLogId 1 1 2)) (mem_run demo_log_ops MemLogStore_new)] ∧
        crashed ∈ [mem_run demo_log_ops MemLogStore_new; mem_op (LTruncate (mkLogId 1 1 2)) (mem_run demo_log_ops MemLogStore_new)] ∧
        kv_rel (contents (kl_engine s')) live ∧
        ∃ c, kv_rel (durable (kl_engine s')) (mem_save_committed c crashed)
  end.
Proof. apply (kv_log_refines (LTruncate (mkLogId 1 1 2)) demo_kv); [cbn; ints; lia|exact demo_logged]. Defined.

Lemma wait_durable_held_witness :
  ∃ left, kv_rel (durable (kl_engine demo_kv)) left ∧ held left 2.
Proof.
  apply (wait_durable_held (mkDisk ∅ ∅) demo_log_ops demo_kv 2); [done|done|exact demo_admissible|exact demo_kv_run|lia|].
  vm_compute. reflexivity.
Defined.
End witness.
