(* ===== verification/WriteBehind.v ===== *)
(** * The write-behind engine ([crates/storage/src/write_behind.rs])

    Non-durable commits land as layers in RAM over an engine; reads merge
    the layers with the engine's rows; a flush writes the layers into the
    engine.  Here: the layers and their normal form, the overlay reads with
    their paged merge, and the engine itself, as an instance of the engine
    interface over any other one.  The theorems: an overlay read gives what
    the engine would give with every layer written to it; the interface's
    laws hold; and whatever the interleaving of commits, flushes and
    snapshots, no snapshot misses or doubles a commit. *)

From S2P Require Import Prelude KvStore.

(** ** Layers *)

Record TableLayer := mkTableLayer {
  tl_entries : gmap bytes (option bytes);
  tl_range_dels : list (bytes * bytes)
}.

Record Layer := mkLayer {
  ly_tables : gmap string TableLayer;
  ly_bytes : Z
}.

Definition TableLayer_default : TableLayer := mkTableLayer ∅ [].
Definition Layer_default : Layer := mkLayer ∅ 0.

(** [key >= s && key < e] for some pair. *)
Definition any_covers (dels : list (bytes * bytes)) (key : bytes) : bool :=
  existsb (λ d, in_del_range d.1 d.2 key) dels.

Definition covered (t : TableLayer) (key : bytes) : bool := any_covers (tl_range_dels t) key.

Definition len (b : bytes) : Z := Z.of_nat (length b).

Definition table_or_default (table : string) (l : Layer) : TableLayer :=
  default TableLayer_default (ly_tables l !! table).

(** One op of [Layer::from_batch]. *)
Definition layer_op (l : Layer) (op : BatchOp) : Layer :=
  match op with
  | OpPut table key value =>
      let t := table_or_default table l in
      mkLayer (<[table := mkTableLayer (<[key := Some value]> (tl_entries t)) (tl_range_dels t)]>
                 (ly_tables l)) (ly_bytes l + (len key + len value + 64))
  | OpDelete table key =>
      let t := table_or_default table l in
      mkLayer (<[table := mkTableLayer (<[key := None]> (tl_entries t)) (tl_range_dels t)]>
                 (ly_tables l)) (ly_bytes l + (len key + 64))
  | OpDeleteRange table start stop =>
      let t := table_or_default table l in
      let t := if bytes_ltb start stop
               then mkTableLayer
                      (base.filter (λ r, in_del_range start stop r.1 = false) (tl_entries t))
                      (tl_range_dels t ++ [(start, stop)])
               else t in
      mkLayer (<[table := t]> (ly_tables l)) (ly_bytes l + (len start + len stop + 64))
  end.

Definition from_batch (b : WriteBatch) : Layer := foldl layer_op Layer_default b.

(** [Layer::to_ops]; the tables in any order. *)
Definition entry_op (table : string) (e : bytes * option bytes) : BatchOp :=
  match e.2 with Some v => OpPut table e.1 v | None => OpDelete table e.1 end.

Definition table_ops (r : string * TableLayer) : WriteBatch :=
  ((λ d, OpDeleteRange r.1 d.1 d.2) <$> tl_range_dels r.2)
  ++ (entry_op r.1 <$> sorted_entries (tl_entries r.2)).

Definition to_ops (l : Layer) (batch : WriteBatch) : WriteBatch :=
  batch ++ (map_to_list (ly_tables l) ≫= table_ops).

(** ** Overlay snapshots *)

Record OverlaySnapshot := mkOverlay { ov_base : Tables; ov_layers : list Layer }.

(** The layers newest first. *)
Fixpoint get_layers (rev_layers : list Layer) (table : string) (key : bytes) : option (option bytes) :=
  match rev_layers with
  | [] => None
  | l :: ls =>
      match ly_tables l !! table with
      | Some t =>
          match tl_entries t !! key with
          | Some v => Some v
          | None => if covered t key then Some None else get_layers ls table key
          end
      | None => get_layers ls table key
      end
  end.

Definition ov_get (s : OverlaySnapshot) (table : string) (key : bytes) : option bytes :=
  match get_layers (reverse (ov_layers s)) table key with
  | Some v => v
  | None => snap_get (ov_base s) table key
  end.

Record TableView := mkTableView {
  tv_entries : gmap bytes (option bytes);
  tv_dels : list (bytes * bytes)
}.

Definition hides (v : TableView) (key : bytes) : bool :=
  bool_decide (is_Some (tv_entries v !! key)) || any_covers (tv_dels v) key.

Definition touches (s : OverlaySnapshot) (table : string) : bool :=
  existsb (λ l, bool_decide (is_Some (ly_tables l !! table))) (ov_layers s).

(** A layer's range delete over what the view has so far. *)
Definition view_del (v : TableView) (d : bytes * bytes) : TableView :=
  mkTableView
    (map_imap (λ k x, Some (if in_del_range d.1 d.2 k then None else x)) (tv_entries v))
    (tv_dels v ++ [d]).

Definition view_entry (start stop : Bound) (v : TableView) (e : bytes * option bytes) : TableView :=
  if within start stop e.1 then mkTableView (<[e.1 := e.2]> (tv_entries v)) (tv_dels v) else v.

Definition view_layer (table : string) (start stop : Bound) (v : TableView) (l : Layer) : TableView :=
  match ly_tables l !! table with
  | Some t => foldl (view_entry start stop) (foldl view_del v (tl_range_dels t))
                (sorted_entries (tl_entries t))
  | None => v
  end.

Definition ov_view (s : OverlaySnapshot) (table : string) (start stop : Bound) : TableView :=
  foldl (view_layer table start stop) (mkTableView ∅ []) (ov_layers s).

(** *** The merge

    [pending] is what is left of the layer rows ([pending[next..]]); a step
    answers whether the limit was reached. *)

Definition full (limit : nat) (out : list (bytes * bytes)) : bool :=
  (0 <? limit)%nat && (limit <=? length out)%nat.

(** Emit the layer rows [before] holds for. *)
Fixpoint emit (before : bytes → bool) (limit : nat) (pending out : list (bytes * bytes))
    : list (bytes * bytes) * list (bytes * bytes) * bool :=
  match pending with
  | p :: pending' =>
      if before p.1 then
        let out := out ++ [p] in
        if full limit out then (pending', out, true) else emit before limit pending' out
      else (pending, out, false)
  | [] => ([], out, false)
  end.

(** One page of engine rows. *)
Fixpoint merge_rows (view : TableView) (limit : nat) (rows pending out : list (bytes * bytes))
    : list (bytes * bytes) * list (bytes * bytes) * bool :=
  match rows with
  | [] => (pending, out, false)
  | (k, v) :: rows' =>
      let '(pending, out, stop) := emit (λ p, bytes_ltb p k) limit pending out in
      if stop then (pending, out, true)
      else if hides view k then merge_rows view limit rows' pending out
      else
        let out := out ++ [(k, v)] in
        if full limit out then (pending, out, true)
        else merge_rows view limit rows' pending out
  end.

Definition page_size (limit : nat) : nat :=
  match limit with O => O | S _ => Nat.max (limit * 2) 256 end.

(** The loop over pages: each turn but the last reads at least one row, so
    the number of rows is enough fuel. *)
Fixpoint merge_pages (fuel : nat) (base : Tables) (table : string) (view : TableView)
    (stop : Bound) (limit : nat) (cursor : Bound) (pending out : list (bytes * bytes))
    : list (bytes * bytes) :=
  let page := page_size limit in
  let rows := snap_range base table cursor stop page in
  let exhausted := (page =? 0)%nat || (length rows <? page)%nat in
  let '(pending, out, done) := merge_rows view limit rows pending out in
  if done then out
  else
    match exhausted, last rows, fuel with
    | false, Some (hi, _), S fuel' =>
        let '(pending, out, done) := emit (λ p, bytes_leb p hi) limit pending out in
        if done then out
        else merge_pages fuel' base table view stop limit (Excluded hi) pending out
    | _, _, _ => (emit (λ _, true) limit pending out).1.2
    end.

(** The layer rows with a value, in key order. *)
Definition pending_rows (view : TableView) : list (bytes * bytes) :=
  omap (λ e : bytes * option bytes, (λ v, (e.1, v)) <$> e.2) (sorted_entries (tv_entries view)).

Definition merged (s : OverlaySnapshot) (table : string) (start stop : Bound) (limit : nat)
    : list (bytes * bytes) :=
  if touches s table then
    let view := ov_view s table start stop in
    merge_pages (base.size (ov_base s)) (ov_base s) table view stop limit start
      (pending_rows view) []
  else snap_range (ov_base s) table start stop limit.

Definition ov_range := merged.

Definition ov_count (s : OverlaySnapshot) (table : string) (start stop : Bound) : Z :=
  if touches s table then Z.of_nat (length (merged s table start stop 0))
  else snap_count (ov_base s) table start stop.

Definition ov_last (s : OverlaySnapshot) (table : string) : option (bytes * bytes) :=
  if touches s table then
    let view := ov_view s table Unbounded Unbounded in
    let top := last (pending_rows view) in
    match snap_last (ov_base s) table with
    | Some (k, v) =>
        if hides view k then last (merged s table Unbounded Unbounded 0)
        else match top with
             | Some t => if bytes_ltb k t.1 then Some t else Some (k, v)
             | None => Some (k, v)
             end
    | None => top
    end
  else snap_last (ov_base s) table.

(** ** What a layer means *)

(** What a layer says of a row; [None]: nothing. *)
Definition layer_lookup (l : Layer) (table : string) (key : bytes) : option (option bytes) :=
  match ly_tables l !! table with
  | Some t => match tl_entries t !! key with
              | Some v => Some v
              | None => if covered t key then Some None else None
              end
  | None => None
  end.

Definition overlaid (o : option (option bytes)) (old : option bytes) : option bytes :=
  match o with Some v => v | None => old end.

Lemma any_covers_snoc dels d key :
  any_covers (dels ++ [d]) key = any_covers dels key || in_del_range d.1 d.2 key.
Proof. unfold any_covers. rewrite existsb_app. cbn. by rewrite orb_false_r. Qed.

Lemma in_del_range_empty start stop key :
  bytes_ltb start stop = false → in_del_range start stop key = false.
Proof.
  intros Hlt. unfold in_del_range. destruct (bytes_leb start key) eqn:Hs; [|done]. cbn.
  destruct (bytes_ltb key stop) eqn:Hk; [|done].
  apply bytes_leb_le in Hs. apply bytes_ltb_lt in Hk.
  assert (bytes_lt start stop) as Hc by by eapply bytes_le_lt_trans.
  apply bytes_ltb_lt in Hc. congruence.
Qed.

Lemma layer_op_lookup l op table key :
  layer_lookup (layer_op l op) table key =
  match op with
  | OpPut t k v => if decide (t = table ∧ k = key) then Some (Some v) else layer_lookup l table key
  | OpDelete t k => if decide (t = table ∧ k = key) then Some None else layer_lookup l table key
  | OpDeleteRange t s e =>
      if decide (t = table ∧ in_del_range s e key = true) then Some None
      else layer_lookup l table key
  end.
Proof.
  unfold layer_lookup. destruct op as [t k v|t k|t s e]; cbn [layer_op ly_tables];
    (destruct (decide (t = table)) as [->|Hne];
      [rewrite lookup_insert_eq
      |rewrite lookup_insert_ne by done; rewrite (decide_False (P := _ ∧ _)) by naive_solver; done]).
  - cbn [tl_entries]. unfold covered. cbn [tl_range_dels]. unfold table_or_default.
    destruct (decide (k = key)) as [->|Hk]; [by rewrite lookup_insert_eq, decide_True|].
    rewrite lookup_insert_ne, decide_False by naive_solver.
    by destruct (ly_tables l !! table).
  - cbn [tl_entries]. unfold covered. cbn [tl_range_dels]. unfold table_or_default.
    destruct (decide (k = key)) as [->|Hk]; [by rewrite lookup_insert_eq, decide_True|].
    rewrite lookup_insert_ne, decide_False by naive_solver.
    by destruct (ly_tables l !! table).
  - destruct (bytes_ltb s e) eqn:Hlt.
    + unfold covered. cbn [tl_entries tl_range_dels]. rewrite any_covers_snoc, map_lookup_filter.
      cbn [fst snd]. unfold table_or_default.
      destruct (in_del_range s e key) eqn:Hin.
      * rewrite decide_True, orb_true_r by done.
        destruct (tl_entries _ !! key); [|done]. cbn. by rewrite option_guard_False.
      * rewrite decide_False, orb_false_r by naive_solver.
        destruct (ly_tables l !! table) as [t|]; cbn; [|done].
        destruct (tl_entries t !! key); [|done]. cbn. by rewrite option_guard_True.
    + rewrite in_del_range_empty by done. rewrite decide_False by naive_solver.
      unfold table_or_default. by destruct (ly_tables l !! table).
Qed.

(** The normal form loses nothing. *)
Lemma from_batch_lookup b ts table key :
  apply_batch b ts !! (table, key)
  = overlaid (layer_lookup (from_batch b) table key) (ts !! (table, key)).
Proof.
  unfold from_batch. induction b as [|op b IH] using rev_ind; [done|].
  rewrite apply_batch_snoc, apply_op_lookup, foldl_snoc, layer_op_lookup, IH.
  destruct op; by case_decide.
Qed.

Lemma range_dels_lookup table dels ts key :
  apply_batch ((λ d, OpDeleteRange table d.1 d.2) <$> dels) ts !! (table, key)
  = if any_covers dels key then None else ts !! (table, key).
Proof.
  induction dels as [|d dels IH] using rev_ind; [done|].
  rewrite fmap_app, apply_batch_app. cbn [fmap list_fmap].
  change (apply_batch [?op] ?t) with (apply_op op t).
  rewrite apply_op_lookup, IH, any_covers_snoc.
  destruct (any_covers dels key), (in_del_range d.1 d.2 key); cbn; by case_decide; naive_solver.
Qed.

Lemma entry_ops_lookup table (l : list (bytes * option bytes)) ts key :
  NoDup l.*1 →
  apply_batch (entry_op table <$> l) ts !! (table, key)
  = overlaid ((list_to_map l : gmap bytes (option bytes)) !! key) (ts !! (table, key)).
Proof.
  revert ts. induction l as [|[k v] l IH]; intros ts; [done|]. cbn [fmap list_fmap fst].
  intros [Hk Hnd]%NoDup_cons.
  change (apply_batch (?op :: ?b) ?t) with (apply_batch b (apply_op op t)).
  rewrite IH by done. cbn [list_to_map foldr fst snd].
  assert (apply_op (entry_op table (k, v)) ts !! (table, key)
          = if decide (k = key) then v else ts !! (table, key)) as ->.
  { unfold entry_op. cbn [fst snd]. destruct v; rewrite apply_op_lookup;
      repeat case_decide; naive_solver. }
  destruct (decide (k = key)) as [->|Hne].
  - rewrite lookup_insert_eq, (not_elem_of_list_to_map_1 l) by done. done.
  - by rewrite lookup_insert_ne.
Qed.

Lemma sorted_entries_map {A} (m : gmap bytes A) : list_to_map (sorted_entries m) = m.
Proof.
  rewrite <- (list_to_map_to_list m) at 2. apply list_to_map_proper; [|apply sorted_entries_perm].
  rewrite sorted_entries_perm. apply NoDup_fst_map_to_list.
Qed.

Lemma table_ops_lookup table t ts key :
  apply_batch (table_ops (table, t)) ts !! (table, key)
  = overlaid (match tl_entries t !! key with
              | Some v => Some v
              | None => if covered t key then Some None else None
              end) (ts !! (table, key)).
Proof.
  unfold table_ops. cbn [fst snd]. rewrite apply_batch_app, entry_ops_lookup
    by (rewrite sorted_entries_perm; apply NoDup_fst_map_to_list).
  rewrite sorted_entries_map, range_dels_lookup. unfold covered.
  destruct (tl_entries t !! key); [done|]. by destruct (any_covers _ _).
Qed.

Lemma table_ops_table r op : op ∈ table_ops r → op_table op = r.1.
Proof.
  intros [(d & -> & _)%list_elem_of_fmap|(e & -> & _)%list_elem_of_fmap]%elem_of_app; [done|].
  unfold entry_op. by destruct e.2.
Qed.

Lemma all_ops_lookup (l : list (string * TableLayer)) ts table key :
  NoDup l.*1 →
  apply_batch (l ≫= table_ops) ts !! (table, key)
  = overlaid (layer_lookup (mkLayer (list_to_map l) 0) table key) (ts !! (table, key)).
Proof.
  revert ts. induction l as [|[n t] l IH]; intros ts; [done|]. cbn [fmap list_fmap fst].
  intros [Hn Hnd]%NoDup_cons. cbn [mbind list_bind]. rewrite apply_batch_app, IH by done.
  unfold layer_lookup. cbn [ly_tables list_to_map foldr fst snd].
  destruct (decide (n = table)) as [->|Hne].
  - rewrite lookup_insert_eq, (not_elem_of_list_to_map_1 l) by done. apply table_ops_lookup.
  - rewrite lookup_insert_ne by done. f_equal. apply apply_batch_other.
    intros op ->%table_ops_table. done.
Qed.

Lemma to_ops_lookup l b ts table key :
  apply_batch (to_ops l b) ts !! (table, key)
  = overlaid (layer_lookup l table key) (apply_batch b ts !! (table, key)).
Proof.
  unfold to_ops. rewrite apply_batch_app, all_ops_lookup by apply NoDup_fst_map_to_list.
  unfold layer_lookup. cbn [ly_tables]. by rewrite list_to_map_to_list.
Qed.

(** ** What a list of layers means *)

(** The tables once every layer is written, oldest first. *)
Definition overlay (base : Tables) (layers : list Layer) : Tables :=
  apply_batch (foldl (λ b l, to_ops l b) WriteBatch_new layers) base.

Lemma get_layers_cons l ls table key :
  get_layers (l :: ls) table key
  = match layer_lookup l table key with Some v => Some v | None => get_layers ls table key end.
Proof.
  cbn. unfold layer_lookup. destruct (ly_tables l !! table); [|done].
  destruct (tl_entries _ !! key); [done|]. by destruct (covered _ _).
Qed.

Lemma overlay_lookup base layers table key :
  overlay base layers !! (table, key)
  = overlaid (get_layers (reverse layers) table key) (base !! (table, key)).
Proof.
  unfold overlay. induction layers as [|l layers IH] using rev_ind; [done|].
  rewrite foldl_snoc, to_ops_lookup, IH, reverse_snoc, get_layers_cons.
  by destruct (layer_lookup l table key).
Qed.

Lemma overlay_snoc base layers l :
  overlay base (layers ++ [l]) = apply_batch (to_ops l []) (overlay base layers).
Proof.
  apply map_eq. intros [table key].
  rewrite overlay_lookup, to_ops_lookup, reverse_snoc, get_layers_cons.
  change (apply_batch [] ?t) with t. rewrite overlay_lookup.
  by destruct (layer_lookup l table key).
Qed.

Lemma overlay_app base l1 l2 : overlay base (l1 ++ l2) = overlay (overlay base l1) l2.
Proof.
  apply map_eq. intros [table key]. rewrite !overlay_lookup, reverse_app.
  induction (reverse l2) as [|l ls IH]; [done|]. cbn [app]. rewrite !get_layers_cons.
  by destruct (layer_lookup l table key).
Qed.

(** A commit as a layer is the batch. *)
Lemma overlay_commit base layers b :
  overlay base (layers ++ [from_batch b]) = apply_batch b (overlay base layers).
Proof.
  rewrite overlay_snoc. apply map_eq. intros [table key].
  by rewrite to_ops_lookup, (from_batch_lookup b).
Qed.

(** Layers over an engine that already holds them read the same. *)
Lemma overlay_idem base l1 l2 : overlay (overlay base l1) (l1 ++ l2) = overlay base (l1 ++ l2).
Proof.
  rewrite !overlay_app. f_equal. apply map_eq. intros [table key]. rewrite !overlay_lookup.
  by destruct (get_layers (reverse l1) table key).
Qed.

(** ** Overlay reads *)

Lemma ov_get_ok s table key :
  ov_get s table key = snap_get (overlay (ov_base s) (ov_layers s)) table key.
Proof. unfold ov_get, snap_get. by rewrite overlay_lookup. Qed.

Lemma touches_false s table key :
  touches s table = false → get_layers (reverse (ov_layers s)) table key = None.
Proof.
  unfold touches. induction (ov_layers s) as [|l ls IH] using rev_ind; [done|].
  rewrite existsb_app. cbn. rewrite orb_false_r, orb_false_iff. intros [Hls Hl].
  apply bool_decide_eq_false in Hl. rewrite reverse_snoc, get_layers_cons, IH by done.
  unfold layer_lookup. destruct (ly_tables l !! table); [|done]. exfalso. by apply Hl.
Qed.

Lemma touches_rows s table :
  touches s table = false →
  table_rows table (overlay (ov_base s) (ov_layers s)) = table_rows table (ov_base s).
Proof.
  intros Ht. apply map_eq. intros key. rewrite !table_rows_lookup, overlay_lookup.
  by rewrite touches_false.
Qed.

(** What a view says of a row in its bounds. *)
Definition view_lookup (v : TableView) (key : bytes) : option (option bytes) :=
  match tv_entries v !! key with
  | Some x => Some x
  | None => if any_covers (tv_dels v) key then Some None else None
  end.

Lemma view_del_lookup v d key :
  view_lookup (view_del v d) key
  = if in_del_range d.1 d.2 key then Some None else view_lookup v key.
Proof.
  unfold view_lookup, view_del. cbn [tv_entries tv_dels]. rewrite map_lookup_imap, any_covers_snoc.
  destruct (tv_entries v !! key) as [x|]; cbn.
  - by destruct (in_del_range d.1 d.2 key).
  - by destruct (any_covers (tv_dels v) key), (in_del_range d.1 d.2 key).
Qed.

Lemma view_dels_lookup dels v key :
  view_lookup (foldl view_del v dels) key
  = if any_covers dels key then Some None else view_lookup v key.
Proof.
  induction dels as [|d dels IH] using rev_ind; [done|].
  rewrite foldl_snoc, view_del_lookup, IH, any_covers_snoc.
  by destruct (any_covers dels key), (in_del_range d.1 d.2 key).
Qed.

Lemma view_entries_lookup start stop (l : list (bytes * option bytes)) v key :
  NoDup l.*1 → within start stop key = true →
  view_lookup (foldl (view_entry start stop) v l) key
  = match (list_to_map l : gmap bytes (option bytes)) !! key with
    | Some x => Some x
    | None => view_lookup v key
    end.
Proof.
  intros Hnd Hin. revert v Hnd. induction l as [|[k x] l IH]; intros v; [done|].
  cbn [fmap list_fmap fst]. intros [Hk Hnd]%NoDup_cons. cbn [foldl]. rewrite IH by done.
  cbn [list_to_map foldr fst snd]. destruct (decide (k = key)) as [->|Hne].
  - rewrite lookup_insert_eq, (not_elem_of_list_to_map_1 l) by done.
    unfold view_entry. cbn [fst snd]. rewrite Hin. unfold view_lookup. cbn [tv_entries].
    by rewrite lookup_insert_eq.
  - rewrite lookup_insert_ne by done.
    assert (view_lookup (view_entry start stop v (k, x)) key = view_lookup v key) as ->; [|done].
    unfold view_entry. cbn [fst snd]. destruct (within start stop k); [|done].
    unfold view_lookup. cbn [tv_entries tv_dels]. by rewrite lookup_insert_ne.
Qed.

Lemma view_layer_lookup table start stop v l key :
  within start stop key = true →
  view_lookup (view_layer table start stop v l) key
  = match layer_lookup l table key with Some x => Some x | None => view_lookup v key end.
Proof.
  intros Hin. unfold view_layer, layer_lookup. destruct (ly_tables l !! table) as [t|]; [|done].
  rewrite view_entries_lookup; [|rewrite sorted_entries_perm; apply NoDup_fst_map_to_list|done].
  rewrite sorted_entries_map, view_dels_lookup. unfold covered.
  destruct (tl_entries t !! key); [done|]. by destruct (any_covers _ key).
Qed.

Lemma ov_view_lookup s table start stop key :
  within start stop key = true →
  view_lookup (ov_view s table start stop) key = get_layers (reverse (ov_layers s)) table key.
Proof.
  intros Hin. unfold ov_view. induction (ov_layers s) as [|l ls IH] using rev_ind; [done|].
  rewrite foldl_snoc, view_layer_lookup, IH, reverse_snoc, get_layers_cons by done. done.
Qed.

Lemma hides_lookup v key : hides v key = bool_decide (is_Some (view_lookup v key)).
Proof.
  unfold hides, view_lookup. destruct (tv_entries v !! key); cbn; [done|].
  by destruct (any_covers (tv_dels v) key).
Qed.

(** ** The merge gives the overlay's rows *)

Fixpoint take_while {A} (f : A → bool) (l : list A) : list A :=
  match l with x :: l' => if f x then x :: take_while f l' else [] | [] => [] end.
Fixpoint drop_while {A} (f : A → bool) (l : list A) : list A :=
  match l with x :: l' => if f x then drop_while f l' else l | [] => [] end.

Lemma take_drop_while {A} (f : A → bool) l : take_while f l ++ drop_while f l = l.
Proof. induction l as [|x l IH]; cbn; [done|]. destruct (f x); cbn; by rewrite ?IH. Qed.

Lemma take_while_weaken {A} (f g : A → bool) l :
  (∀ x, f x = true → g x = true) →
  take_while g l = take_while f l ++ take_while g (drop_while f l) ∧
  drop_while g l = drop_while g (drop_while f l).
Proof.
  intros Hfg. induction l as [|x l [IH1 IH2]]; cbn; [done|].
  destruct (f x) eqn:Hf; cbn; [|done]. rewrite (Hfg x Hf). by rewrite IH1, <- IH2.
Qed.

Lemma take_while_all {A} (f : A → bool) l x : x ∈ take_while f l → f x = true ∧ x ∈ l.
Proof.
  induction l as [|y l IH]; cbn; [by intros ?%elem_of_nil|].
  destruct (f y) eqn:Hf; [|by intros ?%elem_of_nil].
  rewrite !elem_of_cons. intros [->|Hx]; [by auto|]. destruct (IH Hx). auto.
Qed.

(** The merge without pages and limit. *)
Fixpoint merge_all (view : TableView) (rows pending : list (bytes * bytes)) : list (bytes * bytes) :=
  match rows with
  | [] => pending
  | (k, v) :: rows' =>
      take_while (λ p : bytes * bytes, bytes_ltb p.1 k) pending
      ++ (if hides view k then [] else [(k, v)])
      ++ merge_all view rows' (drop_while (λ p : bytes * bytes, bytes_ltb p.1 k) pending)
  end.

Definition room (limit : nat) (out : list (bytes * bytes)) : Prop :=
  limit = 0%nat ∨ (length out < limit)%nat.

Lemma full_room limit out : full limit out = false ↔ room limit out.
Proof.
  unfold full, room. rewrite andb_false_iff, Nat.ltb_ge, Nat.leb_gt. lia.
Qed.

(** A full result is the first rows of all of them. *)
Lemma full_limited limit out x more :
  room limit out → full limit (out ++ [x]) = true → out ++ [x] = limited limit (out ++ x :: more).
Proof.
  unfold full, room. rewrite andb_true_iff, Nat.ltb_lt, Nat.leb_le, length_app. cbn [length].
  intros Hr [Hl Hf]. assert (limit = length (out ++ [x])) as ->
    by (rewrite length_app; cbn [length]; lia).
  unfold limited. rewrite length_app. cbn [length]. rewrite Nat.add_1_r.
  change (out ++ x :: more) with (out ++ [x] ++ more). rewrite app_assoc, take_app_length'; [done|].
  rewrite length_app. cbn. lia.
Qed.

Lemma emit_ok before limit pending out more :
  room limit out →
  let '(p, o, stop) := emit before limit pending out in
  let f := λ x : bytes * bytes, before x.1 in
  if stop then o = limited limit (out ++ take_while f pending ++ more)
  else p = drop_while f pending ∧ o = out ++ take_while f pending ∧ room limit o.
Proof.
  revert out. induction pending as [|x pending IH]; intros out Hroom; cbn.
  { by rewrite app_nil_r. }
  destruct (before x.1) eqn:Hb; [|by rewrite app_nil_r].
  destruct (full limit (out ++ [x])) eqn:Hfull.
  - by apply full_limited.
  - specialize (IH (out ++ [x]) (proj1 (full_room _ _) Hfull)).
    destruct (emit before limit pending (out ++ [x])) as [[p o] stop].
    cbv zeta in IH. rewrite <- !app_assoc in IH. exact IH.
Qed.

Lemma merge_rows_ok view limit rows pending out rows2 :
  room limit out →
  let '(p, o, stop) := merge_rows view limit rows pending out in
  if stop then o = limited limit (out ++ merge_all view (rows ++ rows2) pending)
  else room limit o ∧
       o ++ merge_all view rows2 p = out ++ merge_all view (rows ++ rows2) pending.
Proof.
  revert pending out. induction rows as [|[k v] rows IH]; intros pending out Hroom; cbn; [done|].
  set (f := λ p : bytes * bytes, bytes_ltb p.1 k).
  set (tail := merge_all view (rows ++ rows2) (drop_while f pending)).
  pose proof (emit_ok (λ p, bytes_ltb p k) limit pending out
    ((if hides view k then [] else [(k, v)]) ++ tail) Hroom) as He.
  destruct (emit _ limit pending out) as [[p o] stop]. destruct stop; [done|].
  destruct He as (-> & -> & Hroom'). fold f in Hroom'. fold f.
  destruct (hides view k).
  - specialize (IH (drop_while f pending) _ Hroom').
    destruct (merge_rows view limit rows _ _) as [[p o] stop]. cbn [app].
    by rewrite <- app_assoc in IH.
  - destruct (full limit _) eqn:Hfull.
    + rewrite (full_limited _ _ _ tail Hroom' Hfull). by rewrite <- app_assoc.
    + specialize (IH (drop_while f pending) _ (proj1 (full_room _ _) Hfull)).
      destruct (merge_rows view limit rows _ _) as [[p o] stop].
      by rewrite <- !app_assoc in IH.
Qed.

(** Layer rows up to the last key of a page come before the next page. *)
Lemma merge_all_page view rows pending hi :
  (∀ r, r ∈ rows → bytes_lt hi r.1) →
  let f := λ p : bytes * bytes, bytes_leb p.1 hi in
  merge_all view rows pending = take_while f pending ++ merge_all view rows (drop_while f pending).
Proof.
  intros Hrows f. destruct rows as [|[k v] rows]; cbn; [by rewrite take_drop_while|].
  destruct (take_while_weaken f (λ p : bytes * bytes, bytes_ltb p.1 k) pending) as [Ht Hd].
  { intros p Hp. apply bytes_leb_le in Hp. apply bytes_ltb_lt.
    eapply bytes_le_lt_trans; [done|]. apply (Hrows (k, v)). by left. }
  by rewrite Ht, Hd, <- app_assoc.
Qed.

Lemma emit_rest limit pending out :
  room limit out → (emit (λ _, true) limit pending out).1.2 = limited limit (out ++ pending).
Proof.
  intros Hroom. pose proof (emit_ok (λ _, true) limit pending out [] Hroom) as He.
  assert (take_while (λ _ : bytes * bytes, true) pending = pending) as Ht.
  { clear. induction pending as [|p pending IH]; cbn; [done|]. by rewrite IH. }
  destruct (emit _ limit pending out) as [[p o] stop]. cbn [fst snd].
  cbv zeta beta in He. rewrite Ht in He.
  destruct stop; [by rewrite app_nil_r in He|]. destruct He as (_ & -> & Hr).
  unfold limited. destruct limit; [done|]. rewrite take_ge; [done|]. unfold room in Hr. lia.
Qed.

(** Pages: whatever the limit, the loop gives the first rows of the merge
    of everything after the cursor. *)
Lemma merge_pages_ok base table view stop limit :
  ∀ fuel cursor pending out,
  let rows := map_range cursor stop (table_rows table base) in
  (length rows ≤ fuel)%nat → room limit out →
  merge_pages fuel base table view stop limit cursor pending out
  = limited limit (out ++ merge_all view rows pending).
Proof.
  induction fuel as [|fuel IH]; intros cursor pending out rows Hfuel Hroom.
  - assert (rows = []) as Hnil by (destruct rows; [done|cbn in Hfuel; lia]).
    cbn [merge_pages]. unfold snap_range. fold rows. rewrite Hnil.
    unfold limited at 1 2 3. destruct (page_size limit); cbn; by apply emit_rest.
  - cbn [merge_pages]. unfold snap_range. fold rows.
    set (page := page_size limit). set (chunk := limited page rows).
    destruct ((page =? 0)%nat || (length chunk <? page)%nat) eqn:Hex.
    + assert (chunk = rows) as Hc.
      { unfold chunk, limited in *. destruct page as [|n]; [done|].
        cbn [Nat.eqb orb] in Hex. apply Nat.ltb_lt in Hex. rewrite length_take in Hex.
        apply take_ge. lia. }
      rewrite Hc. pose proof (merge_rows_ok view limit rows pending out [] Hroom) as Hm.
      rewrite app_nil_r in Hm. destruct (merge_rows view limit rows pending out) as [[p o] stp].
      destruct stp; [done|]. destruct Hm as [Hr <-]. by apply emit_rest.
    + apply orb_false_iff in Hex as [Hp Hlen]. apply Nat.eqb_neq in Hp. apply Nat.ltb_ge in Hlen.
      assert (chunk = take page rows) as Hc by (unfold chunk, limited; by destruct page).
      assert (rows = chunk ++ drop page rows) as Hsplit by (rewrite Hc; by rewrite take_drop).
      destruct (last chunk) as [[hi w]|] eqn:Hlast.
      2:{ apply last_None in Hlast. rewrite Hlast in Hlen. cbn in Hlen. lia. }
      apply last_Some in Hlast as [init Hinit].
      assert (map_range (Excluded hi) stop (table_rows table base) = drop page rows) as Hnext.
      { eapply (map_range_after _ cursor stop init hi w). fold rows.
        rewrite Hsplit at 1. rewrite Hinit, <- app_assoc. done. }
      pose proof (merge_rows_ok view limit chunk pending out (drop page rows) Hroom) as Hm.
      rewrite <- Hsplit in Hm.
      destruct (merge_rows view limit chunk pending out) as [[p o] stp]. destruct stp; [done|].
      destruct Hm as [Hr <-].
      assert (∀ r, r ∈ drop page rows → bytes_lt hi r.1) as Habove.
      { rewrite <- Hnext. intros [k v] [_ Hw]%elem_of_map_range. unfold within in Hw.
        apply andb_true_iff in Hw as [Hw _]. by apply bytes_ltb_lt in Hw. }
      rewrite (merge_all_page _ _ _ _ Habove).
      set (f := λ p : bytes * bytes, bytes_leb p.1 hi).
      pose proof (emit_ok (λ p, bytes_leb p hi) limit p o
        (merge_all view (drop page rows) (drop_while f p)) Hr) as He.
      destruct (emit _ limit p o) as [[p2 o2] stp2]. cbv zeta in He. fold f in He.
      destruct stp2; [done|]. destruct He as (-> & -> & Hr2).
      specialize (IH (Excluded hi) (drop_while f p) (o ++ take_while f p)). cbv zeta in IH.
      rewrite Hnext in IH. rewrite IH; [by rewrite <- app_assoc|rewrite length_drop; lia|done].
Qed.

Lemma merge_all_elem view rows pending x :
  x ∈ merge_all view rows pending ↔ (x ∈ rows ∧ hides view x.1 = false) ∨ x ∈ pending.
Proof.
  revert pending. induction rows as [|[k v] rows IH]; intros pending; cbn.
  { rewrite elem_of_nil. naive_solver. }
  set (f := λ p : bytes * bytes, bytes_ltb p.1 k).
  rewrite !elem_of_app, IH, elem_of_cons.
  assert (x ∈ pending ↔ x ∈ take_while f pending ∨ x ∈ drop_while f pending) as ->
    by (rewrite <- elem_of_app; by rewrite take_drop_while).
  destruct (hides view k) eqn:Hh.
  - rewrite elem_of_nil. split; [naive_solver|].
    intros [[[->|?] ?]|?]; [|naive_solver..]. cbn in *. congruence.
  - rewrite list_elem_of_singleton. split; [|naive_solver].
    intros [?|[->|?]]; [naive_solver| |naive_solver]. left. split; [by left|done].
Qed.

Lemma drop_while_ge k pending p :
  key_sorted pending → p ∈ drop_while (λ p : bytes * bytes, bytes_ltb p.1 k) pending →
  bytes_le k p.1.
Proof.
  induction pending as [|q pending IH]; cbn; [by intros _ ?%elem_of_nil|].
  rewrite key_sorted_cons. intros [Hq Hs]. destruct (bytes_ltb q.1 k) eqn:Hlt; [by apply IH|].
  assert (bytes_le k q.1) as Hle.
  { destruct (bytes_le_total k q.1) as [?|[Hc|Heq]%bytes_le_lt_or_eq]; [done| |].
    - apply bytes_ltb_lt in Hc. congruence.
    - by rewrite Heq. }
  intros [->|Hp]%elem_of_cons; [done|]. etrans; [done|]. apply bytes_le_lt_or_eq. left. by apply Hq.
Qed.

Lemma key_sorted_while k pending :
  key_sorted pending →
  key_sorted (take_while (λ p : bytes * bytes, bytes_ltb p.1 k) pending) ∧
  key_sorted (drop_while (λ p : bytes * bytes, bytes_ltb p.1 k) pending).
Proof.
  intros Hs. rewrite <- (take_drop_while (λ p : bytes * bytes, bytes_ltb p.1 k) pending) in Hs.
  apply key_sorted_app in Hs as (? & ? & _). done.
Qed.

Lemma merge_all_sorted view rows pending :
  key_sorted rows → key_sorted pending →
  (∀ p, p ∈ pending → hides view p.1 = true) → key_sorted (merge_all view rows pending).
Proof.
  revert pending. induction rows as [|[k v] rows IH]; intros pending; [done|].
  rewrite key_sorted_cons. cbn [fst]. intros [Hk Hrows] Hpend Hhid. cbn.
  set (f := λ p : bytes * bytes, bytes_ltb p.1 k).
  destruct (key_sorted_while k pending Hpend) as [Ht Hd]. fold f in Ht, Hd.
  assert (∀ p, p ∈ drop_while f pending → p ∈ pending) as Hsub.
  { intros p Hp. rewrite <- (take_drop_while f pending). apply elem_of_app. by right. }
  assert (∀ x, x ∈ merge_all view rows (drop_while f pending) →
            bytes_lt k x.1 ∨ (k = x.1 ∧ hides view k = true)) as Habove.
  { intros x [[Hx _]|Hx]%merge_all_elem; [left; by apply Hk|].
    pose proof (drop_while_ge k pending x Hpend Hx) as [Hlt|Heq]%bytes_le_lt_or_eq; [by left|].
    right. split; [done|]. rewrite Heq. by apply Hhid, Hsub. }
  assert (∀ x, x ∈ take_while f pending → bytes_lt x.1 k) as Hbelow.
  { intros x [Hx _]%take_while_all. by apply bytes_ltb_lt. }
  apply key_sorted_app. split_and!; [done| |].
  - assert (key_sorted (merge_all view rows (drop_while f pending))) as Hm by (apply IH; auto).
    destruct (hides view k) eqn:Hh; [done|]. apply key_sorted_cons. split; [|done].
    intros x [Hx|[_ Hx]]%Habove; [done|congruence].
  - intros p q Hp%Hbelow [Hq|Hq]%elem_of_app.
    + destruct (hides view k); [by apply elem_of_nil in Hq|].
      by apply list_elem_of_singleton in Hq as ->.
    + destruct (Habove q Hq) as [?|[<- _]]; [by etrans|done].
Qed.

(** The view's rows are those the layers have in the bounds. *)
Lemma view_entries_within s table start stop key x :
  tv_entries (ov_view s table start stop) !! key = Some x → within start stop key = true.
Proof.
  unfold ov_view. revert x. induction (ov_layers s) as [|l ls IH] using rev_ind; [done|].
  rewrite foldl_snoc. set (v := foldl _ _ ls) in *. unfold view_layer.
  destruct (ly_tables l !! table) as [t|]; [|done].
  assert (∀ dels v0, (∀ y, tv_entries v0 !! key = Some y → within start stop key = true) →
    ∀ y, tv_entries (foldl view_del v0 dels) !! key = Some y → within start stop key = true) as Hd.
  { intros dels. induction dels as [|d dels IHd]; intros v0 Hv0; [done|]. cbn [foldl]. apply IHd.
    intros y. cbn [view_del tv_entries]. rewrite map_lookup_imap.
    destruct (tv_entries v0 !! key) eqn:Hv; [|done]. intros _. by eapply Hv0. }
  generalize (sorted_entries (tl_entries t)). intros es.
  specialize (Hd (tl_range_dels t) v IH). revert Hd. generalize (foldl view_del v (tl_range_dels t)).
  induction es as [|e es IHe]; intros v0 Hv0; [done|]. cbn [foldl]. apply IHe.
  intros y. unfold view_entry. destruct (within start stop e.1) eqn:Hw; [|apply Hv0].
  cbn [tv_entries]. rewrite lookup_insert. case_decide as Hk; [|apply Hv0]. by subst.
Qed.

Lemma pending_rows_elem s table start stop key v :
  (key, v) ∈ pending_rows (ov_view s table start stop) ↔
  within start stop key = true ∧ tv_entries (ov_view s table start stop) !! key = Some (Some v).
Proof.
  unfold pending_rows. rewrite list_elem_of_omap. split.
  - intros ([k x] & Hin%elem_of_sorted_entries & Hx). cbn in Hx. destruct x as [w|]; [|done].
    cbn in Hx. simplify_eq. split; [by eapply view_entries_within|done].
  - intros [_ He]. exists (key, Some v). split; [by apply elem_of_sorted_entries|done].
Qed.

Lemma merged_ok s table start stop limit :
  merged s table start stop limit
  = snap_range (overlay (ov_base s) (ov_layers s)) table start stop limit.
Proof.
  unfold merged, snap_range. destruct (touches s table) eqn:Ht; [|by rewrite touches_rows].
  set (view := ov_view s table start stop).
  assert (key_sorted (pending_rows view)) as Hps.
  { apply key_sorted_omap; [|apply sorted_entries_sorted].
    intros p q. destruct p.2; [|done]. by intros [= <-]. }
  rewrite merge_pages_ok.
  - cbn [app]. f_equal. apply key_sorted_ext; [|apply map_range_sorted|].
    + apply merge_all_sorted; [apply map_range_sorted|done|].
      intros [k v] [_ He]%pending_rows_elem. rewrite hides_lookup. unfold view_lookup.
      fold view in He. cbn [fst]. by rewrite He.
    + intros [k v]. rewrite merge_all_elem, !elem_of_map_range, !table_rows_lookup, overlay_lookup.
      cbn [fst]. rewrite hides_lookup.
      rewrite (pending_rows_elem s table start stop k v : (k, v) ∈ pending_rows view ↔ _). fold view.
      destruct (within start stop k) eqn:Hw; [|naive_solver].
      rewrite <- (ov_view_lookup s table start stop k Hw). fold view. unfold view_lookup.
      destruct (tv_entries view !! k) as [x|]; cbn; [naive_solver|].
      destruct (any_covers (tv_dels view) k); cbn; naive_solver.
  - apply rows_fuel.
  - unfold room. destruct limit; [by left|right; cbn; lia].
Qed.

Lemma ov_count_ok s table start stop :
  ov_count s table start stop
  = snap_count (overlay (ov_base s) (ov_layers s)) table start stop.
Proof.
  unfold ov_count, snap_count. destruct (touches s table) eqn:Ht; [|by rewrite touches_rows].
  by rewrite merged_ok.
Qed.

Lemma last_key_sorted {A} (l : list (bytes * A)) k v :
  key_sorted l → (k, v) ∈ l → (∀ p, p ∈ l → bytes_le p.1 k) → last l = Some (k, v).
Proof.
  intros Hs Hin Hmax. destruct (last l) as [p|] eqn:Hl.
  - apply last_Some in Hl as [init ->]. f_equal.
    apply elem_of_app in Hin as [Hin|Hin%list_elem_of_singleton]; [|done]. exfalso.
    apply key_sorted_app in Hs as (_ & _ & Hlt). specialize (Hlt _ p Hin ltac:(by left)).
    specialize (Hmax p ltac:(apply elem_of_app; right; by left)). cbn in Hlt.
    apply (bytes_lt_irrefl k). by eapply bytes_lt_le_trans.
  - apply last_None in Hl as ->. by apply elem_of_nil in Hin.
Qed.

Lemma last_key_max {A} (l : list (bytes * A)) k v p :
  key_sorted l → last l = Some (k, v) → p ∈ l → bytes_le p.1 k.
Proof.
  intros Hs [init ->]%last_Some Hp. apply key_sorted_app in Hs as (_ & _ & Hlt).
  apply elem_of_app in Hp as [Hp|Hp%list_elem_of_singleton].
  - apply bytes_le_lt_or_eq. left. by apply (Hlt p (k, v) Hp ltac:(by left)).
  - by rewrite Hp.
Qed.

Lemma sorted_entries_range {A} (m : gmap bytes A) : sorted_entries m = map_range Unbounded Unbounded m.
Proof.
  unfold map_range. induction (sorted_entries m) as [|p l IH]; [done|].
  rewrite filter_cons_True by done. by rewrite <- IH.
Qed.

(** The overlay's rows: the engine's that are not hidden, and the layers'. *)
Lemma overlay_rows_elem s table p :
  let view := ov_view s table Unbounded Unbounded in
  p ∈ sorted_entries (table_rows table (overlay (ov_base s) (ov_layers s))) ↔
  (p ∈ sorted_entries (table_rows table (ov_base s)) ∧ hides view p.1 = false) ∨
  p ∈ pending_rows view.
Proof.
  intros view. destruct p as [k v]. rewrite !elem_of_sorted_entries, !table_rows_lookup.
  rewrite (pending_rows_elem s table Unbounded Unbounded k v : (k, v) ∈ pending_rows view ↔ _).
  fold view. rewrite overlay_lookup. cbn [fst]. rewrite hides_lookup.
  rewrite <- (ov_view_lookup s table Unbounded Unbounded k eq_refl). fold view. unfold view_lookup.
  destruct (tv_entries view !! k) as [x|]; cbn; [naive_solver|].
  destruct (any_covers (tv_dels view) k); cbn; naive_solver.
Qed.

Lemma pending_rows_sorted view : key_sorted (pending_rows view).
Proof.
  apply key_sorted_omap; [|apply sorted_entries_sorted].
  intros p q. destruct p.2; [|done]. by intros [= <-].
Qed.

Lemma ov_last_ok s table :
  ov_last s table = snap_last (overlay (ov_base s) (ov_layers s)) table.
Proof.
  unfold ov_last, snap_last. destruct (touches s table) eqn:Ht; [|by rewrite touches_rows].
  pose proof (overlay_rows_elem s table) as Hrows. cbv zeta in Hrows.
  set (view := ov_view s table Unbounded Unbounded) in *.
  set (M := sorted_entries (table_rows table (overlay _ _))) in *.
  set (B := sorted_entries (table_rows table (ov_base s))) in *.
  assert (key_sorted M) as HM by apply sorted_entries_sorted.
  assert (key_sorted B) as HB by apply sorted_entries_sorted.
  pose proof (pending_rows_sorted view) as HP.
  destruct (last B) as [[k v]|] eqn:HlB.
  - pose proof (last_Some_elem_of _ _ HlB) as HinB.
    assert (∀ p, p ∈ B → bytes_le p.1 k) as HmaxB by (intros p; by eapply last_key_max).
    destruct (hides view k) eqn:Hh.
    + rewrite merged_ok. unfold snap_range, limited. by rewrite <- sorted_entries_range.
    + assert ((k, v) ∈ M) as HkM by (apply Hrows; by left).
      destruct (last (pending_rows view)) as [[tk tv]|] eqn:HlP; cbn [fst].
      * assert (∀ p, p ∈ pending_rows view → bytes_le p.1 tk) as HmaxP
          by (intros p; by eapply last_key_max).
        destruct (bytes_ltb k tk) eqn:Hlt; symmetry; apply last_key_sorted; try done.
        -- apply Hrows. right. by apply last_Some_elem_of.
        -- apply bytes_ltb_lt in Hlt. intros p [[Hp _]|Hp]%Hrows; [|by apply HmaxP].
           etrans; [by apply HmaxB|]. apply bytes_le_lt_or_eq. by left.
        -- intros p [[Hp _]|Hp]%Hrows; [by apply HmaxB|]. etrans; [by apply HmaxP|].
           destruct (bytes_le_total tk k) as [?|[Hc|Heq]%bytes_le_lt_or_eq]; [done| |by rewrite Heq].
           apply bytes_ltb_lt in Hc. congruence.
      * apply last_None in HlP. symmetry. apply last_key_sorted; try done.
        intros p [[Hp _]|Hp]%Hrows; [by apply HmaxB|]. rewrite HlP in Hp. by apply elem_of_nil in Hp.
  - apply last_None in HlB. assert (pending_rows view = M) as ->; [|done].
    apply key_sorted_ext; [done..|]. intros p. rewrite Hrows, HlB, elem_of_nil. naive_solver.
Qed.

(** ** The engine *)

Record WriteBehind (E : Type) := mkWriteBehind {
  wb_base : E;
  wb_list : list Layer;
  wb_bytes : Z;
  wb_max_bytes : Z
}.
Arguments mkWriteBehind {_} _ _ _ _.
Arguments wb_base {_} _.
Arguments wb_list {_} _.
Arguments wb_bytes {_} _.
Arguments wb_max_bytes {_} _.

Definition DEFAULT_MAX_BYTES : Z := 64 * 1024 * 1024.
Definition MAX_LAYERS : nat := N.to_nat 1024.

Section engine.
Context {E : Type} `{KvStore E}.

Definition WriteBehind_new (base : E) (max_bytes : Z) : WriteBehind E :=
  mkWriteBehind base [] 0 max_bytes.

(** The ops of a list of layers, oldest first. *)
Definition flush_batch (list : list Layer) : WriteBatch :=
  foldl (λ b l, to_ops l b) WriteBatch_new list.

Definition layer_sum (list : list Layer) : Z := foldr Z.add 0 (ly_bytes <$> list).

(** The end of a flush: the layers of [list] go, those pushed since stay. *)
Definition drop_flushed (list : list Layer) (w : WriteBehind E) : WriteBehind E :=
  mkWriteBehind (wb_base w) (drop (length list) (wb_list w))
    (wb_bytes w - layer_sum list) (wb_max_bytes w).

Definition set_base (e : E) (w : WriteBehind E) : WriteBehind E :=
  mkWriteBehind e (wb_list w) (wb_bytes w) (wb_max_bytes w).

(** [flush] and [flush_locked]: with the lock held and no commit meanwhile. *)
Definition flush : prog (WriteBehind E) StorageError () := λ w,
  match wb_list w with
  | [] => (Ok (), w)
  | list =>
      match commit (flush_batch list) (mkWriteOptions false) (wb_base w) with
      | (Ok _, e) => (Ok (), drop_flushed list (set_base e w))
      | (Err x, e) => (Err x, set_base e w)
      end
  end.

(** Run an operation of the engine below. *)
Definition on_base (m : E → StorageResult () * E) : prog (WriteBehind E) StorageError () := λ w,
  let '(r, e) := m (wb_base w) in (r, set_base e w).

Definition push_layer (l : Layer) (w : WriteBehind E) : WriteBehind E :=
  mkWriteBehind (wb_base w) (wb_list w ++ [l]) (wb_bytes w + ly_bytes l) (wb_max_bytes w).

Definition over_budget (w : WriteBehind E) : bool :=
  (wb_max_bytes w <? wb_bytes w) || (MAX_LAYERS <? length (wb_list w))%nat.

Definition wb_commit (batch : WriteBatch) (opts : WriteOptions)
    : prog (WriteBehind E) StorageError () :=
  if opt_sync opts then
    let* _ := flush in on_base (commit batch opts)
  else
    let* _ := pmodify (push_layer (from_batch batch)) in
    let* w := pget in
    if over_budget w then flush else pret ().

Definition wb_commit_stream (ops : list (StorageResult BatchOp)) (opts : WriteOptions)
    : prog (WriteBehind E) StorageError () :=
  if opt_sync opts then
    let* _ := flush in on_base (commit_stream ops opts)
  else
    let* batch := plift (collect_ops ops WriteBatch_new) in
    wb_commit batch opts.

Definition wb_sync : prog (WriteBehind E) StorageError () :=
  let* _ := flush in
  let* _ := on_base presync in
  let* _ := flush in
  on_base engine_sync.

(** A snapshot, and what it reads. *)
Definition wb_snapshot (w : WriteBehind E) : OverlaySnapshot :=
  mkOverlay (contents (wb_base w)) (wb_list w).
End engine.

#[global] Instance WriteBehind_KvStore {E} `{KvStore E} : KvStore (WriteBehind E) := {
  contents w := overlay (contents (wb_base w)) (wb_list w);
  commit := wb_commit;
  engine_sync := wb_sync;
  presync := on_base presync
}.

Section laws.
Context {E : Type} `{KvStoreLaws E}.

(** A flush changes nothing a reader sees, whether it succeeds or not. *)
Lemma flush_ok (w : WriteBehind E) r w' :
  flush w = (r, w') → contents w' = contents w ∧ (is_ok r = true → wb_list w' = []).
Proof.
  unfold flush. destruct (wb_list w) as [|l ls] eqn:Hl; [by intros [= <- <-]|]. rewrite <- Hl.
  destruct (commit (flush_batch (wb_list w)) _ (wb_base w)) as [[[]|x] e] eqn:Hc.
  - intros [= <- <-]. apply commit_ok in Hc. cbn [contents WriteBehind_KvStore wb_base wb_list
      drop_flushed set_base]. rewrite drop_all, Hc. split; [|done].
    done.
  - intros [= <- <-]. split; [|done]. apply commit_err in Hc.
    cbn [contents WriteBehind_KvStore wb_base wb_list set_base].
    destruct Hc as [-> | ->]; [done|]. pose proof (overlay_idem (contents (wb_base w)) (wb_list w) []) as Hi.
    by rewrite app_nil_r in Hi.
Qed.

Lemma on_base_contents (m : E → StorageResult () * E) (w : WriteBehind E) r w' :
  on_base m w = (r, w') →
  ∃ e, m (wb_base w) = (r, e) ∧ wb_list w' = wb_list w ∧ wb_base w' = e.
Proof.
  unfold on_base. destruct (m (wb_base w)) as [r0 e]. intros [= <- <-]. by exists e.
Qed.

Lemma push_layer_contents (w : WriteBehind E) b :
  contents (push_layer (from_batch b) w) = apply_batch b (contents w).
Proof. apply overlay_commit. Qed.

Lemma wb_commit_ok (w : WriteBehind E) b o r w' :
  wb_commit b o w = (r, w') →
  match r with
  | Ok _ => contents w' = apply_batch b (contents w)
  | Err _ => contents w' = contents w ∨ contents w' = apply_batch b (contents w)
  end.
Proof.
  unfold wb_commit. destruct (opt_sync o).
  - unfold pbind. destruct (flush w) as [[[]|x] w1] eqn:Hf; apply flush_ok in Hf as [Hc Hn].
    + specialize (Hn eq_refl). intros Hb. apply on_base_contents in Hb as (e & He & Hl & Hb).
      cbn [contents WriteBehind_KvStore]. rewrite Hl, Hn, Hb.
      cbn [contents WriteBehind_KvStore] in Hc. rewrite <- Hc, Hn. clear Hc.
      destruct r as [[]|x]; [by apply commit_ok in He|by apply commit_err in He].
    + intros [= <- <-]. by left.
  - unfold pmodify, pget, pbind. rewrite <- push_layer_contents.
    destruct (over_budget _); [|by intros [= <- <-]].
    intros Hf. apply flush_ok in Hf as [-> _]. destruct r; [done|by right].
Qed.

Lemma wb_sync_ok (w : WriteBehind E) r w' :
  wb_sync w = (r, w') → contents w' = contents w.
Proof.
  unfold wb_sync, pbind. destruct (flush w) as [[[]|x] w1] eqn:H1;
    apply flush_ok in H1 as [H1 _]; [|by intros [= <- <-]].
  destruct (on_base presync w1) as [r2 w2] eqn:H2. apply on_base_contents in H2 as (e2 & Hp & Hl2 & Hb2).
  apply presync_contents in Hp.
  assert (contents w2 = contents w1) as H2
    by (cbn [contents WriteBehind_KvStore]; by rewrite Hl2, Hb2, Hp).
  destruct r2 as [[]|x]; [|by intros [= <- <-]; congruence].
  destruct (flush w2) as [[[]|x] w3] eqn:H3; apply flush_ok in H3 as [H3 _];
    [|by intros [= <- <-]; congruence].
  intros (e4 & Hs & Hl4 & Hb4)%on_base_contents. apply sync_contents in Hs.
  cbn [contents WriteBehind_KvStore] in *. rewrite Hl4, Hb4, Hs. congruence.
Qed.

#[global] Instance WriteBehind_laws : KvStoreLaws (WriteBehind E).
Proof.
  split.
  - intros b o w w' Hc. by apply wb_commit_ok in Hc.
  - intros b o w x w' Hc. by apply wb_commit_ok in Hc.
  - intros w r w' Hs. by eapply wb_sync_ok.
  - intros w r w' (e & Hp & Hl & Hb)%on_base_contents. apply presync_contents in Hp.
    cbn [contents WriteBehind_KvStore]. by rewrite Hl, Hb, Hp.
Qed.

(** ** The byte count *)

Definition wb_wf (w : WriteBehind E) : Prop := wb_bytes w = layer_sum (wb_list w).

Lemma layer_sum_app l1 l2 : layer_sum (l1 ++ l2) = layer_sum l1 + layer_sum l2.
Proof.
  unfold layer_sum. induction l1 as [|l l1 IH]; cbn [app fmap list_fmap foldr]; [done|].
  rewrite IH. lia.
Qed.

Lemma flush_wf (w : WriteBehind E) r w' : wb_wf w → flush w = (r, w') → wb_wf w'.
Proof.
  unfold flush, wb_wf. intros Hw. destruct (wb_list w) as [|l ls] eqn:Hl; [by intros [= <- <-]; rewrite Hl|].
  rewrite <- Hl in *. destruct (commit _ _ (wb_base w)) as [[[]|x] e]; intros [= <- <-]; [|done].
  cbn [wb_bytes wb_list drop_flushed set_base]. rewrite drop_all, Hw. unfold layer_sum at 3. cbn. lia.
Qed.

Lemma wb_commit_wf (w : WriteBehind E) b o r w' : wb_wf w → wb_commit b o w = (r, w') → wb_wf w'.
Proof.
  intros Hw. unfold wb_commit. destruct (opt_sync o).
  - unfold pbind. destruct (flush w) as [[[]|x] w1] eqn:Hf; apply flush_wf in Hf; [|done| |done].
    + unfold on_base. destruct (commit b o (wb_base w1)) as [r1 e]. by intros [= <- <-].
    + by intros [= <- <-].
  - assert (wb_wf (push_layer (from_batch b) w)) as Hp.
    { unfold wb_wf. cbn [wb_bytes wb_list push_layer]. rewrite layer_sum_app, Hw.
      unfold layer_sum at 3. cbn [fmap list_fmap foldr]. lia. }
    unfold pmodify, pget, pbind. destruct (over_budget _); [by apply flush_wf|by intros [= <- <-]].
Qed.
End laws.

(** ** Commits, flushes and snapshots together

    The steps of a flush interleave with commits, which only push layers,
    and with snapshots.  The layer list changes under its write lock and a
    snapshot is taken under its read lock, so a snapshot reads one state. *)

Inductive FlushPhase :=
| Idle
| Copied (list : list Layer)      (** the layers to flush are known *)
| Committed (list : list Layer).  (** the engine has them, the list still too *)

Record Shared := mkShared {
  sd_base : Tables;
  sd_list : list Layer;
  sd_flush : FlushPhase;
  sd_log : list WriteBatch        (** every commit so far, for the statement *)
}.

Inductive wb_step : Shared → Shared → Prop :=
| step_push base list phase log b :
    wb_step (mkShared base list phase log)
            (mkShared base (list ++ [from_batch b]) phase (log ++ [b]))
| step_flush_start base list log :
    list ≠ [] →
    wb_step (mkShared base list Idle log) (mkShared base list (Copied list) log)
| step_flush_commit base list l log :
    wb_step (mkShared base list (Copied l) log)
            (mkShared (apply_batch (flush_batch l) base) list (Committed l) log)
| step_flush_fail base base' list l log :
    base' = base ∨ base' = apply_batch (flush_batch l) base →
    wb_step (mkShared base list (Copied l) log) (mkShared base' list Idle log)
| step_flush_drop base list l log :
    wb_step (mkShared base list (Committed l) log)
            (mkShared base (drop (length l) list) Idle log)
| step_durable base log b :
    wb_step (mkShared base [] Idle log) (mkShared (apply_batch b base) [] Idle (log ++ [b])).

Definition replay (log : list WriteBatch) (base : Tables) : Tables :=
  foldl (λ ts b, apply_batch b ts) base log.

Definition flush_inv (s : Shared) : Prop :=
  match sd_flush s with
  | Idle => True
  | Copied l => ∃ rest, sd_list s = l ++ rest
  | Committed l => ∃ rest base, sd_list s = l ++ rest ∧ sd_base s = overlay base l
  end.

Definition shared_inv (base0 : Tables) (s : Shared) : Prop :=
  overlay (sd_base s) (sd_list s) = replay (sd_log s) base0 ∧ flush_inv s.

Lemma wb_step_inv base0 s s' : shared_inv base0 s → wb_step s s' → shared_inv base0 s'.
Proof.
  intros [Hov Hfl] Hs. destruct Hs as [base list phase log b|base list log Hne|base list l log
    |base base' list l log Hb|base list l log|base log b]; unfold shared_inv, flush_inv in *;
    cbn [sd_base sd_list sd_flush sd_log] in *.
  - split; [by unfold replay; rewrite foldl_snoc, overlay_commit, Hov|].
    destruct phase as [|l|l]; [done| |].
    + destruct Hfl as [rest ->]. exists (rest ++ [from_batch b]). by rewrite app_assoc.
    + destruct Hfl as (rest & base1 & -> & ->). exists (rest ++ [from_batch b]), base1.
      by rewrite app_assoc.
  - split; [done|]. exists []. by rewrite app_nil_r.
  - destruct Hfl as [rest ->]. change (apply_batch (flush_batch l) base) with (overlay base l).
    split; [by rewrite overlay_idem|by eauto].
  - destruct Hfl as [rest ->]. split; [|done]. destruct Hb as [->| ->]; [done|].
    change (apply_batch (flush_batch l) base) with (overlay base l). by rewrite overlay_idem.
  - destruct Hfl as (rest & base1 & -> & ->). split; [|done].
    rewrite drop_app_length, <- Hov, overlay_idem. by rewrite overlay_app.
  - split; [|done]. unfold replay in *. rewrite foldl_snoc, <- Hov. done.
Qed.

Lemma wb_steps_inv base0 s s' : shared_inv base0 s → rtc wb_step s s' → shared_inv base0 s'.
Proof. intros Hs Hr. induction Hr; [done|]. eauto using wb_step_inv. Qed.

(** C32.  An overlay read is exact.  Over any engine rows and any layers, a
    get, a range with any bounds and limit, a count and a last row give what
    they would give had every layer been written to the engine, oldest
    first; the paged merge ends, and its limit and page size never show. *)
Theorem overlay_reads_exact (s : OverlaySnapshot) table key start stop limit :
  let ts := overlay (ov_base s) (ov_layers s) in
  ov_get s table key = snap_get ts table key ∧
  ov_range s table start stop limit = snap_range ts table start stop limit ∧
  ov_count s table start stop = snap_count ts table start stop ∧
  ov_last s table = snap_last ts table.
Proof.
  split_and!; [apply ov_get_ok|apply merged_ok|apply ov_count_ok|apply ov_last_ok].
Qed.


(** ** Crashes

    What survives is what survives of the engine below. *)

#[global] Instance WriteBehind_durable {E} `{DurableStore E} : DurableStore (WriteBehind E) :=
  λ w, durable (wb_base w).

(** The calls a caller makes, all answered [Ok]. *)
Inductive WbCall := CallCommit (b : WriteBatch) (sync : bool) | CallSync.

Definition call_run {E} `{KvStore E} (c : WbCall) : prog (WriteBehind E) StorageError () :=
  match c with
  | CallCommit b sync => wb_commit b (mkWriteOptions sync)
  | CallSync => wb_sync
  end.

Fixpoint calls_run {E} `{KvStore E} (cs : list WbCall) : prog (WriteBehind E) StorageError () :=
  match cs with
  | [] => pret ()
  | c :: cs' => let* _ := call_run c in calls_run cs'
  end.

(** Every batch, and the batches up to the last durable point. *)
Definition call_log (s : list WriteBatch * list WriteBatch) (c : WbCall)
    : list WriteBatch * list WriteBatch :=
  match c with
  | CallCommit b true => (s.1 ++ [b], s.1 ++ [b])
  | CallCommit b false => (s.1 ++ [b], s.2)
  | CallSync => (s.1, s.1)
  end.

Definition calls_log (cs : list WbCall) : list WriteBatch * list WriteBatch :=
  foldl call_log ([], []) cs.

Section crash.
Context {E : Type} `{KvStoreLaws E, !DurableStore E, !DurableLaws E}.

Lemma flush_durable (w : WriteBehind E) r w' : flush w = (r, w') → durable w' = durable w.
Proof.
  unfold flush, durable, WriteBehind_durable.
  destruct (wb_list w) as [|l ls] eqn:Hl; [by intros [= <- <-]|]. rewrite <- Hl.
  destruct (commit _ _ (wb_base w)) as [[[]|x] e] eqn:Hc; intros [= <- <-].
  - by apply durable_commit in Hc.
  - by apply durable_commit_err in Hc as [?|[? _]].
Qed.

Lemma wb_commit_durable (w : WriteBehind E) b sync w' :
  wb_commit b (mkWriteOptions sync) w = (Ok (), w') →
  durable w' = if sync then contents w' else durable w.
Proof.
  unfold wb_commit. cbn [opt_sync]. destruct sync.
  - unfold pbind. destruct (flush w) as [[[]|x] w1] eqn:Hf; [|done].
    apply flush_ok in Hf as [_ Hn]. specialize (Hn eq_refl).
    intros (e & He & Hl & Hb)%on_base_contents. apply durable_commit in He. cbn [opt_sync] in He.
    unfold durable, WriteBehind_durable. cbn [contents WriteBehind_KvStore].
    by rewrite Hl, Hn, Hb.
  - unfold pmodify, pget, pbind. destruct (over_budget _); [|by intros [= <-]].
    intros ->%flush_durable. done.
Qed.

Lemma wb_sync_durable (w : WriteBehind E) w' : wb_sync w = (Ok (), w') → durable w' = contents w'.
Proof.
  unfold wb_sync, pbind. destruct (flush w) as [[[]|x] w1]; [|done].
  destruct (on_base presync w1) as [[[]|x] w2]; [|done].
  destruct (flush w2) as [[[]|x] w3] eqn:H3; [|done].
  apply flush_ok in H3 as [_ Hn]. specialize (Hn eq_refl).
  intros (e & He & Hl & Hb)%on_base_contents. apply durable_sync in He.
  unfold durable, WriteBehind_durable. cbn [contents WriteBehind_KvStore]. by rewrite Hl, Hn, Hb.
Qed.

Lemma calls_durable base0 cs : ∀ (w w' : WriteBehind E) s,
  contents w = replay s.1 base0 → durable w = replay s.2 base0 →
  calls_run cs w = (Ok (), w') →
  contents w' = replay (foldl call_log s cs).1 base0 ∧
  durable w' = replay (foldl call_log s cs).2 base0.
Proof.
  induction cs as [|c cs IH]; intros w w' s Hc Hd; [by intros [= <-]|].
  cbn [calls_run foldl]. unfold pbind at 1. destruct (call_run c w) as [[[]|x] w1] eqn:Hrun; [|done].
  apply IH; destruct c as [b [] |]; cbn [call_run call_log fst snd] in *;
    try (apply wb_commit_ok in Hrun as Hok); unfold replay in *; rewrite ?foldl_snoc.
  - by rewrite Hok, Hc.
  - by rewrite Hok, Hc.
  - by rewrite (wb_sync_ok _ _ _ Hrun).
  - apply wb_commit_durable in Hrun. by rewrite Hrun, Hok, Hc.
  - apply wb_commit_durable in Hrun. by rewrite Hrun.
  - rewrite (wb_sync_durable _ _ Hrun). by rewrite (wb_sync_ok _ _ _ Hrun).
Qed.

(** C34.  A crash loses a suffix of the commits and nothing durable.  After
    any run of commits and checkpoints, reads see every commit; what
    survives a crash is exactly the commits up to the last one that was
    durable or the last checkpoint, in order, with none of the later ones. *)
Theorem crash_keeps_durable_prefix (e : E) max_bytes cs w' :
  durable e = contents e →
  calls_run cs (WriteBehind_new e max_bytes) = (Ok (), w') →
  contents w' = replay (calls_log cs).1 (contents e) ∧
  durable w' = replay (calls_log cs).2 (contents e).
Proof. intros Hd Hrun. by eapply (calls_durable _ cs (WriteBehind_new e max_bytes)). Qed.

(** A durable commit that another commit overtakes goes below it: a layer
    pushed after its flush and before its engine commit wins over it,
    though it was there first (the module comment says that order is kept). *)
Lemma durable_commit_goes_below (w w1 : WriteBehind E) bl bs e :
  flush w = (Ok (), w1) →
  commit bs (mkWriteOptions true) (wb_base w1) = (Ok (), e) →
  contents (set_base e (push_layer (from_batch bl) w1))
  = apply_batch bl (apply_batch bs (contents w)).
Proof.
  intros Hf Hc. apply flush_ok in Hf as [Hw Hn]. specialize (Hn eq_refl). apply commit_ok in Hc.
  cbn [contents WriteBehind_KvStore] in *. cbn [wb_base wb_list set_base push_layer].
  rewrite Hn in *. rewrite <- Hw, Hc. apply (overlay_commit _ []).
Qed.
End crash.

(** ** Witnesses *)


Lemma crash_keeps_durable_prefix_witness :
  let b1 := [OpPut "t" (str "a") (str "1")] in
  let b2 := [OpPut "t" (str "b") (str "2")] in
  let w' := (calls_run [CallCommit b1 false; CallSync; CallCommit b2 false]
               (WriteBehind_new (mkDisk ∅ ∅) 1000)).2 in
  durable w' = replay [b1] ∅ ∧ contents w' = replay [b1; b2] ∅.
Proof.
  intros b1 b2 w'.
  assert (durable (mkDisk ∅ ∅) = contents (mkDisk ∅ ∅)) as Hd0 by reflexivity.
  assert (calls_run [CallCommit b1 false; CallSync; CallCommit b2 false]
            (WriteBehind_new (mkDisk ∅ ∅) 1000) = (Ok (), w')) as Hr by (vm_compute; reflexivity).
  destruct (crash_keeps_durable_prefix _ _ _ _ Hd0 Hr) as [Hc Hd].
  split; [exact Hd|exact Hc].
Defined.
