(* ===== verification/Crc.v ===== *)
(** * The checksum of WAL records ([crc_table], [crc32c] of
    [crates/storage/src/raft_wal.rs])

    The table-driven CRC-32C is the bit-by-bit shift register of the
    Castagnoli polynomial; it changes whenever at most four consecutive
    bytes of its input change. *)

From S2P Require Import Prelude.

(** ** Little-endian integers *)

Fixpoint le_bytes (n : nat) (z : Z) : bytes :=
  match n with O => [] | S n' => byte_of z :: le_bytes n' (z / 256) end.

Fixpoint le_value (bs : bytes) : Z :=
  match bs with [] => 0 | b :: bs' => byte_val b + 256 * le_value bs' end.

Lemma length_le_bytes n z : length (le_bytes n z) = n.
Proof. revert z. induction n as [|n IH]; intros z; simpl; by rewrite ?IH. Qed.

Lemma le_value_nonneg bs : 0 ≤ le_value bs.
Proof. induction bs as [|b bs IH]; simpl; [lia|]. pose proof (byte_val_range b). lia. Qed.

Lemma le_value_range bs : 0 ≤ le_value bs < 256 ^ Z.of_nat (length bs).
Proof.
  induction bs as [|b bs IH]; cbn [le_value length]; [simpl; lia|].
  pose proof (byte_val_range b). rewrite Nat2Z.inj_succ, Z.pow_succ_r by lia. lia.
Qed.

Lemma le_bytes_value n z : 0 ≤ z < 256 ^ Z.of_nat n → le_value (le_bytes n z) = z.
Proof.
  revert z. induction n as [|n IH]; intros z Hz; [simpl in *; lia|].
  rewrite Nat2Z.inj_succ, Z.pow_succ_r in Hz by lia. cbn [le_bytes le_value].
  rewrite byte_val_of, IH; [pose proof (Z.div_mod z 256); lia|].
  split; [apply Z.div_pos; lia|]. apply Z.div_lt_upper_bound; lia.
Qed.

Lemma le_value_inj a b : length a = length b → le_value a = le_value b → a = b.
Proof.
  revert b. induction a as [|x a IH]; intros [|y b] Hl Hv; simplify_eq/=; [done|].
  pose proof (byte_val_range x). pose proof (byte_val_range y).
  pose proof (le_value_nonneg a). pose proof (le_value_nonneg b).
  f_equal; [apply byte_val_inj; lia|]. apply IH; [done|lia].
Qed.

Lemma le_bytes_of_value n bs : length bs = n → le_bytes n (le_value bs) = bs.
Proof.
  intros <-. apply le_value_inj; [apply length_le_bytes|].
  apply le_bytes_value, le_value_range.
Qed.

(** ** The code *)

Definition CASTAGNOLI : Z := 0x82F63B78.
Definition u32_ones : Z := 0xFFFFFFFF.

(** One step of the inner loop of [crc_table]. *)
Definition crc_bit (c : Z) : Z :=
  if Z.land c 1 =? 0 then Z.shiftr c 1 else Z.lxor CASTAGNOLI (Z.shiftr c 1).

Definition crc_table : list Z := (λ i, Nat.iter 8 crc_bit (Z.of_nat i)) <$> seq 0 256.

Definition CRC_TABLE : list Z := Eval vm_compute in crc_table.

Definition crc_byte (c : Z) (b : byte) : Z :=
  Z.lxor (nth (Z.to_nat (Z.land (Z.lxor c (byte_val b)) 0xff)) CRC_TABLE 0) (Z.shiftr c 8).

Definition crc32c (parts : list bytes) : Z :=
  Z.lxor u32_ones (foldl (foldl crc_byte) u32_ones parts).

(** ** The reference: a shift register, one bit at a time *)

Definition crc_ref_byte (c : Z) (b : byte) : Z := Nat.iter 8 crc_bit (Z.lxor c (byte_val b)).

Definition crc_ref (bs : bytes) : Z := Z.lxor u32_ones (foldl crc_ref_byte u32_ones bs).

Definition is_u32 (c : Z) : Prop := 0 ≤ c < 2 ^ 32.

Lemma crc_bit_testbit c :
  crc_bit c = if Z.testbit c 0 then Z.lxor CASTAGNOLI (Z.shiftr c 1) else Z.shiftr c 1.
Proof.
  unfold crc_bit. change 1 with (Z.ones 1) at 1. rewrite Z.land_ones by lia. change (2 ^ 1) with 2.
  rewrite Z.bit0_odd, Zmod_odd. by destruct (Z.odd c).
Qed.

Lemma crc_bit_lxor a b : crc_bit (Z.lxor a b) = Z.lxor (crc_bit a) (crc_bit b).
Proof.
  rewrite !crc_bit_testbit, Z.lxor_spec, Z.shiftr_lxor.
  destruct (Z.testbit a 0), (Z.testbit b 0); cbn [xorb];
    apply Z.bits_inj'; intros n Hn; rewrite ?Z.lxor_spec;
    destruct (Z.testbit CASTAGNOLI n), (Z.testbit (Z.shiftr a 1) n), (Z.testbit (Z.shiftr b 1) n);
    reflexivity.
Qed.

Lemma crc_iter_lxor k a b :
  Nat.iter k crc_bit (Z.lxor a b) = Z.lxor (Nat.iter k crc_bit a) (Nat.iter k crc_bit b).
Proof. induction k as [|k IH]; [done|]. by rewrite !Nat.iter_succ, IH, crc_bit_lxor. Qed.

Lemma crc_bit_double y : crc_bit (Z.shiftl y 1) = y.
Proof.
  rewrite crc_bit_testbit, Z.shiftl_spec_low by lia.
  rewrite Z.shiftr_shiftl_l by lia. by rewrite Z.shiftl_0_r.
Qed.

Lemma crc_iter_shift k y : Nat.iter k crc_bit (Z.shiftl y (Z.of_nat k)) = y.
Proof.
  revert y. induction k as [|k IH]; intros y; [apply Z.shiftl_0_r|].
  rewrite Nat.iter_succ. replace (Z.of_nat (S k)) with (1 + Z.of_nat k) by lia.
  rewrite <- Z.shiftl_shiftl, IH by lia. apply crc_bit_double.
Qed.

Lemma crc_iter_split k x y :
  Nat.iter k crc_bit (Z.lxor x (Z.shiftl y (Z.of_nat k))) = Z.lxor (Nat.iter k crc_bit x) y.
Proof. by rewrite crc_iter_lxor, crc_iter_shift. Qed.

Lemma low_high x : x = Z.lxor (Z.land x 255) (Z.shiftl (Z.shiftr x 8) 8).
Proof.
  apply Z.bits_inj'. intros n Hn. rewrite Z.lxor_spec, Z.land_spec.
  change 255 with (Z.ones 8). destruct (decide (n < 8)).
  - rewrite Z.ones_spec_low, Z.shiftl_spec_low by lia. by destruct (Z.testbit x n).
  - rewrite Z.ones_spec_high, Z.shiftl_spec_high, Z.shiftr_spec by lia.
    replace (n - 8 + 8) with n by lia. by destruct (Z.testbit x n).
Qed.

Lemma crc_table_nth i : (i < 256)%nat → nth i CRC_TABLE 0 = Nat.iter 8 crc_bit (Z.of_nat i).
Proof.
  intros Hi. change CRC_TABLE with crc_table. unfold crc_table.
  by rewrite nth_lookup, list_lookup_fmap, lookup_seq_lt.
Qed.

Lemma shiftr_lxor_byte c b : Z.shiftr (Z.lxor c (byte_val b)) 8 = Z.shiftr c 8.
Proof.
  rewrite Z.shiftr_lxor, (Z.shiftr_div_pow2 (byte_val b)) by lia.
  rewrite Z.div_small by apply byte_val_range. apply Z.lxor_0_r.
Qed.

(** The table does eight steps at once. *)
Lemma crc_byte_ref c b : crc_byte c b = crc_ref_byte c b.
Proof.
  unfold crc_byte, crc_ref_byte. set (x := Z.lxor c (byte_val b)).
  assert (0 ≤ Z.land x 255 < 256) as Hx.
  { change 255 with (Z.ones 8). rewrite Z.land_ones by lia. apply Z.mod_pos_bound. lia. }
  rewrite crc_table_nth by lia. rewrite Z2Nat.id by lia.
  rewrite (low_high x) at 2. change 8 with (Z.of_nat 8) at 2.
  rewrite crc_iter_split. subst x. by rewrite shiftr_lxor_byte.
Qed.

Lemma crc_concat c parts : foldl (foldl crc_byte) c parts = foldl crc_byte c (concat parts).
Proof.
  revert c. induction parts as [|p ps IH]; intros c; cbn [foldl concat]; [done|].
  by rewrite foldl_app, IH.
Qed.

(** C37.  The table-driven [crc32c] computes the CRC of the concatenated
    parts: the reflected Castagnoli shift register stepped once for each
    bit. *)
Theorem crc32c_is_crc parts : crc32c parts = crc_ref (concat parts).
Proof.
  unfold crc32c, crc_ref. rewrite crc_concat. generalize u32_ones at 2 4 as c.
  induction (concat parts) as [|b bs IH]; intros c; cbn [foldl]; [done|].
  by rewrite crc_byte_ref, IH.
Qed.

(** The test vector of RFC 3720. *)
Example crc32c_known_value : crc32c [replicate 32 x00] = 0x8A9136AA.
Proof. vm_compute. reflexivity. Qed.

(** ** What it detects *)

Lemma shiftr_u32 c : is_u32 c → 0 ≤ Z.shiftr c 1 < 2 ^ 31.
Proof.
  unfold is_u32. intros Hc. rewrite Z.shiftr_div_pow2 by lia. change (2 ^ 1) with 2.
  split; [apply Z.div_pos; lia|]. apply Z.div_lt_upper_bound; lia.
Qed.

Lemma lxor_u32 a b : is_u32 a → is_u32 b → is_u32 (Z.lxor a b).
Proof.
  unfold is_u32. intros Ha Hb. split; [apply Z.lxor_nonneg; lia|].
  destruct (decide (Z.lxor a b = 0)) as [->|Hne]; [lia|].
  assert (0 ≤ Z.lxor a b) by (apply Z.lxor_nonneg; lia).
  apply Z.log2_lt_pow2; [lia|].
  pose proof (Z.log2_lxor a b ltac:(lia) ltac:(lia)).
  assert (∀ x, 0 ≤ x < 2 ^ 32 → Z.log2 x < 32) as Hl.
  { intros x Hx. destruct (decide (x = 0)) as [->|]; [done|]. apply Z.log2_lt_pow2; lia. }
  pose proof (Hl a Ha). pose proof (Hl b Hb). lia.
Qed.

Lemma crc_bit_u32 c : is_u32 c → is_u32 (crc_bit c).
Proof.
  intros Hc. pose proof (shiftr_u32 c Hc). rewrite crc_bit_testbit.
  assert (is_u32 (Z.shiftr c 1)) by (unfold is_u32; lia).
  destruct (Z.testbit c 0); [|done]. apply lxor_u32; [done|done].
Qed.

Lemma crc_iter_u32 k c : is_u32 c → is_u32 (Nat.iter k crc_bit c).
Proof. intros Hc. induction k; [done|]. rewrite Nat.iter_succ. by apply crc_bit_u32. Qed.

(** The step loses nothing: the bit shifted out is the top bit of the result. *)
Lemma crc_bit_top c : is_u32 c → Z.testbit (crc_bit c) 31 = Z.testbit c 0.
Proof.
  intros Hc. pose proof (shiftr_u32 c Hc) as Hs. rewrite crc_bit_testbit.
  assert (Z.testbit (Z.shiftr c 1) 31 = false) as H31.
  { rewrite <- (Z.mod_small (Z.shiftr c 1) (2 ^ 31)) by done. apply Z.mod_pow2_bits_high. lia. }
  destruct (Z.testbit c 0); [|done]. by rewrite Z.lxor_spec, H31.
Qed.

Lemma crc_bit_inj a b : is_u32 a → is_u32 b → crc_bit a = crc_bit b → a = b.
Proof.
  intros Ha Hb He. assert (Z.testbit a 0 = Z.testbit b 0) as H0.
  { rewrite <- !crc_bit_top by done. by rewrite He. }
  rewrite !crc_bit_testbit, H0 in He.
  assert (Z.shiftr a 1 = Z.shiftr b 1) as Hs.
  { destruct (Z.testbit b 0); [|done].
    apply (f_equal (Z.lxor CASTAGNOLI)) in He.
    by rewrite <- !Z.lxor_assoc, Z.lxor_nilpotent, !Z.lxor_0_l in He. }
  rewrite !Z.bit0_odd in H0. rewrite <- !Z.div2_spec in Hs.
  rewrite (Z.div2_odd a), (Z.div2_odd b). by rewrite Hs, H0.
Qed.

Lemma crc_iter_inj k a b :
  is_u32 a → is_u32 b → Nat.iter k crc_bit a = Nat.iter k crc_bit b → a = b.
Proof.
  intros Ha Hb. induction k as [|k IH]; [done|]. rewrite !Nat.iter_succ. intros He.
  apply IH, crc_bit_inj; [by apply crc_iter_u32..|done].
Qed.

Lemma le_value_cons b bs : le_value (b :: bs) = Z.lxor (byte_val b) (Z.shiftl (le_value bs) 8).
Proof.
  cbn [le_value]. rewrite Z.add_nocarry_lxor.
  - f_equal. rewrite Z.shiftl_mul_pow2 by lia. lia.
  - apply Z.bits_inj'. intros n Hn. rewrite Z.land_spec, Z.bits_0.
    replace (256 * le_value bs) with (Z.shiftl (le_value bs) 8)
      by (rewrite Z.shiftl_mul_pow2 by lia; lia).
    destruct (decide (n < 8)).
    + rewrite Z.shiftl_spec_low by lia. apply andb_false_r.
    + rewrite <- (Z.mod_small (byte_val b) (2 ^ 8)) by apply byte_val_range.
      rewrite Z.mod_pow2_bits_high by lia. done.
Qed.

(** Feeding bytes is feeding their little-endian value at once. *)
Lemma crc_word bs c :
  foldl crc_ref_byte c bs = Nat.iter (8 * length bs) crc_bit (Z.lxor c (le_value bs)).
Proof.
  revert c. induction bs as [|b bs IH]; intros c; [by rewrite Z.lxor_0_r|].
  cbn [foldl length]. rewrite IH. unfold crc_ref_byte.
  replace (8 * S (length bs))%nat with (8 * length bs + 8)%nat by lia.
  rewrite Nat.iter_add, le_value_cons, <- Z.lxor_assoc.
  change (Z.shiftl (le_value bs) 8) with (Z.shiftl (le_value bs) (Z.of_nat 8)).
  by rewrite crc_iter_split.
Qed.

Lemma byte_u32 b : is_u32 (byte_val b).
Proof. pose proof (byte_val_range b). unfold is_u32. lia. Qed.

Lemma crc_ref_u32 bs c : is_u32 c → is_u32 (foldl crc_ref_byte c bs).
Proof.
  revert c. induction bs as [|b bs IH]; intros c Hc; [done|]. cbn [foldl]. apply IH.
  apply crc_iter_u32, lxor_u32; [done|apply byte_u32].
Qed.

Lemma crc_ref_inj bs a b :
  is_u32 a → is_u32 b → foldl crc_ref_byte a bs = foldl crc_ref_byte b bs → a = b.
Proof.
  revert a b. induction bs as [|x bs IH]; intros a b Ha Hb He; [done|]. cbn [foldl] in He.
  pose proof (byte_u32 x).
  apply IH in He; [|by apply crc_iter_u32, lxor_u32..].
  apply crc_iter_inj in He; [|by apply lxor_u32..].
  apply (f_equal (λ z, Z.lxor z (byte_val x))) in He.
  by rewrite !Z.lxor_assoc, Z.lxor_nilpotent, !Z.lxor_0_r in He.
Qed.

Lemma crc_burst pre b1 b2 post :
  length b1 = length b2 → (length b1 ≤ 4)%nat →
  crc_ref (pre ++ b1 ++ post) = crc_ref (pre ++ b2 ++ post) → b1 = b2.
Proof.
  intros Hl H4 He. unfold crc_ref in He.
  apply (f_equal (Z.lxor u32_ones)) in He.
  rewrite <- !Z.lxor_assoc, Z.lxor_nilpotent, !Z.lxor_0_l in He.
  rewrite !foldl_app in He. set (c := foldl crc_ref_byte u32_ones pre) in *.
  assert (is_u32 c) as Hc by (apply crc_ref_u32; done).
  apply crc_ref_inj in He; [|by apply crc_ref_u32..].
  rewrite !crc_word, Hl in He.
  assert (∀ b, (length b ≤ 4)%nat → is_u32 (le_value b)) as Hu.
  { intros b Hb. pose proof (le_value_range b).
    pose proof (Z.pow_le_mono_r 256 (Z.of_nat (length b)) 4 ltac:(lia) ltac:(lia)).
    change (256 ^ 4) with (2 ^ 32) in *. unfold is_u32. lia. }
  apply crc_iter_inj in He; [|apply lxor_u32; [done|apply Hu; lia]..].
  apply (f_equal (Z.lxor c)) in He.
  rewrite <- !Z.lxor_assoc, Z.lxor_nilpotent, !Z.lxor_0_l in He.
  by apply le_value_inj.
Qed.
