(* ===== verification/Snapshot.v ===== *)
(** * Raft snapshots ([raft/state_machine.rs]): building and installing

    A snapshot body is the applied log id and the membership, three MVCC
    tables and two trailers, in bincode.  [write_body] writes it a chunk of
    rows at a time, patching each table's count in afterwards; [stream_body]
    reads it back into the ops of one commit.  bincode's reader and writer
    for openraft's types and the trailers' tables are parameters; of
    integers, byte vectors and pairs they are as the source relies on. *)

From stdpp Require Import pretty.
From S2P Require Import Prelude Revision Record KvStore Lease Cache Auth Store.
From S2P Require Import Crc SnapshotPolicy StateMachine.

(** ** Reading and writing values of a stream *)

(** The outcome of [bincode::deserialize_from]: a value and what follows
    it, the stream ended inside it, or its bytes are no value. *)
Inductive Read A :=
| Got (a : A) (rest : bytes)
| Eof
| Bad (msg : string).
Arguments Got {A}.
Arguments Eof {A}.
Arguments Bad {A}.

Class Stream (A : Type) := {
  put_to : A → bytes;
  get_from : bytes → Read A
}.

Class StreamLaws (A : Type) `{Stream A} : Prop := {
  (** A value reads back and nothing after it is read. *)
  get_put a rest : get_from (put_to a ++ rest) = Got a rest;
  (** A stream cut inside a value ends. *)
  get_cut a n : (n < length (put_to a))%nat → get_from (take n (put_to a)) = Eof
}.

Definition take_exact (n : nat) (r : bytes) : Read bytes :=
  if (n <=? length r)%nat then Got (take n r) (drop n r) else Eof.

Definition get_u64 (r : bytes) : Read Z :=
  match take_exact 8 r with
  | Got b rest => Got (le_value b) rest
  | Eof => Eof
  | Bad m => Bad m
  end.

Definition put_bytes (b : bytes) : bytes := le_bytes 8 (Z.of_nat (length b)) ++ b.

Definition get_bytes (r : bytes) : Read bytes :=
  match get_u64 r with
  | Got n rest => take_exact (Z.to_nat n) rest
  | Eof => Eof
  | Bad m => Bad m
  end.

(** A pair [(key, value)] of byte vectors. *)
Definition put_pair (r : bytes * bytes) : bytes := put_bytes r.1 ++ put_bytes r.2.

Definition get_pair (r : bytes) : Read (bytes * bytes) :=
  match get_bytes r with
  | Got k rest =>
      match get_bytes rest with
      | Got v rest => Got (k, v) rest
      | Eof => Eof
      | Bad m => Bad m
      end
  | Eof => Eof
  | Bad m => Bad m
  end.

(** ** The body *)

Definition TRAILER_MAGIC : bytes := str "FETCDTR1".
Definition LEASE_TRAILER_MAGIC : bytes := str "FETCDTR2".

Definition BODY_CHUNK : nat := 128.
Definition BODY_TABLES : list string := [TABLE_KV; TABLE_IDX; TABLE_META].

(** A trailer: its magic, then an optional table set. *)
Definition put_trailer {A} `{Stream (option A)} (magic : bytes) (a : option A) : bytes :=
  magic ++ put_to a.

Definition get_trailer {A} `{Stream (option A)} (r : bytes) : Read (bytes * option A) :=
  match take_exact 8 r with
  | Got magic rest =>
      match get_from rest with
      | Got a rest => Got (magic, a) rest
      | Eof => Eof
      | Bad m => Bad m
      end
  | Eof => Eof
  | Bad m => Bad m
  end.

Abbreviation IoResult := (result string).

(** The next trailer, or [None] if the body ends here. *)
Definition read_trailer {A} `{Stream (option A)} (r : bytes) : IoResult (option (bytes * option A * bytes)) :=
  match get_trailer r with
  | Got (magic, a) rest => Ok (Some (magic, a, rest))
  | Eof => Ok None
  | Bad m => Err m
  end.

(** A [Cursor] over a [Vec]: [Write] and [Seek]. *)
Record Cursor := mkCursor { cur_bytes : bytes; cur_pos : nat }.

Definition write_all (b : bytes) (w : Cursor) : Cursor :=
  mkCursor (take (cur_pos w) (cur_bytes w) ++ b ++ drop (cur_pos w + length b) (cur_bytes w))
    (cur_pos w + length b).

Definition seek (at_ : nat) (w : Cursor) : Cursor := mkCursor (cur_bytes w) at_.

(** One table's loop of reads; each turn but the last starts after a row, so
    the number of rows is enough fuel. *)
Fixpoint write_rows (fuel : nat) (snap : Tables) (table : string) (start : Bound) (n : Z) (w : Cursor)
    : Z * Cursor :=
  let chunk := snap_range snap table start Unbounded BODY_CHUNK in
  let w := foldl (λ w r, write_all (put_pair r) w) w chunk in
  let n := n + Z.of_nat (length chunk) in
  match last chunk, fuel with
  | Some (k, _), S fuel' =>
      if (length chunk =? BODY_CHUNK)%nat
      then write_rows fuel' snap table (Excluded k) n w else (n, w)
  | _, _ => (n, w)
  end.

Definition write_table (snap : Tables) (w : Cursor) (table : string) : Cursor :=
  let count_at := cur_pos w in
  let w := write_all (le_bytes 8 0) w in
  let '(n, w) := write_rows (base.size snap) snap table Unbounded 0 w in
  let end_ := cur_pos w in
  seek end_ (write_all (le_bytes 8 n) (seek count_at w)).

Section body.
Context {Mb : Type} `{MembershipOps Mb}.
Context `{Stream (option LogId)} `{Stream (StoredMembership Mb)}.
Context `{Stream (option AuthTables)} `{Stream (option LeaseTables)}.
Context `{Bincode (option LogId)} `{Bincode (StoredMembership Mb)}.

Record BodySource := mkBodySource {
  bs_snap : Tables;
  bs_last_applied : option LogId;
  bs_membership : StoredMembership Mb;
  bs_auth : AuthTables;
  bs_leases : LeaseTables
}.

Definition write_body (src : BodySource) (w : Cursor) : Cursor :=
  let w := write_all (put_to (bs_last_applied src)) w in
  let w := write_all (put_to (bs_membership src)) w in
  let w := foldl (write_table (bs_snap src)) w BODY_TABLES in
  let w := write_all (put_trailer TRAILER_MAGIC (Some (bs_auth src))) w in
  write_all (put_trailer LEASE_TRAILER_MAGIC (Some (bs_leases src))) w.

Record BodyHeader := mkBodyHeader {
  bh_last_applied : option LogId;
  bh_membership : StoredMembership Mb
}.

(** [deserialize_from], any failure an error. *)
Definition need {A} (r : Read A) : IoResult (A * bytes) :=
  match r with
  | Got a rest => Ok (a, rest)
  | Eof => Err "unexpected end of file"
  | Bad m => Err m
  end.

(** The state of [stream_body] is what it has sent. *)
Abbreviation MW := (prog (list BatchOp) string).

Definition send (op : BatchOp) : MW () := pmodify (λ sent, sent ++ [op]).

(** The rows of one table, [n] of them. *)
Fixpoint stream_rows (n : nat) (table : string) (r : bytes) : MW bytes :=
  match n with
  | O => pret r
  | S n' =>
      let* (row, r) := plift (need (get_pair r)) in
      let* _ := send (OpPut table row.1 row.2) in
      stream_rows n' table r
  end.

Fixpoint stream_tables (tables : list string) (r : bytes) : MW bytes :=
  match tables with
  | [] => pret r
  | table :: tables' =>
      let* (n, r) := plift (need (get_u64 r)) in
      let* r := stream_rows (Z.to_nat n) table r in
      stream_tables tables' r
  end.

Fixpoint send_all (ops : list BatchOp) : MW () :=
  match ops with
  | [] => pret ()
  | op :: ops' => let* _ := send op in send_all ops'
  end.

(** The ops of the trailers, after [tail]. *)
Definition stream_trailers (r : bytes) (current_leases : LeaseTables) (tail : WriteBatch)
    : IoResult WriteBatch :=
  let? t := read_trailer (A := AuthTables) r in
  match t with
  | None => Ok tail
  | Some (magic, auth, r) =>
      if bool_decide (magic ≠ TRAILER_MAGIC) then Err "snapshot trailer has an unknown magic"
      else
        let tail := match auth with Some a => auth_replace_into a tail | None => tail end in
        let? l := read_trailer (A := LeaseTables) r in
        match l with
        | Some (magic, leases, _) =>
            if bool_decide (magic = LEASE_TRAILER_MAGIC)
            then Ok (match leases with
                     | Some ls => lease_replace_into ls current_leases tail
                     | None => tail
                     end)
            else Err "snapshot lease trailer has an unknown magic"
        | None => Ok tail
        end
  end.

Definition stream_body (r : bytes) (current_leases : LeaseTables) : MW BodyHeader :=
  let* (last_applied, r) := plift (need (get_from (A := option LogId) r)) in
  let* (membership, r) := plift (need (get_from (A := StoredMembership Mb) r)) in
  let* _ := send_all ((λ t, OpDeleteRange t [] LAST_KEY) <$> BODY_TABLES) in
  let* r := stream_tables BODY_TABLES r in
  let* a := plift (ok_or (serialize last_applied) "serialize last_applied") in
  let* m := plift (ok_or (serialize membership) "serialize membership") in
  let tail := batch_put TABLE_META META_KEY_RAFT_MEMBERSHIP m
                (batch_put TABLE_META META_KEY_RAFT_APPLIED a WriteBatch_new) in
  let* tail := plift (stream_trailers r current_leases tail) in
  let* _ := send_all tail in
  pret (mkBodyHeader last_applied membership).

(** [stream_content]: [synced] is the outcome of the sync of a received
    file.  What the commit receives ends with an error unless the body was
    read to its end. *)
Definition stream_content (synced : IoResult ()) (r : bytes) (current_leases : LeaseTables)
    : IoResult BodyHeader * list (StorageResult BatchOp) :=
  let abort := Err (Io "the snapshot body could not be read to its end") in
  match synced with
  | Err x => (Err x, [abort])
  | Ok _ =>
      match stream_body r current_leases [] with
      | (Ok h, ops) => (Ok h, Ok <$> ops)
      | (Err x, ops) => (Err x, (Ok <$> ops) ++ [abort])
      end
  end.
End body.
Arguments BodySource : clear implicits.
Arguments mkBodySource {Mb}.
Arguments bs_snap {Mb}.
Arguments bs_last_applied {Mb}.
Arguments bs_membership {Mb}.
Arguments bs_auth {Mb}.
Arguments bs_leases {Mb}.
Arguments BodyHeader : clear implicits.
Arguments mkBodyHeader {Mb}.
Arguments bh_last_applied {Mb}.
Arguments bh_membership {Mb}.

(** ** The state machine's part *)

Definition set_snapshot {E Mb} (m : option (SnapshotMeta Mb)) (sm : Sm E Mb) : Sm E Mb :=
  mkSm (mvcc sm) (last_applied sm) (last_membership sm) m (snapshot_idx sm)
    (batch_progress sm) (applied sm) (proposals sm).
Definition set_snapshot_idx {E Mb} (i : Z) (sm : Sm E Mb) : Sm E Mb :=
  mkSm (mvcc sm) (last_applied sm) (last_membership sm) (current_snapshot sm) i
    (batch_progress sm) (applied sm) (proposals sm).
Definition set_installed {E Mb} (h : BodyHeader Mb) (m : option (SnapshotMeta Mb)) (sm : Sm E Mb)
    : Sm E Mb :=
  mkSm (mvcc sm) (bh_last_applied h) (bh_membership h) m (snapshot_idx sm) (batch_progress sm)
    (next_index (bh_last_applied h)) (proposals sm).

Section machine.
Context {E : Type} `{KvStore E}.
Context `{Bincode KvRecord, Bincode KeyIndex, Bincode LeaseRecord,
          Bincode StoredUser, Bincode StoredRole}.
Context {Mb : Type} `{MembershipOps Mb}.
Context `{Stream (option LogId)} `{Stream (StoredMembership Mb)}.
Context `{Stream (option AuthTables)} `{Stream (option LeaseTables)}.
Context `{Bincode (option LogId)} `{Bincode (StoredMembership Mb)}.

Abbreviation MS := (prog (Sm E Mb) ApplyError).

(** Under the state machine's lock, so no apply is under way. *)
Definition body_source (sm : Sm E Mb) : BodySource Mb :=
  let snap := contents (engine (mvcc sm)) in
  mkBodySource snap (last_applied sm) (last_membership sm) (AuthTables_read snap)
    (LeaseTables_read snap).

(** [build_snapshot] and [write_snapshot].  [persisted]: whether the body
    reached the snapshot directory; if not, it is kept in memory. *)
Definition build_snapshot (persisted : bool) : MS (SnapshotMeta Mb * bytes) :=
  let* sm := pget in
  let source := body_source sm in
  let* _ := pmodify (set_snapshot_idx (snapshot_idx sm + 1)) in
  let meta := mkSnapMeta (bs_last_applied source) (bs_membership source)
                (str ("snap-" +:+ pretty (snapshot_idx sm + 1))) in
  let body := cur_bytes (write_body source (mkCursor [] 0)) in
  let* _ := pmodify (set_snapshot (if persisted then Some meta else None)) in
  pret (meta, body).

(** [begin_receiving_snapshot], given the newest retained one. *)
Definition begin_receiving_snapshot (latest : option (SnapshotMeta Mb)) : MS () :=
  pmodify (set_snapshot latest).

(** [install_snapshot] of a body, given the outcome of syncing the file it
    was received into and of keeping it as the retained snapshot. *)
Definition install_snapshot (meta : SnapshotMeta Mb) (synced : IoResult ()) (body : bytes)
    (retained : IoResult ()) : MS () :=
  let* sm := pget in
  let current_leases := LeaseTables_read (contents (engine (mvcc sm))) in
  let '(header, ops) := stream_content synced body current_leases in
  let* committed := (λ sm, let '(r, st) := install_tables_stream ops (mvcc sm) in
                           (Ok r, set_mvcc st sm)) in
  match header, committed with
  | Err e, _ => pfail (ErrOther ("install snapshot: decode snapshot: " +:+ e))
  | Ok _, Err e => pfail (ErrOther "install snapshot: rebuild mvcc from snapshot")
  | Ok h, Ok _ =>
      let* _ := on_mvcc (call reload_auth) in
      pmodify (set_installed h (if is_ok retained then Some meta else None))
  end.

(** [get_current_snapshot]: [open_body] is what the snapshot directory has
    for a retained snapshot, and [persisted] whether a rebuilt one can be
    kept. *)
Definition get_current_snapshot (open_body : SnapshotMeta Mb → option bytes) (persisted : bool)
    : MS (option (SnapshotMeta Mb * bytes)) :=
  let* sm := pget in
  let rebuild : MS (option (SnapshotMeta Mb * bytes)) :=
    (match last_applied sm with
     | None => pret None
     | Some _ => let* s := build_snapshot persisted in pret (Some s)
     end) in
  match current_snapshot sm with
  | Some meta =>
      match open_body meta with
      | Some body => pret (Some (meta, body))
      | None => let* _ := pmodify (set_snapshot None) in rebuild
      end
  | None => rebuild
  end.
End machine.
