(* ===== verification/SnapshotBody.v ===== *)
(** * Snapshot bodies

    [write_body], which patches counts and reads in chunks, writes the bytes
    of the whole-value encoding; [stream_body] turns those bytes into the
    ops that install the tables, and of a body cut short inside a table it
    makes nothing. *)

From S2P Require Import Prelude Revision Record KvStore Lease Cache Auth Store StoreOpen.
From S2P Require Import Crc SnapshotPolicy StateMachine Snapshot.

(** ** Reading back what was written *)

Lemma take_exact_app n a b : length a = n → take_exact n (a ++ b) = Got a b.
Proof.
  intros Hn. unfold take_exact. rewrite length_app, (proj2 (Nat.leb_le _ _)) by lia.
  by rewrite take_app_length', drop_app_length'.
Qed.

Lemma take_exact_short n r : (length r < n)%nat → take_exact n r = Eof.
Proof. intros Hn. unfold take_exact. by rewrite (proj2 (Nat.leb_gt _ _)). Qed.

Lemma get_u64_put z rest : 0 ≤ z < two64 → get_u64 (le_bytes 8 z ++ rest) = Got z rest.
Proof.
  intros Hz. unfold get_u64. rewrite take_exact_app by apply length_le_bytes.
  by rewrite le_bytes_value.
Qed.

Lemma get_bytes_put b rest :
  Z.of_nat (length b) < two64 → get_bytes (put_bytes b ++ rest) = Got b rest.
Proof.
  intros Hb. unfold get_bytes, put_bytes. rewrite <- app_assoc, get_u64_put by lia.
  by rewrite Nat2Z.id, take_exact_app.
Qed.

(** A row that a body can hold. *)
Definition row_fits (r : bytes * bytes) : Prop :=
  Z.of_nat (length r.1) < two64 ∧ Z.of_nat (length r.2) < two64.

Lemma get_pair_put r rest : row_fits r → get_pair (put_pair r ++ rest) = Got r rest.
Proof.
  intros [H1 H2]. unfold get_pair, put_pair. rewrite <- app_assoc.
  rewrite get_bytes_put by done. rewrite get_bytes_put by done. by destruct r.
Qed.

Lemma get_u64_cut z n : (n < 8)%nat → get_u64 (take n (le_bytes 8 z)) = Eof.
Proof.
  intros Hn. unfold get_u64. rewrite take_exact_short; [done|].
  rewrite length_take, length_le_bytes. lia.
Qed.

Lemma get_bytes_cut b n :
  Z.of_nat (length b) < two64 → (n < length (put_bytes b))%nat →
  get_bytes (take n (put_bytes b)) = Eof.
Proof.
  intros Hb Hn. unfold get_bytes, put_bytes in *. rewrite length_app, length_le_bytes in Hn.
  destruct (decide (n < 8)%nat) as [H8|H8].
  - rewrite take_app_le by (rewrite length_le_bytes; lia). by rewrite get_u64_cut.
  - rewrite take_app_ge by (rewrite length_le_bytes; lia). rewrite get_u64_put by lia.
    rewrite take_exact_short; [done|]. rewrite length_take, length_le_bytes, Nat2Z.id. lia.
Qed.

Lemma get_pair_cut r n :
  row_fits r → (n < length (put_pair r))%nat → get_pair (take n (put_pair r)) = Eof.
Proof.
  intros [H1 H2] Hn. unfold get_pair, put_pair in *. rewrite length_app in Hn.
  destruct (decide (n < length (put_bytes r.1))%nat) as [Hl|Hl].
  - rewrite take_app_le by lia. by rewrite get_bytes_cut.
  - rewrite take_app_ge by lia. rewrite get_bytes_put by done. by rewrite get_bytes_cut by (done || lia).
Qed.

(** ** Writing *)

Definition extend (bs : bytes) (w : Cursor) : Cursor :=
  mkCursor (cur_bytes w ++ bs) (cur_pos w + length bs).

Definition at_end (w : Cursor) : Prop := cur_pos w = length (cur_bytes w).

Lemma extend_end bs w : at_end w → at_end (extend bs w).
Proof. unfold at_end. intros Hw. cbn. by rewrite length_app, Hw. Qed.

Lemma extend_app a b w : extend b (extend a w) = extend (a ++ b) w.
Proof. unfold extend. cbn. by rewrite app_assoc, length_app, Nat.add_assoc. Qed.

Lemma extend_nil w : extend [] w = w.
Proof. unfold extend. destruct w. cbn. by rewrite app_nil_r, Nat.add_0_r. Qed.

Lemma write_all_end bs w : at_end w → write_all bs w = extend bs w.
Proof.
  unfold at_end, write_all, extend. intros ->. rewrite take_ge, drop_ge by lia. by rewrite app_nil_r.
Qed.

Lemma write_rows_end rows w :
  at_end w → foldl (λ w r, write_all (put_pair r) w) w rows = extend (concat (put_pair <$> rows)) w.
Proof.
  revert w. induction rows as [|r rows IH]; intros w Hw; [by rewrite extend_nil|].
  cbn [foldl fmap list_fmap concat]. rewrite write_all_end by done.
  rewrite IH by by apply extend_end. by rewrite extend_app.
Qed.

Lemma chunk_rows {A} (l : list A) : limited BODY_CHUNK l = take BODY_CHUNK l.
Proof. done. Qed.

Definition table_list (ts : Tables) (table : string) : list (bytes * bytes) :=
  map_range Unbounded Unbounded (table_rows table ts).

Lemma write_rows_ok ts table fuel start n w :
  at_end w → (length (map_range start Unbounded (table_rows table ts)) ≤ fuel)%nat →
  let R := map_range start Unbounded (table_rows table ts) in
  write_rows fuel ts table start n w
  = (n + Z.of_nat (length R), extend (concat (put_pair <$> R)) w).
Proof.
  revert start n w. induction fuel as [|fuel IH]; intros start n w Hw; cbn [write_rows];
    unfold snap_range; rewrite chunk_rows;
    set (R := map_range start Unbounded (table_rows table ts)); intros Hlen;
    rewrite write_rows_end by done.
  - assert (R = []) as -> by (apply nil_length_inv; lia). by rewrite take_nil.
  - destruct (take BODY_CHUNK R) as [|r l1 _] eqn:Htake using rev_ind.
    { assert (R = []) as -> by (by destruct R). done. }
    rewrite last_snoc. destruct r as [k v].
    assert (length (take BODY_CHUNK R) = length (l1 ++ [(k, v)])) as Hl by by rewrite Htake.
    rewrite <- Hl, length_take.
    destruct (Nat.eqb_spec (BODY_CHUNK `min` length R) BODY_CHUNK) as [Hn|Hn].
    2:{ rewrite <- Htake, take_ge by lia. f_equal. f_equal. lia. }
    assert (R = l1 ++ (k, v) :: drop BODY_CHUNK R) as HR.
    { rewrite <- (take_drop BODY_CHUNK R) at 1. rewrite Htake, <- app_assoc. done. }
    pose proof (map_range_after _ _ _ _ _ _ _ HR) as Hafter.
    assert (length R = length l1 + S (length (drop BODY_CHUNK R)))%nat as HlenR.
    { rewrite HR at 1. by rewrite length_app. }
    rewrite IH; [|by apply extend_end|rewrite Hafter; lia]. rewrite Hafter, extend_app.
    f_equal; [rewrite length_drop; lia|]. f_equal.
    by rewrite <- Htake, <- concat_app, <- fmap_app, take_drop.
Qed.

(** ** The whole-value encoding *)

Definition table_bytes (ts : Tables) (table : string) : bytes :=
  le_bytes 8 (Z.of_nat (length (table_list ts table)))
  ++ concat (put_pair <$> table_list ts table).

Lemma write_table_ok ts w table :
  at_end w → write_table ts w table = extend (table_bytes ts table) w.
Proof.
  intros Hw. unfold write_table. rewrite write_all_end by done.
  rewrite write_rows_ok; [|by apply extend_end|apply rows_fuel]. cbv zeta.
  fold (table_list ts table). rewrite extend_app, Z.add_0_l.
  set (rows := concat _). unfold seek, write_all, extend. cbn [cur_bytes cur_pos].
  rewrite !length_le_bytes. rewrite Hw. f_equal.
  rewrite take_app_length. f_equal. rewrite drop_app_ge by lia. unfold table_bytes. fold rows. f_equal.
  replace (_ + 8 - _)%nat with 8%nat by lia. by apply drop_app_length'.
Qed.

Section body.
Context {Mb : Type} `{MembershipOps Mb}.
Context `{StreamLaws (option LogId)} `{StreamLaws (StoredMembership Mb)}.
Context `{StreamLaws (option AuthTables)} `{StreamLaws (option LeaseTables)}.

(** [SnapshotBody::write_to]: the payload's fields, then the trailers. *)
Definition payload_bytes (src : BodySource Mb) : bytes :=
  put_to (bs_last_applied src) ++ put_to (bs_membership src)
  ++ concat (table_bytes (bs_snap src) <$> BODY_TABLES).

Definition trailer_bytes (src : BodySource Mb) : bytes :=
  put_trailer TRAILER_MAGIC (Some (bs_auth src))
  ++ put_trailer LEASE_TRAILER_MAGIC (Some (bs_leases src)).

Definition body_bytes (src : BodySource Mb) : bytes := payload_bytes src ++ trailer_bytes src.

Lemma write_tables_ok ts tables w :
  at_end w → foldl (write_table ts) w tables = extend (concat (table_bytes ts <$> tables)) w.
Proof.
  revert w. induction tables as [|t tables IH]; intros w Hw; [by rewrite extend_nil|].
  cbn [foldl fmap list_fmap concat]. rewrite write_table_ok by done.
  rewrite IH by by apply extend_end. by rewrite extend_app.
Qed.

(**  Writing a snapshot a chunk of rows at a time, with each count
    patched in once its rows are written, gives byte for byte the encoding of
    the whole value, which every older member decodes. *)
Theorem write_body_exact (src : BodySource Mb) :
  write_body src (mkCursor [] 0) = mkCursor (body_bytes src) (length (body_bytes src)).
Proof.
  assert (at_end (mkCursor [] 0)) as H0' by done.
  unfold write_body. rewrite (write_all_end (put_to (bs_last_applied src))) by done.
  rewrite (write_all_end (put_to (bs_membership src))) by by apply extend_end.
  rewrite write_tables_ok by (repeat apply extend_end; done).
  rewrite (write_all_end (put_trailer TRAILER_MAGIC _)) by (repeat apply extend_end; done).
  rewrite write_all_end by (repeat apply extend_end; done).
  rewrite !extend_app. unfold extend. cbn [cur_bytes cur_pos app].
  unfold body_bytes, payload_bytes, trailer_bytes. rewrite <- !app_assoc. done.
Qed.

(** ** Installing *)

Context `{BincodeLaws (option LogId)} `{BincodeLaws (StoredMembership Mb)}.

(** A body can hold the source. *)
Definition body_fits (src : BodySource Mb) : Prop :=
  Forall (λ t, Forall row_fits (table_list (bs_snap src) t) ∧
               Z.of_nat (length (table_list (bs_snap src) t)) < two64) BODY_TABLES.

Lemma stream_rows_ok rows table rest sent :
  Forall row_fits rows →
  stream_rows (length rows) table (concat (put_pair <$> rows) ++ rest) sent
  = (Ok rest, sent ++ put_rows table rows).
Proof.
  intros Hf. revert sent. induction Hf as [|r rows Hr Hf IH]; intros sent.
  { cbn. by rewrite app_nil_r. }
  cbn [length stream_rows fmap list_fmap concat]. rewrite <- app_assoc, get_pair_put by done.
  cbn [need]. unfold plift, pbind at 1. unfold send, pmodify, pbind at 1. cbn [fst snd].
  rewrite IH. by rewrite <- app_assoc.
Qed.

Lemma stream_tables_ok ts tables rest sent :
  Forall (λ t, Forall row_fits (table_list ts t) ∧ Z.of_nat (length (table_list ts t)) < two64) tables →
  stream_tables tables (concat (table_bytes ts <$> tables) ++ rest) sent
  = (Ok rest, sent ++ concat ((λ t, put_rows t (table_list ts t)) <$> tables)).
Proof.
  intros Hf. revert sent. induction Hf as [|t tables [Hr Hn] Hf IH]; intros sent.
  { cbn. by rewrite app_nil_r. }
  cbn [stream_tables fmap list_fmap concat]. rewrite <- app_assoc. unfold table_bytes at 1.
  rewrite <- app_assoc, get_u64_put by lia. cbn [need]. unfold plift, pbind at 1.
  unfold pbind at 1. rewrite Nat2Z.id, stream_rows_ok by done. rewrite IH. by rewrite <- app_assoc.
Qed.

Lemma send_all_ok ops sent : send_all ops sent = (Ok (), sent ++ ops).
Proof.
  revert sent. induction ops as [|op ops IH]; intros sent; [cbn; by rewrite app_nil_r|].
  cbn [send_all]. unfold pbind, send, pmodify. rewrite IH. by rewrite <- app_assoc.
Qed.

Lemma read_trailer_ok {A} `{StreamLaws (option A)} magic (a : option A) rest :
  length magic = 8%nat → read_trailer (put_trailer magic a ++ rest) = Ok (Some (magic, a, rest)).
Proof.
  intros Hm. unfold read_trailer, get_trailer, put_trailer. rewrite <- app_assoc.
  rewrite take_exact_app by done. by rewrite get_put.
Qed.

Definition id_rows (src : BodySource Mb) : WriteBatch :=
  [OpPut TABLE_META META_KEY_RAFT_APPLIED (default [] (serialize (bs_last_applied src)));
   OpPut TABLE_META META_KEY_RAFT_MEMBERSHIP (default [] (serialize (bs_membership src)))].

(** The ops of the commit that installs a body. *)
Definition install_ops (src : BodySource Mb) (current : LeaseTables) : WriteBatch :=
  ((λ t, OpDeleteRange t [] LAST_KEY) <$> BODY_TABLES)
  ++ concat ((λ t, put_rows t (table_list (bs_snap src) t)) <$> BODY_TABLES)
  ++ lease_replace_into (bs_leases src) current (auth_replace_into (bs_auth src) (id_rows src)).

Lemma stream_trailers_ok src current tail :
  stream_trailers (trailer_bytes src) current tail
  = Ok (lease_replace_into (bs_leases src) current (auth_replace_into (bs_auth src) tail)).
Proof.
  unfold stream_trailers, trailer_bytes. rewrite read_trailer_ok by done. cbn [res_bind].
  rewrite bool_decide_false by by intros [].
  rewrite <- (app_nil_r (put_trailer LEASE_TRAILER_MAGIC _)), read_trailer_ok by done.
  cbn [res_bind]. by rewrite bool_decide_true.
Qed.

Lemma stream_body_ok src current :
  body_fits src →
  stream_body (body_bytes src) current []
  = (Ok (mkBodyHeader (bs_last_applied src) (bs_membership src)), install_ops src current).
Proof.
  intros Hf. unfold stream_body, body_bytes, payload_bytes. rewrite <- !app_assoc.
  unfold plift. rewrite get_put. cbn [need]. unfold pbind at 1. rewrite get_put. cbn [need].
  unfold pbind at 1. unfold pbind at 1. rewrite send_all_ok.
  unfold pbind at 1. rewrite stream_tables_ok by done.
  destruct (serialize_ok (bs_last_applied src)) as [a Ha].
  destruct (serialize_ok (bs_membership src)) as [m Hm]. rewrite Ha, Hm. cbn [ok_or].
  unfold pbind at 1. unfold pbind at 1. rewrite stream_trailers_ok.
  unfold pbind at 1. unfold pbind at 1. rewrite send_all_ok. unfold pret.
  unfold install_ops, id_rows. rewrite Ha, Hm. cbn [default app]. by rewrite <- !app_assoc.
Qed.

(** ** Bodies cut short *)

(** No prefix of [b] is enough for [m]. *)
Definition fails_short {A} (m : bytes → prog (list BatchOp) string A) (b : bytes) : Prop :=
  ∀ n sent, (n < length b)%nat → ∃ x sent', m (take n b) sent = (Err x, sent').

(** Nor, if [m] reads [b1] and goes on with [k], of [b1 ++ b2]. *)
Lemma fails_short_bind {A B} m (k : A → bytes → prog (list BatchOp) string B)
    (step : bytes → prog (list BatchOp) string (A * bytes)) b1 b2 a :
  (∀ r sent, m r sent = pbind (step r) (λ x, k x.1 x.2) sent) →
  fails_short step b1 →
  (∀ rest sent, ∃ sent', step (b1 ++ rest) sent = (Ok (a, rest), sent')) →
  fails_short (k a) b2 →
  fails_short m (b1 ++ b2).
Proof.
  intros Hm H1' Hok H2' n sent Hn. rewrite Hm. unfold pbind.
  destruct (decide (n < length b1)%nat) as [Hl|Hl].
  - rewrite take_app_le by lia. destruct (H1' n sent Hl) as (x & sent' & ->). by eauto.
  - rewrite take_app_ge by lia. destruct (Hok (take (n - length b1) b2) sent) as (sent' & ->).
    apply H2'. rewrite length_app in Hn. lia.
Qed.

Lemma need_short {A} `{StreamLaws A} (a : A) : fails_short (λ r, plift (need (get_from r))) (put_to a).
Proof. intros n sent Hn. unfold plift. rewrite get_cut by done. cbn. by eauto. Qed.

Lemma rows_short rows table :
  Forall row_fits rows →
  fails_short (stream_rows (length rows) table) (concat (put_pair <$> rows)).
Proof.
  induction 1 as [|r rows Hr Hf IH]; [intros n sent Hn; cbn in Hn; lia|].
  cbn [fmap list_fmap concat length]. eapply (fails_short_bind _
    (λ row rest, pbind (send (OpPut table row.1 row.2)) (λ _, stream_rows (length rows) table rest))
    (λ r, plift (need (get_pair r)))).
  - intros r' sent. cbn [stream_rows]. unfold pbind, plift.
    by destruct (need (get_pair r')) as [[row rest]|].
  - intros n sent Hn. unfold plift. rewrite get_pair_cut by done. cbn. by eauto.
  - intros rest sent. unfold plift. rewrite get_pair_put by done. by eauto.
  - intros n sent Hn. unfold pbind, send, pmodify. by apply IH.
Qed.

Lemma tables_short ts tables :
  Forall (λ t, Forall row_fits (table_list ts t) ∧ Z.of_nat (length (table_list ts t)) < two64) tables →
  fails_short (stream_tables tables) (concat (table_bytes ts <$> tables)).
Proof.
  induction 1 as [|t tables [Hr Hn] Hf IH]; [intros n sent Hn; cbn in Hn; lia|].
  cbn [fmap list_fmap concat]. unfold table_bytes at 1. rewrite <- app_assoc.
  eapply (fails_short_bind _ (λ n rest, pbind (stream_rows (Z.to_nat n) t rest) (stream_tables tables))
    (λ r, plift (need (get_u64 r)))).
  - intros r sent. cbn [stream_tables]. unfold pbind, plift. by destruct (need (get_u64 r)) as [[n rest]|].
  - intros n sent Hl. rewrite length_le_bytes in Hl. unfold plift. rewrite get_u64_cut by done.
    cbn. by eauto.
  - intros rest sent. unfold plift. rewrite get_u64_put by lia. by eauto.
  - rewrite Nat2Z.id. eapply (fails_short_bind _ (λ _ : (), stream_tables tables)
      (λ r sent, match stream_rows (length (table_list ts t)) t r sent with
                 | (Ok rest, s) => (Ok ((), rest), s) | (Err x, s) => (Err x, s) end)).
    + intros r sent. unfold pbind. by destruct (stream_rows _ t r sent) as [[rest|x] s].
    + intros n sent Hl. destruct (rows_short _ t Hr n sent Hl) as (x & s & ->). by eauto.
    + intros rest sent. rewrite stream_rows_ok by done. by eauto.
    + exact IH.
Qed.

Lemma fails_short_then {A B} m (k : A → prog (list BatchOp) string B) b :
  fails_short m b → fails_short (λ r, pbind (m r) k) b.
Proof. intros Hm n sent Hn. unfold pbind. destruct (Hm n sent Hn) as (x & s & ->). by eauto. Qed.

Lemma pbind_pair {A B} (m : prog (list BatchOp) string (A * bytes))
    (k : A → bytes → prog (list BatchOp) string B) sent :
  pbind m (λ '(a, r), k a r) sent = pbind m (λ x, k x.1 x.2) sent.
Proof. unfold pbind. by destruct (m sent) as [[[a r]|x] s]. Qed.

(** A body cut anywhere before its trailers is refused. *)
Lemma payload_short src current : body_fits src → fails_short (λ r, stream_body r current) (payload_bytes src).
Proof.
  intros Hf. unfold payload_bytes.
  eapply (fails_short_bind _ _ (λ r, plift (need (get_from (A := option LogId) r)))).
  - intros r sent. apply pbind_pair.
  - apply need_short.
  - intros rest sent. unfold plift. rewrite get_put. by eauto.
  - eapply (fails_short_bind _ _
      (λ r, plift (need (get_from (A := StoredMembership Mb) r)))).
    + intros r sent. apply pbind_pair.
    + apply need_short.
    + intros rest sent. unfold plift. rewrite get_put. by eauto.
    + cbn [fst snd]. intros n sent Hn. unfold pbind at 1. rewrite send_all_ok.
      by apply (fails_short_then _ _ _ (tables_short _ _ Hf)).
Qed.

Lemma cut_body_short src current n :
  body_fits src → (n < length (payload_bytes src))%nat →
  ∃ x ops, stream_body (take n (body_bytes src)) current [] = (Err x, ops).
Proof.
  intros Hf Hn. unfold body_bytes. rewrite take_app_le by lia. by apply payload_short.
Qed.
End body.
