(* ===== verification/SnapshotInstall.v ===== *)
(** * Installing a snapshot

    What a follower holds once it has installed a body: the rows of the
    member that wrote it, and its position in the log; and what it holds when
    the body, or its engine, fails. *)

From stdpp Require Import pretty.
From S2P Require Import Prelude Revision Record KvStore Lease Cache Auth Store StoreCore.
From S2P Require Import StoreSpec StoreInv StoreApply StoreCommit StoreOpen StoreDemo StoreWrite.
From S2P Require Import StoreRead StoreTxn StoreMany StoreCompact StoreSide StoreLease StoreMeta.
From S2P Require Import StoreTwin StorePlan SnapshotPolicy StateMachine SmSteps SmTwin SmReplay.
From S2P Require Import SmLog SmDemo SmOnce SmAgree Crc Snapshot SnapshotBody.

(** ** The rows a body leaves *)

(** The ops never name the table. *)
Definition avoids (t : string) (b : WriteBatch) : Prop := ∀ op, op ∈ b → op_table op ≠ t.

Lemma avoids_app t b1 b2 : avoids t b1 → avoids t b2 → avoids t (b1 ++ b2).
Proof. unfold avoids. set_solver. Qed.
Lemma avoids_cons t op b : op_table op ≠ t → avoids t b → avoids t (op :: b).
Proof. unfold avoids. set_solver. Qed.
Lemma avoids_nil t : avoids t [].
Proof. intros op. by rewrite elem_of_nil. Qed.
Lemma avoids_put t t' rows : t' ≠ t → avoids t (put_rows t' rows).
Proof. intros Ht op Hop. by rewrite (put_rows_table _ _ _ Hop). Qed.
Lemma avoids_delete t t' rows : t' ≠ t → avoids t (delete_rows t' rows).
Proof. intros Ht op Hop. by rewrite (delete_rows_table _ _ _ Hop). Qed.

Create HintDb avoid.
#[local] Hint Resolve avoids_app avoids_cons avoids_nil avoids_put avoids_delete : avoid.
#[local] Hint Extern 1 (_ ≠ _) => first [done | congruence] : avoid.

Lemma avoided b ts t k : avoids t b → apply_batch b ts !! (t, k) = ts !! (t, k).
Proof. apply apply_batch_other. Qed.

(** A given table is not among some given ones. *)
Ltac other_table := refine (bool_decide_unpack _ _); vm_compute; exact I.

(** Every key of the table is in the range an install clears. *)
Definition clears (ts : Tables) (t : string) : Prop :=
  ∀ k, is_Some (ts !! (t, k)) → in_del_range [] LAST_KEY k = true.

Definition AUTH_TABLES : list string := [TABLE_AUTH_USERS; TABLE_AUTH_ROLES; TABLE_AUTH_STATE].

Definition clearable (ts : Tables) : Prop := ∀ t, t ∈ BODY_TABLES ++ AUTH_TABLES → clears ts t.

Lemma table_list_lookup ts t k :
  (list_to_map (table_list ts t) : gmap bytes bytes) !! k = ts !! (t, k).
Proof.
  assert (NoDup (table_list ts t).*1) as Hnd by apply key_sorted_NoDup, map_range_sorted.
  apply option_eq. intros v. rewrite <- elem_of_list_to_map by done.
  unfold table_list. rewrite elem_of_map_range, table_rows_lookup. naive_solver.
Qed.

Lemma replaced (t : string) (src ts : Tables) b1 b2 b3 k :
  avoids t b1 → avoids t b2 → avoids t b3 → clears ts t →
  apply_batch (b1 ++ [OpDeleteRange t [] LAST_KEY] ++ b2 ++ put_rows t (table_list src t) ++ b3) ts
    !! (t, k) = src !! (t, k).
Proof.
  intros H1 H2 H3 Hc. rewrite adopt_table; [apply table_list_lookup|..].
  - apply key_sorted_NoDup, map_range_sorted.
  - unfold avoids in *. naive_solver.
  - apply Hc.
Qed.

Section rows.
Context {Mb : Type} `{MembershipOps Mb}.
Context `{Bincode (option LogId)} `{Bincode (StoredMembership Mb)}.

(** The rows of a source that the state machine wrote. *)
Definition from_tables (src : BodySource Mb) : Prop :=
  bs_auth src = AuthTables_read (bs_snap src) ∧ bs_leases src = LeaseTables_read (bs_snap src).

Lemma install_parts (src : BodySource Mb) cur :
  install_ops src cur
  = ((λ t, OpDeleteRange t [] LAST_KEY) <$> BODY_TABLES)
    ++ concat ((λ t, put_rows t (table_list (bs_snap src) t)) <$> BODY_TABLES)
    ++ id_rows src ++ auth_replace_into (bs_auth src) [] ++ lease_replace_into (bs_leases src) cur [].
Proof.
  unfold install_ops, lease_replace_into, auth_replace_into. rewrite <- !app_assoc. done.
Qed.

Lemma avoids_lease t l cur : t ≠ TABLE_LEASE → t ≠ TABLE_LEASE_KEYS → avoids t (lease_replace_into l cur []).
Proof. intros. unfold lease_replace_into. auto 10 with avoid. Qed.

Lemma avoids_auth t a : t ∉ AUTH_TABLES → avoids t (auth_replace_into a []).
Proof.
  intros Ht. unfold AUTH_TABLES in Ht. rewrite !not_elem_of_cons in Ht.
  destruct Ht as (? & ? & ? & _). unfold auth_replace_into. auto 10 with avoid.
Qed.

(** Of the tables of the body, all but the position's two rows. *)
Lemma install_body (src : BodySource Mb) cur ts t k :
  t ∈ BODY_TABLES → clears ts t →
  (t = TABLE_META → k ≠ META_KEY_RAFT_APPLIED ∧ k ≠ META_KEY_RAFT_MEMBERSHIP) →
  apply_batch (install_ops src cur) ts !! (t, k) = bs_snap src !! (t, k).
Proof.
  intros Ht Hc Hk. rewrite install_parts. rewrite app_assoc, apply_batch_app.
  set (ts1 := apply_batch (_ ++ _) ts).
  assert (ts1 !! (t, k) = bs_snap src !! (t, k)) as H1'.
  { unfold ts1, BODY_TABLES in *. cbn [fmap list_fmap concat]. rewrite app_nil_r.
    set (p1 := put_rows TABLE_KV _). set (p2 := put_rows TABLE_IDX _). set (p3 := put_rows TABLE_META _).
    set (d1 := OpDeleteRange TABLE_KV _ _). set (d2 := OpDeleteRange TABLE_IDX _ _).
    set (d3 := OpDeleteRange TABLE_META _ _).
    repeat (apply elem_of_cons in Ht as [->|Ht]); [..|by apply elem_of_nil in Ht].
    - apply (replaced _ (bs_snap src) ts [] [d2; d3] (p2 ++ p3)); subst d1 d2 d3 p1 p2 p3; auto with avoid.
    - replace ([d1; d2; d3] ++ p1 ++ p2 ++ p3) with ([d1] ++ [d2] ++ (d3 :: p1) ++ p2 ++ p3) by done.
      apply (replaced _ (bs_snap src)); subst d1 d2 d3 p1 p2 p3; auto with avoid.
    - replace ([d1; d2; d3] ++ p1 ++ p2 ++ p3)
        with ([d1; d2] ++ [d3] ++ (p1 ++ p2) ++ p3 ++ [])
        by (rewrite app_nil_r, <- (app_assoc p1); done).
      apply (replaced _ (bs_snap src)); subst d1 d2 d3 p1 p2 p3; auto with avoid. }
  rewrite app_assoc, apply_batch_app, (apply_batch_app (id_rows src)).
  rewrite apply_batch_other.
  2:{ apply avoids_lease; unfold BODY_TABLES in Ht; set_solver. }
  rewrite apply_batch_other.
  2:{ apply avoids_auth; unfold BODY_TABLES, AUTH_TABLES in *; set_solver. }
  unfold id_rows. rewrite <- H1'. cbn. rewrite !lookup_insert_ne; [done|naive_solver..].
Qed.

Lemma avoids_payload src t :
  t ∉ BODY_TABLES →
  avoids t (((λ t, OpDeleteRange t [] LAST_KEY) <$> BODY_TABLES)
            ++ concat ((λ t, put_rows t (table_list (bs_snap src) t)) <$> BODY_TABLES)
            ++ id_rows src).
Proof.
  intros Ht. unfold BODY_TABLES in *. rewrite !not_elem_of_cons in Ht.
  destruct Ht as (? & ? & ? & _). cbn [fmap list_fmap concat]. unfold id_rows. auto 20 with avoid.
Qed.

Lemma install_auth (src : BodySource Mb) cur ts t k :
  from_tables src → t ∈ AUTH_TABLES → clears ts t →
  apply_batch (install_ops src cur) ts !! (t, k) = bs_snap src !! (t, k).
Proof.
  intros [Ha _] Ht Hc. rewrite install_parts, !app_assoc, apply_batch_app.
  rewrite apply_batch_other by (apply avoids_lease; unfold AUTH_TABLES in Ht; set_solver).
  rewrite apply_batch_app. rewrite <- app_assoc. set (pre := _ ++ _ ++ id_rows src).
  assert (avoids t pre) as Hpre.
  { apply avoids_payload. unfold AUTH_TABLES, BODY_TABLES in *. set_solver. }
  rewrite <- apply_batch_app, Ha. unfold auth_replace_into, AuthTables_read, snap_range, limited. cbn [at_users at_roles at_state app].
  repeat change (map_range Unbounded Unbounded (table_rows ?t ?ts)) with (table_list ts t).
  set (p1 := put_rows TABLE_AUTH_USERS _). set (p2 := put_rows TABLE_AUTH_ROLES _).
  set (p3 := put_rows TABLE_AUTH_STATE _).
  set (d1 := OpDeleteRange TABLE_AUTH_USERS _ _). set (d2 := OpDeleteRange TABLE_AUTH_ROLES _ _).
  set (d3 := OpDeleteRange TABLE_AUTH_STATE _ _).
  unfold AUTH_TABLES in Ht.
  repeat (apply elem_of_cons in Ht as [->|Ht]); [..|by apply elem_of_nil in Ht].
  - apply (replaced _ (bs_snap src) ts pre [d2; d3] (p2 ++ p3)); subst d1 d2 d3 p1 p2 p3; auto with avoid.
  - replace (pre ++ d1 :: d2 :: d3 :: p1 ++ p2 ++ p3)
      with ((pre ++ [d1]) ++ [d2] ++ (d3 :: p1) ++ p2 ++ p3) by by rewrite <- app_assoc.
    apply (replaced _ (bs_snap src)); subst d1 d2 d3 p1 p2 p3; auto with avoid.
  - replace (pre ++ d1 :: d2 :: d3 :: p1 ++ p2 ++ p3)
      with ((pre ++ [d1; d2]) ++ [d3] ++ (p1 ++ p2) ++ p3 ++ [])
      by (rewrite app_nil_r, <- (app_assoc p1), <- app_assoc; done).
    apply (replaced _ (bs_snap src)); subst d1 d2 d3 p1 p2 p3; auto with avoid.
Qed.

Lemma lease_table_rows ts1 ts2 t :
  snap_range ts1 t Unbounded Unbounded 0 = snap_range ts2 t Unbounded Unbounded 0 ↔
  ∀ k, ts1 !! (t, k) = ts2 !! (t, k).
Proof.
  split.
  - intros Heq k. rewrite <- !table_list_lookup. by apply (f_equal (λ l, (list_to_map l : gmap _ _) !! k)) in Heq.
  - intros Heq. unfold snap_range, limited. f_equal. apply map_eq. intros k. by rewrite !table_rows_lookup.
Qed.

Lemma install_leases (src : BodySource Mb) ts t k :
  from_tables src → t = TABLE_LEASE ∨ t = TABLE_LEASE_KEYS →
  apply_batch (install_ops src (LeaseTables_read ts)) ts !! (t, k) = bs_snap src !! (t, k).
Proof.
  intros [_ Hl] Ht. rewrite install_parts, !app_assoc, apply_batch_app.
  set (ts1 := apply_batch _ ts).
  assert (∀ t k, t = TABLE_LEASE ∨ t = TABLE_LEASE_KEYS → ts1 !! (t, k) = ts !! (t, k)) as Hsame.
  { intros t' k' Ht'. unfold ts1. rewrite apply_batch_app, !apply_batch_other; [done|..].
    - rewrite <- app_assoc. apply avoids_payload. by destruct Ht' as [->| ->]; other_table.
    - apply avoids_auth. by destruct Ht' as [->| ->]; other_table. }
  assert (LeaseTables_read ts = LeaseTables_read ts1) as ->.
  { unfold LeaseTables_read. f_equal; apply lease_table_rows; intros k'; symmetry; apply Hsame; auto. }
  destruct (lease_replace_exact (bs_leases src) ts1) as [Hr _].
  1,2: rewrite Hl; apply map_range_sorted.
  rewrite Hl in Hr at 2.
  destruct Ht as [->| ->]; revert k; apply lease_table_rows;
    [exact (f_equal lt_leases Hr)|exact (f_equal lt_keys Hr)].
Qed.

Lemma install_ids (src : BodySource Mb) cur ts :
  apply_batch (install_ops src cur) ts !! (TABLE_META, META_KEY_RAFT_APPLIED)
    = Some (default [] (serialize (bs_last_applied src))) ∧
  apply_batch (install_ops src cur) ts !! (TABLE_META, META_KEY_RAFT_MEMBERSHIP)
    = Some (default [] (serialize (bs_membership src))).
Proof.
  rewrite install_parts, !app_assoc, apply_batch_app, (apply_batch_app _ (auth_replace_into _ _)).
  rewrite !(apply_batch_other (lease_replace_into _ _ _)) by by apply avoids_lease.
  rewrite !(apply_batch_other (auth_replace_into _ _)) by (apply avoids_auth; other_table).
  rewrite apply_batch_app. unfold id_rows. cbn. by rewrite lookup_insert_ne, !lookup_insert_eq by done.
Qed.
End rows.

(** ** What an install leaves *)

Lemma collect_all ops acc : collect_ops (Ok <$> ops) acc = Ok (acc ++ ops).
Proof.
  revert acc. induction ops as [|op ops IH]; intros acc; cbn; [by rewrite app_nil_r|].
  rewrite IH. by rewrite <- app_assoc.
Qed.
Lemma collect_abort ops x acc : collect_ops ((Ok <$> ops) ++ [Err x]) acc = Err x.
Proof. revert acc. induction ops as [|op ops IH]; intros acc; cbn; [done|apply IH]. Qed.

Section install.
Context {Mb : Type} `{MembershipOps Mb}.
Context `{StreamLaws (option LogId)} `{StreamLaws (StoredMembership Mb)}.
Context `{StreamLaws (option AuthTables)} `{StreamLaws (option LeaseTables)}.
Context `{BincodeLaws (option LogId)} `{BincodeLaws (StoredMembership Mb)}.
Context `{BincodeLaws KvRecord, BincodeLaws KeyIndex, BincodeLaws LeaseRecord}.
Context `{BincodeLaws StoredUser, BincodeLaws StoredRole}.
Context {E1 E2 : Type} `{KvStoreLaws E1} `{KvStoreLaws E2}.

(** The position a body carries. *)
Definition source_pos (src : BodySource Mb) : Pos Mb :=
  mkPos (bs_last_applied src) (bs_membership src)
    (bs_snap src !! (TABLE_META, META_KEY_RAFT_BATCH) ≫= decode_progress).

Definition installed (src : BodySource Mb) (ts : Tables) : Tables :=
  apply_batch (install_ops src (LeaseTables_read ts)) ts.

Lemma body_source_tables (sm : Sm E1 Mb) : from_tables (body_source sm).
Proof. done. Qed.

Lemma installed_rows src ts :
  from_tables src → clearable ts → same_rows (installed src ts) (bs_snap src).
Proof.
  intros Hs Hc t k [Ht|[-> Hk]].
  - unfold data_table in Ht. apply bool_decide_eq_true in Ht.
    assert (t ∈ BODY_TABLES ∧ t ≠ TABLE_META ∨ t ∈ AUTH_TABLES ∨ (t = TABLE_LEASE ∨ t = TABLE_LEASE_KEYS))
      as [[Hb Hm]|[Ha|Hl]].
    { repeat (apply elem_of_cons in Ht as [->|Ht]); [..|by apply elem_of_nil in Ht]; auto.
      all: unfold BODY_TABLES, AUTH_TABLES; set_solver. }
    + apply install_body; [done|apply Hc; set_solver|done].
    + apply install_auth; [done..|apply Hc; set_solver].
    + by apply install_leases.
  - apply install_body; [by repeat constructor| |].
    + apply Hc. by repeat constructor.
    + intros _. split; intros ->; by apply Hk; auto using raft_applied_key, raft_membership_key.
Qed.

Lemma installed_shows src ts :
  clears ts TABLE_META → shows (installed src ts) (source_pos src).
Proof.
  intros Hc. unfold shows, installed. destruct (install_ids src (LeaseTables_read ts) ts) as [-> ->].
  destruct (serialize_ok (bs_last_applied src)) as [a Ha].
  destruct (serialize_ok (bs_membership src)) as [m Hm]. rewrite Ha, Hm. cbn [default p_id p_mb p_bp source_pos].
  split_and!; [by apply deserialize_serialize..|].
  by rewrite install_body by (done || by repeat constructor).
Qed.

(** Committing a whole body, or failing to. *)
Lemma install_tables_ok (st : Inner E2) ops r st' (ref : Inner E1) :
  store_inv st → store_inv ref → same_rows (apply_batch ops (contents (engine st))) (contents (engine ref)) →
  (cluster_id ref = 0 → cluster_id st = 0) →
  install_tables_stream (Ok <$> ops) st = (r, st') →
  match r with
  | Ok _ => twins st' ref ∧ contents (engine st') = apply_batch ops (contents (engine st)) ∧
            pending_raft_meta st' = pending_raft_meta st
  | Err _ => contents (engine st') = contents (engine st) ∨
             contents (engine st') = apply_batch ops (contents (engine st))
  end.
Proof.
  intros Hst Href Hsame Hcl. unfold install_tables_stream, commit_stream. rewrite collect_all.
  change (WriteBatch_new ++ ops) with ops.
  unfold pbind. destruct (commit ops WriteOptions_default (engine st)) as [[[]|x] e] eqn:Hc.
  2:{ cbn. intros [= <- <-]. cbn. by eapply commit_err. }
  pose proof (commit_ok _ _ _ _ Hc) as He. cbv beta iota.
  assert (disk_inv (contents e)) as Hd.
  { rewrite He. apply (same_rows_disk (contents (engine ref))); [by symmetry|by apply store_disk_inv]. }
  destruct (reload_ok (set_engine e st)) as (st2 & -> & Hi & He2 & _ & _ & Hp).
  - done.
  - apply (si_cache _ Hst).
  - apply (si_commits _ Hst).
  - apply (si_pending _ Hst).
  - intros o Ho H0'. apply Hcl. destruct (si_cluster _ Href) as (o' & Ho' & <-).
    change (engine (set_engine e st)) with e in Ho. rewrite He, (read_u64_same _ _ _ Hsame) in Ho; auto with twin.
    rewrite Ho' in Ho. by injection Ho as ->.
  - intros [= <- <-]. rewrite He2. cbn. split_and!; [split; [done..|]|done|done].
    rewrite He2. cbn. by rewrite He.
Qed.

(** Whether the tables turn authentication on. *)
Definition auth_on (ts : Tables) : bool :=
  match ts !! (TABLE_AUTH_STATE, META_AUTH_ENABLED) with Some b => flag_set b | None => false end.

(** What a member is once it has installed the source's body. *)
Record adopted (sm : Sm E1 Mb) (sm' : Sm E2 Mb) : Prop := {
  ad_paired : paired sm' sm;
  ad_applied : applied sm' = next_index (last_applied sm);
  ad_shows : shows (eff (mvcc sm')) (source_pos (body_source sm));
  ad_auth : am_enabled (auth (mvcc sm')) = auth_on (contents (engine (mvcc sm)))
}.

Lemma reload_auth_adopts (src : Sm E1 Mb) (sm : Sm E2 Mb) st (kept : option (SnapshotMeta Mb)) :
  twins st (mvcc src) → contents (engine st) = installed (body_source src) (contents (engine (mvcc sm))) →
  clearable (contents (engine (mvcc sm))) → pending_raft_meta st = [] →
  let h := mkBodyHeader (last_applied src) (last_membership src) in
  let (r, sm') := (let* _ := on_mvcc (call reload_auth) in pmodify (set_installed h kept)) (set_mvcc st sm) in
  r = Ok () ∧ adopted src sm' ∧ current_snapshot sm' = kept.
Proof.
  intros [L R Hs] Hc Hclr Hp. cbn. split_and!; [done| |done]. split; cbn; [|done| |].
  - split; [|done]. split; cbn; [split; apply L|done|done].
  - change (shows (eff st) (source_pos (body_source src))). unfold eff. rewrite Hp, Hc.
    apply installed_shows, Hclr. by repeat constructor.
  - unfold snap_get, auth_on. by rewrite Hs by (left; by vm_compute).
Qed.

Lemma build_body persisted (src src' : Sm E1 Mb) meta body :
  build_snapshot persisted src = (Ok (meta, body), src') →
  body = body_bytes (body_source src) ∧ mvcc src' = mvcc src ∧ applied_state src' = applied_state src ∧
  meta = mkSnapMeta (last_applied src) (last_membership src) (meta_snapshot_id meta).
Proof.
  unfold build_snapshot, pbind, pget, pmodify, pret. rewrite write_body_exact. cbn.
  intros [= <- <- <-]. done.
Qed.

(** C7.  A follower that installs the snapshot another member built, in
    whatever state it was itself, ends with that member's rows in every replicated
    table, at its position in the log and with its authentication switch, in
    RAM and on disk alike, so that from there the two apply the log alike.
    If the engine fails, the disk holds the follower's rows as they were or
    the installed ones with their position, never a mixture. *)
Theorem install_adopts persisted (src src' : Sm E1 Mb) (sm sm' : Sm E2 Mb) meta body retained r :
  build_snapshot persisted src = (Ok (meta, body), src') →
  store_inv (mvcc src) → store_inv (mvcc sm) → pending_raft_meta (mvcc sm) = [] →
  clearable (contents (engine (mvcc sm))) → body_fits (body_source src) →
  (cluster_id (mvcc src) = 0 → cluster_id (mvcc sm) = 0) →
  install_snapshot meta (Ok ()) body retained sm = (r, sm') →
  match r with
  | Ok _ => adopted src sm' ∧
            current_snapshot sm' = if is_ok retained then Some meta else None
  | Err _ =>
      let disk := contents (engine (mvcc sm')) in
      applied_state sm' = applied_state sm ∧
      (disk = contents (engine (mvcc sm)) ∨
       same_rows disk (contents (engine (mvcc src))) ∧ shows disk (source_pos (body_source src)))
  end.
Proof.
  intros [-> _]%build_body Hsrc Hsm Hp Hclr Hfit Hcl. unfold install_snapshot, stream_content. unfold pbind at 1, pget.
  rewrite stream_body_ok by done. cbv beta iota.
  assert (same_rows (installed (body_source src) (contents (engine (mvcc sm)))) (contents (engine (mvcc src))))
    as Hsame by by apply (installed_rows (body_source src)).
  unfold pbind at 1. destruct (install_tables_stream _ (mvcc sm)) as [o st] eqn:Hi.
  apply (install_tables_ok _ _ _ _ (mvcc src)) in Hi; [|done..].
  destruct o as [u|x]; cbv beta iota.
  - destruct Hi as (Htw & Hc & Hpend). rewrite Hp in Hpend.
    pose proof (reload_auth_adopts src sm st (if is_ok retained then Some meta else None) Htw Hc Hclr Hpend) as Ha.
    cbv zeta in Ha. intros Hrun. unfold body_source in Hrun. cbn [bs_last_applied bs_membership] in Hrun.
    rewrite Hrun in Ha. by destruct Ha as (-> & ? & ?).
  - intros [= <- <-]. cbn. split; [done|]. destruct Hi as [->| ->]; [by left|right]. split; [done|].
    apply installed_shows, Hclr. by repeat constructor.
Qed.

(** ** Bodies that are not whole *)

(** C40.  A body cut off anywhere before its trailers is refused, and changes
    nothing: neither the disk nor what the member holds in RAM. *)
Theorem cut_body_refused (src : BodySource Mb) (sm : Sm E2 Mb) meta retained n :
  body_fits src → (n < length (payload_bytes src))%nat →
  ∃ x, install_snapshot meta (Ok ()) (take n (body_bytes src)) retained sm = (Err x, sm).
Proof.
  intros Hf Hn. unfold install_snapshot, stream_content. unfold pbind at 1, pget.
  destruct (cut_body_short src (LeaseTables_read (contents (engine (mvcc sm)))) n Hf Hn) as (x & ops & ->).
  unfold pbind, install_tables_stream, commit_stream. rewrite collect_abort. unfold pbind. cbn.
  eexists. f_equal. destruct sm as [[] ? ? ? ? ? ? ?]. reflexivity.
Qed.

Lemma read_trailer_cut {A} `{StreamLaws (option A)} magic (a : option A) n :
  length magic = 8%nat → (n < length (put_trailer magic a))%nat →
  read_trailer (A := A) (take n (put_trailer magic a)) = Ok None.
Proof.
  intros Hm Hn. unfold read_trailer, get_trailer, put_trailer in *. rewrite length_app in Hn.
  destruct (decide (n < 8)%nat) as [Hl|Hl].
  - rewrite take_app_le by lia. by rewrite take_exact_short by (rewrite length_take; lia).
  - rewrite take_app_ge by lia. rewrite take_exact_app by done. by rewrite get_cut by lia.
Qed.

(** A body cut off inside its first trailer is taken for one from a member
    that writes none: it is installed, and the member keeps its own users,
    roles and leases beside the sender's keys. *)
Theorem cut_trailer_accepted (src : BodySource Mb) current n :
  body_fits src → (n < length (put_trailer TRAILER_MAGIC (Some (bs_auth src))))%nat →
  stream_content (Ok ()) (take (length (payload_bytes src) + n) (body_bytes src)) current
  = (Ok (mkBodyHeader (bs_last_applied src) (bs_membership src)),
     Ok <$> ((λ t, OpDeleteRange t [] LAST_KEY) <$> BODY_TABLES)
            ++ concat ((λ t, put_rows t (table_list (bs_snap src) t)) <$> BODY_TABLES)
            ++ id_rows src).
Proof.
  intros Hf Hn. unfold body_bytes, trailer_bytes. rewrite take_app_add, take_app_le by lia.
  unfold stream_content, stream_body, payload_bytes. rewrite <- !app_assoc.
  unfold plift. rewrite get_put. cbn [need]. unfold pbind at 1. rewrite get_put. cbn [need].
  unfold pbind at 1. unfold pbind at 1. rewrite send_all_ok.
  unfold pbind at 1. rewrite stream_tables_ok by done.
  destruct (serialize_ok (bs_last_applied src)) as [a Ha].
  destruct (serialize_ok (bs_membership src)) as [m Hm]. rewrite Ha, Hm. cbn [ok_or].
  unfold pbind at 1. unfold pbind at 1. unfold stream_trailers. rewrite read_trailer_cut by done.
  cbn [res_bind]. unfold pbind at 1. unfold pbind at 1. rewrite send_all_ok. unfold pret.
  unfold id_rows. rewrite Ha, Hm. cbn [default]. by rewrite <- !app_assoc.
Qed.

(** A key of 64 bytes [0xFF] or more is past the range an install clears: its
    index row outlives the install. *)
Theorem long_key_survives (src : BodySource Mb) ts k :
  in_del_range [] LAST_KEY k = false → bs_snap src !! (TABLE_IDX, k) = None →
  installed src ts !! (TABLE_IDX, k) = ts !! (TABLE_IDX, k).
Proof.
  intros Hk Hn. unfold installed. rewrite install_parts, !app_assoc, apply_batch_app.
  rewrite avoided by by apply avoids_lease.
  rewrite apply_batch_app, avoided by (apply avoids_auth; other_table).
  rewrite apply_batch_app, (avoided (id_rows src)) by (unfold id_rows; auto with avoid).
  unfold BODY_TABLES. cbn [fmap list_fmap concat].
  rewrite apply_batch_app, !(apply_batch_app _ (_ ++ _)).
  rewrite (avoided (put_rows TABLE_META _ ++ [])) by auto with avoid.
  rewrite put_rows_lookup by apply key_sorted_NoDup, map_range_sorted.
  rewrite table_list_lookup, Hn, (avoided (put_rows TABLE_KV _)) by auto with avoid.
  change (apply_batch [?a; ?b; ?c] ?x) with (apply_op c (apply_op b (apply_op a x))).
  rewrite !apply_op_lookup. rewrite !decide_False; [done|..]; intros [? ?]; congruence || done.
Qed.
End install.

(** ** A concrete transfer *)

Module SnapshotDemo.
Export SmDemo.

(** A self-delimiting code: a byte for each bit, and one at the end. *)
Fixpoint put_bits (p : positive) : bytes :=
  match p with
  | xH => [x00]
  | xO p => x01 :: put_bits p
  | xI p => x02 :: put_bits p
  end.
Fixpoint get_bits (r : bytes) : Read positive :=
  match r with
  | [] => Eof
  | x00 :: r => Got xH r
  | x01 :: r => match get_bits r with Got p r => Got (xO p) r | Eof => Eof | Bad m => Bad m end
  | x02 :: r => match get_bits r with Got p r => Got (xI p) r | Eof => Eof | Bad m => Bad m end
  | _ => Bad "bits"
  end.

Lemma get_put_bits p r : get_bits (put_bits p ++ r) = Got p r.
Proof. induction p as [p IH|p IH|]; cbn; by rewrite ?IH. Qed.
Lemma get_cut_bits p n : (n < length (put_bits p))%nat → get_bits (take n (put_bits p)) = Eof.
Proof.
  revert n. induction p as [p IH|p IH|]; intros [|n] Hn; try done; cbn in *; try lia.
  all: by rewrite IH by lia.
Qed.

Definition bit_stream A `{Countable A} : Stream A := {|
  put_to a := put_bits (encode a);
  get_from r :=
    match get_bits r with
    | Got p r => match decode p with Some a => Got a r | None => Bad "value" end
    | Eof => Eof
    | Bad m => Bad m
    end
|}.
Lemma bit_stream_laws A `{Countable A} : @StreamLaws A (bit_stream A).
Proof.
  split.
  - intros a rest. cbn. by rewrite get_put_bits, decode_encode.
  - intros a n Hn. cbn in *. by rewrite get_cut_bits.
Qed.

#[export] Instance id_stream : Stream (option LogId) := bit_stream _.
#[export] Instance id_stream_laws : StreamLaws (option LogId) := bit_stream_laws _.
#[export] Instance mb_stream : Stream (StoredMembership (list Z)) := bit_stream _.
#[export] Instance mb_stream_laws : StreamLaws (StoredMembership (list Z)) := bit_stream_laws _.
#[export] Instance auth_stream : Stream (option AuthTables) := bit_stream _.
#[export] Instance auth_stream_laws : StreamLaws (option AuthTables) := bit_stream_laws _.
#[export] Instance lease_stream : Stream (option LeaseTables) := bit_stream _.
#[export] Instance lease_stream_laws : StreamLaws (option LeaseTables) := bit_stream_laws _.

(** A leader that has written, and a follower that has not. *)
Definition demo_leader : Sm MemEngine (list Z) :=
  mkSm demo_store1 (Some (demo_id 7)) (mkStored (Some (demo_id 1)) [1; 2; 3]) None 4 None 8
    ProposalLog_default.

Definition demo_body : bytes := cur_bytes (write_body (body_source demo_leader) (mkCursor [] 0)).
Definition demo_meta : SnapshotMeta (list Z) :=
  mkSnapMeta (Some (demo_id 7)) (mkStored (Some (demo_id 1)) [1; 2; 3]) (str ("snap-" +:+ pretty (4 + 1))).

Definition clearableb (ts : Tables) : bool :=
  forallb (λ r, in_del_range [] LAST_KEY r.1.2) (map_to_list ts).
Lemma clearableb_ok ts : clearableb ts = true → clearable ts.
Proof.
  intros Hf t _ k [v Hv]. unfold clearableb in Hf. rewrite forallb_forall in Hf.
  apply (Hf ((t, k), v)), list_elem_of_In, elem_of_map_to_list, Hv.
Qed.

Lemma demo_built :
  build_snapshot true demo_leader
  = (Ok (demo_meta, demo_body), set_snapshot (Some demo_meta) (set_snapshot_idx (4 + 1) demo_leader)).
Proof. reflexivity. Qed.

Lemma demo_fits : body_fits (body_source demo_leader).
Proof. apply (bool_decide_unpack _). vm_compute. exact I. Qed.

End SnapshotDemo.

Section witness.
Import SnapshotDemo.

Lemma install_adopts_witness :
  let out := install_snapshot demo_meta (Ok ()) demo_body (Ok ()) (demo_sm []) in
  is_ok out.1 = true ∧ adopted demo_leader out.2.
Proof.
  cbv zeta.
  assert (is_ok (install_snapshot demo_meta (Ok ()) demo_body (Ok ()) (demo_sm [])).1 = true) as Hok
    by (vm_compute; reflexivity).
  destruct (install_snapshot demo_meta (Ok ()) demo_body (Ok ()) (demo_sm [])) as [r sm'] eqn:Hrun.
  pose proof (install_adopts true demo_leader _ (demo_sm []) sm' demo_meta demo_body (Ok ()) r
    demo_built (proj1 demo_inv1) (demo_inv []) ltac:(reflexivity)
    ltac:(apply clearableb_ok; vm_compute; reflexivity) demo_fits ltac:(reflexivity) Hrun) as Ha.
  cbn [fst snd] in *. destruct r as [u|x]; [|discriminate Hok]. split; [reflexivity|exact (proj1 Ha)].
Defined.

Lemma cut_body_refused_witness :
  ∃ x, install_snapshot demo_meta (Ok ()) (take 100 (body_bytes (body_source demo_leader))) (Ok ()) (demo_sm [])
       = (Err x, demo_sm []).
Proof.
  apply (cut_body_refused (body_source demo_leader) (demo_sm []) demo_meta (Ok ()) 100 demo_fits).
  apply Nat.ltb_lt. vm_compute. reflexivity.
Defined.
End witness.
