(* ===== verification/SnapshotStore.v ===== *)
(** * The snapshot directory ([raft/snapshot_store.rs]) and the file a
    snapshot is received into ([raft/snapshot_data.rs])

    A directory is its files; a system call may fail, or the process may stop
    in it.  A method is a program over the directory.  The number of bytes a
    failed write leaves is part of the fault.  What the kernel can still lose
    after a power failure is not modelled: every file is synced before it is
    renamed into place. *)

From S2P Require Import Prelude Revision Record KvStore Lease Cache Auth Store.
From S2P Require Import Crc SnapshotPolicy StateMachine Snapshot.

(** ** Paths *)

Definition digit (d : Z) : byte := byte_of (48 + d).

Fixpoint digits (n : nat) (i : Z) : bytes :=
  match n with
  | O => []
  | S n' => digits n' (i / 10) ++ [digit (i mod 10)]
  end.

(** [format!("{index:020}")]: the largest [u64] has twenty digits. *)
Definition fmt020 (index : Z) : bytes := digits 20 index.

Definition digit_value (b : byte) : option Z :=
  let d := byte_val b - 48 in if (0 <=? d) && (d <=? 9) then Some d else None.

Fixpoint parse_digits (acc : Z) (s : bytes) : option Z :=
  match s with
  | [] => Some acc
  | b :: s' =>
      match digit_value b with
      | Some d => let n := acc * 10 + d in if n <? two64 then parse_digits n s' else None
      | None => None
      end
  end.

(** [str::parse::<u64>]. *)
Definition parse_u64 (s : bytes) : option Z :=
  match s with
  | [] => None
  | b :: s' =>
      if bool_decide (b = x2b) then match s' with [] => None | _ => parse_digits 0 s' end
      else parse_digits 0 s
  end.

(** A file name at its last dot: [Path::file_stem] and [Path::extension]. *)
Fixpoint split_ext (name : bytes) : option (bytes * bytes) :=
  match name with
  | [] => None
  | b :: name' =>
      match split_ext name' with
      | Some (stem, ext) => Some (b :: stem, ext)
      | None => if bool_decide (b = x2e) then Some ([], name') else None
      end
  end.

Definition file_stem (name : bytes) : bytes :=
  match split_ext name with Some (b :: stem, _) => b :: stem | _ => name end.
Definition extension (name : bytes) : option bytes :=
  match split_ext name with Some (_ :: _, ext) => Some ext | _ => None end.
Definition with_extension (name ext : bytes) : bytes := file_stem name ++ [x2e] ++ ext.

Definition SNAP_EXT : bytes := str "snap".
Definition META_EXT : bytes := str "meta".
Definition TMP_SUFFIX : bytes := str ".tmp".
Definition INCOMING_PREFIX : bytes := str "incoming-".
Definition LEGACY_SNAP : bytes := str "current.snap".
Definition LEGACY_META : bytes := str "current.meta".

Definition snap_path (index : Z) : bytes := fmt020 index ++ [x2e] ++ SNAP_EXT.
Definition meta_path (index : Z) : bytes := fmt020 index ++ [x2e] ++ META_EXT.

(** The index a file name with extension [ext] stands for. *)
Definition name_index (ext name : bytes) : option Z :=
  if bool_decide (extension name = Some ext) then parse_u64 (file_stem name) else None.

Definition ends_with (suffix name : bytes) : bool :=
  (length suffix <=? length name)%nat
  && bool_decide (drop (length name - length suffix) name = suffix).

(** ** System calls *)

Inductive IoError :=
| OutOfSpace
| OtherIo (msg : string)
| Stopped.  (* the process is gone: nothing observes this one *)

Definition is_out_of_space (e : IoError) : bool :=
  match e with OutOfSpace => true | _ => false end.

(** What the next system call meets; [n] bytes of a write still land. *)
Inductive Fault := Fine | Fails (e : IoError) (n : nat) | Stops (n : nat).

Abbreviation Files := (@gmap bytes list_eq_dec list_countable bytes).

Record Dir := mkDir { files : Files; faults : list Fault; running : bool }.

Abbreviation MD := (prog Dir IoError).

Definition sys {A : Type} (short : nat → Files → Files) (act : Files → result IoError A * Files) : MD A :=
  λ d,
  if running d then
    match faults d with
    | [] => let '(r, f) := act (files d) in (r, mkDir f [] true)
    | Fine :: fs => let '(r, f) := act (files d) in (r, mkDir f fs true)
    | Fails e n :: fs => (Err e, mkDir (short n (files d)) fs true)
    | Stops n :: fs => (Err Stopped, mkDir (short n (files d)) fs false)
    end
  else (Err Stopped, d).

(** A call that happens or does not. *)
Definition call_fs {A : Type} (act : Files → result IoError A * Files) : MD A := sys (λ _ f, f) act.

Definition not_found : IoError := OtherIo "no such file".

Definition fs_create (name : bytes) : MD () := call_fs (λ f, (Ok (), <[name := []]> f)).
Definition fs_create_new (name : bytes) : MD () := call_fs (λ f,
  match f !! name with
  | Some _ => (Err (OtherIo "file exists"), f)
  | None => (Ok (), <[name := []]> f)
  end).
Definition fs_sync : MD () := call_fs (λ f, (Ok (), f)).
Definition fs_rename (from to : bytes) : MD () := call_fs (λ f,
  match f !! from with
  | Some b => (Ok (), <[to := b]> (delete from f))
  | None => (Err not_found, f)
  end).
Definition remove_file (name : bytes) : MD () := call_fs (λ f,
  match f !! name with
  | Some _ => (Ok (), delete name f)
  | None => (Err not_found, f)
  end).
Definition fs_read (name : bytes) : MD bytes := call_fs (λ f, (ok_or (f !! name) not_found, f)).
Definition read_dir : MD (list bytes) := call_fs (λ f, (Ok (map_to_list f).*1, f)).

(** [write_all] into the file [name] at [pos]; a gap reads as zeros. *)
Definition write_at (pos : nat) (data b : bytes) : bytes :=
  take pos b ++ replicate (pos - length b) x00 ++ data ++ drop (pos + length data) b.
Definition fs_write (name : bytes) (pos : nat) (data : bytes) : MD () :=
  let land n f := alter (write_at pos (take n data)) name f in
  sys land (λ f, (Ok (), land (length data) f)).

(** [let _ = m] and [m.is_ok()]. *)
Definition ignore {A : Type} (m : MD A) : MD () := λ d, (Ok (), (m d).2).
Definition succeeds {A : Type} (m : MD A) : MD bool := λ d, let '(r, d') := m d in (Ok (is_ok r), d').
Definition path_exists (name : bytes) : MD bool := succeeds (fs_read name).

Fixpoint for_each {A : Type} (l : list A) (m : A → MD ()) : MD () :=
  match l with
  | [] => pret ()
  | a :: l' => let* _ := m a in for_each l' m
  end.

(** ** The store *)

(** [write]: what the caller's closure writes, piece by piece, and whether it
    then gives up. *)
Record Writer := mkWriter { pieces : list bytes; outcome : result IoError () }.

Fixpoint write_pieces (name : bytes) (pos : nat) (l : list bytes) : MD () :=
  match l with
  | [] => pret ()
  | p :: l' => let* _ := fs_write name pos p in write_pieces name (pos + length p) l'
  end.

Definition write_atomic_with (path : bytes) (write : Writer) : MD () :=
  let tmp := with_extension path (default [] (extension path) ++ TMP_SUFFIX) in
  let attempt : MD () :=
    (let* _ := fs_create tmp in
     let* _ := write_pieces tmp 0 (pieces write) in
     let* _ := plift (outcome write) in
     let* _ := fs_sync in
     fs_rename tmp path) in
  λ d, match attempt d with
       | (Ok _, d) => (Ok (), d)
       | (Err e, d) => (let* _ := ignore (remove_file tmp) in pfail e) d
       end.

Definition write_atomic (path data : bytes) : MD () :=
  write_atomic_with path (mkWriter [data] (Ok ())).

Definition sync_snap_dir : MD () := ignore fs_sync.

(** The whole call: an error of a directory listing is an empty one. *)
Definition list_dir : MD (list bytes) := λ d,
  match read_dir d with (Ok l, d) => (Ok l, d) | (Err _, d) => (Ok [], d) end.

Definition indices : MD (list Z) :=
  let* names := list_dir in pret (merge_sort Z.le (omap (name_index SNAP_EXT) names)).

Definition prune_to (keep : nat) : MD () :=
  let* idxs := indices in
  if (length idxs <=? keep)%nat then pret ()
  else for_each (take (length idxs - keep) idxs) (λ index,
         let* _ := ignore (remove_file (snap_path index)) in
         ignore (remove_file (meta_path index))).

Definition discard_all : MD () := prune_to 0.

Section store.
Context {Mb : Type} `{Bincode (SnapshotMeta Mb)}.
Context (retain : nat).

Definition index_of (meta : SnapshotMeta Mb) : Z :=
  match meta_last_log_id meta with Some l => lid_index l | None => 0 end.

Fixpoint first_meta (idxs : list Z) : MD (option (SnapshotMeta Mb)) :=
  match idxs with
  | [] => pret None
  | i :: idxs' => λ d,
      match fs_read (meta_path i) d with
      | (Ok b, d) =>
          match deserialize b with Some meta => (Ok (Some meta), d) | None => first_meta idxs' d end
      | (Err _, d) => first_meta idxs' d
      end
  end.
Definition latest_meta : MD (option (SnapshotMeta Mb)) :=
  let* idxs := indices in first_meta (rev idxs).

Definition read_body (index : Z) : MD bytes := fs_read (snap_path index).
Definition open_body (meta : SnapshotMeta Mb) : MD bytes := fs_read (snap_path (index_of meta)).

Definition make_room_for_one : MD () := prune_to (retain - 1).

Definition write_pair_with (meta : SnapshotMeta Mb) (write : Writer) : MD () :=
  let index := index_of meta in
  let* meta_bytes := plift (ok_or (serialize meta) (OtherIo "serialize")) in
  let* _ := write_atomic_with (snap_path index) write in
  let* _ := write_atomic (meta_path index) meta_bytes in
  sync_snap_dir.

Definition store_with (meta : SnapshotMeta Mb) (write : Writer) : MD bool :=
  let* _ := make_room_for_one in
  λ d, match write_pair_with meta write d with
       | (Ok _, d) => (Ok false, d)
       | (Err e, d) =>
           if is_out_of_space e then
             (let* _ := discard_all in
              let* _ := write_pair_with meta write in
              pret true) d
           else (Err e, d)
       end.

Definition store (meta : SnapshotMeta Mb) (data : bytes) : MD bool :=
  store_with meta (mkWriter [data] (Ok ())).

(** [pid] and [seq] name the file. *)
Definition incoming_path (pid seq : bytes) : bytes :=
  INCOMING_PREFIX ++ pid ++ str "-" ++ seq ++ [x2e] ++ SNAP_EXT ++ TMP_SUFFIX.
Definition begin_incoming (pid seq : bytes) : MD bytes :=
  let path := incoming_path pid seq in
  let* _ := fs_create_new path in pret path.

Definition adopt (meta : SnapshotMeta Mb) (received : bytes) : MD () :=
  let* _ := fs_sync in
  let* _ := make_room_for_one in
  let index := index_of meta in
  let* _ := fs_rename received (snap_path index) in
  let* meta_bytes := plift (ok_or (serialize meta) (OtherIo "serialize")) in
  λ d, match write_atomic (meta_path index) meta_bytes d with
       | (Ok _, d) => sync_snap_dir d
       | (Err e, d) => (let* _ := ignore (remove_file (snap_path index)) in pfail e) d
       end.

(** ** Opening *)

Definition remove_temp_files : MD () :=
  let* names := list_dir in
  for_each names (λ name,
    if utf8_valid name && ends_with TMP_SUFFIX name then ignore (remove_file name) else pret ()).

Definition migrate_legacy : MD () :=
  let* snap := path_exists LEGACY_SNAP in
  let* both := (if snap then path_exists LEGACY_META else pret false) in
  let drop_both := (let* _ := ignore (remove_file LEGACY_SNAP) in ignore (remove_file LEGACY_META)) in
  if negb both then drop_both
  else λ d,
    match fs_read LEGACY_META d with
    | (Ok b, d) =>
        match deserialize b : option (SnapshotMeta Mb) with
        | Some m =>
            let index := index_of m in
            (let* moved := succeeds (fs_rename LEGACY_SNAP (snap_path index)) in
             if moved then ignore (fs_rename LEGACY_META (meta_path index)) else pret ()) d
        | None => drop_both d
        end
    | (Err _, d) => drop_both d
    end.

Definition remove_orphans : MD () :=
  let* idxs := indices in
  let* _ := for_each idxs (λ index,
    let* there := path_exists (meta_path index) in
    if there then pret () else ignore (remove_file (snap_path index))) in
  let* names := list_dir in
  for_each names (λ name,
    match name_index META_EXT name with
    | None => pret ()
    | Some index =>
        let* there := path_exists (snap_path index) in
        if there then pret () else ignore (remove_file name)
    end).

End store.

(** [SnapshotStore::open]: the store's [retain] is the answer.
    [create_dir_all] is a call that changes no file. *)
Definition SnapshotStore_open {Mb : Type} `{Bincode (SnapshotMeta Mb)} (retain : nat) : MD nat :=
  let retain := Nat.max retain 1 in
  let* _ := fs_sync in
  let* _ := remove_temp_files in
  let* _ := migrate_legacy (Mb := Mb) in
  let* _ := remove_orphans in
  let* _ := prune_to retain in
  pret retain.
