(* ===== verification/SnapshotDir.v ===== *)
(** * The snapshot directory: what its methods keep

    Names round-trip through their indices; a body or a meta is whole under
    its name whatever fails and wherever the process stops. *)

From S2P Require Import Prelude Revision Record KvStore Lease Cache Auth Store.
From S2P Require Import Crc SnapshotPolicy StateMachine Snapshot SnapshotStore.

(** ** Names *)

Lemma length_digits n i : length (digits n i) = n.
Proof. revert i. induction n as [|n IH]; intros i; cbn; [done|]. rewrite length_app, IH. cbn. lia. Qed.

Lemma digit_value_digit d : 0 ≤ d < 10 → digit_value (digit d) = Some d.
Proof.
  intros Hd. unfold digit_value, digit. rewrite byte_val_of, Z.mod_small by lia.
  replace (48 + d - 48) with d by lia. by rewrite (proj2 (Z.leb_le 0 d)), (proj2 (Z.leb_le d 9)) by lia.
Qed.

Lemma parse_digits_app acc s1 s2 :
  parse_digits acc (s1 ++ s2) = parse_digits acc s1 ≫= λ n, parse_digits n s2.
Proof.
  revert acc. induction s1 as [|b s1 IH]; intros acc; [done|]. cbn.
  destruct (digit_value b); [|done]. by destruct (_ <? _).
Qed.

Lemma parse_digits_digits n acc i :
  0 ≤ i < 10 ^ Z.of_nat n → 0 ≤ acc → acc * 10 ^ Z.of_nat n + i < two64 →
  parse_digits acc (digits n i) = Some (acc * 10 ^ Z.of_nat n + i).
Proof.
  revert acc i. induction n as [|n IH]; intros acc i Hi Ha Hb; cbn [digits].
  { cbn. f_equal. cbn in Hi. lia. }
  rewrite Nat2Z.inj_succ, Z.pow_succ_r in * by lia.
  pose proof (Z.div_mod i 10 ltac:(lia)) as Hdm. pose proof (Z.mod_pos_bound i 10 ltac:(lia)) as Hm.
  rewrite parse_digits_app, IH; [|split; [apply Z.div_pos; lia|apply Z.div_lt_upper_bound; lia]|done|nia].
  cbn [mbind option_bind parse_digits]. rewrite digit_value_digit by done.
  replace ((acc * 10 ^ Z.of_nat n + i / 10) * 10 + i mod 10) with (acc * (10 * 10 ^ Z.of_nat n) + i) by nia.
  by rewrite (proj2 (Z.ltb_lt _ _)) by lia.
Qed.

Lemma digits_no_byte n i b : (∀ d, 0 ≤ d < 10 → digit d ≠ b) → b ∉ digits n i.
Proof.
  intros Hb. revert i. induction n as [|n IH]; intros i; cbn; [apply not_elem_of_nil|].
  rewrite not_elem_of_app. split; [apply IH|]. rewrite list_elem_of_singleton. apply not_eq_sym, Hb.
  apply Z.mod_pos_bound. lia.
Qed.

Lemma digit_ne b : (byte_val b < 48 ∨ 57 < byte_val b) → ∀ d, 0 ≤ d < 10 → digit d ≠ b.
Proof.
  intros Hb d Hd <-. unfold digit in Hb. rewrite byte_val_of, Z.mod_small in Hb by lia. lia.
Qed.

Lemma parse_fmt020 i : is_u64 i → parse_u64 (fmt020 i) = Some i.
Proof.
  intros Hi. unfold is_u64 in Hi. change two64 with 18446744073709551616 in Hi.
  assert (parse_digits 0 (digits 20 i) = Some i) as Hp.
  { rewrite parse_digits_digits; [f_equal; lia|..]; change two64 with 18446744073709551616;
      change (10 ^ Z.of_nat 20) with 100000000000000000000; lia. }
  pose proof (digits_no_byte 20 i x2b (digit_ne x2b ltac:(left; done))) as Hplus.
  unfold parse_u64, fmt020 in *. pose proof (length_digits 20 i) as Hl.
  destruct (digits 20 i) as [|b s]; [done|]. rewrite bool_decide_false by set_solver. by rewrite Hp.
Qed.

#[local] Opaque parse_u64.

Lemma split_ext_last s e : x2e ∉ e → split_ext (s ++ x2e :: e) = Some (s, e).
Proof.
  intros He. assert (split_ext e = None) as Hn.
  { induction e as [|b e IH]; [done|]. cbn. rewrite IH by set_solver.
    by rewrite bool_decide_false by set_solver. }
  induction s as [|b s IH]; cbn; [by rewrite Hn|by rewrite IH].
Qed.

Lemma fmt020_cons i : ∃ b s, fmt020 i = b :: s.
Proof. pose proof (length_digits 20 i). unfold fmt020. destruct (digits 20 i); [done|by eauto]. Qed.

#[local] Opaque fmt020.

Lemma indexed_name i ext :
  x2e ∉ ext → let name := fmt020 i ++ [x2e] ++ ext in
  extension name = Some ext ∧ file_stem name = fmt020 i.
Proof.
  intros He name. unfold extension, file_stem, name. cbn [app]. rewrite split_ext_last by done.
  by destruct (fmt020_cons i) as (b & s & ->).
Qed.

Lemma name_index_path i ext :
  is_u64 i → x2e ∉ ext → name_index ext (fmt020 i ++ [x2e] ++ ext) = Some i.
Proof.
  intros Hi He. destruct (indexed_name i ext He) as [H1 H2]. unfold name_index. rewrite H1, H2.
  by rewrite bool_decide_true, parse_fmt020.
Qed.

Lemma no_dot_snap : x2e ∉ SNAP_EXT.
Proof. refine (bool_decide_unpack _ _). by vm_compute. Qed.
Lemma no_dot_meta : x2e ∉ META_EXT.
Proof. refine (bool_decide_unpack _ _). by vm_compute. Qed.

Lemma snap_path_index i : is_u64 i → name_index SNAP_EXT (snap_path i) = Some i.
Proof. intros Hi. unfold snap_path. exact (name_index_path i SNAP_EXT Hi no_dot_snap). Qed.
Lemma meta_path_index i : is_u64 i → name_index META_EXT (meta_path i) = Some i.
Proof. intros Hi. unfold meta_path. exact (name_index_path i META_EXT Hi no_dot_meta). Qed.

Definition temp (name : bytes) : bool := ends_with TMP_SUFFIX name.

Lemma temp_tmp s : temp (s ++ TMP_SUFFIX) = true.
Proof.
  unfold temp, ends_with. rewrite length_app. apply andb_true_iff. split; [apply Nat.leb_le; lia|].
  apply bool_decide_true. replace (_ + _ - _)%nat with (length s) by lia. by rewrite drop_app_length.
Qed.

Lemma ends_with_app s e1 e2 :
  length e1 = length e2 → ends_with e2 (s ++ e1) = bool_decide (e1 = e2).
Proof.
  intros Hl. unfold ends_with. rewrite length_app, Hl.
  replace (_ + _ - _)%nat with (length s) by lia. rewrite drop_app_length.
  by rewrite (proj2 (Nat.leb_le _ _)) by lia.
Qed.

Lemma snap_not_temp i : temp (snap_path i) = false.
Proof. unfold temp, snap_path. rewrite app_assoc. by rewrite ends_with_app. Qed.
Lemma meta_not_temp i : temp (meta_path i) = false.
Proof. unfold temp, meta_path. rewrite app_assoc. by rewrite ends_with_app. Qed.

Lemma snap_ne_meta i j : snap_path i ≠ meta_path j.
Proof.
  intros Heq. assert (ends_with SNAP_EXT (snap_path i) = true) as Hs.
  { unfold snap_path. rewrite app_assoc, ends_with_app by done. done. }
  rewrite Heq in Hs. unfold meta_path in Hs. by rewrite app_assoc, ends_with_app in Hs.
Qed.

Lemma snap_tmp i :
  with_extension (snap_path i) (default [] (extension (snap_path i)) ++ TMP_SUFFIX) = snap_path i ++ TMP_SUFFIX.
Proof.
  destruct (indexed_name i SNAP_EXT no_dot_snap) as [H1 H2]. unfold with_extension.
  change (fmt020 i ++ [x2e] ++ SNAP_EXT) with (snap_path i) in *. rewrite H1, H2. cbn [default].
  unfold snap_path. by rewrite <- !app_assoc.
Qed.
Lemma meta_tmp i :
  with_extension (meta_path i) (default [] (extension (meta_path i)) ++ TMP_SUFFIX) = meta_path i ++ TMP_SUFFIX.
Proof.
  destruct (indexed_name i META_EXT no_dot_meta) as [H1 H2]. unfold with_extension.
  change (fmt020 i ++ [x2e] ++ META_EXT) with (meta_path i) in *. rewrite H1, H2. cbn [default].
  unfold meta_path. by rewrite <- !app_assoc.
Qed.

Lemma bytes_cmp_app_len a1 b1 a2 b2 :
  length a1 = length a2 →
  bytes_cmp (a1 ++ b1) (a2 ++ b2) = match bytes_cmp a1 a2 with Eq => bytes_cmp b1 b2 | c => c end.
Proof.
  revert a2. induction a1 as [|x a1 IH]; intros [|y a2] Hl; try done. cbn.
  destruct (_ ?= _); [apply IH; by injection Hl|done..].
Qed.

Lemma digits_order n i j :
  0 ≤ i < 10 ^ Z.of_nat n → 0 ≤ j < 10 ^ Z.of_nat n →
  bytes_cmp (digits n i) (digits n j) = (i ?= j).
Proof.
  revert i j. induction n as [|n IH]; intros i j Hi Hj.
  { cbn in *. assert (i = j) as -> by lia. by rewrite Z.compare_refl. }
  rewrite Nat2Z.inj_succ, Z.pow_succ_r in * by lia. cbn [digits].
  rewrite bytes_cmp_app_len by by rewrite !length_digits.
  rewrite IH by (split; [apply Z.div_pos; lia|apply Z.div_lt_upper_bound; lia]).
  pose proof (Z.div_mod i 10 ltac:(lia)). pose proof (Z.mod_pos_bound i 10 ltac:(lia)).
  pose proof (Z.div_mod j 10 ltac:(lia)). pose proof (Z.mod_pos_bound j 10 ltac:(lia)).
  cbn [bytes_cmp]. unfold digit. rewrite !byte_val_of.
  rewrite (Z.mod_small (48 + i mod 10)), (Z.mod_small (48 + j mod 10)) by lia.
  destruct (Z.compare_spec (i / 10) (j / 10)) as [Hq|Hq|Hq].
  - destruct (Z.compare_spec (48 + i mod 10) (48 + j mod 10)); symmetry;
      [apply Z.compare_eq_iff|apply Z.compare_lt_iff|apply Z.compare_gt_iff]; lia.
  - symmetry. apply Z.compare_lt_iff. lia.
  - symmetry. apply Z.compare_gt_iff. lia.
Qed.

(** The names are in the order of the indices: zero-padded, they sort as
    numbers do. *)
Lemma snap_path_order i j :
  is_u64 i → is_u64 j → bytes_cmp (snap_path i) (snap_path j) = (i ?= j).
Proof.
  intros Hi Hj. unfold snap_path. Transparent fmt020. unfold fmt020. rewrite bytes_cmp_app_len by by rewrite !length_digits.
  unfold is_u64, two64 in *.
  rewrite digits_order by (change (10 ^ Z.of_nat 20) with 100000000000000000000; lia).
  rewrite bytes_cmp_refl. by destruct (i ?= j).
Qed.
#[local] Opaque fmt020.

Lemma snap_path_inj i j : is_u64 i → is_u64 j → snap_path i = snap_path j → i = j.
Proof.
  intros Hi Hj Heq. pose proof (snap_path_index i Hi) as H1. rewrite Heq, snap_path_index in H1 by done.
  congruence.
Qed.
Lemma meta_path_inj i j : is_u64 i → is_u64 j → meta_path i = meta_path j → i = j.
Proof.
  intros Hi Hj Heq. pose proof (meta_path_index i Hi) as H1. rewrite Heq, meta_path_index in H1 by done.
  congruence.
Qed.

(** ** Writing a file *)

Lemma sys_cases {A : Type} (short : nat → Files → Files) (act : Files → result IoError A * Files) d r d' :
  sys short act d = (r, d') →
  (running d' = true ∧ act (files d) = (r, files d')) ∨
  is_ok r = false ∧ (files d' = files d ∨ ∃ n, files d' = short n (files d)).
Proof.
  unfold sys. destruct (running d); [|intros [= <- <-]; auto].
  destruct (faults d) as [|[|e n|n] fs].
  - destruct (act (files d)) as [r0 f]. intros [= <- <-]. auto.
  - destruct (act (files d)) as [r0 f]. intros [= <- <-]. auto.
  - intros [= <- <-]. cbn. eauto.
  - intros [= <- <-]. cbn. eauto.
Qed.

(** Only [names] may change. *)
Definition outside (names : list bytes) (f f' : Files) : Prop := ∀ n, n ∉ names → f' !! n = f !! n.

Lemma outside_refl names (f : Files) : outside names f f.
Proof. done. Qed.
Lemma outside_trans names (f1 f2 f3 : Files) : outside names f1 f2 → outside names f2 f3 → outside names f1 f3.
Proof. intros H1 H2 n Hn. by rewrite H2, H1. Qed.

Lemma write_at_len data b : write_at (length b) data b = b ++ data.
Proof. unfold write_at. rewrite take_ge, drop_ge, Nat.sub_diag by lia. cbn. by rewrite app_nil_r. Qed.

Lemma fs_write_run name pos data d r d' :
  fs_write name pos data d = (r, d') →
  outside [name] (files d) (files d') ∧
  (r = Ok () → files d' !! name = write_at pos data <$> (files d !! name)).
Proof.
  intros Hw. unfold fs_write in Hw. apply sys_cases in Hw as [[_ Ha]|[Hr Hf]].
  - injection Ha as <- <-. rewrite firstn_all. split.
    + intros n Hn. rewrite lookup_alter_ne; [done|set_solver].
    + intros _. by rewrite lookup_alter_eq.
  - split; [|intros ->; done]. destruct Hf as [->|[n ->]]; [done|].
    intros m Hm. rewrite lookup_alter_ne; [done|set_solver].
Qed.

Lemma write_pieces_run name l d r d' b :
  files d !! name = Some b → write_pieces name (length b) l d = (r, d') →
  outside [name] (files d) (files d') ∧ (r = Ok () → files d' !! name = Some (b ++ concat l)).
Proof.
  revert b d. induction l as [|p l IH]; intros b d Hb Hw; cbn [write_pieces] in Hw.
  { unfold pret in Hw. injection Hw as <- <-. cbn. rewrite app_nil_r. done. }
  unfold pbind in Hw. destruct (fs_write name (length b) p d) as [[[]|x] d1] eqn:H1.
  - apply fs_write_run in H1 as [Ho Hok]. specialize (Hok eq_refl). rewrite Hb in Hok. cbn in Hok.
    rewrite write_at_len in Hok. rewrite <- length_app in Hw.
    destruct (IH _ _ Hok Hw) as [Ho2 H2]. split; [by eapply outside_trans|].
    intros ->. rewrite H2 by done. cbn [concat]. by rewrite app_assoc.
  - injection Hw as <- <-. by apply fs_write_run in H1 as [Ho _].
Qed.

Lemma call_fs_err {A : Type} (act : Files → result IoError A * Files) d r d' :
  call_fs act d = (r, d') →
  (running d' = true ∧ act (files d) = (r, files d')) ∨ is_ok r = false ∧ files d' = files d.
Proof.
  unfold call_fs. intros [[? ?]|[Hr [Hf|[n Hf]]]]%sys_cases; auto.
Qed.

Lemma fs_sync_run d r d' : fs_sync d = (r, d') → files d' = files d.
Proof. intros Hs. apply call_fs_err in Hs as [[_ Hs]|[_ ->]]; [by injection Hs|done]. Qed.

Lemma tmp_ne path : path ≠ path ++ TMP_SUFFIX.
Proof. intros Heq%(f_equal length). rewrite length_app in Heq. cbn in Heq. lia. Qed.

(** A file written through a temporary one: under its name it is whole or as
    it was. *)
Lemma write_atomic_run path w d r d' :
  with_extension path (default [] (extension path) ++ TMP_SUFFIX) = path ++ TMP_SUFFIX →
  write_atomic_with path w d = (r, d') →
  outside [path; path ++ TMP_SUFFIX] (files d) (files d') ∧
  match r with
  | Ok _ => files d' !! path = Some (concat (pieces w)) ∧ outcome w = Ok () ∧ running d' = true
  | Err _ => files d' !! path = files d !! path
  end.
Proof.
  intros Ht. unfold write_atomic_with. rewrite Ht. set (tmp := path ++ TMP_SUFFIX).
  pose proof (tmp_ne path) as Hne. fold tmp in Hne.
  set (attempt := pbind (fs_create tmp) _).
  assert (∀ r1 d1, attempt d = (r1, d1) →
    outside [path; tmp] (files d) (files d1) ∧
    match r1 with
    | Ok _ => files d1 !! path = Some (concat (pieces w)) ∧ outcome w = Ok () ∧ running d1 = true
    | Err _ => files d1 !! path = files d !! path
    end) as Hatt.
  { intros r1 d1 Ha. unfold attempt, pbind in Ha.
    destruct (fs_create tmp d) as [[u1|x] da] eqn:E1; apply call_fs_err in E1.
    2:{ injection Ha as <- <-. destruct E1 as [[_ E1]|[_ ->]]; done. }
    destruct E1 as [[_ E1]|[? _]]; [|done]. injection E1 as _ Hda.
    assert (outside [path; tmp] (files d) (files da) ∧ files da !! path = files d !! path ∧
      files da !! tmp = Some []) as (Ho1 & Hp1 & Htmp).
    { rewrite <- Hda. split_and!; [|by rewrite lookup_insert_ne|by rewrite lookup_insert_eq].
      intros n Hn. rewrite lookup_insert_ne; set_solver. }
    destruct (write_pieces tmp 0 (pieces w) da) as [r2 db] eqn:E2.
    apply (write_pieces_run tmp _ _ _ _ [] Htmp) in E2 as [Ho2 H2].
    assert (outside [path; tmp] (files d) (files db) ∧ files db !! path = files d !! path) as [Ho3 Hp3].
    { split; [|rewrite Ho2; [done|set_solver]]. intros n Hn. rewrite Ho2 by set_solver. by apply Ho1. }
    destruct r2 as [[]|x]; [|by injection Ha as <- <-]. specialize (H2 eq_refl). cbn [app] in H2.
    unfold plift in Ha. destruct (outcome w) as [[]|x]; [|by injection Ha as <- <-].
    destruct (fs_sync db) as [r4 dc] eqn:E4. apply fs_sync_run in E4 as Hdc.
    destruct r4 as [u4|x]; [|injection Ha as <- <-; by rewrite Hdc].
    apply call_fs_err in Ha as [[Hrun Ha]|[Hr Hf]].
    - rewrite Hdc, H2 in Ha. injection Ha as <- <-. split; [|by rewrite lookup_insert_eq].
      intros n Hn. rewrite lookup_insert_ne by set_solver. rewrite lookup_delete_ne by set_solver. by apply Ho3.
    - rewrite Hf, Hdc. by destruct r1. }
  destruct (attempt d) as [[[]|x] d1] eqn:Ea; destruct (Hatt _ _ eq_refl) as [Ho Hp].
  - by intros [= <- <-].
  - unfold pbind, ignore, pfail. destruct (remove_file tmp d1) as [r2 d2] eqn:Er. cbn [snd].
    intros [= <- <-]. apply call_fs_err in Er as [[_ Er]|[_ ->]]; [|done].
    destruct (files d1 !! tmp); injection Er as _ <-; [|done].
    split; [|rewrite lookup_delete_ne; done]. intros n Hn. rewrite lookup_delete_ne by set_solver. by apply Ho.
Qed.

(** ** Rolling off *)

Definition shrunk (f f' : Files) : Prop := ∀ n, f' !! n = None ∨ f' !! n = f !! n.

Lemma shrunk_refl (f : Files) : shrunk f f.
Proof. intros n. by right. Qed.
Lemma shrunk_trans (f1 f2 f3 : Files) : shrunk f1 f2 → shrunk f2 f3 → shrunk f1 f3.
Proof. intros H1 H2 n. destruct (H2 n) as [->| ->]; auto. Qed.

Lemma remove_file_run name d r d' :
  remove_file name d = (r, d') → files d' = files d ∨ files d' = delete name (files d).
Proof.
  intros [[_ Hr]|[_ ->]]%call_fs_err; [|by left].
  destruct (files d !! name); injection Hr as _ <-; auto.
Qed.

Lemma remove_file_shrinks name d : shrunk (files d) (files (ignore (remove_file name) d).2).
Proof.
  unfold ignore. cbn [snd]. destruct (remove_file name d) as [r d'] eqn:Hr. cbn [snd].
  apply remove_file_run in Hr as [->| ->]; [apply shrunk_refl|]. intros n.
  destruct (decide (n = name)) as [->|Hn]; [left; by rewrite lookup_delete_eq|right].
  by rewrite lookup_delete_ne.
Qed.

Lemma for_each_shrinks {A : Type} (l : list A) (m : A → MD ()) d :
  (∀ a d, (m a d).1 = Ok () ∧ shrunk (files d) (files (m a d).2)) →
  (for_each l m d).1 = Ok () ∧ shrunk (files d) (files (for_each l m d).2).
Proof.
  intros Hm. revert d. induction l as [|a l IH]; intros d; cbn [for_each].
  { split; [done|apply shrunk_refl]. }
  unfold pbind. destruct (Hm a d) as [H1 H2]. destruct (m a d) as [r d1]; cbn [fst snd] in *. subst r.
  destruct (IH d1) as [H3 H4]. split; [done|by eapply shrunk_trans].
Qed.

Lemma indices_run d : ∃ idxs d', indices d = (Ok idxs, d') ∧ files d' = files d.
Proof.
  unfold indices, list_dir, pbind. destruct (read_dir d) as [r d'] eqn:Hr.
  assert (files d' = files d) as Hf.
  { apply call_fs_err in Hr as [[_ Hr]|[_ ->]]; [by injection Hr|done]. }
  destruct r; eauto.
Qed.

Lemma prune_to_shrinks keep d : (prune_to keep d).1 = Ok () ∧ shrunk (files d) (files (prune_to keep d).2).
Proof.
  unfold prune_to, pbind at 1 3. destruct (indices_run d) as (idxs & d1 & -> & <-).
  destruct (_ <=? _)%nat; [split; [done|apply shrunk_refl]|].
  apply for_each_shrinks. intros i d2. split; [done|].
  eapply shrunk_trans; [apply remove_file_shrinks|]. apply remove_file_shrinks.
Qed.

(** ** Whole bodies *)

(** Under a final name: gone, as it was, the new body, or, with the new body
    in place, the new meta. *)
Definition places (f f' : Files) (i : Z) (body : bytes) (meta_bytes : option bytes) : Prop :=
  ∀ n, temp n = false →
    f' !! n = None ∨ f' !! n = f !! n ∨ (n = snap_path i ∧ f' !! n = Some body) ∨
    (n = meta_path i ∧ f' !! n = meta_bytes ∧ f' !! snap_path i = Some body).

(** Before the meta is written. *)
Definition body_only (f f' : Files) (i : Z) (body : bytes) : Prop :=
  ∀ n, temp n = false →
    f' !! n = None ∨ f' !! n = f !! n ∨ (n = snap_path i ∧ f' !! n = Some body).

Lemma body_only_places f f' i body mb : body_only f f' i body → places f f' i body mb.
Proof. intros Hb n Hn. destruct (Hb n Hn) as [?|[?|?]]; auto. Qed.

Lemma body_only_shrunk f f1 f2 i body : body_only f f1 i body → shrunk f1 f2 → body_only f f2 i body.
Proof. intros Hb Hs n Hn. destruct (Hs n) as [->| ->]; auto. Qed.

Lemma shrunk_body_only f f' i body : shrunk f f' → body_only f f' i body.
Proof. intros Hs n _. destruct (Hs n) as [?|?]; auto. Qed.

Lemma outside_tmp path (f f' : Files) n :
  outside [path; path ++ TMP_SUFFIX] f f' → temp n = false → n ≠ path → f' !! n = f !! n.
Proof.
  intros Ho Ht Hn. apply Ho. intros Hin. apply elem_of_cons in Hin as [->|Hin]; [done|].
  apply list_elem_of_singleton in Hin as ->. by rewrite temp_tmp in Ht.
Qed.

Section whole.
Context {Mb : Type} `{Bincode (SnapshotMeta Mb)}.

Lemma write_meta_run meta mb f d r d' body :
  serialize meta = Some mb → body_only f (files d) (index_of (Mb := Mb) meta) body →
  files d !! snap_path (index_of meta) = Some body →
  write_atomic (meta_path (index_of meta)) mb d = (r, d') →
  match r with
  | Ok _ => places f (files d') (index_of meta) body (Some mb) ∧
            files d' !! snap_path (index_of meta) = Some body ∧
            files d' !! meta_path (index_of meta) = Some mb
  | Err _ => body_only f (files d') (index_of meta) body
  end.
Proof.
  intros Hmb Hb Hbody Hw. apply write_atomic_run in Hw as [Ho Hr]; [|apply meta_tmp].
  set (i := index_of meta) in *. destruct r as [[]|x].
  - destruct Hr as (Hm & _ & _). cbn in Hm. rewrite app_nil_r in Hm.
    assert (files d' !! snap_path i = Some body) as Hs.
    { rewrite (outside_tmp _ _ _ _ Ho (snap_not_temp i) (snap_ne_meta i i)). done. }
    split_and!; [|done|done]. intros n Hn. destruct (decide (n = meta_path i)) as [->|Hne].
    { by right; right; right. }
    rewrite (outside_tmp _ _ _ _ Ho Hn Hne). destruct (Hb n Hn) as [?|[?|?]]; auto.
  - intros n Hn. destruct (decide (n = meta_path i)) as [->|Hne].
    + rewrite Hr. by apply Hb.
    + rewrite (outside_tmp _ _ _ _ Ho Hn Hne). by apply Hb.
Qed.

Lemma write_pair_run meta w f d r d' :
  body_only f (files d) (index_of (Mb := Mb) meta) (concat (pieces w)) →
  write_pair_with meta w d = (r, d') →
  let i := index_of meta in
  match r with
  | Ok _ => places f (files d') i (concat (pieces w)) (serialize meta) ∧
            files d' !! snap_path i = Some (concat (pieces w)) ∧
            files d' !! meta_path i = serialize meta
  | Err _ => body_only f (files d') i (concat (pieces w))
  end.
Proof.
  intros Hb Hw i. unfold write_pair_with, pbind at 1, plift in Hw.
  destruct (serialize meta) as [mb|] eqn:Hmb; cbn [ok_or] in Hw; [|by injection Hw as <- <-].
  unfold pbind at 1 in Hw. fold i in Hb, Hw.
  destruct (write_atomic_with (snap_path i) w d) as [r1 d1] eqn:H1.
  apply write_atomic_run in H1 as [Ho Hr]; [|apply snap_tmp]. destruct r1 as [[]|x].
  2:{ injection Hw as <- <-. intros n Hn. destruct (decide (n = snap_path i)) as [->|Hne].
      + rewrite Hr. by apply Hb.
      + rewrite (outside_tmp _ _ _ _ Ho Hn Hne). by apply Hb. }
  destruct Hr as (Hbody & _ & _).
  assert (body_only f (files d1) i (concat (pieces w))) as Hb1.
  { intros n Hn. destruct (decide (n = snap_path i)) as [->|Hne]; [by auto|].
    rewrite (outside_tmp _ _ _ _ Ho Hn Hne). by apply Hb. }
  unfold pbind in Hw. destruct (write_atomic (meta_path i) mb d1) as [r2 d2] eqn:H2.
  apply (write_meta_run meta mb f _ _ _ _ Hmb Hb1 Hbody) in H2. destruct r2 as [[]|x].
  - unfold sync_snap_dir, ignore in Hw. injection Hw as <- <-.
    destruct (fs_sync d2) as [r3 d3] eqn:H3. cbn [snd]. apply fs_sync_run in H3 as ->. done.
  - by injection Hw as <- <-.
Qed.


(** Adopting a received snapshot, likewise: the received file [b] is
    found under its final name whole or not at all, and its meta only with
    it. *)
Theorem adopt_whole (retain : nat) (meta : SnapshotMeta Mb) (received b : bytes) (d d' : Dir) r :
  temp received = true → files d !! received = Some b →
  adopt retain meta received d = (r, d') →
  let i := index_of meta in
  places (files d) (files d') i b (serialize meta) ∧
  (is_ok r = true → files d' !! snap_path i = Some b ∧ files d' !! meta_path i = serialize meta).
Proof.
  intros Ht Hb Ha i. unfold adopt, pbind at 1 in Ha.
  destruct (fs_sync d) as [[u|x] d0] eqn:H0; apply fs_sync_run in H0.
  2:{ injection Ha as <- <-. rewrite H0. split; [|done]. intros n _. by auto. }
  unfold pbind at 1, make_room_for_one in Ha. destruct (prune_to_shrinks (retain - 1) d0) as [Hok Hsh].
  destruct (prune_to (retain - 1) d0) as [r1 d1]; cbn [fst snd] in *. subst r1. rewrite H0 in Hsh.
  fold i in Ha. pose proof (shrunk_body_only _ _ i b Hsh) as Hb1.
  unfold pbind at 1 in Ha. destruct (fs_rename received (snap_path i) d1) as [r2 d2] eqn:H2.
  assert (match r2 with
          | Ok _ => body_only (files d) (files d2) i b ∧ files d2 !! snap_path i = Some b
          | Err _ => files d2 = files d1
          end) as Hr2.
  { apply call_fs_err in H2 as [[_ H2]|[Hr Hf]]; [|by destruct r2].
    destruct (Hsh received) as [Hn|Hn]; rewrite Hn in H2; [by injection H2 as <- <-|].
    rewrite Hb in H2. injection H2 as <- <-. rewrite lookup_insert_eq. split; [|done].
    intros n Hnt. destruct (decide (n = snap_path i)) as [->|Hne]; [rewrite lookup_insert_eq; auto|].
    rewrite lookup_insert_ne by done. destruct (decide (n = received)) as [->|Hnr]; [congruence|].
    rewrite lookup_delete_ne by done. by apply Hb1. }
  destruct r2 as [u2|x].
  2:{ injection Ha as <- <-. rewrite Hr2. split; [by apply body_only_places|done]. }
  destruct Hr2 as [Hb2 Hs2]. unfold pbind at 1, plift in Ha.
  destruct (serialize meta) as [mb|] eqn:Hmb; cbn [ok_or] in Ha.
  2:{ injection Ha as <- <-. split; [by apply body_only_places|done]. }
  destruct (write_atomic (meta_path i) mb d2) as [r3 d3] eqn:H3.
  apply (write_meta_run meta mb _ _ _ _ _ Hmb Hb2 Hs2) in H3. fold i in H3. destruct r3 as [[]|x].
  - unfold sync_snap_dir, ignore in Ha. injection Ha as <- <-.
    destruct (fs_sync d3) as [r4 d4] eqn:H4. cbn [snd]. apply fs_sync_run in H4 as ->. tauto.
  - unfold pbind, pfail in Ha. injection Ha as <- <-. split; [|done].
    apply body_only_places. eapply body_only_shrunk; [exact H3|]. apply remove_file_shrinks.
Qed.
End whole.
