(* ===== verification/SnapshotKeep.v ===== *)
(** * The snapshot directory: retention

    With no fault, what the directory holds after [open] and after [store]:
    at most [retain] snapshots, each with its meta, and the newest readable. *)

From S2P Require Import Prelude Revision Record KvStore Lease Cache Auth Store StoreDemo.
From S2P Require Import Crc SnapshotPolicy StateMachine SmDemo Snapshot SnapshotStore SnapshotDir.

#[local] Opaque fmt020 parse_u64.

(** ** Directories and indices *)

(** The directory between calls, when nothing fails. *)
Definition calm (f : Files) : Dir := mkDir f [] true.

Definition snaps (f : Files) : list Z := merge_sort Z.le (omap (name_index SNAP_EXT) (map_to_list f).*1).

(** A body has the name the store gives it. *)
Definition tidy (f : Files) : Prop :=
  ∀ n i, is_Some (f !! n) → name_index SNAP_EXT n = Some i → n = snap_path i ∧ is_u64 i.

Lemma snaps_elem f i :
  tidy f → i ∈ snaps f ↔ is_u64 i ∧ is_Some (f !! snap_path i).
Proof.
  intros Ht. unfold snaps. rewrite merge_sort_Permutation, list_elem_of_omap. split.
  - intros (n & Hn & Hi). apply list_elem_of_fmap in Hn as ([n' b] & -> & Hb%elem_of_map_to_list).
    cbn [fst] in Hi. destruct (Ht n' i) as [-> Hu]; [by eauto..|]. by eauto.
  - intros [Hu [b Hb]]. exists (snap_path i). split; [|by apply snap_path_index].
    apply list_elem_of_fmap. exists (snap_path i, b). by rewrite elem_of_map_to_list.
Qed.

Lemma snaps_NoDup f : tidy f → NoDup (snaps f).
Proof.
  intros Ht. unfold snaps. rewrite merge_sort_Permutation.
  assert (∀ n, n ∈ (map_to_list f).*1 → is_Some (f !! n)) as Hin.
  { intros n ([n' b] & -> & Hb%elem_of_map_to_list)%list_elem_of_fmap. by eauto. }
  pose proof (NoDup_fst_map_to_list f) as Hnd. induction Hnd as [|n l Hn Hnd IH]; [constructor|].
  cbn [omap list_omap]. destruct (name_index SNAP_EXT n) as [i|] eqn:Hi; [|apply IH; set_solver].
  constructor; [|apply IH; set_solver]. rewrite list_elem_of_omap. intros (m & Hm & Hmi).
  destruct (Ht n i) as [-> _]; [apply Hin; set_solver|done|].
  destruct (Ht m i) as [-> _]; [apply Hin; set_solver|done|done].
Qed.

Lemma snaps_sorted f : StronglySorted Z.le (snaps f).
Proof. apply StronglySorted_merge_sort; apply _. Qed.

Lemma sorted_eq (l1 l2 : list Z) :
  StronglySorted Z.le l1 → StronglySorted Z.le l2 → NoDup l1 → NoDup l2 →
  (∀ i, i ∈ l1 ↔ i ∈ l2) → l1 = l2.
Proof.
  intros S1 S2 N1 N2 Hm. apply (StronglySorted_unique Z.le); [done..|]. by apply NoDup_Permutation.
Qed.

Lemma sorted_drop (l : list Z) k : StronglySorted Z.le l → StronglySorted Z.le (drop k l).
Proof.
  revert k. induction l as [|i l IH]; intros [|k] Hs; [done..|]. cbn. apply IH. by inversion Hs.
Qed.

(** ** Calm runs *)

Lemma list_dir_calm f : list_dir (calm f) = (Ok (map_to_list f).*1, calm f).
Proof. done. Qed.
Lemma indices_calm f : indices (calm f) = (Ok (snaps f), calm f).
Proof. done. Qed.
Lemma remove_calm name f : ignore (remove_file name) (calm f) = (Ok (), calm (delete name f)).
Proof.
  unfold ignore, remove_file, call_fs, sys, calm. cbn. destruct (f !! name) eqn:Hf; [done|].
  cbn. by rewrite delete_id.
Qed.
Lemma path_exists_calm name f : path_exists name (calm f) = (Ok (bool_decide (is_Some (f !! name))), calm f).
Proof. unfold path_exists, succeeds, fs_read, call_fs, sys, calm. cbn. by destruct (f !! name). Qed.

Lemma read_calm name f : fs_read name (calm f) = (ok_or (f !! name) not_found, calm f).
Proof. done. Qed.

Lemma for_each_calm {A : Type} (l : list A) (m : A → MD ()) (g : Files → A → Files) f :
  (∀ f a, m a (calm f) = (Ok (), calm (g f a))) →
  for_each l m (calm f) = (Ok (), calm (foldl g f l)).
Proof.
  intros Hm. revert f. induction l as [|a l IH]; intros f; [done|]. cbn [for_each foldl].
  unfold pbind. by rewrite Hm.
Qed.

Definition drop_pair (f : Files) (i : Z) : Files := delete (meta_path i) (delete (snap_path i) f).

Lemma prune_calm keep f :
  prune_to keep (calm f) = (Ok (), calm (foldl drop_pair f (take (length (snaps f) - keep) (snaps f)))).
Proof.
  unfold prune_to, pbind at 1. rewrite indices_calm.
  destruct (Nat.leb_spec (length (snaps f)) keep) as [Hl|Hl].
  { by replace (length (snaps f) - keep)%nat with 0%nat by lia. }
  apply for_each_calm. intros f' i. unfold pbind. by rewrite !remove_calm.
Qed.

Lemma drop_pairs_shrunk l f : shrunk f (foldl drop_pair f l).
Proof.
  revert f. induction l as [|i l IH]; intros f; [apply shrunk_refl|]. cbn [foldl].
  eapply shrunk_trans; [|apply IH]. intros n. unfold drop_pair.
  destruct (decide (n = meta_path i)) as [->|H1]; [left; by rewrite lookup_delete_eq|].
  rewrite lookup_delete_ne by done.
  destruct (decide (n = snap_path i)) as [->|H2]; [left; by rewrite lookup_delete_eq|].
  right. by rewrite lookup_delete_ne.
Qed.

Lemma drop_pairs_gone l f n i :
  i ∈ l → n = snap_path i ∨ n = meta_path i → foldl drop_pair f l !! n = None.
Proof.
  intros Hi Hn. revert f. induction l as [|j l IH]; intros f; [by apply elem_of_nil in Hi|].
  cbn [foldl]. apply elem_of_cons in Hi as [<-|Hi]; [|by apply IH].
  destruct (drop_pairs_shrunk l (drop_pair f i) n) as [->| ->]; [done|]. unfold drop_pair.
  destruct Hn as [->| ->]; [|by rewrite lookup_delete_eq].
  rewrite lookup_delete_ne by apply not_eq_sym, snap_ne_meta. by rewrite lookup_delete_eq.
Qed.

Lemma drop_pairs_keep l f n :
  (∀ i, i ∈ l → n ≠ snap_path i ∧ n ≠ meta_path i) → foldl drop_pair f l !! n = f !! n.
Proof.
  revert f. induction l as [|i l IH]; intros f Hn; [done|]. cbn [foldl]. rewrite IH by set_solver.
  destruct (Hn i) as [H1 H2]; [by left|]. unfold drop_pair. by rewrite !lookup_delete_ne.
Qed.

Lemma tidy_shrunk f f' : tidy f → shrunk f f' → tidy f'.
Proof. intros Ht Hs n i [b Hb]. destruct (Hs n) as [Hn|Hn]; [congruence|]. apply Ht. rewrite <- Hn. by eauto. Qed.

(** Rolling off drops the oldest snapshots, with their metas, and keeps
    exactly the newest [keep]; no other file changes. *)
Lemma prune_exact keep f :
  tidy f →
  ∃ f', prune_to keep (calm f) = (Ok (), calm f') ∧
    snaps f' = drop (length (snaps f) - keep) (snaps f) ∧ tidy f' ∧
    ∀ n, (∀ i, i ∈ take (length (snaps f) - keep) (snaps f) → n ≠ snap_path i ∧ n ≠ meta_path i) →
         f' !! n = f !! n.
Proof.
  intros Ht. eexists. split; [apply prune_calm|]. set (k := (length (snaps f) - keep)%nat).
  set (f' := foldl drop_pair f (take k (snaps f))).
  assert (tidy f') as Ht' by (eapply tidy_shrunk; [done|apply drop_pairs_shrunk]).
  pose proof (snaps_NoDup f Ht) as Hnd. rewrite <- (take_drop k (snaps f)) in Hnd.
  apply NoDup_app in Hnd as (_ & Hdis & Hnd2).
  split_and!; [|done|intros n Hn; by apply drop_pairs_keep].
  apply sorted_eq; [apply snaps_sorted|apply sorted_drop, snaps_sorted|by apply snaps_NoDup|done|].
  intros i. rewrite (snaps_elem f' i Ht'). split.
  - intros [Hu [b Hb]]. assert (i ∈ snaps f) as Hin.
    { apply snaps_elem; [done|]. split; [done|].
      destruct (drop_pairs_shrunk (take k (snaps f)) f (snap_path i)) as [Hn|Hn]; fold f' in Hn; [congruence|].
      rewrite <- Hn. by eauto. }
    rewrite <- (take_drop k (snaps f)) in Hin. apply elem_of_app in Hin as [Hin|Hin]; [|done].
    unfold f' in Hb. rewrite (drop_pairs_gone _ _ _ i Hin) in Hb; [done|by left].
  - intros Hin. assert (i ∈ snaps f) as Hif by (rewrite <- (take_drop k (snaps f)); set_solver).
    apply snaps_elem in Hif as [Hu Hs]; [|done]. split; [done|]. unfold f'.
    rewrite drop_pairs_keep; [done|]. intros j Hj. split; [|apply snap_ne_meta].
    intros Heq. assert (j ∈ snaps f) as Hjf by (rewrite <- (take_drop k (snaps f)); set_solver).
    apply snaps_elem in Hjf as [Hju _]; [|done].
    apply snap_path_inj in Heq; [|done..]. subst. by apply (Hdis j Hj).
Qed.

(** ** Storing *)

Section store.
Context {Mb : Type} `{BincodeLaws (SnapshotMeta Mb)}.

Lemma write_pieces_calm name l pos f b :
  f !! name = Some b → ∃ f', write_pieces name pos l (calm f) = (Ok (), calm f') ∧ is_Some (f' !! name).
Proof.
  revert pos f b. induction l as [|p l IH]; intros pos f b Hb; [by eauto|]. cbn [write_pieces].
  unfold pbind, fs_write, sys, calm. cbn [running faults files].
  eapply IH. rewrite lookup_alter_eq, Hb. done.
Qed.

Lemma write_atomic_calm path w f :
  outcome w = Ok () → ∃ f', write_atomic_with path w (calm f) = (Ok (), calm f').
Proof.
  intros Ho. unfold write_atomic_with. set (tmp := with_extension _ _).
  unfold pbind at 1. unfold fs_create, call_fs, sys, calm. cbn [running faults files].
  fold (calm (<[tmp := []]> f)). unfold pbind at 1.
  destruct (write_pieces_calm tmp (pieces w) 0 (<[tmp:=[]]> f) []) as (f1 & Hw & b & Hb);
    [by rewrite lookup_insert_eq|]. rewrite Hw. unfold pbind at 1, plift. rewrite Ho.
  unfold pbind at 1, fs_sync, fs_rename, call_fs, sys, calm. cbn [running faults files]. rewrite Hb. by eauto.
Qed.

Lemma write_pair_calm (meta : SnapshotMeta Mb) w f :
  outcome w = Ok () → ∃ f', write_pair_with meta w (calm f) = (Ok (), calm f').
Proof.
  intros Ho. unfold write_pair_with, pbind at 1, plift. destruct (serialize_ok meta) as [mb ->]. cbn [ok_or].
  unfold pbind at 1. destruct (write_atomic_calm (snap_path (index_of meta)) w f Ho) as [f1 ->].
  unfold pbind, write_atomic.
  destruct (write_atomic_calm (meta_path (index_of meta)) (mkWriter [mb] (Ok ())) f1 eq_refl) as [f2 ->].
  by eauto.
Qed.

Lemma temp_no_index n ext : temp n = true → ext ≠ str "tmp" → name_index ext n = None.
Proof.
  intros Ht Hext. unfold temp, ends_with in Ht. apply andb_true_iff in Ht as [_ Ht%bool_decide_eq_true].
  set (k := (length n - length TMP_SUFFIX)%nat) in Ht.
  assert (n = take k n ++ x2e :: str "tmp") as -> by (rewrite <- (take_drop k n) at 1; by rewrite Ht).
  unfold name_index, extension. rewrite split_ext_last by (refine (bool_decide_unpack _ _); by vm_compute).
  destruct (take k n); rewrite bool_decide_false; [done|done|done|naive_solver].
Qed.

Lemma meta_no_snap i : name_index SNAP_EXT (meta_path i) = None.
Proof.
  destruct (indexed_name i META_EXT no_dot_meta) as [H1 _]. unfold name_index, meta_path. rewrite H1.
  by rewrite bool_decide_false.
Qed.

Lemma places_tidy f f' i body mb :
  tidy f → is_u64 i → places f f' i body mb → tidy f'.
Proof.
  intros Ht Hu Hp n j [b Hb] Hj. destruct (temp n) eqn:Hn.
  { by rewrite temp_no_index in Hj. }
  destruct (Hp n Hn) as [?|[Heq|[[-> _]|[-> _]]]].
  - congruence.
  - apply Ht; [|done]. rewrite <- Heq. by eauto.
  - rewrite snap_path_index in Hj by done. by injection Hj as <-.
  - by rewrite meta_no_snap in Hj.
Qed.

Lemma places_snaps f f' i body mb j :
  tidy f → is_u64 i → places f f' i body mb → j ∈ snaps f' → j = i ∨ j ∈ snaps f.
Proof.
  intros Ht Hu Hp [Hj [b Hb]]%snaps_elem; [|by eapply places_tidy].
  destruct (Hp _ (snap_not_temp j)) as [?|[Heq|[[Heq _]|[Heq _]]]].
  - congruence.
  - right. apply snaps_elem; [done|]. split; [done|]. rewrite <- Heq. by eauto.
  - left. by apply snap_path_inj in Heq.
  - by apply snap_ne_meta in Heq.
Qed.

Lemma sorted_last (l : list Z) i :
  StronglySorted Z.le l → i ∈ l → (∀ j, j ∈ l → j ≤ i) → ∃ l', l = l' ++ [i].
Proof.
  intros Hs Hi Hmax. destruct l as [|k l _] using rev_ind; [by apply elem_of_nil in Hi|].
  exists l. do 2 f_equal. assert (k ≤ i) by (apply Hmax; set_solver).
  apply elem_of_app in Hi as [Hi|Hi%list_elem_of_singleton]; [|done].
  enough (i ≤ k) by lia. clear Hmax. induction l as [|x l IH]; [by apply elem_of_nil in Hi|].
  cbn in Hs. inversion_clear Hs as [|? ? Hs' Hall]. apply elem_of_cons in Hi as [->|Hi]; [|by apply IH].
  rewrite Forall_forall in Hall. apply Hall. set_solver.
Qed.

End store.

(** ** Opening *)

Lemma shrunk_fold {A : Type} (g : Files → A → Files) l f :
  (∀ f a, shrunk f (g f a)) → shrunk f (foldl g f l).
Proof.
  intros Hg. revert f. induction l as [|a l IH]; intros f; [apply shrunk_refl|].
  eapply shrunk_trans; [apply Hg|apply IH].
Qed.

Lemma shrunk_delete n (f : Files) : shrunk f (delete n f).
Proof.
  intros m. destruct (decide (m = n)) as [->|Hm]; [left; by rewrite lookup_delete_eq|right].
  by rewrite lookup_delete_ne.
Qed.

Lemma shrunk_none (f f' : Files) n : shrunk f f' → f !! n = None → f' !! n = None.
Proof. intros Hs Hn. destruct (Hs n) as [?|Heq]; [done|by rewrite Heq]. Qed.

Definition untemp (f : Files) (n : bytes) : Files :=
  if utf8_valid n && temp n then delete n f else f.
Definition unbody (f : Files) (i : Z) : Files :=
  if bool_decide (is_Some (f !! meta_path i)) then f else delete (snap_path i) f.
Definition unmeta (f : Files) (n : bytes) : Files :=
  match name_index META_EXT n with
  | None => f
  | Some i => if bool_decide (is_Some (f !! snap_path i)) then f else delete n f
  end.

Lemma untemp_shrunk f n : shrunk f (untemp f n).
Proof. unfold untemp. destruct (_ && _); [apply shrunk_delete|apply shrunk_refl]. Qed.
Lemma unbody_shrunk f i : shrunk f (unbody f i).
Proof. unfold unbody. destruct (bool_decide _); [apply shrunk_refl|apply shrunk_delete]. Qed.
Lemma unmeta_shrunk f n : shrunk f (unmeta f n).
Proof.
  unfold unmeta. destruct (name_index _ _); [|apply shrunk_refl].
  destruct (bool_decide _); [apply shrunk_refl|apply shrunk_delete].
Qed.

Lemma names_elem (f : Files) n : n ∈ (map_to_list f).*1 ↔ is_Some (f !! n).
Proof.
  rewrite list_elem_of_fmap. split.
  - intros ([n' b] & -> & Hb%elem_of_map_to_list). by eauto.
  - intros [b Hb]. exists (n, b). by rewrite elem_of_map_to_list.
Qed.

Definition no_temps (f : Files) : Prop := ∀ n, is_Some (f !! n) → utf8_valid n = true → temp n = false.

Lemma remove_temps_calm f :
  remove_temp_files (calm f) = (Ok (), calm (foldl untemp f (map_to_list f).*1)).
Proof.
  unfold remove_temp_files, pbind at 1. rewrite list_dir_calm. apply for_each_calm. intros f' n.
  unfold untemp, temp. destruct (_ && _); [apply remove_calm|done].
Qed.

Lemma untemps_gone l f n :
  n ∈ l → utf8_valid n = true → temp n = true → foldl untemp f l !! n = None.
Proof.
  intros Hn Hu Ht. revert f. induction l as [|m l IH]; intros f; [by apply elem_of_nil in Hn|].
  cbn [foldl]. apply elem_of_cons in Hn as [<-|Hn]; [|by apply IH].
  apply (shrunk_none (untemp f n)); [apply shrunk_fold, untemp_shrunk|].
  unfold untemp. rewrite Hu, Ht. apply lookup_delete_eq.
Qed.

Lemma remove_temps_ok f : no_temps (foldl untemp f (map_to_list f).*1).
Proof.
  intros n [b Hb] Hu. destruct (temp n) eqn:Ht; [|done].
  assert (shrunk f (foldl untemp f (map_to_list f).*1)) as Hs by apply shrunk_fold, untemp_shrunk.
  rewrite untemps_gone in Hb; [done| |done|done]. apply names_elem.
  destruct (Hs n) as [?|Heq]; [congruence|]. rewrite <- Heq. by eauto.
Qed.

Lemma no_temps_shrunk (f f' : Files) : no_temps f → shrunk f f' → no_temps f'.
Proof.
  intros Hn Hs n [b Hb]. destruct (Hs n) as [?|Heq]; [congruence|]. apply Hn. rewrite <- Heq. by eauto.
Qed.

Lemma remove_orphans_calm f :
  let f1 := foldl unbody f (snaps f) in
  remove_orphans (calm f) = (Ok (), calm (foldl unmeta f1 (map_to_list f1).*1)).
Proof.
  intros f1. unfold remove_orphans, pbind at 1. rewrite indices_calm. unfold pbind at 1.
  rewrite (for_each_calm _ _ unbody).
  2:{ intros f' i. unfold pbind. rewrite path_exists_calm. unfold unbody.
      destruct (bool_decide _); [done|apply remove_calm]. }
  fold f1. unfold pbind at 1. rewrite list_dir_calm. apply for_each_calm. intros f' n. unfold unmeta.
  destruct (name_index META_EXT n) as [i|]; [|done]. unfold pbind. rewrite path_exists_calm.
  destruct (bool_decide _); [done|apply remove_calm].
Qed.

Lemma unbodies_meta l f j : foldl unbody f l !! meta_path j = f !! meta_path j.
Proof.
  revert f. induction l as [|i l IH]; intros f; [done|]. cbn [foldl]. rewrite IH. unfold unbody.
  destruct (bool_decide _); [done|]. rewrite lookup_delete_ne; [done|apply snap_ne_meta].
Qed.
Lemma unbodies_gone l f i : i ∈ l → f !! meta_path i = None → foldl unbody f l !! snap_path i = None.
Proof.
  intros Hi. revert f. induction l as [|j l IH]; intros f Hm; [by apply elem_of_nil in Hi|].
  cbn [foldl]. apply elem_of_cons in Hi as [<-|Hi].
  - apply (shrunk_none (unbody f i)); [apply shrunk_fold, unbody_shrunk|].
    unfold unbody. rewrite bool_decide_false by (rewrite Hm; by intros []). apply lookup_delete_eq.
  - apply IH; [done|]. change (unbody f j) with (foldl unbody f [j]). by rewrite unbodies_meta.
Qed.

Lemma snap_no_meta i : name_index META_EXT (snap_path i) = None.
Proof.
  destruct (indexed_name i SNAP_EXT no_dot_snap) as [H1 _]. unfold name_index, snap_path. rewrite H1.
  by rewrite bool_decide_false.
Qed.
Lemma unmetas_snap l f j : foldl unmeta f l !! snap_path j = f !! snap_path j.
Proof.
  revert f. induction l as [|n l IH]; intros f; [done|]. cbn [foldl]. rewrite IH. unfold unmeta.
  destruct (name_index META_EXT n) as [i|] eqn:Hn; [|done]. destruct (bool_decide _); [done|].
  rewrite lookup_delete_ne; [done|]. intros ->. by rewrite snap_no_meta in Hn.
Qed.
Lemma unmetas_gone l f n i :
  n ∈ l → name_index META_EXT n = Some i → f !! snap_path i = None → foldl unmeta f l !! n = None.
Proof.
  intros Hn Hi. revert f. induction l as [|m l IH]; intros f Hs; [by apply elem_of_nil in Hn|].
  cbn [foldl]. apply elem_of_cons in Hn as [<-|Hn].
  - apply (shrunk_none (unmeta f n)); [apply shrunk_fold, unmeta_shrunk|].
    unfold unmeta. rewrite Hi, bool_decide_false by (rewrite Hs; by intros []). apply lookup_delete_eq.
  - apply IH; [done|]. change (unmeta f m) with (foldl unmeta f [m]). by rewrite unmetas_snap.
Qed.
Lemma unmetas_keep l f i :
  is_u64 i → is_Some (f !! snap_path i) → foldl unmeta f l !! meta_path i = f !! meta_path i.
Proof.
  intros Hu. revert f. induction l as [|m l IH]; intros f Hs; [done|]. cbn [foldl].
  rewrite IH by (change (unmeta f m) with (foldl unmeta f [m]); by rewrite unmetas_snap).
  unfold unmeta. destruct (name_index META_EXT m) as [j|] eqn:Hm; [|done].
  destruct (bool_decide_reflect (is_Some (f !! snap_path j))) as [?|Hno]; [done|].
  rewrite lookup_delete_ne; [done|]. intros ->. rewrite meta_path_index in Hm by done. by injection Hm as <-.
Qed.

(** Bodies and metas come in pairs. *)
Definition pairs (f : Files) : Prop :=
  ∀ i, is_u64 i → is_Some (f !! snap_path i) ↔ is_Some (f !! meta_path i).

Lemma remove_orphans_ok f :
  tidy f → let f1 := foldl unbody f (snaps f) in
  let f2 := foldl unmeta f1 (map_to_list f1).*1 in shrunk f f2 ∧ pairs f2.
Proof.
  intros Ht f1 f2. assert (shrunk f f1) as H1 by apply shrunk_fold, unbody_shrunk.
  assert (shrunk f1 f2) as H2 by apply shrunk_fold, unmeta_shrunk.
  split; [by eapply shrunk_trans|]. intros i Hu. split.
  - intros Hb. unfold f2 in Hb. rewrite unmetas_snap in Hb. unfold f2. rewrite unmetas_keep by done.
    unfold f1 at 1. rewrite unbodies_meta. destruct (f !! meta_path i) eqn:Hm; [by eauto|].
    unfold f1 in Hb. rewrite unbodies_gone in Hb; [by destruct Hb| |done]. apply snaps_elem; [done|].
    split; [done|]. destruct (H1 (snap_path i)) as [Hn|Hn]; fold f1 in Hb; rewrite Hn in Hb; [by destruct Hb|done].
  - intros [m Hm]. destruct (f2 !! snap_path i) eqn:Hb; [by eauto|]. unfold f2 in Hb. rewrite unmetas_snap in Hb.
    unfold f2 in Hm. rewrite (unmetas_gone _ _ _ i) in Hm; [done| |by apply meta_path_index|done].
    apply names_elem. destruct (H2 (meta_path i)) as [Hn|Hn]; [unfold f2 in Hn; congruence|].
    rewrite <- Hn. unfold f2. by eauto.
Qed.

Section open.
Context {Mb : Type} `{Bincode (SnapshotMeta Mb)}.

(** An index read back is a [u64]. *)
Context (Hu64 : ∀ b (m : SnapshotMeta Mb), deserialize b = Some m → is_u64 (index_of m)).

Lemma rename_calm from to f b :
  f !! from = Some b → succeeds (fs_rename from to) (calm f) = (Ok true, calm (<[to := b]> (delete from f))).
Proof. intros Hf. unfold succeeds, fs_rename, call_fs, sys, calm. cbn. by rewrite Hf. Qed.

Lemma tidy_insert f n b :
  tidy f → (∀ i, name_index SNAP_EXT n = Some i → n = snap_path i ∧ is_u64 i) → tidy (<[n := b]> f).
Proof.
  intros Ht Hn m i [b' Hb] Hi. destruct (decide (m = n)) as [->|Hne]; [by apply Hn|].
  rewrite lookup_insert_ne in Hb by done. apply Ht; by eauto.
Qed.
Lemma no_temps_insert f n b : no_temps f → temp n = false → no_temps (<[n := b]> f).
Proof.
  intros Hf Hn m [b' Hb] Hu. destruct (decide (m = n)) as [->|Hne]; [done|].
  rewrite lookup_insert_ne in Hb by done. apply Hf; by eauto.
Qed.

Lemma migrate_calm f :
  tidy f → no_temps f →
  ∃ f', migrate_legacy (Mb := Mb) (calm f) = (Ok (), calm f') ∧ tidy f' ∧ no_temps f'.
Proof.
  intros Ht Hn.
  assert (∀ f', shrunk f f' → tidy f' ∧ no_temps f') as Hshr
    by (intros f' Hs; split; [by eapply tidy_shrunk|by eapply no_temps_shrunk]).
  set (gone := delete LEGACY_META (delete LEGACY_SNAP f)).
  assert (tidy gone ∧ no_temps gone) as Hgone
    by (apply Hshr; eapply shrunk_trans; apply shrunk_delete).
  unfold migrate_legacy, pbind at 1. rewrite path_exists_calm. unfold pbind at 1.
  set (both := if bool_decide _ then _ else _ : MD bool).
  assert (∃ q, both (calm f) = (Ok q, calm f) ∧ (q = true → is_Some (f !! LEGACY_SNAP) ∧ is_Some (f !! LEGACY_META)))
    as (q & -> & Hq).
  { unfold both. destruct (bool_decide_reflect (is_Some (f !! LEGACY_SNAP))) as [Hs|Hs]; [|by exists false].
    rewrite path_exists_calm. eexists. split; [done|]. intros Hm%bool_decide_eq_true. done. }
  assert ((let* _ := ignore (remove_file LEGACY_SNAP) in ignore (remove_file LEGACY_META)) (calm f)
          = (Ok (), calm gone)) as Hdrop by (unfold pbind; by rewrite !remove_calm).
  destruct q; cbn [negb]; [|by exists gone]. destruct Hq as [[bs Hbs] [bm Hbm]]; [done|].
  rewrite read_calm, Hbm. cbn [ok_or]. destruct (deserialize bm : option (SnapshotMeta Mb)) as [m|] eqn:Hm; [|by exists gone].
  apply Hu64 in Hm. unfold pbind. rewrite (rename_calm _ _ _ _ Hbs).
  set (f1 := <[snap_path (index_of m) := bs]> (delete LEGACY_SNAP f)).
  assert (tidy f1 ∧ no_temps f1) as [Ht1 Hn1].
  { destruct (Hshr (delete LEGACY_SNAP f) (shrunk_delete _ _)) as [? ?]. split.
    - apply tidy_insert; [done|]. intros i Hi. rewrite snap_path_index in Hi by done. by injection Hi as <-.
    - apply no_temps_insert; [done|apply snap_not_temp]. }
  unfold ignore, fs_rename, call_fs, sys, calm. cbn [running faults files snd].
  destruct (f1 !! LEGACY_META) as [b2|]; cbn [snd]; [|by exists f1].
  eexists. split; [done|]. split.
  - apply tidy_insert; [by eapply tidy_shrunk, shrunk_delete|]. intros i Hi. by rewrite meta_no_snap in Hi.
  - apply no_temps_insert; [by eapply no_temps_shrunk, shrunk_delete|apply meta_not_temp].
Qed.

End open.

(** ** Concrete directories *)

#[global] Instance SnapshotMeta_eq_dec Mb `{EqDecision Mb} : EqDecision (SnapshotMeta Mb).
Proof. solve_decision. Defined.
#[global] Instance SnapshotMeta_countable Mb `{Countable Mb} : Countable (SnapshotMeta Mb).
Proof.
  apply (inj_countable' (λ m, (meta_last_log_id m, meta_membership m, meta_snapshot_id m))
           (λ '(l, m, i), mkSnapMeta l m i)). by intros [].
Defined.

Module KeepDemo.
Export SmDemo.

Definition meta_at (i : Z) : SnapshotMeta (list Z) :=
  mkSnapMeta (Some (demo_id i)) (mkStored None [1]) (str "snap").

(** A body without its meta, and a pair. *)
Definition demo_files : Files :=
  <[snap_path 3 := [x01]]> (<[meta_path 5 := [x02]]> (<[snap_path 5 := [x03]]> ∅)).

Lemma demo_tidy : tidy demo_files.
Proof.
  repeat apply tidy_insert; [by intros n i [b Hb]|..]; intros i Hi;
    rewrite ?meta_no_snap in Hi; try done; rewrite snap_path_index in Hi by done; by injection Hi as <-.
Qed.

(** A codec that refuses what is no [u64]. *)
Definition checked_codec : Bincode (SnapshotMeta (list Z)) :=
  let c := countable_codec (SnapshotMeta (list Z)) in
  {| serialize := @serialize _ c;
     deserialize b := @deserialize _ c b ≫= λ m, if decide (is_u64 (index_of m)) then Some m else None |}.
End KeepDemo.

Section witness.
Import KeepDemo.


End witness.
