(* ===== verification/SnapshotFile.v ===== *)
(** * Receiving a snapshot ([raft/snapshot_data.rs])

    The body of a snapshot being sent or received: a retained file, a
    temporary file chunks are written into, or bytes in memory when the disk
    cannot hold them.  Whatever fails, a receive whose writes are all answered
    [Ok] holds every byte. *)

From S2P Require Import Prelude Revision Record KvStore Lease Cache Auth Store.
From S2P Require Import Crc SnapshotPolicy StateMachine Snapshot SnapshotStore SnapshotDir.

#[local] Opaque fmt020 parse_u64.

(** A [Cursor<Vec<u8>>] is its bytes and position; a retained file's open
    handle keeps its bytes whatever happens to its name. *)
Inductive Body :=
| BRetained (content : bytes) (pos : nat)
| BIncoming (path : option bytes) (pos : nat) (discarded : bool)
| BMemory (content : bytes) (pos : nat).

Record Rx := mkRx { body : Body; dir : Dir }.

Definition set_body (b : Body) (s : Rx) : Rx := mkRx b (dir s).

Abbreviation MR := (prog Rx IoError).

Definition on_dir {A : Type} (m : MD A) : MR A := λ s, let '(r, d) := m (dir s) in (r, mkRx (body s) d).

Inductive Content := CIncoming (path : bytes) | CRetained (b : bytes) | CMemory (b : bytes).

Definition SnapshotFile_memory (b : bytes) : Body := BMemory b 0.
Definition SnapshotFile_retained (b : bytes) : Body := BRetained b 0.
Definition SnapshotFile_incoming (path : bytes) : Body := BIncoming (Some path) 0 false.

Definition is_in_memory (b : Body) : bool := match b with BMemory _ _ => true | _ => false end.

(** [Drop for Incoming]. *)
Definition drop_incoming (path : option bytes) : MR () :=
  match path with Some p => on_dir (ignore (remove_file p)) | None => pret () end.

(** A seek, or asking for the position. *)
Definition fs_seek : MD () := call_fs (λ f, (Ok (), f)).

(** An [Incoming] has its path until install takes it. *)
Definition into_content : MR Content :=
  let* s := pget in
  match body s with
  | BRetained b _ => pret (CRetained b)
  | BMemory b _ => pret (CMemory b)
  | BIncoming None _ _ => pfail (OtherIo "path is taken only here")
  | BIncoming (Some path) _ _ => λ s,
      match on_dir fs_seek (* try_clone *) s with
      | (Ok _, s) => (Ok (CIncoming path), s)
      | (Err _, s) => (let* _ := drop_incoming (Some path) in pret (CMemory [])) s
      end
  end.

Definition fall_back_to_memory (err : IoError) (pos : nat) (data : bytes) : MR () :=
  let* s := pget in
  match body s with
  | BIncoming path _ _ => λ s,
      match (let* _ := on_dir fs_seek in on_dir (fs_read (default [] path))) s with
      | (Err _, s) => (Err err, s)
      | (Ok bytes, s) =>
          (let* _ := drop_incoming path in
           pmodify (set_body (BMemory (write_at pos data bytes) (pos + length data)))) s
      end
  | _ => pfail err
  end.

Definition recover_write (err : IoError) (pos : nat) (data : bytes) : MR () :=
  let* s := pget in
  match body s with
  | BIncoming path _ discarded =>
      if is_out_of_space err && negb discarded then
        let* _ := pmodify (set_body (BIncoming path pos true)) in
        let* _ := on_dir discard_all in
        λ s, match (let* _ := on_dir fs_seek in on_dir (fs_write (default [] path) pos data)) s with
             | (Ok _, s) => (Ok (), set_body (BIncoming path (pos + length data) true) s)
             | (Err e, s) => fall_back_to_memory e pos data s
             end
      else fall_back_to_memory err pos data
  | _ => pfail err
  end.

Definition poll_write (data : bytes) : MR nat :=
  let* s := pget in
  match body s with
  | BMemory b pos =>
      let* _ := pmodify (set_body (BMemory (write_at pos data b) (pos + length data))) in
      pret (length data)
  | BRetained _ _ => pfail (OtherIo "a retained snapshot is read-only")
  | BIncoming path pos discarded =>
      let* _ := on_dir fs_seek in
      let* _ := (λ s, match on_dir (fs_write (default [] path) pos data) s with
                      | (Ok _, s) => (Ok (), set_body (BIncoming path (pos + length data) discarded) s)
                      | (Err e, s) => recover_write e pos data s
                      end) in
      pret (length data)
  end.

(** A read into a buffer of [n] bytes. *)
Definition poll_read (n : nat) : MR bytes :=
  let* s := pget in
  match body s with
  | BRetained b pos =>
      let* _ := on_dir fs_seek in
      let* _ := pmodify (set_body (BRetained b (pos + length (take n (drop pos b))))) in
      pret (take n (drop pos b))
  | BIncoming path pos discarded =>
      let* b := on_dir (fs_read (default [] path)) in
      let* _ := pmodify (set_body (BIncoming path (pos + length (take n (drop pos b))) discarded)) in
      pret (take n (drop pos b))
  | BMemory b pos =>
      let* _ := pmodify (set_body (BMemory b (pos + length (take n (drop pos b))))) in
      pret (take n (drop pos b))
  end.

(** [retain_installed]. *)
Definition retain_installed {Mb : Type} `{Bincode (SnapshotMeta Mb)} (retain : nat)
    (meta : SnapshotMeta Mb) (content : Content) : MD () :=
  match content with
  | CIncoming path => λ d,
      match adopt retain meta path d with
      | (Ok _, d) => (Ok (), d)
      | (Err e, d) => (let* _ := ignore (remove_file path) in pfail e) d
      end
  | CRetained b | CMemory b => let* _ := store retain meta b in pret ()
  end.

(** A whole transfer; the first error ends it. *)
Fixpoint receive (chunks : list bytes) : MR () :=
  match chunks with
  | [] => pret ()
  | c :: chunks' => let* _ := poll_write c in receive chunks'
  end.

(** ** Nothing is lost *)

Lemma write_at_over pos acc data k :
  pos = length acc → (k ≤ length data)%nat → write_at pos data (acc ++ take k data) = acc ++ data.
Proof.
  intros -> Hk. unfold write_at. rewrite take_app_length. f_equal.
  rewrite length_app. replace (length acc - _)%nat with 0%nat by lia. cbn [replicate app].
  rewrite drop_ge; [apply app_nil_r|]. rewrite length_app, length_take. lia.
Qed.

(** What a failed write may leave after the bytes received so far. *)
Definition trailing (acc data : bytes) (b : option bytes) : Prop :=
  ∃ k, (k ≤ length data)%nat ∧ b = Some (acc ++ take k data).

Lemma trailing_none acc data : trailing acc data (Some acc).
Proof. exists 0%nat. rewrite take_0, app_nil_r. split; [lia|done]. Qed.

Lemma fs_write_trailing path acc data d r d' :
  trailing acc data (files d !! path) → fs_write path (length acc) data d = (r, d') →
  (r = Ok () ∧ files d' !! path = Some (acc ++ data)) ∨
  (is_ok r = false ∧ trailing acc data (files d' !! path)).
Proof.
  intros (k & Hk & Hb) Hw. unfold fs_write in Hw. apply sys_cases in Hw as [[_ Ha]|[Hr Hf]].
  - injection Ha as <- <-. left. split; [done|]. rewrite lookup_alter_eq, Hb, firstn_all. cbn.
    f_equal. by apply write_at_over.
  - right. split; [done|]. destruct Hf as [->|[n ->]]; [by exists k|].
    rewrite lookup_alter_eq, Hb. cbn. exists (Nat.max k (Nat.min n (length data))). split; [lia|]. f_equal.
    unfold write_at. rewrite take_app_length. f_equal.
    rewrite length_app. replace (length acc - _)%nat with 0%nat by lia. cbn [replicate app].
    rewrite drop_app_ge by lia. rewrite skipn_firstn_comm.
    replace (length acc + length (take n data) - length acc)%nat with (length (take n data)) by lia.
    rewrite length_take. destruct (decide (n ≤ length data)%nat) as [Hn|Hn].
    + replace (n `min` length data)%nat with n by lia.
      destruct (decide (k ≤ n)%nat).
      * replace (k - n)%nat with 0%nat by lia. replace (k `max` n)%nat with n by lia. by rewrite app_nil_r.
      * replace (k `max` n)%nat with k by lia. rewrite <- (take_drop n (take k data)).
        rewrite take_take, skipn_firstn_comm. by replace (n `min` k)%nat with n by lia.
    + rewrite (take_ge data n) by lia. rewrite drop_ge by lia. rewrite take_nil, app_nil_r.
      rewrite take_ge; [done|lia].
Qed.

Lemma remove_keeps name n d : n ≠ name → files (ignore (remove_file name) d).2 !! n = files d !! n.
Proof.
  intros Hn. unfold ignore. cbn [snd]. destruct (remove_file name d) as [r d'] eqn:Hr. cbn [snd].
  apply remove_file_run in Hr as [->| ->]; [done|]. by rewrite lookup_delete_ne.
Qed.

(** Rolling off leaves temporary files alone. *)
Lemma prune_keeps_temp keep n d : temp n = true → files (prune_to keep d).2 !! n = files d !! n.
Proof.
  intros Ht. unfold prune_to, pbind at 1. destruct (indices_run d) as (idxs & d1 & -> & <-).
  destruct (_ <=? _)%nat; [done|]. generalize (take (length idxs - keep) idxs) as l. clear idxs.
  intros l. revert d1. induction l as [|i l IH]; intros d1; [done|]. cbn [for_each].
  unfold pbind at 1. unfold pbind at 1. cbn [ignore fst snd]. unfold ignore at 1 2. rewrite IH.
  change (files (ignore (remove_file (meta_path i)) (ignore (remove_file (snap_path i)) d1).2).2 !! n = files d1 !! n).
  rewrite !remove_keeps; [done|..]; intros ->; by rewrite ?snap_not_temp, ?meta_not_temp in Ht.
Qed.

(** All of [acc] has been received, into the file or into memory. *)
Definition holds (s : Rx) (acc : bytes) : Prop :=
  match body s with
  | BMemory b pos => b = acc ∧ pos = length acc
  | BIncoming (Some path) pos _ =>
      temp path = true ∧ pos = length acc ∧ files (dir s) !! path = Some acc
  | _ => False
  end.

Lemma fs_seek_run d r d' : fs_seek d = (r, d') → files d' = files d.
Proof. apply fs_sync_run. Qed.
Lemma fs_read_run name d r d' :
  fs_read name d = (r, d') → files d' = files d ∧ ∀ b, r = Ok b → files d !! name = Some b.
Proof.
  intros [[_ Hr]|[Hr ->]]%call_fs_err.
  - injection Hr as Hr Hf. split; [done|]. intros b ->. destruct (files d !! name); cbn in Hr; by simplify_eq.
  - split; [done|]. by intros b ->.
Qed.

Lemma fall_back_holds err path disc pos acc data s s' :
  body s = BIncoming (Some path) pos disc → trailing acc data (files (dir s) !! path) →
  fall_back_to_memory err (length acc) data s = (Ok (), s') → holds s' (acc ++ data).
Proof.
  intros Hbody Hb. unfold fall_back_to_memory, pbind at 1, pget. rewrite Hbody.
  unfold pbind at 1, on_dir at 1. destruct (fs_seek (dir s)) as [[u|x] d1] eqn:H1; [|cbn; by intros [=]].
  apply fs_seek_run in H1. unfold on_dir at 1. cbn [dir default]. change (id path) with path.
  destruct (fs_read path d1) as [[b|x] d2] eqn:H2; [|cbn; by intros [=]]. apply fs_read_run in H2 as [H2 Hr].
  rewrite H1 in Hr. specialize (Hr b eq_refl). destruct Hb as (k & Hk & Hb). rewrite Hb in Hr.
  injection Hr as <-. unfold pbind, drop_incoming, on_dir, ignore, pmodify. cbn.
  intros [= <-]. unfold holds. cbn. rewrite write_at_over by done. by rewrite length_app.
Qed.

Lemma recover_write_holds err path disc pos acc data s s' :
  body s = BIncoming (Some path) pos disc → temp path = true →
  trailing acc data (files (dir s) !! path) →
  recover_write err (length acc) data s = (Ok (), s') → holds s' (acc ++ data).
Proof.
  intros Hbody Ht Hb. unfold recover_write, pbind at 1, pget. rewrite Hbody.
  destruct (is_out_of_space err && negb disc); [|by eapply fall_back_holds].
  unfold pbind at 1, pmodify at 1. unfold pbind at 1, on_dir at 1. cbn [set_body dir body].
  pose proof (prune_keeps_temp 0 path (dir s) Ht) as Hkeep.
  destruct (prune_to_shrinks 0 (dir s)) as [Hok _]. unfold discard_all.
  destruct (prune_to 0 (dir s)) as [r0 d0]; cbn [fst snd] in *. subst r0.
  unfold pbind at 1, on_dir at 1. cbn [dir body]. destruct (fs_seek d0) as [[u|x] d1] eqn:H1;
    apply fs_seek_run in H1.
  2:{ eapply fall_back_holds; [done|]. cbn [dir]. by rewrite H1, Hkeep. }
  unfold on_dir at 1. cbn [dir body default]. change (id path) with path.
  destruct (fs_write path (length acc) data d1) as [r2 d2] eqn:H2.
  apply fs_write_trailing in H2; [|by rewrite H1, Hkeep]. destruct r2 as [u2|x].
  - destruct H2 as [[_ H2]|[? _]]; [|done]. intros [= <-]. unfold holds. cbn. by rewrite length_app.
  - destruct H2 as [[? _]|[_ H2]]; [done|]. eapply fall_back_holds; [done|]. done.
Qed.

Lemma poll_write_holds data acc n s s' :
  holds s acc → poll_write data s = (Ok n, s') → n = length data ∧ holds s' (acc ++ data).
Proof.
  intros Hs. unfold poll_write, pbind at 1, pget. pose proof Hs as Hs0. unfold holds in Hs.
  destruct (body s) as [b pos|[path|] pos disc|b pos] eqn:Hbody; try done.
  - destruct Hs as (Ht & -> & Hf). unfold pbind at 1, on_dir at 1.
    destruct (fs_seek (dir s)) as [[u|x] d1] eqn:H1; [|cbn; by intros [=]]. apply fs_seek_run in H1.
    unfold pbind at 1. unfold on_dir at 1. cbn [dir body default]. change (id path) with path.
    destruct (fs_write path (length acc) data d1) as [r2 d2] eqn:H2.
    apply (fs_write_trailing path acc data) in H2; [|rewrite H1, Hf; apply trailing_none].
    destruct r2 as [u2|x].
    + destruct H2 as [[_ H2]|[? _]]; [|done]. unfold pret. intros [= <- <-]. split; [done|].
      unfold holds. cbn. by rewrite length_app.
    + destruct H2 as [[? _]|[_ H2]]; [done|].
      destruct (recover_write x (length acc) data (mkRx (body s) d2)) as [[[]|y] s2] eqn:H3; [|done].
      unfold pret. intros [= <- <-]. split; [done|]. by eapply recover_write_holds in H3.
  - destruct Hs as [-> ->]. unfold pbind, pmodify, pret. intros [= <- <-]. split; [done|].
    unfold holds. cbn. by rewrite write_at_len, length_app.
Qed.

(** C9.  A receive loses nothing.  Chunks are written to a temporary file;
    whatever write fails, having written part of its chunk or none, and
    whether making room or moving to memory saves it, a transfer whose writes
    were all answered [Ok] holds exactly the bytes sent, in the file or in
    memory. *)
Theorem receive_whole (path : bytes) (chunks : list bytes) (d : Dir) (s' : Rx) :
  temp path = true → files d !! path = Some [] →
  receive chunks (mkRx (SnapshotFile_incoming path) d) = (Ok (), s') →
  holds s' (concat chunks).
Proof.
  intros Ht Hf. assert (holds (mkRx (SnapshotFile_incoming path) d) []) as Hh by done.
  revert Hh. generalize (mkRx (SnapshotFile_incoming path) d) as s.
  change (concat chunks) with ([] ++ concat chunks). generalize (@nil byte) as acc.
  induction chunks as [|c chunks IH]; intros acc s Hh; cbn [receive concat].
  - unfold pret. intros [= <-]. by rewrite app_nil_r.
  - unfold pbind. destruct (poll_write c s) as [[n|x] s1] eqn:H1; [|done].
    apply (poll_write_holds c acc) in H1 as [_ H1]; [|done]. rewrite app_assoc. by apply IH.
Qed.

(** The first chunk's write meets a full disk, twice: the transfer goes on in
    memory. *)
Definition demo_rx : Rx :=
  mkRx (SnapshotFile_incoming (incoming_path (str "7") (str "0")))
    (mkDir {[ incoming_path (str "7") (str "0") := [] ]} [Fine; Fails OutOfSpace 1; Fine; Fine; Fails OutOfSpace 2] true).

Lemma receive_whole_witness :
  let out := receive [[x01; x02; x03]; [x04]] demo_rx in
  is_in_memory (body out.2) = true ∧ holds out.2 [x01; x02; x03; x04].
Proof.
  cbv zeta.
  assert (is_ok (receive [[x01; x02; x03]; [x04]] demo_rx).1 = true) as Hok by (vm_compute; reflexivity).
  assert (is_in_memory (body (receive [[x01; x02; x03]; [x04]] demo_rx).2) = true) as Hmem by (vm_compute; reflexivity).
  destruct (receive [[x01; x02; x03]; [x04]] demo_rx) as [[[]|x] s'] eqn:Hr; [|discriminate Hok].
  split; [exact Hmem|].
  apply (receive_whole (incoming_path (str "7") (str "0")) [[x01; x02; x03]; [x04]] (dir demo_rx) s').
  - vm_compute. reflexivity.
  - cbn [dir demo_rx files]. apply lookup_singleton_eq.
  - exact Hr.
Defined.
