(* ===== verification/Wal.v ===== *)
(** * The raft write-ahead log ([crates/storage/src/raft_wal.rs])

    Records, segment files, and the operations of [Wal] and [WalReader].
    A directory is a map from names to files; a file has the bytes a read
    sees and the bytes on the disk.  Every I/O call takes its outcome from
    [fs_faults], so a run with faults is a run of the code in which those
    calls fail. *)

From S2P Require Import Prelude Crc.

(** ** Records *)

Definition KIND_ENTRY : Z := 1.
Definition KIND_TRUNCATE : Z := 2.
Definition KIND_PURGE : Z := 3.
Definition KIND_VOTE : Z := 4.
Definition KIND_COMMITTED : Z := 5.

Definition STICKY : list Z := [KIND_PURGE; KIND_VOTE; KIND_COMMITTED].

Definition HEADER_LEN : nat := 17.
Definition MAX_PAYLOAD : Z := 2 ^ 30.
Definition DEFAULT_SEGMENT_BYTES : Z := 16 * 1024 * 1024.

Definition u64_max : Z := 18446744073709551615.

(** A record given to [append]: [(kind, index, payload)]. *)
Record Rec := mkRec { r_kind : Z; r_index : Z; r_payload : bytes }.

#[global] Instance Rec_eq_dec : EqDecision Rec.
Proof. solve_decision. Defined.

Definition valid_kind (kind : Z) : bool := (KIND_ENTRY <=? kind) && (kind <=? KIND_COMMITTED).

Definition record_crc (kind index : Z) (payload : bytes) : Z :=
  crc32c [[byte_of kind]; le_bytes 8 index; payload].

Definition encode_record (out : bytes) (kind index : Z) (payload : bytes) : bytes :=
  out ++ le_bytes 4 (Z.of_nat (length payload)) ++ le_bytes 4 (record_crc kind index payload)
      ++ [byte_of kind] ++ le_bytes 8 index ++ payload.

Inductive Parsed :=
| PRecord (kind index : Z) (payload : bytes) (next : nat)
| PEnd
| PBad (why : string).

Definition all_zero (bs : bytes) : bool := forallb (λ b, byte_val b =? 0) bs.

(** [buf[at..at + n]]. *)
Definition slice (buf : bytes) (pos n : nat) : bytes := take n (drop pos buf).

Definition parse (buf : bytes) (pos : nat) : Parsed :=
  let h := HEADER_LEN in
  if decide (length buf ≤ pos)%nat then PEnd
  else if decide (length buf - pos < h)%nat then
    if all_zero (drop pos buf) then PEnd else PBad "short header"
  else
    let header := slice buf pos h in
    if all_zero header then PEnd
    else
      let len := le_value (take 4 header) in
      let crc := le_value (slice header 4 4) in
      let kind := le_value (slice header 8 1) in
      let index := le_value (slice header 9 8) in
      if negb (valid_kind kind) then PBad "unknown record kind"
      else if decide (MAX_PAYLOAD < len ∨ Z.of_nat (length buf - pos - h) < len) then
        PBad "record runs past the end of the segment"
      else
        let n := Z.to_nat len in
        let payload := slice buf (pos + h) n in
        if decide (record_crc kind index payload = crc)
        then PRecord kind index payload (pos + h + n)
        else PBad "checksum mismatch".

(** ** Files *)

Record File := mkFile { f_data : bytes; f_durable : bytes }.

(** [fs_faults] is the outcome of the I/O calls to come: [None] is success,
    [Some n] a failure (of a write, after [n] bytes); none left is
    success. *)
Record Fs := mkFs { fs_files : gmap bytes File; fs_faults : list (option nat) }.

Inductive IoError :=
| IoFault
| NotFound
| AlreadyExists
| UnexpectedEof
| InvalidData (why : string)
| InvalidInput.

Definition io := prog Fs IoError.

Definition next_fault : io (option nat) := λ s,
  match fs_faults s with
  | [] => (Ok None, s)
  | f :: fs => (Ok f, mkFs (fs_files s) fs)
  end.

(** A call that only succeeds or fails. *)
Definition io_guard : io () :=
  let* f := next_fault in
  match f with None => pret () | Some _ => pfail IoFault end.

Definition get_file (name : bytes) : io File := λ s,
  match fs_files s !! name with Some f => (Ok f, s) | None => (Err NotFound, s) end.

Definition set_file (name : bytes) (f : File) : io () :=
  pmodify (λ s, mkFs (<[name := f]> (fs_files s)) (fs_faults s)).

Definition zeros (n : nat) : bytes := replicate n x00.

(** [data] written at [off]; a gap before it reads as zeros. *)
Definition write_at (old : bytes) (off : nat) (data : bytes) : bytes :=
  take off old ++ zeros (off - length old) ++ data ++ drop (off + length data) old.

Definition write_all_at (name data : bytes) (off : nat) : io () :=
  let* f := next_fault in
  let* file := get_file name in
  match f with
  | None => set_file name (mkFile (write_at (f_data file) off data) (f_durable file))
  | Some n =>
      let* _ := set_file name (mkFile (write_at (f_data file) off (take n data)) (f_durable file)) in
      pfail IoFault
  end.

(** [sync_data], [sync_all]. *)
Definition sync_file (name : bytes) : io () :=
  let* _ := io_guard in
  let* file := get_file name in
  set_file name (mkFile (f_data file) (f_data file)).

Definition read_file (name : bytes) : io bytes :=
  let* _ := io_guard in
  let* file := get_file name in
  pret (f_data file).

(** [open] followed by [set_len]; the files here only shrink by it. *)
Definition set_len (name : bytes) (n : nat) : io () :=
  let* _ := io_guard in
  let* file := get_file name in
  let* _ := io_guard in
  set_file name (mkFile (take n (f_data file) ++ zeros (n - length (f_data file))) (f_durable file)).

Definition rename (from to : bytes) : io () :=
  let* _ := io_guard in
  let* file := get_file from in
  pmodify (λ s, mkFs (<[to := file]> (delete from (fs_files s))) (fs_faults s)).

Definition remove_file (name : bytes) : io () :=
  let* _ := io_guard in
  let* _ := get_file name in
  pmodify (λ s, mkFs (delete name (fs_files s)) (fs_faults s)).

(** [let _ = call]: the outcome is dropped. *)
Definition ignore (m : io ()) : io () := λ s, (Ok (), (m s).2).

Definition sync_dir : io () := io_guard.
Definition create_dir_all : io () := io_guard.

(** Best effort: a failed [fallocate] leaves the file as it is. *)
Definition preallocate (name : bytes) (len : Z) : io () :=
  ignore (
    let* _ := io_guard in
    let* file := get_file name in
    set_file name
      (mkFile (f_data file ++ zeros (Z.to_nat len - length (f_data file))) (f_durable file))).

(** ** Segment names: [{seq:016x}.wal] *)

Definition hex_digit (d : Z) : byte := if d <? 10 then byte_of (48 + d) else byte_of (87 + d).

Fixpoint hex_fixed (n : nat) (z : Z) : bytes :=
  match n with O => [] | S n' => hex_digit (z / 16 ^ Z.of_nat n' mod 16) :: hex_fixed n' z end.

Definition WAL_SUFFIX : bytes := str ".wal".
Definition SPARE : bytes := str "spare.wal.tmp".

Definition segment_path (seq : Z) : bytes := hex_fixed 16 seq ++ WAL_SUFFIX.

(** [char::to_digit(16)]. *)
Definition to_digit (b : byte) : option Z :=
  let c := byte_val b in
  if (48 <=? c) && (c <=? 57) then Some (c - 48)
  else if (97 <=? c) && (c <=? 102) then Some (c - 87)
  else if (65 <=? c) && (c <=? 70) then Some (c - 55)
  else None.

Fixpoint from_hex (acc : Z) (bs : bytes) : option Z :=
  match bs with
  | [] => Some acc
  | b :: bs' => match to_digit b with Some d => from_hex (16 * acc + d) bs' | None => None end
  end.

(** [u64::from_str_radix(stem, 16)] on a stem of 16 bytes: a leading plus
    sign is allowed, and 16 digits cannot overflow. *)
Definition from_str_radix16 (stem : bytes) : option Z :=
  match stem with
  | [] => None
  | b :: rest => if decide (b = x2b) then match rest with [] => None | _ => from_hex 0 rest end
                 else from_hex 0 stem
  end.

Definition strip_suffix (name suffix : bytes) : option bytes :=
  let n := (length name - length suffix)%nat in
  if decide (drop n name = suffix) then Some (take n name) else None.

Definition segment_seq (name : bytes) : option Z :=
  match strip_suffix name WAL_SUFFIX with
  | Some stem => if decide (length stem = 16%nat) then from_str_radix16 stem else None
  | None => None
  end.

Definition list_segments : io (list Z) :=
  let* _ := io_guard in
  let* s := pget in
  pret (merge_sort Z.le (omap (λ e, segment_seq e.1) (map_to_list (fs_files s)))).

(** ** The spare segment

    A background thread fills it; here it runs when it is joined, since
    only it touches the file until then. *)

Fixpoint zero_fill (fuel : nat) (pos bytes : Z) : io () :=
  match fuel with
  | O => pret ()
  | S fuel' =>
      if pos <? bytes then
        let n := Z.min (bytes - pos) (2 ^ 20) in
        let* _ := write_all_at SPARE (zeros (Z.to_nat n)) (Z.to_nat pos) in
        zero_fill fuel' (pos + n) bytes
      else pret ()
  end.

Definition prepare_spare (bytes : Z) : io () :=
  let* _ := io_guard in
  let* _ := set_file SPARE (mkFile [] []) in
  let* _ := zero_fill (Z.to_nat bytes) 0 bytes in
  sync_file SPARE.

(** Whether the thread could be started. *)
Definition spawn_spare : io bool :=
  let* f := next_fault in
  pret (match f with None => true | Some _ => false end).

(** [create_new(true)]. *)
Definition create_new (name : bytes) : io () :=
  let* _ := io_guard in
  λ s, match fs_files s !! name with
       | Some _ => (Err AlreadyExists, s)
       | None => set_file name (mkFile [] []) s
       end.

Definition create_segment (seq bytes : Z) : io () :=
  let* _ := create_new (segment_path seq) in
  let* _ := preallocate (segment_path seq) bytes in
  let* _ := sync_file (segment_path seq) in
  sync_dir.

(** True with a zero-filled segment. *)
Definition install_spare (seq bytes : Z) (spare : bool) : io bool :=
  let ready : io bool := λ s,
    if spare then
      match prepare_spare bytes s with (Ok _, s') => (Ok true, s') | (Err _, s') => (Ok false, s') end
    else (Ok false, s) in
  let* ok := ready in
  if ok then
    let* _ := rename SPARE (segment_path seq) in
    let* _ := sync_dir in
    pret true
  else
    let* _ := ignore (remove_file SPARE) in
    let* _ := create_segment seq bytes in
    pret false.

(** ** Reading *)

Record Loc := mkLoc { l_segment : Z; l_offset : nat; l_len : Z }.

#[global] Instance Loc_eq_dec : EqDecision Loc.
Proof. solve_decision. Defined.

(** [WalReader::read]; the cache of open files is not kept, since a file
    is not replaced while the log names it. *)
Definition reader_read (loc : Loc) : io bytes :=
  let* _ := io_guard in
  let* file := get_file (segment_path (l_segment loc)) in
  let* _ := io_guard in
  let n := (HEADER_LEN + Z.to_nat (l_len loc))%nat in
  if decide (length (f_data file) < l_offset loc + n)%nat then pfail UnexpectedEof
  else
    match parse (slice (f_data file) (l_offset loc) n) 0 with
    | PRecord _ _ payload _ =>
        if decide (Z.of_nat (length payload) = l_len loc) then pret payload
        else pfail (InvalidData "no record")
    | PBad why => pfail (InvalidData why)
    | PEnd => pfail (InvalidData "no record")
    end.

(** ** Replay *)

Record Replay := mkReplay {
  entries : gmap Z Loc;
  meta : gmap Z (Z * bytes);
  torn_tail : bool
}.

Definition Replay_default : Replay := mkReplay ∅ ∅ false.

(** What [BTreeMap::split_off] leaves, and what it returns. *)
Definition keep_below {A} (i : Z) (m : gmap Z A) : gmap Z A := base.filter (λ e, e.1 < i) m.
Definition split_off {A} (i : Z) (m : gmap Z A) : gmap Z A := base.filter (λ e, i ≤ e.1) m.

Definition replay_record (kind index : Z) (payload : bytes) (loc : Loc) (r : Replay) : Replay :=
  if kind =? KIND_ENTRY then
    let purged := fst <$> meta r !! KIND_PURGE in
    let es := keep_below index (entries r) in
    let es := if match purged with Some p => p <? index | None => true end
              then <[index := loc]> es else es in
    mkReplay es (meta r) (torn_tail r)
  else if kind =? KIND_TRUNCATE then
    mkReplay (keep_below index (entries r)) (meta r) (torn_tail r)
  else if kind =? KIND_PURGE then
    let es := split_off (Z.min (index + 1) u64_max) (entries r) in
    let es := if index =? u64_max then ∅ else es in
    mkReplay es (<[kind := (index, payload)]> (meta r)) (torn_tail r)
  else mkReplay (entries r) (<[kind := (index, payload)]> (meta r)) (torn_tail r).

Definition bump_entry (kind index : Z) (max_entry : option Z) : option Z :=
  if kind =? KIND_ENTRY
  then Some (match max_entry with Some m => Z.max m index | None => index end)
  else max_entry.

(** The loop over one segment's bytes; it ends at the end of the data or
    at a bad record.  Each turn moves past a header, so the length is
    enough fuel. *)
Fixpoint replay_segment (fuel : nat) (seq : Z) (buf : bytes) (pos : nat) (max_entry : option Z)
    (r : Replay) : Replay * option Z * nat * option string :=
  match parse buf pos with
  | PRecord kind index payload next =>
      match fuel with
      | O => (r, max_entry, pos, None)
      | S fuel' =>
          let loc := mkLoc seq pos (Z.of_nat (length payload)) in
          replay_segment fuel' seq buf next (bump_entry kind index max_entry)
            (replay_record kind index payload loc r)
      end
  | PEnd => (r, max_entry, pos, None)
  | PBad why => (r, max_entry, pos, Some why)
  end.

(** ** The writer *)

Record Segment := mkSegment { seg_seq : Z; seg_max_entry : option Z }.

Record Wal := mkWal {
  segment_bytes : Z;
  segments : list Segment;
  offset : nat;
  sticky : gmap Z (Z * bytes);
  spare : bool;
  preallocated_only : bool
}.

(** Cut a torn tail off the last segment. *)
Definition cut_tail (sb : Z) (seq : Z) (pos : nat) : io () :=
  let* _ := set_len (segment_path seq) pos in
  let* _ := preallocate (segment_path seq) (Z.max sb (Z.of_nat pos)) in
  sync_file (segment_path seq).

(** The loop of [open] over the segments, with the position the last one
    ends at. *)
Fixpoint open_segments (sb : Z) (seqs : list Z) (segs : list Segment) (r : Replay)
    : io (list Segment * Replay * nat) :=
  match seqs with
  | [] => pret (segs, r, O)
  | seq :: rest =>
      let* buf := read_file (segment_path seq) in
      let '(r, max_entry, pos, bad) := replay_segment (length buf) seq buf 0 None r in
      let segs := segs ++ [mkSegment seq max_entry] in
      match bad, rest with
      | None, [] => pret (segs, r, pos)
      | Some _, [] =>
          let* _ := cut_tail sb seq pos in
          pret (segs, mkReplay (entries r) (meta r) true, pos)
      | None, _ => open_segments sb rest segs r
      | Some _, _ => pfail (InvalidData "damaged")
      end
  end.

Definition open (segment_bytes : Z) : io (Wal * Replay) :=
  let sb := Z.max segment_bytes 4096 in
  let* _ := create_dir_all in
  let* seqs := list_segments in
  let* _ := ignore (remove_file SPARE) in
  match seqs with
  | [] =>
      let* _ := create_segment 0 sb in
      let* sp := spawn_spare in
      pret (mkWal sb [mkSegment 0 None] 0 ∅ sp true, Replay_default)
  | _ =>
      let* out := open_segments sb seqs [] Replay_default in
      let '(segs, r, pos) := out in
      let* _ := io_guard in
      let* sp := spawn_spare in
      pret (mkWal sb segs pos (meta r) sp false, r)
  end.

(** The methods of [Wal] also change the directory. *)
Definition wio := prog (Wal * Fs) IoError.

Definition on_fs {A} (m : io A) : wio A := λ s,
  let '(r, fs) := m s.2 in (r, (s.1, fs)).

Definition get_wal : wio Wal := λ s, (Ok s.1, s).
Definition set_wal (f : Wal → Wal) : wio () := pmodify (λ s, (f s.1, s.2)).

Definition set_offset (n : nat) (w : Wal) : Wal :=
  mkWal (segment_bytes w) (segments w) n (sticky w) (spare w) (preallocated_only w).
Definition set_segments (l : list Segment) (w : Wal) : Wal :=
  mkWal (segment_bytes w) l (offset w) (sticky w) (spare w) (preallocated_only w).
Definition set_sticky (m : gmap Z (Z * bytes)) (w : Wal) : Wal :=
  mkWal (segment_bytes w) (segments w) (offset w) m (spare w) (preallocated_only w).
Definition set_spare (b : bool) (w : Wal) : Wal :=
  mkWal (segment_bytes w) (segments w) (offset w) (sticky w) b (preallocated_only w).
Definition set_preallocated_only (b : bool) (w : Wal) : Wal :=
  mkWal (segment_bytes w) (segments w) (offset w) (sticky w) (spare w) b.

(** The last segment's number; there always is one. *)
Definition last_seq (w : Wal) : Z := from_option seg_seq 0 (last (segments w)).

(** The file handle [self.file] is the last segment's. *)
Definition last_path (w : Wal) : bytes := segment_path (last_seq w).

(** The sticky values in key order. *)
Definition sticky_records (m : gmap Z (Z * bytes)) : list Rec :=
  omap (λ k, (λ v : Z * bytes, mkRec k v.1 v.2) <$> m !! k) STICKY.

Definition encode (r : Rec) : bytes := encode_record [] (r_kind r) (r_index r) (r_payload r).

Definition encode_all (rs : list Rec) : bytes := concat (encode <$> rs).

Definition write_buf (buf : bytes) : wio () :=
  match buf with
  | [] => pret ()
  | _ =>
      let* w := get_wal in
      let* _ := on_fs (write_all_at (last_path w) buf (offset w)) in
      set_wal (λ w, set_offset (offset w + length buf) w)
  end.

Definition roll : wio () :=
  let* w := get_wal in
  let* _ := on_fs (sync_file (last_path w)) in
  let next := last_seq w + 1 in
  let* _ := set_wal (set_spare false) in
  let* zero_filled := on_fs (install_spare next (segment_bytes w) (spare w)) in
  let* _ := set_wal (set_preallocated_only (negb zero_filled)) in
  let* sp := on_fs spawn_spare in
  let* _ := set_wal (λ w, set_segments (segments w ++ [mkSegment next None])
                            (set_offset 0 (set_spare sp w))) in
  write_buf (encode_all (sticky_records (sticky w))).

(** One record encoded into [buf]: [seg.max_entry] and [sticky] follow. *)
Definition note_last (kind index : Z) (segs : list Segment) : list Segment :=
  match last segs with
  | Some s => take (length segs - 1) segs ++ [mkSegment (seg_seq s) (bump_entry kind index (seg_max_entry s))]
  | None => segs
  end.

Definition note_record (r : Rec) (w : Wal) : Wal :=
  let w := set_segments (note_last (r_kind r) (r_index r) (segments w)) w in
  if decide (r_kind r ∈ STICKY)
  then set_sticky (<[r_kind r := (r_index r, r_payload r)]> (sticky w)) w
  else w.

(** A full segment: write what is encoded and start the next one. *)
Definition make_room (buf : bytes) : wio bytes :=
  let* w := get_wal in
  let used := (offset w + length buf)%nat in
  if (segment_bytes w <=? Z.of_nat used) && (0 <? used)%nat then
    let* _ := write_buf buf in
    let* _ := roll in
    pret []
  else pret buf.

Fixpoint append_loop (records : list Rec) (buf : bytes) (locs : list Loc) : wio (bytes * list Loc) :=
  match records with
  | [] => pret (buf, locs)
  | r :: rest =>
      if negb (valid_kind (r_kind r)) || (MAX_PAYLOAD <? Z.of_nat (length (r_payload r)))
      then pfail InvalidInput
      else
        let* buf := make_room buf in
        let* w := get_wal in
        let at_ := (offset w + length buf)%nat in
        let buf := encode_record buf (r_kind r) (r_index r) (r_payload r) in
        let loc := mkLoc (last_seq w) at_ (Z.of_nat (length (r_payload r))) in
        let* _ := set_wal (note_record r) in
        append_loop rest buf (locs ++ [loc])
  end.

(** [spare.is_some_and(|h| h.is_finished())]. *)
Definition spare_finished (w : Wal) : wio bool :=
  if spare w then
    let* f := on_fs next_fault in
    pret (match f with None => true | Some _ => false end)
  else pret false.

(** Leave a segment that is only preallocated once the spare is ready. *)
Definition move_to_spare : wio () :=
  let* w := get_wal in
  if preallocated_only w && (0 <? offset w)%nat then
    let* ready := spare_finished w in
    if ready : bool then roll else pret ()
  else pret ().

Definition append (records : list Rec) : wio (list Loc) :=
  let* _ := move_to_spare in
  let* out := append_loop records [] [] in
  let* _ := write_buf out.1 in
  pret out.2.

Definition wal_sync : wio () :=
  let* w := get_wal in
  on_fs (sync_file (last_path w)).

Fixpoint drop_loop (segs : list Segment) (index : Z) (dropped : nat) : wio nat :=
  match segs with
  | [] => pret dropped
  | s :: rest =>
      if (0 <? length rest)%nat && match seg_max_entry s with Some m => m <=? index | None => true end
      then
        let* _ := set_wal (set_segments rest) in
        let* _ := on_fs (remove_file (segment_path (seg_seq s))) in
        drop_loop rest index (S dropped)
      else pret dropped
  end.

Definition drop_segments_upto (index : Z) : wio nat :=
  let* w := get_wal in
  let* dropped := drop_loop (segments w) index 0 in
  let* _ := (if (0 <? dropped)%nat then on_fs sync_dir else pret ()) in
  pret dropped.

Definition segment_count (w : Wal) : nat := length (segments w).
