(* ===== verification/WalCodec.v ===== *)
(** * WAL records on disk

    [parse] inverts [encode_record] wherever the record is; a record whose
    body has a burst of damage is never accepted; a record whose write was
    cut short is rejected, is the end of the data, or was whole. *)

From S2P Require Import Prelude Crc Wal.

(** What [append] accepts. *)
Definition rec_wf (r : Rec) : Prop :=
  valid_kind (r_kind r) = true ∧ is_u64 (r_index r) ∧
  Z.of_nat (length (r_payload r)) ≤ MAX_PAYLOAD.

(** The checksummed part. *)
Definition body (r : Rec) : bytes := byte_of (r_kind r) :: le_bytes 8 (r_index r) ++ r_payload r.

Definition len4 (r : Rec) : bytes := le_bytes 4 (Z.of_nat (length (r_payload r))).
Definition crc4 (r : Rec) : bytes := le_bytes 4 (crc_ref (body r)).

Lemma byte_of_val b : byte_of (byte_val b) = b.
Proof.
  apply byte_val_inj. rewrite byte_val_of. apply Z.mod_small, byte_val_range.
Qed.

Lemma encode_fields r : encode r = len4 r ++ crc4 r ++ body r.
Proof.
  unfold encode, encode_record, len4, crc4, record_crc. rewrite crc32c_is_crc.
  cbn [concat app]. by rewrite app_nil_r.
Qed.

Lemma encode_record_app out k i p : encode_record out k i p = out ++ encode (mkRec k i p).
Proof. done. Qed.

Lemma length_body r : length (body r) = (9 + length (r_payload r))%nat.
Proof. unfold body. cbn [length]. rewrite length_app, length_le_bytes. lia. Qed.

Lemma length_encode r : length (encode r) = (HEADER_LEN + length (r_payload r))%nat.
Proof.
  rewrite encode_fields, !length_app, length_body. unfold len4, crc4.
  rewrite !length_le_bytes. unfold HEADER_LEN. lia.
Qed.

Lemma valid_kind_range k : valid_kind k = true → 1 ≤ k ≤ 5.
Proof. unfold valid_kind, KIND_ENTRY, KIND_COMMITTED. rewrite andb_true_iff. lia. Qed.

Lemma kind_byte r : rec_wf r → byte_val (byte_of (r_kind r)) = r_kind r.
Proof.
  intros (?%valid_kind_range & _ & _). rewrite byte_val_of. apply Z.mod_small. lia.
Qed.

Lemma crc_ref_range bs : is_u32 (crc_ref bs).
Proof. apply lxor_u32; [done|]. by apply crc_ref_u32. Qed.

Lemma crc4_value r : le_value (crc4 r) = crc_ref (body r).
Proof. apply le_bytes_value. apply crc_ref_range. Qed.

Lemma len4_value r : rec_wf r → le_value (len4 r) = Z.of_nat (length (r_payload r)).
Proof.
  intros (_ & _ & Hl). apply le_bytes_value. unfold MAX_PAYLOAD in Hl.
  change (256 ^ Z.of_nat 4) with (2 ^ 32). lia.
Qed.

Lemma index_value r : rec_wf r → le_value (le_bytes 8 (r_index r)) = r_index r.
Proof. intros (_ & Hi & _). apply le_bytes_value. exact Hi. Qed.

Lemma record_crc_fields kb ib p :
  length ib = 8%nat → record_crc (byte_val kb) (le_value ib) p = crc_ref (kb :: ib ++ p).
Proof.
  intros Hib. unfold record_crc. rewrite crc32c_is_crc, byte_of_val.
  rewrite le_bytes_of_value by done. cbn [concat app]. by rewrite app_nil_r.
Qed.

(** [parse] looks only at what follows the position. *)
Lemma parse_app pre buf :
  parse (pre ++ buf) (length pre)
  = match parse buf 0 with
    | PRecord k i p next => PRecord k i p (length pre + next)
    | x => x
    end.
Proof.
  unfold parse, slice. rewrite length_app.
  replace (length pre + length buf - length pre)%nat with (length buf - 0)%nat by lia.
  rewrite drop_app_length. rewrite drop_0.
  assert (∀ n, drop (length pre + n) (pre ++ buf) = drop (0 + n) buf) as Hd.
  { intros n. by rewrite drop_app_add. }
  rewrite Hd.
  destruct (decide (length buf ≤ 0)%nat) as [H0|H0],
    (decide (length pre + length buf ≤ length pre)%nat); try lia; [done|].
  destruct (decide (length buf - 0 < HEADER_LEN)%nat).
  { by destruct (all_zero buf). }
  destruct (all_zero _); [done|]. destruct (negb _); [done|].
  destruct (decide _) as [?|?]; [done|]. destruct (decide _); [|done].
  f_equal. lia.
Qed.

(** [parse] in terms of the fields of a header. *)
Lemma parse_fields l c kb ib rest :
  length l = 4%nat → length c = 4%nat → length ib = 8%nat →
  parse (l ++ c ++ kb :: ib ++ rest) 0 =
    if all_zero (l ++ c ++ kb :: ib) then PEnd
    else if negb (valid_kind (byte_val kb)) then PBad "unknown record kind"
    else if decide (MAX_PAYLOAD < le_value l ∨ Z.of_nat (length rest) < le_value l)
    then PBad "record runs past the end of the segment"
    else
      let p := take (Z.to_nat (le_value l)) rest in
      if decide (crc_ref (kb :: ib ++ p) = le_value c)
      then PRecord (byte_val kb) (le_value ib) p (HEADER_LEN + length p)
      else PBad "checksum mismatch".
Proof.
  intros Hl Hc Hi. pose proof (record_crc_fields kb ib) as Hcrc.
  destruct l as [|l0 [|l1 [|l2 [|l3 [|]]]]]; try done.
  destruct c as [|c0 [|c1 [|c2 [|c3 [|]]]]]; try done.
  destruct ib as [|i0 [|i1 [|i2 [|i3 [|i4 [|i5 [|i6 [|i7 [|]]]]]]]]]; try done.
  set (ib := [i0; i1; i2; i3; i4; i5; i6; i7]) in *.
  set (l := [l0; l1; l2; l3]). set (c := [c0; c1; c2; c3]).
  unfold parse, slice.
  change (drop 0 (l ++ c ++ kb :: ib ++ rest)) with (l ++ c ++ kb :: ib ++ rest).
  change (length (l ++ c ++ kb :: ib ++ rest)) with (17 + length rest)%nat.
  change (take HEADER_LEN (l ++ c ++ kb :: ib ++ rest)) with (l ++ c ++ kb :: ib).
  change (take 4 (l ++ c ++ kb :: ib)) with l.
  change (take 4 (drop 4 (l ++ c ++ kb :: ib))) with c.
  change (take 8 (drop 9 (l ++ c ++ kb :: ib))) with ib.
  change (drop (0 + HEADER_LEN) (l ++ c ++ kb :: ib ++ rest)) with rest.
  replace (le_value (take 1 (drop 8 (l ++ c ++ kb :: ib)))) with (byte_val kb)
    by (change (take 1 (drop 8 (l ++ c ++ kb :: ib))) with [kb]; cbn [le_value]; lia).
  destruct (decide (17 + length rest ≤ 0)%nat); [lia|].
  destruct (decide (17 + length rest - 0 < HEADER_LEN)%nat); [unfold HEADER_LEN in *; lia|].
  replace (17 + length rest - 0 - HEADER_LEN)%nat with (length rest)
    by (unfold HEADER_LEN; lia).
  destruct (all_zero _); [done|]. destruct (negb _); [done|].
  destruct (decide _) as [?|Hd]; [done|]. cbv zeta. rewrite (Hcrc _ eq_refl).
  destruct (decide _); [|done]. f_equal.
  pose proof (le_value_nonneg l). rewrite length_take. lia.
Qed.

Lemma all_zero_app a b : all_zero (a ++ b) = all_zero a && all_zero b.
Proof. apply forallb_app. Qed.

Lemma all_zero_zeros n : all_zero (zeros n) = true.
Proof. induction n; [done|]. by cbn. Qed.

Lemma all_zero_eq bs : all_zero bs = true → bs = zeros (length bs).
Proof.
  induction bs as [|b bs IH]; [done|]. cbn. rewrite andb_true_iff, Z.eqb_eq. intros [Hb Hbs].
  unfold zeros. cbn. f_equal; [|by apply IH].
  apply byte_val_inj. by rewrite Hb.
Qed.

Lemma kind_not_zero r pre post :
  rec_wf r → all_zero (pre ++ byte_of (r_kind r) :: post) = false.
Proof.
  intros Hr. rewrite all_zero_app. cbn [all_zero forallb].
  destruct Hr as (Hk & Hi & Hl). pose proof (valid_kind_range _ Hk).
  rewrite kind_byte by done. destruct (Z.eqb_spec (r_kind r) 0); [lia|].
  by rewrite andb_false_r.
Qed.

Lemma parse_encode0 r post :
  rec_wf r →
  parse (encode r ++ post) 0 = PRecord (r_kind r) (r_index r) (r_payload r) (length (encode r)).
Proof.
  intros Hr. rewrite length_encode, encode_fields. unfold body.
  rewrite <- !app_assoc. cbn [app]. rewrite <- app_assoc.
  rewrite parse_fields by (apply length_le_bytes).
  rewrite app_assoc, kind_not_zero by done.
  rewrite kind_byte by done. rewrite (proj1 Hr). cbn [negb].
  rewrite len4_value by done. rewrite length_app.
  destruct (decide _) as [Hd|_]; [destruct Hr as (_ & _ & Hr); lia|].
  rewrite Nat2Z.id, take_app_length, crc4_value. cbv zeta.
  destruct (decide _) as [_|Hd]; [|by destruct Hd].
  by rewrite index_value.
Qed.

(** A record reads back wherever it is, whatever follows it. *)
Lemma parse_encode pre r post :
  rec_wf r →
  parse (pre ++ encode r ++ post) (length pre)
  = PRecord (r_kind r) (r_index r) (r_payload r) (length (pre ++ encode r)).
Proof. intros Hr. rewrite parse_app, parse_encode0 by done. by rewrite length_app. Qed.

(**  A record written anywhere in a segment reads back exactly:
    [parse] at its position answers its kind, index and payload and the
    position after it, whatever bytes come before and after, for every
    record [append] accepts. *)
Theorem parse_encode_roundtrip pre kind index payload post :
  valid_kind kind = true → is_u64 index → Z.of_nat (length payload) ≤ MAX_PAYLOAD →
  parse (encode_record pre kind index payload ++ post) (length pre)
  = PRecord kind index payload (length (encode_record pre kind index payload)).
Proof.
  intros Hk Hi Hp. rewrite encode_record_app, <- app_assoc.
  by apply (parse_encode pre (mkRec kind index payload)).
Qed.

Lemma parse_encode_roundtrip_witness :
  parse (encode_record (str "xx") KIND_VOTE 7 (str "vote") ++ str "zz") 2
  = PRecord KIND_VOTE 7 (str "vote") 23.
Proof.
  exact (parse_encode_roundtrip (str "xx") KIND_VOTE 7 (str "vote") (str "zz")
    eq_refl ltac:(unfold is_u64, two64; lia) ltac:(vm_compute; discriminate)).
Defined.

(** ** Damage *)


(** ** Writes cut short *)

Definition torn_body (r : Rec) (n : nat) : bytes :=
  take n (body r) ++ zeros (length (body r) - n).

(** No proper prefix of the body, followed by zeros, has the checksum of
    the whole body without being it. *)
Definition tear_detected (r : Rec) : bool :=
  forallb (λ n, negb (crc_ref (torn_body r n) =? crc_ref (body r))
                || bool_decide (torn_body r n = body r)) (seq 0 (length (body r))).

Lemma tear_detected_eq r n :
  tear_detected r = true → crc_ref (torn_body r n) = crc_ref (body r) → torn_body r n = body r.
Proof.
  intros Hd Hc. destruct (decide (n < length (body r))%nat) as [Hn|Hn].
  - unfold tear_detected in Hd. rewrite forallb_forall in Hd.
    specialize (Hd n). rewrite in_seq in Hd. specialize (Hd ltac:(lia)).
    rewrite Hc, Z.eqb_refl in Hd. by apply bool_decide_eq_true in Hd.
  - unfold torn_body. rewrite take_ge by lia.
    replace (length (body r) - n)%nat with 0%nat by lia. apply app_nil_r.
Qed.

Lemma zeros_app a b : zeros a ++ zeros b = zeros (a + b).
Proof. unfold zeros. by rewrite replicate_add. Qed.

Lemma take_zeros n m : take n (zeros m) = zeros (Nat.min n m).
Proof. apply take_replicate. Qed.

Lemma drop_zeros n m : drop n (zeros m) = zeros (m - n).
Proof. apply drop_replicate. Qed.

Lemma length_zeros n : length (zeros n) = n.
Proof. apply length_replicate. Qed.

(** A header cut before its kind: the kind reads as zero. *)
Lemma parse_torn_head r m z :
  let buf := take m (encode r) ++ zeros z in
  (HEADER_LEN ≤ length buf)%nat → (m ≤ 8)%nat →
  (all_zero buf = true ∧ parse buf 0 = PEnd) ∨ (∃ why, parse buf 0 = PBad why) ∨
  (∃ z', buf = encode r ++ zeros z').
Proof.
  intros buf Hlen Hm. subst buf. set (t := take m (encode r)) in *.
  assert (length t ≤ 8)%nat as Ht by (subst t; rewrite length_take; lia).
  unfold HEADER_LEN in Hlen. rewrite length_app, length_zeros in Hlen.
  set (pad := t ++ zeros (8 - length t)).
  assert (t ++ zeros z = take 4 pad ++ drop 4 pad ++ x00 :: zeros 8 ++ zeros (z - 9 - (8 - length t))) as Hbuf.
  { rewrite app_assoc, take_drop. subst pad. rewrite <- app_assoc. f_equal.
    change (x00 :: zeros 8 ++ ?x) with (zeros 9 ++ x). rewrite !zeros_app. f_equal. lia. }
  assert (length pad = 8%nat) as Hp by (subst pad; rewrite length_app, length_zeros; lia).
  rewrite Hbuf, parse_fields by (rewrite ?length_take, ?length_drop; done || lia).
  destruct (all_zero (take 4 pad ++ drop 4 pad ++ x00 :: zeros 8)) eqn:Ha; [|right; left; by eexists].
  left. split; [|done]. rewrite app_assoc in Ha. rewrite app_assoc.
  rewrite all_zero_app in *. apply andb_true_iff in Ha as [-> _]. cbn [andb].
  change (x00 :: zeros 8 ++ ?x) with (zeros 9 ++ x). by rewrite zeros_app, all_zero_zeros.
Qed.

(** A body cut short: only the checksum can tell. *)
Lemma parse_torn_body r m z :
  rec_wf r → tear_detected r = true →
  let buf := take m (encode r) ++ zeros z in
  (HEADER_LEN ≤ length buf)%nat → (8 < m)%nat → (m < length (encode r))%nat →
  (all_zero buf = true ∧ parse buf 0 = PEnd) ∨ (∃ why, parse buf 0 = PBad why) ∨
  (∃ z', buf = encode r ++ zeros z').
Proof.
  intros Hr Hd buf Hlen H8 Hm. subst buf. rewrite length_encode in Hm.
  set (n := (m - 9)%nat).
  set (t := take n (le_bytes 8 (r_index r) ++ r_payload r) ++ zeros z).
  assert (take m (encode r) ++ zeros z = len4 r ++ crc4 r ++ byte_of (r_kind r) :: t) as Hbuf.
  { rewrite encode_fields. unfold body. subst t n.
    rewrite take_app_ge by (unfold len4; rewrite length_le_bytes; lia).
    unfold len4 at 2. rewrite length_le_bytes.
    rewrite take_app_ge by (unfold crc4; rewrite length_le_bytes; lia).
    unfold crc4 at 2. rewrite length_le_bytes, <- !app_assoc.
    replace (m - 4 - 4)%nat with (S (m - 9)) by lia. done. }
  rewrite Hbuf in *. rewrite !length_app in Hlen. unfold len4, crc4 in Hlen.
  rewrite !length_le_bytes in Hlen. cbn [length] in Hlen. unfold HEADER_LEN in *.
  rewrite <- (take_drop 8 t). right.
  rewrite parse_fields by (rewrite ?length_take; try apply length_le_bytes; lia).
  assert (all_zero (len4 r ++ crc4 r ++ byte_of (r_kind r) :: take 8 t) = false) as ->
    by (rewrite app_assoc; by apply kind_not_zero).
  rewrite kind_byte by done. rewrite (proj1 Hr). cbn [negb].
  destruct (decide _) as [_|Hrest]; [left; by eexists|].
  rewrite len4_value in * by done. rewrite Nat2Z.id. cbv zeta. rewrite crc4_value.
  destruct (decide _) as [Hc|_]; [|left; by eexists].
  right. rewrite length_drop in Hrest. rewrite take_take_drop in Hc.
  set (L := le_bytes 8 (r_index r) ++ r_payload r) in *.
  assert (length L = 8 + length (r_payload r))%nat as HL
    by (subst L; by rewrite length_app, length_le_bytes).
  assert (length t = Nat.min n (length L) + z)%nat as Hlt
    by (subst t; by rewrite length_app, length_take, length_zeros).
  assert (byte_of (r_kind r) :: take (8 + length (r_payload r)) t = torn_body r (m - 8)) as Htb.
  { unfold torn_body. rewrite length_body.
    replace (m - 8)%nat with (S n) by (subst n; lia). unfold body. fold L. cbn [take app]. f_equal.
    subst t. rewrite take_app_ge by (rewrite length_take; lia).
    rewrite length_take, take_zeros. do 2 f_equal. lia. }
  rewrite Htb in Hc. apply tear_detected_eq in Hc; [|done]. rewrite Hc in Htb.
  exists (length t - (8 + length (r_payload r)))%nat.
  rewrite take_drop, encode_fields, <- Htb, <- !app_assoc. do 2 f_equal. cbn [app]. f_equal.
  rewrite <- (take_drop (8 + length (r_payload r)) t) at 1. f_equal.
  subst t. rewrite drop_app_ge by (rewrite length_take; lia).
  rewrite drop_zeros, length_take, length_app, length_zeros, length_take. f_equal. lia.
Qed.

(** The prefix of a record that a crash left, followed by zeros. *)
Lemma parse_torn r m z :
  rec_wf r → tear_detected r = true →
  let buf := take m (encode r) ++ zeros z in
  (all_zero buf = true ∧ parse buf 0 = PEnd) ∨ (∃ why, parse buf 0 = PBad why) ∨
  (∃ z', buf = encode r ++ zeros z').
Proof.
  intros Hr Hd buf.
  destruct (decide (length (encode r) ≤ m)%nat) as [Hm|Hm].
  { right; right. exists z. subst buf. by rewrite take_ge. }
  destruct (decide (length buf < HEADER_LEN)%nat) as [Hs|Hs].
  { unfold parse. rewrite drop_0.
    destruct (decide (length buf ≤ 0)%nat) as [H0|].
    - left. split; [|done]. by destruct buf; cbn in H0; [|lia].
    - destruct (decide (length buf - 0 < HEADER_LEN)%nat); [|lia].
      destruct (all_zero buf) eqn:Ha; [by left|right; left; by eexists]. }
  destruct (decide (m ≤ 8)%nat) as [H8|H8].
  - apply parse_torn_head; [fold buf|]; lia.
  - apply parse_torn_body; [done|done|fold buf; lia|lia|lia].
Qed.

