(* ===== verification/WalLog.v ===== *)
(** * What a WAL means

    [wal_log] is the meaning of a sequence of records, as the comments of
    [raft_wal.rs] give it.  Replaying the bytes of a segment ([replay_segment])
    follows it, with each entry's place in the file for its payload; a
    segment cut short by a crash replays to a prefix of its records. *)

From S2P Require Import Prelude Crc Wal WalCodec.

(** ** The meaning of records *)

Record Log := mkLog { log_entries : gmap Z bytes; log_meta : gmap Z (Z * bytes) }.

Definition Log_empty : Log := mkLog ∅ ∅.

Definition keep_above {A} (i : Z) (m : gmap Z A) : gmap Z A := base.filter (λ e, i < e.1) m.

(** [KIND_ENTRY] at [i]: the entry at [i], unless purged; entries at [>= i]
    are gone.  [KIND_TRUNCATE]: entries at [>= i] are gone.  [KIND_PURGE]:
    entries at [<= i] are gone.  The last value of each sticky kind stays. *)
Definition log_step (l : Log) (r : Rec) : Log :=
  let i := r_index r in
  let kept := (r_index r, r_payload r) in
  if r_kind r =? KIND_ENTRY then
    let below := keep_below i (log_entries l) in
    match log_meta l !! KIND_PURGE with
    | Some (p, _) => if i <=? p then mkLog below (log_meta l)
                     else mkLog (<[i := r_payload r]> below) (log_meta l)
    | None => mkLog (<[i := r_payload r]> below) (log_meta l)
    end
  else if r_kind r =? KIND_TRUNCATE then
    mkLog (keep_below i (log_entries l)) (log_meta l)
  else if r_kind r =? KIND_PURGE then
    mkLog (keep_above i (log_entries l)) (<[KIND_PURGE := kept]> (log_meta l))
  else mkLog (log_entries l) (<[r_kind r := kept]> (log_meta l)).

Definition log_from (l : Log) (rs : list Rec) : Log := foldl log_step l rs.
Definition wal_log (rs : list Rec) : Log := log_from Log_empty rs.

Lemma log_from_app l a b : log_from l (a ++ b) = log_from (log_from l a) b.
Proof. apply foldl_app. Qed.

Lemma wal_log_app a b : wal_log (a ++ b) = log_from (wal_log a) b.
Proof. apply foldl_app. Qed.

Definition purge_index (l : Log) : option Z := fst <$> log_meta l !! KIND_PURGE.

(** Entries are above the purge point, and only sticky kinds are kept. *)
Record log_inv (l : Log) : Prop := {
  li_u64 i p : log_entries l !! i = Some p → is_u64 i;
  li_above i p q : log_entries l !! i = Some p → purge_index l = Some q → q < i;
  li_sticky k v : log_meta l !! k = Some v → k ∈ STICKY
}.

Lemma log_inv_empty : log_inv Log_empty.
Proof. split; intros *; cbn; by rewrite lookup_empty. Qed.

Lemma lookup_keep_below {A} i (m : gmap Z A) j :
  keep_below i m !! j = if decide (j < i) then m !! j else None.
Proof.
  apply option_eq. intros x. unfold keep_below. rewrite map_lookup_filter_Some. cbn.
  case_decide; naive_solver.
Qed.

Lemma lookup_keep_above {A} i (m : gmap Z A) j :
  keep_above i m !! j = if decide (i < j) then m !! j else None.
Proof.
  apply option_eq. intros x. unfold keep_above. rewrite map_lookup_filter_Some. cbn.
  case_decide; naive_solver.
Qed.

Lemma lookup_split_off {A} i (m : gmap Z A) j :
  split_off i m !! j = if decide (i ≤ j) then m !! j else None.
Proof.
  apply option_eq. intros x. unfold split_off. rewrite map_lookup_filter_Some. cbn.
  case_decide; naive_solver.
Qed.

(** Fewer entries keep the invariant. *)
Lemma log_inv_sub l es :
  (∀ i p, es !! i = Some p → log_entries l !! i = Some p) → log_inv l → log_inv (mkLog es (log_meta l)).
Proof. intros Hes [H1 H2 H3]. split; cbn; [|intros i p q ??; eapply H2|]; eauto. Qed.

Lemma log_inv_below l i : log_inv l → log_inv (mkLog (keep_below i (log_entries l)) (log_meta l)).
Proof.
  apply log_inv_sub. intros j p. rewrite lookup_keep_below. by case_decide.
Qed.

Lemma log_inv_insert l i p :
  log_inv l → is_u64 i → (∀ q, purge_index l = Some q → q < i) →
  log_inv (mkLog (<[i := p]> (log_entries l)) (log_meta l)).
Proof.
  intros [H1 H2 H3] Hi Hq. split; cbn; [| |done].
  - intros j q [[<- _]|[_ ?]]%lookup_insert_Some; eauto.
  - intros j q p' [[<- _]|[_ ?]]%lookup_insert_Some ?; eauto.
Qed.

Definition unpurged (l : Log) (i : Z) : bool :=
  match purge_index l with Some p => p <? i | None => true end.

Lemma log_step_entry l r :
  r_kind r = KIND_ENTRY →
  log_step l r =
    let below := keep_below (r_index r) (log_entries l) in
    if unpurged l (r_index r)
    then mkLog (<[r_index r := r_payload r]> below) (log_meta l) else mkLog below (log_meta l).
Proof.
  intros Hk. unfold log_step, unpurged, purge_index. rewrite Hk. cbn.
  destruct (log_meta l !! KIND_PURGE) as [[p pb]|]; [cbn|done].
  destruct (Z.leb_spec (r_index r) p), (Z.ltb_spec p (r_index r)); done || lia.
Qed.

Lemma log_step_truncate l r :
  r_kind r = KIND_TRUNCATE →
  log_step l r = mkLog (keep_below (r_index r) (log_entries l)) (log_meta l).
Proof. intros Hk. unfold log_step. by rewrite Hk. Qed.

Lemma log_step_purge l r :
  r_kind r = KIND_PURGE →
  log_step l r = mkLog (keep_above (r_index r) (log_entries l))
                       (<[KIND_PURGE := (r_index r, r_payload r)]> (log_meta l)).
Proof. intros Hk. unfold log_step. by rewrite Hk. Qed.

Lemma log_step_value l r :
  r_kind r = KIND_VOTE ∨ r_kind r = KIND_COMMITTED →
  log_step l r = mkLog (log_entries l) (<[r_kind r := (r_index r, r_payload r)]> (log_meta l)).
Proof. intros [Hk|Hk]; unfold log_step; by rewrite Hk. Qed.

Lemma kind_cases k :
  valid_kind k = true →
  k = KIND_ENTRY ∨ k = KIND_TRUNCATE ∨ k = KIND_PURGE ∨ (k = KIND_VOTE ∨ k = KIND_COMMITTED).
Proof.
  intros ?%valid_kind_range.
  unfold KIND_ENTRY, KIND_TRUNCATE, KIND_PURGE, KIND_VOTE, KIND_COMMITTED. lia.
Qed.

Lemma log_step_inv l r : rec_wf r → log_inv l → log_inv (log_step l r).
Proof.
  intros ([Hk|[Hk|[Hk|Hk]]]%kind_cases & Hi & _) Hl.
  - rewrite log_step_entry by done. cbv zeta.
    pose proof (log_inv_below l (r_index r) Hl) as Hb.
    destruct (unpurged l (r_index r)) eqn:Hp; [|done]. unfold unpurged in Hp.
    apply (log_inv_insert _ _ (r_payload r) Hb Hi). intros q Hq.
    change (purge_index l = Some q) in Hq. rewrite Hq in Hp. lia.
  - rewrite log_step_truncate by done. by apply log_inv_below.
  - rewrite log_step_purge by done. destruct Hl as [H1 H2 H3]. split; cbn.
    + intros i p. rewrite lookup_keep_above. case_decide; [|done]. apply H1.
    + intros i p q. rewrite lookup_keep_above.
      unfold purge_index. cbn. rewrite lookup_insert_eq. case_decide; [|done]. by intros _ [= <-].
    + intros k v. rewrite lookup_insert_Some. intros [[<- _]|[_ ?]]; [by left|eauto].
  - rewrite log_step_value by done. destruct Hl as [H1 H2 H3]. split; cbn; [done| |].
    + intros i p q ?. unfold purge_index. cbn. rewrite lookup_insert_ne; [by eapply H2|].
      by destruct Hk as [-> | ->].
    + intros k v. rewrite lookup_insert_Some. intros [[<- _]|[_ ?]]; [|eauto].
      destruct Hk as [-> | ->]; set_solver.
Qed.

Lemma log_from_inv rs l : Forall rec_wf rs → log_inv l → log_inv (log_from l rs).
Proof.
  intros Hrs. revert l. induction Hrs as [|r rs Hr Hrs IH]; intros l Hl; [done|].
  by apply IH, log_step_inv.
Qed.

Lemma wal_log_inv rs : Forall rec_wf rs → log_inv (wal_log rs).
Proof. intros. apply log_from_inv; [done|apply log_inv_empty]. Qed.

(** A record that repeats a sticky value changes nothing. *)
Lemma log_step_sticky l r :
  log_inv l → r_kind r ∈ STICKY → log_meta l !! r_kind r = Some (r_index r, r_payload r) →
  log_step l r = l.
Proof.
  intros Hl Hs Hk. unfold STICKY in Hs. rewrite !elem_of_cons, elem_of_nil in Hs.
  assert (r_kind r = KIND_PURGE ∨ (r_kind r = KIND_VOTE ∨ r_kind r = KIND_COMMITTED)) as [Hp|Hv]
    by naive_solver; destruct l as [es m]; cbn [log_meta] in Hk.
  - rewrite log_step_purge by done. rewrite Hp in Hk. cbn [log_entries log_meta].
    f_equal; [|by apply insert_id].
    apply map_eq. intros j. rewrite lookup_keep_above.
    case_decide as Hj; [done|]. destruct (es !! j) eqn:He; [|done].
    pose proof (li_above _ Hl j _ (r_index r) He) as Hab. unfold purge_index in Hab.
    cbn [log_meta] in Hab. rewrite Hk in Hab. specialize (Hab eq_refl). lia.
  - rewrite log_step_value by done. cbn [log_entries log_meta]. by rewrite insert_id.
Qed.

Lemma sticky_records_elem m r :
  r ∈ sticky_records m → m !! r_kind r = Some (r_index r, r_payload r) ∧ r_kind r ∈ STICKY.
Proof.
  unfold sticky_records. intros (k & Hk & Hm)%list_elem_of_omap.
  destruct (m !! k) as [[i p]|] eqn:Hmk; [|done]. simplify_eq/=. done.
Qed.

Lemma log_from_sticky l rs :
  log_inv l →
  (∀ r, r ∈ rs → log_meta l !! r_kind r = Some (r_index r, r_payload r) ∧ r_kind r ∈ STICKY) →
  log_from l rs = l.
Proof.
  intros Hl. induction rs as [|r rs IH]; intros Hrs; [done|]. cbn [log_from foldl].
  destruct (Hrs r ltac:(left)) as [Hm Hs]. rewrite log_step_sticky by done.
  apply IH. set_solver.
Qed.

Lemma log_from_sticky_records l : log_inv l → log_from l (sticky_records (log_meta l)) = l.
Proof.
  intros Hl. apply log_from_sticky; [done|]. intros r. apply sticky_records_elem.
Qed.

(** ** Forgetting a segment

    A log that starts with the sticky values of what came before has the
    same sticky values, and the same entries above anything before. *)

Definition same_above (i : Z) (a b : Log) : Prop :=
  log_meta a = log_meta b ∧ ∀ j, i < j → log_entries a !! j = log_entries b !! j.

Lemma same_above_step i a b r : rec_wf r → same_above i a b → same_above i (log_step a r) (log_step b r).
Proof.
  intros ([Hk|[Hk|[Hk|Hk]]]%kind_cases & _) [Hm He].
  - rewrite !log_step_entry by done. unfold unpurged, purge_index. rewrite Hm.
    destruct (match fst <$> log_meta b !! KIND_PURGE with Some _ => _ | None => _ end);
      (split; [done|]; cbn; intros j Hj; rewrite ?lookup_insert; try case_decide; [done|..];
       rewrite ?lookup_keep_below; by case_decide; [apply He|]) ||
      (split; [done|]; cbn; intros j Hj; rewrite ?lookup_keep_below; case_decide; auto).
  - rewrite !log_step_truncate by done. split; [done|]. cbn. intros j Hj.
    rewrite !lookup_keep_below. case_decide; auto.
  - rewrite !log_step_purge by done. split; cbn; [by rewrite Hm|]. intros j Hj.
    rewrite !lookup_keep_above. case_decide; auto.
  - rewrite !log_step_value by done. split; cbn; [by rewrite Hm|done].
Qed.

Lemma same_above_from i rs a b :
  Forall rec_wf rs → same_above i a b → same_above i (log_from a rs) (log_from b rs).
Proof.
  intros Hrs. revert a b. induction Hrs as [|r rs Hr Hrs IH]; intros a b Hab; [done|].
  by apply IH, same_above_step.
Qed.

(** The sticky values alone. *)
Lemma log_from_values es m rs :
  (∀ r, r ∈ rs → r_kind r ∈ STICKY) →
  log_meta (log_from (mkLog es m) rs)
  = foldl (λ m r, <[r_kind r := (r_index r, r_payload r)]> m) m rs ∧
  ∀ i, is_Some (log_entries (log_from (mkLog es m) rs) !! i) → is_Some (es !! i).
Proof.
  revert es m. induction rs as [|r rs IH]; intros es m Hrs; [done|]. cbn [log_from foldl].
  assert (r_kind r ∈ STICKY) as Hs by (apply Hrs; left).
  unfold STICKY in Hs. rewrite !elem_of_cons, elem_of_nil in Hs.
  assert (r_kind r = KIND_PURGE ∨ (r_kind r = KIND_VOTE ∨ r_kind r = KIND_COMMITTED)) as [Hp|Hv]
    by naive_solver.
  - rewrite log_step_purge by done. cbn [log_entries log_meta]. rewrite Hp.
    destruct (IH (keep_above (r_index r) es) (<[KIND_PURGE:=(r_index r, r_payload r)]> m)) as [Hm He];
      [set_solver|].
    split; [done|]. intros i Hi. apply He in Hi. rewrite lookup_keep_above in Hi.
    by case_decide; [|destruct Hi].
  - rewrite log_step_value by done. apply IH. set_solver.
Qed.

Lemma sticky_records_values m :
  (∀ k v, m !! k = Some v → k ∈ STICKY) →
  foldl (λ m r, <[r_kind r := (r_index r, r_payload r)]> m) ∅ (sticky_records m) = m.
Proof.
  intros Hm. apply map_eq. intros k. unfold sticky_records, STICKY.
  destruct (m !! k) as [v|] eqn:Hk.
  - pose proof (Hm _ _ Hk) as Hs. unfold STICKY in Hs. rewrite !elem_of_cons, elem_of_nil in Hs.
    destruct Hs as [->|[->|[->|[]]]]; cbn -[insert];
      destruct (m !! KIND_PURGE) as [[??]|] eqn:H1, (m !! KIND_VOTE) as [[??]|] eqn:H2,
        (m !! KIND_COMMITTED) as [[??]|] eqn:H3; simplify_eq; cbn -[insert]; by simplify_map_eq.
  - cbn -[insert]. destruct (m !! KIND_PURGE) as [[??]|] eqn:H1, (m !! KIND_VOTE) as [[??]|] eqn:H2,
        (m !! KIND_COMMITTED) as [[??]|] eqn:H3; cbn -[insert];
      repeat (rewrite lookup_insert_ne; [|by intros <-; simplify_eq]); apply lookup_empty.
Qed.

(** Starting over from the sticky values of [d]. *)
Lemma head_same_above i d rs :
  Forall rec_wf d → Forall rec_wf rs →
  (∀ j p, log_entries (wal_log d) !! j = Some p → j ≤ i) →
  same_above i (wal_log (d ++ sticky_records (log_meta (wal_log d)) ++ rs))
               (wal_log (sticky_records (log_meta (wal_log d)) ++ rs)).
Proof.
  intros Hd Hrs Hi. pose proof (wal_log_inv d Hd) as Hinv.
  rewrite app_assoc, !wal_log_app, log_from_sticky_records by done.
  apply same_above_from; [done|].
  destruct (log_from_values ∅ ∅ (sticky_records (log_meta (wal_log d)))) as [Hm He].
  { intros r. apply sticky_records_elem. }
  set (heads := sticky_records (log_meta (wal_log d))) in *.
  change (log_from (mkLog ∅ ∅) heads) with (wal_log heads) in *.
  unfold heads in Hm. rewrite sticky_records_values in Hm by apply (li_sticky _ Hinv).
  fold heads in Hm. split; [done|]. intros j Hj.
  destruct (log_entries (wal_log d) !! j) as [p|] eqn:Hp; [apply Hi in Hp; lia|].
  destruct (log_entries (wal_log heads) !! j) eqn:Hq; [|done].
  destruct (He j) as [? Hq']; [by rewrite Hq|]. by rewrite lookup_empty in Hq'.
Qed.

Lemma same_above_eq i a b :
  log_inv a → log_inv b → (∃ p, purge_index a = Some p ∧ i ≤ p) → same_above i a b → a = b.
Proof.
  intros Ha Hb (p & Hp & Hip) [Hm He].
  assert (purge_index b = Some p) as Hpb by (unfold purge_index in *; by rewrite <- Hm).
  destruct a as [ea ma], b as [eb mb]. cbn in *. f_equal; [|done].
  apply map_eq. intros j. destruct (decide (i < j)) as [?|Hj]; [by apply He|].
  destruct (ea !! j) eqn:H1; [pose proof (li_above _ Ha _ _ _ H1 Hp); lia|].
  destruct (eb !! j) eqn:H2; [pose proof (li_above _ Hb _ _ _ H2 Hpb); lia|done].
Qed.

(** The entries a sequence of records can leave. *)
Definition max_entry_of (rs : list Rec) : option Z :=
  foldl (λ me r, bump_entry (r_kind r) (r_index r) me) None rs.

Lemma bump_entry_max k i m : ∃ m', bump_entry k i (Some m) = Some m' ∧ m ≤ m'.
Proof. unfold bump_entry. destruct (k =? KIND_ENTRY); eexists; split; done || lia. Qed.

Lemma log_step_keys l r j p :
  rec_wf r → log_entries (log_step l r) !! j = Some p →
  (r_kind r = KIND_ENTRY ∧ j = r_index r) ∨ is_Some (log_entries l !! j).
Proof.
  intros ([Hk|[Hk|[Hk|Hk]]]%kind_cases & _).
  - rewrite log_step_entry by done. cbv zeta. destruct (unpurged _ _); cbn;
      [rewrite lookup_insert_Some; intros [[<- _]|[_ Hl]]; [by left|revert Hl]|];
      rewrite lookup_keep_below; case_decide; try done; by right.
  - rewrite log_step_truncate by done. cbn. rewrite lookup_keep_below. case_decide; [by right|done].
  - rewrite log_step_purge by done. cbn. rewrite lookup_keep_above. case_decide; [by right|done].
  - rewrite log_step_value by done. by right.
Qed.

Lemma max_entry_bound rs j p :
  Forall rec_wf rs → log_entries (wal_log rs) !! j = Some p →
  ∃ m, max_entry_of rs = Some m ∧ j ≤ m.
Proof.
  revert j p. induction rs as [|r rs IH] using rev_ind; intros j p Hrs;
    [by cbn; rewrite lookup_empty|].
  rewrite Forall_app, Forall_singleton in Hrs. destruct Hrs as [Hrs Hr].
  rewrite wal_log_app. intros [[Hk ->]|[q Hq]]%log_step_keys; [..|done].
  - unfold max_entry_of. rewrite foldl_app. cbn. unfold bump_entry at 1. rewrite Hk. cbn.
    eexists; split; [done|]. case_match; lia.
  - destruct (IH _ _ Hrs Hq) as (m & Hm & Hj). unfold max_entry_of in *.
    rewrite foldl_app, Hm. cbn.
    destruct (bump_entry_max (r_kind r) (r_index r) m) as (m' & ? & ?).
    exists m'. split; [done|lia].
Qed.
