(* ===== verification/WalDisk.v ===== *)
(** * The bytes of a WAL directory

    Which records the bytes of a segment hold, what replaying them gives,
    and what a crash can leave of a segment. *)

From S2P Require Import Prelude Crc Wal WalCodec WalLog.

(** ** Replaying records *)

(** [r] is the log [l], [rd] reading the payload of each place. *)
Definition replays (rd : Loc → option bytes) (r : Replay) (l : Log) : Prop :=
  (∀ i, rd <$> entries r !! i = Some <$> log_entries l !! i) ∧ meta r = log_meta l.

Definition replay_step (r : Replay) (x : Rec * Loc) : Replay :=
  replay_record (r_kind x.1) (r_index x.1) (r_payload x.1) x.2 r.

Lemma replay_step_log rd r l x :
  rec_wf x.1 → log_inv l → rd x.2 = Some (r_payload x.1) →
  replays rd r l → replays rd (replay_step r x) (log_step l x.1).
Proof.
  destruct x as [rec loc]. cbn [fst snd]. intros (Hv & Hi & _) Hl Hrd [He Hm].
  unfold replay_step, replay_record. cbn [fst snd].
  apply kind_cases in Hv as [Hk|[Hk|[Hk|Hk]]].
  - rewrite log_step_entry by done. unfold unpurged, purge_index. rewrite <- Hm, Hk. cbn.
    destruct (match fst <$> meta r !! KIND_PURGE with Some _ => _ | None => _ end);
      (split; [|done]; intros j; cbn).
    + destruct (decide (j = r_index rec)) as [->|Hne].
      * rewrite !lookup_insert_eq. cbn. by rewrite Hrd.
      * rewrite !lookup_insert_ne, !lookup_keep_below by done. by case_decide.
    + rewrite !lookup_keep_below. by case_decide.
  - rewrite log_step_truncate by done. rewrite Hk. cbn. split; [|done]. intros j. cbn.
    rewrite !lookup_keep_below. by case_decide.
  - rewrite log_step_purge by done. rewrite Hk. cbn. split; [|by cbn; rewrite Hm]. intros j. cbn.
    rewrite lookup_keep_above. specialize (He j).
    destruct (Z.eqb_spec (r_index rec) u64_max) as [Hmax|Hmax].
    + rewrite lookup_empty. case_decide; [|done].
      destruct (log_entries l !! j) eqn:Hj; [|done]. apply (li_u64 _ Hl) in Hj.
      unfold u64_max, is_u64, two64 in *. lia.
    + rewrite lookup_split_off. unfold u64_max, is_u64, two64 in *.
      case_decide; case_decide; done || lia.
  - rewrite log_step_value by done.
    assert ((r_kind rec =? KIND_ENTRY) = false ∧ (r_kind rec =? KIND_TRUNCATE) = false ∧
            (r_kind rec =? KIND_PURGE) = false) as (-> & -> & ->) by (by destruct Hk as [-> | ->]).
    split; cbn; [done|]. by rewrite Hm.
Qed.

Lemma replay_steps_log rd xs : ∀ r l,
  Forall (λ x, rec_wf x.1 ∧ rd x.2 = Some (r_payload x.1)) xs → log_inv l →
  replays rd r l → replays rd (foldl replay_step r xs) (log_from l xs.*1).
Proof.
  induction xs as [|x xs IH]; intros r l Hxs Hl Hr; [done|].
  apply Forall_cons in Hxs as [[Hwf Hrd] Hxs]. cbn [foldl fmap list_fmap log_from].
  apply IH; [done|by apply log_step_inv|by apply replay_step_log].
Qed.

Lemma replays_default rd : replays rd Replay_default Log_empty.
Proof. split; [|done]. intros i. cbn. by rewrite !lookup_empty. Qed.

(** ** Records in a segment *)

(** Each record of a segment with its place. *)
Fixpoint located (seq : Z) (pos : nat) (rs : list Rec) : list (Rec * Loc) :=
  match rs with
  | [] => []
  | r :: rs' => (r, mkLoc seq pos (Z.of_nat (length (r_payload r))))
                :: located seq (pos + length (encode r)) rs'
  end.

Definition bump_all (me : option Z) (rs : list Rec) : option Z :=
  foldl (λ me r, bump_entry (r_kind r) (r_index r) me) me rs.

Lemma encode_all_cons r rs : encode_all (r :: rs) = encode r ++ encode_all rs.
Proof. done. Qed.

Lemma encode_all_app a b : encode_all (a ++ b) = encode_all a ++ encode_all b.
Proof. unfold encode_all. by rewrite fmap_app, concat_app. Qed.

Lemma length_encode_all rs : (length rs ≤ length (encode_all rs))%nat.
Proof.
  induction rs as [|r rs IH]; [done|]. rewrite encode_all_cons, length_app, length_encode.
  unfold HEADER_LEN. cbn [length]. lia.
Qed.

Lemma located_fst seq pos rs : (located seq pos rs).*1 = rs.
Proof. revert pos. induction rs as [|r rs IH]; intros pos; cbn; [done|]. by rewrite IH. Qed.

Lemma located_split seq rs : ∀ pos x,
  x ∈ located seq pos rs →
  ∃ l1 l2, rs = l1 ++ x.1 :: l2 ∧
    x.2 = mkLoc seq (pos + length (encode_all l1)) (Z.of_nat (length (r_payload x.1))).
Proof.
  induction rs as [|r rs IH]; intros pos x; cbn [located]; [by intros ?%elem_of_nil|].
  intros [->|Hx]%elem_of_cons.
  - exists [], rs. cbn. by rewrite Nat.add_0_r.
  - apply IH in Hx as (l1 & l2 & -> & ->). exists (r :: l1), l2. split; [done|].
    rewrite encode_all_cons, length_app, Nat.add_assoc. done.
Qed.

(** Replaying a segment that starts with whole records. *)
Lemma replay_segment_records seq rs : ∀ pre tail fuel me r,
  Forall rec_wf rs → (length rs ≤ fuel)%nat →
  let buf := pre ++ encode_all rs ++ tail in
  replay_segment fuel seq buf (length pre) me r
  = replay_segment (fuel - length rs) seq buf (length (pre ++ encode_all rs)) (bump_all me rs)
      (foldl replay_step r (located seq (length pre) rs)).
Proof.
  induction rs as [|rec rs IH]; intros pre tail fuel me r Hrs Hf buf; subst buf.
  { cbn. by rewrite app_nil_r, Nat.sub_0_r. }
  apply Forall_cons in Hrs as [Hrec Hrs]. cbn [length] in Hf. destruct fuel as [|fuel]; [lia|].
  rewrite encode_all_cons, <- app_assoc.
  assert (∀ me' r', replay_segment fuel seq (pre ++ encode rec ++ encode_all rs ++ tail)
    (length (pre ++ encode rec)) me' r'
    = replay_segment (fuel - length rs) seq (pre ++ encode rec ++ encode_all rs ++ tail)
        (length (pre ++ encode rec ++ encode_all rs)) (bump_all me' rs)
        (foldl replay_step r' (located seq (length pre + length (encode rec)) rs))) as Hrest.
  { intros me' r'. specialize (IH (pre ++ encode rec) tail fuel me' r' Hrs ltac:(lia)).
    cbv zeta in IH. rewrite <- !app_assoc in IH. rewrite IH.
    by rewrite (length_app pre (encode rec)). }
  cbn [replay_segment]. rewrite parse_encode by done. rewrite Hrest. done.
Qed.

Lemma parse_zeros n : parse (zeros n) 0 = PEnd.
Proof.
  unfold parse, slice. rewrite drop_0, length_zeros, all_zero_zeros.
  destruct (decide _); [done|]. destruct (decide _); [done|].
  by rewrite take_zeros, all_zero_zeros.
Qed.

Lemma parse_at_zeros pre n : parse (pre ++ zeros n) (length pre) = PEnd.
Proof. by rewrite parse_app, parse_zeros. Qed.

Lemma replay_segment_stop fuel seq buf pos me r p :
  parse buf pos = p → (∀ k i pl n, p ≠ PRecord k i pl n) →
  replay_segment fuel seq buf pos me r
  = (r, me, pos, match p with PBad why => Some why | _ => None end).
Proof.
  intros Hp Hn. destruct fuel; cbn [replay_segment]; rewrite Hp; destruct p; try done; by destruct (Hn kind index payload next).
Qed.

(** The bytes of a segment that holds [rs]: what is not written is zero. *)
Definition seg_data (rs : list Rec) (d : bytes) : Prop := ∃ n, d = encode_all rs ++ zeros n.

Lemma replay_segment_data seq rs d r :
  Forall rec_wf rs → seg_data rs d →
  replay_segment (length d) seq d 0 None r
  = (foldl replay_step r (located seq 0 rs), max_entry_of rs, length (encode_all rs), None).
Proof.
  intros Hrs [n ->]. pose proof (length_encode_all rs).
  pose proof (replay_segment_records seq rs [] (zeros n) (length (encode_all rs ++ zeros n)) None r Hrs) as H1.
  rewrite length_app in H1 at 1. specialize (H1 ltac:(lia)). cbn [app length] in H1. rewrite H1.
  by rewrite (replay_segment_stop _ _ _ _ _ _ PEnd) by (done || apply parse_at_zeros).
Qed.

Lemma replay_segment_bad seq rs tail why r :
  Forall rec_wf rs → parse tail 0 = PBad why →
  let d := encode_all rs ++ tail in
  replay_segment (length d) seq d 0 None r
  = (foldl replay_step r (located seq 0 rs), max_entry_of rs, length (encode_all rs), Some why).
Proof.
  intros Hrs Hbad d. subst d. pose proof (length_encode_all rs).
  pose proof (replay_segment_records seq rs [] tail (length (encode_all rs ++ tail)) None r Hrs) as H1.
  rewrite length_app in H1 at 1. specialize (H1 ltac:(lia)). cbn [app length] in H1. rewrite H1.
  by rewrite (replay_segment_stop _ _ _ _ _ _ (PBad why)) by (done || by rewrite parse_app, Hbad).
Qed.

Lemma io_guard_ok fs : fs_faults fs = [] → io_guard fs = (Ok (), fs).
Proof. intros Hno. unfold io_guard, next_fault, pbind. by rewrite Hno. Qed.

Lemma get_file_ok fs name f : fs_files fs !! name = Some f → get_file name fs = (Ok f, fs).
Proof. intros Hf. unfold get_file. by rewrite Hf. Qed.

(** A record of a segment reads back from its place. *)
Lemma read_in_segment fs seq l1 rec l2 n f :
  fs_files fs !! segment_path seq = Some f → fs_faults fs = [] →
  f_data f = encode_all (l1 ++ rec :: l2) ++ zeros n → rec_wf rec →
  reader_read (mkLoc seq (length (encode_all l1)) (Z.of_nat (length (r_payload rec)))) fs
  = (Ok (r_payload rec), fs).
Proof.
  intros Hf Hno Hd Hr. unfold reader_read. cbn [l_segment l_offset l_len].
  rewrite (pbind_run _ _ _ _ _ (io_guard_ok _ Hno)), (pbind_run _ _ _ _ _ (get_file_ok _ _ _ Hf)).
  rewrite (pbind_run _ _ _ _ _ (io_guard_ok _ Hno)), Nat2Z.id, Hd.
  rewrite encode_all_app, encode_all_cons, <- !app_assoc.
  destruct (decide _) as [Hlt|_].
  { exfalso. rewrite !length_app, length_encode in Hlt. lia. }
  unfold slice. rewrite drop_app_length, <- length_encode, take_app_length.
  rewrite <- (app_nil_r (encode rec)), parse_encode0 by done.
  by destruct (decide _).
Qed.

(** ** What a crash leaves of a segment *)

(** Some prefix of the bytes of the records. *)
Definition torn_data (rs : list Rec) (k : nat) (d : bytes) : Prop :=
  ∃ m z, (length (encode_all (take k rs)) ≤ m)%nat ∧ d = take m (encode_all rs) ++ zeros z.

Lemma seg_data_torn rs k d : seg_data rs d → torn_data rs k d.
Proof.
  intros [n ->]. exists (length (encode_all rs)), n. split; [|by rewrite firstn_all].
  rewrite <- (take_drop k rs) at 2. rewrite encode_all_app, length_app. lia.
Qed.

Lemma take_encode_all rs m :
  (m < length (encode_all rs))%nat →
  ∃ j r m', rs !! j = Some r ∧ (m' < length (encode r))%nat ∧
    m = (length (encode_all (take j rs)) + m')%nat ∧
    take m (encode_all rs) = encode_all (take j rs) ++ take m' (encode r).
Proof.
  revert m. induction rs as [|r rs IH]; intros m Hm; [cbn in Hm; lia|].
  rewrite encode_all_cons, length_app in *.
  destruct (decide (m < length (encode r))%nat) as [Hlt|Hge].
  - exists 0%nat, r, m. split_and!; [done|done|done|]. rewrite take_app_le by lia. done.
  - destruct (IH (m - length (encode r))%nat) as (j & r' & m' & Hj & Hm' & Hmm & Ht); [lia|].
    exists (S j), r', m'. cbn [take lookup list_lookup]. rewrite encode_all_cons, length_app.
    split_and!; [done|done|lia|]. rewrite take_app_ge by lia. by rewrite Ht, app_assoc.
Qed.

(** Whole records, then nothing or a bad record. *)
Lemma torn_prefix rs k d :
  Forall rec_wf rs → Forall (λ r, tear_detected r = true) (drop k rs) → (k ≤ length rs)%nat →
  torn_data rs k d →
  ∃ j, (k ≤ j ≤ length rs)%nat ∧
    (seg_data (take j rs) d ∨
     ∃ tail why, d = encode_all (take j rs) ++ tail ∧ parse tail 0 = PBad why).
Proof.
  intros Hrs Htear Hk (m & z & Hm & ->).
  destruct (decide (length (encode_all rs) ≤ m)%nat) as [Hall|Hlt].
  { exists (length rs). split; [lia|]. left. exists z. by rewrite firstn_all, take_ge. }
  destruct (take_encode_all rs m ltac:(lia)) as (j & r & m' & Hj & Hm' & Hmm & ->).
  pose proof (lookup_lt_Some _ _ _ Hj) as Hjl.
  assert (k ≤ j)%nat as Hkj.
  { destruct (decide (k ≤ j)%nat) as [|Hn]; [done|exfalso].
    rewrite <- (take_drop (S j) (take k rs)), take_take, Nat.min_l in Hm by lia.
    rewrite (take_S_r _ _ r), !encode_all_app, !length_app in Hm by done.
    rewrite encode_all_cons, length_app in Hm. lia. }
  rewrite Forall_forall in Htear, Hrs.
  assert (r ∈ rs) as Hin by (by eapply list_elem_of_lookup_2).
  destruct (parse_torn r m' z) as [[Hz _]|[[why Hb]|[z' Hw]]].
  - by apply Hrs.
  - apply Htear. rewrite <- (take_drop k rs), lookup_app_r in Hj by (rewrite length_take; lia).
    by eapply list_elem_of_lookup_2.
  - exists j. split; [lia|]. left. apply all_zero_eq in Hz. eexists. by rewrite <- app_assoc, Hz.
  - exists j. split; [lia|]. right. eexists _, why. by rewrite <- app_assoc.
  - exists (S j). split; [lia|]. left. exists z'.
    rewrite <- app_assoc, Hw, (take_S_r _ _ r) by done.
    rewrite encode_all_app, <- app_assoc. cbn. by rewrite app_nil_r.
Qed.

(** ** Segment names *)

Lemma to_hex_digit d : 0 ≤ d < 16 → to_digit (hex_digit d) = Some d ∧ hex_digit d ≠ x2b.
Proof.
  intros Hd.
  assert (d ∈ [0;1;2;3;4;5;6;7;8;9;10;11;12;13;14;15]) as Hin.
  { rewrite !elem_of_cons. lia. }
  rewrite !elem_of_cons, elem_of_nil in Hin.
  by repeat destruct Hin as [->|Hin].
Qed.

Lemma from_hex_fixed n : ∀ acc z,
  0 ≤ z → from_hex acc (hex_fixed n z) = Some (acc * 16 ^ Z.of_nat n + z mod 16 ^ Z.of_nat n).
Proof.
  induction n as [|n IH]; intros acc z Hz; cbn [hex_fixed from_hex].
  { rewrite Z.mod_1_r. f_equal. lia. }
  pose proof (Z.mod_pos_bound (z / 16 ^ Z.of_nat n) 16 ltac:(lia)) as Hd.
  rewrite (proj1 (to_hex_digit _ Hd)), IH by done. f_equal.
  rewrite Nat2Z.inj_succ, Z.pow_succ_r by lia.
  rewrite (Z.mul_comm 16 (16 ^ Z.of_nat n)), Z.rem_mul_r by lia. lia.
Qed.

Lemma length_hex_fixed n z : length (hex_fixed n z) = n.
Proof. induction n; cbn; congruence. Qed.

Lemma hex_fixed_parse z : is_u64 z → from_str_radix16 (hex_fixed 16 z) = Some z.
Proof.
  intros Hz. pose proof (from_hex_fixed 16 0 z) as Hh. unfold is_u64 in Hz.
  rewrite Z.mod_small in Hh by (change (16 ^ Z.of_nat 16) with two64; lia).
  specialize (Hh ltac:(lia)). unfold from_str_radix16.
  destruct (hex_fixed 16 z) as [|b rest] eqn:Hb; [by apply (f_equal length) in Hb; rewrite length_hex_fixed in Hb|].
  destruct (decide (b = x2b)) as [->|]; [|by rewrite Hh].
  exfalso. cbn [hex_fixed] in Hb. injection Hb as Hb _.
  revert Hb. apply to_hex_digit, Z.mod_pos_bound. lia.
Qed.

Lemma segment_seq_path z : is_u64 z → segment_seq (segment_path z) = Some z.
Proof.
  intros Hz. unfold segment_seq, strip_suffix, segment_path.
  rewrite length_app, Nat.add_sub, drop_app_length, take_app_length.
  destruct (decide _); [|done]. rewrite length_hex_fixed. destruct (decide _); [|done].
  by apply hex_fixed_parse.
Qed.

Lemma segment_path_inj a b : is_u64 a → is_u64 b → segment_path a = segment_path b → a = b.
Proof.
  intros Ha Hb He. apply (f_equal segment_seq) in He. rewrite !segment_seq_path in He by done.
  congruence.
Qed.

Lemma spare_not_segment : segment_seq SPARE = None.
Proof. vm_compute. reflexivity. Qed.

Lemma spare_ne_segment z : is_u64 z → SPARE ≠ segment_path z.
Proof.
  intros Hz He. apply (f_equal segment_seq) in He.
  by rewrite spare_not_segment, segment_seq_path in He.
Qed.

(** The directory names exactly the segments [seqs]. *)
Record names_ok (files : gmap bytes File) (seqs : list Z) : Prop := {
  no_file q : q ∈ seqs → is_Some (files !! segment_path q);
  no_name name s : is_Some (files !! name) → segment_seq name = Some s →
    name = segment_path s ∧ s ∈ seqs;
  no_sorted : StronglySorted Z.lt seqs;
  no_u64 : Forall is_u64 seqs
}.

Lemma NoDup_omap_inj {A B} (f : A → option B) l :
  (∀ x y q, x ∈ l → y ∈ l → f x = Some q → f y = Some q → x = y) → NoDup l → NoDup (omap f l).
Proof.
  induction l as [|x l IH]; intros Hf Hl; [constructor|]. apply NoDup_cons in Hl as [Hx Hl]. cbn.
  assert (NoDup (omap f l)) by (apply IH; [set_solver|done]).
  destruct (f x) as [q|] eqn:Hq; [|done]. constructor; [|done].
  intros (y & Hy & Hyq)%list_elem_of_omap. destruct Hx.
  by rewrite (Hf x y q ltac:(left) ltac:(by right) Hq Hyq).
Qed.

Lemma list_segments_ok fs seqs :
  names_ok (fs_files fs) seqs → fs_faults fs = [] → list_segments fs = (Ok seqs, fs).
Proof.
  intros [Hfile Hname Hsort Hu] Hno. unfold list_segments.
  rewrite (pbind_run _ _ _ _ _ (io_guard_ok _ Hno)). unfold pget, pbind, pret. do 2 f_equal.
  assert (∀ q, q ∈ omap (λ e : bytes * File, segment_seq e.1) (map_to_list (fs_files fs)) ↔ q ∈ seqs) as Hin.
  { intros q. rewrite list_elem_of_omap. split.
    - intros ([name f] & Hin%elem_of_map_to_list & Hq). by eapply (Hname name q).
    - intros Hq. destruct (Hfile q Hq) as [f Hf]. exists (segment_path q, f).
      rewrite elem_of_map_to_list. split; [done|]. apply segment_seq_path.
      rewrite Forall_forall in Hu. auto. }
  apply (StronglySorted_unique Z.le).
  - apply StronglySorted_merge_sort; apply _.
  - clear -Hsort. induction Hsort; constructor; [done|]. eapply Forall_impl; [done|]. cbn. lia.
  - rewrite merge_sort_Permutation. apply NoDup_Permutation; [| |done].
    + apply NoDup_omap_inj; [|apply NoDup_map_to_list].
      intros [n1 f1] [n2 f2] q Hx%elem_of_map_to_list Hy%elem_of_map_to_list H1 H2. cbn in H1, H2.
      destruct (Hname n1 q ltac:(by eexists) H1) as [-> _].
      destruct (Hname n2 q ltac:(by eexists) H2) as [-> _]. congruence.
    + clear -Hsort. induction Hsort as [|q l Hs IH Hall]; constructor; [|done].
      intros Hq. rewrite Forall_forall in Hall. apply Hall in Hq. lia.
Qed.
