(* ===== verification/WalOps.v ===== *)
(** * The operations of the WAL

    Every operation, with any of its I/O calls failing, leaves a directory
    that holds the records appended before it, then some of its own. *)

From S2P Require Import Prelude Crc Wal WalCodec WalLog WalDisk.

(** ** The I/O calls *)

Lemma io_guard_inv fs r fs' :
  io_guard fs = (r, fs') → fs_files fs' = fs_files fs.
Proof.
  unfold io_guard, next_fault, pbind. destruct (fs_faults fs) as [|[n|] l]; by intros [= <- <-].
Qed.

Lemma get_file_inv name fs r fs' :
  get_file name fs = (r, fs') →
  fs' = fs ∧ match r with Ok f => fs_files fs !! name = Some f | Err _ => True end.
Proof. unfold get_file. destruct (fs_files fs !! name) eqn:Hf; by intros [= <- <-]. Qed.

Lemma sync_file_inv name fs r fs' :
  sync_file name fs = (r, fs') →
  match r with
  | Ok _ => ∃ f, fs_files fs !! name = Some f ∧
      fs_files fs' = <[name := mkFile (f_data f) (f_data f)]> (fs_files fs)
  | Err _ => fs_files fs' = fs_files fs
  end.
Proof.
  unfold sync_file, pbind. destruct (io_guard fs) as [[[]|e] fs1] eqn:Hg; apply io_guard_inv in Hg.
  - destruct (get_file name fs1) as [[f|e] fs2] eqn:Hf; apply get_file_inv in Hf as [-> Hf].
    + intros [= <- <-]. cbn. rewrite Hg in *. eauto.
    + intros [= <- <-]. done.
  - by intros [= <- <-].
Qed.

Lemma write_all_at_inv name data off fs r fs' :
  write_all_at name data off fs = (r, fs') →
  match r with
  | Ok _ => ∃ f, fs_files fs !! name = Some f ∧
      fs_files fs' = <[name := mkFile (write_at (f_data f) off data) (f_durable f)]> (fs_files fs)
  | Err _ => fs_files fs' = fs_files fs ∨ ∃ f n, fs_files fs !! name = Some f ∧
      fs_files fs'
      = <[name := mkFile (write_at (f_data f) off (take n data)) (f_durable f)]> (fs_files fs)
  end.
Proof.
  unfold write_all_at, pbind, next_fault.
  assert (∀ fl x fs1, (match fl with [] => (Ok None, fs) | f :: fl' => (Ok f, mkFs (fs_files fs) fl') end
    : result IoError (option nat) * Fs) = (x, fs1) → fs_files fs1 = fs_files fs ∧ ∃ o, x = Ok o) as Hn.
  { intros [|f fl] x fs1 [= <- <-]; split; eauto. }
  destruct (match fs_faults fs with [] => _ | _ => _ end) as [x fs1] eqn:Hx.
  apply Hn in Hx as [Hfs [o ->]].
  destruct (get_file name fs1) as [[f|e] fs2] eqn:Hf; apply get_file_inv in Hf as [-> Hf].
  - rewrite Hfs in Hf. destruct o as [n|]; intros [= <- <-]; cbn; rewrite Hfs; eauto.
  - intros [= <- <-]. by left.
Qed.

Lemma preallocate_inv name len fs r fs' :
  preallocate name len fs = (r, fs') →
  r = Ok () ∧ (fs_files fs' = fs_files fs ∨ ∃ f n, fs_files fs !! name = Some f ∧
    fs_files fs' = <[name := mkFile (f_data f ++ zeros n) (f_durable f)]> (fs_files fs)).
Proof.
  unfold preallocate, ignore, pbind. intros [= <- <-]. split; [done|].
  destruct (io_guard fs) as [[[]|e] fs1] eqn:Hg; apply io_guard_inv in Hg; [|by left].
  destruct (get_file name fs1) as [[f|e] fs2] eqn:Hf; apply get_file_inv in Hf as [-> Hf].
  - right. rewrite Hg in Hf. cbn. rewrite Hg. eauto.
  - by left.
Qed.

(** A file of zeros, as a new segment is. *)
Definition zero_file (f : File) : Prop :=
  (∃ n, f_data f = zeros n) ∧ (∃ n, f_durable f = zeros n).

Lemma create_segment_inv q sb fs r fs' :
  create_segment q sb fs = (r, fs') →
  match r with
  | Ok _ => ∃ f, zero_file f ∧ fs_files fs' = <[segment_path q := f]> (fs_files fs)
  | Err _ => fs_files fs' = fs_files fs ∨
      fs_files fs !! segment_path q = None ∧
      ∃ f, zero_file f ∧ fs_files fs' = <[segment_path q := f]> (fs_files fs)
  end.
Proof.
  unfold create_segment. set (path := segment_path q). unfold pbind at 1.
  destruct (create_new path fs) as [[[]|e] fs1] eqn:Hc; unfold create_new, pbind in Hc;
    destruct (io_guard fs) as [[[]|e0] fs0] eqn:Hg; apply io_guard_inv in Hg;
    rewrite ?Hg in Hc; try done.
  2:{ destruct (fs_files fs !! path); [|done]. injection Hc as <- <-.
      intros [= <- <-]. by left. }
  2:{ injection Hc as <- <-. intros [= <- <-]. by left. }
  destruct (fs_files fs !! path) eqn:Hnone; [done|]. injection Hc as <-.
  unfold pbind at 1.
  destruct (preallocate path sb _) as [r1 fs2] eqn:Hp. apply preallocate_inv in Hp as [-> Hp].
  assert (∃ n, fs_files fs2 = <[path := mkFile (zeros n) []]> (fs_files fs)) as [n Hfs2].
  { cbn in Hp. rewrite Hg in Hp. destruct Hp as [Hp|(f & n & Hl & Hp)]; [by exists 0%nat|].
    rewrite lookup_insert_eq in Hl. simplify_eq. exists n. rewrite Hp. by rewrite insert_insert_eq. }
  unfold pbind at 1. destruct (sync_file path fs2) as [[[]|e] fs3] eqn:Hs; apply sync_file_inv in Hs.
  - destruct Hs as (f & Hf & Hs). rewrite Hfs2, lookup_insert_eq in Hf. simplify_eq. cbn in Hs.
    rewrite Hfs2, insert_insert_eq in Hs.
    assert (zero_file (mkFile (zeros n) (zeros n))) as Hz by (split; by exists n).
    unfold sync_dir. destruct (io_guard fs3) as [[[]|e] fs4] eqn:Hd; intros [= <- <-];
      apply io_guard_inv in Hd; rewrite Hd, Hs; eauto.
  - intros [= <- <-]. right. split; [done|]. rewrite Hs, Hfs2. eexists; split; [|done].
    split; [by exists n|by exists 0%nat].
Qed.

(** ** The spare segment touches no other file *)

Definition off_spare (files : gmap bytes File) : gmap bytes File := delete SPARE files.

#[local] Arguments off_spare : simpl never.
#[local] Arguments segment_path : simpl never.

Lemma off_spare_insert files f : off_spare (<[SPARE := f]> files) = off_spare files.
Proof. apply delete_insert_eq. Qed.

Lemma off_spare_delete files : off_spare (delete SPARE files) = off_spare files.
Proof. apply delete_delete_eq. Qed.

Lemma off_spare_segment files q f :
  is_u64 q → off_spare (<[segment_path q := f]> files) = <[segment_path q := f]> (off_spare files).
Proof. intros Hq. apply delete_insert_ne. by apply spare_ne_segment. Qed.

Lemma write_zeros a off n : ∃ m, write_at (zeros a) off (zeros n) = zeros m.
Proof.
  unfold write_at. rewrite take_zeros, drop_zeros, !zeros_app. eauto.
Qed.

Lemma zero_fill_inv fuel : ∀ pos sb fs r fs' n d,
  fs_files fs !! SPARE = Some (mkFile (zeros n) d) →
  zero_fill fuel pos sb fs = (r, fs') →
  off_spare (fs_files fs') = off_spare (fs_files fs) ∧
  match r with
  | Ok _ => ∃ m, fs_files fs' !! SPARE = Some (mkFile (zeros m) d)
  | Err _ => True
  end.
Proof.
  induction fuel as [|fuel IH]; intros pos sb fs r fs' n d Hn; cbn [zero_fill].
  { intros [= <- <-]. eauto. }
  destruct (pos <? sb); [|intros [= <- <-]; eauto].
  unfold pbind at 1. destruct (write_all_at SPARE _ _ fs) as [[[]|e] fs1] eqn:Hw;
    apply write_all_at_inv in Hw.
  - destruct Hw as (f & Hf & Hw). rewrite Hn in Hf. simplify_eq. cbn in Hw.
    destruct (write_zeros n (Z.to_nat pos) (Z.to_nat (Z.min (sb - pos) (2 ^ 20)))) as [m Hm].
    intros Hrest. eapply IH in Hrest as [Ho Hr]; [|by rewrite Hw, Hm, lookup_insert_eq].
    rewrite Ho, Hw, off_spare_insert. done.
  - intros [= <- <-]. split; [|done].
    destruct Hw as [-> |(f & m & _ & ->)]; [done|apply off_spare_insert].
Qed.

Lemma prepare_spare_inv sb fs r fs' :
  prepare_spare sb fs = (r, fs') →
  off_spare (fs_files fs') = off_spare (fs_files fs) ∧
  match r with
  | Ok _ => ∃ f, zero_file f ∧ fs_files fs' !! SPARE = Some f
  | Err _ => True
  end.
Proof.
  unfold prepare_spare. unfold pbind at 1.
  destruct (io_guard fs) as [[[]|e] fs1] eqn:Hg; apply io_guard_inv in Hg;
    [|intros [= <- <-]; by rewrite Hg].
  unfold pbind at 1. cbn [set_file pmodify].
  set (fs2 := mkFs _ _). assert (fs_files fs2 = <[SPARE := mkFile [] []]> (fs_files fs)) as H2
    by (subst fs2; cbn; by rewrite Hg).
  unfold pbind at 1. destruct (zero_fill _ 0 sb fs2) as [r3 fs3] eqn:Hz.
  eapply (zero_fill_inv _ _ _ _ _ _ 0 []) in Hz as [Ho Hr]; [|by rewrite H2, lookup_insert_eq].
  rewrite H2, off_spare_insert in Ho. destruct r3 as [[]|e]; [|by intros [= <- <-]].
  destruct Hr as [m Hm]. intros Hs. apply sync_file_inv in Hs. destruct r as [[]|e].
  - destruct Hs as (f & Hf & ->). rewrite Hm in Hf. simplify_eq. cbn.
    rewrite off_spare_insert. split; [done|].
    eexists. rewrite lookup_insert_eq. split; [|done]. split; by exists m.
  - by rewrite Hs.
Qed.

Lemma ignore_remove_spare fs : off_spare (fs_files (ignore (remove_file SPARE) fs).2) = off_spare (fs_files fs).
Proof.
  unfold ignore, remove_file, pbind. cbn [snd].
  destruct (io_guard fs) as [[[]|e] fs1] eqn:Hg; apply io_guard_inv in Hg; cbn [snd]; [|by rewrite Hg].
  destruct (get_file SPARE fs1) as [[f|e] fs2] eqn:Hf; apply get_file_inv in Hf as [-> _];
    cbn [snd pmodify fs_files]; rewrite Hg; [apply off_spare_delete|done].
Qed.

(** The next segment is there, of zeros, or it is not. *)
Lemma install_spare_inv q sb sp fs r fs' :
  is_u64 q → fs_files fs !! segment_path q = None →
  install_spare q sb sp fs = (r, fs') →
  let added := ∃ f, zero_file f ∧
    off_spare (fs_files fs') = <[segment_path q := f]> (off_spare (fs_files fs)) in
  match r with
  | Ok _ => added
  | Err _ => off_spare (fs_files fs') = off_spare (fs_files fs) ∨ added
  end.
Proof.
  intros Hq Hnone. unfold install_spare. unfold pbind at 1.
  assert (∃ b fs1, (if sp then match prepare_spare sb fs with
             | (Ok _, s') => (Ok true, s') | (Err _, s') => (Ok false, s') end
           else (Ok false, fs) : result IoError bool * Fs) = (Ok b, fs1) ∧
    off_spare (fs_files fs1) = off_spare (fs_files fs) ∧
    (b = true → ∃ f, zero_file f ∧ fs_files fs1 !! SPARE = Some f)) as (b & fs1 & -> & Ho & Hb).
  { destruct sp; [|by exists false, fs].
    destruct (prepare_spare sb fs) as [[[]|e] fs1] eqn:Hp; apply prepare_spare_inv in Hp as [Ho Hr];
      eexists _, fs1; done. }
  destruct b.
  - destruct (Hb eq_refl) as (f & Hz & Hf). unfold pbind at 1, rename, pbind at 1.
    destruct (io_guard fs1) as [[[]|e] fs2] eqn:Hg; apply io_guard_inv in Hg;
      [|intros [= <- <-]; left; by rewrite Hg].
    unfold pbind at 1. rewrite (get_file_ok _ _ f) by by rewrite Hg.
    cbn [pmodify]. unfold pbind at 1, sync_dir. set (fs3 := mkFs _ _).
    assert (off_spare (fs_files fs3) = <[segment_path q := f]> (off_spare (fs_files fs))) as H3.
    { subst fs3. cbn [fs_files]. rewrite off_spare_segment by done. by rewrite off_spare_delete, Hg, Ho. }
    destruct (io_guard fs3) as [[[]|e] fs4] eqn:Hg2; apply io_guard_inv in Hg2; intros [= <- <-];
      rewrite Hg2, H3; eauto.
  - unfold pbind at 1. pose proof (ignore_remove_spare fs1) as Hr.
    destruct (ignore (remove_file SPARE) fs1) as [r2 fs2] eqn:Hi. cbn [snd] in Hr.
    assert (r2 = Ok ()) as -> by (unfold ignore in Hi; congruence).
    unfold pbind. destruct (create_segment q sb fs2) as [[[]|e] fs3] eqn:Hc;
      apply create_segment_inv in Hc; intros [= <- <-]; rewrite <- Ho, <- Hr.
    + destruct Hc as (f & Hz & ->). exists f. by rewrite off_spare_segment.
    + destruct Hc as [-> |(_ & f & Hz & ->)]; [by left|right]. exists f. by rewrite off_spare_segment.
Qed.

(** ** The directory of a log *)

(** The last segment while it is written, and after a write that failed:
    [k] of its records are on the disk for good. *)
Definition file_ok (rs : list Rec) (k : nat) (f : File) : Prop :=
  seg_data rs (f_data f) ∧ seg_data (take k rs) (f_durable f).
Definition file_torn (rs : list Rec) (k : nat) (f : File) : Prop :=
  torn_data rs k (f_data f) ∧ seg_data (take k rs) (f_durable f).

(** Closed segments with their records, all durable, and the last one. *)
Record disk (files : gmap bytes File) (closed : list (Z * list Rec)) (q : Z) (P : File → Prop)
    : Prop := {
  dk_names : names_ok files (closed.*1 ++ [q]);
  dk_closed c rs : (c, rs) ∈ closed →
    ∃ f, files !! segment_path c = Some f ∧ file_ok rs (length rs) f;
  dk_last : ∃ f, files !! segment_path q = Some f ∧ P f
}.

Lemma names_ext files files' seqs :
  off_spare files' = off_spare files → names_ok files seqs → names_ok files' seqs.
Proof.
  intros Ho [H1 H2 H3 H4].
  assert (∀ name, name ≠ SPARE → files' !! name = files !! name) as Hl.
  { intros name Hn. pose proof (f_equal (lookup name) Ho) as Hx. unfold off_spare in Hx.
    by rewrite !lookup_delete_ne in Hx. }
  rewrite Forall_forall in H4. split; [| |done|by apply Forall_forall].
  - intros c Hc. rewrite Hl by (by apply not_eq_sym, spare_ne_segment, H4). auto.
  - intros name s Hs Hseq. assert (name ≠ SPARE) by (intros ->; by rewrite spare_not_segment in Hseq).
    rewrite Hl in Hs by done. eauto.
Qed.

Lemma disk_ext files files' closed q P :
  off_spare files' = off_spare files → disk files closed q P → disk files' closed q P.
Proof.
  intros Ho [Hn Hc Hl]. pose proof (no_u64 _ _ Hn) as Hu. rewrite Forall_app, Forall_singleton in Hu.
  destruct Hu as [Hu Hq]. rewrite Forall_forall in Hu.
  assert (∀ c, is_u64 c → files' !! segment_path c = files !! segment_path c) as Hs.
  { intros c Hcu. pose proof (f_equal (lookup (segment_path c)) Ho) as Hx. unfold off_spare in Hx.
    by rewrite !lookup_delete_ne in Hx by (by apply spare_ne_segment). }
  split; [by eapply names_ext| |by rewrite Hs].
  intros c rs Hin. rewrite Hs; [by apply Hc|]. apply Hu. by apply (list_elem_of_fmap_2 fst) in Hin.
Qed.

Lemma sorted_snoc (l : list Z) q :
  StronglySorted Z.lt (l ++ [q]) ↔ StronglySorted Z.lt l ∧ Forall (λ c, c < q) l.
Proof.
  induction l as [|c l IH]; cbn; [split; [by repeat constructor|repeat constructor]|].
  rewrite !StronglySorted_cons, IH, Forall_app, !Forall_cons, Forall_nil. naive_solver.
Qed.

Lemma disk_u64 files closed q P : disk files closed q P → is_u64 q ∧ ∀ c, c ∈ closed.*1 → is_u64 c ∧ c < q.
Proof.
  intros [[_ _ Hs Hu] _ _]. rewrite Forall_app, Forall_singleton, Forall_forall in Hu.
  apply sorted_snoc in Hs as [_ Hs]. rewrite Forall_forall in Hs. naive_solver.
Qed.

Lemma disk_set_last files closed q P P' f :
  disk files closed q P → P' f → disk (<[segment_path q := f]> files) closed q P'.
Proof.
  intros Hd Hf. pose proof (disk_u64 _ _ _ _ Hd) as [Hq Hcl]. destruct Hd as [[H1 H2 H3 H4] Hc Hl].
  split; [split; [| |done|done]| |].
  - intros c Hin. rewrite lookup_insert_is_Some. destruct (decide (segment_path q = segment_path c)); auto.
  - intros name s Hs Hseq. rewrite lookup_insert_is_Some in Hs. destruct Hs as [<-|[_ Hs]]; [|eauto].
    rewrite segment_seq_path in Hseq by done. simplify_eq. split; [done|]. set_solver.
  - intros c rs Hin. pose proof (list_elem_of_fmap_2 fst _ _ Hin) as Hin1. apply Hcl in Hin1 as [Hcu Hlt].
    cbn [fst] in *. rewrite lookup_insert_ne by (intros ?%segment_path_inj; [lia|done..]). by apply Hc.
  - exists f. by rewrite lookup_insert_eq.
Qed.

(** Closing the last segment, durable, and starting the next. *)
Lemma disk_add files closed q rs f :
  disk files closed q (file_ok rs (length rs)) → is_u64 (q + 1) → zero_file f →
  disk (<[segment_path (q + 1) := f]> files) (closed ++ [(q, rs)]) (q + 1) (file_ok [] 0).
Proof.
  intros Hd Hq1 [[n Hn] [m Hm]]. pose proof (disk_u64 _ _ _ _ Hd) as [Hq Hcl].
  destruct Hd as [[H1 H2 H3 H4] Hc Hl].
  assert (∀ c, is_u64 c → c ≤ q → <[segment_path (q + 1) := f]> files !! segment_path c
    = files !! segment_path c) as Hlook.
  { intros c Hcu Hcq. rewrite lookup_insert_ne; [done|]. intros ?%segment_path_inj; [lia|done..]. }
  split; [split|..]; rewrite ?fmap_app; cbn [fmap list_fmap fst].
  - intros c. rewrite elem_of_app, list_elem_of_singleton. intros [Hin| ->].
    + rewrite Hlook; [by apply H1| |].
      * rewrite Forall_forall in H4. auto.
      * rewrite elem_of_app, list_elem_of_singleton in Hin.
        destruct Hin as [[_ ?]%Hcl| ->]; lia.
    + rewrite lookup_insert_eq. eauto.
  - intros name s Hs Hseq. rewrite lookup_insert_is_Some in Hs. destruct Hs as [<-|[_ Hs]].
    + rewrite segment_seq_path in Hseq by done. simplify_eq. split; [done|]. set_solver.
    + destruct (H2 _ _ Hs Hseq) as [-> Hin]. split; [done|]. set_solver.
  - rewrite sorted_snoc. split; [done|]. rewrite Forall_app, Forall_singleton. split; [|lia].
    apply Forall_forall. intros c [_ ?]%Hcl. lia.
  - by rewrite Forall_app, Forall_singleton.
  - intros c rs'. rewrite elem_of_app, list_elem_of_singleton. intros [Hin|[= -> ->]].
    + pose proof (list_elem_of_fmap_2 fst _ _ Hin) as [Hcu ?]%Hcl. cbn [fst] in *.
      rewrite Hlook by (done || lia). by apply Hc.
    + rewrite Hlook by (done || lia). done.
  - exists f. rewrite lookup_insert_eq. split; [done|]. split; [exists n|exists m]; done.
Qed.

Lemma disk_weaken files closed q (P P' : File → Prop) :
  (∀ f, P f → P' f) → disk files closed q P → disk files closed q P'.
Proof. intros HP [H1 H2 (f & Hf & H3)]. split; eauto. Qed.

Lemma file_ok_torn rs k f : file_ok rs k f → file_torn rs k f.
Proof. intros [H1 H2]. split; [by apply seg_data_torn|done]. Qed.

(** ** The state of the writer

    [pend] is what is encoded and not yet written. *)

Definition phys (closed : list (Z * list Rec)) : list Rec := concat closed.*2.

Definition seg_of (s : Z * list Rec) : Segment := mkSegment s.1 (max_entry_of s.2).

Record wal_ok (w : Wal) (fs : Fs) (closed : list (Z * list Rec)) (q : Z) (rs pend : list Rec) (k : nat)
    : Prop := {
  ok_disk : disk (fs_files fs) closed q (file_ok rs k);
  ok_segments : segments w = (seg_of <$> closed) ++ [seg_of (q, rs ++ pend)];
  ok_offset : offset w = length (encode_all rs);
  ok_sticky : sticky w = log_meta (wal_log (phys closed ++ rs ++ pend));
  ok_wf : Forall rec_wf (phys closed ++ rs ++ pend);
  ok_k : (k ≤ length rs)%nat
}.

Lemma ok_last w fs closed q rs pend k : wal_ok w fs closed q rs pend k → last_seq w = q.
Proof. intros Hok. unfold last_seq. rewrite (ok_segments _ _ _ _ _ _ _ Hok), last_snoc. done. Qed.

Lemma log_step_meta l r :
  rec_wf r →
  log_meta (log_step l r)
  = if decide (r_kind r ∈ STICKY) then <[r_kind r := (r_index r, r_payload r)]> (log_meta l) else log_meta l.
Proof.
  intros ([Hk|[Hk|[Hk|Hk]]]%kind_cases & _).
  - rewrite log_step_entry by done. rewrite Hk. cbv zeta.
    destruct (decide _) as [Hin|_]; [by vm_compute in Hin; set_solver|]. by destruct (unpurged _ _).
  - rewrite log_step_truncate by done. rewrite Hk.
    destruct (decide _) as [Hin|_]; [by vm_compute in Hin; set_solver|done].
  - rewrite log_step_purge by done. rewrite Hk. destruct (decide _) as [_|Hn]; [done|by destruct Hn; left].
  - rewrite log_step_value by done. destruct (decide _) as [_|Hn]; [done|].
    destruct Hn. destruct Hk as [-> | ->]; unfold STICKY; set_solver.
Qed.

Lemma note_record_ok w fs closed q rs pend k r :
  wal_ok w fs closed q rs pend k → rec_wf r →
  wal_ok (note_record r w) fs closed q rs (pend ++ [r]) k.
Proof.
  intros [Hd Hs Ho Hm Hw Hk] Hr.
  assert (note_last (r_kind r) (r_index r) (segments w)
    = (seg_of <$> closed) ++ [seg_of (q, rs ++ pend ++ [r])]) as Hn.
  { unfold note_last. rewrite Hs, last_snoc, length_app. cbn [length seg_of seg_seq seg_max_entry fst snd].
    rewrite Nat.add_sub, take_app_length. do 2 f_equal.
    unfold seg_of, max_entry_of. cbn [fst snd]. rewrite (app_assoc rs pend [r]), (foldl_app _ (rs ++ pend)). done. }
  assert (log_meta (wal_log (phys closed ++ rs ++ pend ++ [r]))
    = if decide (r_kind r ∈ STICKY) then <[r_kind r := (r_index r, r_payload r)]> (sticky w) else sticky w) as Hst.
  { rewrite Hm, !app_assoc, wal_log_app. cbn. by rewrite log_step_meta. }
  assert (Forall rec_wf (phys closed ++ rs ++ pend ++ [r])) as Hw'.
  { rewrite !Forall_app in *. rewrite Forall_singleton. naive_solver. }
  unfold note_record. destruct (decide (r_kind r ∈ STICKY)); split; done.
Qed.

Lemma write_at_end rs n d :
  write_at (encode_all rs ++ zeros n) (length (encode_all rs)) d
  = encode_all rs ++ d ++ zeros (n - length d).
Proof.
  unfold write_at. rewrite take_app_length, length_app.
  replace (length (encode_all rs) - (length (encode_all rs) + length (zeros n)))%nat with 0%nat by lia.
  cbn [zeros replicate app]. do 2 f_equal.
  rewrite drop_app_ge by lia. rewrite drop_zeros. f_equal. lia.
Qed.

Lemma write_buf_run d w fs :
  d ≠ [] →
  write_buf d (w, fs)
  = let '(r, fs1) := write_all_at (last_path w) d (offset w) fs in
    match r with
    | Ok _ => (Ok (), (set_offset (offset w + length d) w, fs1))
    | Err e => (Err e, (w, fs1))
    end.
Proof.
  intros Hd. destruct d as [|b d']; [done|]. unfold write_buf, pbind, get_wal, on_fs, set_wal, pmodify.
  cbn [fst snd]. by destruct (write_all_at _ _ _ fs) as [[[]|e] fs1].
Qed.

Lemma write_buf_inv w fs closed q rs pend k r w' fs' :
  wal_ok w fs closed q rs pend k →
  write_buf (encode_all pend) (w, fs) = (r, (w', fs')) →
  match r with
  | Ok _ => wal_ok w' fs' closed q (rs ++ pend) [] k
  | Err _ => disk (fs_files fs') closed q (file_torn (rs ++ pend) k)
  end.
Proof.
  intros Hok. pose proof (ok_last _ _ _ _ _ _ _ Hok) as Hlast. destruct Hok as [Hd Hs Ho Hm Hw Hk].
  assert (∀ X, take k (rs ++ X) = take k rs) as Htk by (intros X; by rewrite take_app_le).
  destruct pend as [|p0 pend'].
  { cbn. intros [= <- <- <-]. rewrite app_nil_r. by split. }
  set (pend := p0 :: pend') in *. assert (encode_all pend ≠ []) as Hne.
  { intros Hz. pose proof (length_encode_all pend) as Hlen. rewrite Hz in Hlen. cbn in Hlen. lia. }
  rewrite write_buf_run by done. remember (encode_all pend) as d eqn:Hde. unfold last_path.
  rewrite Hlast, Ho. destruct (write_all_at _ _ _ fs) as [[[]|e] fs1] eqn:Hwr; apply write_all_at_inv in Hwr;
    intros [= <- <- <-]; pose proof Hd as [Hn Hc (f & Hf & [n Hdata] & Hdur)].
  - destruct Hwr as (f' & Hf' & Hfs). rewrite Hf in Hf'. injection Hf' as <-. cbn [fst snd].
    rewrite Hdata, write_at_end in Hfs. split; cbn [segments offset sticky set_offset].
    + rewrite Hfs. apply (disk_set_last _ _ _ _ _ _ Hd). split; cbn [f_data f_durable].
      * eexists. by rewrite encode_all_app, <- Hde, <- app_assoc.
      * by rewrite Htk.
    + by rewrite app_nil_r.
    + by rewrite encode_all_app, <- Hde, length_app.
    + by rewrite app_nil_r.
    + by rewrite app_nil_r.
    + rewrite length_app. lia.
  - assert (disk (fs_files fs) closed q (file_torn (rs ++ pend) k)) as Hsame.
    { split; [done|done|]. exists f. split; [done|]. split; [|by rewrite Htk].
      exists (length (encode_all rs)), n. rewrite Htk, encode_all_app, take_app_length. split; [|done].
      rewrite <- (take_drop k rs) at 2. rewrite encode_all_app, length_app. lia. }
    destruct Hwr as [-> |(f' & m & Hf' & ->)]; [done|]. rewrite Hf in Hf'. injection Hf' as <-.
    apply (disk_set_last _ _ _ _ _ _ Hd). split; cbn [f_data f_durable]; [|by rewrite Htk].
    rewrite Hdata, write_at_end. exists (length (encode_all rs) + m)%nat. eexists. rewrite Htk. split.
    + rewrite <- (take_drop k rs) at 2. rewrite encode_all_app, length_app. lia.
    + by rewrite encode_all_app, <- Hde, take_app_add, <- app_assoc.
Qed.

(** ** Rolling to a new segment *)

Lemma log_meta_source rs k i p :
  Forall rec_wf rs → log_meta (wal_log rs) !! k = Some (i, p) → mkRec k i p ∈ rs.
Proof.
  induction rs as [|r rs IH] using rev_ind; intros Hrs; [by cbn; rewrite lookup_empty|].
  rewrite Forall_app, Forall_singleton in Hrs. destruct Hrs as [Hrs Hr].
  rewrite wal_log_app. cbn. rewrite log_step_meta by done. rewrite elem_of_app, list_elem_of_singleton.
  destruct (decide _); [|auto]. rewrite lookup_insert_Some.
  intros [[<- [= <- <-]]|[_ ?]]; [right; by destruct r|auto].
Qed.

Lemma sticky_records_source rs r :
  Forall rec_wf rs → r ∈ sticky_records (log_meta (wal_log rs)) → r ∈ rs.
Proof.
  intros Hrs [Hm _]%sticky_records_elem. apply log_meta_source in Hm; [|done]. by destruct r.
Qed.

Lemma max_entry_sticky m : max_entry_of (sticky_records m) = None.
Proof.
  unfold max_entry_of. assert (∀ r, r ∈ sticky_records m → r_kind r ∈ STICKY) as Hs
    by (intros r ?%sticky_records_elem; naive_solver).
  induction (sticky_records m) as [|r rs IH] using rev_ind; [done|].
  rewrite foldl_app, IH by set_solver. cbn. unfold bump_entry.
  destruct (Z.eqb_spec (r_kind r) KIND_ENTRY) as [He|]; [|done].
  assert (r_kind r ∈ STICKY) as Hin by (apply Hs; set_solver). rewrite He in Hin.
  unfold STICKY in Hin. rewrite !elem_of_cons, elem_of_nil in Hin. naive_solver.
Qed.

Lemma phys_snoc closed q rs : phys (closed ++ [(q, rs)]) = phys closed ++ rs.
Proof. unfold phys. by rewrite fmap_app, concat_app; cbn; rewrite app_nil_r. Qed.

Lemma file_ok_empty_torn X f : file_ok [] 0 f → file_torn X 0 f.
Proof. intros [[n Hn] Hd]. split; [|done]. exists 0%nat, n. split; [done|by rewrite Hn]. Qed.

Lemma wal_sync_inv w fs closed q rs k r w' fs' :
  wal_ok w fs closed q rs [] k → wal_sync (w, fs) = (r, (w', fs')) →
  w' = w ∧ match r with
  | Ok _ => wal_ok w fs' closed q rs [] (length rs)
  | Err _ => fs_files fs' = fs_files fs
  end.
Proof.
  intros Hok. unfold wal_sync, pbind, get_wal, on_fs, last_path. cbn [fst snd].
  rewrite (ok_last _ _ _ _ _ _ _ Hok). destruct (sync_file _ fs) as [[[]|e] fs1] eqn:Hs;
    apply sync_file_inv in Hs; intros [= <- <- <-]; (split; [done|]); [|done].
  destruct Hok as [Hd H2 H3 H4 H5 H6]. pose proof Hd as [_ _ (f & Hf & Hdat & Hdur)].
  destruct Hs as (f' & Hf' & Hs). rewrite Hf in Hf'. injection Hf' as <-. split; try done.
  rewrite Hs. apply (disk_set_last _ _ _ _ _ _ Hd). split; cbn [f_data f_durable]; [done|].
  by rewrite firstn_all.
Qed.

Lemma disk_next_free files closed q P :
  disk files closed q P → is_u64 (q + 1) → files !! segment_path (q + 1) = None.
Proof.
  intros Hd Hq. pose proof (disk_u64 _ _ _ _ Hd) as [_ Hlt]. destruct Hd as [[_ Hn _ _] _ _].
  destruct (files !! segment_path (q + 1)) eqn:Hf; [|done]. exfalso.
  destruct (Hn (segment_path (q + 1)) (q + 1)) as [_ Hin]; [by eexists|by apply segment_seq_path|].
  rewrite elem_of_app, list_elem_of_singleton in Hin. destruct Hin as [[_ ?]%Hlt|]; lia.
Qed.

Lemma spawn_spare_inv fs r fs' :
  spawn_spare fs = (r, fs') → ∃ b, r = Ok b ∧ fs_files fs' = fs_files fs.
Proof.
  unfold spawn_spare, pbind, next_fault. destruct (fs_faults fs) as [|[]]; intros [= <- <-]; eauto.
Qed.

Lemma roll_inv w fs closed q rs k r w' fs' :
  wal_ok w fs closed q rs [] k → is_u64 (q + 1) → roll (w, fs) = (r, (w', fs')) →
  let st := sticky_records (log_meta (wal_log (phys closed ++ rs))) in
  match r with
  | Ok _ => wal_ok w' fs' (closed ++ [(q, rs)]) (q + 1) st [] 0
  | Err _ => (∃ k', (k ≤ k' ≤ length rs)%nat ∧ disk (fs_files fs') closed q (file_torn rs k')) ∨
      disk (fs_files fs') (closed ++ [(q, rs)]) (q + 1) (file_torn st 0)
  end.
Proof.
  intros Hok Hq Hroll st. unfold roll in Hroll.
  rewrite (pbind_run _ _ _ w (w, fs)) in Hroll by done.
  pose proof (ok_last _ _ _ _ _ _ _ Hok) as Hlast. rewrite Hlast in Hroll. cbv zeta in Hroll.
  unfold pbind at 1 in Hroll. destruct (on_fs (sync_file (last_path w)) (w, fs)) as [r1 [w1 fs1]] eqn:Hs.
  apply (wal_sync_inv _ _ _ _ _ _ _ _ _ Hok) in Hs as [-> Hs].
  pose proof (ok_k _ _ _ _ _ _ _ Hok) as Hk.
  destruct r1 as [[]|e].
  2:{ injection Hroll as <- <- <-. left. exists k. split; [lia|]. rewrite Hs.
      eapply disk_weaken; [|apply Hok]. intros f. apply file_ok_torn. }
  pose proof (ok_disk _ _ _ _ _ _ _ Hs) as Hd1.
  rewrite (pbind_run _ _ _ () (set_spare false w, fs1)) in Hroll by done.
  unfold pbind at 1, on_fs at 1 in Hroll. cbn [fst snd] in Hroll.
  destruct (install_spare _ _ _ fs1) as [r2 fs2] eqn:Hi.
  apply install_spare_inv in Hi; [|done|by eapply disk_next_free]. cbv zeta in Hi.
  assert ((∃ f, zero_file f ∧ off_spare (fs_files fs2) = <[segment_path (q + 1):=f]> (off_spare (fs_files fs1))) →
    disk (fs_files fs2) (closed ++ [(q, rs)]) (q + 1) (file_ok [] 0)) as Hadd.
  { intros (f & Hz & Ho). eapply disk_ext; [|by apply (disk_add _ _ _ _ f Hd1)].
    by rewrite off_spare_segment, Ho. }
  destruct r2 as [zf|e].
  2:{ injection Hroll as <- <- <-. destruct Hi as [Ho|Ho]; [left|right].
      - exists (length rs). split; [lia|]. eapply disk_ext; [exact Ho|].
        eapply disk_weaken; [|exact Hd1]. intros f. apply file_ok_torn.
      - eapply disk_weaken; [|by apply Hadd]. intros f. apply file_ok_empty_torn. }
  specialize (Hadd Hi).
  rewrite (pbind_run _ _ _ () (set_preallocated_only (negb zf) (set_spare false w), fs2)) in Hroll by done.
  unfold pbind at 1, on_fs at 1 in Hroll. cbn [fst snd] in Hroll.
  destruct (spawn_spare fs2) as [r3 fs3] eqn:Hsp. apply spawn_spare_inv in Hsp as (b & -> & H3).
  unfold pbind at 1, set_wal at 1, pmodify at 1 in Hroll. cbn [fst snd] in Hroll.
  set (w3 := set_segments _ _) in Hroll. rewrite (ok_sticky _ _ _ _ _ _ _ Hok), app_nil_r in Hroll.
  assert (wal_ok w3 fs3 (closed ++ [(q, rs)]) (q + 1) [] st 0) as Hok3.
  { pose proof (ok_wf _ _ _ _ _ _ _ Hok) as Hwf. rewrite app_nil_r in Hwf.
    split; rewrite ?phys_snoc; cbn [app]; [by rewrite H3| | | | |done].
    - subst w3. cbn [set_segments segments set_offset set_spare set_preallocated_only].
      rewrite (ok_segments _ _ _ _ _ _ _ Hok), app_nil_r, fmap_app.
      assert (mkSegment (q + 1) None = seg_of (q + 1, st)) as ->; [|done].
      unfold seg_of. cbn [fst snd]. subst st. by rewrite max_entry_sticky.
    - done.
    - subst w3. cbn [sticky set_segments set_offset set_spare set_preallocated_only].
      rewrite (ok_sticky _ _ _ _ _ _ _ Hok), app_nil_r, (wal_log_app (phys closed ++ rs)).
      subst st. by rewrite log_from_sticky_records by (by apply wal_log_inv).
    - rewrite Forall_app. split; [done|]. rewrite Forall_forall in *.
      intros r0 Hr0. apply Hwf, sticky_records_source; [by apply Forall_forall|done]. }
  destruct r as [[]|e]; apply (write_buf_inv _ _ _ _ _ _ _ _ _ _ Hok3) in Hroll; [done|by right].
Qed.
