(* ===== verification/WalRun.v ===== *)
(** * Runs of the WAL

    [live] relates a running log to the records appended so far;
    [crash_ok] says what a crash may leave: some prefix of them, with every
    record synced.  Each operation keeps [live], or fails and leaves
    [crash_ok]. *)

From S2P Require Import Prelude Crc Wal WalCodec WalLog WalDisk WalOps.

(** ** The records appended and the records on disk

    The records on disk ([P]) are the records appended ([H]) with repeated
    sticky values, less dropped segments.  From [K] of them on, every
    prefix means what some prefix of [H] of at least [M] records means. *)

Definition agree (H : list Rec) (M : nat) (P : list Rec) (K : nat) : Prop :=
  ∀ j, (K ≤ j ≤ length P)%nat → ∃ m, (M ≤ m ≤ length H)%nat ∧ wal_log (take j P) = wal_log (take m H).

Lemma agree_more H X M P K : agree H M P K → agree (H ++ X) M P K.
Proof.
  intros Ha j Hj. destruct (Ha j Hj) as (m & Hm & He). exists m. rewrite length_app, take_app_le by lia.
  split; [lia|done].
Qed.

Lemma agree_less H M P X K : agree H M (P ++ X) K → agree H M P K.
Proof.
  intros Ha j Hj. destruct (Ha j) as (m & Hm & He); [rewrite length_app; lia|].
  exists m. rewrite take_app_le in He by lia. done.
Qed.

Lemma agree_weaken H M P K K' : (K ≤ K')%nat → agree H M P K → agree H M P K'.
Proof. intros HK Ha j Hj. apply Ha. lia. Qed.

Lemma agree_record H M P K r :
  (M ≤ length H)%nat → wal_log P = wal_log H → agree H M P K → agree (H ++ [r]) M (P ++ [r]) K.
Proof.
  intros HM He Ha j Hj. rewrite length_app in *. cbn [length] in *.
  destruct (decide (j ≤ length P)%nat).
  - destruct (Ha j) as (m & Hm & Hlog); [lia|]. exists m.
    rewrite !take_app_le by lia. split; [lia|done].
  - exists (length H + 1)%nat. split; [lia|]. rewrite !take_ge by (rewrite length_app; cbn; lia).
    by rewrite !wal_log_app, He.
Qed.

(** Everything is synced. *)
Lemma agree_synced H P : wal_log P = wal_log H → agree H (length H) P (length P).
Proof.
  intros He j Hj. exists (length H). split; [lia|]. by rewrite !take_ge by lia.
Qed.

Lemma elem_of_take_in {A} (l : list A) n x : x ∈ take n l → x ∈ l.
Proof. rewrite <- (take_drop n l) at 2. set_solver. Qed.

(** Repeated sticky values. *)
Lemma sticky_prefix_log P st j :
  Forall rec_wf P → (∀ r, r ∈ st → r ∈ sticky_records (log_meta (wal_log P))) →
  wal_log (P ++ take j st) = wal_log P.
Proof.
  intros HP Hst. rewrite wal_log_app. apply log_from_sticky; [by apply wal_log_inv|].
  intros r Hr. apply sticky_records_elem, Hst. by eapply elem_of_take_in.
Qed.

Lemma agree_sticky H M P :
  Forall rec_wf P → (M ≤ length H)%nat → wal_log P = wal_log H →
  agree H M (P ++ sticky_records (log_meta (wal_log P))) (length P).
Proof.
  intros HP HM He j Hj. exists (length H). split; [lia|].
  rewrite take_app_ge by lia. rewrite sticky_prefix_log by done. by rewrite He, firstn_all.
Qed.

(** ** Segments start with the sticky values *)

Fixpoint heads (pre : list Rec) (segs : list (list Rec)) : Prop :=
  match segs with
  | [] => True
  | rs :: rest => sticky_records (log_meta (wal_log pre)) `prefix_of` rs ∧ heads (pre ++ rs) rest
  end.

Definition heads_ok (segs : list (list Rec)) : Prop :=
  match segs with [] => True | rs :: rest => heads rs rest end.

Lemma heads_snoc pre segs rs :
  heads pre (segs ++ [rs]) ↔
  heads pre segs ∧ sticky_records (log_meta (wal_log (pre ++ concat segs))) `prefix_of` rs.
Proof.
  revert pre. induction segs as [|s segs IH]; intros pre; cbn [heads app concat].
  - rewrite app_nil_r. naive_solver.
  - rewrite IH, <- app_assoc. naive_solver.
Qed.

Lemma heads_ok_add segs rs x : heads_ok (segs ++ [rs]) → heads_ok (segs ++ [rs ++ x]).
Proof.
  destruct segs as [|s segs]; [done|]. cbn [heads_ok app]. rewrite !heads_snoc.
  intros [? Hp]. split; [done|]. by apply prefix_app_r.
Qed.

Lemma heads_ok_roll segs rs :
  heads_ok (segs ++ [rs]) →
  heads_ok ((segs ++ [rs]) ++ [sticky_records (log_meta (wal_log (concat segs ++ rs)))]).
Proof.
  destruct segs as [|s segs]; cbn [heads_ok app concat heads]; [done|].
  intros Hh. rewrite heads_snoc. split; [done|].
  by rewrite concat_app, <- app_assoc; cbn; rewrite app_nil_r.
Qed.

(** What follows a segment's head does not depend on what came before. *)
Lemma head_meta d rs :
  Forall rec_wf d → Forall rec_wf rs → sticky_records (log_meta (wal_log d)) `prefix_of` rs →
  log_meta (wal_log (d ++ rs)) = log_meta (wal_log rs).
Proof.
  intros Hd Hrs [x ->]. apply Forall_app in Hrs as [_ Hx].
  destruct (head_same_above (default 0 (max_entry_of d)) d x) as [Hm _]; [done|done| |done].
  intros j p (m & -> & ?)%max_entry_bound; done.
Qed.

Lemma heads_forget d segs : ∀ rs,
  Forall rec_wf d → Forall rec_wf (rs ++ concat segs) →
  sticky_records (log_meta (wal_log d)) `prefix_of` rs → heads (d ++ rs) segs → heads rs segs.
Proof.
  induction segs as [|s segs IH]; intros rs Hd Hrs Hp; [done|]. cbn [heads concat] in *.
  rewrite !Forall_app in Hrs. destruct Hrs as (Hrs & Hs & Hsegs).
  rewrite head_meta by done. intros [Hps Hh]. split; [done|].
  apply IH; [done|by rewrite !Forall_app|by apply prefix_app_r|by rewrite app_assoc].
Qed.

(** ** A running log *)

Record live (w : Wal) (fs : Fs) (H : list Rec) (M : nat) (closed : list (Z * list Rec)) (q : Z)
    (rs pend : list Rec) (k : nat) : Prop := {
  lv_ok : wal_ok w fs closed q rs pend k;
  lv_log : wal_log (phys closed ++ rs ++ pend) = wal_log H;
  lv_agree : agree H M (phys closed ++ rs ++ pend) (length (phys closed) + k);
  lv_M : (M ≤ length H)%nat;
  lv_from r : r ∈ phys closed ++ rs ++ pend → r ∈ H;
  lv_heads : heads_ok (closed.*2 ++ [rs ++ pend])
}.

(** What is on disk when the writer stops, crashes included. *)
Definition crash_ok (fs : Fs) (H : list Rec) (M : nat) : Prop :=
  ∃ closed q rs k, disk (fs_files fs) closed q (file_torn rs k) ∧ (k ≤ length rs)%nat ∧
    Forall rec_wf (phys closed ++ rs) ∧ (∀ r, r ∈ phys closed ++ rs → r ∈ H) ∧
    agree H M (phys closed ++ rs) (length (phys closed) + k).

Lemma crash_ok_more fs H X M : crash_ok fs H M → crash_ok fs (H ++ X) M.
Proof.
  intros (c & q & rs & k & Hd & Hk & Hw & Hf & Ha). exists c, q, rs, k. split_and!; try done.
  - intros r Hr. apply elem_of_app. left. auto.
  - by apply agree_more.
Qed.

Lemma live_crash_ok w fs H M closed q rs pend k fs' :
  live w fs H M closed q rs pend k → fs_files fs' = fs_files fs → crash_ok fs' H M.
Proof.
  intros [[Hd _ _ _ Hw Hk] _ Ha _ Hf _] Hfs. exists closed, q, rs, k. rewrite app_assoc in *.
  split_and!; [|done| | |by eapply agree_less].
  - rewrite Hfs. eapply disk_weaken; [|exact Hd]. intros f. apply file_ok_torn.
  - by apply Forall_app in Hw as [? _].
  - intros r Hr. apply Hf. apply elem_of_app. by left.
Qed.

Lemma live_note w fs H M closed q rs pend k r :
  live w fs H M closed q rs pend k → rec_wf r →
  live (note_record r w) fs (H ++ [r]) M closed q rs (pend ++ [r]) k.
Proof.
  intros [Hok Hl Ha HM Hf Hh] Hr. split.
  - by apply note_record_ok.
  - rewrite !app_assoc. rewrite wal_log_app, (wal_log_app H). by rewrite <- Hl, !app_assoc.
  - rewrite !app_assoc. rewrite <- (app_assoc (phys closed)). by apply agree_record.
  - rewrite length_app. lia.
  - intros x. specialize (Hf x). rewrite !elem_of_app in *. naive_solver.
  - rewrite app_assoc. by apply heads_ok_add.
Qed.

Lemma live_write w fs H M closed q rs pend k r w' fs' :
  live w fs H M closed q rs pend k → write_buf (encode_all pend) (w, fs) = (r, (w', fs')) →
  match r with
  | Ok _ => live w' fs' H M closed q (rs ++ pend) [] k
  | Err _ => crash_ok fs' H M
  end.
Proof.
  intros [Hok Hl Ha HM Hf Hh] Hw. pose proof (ok_wf _ _ _ _ _ _ _ Hok) as Hwf.
  pose proof (ok_k _ _ _ _ _ _ _ Hok). eapply write_buf_inv in Hw; [|done].
  destruct r as [[]|e].
  - split; rewrite ?app_nil_r; done.
  - exists closed, q, (rs ++ pend), k. split_and!; try done. rewrite length_app. lia.
Qed.

Lemma live_roll w fs H M closed q rs k r w' fs' :
  live w fs H M closed q rs [] k → is_u64 (q + 1) → roll (w, fs) = (r, (w', fs')) →
  match r with
  | Ok _ => ∃ st, live w' fs' H M (closed ++ [(q, rs)]) (q + 1) st [] 0
  | Err _ => crash_ok fs' H M
  end.
Proof.
  intros [Hok Hl Ha HM Hf Hh] Hq Hr. rewrite app_nil_r in *.
  pose proof (ok_wf _ _ _ _ _ _ _ Hok) as Hwf. rewrite app_nil_r in Hwf.
  pose proof (ok_k _ _ _ _ _ _ _ Hok) as Hk. eapply roll_inv in Hr; [|done|done]. cbv zeta in Hr.
  set (st := sticky_records (log_meta (wal_log (phys closed ++ rs)))) in *.
  assert (agree H M (phys (closed ++ [(q, rs)]) ++ st) (length (phys (closed ++ [(q, rs)])) + 0)) as Hag.
  { rewrite Nat.add_0_r, phys_snoc. by apply agree_sticky. }
  assert (∀ r, r ∈ phys (closed ++ [(q, rs)]) ++ st → r ∈ H) as Hfrom.
  { intros x. rewrite phys_snoc, elem_of_app. intros [Hx|Hx]; [auto|].
    apply Hf. by apply sticky_records_source. }
  destruct r as [[]|e].
  - exists st. split; rewrite ?app_nil_r; try done.
    + rewrite phys_snoc. rewrite <- Hl. rewrite <- (firstn_all st). by apply sticky_prefix_log.
    + rewrite fmap_app. apply heads_ok_roll. done.
  - destruct Hr as [(k' & Hk' & Hd)|Hd].
    + exists closed, q, rs, k'. split_and!; try done; [lia|]. eapply agree_weaken; [|done]. lia.
    + exists (closed ++ [(q, rs)]), (q + 1), st, 0%nat. split_and!; try done; [lia|].
      rewrite phys_snoc, Forall_app. split; [done|]. rewrite Forall_forall in *.
      intros x Hx. apply Hwf, sticky_records_source; [by apply Forall_forall|done].
Qed.

Lemma live_sync w fs H M closed q rs k r w' fs' :
  live w fs H M closed q rs [] k → wal_sync (w, fs) = (r, (w', fs')) →
  match r with
  | Ok _ => live w' fs' H (length H) closed q rs [] (length rs)
  | Err _ => crash_ok fs' H M
  end.
Proof.
  intros Hlv Hs. pose proof Hlv as [Hok Hl Ha HM Hf Hh]. eapply wal_sync_inv in Hs as [-> Hs]; [|done].
  destruct r as [[]|e]; [|by eapply live_crash_ok].
  split; try done. rewrite app_nil_r in *. rewrite <- length_app. by apply agree_synced.
Qed.

(** ** Appending *)

(** Where the records of all segments are. *)
Definition placed (segs : list (Z * list Rec)) : list (Rec * Loc) :=
  concat ((λ s, located s.1 0 s.2) <$> segs).

Lemma placed_app a b : placed (a ++ b) = placed a ++ placed b.
Proof. unfold placed. by rewrite fmap_app, concat_app. Qed.

Lemma placed_last q rs : placed [(q, rs)] = located q 0 rs.
Proof. apply app_nil_r. Qed.

Lemma located_app seq a : ∀ pos b,
  located seq pos (a ++ b) = located seq pos a ++ located seq (pos + length (encode_all a)) b.
Proof.
  induction a as [|r a IH]; intros pos b; cbn [located app].
  - by rewrite Nat.add_0_r.
  - rewrite IH, encode_all_cons, length_app, Nat.add_assoc. done.
Qed.

(** The log has grown: what was placed stays there. *)
Definition grown (c : list (Z * list Rec)) (q : Z) (rs : list Rec)
    (c' : list (Z * list Rec)) (q' : Z) (rs' : list Rec) : Prop :=
  ∀ x, x ∈ placed (c ++ [(q, rs)]) → x ∈ placed (c' ++ [(q', rs')]).

Lemma grown_add c q rs x : grown c q rs c q (rs ++ x).
Proof.
  intros y. rewrite !placed_app, !placed_last, located_app, !elem_of_app. naive_solver.
Qed.

Lemma grown_roll c q rs st : grown c q rs (c ++ [(q, rs)]) (q + 1) st.
Proof. intros y. rewrite (placed_app (c ++ [(q, rs)])), elem_of_app. by left. Qed.

Lemma grown_trans c q rs c1 q1 rs1 c2 q2 rs2 :
  grown c q rs c1 q1 rs1 → grown c1 q1 rs1 c2 q2 rs2 → grown c q rs c2 q2 rs2.
Proof. unfold grown. auto. Qed.

(** Making room: write the buffer and roll if the segment is full. *)
Lemma live_room w fs H M closed q rs pend k r w' fs' :
  live w fs H M closed q rs pend k → is_u64 (q + 1) →
  make_room (encode_all pend) (w, fs) = (r, (w', fs')) →
  match r with
  | Ok buf => ∃ closed' q' rs' pend' k', live w' fs' H M closed' q' rs' pend' k' ∧
      buf = encode_all pend' ∧ q ≤ q' ≤ q + 1 ∧
      grown closed q (rs ++ pend) closed' q' (rs' ++ pend')
  | Err _ => crash_ok fs' H M
  end.
Proof.
  intros Hlv Hq. unfold make_room. rewrite (pbind_run _ _ _ w (w, fs)) by done.
  cbv zeta. destruct (_ && _).
  - unfold pbind. destruct (write_buf _ _) as [r1 [w1 fs1]] eqn:Hw.
    eapply live_write in Hw; [|done]. destruct r1 as [[]|e]; [|by intros [= <- <- <-]].
    destruct (roll (w1, fs1)) as [r2 [w2 fs2]] eqn:Hr. eapply live_roll in Hr; [|done|done].
    destruct r2 as [[]|e]; [|by intros [= <- <- <-]]. destruct Hr as [st Hst]. intros [= <- <- <-].
    exists (closed ++ [(q, rs ++ pend)]), (q + 1), st, [], 0%nat. split_and!; [done|done|lia|lia|].
    rewrite app_nil_r. apply grown_roll.
  - intros [= <- <- <-]. exists closed, q, rs, pend, k. split_and!; [done|done|lia|lia|]. by intros x.
Qed.

Lemma append_loop_inv records : ∀ w fs H M closed q rs pend k locs r w' fs',
  live w fs H M closed q rs pend k → Forall (λ r, is_u64 (r_index r)) records →
  q + Z.of_nat (length records) ≤ u64_max →
  append_loop records (encode_all pend) locs (w, fs) = (r, (w', fs')) →
  match r with
  | Ok out => ∃ closed' q' rs' pend' k' new, live w' fs' (H ++ records) M closed' q' rs' pend' k' ∧
      out = (encode_all pend', locs ++ new) ∧ q ≤ q' ≤ q + Z.of_nat (length records) ∧
      grown closed q (rs ++ pend) closed' q' (rs' ++ pend') ∧
      Forall2 (λ rec loc, (rec, loc) ∈ placed (closed' ++ [(q', rs' ++ pend')])) records new
  | Err _ => crash_ok fs' (H ++ records) M
  end.
Proof.
  induction records as [|rec records IH]; intros w fs H M closed q rs pend k locs r w' fs' Hlv Hu Hq;
    cbn [append_loop].
  { intros [= <- <- <-]. exists closed, q, rs, pend, k, []. rewrite !app_nil_r.
    split_and!; [done|done|lia|cbn; lia|by intros x|constructor]. }
  apply Forall_cons in Hu as [Hi Hu]. cbn [length] in Hq.
  pose proof (disk_u64 _ _ _ _ (ok_disk _ _ _ _ _ _ _ (lv_ok _ _ _ _ _ _ _ _ _ Hlv))) as [Hq0 _].
  assert (is_u64 (q + 1)) as Hq1 by (unfold is_u64, u64_max, two64 in *; lia).
  destruct (negb (valid_kind (r_kind rec)) || _) eqn:Hbad.
  { intros [= <- <- <-]. apply crash_ok_more. by eapply live_crash_ok. }
  assert (rec_wf rec) as Hwf.
  { apply orb_false_iff in Hbad as [Hk Hl]. apply negb_false_iff in Hk.
    split_and!; [done|done|lia]. }
  unfold pbind at 1. destruct (make_room _ (w, fs)) as [r1 [w1 fs1]] eqn:Hroom.
  eapply live_room in Hroom; [|done|done].
  destruct r1 as [buf|e]; [|intros [= <- <- <-]; by apply crash_ok_more].
  destruct Hroom as (c1 & q1 & rs1 & pend1 & k1 & Hlv1 & -> & Hq1' & Hg1).
  rewrite (pbind_run _ _ _ w1 (w1, fs1)) by done. cbv zeta.
  rewrite (pbind_run _ _ _ () (note_record rec w1, fs1)) by done.
  rewrite encode_record_app.
  replace (encode_all pend1 ++ encode _) with (encode_all (pend1 ++ [rec]))
    by (rewrite encode_all_app; cbn; rewrite app_nil_r; by destruct rec).
  intros Hrest. eapply IH in Hrest; [|by apply live_note|done|lia].
  rewrite <- (app_assoc H [rec]) in Hrest. cbn [app] in Hrest.
  destruct r as [out|e]; [|done].
  destruct Hrest as (c' & q' & rs' & pend' & k' & new & Hlv' & -> & Hq' & Hg & Hnew).
  rewrite (app_assoc rs1) in Hg.
  eexists c', q', rs', pend', k', (_ :: new). split_and!; [done|by rewrite <- app_assoc|lia|cbn [length]; lia| |].
  - eapply grown_trans; [exact Hg1|]. eapply grown_trans; [apply grown_add|exact Hg].
  - constructor; [|done]. apply Hg. rewrite placed_app, placed_last, located_app, !elem_of_app. right. right.
    cbn [located]. pose proof (lv_ok _ _ _ _ _ _ _ _ _ Hlv1) as Hok1.
    rewrite (ok_last _ _ _ _ _ _ _ Hok1), (ok_offset _ _ _ _ _ _ _ Hok1).
    rewrite encode_all_app, length_app. left.
Qed.

Lemma live_move w fs H M closed q rs k r w' fs' :
  live w fs H M closed q rs [] k → is_u64 (q + 1) → move_to_spare (w, fs) = (r, (w', fs')) →
  match r with
  | Ok _ => ∃ closed' q' rs' k', live w' fs' H M closed' q' rs' [] k' ∧
      q ≤ q' ≤ q + 1 ∧ grown closed q rs closed' q' rs'
  | Err _ => crash_ok fs' H M
  end.
Proof.
  intros Hlv Hq. unfold move_to_spare. rewrite (pbind_run _ _ _ w (w, fs)) by done.
  assert (∀ fs0, fs_files fs0 = fs_files fs → live w fs0 H M closed q rs [] k) as Hsame.
  { intros fs0 Hfs0. destruct Hlv as [[H1 H2 H3 H4 H5 H6] ?????]. split; try done. split; try done.
    by rewrite Hfs0. }
  assert (∀ fs0, fs_files fs0 = fs_files fs → pret () (w, fs0) = (r, (w', fs')) →
    match r with
    | Ok _ => ∃ closed' q' rs' k', live w' fs' H M closed' q' rs' [] k' ∧
        q ≤ q' ≤ q + 1 ∧ grown closed q rs closed' q' rs'
    | Err _ => crash_ok fs' H M
    end) as Hstay.
  { intros fs0 Hfs0 [= <- <- <-]. exists closed, q, rs, k. split_and!; [by apply Hsame|lia|lia|by intros x]. }
  destruct (_ && _); [|by apply Hstay]. unfold pbind at 1, spare_finished.
  destruct (spare w); [|by apply Hstay]. unfold pbind, on_fs, next_fault. cbn [fst snd].
  destruct (fs_faults fs) as [|[n|] fl]; cbn [pret]; [|by apply Hstay|];
    (intros Hr; eapply live_roll in Hr; [|by apply Hsame|done]; destruct r; [|done];
     destruct Hr as [st Hst]; eexists _, _, st, 0%nat; split_and!; [done|lia|lia|apply grown_roll]).
Qed.

Lemma live_append records w fs H M closed q rs k r w' fs' :
  live w fs H M closed q rs [] k → Forall (λ r, is_u64 (r_index r)) records →
  q + 1 + Z.of_nat (length records) ≤ u64_max →
  append records (w, fs) = (r, (w', fs')) →
  match r with
  | Ok locs => ∃ closed' q' rs' k', live w' fs' (H ++ records) M closed' q' rs' [] k' ∧
      q ≤ q' ≤ q + 1 + Z.of_nat (length records) ∧ grown closed q rs closed' q' rs' ∧
      Forall2 (λ rec loc, (rec, loc) ∈ placed (closed' ++ [(q', rs')])) records locs
  | Err _ => crash_ok fs' (H ++ records) M
  end.
Proof.
  intros Hlv Hu Hq. unfold append.
  pose proof (disk_u64 _ _ _ _ (ok_disk _ _ _ _ _ _ _ (lv_ok _ _ _ _ _ _ _ _ _ Hlv))) as [Hq0 _].
  unfold pbind at 1. destruct (move_to_spare (w, fs)) as [r1 [w1 fs1]] eqn:Hr1.
  eapply live_move in Hr1; [|done|unfold is_u64, u64_max, two64 in *; lia].
  destruct r1 as [[]|e]; [|intros [= <- <- <-]; by apply crash_ok_more].
  destruct Hr1 as (c1 & q1 & rs1 & k1 & Hlv1 & Hq1 & Hg1).
  unfold pbind at 1. destruct (append_loop records [] [] (w1, fs1)) as [r2 [w2 fs2]] eqn:Hl.
  eapply (append_loop_inv _ _ _ _ _ _ _ _ []) in Hl; [|done|done|lia].
  destruct r2 as [out|e]; [|by intros [= <- <- <-]].
  destruct Hl as (c2 & q2 & rs2 & pend2 & k2 & new & Hlv2 & -> & Hq2 & Hg2 & Hnew).
  cbn [fst snd app]. unfold pbind. destruct (write_buf _ _) as [r3 [w3 fs3]] eqn:Hw.
  eapply live_write in Hw; [|done]. destruct r3 as [[]|e]; [|by intros [= <- <- <-]].
  intros [= <- <- <-]. exists c2, q2, (rs2 ++ pend2), k2. split_and!; [done|lia|lia| |done].
  rewrite app_nil_r in Hg2. by eapply grown_trans.
Qed.

(** ** Dropping segments *)

Lemma drop_log d P i :
  Forall rec_wf d → Forall rec_wf P → sticky_records (log_meta (wal_log d)) `prefix_of` P →
  (∀ m, max_entry_of d = Some m → m ≤ i) →
  (∃ p, purge_index (wal_log (d ++ P)) = Some p ∧ i ≤ p) →
  wal_log (d ++ P) = wal_log P.
Proof.
  intros Hd HP [x ->] Hmax Hp.
  apply (same_above_eq i); [|by apply wal_log_inv|done|].
  - apply wal_log_inv. by apply Forall_app.
  - apply head_same_above; [done|by apply Forall_app in HP as [_ ?]|].
    intros j p (m & Hm & ?)%max_entry_bound; [|done]. apply Hmax in Hm. lia.
Qed.

Lemma disk_drop files c0 r0 closed q P :
  disk files ((c0, r0) :: closed) q P → disk (delete (segment_path c0) files) closed q P.
Proof.
  intros Hd. pose proof (disk_u64 _ _ _ _ Hd) as [Hq Hcl]. destruct Hd as [[H1 H2 H3 H4] Hc (f & Hf & HP)].
  cbn [fmap list_fmap fst app] in *. apply StronglySorted_cons in H3 as [Hgt Hsort].
  apply Forall_cons in H4 as [Hc0 Hu]. rewrite Forall_forall in Hgt, Hu.
  assert (∀ c, c ∈ closed.*1 ++ [q] → segment_path c ≠ segment_path c0) as Hne.
  { intros c Hin ?%segment_path_inj; [|auto|done]. apply Hgt in Hin. lia. }
  split; [split|..].
  - intros c Hin. rewrite lookup_delete_ne by (by apply not_eq_sym, Hne). apply H1. by right.
  - intros name s [g Hg] Hseq. apply lookup_delete_Some in Hg as [Hnn Hg].
    destruct (H2 name s) as [-> Hin]; [by eexists|done|]. split; [done|].
    apply elem_of_cons in Hin as [->|?]; done.
  - done.
  - by apply Forall_forall.
  - intros c rs Hin. rewrite lookup_delete_ne.
    + apply Hc. by right.
    + apply not_eq_sym, Hne, elem_of_app. left. by apply (list_elem_of_fmap_2 fst) in Hin.
  - exists f. rewrite lookup_delete_ne; [done|]. apply not_eq_sym, Hne. set_solver.
Qed.

Lemma live_drop_one w fs H c0 r0 closed q rs i files' :
  live w fs H (length H) ((c0, r0) :: closed) q rs [] (length rs) →
  (∀ m, max_entry_of r0 = Some m → m ≤ i) →
  (∃ p, purge_index (wal_log H) = Some p ∧ i ≤ p) →
  fs_files files' = delete (segment_path c0) (fs_files fs) →
  live (set_segments (tail (segments w)) w) files' H (length H) closed q rs [] (length rs).
Proof.
  intros [[Hd Hs Ho Hst Hw Hk] Hl Ha HM Hf Hh] Hmax Hp Hfs. rewrite app_nil_r in *.
  change (phys ((c0, r0) :: closed)) with (r0 ++ phys closed) in *. rewrite <- app_assoc in *.
  apply Forall_app in Hw as [Hw0 Hw]. cbn [fmap list_fmap snd app heads_ok] in Hh.
  assert (sticky_records (log_meta (wal_log r0)) `prefix_of` phys closed ++ rs ∧
          heads_ok (closed.*2 ++ [rs])) as [Hpre Hh'].
  { unfold phys. destruct closed as [|[c1 r1] closed]; cbn [fmap list_fmap fst snd app concat heads] in *.
    - destruct Hh as [Hpre _]. done.
    - destruct Hh as [Hpre Hh]. split; [by rewrite <- app_assoc; apply prefix_app_r|].
      cbn [heads_ok]. eapply heads_forget; [exact Hw0| |exact Hpre|exact Hh].
      rewrite concat_app. cbn [concat]. rewrite app_nil_r. unfold phys in Hw. cbn in Hw.
      by rewrite <- app_assoc in Hw. }
  assert (wal_log (r0 ++ phys closed ++ rs) = wal_log (phys closed ++ rs)) as Heq.
  { apply (drop_log _ _ i); try done. by rewrite Hl. }
  split; rewrite ?app_nil_r; try done.
  - split; cbn [set_segments segments offset sticky]; rewrite ?app_nil_r; try done.
    + rewrite Hfs. by eapply disk_drop.
    + by rewrite Hs.
    + by rewrite Hst, Heq.
  - by rewrite <- Heq.
  - rewrite <- length_app. apply agree_synced. by rewrite <- Heq.
  - intros r Hr. apply Hf. apply elem_of_app. by right.
Qed.

(** What is dropped holds no entry above [i]. *)
Definition kept (i : Z) (closed closed' : list (Z * list Rec)) : Prop :=
  ∃ gone, closed = gone ++ closed' ∧ ∀ r, r ∈ phys gone → r_kind r = KIND_ENTRY → r_index r ≤ i.

Lemma kept_refl i closed : kept i closed closed.
Proof. exists []. split; [done|]. by intros r ?%elem_of_nil. Qed.

Lemma max_entry_elem rs r :
  r ∈ rs → r_kind r = KIND_ENTRY → ∃ m, max_entry_of rs = Some m ∧ r_index r ≤ m.
Proof.
  unfold max_entry_of. induction rs as [|x rs IH] using rev_ind; [by intros ?%elem_of_nil|].
  rewrite elem_of_app, foldl_app. cbn [foldl]. intros [Hr| ->%list_elem_of_singleton] Hk.
  - destruct (IH Hr Hk) as (m & -> & Hm). destruct (bump_entry_max (r_kind x) (r_index x) m) as (m' & -> & ?).
    exists m'. split; [done|lia].
  - unfold bump_entry. rewrite Hk. cbn. eexists. split; [done|]. case_match; lia.
Qed.

Lemma kept_cons i c0 r0 closed closed' :
  (∀ m, max_entry_of r0 = Some m → m ≤ i) → kept i closed closed' → kept i ((c0, r0) :: closed) closed'.
Proof.
  intros Hm (gone & -> & Hg). exists ((c0, r0) :: gone). split; [done|].
  change (phys ((c0, r0) :: gone)) with (r0 ++ phys gone). intros r [Hr|Hr]%elem_of_app Hk; [|by apply Hg].
  destruct (max_entry_elem r0 r Hr Hk) as (m & Hm' & ?). specialize (Hm m Hm'). lia.
Qed.

Lemma drop_loop_inv closed : ∀ w fs H q rs i n r w' fs',
  live w fs H (length H) closed q rs [] (length rs) →
  (∃ p, purge_index (wal_log H) = Some p ∧ i ≤ p) →
  drop_loop (segments w) i n (w, fs) = (r, (w', fs')) →
  match r with
  | Ok _ => ∃ closed', live w' fs' H (length H) closed' q rs [] (length rs) ∧ kept i closed closed'
  | Err _ => crash_ok fs' H (length H)
  end.
Proof.
  induction closed as [|[c0 r0] closed IH]; intros w fs H q rs i n r w' fs' Hlv Hp;
    pose proof (ok_segments _ _ _ _ _ _ _ (lv_ok _ _ _ _ _ _ _ _ _ Hlv)) as Hseg;
    rewrite Hseg; cbn [fmap list_fmap app drop_loop].
  { intros [= <- <- <-]. exists []. split; [done|apply kept_refl]. }
  rewrite length_app. cbn [length]. replace (0 <? _ + 1)%nat with true by (symmetry; apply Nat.ltb_lt; lia).
  cbn [andb seg_of seg_max_entry fst snd].
  destruct (match max_entry_of r0 with Some m => m <=? i | None => true end) eqn:Hm;
    [|intros [= <- <- <-]; exists ((c0, r0) :: closed); split; [done|apply kept_refl]].
  assert (∀ m, max_entry_of r0 = Some m → m ≤ i) as Hmax by (intros m Hr; rewrite Hr in Hm; lia).
  set (w1 := set_segments ((seg_of <$> closed) ++ [seg_of (q, rs ++ [])]) w).
  rewrite (pbind_run _ _ _ () (w1, fs)) by done.
  assert (w1 = set_segments (tail (segments w)) w) as Hw1 by (by rewrite Hseg).
  unfold pbind at 1, on_fs, remove_file, pbind at 1. cbn [fst snd seg_seq].
  destruct (io_guard fs) as [[[]|e] fs1] eqn:Hg; apply io_guard_inv in Hg;
    [|intros [= <- <- <-]; by eapply live_crash_ok].
  destruct (dk_closed _ _ _ _ (ok_disk _ _ _ _ _ _ _ (lv_ok _ _ _ _ _ _ _ _ _ Hlv)) c0 r0) as (f & Hf & _);
    [by left|].
  unfold pbind at 1. rewrite (get_file_ok _ _ f) by by rewrite Hg. unfold pmodify. cbn [fst snd].
  set (fs2 := mkFs _ _). intros Hrest.
  assert (live w1 fs2 H (length H) closed q rs [] (length rs)) as Hlv1.
  { rewrite Hw1. eapply live_drop_one; [done|done|done|]. subst fs2. cbn. by rewrite Hg. }
  assert (segments w1 = (seg_of <$> closed) ++ [seg_of (q, rs ++ [])]) as Hs1 by done.
  rewrite <- Hs1 in Hrest. eapply IH in Hrest; [|done|done]. destruct r as [n'|e]; [|done].
  destruct Hrest as (closed' & Hlv' & Hkept). exists closed'. split; [done|by apply kept_cons].
Qed.

Lemma live_drop w fs H closed q rs i r w' fs' :
  live w fs H (length H) closed q rs [] (length rs) →
  (∃ p, purge_index (wal_log H) = Some p ∧ i ≤ p) →
  drop_segments_upto i (w, fs) = (r, (w', fs')) →
  match r with
  | Ok _ => ∃ closed', live w' fs' H (length H) closed' q rs [] (length rs) ∧ kept i closed closed'
  | Err _ => crash_ok fs' H (length H)
  end.
Proof.
  intros Hlv Hp. unfold drop_segments_upto. rewrite (pbind_run _ _ _ w (w, fs)) by done.
  unfold pbind at 1. destruct (drop_loop _ _ _ _) as [r1 [w1 fs1]] eqn:Hd.
  eapply drop_loop_inv in Hd; [|done|done]. destruct r1 as [n|e]; [|by intros [= <- <- <-]].
  destruct Hd as (closed' & Hlv' & Hkept). unfold pbind.
  destruct (0 <? n)%nat; [|intros [= <- <- <-]; by exists closed'].
  unfold on_fs, sync_dir. cbn [fst snd].
  destruct (io_guard fs1) as [[[]|e] fs2] eqn:Hg; apply io_guard_inv in Hg; intros [= <- <- <-].
  - exists closed'. split; [|done]. destruct Hlv' as [[H1 H2 H3 H4 H5 H6] ?????]. split; try done.
    split; try done. by rewrite Hg.
  - by eapply live_crash_ok.
Qed.
