(* ===== verification/WalCrash.v ===== *)
(** * Recovery of the WAL

    A crash keeps, of each file, what was synced and some prefix of what
    was written after.  Opening the directory then gives the records
    appended up to some point past the last sync, never less, never
    others, and each entry reads back. *)

From S2P Require Import Prelude Crc Wal WalCodec WalLog WalDisk WalOps WalRun.

(** ** Crashes *)

Definition crash_file (n : nat) (f : File) : File :=
  let d := take n (f_data f) ++ drop n (f_durable f) in mkFile d d.

(** [cut name] bytes of each file are as last written, the rest as last
    synced; after the restart no call fails. *)
Definition crash (cut : bytes → nat) (fs : Fs) : Fs :=
  mkFs (map_imap (λ name f, Some (crash_file (cut name) f)) (fs_files fs)) [].

Lemma lookup_crash cut fs name :
  fs_files (crash cut fs) !! name = crash_file (cut name) <$> fs_files fs !! name.
Proof. cbn. rewrite map_lookup_imap. by destruct (fs_files fs !! name). Qed.

Lemma crash_torn rs k n f :
  file_torn rs k f → (k ≤ length rs)%nat → torn_data rs k (f_data (crash_file n f)).
Proof.
  intros [(m & z & Hm & Hd) [z2 Hdur]] Hk. unfold crash_file. cbn [f_data]. rewrite Hd, Hdur.
  set (A := encode_all (take k rs)) in *.
  assert (∃ B, encode_all rs = A ++ B) as [B HB].
  { exists (encode_all (drop k rs)). unfold A. by rewrite <- encode_all_app, take_drop. }
  rewrite HB. destruct (decide (n ≤ length A)%nat) as [Hn|Hn].
  - exists (length A), z2. split; [done|].
    rewrite HB, take_app_length.
    assert (take n (take m (A ++ B) ++ zeros z) = take n A) as ->.
    { rewrite (take_app_le (take m (A ++ B))) by (rewrite length_take, length_app; lia).
      rewrite take_take, Nat.min_l by lia. by rewrite take_app_le. }
    rewrite drop_app_le by done. by rewrite app_assoc, take_drop.
  - rewrite drop_app_ge by lia. rewrite drop_zeros.
    destruct (decide (n ≤ length (take m (A ++ B)))%nat) as [Hs|Hs].
    + rewrite (take_app_le (take m (A ++ B))) by done. rewrite take_take, <- HB.
      exists (Nat.min n m), (z2 - (n - length A))%nat. fold A. split; [lia|done].
    + rewrite (take_app_ge (take m (A ++ B))) by lia. rewrite take_zeros, <- app_assoc, zeros_app, <- HB.
      eexists m, _. fold A. split; [lia|done].
Qed.

Lemma crash_closed rs n f : file_ok rs (length rs) f → file_ok rs (length rs) (crash_file n f).
Proof.
  intros Hf. pose proof Hf as [[a Ha] [b Hb]]. rewrite firstn_all in Hb.
  assert (∃ c, f_data (crash_file n f) = encode_all rs ++ zeros c) as [c Hc].
  { unfold crash_file. cbn. rewrite Ha, Hb. destruct (decide (n ≤ length (encode_all rs))%nat).
    - rewrite take_app_le, drop_app_le, app_assoc, take_drop by done. eauto.
    - rewrite take_app_ge, drop_app_ge, take_zeros, drop_zeros, <- app_assoc, zeros_app by lia. eauto. }
  split; [by exists c|]. rewrite firstn_all. exists c. by rewrite <- Hc.
Qed.

Lemma crash_names cut fs seqs : names_ok (fs_files fs) seqs → names_ok (fs_files (crash cut fs)) seqs.
Proof.
  intros [H1 H2 H3 H4]. split; [| |done|done].
  - intros q Hq. rewrite lookup_crash, fmap_is_Some. auto.
  - intros name s. rewrite lookup_crash, fmap_is_Some. auto.
Qed.

Lemma crash_disk cut fs closed q rs k :
  disk (fs_files fs) closed q (file_torn rs k) → (k ≤ length rs)%nat →
  disk (fs_files (crash cut fs)) closed q (λ f, torn_data rs k (f_data f) ∧ f_durable f = f_data f).
Proof.
  intros [Hn Hc (f & Hf & Ht)] Hk. split.
  - by apply crash_names.
  - intros c rs' Hin. destruct (Hc _ _ Hin) as (g & Hg & Hok). rewrite lookup_crash, Hg.
    eexists. split; [done|]. by apply crash_closed.
  - rewrite lookup_crash, Hf. eexists. split; [done|]. split; [by apply crash_torn|done].
Qed.

(** ** Opening *)

(** [r] is the log [l], and each entry reads back from [fs]. *)
Definition recovered (fs : Fs) (r : Replay) (l : Log) : Prop :=
  meta r = log_meta l ∧
  ∀ i, match entries r !! i with
       | Some loc => ∃ p, log_entries l !! i = Some p ∧ reader_read loc fs = (Ok p, fs)
       | None => log_entries l !! i = None
       end.

Lemma read_file_ok fs name f :
  fs_files fs !! name = Some f → fs_faults fs = [] → read_file name fs = (Ok (f_data f), fs).
Proof.
  intros Hf Hno. unfold read_file. rewrite (pbind_run _ _ _ _ _ (io_guard_ok _ Hno)).
  by rewrite (pbind_run _ _ _ _ _ (get_file_ok _ _ _ Hf)).
Qed.

(** Closed segments replay whole. *)
Lemma open_closed sb closed : ∀ q segs r fs,
  Forall rec_wf (phys closed) → fs_faults fs = [] →
  (∀ c rs, (c, rs) ∈ closed → ∃ f, fs_files fs !! segment_path c = Some f ∧ file_ok rs (length rs) f) →
  open_segments sb (closed.*1 ++ [q]) segs r fs
  = open_segments sb [q] (segs ++ (seg_of <$> closed)) (foldl replay_step r (placed closed)) fs.
Proof.
  induction closed as [|[c rs] closed IH]; intros q segs r fs Hw Hno Hc.
  { cbn [fmap list_fmap app]. by rewrite app_nil_r. }
  change (phys ((c, rs) :: closed)) with (rs ++ phys closed) in Hw. apply Forall_app in Hw as [Hrs Hw].
  destruct (Hc c rs) as (f & Hf & Hdat & _); [by left|].
  cbn [fmap list_fmap fst app open_segments].
  rewrite (pbind_run _ _ _ _ _ (read_file_ok _ _ _ Hf Hno)).
  rewrite (replay_segment_data _ _ _ _ Hrs Hdat).
  destruct (closed.*1 ++ [q]) as [|q0 rest] eqn:Hrest; [by destruct (closed.*1)|].
  rewrite <- Hrest, IH by (done || set_solver). rewrite <- app_assoc.
  change (placed ((c, rs) :: closed)) with (located c 0 rs ++ placed closed). by rewrite foldl_app.
Qed.

Lemma sync_file_ok fs name f :
  fs_files fs !! name = Some f → fs_faults fs = [] →
  sync_file name fs = (Ok (), mkFs (<[name := mkFile (f_data f) (f_data f)]> (fs_files fs)) []).
Proof.
  intros Hf Hno. unfold sync_file. rewrite (pbind_run _ _ _ _ _ (io_guard_ok _ Hno)).
  rewrite (pbind_run _ _ _ _ _ (get_file_ok _ _ _ Hf)). unfold set_file, pmodify. by rewrite Hno.
Qed.

Lemma cut_tail_ok fs sb q rs tail f :
  fs_files fs !! segment_path q = Some f → fs_faults fs = [] →
  f_data f = encode_all rs ++ tail →
  ∃ n, cut_tail sb q (length (encode_all rs)) fs
  = (Ok (), let d := encode_all rs ++ zeros n in
            mkFs (<[segment_path q := mkFile d d]> (fs_files fs)) []).
Proof.
  intros Hf Hno Hd. unfold cut_tail. set (path := segment_path q) in *.
  set (f1 := mkFile (encode_all rs) (f_durable f)).
  assert (set_len path (length (encode_all rs)) fs
    = (Ok (), mkFs (<[path := f1]> (fs_files fs)) [])) as Hset.
  { unfold set_len. rewrite (pbind_run _ _ _ _ _ (io_guard_ok _ Hno)).
    rewrite (pbind_run _ _ _ _ _ (get_file_ok _ _ _ Hf)), (pbind_run _ _ _ _ _ (io_guard_ok _ Hno)).
    unfold set_file, pmodify. rewrite Hno, Hd, take_app_length, length_app.
    replace (length (encode_all rs) - (length (encode_all rs) + length tail))%nat with 0%nat by lia.
    unfold zeros. cbn [replicate]. by rewrite app_nil_r. }
  rewrite (pbind_run _ _ _ _ _ Hset). set (len := Z.max sb _).
  exists (Z.to_nat len - length (encode_all rs))%nat.
  set (f2 := mkFile (encode_all rs ++ zeros (Z.to_nat len - length (encode_all rs))) (f_durable f)).
  assert (preallocate path len (mkFs (<[path := f1]> (fs_files fs)) [])
    = (Ok (), mkFs (<[path := f2]> (fs_files fs)) [])) as Hpre.
  { unfold preallocate, ignore. rewrite (pbind_run _ _ _ _ _ (io_guard_ok (mkFs _ []) eq_refl)).
    rewrite (pbind_run _ _ _ _ _ (get_file_ok (mkFs _ []) _ f1 (lookup_insert_eq _ _ _))).
    unfold set_file, pmodify. cbn [snd fs_files fs_faults f_data f_durable f1]. by rewrite insert_insert_eq. }
  rewrite (pbind_run _ _ _ _ _ Hpre).
  rewrite (sync_file_ok (mkFs _ []) path f2 (lookup_insert_eq _ _ _) eq_refl).
  cbn [fs_files f_data f2]. by rewrite insert_insert_eq.
Qed.

(** The last segment, torn or not. *)
Lemma open_last sb q rs k f segs r fs :
  Forall rec_wf rs → Forall (λ r, tear_detected r = true) (drop k rs) → (k ≤ length rs)%nat →
  fs_files fs !! segment_path q = Some f → fs_faults fs = [] →
  torn_data rs k (f_data f) → f_durable f = f_data f →
  ∃ j f' tt, (k ≤ j ≤ length rs)%nat ∧ file_ok (take j rs) (length (take j rs)) f' ∧
    let r' := foldl replay_step r (located q 0 (take j rs)) in
    open_segments sb [q] segs r fs
    = (Ok (segs ++ [seg_of (q, take j rs)], mkReplay (entries r') (meta r') tt,
           length (encode_all (take j rs))),
       mkFs (<[segment_path q := f']> (fs_files fs)) []).
Proof.
  intros Hw Ht Hk Hf Hno Htorn Hdur.
  destruct (torn_prefix rs k (f_data f) Hw Ht Hk Htorn) as (j & Hj & Hcase).
  assert (Forall rec_wf (take j rs)) as Hwj by by apply Forall_take.
  cbn [open_segments]. rewrite (pbind_run _ _ _ _ _ (read_file_ok _ _ _ Hf Hno)).
  destruct Hcase as [Hdat|(tail & why & Hdat & Hbad)].
  - exists j, f. rewrite (replay_segment_data _ _ _ _ Hwj Hdat).
    set (r' := foldl replay_step r (located q 0 (take j rs))). exists (torn_tail r').
    split_and!; [lia|lia| |].
    + split; [done|]. rewrite firstn_all, Hdur. done.
    + cbv zeta. unfold pret. destruct fs as [files faults]. cbn in *. subst faults.
      rewrite insert_id by done. by destruct r'.
  - destruct (cut_tail_ok fs sb q (take j rs) tail f Hf Hno Hdat) as [n Hcut].
    eexists j, _, true. rewrite Hdat, (replay_segment_bad _ _ _ _ _ Hwj Hbad).
    split_and!; [lia|lia| |].
    2:{ cbv zeta. by rewrite (pbind_run _ _ _ _ _ Hcut). }
    split; [by exists n|]. rewrite firstn_all. by exists n.
Qed.

Lemma ignore_remove_faults fs :
  fs_faults fs = [] →
  ∃ fs', ignore (remove_file SPARE) fs = (Ok (), fs') ∧ fs_faults fs' = [] ∧
    off_spare (fs_files fs') = off_spare (fs_files fs).
Proof.
  intros Hno. pose proof (ignore_remove_spare fs) as Ho.
  destruct (ignore (remove_file SPARE) fs) as [r fs'] eqn:Hi. cbn [snd] in Ho.
  exists fs'. unfold ignore in Hi. injection Hi as <- Hfs. split_and!; [done| |done].
  subst fs'. unfold remove_file. rewrite (pbind_run _ _ _ _ _ (io_guard_ok _ Hno)).
  unfold pbind, get_file. by destruct (fs_files fs !! SPARE).
Qed.

Lemma elem_of_concat_in {A} (x : A) ls : x ∈ concat ls ↔ ∃ l, x ∈ l ∧ l ∈ ls.
Proof.
  induction ls as [|l ls IH]; cbn [concat]; [set_solver|].
  rewrite elem_of_app, IH. setoid_rewrite elem_of_cons. naive_solver.
Qed.

Lemma placed_reads fs closed q rs k x :
  disk (fs_files fs) closed q (file_ok rs k) → fs_faults fs = [] →
  Forall rec_wf (phys closed ++ rs) → x ∈ placed (closed ++ [(q, rs)]) →
  rec_wf x.1 ∧ reader_read x.2 fs = (Ok (r_payload x.1), fs).
Proof.
  intros [_ Hc (f & Hf & [n Hdat] & _)] Hno Hw Hx. rewrite Forall_forall in Hw.
  rewrite placed_app, placed_last, elem_of_app in Hx. destruct Hx as [Hx|Hx].
  - unfold placed in Hx. apply elem_of_concat_in in Hx as (l & Hx & Hl).
    apply list_elem_of_fmap in Hl as ([c rs'] & -> & Hin). cbn [fst snd] in Hx.
    apply located_split in Hx as (l1 & l2 & -> & Hloc).
    destruct (Hc _ _ Hin) as (g & Hg & [m Hdg] & _).
    assert (rec_wf x.1) as Hwf.
    { apply Hw. unfold phys. apply elem_of_app. left. apply elem_of_concat_in.
      exists (l1 ++ x.1 :: l2). split; [set_solver|]. by apply (list_elem_of_fmap_2 snd) in Hin. }
    split; [done|]. rewrite Hloc. by eapply read_in_segment.
  - apply located_split in Hx as (l1 & l2 & -> & Hloc).
    assert (rec_wf x.1) as Hwf by (apply Hw; set_solver).
    split; [done|]. rewrite Hloc. by eapply read_in_segment.
Qed.

Lemma placed_fst segs : (placed segs).*1 = concat segs.*2.
Proof.
  induction segs as [|[c rs] segs IH]; [done|].
  change (placed ((c, rs) :: segs)) with (located c 0 rs ++ placed segs).
  rewrite fmap_app, located_fst, IH. done.
Qed.

(** What is replayed is the log, and reads back. *)
Lemma replay_recovered fs closed q rs tt :
  disk (fs_files fs) closed q (file_ok rs (length rs)) → fs_faults fs = [] →
  Forall rec_wf (phys closed ++ rs) →
  let r := foldl replay_step Replay_default (placed (closed ++ [(q, rs)])) in
  recovered fs (mkReplay (entries r) (meta r) tt) (wal_log (phys closed ++ rs)).
Proof.
  intros Hd Hno Hw r.
  set (rd := λ loc, match reader_read loc fs with (Ok p, _) => Some p | _ => None end).
  assert (replays rd r (wal_log (phys closed ++ rs))) as [He Hm].
  { pose proof (replay_steps_log rd (placed (closed ++ [(q, rs)])) Replay_default Log_empty) as Hr.
    rewrite placed_fst, fmap_app, concat_app in Hr. cbn in Hr. rewrite app_nil_r in Hr.
    apply Hr; [|apply log_inv_empty|apply replays_default].
    apply Forall_forall. intros x Hx. destruct (placed_reads _ _ _ _ _ _ Hd Hno Hw Hx) as [? Hread].
    split; [done|]. unfold rd. by rewrite Hread. }
  split; [done|]. cbn [entries]. intros i. specialize (He i).
  destruct (entries r !! i) as [loc|] eqn:Hi; cbn in He.
  - destruct (log_entries _ !! i) as [p|] eqn:Hp; [|done]. cbn in He. injection He as He.
    exists p. split; [done|]. unfold rd in He.
    destruct (reader_read loc fs) as [[p'|e] fs'] eqn:Hread; [|done]. injection He as ->.
    revert Hread. unfold reader_read, pbind, get_file. rewrite (io_guard_ok _ Hno).
    destruct (fs_files fs !! _); [|done]. rewrite (io_guard_ok _ Hno).
    destruct (decide _); [done|]. destruct (parse _ _); [|done..]. by destruct (decide _); intros [= <- <-].
  - destruct (log_entries _ !! i); [done|done].
Qed.

(** Opening what a crash left: what was durable, and the records after it
    up to the first that is torn. *)
Lemma open_disk sb cut fs closed q rs k :
  disk (fs_files fs) closed q (file_torn rs k) → (k ≤ length rs)%nat → Forall rec_wf (phys closed ++ rs) →
  Forall (λ r, tear_detected r = true) (drop k rs) →
  ∃ w r fs' j, open sb (crash cut fs) = (Ok (w, r), fs') ∧ (k ≤ j ≤ length rs)%nat ∧
    wal_ok w fs' closed q (take j rs) [] (length (take j rs)) ∧
    recovered fs' r (wal_log (phys closed ++ take j rs)).
Proof.
  intros Hd Hk Hw Htear.
  apply (crash_disk cut) in Hd; [|done]. set (fs0 := crash cut fs) in *.
  assert (fs_faults fs0 = []) as Hno by done.
  unfold open, create_dir_all. rewrite (pbind_run _ _ _ _ _ (io_guard_ok _ Hno)).
  rewrite (pbind_run _ _ _ _ _ (list_segments_ok _ _ (dk_names _ _ _ _ Hd) Hno)).
  destruct (ignore_remove_faults fs0 Hno) as (fs1 & Hrm & Hno1 & Ho). rewrite (pbind_run _ _ _ _ _ Hrm).
  eapply disk_ext in Hd; [|exact Ho].
  pose proof Hd as [_ Hc (f & Hf & Htorn & Hdur)].
  pose proof Hw as [Hwc Hwr]%Forall_app.
  destruct (open_last (Z.max sb 4096) q rs k f (seg_of <$> closed)
    (foldl replay_step Replay_default (placed closed)) fs1) as (j & f' & tt & Hj & Hf' & Hopen); try done.
  cbv zeta in Hopen. set (fs2 := mkFs _ _) in Hopen.
  assert (disk (fs_files fs2) closed q (file_ok (take j rs) (length (take j rs)))) as Hd2
    by (by apply (disk_set_last _ _ _ _ _ _ Hd)).
  assert (Forall rec_wf (phys closed ++ take j rs)) as Hw2
    by (apply Forall_app; split; [done|by apply Forall_take]).
  pose proof (replay_recovered fs2 closed q (take j rs) tt Hd2 eq_refl Hw2) as Hrec. cbv zeta in Hrec.
  rewrite placed_app, placed_last, foldl_app in Hrec.
  set (r := mkReplay _ _ tt) in *.
  exists (mkWal (Z.max sb 4096) ((seg_of <$> closed) ++ [seg_of (q, take j rs)])
    (length (encode_all (take j rs))) (meta r) true false), r, fs2, j.
  split_and!; [|lia|lia| |done].
  - destruct (closed.*1 ++ [q]) as [|q0 rest] eqn:Hrest; [by destruct (closed.*1)|].
    rewrite <- Hrest, (pbind_run _ _ _ _ _ (eq_trans (open_closed _ _ _ [] _ _ Hwc Hno1 Hc) Hopen)).
    rewrite (pbind_run _ _ _ _ _ (io_guard_ok fs2 eq_refl)). done.
  - split; rewrite ?app_nil_r; try done. cbn [sticky]. by apply Hrec.
Qed.

Lemma open_recovers sb cut fs H M :
  crash_ok fs H M → Forall (λ r, tear_detected r = true) H →
  ∃ w r fs' m closed q rs, open sb (crash cut fs) = (Ok (w, r), fs') ∧
    (M ≤ m ≤ length H)%nat ∧ wal_ok w fs' closed q rs [] (length rs) ∧
    wal_log (phys closed ++ rs) = wal_log (take m H) ∧
    recovered fs' r (wal_log (take m H)).
Proof.
  intros (closed & q & rs & k & Hd & Hk & Hw & Hfrom & Hag) Htear.
  destruct (open_disk sb cut fs closed q rs k Hd Hk Hw) as (w & r & fs' & j & Ho & Hj & Hok & Hrec).
  { rewrite Forall_forall in *. intros x Hx. apply Htear, Hfrom, elem_of_app. right.
    rewrite <- (take_drop k rs). set_solver. }
  destruct (Hag (length (phys closed) + j)%nat) as (m & Hm & Hlog); [rewrite length_app; lia|].
  rewrite take_app_add' in Hlog by done. rewrite Hlog in Hrec.
  by exists w, r, fs', m, closed, q, (take j rs).
Qed.

(** ** Runs *)

Inductive WalCall := WAppend (records : list Rec) | WSync | WDrop (index : Z).

Definition wal_call (c : WalCall) : wio () :=
  match c with
  | WAppend records => let* _ := append records in pret ()
  | WSync => wal_sync
  | WDrop index => let* _ := drop_segments_upto index in pret ()
  end.

Fixpoint wal_calls (cs : list WalCall) : wio () :=
  match cs with
  | [] => pret ()
  | c :: cs' => let* _ := wal_call c in wal_calls cs'
  end.

(** The records a call appends. *)
Definition call_records (c : WalCall) : list Rec :=
  match c with WAppend records => records | _ => [] end.

Definition history (cs : list WalCall) : list Rec := concat (call_records <$> cs).

(** The records appended and how many of them are synced. *)
Definition sync_step (s : nat * nat) (c : WalCall) : nat * nat :=
  match c with
  | WAppend records => (s.1 + length records, s.2)%nat
  | WSync => (s.1, s.1)
  | WDrop _ => s
  end.

Definition synced (cs : list WalCall) : nat := (foldl sync_step (0, 0)%nat cs).2.

(** Segments are dropped only up to a purge that is in the log, and only
    right after a sync, as the writer thread does. *)
Definition drop_allowed (H : list Rec) (after_sync : bool) (c : WalCall) : bool :=
  match c with
  | WDrop index =>
      after_sync && match purge_index (wal_log H) with Some p => index <=? p | None => false end
  | _ => true
  end.

Definition syncs (after_sync : bool) (c : WalCall) : bool :=
  match c with WAppend _ => false | WSync => true | WDrop _ => after_sync end.

Fixpoint drops_allowed (H : list Rec) (after_sync : bool) (cs : list WalCall) : bool :=
  match cs with
  | [] => true
  | c :: cs' => drop_allowed H after_sync c && drops_allowed (H ++ call_records c) (syncs after_sync c) cs'
  end.

(** Segments a run can start at most. *)
Definition call_cost (c : WalCall) : Z := 1 + Z.of_nat (length (call_records c)).
Definition run_cost (cs : list WalCall) : Z := foldr (λ c n, call_cost c + n) 0 cs.

Lemma run_cost_nonneg cs : 0 ≤ run_cost cs.
Proof.
  induction cs as [|c cs IH]; [done|]. change (run_cost (c :: cs)) with (call_cost c + run_cost cs).
  assert (0 ≤ call_cost c) by (unfold call_cost; lia). lia.
Qed.

Lemma run_cost_snoc cs c : run_cost (cs ++ [c]) = run_cost cs + call_cost c.
Proof. unfold run_cost. induction cs as [|c' cs IH]; cbn; [lia|]. rewrite IH. lia. Qed.

Lemma wal_history_snoc cs c : history (cs ++ [c]) = history cs ++ call_records c.
Proof. unfold history. rewrite fmap_app, concat_app. cbn. by rewrite app_nil_r. Qed.

Lemma drops_allowed_snoc c cs : ∀ H b,
  drops_allowed H b (cs ++ [c])
  = drops_allowed H b cs && drop_allowed (H ++ history cs) (foldl syncs b cs) c.
Proof.
  induction cs as [|c' cs IH]; intros H b; cbn [app drops_allowed foldl].
  - cbn. by rewrite app_nil_r, andb_true_r.
  - rewrite IH, andb_assoc, <- app_assoc. done.
Qed.

Lemma synced_snoc cs c : synced (cs ++ [c]) = (sync_step (length (history cs), synced cs) c).2.
Proof.
  assert ((foldl sync_step (0%nat, 0%nat) cs).1 = length (history cs)) as Hlen.
  { induction cs as [|c' cs IH] using rev_ind; [done|].
    rewrite foldl_app, wal_history_snoc, length_app. cbn. rewrite <- IH. destruct c'; cbn; lia. }
  unfold synced. rewrite foldl_app. cbn [foldl].
  destruct (foldl sync_step _ cs) as [a b]. cbn in Hlen. by subst a.
Qed.

Definition running (w : Wal) (fs : Fs) (H : list Rec) (M : nat) (after_sync : bool) (n : Z) : Prop :=
  ∃ closed q rs k, live w fs H M closed q rs [] k ∧ q ≤ n ∧
    (after_sync = true → M = length H ∧ k = length rs).

Lemma call_running w fs H M b n c x w' fs' :
  running w fs H M b n → drop_allowed H b c = true →
  Forall (λ r, is_u64 (r_index r)) (call_records c) → n + call_cost c ≤ u64_max →
  wal_call c (w, fs) = (x, (w', fs')) →
  match x with
  | Ok _ => running w' fs' (H ++ call_records c) (sync_step (length H, M) c).2 (syncs b c) (n + call_cost c)
  | Err _ => crash_ok fs' (H ++ call_records c) M
  end.
Proof.
  intros (closed & q & rs & k & Hlv & Hq & Hb) Hdrop Hu Hn.
  destruct c as [records| |i]; cbn [wal_call call_records sync_step snd fst syncs] in *;
    unfold call_cost in *; cbn [call_records length] in *; rewrite ?app_nil_r.
  - unfold pbind. destruct (append records (w, fs)) as [r [w1 fs1]] eqn:Ha.
    eapply live_append in Ha; [|done|done|lia]. destruct r as [locs|e]; intros [= <- <- <-]; [|done].
    destruct Ha as (c' & q' & rs' & k' & Hlv' & Hq' & _). exists c', q', rs', k'. split_and!; [done|lia|done].
  - intros Hs. eapply live_sync in Hs; [|done]. destruct x as [[]|e]; [|done].
    exists closed, q, rs, (length rs). split_and!; [done|lia|done].
  - apply andb_true_iff in Hdrop as [-> Hp]. destruct (Hb eq_refl) as [-> ->].
    unfold pbind. destruct (drop_segments_upto i (w, fs)) as [r [w1 fs1]] eqn:Hd.
    eapply live_drop in Hd; [|done|].
    2:{ destruct (purge_index (wal_log H)) as [p|]; [|done]. exists p. split; [done|lia]. }
    destruct r as [d|e]; intros [= <- <- <-]; [|done]. destruct Hd as (c' & Hlv' & _).
    exists c', q, rs, (length rs). split_and!; [done|lia|done].
Qed.

Lemma calls_running cs : ∀ w fs H M b n w' fs',
  running w fs H M b n → drops_allowed H b cs = true →
  Forall (λ r, is_u64 (r_index r)) (history cs) → n + run_cost cs ≤ u64_max →
  wal_calls cs (w, fs) = (Ok (), (w', fs')) →
  running w' fs' (H ++ history cs) (foldl sync_step (length H, M) cs).2 (foldl syncs b cs) (n + run_cost cs).
Proof.
  induction cs as [|c cs IH]; intros w fs H M b n w' fs' Hr Hd Hu Hn; cbn [wal_calls run_cost foldr history fmap list_fmap concat foldl].
  { intros [= <- <-]. rewrite app_nil_r, Z.add_0_r. done. }
  cbn [drops_allowed] in Hd. apply andb_true_iff in Hd as [Hd1 Hd2].
  unfold history in Hu. cbn [fmap list_fmap concat] in Hu. apply Forall_app in Hu as [Hu1 Hu2].
  cbn [run_cost foldr] in Hn. change (foldr (λ c n, call_cost c + n) 0 cs) with (run_cost cs) in *.
  change (concat (list_fmap WalCall (list Rec) call_records cs)) with (history cs) in *.
  pose proof (run_cost_nonneg cs) as Hpos.
  unfold pbind. destruct (wal_call c (w, fs)) as [[[]|e] [w1 fs1]] eqn:Hc; [|done].
  eapply call_running in Hc; [|done|done|done|lia].
  intros Hrest. eapply IH in Hrest; [|done|done|done|lia].
  rewrite <- app_assoc, length_app, <- Z.add_assoc in Hrest.
  replace (sync_step (length H, M) c) with ((length H + length (call_records c))%nat, (sync_step (length H, M) c).2);
    [done|]. destruct c; cbn; by rewrite ?Nat.add_0_r.
Qed.

(** No file of the directory is a segment. *)
Definition no_segments (fs : Fs) : Prop :=
  ∀ name, is_Some (fs_files fs !! name) → segment_seq name = None.

Lemma list_segments_none fs r fs' :
  no_segments fs → list_segments fs = (r, fs') →
  fs_files fs' = fs_files fs ∧ (r = Ok [] ∨ is_ok r = false).
Proof.
  intros Hn. unfold list_segments, pbind. destruct (io_guard fs) as [[[]|e] fs1] eqn:Hg; apply io_guard_inv in Hg.
  - unfold pget, pret. intros [= <- <-]. split; [done|]. left. f_equal. rewrite Hg.
    destruct (omap _ _) as [|q l] eqn:Ho; [done|]. exfalso.
    assert (q ∈ omap (λ e : bytes * File, segment_seq e.1) (map_to_list (fs_files fs))) as Hq
      by (rewrite Ho; by left).
    apply list_elem_of_omap in Hq as ([name f] & Hin%elem_of_map_to_list & Hq). cbn in Hq.
    rewrite Hn in Hq; [done|by eexists].
  - intros [= <- <-]. eauto.
Qed.

Lemma open_fresh sb fs w r fs' :
  no_segments fs → open sb fs = (Ok (w, r), fs') → running w fs' [] 0 false 0 ∧ r = Replay_default.
Proof.
  intros Hn. unfold open, create_dir_all. unfold pbind at 1.
  destruct (io_guard fs) as [[[]|e] fs1] eqn:Hg; [|done]. apply io_guard_inv in Hg.
  assert (no_segments fs1) as Hn1 by (unfold no_segments in *; by rewrite Hg).
  unfold pbind at 1. destruct (list_segments fs1) as [[seqs|e] fs2] eqn:Hl; [|done].
  apply list_segments_none in Hl as [Hf2 [[= ->]|?]]; [|done|done].
  unfold pbind at 1. pose proof (ignore_remove_spare fs2) as Ho.
  destruct (ignore (remove_file SPARE) fs2) as [[[]|e] fs3]; [|done]. cbn [snd] in Ho.
  unfold pbind at 1. destruct (create_segment 0 _ fs3) as [[[]|e] fs4] eqn:Hc; [|done].
  apply create_segment_inv in Hc as (f & [[a Ha] [b Hb]] & Hf4).
  unfold pbind. destruct (spawn_spare fs4) as [r5 fs5] eqn:Hs. apply spawn_spare_inv in Hs as (sp & -> & Hf5).
  intros [= <- <- <-]. split; [|done]. exists [], 0, [], 0%nat. split_and!; [|done|done].
  assert (∀ name, name ≠ SPARE → fs_files fs3 !! name = fs_files fs !! name) as Hsame.
  { intros name Hne. pose proof (f_equal (lookup name) Ho) as Hx. unfold off_spare in Hx.
    rewrite !lookup_delete_ne in Hx by done. by rewrite Hx, Hf2, Hg. }
  assert (disk (fs_files fs5) [] 0 (file_ok [] 0)) as Hd.
  { rewrite Hf5, Hf4. split; [split|..]; cbn [fmap list_fmap app].
    - intros q ->%list_elem_of_singleton. rewrite lookup_insert_eq. eauto.
    - intros name s Hname Hseq. rewrite lookup_insert_is_Some in Hname. destruct Hname as [<-|[_ Hname]].
      + rewrite segment_seq_path in Hseq by done. simplify_eq. split; [done|by left].
      + exfalso. assert (name ≠ SPARE) by (intros ->; by rewrite spare_not_segment in Hseq).
        rewrite Hsame in Hname by done. by rewrite Hn in Hseq.
    - repeat constructor.
    - by repeat constructor.
    - by intros c rs ?%elem_of_nil.
    - exists f. rewrite lookup_insert_eq. split; [done|]. split; [by exists a|by exists b]. }
  split; cbn; [split; try done|done| |done|by intros ? ?%elem_of_nil|done].
  intros j Hj. exists 0%nat. cbn in Hj. split; [lia|]. by rewrite take_nil.
Qed.


(** ** Two runs the recovery does not cover *)

Definition opened (x : result IoError (Wal * Replay)) : Wal * Replay :=
  match x with Ok p => p | Err _ => (mkWal 0 [] 0 ∅ false false, Replay_default) end.

(** Nothing is cut. *)
Definition keep_all (name : bytes) : nat := 4999.

(**  A vote that was synced can be lost.  A crash in the middle of
    [roll], after the new segment is in place and before the sticky values
    are written to it, leaves a last segment without them; [open] finds
    the vote in the segment before and writes it nowhere, so the next drop
    of that segment deletes the only copy.  The module comment says each
    new segment starts with the sticky values, so that a prefix of segments
    can be deleted without losing them. *)
Theorem interrupted_roll_loses_vote :
  let vote := mkRec KIND_VOTE 0 (str "voted") in
  let entry := mkRec KIND_ENTRY 1 (str "e") in
  let purge := mkRec KIND_PURGE 1 (str "p") in
  let cs := [WAppend [entry]; WAppend [purge]; WSync; WDrop 1] in
  let o0 := open 4096 (mkFs ∅ (replicate 18 None ++ [Some 0%nat])) in
  let s1 := wal_calls [WAppend [vote]; WSync; WAppend [entry]] ((opened o0.1).1, o0.2) in
  let o1 := open 4096 (crash keep_all s1.2.2) in
  let s2 := wal_calls cs ((opened o1.1).1, o1.2) in
  let o3 := open 4096 (crash keep_all s2.2.2) in
  (is_ok o0.1, is_ok s1.1, is_ok o1.1, is_ok s2.1, is_ok o3.1) = (true, false, true, true, true) ∧
  meta (opened o1.1).2 !! KIND_VOTE = Some (0, str "voted") ∧
  drops_allowed [vote] true cs = true ∧
  meta (opened o3.1).2 !! KIND_VOTE = None.
Proof. split_and!; vm_compute; reflexivity. Qed.

(** [d] may be on the disk after a crash that keeps, of each byte not
    synced, the old or the new one. *)
Fixpoint survives (live durable d : bytes) : bool :=
  match live, durable, d with
  | [], [], [] => true
  | a :: live', b :: durable', c :: d' =>
      (bool_decide (c = a) || bool_decide (c = b)) && survives live' durable' d'
  | _, _, _ => false
  end.

(**  A record that was never acknowledged can come back after a record
    appended later.  If a crash keeps the second record of a write and not
    the first, [open] takes the zeros of the first for the end of the log
    and cuts nothing; appending a record of the first one's length then
    joins the old second record to the log.  The module comment says that
    a later write can never be followed by a stale record. *)
Theorem stale_record_follows_later_write :
  let e1 := mkRec KIND_ENTRY 1 (str "old-1") in
  let e2 := mkRec KIND_ENTRY 2 (str "old-2") in
  let e1' := mkRec KIND_ENTRY 1 (str "new-1") in
  let o0 := open 4096 (mkFs ∅ []) in
  let s1 := wal_calls [WAppend [e1; e2]] ((opened o0.1).1, o0.2) in
  let f := default (mkFile [] []) (fs_files s1.2.2 !! segment_path 0) in
  let d := zeros (length (encode e1)) ++ encode e2 ++ zeros (4096 - 2 * length (encode e1)) in
  let o1 := open 4096 (mkFs {[ segment_path 0 := mkFile d d ]} []) in
  let s2 := wal_calls [WAppend [e1']; WSync] ((opened o1.1).1, o1.2) in
  let o3 := open 4096 (crash keep_all s2.2.2) in
  let loc := entries (opened o3.1).2 !! 2 in
  (is_ok o0.1, is_ok s1.1, is_ok o1.1, is_ok s2.1, is_ok o3.1) = (true, true, true, true, true) ∧
  survives (f_data f) (f_durable f) d = true ∧
  (entries (opened o1.1).2 !! 2, torn_tail (opened o1.1).2) = (None, false) ∧
  (λ l, (reader_read l o3.2).1) <$> loc = Some (Ok (str "old-2")).
Proof. split_and!; vm_compute; reflexivity. Qed.

(** ** A witness *)

Module Demo.
Definition vote : Rec := mkRec KIND_VOTE 0 (str "vote").
Definition entry1 : Rec := mkRec KIND_ENTRY 1 (str "one").
Definition entry2 : Rec := mkRec KIND_ENTRY 2 (str "two").
Definition calls : list WalCall := [WAppend [vote; entry1]; WSync].
Definition last_call : WalCall := WAppend [entry2].
(** The last write fails after 9 bytes. *)
Definition fs0 : Fs := mkFs ∅ (replicate 18 None ++ [None; Some 9%nat]).
Definition opened : Wal * Fs :=
  match open 4096 fs0 with
  | (Ok (w, _), fs) => (w, fs)
  | (Err _, fs) => (mkWal 0 [] 0 ∅ false false, fs)
  end.
Definition ran : Wal * Fs := (wal_calls calls opened).2.
Definition ended : Wal * Fs := (wal_call last_call ran).2.
Definition cut (name : bytes) : nat := 70.
End Demo.

