(* ===== verification/WalStore.v ===== *)
(** * The raft log in the WAL ([raft/wal_log_store.rs])

    [WalLogStore] keeps the log in memory ([State]: a slot per entry, with
    its bytes while they are cached and its place in the WAL once it is
    written) and sends what has to be written to a thread that owns the
    [Wal].  The thread takes commands in groups, appends and syncs each group
    once, and only then answers.  A method that waits for its answer is two
    programs here, what it does up to the wait and what it does after; in
    between the thread and the other callers run.  Counters for [/metrics]
    are not modelled. *)

From S2P Require Import Prelude Revision Record KvStore Lease Cache Auth Store.
From S2P Require Import SnapshotPolicy StateMachine LogStore Wal.

(** ** The log in memory *)

(** An [Arc<Vec<u8>>]: clones share [arc_id]. *)
Record Arc := mkArc { arc_id : nat; arc_data : bytes }.

Record Slot := mkSlot { slot_bytes : option Arc; slot_loc : option Loc }.

(** [State]. *)
Record LogMem := mkLogMem {
  ws_entries : gmap Z Slot;
  ws_cached : Z;
  ws_limit : Z;
  ws_cursor : Z;
  ws_vote : option Vote;
  ws_committed : option LogId;
  ws_purged : option LogId;
  ws_pending : option LogId
}.

Definition set_ws_log (es : gmap Z Slot) (cached cursor : Z) (m : LogMem) : LogMem :=
  mkLogMem es cached (ws_limit m) cursor (ws_vote m) (ws_committed m) (ws_purged m) (ws_pending m).
Definition set_ws_vote (v : option Vote) (m : LogMem) : LogMem :=
  mkLogMem (ws_entries m) (ws_cached m) (ws_limit m) (ws_cursor m) v (ws_committed m) (ws_purged m)
    (ws_pending m).
Definition set_ws_committed (c : option LogId) (m : LogMem) : LogMem :=
  mkLogMem (ws_entries m) (ws_cached m) (ws_limit m) (ws_cursor m) (ws_vote m) c (ws_purged m)
    (ws_pending m).
Definition set_ws_purges (purged pending : option LogId) (m : LogMem) : LogMem :=
  mkLogMem (ws_entries m) (ws_cached m) (ws_limit m) (ws_cursor m) (ws_vote m) (ws_committed m)
    purged pending.

Definition slot_size (s : Slot) : Z :=
  match slot_bytes s with Some b => Z.of_nat (length (arc_data b)) | None => 0 end.

(** What [forget] takes off [cached_bytes]. *)
Definition slots_size (es : gmap Z Slot) : Z := map_fold (λ _ s n, slot_size s + n) 0 es.

Definition remove_from (index : Z) (m : LogMem) : LogMem :=
  let gone := split_off index (ws_entries m) in
  set_ws_log (keep_below index (ws_entries m)) (ws_cached m - slots_size gone)
    (Z.min (ws_cursor m) index) m.

Definition remove_upto (index : Z) (m : LogMem) : LogMem :=
  let from := Z.min (index + 1) u64_max in
  let gone := keep_below from (ws_entries m) in
  set_ws_log (split_off from (ws_entries m)) (ws_cached m - slots_size gone) (ws_cursor m) m.

(** A written entry still in its slot gets its place. *)
Definition place_one (x : Z * Arc * Loc) (es : gmap Z Slot) : gmap Z Slot :=
  let '(index, bytes, loc) := x in
  match es !! index with
  | Some (mkSlot (Some b) l) =>
      if (arc_id b =? arc_id bytes)%nat then <[index := mkSlot (Some b) (Some loc)]> es else es
  | _ => es
  end.

Fixpoint evict_slots (limit : Z) (l : list (Z * Slot)) (es : gmap Z Slot) (cached cursor : Z)
    : gmap Z Slot * Z * Z :=
  match l with
  | [] => (es, cached, cursor)
  | (index, slot) :: l' =>
      if (cached <=? limit) || bool_decide (slot_loc slot = None) then (es, cached, cursor)
      else evict_slots limit l' (<[index := mkSlot None (slot_loc slot)]> es)
             (cached - slot_size slot) (index + 1)
  end.

Definition place (placed : list (Z * Arc * Loc)) (m : LogMem) : LogMem :=
  let es := foldl (λ es x, place_one x es) (ws_entries m) placed in
  if ws_cached m <=? ws_limit m then set_ws_log es (ws_cached m) (ws_cursor m) m
  else
    let '(es', cached, cursor) :=
      evict_slots (ws_limit m) (log_range (IIncluded (ws_cursor m)) IUnbounded es) es (ws_cached m)
        (ws_cursor m) in
    set_ws_log es' cached cursor m.

(** ** Commands *)

(** What [done] does: [append]'s [LogFlushed] callback, or the sender's
    oneshot; the ticket says whose. *)
Inductive Done := DoneAppend (last : option Z) (ticket : nat) | DoneReply (ticket : nat).

Record Cmd := mkCmd {
  cmd_records : list (Z * Z * Arc);
  cmd_sync : bool;
  cmd_drop_upto : option Z;
  cmd_done : option Done
}.

Definition cmd_recs (c : Cmd) : list Rec := (λ '(k, i, a), mkRec k i (arc_data a)) <$> cmd_records c.

(** The entries among the records, each with its place. *)
Definition placed_entries (c : Cmd) (locs : list Loc) : list (Z * Arc * Loc) :=
  omap (λ '((k, i, a), loc), if k =? KIND_ENTRY then Some (i, a, loc) else None)
    (zip (cmd_records c) locs).

Definition max_drop (a b : option Z) : option Z :=
  match a, b with
  | Some x, Some y => Some (Z.max x y)
  | None, d | d, None => d
  end.

(** ** The store *)

Section store.
Context {E : Type} `{KvStore E} {Mb : Type}.
Context `{Bincode (Entry Mb)} `{Bincode Vote} `{Bincode LogId} `{Bincode (option LogId)}.

Record WalLog := mkWalLog {
  wl_mem : LogMem;
  wl_queue : list Cmd;
  wl_wal : Wal * Fs;
  wl_failed : option IoError;
  wl_engine : E;
  wl_committed_index : Z;
  wl_progress : LogProgress;
  (** Arcs and tickets handed out, and the answers to tickets. *)
  wl_arcs : nat;
  wl_tickets : nat;
  wl_replies : gmap nat (result IoError ())
}.

Abbreviation MW := (prog WalLog string).

Definition on_mem (f : LogMem → LogMem) : MW () :=
  pmodify (λ s, mkWalLog (f (wl_mem s)) (wl_queue s) (wl_wal s) (wl_failed s) (wl_engine s)
                  (wl_committed_index s) (wl_progress s) (wl_arcs s) (wl_tickets s) (wl_replies s)).
Definition on_progress (f : LogProgress → LogProgress) : MW () :=
  pmodify (λ s, mkWalLog (wl_mem s) (wl_queue s) (wl_wal s) (wl_failed s) (wl_engine s)
                  (wl_committed_index s) (f (wl_progress s)) (wl_arcs s) (wl_tickets s) (wl_replies s)).
Definition send (c : Cmd) : MW () :=
  pmodify (λ s, mkWalLog (wl_mem s) (wl_queue s ++ [c]) (wl_wal s) (wl_failed s) (wl_engine s)
                  (wl_committed_index s) (wl_progress s) (wl_arcs s) (wl_tickets s) (wl_replies s)).
Definition new_arc (b : bytes) : MW Arc := λ s,
  (Ok (mkArc (wl_arcs s) b),
   mkWalLog (wl_mem s) (wl_queue s) (wl_wal s) (wl_failed s) (wl_engine s) (wl_committed_index s)
     (wl_progress s) (S (wl_arcs s)) (wl_tickets s) (wl_replies s)).
Definition new_ticket : MW nat := λ s,
  (Ok (wl_tickets s),
   mkWalLog (wl_mem s) (wl_queue s) (wl_wal s) (wl_failed s) (wl_engine s) (wl_committed_index s)
     (wl_progress s) (wl_arcs s) (S (wl_tickets s)) (wl_replies s)).
Definition set_engine (e : E) (s : WalLog) : WalLog :=
  mkWalLog (wl_mem s) (wl_queue s) (wl_wal s) (wl_failed s) e (wl_committed_index s)
    (wl_progress s) (wl_arcs s) (wl_tickets s) (wl_replies s).
Definition set_wal_state (w : Wal * Fs) (failed : option IoError) (s : WalLog) : WalLog :=
  mkWalLog (wl_mem s) (wl_queue s) w failed (wl_engine s) (wl_committed_index s)
    (wl_progress s) (wl_arcs s) (wl_tickets s) (wl_replies s).

(** *** The writer thread *)

Definition run_done (r : result IoError ()) (c : Cmd) (s : WalLog) : WalLog :=
  let reply t p := mkWalLog (wl_mem s) (wl_queue s) (wl_wal s) (wl_failed s) (wl_engine s)
                     (wl_committed_index s) p (wl_arcs s) (wl_tickets s) (<[t := r]> (wl_replies s)) in
  match cmd_done c with
  | Some (DoneAppend last t) =>
      reply t (match last, r with
               | Some last, Ok _ => raise_durable (last + 1) (wl_progress s)
               | _, _ => wl_progress s
               end)
  | Some (DoneReply t) => reply t (wl_progress s)
  | None => s
  end.

(** Append a group, one command after the other. *)
Fixpoint append_cmds (cmds : list Cmd) (placed : list (Z * Arc * Loc)) (sync : bool) (drop : option Z)
    : wio (list (Z * Arc * Loc) * bool * option Z) :=
  match cmds with
  | [] => pret (placed, sync, drop)
  | c :: cmds' =>
      let* locs := append (cmd_recs c) in
      append_cmds cmds' (placed ++ placed_entries c locs) (sync || cmd_sync c)
        (max_drop drop (cmd_drop_upto c))
  end.

(** What a group does to the log, up to the deletion of segments. *)
Definition write_group (cmds : list Cmd) : wio (list (Z * Arc * Loc) * option Z) :=
  let* out := append_cmds cmds [] false None in
  let '(placed, sync, drop) := out in
  let* _ := (if sync : bool then wal_sync else pret ()) in
  pret (placed, drop).

Definition drop_ignored (d : option Z) (w : Wal * Fs) : Wal * Fs :=
  match d with Some d => (drop_segments_upto d w).2 | None => w end.

(** One turn: the thread takes the first [n] commands. *)
Definition writer_turn (n : nat) (s : WalLog) : WalLog :=
  let cmds := take n (wl_queue s) in
  let s := mkWalLog (wl_mem s) (drop n (wl_queue s)) (wl_wal s) (wl_failed s) (wl_engine s)
             (wl_committed_index s) (wl_progress s) (wl_arcs s) (wl_tickets s) (wl_replies s) in
  let s := match wl_failed s with
           | Some _ => s
           | None =>
               match write_group cmds (wl_wal s) with
               | (Ok (placed, d), w) =>
                   (on_mem (match placed with [] => id | _ => place placed end)
                      (set_wal_state (drop_ignored d w) None s)).2
               | (Err e, w) => set_wal_state w (Some e) s
               end
           end in
  let answer := match wl_failed s with None => Ok () | Some e => Err e end in
  foldl (λ s c, run_done answer c s) s cmds.

Definition GROUP_MAX : nat := 4096.

Fixpoint writer (turns : list nat) (s : WalLog) : WalLog :=
  match turns with
  | [] => s
  | n :: turns' => writer turns' (writer_turn (Nat.min n GROUP_MAX) s)
  end.

(** *** Calls *)

Definition write_synced (records : list (Z * Z * Arc)) (drop_upto : option Z) : MW nat :=
  let* t := new_ticket in
  let* _ := send (mkCmd records true drop_upto (Some (DoneReply t))) in
  pret t.

(** The answer a caller waits for; it is asked for once it is there. *)
Definition answer (t : nat) : MW () := λ s,
  match wl_replies s !! t with
  | Some (Ok _) => (Ok (), s)
  | _ => (Err "write", s)
  end.

Definition mirror (key value : bytes) : MW () := λ s,
  let '(_, e) := commit (batch_put TABLE_RAFT_META key value WriteBatch_new) (mkWriteOptions false)
                   (wl_engine s) in
  (Ok (), set_engine e s).

Definition wl_save_vote_send (v : Vote) : MW (bytes * nat) :=
  let* b := plift (encode_or v) in
  let* a := new_arc b in
  let* t := write_synced [(KIND_VOTE, 0, a)] None in
  pret (b, t).
Definition wl_save_vote_done (v : Vote) (b : bytes) (t : nat) : MW () :=
  let* _ := answer t in
  let* _ := on_mem (set_ws_vote (Some v)) in
  let* _ := on_progress (note_vote v) in
  mirror META_VOTE b.

Definition wl_note_committed (c : option LogId) : MW () :=
  match c with
  | None => pret ()
  | Some c =>
      pmodify (λ s, mkWalLog (wl_mem s) (wl_queue s) (wl_wal s) (wl_failed s) (wl_engine s)
                      (Z.max (wl_committed_index s) (lid_index c))
                      (raise_committed (lid_index c + 1) (wl_progress s))
                      (wl_arcs s) (wl_tickets s) (wl_replies s))
  end.

Definition wl_save_committed (c : option LogId) : MW () :=
  let* _ := wl_note_committed c in
  let* _ := on_mem (set_ws_committed c) in
  let* b := plift (encode_or c) in
  let* a := new_arc b in
  send (mkCmd [(KIND_COMMITTED, 0, a)] false None None).

(** An entry replaces whatever was at its index and after. *)
Definition insert_slot (index : Z) (a : Arc) (m : LogMem) : LogMem :=
  let m := remove_from index m in
  set_ws_log (<[index := mkSlot (Some a) None]> (ws_entries m))
    (ws_cached m + Z.of_nat (length (arc_data a))) (ws_cursor m) m.

Fixpoint wl_append_loop (entries : list (Entry Mb)) (records : list (Z * Z * Arc)) (last : option Z)
    : MW (list (Z * Z * Arc) * option Z) :=
  match entries with
  | [] => pret (records, last)
  | e :: entries' =>
      let* _ := on_progress (note_entry e) in
      let index := entry_index e in
      let* b := plift (encode_or e) in
      let* a := new_arc b in
      let* _ := on_mem (insert_slot index a) in
      wl_append_loop entries' (records ++ [(KIND_ENTRY, index, a)]) (Some index)
  end.

(** The ticket stands for the callback. *)
Definition wl_append (entries : list (Entry Mb)) : MW nat :=
  let* (records, last) := wl_append_loop entries [] None in
  let* t := new_ticket in
  let* _ := send (mkCmd records true None (Some (DoneAppend last t))) in
  pret t.

Definition wl_truncate_send (log_id : LogId) : MW nat :=
  let* _ := on_mem (remove_from (lid_index log_id)) in
  let* a := new_arc [] in
  write_synced [(KIND_TRUNCATE, lid_index log_id, a)] None.
Definition wl_truncate_done (log_id : LogId) (t : nat) : MW () :=
  let* _ := answer t in
  on_progress (truncate_progress (lid_index log_id)).

(** [complete_purge]. *)
Definition complete_purge_send (purged : LogId) : MW nat :=
  let* b := plift (encode_or purged) in
  let* a := new_arc b in
  write_synced [(KIND_PURGE, lid_index purged, a)] (Some (lid_index purged)).
Definition complete_purge_done (purged : LogId) (t : nat) : MW () :=
  let* _ := answer t in
  on_mem (λ m, match ws_pending m with
               | Some p => if lid_index p <=? lid_index purged
                           then set_ws_purges (ws_purged m) None m else m
               | None => m
               end).

Definition last_index (m : LogMem) : option Z :=
  match last (by_index (ws_entries m)) with
  | Some (i, _) => Some i
  | None => lid_index <$> ws_purged m
  end.

Definition below_opt (o : option LogId) (id : LogId) : bool :=
  match o with Some p => lid_index p <? lid_index id | None => true end.

Definition purge_mem (id : LogId) (m : LogMem) : LogMem :=
  let m := remove_upto (lid_index id) m in
  set_ws_purges (if below_opt (ws_purged m) id then Some id else ws_purged m)
    (if below_opt (ws_pending m) id then Some id else ws_pending m) m.

Definition sync_engine : MW () := λ s,
  match engine_sync (wl_engine s) with
  | (Ok _, e) => (Ok (), set_engine e s)
  | (Err _, e) => (Err "write", set_engine e s)
  end.

(** Up to the wait there is only past the last entry. *)
Definition wl_purge_send (log_id : LogId) : MW (option nat) :=
  let* s := pget in
  let hole := match last_index (wl_mem s) with Some l => l <? lid_index log_id | None => true end in
  let* _ := on_mem (purge_mem log_id) in
  let* b := plift (encode_or log_id) in
  let* _ := mirror META_LAST_PURGED b in
  if hole : bool then
    let* _ := sync_engine in
    let* t := complete_purge_send log_id in
    pret (Some t)
  else pret None.
Definition wl_purge_done (log_id : LogId) (t : option nat) : MW () :=
  match t with Some t => complete_purge_done log_id t | None => pret () end.

(** The calls as a whole, [turns] being what the thread does while they
    wait. *)
Definition wl_save_vote (turns : list nat) (v : Vote) : MW () :=
  let* (b, t) := wl_save_vote_send v in
  let* _ := pmodify (writer turns) in
  wl_save_vote_done v b t.
Definition wl_truncate (turns : list nat) (log_id : LogId) : MW () :=
  let* t := wl_truncate_send log_id in
  let* _ := pmodify (writer turns) in
  wl_truncate_done log_id t.
Definition complete_purge (turns : list nat) (purged : LogId) : MW () :=
  let* t := complete_purge_send purged in
  let* _ := pmodify (writer turns) in
  complete_purge_done purged t.
Definition wl_purge (turns : list nat) (log_id : LogId) : MW () :=
  let* t := wl_purge_send log_id in
  let* _ := pmodify (writer turns) in
  wl_purge_done log_id t.

(** *** Reads *)

Definition wl_read_loc (loc : Loc) : MW bytes := λ s,
  let '(r, fs) := reader_read loc (wl_wal s).2 in
  (match r with Ok b => Ok b | Err _ => Err "read" end,
   set_wal_state ((wl_wal s).1, fs) (wl_failed s) s).

Definition no_data : string := "raft WAL entry has no data".

Definition slot_entry (slot : Slot) : MW (Entry Mb) :=
  match slot with
  | mkSlot (Some b) _ => plift (decode_or (arc_data b))
  | mkSlot None (Some loc) => let* b := wl_read_loc loc in plift (decode_or b)
  | mkSlot None None => pfail no_data
  end.

Fixpoint read_slots (l : list (Z * Slot)) : MW (list (Entry Mb)) :=
  match l with
  | [] => pret []
  | (_, slot) :: l' => let* e := slot_entry slot in let* es := read_slots l' in pret (e :: es)
  end.

(** Slots without data are found before anything is read. *)
Definition has_data (slot : Slot) : bool :=
  match slot with mkSlot None None => false | _ => true end.

Definition wl_try_get (lo hi : IBound) : MW (list (Entry Mb)) :=
  let* s := pget in
  let l := log_range lo hi (ws_entries (wl_mem s)) in
  if forallb (λ x, has_data x.2) l then read_slots l else pfail no_data.

Definition slot_len (slot : Slot) : Z :=
  match slot with
  | mkSlot (Some b) _ => Z.of_nat (length (arc_data b))
  | mkSlot None (Some loc) => l_len loc
  | mkSlot None None => 0
  end.

Definition REPLICATION_BYTES : Z := 1024 * 1024.

Fixpoint limit_stop (l : list (Z * Slot)) (sent stop : Z) : Z :=
  match l with
  | [] => stop
  | (index, slot) :: l' =>
      let len := slot_len slot in
      if (0 <? sent) && (REPLICATION_BYTES <? sent + len) then index
      else limit_stop l' (sent + len) stop
  end.

Definition limited_get_log_entries (start end_ : Z) : MW (list (Entry Mb)) :=
  let* s := pget in
  let l := log_range (IIncluded start) (IExcluded end_) (ws_entries (wl_mem s)) in
  wl_try_get (IIncluded start) (IExcluded (limit_stop l 0 end_)).

Definition wl_last_log_id : MW (option LogId) :=
  let* s := pget in
  match last (by_index (ws_entries (wl_mem s))) with
  | None => pret None
  | Some (_, slot) => let* e := slot_entry slot in pret (Some (entry_id e))
  end.

Definition wl_get_log_state : MW LogState :=
  let* s := pget in
  let purged := ws_purged (wl_mem s) in
  let* last := wl_last_log_id in
  pret (mkLogState purged (or_else last purged)).

Definition wl_read_vote : MW (option Vote) := let* s := pget in pret (ws_vote (wl_mem s)).
Definition wl_read_committed : MW (option LogId) := let* s := pget in pret (ws_committed (wl_mem s)).

(** What [purge_point_keeping] counts of a slot. *)
Definition kept_len (slot : Slot) : Z :=
  match slot with
  | mkSlot _ (Some loc) => l_len loc
  | mkSlot (Some b) None => Z.of_nat (length (arc_data b))
  | mkSlot None None => 0
  end.

Fixpoint keeping_loop (l : list (Z * Slot)) (held keep_bytes : Z) : option Z :=
  match l with
  | [] => None
  | (index, slot) :: l' =>
      if keep_bytes <=? held then Some index
      else keeping_loop l' (held + kept_len slot) keep_bytes
  end.

Definition purge_point_keeping (upto keep_bytes : Z) (m : LogMem) : option Z :=
  keeping_loop (reverse (log_range IUnbounded (IIncluded upto) (ws_entries m))) 0 keep_bytes.

(** *** Opening *)

Definition on_wal {A} (w : Wal) (m : wio A) : io A := λ fs,
  let '(r, (_, fs)) := m (w, fs) in (r, fs).

(** One page of the legacy log. *)
Fixpoint migrate_rows (rows : list (bytes * bytes)) : wio () :=
  match rows with
  | [] => pret ()
  | (k, v) :: rows' =>
      if (length k =? 8)%nat then
        let* _ := append [mkRec KIND_ENTRY (be_value k) v] in
        migrate_rows rows'
      else pfail (InvalidData "raft_log key")
  end.

Definition MIGRATE_PAGE : nat := 1024.

(** [fuel] bounds the pages; the table has no more rows than the tables. *)
Fixpoint migrate_pages (fuel : nat) (snap : Tables) (start : Bound) : wio () :=
  match fuel with
  | O => pret ()
  | S fuel' =>
      let rows := snap_range snap TABLE_LOG start Unbounded MIGRATE_PAGE in
      match last rows with
      | None => pret ()
      | Some (last_key, _) =>
          let* _ := migrate_rows rows in
          migrate_pages fuel' snap (Excluded last_key)
      end
  end.

Definition append_meta (snap : Tables) (key : bytes) (kind : Z) (index : bytes → result IoError Z)
    : wio () :=
  match snap_get snap TABLE_RAFT_META key with
  | None => pret ()
  | Some v =>
      let* i := plift (index v) in
      let* _ := append [mkRec kind i v] in pret ()
  end.

Definition no_index (_ : bytes) : result IoError Z := Ok 0.
Definition logid_index (v : bytes) : result IoError Z :=
  let? id := ok_or (deserialize (A := LogId) v) (InvalidData "log id") in Ok (lid_index id).

(** [migrate]'s work in the temporary directory. *)
Definition migrate_into (sb : Z) (snap : Tables) : io () :=
  let* (w, _) := open sb in
  on_wal w (
    let* _ := append_meta snap META_VOTE KIND_VOTE no_index in
    let* _ := append_meta snap META_LAST_PURGED KIND_PURGE logid_index in
    let* _ := append_meta snap META_COMMITTED KIND_COMMITTED no_index in
    let* _ := migrate_pages (S (base.size snap)) snap Unbounded in
    wal_sync).

(** Only files without segments are in the directory it replaces. *)
Definition rename_dir (tmp : gmap bytes File) : io () :=
  let* _ := io_guard in
  let* _ := pmodify (λ fs, mkFs ∅ (fs_faults fs)) in
  let* _ := io_guard in
  let* _ := pmodify (λ fs, mkFs tmp (fs_faults fs)) in
  (** [sync_parent] *)
  io_guard.

(** The temporary directory starts empty. *)
Definition migrate (sb : Z) (snap : Tables) : io () := λ fs,
  match migrate_into sb snap (mkFs ∅ (fs_faults fs)) with
  | (Err e, tmp) => (Err e, mkFs (fs_files fs) (fs_faults tmp))
  | (Ok _, tmp) => rename_dir (fs_files tmp) (mkFs (fs_files fs) (fs_faults tmp))
  end.

Definition has_segments (fs : Fs) : bool :=
  existsb (λ x : bytes * File, bool_decide (is_Some (strip_suffix x.1 WAL_SUFFIX)))
    (map_to_list (fs_files fs)).

Definition clear_legacy (e : E) : result string () * E :=
  match snap_last (contents e) TABLE_LOG with
  | None => (Ok (), e)
  | Some _ =>
      let batch := batch_delete TABLE_RAFT_META META_COMMITTED
                     (batch_delete_range TABLE_LOG [] (replicate 9 xff) WriteBatch_new) in
      match commit batch WriteOptions_default e with
      | (Ok _, e) => (Ok (), e)
      | (Err _, e) => (Err "clear the legacy log", e)
      end
  end.

Definition decode_meta {A} `{Bincode A} (r : Replay) (kind : Z) : result string (option A) :=
  match meta r !! kind with
  | None => Ok None
  | Some (_, b) => let? a := decode_or b in Ok (Some a)
  end.

Definition slot_of_loc (loc : Loc) : Slot := mkSlot None (Some loc).

(** The store over a replayed log. *)
Definition wl_start (cache_bytes : Z) (e : E) (w : Wal) (r : Replay) (fs : Fs) : result string WalLog :=
  let? vote := decode_meta (A := Vote) r KIND_VOTE in
  let? committed := decode_meta (A := option LogId) r KIND_COMMITTED in
  let committed := default None committed in
  let? last_purged := decode_meta (A := LogId) r KIND_PURGE in
  let mem := mkLogMem (slot_of_loc <$> entries r) 0 cache_bytes 0 vote committed last_purged None in
  let p := match vote with Some v => note_vote v LogProgress_default | None => LogProgress_default end in
  let p := match last_index mem with Some l => raise_durable (l + 1) p | None => p end in
  let p := match committed with Some c => raise_committed (lid_index c + 1) p | None => p end in
  Ok (mkWalLog mem [] (w, fs) None e (match committed with Some c => Z.max 0 (lid_index c) | None => 0 end)
        p 0 0 ∅).

Definition wl_open (sb cache_bytes : Z) (fs : Fs) (e : E) : result string WalLog * (Fs * E) :=
  let '(migrated, fs) := if has_segments fs then (Ok (), fs) else migrate sb (contents e) fs in
  match migrated with
  | Err _ => (Err "migrate", (fs, e))
  | Ok _ =>
      let '(cleared, e) := clear_legacy e in
      match cleared with
      | Err x => (Err x, (fs, e))
      | Ok _ =>
          match open sb fs with
          | (Err _, fs) => (Err "open", (fs, e))
          | (Ok (w, r), fs) => (wl_start cache_bytes e w r fs, (fs, e))
          end
      end
  end.

(** *** The checkpointer *)

(** Whether [n] applied entries are enough to start one. *)
Definition checkpoint_due (durable : option Z) (now entries : Z) : bool :=
  negb (Z.max 0 (now - default 0 durable) <? Z.max entries 1).

(** Whether there is anything to do at the applied index [target]. *)
Definition checkpoint_wanted (durable : option Z) (target : Z) (m : LogMem) : bool :=
  negb (bool_decide (durable = Some target) && bool_decide (ws_pending m = None)).

(** A checkpoint at the applied index [target] with the pending purge it saw
    when it began: what is durable after it, and the purge it has begun. *)
Definition checkpoint_send (durable : option Z) (target : Z) (purge : option LogId)
    : MW (option Z * option (LogId * nat)) := λ s,
  match sync_engine s with
  | (Err _, s) => (Ok (durable, None), s)
  | (Ok _, s) =>
      match purge with
      | Some p =>
          if lid_index p <? target then
            match complete_purge_send p s with
            | (Ok t, s) => (Ok (Some target, Some (p, t)), s)
            | (Err _, s) => (Ok (Some target, None), s)
            end
          else (Ok (Some target, None), s)
      | None => (Ok (Some target, None), s)
      end
  end.
End store.
Arguments WalLog : clear implicits.
