(* ===== verification/WalMem.v ===== *)
(** * The log in memory

    [cached_bytes] is exactly the bytes the slots hold, so no subtraction
    from it can wrap; below the eviction cursor no bytes are left; and after
    a group is placed the cache is within its limit, or what is over it is
    not in the WAL yet. *)

From S2P Require Import Prelude Revision Record KvStore Lease Cache Auth Store.
From S2P Require Import SnapshotPolicy StateMachine LogStore SmDemo EntryCodec LogKv Wal WalLog WalStore.

(** ** Bytes *)

Lemma slots_size_insert i s (es : gmap Z Slot) :
  es !! i = None → slots_size (<[i := s]> es) = slot_size s + slots_size es.
Proof.
  intros Hi. unfold slots_size. rewrite map_fold_insert_L; [done|intros; lia|done].
Qed.

Lemma slots_size_delete i s (es : gmap Z Slot) :
  es !! i = Some s → slots_size es = slot_size s + slots_size (delete i es).
Proof.
  intros Hi. rewrite <- (insert_delete_id es i s Hi) at 1. apply slots_size_insert, lookup_delete_eq.
Qed.

Lemma slots_size_update i s s' (es : gmap Z Slot) :
  es !! i = Some s → slots_size (<[i := s']> es) = slots_size es - slot_size s + slot_size s'.
Proof.
  intros Hi. rewrite <- insert_delete_eq, slots_size_insert by apply lookup_delete_eq.
  rewrite (slots_size_delete i s es Hi). lia.
Qed.

Lemma slots_size_split (P : Z * Slot → Prop) `{!∀ x, Decision (P x)} (es : gmap Z Slot) :
  slots_size es = slots_size (base.filter P es) + slots_size (base.filter (λ x, ¬ P x) es).
Proof.
  induction es as [|i s es Hi IH] using map_ind; [done|]. rewrite slots_size_insert, IH by done.
  destruct (decide (P (i, s))).
  - rewrite map_filter_insert_True, map_filter_insert_False by naive_solver.
    rewrite slots_size_insert by (apply map_lookup_filter_None; by left).
    rewrite (delete_id es i) by done. lia.
  - rewrite map_filter_insert_False, map_filter_insert_True by naive_solver.
    rewrite slots_size_insert by (apply map_lookup_filter_None; by left).
    rewrite (delete_id es i) by done. lia.
Qed.

Lemma slots_size_cut i (es : gmap Z Slot) :
  slots_size es = slots_size (keep_below i es) + slots_size (split_off i es).
Proof.
  unfold keep_below, split_off. rewrite (slots_size_split (λ e, e.1 < i) es). f_equal. f_equal.
  apply map_filter_ext. intros j s _. cbn. lia.
Qed.

(** ** The invariant *)

Record mem_ok (m : LogMem) : Prop := {
  mo_cached : ws_cached m = slots_size (ws_entries m);
  mo_cursor i s : ws_entries m !! i = Some s → i < ws_cursor m → slot_bytes s = None;
  mo_data i s : ws_entries m !! i = Some s → has_data s = true
}.

Lemma slot_size_nonneg s : 0 ≤ slot_size s.
Proof. unfold slot_size. destruct (slot_bytes s); lia. Qed.

Lemma slots_size_nonneg es : 0 ≤ slots_size es.
Proof.
  induction es as [|i s es Hi IH] using map_ind; [done|]. rewrite slots_size_insert by done.
  pose proof (slot_size_nonneg s). lia.
Qed.

Lemma remove_from_ok i m : mem_ok m → mem_ok (remove_from i m).
Proof.
  intros [Hc Hcur Hd]. split; cbn.
  - rewrite Hc, (slots_size_cut i (ws_entries m)). lia.
  - intros j s. rewrite lookup_keep_below. case_decide; [|done]. intros Hj Hlt. apply (Hcur j); [done|lia].
  - intros j s. rewrite lookup_keep_below. case_decide; [|done]. apply Hd.
Qed.

Lemma remove_upto_ok i m : mem_ok m → mem_ok (remove_upto i m).
Proof.
  intros [Hc Hcur Hd]. split; cbn.
  - rewrite Hc, (slots_size_cut (Z.min (i + 1) u64_max) (ws_entries m)). lia.
  - intros j s. rewrite lookup_split_off. case_decide; [|done]. apply Hcur.
  - intros j s. rewrite lookup_split_off. case_decide; [|done]. apply Hd.
Qed.

Lemma insert_slot_ok i a m : mem_ok m → mem_ok (insert_slot i a m).
Proof.
  intros Hm. destruct (remove_from_ok i m Hm) as [Hc Hcur Hd]. unfold insert_slot.
  assert (ws_entries (remove_from i m) !! i = None) as Hi.
  { cbn. rewrite lookup_keep_below. by rewrite decide_False by lia. }
  split; cbn [set_ws_log ws_entries ws_cached ws_cursor].
  - rewrite slots_size_insert, Hc by done. unfold slot_size at 1. cbn. lia.
  - intros j s [[<- <-]|[_ Hj]]%lookup_insert_Some Hlt; [|by eapply Hcur]. exfalso. cbn in Hlt. lia.
  - intros j s [[<- <-]|[_ Hj]]%lookup_insert_Some; [done|by eapply Hd].
Qed.

Lemma place_one_lookup x es i :
  place_one x es !! i = match es !! i with
                        | Some (mkSlot (Some b) l) =>
                            if bool_decide (x.1.1 = i) && (arc_id b =? arc_id x.1.2)%nat
                            then Some (mkSlot (Some b) (Some x.2)) else Some (mkSlot (Some b) l)
                        | o => o
                        end.
Proof.
  destruct x as [[j a] loc]. unfold place_one. cbn [fst snd].
  destruct (decide (j = i)) as [->|Hne].
  - rewrite bool_decide_true by done. cbn [andb].
    destruct (es !! i) as [[[b|] l]|] eqn:Hi; [|done|done].
    destruct (_ =? _)%nat; [by rewrite lookup_insert_eq|done].
  - rewrite bool_decide_false by done. cbn [andb].
    assert (∀ es', (∀ s, es' = <[j := s]> es → es' !! i = es !! i)) as Hins.
    { intros es' s ->. by rewrite lookup_insert_ne. }
    destruct (es !! j) as [[[b|] l]|]; try (by destruct (es !! i) as [[[b'|] l']|]).
    destruct (_ =? _)%nat; [rewrite lookup_insert_ne by done|]; by destruct (es !! i) as [[[b'|] l']|].
Qed.

Lemma place_one_size x es : slots_size (place_one x es) = slots_size es.
Proof.
  destruct x as [[j a] loc]. unfold place_one. destruct (es !! j) as [[[b|] l]|] eqn:Hj; [|done|done].
  destruct (_ =? _)%nat; [|done]. rewrite (slots_size_update _ _ _ _ Hj). unfold slot_size. cbn. lia.
Qed.

(** A slot that kept its bytes, and got a place or not. *)
Definition slot_placed (o o' : option Slot) : Prop :=
  match o, o' with
  | Some s, Some s' => slot_bytes s' = slot_bytes s ∧ (has_data s = true → has_data s' = true)
  | None, None => True
  | _, _ => False
  end.

Lemma slot_placed_trans a b c : slot_placed a b → slot_placed b c → slot_placed a c.
Proof. unfold slot_placed. destruct a, b, c; naive_solver congruence. Qed.

Lemma place_one_placed x es i : slot_placed (es !! i) (place_one x es !! i).
Proof.
  rewrite place_one_lookup. destruct (es !! i) as [[[b|] l]|]; cbn; [|done|done]. by destruct (_ && _).
Qed.

Lemma place_all_placed l es i : slot_placed (es !! i) (foldl (λ es x, place_one x es) es l !! i).
Proof.
  revert es. induction l as [|x l IH]; intros es; cbn; [by destruct (es !! i)|].
  eapply slot_placed_trans; [apply place_one_placed|apply IH].
Qed.

Lemma place_all_size l es : slots_size (foldl (λ es x, place_one x es) es l) = slots_size es.
Proof. revert es. induction l as [|x l IH]; intros es; cbn; [done|]. by rewrite IH, place_one_size. Qed.

(** ** Eviction *)

Definition slot_evicted (o o' : option Slot) : Prop :=
  match o, o' with
  | Some s, Some s' => s' = s ∨ s' = mkSlot None (slot_loc s) ∧ slot_loc s ≠ None
  | None, None => True
  | _, _ => False
  end.

Lemma slot_evicted_refl o : slot_evicted o o.
Proof. destruct o; cbn; auto. Qed.

Record evicted (limit : Z) (es es' : gmap Z Slot) (cached cursor : Z) : Prop := {
  ev_cached : cached = slots_size es';
  ev_cursor i s : es' !! i = Some s → i < cursor → slot_bytes s = None;
  ev_slots i : slot_evicted (es !! i) (es' !! i);
  ev_bound : cached ≤ limit ∨ cached = 0 ∨
    ∃ i s, es' !! i = Some s ∧ slot_loc s = None ∧ ∀ j s', es' !! j = Some s' → j < i → slot_bytes s' = None
}.

Lemma no_bytes_size es : (∀ i s, es !! i = Some s → slot_bytes s = None) → slots_size es = 0.
Proof.
  induction es as [|i s es Hi IH] using map_ind; [done|]. intros Hs. rewrite slots_size_insert by done.
  rewrite IH.
  - unfold slot_size. by rewrite (Hs i s) by apply lookup_insert_eq.
  - intros j s' Hj. apply (Hs j). rewrite lookup_insert_ne; [done|]. intros ->. congruence.
Qed.

Lemma evict_inv limit l : ∀ es cached cursor es' cached' cursor',
  StronglySorted Z.lt l.*1 → cached = slots_size es →
  (∀ i s, es !! i = Some s → (i, s) ∈ l ∨ slot_bytes s = None) →
  (∀ i s, es !! i = Some s → i < cursor → slot_bytes s = None) →
  (∀ x, x ∈ l → es !! x.1 = Some x.2 ∧ cursor ≤ x.1) →
  evict_slots limit l es cached cursor = (es', cached', cursor') →
  evicted limit es es' cached' cursor'.
Proof.
  induction l as [|[i s] l IH]; intros es cached cursor es' cached' cursor' Hs Hc Hin Hcur Hl; cbn [evict_slots].
  { intros [= <- <- <-]. split; [done|done|intros; apply slot_evicted_refl|].
    right. left. rewrite Hc. apply no_bytes_size. intros i s Hi.
    destruct (Hin i s Hi) as [?%elem_of_nil|?]; done. }
  rewrite fmap_cons in Hs. apply StronglySorted_cons in Hs as [Hi Hs].
  rewrite Forall_fmap, Forall_forall in Hi. destruct (Hl (i, s)) as [Hes Hge]; [by left|]. cbn in Hes, Hge.
  destruct (Z.leb_spec cached limit) as [Hle|Hgt]; cbn [orb].
  { intros [= <- <- <-]. split; [done|done|intros; apply slot_evicted_refl|by left]. }
  case_bool_decide as Hloc.
  { intros [= <- <- <-]. split; [done|done|intros; apply slot_evicted_refl|].
    right. right. exists i, s. split_and!; [done|done|]. intros j s' Hj Hlt.
    destruct (Hin j s' Hj) as [[[= -> ->]|Hjl]%elem_of_cons|?]; [lia| |done].
    specialize (Hi (j, s') Hjl). cbn in Hi. lia. }
  intros Hrest. eapply IH in Hrest; [destruct Hrest as [H1 H2 H3 H4]|done|..].
  - split; [done|done| |done]. intros j. specialize (H3 j).
    destruct (decide (j = i)) as [->|Hne]; [|by rewrite lookup_insert_ne in H3].
    rewrite lookup_insert_eq in H3. rewrite Hes. cbn in H3 |- *.
    destruct (es' !! i) as [s'|]; [|done]. destruct H3 as [->|[-> _]]; by right.
  - rewrite (slots_size_update _ _ _ _ Hes), Hc. unfold slot_size at 3. cbn. lia.
  - intros j s' [[<- <-]|[Hne Hj]]%lookup_insert_Some; [by right|].
    destruct (Hin j s' Hj) as [[[= -> ->]|?]%elem_of_cons|?]; [done|by left|by right].
  - intros j s' [[<- <-]|[Hne Hj]]%lookup_insert_Some Hlt; [done|].
    destruct (Hin j s' Hj) as [[[= -> ->]|Hjl]%elem_of_cons|?]; [done| |done].
    specialize (Hi (j, s') Hjl). cbn in Hi. lia.
  - intros [j s'] Hx. destruct (Hl (j, s')) as [Hj _]; [by right|]. specialize (Hi (j, s') Hx). cbn in *.
    split; [|lia]. by rewrite lookup_insert_ne by lia.
Qed.

(** What [place] does to a slot. *)
Definition slot_moved (o o1 o' : option Slot) : Prop := slot_placed o o1 ∧ slot_evicted o1 o'.

Lemma place_inv placed m :
  mem_ok m →
  let es1 := foldl (λ es x, place_one x es) (ws_entries m) placed in
  let m' := place placed m in
  mem_ok m' ∧ (∀ i, slot_evicted (es1 !! i) (ws_entries m' !! i)) ∧
  (ws_cached m' ≤ ws_limit m' ∨ ws_cached m' = 0 ∨
   ∃ i s, ws_entries m' !! i = Some s ∧ slot_loc s = None ∧
     ∀ j s', ws_entries m' !! j = Some s' → j < i → slot_bytes s' = None) ∧
  ws_limit m' = ws_limit m ∧ ws_vote m' = ws_vote m ∧ ws_committed m' = ws_committed m ∧
  ws_purged m' = ws_purged m ∧ ws_pending m' = ws_pending m.
Proof.
  intros Hm. destruct Hm as [Hc Hcur Hd]. cbv zeta. unfold place.
  set (es1 := foldl _ _ placed).
  assert (∀ i s, es1 !! i = Some s → i < ws_cursor m → slot_bytes s = None) as Hcur1.
  { intros i s Hi Hlt. pose proof (place_all_placed placed (ws_entries m) i) as Hp. subst es1.
    rewrite Hi in Hp. destruct (ws_entries m !! i) as [s0|] eqn:H0; [|done].
    destruct Hp as [-> _]. by eapply Hcur. }
  assert (∀ i s, es1 !! i = Some s → has_data s = true) as Hd1.
  { intros i s Hi. pose proof (place_all_placed placed (ws_entries m) i) as Hp. subst es1.
    rewrite Hi in Hp. destruct (ws_entries m !! i) as [s0|] eqn:H0; [|done].
    destruct Hp as [_ Hp]. eapply Hp, Hd, H0. }
  assert (ws_cached m = slots_size es1) as Hc1 by (subst es1; by rewrite place_all_size).
  destruct (Z.leb_spec (ws_cached m) (ws_limit m)).
  { split; [by split|]. split; [intros i; apply slot_evicted_refl|]. split; [by left|done]. }
  destruct (evict_slots _ _ es1 _ _) as [[es' cached'] cursor'] eqn:He.
  eapply evict_inv in He as [H1 H2 H3 H4]; [|apply sorted_filter, by_index_sorted|done|..].
  - split; [|split; [done|split; [done|done]]]. split; cbn; [done|done|]. intros i s Hi. specialize (H3 i). rewrite Hi in H3.
    destruct (es1 !! i) as [s1|] eqn:H1i; [|done]. destruct H3 as [->|[-> Hl]]; [by eapply Hd1|].
    cbn. by destruct (slot_loc s1).
  - intros i s Hi. destruct (Z.ltb_spec i (ws_cursor m)); [right; by eapply Hcur1|left].
    apply log_range_elem. split; [done|]. cbn. rewrite andb_true_r. by apply Z.leb_le.
  - done.
  - intros [i s] [Hi Hb]%log_range_elem. cbn in *. rewrite andb_true_r in Hb. split; [done|by apply Z.leb_le].
Qed.

Lemma place_ok placed m : mem_ok m → mem_ok (place placed m).
Proof. intros Hm. by destruct (place_inv placed m Hm). Qed.
