(* ===== verification/WalThread.v ===== *)
(** * The writer thread

    What a group of commands leaves of the log: every record appended, in
    order and in its place, and, once it is answered, on disk. *)

From S2P Require Import Prelude Revision Record KvStore Lease Cache Auth Store.
From S2P Require Import SnapshotPolicy StateMachine LogStore SmDemo EntryCodec LogKv Wal WalCodec.
From S2P Require Import WalLog WalDisk WalOps WalRun WalCrash WalStore WalMem.

(** ** Groups *)

Definition recs (cs : list Cmd) : list Rec := concat (cmd_recs <$> cs).

Lemma recs_app a b : recs (a ++ b) = recs a ++ recs b.
Proof. unfold recs. by rewrite fmap_app, concat_app. Qed.

Lemma recs_cons c b : recs (c :: b) = cmd_recs c ++ recs b.
Proof. done. Qed.

(** Segments a group can start at most. *)
Definition cmds_cost (cs : list Cmd) : Z := Z.of_nat (length cs) + Z.of_nat (length (recs cs)).

Lemma cmds_cost_cons c cs :
  cmds_cost (c :: cs) = 1 + Z.of_nat (length (cmd_recs c)) + cmds_cost cs.
Proof. unfold cmds_cost. rewrite recs_cons, length_app. cbn. lia. Qed.

Lemma cmds_cost_app a b : cmds_cost (a ++ b) = cmds_cost a + cmds_cost b.
Proof. unfold cmds_cost. rewrite recs_app, !length_app. lia. Qed.

Lemma cmds_cost_nonneg cs : 0 ≤ cmds_cost cs.
Proof. unfold cmds_cost. lia. Qed.

Definition in_place (segs : list (Z * list Rec)) (x : Z * Arc * Loc) : Prop :=
  (mkRec KIND_ENTRY x.1.1 (arc_data x.1.2), x.2) ∈ placed segs.

(** The arc of a placed entry is one of a command's. *)
Definition from_cmds (cs : list Cmd) (x : Z * Arc * Loc) : Prop :=
  ∃ c, c ∈ cs ∧ (KIND_ENTRY, x.1.1, x.1.2) ∈ cmd_records c.

Lemma placed_entries_in c locs segs :
  Forall2 (λ rec loc, (rec, loc) ∈ placed segs) (cmd_recs c) locs →
  Forall (λ x, in_place segs x ∧ from_cmds [c] x) (placed_entries c locs).
Proof.
  unfold cmd_recs, placed_entries. intros Hf.
  assert (∀ y, y ∈ cmd_records c → y ∈ cmd_records c) as Hin by done. revert Hin Hf.
  generalize (cmd_records c) at 1 3 4. intros l. revert locs.
  induction l as [|[[k i] a] l IH]; intros locs Hin Hf; [constructor|].
  rewrite fmap_cons in Hf. apply Forall2_cons_inv_l in Hf as (loc & locs' & Hloc & Hf & ->).
  assert (Forall (λ x, in_place segs x ∧ from_cmds [c] x)
            (omap (λ '((k, i, a), loc), if k =? KIND_ENTRY then Some (i, a, loc) else None) (zip l locs'))) as Hrest.
  { apply IH; [|done]. intros y Hy. apply Hin. by right. }
  cbn. destruct (Z.eqb_spec k KIND_ENTRY) as [->|]; [|done]. constructor; [|done].
  split; [done|]. exists c. split; [by left|]. apply Hin. by left.
Qed.

Lemma in_place_grown c q rs c' q' rs' x :
  grown c q rs c' q' rs' → in_place (c ++ [(q, rs)]) x → in_place (c' ++ [(q', rs')]) x.
Proof. intros Hg. apply Hg. Qed.

Lemma from_cmds_weaken a b x : (∀ c, c ∈ a → c ∈ b) → from_cmds a x → from_cmds b x.
Proof. intros Hab (c & Hc & Hx). exists c. auto. Qed.

Definition group_sync (cs : list Cmd) : bool := existsb cmd_sync cs.
Definition group_drop (cs : list Cmd) : option Z := foldl (λ d c, max_drop d (cmd_drop_upto c)) None cs.

Lemma append_cmds_inv cs : ∀ w fs H M closed q rs k pl sy dr r w' fs',
  live w fs H M closed q rs [] k → Forall (λ r, is_u64 (r_index r)) (recs cs) →
  q + cmds_cost cs ≤ u64_max →
  append_cmds cs pl sy dr (w, fs) = (r, (w', fs')) →
  match r with
  | Ok (pl', sy', dr') => ∃ closed' q' rs' k' new,
      live w' fs' (H ++ recs cs) M closed' q' rs' [] k' ∧ q ≤ q' ≤ q + cmds_cost cs ∧
      grown closed q rs closed' q' rs' ∧ pl' = pl ++ new ∧
      Forall (λ x, in_place (closed' ++ [(q', rs')]) x ∧ from_cmds cs x) new ∧
      sy' = sy || group_sync cs ∧ dr' = foldl (λ d c, max_drop d (cmd_drop_upto c)) dr cs
  | Err _ => crash_ok fs' (H ++ recs cs) M
  end.
Proof.
  induction cs as [|c cs IH]; intros w fs H M closed q rs k pl sy dr r w' fs' Hlv Hu Hq; cbn [append_cmds].
  { intros [= <- <- <-]. exists closed, q, rs, k, []. unfold recs. cbn. rewrite !app_nil_r, orb_false_r.
    assert (cmds_cost [] = 0) as -> by done. split_and!; try done; try lia. by intros x. }
  rewrite recs_cons in Hu. apply Forall_app in Hu as [Hu1 Hu2]. rewrite cmds_cost_cons in *.
  pose proof (cmds_cost_nonneg cs). rewrite recs_cons, app_assoc.
  unfold pbind. destruct (append (cmd_recs c) (w, fs)) as [r1 [w1 fs1]] eqn:Ha.
  eapply live_append in Ha; [|done|done|lia].
  destruct r1 as [locs|e]; [|intros [= <- <- <-]; by apply crash_ok_more].
  destruct Ha as (c1 & q1 & rs1 & k1 & Hlv1 & Hq1 & Hg1 & Hloc). intros Hrest.
  eapply IH in Hrest; [|done|done|lia]. destruct r as [[[pl' sy'] dr']|e]; [|done].
  destruct Hrest as (c2 & q2 & rs2 & k2 & new & Hlv2 & Hq2 & Hg2 & -> & Hnew & -> & ->).
  exists c2, q2, rs2, k2, (placed_entries c locs ++ new).
  split_and!; [done|lia|lia|by eapply grown_trans|by rewrite app_assoc| |by cbn; rewrite orb_assoc|done].
  apply Forall_app. split.
  - eapply Forall_impl; [by apply placed_entries_in|]. intros x [Hx Hf]. split; [by eapply in_place_grown|].
    eapply from_cmds_weaken; [|done]. intros y ->%list_elem_of_singleton. by left.
  - eapply Forall_impl; [done|]. intros x [Hx Hf]. split; [done|].
    eapply from_cmds_weaken; [|done]. intros y Hy. by right.
Qed.

Lemma write_group_inv cs w fs H M closed q rs k r w' fs' :
  live w fs H M closed q rs [] k → Forall (λ r, is_u64 (r_index r)) (recs cs) →
  q + cmds_cost cs ≤ u64_max →
  write_group cs (w, fs) = (r, (w', fs')) →
  match r with
  | Ok (pl, dr) => ∃ closed' q' rs' k' M',
      live w' fs' (H ++ recs cs) M' closed' q' rs' [] k' ∧ q ≤ q' ≤ q + cmds_cost cs ∧
      grown closed q rs closed' q' rs' ∧ Forall (λ x, in_place (closed' ++ [(q', rs')]) x ∧ from_cmds cs x) pl ∧
      dr = group_drop cs ∧ (M ≤ M')%nat ∧
      (group_sync cs = true → M' = length (H ++ recs cs) ∧ k' = length rs')
  | Err _ => crash_ok fs' (H ++ recs cs) M
  end.
Proof.
  intros Hlv Hu Hq. unfold write_group, pbind at 1.
  destruct (append_cmds cs [] false None (w, fs)) as [r1 [w1 fs1]] eqn:Ha.
  eapply append_cmds_inv in Ha; [|done..]. destruct r1 as [[[pl sy] dr]|e]; [|by intros [= <- <- <-]].
  destruct Ha as (c1 & q1 & rs1 & k1 & new & Hlv1 & Hq1 & Hg1 & -> & Hnew & -> & ->).
  cbn [orb app]. unfold pbind. destruct (group_sync cs) eqn:Hs.
  - destruct (wal_sync (w1, fs1)) as [r2 [w2 fs2]] eqn:Hsy. eapply live_sync in Hsy; [|done].
    destruct r2 as [[]|e]; [|by intros [= <- <- <-]]. intros [= <- <- <-].
    exists c1, q1, rs1, (length rs1), (length (H ++ recs cs)).
    split_and!; try done; try lia. pose proof (lv_M _ _ _ _ _ _ _ _ _ Hlv1). lia.
  - intros [= <- <- <-]. exists c1, q1, rs1, k1, M. by split_and!; try lia.
Qed.

(** ** Reading back *)

(** A read changes no file; with no fault left it does what it would do
    with none. *)
Lemma reader_read_faults loc fs r fs' :
  reader_read loc fs = (r, fs') →
  fs_files fs' = fs_files fs ∧
  (is_ok r = false ∧ fs_faults fs ≠ [] ∨ r = (reader_read loc (mkFs (fs_files fs) [])).1).
Proof.
  assert (∀ fs, (∃ fs1, io_guard fs = (Ok (), fs1) ∧ fs_files fs1 = fs_files fs ∧
                   (fs_faults fs1 ≠ [] → fs_faults fs ≠ [])) ∨
                ∃ e fs1, io_guard fs = (Err e, fs1) ∧ fs_files fs1 = fs_files fs ∧ fs_faults fs ≠ []) as Hg.
  { intros [files [|[f|] faults]]; cbn.
    - left. eexists. split; [done|]. done.
    - right. eexists _, _. split; [done|]. done.
    - left. eexists. split; [done|]. done. }
  unfold reader_read, pbind, get_file. cbn [fs_files io_guard].
  destruct (Hg fs) as [(fs1 & -> & Hf1 & Hn1)|(e & fs1 & -> & Hf1 & Hn1)]; [|by intros [= <- <-]; eauto].
  rewrite Hf1. cbn. destruct (fs_files fs !! _) as [f|]; [|intros [= <- <-]; eauto].
  destruct (Hg fs1) as [(fs2 & -> & Hf2 & Hn2)|(e & fs2 & -> & Hf2 & Hn2)].
  - destruct (decide _); [intros [= <- <-]; by rewrite Hf2, Hf1; eauto|].
    destruct (parse _ _); [destruct (decide _)|..]; intros [= <- <-]; rewrite Hf2, Hf1; eauto.
  - intros [= <- <-]. rewrite Hf2, Hf1. split; [done|]. left. auto.
Qed.

Lemma live_read w fs H M closed q rs k rec loc r fs' :
  live w fs H M closed q rs [] k → (rec, loc) ∈ placed (closed ++ [(q, rs)]) →
  reader_read loc fs = (r, fs') →
  fs_files fs' = fs_files fs ∧ (r = Ok (r_payload rec) ∨ is_ok r = false ∧ fs_faults fs ≠ []).
Proof.
  intros [[Hd _ _ _ Hw _] _ _ _ _ _] Hx Hr. apply reader_read_faults in Hr as [Hf Hr].
  split; [done|]. destruct Hr as [?| ->]; [by right|left]. rewrite app_nil_r in Hw.
  destruct (placed_reads (mkFs (fs_files fs) []) closed q rs k (rec, loc)) as [_ Hread]; [done..|].
  cbn [fst snd] in Hread. by rewrite Hread.
Qed.

Lemma live_files w fs fs' H M closed q rs pend k :
  live w fs H M closed q rs pend k → fs_files fs' = fs_files fs → live w fs' H M closed q rs pend k.
Proof. intros [[H1 H2 H3 H4 H5 H6] ? ? ? ? ?] Hf. split; try done. split; try done. by rewrite Hf. Qed.

(** ** Slots *)

Definition unpurged_in (purged : option LogId) (i : Z) : bool :=
  match purged with Some p => lid_index p <? i | None => true end.

(** What memory shows of a log. *)
Definition visible (l : Log) (purged : option LogId) (i : Z) : option bytes :=
  if unpurged_in purged i then log_entries l !! i else None.

(** The slot of entry [i] with payload [p]: [A] says what each arc holds. *)
Definition slot_holds (A : list bytes) (segs : list (Z * list Rec)) (i : Z) (p : bytes) (s : Slot) : Prop :=
  (∀ b, slot_bytes s = Some b → arc_data b = p ∧ A !! arc_id b = Some p) ∧
  (∀ loc, slot_loc s = Some loc → (mkRec KIND_ENTRY i p, loc) ∈ placed segs).

Definition slots_ok (A : list bytes) (segs : list (Z * list Rec)) (show : Z → option bytes) (es : gmap Z Slot)
    : Prop :=
  ∀ i, match es !! i with
       | Some s => ∃ p, show i = Some p ∧ slot_holds A segs i p s
       | None => show i = None
       end.

Definition arc_ok (A : list bytes) (a : Arc) : Prop := A !! arc_id a = Some (arc_data a).

Lemma slot_holds_grown A segs segs' i p s :
  (∀ loc, (mkRec KIND_ENTRY i p, loc) ∈ placed segs → (mkRec KIND_ENTRY i p, loc) ∈ placed segs') →
  slot_holds A segs i p s → slot_holds A segs' i p s.
Proof. intros Hs [H1 H2]. split; [done|]. auto. Qed.

Lemma slot_holds_more A A' segs i p s : A `prefix_of` A' → slot_holds A segs i p s → slot_holds A' segs i p s.
Proof.
  intros Hpre [H1 H2]. split; [|done]. intros b Hb. destruct (H1 b Hb) as [? Ha]. split; [done|].
  by eapply prefix_lookup_Some.
Qed.

Lemma slots_ok_placed A segs show l es :
  Forall (λ x, in_place segs x ∧ arc_ok A x.1.2) l → slots_ok A segs show es →
  slots_ok A segs show (foldl (λ es x, place_one x es) es l).
Proof.
  intros Hl. revert es. induction Hl as [|x l [Hx Ha] _ IH]; intros es Hok; [done|]. cbn. apply IH.
  intros i. specialize (Hok i). rewrite place_one_lookup. destruct (es !! i) as [[[b|] loc]|]; [|done|done].
  destruct (bool_decide (x.1.1 = i) && (arc_id b =? arc_id x.1.2)%nat) eqn:Hm; [|done].
  apply andb_true_iff in Hm as [<-%bool_decide_eq_true Hid%Nat.eqb_eq].
  destruct Hok as (p & Hp & H1 & H2). exists p. split; [done|]. split; [done|].
  intros loc' [= <-]. destruct (H1 b eq_refl) as [_ Hb]. unfold arc_ok in Ha. rewrite <- Hid, Hb in Ha.
  injection Ha as ->. exact Hx.
Qed.

Lemma slots_ok_evicted A segs show es es' :
  (∀ i, slot_evicted (es !! i) (es' !! i)) → slots_ok A segs show es → slots_ok A segs show es'.
Proof.
  intros He Hok i. specialize (He i). specialize (Hok i).
  destruct (es !! i) as [s|], (es' !! i) as [s'|]; try done.
  destruct He as [->|[-> _]]; [done|]. destruct Hok as (p & Hp & H1 & H2). exists p. split; [done|]. by split.
Qed.

Lemma slots_ok_place A segs show l m :
  mem_ok m → Forall (λ x, in_place segs x ∧ arc_ok A x.1.2) l → slots_ok A segs show (ws_entries m) →
  slots_ok A segs show (ws_entries (place l m)).
Proof.
  intros Hm Hl Hok. destruct (place_inv l m Hm) as (_ & Hev & _).
  eapply slots_ok_evicted; [exact Hev|]. by apply slots_ok_placed.
Qed.

Lemma placed_kept d closed closed' q rs i p loc :
  kept d closed closed' → d < i → (mkRec KIND_ENTRY i p, loc) ∈ placed (closed ++ [(q, rs)]) →
  (mkRec KIND_ENTRY i p, loc) ∈ placed (closed' ++ [(q, rs)]).
Proof.
  intros (gone & -> & Hg) Hi. rewrite <- app_assoc, placed_app, elem_of_app. intros [Hx|Hx]; [|done].
  exfalso. assert (mkRec KIND_ENTRY i p ∈ phys gone) as Hin.
  { unfold phys. rewrite <- placed_fst. by apply (list_elem_of_fmap_2 fst) in Hx. }
  specialize (Hg _ Hin eq_refl). cbn in Hg. lia.
Qed.
