(* ===== verification/WalTurn.v ===== *)
(** * Turns of the writer thread

    [wl_inv] ties the store's memory, its queue and its WAL together while
    the thread has not failed: memory shows what the records sent so far
    mean, and each slot's bytes or place hold its entry.  After a failure it
    keeps what was answered.  A turn keeps it. *)

From S2P Require Import Prelude Revision Record KvStore Lease Cache Auth Store.
From S2P Require Import SnapshotPolicy StateMachine LogStore SmDemo EntryCodec LogKv Wal WalCodec.
From S2P Require Import WalLog WalDisk WalOps WalRun WalCrash WalStore WalMem WalThread.

Section turn.
Context {E : Type}.

Definition cmd_ticket (c : Cmd) : option nat :=
  match cmd_done c with Some (DoneAppend _ t) | Some (DoneReply t) => Some t | None => None end.

(** ** Invariants *)

(** What is in the queue: [W] was written before it. *)
Record sends_ok (W Q : list Cmd) : Prop := {
  so_u64 : Forall (λ r, is_u64 (r_index r)) (recs (W ++ Q));
  so_sync c : c ∈ Q → cmd_drop_upto c ≠ None ∨ cmd_done c ≠ None → cmd_sync c = true;
  so_drop Q1 Q2 c d : Q = Q1 ++ Q2 → c ∈ Q1 → cmd_drop_upto c = Some d →
    ∃ p, purge_index (wal_log (recs (W ++ Q1))) = Some p ∧ d ≤ p
}.

Definition arcs_ok (A : list bytes) (Q : list Cmd) : Prop :=
  ∀ c k i a, c ∈ Q → (k, i, a) ∈ cmd_records c → arc_ok A a.

Definition at_most (p : Z) (o : option LogId) : Prop := ∃ id, o = Some id ∧ p ≤ lid_index id.

Record wl_live (W : list Cmd) (M : nat) (A : list bytes) (s : WalLog E) : Prop := {
  wv_log : ∃ closed q rs k, live (wl_wal s).1 (wl_wal s).2 (recs W) M closed q rs [] k ∧ q ≤ cmds_cost W ∧
    slots_ok A (closed ++ [(q, rs)])
      (visible (wal_log (recs (W ++ wl_queue s))) (ws_purged (wl_mem s))) (ws_entries (wl_mem s));
  wv_mem : mem_ok (wl_mem s);
  wv_arcs : length A = wl_arcs s;
  wv_queue : arcs_ok A (wl_queue s);
  wv_purge p : purge_index (wal_log (recs (W ++ wl_queue s))) = Some p → at_most p (ws_purged (wl_mem s));
  wv_pending id : ws_pending (wl_mem s) = Some id → at_most (lid_index id) (ws_purged (wl_mem s));
  wv_drops c d : c ∈ wl_queue s → cmd_drop_upto c = Some d → at_most d (ws_purged (wl_mem s));
  wv_sends : sends_ok W (wl_queue s)
}.

(** What was answered [Ok] is among the first [M] records. *)
Definition answered (W : list Cmd) (M : nat) (replies : gmap nat (result IoError ())) : Prop :=
  ∀ j c t, W !! j = Some c → cmd_ticket c = Some t → replies !! t = Some (Ok ()) →
    (length (recs (take (S j) W)) ≤ M)%nat.

Definition wl_inv (W : list Cmd) (s : WalLog E) : Prop :=
  ∃ M A, answered W M (wl_replies s) ∧
    match wl_failed s with
    | None => wl_live W M A s
    | Some _ => crash_ok (wl_wal s).2 (recs W) M
    end.

(** ** Answers *)

Lemma run_dones_same r cs : ∀ s : WalLog E,
  let s' := foldl (λ s c, run_done r c s) s cs in
  wl_mem s' = wl_mem s ∧ wl_queue s' = wl_queue s ∧ wl_wal s' = wl_wal s ∧ wl_failed s' = wl_failed s ∧
  wl_engine s' = wl_engine s ∧ wl_arcs s' = wl_arcs s ∧ wl_tickets s' = wl_tickets s.
Proof.
  induction cs as [|c cs IH]; intros s; [done|]. cbn. destruct (IH (run_done r c s)) as (-> & -> & -> & -> & -> & -> & ->).
  unfold run_done. by destruct (cmd_done c) as [[[]|]|].
Qed.

Lemma run_done_replies r c (s : WalLog E) :
  wl_replies (run_done r c s) = match cmd_ticket c with Some t => <[t := r]> (wl_replies s) | None => wl_replies s end.
Proof. unfold run_done, cmd_ticket. by destruct (cmd_done c) as [[last t0|t0]|]. Qed.

Lemma run_dones_replies r cs : ∀ (s : WalLog E) t,
  wl_replies (foldl (λ s c, run_done r c s) s cs) !! t = Some (Ok ()) →
  wl_replies s !! t = Some (Ok ()) ∧ (∀ c, c ∈ cs → cmd_ticket c ≠ Some t) ∨ r = Ok ().
Proof.
  induction cs as [|c cs IH]; intros s t; cbn.
  { left. split; [done|]. by intros c ?%elem_of_nil. }
  intros [[Ht Hn]|?]%IH; [|by right]. rewrite run_done_replies in Ht.
  destruct (cmd_ticket c) as [t'|] eqn:Htk.
  - apply lookup_insert_Some in Ht as [[_ ?]|[Hne Ht]]; [by right|left]. split; [done|].
    intros c' [->|Hc]%elem_of_cons; [congruence|by apply Hn].
  - left. split; [done|]. intros c' [->|Hc]%elem_of_cons; [congruence|by apply Hn].
Qed.

Lemma recs_take_length (W : list Cmd) j : (length (recs (take j W)) ≤ length (recs W))%nat.
Proof. rewrite <- (take_drop j W) at 2. rewrite recs_app, length_app. lia. Qed.

(** After a synced group everything written is covered. *)
Lemma answered_all W replies : answered W (length (recs W)) replies.
Proof. intros j c t _ _ _. apply recs_take_length. Qed.

(** Without new answers, nothing new is to be covered. *)
Lemma answered_more W X M replies :
  (∀ c, c ∈ X → cmd_ticket c = None) → answered W M replies → answered (W ++ X) M replies.
Proof.
  intros HX Ha j c t Hj Ht Hr. apply lookup_app_Some in Hj as [Hj|[Hge Hj]].
  - rewrite take_app_le by (apply lookup_lt_Some in Hj; lia). by eapply Ha.
  - apply list_elem_of_lookup_2, HX in Hj. congruence.
Qed.

Lemma answered_fewer W M M' replies replies' :
  (∀ t, replies' !! t = Some (Ok ()) → replies !! t = Some (Ok ())) → (M ≤ M')%nat →
  answered W M replies → answered W M' replies'.
Proof. intros Hr HM Ha j c t Hj Ht Ho. specialize (Ha j c t Hj Ht (Hr t Ho)). lia. Qed.

(** ** A turn *)

(** Deleting segments did not fail in this turn. *)
Definition turn_clean (n : nat) (s : WalLog E) : bool :=
  match wl_failed s with
  | Some _ => true
  | None =>
      match write_group (take n (wl_queue s)) (wl_wal s) with
      | (Ok (_, Some d), w) => is_ok (drop_segments_upto d w).1
      | _ => true
      end
  end.

Lemma group_drop_elem cs d :
  group_drop cs = Some d → ∃ c, c ∈ cs ∧ cmd_drop_upto c = Some d.
Proof.
  unfold group_drop. induction cs as [|c cs IH] using rev_ind; [done|]. rewrite foldl_app. cbn.
  unfold max_drop at 1. destruct (foldl _ None cs) as [x|] eqn:Hf, (cmd_drop_upto c) as [y|] eqn:Hc; intros Hd.
  - destruct (decide (x ≤ y)).
    + assert (d = y) as -> by (injection Hd; lia). exists c. split; [set_solver|done].
    + assert (d = x) as -> by (injection Hd; lia). destruct (IH eq_refl) as (c' & ? & ?). exists c'. set_solver.
  - injection Hd as ->. destruct (IH eq_refl) as (c' & ? & ?). exists c'. set_solver.
  - injection Hd as ->. exists c. set_solver.
  - done.
Qed.

Lemma group_sync_elem cs c : c ∈ cs → cmd_sync c = true → group_sync cs = true.
Proof. intros Hc Hs. unfold group_sync. apply existsb_exists. exists c. by rewrite <- list_elem_of_In. Qed.

Lemma sends_ok_turn W Q n : sends_ok W Q → sends_ok (W ++ take n Q) (drop n Q).
Proof.
  intros [Hu Hs Hd]. rewrite <- (take_drop n Q) in Hu. split.
  - by rewrite <- app_assoc.
  - intros c Hc. apply Hs. rewrite <- (take_drop n Q). set_solver.
  - intros Q1 Q2 c d HQ Hc Hdrop. rewrite <- app_assoc. eapply (Hd (take n Q ++ Q1) Q2 c); [|set_solver|done].
    rewrite <- app_assoc, <- HQ. by rewrite take_drop.
Qed.

(** What the thread has done before it answers. *)
Lemma turn_live W M A s n :
  wl_live W M A s → cmds_cost (W ++ wl_queue s) ≤ u64_max →
  let cmds := take n (wl_queue s) in
  match write_group cmds (wl_wal s) with
  | (Ok (pl, d), w) => ∃ M',
      (M ≤ M')%nat ∧ (group_sync cmds = true → M' = length (recs (W ++ cmds))) ∧
      crash_ok (drop_ignored d w).2 (recs (W ++ cmds)) M' ∧
      (match d with Some d => is_ok (drop_segments_upto d w).1 = true | None => True end →
       ∃ closed q rs k, live (drop_ignored d w).1 (drop_ignored d w).2 (recs (W ++ cmds)) M' closed q rs [] k ∧
         q ≤ cmds_cost (W ++ cmds) ∧
         slots_ok A (closed ++ [(q, rs)])
           (visible (wal_log (recs (W ++ wl_queue s))) (ws_purged (wl_mem s)))
           (ws_entries (match pl with [] => wl_mem s | _ => place pl (wl_mem s) end)))
  | (Err _, w) => crash_ok w.2 (recs (W ++ cmds)) M
  end.
Proof.
  intros [(closed & q & rs & k & Hlv & Hq & Hok) Hm _ Harc _ _ Hdrops Hso] Hcost cmds.
  destruct (wl_wal s) as [w fs]. cbn [fst snd] in *.
  assert (Forall (λ r, is_u64 (r_index r)) (recs cmds)) as Hu.
  { pose proof (so_u64 _ _ Hso) as Hu. rewrite <- (take_drop n (wl_queue s)), !recs_app, !Forall_app in Hu. tauto. }
  assert (q + cmds_cost cmds ≤ u64_max) as Hq'.
  { rewrite <- (take_drop n (wl_queue s)), !cmds_cost_app in Hcost.
    pose proof (cmds_cost_nonneg (drop n (wl_queue s))). subst cmds. lia. }
  destruct (write_group cmds (w, fs)) as [r [w1 fs1]] eqn:Hw.
  eapply write_group_inv in Hw; [|done|done|done]. rewrite recs_app. destruct r as [[pl d]|e]; [|done].
  destruct Hw as (c1 & q1 & rs1 & k1 & M1 & Hlv1 & Hq1 & Hg & Hpl & -> & HM & Hsync).
  exists M1. split; [done|]. split; [intros Hs; by apply Hsync|].
  assert (Forall (λ x, in_place (c1 ++ [(q1, rs1)]) x ∧ arc_ok A x.1.2) pl) as Hpl'.
  { eapply Forall_impl; [exact Hpl|]. intros x [Hx (c & Hc & Hr)]. split; [done|].
    eapply Harc; [|exact Hr]. subst cmds. by eapply elem_of_take_in. }
  assert (slots_ok A (c1 ++ [(q1, rs1)]) (visible (wal_log (recs (W ++ wl_queue s))) (ws_purged (wl_mem s)))
            (ws_entries (match pl with [] => wl_mem s | _ => place pl (wl_mem s) end))) as Hok1.
  { assert (slots_ok A (c1 ++ [(q1, rs1)]) (visible (wal_log (recs (W ++ wl_queue s))) (ws_purged (wl_mem s)))
              (ws_entries (wl_mem s))) as Hok0.
    { intros i. specialize (Hok i). destruct (ws_entries (wl_mem s) !! i) as [sl|]; [|done].
      destruct Hok as (p & Hp & Hh). exists p. split; [done|]. eapply slot_holds_grown; [|done].
      intros loc. apply Hg. }
    destruct pl; [done|]. by apply slots_ok_place. }
  rewrite <- recs_app in *.
  destruct (group_drop cmds) as [d|] eqn:Hd; cbn [drop_ignored].
  2:{ split; [by eapply live_crash_ok|]. intros _. exists c1, q1, rs1, k1. split_and!; try done.
      rewrite cmds_cost_app. lia. }
  apply group_drop_elem in Hd as (c & Hc & Hd).
  assert (c ∈ wl_queue s) as HcQ by (subst cmds; by eapply elem_of_take_in).
  assert (group_sync cmds = true) as Hgs.
  { eapply group_sync_elem; [done|]. eapply so_sync; [done|done|]. left. by rewrite Hd. }
  destruct (Hsync Hgs) as [-> ->].
  destruct (so_drop _ _ Hso cmds (drop n (wl_queue s)) c d) as (p & Hp & Hdp); [symmetry; apply take_drop|done|done|].
  destruct (drop_segments_upto d (w1, fs1)) as [r2 [w2 fs2]] eqn:Hdr. cbn [fst snd].
  eapply live_drop in Hdr; [|done|by exists p]. destruct r2 as [n2|e]; [|split; [done|by intros ?]].
  destruct Hdr as (c2 & Hlv2 & Hkept). split; [by eapply live_crash_ok|]. intros _.
  exists c2, q1, rs1, (length rs1). split_and!; [done|rewrite cmds_cost_app; lia|].
  intros i. specialize (Hok1 i). destruct (ws_entries _ !! i) as [sl|]; [|done].
  destruct Hok1 as (b & Hb & Hh). exists b. split; [done|]. eapply slot_holds_grown; [|exact Hh].
  intros loc. eapply placed_kept; [done|]. destruct (Hdrops c d HcQ Hd) as (id & Hid & Hle).
  unfold visible, unpurged_in in Hb. rewrite Hid in Hb. destruct (Z.ltb_spec (lid_index id) i); [lia|done].
Qed.

Lemma arcs_ok_drop A Q n : arcs_ok A Q → arcs_ok A (drop n Q).
Proof. intros Ha c k i a Hc. apply Ha. rewrite <- (take_drop n Q). set_solver. Qed.

Lemma place_same pl m :
  mem_ok m → ws_purged (place pl m) = ws_purged m ∧ ws_pending (place pl m) = ws_pending m.
Proof. intros Hm. destruct (place_inv pl m Hm) as (_ & _ & _ & _ & _ & _ & ? & ?). done. Qed.

Lemma no_tickets_unsynced W Q n c :
  sends_ok W Q → group_sync (take n Q) = false → c ∈ take n Q → cmd_ticket c = None.
Proof.
  intros Hso Hg Hc. destruct (cmd_done c) eqn:Hd; [|by unfold cmd_ticket; rewrite Hd].
  exfalso. rewrite (group_sync_elem (take n Q) c) in Hg; [done|done|].
  eapply so_sync; [done|by eapply elem_of_take_in|]. right. by rewrite Hd.
Qed.

(** An unanswered group adds nothing to cover. *)
Lemma answered_err W M e cs (s : WalLog E) :
  answered W M (wl_replies s) →
  answered (W ++ cs) M (wl_replies (foldl (λ s c, run_done (Err e) c s) s cs)).
Proof.
  intros Ha j c t Hj Ht [[Hr Hn]|?]%run_dones_replies; [|done].
  apply lookup_app_Some in Hj as [Hj|[Hge Hj]].
  - rewrite take_app_le by (apply lookup_lt_Some in Hj; lia). by eapply Ha.
  - exfalso. eapply Hn; [|exact Ht]. by eapply list_elem_of_lookup_2.
Qed.

Lemma answered_ok W M M' cs (s : WalLog E) :
  answered W M (wl_replies s) → (M ≤ M')%nat →
  (group_sync cs = true → M' = length (recs (W ++ cs))) →
  (group_sync cs = false → ∀ c, c ∈ cs → cmd_ticket c = None) →
  answered (W ++ cs) M' (wl_replies (foldl (λ s c, run_done (Ok ()) c s) s cs)).
Proof.
  intros Ha HM Hs Hns. destruct (group_sync cs) eqn:Hg; [rewrite Hs by done; apply answered_all|].
  assert (wl_replies (foldl (λ s c, run_done (Ok ()) c s) s cs) = wl_replies s) as ->.
  { specialize (Hns eq_refl). clear -Hns. revert s. induction cs as [|c cs IH]; intros s; [done|]. cbn.
    rewrite IH by set_solver. rewrite run_done_replies. by rewrite Hns by by left. }
  eapply answered_fewer; [done|exact HM|]. by apply answered_more; [apply Hns|].
Qed.

(** A turn keeps the invariant, if it could delete what it meant to; in any
    case a crash after it keeps what was answered. *)
Lemma turn_inv W s n :
  wl_inv W s → cmds_cost (W ++ wl_queue s) ≤ u64_max →
  let W' := W ++ take n (wl_queue s) in
  let s' := writer_turn n s in
  (∃ M, answered W' M (wl_replies s') ∧ crash_ok (wl_wal s').2 (recs W') M) ∧
  (turn_clean n s = true → wl_inv W' s').
Proof.
  intros (M & A & Ha & Hinv) Hcost W' s'. subst s'. unfold writer_turn, turn_clean. cbn zeta.
  cbn [wl_failed wl_wal wl_mem set_wal_state wl_queue].
  set (cmds := take n (wl_queue s)) in *.
  set (s0 := mkWalLog (wl_mem s) (drop n (wl_queue s)) (wl_wal s) (wl_failed s) (wl_engine s)
               (wl_committed_index s) (wl_progress s) (wl_arcs s) (wl_tickets s) (wl_replies s)).
  assert (∀ e s1, wl_failed s1 = Some e → wl_replies s1 = wl_replies s → crash_ok (wl_wal s1).2 (recs W') M →
            let s' := foldl (λ s c, run_done (Err e) c s) s1 cmds in
            (∃ M, answered W' M (wl_replies s') ∧ crash_ok (wl_wal s').2 (recs W') M) ∧ wl_inv W' s') as Hfail.
  { intros e s1 Hf1 Hr1 Hc1 s'. destruct (run_dones_same (Err e) cmds s1) as (_ & _ & Hw & Hf & _).
    assert (answered W' M (wl_replies s')) as Ha' by (apply answered_err; by rewrite Hr1).
    subst s'. split; [exists M; by rewrite Hw|]. exists M, A. split; [done|]. by rewrite Hf, Hf1, Hw. }
  destruct (wl_failed s) as [e|] eqn:Hf; cbn [wl_failed].
  { destruct (Hfail e s0) as [? ?]; [done|done| |done]. subst W'. rewrite recs_app. by apply crash_ok_more. }
  pose proof (turn_live W M A s n Hinv Hcost) as Ht. cbn zeta in Ht. fold cmds in Ht.
  destruct (write_group cmds (wl_wal s)) as [[[pl d]|e] w]; cbn [wl_failed set_wal_state on_mem pmodify snd wl_wal].
  2:{ destruct (Hfail e (set_wal_state w (Some e) s0)) as [? ?]; done. }
  destruct Ht as (M' & HM & Hs & Hcr & Hl).
  set (s1 := mkWalLog _ _ _ _ _ _ _ _ _ _).
  assert (answered W' M' (wl_replies (foldl (λ s c, run_done (Ok ()) c s) s1 cmds))) as Ha'.
  { eapply answered_ok; [exact Ha|done|done|]. intros Hg c Hc. by eapply no_tickets_unsynced; [apply (wv_sends _ _ _ _ Hinv)|..]. }
  destruct (run_dones_same (Ok ()) cmds s1) as (Hm' & Hq' & Hw' & Hf' & He' & Har' & _).
  split; [exists M'; by rewrite Hw'|]. intros Hclean. exists M', A. split; [done|]. rewrite Hf'. cbn [wl_failed s1].
  destruct Hinv as [_ Hm Har Hq Hp Hpe Hdr Hso].
  destruct Hl as (c1 & q1 & rs1 & k1 & Hlv1 & Hq1 & Hok1); [by destruct d|].
  assert (mem_ok (wl_mem s1)) as Hm1 by (cbn; destruct pl; [done|by apply place_ok]).
  assert (ws_purged (wl_mem s1) = ws_purged (wl_mem s) ∧ ws_pending (wl_mem s1) = ws_pending (wl_mem s)) as [Hpu1 Hpe1].
  { cbn. destruct pl; [done|by apply place_same]. }
  assert (W' ++ drop n (wl_queue s) = W ++ wl_queue s) as HW.
  { subst W'. rewrite <- app_assoc. subst cmds. by rewrite take_drop. }
  split; rewrite ?Hm', ?Hq', ?Hw', ?Har', ?Hpu1, ?Hpe1;
    change (wl_queue s1) with (drop n (wl_queue s)); rewrite ?HW; try done.
  - exists c1, q1, rs1, k1. split_and!; [done|done|]. by destruct pl.
  - by apply arcs_ok_drop.
  - intros c d' Hc. apply Hdr. rewrite <- (take_drop n (wl_queue s)). set_solver.
  - by apply sends_ok_turn.
Qed.
End turn.
