(* ===== verification/WalCalls.v ===== *)
(** * Calls of the store

    Every method of [WalLogStore] keeps [wl_inv], whatever the thread does
    in between: memory shows at once what the records it sends mean. *)

From S2P Require Import Prelude Revision Record KvStore Lease Cache Auth Store.
From S2P Require Import SnapshotPolicy StateMachine LogStore SmDemo EntryCodec LogKv Wal WalCodec.
From S2P Require Import WalLog WalDisk WalOps WalRun WalCrash WalStore WalMem WalThread WalTurn.

(** ** The meaning of what is sent *)

Lemma purge_index_step l r :
  purge_index (log_step l r) = if r_kind r =? KIND_PURGE then Some (r_index r) else purge_index l.
Proof.
  unfold log_step, purge_index. destruct (Z.eqb_spec (r_kind r) KIND_ENTRY) as [Hk|Hk].
  { rewrite Hk. cbn. destruct (log_meta l !! KIND_PURGE) as [[p b]|] eqn:Hp; [destruct (_ <=? _)|];
      cbn [log_meta]; by rewrite Hp. }
  destruct (Z.eqb_spec (r_kind r) KIND_TRUNCATE) as [Ht|Ht]; [by rewrite Ht|].
  destruct (Z.eqb_spec (r_kind r) KIND_PURGE) as [Hp|Hp]; cbn [log_meta].
  - by rewrite lookup_insert_eq.
  - by rewrite lookup_insert_ne.
Qed.

Lemma purge_index_from l rs :
  Forall (λ r, r_kind r ≠ KIND_PURGE) rs → purge_index (log_from l rs) = purge_index l.
Proof.
  intros Hr. revert l. induction Hr as [|r rs Hr _ IH]; intros l; [done|]. cbn. rewrite IH, purge_index_step.
  by rewrite (proj2 (Z.eqb_neq _ _) Hr).
Qed.

(** A value changes no entry. *)
Lemma visible_value l r purged i :
  r_kind r = KIND_VOTE ∨ r_kind r = KIND_COMMITTED → visible (log_step l r) purged i = visible l purged i.
Proof. intros Hk. unfold visible. by rewrite log_step_value. Qed.

Lemma visible_entry l r purged i :
  r_kind r = KIND_ENTRY → (∀ p, purge_index l = Some p → at_most p purged) →
  unpurged_in purged (r_index r) = true →
  visible (log_step l r) purged i =
    if decide (i = r_index r) then Some (r_payload r)
    else if decide (i < r_index r) then visible l purged i else None.
Proof.
  intros Hk Hp Hun. rewrite log_step_entry by done. cbv zeta.
  assert (unpurged l (r_index r) = true) as ->.
  { unfold unpurged. destruct (purge_index l) as [p|]; [|done]. destruct (Hp p eq_refl) as (id & -> & Hle).
    cbn in Hun. apply Z.ltb_lt in Hun. apply Z.ltb_lt. lia. }
  unfold visible. cbn [log_entries]. destruct (decide (i = r_index r)) as [->|Hne].
  - by rewrite Hun, lookup_insert_eq.
  - rewrite lookup_insert_ne, lookup_keep_below by done. repeat case_decide; by destruct (unpurged_in purged i).
Qed.

Lemma visible_truncate l r purged i :
  r_kind r = KIND_TRUNCATE →
  visible (log_step l r) purged i = if decide (i < r_index r) then visible l purged i else None.
Proof.
  intros Hk. unfold visible. rewrite log_step_truncate by done. cbn. rewrite lookup_keep_below.
  case_decide; by destruct (unpurged_in purged i).
Qed.

(** A purge memory has made already changes nothing it shows. *)
Lemma visible_purge l r purged i :
  r_kind r = KIND_PURGE → at_most (r_index r) purged → visible (log_step l r) purged i = visible l purged i.
Proof.
  intros Hk (id & -> & Hle). unfold visible. rewrite log_step_purge by done. cbn. rewrite lookup_keep_above.
  destruct (Z.ltb_spec (lid_index id) i); [|done]. by rewrite decide_True by lia.
Qed.

(** ** Slots after a call *)

Section slots.
Context (A : list bytes) (segs : list (Z * list Rec)).

Lemma slots_ok_ext (show show' : Z → option bytes) es :
  (∀ i, show' i = show i) → slots_ok A segs show es → slots_ok A segs show' es.
Proof. intros He Hok i. specialize (Hok i). by rewrite He. Qed.

Lemma slots_ok_more A' show es : A `prefix_of` A' → slots_ok A segs show es → slots_ok A' segs show es.
Proof.
  intros Hpre Hok i. specialize (Hok i). destruct (es !! i); [|done].
  destruct Hok as (p & Hp & Hh). exists p. split; [done|]. by eapply slot_holds_more.
Qed.

Lemma slots_ok_truncate show show' i m :
  (∀ j, show' j = if decide (j < i) then show j else None) →
  slots_ok A segs show (ws_entries m) → slots_ok A segs show' (ws_entries (remove_from i m)).
Proof.
  intros Hs Hok j. specialize (Hok j). cbn. rewrite lookup_keep_below, Hs. by case_decide.
Qed.

Lemma slots_ok_insert show show' i a m :
  (∀ j, show' j = if decide (j = i) then Some (arc_data a) else if decide (j < i) then show j else None) →
  arc_ok A a → slots_ok A segs show (ws_entries m) → slots_ok A segs show' (ws_entries (insert_slot i a m)).
Proof.
  intros Hs Ha Hok j. specialize (Hok j). cbn. rewrite Hs. destruct (decide (j = i)) as [->|Hne].
  - rewrite lookup_insert_eq. exists (arc_data a). split; [done|]. split; [|done]. by intros b [= <-].
  - rewrite lookup_insert_ne, lookup_keep_below by done. by case_decide.
Qed.

Lemma slots_ok_purge l m id :
  0 ≤ lid_index id < u64_max →
  slots_ok A segs (visible l (ws_purged m)) (ws_entries m) →
  slots_ok A segs (visible l (ws_purged (purge_mem id m))) (ws_entries (purge_mem id m)).
Proof.
  intros Hid Hok j. specialize (Hok j). unfold purge_mem. cbn. rewrite lookup_split_off, Z.min_l by lia.
  assert (visible l (if below_opt (ws_purged m) id then Some id else ws_purged m) j
          = if decide (lid_index id + 1 ≤ j) then visible l (ws_purged m) j else None) as ->.
  { unfold visible, unpurged_in, below_opt. destruct (ws_purged m) as [p|].
    - destruct (Z.ltb_spec (lid_index p) (lid_index id));
        [destruct (Z.ltb_spec (lid_index id) j), (Z.ltb_spec (lid_index p) j)|destruct (Z.ltb_spec (lid_index p) j)];
        case_decide; done || lia.
    - destruct (Z.ltb_spec (lid_index id) j); case_decide; done || lia. }
  by case_decide.
Qed.
End slots.

Lemma purge_mem_ok id m : mem_ok m → mem_ok (purge_mem id m).
Proof. intros Hm. destruct (remove_upto_ok (lid_index id) m Hm) as [H1 H2 H3]. by split. Qed.

Lemma purge_mem_at_most id m p : at_most p (ws_purged m) → at_most p (ws_purged (purge_mem id m)).
Proof.
  intros (x & Hx & Hle). unfold purge_mem. cbn. unfold below_opt. rewrite Hx.
  destruct (Z.ltb_spec (lid_index x) (lid_index id)); [exists id|exists x]; split; done || lia.
Qed.

Lemma purge_mem_covers id m : at_most (lid_index id) (ws_purged (purge_mem id m)).
Proof.
  unfold purge_mem. cbn. unfold below_opt. destruct (ws_purged m) as [p|]; [|by exists id].
  destruct (Z.ltb_spec (lid_index p) (lid_index id)); [by exists id|exists p; split; [done|lia]].
Qed.

Lemma sends_ok_snoc W Q c :
  sends_ok W Q → Forall (λ r, is_u64 (r_index r)) (cmd_recs c) →
  (cmd_drop_upto c ≠ None ∨ cmd_done c ≠ None → cmd_sync c = true) →
  (∀ d, cmd_drop_upto c = Some d → ∃ p, purge_index (wal_log (recs (W ++ Q ++ [c]))) = Some p ∧ d ≤ p) →
  (∀ p, purge_index (wal_log (recs (W ++ Q))) = Some p →
        ∃ p', purge_index (wal_log (recs (W ++ Q ++ [c]))) = Some p' ∧ p ≤ p') →
  sends_ok W (Q ++ [c]).
Proof.
  intros [Hu Hs Hd] Huc Hsc Hdc Hmono. split.
  - rewrite app_assoc, recs_app, Forall_app. split; [done|]. unfold recs. cbn. by rewrite app_nil_r.
  - intros c' [Hc| ->%list_elem_of_singleton]%elem_of_app; [by apply Hs|done].
  - intros Q1 Q2 c' d HQ Hc Hdrop. destruct Q2 as [|y Q2 _] using rev_ind.
    + rewrite app_nil_r in HQ. subst Q1. apply elem_of_app in Hc as [Hc| ->%list_elem_of_singleton]; [|by apply Hdc].
      destruct (Hd Q [] c' d) as (p & Hp & Hle); [by rewrite app_nil_r|done|done|].
      destruct (Hmono p Hp) as (p' & Hp' & ?). exists p'. split; [done|lia].
    + rewrite app_assoc in HQ. apply app_inj_tail in HQ as [HQ _]. by eapply (Hd Q1 Q2 c').
Qed.

(** ** Sending *)

Section calls.
Context {E : Type}.

(** The memory a call leaves. *)
Record mem_follows (l l' : Log) (A' : list bytes) (m m' : LogMem) : Prop := {
  mf_ok : mem_ok m';
  mf_slots segs : slots_ok A' segs (visible l (ws_purged m)) (ws_entries m) →
    slots_ok A' segs (visible l' (ws_purged m')) (ws_entries m');
  mf_purged p : at_most p (ws_purged m) → at_most p (ws_purged m');
  mf_purge p : purge_index l' = Some p → at_most p (ws_purged m');
  mf_pending id : ws_pending m' = Some id → at_most (lid_index id) (ws_purged m')
}.

Lemma live_send W M A A' (s s' : WalLog E) cs :
  wl_live W M A s → A `prefix_of` A' → length A' = wl_arcs s' →
  wl_wal s' = wl_wal s → wl_queue s' = wl_queue s ++ cs → arcs_ok A' cs →
  mem_follows (wal_log (recs (W ++ wl_queue s))) (wal_log (recs (W ++ wl_queue s'))) A' (wl_mem s) (wl_mem s') →
  (∀ c d, c ∈ cs → cmd_drop_upto c = Some d → at_most d (ws_purged (wl_mem s'))) →
  sends_ok W (wl_queue s') → wl_live W M A' s'.
Proof.
  intros [(closed & q & rs & k & Hlv & Hq & Hok) Hm Har Hqa Hp Hpe Hd Hso] Hpre HA Hw HQ Hcs
    [H1 H2 H3 H4 H5] Hdc Hso'.
  split; try done.
  - exists closed, q, rs, k. rewrite Hw. split_and!; [done|done|]. apply H2. by eapply slots_ok_more.
  - rewrite HQ. intros c kd i a [Hc|Hc]%elem_of_app Hr; [|by eapply Hcs].
    unfold arc_ok. eapply prefix_lookup_Some; [|done]. by eapply Hqa.
  - rewrite HQ. intros c d [Hc|Hc]%elem_of_app Hdr; [|by eapply Hdc]. by eapply H3, Hd.
Qed.

Lemma mem_follows_same l l' A' m :
  mem_ok m → (∀ i, visible l' (ws_purged m) i = visible l (ws_purged m) i) →
  (∀ p, purge_index l' = Some p → at_most p (ws_purged m)) →
  (∀ id, ws_pending m = Some id → at_most (lid_index id) (ws_purged m)) →
  mem_follows l l' A' m m.
Proof. intros Hm Hv Hp Hpe. split; try done. intros segs. by apply slots_ok_ext. Qed.

(** A command with one value, and its ticket or none. *)
Definition value_cmd (c : Cmd) : Prop :=
  ∃ k a, cmd_records c = [(k, 0, a)] ∧ (k = KIND_VOTE ∨ k = KIND_COMMITTED) ∧ cmd_drop_upto c = None ∧
         (cmd_done c ≠ None → cmd_sync c = true).

Lemma recs_snoc W Q c : recs (W ++ Q ++ [c]) = recs (W ++ Q) ++ cmd_recs c.
Proof. rewrite app_assoc, recs_app. f_equal. unfold recs. cbn. by rewrite app_nil_r. Qed.

Lemma live_value W M A (s s' : WalLog E) c b :
  wl_live W M A s → wl_wal s' = wl_wal s → wl_queue s' = wl_queue s ++ [c] → wl_mem s' = wl_mem s ∨
    (∃ v, wl_mem s' = set_ws_committed v (wl_mem s)) →
  wl_arcs s' = S (wl_arcs s) → value_cmd c → (∀ k i a, (k, i, a) ∈ cmd_records c → a = mkArc (wl_arcs s) b) →
  wl_live W M (A ++ [b]) s'.
Proof.
  intros Hlv Hw HQ Hmem Har (k & a & Hrec & Hk & Hdr & Hsy) Harc.
  assert (cmd_recs c = [mkRec k 0 (arc_data a)]) as Hcr by (unfold cmd_recs; by rewrite Hrec).
  assert (∀ l, purge_index (log_from l (cmd_recs c)) = purge_index l) as Hpi.
  { intros l. apply purge_index_from. rewrite Hcr. constructor; [|constructor]. by destruct Hk as [-> | ->]. }
  assert (ws_purged (wl_mem s') = ws_purged (wl_mem s) ∧ ws_pending (wl_mem s') = ws_pending (wl_mem s) ∧
          ws_entries (wl_mem s') = ws_entries (wl_mem s) ∧ mem_ok (wl_mem s')) as (Hpu & Hpe & Hen & Hok).
  { pose proof (wv_mem _ _ _ _ Hlv) as Hm. destruct Hmem as [->|[v ->]]; [done|]. by destruct Hm; repeat split. }
  eapply live_send; [exact Hlv|by apply prefix_app_r|by rewrite length_app, (wv_arcs _ _ _ _ Hlv), Har; cbn; lia|done|done|..].
  - intros c' kd i a' ->%list_elem_of_singleton Hr. rewrite (Harc kd i a' Hr). unfold arc_ok. cbn.
    rewrite <- (wv_arcs _ _ _ _ Hlv). by rewrite lookup_app_r, Nat.sub_diag by lia.
  - rewrite HQ, recs_snoc, wal_log_app. split; rewrite ?Hpu, ?Hpe, ?Hen; try done.
    + intros segs. apply slots_ok_ext. intros i. rewrite Hcr. by apply visible_value.
    + intros p. rewrite Hpi. apply (wv_purge _ _ _ _ Hlv).
    + apply (wv_pending _ _ _ _ Hlv).
  - intros c' d ->%list_elem_of_singleton. by rewrite Hdr.
  - rewrite HQ. apply sends_ok_snoc; [apply (wv_sends _ _ _ _ Hlv)| |..].
    + rewrite Hcr. constructor; [|constructor]. cbn. unfold is_u64, two64. lia.
    + rewrite Hdr. intros [?|?]; [done|by apply Hsy].
    + by rewrite Hdr.
    + intros p Hp. exists p. by rewrite recs_snoc, wal_log_app, Hpi.
Qed.

(** ** Entries *)

Definition put_slots (xs : list (Z * Arc)) (m : LogMem) : LogMem := foldl (λ m x, insert_slot x.1 x.2 m) m xs.
Definition entry_recs (xs : list (Z * Arc)) : list (Z * Z * Arc) := (λ x, (KIND_ENTRY, x.1, x.2)) <$> xs.

Lemma put_slots_same xs m :
  ws_purged (put_slots xs m) = ws_purged m ∧ ws_pending (put_slots xs m) = ws_pending m.
Proof. revert m. induction xs as [|x xs IH]; intros m; [done|]. exact (IH (insert_slot x.1 x.2 m)). Qed.

Lemma put_slots_ok xs m : mem_ok m → mem_ok (put_slots xs m).
Proof. revert m. induction xs as [|x xs IH]; intros m Hm; [done|]. cbn. by apply IH, insert_slot_ok. Qed.

Lemma slots_ok_entries A segs xs : ∀ l m,
  (∀ x, x ∈ xs → arc_ok A x.2 ∧ unpurged_in (ws_purged m) x.1 = true) →
  (∀ p, purge_index l = Some p → at_most p (ws_purged m)) →
  slots_ok A segs (visible l (ws_purged m)) (ws_entries m) →
  slots_ok A segs (visible (log_from l ((λ x, mkRec KIND_ENTRY x.1 (arc_data x.2)) <$> xs)) (ws_purged m))
    (ws_entries (put_slots xs m)).
Proof.
  induction xs as [|x xs IH]; intros l m Hx Hp Hok; [done|]. rewrite fmap_cons.
  change (put_slots (x :: xs) m) with (put_slots xs (insert_slot x.1 x.2 m)).
  change (log_from l (?a :: ?b)) with (log_from (log_step l a) b).
  destruct (Hx x) as [Ha Hu]; [by left|]. apply (IH _ (insert_slot x.1 x.2 m)).
  - intros y Hy. apply Hx. by right.
  - intros p. rewrite purge_index_step. cbn. apply Hp.
  - eapply slots_ok_insert; [|done|exact Hok]. intros j.
    by rewrite (visible_entry l (mkRec KIND_ENTRY x.1 (arc_data x.2))) by done.
Qed.

Lemma live_entries W M A A' (s s' : WalLog E) xs c :
  wl_live W M A s → A `prefix_of` A' → length A' = wl_arcs s' → wl_wal s' = wl_wal s →
  wl_queue s' = wl_queue s ++ [c] → cmd_records c = entry_recs xs → cmd_drop_upto c = None → cmd_sync c = true →
  wl_mem s' = put_slots xs (wl_mem s) →
  (∀ x, x ∈ xs → arc_ok A' x.2 ∧ unpurged_in (ws_purged (wl_mem s)) x.1 = true ∧ is_u64 x.1) →
  wl_live W M A' s'.
Proof.
  intros Hlv Hpre HA Hw HQ Hrec Hdr Hsy Hmem Hx.
  assert (cmd_recs c = (λ x, mkRec KIND_ENTRY x.1 (arc_data x.2)) <$> xs) as Hcr.
  { unfold cmd_recs. rewrite Hrec. unfold entry_recs. rewrite <- list_fmap_compose. done. }
  assert (∀ l, purge_index (log_from l (cmd_recs c)) = purge_index l) as Hpi.
  { intros l. apply purge_index_from. rewrite Hcr. apply Forall_fmap, Forall_forall. done. }
  destruct (put_slots_same xs (wl_mem s)) as [Hpu Hpe].
  eapply live_send; [exact Hlv|done|done|done|done|..].
  - intros c' kd i a ->%list_elem_of_singleton Hr. rewrite Hrec in Hr. unfold entry_recs in Hr.
    apply list_elem_of_fmap in Hr as (x & [= -> -> ->] & Hin). by apply Hx.
  - rewrite HQ, recs_snoc, wal_log_app, Hmem. split; rewrite ?Hpu, ?Hpe; try done.
    + apply put_slots_ok, (wv_mem _ _ _ _ Hlv).
    + intros segs Hok. rewrite Hcr. apply slots_ok_entries; [|apply (wv_purge _ _ _ _ Hlv)|done].
      intros x Hin. by destruct (Hx x Hin) as (? & ? & ?).
    + intros p. rewrite Hpi. apply (wv_purge _ _ _ _ Hlv).
    + apply (wv_pending _ _ _ _ Hlv).
  - intros c' d ->%list_elem_of_singleton. by rewrite Hdr.
  - rewrite HQ. apply sends_ok_snoc; [apply (wv_sends _ _ _ _ Hlv)|..].
    + rewrite Hcr. apply Forall_fmap, Forall_forall. intros x Hin. by destruct (Hx x Hin) as (? & ? & ?).
    + done.
    + by rewrite Hdr.
    + intros p Hp. exists p. by rewrite recs_snoc, wal_log_app, Hpi.
Qed.

(** ** Truncations and purges *)

Lemma live_truncate W M A (s s' : WalLog E) i c t :
  wl_live W M A s → is_u64 i → wl_wal s' = wl_wal s → wl_arcs s' = S (wl_arcs s) →
  c = mkCmd [(KIND_TRUNCATE, i, mkArc (wl_arcs s) [])] true None (Some (DoneReply t)) →
  wl_queue s' = wl_queue s ++ [c] → wl_mem s' = remove_from i (wl_mem s) →
  wl_live W M (A ++ [[]]) s'.
Proof.
  intros Hlv Hi Hw Har Hc HQ Hmem.
  assert (∀ l, purge_index (log_from l (cmd_recs c)) = purge_index l) as Hpi.
  { intros l. apply purge_index_from. subst c. by repeat constructor. }
  eapply live_send; [exact Hlv|by apply prefix_app_r|by rewrite length_app, (wv_arcs _ _ _ _ Hlv), Har; cbn; lia|done|done|..].
  - intros c' kd j a ->%list_elem_of_singleton. rewrite Hc. cbn. intros [= -> -> ->]%list_elem_of_singleton.
    unfold arc_ok. cbn. rewrite <- (wv_arcs _ _ _ _ Hlv). by rewrite lookup_app_r, Nat.sub_diag by lia.
  - rewrite HQ, recs_snoc, wal_log_app, Hmem. split; try done.
    + apply remove_from_ok, (wv_mem _ _ _ _ Hlv).
    + intros segs Hok. eapply slots_ok_truncate; [|exact Hok]. intros j. subst c. by apply visible_truncate.
    + intros p. rewrite Hpi. apply (wv_purge _ _ _ _ Hlv).
    + apply (wv_pending _ _ _ _ Hlv).
  - intros c' d ->%list_elem_of_singleton. by rewrite Hc.
  - rewrite HQ. apply sends_ok_snoc; [apply (wv_sends _ _ _ _ Hlv)|..].
    + subst c. constructor; [done|constructor].
    + by subst c.
    + by subst c.
    + intros p Hp. exists p. by rewrite recs_snoc, wal_log_app, Hpi.
Qed.

(** Purged in memory only. *)
Lemma live_purge_mem W M A (s s' : WalLog E) id :
  wl_live W M A s → 0 ≤ lid_index id < u64_max → wl_wal s' = wl_wal s → wl_arcs s' = wl_arcs s →
  wl_queue s' = wl_queue s → wl_mem s' = purge_mem id (wl_mem s) → wl_live W M A s'.
Proof.
  intros Hlv Hid Hw Har HQ Hmem.
  eapply (live_send _ _ _ _ _ _ []); [exact Hlv|done|by rewrite Har, (wv_arcs _ _ _ _ Hlv)|done|by rewrite app_nil_r| |..].
  - by intros ? ? ? ? ?%elem_of_nil.
  - rewrite HQ, Hmem. split.
    + apply purge_mem_ok, (wv_mem _ _ _ _ Hlv).
    + intros segs. by apply slots_ok_purge.
    + intros p. apply purge_mem_at_most.
    + intros p Hp. apply purge_mem_at_most. by apply (wv_purge _ _ _ _ Hlv).
    + intros id'. unfold purge_mem at 1. cbn. destruct (below_opt (ws_pending (wl_mem s)) id).
      * intros [= ->]. apply purge_mem_covers.
      * intros Hpe. by apply purge_mem_at_most, (wv_pending _ _ _ _ Hlv).
  - by intros ? ? ?%elem_of_nil.
  - rewrite HQ. apply (wv_sends _ _ _ _ Hlv).
Qed.

(** A purge recorded after memory has made it, and not behind a later one. *)
Lemma live_purge_send W M A (s s' : WalLog E) i b c t :
  wl_live W M A s → is_u64 i → at_most i (ws_purged (wl_mem s)) →
  (∀ p, purge_index (wal_log (recs (W ++ wl_queue s))) = Some p → p ≤ i) →
  wl_wal s' = wl_wal s → wl_arcs s' = S (wl_arcs s) →
  c = mkCmd [(KIND_PURGE, i, mkArc (wl_arcs s) b)] true (Some i) (Some (DoneReply t)) →
  wl_queue s' = wl_queue s ++ [c] → wl_mem s' = wl_mem s →
  wl_live W M (A ++ [b]) s'.
Proof.
  intros Hlv Hi Hat Hmono Hw Har Hc HQ Hmem.
  assert (∀ l, purge_index (log_from l (cmd_recs c)) = Some i) as Hpi.
  { intros l. subst c. change (purge_index (log_step l (mkRec KIND_PURGE i b)) = Some i). by rewrite purge_index_step. }
  eapply live_send; [exact Hlv|by apply prefix_app_r|by rewrite length_app, (wv_arcs _ _ _ _ Hlv), Har; cbn; lia|done|done|..].
  - intros c' kd j a ->%list_elem_of_singleton. rewrite Hc. cbn. intros [= -> -> ->]%list_elem_of_singleton.
    unfold arc_ok. cbn. rewrite <- (wv_arcs _ _ _ _ Hlv). by rewrite lookup_app_r, Nat.sub_diag by lia.
  - rewrite HQ, recs_snoc, wal_log_app, Hmem. apply mem_follows_same.
    + apply (wv_mem _ _ _ _ Hlv).
    + intros j. subst c. by apply visible_purge.
    + intros p. rewrite Hpi. by intros [= <-].
    + apply (wv_pending _ _ _ _ Hlv).
  - intros c' d ->%list_elem_of_singleton. rewrite Hc, Hmem. by intros [= <-].
  - rewrite HQ. apply sends_ok_snoc; [apply (wv_sends _ _ _ _ Hlv)|..].
    + subst c. constructor; [done|constructor].
    + by subst c.
    + intros d Hd. exists i. rewrite recs_snoc, wal_log_app, Hpi. split; [done|]. rewrite Hc in Hd. injection Hd as <-. done.
    + intros p Hp. exists i. rewrite recs_snoc, wal_log_app, Hpi. split; [done|by apply Hmono].
Qed.
End calls.
