(* ===== verification/WalEvents.v ===== *)
(** * Runs of the WAL-backed log

    The calls of openraft and of the checkpointer, the turns of the writer
    thread and the commits of the state machine, in any order. *)

From S2P Require Import Prelude Revision Record KvStore Lease Cache Auth Store.
From S2P Require Import SnapshotPolicy StateMachine LogStore SmDemo EntryCodec LogKv Wal WalCodec.
From S2P Require Import WalLog WalDisk WalOps WalRun WalCrash WalStore WalMem WalThread WalTurn WalCalls.

Section events.
Context {E : Type} `{KvStoreLaws E} `{!DurableStore E} `{!DurableLaws E} {Mb : Type}.
Context `{BincodeLaws (Entry Mb)} `{BincodeLaws Vote} `{BincodeLaws LogId} `{BincodeLaws (option LogId)}.

Inductive WlEvent :=
| WvAppend (entries : list (Entry Mb))
| WvCommitted (c : option LogId)
| WvVote (v : Vote)
| WvVoted (v : Vote) (b : bytes) (t : nat)
| WvTruncate (log_id : LogId)
| WvTruncated (log_id : LogId) (t : nat)
| WvPurge (log_id : LogId)
| WvPurged (log_id : LogId) (t : nat)
| WvCheckpoint (durable : option Z) (target : Z) (purge : option LogId)
| WvWriter (n : nat)
| WvData (e : E).

Definition ev_step (ev : WlEvent) (s : WalLog E) : WalLog E :=
  match ev with
  | WvAppend entries => (wl_append entries s).2
  | WvCommitted c => (wl_save_committed c s).2
  | WvVote v => (wl_save_vote_send v s).2
  | WvVoted v b t => (wl_save_vote_done v b t s).2
  | WvTruncate log_id => (wl_truncate_send log_id s).2
  | WvTruncated log_id t => (wl_truncate_done log_id t s).2
  | WvPurge log_id => (wl_purge_send log_id s).2
  | WvPurged log_id t => (complete_purge_done log_id t s).2
  | WvCheckpoint durable target purge => (checkpoint_send durable target purge s).2
  | WvWriter n => writer_turn (Nat.min n GROUP_MAX) s
  | WvData e => set_engine e s
  end.

(** The commands the thread takes. *)
Definition taken (ev : WlEvent) (s : WalLog E) : list Cmd :=
  match ev with WvWriter n => take (Nat.min n GROUP_MAX) (wl_queue s) | _ => [] end.

(** The applied index in the data file. *)
Definition data_applied (ts : Tables) : Z :=
  next_index (default None (ts !! (TABLE_META, META_KEY_RAFT_APPLIED) ≫= deserialize)).

(** The purge last sent to the WAL. *)
Definition recorded (W : list Cmd) (s : WalLog E) : option Z := purge_index (wal_log (recs (W ++ wl_queue s))).

(** What openraft and the state machine keep to: entries are above what was
    purged; only what is applied is purged; the data file moves forward.  A
    checkpoint completes a purge it has seen, and not one older than another
    that was completed meanwhile. *)
Definition admissible (W : list Cmd) (ev : WlEvent) (s : WalLog E) : Prop :=
  match ev with
  | WvAppend entries => Forall (λ e, 0 ≤ entry_index e < u64_max ∧
                                     unpurged_in (ws_purged (wl_mem s)) (entry_index e) = true) entries
  | WvTruncate log_id => is_u64 (lid_index log_id)
  | WvPurge log_id => 0 ≤ lid_index log_id < u64_max ∧ lid_index log_id < data_applied (contents (wl_engine s))
  | WvCheckpoint _ _ (Some p) =>
      is_u64 (lid_index p) ∧ at_most (lid_index p) (ws_purged (wl_mem s)) ∧
      lid_index p < data_applied (contents (wl_engine s)) ∧ ∀ r, recorded W s = Some r → r ≤ lid_index p
  | WvWriter n => turn_clean (Nat.min n GROUP_MAX) s = true
  | WvData e => data_applied (contents (wl_engine s)) ≤ data_applied (contents e) ∧
                data_applied (durable (wl_engine s)) ≤ data_applied (durable e) ≤ data_applied (contents e)
  | _ => True
  end.

Lemma encode_or_ok {A} `{BincodeLaws A} (a : A) : encode_or a = Ok (default [] (serialize a)).
Proof. unfold encode_or. by destruct (serialize_ok a) as [b ->]. Qed.

(** ** One event *)

(** What stays when an event only sends. *)
Lemma live_quiet W M A (s s' : WalLog E) :
  wl_live W M A s → wl_wal s' = wl_wal s → wl_queue s' = wl_queue s → wl_arcs s' = wl_arcs s →
  ws_entries (wl_mem s') = ws_entries (wl_mem s) → ws_cached (wl_mem s') = ws_cached (wl_mem s) →
  ws_cursor (wl_mem s') = ws_cursor (wl_mem s) → ws_purged (wl_mem s') = ws_purged (wl_mem s) →
  (∀ id, ws_pending (wl_mem s') = Some id → at_most (lid_index id) (ws_purged (wl_mem s))) →
  wl_live W M A s'.
Proof.
  intros [Hl [Hm1 Hm2 Hm3] Ha Hq Hp Hpe Hd Hso] Hw HQ HA He Hc Hcu Hpu Hpend.
  split; rewrite ?Hw, ?HQ, ?HA, ?He, ?Hpu; try done. split; by rewrite ?He, ?Hc, ?Hcu.
Qed.

Lemma wl_append_loop_run entries : ∀ records last (s : WalLog E),
  ∃ s' xs last', wl_append_loop entries records last s = (Ok (records ++ entry_recs xs, last'), s') ∧
    wl_mem s' = put_slots xs (wl_mem s) ∧ wl_queue s' = wl_queue s ∧ wl_wal s' = wl_wal s ∧
    wl_failed s' = wl_failed s ∧ wl_engine s' = wl_engine s ∧ wl_replies s' = wl_replies s ∧
    wl_arcs s' = (wl_arcs s + length entries)%nat ∧ wl_tickets s' = wl_tickets s ∧
    xs = imap (λ k e, (entry_index e, mkArc (wl_arcs s + k) (default [] (serialize e)))) entries.
Proof.
  induction entries as [|e entries IH]; intros records last s; cbn [wl_append_loop].
  { exists s, [], last. cbn. rewrite app_nil_r, Nat.add_0_r. done. }
  unfold pbind, on_progress, plift, new_arc, on_mem, pmodify. rewrite encode_or_ok. cbv beta iota zeta.
  match goal with |- context [wl_append_loop entries ?r ?l ?s1] =>
    destruct (IH r l s1) as (s' & xs & last' & Hrun & Hm & Hq & Hw & Hf & He & Hr & Ha & Ht & Hxs) end.
  rewrite Hrun.
  exists s', ((entry_index e, mkArc (wl_arcs s) (default [] (serialize e))) :: xs), last'.
  split_and!; try done.
  - cbn. by rewrite <- app_assoc.
  - cbn in Ha. cbn. lia.
  - rewrite imap_cons, Nat.add_0_r, Hxs. cbn [wl_arcs]. f_equal. apply imap_ext. intros k x _. cbn. f_equal. f_equal. lia.
Qed.

(** An event that is no turn answers nothing and leaves the WAL alone. *)
Lemma ev_frame ev (s : WalLog E) :
  (∀ n, ev ≠ WvWriter n) →
  wl_wal (ev_step ev s) = wl_wal s ∧ wl_failed (ev_step ev s) = wl_failed s ∧
  wl_replies (ev_step ev s) = wl_replies s.
Proof.
  intros Hn. destruct ev as [es|c|v|v b t|id|id t|id|id t|d tg p|n|e]; cbn [ev_step]; try done.
  - unfold wl_append, pbind. destruct (wl_append_loop_run es [] None s)
      as (s' & xs & last' & -> & _ & _ & Hw & Hf & _ & Hr & _). done.
  - unfold wl_save_committed, pbind, on_mem, pmodify, plift. rewrite encode_or_ok. by destruct c.
  - unfold wl_save_vote_send, pbind, plift. by rewrite encode_or_ok.
  - unfold wl_save_vote_done, answer, pbind. destruct (wl_replies s !! t) as [[[]|]|]; try done.
    unfold mirror, on_progress, on_mem, pmodify. by destruct (commit _ _ _).
  - unfold wl_truncate_done, answer, pbind. by destruct (wl_replies s !! t) as [[[]|]|].
  - unfold wl_purge_send, pbind, pget, on_mem, pmodify, plift. rewrite encode_or_ok. unfold mirror.
    destruct (commit _ _ _) as [r e']. destruct (match last_index (wl_mem s) with Some l => _ | None => _ end); [|done].
    unfold sync_engine. destruct (engine_sync _) as [[]]; [|done].
    unfold complete_purge_send, pbind, plift. by rewrite encode_or_ok.
  - unfold complete_purge_done, answer, pbind. by destruct (wl_replies s !! t) as [[[]|]|].
  - unfold checkpoint_send, sync_engine. destruct (engine_sync _) as [[] e']; [|done].
    destruct p as [p|]; [|done]. destruct (_ <? _); [|done].
    unfold complete_purge_send, pbind, plift. by rewrite encode_or_ok.
  - by destruct (Hn n).
Qed.

Lemma imap_arcs_ok (A : list bytes) (es : list (Entry Mb)) n x :
  length A = n → x ∈ imap (λ k e, (entry_index e, mkArc (n + k) (default [] (serialize e)))) es →
  arc_ok (A ++ ((λ e, default [] (serialize e)) <$> es)) x.2 ∧ ∃ e, e ∈ es ∧ x.1 = entry_index e.
Proof.
  intros Hn (k & Hk)%list_elem_of_lookup_1. rewrite list_lookup_imap in Hk. destruct (es !! k) as [e|] eqn:He; [|done].
  injection Hk as <-. split; [|exists e; split; [by eapply list_elem_of_lookup_2|done]].
  unfold arc_ok. cbn. rewrite lookup_app_r by lia. rewrite list_lookup_fmap.
  replace (n + k - length A)%nat with k by lia. by rewrite He.
Qed.

Lemma live_append_ev W M A (s : WalLog E) es :
  wl_live W M A s → admissible W (WvAppend es) s → ∃ A', wl_live W M A' (ev_step (WvAppend es) s).
Proof.
  intros Hlv Had. cbn [ev_step]. unfold wl_append, pbind.
  destruct (wl_append_loop_run es [] None s) as (s' & xs & last' & -> & Hm & Hq & Hw & Hf & He & Hr & Ha & Ht & Hxs).
  cbn in Had. rewrite Forall_forall in Had.
  exists (A ++ ((λ e, default [] (serialize e)) <$> es)).
  eapply (live_entries _ _ _ _ _ _ xs); [exact Hlv|by apply prefix_app_r| |exact Hw|cbn; by rewrite Hq|done|done|done|exact Hm|].
  - cbn. rewrite length_app, length_fmap, Ha. by rewrite (wv_arcs _ _ _ _ Hlv).
  - intros x Hx. rewrite Hxs in Hx. apply imap_arcs_ok with (A := A) in Hx as (Hok & e & Hin & ->); [|apply (wv_arcs _ _ _ _ Hlv)].
    destruct (Had e Hin) as [Hu Hun]. split_and!; [done|done|]. unfold is_u64, u64_max, two64 in *. lia.
Qed.

(** Past the last entry, a purge is past every purge before it. *)
Lemma hole_above (s : WalLog E) W M A id p :
  wl_live W M A s → match last_index (wl_mem s) with Some l => l <? lid_index id | None => true end = true →
  at_most p (ws_purged (wl_mem s)) → p ≤ lid_index id.
Proof.
  intros Hlv Hh (x & Hx & Hle). unfold last_index in Hh. rewrite Hx in Hh.
  destruct (last (by_index (ws_entries (wl_mem s)))) as [[i sl]|] eqn:Hl; cbn in Hh; [|lia].
  assert (ws_entries (wl_mem s) !! i = Some sl) as Hi.
  { apply by_index_elem. rewrite last_lookup in Hl. by eapply list_elem_of_lookup_2. }
  destruct (wv_log _ _ _ _ Hlv) as (c & q & rs & k & _ & _ & Hok). specialize (Hok i). rewrite Hi in Hok.
  destruct Hok as (b & Hb & _). unfold visible, unpurged_in in Hb. rewrite Hx in Hb.
  destruct (Z.ltb_spec (lid_index x) i); [lia|done].
Qed.

Lemma live_purge_ev W M A (s : WalLog E) id :
  wl_live W M A s → admissible W (WvPurge id) s → ∃ A', wl_live W M A' (ev_step (WvPurge id) s).
Proof.
  intros Hlv [Hid _]. cbn [ev_step]. unfold wl_purge_send, pbind, pget, on_mem, pmodify, plift.
  rewrite encode_or_ok. unfold mirror. destruct (commit _ _ _) as [r e'].
  set (s1 := set_engine e' _).
  assert (wl_live W M A s1) as Hlv1 by by eapply live_purge_mem.
  destruct (match last_index (wl_mem s) with Some l => _ | None => _ end) eqn:Hh; [|by exists A].
  unfold sync_engine. destruct (engine_sync (wl_engine s1)) as [[[]|x] e2]; [|exists A; by eapply live_quiet; [exact Hlv1|..]; try done; apply (wv_pending _ _ _ _ Hlv1)].
  unfold complete_purge_send, pbind, plift. rewrite encode_or_ok. cbn [snd].
  exists (A ++ [default [] (serialize id)]).
  eapply (live_purge_send W M A s1); [exact Hlv1|..|reflexivity|reflexivity|reflexivity|reflexivity|reflexivity].
  - unfold is_u64, u64_max, two64 in *. lia.
  - apply purge_mem_covers.
  - intros p Hp. eapply hole_above; [exact Hlv|exact Hh|]. by apply (wv_purge _ _ _ _ Hlv).
Qed.

Lemma live_checkpoint_ev W M A (s : WalLog E) d tg p :
  wl_live W M A s → admissible W (WvCheckpoint d tg p) s → ∃ A', wl_live W M A' (ev_step (WvCheckpoint d tg p) s).
Proof.
  intros Hlv Had. cbn [ev_step]. unfold checkpoint_send, sync_engine.
  assert (∀ e, wl_live W M A (set_engine e s)) as Hq.
  { intros e. eapply live_quiet; [exact Hlv|..]; try done. apply (wv_pending _ _ _ _ Hlv). }
  destruct (engine_sync _) as [[] e']; [|exists A; apply Hq]. destruct p as [p|]; [|exists A; apply Hq].
  destruct (_ <? _); [|exists A; apply Hq]. unfold complete_purge_send, pbind, plift. rewrite encode_or_ok. cbn [snd].
  destruct Had as (Hu & Hat & _ & Hrec). exists (A ++ [default [] (serialize p)]).
  eapply (live_purge_send W M A (set_engine e' s)); [apply Hq|done|done|done|reflexivity..].
Qed.

Lemma ev_live W M A (s : WalLog E) ev :
  wl_live W M A s → admissible W ev s → (∀ n, ev ≠ WvWriter n) → ∃ A', wl_live W M A' (ev_step ev s).
Proof.
  intros Hlv Had Hn. pose proof (wv_pending _ _ _ _ Hlv) as Hpe.
  destruct ev as [es|c|v|v b t|id|id t|id|id t|d tg p|n|e].
  - by apply (live_append_ev W M A).
  - cbn [ev_step]. unfold wl_save_committed, pbind, on_mem, pmodify, plift. rewrite encode_or_ok.
    exists (A ++ [default [] (serialize c)]).
    assert (∀ s1 : WalLog E, wl_live W M A s1 → wl_live W M (A ++ [default [] (serialize c)])
      (send (mkCmd [(KIND_COMMITTED, 0, mkArc (wl_arcs s1) (default [] (serialize c)))] false None None)
        (mkWalLog (set_ws_committed c (wl_mem s1)) (wl_queue s1) (wl_wal s1) (wl_failed s1) (wl_engine s1)
           (wl_committed_index s1) (wl_progress s1) (S (wl_arcs s1)) (wl_tickets s1) (wl_replies s1))).2) as Hgo.
    { intros s1 Hlv1. eapply live_value; [exact Hlv1|reflexivity|reflexivity|right; by exists c|reflexivity|..].
      - eexists _, _. split_and!; [reflexivity|by right|done|done].
      - intros k i a [= -> -> ->]%list_elem_of_singleton. done. }
    destruct c as [c|]; [|by apply (Hgo s)].
    cbn [wl_note_committed pmodify]. set (s1 := mkWalLog _ _ _ _ _ _ _ _ _ _).
    apply (Hgo s1). by eapply live_quiet.
  - cbn [ev_step]. unfold wl_save_vote_send, pbind, plift. rewrite encode_or_ok. cbn [snd].
    exists (A ++ [default [] (serialize v)]).
    eapply live_value; [exact Hlv|reflexivity|reflexivity|by left|reflexivity|..].
    + eexists _, _. split_and!; [reflexivity|by left|done|done].
    + intros k i a [= -> -> ->]%list_elem_of_singleton. done.
  - exists A. cbn [ev_step]. unfold wl_save_vote_done, answer, pbind. destruct (wl_replies s !! t) as [[[]|]|]; try done.
    unfold mirror, on_progress, on_mem, pmodify. destruct (commit _ _ _). by eapply live_quiet.
  - cbn [ev_step]. unfold wl_truncate_send, pbind, on_mem, pmodify. cbn [snd].
    exists (A ++ [[]]). by eapply (live_truncate W M A s).
  - exists A. cbn [ev_step]. unfold wl_truncate_done, answer, pbind. destruct (wl_replies s !! t) as [[[]|]|]; try done.
    unfold on_progress, pmodify. by eapply live_quiet.
  - by apply (live_purge_ev W M A).
  - exists A. cbn [ev_step]. unfold complete_purge_done, answer, pbind. destruct (wl_replies s !! t) as [[[]|]|]; try done.
    unfold on_mem, pmodify. cbn [snd]. eapply live_quiet; [exact Hlv|..]; try done; cbn.
    all: destruct (ws_pending (wl_mem s)) as [p|] eqn:Hp; [destruct (lid_index p <=? lid_index id)|]; try done.
    all: rewrite Hp; done.
  - by apply (live_checkpoint_ev W M A).
  - by destruct (Hn n).
  - exists A. by eapply live_quiet.
Qed.

(** Every admissible event keeps the invariant. *)
Lemma ev_inv W (s : WalLog E) ev :
  wl_inv W s → admissible W ev s → cmds_cost (W ++ wl_queue s) ≤ u64_max → wl_inv (W ++ taken ev s) (ev_step ev s).
Proof.
  intros Hinv Had Hcost.
  assert ((∃ n, ev = WvWriter n) ∨ (∀ n, ev ≠ WvWriter n) ∧ taken ev s = []) as [[n ->]|[Hn Ht]].
  { destruct ev; try (right; split; [intros ?; discriminate|done]). left. by eexists. }
  - cbn [taken ev_step]. apply turn_inv; [done|done|exact Had].
  - rewrite Ht, app_nil_r. destruct Hinv as (M & A & Ha & Hl). destruct (ev_frame ev s Hn) as (Hw & Hf & Hr).
    destruct (wl_failed s) as [e|].
    + exists M, A. by rewrite Hr, Hf, Hw.
    + destruct (ev_live W M A s ev Hl Had Hn) as [A' Hl']. exists M, A'. by rewrite Hr, Hf.
Qed.

(** And whatever the last event, a crash keeps what was answered. *)
Lemma ev_crash W (s : WalLog E) ev :
  wl_inv W s → cmds_cost (W ++ wl_queue s) ≤ u64_max →
  ∃ M, answered (W ++ taken ev s) M (wl_replies (ev_step ev s)) ∧
       crash_ok (wl_wal (ev_step ev s)).2 (recs (W ++ taken ev s)) M.
Proof.
  intros Hinv Hcost.
  assert ((∃ n, ev = WvWriter n) ∨ (∀ n, ev ≠ WvWriter n) ∧ taken ev s = []) as [[n ->]|[Hn Ht]].
  { destruct ev; try (right; split; [intros ?; discriminate|done]). left. by eexists. }
  - cbn [taken ev_step]. by apply turn_inv.
  - rewrite Ht, app_nil_r. destruct Hinv as (M & A & Ha & Hl). destruct (ev_frame ev s Hn) as (Hw & Hf & Hr).
    exists M. rewrite Hr, Hw. split; [done|]. destruct (wl_failed s); [done|].
    destruct (wv_log _ _ _ _ Hl) as (c & q & rs & k & Hlv & _). by eapply live_crash_ok.
Qed.

(** ** Runs *)

Definition run_step (x : list Cmd * WalLog E) (ev : WlEvent) : list Cmd * WalLog E :=
  (x.1 ++ taken ev x.2, ev_step ev x.2).

Definition wl_run (evs : list WlEvent) (s : WalLog E) : list Cmd * WalLog E := foldl run_step ([], s) evs.

Fixpoint run_admissible (evs : list WlEvent) (x : list Cmd * WalLog E) : Prop :=
  match evs with
  | [] => True
  | ev :: evs' => admissible x.1 ev x.2 ∧ run_admissible evs' (run_step x ev)
  end.

(** All that was ever sent. *)
Definition sent_cmds (x : list Cmd * WalLog E) : list Cmd := x.1 ++ wl_queue x.2.

Lemma writer_turn_queue n (s : WalLog E) : wl_queue (writer_turn n s) = drop n (wl_queue s).
Proof.
  unfold writer_turn. cbn zeta. match goal with |- context [foldl _ ?s1 _] =>
    destruct (run_dones_same (match wl_failed s1 with Some e => Err e | None => Ok () end) (take n (wl_queue s)) s1)
      as (_ & Hq & _); rewrite Hq; clear Hq end.
  cbn. destruct (wl_failed s); [done|]. by destruct (write_group _ _) as [[[pl d]|e] w].
Qed.

Lemma sent_grows x ev : sent_cmds x `prefix_of` sent_cmds (run_step x ev).
Proof.
  destruct x as [W s]. unfold sent_cmds, run_step. cbn [fst snd].
  assert (∀ s1 s2 : WalLog E, wl_queue s1 = wl_queue s2 → W ++ wl_queue s2 `prefix_of` (W ++ []) ++ wl_queue s1) as Hsame.
  { intros s1 s2 ->. by rewrite app_nil_r. }
  destruct ev as [es|c|v|v b t|id|id t|id|id t|d tg p|n|e]; cbn [taken ev_step].
  - rewrite app_nil_r. unfold wl_append, pbind. destruct (wl_append_loop_run es [] None s)
      as (s' & xs & last' & -> & _ & Hq & _). cbn. rewrite Hq, app_assoc. by apply prefix_app_r.
  - rewrite app_nil_r. unfold wl_save_committed, pbind, on_mem, pmodify, plift. rewrite encode_or_ok.
    destruct c; cbn; rewrite app_assoc; by apply prefix_app_r.
  - rewrite app_nil_r. unfold wl_save_vote_send, pbind, plift. rewrite encode_or_ok. cbn. rewrite app_assoc. by apply prefix_app_r.
  - apply Hsame. unfold wl_save_vote_done, answer, pbind. destruct (wl_replies s !! t) as [[[]|]|]; try done.
    unfold mirror, on_progress, on_mem, pmodify. by destruct (commit _ _ _).
  - rewrite app_nil_r. unfold wl_truncate_send, pbind, on_mem, pmodify. cbn. rewrite app_assoc. by apply prefix_app_r.
  - apply Hsame. unfold wl_truncate_done, answer, pbind. by destruct (wl_replies s !! t) as [[[]|]|].
  - rewrite app_nil_r. unfold wl_purge_send, pbind, pget, on_mem, pmodify, plift. rewrite encode_or_ok. unfold mirror.
    destruct (commit _ _ _) as [r e']. destruct (match last_index (wl_mem s) with Some l => _ | None => _ end); [|done].
    unfold sync_engine. destruct (engine_sync _) as [[]]; [|done].
    unfold complete_purge_send, pbind, plift. rewrite encode_or_ok. cbn. rewrite app_assoc. by apply prefix_app_r.
  - apply Hsame. unfold complete_purge_done, answer, pbind. by destruct (wl_replies s !! t) as [[[]|]|].
  - rewrite app_nil_r. unfold checkpoint_send, sync_engine. destruct (engine_sync _) as [[] e']; [|done].
    destruct p as [p|]; [|done]. destruct (_ <? _); [|done].
    unfold complete_purge_send, pbind, plift. rewrite encode_or_ok. cbn. rewrite app_assoc. by apply prefix_app_r.
  - rewrite writer_turn_queue, <- app_assoc, take_drop. done.
  - by apply Hsame.
Qed.

Lemma cost_prefix a b : a `prefix_of` b → cmds_cost a ≤ cmds_cost b.
Proof. intros [c ->]. rewrite cmds_cost_app. pose proof (cmds_cost_nonneg c). lia. Qed.

Lemma sent_grows_run evs x : sent_cmds x `prefix_of` sent_cmds (foldl run_step x evs).
Proof. revert x. induction evs as [|ev evs IH]; intros x; [done|]. cbn. etrans; [apply sent_grows|apply IH]. Qed.

Lemma run_inv evs x :
  wl_inv x.1 x.2 → run_admissible evs x → cmds_cost (sent_cmds (foldl run_step x evs)) ≤ u64_max →
  wl_inv (foldl run_step x evs).1 (foldl run_step x evs).2.
Proof.
  revert x. induction evs as [|ev evs IH]; intros x Hinv Had Hcost; [done|]. cbn in *. destruct Had as [Ha Had].
  apply IH; [|done|done]. apply ev_inv; [done|done|].
  pose proof (cost_prefix _ _ (sent_grows_run (ev :: evs) x)). cbn in *. unfold sent_cmds in *. lia.
Qed.
End events.
