(* ===== verification/WalReads.v ===== *)
(** * The WAL-backed log is a log store

    Whatever the thread has written, cached or evicted so far, the store
    reads as [MemLogStore] would after the same calls. *)

From S2P Require Import Prelude Revision Record KvStore Lease Cache Auth Store.
From S2P Require Import SnapshotPolicy StateMachine LogStore SmDemo EntryCodec LogKv Wal WalCodec.
From S2P Require Import WalLog WalDisk WalOps WalRun WalCrash WalStore WalMem WalThread WalTurn WalCalls.
From S2P Require Import WalEvents.

(** ** Maps with the same keys *)

Lemma sorted_lt_NoDup (l : list Z) : StronglySorted Z.lt l → NoDup l.
Proof.
  induction l as [|x l IH]; [constructor|]. intros [Hx Hs]%StronglySorted_cons. constructor; [|auto].
  rewrite Forall_forall in Hx. intros Hin%Hx. lia.
Qed.

Lemma sorted_lt_unique (l k : list Z) :
  StronglySorted Z.lt l → StronglySorted Z.lt k → (∀ x, x ∈ l ↔ x ∈ k) → l = k.
Proof.
  intros Hl Hk Hx. assert (AntiSymm (=) Z.lt) by (intros ? ?; lia).
  apply (StronglySorted_unique Z.lt); [done|done|].
  apply NoDup_Permutation; [by apply sorted_lt_NoDup..|done].
Qed.

Lemma log_range_keys {A} lo hi (m : gmap Z A) i :
  i ∈ (log_range lo hi m).*1 ↔ is_Some (m !! i) ∧ idx_above lo i && idx_below hi i = true.
Proof.
  rewrite list_elem_of_fmap. split.
  - intros ([j a] & -> & [Hj Hb]%log_range_elem). cbn. eauto.
  - intros [[a Ha] Hb]. exists (i, a). split; [done|]. by apply log_range_elem.
Qed.

Lemma log_range_pair {A B} lo hi (m : gmap Z A) (n : gmap Z B) :
  (∀ i, is_Some (m !! i) ↔ is_Some (n !! i)) →
  Forall2 (λ x y, m !! x.1 = Some x.2 ∧ n !! x.1 = Some y.2) (log_range lo hi m) (log_range lo hi n).
Proof.
  intros Hd. assert ((log_range lo hi m).*1 = (log_range lo hi n).*1) as Hk.
  { apply sorted_lt_unique; [apply sorted_filter, by_index_sorted..|]. intros i. by rewrite !log_range_keys, Hd. }
  assert (∀ x, x ∈ log_range lo hi m → m !! x.1 = Some x.2) as Hm by (intros [i a] [? _]%log_range_elem; done).
  assert (∀ y, y ∈ log_range lo hi n → n !! y.1 = Some y.2) as Hn by (intros [i a] [? _]%log_range_elem; done).
  revert Hk Hm Hn. generalize (log_range lo hi m) (log_range lo hi n). intros l. induction l as [|x l IH]; intros [|y k]; try done.
  rewrite !fmap_cons. intros [= Hxy Hk] Hm Hn. constructor.
  - rewrite Hxy at 2. split; [apply Hm|apply Hn]; by left.
  - apply IH; [done|..]; intros z Hz; [apply Hm|apply Hn]; by right.
Qed.

Lemma by_index_range {A} (m : gmap Z A) : by_index m = log_range IUnbounded IUnbounded m.
Proof.
  unfold log_range. induction (by_index m) as [|x l IH]; [done|]. rewrite filter_cons_True by done. by rewrite <- IH.
Qed.

Section reads.
Context {E : Type} `{KvStoreLaws E} `{!DurableStore E} `{!DurableLaws E} {Mb : Type}.
Context `{BincodeLaws (Entry Mb)} `{BincodeLaws Vote} `{BincodeLaws LogId} `{BincodeLaws (option LogId)}.

(** [m] is what the store shows. *)
Record shows (W : list Cmd) (s : WalLog E) (m : MemLog Mb) : Prop := {
  sh_log i : visible (wal_log (recs (W ++ wl_queue s))) (ws_purged (wl_mem s)) i = mem_log m !! i ≫= serialize;
  sh_index i e : mem_log m !! i = Some e → entry_index e = i;
  sh_vote : ws_vote (wl_mem s) = mem_vote m;
  sh_committed : ws_committed (wl_mem s) = mem_committed m;
  sh_purged : ws_purged (wl_mem s) = mem_purged m
}.

Definition set_fs (fs : Fs) (s : WalLog E) : WalLog E := set_wal_state ((wl_wal s).1, fs) (wl_failed s) s.

Lemma slot_entry_run (w : Wal) fs H0' M closed q rs k A i e slot (s : WalLog E) r s' :
  live w fs H0' M closed q rs [] k → slot_holds A (closed ++ [(q, rs)]) i (default [] (serialize e)) slot →
  has_data slot = true → fs_files (wl_wal s).2 = fs_files fs →
  slot_entry slot s = (r, s') →
  fs_files (wl_wal s').2 = fs_files fs ∧ (fs_faults (wl_wal s').2 ≠ [] → fs_faults (wl_wal s).2 ≠ []) ∧
  match r with Ok e' => e' = e | Err _ => fs_faults (wl_wal s).2 ≠ [] end.
Proof.
  intros Hlv [Hb Hl] Hdat Hfs. assert (decode_or (A := Entry Mb) (default [] (serialize e)) = Ok e) as Hdec.
  { unfold decode_or. by rewrite (deserialize_serialize e _ (serialized e)). }
  destruct slot as [[b|] [loc|]]; [| | |done]; cbn [slot_entry].
  - destruct (Hb b eq_refl) as [-> _]. unfold plift. rewrite Hdec. by intros [= <- <-].
  - destruct (Hb b eq_refl) as [-> _]. unfold plift. rewrite Hdec. by intros [= <- <-].
  - unfold pbind, wl_read_loc. destruct (reader_read loc (wl_wal s).2) as [rr fs'] eqn:Hrd.
    assert (fs_faults fs' ≠ [] → fs_faults (wl_wal s).2 ≠ []) as Hfa.
    { intros Hf Hno. apply Hf. clear -Hrd Hno. revert Hrd. unfold reader_read, pbind, get_file. rewrite (io_guard_ok _ Hno).
      destruct (fs_files _ !! _); [|by intros [= _ <-]]. rewrite (io_guard_ok _ Hno).
      destruct (decide _); [by intros [= _ <-]|]. destruct (parse _ _); [destruct (decide _)|..]; by intros [= _ <-]. }
    eapply live_files in Hlv; [|exact Hfs].
    eapply live_read in Hrd as [Hff Hrd]; [|exact Hlv|by apply Hl].
    destruct Hrd as [->|[Hno Hfn]].
    + cbn. unfold plift. rewrite Hdec. intros [= <- <-]. cbn. by rewrite Hff, Hfs.
    + destruct rr as [|x]; [done|]. intros [= <- <-]. cbn. by rewrite Hff, Hfs.
Qed.

Lemma read_slots_run (w : Wal) fs H0' M closed q rs k A : ∀ l (es : list (Entry Mb)) (s : WalLog E) r s',
  live w fs H0' M closed q rs [] k →
  Forall2 (λ x e, slot_holds A (closed ++ [(q, rs)]) x.1 (default [] (serialize e)) x.2 ∧ has_data x.2 = true) l es →
  fs_files (wl_wal s).2 = fs_files fs → read_slots l s = (r, s') →
  match r with Ok es' => es' = es | Err _ => fs_faults (wl_wal s).2 ≠ [] end.
Proof.
  intros l es s r s' Hlv Hf. revert s r s'. induction Hf as [|[i slot] e l es [Hh Hd] _ IH]; intros s r s' Hfs; cbn [read_slots].
  { by intros [= <- <-]. }
  unfold pbind at 1. destruct (slot_entry slot s) as [r1 s1] eqn:H1'.
  eapply slot_entry_run in H1' as (Hfs1 & Hfa1 & Hr1); [|exact Hlv|exact Hh|exact Hd|done].
  destruct r1 as [e'|x]; [|by intros [= <- <-]]. subst e'. unfold pbind.
  destruct (read_slots l s1) as [r2 s2] eqn:H2'. apply IH in H2'; [|done].
  destruct r2 as [es2|x]; intros [= <- <-]; [by subst|]. auto.
Qed.

(** Slot by entry. *)
Lemma shows_pair W M A (s : WalLog E) m lo hi :
  wl_live W M A s → shows W s m →
  ∃ closed q rs k, live (wl_wal s).1 (wl_wal s).2 (recs W) M closed q rs [] k ∧
    Forall2 (λ x e, slot_holds A (closed ++ [(q, rs)]) x.1 (default [] (serialize e)) x.2 ∧ has_data x.2 = true)
      (log_range lo hi (ws_entries (wl_mem s))) (mem_try_get lo hi m).
Proof.
  intros Hlv Hsh. destruct (wv_log _ _ _ _ Hlv) as (c & q & rs & k & Hl & _ & Hok).
  exists c, q, rs, k. split; [done|]. unfold mem_try_get. apply Forall2_fmap_r.
  assert (∀ i, is_Some (ws_entries (wl_mem s) !! i) ↔ is_Some (mem_log m !! i)) as Hdom.
  { intros i. specialize (Hok i). rewrite (sh_log _ _ _ Hsh) in Hok.
    destruct (ws_entries (wl_mem s) !! i), (mem_log m !! i) as [e|]; cbn in Hok; try naive_solver.
    rewrite serialized in Hok. naive_solver. }
  eapply Forall2_impl; [by apply log_range_pair|]. intros [i slot] [j e] [Hs He]. cbn in *.
  specialize (Hok i). rewrite Hs in Hok. destruct Hok as (p & Hp & Hh). rewrite (sh_log _ _ _ Hsh), He in Hp.
  cbn in Hp. rewrite Hp. split; [done|]. by apply (mo_data _ (wv_mem _ _ _ _ Hlv) i).
Qed.

Lemma try_get_shows W M A (s : WalLog E) m lo hi r s' :
  wl_live W M A s → shows W s m → wl_try_get lo hi s = (r, s') →
  match r with Ok es => es = mem_try_get lo hi m | Err _ => fs_faults (wl_wal s).2 ≠ [] end.
Proof.
  intros Hlv Hsh. destruct (shows_pair W M A s m lo hi Hlv Hsh) as (c & q & rs & k & Hl & Hf).
  unfold wl_try_get. rewrite (pbind_run _ _ _ s s) by done. cbv zeta.
  replace (forallb _ _) with true.
  2:{ symmetry. apply forallb_forall. intros x Hx%list_elem_of_In. apply list_elem_of_lookup_1 in Hx as [n Hn].
      eapply Forall2_lookup_l in Hf as (e & _ & _ & Hd); done. }
  intros Hr. eapply read_slots_run in Hr; [done|exact Hl|exact Hf|done].
Qed.

Lemma log_state_shows W M A (s : WalLog E) m r s' :
  wl_live W M A s → shows W s m → wl_get_log_state (Mb := Mb) s = (r, s') →
  match r with Ok x => x = mem_get_log_state m | Err _ => fs_faults (wl_wal s).2 ≠ [] end.
Proof.
  intros Hlv Hsh. destruct (shows_pair W M A s m IUnbounded IUnbounded Hlv Hsh) as (c & q & rs & k & Hl & Hf).
  unfold mem_try_get in Hf. rewrite <- !by_index_range in Hf. rewrite Forall2_fmap_r in Hf.
  unfold wl_get_log_state. rewrite (pbind_run _ _ _ s s) by done. cbv zeta. unfold pbind at 1, wl_last_log_id.
  rewrite (pbind_run _ _ _ s s) by done. unfold mem_get_log_state. rewrite <- (sh_purged _ _ _ Hsh).
  apply Forall2_last in Hf. destruct Hf as [[i slot] [j e] [Hh Hd]|]; [|by intros [= <- <-]]. cbn in Hh, Hd |- *.
  unfold pbind. destruct (slot_entry slot s) as [r1 s1] eqn:H1'.
  eapply slot_entry_run in H1' as (_ & _ & Hr1); [|exact Hl|exact Hh|exact Hd|done].
  destruct r1 as [e'|x]; [|by intros [= <- <-]]. subst e'. by intros [= <- <-].
Qed.

(** ** Calls on the specification *)

(** An entry replaces what is at its index and after, as openraft's
    truncation before it does. *)
Definition mem_put (e : Entry Mb) (m : MemLog Mb) : MemLog Mb := mem_append [e] (mem_truncate (entry_id e) m).

Definition mem_purge_max (id : LogId) (m : MemLog Mb) : MemLog Mb :=
  if below_opt (mem_purged m) id then mem_purge id m
  else mkMemLog (mem_log (mem_purge id m)) (mem_purged m) (mem_vote m) (mem_committed m).

Definition spec_step (ev : WlEvent (E := E) (Mb := Mb)) (s : WalLog E) (m : MemLog Mb) : MemLog Mb :=
  match ev with
  | WvAppend entries => foldl (λ m e, mem_put e m) m entries
  | WvCommitted c => mem_save_committed c m
  | WvVoted v _ t => match wl_replies s !! t with Some (Ok _) => mem_save_vote v m | _ => m end
  | WvTruncate id => mem_truncate id m
  | WvPurge id => mem_purge_max id m
  | _ => m
  end.

(** What is shown does not change if neither the log sent nor memory does. *)
Lemma shows_same W s W' (s' : WalLog E) m :
  shows W s m → recs (W' ++ wl_queue s') = recs (W ++ wl_queue s) →
  ws_vote (wl_mem s') = ws_vote (wl_mem s) → ws_committed (wl_mem s') = ws_committed (wl_mem s) →
  ws_purged (wl_mem s') = ws_purged (wl_mem s) → shows W' s' m.
Proof. intros [H1' H2' H3' H4' H5'] Hr Hv Hc Hp. split; rewrite ?Hr, ?Hv, ?Hc, ?Hp; done. Qed.

Lemma filter_lookup_below (l : gmap Z (Entry Mb)) i j :
  base.filter (λ x, ¬ i ≤ x.1) l !! j = if decide (j < i) then l !! j else None.
Proof.
  case_decide.
  - destruct (l !! j) as [e|] eqn:He; [apply map_lookup_filter_Some; cbn; split; [done|lia]|].
    apply map_lookup_filter_None. by left.
  - apply map_lookup_filter_None. right. intros e _. cbn. lia.
Qed.

Lemma shows_put l l' purged (m : MemLog Mb) e :
  (∀ i, visible l purged i = mem_log m !! i ≫= serialize) →
  (∀ i, visible l' purged i = if decide (i = entry_index e) then serialize e
        else if decide (i < entry_index e) then visible l purged i else None) →
  ∀ i, visible l' purged i = mem_log (mem_put e m) !! i ≫= serialize.
Proof.
  intros Hl Hl' i. rewrite Hl'. cbn. change (lid_index (entry_id e)) with (entry_index e).
  destruct (decide (i = entry_index e)) as [->|Hne]; [by rewrite lookup_insert_eq|].
  rewrite lookup_insert_ne, filter_lookup_below by done. case_decide; [by rewrite Hl|done].
Qed.

Lemma put_index (m : MemLog Mb) e :
  (∀ i x, mem_log m !! i = Some x → entry_index x = i) → ∀ i x, mem_log (mem_put e m) !! i = Some x → entry_index x = i.
Proof.
  intros Hm i x. cbn. rewrite lookup_insert_Some. intros [[<- <-]|[_ Hx]]; [done|].
  apply map_lookup_filter_Some in Hx as [Hx _]. by apply Hm.
Qed.

Lemma shows_entries purged es : ∀ l (m : MemLog Mb) n,
  (∀ p, purge_index l = Some p → at_most p purged) →
  Forall (λ e, unpurged_in purged (entry_index e) = true) es →
  (∀ i, visible l purged i = mem_log m !! i ≫= serialize) →
  (∀ i x, mem_log m !! i = Some x → entry_index x = i) →
  let rs := (λ x : Z * Arc, mkRec KIND_ENTRY x.1 (arc_data x.2)) <$>
              imap (λ k e, (entry_index e, mkArc (n + k) (default [] (serialize e)))) es in
  let m' := foldl (λ m e, mem_put e m) m es in
  (∀ i, visible (log_from l rs) purged i = mem_log m' !! i ≫= serialize) ∧
  (∀ i x, mem_log m' !! i = Some x → entry_index x = i) ∧
  mem_vote m' = mem_vote m ∧ mem_committed m' = mem_committed m ∧ mem_purged m' = mem_purged m.
Proof.
  induction es as [|e es IH]; intros l m n Hp Hun Hl Hi; [done|].
  apply Forall_cons in Hun as [He Hun]. cbv zeta. rewrite imap_cons, fmap_cons, Nat.add_0_r.
  change (log_from l (?a :: ?b)) with (log_from (log_step l a) b). cbn [fst snd arc_data foldl].
  rewrite (imap_ext _ (λ k e, (entry_index e, mkArc (S n + k) (default [] (serialize e)))))
    by (intros; cbn; do 2 f_equal; lia).
  destruct (IH (log_step l (mkRec KIND_ENTRY (entry_index e) (default [] (serialize e)))) (mem_put e m) (S n))
    as (H1' & H2' & H3' & H4' & H5'); [..|by rewrite H3', H4', H5'].
  - intros p. rewrite purge_index_step. cbn. apply Hp.
  - done.
  - eapply shows_put; [exact Hl|]. intros i. rewrite visible_entry by done. cbn.
    case_decide; [by rewrite <- serialized|done].
  - by apply put_index.
Qed.

Lemma shows_append W M A (s : WalLog E) m es :
  wl_live W M A s → shows W s m → admissible W (WvAppend es) s →
  shows W (ev_step (WvAppend es) s) (foldl (λ m e, mem_put e m) m es).
Proof.
  intros Hlv [H1' H2' H3' H4' H5'] Had. cbn [ev_step]. unfold wl_append, pbind.
  destruct (wl_append_loop_run es [] None s) as (s' & xs & last' & -> & Hm & Hq & Hw & Hf & He & Hr & Ha & Ht & Hxs).
  cbn [snd app new_ticket send pmodify pret]. set (c := mkCmd _ _ _ _).
  assert (cmd_recs c = (λ x, mkRec KIND_ENTRY x.1 (arc_data x.2)) <$> xs) as Hcr.
  { unfold cmd_recs, c, entry_recs. cbn [cmd_records]. rewrite <- list_fmap_compose. done. }
  cbn in Had. apply Forall_and in Had as [_ Hun].
  destruct (put_slots_same xs (wl_mem s)) as [Hpu _].
  assert (ws_vote (put_slots xs (wl_mem s)) = ws_vote (wl_mem s) ∧
          ws_committed (put_slots xs (wl_mem s)) = ws_committed (wl_mem s)) as [Hvo Hco].
  { generalize (wl_mem s). clear. induction xs as [|x xs IH]; intros m; [done|]. exact (IH (insert_slot x.1 x.2 m)). }
  destruct (shows_entries (ws_purged (wl_mem s)) es (wal_log (recs (W ++ wl_queue s))) m (wl_arcs s)
              (wv_purge _ _ _ _ Hlv) Hun H1' H2') as (G1 & G2 & G3 & G4 & G5).
  split; cbn [wl_mem wl_queue]; rewrite ?Hm, ?Hpu, ?Hvo, ?Hco, ?G3, ?G4, ?G5; try done.
  intros i. rewrite Hq, recs_snoc, wal_log_app, Hcr, Hxs. apply G1.
Qed.

Lemma shows_value W (s s' : WalLog E) m m' c k a :
  shows W s m → wl_queue s' = wl_queue s ++ [c] → cmd_records c = [(k, 0, a)] →
  k = KIND_VOTE ∨ k = KIND_COMMITTED → mem_log m' = mem_log m → ws_purged (wl_mem s') = ws_purged (wl_mem s) →
  mem_purged m' = mem_purged m → ws_vote (wl_mem s') = mem_vote m' → ws_committed (wl_mem s') = mem_committed m' →
  shows W s' m'.
Proof.
  intros [H1' H2' H3' H4' H5'] HQ Hrec Hk Hl Hp Hp' Hv Hc. split; rewrite ?Hl, ?Hp, ?Hp'; try done.
  intros i. rewrite HQ, recs_snoc, wal_log_app. unfold cmd_recs. rewrite Hrec. cbn [fmap list_fmap].
  change (log_from ?l [?r]) with (log_step l r). rewrite visible_value; [apply H1'|done].
Qed.

Lemma shows_purge_mem l (m : LogMem) (n : MemLog Mb) id i :
  0 ≤ lid_index id < u64_max → ws_purged m = mem_purged n →
  visible l (ws_purged m) i = mem_log n !! i ≫= serialize →
  visible l (ws_purged (purge_mem id m)) i = mem_log (mem_purge_max id n) !! i ≫= serialize.
Proof.
  intros Hid Hp Hv.
  assert (mem_log (mem_purge_max id n) !! i = if decide (lid_index id + 1 ≤ i) then mem_log n !! i else None) as ->.
  { assert (mem_log (mem_purge_max id n) = mem_log (mem_purge id n)) as -> by (unfold mem_purge_max; by destruct (below_opt _ _)).
    cbn. case_decide.
    - destruct (mem_log n !! i) as [e|] eqn:He; [apply map_lookup_filter_Some; cbn; split; [done|lia]|].
      apply map_lookup_filter_None. by left.
    - apply map_lookup_filter_None. right. intros e _. cbn. lia. }
  unfold purge_mem. cbn. revert Hv. unfold visible, unpurged_in, below_opt. destruct (ws_purged m) as [p|].
  - destruct (Z.ltb_spec (lid_index p) (lid_index id));
      [destruct (Z.ltb_spec (lid_index id) i), (Z.ltb_spec (lid_index p) i)|destruct (Z.ltb_spec (lid_index p) i)];
      case_decide; done || lia.
  - destruct (Z.ltb_spec (lid_index id) i); case_decide; done || lia.
Qed.

Lemma shows_purge_step W M A (s : WalLog E) m id :
  wl_live W M A s → shows W s m → admissible (Mb := Mb) W (WvPurge id) s →
  shows W (ev_step (Mb := Mb) (WvPurge id) s) (mem_purge_max id m).
Proof.
  intros Hlv [H1' H2' H3' H4' H5'] [Hid _].
  assert (mem_vote (mem_purge_max id m) = mem_vote m ∧ mem_committed (mem_purge_max id m) = mem_committed m ∧
          mem_purged (mem_purge_max id m) = if below_opt (mem_purged m) id then Some id else mem_purged m) as (Gv & Gc & Gp).
  { unfold mem_purge_max. by destruct (below_opt _ _). }
  assert (∀ i e, mem_log (mem_purge_max id m) !! i = Some e → entry_index e = i) as Gi.
  { intros i e. assert (mem_log (mem_purge_max id m) = mem_log (mem_purge id m)) as -> by (unfold mem_purge_max; by destruct (below_opt _ _)).
    cbn. intros [He _]%map_lookup_filter_Some. by apply H2'. }
  assert (∀ e', shows W (set_engine e' (on_mem (purge_mem id) s).2) (mem_purge_max id m)) as Hmem.
  { intros e'. split; [|done|..]; cbn; rewrite ?Gv, ?Gc, ?Gp, <- ?H5'; try done.
    intros i. by apply shows_purge_mem. }
  cbn [ev_step]. unfold wl_purge_send, pbind, pget, plift. rewrite encode_or_ok. unfold mirror.
  cbn [on_mem pmodify]. destruct (commit _ _ _) as [r e'].
  destruct (match last_index (wl_mem s) with Some l => _ | None => _ end) eqn:Hh; [|exact (Hmem e')].
  unfold sync_engine. cbn [wl_engine set_engine]. destruct (engine_sync e') as [[[]|x] e2]; [|exact (Hmem e2)].
  unfold complete_purge_send, pbind, plift. rewrite encode_or_ok. cbn [snd].
  destruct (Hmem e2) as [K1 K2 K3 K4 K5]. split; try done.
  intros i. rewrite <- K1. cbn [wl_queue write_synced pbind new_ticket send pmodify pret snd new_arc set_engine on_mem wl_mem].
  rewrite recs_snoc, wal_log_app. change (log_from ?l (cmd_recs (mkCmd [(?k, ?j, ?a)] _ _ _))) with (log_step l (mkRec k j (arc_data a))).
  rewrite visible_purge; [done|done|]. apply purge_mem_covers.
Qed.

Lemma turn_mem (s : WalLog E) n :
  mem_ok (wl_mem s) →
  ws_vote (wl_mem (writer_turn n s)) = ws_vote (wl_mem s) ∧
  ws_committed (wl_mem (writer_turn n s)) = ws_committed (wl_mem s) ∧
  ws_purged (wl_mem (writer_turn n s)) = ws_purged (wl_mem s).
Proof.
  intros Hm. unfold writer_turn. cbn zeta. match goal with |- context [foldl _ ?s1 _] =>
    destruct (run_dones_same (match wl_failed s1 with Some e => Err e | None => Ok () end) (take n (wl_queue s)) s1)
      as (Hq & _); rewrite Hq; clear Hq end.
  cbn. destruct (wl_failed s); [done|]. destruct (write_group _ _) as [[[pl d]|e] w]; [|done].
  destruct pl as [|x pl]; [done|].
  destruct (place_inv (x :: pl) (wl_mem s) Hm) as (_ & _ & _ & _ & Hv & Hc & Hp & _). done.
Qed.

(** Each call does to what is shown what it does to the specification. *)
Lemma shows_step W M A (s : WalLog E) m ev :
  wl_live W M A s → shows W s m → admissible W ev s → shows (W ++ taken ev s) (ev_step ev s) (spec_step ev s m).
Proof.
  intros Hlv Hsh Had.
  destruct ev as [es|c|v|v b t|id|id t|id|id t|d tg p|n|e]; cbn [taken]; rewrite ?app_nil_r.
  - by eapply shows_append.
  - cbn [ev_step spec_step]. unfold wl_save_committed, pbind, on_mem, pmodify, plift. rewrite encode_or_ok.
    destruct c as [c|]; (eapply shows_value; [exact Hsh|reflexivity|reflexivity|by right|done|done|done|apply Hsh|done]).
  - cbn [ev_step spec_step]. unfold wl_save_vote_send, pbind, plift. rewrite encode_or_ok.
    eapply shows_value; [exact Hsh|reflexivity|reflexivity|by left|done|done|done|apply Hsh|apply Hsh].
  - cbn [ev_step spec_step]. unfold wl_save_vote_done, answer, pbind.
    destruct (wl_replies s !! t) as [[u|]|]; [|done|done]. unfold mirror, on_progress, on_mem, pmodify.
    destruct (commit _ _ _). destruct Hsh as [H1' H2' H3' H4' H5']. by split.
  - cbn [ev_step spec_step]. unfold wl_truncate_send, pbind, on_mem, pmodify. cbn [snd].
    destruct Hsh as [H1' H2' H3' H4' H5']. split; try done.
    + intros i. cbn [wl_queue wl_mem write_synced pbind new_ticket send pmodify pret snd new_arc].
      rewrite recs_snoc, wal_log_app.
      change (log_from ?l (cmd_recs (mkCmd [(?k, ?j, ?a)] _ _ _))) with (log_step l (mkRec k j (arc_data a))).
      rewrite visible_truncate by done. cbn [ws_purged remove_from set_ws_log r_index mem_truncate mem_log].
      rewrite filter_lookup_below. case_decide; [apply H1'|done].
    + intros i e [He _]%map_lookup_filter_Some. by apply H2'.
  - cbn [ev_step spec_step]. unfold wl_truncate_done, answer, pbind.
    destruct (wl_replies s !! t) as [[[]|]|]; (eapply shows_same; [exact Hsh|done..]).
  - by eapply shows_purge_step.
  - cbn [ev_step spec_step]. unfold complete_purge_done, answer, pbind.
    destruct (wl_replies s !! t) as [[[]|]|]; (eapply shows_same; [exact Hsh|try done..]); cbn;
      destruct (ws_pending (wl_mem s)) as [p|]; try done; by destruct (_ <=? _).
  - cbn [ev_step spec_step]. unfold checkpoint_send, sync_engine.
    destruct (engine_sync _) as [[] e']; [|eapply shows_same; [exact Hsh|done..]].
    destruct p as [p|]; [|eapply shows_same; [exact Hsh|done..]].
    destruct (_ <? _); [|eapply shows_same; [exact Hsh|done..]].
    unfold complete_purge_send, pbind, plift. rewrite encode_or_ok. destruct Had as (_ & Hat & _).
    destruct Hsh as [H1' H2' H3' H4' H5']. split; try done.
    intros i. cbn [wl_queue wl_mem write_synced pbind new_ticket send pmodify pret snd new_arc set_engine].
    rewrite recs_snoc, wal_log_app.
    change (log_from ?l (cmd_recs (mkCmd [(?k, ?j, ?a)] _ _ _))) with (log_step l (mkRec k j (arc_data a))).
    rewrite visible_purge; [apply H1'|done|done].
  - cbn [ev_step spec_step]. destruct (turn_mem s (Nat.min n GROUP_MAX) (wv_mem _ _ _ _ Hlv)) as (Hv & Hc & Hp).
    eapply shows_same; [exact Hsh| |done..]. by rewrite writer_turn_queue, <- app_assoc, take_drop.
  - eapply shows_same; [exact Hsh|done..].
Qed.

Fixpoint spec_run (evs : list WlEvent) (x : list Cmd * WalLog E) (m : MemLog Mb) : MemLog Mb :=
  match evs with
  | [] => m
  | ev :: evs' => spec_run evs' (run_step x ev) (spec_step ev x.2 m)
  end.

(** Once failed, the thread stays so. *)
Lemma failed_stays ev (s : WalLog E) : wl_failed s ≠ None → wl_failed (ev_step ev s) ≠ None.
Proof.
  intros Hf. assert ((∃ n, ev = WvWriter n) ∨ (∀ n, ev ≠ WvWriter n)) as [[n ->]|Hn].
  { destruct ev; try (right; intros ?; discriminate). left. by eexists. }
  - cbn [ev_step]. unfold writer_turn. cbn zeta. match goal with |- context [foldl _ ?s1 _] =>
      destruct (run_dones_same (match wl_failed s1 with Some e => Err e | None => Ok () end)
        (take (Nat.min n GROUP_MAX) (wl_queue s)) s1) as (_ & _ & _ & Hq & _); rewrite Hq; clear Hq end.
    cbn. by destruct (wl_failed s).
  - by destruct (ev_frame ev s Hn) as (_ & -> & _).
Qed.

Lemma failed_stays_run evs x : wl_failed x.2 ≠ None → wl_failed (foldl run_step x evs).2 ≠ None.
Proof. revert x. induction evs as [|ev evs IH]; intros x Hf; [done|]. cbn. by apply IH, failed_stays. Qed.

Lemma run_shows evs : ∀ x m,
  wl_inv x.1 x.2 → shows x.1 x.2 m → run_admissible evs x →
  cmds_cost (sent_cmds (foldl run_step x evs)) ≤ u64_max → wl_failed (foldl run_step x evs).2 = None →
  ∃ M A, wl_live (foldl run_step x evs).1 M A (foldl run_step x evs).2 ∧
    shows (foldl run_step x evs).1 (foldl run_step x evs).2 (spec_run evs x m).
Proof.
  induction evs as [|ev evs IH]; intros x m Hinv Hsh Had Hcost Hf; cbn in *.
  { destruct Hinv as (M & A & _ & Hl). rewrite Hf in Hl. by exists M, A. }
  destruct Had as [Ha Had].
  assert (cmds_cost (x.1 ++ wl_queue x.2) ≤ u64_max).
  { pose proof (cost_prefix _ _ (sent_grows_run (ev :: evs) x)). cbn in *. unfold sent_cmds in *. lia. }
  apply IH; [by apply ev_inv| |done|done|done].
  destruct Hinv as (M & A & _ & Hl). destruct (wl_failed x.2) eqn:Hf0.
  - exfalso. eapply (failed_stays_run (ev :: evs) x); [by rewrite Hf0|done].
  - by eapply shows_step.
Qed.

(** ** From an empty directory *)

Definition fresh_wal (sb limit : Z) (fs : Fs) (e : E) : result string (WalLog E) :=
  match open sb fs with
  | (Ok (w, r), fs') => wl_start limit e w r fs'
  | (Err _, _) => Err "open"
  end.

Lemma fresh_wal_inv sb limit fs e s :
  no_segments fs → fresh_wal sb limit fs e = Ok s →
  wl_inv [] s ∧ shows [] s MemLogStore_new ∧ wl_queue s = [] ∧ wl_engine s = e ∧ wl_replies s = ∅.
Proof.
  intros Hn. unfold fresh_wal. destruct (open sb fs) as [[[w r]|x] fs1] eqn:Ho; [|done].
  apply open_fresh in Ho as [(closed & q & rs & k & Hlv & Hq & _) ->]; [|done].
  assert (wl_start limit e w Replay_default fs1 =
          Ok (mkWalLog (mkLogMem ∅ 0 limit 0 None None None None) [] (w, fs1) None e 0 LogProgress_default 0 0 ∅)) as ->
    by reflexivity.
  intros [= <-]. split_and!; try done.
  - exists 0%nat, []. split; [by intros ? ? ?|]. cbn. split; cbn; try done.
    + exists closed, q, rs, k. split_and!; [done|done|]. by intros i.
    + by intros c ? ? ? ?%elem_of_nil.
    + by intros c d ?%elem_of_nil.
    + split; cbn; [constructor|by intros c ?%elem_of_nil|]. intros Q1 Q2 c d HQ Hc. destruct Q1; [by apply elem_of_nil in Hc|done].
Qed.

(** A read gives [a], or fails with the disk. *)
Definition reads_exactly {A} (fs : Fs) (r : result string A) (a : A) : Prop :=
  match r with Ok x => x = a | Err _ => fs_faults fs ≠ [] end.


(**  The memory the log takes: over any such run the byte count of the
    cache is exactly the bytes its slots hold, so it never wraps, and every
    slot can be read; and placing a group of entries leaves the cache within
    its limit, or the oldest bytes it holds are not in the WAL yet. *)
Theorem wl_cache_exact sb limit fs e s0 (evs : list (WlEvent (E := E) (Mb := Mb))) :
  no_segments fs → fresh_wal sb limit fs e = Ok s0 →
  run_admissible evs ([], s0) → cmds_cost (sent_cmds (wl_run evs s0)) ≤ u64_max →
  let m := wl_mem (wl_run evs s0).2 in
  wl_failed (wl_run evs s0).2 = None →
  ws_cached m = slots_size (ws_entries m) ∧ 0 ≤ ws_cached m ∧
  (∀ i s, ws_entries m !! i = Some s → has_data s = true) ∧
  ∀ placed, let m' := place placed m in
    ws_cached m' ≤ ws_limit m' ∨ ws_cached m' = 0 ∨
    ∃ i s, ws_entries m' !! i = Some s ∧ slot_loc s = None ∧
      ∀ j s', ws_entries m' !! j = Some s' → j < i → slot_bytes s' = None.
Proof.
  intros Hn Ho Had Hcost m Hf. destruct (fresh_wal_inv _ _ _ _ _ Hn Ho) as (Hinv & Hsh & _).
  destruct (run_shows evs ([], s0) MemLogStore_new Hinv Hsh Had Hcost Hf) as (M & A & Hlv & _).
  pose proof (wv_mem _ _ _ _ Hlv) as Hm. destruct (Hm) as [Hc _ Hd].
  change (ws_cached m = slots_size (ws_entries m)) in Hc.
  pose proof (slots_size_nonneg (ws_entries m)). split_and!; [done|lia|done|].
  intros placed. by destruct (place_inv placed m Hm) as (_ & _ & Hb & _).
Qed.
End reads.

(** ** A concrete store *)

Module WalDemo.
Export LogDemo.

Definition demo_lid (i : Z) : LogId := mkLogId 1 1 i.
Definition demo_tables (i : Z) : Tables :=
  {[ (TABLE_META, META_KEY_RAFT_APPLIED) := default [] (serialize (Some (demo_lid i))) ]}.
Definition demo_disk (i : Z) : DiskEngine := mkDisk (demo_tables i) (demo_tables i).

Definition demo_start : WalLog DiskEngine :=
  match fresh_wal 4096 100 (mkFs ∅ []) (mkDisk ∅ ∅) with
  | Ok s => s
  | Err _ => mkWalLog (mkLogMem ∅ 0 0 0 None None None None) [] (mkWal 0 [] 0 ∅ false false, mkFs ∅ []) None
               (mkDisk ∅ ∅) 0 LogProgress_default 0 0 ∅
  end.

Lemma demo_start_ok : fresh_wal 4096 100 (mkFs ∅ []) (mkDisk ∅ ∅) = Ok demo_start.
Proof.
  assert (is_ok (fresh_wal 4096 100 (mkFs ∅ []) (mkDisk ∅ ∅)) = true) as Hok by (vm_compute; reflexivity).
  unfold demo_start. by destruct (fresh_wal _ _ _ _).
Qed.

(** A vote, two entries, the first applied, purged and forgotten by the WAL. *)
Definition demo_events : list (WlEvent (E := DiskEngine) (Mb := list Z)) :=
  [WvVote (mkVote 1 1 true); WvWriter 1; WvVoted (mkVote 1 1 true) [] 0;
   WvAppend [demo_entry 1 0; demo_entry 1 1]; WvWriter 4; WvData (demo_disk 0); WvPurge (demo_lid 0);
   WvCheckpoint None 1 (Some (demo_lid 0)); WvWriter 1; WvPurged (demo_lid 0) 2].

Ltac eval_side :=
  match goal with
  | |- True => exact I
  | |- _ = true => vm_compute; reflexivity
  | |- _ < _ => vm_compute; reflexivity
  | |- _ ≤ _ => vm_compute; discriminate
  end.

Lemma demo_run_admissible : run_admissible demo_events ([], demo_start).
Proof.
  cbn [run_admissible demo_events admissible].
  split_and!; try eval_side.
  - repeat first [apply Forall_nil_2|apply Forall_cons_2]; split_and!; eval_side.
  - vm_compute. done.
  - exists (demo_lid 0). vm_compute. done.
  - intros r. vm_compute. done.
Qed.

Lemma demo_empty : no_segments (mkFs ∅ []).
Proof. intros name [f Hf]. cbn in Hf. by rewrite lookup_empty in Hf. Qed.
Lemma demo_cost : cmds_cost (sent_cmds (wl_run demo_events demo_start)) ≤ u64_max.
Proof. eval_side. Qed.
Lemma demo_unfailed : wl_failed (wl_run demo_events demo_start).2 = None.
Proof. vm_compute. reflexivity. Qed.
End WalDemo.
Import WalDemo.


Lemma wl_cache_exact_witness :
  ws_cached (wl_mem (wl_run demo_events demo_start).2) = 12 ∧
  ws_cached (wl_mem (wl_run demo_events demo_start).2) =
    slots_size (ws_entries (wl_mem (wl_run demo_events demo_start).2)).
Proof.
  split; [vm_compute; reflexivity|].
  exact (proj1 (wl_cache_exact 4096 100 (mkFs ∅ []) (mkDisk ∅ ∅) demo_start demo_events
    demo_empty demo_start_ok demo_run_admissible demo_cost demo_unfailed)).
Defined.
