(* ===== verification/WalRecover.v ===== *)
(** * Recovery of the WAL-backed log

    A crash at any point, in the middle of a turn included, leaves a log
    that is the first part of what was sent, with everything that was
    answered; and never one that has purged what the data file has not
    applied. *)

From S2P Require Import Prelude Revision Record KvStore Lease Cache Auth Store.
From S2P Require Import SnapshotPolicy StateMachine LogStore SmDemo EntryCodec LogKv Wal WalCodec.
From S2P Require Import WalLog WalDisk WalOps WalRun WalCrash WalStore WalMem WalThread WalTurn WalCalls.
From S2P Require Import WalEvents WalReads.

Section recover.
Context {E : Type} `{KvStoreLaws E} `{!DurableStore E} `{!DurableLaws E} {Mb : Type}.
Context `{BincodeLaws (Entry Mb)} `{BincodeLaws Vote} `{BincodeLaws LogId} `{BincodeLaws (option LogId)}.

(** ** Records as calls *)

(** What the store sends. *)
Definition rec_typed (r : Rec) : Prop :=
  (∃ e : Entry Mb, r = mkRec KIND_ENTRY (entry_index e) (default [] (serialize e))) ∨
  (∃ i, r = mkRec KIND_TRUNCATE i []) ∨
  (∃ id : LogId, r = mkRec KIND_PURGE (lid_index id) (default [] (serialize id))) ∨
  (∃ v : Vote, r = mkRec KIND_VOTE 0 (default [] (serialize v))) ∨
  (∃ c : option LogId, r = mkRec KIND_COMMITTED 0 (default [] (serialize c))).

(** What a record means for the log. *)
Definition rec_mem (m : MemLog Mb) (r : Rec) : MemLog Mb :=
  let b := r_payload r in
  if r_kind r =? KIND_ENTRY then
    match deserialize (A := Entry Mb) b with
    | Some e => if below_opt (mem_purged m) (entry_id e) then mem_put e m else mem_truncate (entry_id e) m
    | None => m
    end
  else if r_kind r =? KIND_TRUNCATE then mem_truncate (mkLogId 0 0 (r_index r)) m
  else if r_kind r =? KIND_PURGE then
    match deserialize (A := LogId) b with Some id => mem_purge id m | None => m end
  else if r_kind r =? KIND_VOTE then
    match deserialize (A := Vote) b with Some v => mem_save_vote v m | None => m end
  else match deserialize (A := option LogId) b with Some c => mem_save_committed c m | None => m end.

Definition mem_of (rs : list Rec) : MemLog Mb := foldl rec_mem MemLogStore_new rs.

Record log_rel (l : Log) (m : MemLog Mb) : Prop := {
  lr_log i : log_entries l !! i = mem_log m !! i ≫= serialize;
  lr_vote : snd <$> log_meta l !! KIND_VOTE = mem_vote m ≫= serialize;
  lr_committed :
    match log_meta l !! KIND_COMMITTED with
    | Some (_, b) => deserialize b = Some (mem_committed m)
    | None => mem_committed m = None
    end;
  lr_purged : log_meta l !! KIND_PURGE = (λ id, (lid_index id, default [] (serialize id))) <$> mem_purged m
}.

Lemma decoded {A} `{BincodeLaws A} (a : A) : deserialize (default [] (serialize a)) = Some a.
Proof. destruct (serialize_ok a) as [b Hb]. rewrite Hb. by apply deserialize_serialize. Qed.

Lemma log_rel_empty : log_rel Log_empty MemLogStore_new.
Proof. by split. Qed.

Lemma rec_mem_step l m r : rec_typed r → log_rel l m → log_rel (log_step l r) (rec_mem m r).
Proof.
  intros Ht [Hl Hv Hc Hp]. destruct Ht as [[e ->]|[[i ->]|[[id ->]|[[v ->]|[c ->]]]]]; unfold rec_mem; cbn [r_kind r_payload].
  - rewrite log_step_entry by done. cbn [r_index r_payload Z.eqb KIND_ENTRY Pos.eqb]. rewrite decoded.
    assert (unpurged l (entry_index e) = below_opt (mem_purged m) (entry_id e)) as Hun.
    { unfold unpurged, purge_index, below_opt. rewrite Hp. by destruct (mem_purged m). }
    assert (∀ j, keep_below (entry_index e) (log_entries l) !! j = mem_log (mem_truncate (entry_id e) m) !! j ≫= serialize) as Hb.
    { intros j. cbn. rewrite lookup_keep_below, filter_lookup_below. change (lid_index (entry_id e)) with (entry_index e).
      by case_decide. }
    rewrite Hun. destruct (below_opt _ _); cbv zeta; split; try done.
    intros j. cbn. destruct (decide (j = entry_index e)) as [->|Hne].
    + rewrite !lookup_insert_eq. cbn. by rewrite <- serialized.
    + rewrite !lookup_insert_ne by done. apply Hb.
  - rewrite log_step_truncate by done. cbn [r_index Z.eqb KIND_ENTRY KIND_TRUNCATE Pos.eqb]. split; try done.
    intros j. cbn. rewrite lookup_keep_below, filter_lookup_below. cbn. by case_decide.
  - rewrite log_step_purge by done. cbn [r_index r_payload Z.eqb KIND_ENTRY KIND_TRUNCATE KIND_PURGE Pos.eqb]. rewrite decoded.
    split; cbn [log_entries log_meta mem_purge mem_log mem_vote mem_committed mem_purged].
    + intros j. rewrite lookup_keep_above. case_decide.
      * rewrite Hl. destruct (mem_log m !! j) as [e|] eqn:He.
        -- rewrite (proj2 (map_lookup_filter_Some _ _ j e)); [done|]. cbn. split; [done|lia].
        -- rewrite (proj2 (map_lookup_filter_None _ _ j)); [done|by left].
      * rewrite (proj2 (map_lookup_filter_None _ _ j)); [done|]. right. intros e _. cbn. lia.
    + by rewrite lookup_insert_ne.
    + by rewrite lookup_insert_ne.
    + by rewrite lookup_insert_eq.
  - rewrite log_step_value by (by left).
    cbn [r_kind r_index r_payload Z.eqb KIND_ENTRY KIND_TRUNCATE KIND_PURGE KIND_VOTE Pos.eqb]. rewrite decoded.
    split; cbn [log_entries log_meta mem_save_vote mem_log mem_vote mem_committed mem_purged]; [done|..].
    + rewrite lookup_insert_eq. cbn. by rewrite <- encoded.
    + by rewrite lookup_insert_ne.
    + by rewrite lookup_insert_ne.
  - rewrite log_step_value by (by right).
    cbn [r_kind r_index r_payload Z.eqb KIND_ENTRY KIND_TRUNCATE KIND_PURGE KIND_VOTE KIND_COMMITTED Pos.eqb]. rewrite decoded.
    split; cbn [log_entries log_meta mem_save_committed mem_log mem_vote mem_committed mem_purged]; [done|..].
    + by rewrite lookup_insert_ne.
    + rewrite lookup_insert_eq. apply decoded.
    + by rewrite lookup_insert_ne.
Qed.

Lemma mem_of_rel rs : Forall rec_typed rs → log_rel (wal_log rs) (mem_of rs).
Proof.
  unfold wal_log, mem_of. assert (log_rel Log_empty MemLogStore_new) as Hr by apply log_rel_empty. revert Hr.
  generalize Log_empty (MemLogStore_new (Mb := Mb)). intros l m Hr Hrs. revert l m Hr.
  induction Hrs as [|r rs Ht _ IH]; intros l m Hr; [done|]. cbn. by apply IH, rec_mem_step.
Qed.

(** ** The store over what was recovered *)

Lemma loc_entry (s : WalLog E) loc (e : Entry Mb) :
  reader_read loc (wl_wal s).2 = (Ok (default [] (serialize e)), (wl_wal s).2) →
  ∃ s', slot_entry (slot_of_loc loc) s = (Ok e, s') ∧ (wl_wal s').2 = (wl_wal s).2.
Proof.
  intros Hr. cbn. unfold pbind, wl_read_loc. rewrite Hr. unfold plift, decode_or. rewrite decoded.
  eexists. by split.
Qed.

Lemma locs_entries fs l es : ∀ s : WalLog E,
  Forall2 (λ (x : Z * Slot) (e : Entry Mb), ∃ loc, x.2 = slot_of_loc loc ∧
             reader_read loc fs = (Ok (default [] (serialize e)), fs)) l es →
  (wl_wal s).2 = fs → ∃ s', read_slots l s = (Ok es, s').
Proof.
  intros s Hf. revert s. induction Hf as [|[i sl] e l es (loc & Hsl & Hr) _ IH]; intros s Hs; [by eexists|].
  cbn in Hsl. subst sl. cbn [read_slots]. destruct (loc_entry s loc e) as (s1 & Hrun & Hs1); [by rewrite Hs|].
  rewrite (pbind_run _ _ _ _ _ Hrun). destruct (IH s1) as (s2 & Hrun2); [congruence|].
  rewrite (pbind_run _ _ _ _ _ Hrun2). by eexists.
Qed.

(** A store that reads as [m]. *)
Record reads_as (s : WalLog E) (m : MemLog Mb) : Prop := {
  ra_entries lo hi : (wl_try_get lo hi s).1 = Ok (mem_try_get lo hi m);
  ra_state : (wl_get_log_state (Mb := Mb) s).1 = Ok (mem_get_log_state m);
  ra_vote : (wl_read_vote s).1 = Ok (mem_vote m);
  ra_committed : (wl_read_committed s).1 = Ok (mem_committed m)
}.

Lemma decode_meta_value {A} `{BincodeLaws A} r kind (o : option A) :
  snd <$> meta r !! kind = o ≫= serialize → decode_meta r kind = Ok o.
Proof.
  intros Hm. unfold decode_meta. destruct o as [a|]; cbn in Hm.
  - rewrite encoded in Hm. destruct (meta r !! kind) as [[i b]|]; [|done]. injection Hm as ->.
    unfold decode_or. by rewrite decoded.
  - by destruct (meta r !! kind) as [[i b]|].
Qed.

Lemma recovered_entries fs r l (m : MemLog Mb) lo hi :
  recovered fs r l → log_rel l m →
  Forall2 (λ (x : Z * Slot) (e : Entry Mb), ∃ loc, x.2 = slot_of_loc loc ∧
             reader_read loc fs = (Ok (default [] (serialize e)), fs))
    (log_range lo hi (slot_of_loc <$> entries r)) (mem_try_get lo hi m).
Proof.
  intros [_ He] [Hl _ _ _]. unfold mem_try_get. apply Forall2_fmap_r.
  assert (∀ i, is_Some ((slot_of_loc <$> entries r) !! i) ↔ is_Some (mem_log m !! i)) as Hdom.
  { intros i. rewrite lookup_fmap, fmap_is_Some. specialize (He i). destruct (entries r !! i) as [loc|].
    - destruct He as (p & Hp & _). rewrite Hl in Hp. destruct (mem_log m !! i); [by split; eauto|done].
    - rewrite Hl in He. destruct (mem_log m !! i) as [e|]; [|by split; intros [? ?]]. cbn in He. by rewrite serialized in He. }
  eapply Forall2_impl; [by apply log_range_pair|]. intros [i sl] [j e] [Hs Hm]. cbn in *.
  rewrite lookup_fmap in Hs. specialize (He i). destruct (entries r !! i) as [loc|]; [|done]. injection Hs as <-.
  destruct He as (p & Hp & Hr). rewrite Hl, Hm in Hp. cbn in Hp. rewrite Hp. by exists loc.
Qed.

Lemma start_reads limit e w r fs l (m : MemLog Mb) :
  recovered fs r l → log_rel l m →
  ∃ s, wl_start limit e w r fs = Ok s ∧ reads_as s m ∧ wl_engine s = e ∧ ws_purged (wl_mem s) = mem_purged m.
Proof.
  intros Hr Hm. pose proof Hr as [Hmeta _]. pose proof Hm as [_ Hv Hc Hp]. unfold wl_start.
  rewrite (decode_meta_value r KIND_VOTE (mem_vote m)) by by rewrite Hmeta.
  assert (∃ o, decode_meta (A := option LogId) r KIND_COMMITTED = Ok o ∧ default None o = mem_committed m) as (o & -> & Ho).
  { unfold decode_meta. rewrite Hmeta. destruct (log_meta l !! KIND_COMMITTED) as [[i b]|]; [|by eexists].
    unfold decode_or. rewrite Hc. by eexists. }
  rewrite (decode_meta_value r KIND_PURGE (mem_purged m)).
  2:{ rewrite Hmeta, Hp. destruct (mem_purged m) as [id|]; [|done]. cbn. by rewrite <- encoded. }
  cbn [res_bind]. rewrite Ho. eexists. split; [reflexivity|]. split; [|done]. split; [| |done|done].
  - intros lo hi. pose proof (recovered_entries fs r l m lo hi Hr Hm) as Hf.
    unfold wl_try_get. erewrite pbind_run by reflexivity. cbn [wl_mem ws_entries]. cbv zeta.
    replace (forallb _ _) with true.
    2:{ symmetry. apply forallb_forall. intros x Hx%list_elem_of_In. apply list_elem_of_lookup_1 in Hx as [n Hn].
        eapply Forall2_lookup_l in Hf as (y & _ & loc & -> & _); done. }
    edestruct (locs_entries fs) as [s' Hrun]; [exact Hf| |by rewrite Hrun]. done.
  - pose proof (recovered_entries fs r l m IUnbounded IUnbounded Hr Hm) as Hf.
    unfold mem_try_get in Hf. rewrite <- !by_index_range, Forall2_fmap_r in Hf. apply Forall2_last in Hf.
    unfold wl_get_log_state. erewrite pbind_run by reflexivity. cbv zeta. unfold wl_last_log_id, mem_get_log_state.
    unfold pbind at 1. erewrite pbind_run by reflexivity. cbn [wl_mem ws_entries ws_purged].
    destruct Hf as [[i sl] [j x] (loc & Hsl & Hread)|]; [|done]. cbn in Hsl. subst sl.
    set (s0 := mkWalLog _ _ _ _ _ _ _ _ _ _).
    destruct (loc_entry s0 loc x) as (s1 & Hrun & _); [done|]. by rewrite (pbind_run _ _ _ _ _ Hrun).
Qed.

(** ** What is sent is typed, and never purges what is not applied *)

Definition data_ok (rs : list Rec) (e : E) : Prop :=
  Forall rec_typed rs ∧
  (∀ r, r ∈ rs → r_kind r = KIND_PURGE → r_index r < data_applied (durable e)) ∧
  data_applied (durable e) ≤ data_applied (contents e).

(** Mirroring a value moves no applied index. *)
Lemma mirror_applied key b (e e' : E) r :
  commit (batch_put TABLE_RAFT_META key b WriteBatch_new) (mkWriteOptions false) e = (r, e') →
  data_applied (contents e') = data_applied (contents e) ∧ durable e' = durable e.
Proof.
  intros Hc.
  assert (data_applied (apply_batch (batch_put TABLE_RAFT_META key b WriteBatch_new) (contents e)) = data_applied (contents e)) as Hb.
  { unfold data_applied. rewrite apply_batch_other; [done|]. intros op. cbn. by intros ->%list_elem_of_singleton. }
  destruct r as [[]|x].
  - pose proof (commit_ok _ _ _ _ Hc) as ->. pose proof (durable_commit _ _ _ _ Hc) as ->. done.
  - destruct (durable_commit_err _ _ _ _ _ Hc) as [->|[? _]]; [|done].
    destruct (commit_err _ _ _ _ _ Hc) as [->| ->]; done.
Qed.

Lemma sync_applied (e e' : E) r :
  data_applied (durable e) ≤ data_applied (contents e) → engine_sync e = (r, e') →
  data_applied (contents e') = data_applied (contents e) ∧
  data_applied (durable e) ≤ data_applied (durable e') ≤ data_applied (contents e') ∧
  (r = Ok () → durable e' = contents e').
Proof.
  intros Hle Hs. pose proof (sync_contents _ _ _ Hs) as Hc. rewrite Hc. destruct r as [[]|x].
  - apply durable_sync in Hs as Hd. rewrite Hd, Hc. split_and!; [done|lia|lia|done].
  - apply durable_sync_err in Hs as [->| ->]; rewrite ?Hc; split_and!; try done; lia.
Qed.

Lemma data_ok_engine rs (e e' : E) :
  data_ok rs e → data_applied (durable e) ≤ data_applied (durable e') ≤ data_applied (contents e') → data_ok rs e'.
Proof.
  intros (Ht & Hp & _) Hle. split_and!; [done| |lia]. intros r Hr Hk. specialize (Hp r Hr Hk). lia.
Qed.

Lemma data_ok_more rs rs' (e : E) :
  data_ok rs e → Forall rec_typed rs' →
  (∀ r, r ∈ rs' → r_kind r = KIND_PURGE → r_index r < data_applied (durable e)) → data_ok (rs ++ rs') e.
Proof.
  intros (Ht & Hp & Hle) Ht' Hp'. split_and!; [by apply Forall_app| |done].
  intros r [Hr|Hr]%elem_of_app; auto.
Qed.

Lemma data_ok_value rs (e : E) r :
  data_ok rs e → rec_typed r → r_kind r ≠ KIND_PURGE → data_ok (rs ++ [r]) e.
Proof. intros Hd Ht Hk. apply data_ok_more; [done|by constructor|]. by intros x ->%list_elem_of_singleton. Qed.

Lemma data_ok_purge rs (e : E) (id : LogId) :
  data_ok rs e → lid_index id < data_applied (durable e) →
  data_ok (rs ++ [mkRec KIND_PURGE (lid_index id) (default [] (serialize id))]) e.
Proof.
  intros Hd Hid. apply data_ok_more; [done|constructor; [|constructor]; right; right; left; by exists id|].
  by intros x ->%list_elem_of_singleton.
Qed.

Lemma complete_purge_data W (s : WalLog E) id :
  data_ok (recs (W ++ wl_queue s)) (wl_engine s) → lid_index id < data_applied (durable (wl_engine s)) →
  let s' := (complete_purge_send id s).2 in data_ok (recs (W ++ wl_queue s')) (wl_engine s').
Proof.
  intros Hd Hid. unfold complete_purge_send, pbind, plift. rewrite encode_or_ok.
  cbn [wl_queue wl_engine write_synced pbind new_ticket send pmodify pret snd new_arc].
  rewrite recs_snoc. by apply data_ok_purge.
Qed.

Lemma purge_data W (s : WalLog E) id r s' :
  lid_index id < data_applied (contents (wl_engine s)) → data_ok (recs (W ++ wl_queue s)) (wl_engine s) →
  wl_purge_send id s = (r, s') → data_ok (recs (W ++ wl_queue s')) (wl_engine s').
Proof.
  intros Hap Hd. unfold wl_purge_send. rewrite (pbind_run _ _ _ s s) by done. cbv zeta.
  erewrite pbind_run by reflexivity. erewrite pbind_run by (unfold plift; by rewrite encode_or_ok).
  unfold pbind at 1, mirror. cbn [wl_engine]. destruct (commit _ _ _) as [r1 e'] eqn:Hc.
  apply mirror_applied in Hc as [Hc Hdu].
  assert (data_ok (recs (W ++ wl_queue s)) e') as Hd'.
  { eapply data_ok_engine; [exact Hd|]. rewrite Hdu, Hc. destruct Hd as (_ & _ & ?). lia. }
  destruct (match last_index (wl_mem s) with Some l => _ | None => _ end); [|intros [= <- <-]; exact Hd'].
  unfold pbind at 1, sync_engine. cbn [wl_engine set_engine]. destruct (engine_sync e') as [r2 e2] eqn:Hs.
  apply sync_applied in Hs as (Hc2 & Hle2 & Hok); [|apply Hd'].
  assert (data_ok (recs (W ++ wl_queue s)) e2) as Hd2 by (eapply data_ok_engine; [exact Hd'|]; lia).
  destruct r2 as [[]|x]; [|intros [= <- <-]; exact Hd2]. unfold pbind at 1.
  set (s2 := set_engine e2 _).
  assert (data_ok (recs (W ++ wl_queue s2)) (wl_engine s2)) as Hds by done.
  apply (complete_purge_data W s2 id) in Hds; [|cbn; rewrite Hok by done; lia]. cbv zeta in Hds.
  destruct (complete_purge_send id s2) as [[t|x] s3]; intros [= <- <-]; exact Hds.
Qed.

Lemma data_step W (s : WalLog E) ev :
  admissible W ev s → data_ok (recs (W ++ wl_queue s)) (wl_engine s) →
  data_ok (recs ((W ++ taken ev s) ++ wl_queue (ev_step ev s))) (wl_engine (ev_step ev s)).
Proof.
  intros Had Hd. destruct ev as [es|c|v|v b t|id|id t|id|id t|d tg p|n|e]; cbn [taken ev_step]; rewrite ?app_nil_r.
  - unfold wl_append, pbind.
    destruct (wl_append_loop_run es [] None s) as (s' & xs & last' & -> & _ & Hq & _ & _ & He & _ & _ & _ & Hxs).
    cbn [snd app new_ticket send pmodify pret wl_queue wl_engine]. rewrite Hq, He, recs_snoc.
    assert (Forall rec_typed (cmd_recs (mkCmd (entry_recs xs) true None (Some (DoneAppend last' (wl_tickets s'))))) ∧
            ∀ r, r ∈ cmd_recs (mkCmd (entry_recs xs) true None (Some (DoneAppend last' (wl_tickets s')))) → r_kind r ≠ KIND_PURGE) as [Ht Hk].
    { unfold cmd_recs, entry_recs. cbn [cmd_records]. rewrite <- list_fmap_compose. rewrite Forall_forall.
      split; intros r (x & -> & Hx)%list_elem_of_fmap; [|done]. left.
      rewrite Hxs in Hx. apply list_elem_of_lookup_1 in Hx as [k Hk]. rewrite list_lookup_imap in Hk.
      destruct (es !! k) as [e|]; [|done]. injection Hk as <-. by exists e. }
    apply data_ok_more; [done|done|]. intros r Hr Hp. by destruct (Hk r Hr).
  - unfold wl_save_committed, pbind, on_mem, pmodify, plift. rewrite encode_or_ok.
    destruct c as [c|]; cbn [snd send pmodify wl_note_committed pret new_arc wl_queue wl_engine]; rewrite recs_snoc;
      (apply data_ok_value; [done|do 4 right; by eexists|done]).
  - unfold wl_save_vote_send, pbind, plift. rewrite encode_or_ok.
    cbn [wl_queue wl_engine write_synced pbind new_ticket send pmodify pret snd new_arc]. rewrite recs_snoc.
    apply data_ok_value; [done|do 3 right; left; by eexists|done].
  - unfold wl_save_vote_done, answer, pbind. destruct (wl_replies s !! t) as [[u|]|]; [|done|done].
    unfold mirror, on_progress, on_mem, pmodify. cbn [wl_engine]. destruct (commit _ _ _) as [r e'] eqn:Hc.
    apply mirror_applied in Hc as [Hc Hdu]. cbn. eapply data_ok_engine; [exact Hd|]. rewrite Hdu, Hc.
    destruct Hd as (_ & _ & ?). lia.
  - unfold wl_truncate_send, pbind, on_mem, pmodify.
    cbn [wl_queue wl_engine write_synced pbind new_ticket send pmodify pret snd new_arc]. rewrite recs_snoc.
    apply data_ok_value; [done|right; left; by eexists|done].
  - unfold wl_truncate_done, answer, pbind. by destruct (wl_replies s !! t) as [[u|]|].
  - destruct Had as [_ Hap]. destruct (wl_purge_send id s) as [r s'] eqn:Hr. by eapply purge_data.
  - unfold complete_purge_done, answer, pbind. by destruct (wl_replies s !! t) as [[u|]|].
  - unfold checkpoint_send, sync_engine. destruct (engine_sync _) as [r2 e2] eqn:Hs.
    apply sync_applied in Hs as (Hc2 & Hle2 & Hok); [|apply Hd].
    assert (data_ok (recs (W ++ wl_queue s)) e2) as Hd2 by by eapply data_ok_engine.
    destruct r2 as [[]|x]; [|exact Hd2]. destruct p as [p|]; [|exact Hd2]. destruct (_ <? _); [|exact Hd2].
    destruct Had as (_ & _ & Hap & _). set (s2 := set_engine e2 s).
    assert (data_ok (recs (W ++ wl_queue s2)) (wl_engine s2)) as Hds by done.
    apply (complete_purge_data W s2 p) in Hds; [|cbn; rewrite Hok by done; lia]. cbv zeta in Hds.
    destruct (complete_purge_send p s2) as [[t|x] s3]; exact Hds.
  - rewrite writer_turn_queue, <- app_assoc, take_drop. unfold writer_turn. cbn zeta.
    match goal with |- context [foldl _ ?s1 _] =>
      destruct (run_dones_same (match wl_failed s1 with Some e => Err e | None => Ok () end)
        (take (Nat.min n GROUP_MAX) (wl_queue s)) s1) as (_ & _ & _ & _ & Hq & _); rewrite Hq; clear Hq end.
    cbn. destruct (wl_failed s); [done|]. by destruct (write_group _ _) as [[[pl d]|e] w].
  - destruct Had as [H1' H2']. by eapply data_ok_engine.
Qed.

Lemma data_run evs x :
  run_admissible evs x → data_ok (recs (sent_cmds x)) (wl_engine x.2) →
  data_ok (recs (sent_cmds (foldl run_step x evs))) (wl_engine (foldl run_step x evs).2).
Proof.
  revert x. induction evs as [|ev evs IH]; intros x Had Hd; [done|]. destruct Had as [Ha Had]. cbn.
  apply IH; [done|]. by apply data_step.
Qed.

(** ** Crashes *)

Lemma purge_index_source rs p :
  purge_index (wal_log rs) = Some p → ∃ r, r ∈ rs ∧ r_kind r = KIND_PURGE ∧ r_index r = p.
Proof.
  induction rs as [|r rs IH] using rev_ind; [done|]. rewrite wal_log_app. cbn [log_from foldl].
  change (log_from (wal_log rs) [r]) with (log_step (wal_log rs) r). rewrite purge_index_step.
  destruct (Z.eqb_spec (r_kind r) KIND_PURGE) as [Hk|Hk].
  - intros [= <-]. exists r. set_solver.
  - intros (x & Hx & ? & ?)%IH. exists x. set_solver.
Qed.

Lemma mem_purged_applied rs (e : E) id m :
  data_ok rs e → mem_purged (mem_of (take m rs)) = Some id → lid_index id < data_applied (durable e).
Proof.
  intros (Ht & Hp & _) Hm.
  assert (Forall rec_typed (take m rs)) as Htm by by apply Forall_take.
  pose proof (lr_purged _ _ (mem_of_rel _ Htm)) as Hl. rewrite Hm in Hl. cbn in Hl.
  destruct (purge_index_source (take m rs) (lid_index id)) as (r & Hr & Hk & <-).
  { unfold purge_index. by rewrite Hl. }
  apply Hp; [by eapply elem_of_take_in|done].
Qed.

End recover.

(** ** A concrete crash *)

Import WalDemo.

(** One more append, written in the last turn. *)
Definition demo_tail : list (WlEvent (E := DiskEngine) (Mb := list Z)) :=
  demo_events ++ [WvAppend [demo_entry 1 2]].

Lemma demo_tail_admissible : run_admissible demo_tail ([], demo_start).
Proof.
  cbn [run_admissible demo_tail demo_events admissible app].
  split_and!; try eval_side.
  - repeat first [apply Forall_nil_2|apply Forall_cons_2]; split_and!; eval_side.
  - vm_compute. done.
  - exists (demo_lid 0). vm_compute. done.
  - intros r. vm_compute. done.
  - repeat first [apply Forall_nil_2|apply Forall_cons_2]; split_and!; eval_side.
Qed.

Definition demo_cut (name : bytes) : nat := 100.

Lemma demo_tears :
  forallb tear_detected (recs ((wl_run demo_tail demo_start).1 ++ take 1 (wl_queue (wl_run demo_tail demo_start).2))) = true.
Proof. eval_side. Qed.


(** ** A checkpoint that completes an older purge *)

(** The checkpointer reads the pending purge before it syncs the data file
    and records it after.  Here the log is purged up to 0, and while the
    checkpoint syncs, a snapshot up to 10 is installed, whose purge is
    recorded first. *)
Definition stale_events : list (WlEvent (E := DiskEngine) (Mb := list Z)) :=
  [WvAppend [demo_entry 1 0; demo_entry 1 1; demo_entry 1 2]; WvWriter 1; WvData (demo_disk 2);
   WvPurge (demo_lid 0); WvData (demo_disk 10); WvPurge (demo_lid 10); WvWriter 1; WvPurged (demo_lid 10) 1;
   WvCheckpoint None 3 (Some (demo_lid 0)); WvWriter 1; WvPurged (demo_lid 0) 2;
   WvAppend [demo_entry 2 11]; WvWriter 1].

Definition stale_store : WalLog DiskEngine := (wl_run stale_events demo_start).2.
Definition stale_reopened : result string (WalLog DiskEngine) :=
  match open 4096 (crash demo_cut (wl_wal stale_store).2) with
  | (Ok (w, r), fs') => wl_start 100 (demo_disk 10) w r fs'
  | (Err _, _) => Err "open"
  end.

Lemma stale_checkpoint_leaves_hole :
  (ws_purged (wl_mem stale_store) = Some (demo_lid 10)) ∧
  match stale_reopened with
  | Ok s => ws_purged (wl_mem s) = Some (demo_lid 0) ∧
            (wl_try_get (IIncluded 0) IUnbounded s).1 = Ok [demo_entry 2 11]
  | Err _ => False
  end.
Proof. split; vm_compute; [reflexivity|split; reflexivity]. Qed.
