(* ===== verification/WalMigrate.v ===== *)
(** * From the log in the data file to the WAL

    [migrate] copies the log a member of an older release kept in the data
    file into a WAL beside it, and puts it in place with one rename.  Whatever
    call fails, and wherever a crash cuts, the directory has no segment, and
    the next start copies again, or it opens as the whole log. *)

From S2P Require Import Prelude Revision Record KvStore Lease Cache Auth Store.
From S2P Require Import SnapshotPolicy StateMachine LogStore SmDemo EntryCodec LogKv Wal WalCodec.
From S2P Require Import WalLog WalDisk WalOps WalRun WalCrash WalStore WalMem WalThread WalTurn WalCalls.
From S2P Require Import WalEvents WalReads WalRecover.

Section migrate.
Context {E : Type} `{KvStoreLaws E} `{!DurableStore E} `{!DurableLaws E} {Mb : Type}.
Context `{BincodeLaws (Entry Mb)} `{BincodeLaws Vote} `{BincodeLaws LogId} `{BincodeLaws (option LogId)}.

(** ** The records written *)

Definition row_rec (x : bytes * bytes) : Rec := mkRec KIND_ENTRY (be_value x.1) x.2.

Definition meta_recs (snap : Tables) (key : bytes) (kind : Z) (index : bytes → result IoError Z) : list Rec :=
  match snap_get snap TABLE_RAFT_META key with
  | None => []
  | Some v => match index v with Ok i => [mkRec kind i v] | Err _ => [] end
  end.

Definition head_recs (snap : Tables) : list Rec :=
  meta_recs snap META_VOTE KIND_VOTE no_index ++
  meta_recs snap META_LAST_PURGED KIND_PURGE logid_index ++
  meta_recs snap META_COMMITTED KIND_COMMITTED no_index.

Definition log_rows (snap : Tables) (start : Bound) : list (bytes * bytes) :=
  map_range start Unbounded (table_rows TABLE_LOG snap).

Lemma append_running w fs X n r x w' fs' :
  running w fs X 0 false n → is_u64 (r_index r) → n + 2 ≤ u64_max →
  append [r] (w, fs) = (Ok x, (w', fs')) → running w' fs' (X ++ [r]) 0 false (n + 2).
Proof.
  intros Hr Hu Hn Ha. refine (call_running w fs X 0 false n (WAppend [r]) (Ok ()) w' fs' Hr eq_refl _ Hn _).
  - by constructor.
  - cbn [wal_call]. by rewrite (pbind_run _ _ _ _ _ Ha).
Qed.

Lemma rows_running rows : ∀ w fs X n w' fs',
  running w fs X 0 false n → n + 2 * Z.of_nat (length rows) ≤ u64_max →
  migrate_rows rows (w, fs) = (Ok (), (w', fs')) →
  running w' fs' (X ++ (row_rec <$> rows)) 0 false (n + 2 * Z.of_nat (length rows)).
Proof.
  induction rows as [|[k v] rows IH]; intros w fs X n w' fs' Hr Hn; cbn [migrate_rows].
  { intros [= <- <-]. rewrite app_nil_r, Z.add_0_r. done. }
  destruct (Nat.eqb_spec (length k) 8) as [Hk|]; [|done]. cbn [length] in Hn.
  intros (x & [w1 fs1] & Ha & Hrest)%pbind_ok.
  eapply append_running in Ha; [|done| |lia].
  2:{ cbn. pose proof (be_value_range k) as Hv. rewrite Hk in Hv. unfold is_u64, two64. change (256 ^ Z.of_nat 8) with (2 ^ 64) in Hv. lia. }
  eapply IH in Hrest; [|done|lia]. rewrite <- app_assoc in Hrest. cbn [app] in Hrest.
  replace (n + 2 * Z.of_nat (length ((k, v) :: rows))) with (n + 2 + 2 * Z.of_nat (length rows)) by (cbn [length]; lia).
  done.
Qed.

Lemma pages_running snap fuel : ∀ start w fs X n w' fs',
  running w fs X 0 false n → (length (log_rows snap start) < fuel)%nat →
  n + 2 * Z.of_nat (length (log_rows snap start)) ≤ u64_max →
  migrate_pages fuel snap start (w, fs) = (Ok (), (w', fs')) →
  running w' fs' (X ++ (row_rec <$> log_rows snap start)) 0 false (n + 2 * Z.of_nat (length (log_rows snap start))).
Proof.
  induction fuel as [|fuel IH]; intros start w fs X n w' fs' Hr Hf Hn; [lia|]. cbn [migrate_pages].
  unfold snap_range, limited, MIGRATE_PAGE. fold (log_rows snap start). set (rows := log_rows snap start) in *.
  destruct (last (take 1024 rows)) as [[k v]|] eqn:Hl.
  - intros ([] & [w1 fs1] & Hp & Hrest)%pbind_ok.
    apply last_Some in Hl as [init Hi].
    assert (log_rows snap (Excluded k) = drop 1024 rows) as Hnext.
    { eapply (map_range_after _ start Unbounded init k v). fold (log_rows snap start). fold rows.
      rewrite <- (take_drop 1024 rows) at 1. by rewrite Hi, <- app_assoc. }
    assert (length rows = length (take 1024 rows) + length (drop 1024 rows))%nat as Hlen
      by (rewrite <- length_app; by rewrite take_drop).
    assert (0 < length (take 1024 rows))%nat by (rewrite Hi, length_app; cbn; lia).
    eapply rows_running in Hp; [|done|lia].
    eapply IH in Hrest; [|done|rewrite Hnext; lia|rewrite Hnext; lia].
    rewrite Hnext, <- app_assoc, <- fmap_app, take_drop in Hrest.
    replace (n + 2 * Z.of_nat (length rows)) with
      (n + 2 * Z.of_nat (length (take 1024 rows)) + 2 * Z.of_nat (length (drop 1024 rows))) by lia. done.
  - intros [= <- <-]. apply last_None in Hl. assert (rows = []) as -> by (destruct rows; done).
    rewrite app_nil_r, Z.add_0_r. done.
Qed.

Lemma meta_running snap key kind index w fs X n w' fs' :
  running w fs X 0 false n →
  (∀ v i, snap_get snap TABLE_RAFT_META key = Some v → index v = Ok i → is_u64 i) → n + 2 ≤ u64_max →
  append_meta snap key kind index (w, fs) = (Ok (), (w', fs')) →
  ∃ n', n ≤ n' ≤ n + 2 ∧ running w' fs' (X ++ meta_recs snap key kind index) 0 false n'.
Proof.
  intros Hr Hi Hn. unfold append_meta, meta_recs. destruct (snap_get snap TABLE_RAFT_META key) as [v|] eqn:Hg.
  - intros (i & [w1 fs1] & Hp & (x & [w2 fs2] & Ha & [= <- <-])%pbind_ok)%pbind_ok.
    unfold plift in Hp. destruct (index v) as [j|] eqn:Hj; simplify_eq. exists (n + 2).
    split; [lia|]. eapply append_running in Ha; [done|done| |lia]. by eapply Hi.
  - intros [= <- <-]. exists n. rewrite app_nil_r. split; [lia|done].
Qed.

(** What is in the temporary directory once the WAL is synced. *)
Lemma into_running sb snap faults fs :
  (∀ v i, snap_get snap TABLE_RAFT_META META_LAST_PURGED = Some v → logid_index v = Ok i → is_u64 i) →
  2 * Z.of_nat (length (log_rows snap Unbounded)) + 7 ≤ u64_max →
  migrate_into sb snap (mkFs ∅ faults) = (Ok (), fs) →
  ∃ w n, let X := head_recs snap ++ (row_rec <$> log_rows snap Unbounded) in
    running w fs X (length X) true n.
Proof.
  intros Hu Hn. unfold migrate_into. intros ([w r] & fs1 & Ho & Hrest)%pbind_ok.
  apply open_fresh in Ho as [Hr _]; [|intros name [f Hf]; cbn in Hf; by rewrite lookup_empty in Hf].
  unfold on_wal in Hrest. match type of Hrest with (let '(_, _) := ?p in _) = _ => destruct p as [r2 [w2 fs2]] eqn:Hp end.
  simplify_eq. apply pbind_ok in Hp as ([] & [wa fa] & Ha & Hp).
  apply pbind_ok in Hp as ([] & [wb fb] & Hb & Hp). apply pbind_ok in Hp as ([] & [wc fc] & Hc & Hp).
  apply pbind_ok in Hp as ([] & [wd fd] & Hd & Hp).
  eapply meta_running in Ha as (na & Hna & Ha); [|done|by intros v i _ [= <-]|lia].
  eapply meta_running in Hb as (nb & Hnb & Hb); [|done|done|lia].
  eapply meta_running in Hc as (nc & Hnc & Hc); [|done|by intros v i _ [= <-]|lia].
  eapply pages_running in Hd; [|done|unfold log_rows; pose proof (rows_fuel TABLE_LOG snap Unbounded Unbounded); lia|lia].
  eapply (call_running _ _ _ _ _ _ WSync) in Hp; [|done|done|done|cbn; unfold call_cost; cbn; lia].
  cbn [call_records sync_step snd fst syncs] in Hp. rewrite app_nil_r in Hp.
  eexists w2, _. unfold head_recs. cbn [app] in Hp. rewrite <- !app_assoc in *. exact Hp.
Qed.

(** A synced WAL opens whole after any crash. *)
Lemma synced_opens sb cut w fs X n :
  running w fs X (length X) true n →
  ∃ w' r fs', open sb (crash cut fs) = (Ok (w', r), fs') ∧ recovered fs' r (wal_log X).
Proof.
  intros (closed & q & rs & k & [[Hd _ _ _ Hw Hk] Hlog _ _ _ _] & _ & Hs).
  destruct (Hs eq_refl) as [_ ->]. rewrite app_nil_r in *.
  destruct (open_disk sb cut fs closed q rs (length rs)) as (w' & r & fs' & j & Ho & Hj & _ & Hrec).
  - eapply disk_weaken; [|exact Hd]. intros f. apply file_ok_torn.
  - done.
  - done.
  - by rewrite drop_all.
  - exists w', r, fs'. rewrite take_ge, Hlog in Hrec by lia. done.
Qed.

(** ** What they mean *)

Lemma ascending_log (xs : list (Z * bytes)) : ∀ l,
  StronglySorted Z.lt xs.*1 →
  (∀ x, x ∈ xs → unpurged l x.1 = true ∧ ∀ j, is_Some (log_entries l !! j) → j < x.1) →
  let l' := foldl log_step l ((λ x, mkRec KIND_ENTRY x.1 x.2) <$> xs) in
  log_meta l' = log_meta l ∧
  ∀ i p, log_entries l' !! i = Some p ↔ (i, p) ∈ xs ∨ log_entries l !! i = Some p.
Proof.
  induction xs as [|[i b] xs IH]; intros l Hs Hx; cbv zeta; [cbn; set_solver|].
  rewrite fmap_cons in Hs. apply StronglySorted_cons in Hs as [Hi Hs]. cbn [fst] in Hi.
  rewrite Forall_fmap, Forall_forall in Hi.
  destruct (Hx (i, b)) as [Hun Hlt]; [by left|]. cbn [fst] in *.
  cbn [fmap list_fmap foldl fst snd]. rewrite log_step_entry by done. cbn [r_index r_payload]. rewrite Hun. cbv zeta.
  assert (∀ j p, (<[i:=b]> (keep_below i (log_entries l))) !! j = Some p ↔ (j, p) = (i, b) ∨ log_entries l !! j = Some p) as Hins.
  { intros j p. destruct (decide (j = i)) as [->|Hne].
    - rewrite lookup_insert_eq. split; [intros [= ->]; by left|]. intros [[= ->]|Hj]; [done|].
      assert (i < i) by (apply Hlt; eauto). lia.
    - rewrite lookup_insert_ne, lookup_keep_below by done. case_decide as Hd; [naive_solver|].
      split; [done|]. intros [[= -> ->]|Hj]; [done|]. destruct Hd. apply Hlt. eauto. }
  destruct (IH (mkLog (<[i:=b]> (keep_below i (log_entries l))) (log_meta l)) Hs) as [Hm He].
  - intros [i2 b2] Hin. destruct (Hx (i2, b2)) as [Hun2 Hlt2]; [by right|]. split; [exact Hun2|].
    cbn [log_entries fst]. intros j [p [[= -> ->]|Hj]%Hins]; [by apply (Hi (i2, b2))|]. apply Hlt2. eauto.
  - split; [exact Hm|]. intros j p. rewrite He. cbn [log_entries]. rewrite Hins, elem_of_cons. naive_solver.
Qed.

(** Entries are above what is purged. *)
Definition above_purge (m : MemLog Mb) : Prop :=
  ∀ p, mem_purged m = Some p → is_u64 (lid_index p) ∧ ∀ i e, mem_log m !! i = Some e → lid_index p < i.

Lemma value_log snap key kind l :
  kind = KIND_VOTE ∨ kind = KIND_COMMITTED →
  foldl log_step l (meta_recs snap key kind no_index)
  = mkLog (log_entries l) (match snap !! (TABLE_RAFT_META, key) with
                           | Some v => <[kind := (0, v)]> (log_meta l)
                           | None => log_meta l
                           end).
Proof.
  intros Hk. unfold meta_recs, snap_get, no_index. destruct (snap !! (TABLE_RAFT_META, key)) as [v|]; cbn [foldl].
  - by rewrite log_step_value.
  - by destruct l.
Qed.

Lemma purge_log snap (m : MemLog Mb) l :
  snap !! (TABLE_RAFT_META, META_LAST_PURGED) = mem_purged m ≫= serialize → log_entries l = ∅ →
  foldl log_step l (meta_recs snap META_LAST_PURGED KIND_PURGE logid_index)
  = mkLog ∅ (match mem_purged m with
             | Some id => <[KIND_PURGE := (lid_index id, default [] (serialize id))]> (log_meta l)
             | None => log_meta l
             end).
Proof.
  intros Hp He. unfold meta_recs, snap_get, logid_index. rewrite Hp. destruct (mem_purged m) as [id|]; cbn [mbind option_bind].
  - rewrite (encoded id) at 1. rewrite (decoded id). cbn [ok_or res_bind foldl].
    rewrite log_step_purge by done. cbn [r_index r_payload]. rewrite He. f_equal.
  - cbn [foldl]. destruct l as [es mt]. cbn in He. by subst es.
Qed.

Lemma head_log snap (m : MemLog Mb) :
  kv_rel snap m →
  let l := wal_log (head_recs snap) in
  log_entries l = ∅ ∧ snd <$> log_meta l !! KIND_VOTE = mem_vote m ≫= serialize ∧
  match log_meta l !! KIND_COMMITTED with
  | Some (_, b) => deserialize b = Some (mem_committed m)
  | None => mem_committed m = None
  end ∧
  log_meta l !! KIND_PURGE = (λ id, (lid_index id, default [] (serialize id))) <$> mem_purged m.
Proof.
  intros [_ _ _ Hv Hc Hp]. cbv zeta. unfold wal_log, log_from, head_recs. rewrite !foldl_app, (value_log _ _ _ Log_empty) by (by left).
  rewrite (purge_log _ m) by done. rewrite value_log by (by right). cbn [log_entries log_meta].
  set (vm := match _ with Some v => <[KIND_VOTE := (0, v)]> _ | None => _ end).
  assert (vm !! KIND_COMMITTED = None ∧ vm !! KIND_PURGE = None ∧ snd <$> vm !! KIND_VOTE = mem_vote m ≫= serialize) as (Hv1 & Hv2 & Hv3).
  { unfold vm. rewrite Hv. destruct (mem_vote m ≫= serialize) as [b|]; [|done].
    rewrite !(lookup_insert_ne _ KIND_VOTE) by done. by rewrite lookup_insert_eq. }
  set (pm := match mem_purged m with Some _ => _ | None => _ end).
  assert (pm !! KIND_COMMITTED = None ∧ snd <$> pm !! KIND_VOTE = mem_vote m ≫= serialize ∧
          pm !! KIND_PURGE = (λ id, (lid_index id, default [] (serialize id))) <$> mem_purged m) as (Hp1 & Hp2 & Hp3).
  { unfold pm. destruct (mem_purged m) as [id|]; [|done].
    rewrite !(lookup_insert_ne _ KIND_PURGE) by done. by rewrite lookup_insert_eq. }
  destruct (snap !! (TABLE_RAFT_META, META_COMMITTED)) as [c|]; split_and!; try done.
  - by rewrite lookup_insert_ne.
  - by rewrite lookup_insert_eq.
  - by rewrite lookup_insert_ne.
  - by rewrite Hp1.
Qed.

Lemma legacy_log snap (m : MemLog Mb) :
  kv_rel snap m → above_purge m →
  log_rel (wal_log (head_recs snap ++ (row_rec <$> log_rows snap Unbounded))) m.
Proof.
  intros Hk Hab. destruct (head_log snap m Hk) as (He & Hv & Hc & Hp).
  pose proof (range_rows snap m IUnbounded IUnbounded Hk I I) as Hr. cbn [key_bound] in Hr.
  rewrite <- by_index_range in Hr. unfold snap_range, limited in Hr. fold (log_rows snap Unbounded) in Hr.
  set (xs := (λ x : Z * Entry Mb, (x.1, default [] (serialize x.2))) <$> by_index (mem_log m)).
  assert (row_rec <$> log_rows snap Unbounded = (λ x : Z * bytes, mkRec KIND_ENTRY x.1 x.2) <$> xs) as ->.
  { rewrite Hr. unfold xs. rewrite <- !list_fmap_compose. apply list_fmap_ext. intros n [i e] Hin. cbn. unfold row_rec, row_of. cbn.
    f_equal. apply list_elem_of_lookup_2, by_index_elem, (kr_index _ _ Hk) in Hin as [Hu _].
    apply be_bytes_value. exact Hu. }
  rewrite wal_log_app. unfold log_from. set (l := wal_log (head_recs snap)) in *.
  assert (∀ i e, (i, e) ∈ xs ↔ ∃ x, mem_log m !! i = Some x ∧ e = default [] (serialize x)) as Hxs.
  { intros i e. unfold xs. rewrite list_elem_of_fmap. split.
    - intros ([j x] & [= -> ->] & Hj%by_index_elem). eauto.
    - intros (x & Hx & ->). exists (i, x). by rewrite by_index_elem. }
  destruct (ascending_log xs l) as [Hm Hent].
  - unfold xs. rewrite <- list_fmap_compose. apply by_index_sorted.
  - intros [i b] (x & Hx & _)%Hxs. cbn [fst]. split; [|intros j [y Hy]; rewrite He in Hy; done].
    unfold unpurged, purge_index. rewrite Hp. destruct (mem_purged m) as [p|] eqn:Hpm; [|done]. cbn.
    destruct (Hab p Hpm) as [_ Hlt]. specialize (Hlt i x Hx). apply Z.ltb_lt. lia.
  - split; rewrite ?Hm; [|done..]. intros i. apply option_eq. intros b. rewrite Hent, Hxs, He, lookup_empty. split.
    + intros [(x & Hx & ->)|?]; [|done]. rewrite Hx. cbn. apply encoded.
    + destruct (mem_log m !! i) as [x|]; [|done]. cbn. intros Hb. left. exists x. by rewrite Hb.
Qed.

(** ** Migration is atomic *)

(** The directory opens as [m], wherever a crash cuts it. *)
Definition opens_as (sb : Z) (fs : Fs) (m : MemLog Mb) : Prop :=
  ∀ cut limit (e : E), ∃ w r fs' s, open sb (crash cut fs) = (Ok (w, r), fs') ∧
    wl_start limit e w r fs' = Ok s ∧ reads_as s m.

Lemma no_files_no_segments faults : has_segments (mkFs ∅ faults) = false.
Proof. done. Qed.

(** C13.  A member that moves from the log in the data file to the WAL loses
    nothing of it.  Whatever I/O call fails on the way, the directory has no
    segment, so that the next start copies the log again, from the data file
    that is cleared only afterwards; or it opens, after any crash, as the
    whole log: entries, log state, vote and committed id.  A migration that
    succeeds leaves the latter. *)
Theorem migrate_atomic sb snap (m : MemLog Mb) fs r fs' :
  has_segments fs = false → kv_rel snap m → above_purge m →
  2 * Z.of_nat (base.size snap) + 7 ≤ u64_max →
  migrate sb snap fs = (r, fs') →
  match r with
  | Ok _ => opens_as sb fs' m
  | Err _ => has_segments fs' = false ∨ opens_as sb fs' m
  end.
Proof.
  intros Hs Hk Hab Hn. unfold migrate.
  destruct (migrate_into sb snap (mkFs ∅ (fs_faults fs))) as [[[]|x] tmp] eqn:Hi; [|intros [= <- <-]; by left].
  apply into_running in Hi as (w & n & Hrun).
  2:{ intros v i Hv Hj. unfold snap_get in Hv. rewrite (kr_purged _ _ Hk) in Hv. destruct (mem_purged m) as [p|] eqn:Hp; [|done].
      cbn in Hv. unfold logid_index in Hj. rewrite (encoded p) in Hv. injection Hv as <-. rewrite decoded in Hj.
      cbn in Hj. injection Hj as <-. by apply Hab. }
  2:{ pose proof (rows_fuel TABLE_LOG snap Unbounded Unbounded). unfold log_rows. lia. }
  cbv zeta in Hrun.
  assert (∀ faults, opens_as sb (mkFs (fs_files tmp) faults) m) as Hopens.
  { intros faults cut limit e. destruct (synced_opens sb cut _ _ _ _ Hrun) as (w' & r' & fs2 & Ho & Hrec).
    destruct (start_reads limit e w' r' fs2 _ m Hrec (legacy_log snap m Hk Hab)) as (s & Hst & Hra & _).
    by exists w', r', fs2, s. }
  unfold rename_dir, pbind, pmodify.
  destruct (io_guard (mkFs (fs_files fs) _)) as [[[]|x] f1] eqn:Hg1; apply io_guard_inv in Hg1; cbn in Hg1.
  2:{ intros [= <- <-]. left. unfold has_segments. by rewrite Hg1. }
  destruct (io_guard (mkFs ∅ _)) as [[[]|x] f2] eqn:Hg2; apply io_guard_inv in Hg2; cbn in Hg2.
  2:{ intros [= <- <-]. left. unfold has_segments. by rewrite Hg2. }
  destruct (io_guard (mkFs (fs_files tmp) _)) as [[[]|x] f3] eqn:Hg3; apply io_guard_inv in Hg3; cbn in Hg3;
    intros [= <- <-]; destruct f3; cbn in Hg3; subst; [apply Hopens|right; apply Hopens].
Qed.
End migrate.

(** ** A log in the data file *)

Import WalDemo.

Definition demo_mem : MemLog (list Z) := mem_run demo_log_ops MemLogStore_new.
Definition demo_migrated : Fs := (migrate 4096 (contents (kl_engine demo_kv)) (mkFs ∅ [])).2.

Lemma demo_above : above_purge demo_mem.
Proof.
  intros p Hp. assert (p = mkLogId 1 1 0) as -> by (vm_compute in Hp; congruence).
  split; [unfold is_u64, two64; cbn; lia|]. intros i e Hi.
  assert (i ∈ (by_index (mem_log demo_mem)).*1) as Hin
    by (apply (list_elem_of_fmap_2 fst _ (i, e)); by apply by_index_elem).
  assert ((by_index (mem_log demo_mem)).*1 = [1; 2]) as Hl by (vm_compute; reflexivity).
  rewrite Hl in Hin. cbn. set_solver by lia.
Qed.

Lemma demo_migrates : migrate 4096 (contents (kl_engine demo_kv)) (mkFs ∅ []) = (Ok (), demo_migrated).
Proof. vm_compute. reflexivity. Qed.

Lemma migrate_atomic_witness : opens_as (E := DiskEngine) 4096 demo_migrated demo_mem.
Proof.
  refine (migrate_atomic 4096 _ demo_mem (mkFs ∅ []) (Ok ()) demo_migrated eq_refl _ demo_above _ demo_migrates).
  - apply demo_logged.
  - vm_compute. discriminate.
Defined.
