(* ===== verification/WalLimits.v ===== *)
(** * How much of the log is sent, and how much is kept

    The cut [limited_get_log_entries] makes so that one message holds about
    [REPLICATION_BYTES], and the point [purge_point_keeping] purges to. *)

From S2P Require Import Prelude Revision Record KvStore Lease Cache Auth Store.
From S2P Require Import SnapshotPolicy StateMachine LogStore EntryCodec LogKv Wal WalStore WalMem.

Definition bytes_of (len : Slot → Z) (l : list (Z * Slot)) : Z := foldr (λ x n, len x.2 + n) 0 l.
#[local] Arguments bytes_of : simpl never.

Lemma bytes_of_cons len x l : bytes_of len (x :: l) = len x.2 + bytes_of len l.
Proof. done. Qed.

Lemma bytes_of_app len a b : bytes_of len (a ++ b) = bytes_of len a + bytes_of len b.
Proof. induction a as [|x a IH]; cbn [app]; rewrite ?bytes_of_cons, ?IH; [done|lia]. Qed.

(** ** One message *)

(** Where the loop stops: after [k] rows. *)
Lemma limit_stop_spec l : ∀ sent stop,
  Forall (λ x : Z * Slot, 0 ≤ slot_len x.2) l → 0 ≤ sent →
  ∃ k, (k ≤ length l)%nat ∧
    limit_stop l sent stop = match l !! k with Some x => x.1 | None => stop end ∧
    (∀ x, l !! k = Some x → 0 < sent + bytes_of slot_len (take k l) ∧
                             REPLICATION_BYTES < sent + bytes_of slot_len (take (S k) l)) ∧
    (∀ j, (j < k)%nat → sent + bytes_of slot_len (take j l) = 0 ∨
              sent + bytes_of slot_len (take (S j) l) ≤ REPLICATION_BYTES).
Proof.
  induction l as [|[i s] l IH]; intros sent stop Hl Hs.
  { exists 0%nat. split_and!; [done|done|done|lia]. }
  apply Forall_cons in Hl as [Hx Hl]. cbn [limit_stop snd] in *.
  destruct ((0 <? sent) && (REPLICATION_BYTES <? sent + slot_len s)) eqn:Hc.
  - exists 0%nat. cbn [take lookup list_lookup]. rewrite bytes_of_cons, take_0. change (bytes_of slot_len []) with 0. cbn [snd].
    apply andb_true_iff in Hc as [?%Z.ltb_lt ?%Z.ltb_lt]. split_and!; [cbn; lia|done|intros _ _; cbn; lia|cbn; lia].
  - destruct (IH (sent + slot_len s) stop Hl) as (k & Hk & Hst & Hmax & Hj); [lia|].
    exists (S k). split_and!; [cbn; lia|exact Hst| |].
    + intros x Hlk. specialize (Hmax x Hlk). cbn [take] in *. rewrite !bytes_of_cons. cbn [snd]. rewrite !Z.add_assoc. exact Hmax.
    + intros [|j] Hjk; cbn [take]; rewrite !bytes_of_cons; cbn [snd].
      * rewrite take_0. change (bytes_of slot_len []) with 0. apply andb_false_iff in Hc as [?%Z.ltb_ge|?%Z.ltb_ge]; [left|right]; lia.
      * specialize (Hj j ltac:(lia)). rewrite !Z.add_assoc. exact Hj.
Qed.

(** A row of a range splits it at its key. *)
Lemma range_split {A} lo hi (m : gmap Z A) l1 i a l2 :
  log_range lo hi m = l1 ++ (i, a) :: l2 →
  log_range lo (IExcluded i) m = l1 ∧ log_range (IExcluded i) hi m = l2 ∧ m !! i = Some a.
Proof.
  intros Hl. assert (StronglySorted Z.lt (log_range lo hi m).*1) as Hs by apply sorted_filter, by_index_sorted.
  assert ((i, a) ∈ log_range lo hi m) as [Hm Hin]%log_range_elem by (rewrite Hl; set_solver).
  apply andb_true_iff in Hin as [Hlo Hhi].
  rewrite Hl, fmap_app, fmap_cons in Hs. apply StronglySorted_app in Hs as (H1 & Hs1 & Hs).
  apply StronglySorted_cons in Hs as [H2 _]. cbn [fst] in *. rewrite Forall_fmap, Forall_forall in H2.
  assert (∀ x, x ∈ l1 → x.1 < i) as H3.
  { intros x Hx. apply H1; [by apply list_elem_of_fmap_2|by left]. }
  assert (∀ j, idx_below (IExcluded i) j = true → idx_below hi j = true) as Hb.
  { intros j. destruct hi; cbn in *; lia. }
  assert (∀ j, idx_above (IExcluded i) j = true → idx_above lo j = true) as Ha.
  { intros j. destruct lo; cbn in *; lia. }
  split_and!; [| |done].
  - transitivity (base.filter (λ x : Z * A, x.1 < i) (log_range lo hi m)).
    + unfold log_range. rewrite list_filter_filter. apply list_filter_iff. intros x. cbn.
      rewrite !andb_true_iff. specialize (Hb x.1). cbn in Hb. rewrite Z.ltb_lt in *. tauto.
    + rewrite Hl, filter_app, filter_cons_False by (cbn; lia).
      rewrite filter_all by done. rewrite filter_none; [apply app_nil_r|]. intros x Hx. specialize (H2 x Hx). cbn in *. lia.
  - transitivity (base.filter (λ x : Z * A, i < x.1) (log_range lo hi m)).
    + unfold log_range. rewrite list_filter_filter. apply list_filter_iff. intros x. cbn.
      rewrite !andb_true_iff. specialize (Ha x.1). cbn in Ha. rewrite Z.ltb_lt in *. tauto.
    + rewrite Hl, filter_app, filter_cons_False by (cbn; lia).
      rewrite (filter_none _ l1), filter_all; [done|done|]. intros x Hx. specialize (H3 x Hx). lia.
Qed.

Definition lens_ok (m : LogMem) : Prop :=
  ∀ i s, ws_entries m !! i = Some s → 0 ≤ slot_len s ∧ 0 ≤ kept_len s.

(** Lengths in memory are never negative; those on disk are [u32]. *)
Lemma lens_ok_intro m :
  (∀ i s loc, ws_entries m !! i = Some s → slot_loc s = Some loc → 0 ≤ l_len loc) → lens_ok m.
Proof.
  intros Hl i [[b|] [loc|]] Hs; cbn; try (specialize (Hl i _ loc Hs eq_refl)); lia.
Qed.

Section limited.
Context {E : Type} {Mb : Type} `{Bincode (Entry Mb)}.

(** C39.  What openraft is given for one message: a prefix of the entries it
    asked for, never an empty one while there are any, so that replication
    always moves; within [REPLICATION_BYTES] unless only its last entry has
    bytes; and one entry more would be over it. *)
Theorem limited_get_fits start end_ (s : WalLog E) :
  lens_ok (wl_mem s) →
  let l := log_range (IIncluded start) (IExcluded end_) (ws_entries (wl_mem s)) in
  ∃ stop k, limited_get_log_entries (Mb := Mb) start end_ s = wl_try_get (IIncluded start) (IExcluded stop) s ∧
    log_range (IIncluded start) (IExcluded stop) (ws_entries (wl_mem s)) = take k l ∧
    (l ≠ [] → take k l ≠ []) ∧
    (bytes_of slot_len (take k l) ≤ REPLICATION_BYTES ∨ bytes_of slot_len (take (pred k) l) = 0) ∧
    (take k l = l ∨ REPLICATION_BYTES < bytes_of slot_len (take (S k) l)).
Proof.
  intros Hlen l. destruct (limit_stop_spec l 0 end_) as (k & Hk & Hst & Hmax & Hj); [|lia|].
  { apply Forall_forall. intros [i x] [Hi _]%log_range_elem. by apply (Hlen i). }
  exists (limit_stop l 0 end_), k. split_and!.
  - reflexivity.
  - rewrite Hst. destruct (l !! k) as [[i a]|] eqn:Hlk.
    + cbn [fst]. apply (range_split _ (IExcluded end_) _ _ i a (drop (S k) l)). fold l. symmetry. by apply take_drop_middle.
    + apply lookup_ge_None in Hlk. by rewrite take_ge.
  - intros Hne. destruct k as [|k].
    + destruct l as [|x l']; [done|]. destruct (Hmax x eq_refl) as [? _]. cbn in *. unfold bytes_of in *. cbn in *. lia.
    + by destruct l.
  - destruct k as [|k]; [left; vm_compute; discriminate|]. cbn [pred].
    destruct (Hj k ltac:(lia)) as [?|?]; [right|left]; lia.
  - destruct (l !! k) as [x|] eqn:Hlk; [|left; apply take_ge; by apply lookup_ge_None]. right.
    destruct (Hmax x eq_refl). lia.
Qed.
End limited.

(** ** What is kept *)

Lemma keeping_loop_spec rl keep : ∀ held,
  match keeping_loop rl held keep with
  | Some i => ∃ k x, rl !! k = Some x ∧ x.1 = i ∧ keep ≤ held + bytes_of kept_len (take k rl) ∧
                ∀ j, (j < k)%nat → held + bytes_of kept_len (take j rl) < keep
  | None => ∀ j, (j < length rl)%nat → held + bytes_of kept_len (take j rl) < keep
  end.
Proof.
  induction rl as [|[i s] rl IH]; intros held; cbn [keeping_loop]; [cbn; lia|].
  destruct (Z.leb_spec keep held).
  - exists 0%nat, (i, s). rewrite take_0. change (bytes_of kept_len []) with 0. split_and!; [done|done|lia|lia].
  - specialize (IH (held + kept_len s)). destruct (keeping_loop rl _ keep) as [i'|].
    + destruct IH as (k & x & Hk & Hx & Hge & Hj). exists (S k), x. cbn [take]. rewrite bytes_of_cons. cbn [snd].
      split_and!; [done|done|lia|]. intros [|j] Hjk; [rewrite take_0; change (bytes_of kept_len []) with 0; lia|].
      cbn [take]. rewrite bytes_of_cons. cbn [snd]. specialize (Hj j ltac:(lia)). lia.
    + intros [|j] Hjk; [rewrite take_0; change (bytes_of kept_len []) with 0; lia|].
      cbn [take length] in *. rewrite bytes_of_cons. cbn [snd]. specialize (IH j ltac:(lia)). lia.
Qed.

Lemma bytes_of_reverse len l : bytes_of len (reverse l) = bytes_of len l.
Proof.
  induction l as [|x l IH]; [done|]. rewrite reverse_cons, bytes_of_app, IH, bytes_of_cons.
  rewrite bytes_of_cons. change (bytes_of len []) with 0. lia.
Qed.

(** The rows above the [k]th from the end. *)
Lemma above_kth lo hi (m : gmap Z Slot) k x :
  reverse (log_range lo hi m) !! k = Some x →
  m !! x.1 = Some x.2 ∧
  log_range (IExcluded x.1) hi m = reverse (take k (reverse (log_range lo hi m))).
Proof.
  intros Hx. set (rl := reverse (log_range lo hi m)) in *. destruct x as [i s].
  assert (log_range lo hi m = reverse (drop (S k) rl) ++ (i, s) :: reverse (take k rl)) as Hsp.
  { rewrite <- (reverse_involutive (log_range lo hi m)). fold rl. rewrite <- (take_drop_middle rl k (i, s) Hx) at 1.
    rewrite reverse_app, reverse_cons, <- app_assoc. done. }
  by destruct (range_split _ _ _ _ _ _ _ Hsp) as (_ & Hr & Hm).
Qed.

(**  [purge_point_keeping] gives the newest index of the log with at
    least [keep_bytes] of entries after it, up to [upto]: purging there keeps
    that much, and no later index would; and it gives none exactly when no
    index has that much after it. *)
Theorem purge_point_newest upto keep_bytes m :
  let after i := bytes_of kept_len (log_range (IExcluded i) (IIncluded upto) (ws_entries m)) in
  match purge_point_keeping upto keep_bytes m with
  | Some i => is_Some (ws_entries m !! i) ∧ i ≤ upto ∧ keep_bytes ≤ after i ∧
              ∀ j, is_Some (ws_entries m !! j) → i < j ≤ upto → after j < keep_bytes
  | None => ∀ j, is_Some (ws_entries m !! j) → j ≤ upto → after j < keep_bytes
  end.
Proof.
  intros after. unfold purge_point_keeping. set (l := log_range IUnbounded (IIncluded upto) (ws_entries m)).
  assert (∀ k x, reverse l !! k = Some x → after x.1 = bytes_of kept_len (take k (reverse l))) as Hafter.
  { intros k x [_ Hx]%above_kth. unfold after. by rewrite Hx, bytes_of_reverse. }
  pose proof (keeping_loop_spec (reverse l) keep_bytes 0) as Hk. destruct (keeping_loop _ 0 keep_bytes) as [i|].
  - destruct Hk as (k & x & Hx & <- & Hge & Hlt). destruct (above_kth _ _ _ _ _ Hx) as [Hm Hr].
    split_and!; [by eauto| |rewrite (Hafter k); [done|done]|].
    + apply list_elem_of_lookup_2 in Hx. rewrite elem_of_reverse in Hx. destruct x as [i s]. apply log_range_elem in Hx as [_ Hx].
      cbn in *. lia.
    + intros j [s Hs] Hj. assert ((j, s) ∈ log_range (IExcluded x.1) (IIncluded upto) (ws_entries m)) as Hin
        by (apply log_range_elem; split; [done|cbn; lia]).
      rewrite Hr, elem_of_reverse in Hin. apply list_elem_of_lookup_1 in Hin as [n Hn].
      apply lookup_take_Some in Hn as [Hn Hlk]. pose proof (Hafter n (j, s) Hn) as Ha. cbn [fst] in Ha. rewrite Ha. by apply Hlt.
  - intros j [s Hs] Hj. assert ((j, s) ∈ reverse l) as Hin
      by (apply elem_of_reverse, log_range_elem; split; [done|cbn; lia]).
    apply list_elem_of_lookup_1 in Hin as [n Hn]. pose proof (Hafter n (j, s) Hn) as Ha. cbn [fst] in Ha. rewrite Ha. apply Hk. by eapply lookup_lt_Some.
Qed.

(** ** A concrete log *)

Module LimitDemo.
Export LogDemo.
Definition demo_slot (len : Z) : Slot := mkSlot None (Some (mkLoc 0 0 len)).
Definition demo_log_mem : LogMem :=
  mkLogMem {[ 3 := demo_slot 700000; 4 := demo_slot 700000; 5 := demo_slot 10 ]} 0 0 0 None None None None.
Definition demo_wal_log : WalLog DiskEngine :=
  mkWalLog demo_log_mem [] (mkWal 0 [] 0 ∅ false false, mkFs ∅ []) None (mkDisk ∅ ∅) 0 LogProgress_default 0 0 ∅.

Lemma demo_lens : lens_ok (wl_mem demo_wal_log).
Proof.
  apply lens_ok_intro. intros i s loc Hs Hl. cbn in Hs.
  rewrite !lookup_insert_Some, lookup_singleton_Some in Hs.
  destruct Hs as [[_ <-]|[_ [[_ <-]|[_ [_ <-]]]]]; injection Hl as <-; cbn; lia.
Qed.
End LimitDemo.
Import LimitDemo.

Lemma limited_get_fits_witness :
  ∃ stop k, limited_get_log_entries (Mb := list Z) 3 9 demo_wal_log = wl_try_get (IIncluded 3) (IExcluded stop) demo_wal_log ∧
    log_range (IIncluded 3) (IExcluded stop) (ws_entries (wl_mem demo_wal_log))
    = take k (log_range (IIncluded 3) (IExcluded 9) (ws_entries (wl_mem demo_wal_log))).
Proof.
  destruct (limited_get_fits (Mb := list Z) 3 9 demo_wal_log demo_lens) as (stop & k & Hg & Hr & _).
  by exists stop, k.
Defined.
