(* ===== verification/RangeOptions.v ===== *)
(** * Sorting and filtering a range ([server/src/range_options.rs])

    A range request's sort and revision filters are applied by the server to
    what the store answers, which is then read without a limit.  [sort_by]
    is a stable sort, here by insertion.  The theorem: whichever way a
    request is served, sorted, filtered or cut by the store, the answer is
    the one of a single specification, in which ties are broken by key. *)

From S2P Require Import Prelude Revision Record KvStore Lease Cache Auth Store StoreCore StoreSpec StoreInv.
From S2P Require Import StoreApply StoreCommit StoreOpen StoreDemo StoreWrite StoreRead StoreEvents.

(** ** Requests *)

Record RangeRequest := mkRangeRequest {
  rq_key : bytes;
  rq_range_end : bytes;
  rq_limit : Z;
  rq_revision : Z;
  rq_sort_order : Z;
  rq_sort_target : Z;
  rq_serializable : bool;
  rq_keys_only : bool;
  rq_count_only : bool;
  rq_min_mod_revision : Z;
  rq_max_mod_revision : Z;
  rq_min_create_revision : Z;
  rq_max_create_revision : Z
}.

Inductive SortTarget := SortKey | SortVersion | SortCreate | SortMod | SortValue.
Inductive SortOrder := OrderNone | OrderAscend | OrderDescend.

(** [SortTarget::try_from] and [SortOrder::try_from], with their defaults. *)
Definition sort_target (req : RangeRequest) : SortTarget :=
  match rq_sort_target req with
  | 1 => SortVersion | 2 => SortCreate | 3 => SortMod | 4 => SortValue | _ => SortKey
  end.
Definition sort_order (req : RangeRequest) : SortOrder :=
  match rq_sort_order req with 1 => OrderAscend | 2 => OrderDescend | _ => OrderNone end.

(** The target and whether it ascends; [None] is the store's own order. *)
Definition effective_order (req : RangeRequest) : option (SortTarget * bool) :=
  match sort_target req, sort_order req with
  | SortKey, (OrderNone | OrderAscend) => None
  | t, (OrderNone | OrderAscend) => Some (t, true)
  | t, OrderDescend => Some (t, false)
  end.

Definition filters (req : RangeRequest) : bool :=
  negb (rq_min_mod_revision req =? 0) || negb (rq_max_mod_revision req =? 0)
  || negb (rq_min_create_revision req =? 0) || negb (rq_max_create_revision req =? 0).

Definition applies (req : RangeRequest) : bool :=
  negb (rq_count_only req) && (bool_decide (is_Some (effective_order req)) || filters req).

Definition store_limit (req : RangeRequest) : nat :=
  if applies req then 0%nat else Z.to_nat (Z.max (rq_limit req) 0).

(** ** Processing *)

Definition compare_on (target : SortTarget) (a b : KvRecord) : comparison :=
  match target with
  | SortKey => bytes_cmp (rec_key a) (rec_key b)
  | SortVersion => version a ?= version b
  | SortCreate => create_revision a ?= create_revision b
  | SortMod => mod_revision a ?= mod_revision b
  | SortValue => bytes_cmp (rec_value a) (rec_value b)
  end.

Definition keep (req : RangeRequest) (kv : KvRecord) : bool :=
  ((rq_max_mod_revision req =? 0) || (mod_revision kv <=? rq_max_mod_revision req))
  && ((rq_min_mod_revision req =? 0) || (rq_min_mod_revision req <=? mod_revision kv))
  && ((rq_max_create_revision req =? 0) || (create_revision kv <=? rq_max_create_revision req))
  && ((rq_min_create_revision req =? 0) || (rq_min_create_revision req <=? create_revision kv)).

(** [slice::sort_by]: an element goes before those not less than it. *)
Fixpoint sort_insert (cmp : KvRecord → KvRecord → comparison) (x : KvRecord) (l : list KvRecord) : list KvRecord :=
  match l with
  | [] => [x]
  | y :: l' => match cmp x y with Gt => y :: sort_insert cmp x l' | _ => x :: y :: l' end
  end.
Definition sort_by (cmp : KvRecord → KvRecord → comparison) (l : list KvRecord) : list KvRecord :=
  foldr (sort_insert cmp) [] l.

Definition sort_kvs (req : RangeRequest) (kvs : list KvRecord) : list KvRecord :=
  match effective_order req with
  | None => kvs
  | Some (target, true) => sort_by (λ a b, compare_on target a b) kvs
  | Some (target, false) => sort_by (λ a b, compare_on target b a) kvs
  end.

Definition apply_options (req : RangeRequest) (result : RangeResult) : RangeResult :=
  if negb (applies req) then result
  else
    let kvs := sort_kvs req (base.filter (λ kv, keep req kv = true) (rr_kvs result)) in
    let limit := Z.to_nat (Z.max (rq_limit req) 0) in
    let more := (0 <? limit)%nat && (limit <? length kvs)%nat in
    mkRangeResult (if more then take limit kvs else kvs) more (rr_count result).

(** ** The specification *)

(** The order of an answer: by the target, up or down, then by key. *)
Definition direct (asc : bool) (c : comparison) : comparison := if asc then c else CompOpp c.
Definition answer_le (target : SortTarget) (asc : bool) (a b : KvRecord) : Prop :=
  match direct asc (compare_on target a b) with
  | Lt => True
  | Eq => bytes_le (rec_key a) (rec_key b)
  | Gt => False
  end.

#[global] Instance answer_le_dec target asc a b : Decision (answer_le target asc a b).
Proof. unfold answer_le. destruct (direct _ _); apply _. Defined.

Definition descends (req : RangeRequest) : bool := match sort_order req with OrderDescend => true | _ => false end.

(** Of a view of the keys: those the filters keep, trimmed, sorted and cut;
    the count is before the filters. *)
Definition spec_options (req : RangeRequest) (view : list (bytes * KvRecord)) : RangeResult :=
  let total := Z.of_nat (length view) in
  if rq_count_only req then mkRangeResult [] false total
  else
    let limit := Z.to_nat (Z.max (rq_limit req) 0) in
    let kept := base.filter (λ kv, keep req kv = true) ((λ p, trim p.2 (rq_keys_only req)) <$> view) in
    let sorted := merge_sort (answer_le (sort_target req) (negb (descends req))) kept in
    mkRangeResult (limited limit sorted) ((0 <? limit)%nat && (limit <? length sorted)%nat) total.

(** ** Stable sorting *)

Lemma sort_insert_perm cmp x l : sort_insert cmp x l ≡ₚ x :: l.
Proof.
  induction l as [|y l IH]; [done|]. cbn. destruct (cmp x y); [done..|]. rewrite IH. constructor.
Qed.

Lemma sort_by_perm cmp l : sort_by cmp l ≡ₚ l.
Proof. induction l as [|x l IH]; [done|]. cbn. by rewrite sort_insert_perm, IH. Qed.

Section stable.
Context (cmp : KvRecord → KvRecord → comparison).
Hypothesis cmp_anti : ∀ a b, cmp b a = CompOpp (cmp a b).
Hypothesis cmp_trans : ∀ a b c, cmp a b ≠ Gt → cmp b c ≠ Gt → cmp a c ≠ Gt.

(** By [cmp], then by key. *)
Definition stable_le (a b : KvRecord) : Prop :=
  match cmp a b with Lt => True | Eq => bytes_le (rec_key a) (rec_key b) | Gt => False end.

Lemma stable_le_trans a b c : stable_le a b → stable_le b c → stable_le a c.
Proof.
  unfold stable_le. intros Hab Hbc.
  pose proof (cmp_trans a b c) as H1. pose proof (cmp_trans b c a) as H2. pose proof (cmp_trans c a b) as H3.
  rewrite (cmp_anti a c) in H2. rewrite (cmp_anti a b) in H2. rewrite (cmp_anti b c), (cmp_anti a c) in H3.
  destruct (cmp a b) eqn:E1, (cmp b c) eqn:E2, (cmp a c) eqn:E3; cbn in *; try done;
    try (exfalso; (by apply H1) || (by apply H2) || (by apply H3)).
  by etrans.
Qed.

Lemma sort_insert_stable x l :
  (∀ y, y ∈ l → bytes_le (rec_key x) (rec_key y)) →
  StronglySorted stable_le l → StronglySorted stable_le (sort_insert cmp x l).
Proof.
  intros Hx Hs. induction Hs as [|y l Hs IH Hy]; cbn; [by repeat constructor|].
  destruct (cmp x y) eqn:Hc.
  - assert (stable_le x y) as Hxy by (unfold stable_le; rewrite Hc; apply Hx; by left).
    repeat constructor; [done|done|done|]. eapply Forall_impl; [exact Hy|]. intros z. by apply stable_le_trans.
  - assert (stable_le x y) as Hxy by (unfold stable_le; by rewrite Hc).
    repeat constructor; [done|done|done|]. eapply Forall_impl; [exact Hy|]. intros z. by apply stable_le_trans.
  - constructor; [apply IH; set_solver|]. rewrite sort_insert_perm. constructor; [|done].
    unfold stable_le. by rewrite cmp_anti, Hc.
Qed.

Lemma sort_by_stable l :
  StronglySorted bytes_le (rec_key <$> l) → StronglySorted stable_le (sort_by cmp l).
Proof.
  induction l as [|x l IH]; cbn; intros Hs; [constructor|]. inversion_clear Hs as [|? ? Hl Hx].
  fold (sort_by cmp l). apply sort_insert_stable; [|by apply IH]. intros y. rewrite sort_by_perm. intros Hy.
  eapply Forall_forall; [exact Hx|]. by apply list_elem_of_fmap_2.
Qed.
End stable.

Lemma compare_on_anti t a b : compare_on t b a = CompOpp (compare_on t a b).
Proof. destruct t; cbn; (apply bytes_cmp_antisym || apply Z.compare_antisym). Qed.

Lemma compare_on_trans t a b c :
  compare_on t a b ≠ Gt → compare_on t b c ≠ Gt → compare_on t a c ≠ Gt.
Proof. destruct t; cbn; (apply (transitivity (R := bytes_le)) || apply Z.le_trans). Qed.

Lemma sorted_mono {A} (R S : A → A → Prop) l :
  (∀ a b, R a b → S a b) → StronglySorted R l → StronglySorted S l.
Proof.
  intros HRS. induction 1 as [|x l Hl IH Hx]; constructor; [done|]. eapply Forall_impl; [exact Hx|]. apply HRS.
Qed.

Lemma sort_kvs_le req kvs :
  StronglySorted bytes_le (rec_key <$> kvs) →
  StronglySorted (answer_le (sort_target req) (negb (descends req))) (sort_kvs req kvs).
Proof.
  intros Hs. unfold sort_kvs, effective_order, descends.
  assert (∀ t, StronglySorted (answer_le t true) (sort_by (λ a b, compare_on t a b) kvs)) as Hup.
  { intros t. apply (sort_by_stable (compare_on t)); [apply compare_on_anti|apply compare_on_trans|done]. }
  assert (∀ t, StronglySorted (answer_le t false) (sort_by (λ a b, compare_on t b a) kvs)) as Hdown.
  { intros t. eapply sorted_mono; [|apply (sort_by_stable (λ a b, compare_on t b a));
      [intros a b; apply compare_on_anti|intros a b c H1 H2; by eapply compare_on_trans|done]].
    intros a b. unfold answer_le, stable_le. cbn. by rewrite (compare_on_anti t a b). }
  assert (StronglySorted (answer_le SortKey true) kvs) as Hkey.
  { clear Hup Hdown. induction kvs as [|x l IH]; [constructor|]. inversion_clear Hs as [|? ? Hl Hx].
    constructor; [by apply IH|]. rewrite Forall_fmap in Hx. eapply Forall_impl; [exact Hx|].
    intros y Hy. unfold answer_le. cbn in *. unfold bytes_le in *. by destruct (bytes_cmp (rec_key x) (rec_key y)). }
  destruct (sort_target req), (sort_order req); cbn [negb]; auto.
Qed.

#[global] Instance answer_le_trans t asc : Transitive (answer_le t asc).
Proof.
  intros a b c. apply (stable_le_trans (λ a b, direct asc (compare_on t a b))).
  - intros x y. rewrite compare_on_anti. by destruct asc.
  - intros x y z. destruct asc; cbn; [apply compare_on_trans|]. rewrite <- !compare_on_anti. intros. by eapply compare_on_trans.
Qed.

#[global] Instance answer_le_total t asc : Total (answer_le t asc).
Proof.
  intros a b. unfold answer_le. rewrite (compare_on_anti t a b). destruct (bytes_le_total (rec_key a) (rec_key b)), asc, (compare_on t a b); cbn; auto.
Qed.

Lemma sort_kvs_perm req kvs : sort_kvs req kvs ≡ₚ kvs.
Proof. unfold sort_kvs. destruct (effective_order req) as [[t []]|]; [apply sort_by_perm..|done]. Qed.

Lemma keys_lt_nodup (l : list bytes) : StronglySorted bytes_lt l → StronglySorted bytes_le l ∧ NoDup l.
Proof.
  intros Hl. pose proof (key_sorted_le ((λ k, (k, ())) <$> l)) as Hk. unfold key_sorted in Hk.
  rewrite <- list_fmap_compose in Hk. cbn in Hk. rewrite list_fmap_id in Hk. by apply Hk.
Qed.

Lemma same_key (l : list KvRecord) x y :
  NoDup (rec_key <$> l) → x ∈ l → y ∈ l → rec_key x = rec_key y → x = y.
Proof.
  intros Hnd [i Hi]%list_elem_of_lookup [j Hj]%list_elem_of_lookup Hk.
  assert (i = j) as <-; [|congruence].
  apply (NoDup_lookup _ i j (rec_key x) Hnd); rewrite list_lookup_fmap, ?Hi, ?Hj; cbn; congruence.
Qed.

(** Sorting the store's order is sorting with ties broken by key. *)
Lemma sort_kvs_spec req kvs :
  StronglySorted bytes_lt (rec_key <$> kvs) →
  sort_kvs req kvs = merge_sort (answer_le (sort_target req) (negb (descends req))) kvs.
Proof.
  intros [Hs Hnd]%keys_lt_nodup. apply (StronglySorted_unique_strong (answer_le (sort_target req) (negb (descends req)))).
  - intros x y Hx Hy Hxy Hyx. rewrite sort_kvs_perm in Hx. rewrite merge_sort_Permutation in Hy.
    assert (rec_key x = rec_key y) as Hk.
    { unfold answer_le in *. rewrite (compare_on_anti (sort_target req) x y) in Hyx.
      destruct (negb _), (compare_on _ x y); cbn in *; try done; by apply (anti_symm bytes_le). }
    by eapply same_key.
  - by apply sort_kvs_le.
  - apply StronglySorted_merge_sort; apply _.
  - by rewrite sort_kvs_perm, merge_sort_Permutation.
Qed.

(** ** What the store answers, processed *)

Lemma keep_all req kv : filters req = false → keep req kv = true.
Proof.
  unfold filters, keep. rewrite !orb_false_iff, !negb_false_iff. by intros [[[-> ->] ->] ->].
Qed.

Lemma trimmed_keys b (view : list (bytes * KvRecord)) :
  (∀ k rec, (k, rec) ∈ view → rec_key rec = k) →
  rec_key <$> ((λ p, trim p.2 b) <$> view) = view.*1.
Proof.
  intros Hv. rewrite <- list_fmap_compose. apply list_fmap_ext. intros i [k rec] Hi%list_elem_of_lookup_2. cbn.
  apply Hv in Hi as <-. unfold trim. by destruct b.
Qed.

Lemma filtered_keys req kvs :
  StronglySorted bytes_lt (rec_key <$> kvs) →
  StronglySorted bytes_lt (rec_key <$> base.filter (λ kv, keep req kv = true) kvs).
Proof.
  induction kvs as [|x l IH]; [done|]. rewrite fmap_cons, filter_cons. inversion_clear 1 as [|? ? Hl Hx].
  case_decide; [|by apply IH]. rewrite fmap_cons. constructor; [by apply IH|]. rewrite Forall_fmap, Forall_forall in *.
  intros y [_ Hy]%list_elem_of_filter. by apply Hx.
Qed.

Lemma cut_limited {A} (n : nat) (l : list A) :
  (if (0 <? n)%nat && (n <? length l)%nat then take n l else l) = limited n l.
Proof.
  destruct n as [|n]; [by rewrite Nat.ltb_irrefl|]. replace (0 <? S n)%nat with true by done. cbn [andb limited].
  destruct (Nat.ltb_spec (S n) (length l)); [done|]. by rewrite take_ge by lia.
Qed.

(** The server's processing of what the store answers is the specification. *)
Lemma apply_options_spec req view :
  key_sorted view → (∀ k rec, (k, rec) ∈ view → rec_key rec = k) →
  apply_options req (spec_range view (store_limit req) (rq_keys_only req) (rq_count_only req)) = spec_options req view.
Proof.
  intros Hs Hk. set (kvs := (λ p, trim p.2 (rq_keys_only req)) <$> view).
  assert (StronglySorted bytes_lt (rec_key <$> kvs)) as Hsk by (unfold kvs; by rewrite trimmed_keys).
  unfold apply_options, spec_options, store_limit. fold kvs.
  destruct (rq_count_only req) eqn:Hco; [unfold applies; by rewrite Hco|].
  destruct (applies req) eqn:Ha; cbn [negb rr_kvs rr_count spec_range limited].
  - fold kvs. rewrite <- sort_kvs_spec by by apply filtered_keys. by rewrite cut_limited.
  - unfold applies in Ha. rewrite Hco in Ha. cbn in Ha. apply orb_false_iff in Ha as [Ho Hf].
    apply bool_decide_eq_false in Ho.
    assert (base.filter (λ kv, keep req kv = true) kvs = kvs) as ->.
    { apply filter_all. intros kv _. by apply keep_all. }
    rewrite <- sort_kvs_spec by done. unfold sort_kvs. rewrite <- eq_None_not_Some in Ho. rewrite Ho.
    unfold spec_range. cbn [negb andb]. f_equal.
    + unfold kvs. by rewrite limited_fmap.
    + unfold kvs. rewrite length_fmap. destruct (_ <? _)%nat; cbn [andb]; [|done].
      apply eq_true_iff_eq. rewrite Z.ltb_lt, Nat.ltb_lt. lia.
Qed.

Section serve.
Context {E : Type} `{KvStoreLaws E} `{BincodeLaws KvRecord, BincodeLaws KeyIndex}.

(** [serve_range] of [kv.rs], once the read may be served here. *)
Definition serve_local (req : RangeRequest) : prog (Inner E) MvccError (RangeResult * Z) :=
  let* (result, revision) := range_with_revision (rq_key req) (rq_range_end req) (store_limit req)
                               (rq_revision req) (rq_keys_only req) (rq_count_only req) in
  pret (apply_options req result, revision).

Lemma history_row_key G ts bound k r d :
  core_inv G ts bound → (r, d) ∈ history (G k) → ∃ rec, kv_row ts k r = Some rec ∧ rec_key rec = k.
Proof.
  intros Hc (g & Hr & Hg)%list_elem_of_bind. apply elem_of_gen_events in Hr as [[-> Hr]|[-> Hr]].
  - destruct (ci_puts _ _ _ Hc k g r Hg Hr) as (rec & Hrow & Hok). exists rec. split; [done|apply Hok].
  - exists (tomb_rec k r). split; [by eapply ci_tomb|done].
Qed.

Lemma store_view_keys (st : Inner E) t key range_end k rec :
  store_inv st → (k, rec) ∈ store_view st t key range_end → rec_key rec = k.
Proof.
  intros Hst [_ Hr]%(proj2 (store_view_spec st t key range_end)). unfold read_rec in Hr. apply bind_Some in Hr as (r & Hr & Hrow).
  pose proof (si_core _ Hst) as Hc. apply revision_at_elem in Hr; [|apply Hc].
  destruct (history_row_key _ _ _ _ _ _ Hc Hr) as (rec' & Hrow' & <-). cbn in Hrow. congruence.
Qed.

Lemma serve_local_ok (st : Inner E) req :
  store_inv st →
  let '(r, st') := serve_local req st in
  let cur := current_rev (write_state st) in
  let cmp := compact_rev (write_state st) in
  let t := rq_revision req in
  same_store st st' ∧
  r = if (0 <? t) && (cur <? t) then Err (FutureRevision t cur)
      else if (0 <? t) && (t <? cmp) then Err (Compacted t cmp)
      else Ok (spec_options req (store_view st (if t =? 0 then cur else t) (rq_key req) (rq_range_end req)), cur).
Proof.
  intros Hst. unfold serve_local, pbind.
  pose proof (range_ok st (rq_key req) (rq_range_end req) (store_limit req) (rq_revision req) (rq_keys_only req)
    (rq_count_only req) Hst) as Hok.
  destruct (range_with_revision _ _ _ _ _ _ st) as [r st']. destruct Hok as [-> Hs].
  unfold range_answer. destruct (_ && _); [done|]. destruct (_ && _); [done|]. cbn [pret].
  split; [done|]. rewrite apply_options_spec; [done|apply store_view_spec|]. intros k rec. by apply store_view_keys.
Qed.
End serve.

(** ** Witnesses *)

Section witnesses.
Import Demo.

(** Every key from [a], sorted. *)
Definition demo_request (limit revision order target : Z) (keys_only : bool) : RangeRequest :=
  mkRangeRequest (str "a") [x00] limit revision order target true keys_only false 0 0 0 0.

Definition answered_keys (r : MvccResult (RangeResult * Z)) : option (list bytes) :=
  match r with Ok (res, _) => Some (rec_key <$> rr_kvs res) | Err _ => None end.


(** With [keys_only] the store has dropped the values before the server sorts
    by them: [a] holds 9 and [b] holds 2, but [a] is answered first.  (etcd
    sorts, then drops the values.) *)
Lemma value_sort_lost_with_keys_only :
  answered_keys (serve_local (demo_request 0 0 1 4 false) demo_again).1 = Some [str "b"; str "a"] ∧
  answered_keys (serve_local (demo_request 0 0 1 4 true) demo_again).1 = Some [str "a"; str "b"].
Proof. vm_compute. done. Qed.

(** A negative revision reads before the first, not the newest. *)
Lemma negative_revision_finds_nothing :
  answered_keys (serve_local (demo_request 0 0 0 0 false) demo_again).1 = Some [str "a"; str "b"] ∧
  answered_keys (serve_local (demo_request 0 (-1) 0 0 false) demo_again).1 = Some [].
Proof. vm_compute. done. Qed.
End witnesses.
