(* ===== verification/Conv.v ===== *)
(** * Requests on the wire and inside ([server/src/conv.rs])

    The messages of etcd's KV service, and their translation into the
    mutations, ranges, compares and transactions of the store.  An enum on
    the wire is any number; a translation refuses what it does not know. *)

From S2P Require Import Prelude Revision Record KvStore Lease Cache Auth Store RangeOptions.

(** ** Statuses *)

(** [tonic::Code], those the sources answer with. *)
Inductive Code := CdInvalidArgument | CdNotFound | CdPermissionDenied | CdFailedPrecondition | CdOutOfRange
                | CdInternal | CdUnavailable | CdUnauthenticated | CdResourceExhausted.

(** A status with its message; of a formatted one, the fixed part. *)
Record Status := mkStatus { status_code : Code; status_message : string }.

Definition invalid_argument : string → Status := mkStatus CdInvalidArgument.
Definition internal : string → Status := mkStatus CdInternal.
Definition unavailable : string → Status := mkStatus CdUnavailable.

(** ** Messages *)

(** [mvccpb::KeyValue]. *)
Record KeyValue := mkKeyValue {
  pk_key : bytes; pk_create_revision : Z; pk_mod_revision : Z; pk_version : Z; pk_value : bytes; pk_lease : Z
}.

Record PutRequest := mkPutRequest {
  pr_key : bytes; pr_value : bytes; pr_lease : Z; pr_prev_kv : bool; pr_ignore_value : bool; pr_ignore_lease : bool
}.

Record DeleteRangeRequest := mkDeleteRequest { dr_key : bytes; dr_range_end : bytes; dr_prev_kv : bool }.

Inductive TargetUnion :=
| TuVersion (v : Z) | TuCreateRevision (v : Z) | TuModRevision (v : Z) | TuValue (v : bytes) | TuLease (v : Z).

Record PbCompare := mkPbCompare {
  pc_result : Z; pc_target : Z; pc_key : bytes; pc_target_union : option TargetUnion; pc_range_end : bytes
}.

(** [RequestOp], with the fields of a nested [TxnRequest]. *)
Inductive RequestOp :=
| RequestNone
| RequestRange (r : RangeRequest)
| RequestPut (p : PutRequest)
| RequestDeleteRange (d : DeleteRangeRequest)
| RequestTxn (compare : list PbCompare) (success failure : list RequestOp).

Record TxnRequest := mkTxnRequest {
  tq_compare : list PbCompare; tq_success : list RequestOp; tq_failure : list RequestOp
}.

(** ** Translation *)

Definition record_to_kv (rec : KvRecord) : KeyValue :=
  mkKeyValue (rec_key rec) (create_revision rec) (mod_revision rec) (version rec) (rec_value rec) (rec_lease rec).

Definition put_request_to_mutation (req : PutRequest) : Mutation :=
  Put (pr_key req) (pr_value req) (pr_lease req) (pr_ignore_value req) (pr_ignore_lease req) (pr_prev_kv req).

Definition delete_request_to_mutation (req : DeleteRangeRequest) : Mutation :=
  DeleteRange (dr_key req) (dr_range_end req) (dr_prev_kv req).

Definition range_request_to_op (req : RangeRequest) : RangeOp :=
  mkRangeOp (rq_key req) (rq_range_end req) (store_limit req) (rq_revision req) (rq_keys_only req) (rq_count_only req).

(** [CompareResult::try_from]. *)
Definition compare_op (z : Z) : option CompareOp :=
  match z with
  | 0 => Some CmpEqual | 1 => Some CmpGreater | 2 => Some CmpLess | 3 => Some CmpNotEqual | _ => None
  end.

(** [CompareTarget::try_from], with the union it has to match. *)
Definition compare_target (z : Z) (u : TargetUnion) : result Status CompareTarget :=
  match z, u with
  | 0, TuVersion v => Ok (TgVersion v)
  | 1, TuCreateRevision v => Ok (TgCreateRevision v)
  | 2, TuModRevision v => Ok (TgModRevision v)
  | 3, TuValue v => Ok (TgValue v)
  | 4, TuLease v => Ok (TgLease v)
  | _, _ => Err (invalid_argument "Compare.target does not match target_union variant")
  end.

Definition compare_from_proto (c : PbCompare) : result Status Compare :=
  let? op := ok_or (compare_op (pc_result c)) (invalid_argument "unknown CompareResult enum") in
  if (pc_target c <? 0) || (4 <? pc_target c) then Err (invalid_argument "unknown CompareTarget enum")
  else
    let? union := ok_or (pc_target_union c) (invalid_argument "Compare.target_union missing") in
    let? target := compare_target (pc_target c) union in
    Ok (mkCompare (pc_key c) (pc_range_end c) op target).

Fixpoint request_op_from_proto (op : RequestOp) : result Status TxnOp :=
  match op with
  | RequestNone => Err (invalid_argument "RequestOp.request missing")
  | RequestRange r => Ok (OpRange (range_request_to_op r))
  | RequestPut p => Ok (OpMutation (put_request_to_mutation p))
  | RequestDeleteRange d => Ok (OpMutation (delete_request_to_mutation d))
  | RequestTxn compare success failure =>
      let? compares := res_map compare_from_proto compare in
      let? success := res_map request_op_from_proto success in
      let? failure := res_map request_op_from_proto failure in
      Ok (OpTxn compares success failure)
  end.

Definition txn_request_parts (req : TxnRequest) : result Status (list Compare * list TxnOp * list TxnOp) :=
  let? compares := res_map compare_from_proto (tq_compare req) in
  let? success := res_map request_op_from_proto (tq_success req) in
  let? failure := res_map request_op_from_proto (tq_failure req) in
  Ok (compares, success, failure).

Definition txn_nests (req : TxnRequest) : bool :=
  existsb (λ op, match op with RequestTxn _ _ _ => true | _ => false end) (tq_success req ++ tq_failure req).

(** An operation holds of every operation inside it. *)
Lemma RequestOp_rect' (P : RequestOp → Prop) :
  P RequestNone → (∀ r, P (RequestRange r)) → (∀ p, P (RequestPut p)) → (∀ d, P (RequestDeleteRange d)) →
  (∀ c s f, Forall P s → Forall P f → P (RequestTxn c s f)) → ∀ op, P op.
Proof.
  intros H0 H1 H2 H3 H4. fix IH 1. intros [|r|p|d|c s f]; [done|done|done|done|].
  apply H4; [induction s as [|x l IHl]|induction f as [|x l IHl]]; constructor; try apply IH; apply IHl.
Qed.
