(* ===== verification/Authz.v ===== *)
(** * Who may touch which keys ([server/src/authz.rs])

    A request's accesses, ranges of keys to read or write, are checked
    against the permissions of the roles of the user who makes it, read from
    the store's tables.  [may] is what it means that a user may touch one
    key; the theorems say that a permission covers a range exactly when it
    covers each of its keys, and that an authorized request has [may] for
    every key of every access. *)

From S2P Require Import Prelude Revision Record KvStore Lease Cache Auth Store RangeOptions Conv.

(** ** Errors ([etcd_errors.rs]) *)

Definition user_empty : Status := invalid_argument "etcdserver: user name is empty".
Definition permission_denied : Status := mkStatus CdPermissionDenied "etcdserver: permission denied".

(** ** Checking *)

Inductive RequiredPerm := PermToRead | PermToWrite.

Record Access := mkAccess { ac_perm : RequiredPerm; ac_key : bytes; ac_range_end : bytes }.

Definition bounds_for (key range_end : bytes) : Bound * Bound :=
  if bool_decide (range_end = []) then (Included key, Excluded (key ++ [x00]))
  else if bool_decide (range_end = [x00]) then (Included key, Unbounded)
  else (Included key, Excluded range_end).

Definition allows (p : PermType) (required : RequiredPerm) : bool :=
  match required with PermToRead => allows_read p | PermToWrite => allows_write p end.

Definition perm_covers (p : StoredPermission) (required : RequiredPerm) (key range_end : bytes) : bool :=
  if negb (allows (perm_type p) required) then false
  else
    let '(req_lo, req_hi) := bounds_for key range_end in
    let '(perm_lo, perm_hi) := bounds_for (perm_key p) (perm_range_end p) in
    let lo_ok := match perm_lo, req_lo with
                 | Unbounded, _ => true
                 | Included pv, Included rv => bytes_leb pv rv
                 | _, _ => false
                 end in
    if negb lo_ok then false
    else match perm_hi, req_hi with
         | Unbounded, _ => true
         | _, Unbounded => false
         | Excluded pv, Excluded rv => bytes_leb rv pv
         | _, _ => false
         end.

Definition ROOT : bytes := str "root".

(** ** Ranges *)

Definition below (hi : Bound) (k : bytes) : Prop :=
  match hi with Excluded b => bytes_lt k b | Included b => bytes_le k b | Unbounded => True end.

Lemma lt_succ key k : bytes_lt k (key ++ [x00]) ↔ bytes_le k key.
Proof.
  unfold bytes_lt, bytes_le. revert k. induction key as [|b key IH]; intros [|c k]; cbn; try done.
  - pose proof (byte_val_range c). change (byte_val x00) with 0.
    destruct (Z.compare_spec (byte_val c) 0) as [_|Hlt|_]; [|lia|done].
    split; [by destruct k|done].
  - destruct (byte_val c ?= byte_val b); [apply IH|done|done].
Qed.

Lemma bounds_for_in_range k key range_end :
  in_range k key range_end = true ↔ bytes_le key k ∧ below (bounds_for key range_end).2 k.
Proof.
  unfold in_range, bounds_for. case_bool_decide; cbn [snd below]; [|case_bool_decide; cbn [snd below]].
  - rewrite bool_decide_eq_true, lt_succ. split; [by intros ->|]. intros [? ?]. by apply (anti_symm bytes_le).
  - rewrite bytes_leb_le. tauto.
  - by rewrite andb_true_iff, bytes_leb_le, bytes_ltb_lt.
Qed.

Section authz.
Context `{Bincode StoredUser, Bincode StoredRole}.

(** The permissions of the roles that exist. *)
Fixpoint role_perms (ts : Tables) (roles : list bytes) : result Status (list StoredPermission) :=
  match roles with
  | [] => Ok []
  | name :: roles' =>
      match snap_get ts TABLE_AUTH_ROLES name with
      | None => role_perms ts roles'
      | Some b =>
          let? role := ok_or (deserialize (A := StoredRole) b) (internal "authz: decode role") in
          let? perms := role_perms ts roles' in
          Ok (permissions role ++ perms)
      end
  end.

Definition authorize_all (ts : Tables) (auth : AuthMemory) (user : option bytes) (accesses : list Access)
    : result Status () :=
  if negb (am_enabled auth) || bool_decide (accesses = []) then Ok ()
  else
    let? name := ok_or user user_empty in
    if bool_decide (name = ROOT) then Ok ()
    else
      let? b := ok_or (snap_get ts TABLE_AUTH_USERS name) permission_denied in
      let? rec := ok_or (deserialize (A := StoredUser) b) (internal "authz: decode user") in
      if existsb (λ r, bool_decide (r = ROOT)) (user_roles rec) then Ok ()
      else
        let? perms := role_perms ts (user_roles rec) in
        if forallb (λ a, existsb (λ p, perm_covers p (ac_perm a) (ac_key a) (ac_range_end a)) perms) accesses
        then Ok () else Err permission_denied.

Definition authorize (ts : Tables) (auth : AuthMemory) (user : option bytes) (perm : RequiredPerm)
    (key range_end : bytes) : result Status () :=
  authorize_all ts auth user [mkAccess perm key range_end].

Definition authorize_keys (ts : Tables) (auth : AuthMemory) (user : option bytes) (perm : RequiredPerm)
    (keys : list bytes) : result Status () :=
  authorize_all ts auth user ((λ k, mkAccess perm k []) <$> keys).

Definition holds_role (ts : Tables) (user role : bytes) : bool :=
  match snap_get ts TABLE_AUTH_USERS user with
  | Some b => match deserialize (A := StoredUser) b with
              | Some u => existsb (λ r, bool_decide (r = role)) (user_roles u)
              | None => false
              end
  | None => false
  end.

Definition require_root (ts : Tables) (auth : AuthMemory) (user : option bytes) : result Status () :=
  if negb (am_enabled auth) then Ok ()
  else
    let? name := ok_or user user_empty in
    if bool_decide (name = ROOT) then Ok ()
    else if holds_role ts name ROOT then Ok () else Err permission_denied.

(** [identify]: a token, valid or not, decides; without one, the certificate
    does, when certificates identify clients. *)
Definition identify (now : Z) (token : option bytes) (common_name : option bytes) (client_cert_auth : bool)
    (auth : AuthMemory) : option bytes * AuthMemory :=
  match token with
  | Some t => user_for_token now t auth
  | None => (if client_cert_auth then common_name else None, auth)
  end.

(** ** What it means *)

(** The user is root: by name, or by a role. *)
Definition is_root (ts : Tables) (name : bytes) : Prop := name = ROOT ∨ holds_role ts name ROOT = true.

(** A role of the user has a permission for the key. *)
Definition may (ts : Tables) (name : bytes) (required : RequiredPerm) (k : bytes) : Prop :=
  is_root ts name ∨
  ∃ b user role_name rb role p,
    snap_get ts TABLE_AUTH_USERS name = Some b ∧ deserialize (A := StoredUser) b = Some user ∧
    role_name ∈ user_roles user ∧
    snap_get ts TABLE_AUTH_ROLES role_name = Some rb ∧ deserialize (A := StoredRole) rb = Some role ∧
    p ∈ permissions role ∧ allows (perm_type p) required = true ∧ covers p k = true.

Lemma covers_in_range p k : covers p k = in_range k (perm_key p) (perm_range_end p).
Proof. done. Qed.

Lemma bounds_lo key range_end : (bounds_for key range_end).1 = Included key.
Proof. unfold bounds_for. by repeat case_bool_decide. Qed.

Lemma bounds_hi key range_end b : (bounds_for key range_end).2 ≠ Included b.
Proof. unfold bounds_for. by repeat case_bool_decide. Qed.

Lemma perm_covers_bounds p required key range_end :
  perm_covers p required key range_end = true ↔
  allows (perm_type p) required = true ∧ bytes_le (perm_key p) key ∧
  match (bounds_for (perm_key p) (perm_range_end p)).2, (bounds_for key range_end).2 with
  | Unbounded, _ => True
  | Excluded pv, Excluded rv => bytes_le rv pv
  | _, _ => False
  end.
Proof.
  unfold perm_covers. pose proof (bounds_lo key range_end). pose proof (bounds_lo (perm_key p) (perm_range_end p)).
  destruct (bounds_for key range_end) as [lo hi], (bounds_for (perm_key p) _) as [plo phi]. cbn in *. subst.
  destruct (allows _ _); cbn; [|naive_solver]. destruct (bytes_leb (perm_key p) key) eqn:Hle.
  - apply bytes_leb_le in Hle. cbn. destruct phi, hi; rewrite ?bytes_leb_le; naive_solver.
  - apply bytes_leb_nle in Hle. cbn. split; [done|]. intros (_ & Hx & _). by apply bytes_not_le in Hle.
Qed.

Lemma perm_covers_sound p required key range_end k :
  perm_covers p required key range_end = true → in_range k key range_end = true →
  allows (perm_type p) required = true ∧ covers p k = true.
Proof.
  rewrite perm_covers_bounds, covers_in_range, !bounds_for_in_range. intros (Ha & Hlo & Hhi) [Hk Hb].
  split_and!; [done|by etrans|].
  destruct (bounds_for (perm_key p) _).2, (bounds_for key range_end).2; cbn in *; try done. by eapply bytes_lt_le_trans.
Qed.

(** C18.  A permission is checked against a range as if key by key: for a range
    that has a key, [perm_covers] holds exactly when the permission is of the
    kind required and covers every key of the range, single keys, prefixes and
    open ends alike. *)
Theorem perm_covers_exact p required key range_end :
  in_range key key range_end = true →
  perm_covers p required key range_end = true ↔
  allows (perm_type p) required = true ∧ ∀ k, in_range k key range_end = true → covers p k = true.
Proof.
  intros Hne. split.
  { intros Hc. split; [by eapply perm_covers_sound|]. intros k Hk. by eapply perm_covers_sound. }
  rewrite perm_covers_bounds. setoid_rewrite covers_in_range. setoid_rewrite bounds_for_in_range.
  apply bounds_for_in_range in Hne as [_ Hne]. intros [Ha Hp]. split; [done|].
  destruct (Hp key) as [Hlo Hhi]; [by split|]. split; [done|].
    pose proof (bounds_hi key range_end) as Hh. pose proof (bounds_hi (perm_key p) (perm_range_end p)) as Hph.
    destruct (bounds_for (perm_key p) (perm_range_end p)).2 as [b|b|]; [by destruct (Hph b)| |done].
    destruct (bounds_for key range_end).2 as [rv|rv|]; [by destruct (Hh rv)| |]; cbn in *.
    + apply bytes_not_lt. intros Hlt. destruct (Hp b) as [_ Hx]; [|by apply bytes_lt_irrefl in Hx].
      split; [apply bytes_le_lt_or_eq; by left|done].
    + destruct (Hp b) as [_ Hx]; [|by apply bytes_lt_irrefl in Hx]. split; [apply bytes_le_lt_or_eq; by left|done].
Qed.

Lemma role_perms_from ts roles perms p :
  role_perms ts roles = Ok perms → p ∈ perms →
  ∃ name b role, name ∈ roles ∧ snap_get ts TABLE_AUTH_ROLES name = Some b ∧
    deserialize (A := StoredRole) b = Some role ∧ p ∈ permissions role.
Proof.
  revert perms. induction roles as [|name roles IH]; cbn; intros perms.
  { intros [= <-]. by intros ?%elem_of_nil. }
  destruct (snap_get ts TABLE_AUTH_ROLES name) as [b|] eqn:Hb.
  2:{ intros Hr Hp. destruct (IH perms Hr Hp) as (n & b & role & Hn & Hx). exists n, b, role. split; [by right|done]. }
  destruct (deserialize b) as [role|] eqn:Hd; cbn; [|done]. destruct (role_perms ts roles) as [ps|]; cbn; [|done].
  intros [= <-] [Hp|Hp]%elem_of_app; [exists name, b, role; split; [by left|done]|].
  destruct (IH ps eq_refl Hp) as (n & b' & role' & Hn & Hx). exists n, b', role'. split; [by right|done].
Qed.

(** With authentication on, an authorized request was made by a user, who may
    touch every key of every access. *)
Lemma authorize_sound ts auth user accesses a k :
  authorize_all ts auth user accesses = Ok () → am_enabled auth = true → a ∈ accesses →
  in_range k (ac_key a) (ac_range_end a) = true →
  ∃ name, user = Some name ∧ may ts name (ac_perm a) k.
Proof.
  unfold authorize_all. intros Hok Hen Ha Hk. rewrite Hen in Hok. cbn [negb orb] in Hok.
  rewrite bool_decide_false in Hok by (intros ->; by apply elem_of_nil in Ha).
  destruct user as [name|]; cbn in Hok; [|done]. exists name. split; [done|].
  case_bool_decide as Hroot; [by left; left|].
  destruct (snap_get ts TABLE_AUTH_USERS name) as [b|] eqn:Hb; cbn in Hok; [|done].
  destruct (deserialize b) as [user|] eqn:Hd; cbn in Hok; [|done].
  destruct (existsb _ (user_roles user)) eqn:Hr; [left; right; unfold holds_role; by rewrite Hb, Hd|].
  destruct (role_perms ts (user_roles user)) as [perms|] eqn:Hps; cbn in Hok; [|done].
  destruct (forallb _ accesses) eqn:Hall; [|done].
  rewrite forallb_forall in Hall. specialize (Hall a (proj1 (list_elem_of_In _ _) Ha)).
  apply existsb_exists in Hall as (p & Hp%list_elem_of_In & Hc).
  destruct (perm_covers_sound _ _ _ _ _ Hc Hk) as [Hal Hcov].
  destruct (role_perms_from _ _ _ _ Hps Hp) as (rn & rb & role & Hrn & Hrb & Hrd & Hpr).
  right. by exists b, user, rn, rb, role, p.
Qed.
End authz.

(** ** Witnesses *)

Lemma perm_covers_exact_witness :
  perm_covers (mkPerm PermRead (str "a") (str "c")) PermToRead (str "b") [] = true ∧
  covers (mkPerm PermRead (str "a") (str "c")) (str "b") = true.
Proof.
  assert (perm_covers (mkPerm PermRead (str "a") (str "c")) PermToRead (str "b") [] = true) as Hc by (vm_compute; reflexivity).
  split; [exact Hc|].
  exact (proj2 (proj1 (perm_covers_exact (mkPerm PermRead (str "a") (str "c")) PermToRead (str "b") [] ltac:(reflexivity)) Hc)
    (str "b") ltac:(reflexivity)).
Defined.
