(* ===== verification/Precheck.v ===== *)
(** * Checks before proposing ([raft/src/precheck.rs])

    The leader refuses a write that names a lease that does not exist, and
    one the state machine would refuse.  The theorem: what the check refuses
    as such, the state machine refuses too, and nothing changes. *)

From S2P Require Import Prelude Revision Record KvStore Lease Cache Auth Store StoreCore StoreSpec StoreInv.
From S2P Require Import StoreApply StoreCommit StoreOpen StoreDemo StoreWrite StoreRead StoreTxn StoreCompact.
From S2P Require Import StoreSide StoreLease SnapshotPolicy StateMachine.

(** What a failed read barrier says ([read_index.rs]): that another member
    leads, which one if it is known, or an error. *)
Inductive BarrierError := BeForward (leader_id : option Z) | BeFailed (msg : string).

Inductive PrecheckError := PcLeaseNotFound | PcRefused (r : Refusal) | PcUnavailable (msg : string).

Definition put_lease (m : Mutation) : option Z :=
  match m with
  | Put _ _ lease _ false _ => if lease =? 0 then None else Some lease
  | _ => None
  end.

Definition ignores_prev (m : Mutation) : bool :=
  match m with Put _ _ _ ignore_value ignore_lease _ => ignore_value || ignore_lease | _ => false end.

Fixpoint any_mutation_op (pred : Mutation → bool) (op : TxnOp) : bool :=
  match op with
  | OpMutation m => pred m
  | OpRange _ => false
  | OpTxn _ success failure => existsb (any_mutation_op pred) success || existsb (any_mutation_op pred) failure
  end.
Definition any_mutation (ops : list TxnOp) (pred : Mutation → bool) : bool := existsb (any_mutation_op pred) ops.

Section precheck.
Context {E : Type} `{KvStore E} `{Bincode KvRecord, Bincode KeyIndex, Bincode LeaseRecord}.
Abbreviation M A := (prog (Inner E) MvccError A).

(** The mutations of one operation, inside a nested transaction those of the
    branch its compares choose. *)
Fixpoint chosen_op (op : TxnOp) : M (list Mutation) :=
  match op with
  | OpMutation m => pret [m]
  | OpRange _ => pret []
  | OpTxn compares success failure =>
      let* ok := txn_would_succeed compares in
      (fix go (l : list TxnOp) : M (list Mutation) :=
         match l with
         | [] => pret []
         | op :: l' =>
             let* ms := chosen_op op in
             let* rest := go l' in
             pret (ms ++ rest)
         end) (if ok then success else failure)
  end.

Fixpoint chosen_ops (l : list TxnOp) : M (list Mutation) :=
  match l with
  | [] => pret []
  | op :: l' =>
      let* ms := chosen_op op in
      let* rest := chosen_ops l' in
      pret (ms ++ rest)
  end.

Definition chosen_mutations (compares : list Compare) (success failure : list TxnOp) : M (list Mutation) :=
  let* ok := txn_would_succeed compares in
  chosen_ops (if ok then success else failure).

Definition names_a_lease (m : Mutation) : bool := bool_decide (is_Some (put_lease m)).

Definition leases_named (entry : LogEntry) : M (list Z) :=
  match entry with
  | EntApply mutations => pret (omap put_lease mutations)
  | EntTxn compares success failure =>
      if negb (any_mutation success names_a_lease) && negb (any_mutation failure names_a_lease) then pret []
      else let* ms := chosen_mutations compares success failure in pret (omap put_lease ms)
  | _ => pret []
  end.

Fixpoint missing_lease (ids : list Z) : M bool :=
  match ids with
  | [] => pret false
  | id :: ids' => let* found := lease_exists id in if found then missing_lease ids' else pret true
  end.

Definition any_missing (entry : LogEntry) : M bool :=
  let* ids := leases_named entry in missing_lease ids.

Definition key_exists (key : bytes) : M bool :=
  let* r := range key [] 1 0 true false in
  pret (negb (bool_decide (rr_kvs r = []))).

(** [put]: the keys put so far. *)
Fixpoint keeps_missing_key (put : gset bytes) (ops : list Mutation) : M bool :=
  match ops with
  | [] => pret false
  | (Put key _ _ _ _ _ as m) :: ops' =>
      if ignores_prev m && negb (bool_decide (key ∈ put)) then
        let* found := key_exists key in
        if found then keeps_missing_key ({[key]} ∪ put) ops' else pret true
      else keeps_missing_key ({[key]} ∪ put) ops'
  | DeleteRange _ _ _ :: ops' => keeps_missing_key put ops'
  end.

Definition found_missing (ops : list Mutation) : M (option Refusal) :=
  let* missing := keeps_missing_key ∅ ops in
  pret (if missing then Some KeyNotFound else None).

Definition entry_refusal (entry : LogEntry) : M (option Refusal) :=
  match entry with
  | EntApply mutations => if existsb ignores_prev mutations then found_missing mutations else pret None
  | EntTxn compares success failure =>
      if negb (any_mutation success ignores_prev) && negb (any_mutation failure ignores_prev) then pret None
      else let* ops := chosen_mutations compares success failure in found_missing ops
  | EntCompact rev =>
      if rev <=? 0 then pret (Some (InvalidArgument "compact rev must be > 0"))
      else
        let* current := current_revision in
        if current <? rev then pret (Some RefFutureRevision)
        else
          let* compact_rev := compact_revision in
          pret (if rev <? compact_rev then Some RefCompacted else None)
  | EntLeaseKeepAlive id _ =>
      let* found := lease_exists id in
      pret (if found then None else Some LeaseNotFound)
  | EntLeaseGrant _ ttl _ =>
      pret (if ttl <=? 0 then Some (InvalidArgument "lease TTL must be positive") else None)
  | _ => pret None
  end.

Definition find (entry : LogEntry) : M (option PrecheckError) :=
  let* missing := any_missing entry in
  if missing then pret (Some PcLeaseNotFound)
  else let* r := entry_refusal entry in pret (PcRefused <$> r).

(** An error of the check itself; its text is not modelled. *)
Definition unchecked {A} (m : M A) : prog (Inner E) PrecheckError A := λ st,
  match m st with (Ok x, st) => (Ok x, st) | (Err _, st) => (Err (PcUnavailable "mvcc"), st) end.

(** [read_barrier] lets the store catch up, or fails. *)
Definition check (read_barrier : prog (Inner E) BarrierError ()) (entry : LogEntry) : prog (Inner E) PrecheckError () :=
  let* found := unchecked (find entry) in
  match found with
  | None => pret ()
  | Some _ =>
      let* _ := (λ st, match read_barrier st with
                       | (Ok x, st) => (Ok x, st)
                       | (Err _, st) => (Err (PcUnavailable "precheck read barrier"), st)
                       end) in
      let* found := unchecked (find entry) in
      match found with Some e => pfail e | None => pret () end
  end.
End precheck.

(** ** On the abstract store *)

Fixpoint spec_chosen (A : Abs) (op : TxnOp) : list Mutation :=
  match op with
  | OpMutation m => [m]
  | OpRange _ => []
  | OpTxn compares success failure =>
      flat_map (spec_chosen A) (if spec_compares A compares then success else failure)
  end.

(** The keys put after [ms], unless one of them keeps what is missing. *)
Fixpoint scan (A : Abs) (put : gset bytes) (ms : list Mutation) : option (gset bytes) :=
  match ms with
  | [] => Some put
  | (Put key _ _ _ _ _ as m) :: ms' =>
      if ignores_prev m && negb (bool_decide (key ∈ put)) && bool_decide (a_live A key = None) then None
      else scan A ({[key]} ∪ put) ms'
  | DeleteRange _ _ _ :: ms' => scan A put ms'
  end.

Lemma scan_app A put l1 l2 : scan A put (l1 ++ l2) = scan A put l1 ≫= λ put, scan A put l2.
Proof.
  revert put. induction l1 as [|m l1 IH]; intros put; [done|]. destruct m; cbn; [|apply IH].
  destruct (_ && _); [done|]. apply IH.
Qed.

(** Beyond the keys of [A0] only those of [put] have come to life. *)
Definition live_within (A0 : Abs) (put : gset bytes) (A : Abs) : Prop :=
  ∀ k, a_live A0 k = None → k ∉ put → a_live A k = None.

Lemma live_within_refl A P : live_within A P A.
Proof. by intros k Hk _. Qed.

Lemma scan_mutation A0 P A rev m :
  live_within A0 P A →
  match scan A0 P [m], spec_mutation rev m A with
  | None, x => x = Err KeyNotFound
  | Some P', Ok e => live_within A0 P' (ef_abs e)
  | Some _, Err r => r = KeyNotFound
  end.
Proof.
  intros Hl. destruct m as [key value lease iv il pk|key range_end pk]; cbn [scan spec_mutation].
  - unfold spec_put. cbn [ignores_prev]. destruct ((iv || il) && negb (bool_decide (key ∈ P)) && bool_decide (a_live A0 key = None)) eqn:Hs.
    + apply andb_true_iff in Hs as [[-> Hp%negb_true_iff]%andb_true_iff Hn%bool_decide_eq_true].
      apply bool_decide_eq_false in Hp. by rewrite bool_decide_true by by apply Hl.
    + destruct ((iv || il) && bool_decide (a_live A key = None)); [done|]. cbn [ef_abs]. intros k Hk Hn. unfold a_live. rewrite lookup_insert_ne by set_solver.
      apply Hl; set_solver.
  - intros k Hk Hn. cbn. specialize (Hl k Hk Hn). unfold a_live in *.
    assert (∀ (vs : list (bytes * KvRecord)) (B : Abs), fst <$> mjoin (B !! k) = None →
      fst <$> mjoin (foldl (λ (A : Abs) (p : bytes * KvRecord), <[p.1 := None]> A) B vs !! k) = None) as Hf; [|by apply Hf].
    induction vs as [|p vs IH]; intros B HB; [done|]. apply IH. destruct (decide (p.1 = k)) as [->|];
      [by rewrite lookup_insert_eq|by rewrite lookup_insert_ne].
Qed.

Lemma scan_mutations A0 main ms : ∀ sub P A,
  live_within A0 P A → scan A0 P ms = None → spec_mutations main sub ms A = Err KeyNotFound.
Proof.
  induction ms as [|m ms IH]; intros sub P A Hl Hs; [done|]. change (m :: ms) with ([m] ++ ms) in Hs. rewrite scan_app in Hs.
  pose proof (scan_mutation A0 P A (mkRev main sub) m Hl) as Hm. cbn [spec_mutations].
  destruct (scan A0 P [m]) as [P'|]; cbn in Hs; [|by rewrite Hm].
  destruct (spec_mutation _ m A) as [e|r]; cbn [res_bind]; [|by rewrite Hm]. by rewrite (IH _ P').
Qed.

(** What a transaction that must be refused answers. *)
Definition op_scanned (op : TxnOp) : Prop := ∀ env s P,
  live_within (te_start env) P (ts_abs s) →
  match scan (te_start env) P (spec_chosen (te_start env) op), spec_txn_op env s op with
  | Some P', Ok (_, t) => live_within (te_start env) P' (ts_abs t)
  | None, Ok _ => False
  | _, Err e => is_Some (refusal e)
  end.

Lemma ops_scanned l : Forall op_scanned l → ∀ env s P,
  live_within (te_start env) P (ts_abs s) →
  match scan (te_start env) P (flat_map (spec_chosen (te_start env)) l), spec_txn_ops env s l with
  | Some P', Ok (_, t) => live_within (te_start env) P' (ts_abs t)
  | None, Ok _ => False
  | _, Err e => is_Some (refusal e)
  end.
Proof.
  induction 1 as [|op l Hop Hl IH]; intros env s P Hw; [done|]. cbn [flat_map spec_txn_ops]. rewrite scan_app.
  specialize (Hop env s P Hw). destruct (scan _ P (spec_chosen _ op)) as [P'|]; cbn [option_bind mbind].
  - destruct (spec_txn_op env s op) as [[r t]|e]; cbn [res_bind]; [|by destruct (scan _ P' _)].
    specialize (IH env t P' Hop). destruct (scan _ P' _), (spec_txn_ops env t l) as [[rs u]|e]; done.
  - destruct (spec_txn_op env s op) as [[r t]|e]; done.
Qed.

Lemma op_scan op : op_scanned op.
Proof.
  induction op as [r|m|cs succ fail Hs Hf] using txn_op_ind'; intros env s P Hw.
  - cbn. unfold spec_txn_range. destruct (_ && _); [by eexists|]. destruct (_ && _); [by eexists|]. done.
  - cbn [spec_chosen spec_txn_op]. unfold spec_txn_mutation.
    pose proof (scan_mutation (te_start env) P (ts_abs s) (mkRev (te_current env + 1) (ts_sub s)) m Hw) as Hm.
    destruct (scan _ P [m]), (spec_mutation _ m (ts_abs s)) as [e|r]; try done; by eexists.
  - rewrite spec_txn_op_nested. cbn [spec_chosen]. set (ok := spec_compares _ cs).
    pose proof (ops_scanned (if ok then succ else fail) ltac:(by destruct ok) env s P Hw) as Hx.
    destruct (scan _ P _), (spec_txn_ops env s _) as [[rs t]|e]; done.
Qed.

(** ** On the store *)

Section store.
Context {E : Type} `{KvStoreLaws E} `{BincodeLaws KvRecord, BincodeLaws KeyIndex, BincodeLaws LeaseRecord}.
Context `{Bincode StoredUser, Bincode StoredRole}.

Lemma same_store_refl (st : Inner E) : store_inv st → same_store st st.
Proof. intros Hst. exists (values st), (ops st). by rewrite st_with_id. Qed.

Lemma same_store_trans (a b c : Inner E) : same_store a b → same_store b c → same_store a c.
Proof. intros (v & o & -> & _) (v' & o' & -> & Hc). exists v', o'. by destruct a. Qed.

Lemma same_store_inv (st st' : Inner E) : same_store st st' → store_inv st'.
Proof. by intros (v & o & _ & Hi). Qed.

Lemma same_store_abs (st st' : Inner E) A :
  same_store st st' → abs_rel A (idx_gens (index st)) (contents (engine st)) →
  abs_rel A (idx_gens (index st')) (contents (engine st')).
Proof. by intros (v & o & -> & _). Qed.

(** A check over a well-formed store that changes nothing that matters. *)
Definition looks {X : Type} (A : Abs) (m : prog (Inner E) MvccError X) (x : X) : Prop :=
  ∀ st, store_inv st → abs_rel A (idx_gens (index st)) (contents (engine st)) →
  ∃ st', m st = (Ok x, st') ∧ same_store st st'.

Lemma looks_ret {X : Type} (A : Abs) (x : X) : looks A (pret x) x.
Proof. intros st Hst _. exists st. split; [done|]. by apply same_store_refl. Qed.

Lemma looks_bind {X Y : Type} (A : Abs) (m : prog (Inner E) MvccError X) (f : X → prog (Inner E) MvccError Y) x y :
  looks A m x → looks A (f x) y → looks A (pbind m f) y.
Proof.
  intros Hm Hf st Hst HA. destruct (Hm st Hst HA) as (st1 & Hr1 & Hs1).
  destruct (Hf st1 (same_store_inv _ _ Hs1) (same_store_abs _ _ _ Hs1 HA)) as (st2 & Hr2 & Hs2).
  exists st2. rewrite (pbind_run _ _ _ _ _ Hr1). split; [done|]. by eapply same_store_trans.
Qed.

Lemma looks_compares A cs : looks A (txn_would_succeed cs) (spec_compares A cs).
Proof. intros st Hst HA. by apply txn_would_succeed_ok. Qed.

Lemma chosen_ops_look A l : Forall (λ op, looks A (chosen_op op) (spec_chosen A op)) l →
  looks A (chosen_ops l) (flat_map (spec_chosen A) l).
Proof.
  induction 1 as [|op l Hop Hl IH]; cbn [chosen_ops flat_map]; [apply looks_ret|].
  eapply looks_bind; [exact Hop|]. eapply looks_bind; [exact IH|]. apply looks_ret.
Qed.

Lemma chosen_op_look A op : looks A (chosen_op op) (spec_chosen A op).
Proof.
  induction op as [r|m|cs succ fail Hs Hf] using txn_op_ind'; [apply looks_ret..|]. cbn [chosen_op spec_chosen].
  set (go := fix go (l : list TxnOp) := _).
  assert (∀ l, go l = chosen_ops l) as Hgo by (induction l as [|op l IH]; [done|]; cbn; by rewrite IH).
  eapply looks_bind; [apply looks_compares|]. rewrite Hgo. apply chosen_ops_look. by destruct (spec_compares A cs).
Qed.

Lemma chosen_mutations_look A cs succ fail :
  looks A (chosen_mutations cs succ fail) (flat_map (spec_chosen A) (if spec_compares A cs then succ else fail)).
Proof.
  eapply looks_bind; [apply looks_compares|]. apply chosen_ops_look, Forall_forall. intros op _. apply chosen_op_look.
Qed.

Lemma key_exists_look A key : looks A (key_exists key) (bool_decide (is_Some (a_live A key))).
Proof.
  intros st Hst HA. unfold key_exists, range.
  pose proof (range_ok st key [] 1 0 true false Hst) as Hok.
  destruct (range_with_revision key [] 1 0 true false st) as [r st'] eqn:Hr. destruct Hok as [-> Hs].
  unfold range_answer in Hr. cbn [Z.ltb Z.compare andb] in Hr. change (0 =? 0) with true in Hr. cbv iota in Hr.
  rewrite (store_view_current st A key [] Hst HA) in Hr. exists st'. split; [|done].
  rewrite (pbind_run _ _ st (spec_range (a_range A key []) 1 true false) st') by (by rewrite (pbind_run _ _ _ _ _ Hr)).
  unfold pret. do 2 f_equal. cbn [spec_range rr_kvs limited].
  destruct (a_range A key []) as [|[k rec] l] eqn:Hv.
  - rewrite bool_decide_true by done. symmetry. apply bool_decide_eq_false. intros [rec Hl].
    assert ((key, rec) ∈ a_range A key []) as Hin.
    { apply a_range_elem. split; [|done]. unfold in_range. by rewrite !bool_decide_true. }
    rewrite Hv in Hin. by apply elem_of_nil in Hin.
  - rewrite bool_decide_false by done. symmetry. apply bool_decide_eq_true.
    assert ((k, rec) ∈ a_range A key []) as [Hk Hl]%a_range_elem by (rewrite Hv; by left).
    unfold in_range in Hk. rewrite bool_decide_true in Hk by done. apply bool_decide_eq_true in Hk as ->. by eexists.
Qed.

Lemma keeps_look A ms : ∀ put, looks A (keeps_missing_key put ms) (bool_decide (scan A put ms = None)).
Proof.
  induction ms as [|m ms IH]; intros put; [rewrite bool_decide_false by done; apply looks_ret|].
  destruct m as [key value lease iv il pk|key range_end pk]; cbn [keeps_missing_key scan]; [|apply IH].
  destruct (ignores_prev _ && negb _); cbn [andb]; [|apply IH].
  eapply looks_bind; [apply key_exists_look|]. destruct (a_live A key) as [rec|].
  - rewrite (bool_decide_true (is_Some (Some rec))) by by eexists. rewrite (bool_decide_false (Some rec = None)) by done. apply IH.
  - rewrite (bool_decide_false (is_Some None)) by (by intros []). rewrite !bool_decide_true by done. apply looks_ret.
Qed.

Lemma found_look A ms :
  looks A (found_missing ms) (if bool_decide (scan A ∅ ms = None) then Some KeyNotFound else None).
Proof. eapply looks_bind; [apply keeps_look|]. apply looks_ret. Qed.

Lemma missing_lease_run ids (st : Inner E) : ∃ b, missing_lease ids st = (Ok b, st).
Proof.
  induction ids as [|id ids IH]; [by eexists|]. cbn. unfold lease_exists, pbind, pret, snapshot. cbn.
  destruct (bool_decide _); [exact IH|by eexists].
Qed.

Lemma any_missing_run A entry (st : Inner E) :
  store_inv st → abs_rel A (idx_gens (index st)) (contents (engine st)) →
  ∃ b st', any_missing entry st = (Ok b, st') ∧ same_store st st'.
Proof.
  intros Hst HA. assert (∃ ids, looks A (leases_named entry) ids) as [ids Hl].
  { destruct entry as [ms|cs succ fail|rev|id ttl nw|id|id nw| |op|subs|id]; cbn [leases_named]; try (eexists; apply looks_ret).
    destruct (_ && _); [eexists; apply looks_ret|]. eexists. eapply looks_bind; [apply chosen_mutations_look|apply looks_ret]. }
  destruct (Hl st Hst HA) as (st1 & Hr & Hs). destruct (missing_lease_run ids st1) as [b Hb].
  exists b, st1. split; [|done]. unfold any_missing. by rewrite (pbind_run _ _ _ _ _ Hr).
Qed.

(** There is room for the entry. *)
Definition entry_ready (entry : LogEntry) (st : Inner E) : Prop :=
  match entry with
  | EntApply ms => Forall mutation_wf ms ∧ current_rev (write_state st) < i64_max ∧ Z.of_nat (length ms) ≤ i64_max
  | EntTxn _ succ fail =>
      current_rev (write_state st) < i64_max ∧ ops_ok succ ∧ ops_ok fail ∧
      Z.of_nat (ops_size succ) ≤ i64_max ∧ Z.of_nat (ops_size fail) ≤ i64_max
  | _ => True
  end.

Definition is_txn (entry : LogEntry) : bool := match entry with EntTxn _ _ _ => true | _ => false end.

(** The state machine refuses. *)
Definition refuses (now : Z) (entry : LogEntry) (index : Z) (st : Inner E) (r : Refusal) : Prop :=
  ∃ e st', apply_request now entry index st = (Err (ErrMvcc e), st') ∧ refusal e = Some r ∧ same_store st st'.

Lemma apply_refuses A ms now i (st : Inner E) :
  store_inv st → abs_rel A (idx_gens (index st)) (contents (engine st)) → entry_ready (EntApply ms) st →
  scan A ∅ ms = None → refuses now (EntApply ms) i st KeyNotFound.
Proof.
  intros Hst HA (Hwf & Hmax & Hlen) Hs.
  pose proof (apply_ok st A ms Hst HA ltac:(by intros ->) Hwf Hmax Hlen) as Hok.
  destruct (apply ms st) as [r st'] eqn:Hr. cbv zeta in Hok.
  rewrite (scan_mutations A _ ms 0 ∅ A (live_within_refl A ∅) Hs) in Hok. destruct Hok as [-> Hsame].
  exists (Refused KeyNotFound). cbn [apply_request].
  exists st'. split_and!; [|done|done]. apply pbind_fail. unfold call. by rewrite Hr.
Qed.

Lemma txn_refuses A cs succ fail now i (st : Inner E) :
  store_inv st → abs_rel A (idx_gens (index st)) (contents (engine st)) → entry_ready (EntTxn cs succ fail) st →
  scan A ∅ (flat_map (spec_chosen A) (if spec_compares A cs then succ else fail)) = None →
  ∃ r, refuses now (EntTxn cs succ fail) i st r.
Proof.
  intros Hst HA (Hmax & Hok1 & Hok2 & Hsz1 & Hsz2) Hs.
  pose proof (txn_ok st A cs succ fail Hst HA Hmax Hok1 Hok2 Hsz1 Hsz2) as Hok. unfold spec_txn in Hok.
  pose proof (ops_scanned (if spec_compares A cs then succ else fail) ltac:(apply Forall_forall; intros; apply op_scan)
    (store_env st A) (mkTxnState A 0 false []) ∅ (live_within_refl A ∅)) as Hx.
  change (te_start (store_env st A)) with A in Hx. rewrite Hs in Hx.
  destruct (spec_txn_ops (store_env st A) _ _) as [[rs s]|e]; [done|]. cbn [res_bind] in Hok. destruct Hx as [r Hr].
  destruct (txn cs succ fail st) as [x st'] eqn:Hrun. destruct Hok as [-> Hsame].
  exists r, e, st'. split_and!; [|done|done]. cbn [apply_request]. apply pbind_fail. unfold call. by rewrite Hrun.
Qed.

Lemma compact_refuses rev now i (st st1 : Inner E) r :
  store_inv st → entry_refusal (EntCompact rev) st = (Ok (Some r), st1) → refuses now (EntCompact rev) i st r.
Proof.
  intros Hst Hr. cbn [entry_refusal] in Hr.
  assert (∃ x, compact rev st = (Err x, st) ∧ refusal x = Some r) as (x & Hx & Hrx).
  { unfold compact. destruct (rev <=? 0); [injection Hr as <- _; by eexists|].
    rewrite (pbind_run pget _ st st st) by done. unfold current_revision, compact_revision, pbind, pret in Hr.
    rewrite (si_view _ Hst) in Hr. cbn [rv_current ws_revs] in Hr.
    destruct (current_rev (write_state st) <? rev); [injection Hr as <- _; by eexists|]. injection Hr as Hr _.
    rewrite (si_view _ Hst) in Hr. cbn [rv_compact ws_revs] in Hr.
    destruct (rev <? compact_rev (write_state st)); [injection Hr as <-; by eexists|done]. }
  exists x, st. split_and!; [|done|by apply same_store_refl]. cbn [apply_request]. apply pbind_fail. unfold call. by rewrite Hx.
Qed.

Lemma looks_run {X : Type} A (m : prog (Inner E) MvccError X) x y (st st' : Inner E) :
  looks A m x → store_inv st → abs_rel A (idx_gens (index st)) (contents (engine st)) →
  m st = (Ok y, st') → y = x ∧ same_store st st'.
Proof. intros Hl Hst HA Hr. destruct (Hl st Hst HA) as (st1 & Hr1 & Hs). rewrite Hr in Hr1. by injection Hr1 as -> ->. Qed.

Lemma refusal_refuses (st st1 : Inner E) A entry r now i :
  store_inv st → abs_rel A (idx_gens (index st)) (contents (engine st)) → entry_ready entry st →
  entry_refusal entry st = (Ok (Some r), st1) →
  same_store st st1 ∧ ∃ r', refuses now entry i st1 r' ∧ (is_txn entry = false → r' = r).
Proof.
  intros Hst HA Hrd Hr. destruct entry as [ms|cs succ fail|rev|id ttl nw|id|id nw| |op|subs|id]; try done; cbn [entry_refusal] in Hr.
  - destruct (existsb _ _); [|done]. apply (looks_run A) with (1 := found_look A ms) in Hr as [Hr Hs]; [|done..].
    case_bool_decide as Hscan; [|done]. injection Hr as ->. split; [done|]. exists KeyNotFound. split; [|done].
    apply (apply_refuses A); [by eapply same_store_inv|by eapply same_store_abs| |done]. by destruct Hs as (v & o & -> & _).
  - destruct (_ && _); [done|]. apply (looks_run A) with (1 := looks_bind A _ _ _ _ (chosen_mutations_look A cs succ fail) (found_look A _)) in Hr
      as [Hr Hs]; [|done..]. case_bool_decide as Hscan; [|done]. split; [done|].
    destruct (txn_refuses A cs succ fail now i st1) as [r' Hr']; [by eapply same_store_inv|by eapply same_store_abs| |done|by exists r'].
    by destruct Hs as (v & o & -> & _).
  - assert (st1 = st) as ->.
    { destruct (rev <=? 0); [by injection Hr|]. unfold current_revision, compact_revision, pbind, pret in Hr.
      by destruct (_ <? rev); injection Hr. }
    split; [by apply same_store_refl|]. exists r. split; [|done]. by eapply compact_refuses.
  - injection Hr as Hr <-. split; [by apply same_store_refl|]. destruct (ttl <=? 0) eqn:Ht; [|done]. injection Hr as <-.
    eexists. split; [|done]. exists (Refused (InvalidArgument "lease TTL must be positive")), st.
    split_and!; [|done|by apply same_store_refl]. cbn [apply_request]. apply pbind_fail. unfold call, apply_lease_grant. by rewrite Ht.
  - unfold lease_exists, pbind, pret, snapshot in Hr. injection Hr as Hr <-. split; [by apply same_store_refl|].
    case_bool_decide as Hl; [done|]. injection Hr as <-. eexists. split; [|done]. exists (Refused LeaseNotFound), st.
    split_and!; [|done|by apply same_store_refl]. cbn [apply_request]. apply pbind_fail.
    unfold call, apply_lease_keepalive. rewrite (pbind_run snapshot _ st (contents (engine st)) st) by done.
    unfold read_lease. destruct (snap_get _ _ _); [by destruct Hl|done].
Qed.

(** C17.  What the check refuses as sure to be refused, the state machine
    refuses: if [find] answers that an entry would be refused, then applying
    the entry to the same store is refused with nothing changed, and, but for
    a transaction, where an earlier range may be what is refused, with the
    very same refusal. *)
Theorem precheck_sound (st st1 : Inner E) A entry r now i :
  store_inv st → abs_rel A (idx_gens (index st)) (contents (engine st)) → entry_ready entry st →
  find entry st = (Ok (Some (PcRefused r)), st1) →
  same_store st st1 ∧
  ∃ r' st2, apply_data now entry i st1 = (Ok (RspRefused (current_rev (write_state st)) r'), st2) ∧
    same_store st st2 ∧ (is_txn entry = false → r' = r).
Proof.
  intros Hst HA Hrd Hfind. unfold find in Hfind. destruct (any_missing_run A entry st Hst HA) as (b & s1 & Hm & Hs1).
  rewrite (pbind_run _ _ _ _ _ Hm) in Hfind. destruct b; [done|].
  apply pbind_ok in Hfind as (x & s2 & Hx & Hret). destruct x as [x|]; [|done]. injection Hret as -> <-.
  pose proof (same_store_inv _ _ Hs1) as Hst1. pose proof (same_store_abs _ _ _ Hs1 HA) as HA1.
  assert (entry_ready entry s1) as Hrd1 by (by destruct Hs1 as (v & o & -> & _)).
  assert (same_store s1 s2 ∧ ∃ r', refuses now entry i s2 r' ∧ (is_txn entry = false → r' = r)) as (Hs2 & r' & Hr' & Heq).
  { by eapply refusal_refuses. }
  split; [by eapply same_store_trans|]. destruct Hr' as (e & s3 & Hrun & Hre & Hs3).
  exists r', s3. split_and!; [|by do 2 (eapply same_store_trans; [done|])|done].
  unfold apply_data. rewrite Hrun, Hre. unfold call, current_revision, pbind, pret. do 3 f_equal.
  rewrite (si_view _ (same_store_inv _ _ Hs3)). cbn. destruct Hs1 as (? & ? & -> & _), Hs2 as (? & ? & -> & _), Hs3 as (? & ? & -> & _). done.
Qed.
End store.

(** ** A demonstration *)

Section witnesses.
Import Demo.

(** A put that keeps the value of a key there is none of, after one of a key
    there is. *)
Definition demo_keeps : LogEntry :=
  EntApply [Put (str "a") (str "2") 7 false false false; Put (str "c") [] 0 true false false].

Lemma precheck_sound_witness :
  (find demo_keeps demo_lease2).1 = Ok (Some (PcRefused KeyNotFound)) ∧
  (apply_data 0 demo_keeps 9 (find demo_keeps demo_lease2).2).1 = Ok (RspRefused 1 KeyNotFound).
Proof.
  assert ((find demo_keeps demo_lease2).1 = Ok (Some (PcRefused KeyNotFound))) as Hf by (vm_compute; reflexivity).
  split; [exact Hf|].
  destruct (precheck_sound demo_lease2 (find demo_keeps demo_lease2).2 demo_lease_abs demo_keeps KeyNotFound 0 9
    (proj1 demo_lease_inv2) (proj2 demo_lease_inv2)) as (_ & r & st2 & Hr & _ & Heq).
  - split_and!; [|vm_compute; reflexivity|vm_compute; discriminate]. repeat constructor; vm_compute; discriminate.
  - rewrite <- Hf. apply surjective_pairing.
  - rewrite Hr, (Heq eq_refl). vm_compute. reflexivity.
Defined.
End witnesses.
