(* ===== verification/KvService.v ===== *)
(** * The KV service ([server/src/kv.rs], [ServerState::propose])

    The five calls of etcd's KV service: what each is authorized for, what it
    proposes or reads, and how the answer of the state machine becomes the
    response.  Raft and the other members are arguments ([Server]): what
    proposing an entry answers, what the leader answers to what is forwarded
    to it, what the read barrier does to the store.  A
    response header is its revision. *)

From S2P Require Import Prelude Revision Record KvStore Lease Cache Auth Store SnapshotPolicy StateMachine.
From S2P Require Import RangeOptions Conv Authz Precheck.

(** ** What a request touches *)

Fixpoint op_consumes (op : RequestOp) : bool :=
  match op with
  | RequestPut _ => true
  | RequestTxn _ success failure => existsb op_consumes success || existsb op_consumes failure
  | _ => false
  end.

Definition txn_consumes_space (req : TxnRequest) : bool :=
  existsb op_consumes (tq_success req) || existsb op_consumes (tq_failure req).

Definition put_accesses (p : PutRequest) : list Access :=
  mkAccess PermToWrite (pr_key p) [] :: (if pr_prev_kv p then [mkAccess PermToRead (pr_key p) []] else []).

Definition delete_accesses (d : DeleteRangeRequest) : list Access :=
  mkAccess PermToWrite (dr_key d) (dr_range_end d)
  :: (if dr_prev_kv d then [mkAccess PermToRead (dr_key d) (dr_range_end d)] else []).

Definition compare_accesses (cs : list PbCompare) : list Access :=
  (λ c, mkAccess PermToRead (pc_key c) (pc_range_end c)) <$> cs.

Fixpoint op_accesses (op : RequestOp) : list Access :=
  match op with
  | RequestNone => []
  | RequestRange r => [mkAccess PermToRead (rq_key r) (rq_range_end r)]
  | RequestPut p => put_accesses p
  | RequestDeleteRange d => delete_accesses d
  | RequestTxn compare success failure =>
      compare_accesses compare ++ flat_map op_accesses success ++ flat_map op_accesses failure
  end.

Definition txn_accesses (t : TxnRequest) : list Access :=
  compare_accesses (tq_compare t) ++ flat_map op_accesses (tq_success t) ++ flat_map op_accesses (tq_failure t).

Fixpoint op_put_leases (op : RequestOp) : list Z :=
  match op with
  | RequestPut p => if pr_lease p =? 0 then [] else [pr_lease p]
  | RequestTxn _ success failure => flat_map op_put_leases success ++ flat_map op_put_leases failure
  | _ => []
  end.

Definition txn_put_leases (t : TxnRequest) : list Z :=
  flat_map op_put_leases (tq_success t) ++ flat_map op_put_leases (tq_failure t).

Definition write_accesses (keys : list bytes) : list Access := (λ k, mkAccess PermToWrite k []) <$> keys.

(** ** Responses *)

Record RangeResponse := mkRangeResponse {
  rp_revision : Z; rp_kvs : list KeyValue; rp_more : bool; rp_count : Z
}.
Record PutResponse := mkPutResponse { pp_revision : Z; pp_prev_kv : option KeyValue }.
Record DeleteRangeResponse := mkDeleteResponse { dp_revision : Z; dp_deleted : Z; dp_prev_kvs : list KeyValue }.

(** [ResponseOp], with the fields of a nested [TxnResponse]. *)
Inductive ResponseOp :=
| ResponseRange (r : RangeResponse)
| ResponsePut (p : PutResponse)
| ResponseDeleteRange (d : DeleteRangeResponse)
| ResponseTxn (revision : Z) (succeeded : bool) (responses : list ResponseOp).

Record TxnResponse := mkTxnResponse { tp_revision : Z; tp_succeeded : bool; tp_responses : list ResponseOp }.

Definition range_result_to_response (header : Z) (result : RangeResult) (count_only : bool) : RangeResponse :=
  mkRangeResponse header (if count_only then [] else record_to_kv <$> rr_kvs result) (rr_more result) (rr_count result).

Definition put_response (header : Z) (m : MutationResult) : PutResponse :=
  mkPutResponse header (record_to_kv <$> head (mr_prev_kvs m)).
Definition delete_response (header : Z) (m : MutationResult) : DeleteRangeResponse :=
  mkDeleteResponse header (mr_n m) (record_to_kv <$> mr_prev_kvs m).

(** [ops.iter().zip(results)] with a loop body that may fail. *)
Definition pair_map {S A B C} (f : A → B → result S C) : list A → list B → result S (list C) :=
  fix go l l' :=
    match l, l' with
    | x :: l, y :: l' => let? z := f x y in let? zs := go l l' in Ok (z :: zs)
    | _, _ => Ok []
    end.

(** One response per operation of the branch that ran, by position. *)
Fixpoint op_response (header : Z) (op : RequestOp) (res : TxnOpResult) : result Status ResponseOp :=
  match op, res with
  | RequestRange r, ResRange x =>
      Ok (ResponseRange (range_result_to_response header (apply_options r x) (rq_count_only r)))
  | RequestPut _, ResMutation m => Ok (ResponsePut (put_response header m))
  | RequestDeleteRange _, ResMutation m => Ok (ResponseDeleteRange (delete_response header m))
  | RequestTxn _ success failure, ResTxn succeeded op_results =>
      let branch := if succeeded then success else failure in
      if negb (length branch =? length op_results)%nat then Err (internal "txn: op results for request ops")
      else
        let? rs := pair_map (op_response header) branch op_results in
        Ok (ResponseTxn header succeeded rs)
  | _, _ => Err (internal "txn: op result does not match request op")
  end.

Definition txn_responses (header : Z) (ops : list RequestOp) (results : list TxnOpResult)
    : result Status (list ResponseOp) :=
  if negb (length ops =? length results)%nat then Err (internal "txn: op results for request ops")
  else pair_map (op_response header) ops results.

Definition txn_result_to_response (req : TxnRequest) (txn : TxnResult) : result Status TxnResponse :=
  let ops := if tr_succeeded txn then tq_success req else tq_failure req in
  let? rs := txn_responses (tr_revision txn) ops (tr_op_results txn) in
  Ok (mkTxnResponse (tr_revision txn) (tr_succeeded txn) rs).

(** ** Errors *)

Definition refusal_status (r : Refusal) : Status :=
  match r with
  | KeyNotFound | InvalidArgument _ => invalid_argument (refusal_message r)
  | LeaseNotFound => mkStatus CdNotFound (refusal_message r)
  | RefCompacted | RefFutureRevision => mkStatus CdOutOfRange (refusal_message r)
  end.

Definition mvcc_error_to_status (e : MvccError) : Status :=
  match refusal e with Some r => refusal_status r | None => internal "mvcc" end.

(** What proposing an entry can fail with ([proposer.rs]). *)
Inductive ProposeError := ForwardToLeader (leader_id : option Z) (message : string) | ProposeFailed (message : string).

(** [ForwardedRead]. *)
Record ForwardedRead := mkForwarded {
  fr_key : bytes; fr_range_end : bytes; fr_limit : nat; fr_revision : Z; fr_keys_only : bool; fr_count_only : bool
}.

(** Raft and the server around the store of type [E]: the size an entry has
    in the log and the limit on it, whether this member leads, the read
    barrier, proposing (through the proposer or to raft), the forwarding of
    writes and reads to the leader, the space alarm and the version gate. *)
Record Server (E : Type) := mkServer {
  serialized_size : LogEntry → Z;
  max_request_bytes : option Z;
  is_leader : bool;
  read_barrier : prog (Inner E) BarrierError ();
  client_write : LogEntry → prog (Inner E) ProposeError LogResponse;
  forward : Z → LogEntry → prog (Inner E) string LogResponse;
  forward_read : Z → ForwardedRead → prog (Inner E) string (RangeResult * option Z);
  nospace : bool;
  require_nested_txn : result Status ()
}.
Arguments mkServer {E}.
Arguments serialized_size {E}.
Arguments max_request_bytes {E}.
Arguments is_leader {E}.
Arguments read_barrier {E}.
Arguments client_write {E}.
Arguments forward {E}.
Arguments forward_read {E}.
Arguments nospace {E}.
Arguments require_nested_txn {E}.

Section service.
Context {E : Type} `{KvStore E} `{Bincode KvRecord, Bincode KeyIndex, Bincode LeaseRecord}.
Context `{Bincode StoredUser, Bincode StoredRole}.
Abbreviation KS A := (prog (Inner E) Status A).
Variable self : Server E.

Definition or_status {F A} (f : F → Status) (m : prog (Inner E) F A) : KS A :=
  λ st, match m st with (Ok x, st) => (Ok x, st) | (Err e, st) => (Err (f e), st) end.

Definition precheck_status (e : PrecheckError) : Status :=
  match e with
  | PcLeaseNotFound => mkStatus CdNotFound "etcdserver: requested lease not found"
  | PcRefused r => refusal_status r
  | PcUnavailable m => unavailable m
  end.

Definition forward_status (msg : string) : Status :=
  if bool_decide (msg = "etcdserver: requested lease not found"%string) then mkStatus CdNotFound msg
  else unavailable "forwarded write to leader".

Definition too_large (entry : LogEntry) : bool :=
  match max_request_bytes self with Some max => max <? serialized_size self entry | None => false end.

(** The leader's check of what it is about to propose. *)
Definition prechecked (entry : LogEntry) : KS () :=
  if is_leader self then or_status precheck_status (check (read_barrier self) entry) else pret ().

(** Proposing, on a follower through the leader. *)
Definition submit (entry : LogEntry) : KS LogResponse := λ st,
  match client_write self entry st with
  | (Ok r, st) => (Ok r, st)
  | (Err (ForwardToLeader (Some leader_id) _), st) => or_status forward_status (forward self leader_id entry) st
  | (Err _, st) => (Err (unavailable "raft client_write"), st)
  end.

Definition propose (entry : LogEntry) : KS LogResponse :=
  if too_large entry then pfail (invalid_argument "etcdserver: request is too large")
  else
    let* _ := prechecked entry in
    let* response := submit entry in
    match response with
    | RspRefused _ refusal => pfail (refusal_status refusal)
    | r => pret r
    end.

Definition linearize_read (read : ForwardedRead) : KS (option (RangeResult * option Z)) := λ st,
  match read_barrier self st with
  | (Ok _, st) => (Ok None, st)
  | (Err (BeForward (Some leader_id)), st) =>
      or_status (λ _, unavailable "forwarded linearizable read to leader")
        (let* r := forward_read self leader_id read in pret (Some r)) st
  | (Err _, st) => (Err (unavailable "linearizable read barrier"), st)
  end.

(** [self.state.space.check_write()]. *)
Definition check_write : KS () :=
  if nospace self then pfail (mkStatus CdResourceExhausted "etcdserver: mvcc: database space exceeded") else pret ().

Fixpoint leases_keys (leases : list Z) : KS (list bytes) :=
  match leases with
  | [] => pret []
  | id :: leases' =>
      let* keys := or_status (λ _, internal "lease keys") (lease_attached_keys id) in
      let* rest := leases_keys leases' in
      pret (keys ++ rest)
  end.

(** [sort_unstable], then [dedup]. *)
Definition lease_put_keys (leases : list Z) : KS (list bytes) :=
  let* st := pget in
  if negb (am_enabled (auth st)) then pret []
  else leases_keys (remove_dups (merge_sort Z.le leases)).

Definition authorized (user : option bytes) (accesses : list Access) : KS () :=
  let* st := pget in
  plift (authorize_all (contents (engine st)) (auth st) user accesses).

Definition serve_range (req : RangeRequest) : KS (RangeResult * Z) :=
  let* forwarded :=
    (if rq_serializable req then pret None
     else linearize_read (mkForwarded (rq_key req) (rq_range_end req) (store_limit req) (rq_revision req)
                            (rq_keys_only req) (rq_count_only req))) in
  match forwarded with
  | Some (x, revision) =>
      let* st := pget in
      pret (apply_options req x, default (rv_current (view_revs (view st))) revision)
  | None => or_status mvcc_error_to_status (serve_local req)
  end.

Definition kv_range (user : option bytes) (req : RangeRequest) : KS RangeResponse :=
  let* _ := authorized user [mkAccess PermToRead (rq_key req) (rq_range_end req)] in
  let* (x, revision) := serve_range req in
  pret (range_result_to_response revision x (rq_count_only req)).

Definition applied_one (response : LogResponse) : KS (Z * MutationResult) :=
  match response with
  | RspApply revision results =>
      match last results with
      | Some m => pret (revision, m)
      | None => pfail (internal "Apply returned no results")
      end
  | _ => pfail (internal "unexpected response")
  end.

(** Everything before the put is proposed. *)
Definition put_admit (user : option bytes) (req : PutRequest) : KS () :=
  let* lease_keys := (if pr_lease req =? 0 then pret [] else lease_put_keys [pr_lease req]) in
  let* _ := authorized user (put_accesses req ++ write_accesses lease_keys) in
  check_write.

Definition kv_put (user : option bytes) (req : PutRequest) : KS PutResponse :=
  let* _ := put_admit user req in
  let* response := propose (EntApply [put_request_to_mutation req]) in
  let* (revision, m) := applied_one response in
  pret (put_response revision m).

Definition kv_delete_range (user : option bytes) (req : DeleteRangeRequest) : KS DeleteRangeResponse :=
  let* _ := authorized user (delete_accesses req) in
  let* response := propose (EntApply [delete_request_to_mutation req]) in
  let* (revision, m) := applied_one response in
  pret (delete_response revision m).

(** Everything before the transaction is proposed. *)
Definition txn_admit (user : option bytes) (req : TxnRequest) : KS (list Compare * list TxnOp * list TxnOp) :=
  let* lease_keys := lease_put_keys (txn_put_leases req) in
  let* _ := authorized user (txn_accesses req ++ write_accesses lease_keys) in
  let* _ := (if txn_consumes_space req then check_write else pret ()) in
  let* parts := plift (txn_request_parts req) in
  let* _ := (if txn_nests req then plift (require_nested_txn self) else pret ()) in
  pret parts.

Definition kv_txn (user : option bytes) (req : TxnRequest) : KS TxnResponse :=
  let* (compares, success, failure) := txn_admit user req in
  let* response := propose (EntTxn compares success failure) in
  match response with
  | RspTxn t => plift (txn_result_to_response req t)
  | _ => pfail (internal "unexpected response")
  end.

Definition kv_compact (revision : Z) : KS Z :=
  let* response := propose (EntCompact revision) in
  match response with
  | RspCompact compact_rev => pret compact_rev
  | _ => pfail (internal "unexpected response")
  end.
End service.
