(* ===== verification/KvAuth.v ===== *)
(** * What an authorized request can touch

    A transaction that was let in changes only keys its user may write, shows
    only records its user may read, and answers the same whatever the keys
    the user may neither read nor write hold.  Proved of the abstract
    transaction and carried to the store by its refinement. *)

From S2P Require Import Prelude Revision Record KvStore Lease Cache Auth Store StoreCore StoreSpec StoreInv.
From S2P Require Import StoreApply StoreCommit StoreOpen StoreDemo StoreWrite StoreRead StoreTxn.
From S2P Require Import SnapshotPolicy StateMachine RangeOptions Conv Authz Precheck KvService.

(** ** Operations within what may be touched *)

Section within.
Context (R W : bytes → Prop).

Definition range_within (P : bytes → Prop) (key range_end : bytes) : Prop :=
  ∀ k, in_range k key range_end = true → P k.

Definition mutation_within (m : Mutation) : Prop :=
  match m with
  | Put key _ _ _ _ pk => W key ∧ (pk = true → R key)
  | DeleteRange key range_end pk => range_within W key range_end ∧ (pk = true → range_within R key range_end)
  end.

Definition compare_within (c : Compare) : Prop := range_within R (cmp_key c) (cmp_range_end c).

Fixpoint op_within (op : TxnOp) : Prop :=
  match op with
  | OpRange r => range_within R (ro_key r) (ro_range_end r)
  | OpMutation m => mutation_within m
  | OpTxn cs s f => Forall compare_within cs ∧ foldr and True (op_within <$> s) ∧ foldr and True (op_within <$> f)
  end.
Definition ops_within (l : list TxnOp) : Prop := foldr and True (op_within <$> l).

(** States that agree on every key that may be read or written. *)
Definition agree (A A' : Abs) : Prop := ∀ k, R k ∨ W k → A !! k = A' !! k.

(** A record is stored under its key. *)
Definition keyed (A : Abs) : Prop := ∀ k rec, a_live A k = Some rec → rec_key rec = k.

Definition kept (A A' : Abs) : Prop := ∀ k, ¬ W k → A' !! k = A !! k.

Fixpoint shown (r : TxnOpResult) : list KvRecord :=
  match r with
  | ResRange res => rr_kvs res
  | ResMutation m => mr_prev_kvs m
  | ResTxn _ rs => concat (shown <$> rs)
  end.

Lemma agree_live A A' k : agree A A' → R k ∨ W k → a_live A k = a_live A' k.
Proof. intros Ha Hk. unfold a_live. by rewrite (Ha k Hk). Qed.

Lemma agree_range (P : bytes → Prop) A A' key range_end :
  agree A A' → range_within P key range_end → (∀ k, P k → R k ∨ W k) →
  a_range A key range_end = a_range A' key range_end.
Proof.
  intros Ha Hr HP. apply key_sorted_ext; [apply a_range_sorted..|]. intros [k rec]. rewrite !a_range_elem.
  split; intros [Hk Hl]; (split; [done|]); [rewrite <- (agree_live A A')|rewrite (agree_live A A')]; auto.
Qed.

Lemma agree_compare A A' c : agree A A' → compare_within c → spec_compare A c = spec_compare A' c.
Proof.
  intros Ha Hc. unfold spec_compare. case_bool_decide as He.
  - rewrite (agree_live A A'); [done|done|]. left. apply Hc. unfold in_range. by rewrite He, !bool_decide_true.
  - apply eq_true_iff_eq. rewrite !forallb_forall.
    assert (∀ (A A' : Abs) (p : bytes * option LiveKey), agree A A' → p ∈ map_to_list A' →
      in_range p.1 (cmp_key c) (cmp_range_end c) = true → p ∈ map_to_list A ∧ a_live A p.1 = a_live A' p.1) as Hin.
    { intros B B' [k l] Hb Hp%elem_of_map_to_list Hk. rewrite elem_of_map_to_list, (agree_live B B'); auto.
      split; [|done]. rewrite (Hb k); [done|]. left. by apply Hc. }
    split; intros Hall p Hp%list_elem_of_In; apply implb_true_iff; intros Hk.
    + destruct (Hin A A' p Ha Hp Hk) as [Hp' <-]. specialize (Hall p (proj1 (list_elem_of_In _ _) Hp')). by rewrite Hk in Hall.
    + destruct (Hin A' A p (λ k H, eq_sym (Ha k H)) Hp Hk) as [Hp' <-].
      specialize (Hall p (proj1 (list_elem_of_In _ _) Hp')). by rewrite Hk in Hall.
Qed.

Lemma agree_compares A A' cs : agree A A' → Forall compare_within cs → spec_compares A cs = spec_compares A' cs.
Proof.
  intros Ha. unfold spec_compares. induction 1 as [|c cs Hc Hcs IH]; [done|]. cbn. by rewrite IH, (agree_compare A A').
Qed.

(** ** Mutations *)

Definition effect_within (A : Abs) (x x' : result Refusal Effect) : Prop :=
  match x, x' with
  | Ok e, Ok e' =>
      ef_result e = ef_result e' ∧ ef_events e = ef_events e' ∧ agree (ef_abs e) (ef_abs e') ∧
      keyed (ef_abs e) ∧ kept A (ef_abs e) ∧ Forall (λ rec, R (rec_key rec)) (mr_prev_kvs (ef_result e))
  | Err r, Err r' => r = r'
  | _, _ => False
  end.

Lemma agree_insert A A' k x : agree A A' → agree (<[k := x]> A) (<[k := x]> A').
Proof. intros Ha k' Hk'. destruct (decide (k = k')) as [->|]; [by rewrite !lookup_insert_eq|]. rewrite !lookup_insert_ne by done. by apply Ha. Qed.

Lemma put_within rev key value lease iv il pk A A' :
  agree A A' → keyed A → mutation_within (Put key value lease iv il pk) →
  effect_within A (spec_put rev key value lease iv il pk A) (spec_put rev key value lease iv il pk A').
Proof.
  intros Ha Hkd [Hw Hr]. unfold spec_put.
  assert (a_puts A' key = a_puts A key) as -> by (unfold a_puts; by rewrite (Ha key (or_intror Hw))).
  rewrite <- (agree_live A A' key Ha (or_intror Hw)). destruct (_ && _); [done|]. cbn. split_and!; [done|done|..].
  - by apply agree_insert.
  - intros k rec. unfold a_live. destruct (decide (key = k)) as [<-|]; [rewrite lookup_insert_eq; cbn; by intros [= <-]|].
    rewrite lookup_insert_ne by done. apply Hkd.
  - intros k Hk. rewrite lookup_insert_ne; [done|congruence].
  - destruct pk; [|constructor]. destruct (a_live A key) as [rec|] eqn:Hl; constructor; [|constructor].
    rewrite (Hkd _ _ Hl). by apply Hr.
Qed.

Lemma foldl_None_lookup (vs : list (bytes * KvRecord)) A k :
  foldl (λ (A : Abs) (p : bytes * KvRecord), <[p.1 := None]> A) A vs !! k = if decide (k ∈ vs.*1) then Some None else A !! k.
Proof.
  revert A. induction vs as [|p vs IH]; intros A; cbn [foldl fmap list_fmap].
  - rewrite decide_False; [done|apply not_elem_of_nil].
  - rewrite IH. destruct (decide (k ∈ vs.*1)); [rewrite decide_True; [done|by right]|].
    destruct (decide (p.1 = k)) as [->|]; [rewrite lookup_insert_eq, decide_True; [done|by left]|].
    rewrite lookup_insert_ne, decide_False; [done| |done]. rewrite elem_of_cons. naive_solver.
Qed.

Lemma delete_within rev key range_end pk A A' :
  agree A A' → keyed A → mutation_within (DeleteRange key range_end pk) →
  effect_within A (Ok (spec_delete rev key range_end pk A)) (Ok (spec_delete rev key range_end pk A')).
Proof.
  intros Ha Hkd [Hw Hr]. unfold spec_delete.
  rewrite <- (agree_range W A A' key range_end Ha Hw (λ k Hk, or_intror Hk)). set (vs := a_range A key range_end).
  assert (∀ k rec, (k, rec) ∈ vs → in_range k key range_end = true ∧ a_live A k = Some rec) as Hvs
    by (intros k rec; apply a_range_elem).
  cbn. split_and!; [done|done|..].
  - intros k Hk. rewrite !foldl_None_lookup. by rewrite (Ha k Hk).
  - intros k rec. unfold a_live. rewrite foldl_None_lookup. destruct (decide _); [done|]. apply Hkd.
  - intros k Hk. rewrite foldl_None_lookup, decide_False; [done|].
    intros ([k' rec] & -> & [Hin _]%Hvs)%list_elem_of_fmap. by apply Hk, Hw.
  - destruct pk; [|constructor]. rewrite Forall_fmap, Forall_forall. intros [k rec] [Hin Hl]%Hvs. cbn.
    rewrite (Hkd _ _ Hl). by apply Hr.
Qed.

Lemma mutation_within_ok rev m A A' :
  agree A A' → keyed A → mutation_within m → effect_within A (spec_mutation rev m A) (spec_mutation rev m A').
Proof. destruct m; [apply put_within|apply delete_within]. Qed.

(** ** Transactions *)

Record env_agree (env env' : TxnEnv) : Prop := {
  ea_start : agree (te_start env) (te_start env');
  ea_current : te_current env = te_current env';
  ea_compact : te_compact env = te_compact env';
  ea_past t key range_end :
    range_within R key range_end → te_past env t key range_end = te_past env' t key range_end
}.

(** The older views have records under their keys, of the keys asked for. *)
Definition past_keyed (env : TxnEnv) : Prop :=
  ∀ t key range_end k rec, (k, rec) ∈ te_past env t key range_end → in_range k key range_end = true ∧ rec_key rec = k.

Record state_agree (s s' : TxnState) : Prop := {
  sa_abs : agree (ts_abs s) (ts_abs s');
  sa_sub : ts_sub s = ts_sub s';
  sa_produced : ts_produced s = ts_produced s';
  sa_events : ts_events s = ts_events s'
}.

(** Two runs that differ outside what may be touched. *)
Definition runs_agree {X} (recs : X → list KvRecord) (s : TxnState) (x x' : MvccResult (X * TxnState)) : Prop :=
  match x, x' with
  | Ok (r, t), Ok (r', t') =>
      r = r' ∧ state_agree t t' ∧ keyed (ts_abs t) ∧ kept (ts_abs s) (ts_abs t) ∧
      Forall (λ rec, R (rec_key rec)) (recs r)
  | Err e, Err e' => e = e'
  | _, _ => False
  end.

Lemma trim_key rec b : rec_key (trim rec b) = rec_key rec.
Proof. by destruct b. Qed.

Lemma spec_range_shown view limit ko co :
  (∀ k rec, (k, rec) ∈ view → R (rec_key rec)) →
  Forall (λ rec, R (rec_key rec)) (rr_kvs (spec_range view limit ko co)).
Proof.
  intros Hv. cbn. destruct co; [constructor|]. rewrite Forall_fmap, Forall_forall. intros [k rec] Hin%elem_of_limited.
  cbn. rewrite trim_key. by eapply Hv.
Qed.

Lemma txn_range_within env env' s s' r :
  env_agree env env' → past_keyed env → state_agree s s' → keyed (ts_abs s) →
  range_within R (ro_key r) (ro_range_end r) →
  spec_txn_range env s r = spec_txn_range env' s' r ∧
  ∀ res, spec_txn_range env s r = Ok res → Forall (λ rec, R (rec_key rec)) (rr_kvs res).
Proof.
  intros [Hst Hcur Hcmp Hpast] Hpk [Ha Hsub Hp _] Hk Hr. unfold spec_txn_range.
  rewrite <- Hp, <- Hcur, <- Hcmp, <- (Hpast _ _ _ Hr).
  rewrite <- (agree_range R (ts_abs s) (ts_abs s') _ _ Ha Hr) by (intros; by left). split; [done|].
  destruct (_ && _); [done|]. destruct (_ && _); [done|]. intros res [= <-]. apply spec_range_shown.
  intros k rec. destruct (_ || _).
  - intros [Hin Hl]%a_range_elem. rewrite (Hk _ _ Hl). by apply Hr.
  - intros [Hin ->]%Hpk. by apply Hr.
Qed.

Lemma txn_mutation_within env env' s s' m :
  env_agree env env' → state_agree s s' → keyed (ts_abs s) → mutation_within m →
  runs_agree shown s (spec_txn_mutation env s m) (spec_txn_mutation env' s' m).
Proof.
  intros He [Ha Hsub Hp Hev] Hk Hm. unfold spec_txn_mutation. rewrite <- (ea_current _ _ He), <- Hsub.
  pose proof (mutation_within_ok (mkRev (te_current env + 1) (ts_sub s)) m _ _ Ha Hk Hm) as Hx. unfold effect_within in Hx.
  destruct (spec_mutation _ m (ts_abs s)) as [e|r], (spec_mutation _ m (ts_abs s')) as [e'|r']; cbn; try done; [|by subst].
  destruct Hx as (Hres & Hevs & Hag & Hkd & Hkept & Hsh). rewrite <- Hres. split_and!; [done| |done|done|done].
  split; cbn; [done|lia|by rewrite Hp, Hres|by rewrite Hev, Hevs].
Qed.

Lemma kept_trans A B C : kept A B → kept B C → kept A C.
Proof. intros H1 H2 k Hk. by rewrite H2, H1. Qed.

Definition op_agrees (op : TxnOp) : Prop := ∀ env env' s s',
  env_agree env env' → past_keyed env → state_agree s s' → keyed (ts_abs s) → op_within op →
  runs_agree shown s (spec_txn_op env s op) (spec_txn_op env' s' op).

Lemma txn_ops_within env env' l :
  Forall op_agrees l → env_agree env env' → past_keyed env → ∀ s s', state_agree s s' → keyed (ts_abs s) → ops_within l →
  runs_agree (λ rs, concat (shown <$> rs)) s (spec_txn_ops env s l) (spec_txn_ops env' s' l).
Proof.
  intros Hl He Hpk. induction Hl as [|op l Hop Hl IH]; intros s s' Hs Hk Hw.
  { cbn. split_and!; [done..|constructor]. }
  destruct Hw as [Hw1 Hw2]. cbn [spec_txn_ops]. specialize (Hop env env' s s' He Hpk Hs Hk Hw1). unfold runs_agree in Hop.
  destruct (spec_txn_op env s op) as [[r t]|e], (spec_txn_op env' s' op) as [[r' t']|e']; cbn; try done.
  destruct Hop as (-> & Ht & Hkt & Hkept & Hsh). specialize (IH t t' Ht Hkt Hw2). unfold runs_agree in IH.
  destruct (spec_txn_ops env t l) as [[rs u]|e], (spec_txn_ops env' t' l) as [[rs' u']|e']; cbn; try done.
  destruct IH as (-> & Hu & Hku & Hkept' & Hsh'). split_and!; [done|done|done|by eapply kept_trans|]. by apply Forall_app.
Qed.

Lemma txn_op_within op : op_agrees op.
Proof.
  induction op as [r|m|cs succ fail Hs Hf] using txn_op_ind'; intros env env' s s' He Hpk Hst Hk Hw.
  - cbn. destruct (txn_range_within env env' s s' r He Hpk Hst Hk Hw) as [<- Hsh].
    destruct (spec_txn_range env s r) as [res|e]; cbn; [|done]. split_and!; [done..|]. by apply Hsh.
  - by apply txn_mutation_within.
  - rewrite !spec_txn_op_nested. destruct Hw as (Hc & Hws & Hwf).
    rewrite <- (agree_compares _ _ cs (ea_start _ _ He) Hc). set (ok := spec_compares _ cs).
    pose proof (txn_ops_within env env' (if ok then succ else fail)) as Hx.
    specialize (Hx ltac:(by destruct ok) He Hpk s s' Hst Hk ltac:(by destruct ok)). unfold runs_agree in Hx.
    destruct (spec_txn_ops env s _) as [[rs u]|e], (spec_txn_ops env' s' _) as [[rs' u']|e']; cbn; try done.
    by destruct Hx as (-> & Hx).
Qed.
End within.

(** ** Requests *)

(** The accesses of a request cover what its translation touches. *)
Section requests.
Context (P : RequiredPerm → bytes → Prop).

Definition access_within (a : Access) : Prop := range_within (P (ac_perm a)) (ac_key a) (ac_range_end a).

Lemma single_within Q key : range_within Q key [] ↔ Q key.
Proof.
  unfold range_within, in_range. rewrite bool_decide_true by done. split; [intros Hr; apply Hr; by apply bool_decide_eq_true|].
  intros Hq k Hk%bool_decide_eq_true. by subst.
Qed.

Lemma res_map_elem {S A B} (f : A → result S B) l l' y :
  res_map f l = Ok l' → y ∈ l' → ∃ x, x ∈ l ∧ f x = Ok y.
Proof.
  revert l'. induction l as [|x l IH]; cbn; intros l'; [intros [= <-] Hy; by apply elem_of_nil in Hy|].
  intros (z & Hz & (zs & Hzs & Heq)%res_bind_ok)%res_bind_ok. injection Heq as <-.
  intros [->|Hy]%elem_of_cons; [exists x; split; [by left|done]|].
  destruct (IH zs Hzs Hy) as (x' & Hx' & Hf). exists x'. split; [by right|done].
Qed.

Lemma ops_within_Forall R W l : ops_within R W l ↔ Forall (op_within R W) l.
Proof. unfold ops_within. induction l as [|x l IH]; cbn; [by split; constructor|]. rewrite Forall_cons, IH. done. Qed.

Lemma conv_compares_within cs cs' :
  res_map compare_from_proto cs = Ok cs' → Forall access_within (compare_accesses cs) →
  Forall (compare_within (P PermToRead)) cs'.
Proof.
  intros Hm Ha. rewrite Forall_forall. intros c Hc. destruct (res_map_elem _ _ _ _ Hm Hc) as (pc & Hin & Hpc).
  unfold compare_accesses in Ha. rewrite Forall_fmap, Forall_forall in Ha. specialize (Ha pc Hin).
  unfold compare_from_proto in Hpc. apply res_bind_ok in Hpc as (op & _ & Hpc). destruct (_ || _); [done|].
  apply res_bind_ok in Hpc as (u & _ & (t & _ & Hpc)%res_bind_ok). injection Hpc as <-. exact Ha.
Qed.

Lemma Forall_flat_map {A B} (Q : B → Prop) (f : A → list B) l : Forall Q (flat_map f l) ↔ Forall (λ x, Forall Q (f x)) l.
Proof. induction l as [|x l IH]; cbn; [by split; constructor|]. rewrite Forall_app, Forall_cons, IH. done. Qed.

Lemma conv_op_within op : ∀ op', request_op_from_proto op = Ok op' → Forall access_within (op_accesses op) →
  op_within (P PermToRead) (P PermToWrite) op'.
Proof.
  induction op as [|r|p|d|c s f Hs Hf] using RequestOp_rect'; cbn; intros op' Hop Ha; [done|..].
  - injection Hop as <-. by apply Forall_cons in Ha as [Ha _].
  - injection Hop as <-. apply Forall_cons in Ha as [Hw Hr]. cbn. split; [by apply single_within|].
    intros Hp. rewrite Hp in Hr. apply Forall_cons in Hr as [Hr _]. by apply single_within.
  - injection Hop as <-. apply Forall_cons in Ha as [Hw Hr]. cbn. split; [done|]. intros Hp. rewrite Hp in Hr.
    by apply Forall_cons in Hr as [Hr _].
  - apply res_bind_ok in Hop as (cs & Hcs & (ss & Hss & (fs & Hfs & Hop)%res_bind_ok)%res_bind_ok). injection Hop as <-.
    rewrite !Forall_app, !Forall_flat_map in Ha. destruct Ha as (Hac & Has & Haf). cbn. split_and!.
    + by eapply conv_compares_within.
    + apply ops_within_Forall, Forall_forall. intros x Hx. destruct (res_map_elem _ _ _ _ Hss Hx) as (y & Hy & Hyx).
      rewrite Forall_forall in Hs, Has. by apply (Hs y Hy x Hyx), Has.
    + apply ops_within_Forall, Forall_forall. intros x Hx. destruct (res_map_elem _ _ _ _ Hfs Hx) as (y & Hy & Hyx).
      rewrite Forall_forall in Hf, Haf. by apply (Hf y Hy x Hyx), Haf.
Qed.

Lemma conv_ops_within l l' :
  res_map request_op_from_proto l = Ok l' → Forall access_within (flat_map op_accesses l) →
  ops_within (P PermToRead) (P PermToWrite) l'.
Proof.
  rewrite Forall_flat_map, ops_within_Forall, !Forall_forall. intros Hm Ha x Hx.
  destruct (res_map_elem _ _ _ _ Hm Hx) as (y & Hy & Hyx). apply (conv_op_within y x Hyx). by apply Ha.
Qed.

Lemma parts_within req cs s f :
  txn_request_parts req = Ok (cs, s, f) → Forall access_within (txn_accesses req) →
  Forall (compare_within (P PermToRead)) cs ∧
  ops_within (P PermToRead) (P PermToWrite) s ∧ ops_within (P PermToRead) (P PermToWrite) f.
Proof.
  unfold txn_request_parts, txn_accesses. rewrite !Forall_app.
  intros (cs' & Hcs & (s' & Hs & (f' & Hf & Hop)%res_bind_ok)%res_bind_ok)%res_bind_ok (Hac & Has & Haf).
  injection Hop as <- <- <-. split_and!; [by eapply conv_compares_within|by eapply conv_ops_within..].
Qed.
End requests.

(** ** The store *)

Section confined.
Context {E : Type} `{KvStoreLaws E} `{BincodeLaws KvRecord, BincodeLaws KeyIndex, BincodeLaws LeaseRecord}.
Context `{Bincode StoredUser, Bincode StoredRole}.
Variable self : Server E.

(** The user of the request may touch the key, as the store stands. *)
Definition user_may (st : Inner E) (user : option bytes) (required : RequiredPerm) (k : bytes) : Prop :=
  ∃ name, user = Some name ∧ may (contents (engine st)) name required k.

(** A store a transaction runs on, and the keys it holds. *)
Record txn_ready (st : Inner E) (A : Abs) (success failure : list TxnOp) : Prop := {
  rd_inv : store_inv st;
  rd_abs : abs_rel A (idx_gens (index st)) (contents (engine st));
  rd_room : current_rev (write_state st) < i64_max;
  rd_success : ops_ok success ∧ Z.of_nat (ops_size success) ≤ i64_max;
  rd_failure : ops_ok failure ∧ Z.of_nat (ops_size failure) ≤ i64_max
}.

(** Another store that may differ only in keys the user may not touch. *)
Record indistinct (st st' : Inner E) (A A' : Abs) (R W : bytes → Prop) : Prop := {
  in_keys : agree R W A A';
  in_current : current_rev (write_state st) = current_rev (write_state st');
  in_compact : compact_rev (write_state st) = compact_rev (write_state st');
  in_past t key range_end : range_within R key range_end → store_view st t key range_end = store_view st' t key range_end
}.

Lemma attached_run id (st : Inner E) : ∃ x, lease_attached_keys id st = (x, st).
Proof. eexists. reflexivity. Qed.

Lemma leases_keys_run l (st : Inner E) keys st' :
  leases_keys l st = (Ok keys, st') →
  st' = st ∧ ∀ id ks k, id ∈ l → (lease_attached_keys id st).1 = Ok ks → k ∈ ks → k ∈ keys.
Proof.
  revert keys st'. induction l as [|id l IH]; intros keys st' Hrun; cbn in Hrun.
  { injection Hrun as <- <-. split; [done|]. intros id ks k Hid. by apply elem_of_nil in Hid. }
  apply pbind_ok in Hrun as (ks & s1 & Hat & Hrun). unfold or_status in Hat.
  destruct (attached_run id st) as [x Hx]. rewrite Hx in Hat. destruct x as [x|]; [|done]. injection Hat as -> <-.
  apply pbind_ok in Hrun as (rest & s2 & Hre & Hrun). apply IH in Hre as [-> Hin]. injection Hrun as <- <-.
  split; [done|]. intros id' ks' k [->|Hid]%elem_of_cons Hks Hk; apply elem_of_app.
  - left. rewrite Hx in Hks. cbn in Hks. by injection Hks as ->.
  - right. by eapply Hin.
Qed.

Lemma admit_ok user req (st : Inner E) parts st1 :
  txn_admit self user req st = (Ok parts, st1) →
  am_enabled (auth st) = true →
  txn_request_parts req = Ok parts ∧ ∃ keys,
    authorize_all (contents (engine st)) (auth st) user (txn_accesses req ++ write_accesses keys) = Ok () ∧
    ∀ id ks k, id ∈ txn_put_leases req → (lease_attached_keys id st).1 = Ok ks → k ∈ ks → k ∈ keys.
Proof.
  intros Hrun Hen. unfold txn_admit in Hrun. apply pbind_ok in Hrun as (keys & s1 & Hk & Hrun).
  unfold lease_put_keys in Hk. rewrite (pbind_run pget _ st st st) in Hk by done. rewrite Hen in Hk. cbn [negb] in Hk.
  apply leases_keys_run in Hk as [-> Hin].
  apply pbind_ok in Hrun as ([] & s2 & Ha & Hrun). unfold authorized in Ha. rewrite (pbind_run pget _ st st st) in Ha by done.
  unfold plift in Ha. destruct (authorize_all _ _ _ _) as [[]|] eqn:Hauth; [|done]. injection Ha as <-.
  apply pbind_ok in Hrun as ([] & s3 & _ & Hrun). apply pbind_ok in Hrun as (ps & s4 & Hps & Hrun).
  apply pbind_ok in Hrun as ([] & s5 & _ & Hrun). injection Hrun as <- <-. unfold plift in Hps. injection Hps as Hps _.
  split; [done|]. exists keys. split; [done|]. intros id ks k Hid. apply Hin.
  rewrite elem_of_remove_dups, merge_sort_Permutation. done.
Qed.

(** Admitting a transaction changes nothing. *)
Lemma admit_state user req (st : Inner E) parts st1 :
  txn_admit self user req st = (Ok parts, st1) → st1 = st.
Proof.
  intros Hrun. unfold txn_admit in Hrun. apply pbind_ok in Hrun as (keys & s1 & Hk & Hrun).
  assert (s1 = st) as ->.
  { unfold lease_put_keys in Hk. rewrite (pbind_run pget _ st st st) in Hk by done. destruct (negb _); [by injection Hk|].
    by apply leases_keys_run in Hk as [? _]. }
  apply pbind_ok in Hrun as ([] & s2 & Ha & Hrun). unfold authorized in Ha. rewrite (pbind_run pget _ st st st) in Ha by done.
  unfold plift in Ha. injection Ha as _ <-.
  apply pbind_ok in Hrun as ([] & s3 & Hc & Hrun).
  assert (s3 = st) as ->.
  { unfold check_write in Hc. by destruct (txn_consumes_space req), (nospace self); injection Hc. }
  apply pbind_ok in Hrun as (ps & s4 & Hps & Hrun). unfold plift in Hps. injection Hps as _ <-.
  apply pbind_ok in Hrun as ([] & s5 & Hn & Hrun).
  assert (s5 = st) as -> by (unfold plift in Hn; by destruct (txn_nests req), (require_nested_txn self) as [[]|]; injection Hn).
  by injection Hrun.
Qed.

Lemma admitted_accesses user accesses (st : Inner E) :
  authorize_all (contents (engine st)) (auth st) user accesses = Ok () → am_enabled (auth st) = true →
  Forall (access_within (user_may st user)) accesses.
Proof.
  intros Hok Hen. rewrite Forall_forall. intros a Ha k Hk.
  destruct (authorize_sound _ _ _ _ a k Hok Hen Ha Hk) as (name & Hu & Hm). by exists name.
Qed.

Lemma store_keyed (st : Inner E) A :
  store_inv st → abs_rel A (idx_gens (index st)) (contents (engine st)) → keyed A.
Proof.
  intros Hst HA k rec Hl. rewrite (abs_live A _ _ _ k (si_core _ Hst) HA) in Hl.
  destruct (live_rec_inv _ _ _ _ _ (si_core _ Hst) Hl) as (? & ? & _ & _ & _ & _ & Hok). apply Hok.
Qed.

Lemma store_past_keyed (st : Inner E) A : store_inv st → past_keyed (store_env st A).
Proof.
  intros Hst t key range_end k rec Hin. split; [by apply (store_view_spec st t key range_end) in Hin as [? _]|].
  exact (store_view_keys st t key range_end k rec Hst Hin).
Qed.

(** The abstract transactions of two stores, side by side. *)
Lemma spec_txn_within (st st' : Inner E) A A' R W cs succ fail :
  store_inv st → abs_rel A (idx_gens (index st)) (contents (engine st)) → indistinct st st' A A' R W →
  Forall (compare_within R) cs → ops_within R W succ → ops_within R W fail →
  match spec_txn (store_env st A) A cs succ fail, spec_txn (store_env st' A') A' cs succ fail with
  | Ok (ok, rs, s), Ok (ok', rs', s') =>
      ok = ok' ∧ rs = rs' ∧ ts_produced s = ts_produced s' ∧ kept W A (ts_abs s) ∧
      Forall (λ rec, R (rec_key rec)) (concat (shown <$> rs))
  | Err e, Err e' => e = e'
  | _, _ => False
  end.
Proof.
  intros Hst HA [Hk Hcur Hcmp Hpast] Hc Hs Hf. unfold spec_txn. rewrite <- (agree_compares R W A A' cs Hk Hc).
  set (ok := spec_compares A cs).
  pose proof (txn_ops_within R W (store_env st A) (store_env st' A') (if ok then succ else fail)) as Hx.
  specialize (Hx ltac:(apply Forall_forall; intros; apply txn_op_within)).
  specialize (Hx ltac:(by split) (store_past_keyed st A Hst) (mkTxnState A 0 false []) (mkTxnState A' 0 false [])).
  specialize (Hx ltac:(by split) (store_keyed st A Hst HA) ltac:(by destruct ok)). unfold runs_agree in Hx.
  destruct (spec_txn_ops (store_env st A) _ _) as [[rs s]|e], (spec_txn_ops (store_env st' A') _ _) as [[rs' s']|e']; cbn; try done.
  destruct Hx as (-> & Hsa & _ & Hkept & Hsh). split_and!; [done|done|apply Hsa|done|done].
Qed.

(** C15.  An admitted transaction is confined.  With authentication on, and
    whatever store the entry is applied to later: keys the user may not write
    are as they were; every record in the answer, of ranges and of previous
    values, nested transactions included, has a key the user may read; on a
    store that differs only in keys the user may neither read nor write the
    answer is the same; and every key attached to a lease its puts name is one
    the user may write. *)
Theorem txn_confined user req (st st1 st2 st3 : Inner E) A cs succ fail out :
  am_enabled (auth st) = true →
  txn_admit self user req st = (Ok (cs, succ, fail), st1) →
  txn_ready st2 A succ fail → txn cs succ fail st2 = (Ok out, st3) →
  let reads := user_may st user PermToRead in
  let writes := user_may st user PermToWrite in
  (∃ A3, abs_rel A3 (idx_gens (index st3)) (contents (engine st3)) ∧ ∀ k, ¬ writes k → A3 !! k = A !! k) ∧
  Forall (λ rec, reads (rec_key rec)) (concat (shown <$> tr_op_results out)) ∧
  (∀ st2' A' r' st3', txn_ready st2' A' succ fail → indistinct st2 st2' A A' reads writes →
     txn cs succ fail st2' = (r', st3') → r' = Ok out ∨ ∃ e, r' = Err (Storage e)) ∧
  (∀ id ks k, id ∈ txn_put_leases req → (lease_attached_keys id st).1 = Ok ks → k ∈ ks → writes k).
Proof.
  intros Hen Hadm [Hst2 HA Hroom [Hok1 Hsz1] [Hok2 Hsz2]] Hrun reads writes.
  destruct (admit_ok _ _ _ _ _ Hadm Hen) as (Hparts & keys & Hauth & Hkeys).
  pose proof (admitted_accesses _ _ _ Hauth Hen) as [Hacc Hwr]%Forall_app.
  destruct (parts_within _ _ _ _ _ Hparts Hacc) as (Hc & Hs & Hf). fold reads writes in Hc, Hs, Hf.
  pose proof (txn_ok st2 A cs succ fail Hst2 HA Hroom Hok1 Hok2 Hsz1 Hsz2) as Hok. rewrite Hrun in Hok.
  pose proof (spec_txn_within st2 st2 A A reads writes cs succ fail Hst2 HA ltac:(by split) Hc Hs Hf) as Hself.
  destruct (spec_txn (store_env st2 A) A cs succ fail) as [[[ok rs] s]|x] eqn:Hspec; [|by destruct Hok].
  destruct Hself as (_ & _ & _ & Hkept & Hsh). split_and!.
  - destruct (ts_produced s) eqn:Hp; [destruct Hok as (_ & Hadv & _); exists (ts_abs s); split; [apply Hadv|done]|].
    destruct Hok as [_ (v & o & -> & _)]. exists A. split; [done|done].
  - replace (tr_op_results out) with rs; [done|].
    destruct (ts_produced s); [destruct Hok as (-> & _)|destruct Hok as [Ho _]; injection Ho as ->]; done.
  - intros st2' A' r' st3' [Hst2' HA' Hroom' _ _] Hind Hrun'.
    pose proof (txn_ok st2' A' cs succ fail Hst2' HA' Hroom' Hok1 Hok2 Hsz1 Hsz2) as Hok'. rewrite Hrun' in Hok'.
    pose proof (spec_txn_within st2 st2' A A' reads writes cs succ fail Hst2 HA Hind Hc Hs Hf) as Hx. rewrite Hspec in Hx.
    destruct (spec_txn (store_env st2' A') A' cs succ fail) as [[[ok' rs'] s']|]; [|done].
    destruct Hx as (<- & <- & Hpr & _). rewrite <- Hpr in Hok'. rewrite <- (in_current _ _ _ _ _ _ Hind) in Hok'.
    destruct (ts_produced s).
    + destruct Hok as [-> _]. destruct r' as [out'|x]; [left; by destruct Hok' as [-> _]|right].
      destruct Hok' as (y & -> & _). by eexists.
    + destruct Hok as [Ho _]. destruct Hok' as [-> _]. left. congruence.
  - intros id ks k Hid Hks Hk. unfold write_accesses in Hwr. rewrite Forall_fmap, Forall_forall in Hwr.
    specialize (Hwr k (Hkeys id ks k Hid Hks Hk)). exact (proj1 (single_within writes k) Hwr).
Qed.
End confined.

(** ** Witnesses *)

(** A store where [u] has read and write on [a] up to [c]. *)
Module GuardedDemo.
Import Demo.

Definition demo_auth_ops : list AuthOp :=
  [UserAdd (str "root") [] true; RoleAdd (str "root"); UserGrantRole (str "root") (str "root");
   UserAdd (str "u") [] true; RoleAdd (str "r");
   RoleGrantPermission (str "r") (mkPerm PermReadWrite (str "a") (str "c"));
   UserGrantRole (str "u") (str "r"); Enable].

Definition demo_guarded : Inner MemEngine := foldl (λ st op, (apply_auth 0 op st).2) (demo_store []) demo_auth_ops.

Definition demo_txn : TxnRequest :=
  mkTxnRequest [mkPbCompare 0 0 (str "a") (Some (TuVersion 0)) []]
    [RequestRange (mkRangeRequest (str "a") (str "c") 0 0 0 0 false false false 0 0 0 0);
     RequestPut (mkPutRequest (str "b") (str "7") 0 true false false)] [].

Definition demo_parts : list Compare * list TxnOp * list TxnOp :=
  ([mkCompare (str "a") [] CmpEqual (TgVersion 0)],
   [OpRange (mkRangeOp (str "a") (str "c") 0 0 false false); OpMutation (Put (str "b") (str "7") 0 false false true)], []).

(** A cluster of one member: it leads, has nothing to catch up with, and
    what is proposed is applied. *)
Definition demo_server : Server MemEngine := {|
  serialized_size := λ _, 10;
  max_request_bytes := Some 100;
  is_leader := true;
  read_barrier := pret ();
  client_write := λ e st, match apply_data 0 e 9 st with
                          | (Ok r, st) => (Ok r, st)
                          | (Err _, st) => (Err (ProposeFailed "apply"), st)
                          end;
  forward := λ _ _, pfail "no other member"%string;
  forward_read := λ _ _, pfail "no other member"%string;
  nospace := false;
  require_nested_txn := Ok ()
|}.

Lemma demo_admitted : (txn_admit demo_server (Some (str "u")) demo_txn demo_guarded).1 = Ok demo_parts.
Proof. vm_compute. reflexivity. Qed.

(** Without the role, or without a name, it is refused. *)
Lemma demo_denied :
  (txn_admit demo_server (Some (str "v")) demo_txn demo_guarded).1 = Err permission_denied ∧
  (txn_admit demo_server None demo_txn demo_guarded).1 = Err user_empty.
Proof. split; vm_compute; reflexivity. Qed.

Lemma demo_ready : txn_ready demo_store1 demo_abs1 demo_parts.1.2 demo_parts.2.
Proof. split; [apply demo_inv1|apply demo_inv1|vm_compute; reflexivity|vm_compute; repeat split; discriminate|vm_compute; repeat split; discriminate]. Qed.
End GuardedDemo.

Section witnesses.
Import Demo GuardedDemo.

Lemma txn_confined_witness :
  ∃ out, (txn demo_parts.1.1 demo_parts.1.2 demo_parts.2 demo_store1).1 = Ok out ∧
    Forall (λ rec, user_may demo_guarded (Some (str "u")) PermToRead (rec_key rec)) (concat (shown <$> tr_op_results out)) ∧
    length (concat (shown <$> tr_op_results out)) = 2%nat.
Proof.
  pose proof demo_admitted as Hadm.
  destruct (txn_admit demo_server (Some (str "u")) demo_txn demo_guarded) as [a st1] eqn:Ha. cbn [fst] in Hadm. subst a.
  assert (∃ out, (txn demo_parts.1.1 demo_parts.1.2 demo_parts.2 demo_store1).1 = Ok out ∧
            length (concat (shown <$> tr_op_results out)) = 2%nat) as (out & Hr & Hlen)
    by (eexists; split; vm_compute; reflexivity).
  destruct (txn demo_parts.1.1 demo_parts.1.2 demo_parts.2 demo_store1) as [r st3] eqn:Hrun. cbn [fst] in Hr. subst r.
  exists out. split; [reflexivity|]. split; [|exact Hlen].
  exact (proj1 (proj2 (txn_confined demo_server (Some (str "u")) demo_txn demo_guarded st1 demo_store1 st3 demo_abs1
    demo_parts.1.1 demo_parts.1.2 demo_parts.2 out ltac:(vm_compute; reflexivity) Ha demo_ready Hrun))).
Defined.
End witnesses.
