(* ===== verification/KvAnswer.v ===== *)
(** * What the KV service answers

    A request-level specification of a transaction, on the abstract store and
    in the messages of the protocol: what each operation answers, ranges
    sorted and filtered, previous values, nested transactions.  The service's
    translation of the request, the store's transaction and the translation
    of its result together implement it: no answer is ever lost or taken for
    another kind. *)

From S2P Require Import Prelude Revision Record KvStore Lease Cache Auth Store StoreCore StoreSpec StoreInv.
From S2P Require Import StoreApply StoreCommit StoreOpen StoreDemo StoreWrite StoreRead StoreTxn.
From S2P Require Import SnapshotPolicy StateMachine RangeOptions Conv Authz Precheck KvService KvAuth.

(** ** The specification *)

Section spec.
Context (env : TxnEnv) (header : Z).

Definition spec_request_range (s : TxnState) (r : RangeRequest) : MvccResult RangeResponse :=
  let now := if ts_produced s then te_current env + 1 else te_current env in
  let t := rq_revision r in
  if (0 <? t) && (now <? t) then Err (FutureRevision t now)
  else if (0 <? t) && (t <? te_compact env) then Err (Compacted t (te_compact env))
  else
    let view := if (t =? 0) || (t =? now) then a_range (ts_abs s) (rq_key r) (rq_range_end r)
                else te_past env t (rq_key r) (rq_range_end r) in
    let res := spec_options r view in
    Ok (mkRangeResponse header (record_to_kv <$> rr_kvs res) (rr_more res) (rr_count res)).

(** The state after a mutation. *)
Definition after (s : TxnState) (e : Effect) : TxnState :=
  mkTxnState (ef_abs e) (ts_sub s + 1) (ts_produced s || (0 <? mr_n (ef_result e))) (ts_events s ++ ef_events e).

Definition spec_request_put (s : TxnState) (p : PutRequest) : MvccResult (PutResponse * TxnState) :=
  match spec_put (mkRev (te_current env + 1) (ts_sub s)) (pr_key p) (pr_value p) (pr_lease p) (pr_ignore_value p)
          (pr_ignore_lease p) (pr_prev_kv p) (ts_abs s) with
  | Err refusal => Err (Refused refusal)
  | Ok e => Ok (mkPutResponse header (if pr_prev_kv p then record_to_kv <$> a_live (ts_abs s) (pr_key p) else None), after s e)
  end.

Definition spec_request_delete (s : TxnState) (d : DeleteRangeRequest) : DeleteRangeResponse * TxnState :=
  let victims := a_range (ts_abs s) (dr_key d) (dr_range_end d) in
  (mkDeleteResponse header (Z.of_nat (length victims)) (if dr_prev_kv d then record_to_kv <$> victims.*2 else []),
   after s (spec_delete (mkRev (te_current env + 1) (ts_sub s)) (dr_key d) (dr_range_end d) (dr_prev_kv d) (ts_abs s))).

Definition spec_pb_compare (A : Abs) (c : PbCompare) : bool :=
  match compare_from_proto c with Ok c => spec_compare A c | Err _ => false end.

Fixpoint spec_request_op (s : TxnState) (op : RequestOp) : MvccResult (ResponseOp * TxnState) :=
  match op with
  | RequestNone => Err (Internal "no request")
  | RequestRange r => let? p := spec_request_range s r in Ok (ResponseRange p, s)
  | RequestPut p => let? (p, s) := spec_request_put s p in Ok (ResponsePut p, s)
  | RequestDeleteRange d => let '(p, s) := spec_request_delete s d in Ok (ResponseDeleteRange p, s)
  | RequestTxn compare success failure =>
      let ok := forallb (spec_pb_compare (te_start env)) compare in
      let? (ps, s) :=
        (fix go (s : TxnState) (l : list RequestOp) : MvccResult (list ResponseOp * TxnState) :=
           match l with
           | [] => Ok ([], s)
           | op :: l' =>
               let? (p, s) := spec_request_op s op in
               let? (ps, s) := go s l' in
               Ok (p :: ps, s)
           end) s (if ok then success else failure) in
      Ok (ResponseTxn header ok ps, s)
  end.

Fixpoint spec_request_ops (s : TxnState) (l : list RequestOp) : MvccResult (list ResponseOp * TxnState) :=
  match l with
  | [] => Ok ([], s)
  | op :: l' =>
      let? (p, s) := spec_request_op s op in
      let? (ps, s) := spec_request_ops s l' in
      Ok (p :: ps, s)
  end.

Definition spec_request (req : TxnRequest) : MvccResult (bool * list ResponseOp * TxnState) :=
  let ok := forallb (spec_pb_compare (te_start env)) (tq_compare req) in
  let? (ps, s) := spec_request_ops (mkTxnState (te_start env) 0 false []) (if ok then tq_success req else tq_failure req) in
  Ok (ok, ps, s).

Lemma spec_request_op_nested s c succ fail :
  spec_request_op s (RequestTxn c succ fail) =
  (let? (ps, s) := spec_request_ops s (if forallb (spec_pb_compare (te_start env)) c then succ else fail) in
   Ok (ResponseTxn header (forallb (spec_pb_compare (te_start env)) c) ps, s)).
Proof.
  cbn [spec_request_op]. set (go := fix go (s : TxnState) (l : list RequestOp) := _).
  assert (∀ l s, go s l = spec_request_ops s l) as ->; [|done].
  induction l as [|op l IH]; intros s'; [done|]. cbn.
  destruct (spec_request_op s' op) as [[p s1]|e]; [|done]. cbn. by rewrite IH.
Qed.

(** ** It is implemented *)

Hypothesis past_sorted : ∀ t key range_end, key_sorted (te_past env t key range_end).
Hypothesis past_keys : past_keyed env.

(** What the store answers, translated, is what the request asks for. *)
Definition answered (op : RequestOp) : Prop := ∀ op' s,
  request_op_from_proto op = Ok op' → keyed (ts_abs s) →
  match spec_txn_op env s op' with
  | Ok (r, t) => keyed (ts_abs t) ∧ ∃ p, op_response header op r = Ok p ∧ spec_request_op s op = Ok (p, t)
  | Err e => spec_request_op s op = Err e
  end.

Lemma mutation_keyed rev m A e : keyed A → spec_mutation rev m A = Ok e → keyed (ef_abs e).
Proof.
  intros Hk He. pose proof (mutation_within_ok (λ _, True) (λ _, True) rev m A A ltac:(done) Hk) as Hx.
  unfold effect_within in Hx. rewrite He in Hx. apply Hx. destruct m; by repeat split.
Qed.

Lemma range_answered r : answered (RequestRange r).
Proof.
  intros op' s [= <-] Hk. cbn [spec_txn_op spec_request_op]. unfold spec_txn_range, spec_request_range.
  cbn [range_request_to_op ro_revision ro_key ro_range_end ro_limit ro_keys_only ro_count_only].
  destruct (_ && _); [done|]. destruct (_ && _); [done|]. cbn [res_bind]. split; [done|]. eexists. split; [reflexivity|].
  cbn [res_bind]. do 3 f_equal. unfold range_result_to_response. rewrite apply_options_spec.
  - destruct (rq_count_only r) eqn:Hco; [|done]. unfold spec_options. by rewrite Hco.
  - destruct (_ || _); [apply a_range_sorted|apply past_sorted].
  - intros k rec. destruct (_ || _); [intros [_ Hl]%a_range_elem; by apply Hk|]. by intros [_ ?]%past_keys.
Qed.

Lemma put_answered p : answered (RequestPut p).
Proof.
  intros op' s [= <-] Hk. cbn [spec_txn_op spec_request_op]. unfold spec_txn_mutation, spec_request_put.
  cbn [put_request_to_mutation spec_mutation].
  destruct (spec_put _ _ _ _ _ _ _ _) as [e|x] eqn:He; [|done]. cbn [res_bind].
  split; [exact (mutation_keyed _ (put_request_to_mutation p) _ e Hk He)|]. eexists. split; [reflexivity|]. do 3 f_equal. unfold put_response.
  f_equal. unfold spec_put in He. destruct (_ && _); [done|]. injection He as <-. cbn. destruct (pr_prev_kv p); [|done].
  by destruct (a_live _ _).
Qed.

Lemma delete_answered d : answered (RequestDeleteRange d).
Proof.
  intros op' s [= <-] Hk. cbn [spec_txn_op spec_request_op]. unfold spec_txn_mutation, spec_request_delete.
  cbn [delete_request_to_mutation spec_mutation].
  split; [exact (mutation_keyed _ (delete_request_to_mutation d) _ _ Hk eq_refl)|]. eexists. split; [reflexivity|]. do 3 f_equal. unfold delete_response. cbn. f_equal.
  by destruct (dr_prev_kv d).
Qed.

Lemma compares_answered A cs cs' :
  res_map compare_from_proto cs = Ok cs' → forallb (spec_pb_compare A) cs = spec_compares A cs'.
Proof.
  revert cs'. induction cs as [|c cs IH]; cbn; intros cs'; [by intros [= <-]|].
  intros (c' & Hc & (l & Hl & Heq)%res_bind_ok)%res_bind_ok. injection Heq as <-. cbn. unfold spec_pb_compare at 1.
  by rewrite Hc, (IH l Hl).
Qed.

Lemma ops_answered l : Forall answered l → ∀ l' s,
  res_map request_op_from_proto l = Ok l' → keyed (ts_abs s) →
  match spec_txn_ops env s l' with
  | Ok (rs, t) => keyed (ts_abs t) ∧ length l = length rs ∧
      ∃ ps, pair_map (op_response header) l rs = Ok ps ∧ spec_request_ops s l = Ok (ps, t)
  | Err e => spec_request_ops s l = Err e
  end.
Proof.
  induction 1 as [|op l Hop Hl IH]; intros l' s Hm Hk; cbn in Hm.
  { injection Hm as <-. cbn. split_and!; [done|done|]. by eexists. }
  apply res_bind_ok in Hm as (op' & Hop' & (ops & Hops & Heq)%res_bind_ok). injection Heq as <-.
  cbn [spec_txn_ops spec_request_ops]. specialize (Hop op' s Hop' Hk).
  destruct (spec_txn_op env s op') as [[r t]|e]; cbn [res_bind]; [|by rewrite Hop].
  destruct Hop as (Hkt & p & Hp & ->). cbn [res_bind]. specialize (IH ops t Hops Hkt).
  destruct (spec_txn_ops env t ops) as [[rs u]|e]; cbn [res_bind]; [|by rewrite IH].
  destruct IH as (Hku & Hlen & ps & Hps & ->). cbn [res_bind]. split_and!; [done|cbn; by rewrite Hlen|].
  exists (p :: ps). split; [|done]. cbn. rewrite Hp. cbn. by rewrite Hps.
Qed.

Lemma op_answered op : answered op.
Proof.
  induction op as [|r|p|d|c succ fail Hs Hf] using RequestOp_rect'; [by intros ? ?|apply range_answered|apply put_answered
    |apply delete_answered|]. intros op' s Hop Hk. cbn in Hop.
  apply res_bind_ok in Hop as (cs & Hcs & (ss & Hss & (fs & Hfs & Heq)%res_bind_ok)%res_bind_ok). injection Heq as <-.
  rewrite spec_txn_op_nested, spec_request_op_nested, (compares_answered _ _ _ Hcs). set (ok := spec_compares _ cs).
  pose proof (ops_answered (if ok then succ else fail) ltac:(by destruct ok) (if ok then ss else fs) s
    ltac:(by destruct ok) Hk) as Hx.
  destruct (spec_txn_ops env s _) as [[rs t]|e]; cbn [res_bind]; [|by rewrite Hx].
  destruct Hx as (Hkt & Hlen & ps & Hps & ->). cbn [res_bind]. split; [done|]. exists (ResponseTxn header ok ps).
  split; [|done]. cbn. rewrite Hlen, Nat.eqb_refl. cbn. by rewrite Hps.
Qed.
End spec.

(** ** The service *)

Section service.
Context {E : Type} `{KvStoreLaws E} `{BincodeLaws KvRecord, BincodeLaws KeyIndex, BincodeLaws LeaseRecord}.
Context `{Bincode StoredUser, Bincode StoredRole}.
Variable self : Server E.

Lemma spec_txn_start (st : Inner E) A cs succ fail :
  spec_txn (store_env st A) A cs succ fail
  = (let? (rs, s) := spec_txn_ops (store_env st A) (mkTxnState A 0 false []) (if spec_compares A cs then succ else fail) in
     Ok (spec_compares A cs, rs, s)).
Proof. done. Qed.

(** The translated result of a transaction. *)
Lemma txn_translated (st st' : Inner E) A req cs succ fail out :
  txn_request_parts req = Ok (cs, succ, fail) → txn_ready st A succ fail → txn cs succ fail st = (Ok out, st') →
  ∃ ps s, spec_request (store_env st A) (tr_revision out) req = Ok (tr_succeeded out, ps, s) ∧
    txn_result_to_response req out = Ok (mkTxnResponse (tr_revision out) (tr_succeeded out) ps) ∧
    tr_revision out = current_rev (write_state st) + (if ts_produced s then 1 else 0).
Proof.
  intros Hparts [Hst HA Hroom [Hok1 Hsz1] [Hok2 Hsz2]] Hrun.
  pose proof (txn_ok st A cs succ fail Hst HA Hroom Hok1 Hok2 Hsz1 Hsz2) as Hok. rewrite Hrun, spec_txn_start in Hok.
  unfold txn_request_parts in Hparts.
  apply res_bind_ok in Hparts as (cs' & Hcs & (ss & Hss & (fs & Hfs & Heq)%res_bind_ok)%res_bind_ok). injection Heq as -> -> ->.
  pose proof (compares_answered A _ _ Hcs) as Hcmp. set (ok := spec_compares A cs) in *.
  pose proof (ops_answered (store_env st A) (tr_revision out) (if ok then tq_success req else tq_failure req)
    ltac:(apply Forall_forall; intros; apply op_answered;
      [intros; apply store_view_spec|by apply store_past_keyed])
    (if ok then succ else fail) (mkTxnState A 0 false []) ltac:(by destruct ok) (store_keyed st A Hst HA)) as Hx.
  destruct (spec_txn_ops _ _ _) as [[rs s]|x]; cbn [res_bind] in Hok; [|by destruct Hok].
  destruct Hx as (_ & Hlen & ps & Hps & Hspec). exists ps, s.
  assert (out = mkTxnResult ok (current_rev (write_state st) + (if ts_produced s then 1 else 0)) rs) as ->.
  { destruct (ts_produced s); destruct Hok as [Ho _]; [done|]. rewrite Z.add_0_r. by injection Ho. }
  cbn [tr_revision tr_succeeded tr_op_results] in *. split_and!; [| |done].
  - unfold spec_request. change (te_start (store_env st A)) with A. rewrite Hcmp. fold ok. by rewrite Hspec.
  - unfold txn_result_to_response, txn_responses. cbn [tr_revision tr_succeeded tr_op_results].
    rewrite Hlen, Nat.eqb_refl. cbn [negb]. by rewrite Hps.
Qed.

(** A lone mutation that was applied had the specified effect. *)
Lemma applied_alone (st st' : Inner E) A m rev rs :
  store_inv st → abs_rel A (idx_gens (index st)) (contents (engine st)) → mutation_wf m →
  current_rev (write_state st) < i64_max → apply [m] st = (Ok (rev, rs), st') →
  rev = current_rev (write_state st) + 1 ∧
  ∃ e, spec_mutation (mkRev rev 0) m A = Ok e ∧ rs = [ef_result e] ∧
    if 0 <? mr_n (ef_result e) then advanced st st' rev (ef_abs e) else same_store st st'.
Proof.
  intros Hst HA Hm Hmax Hrun.
  pose proof (apply_ok st A [m] Hst HA ltac:(done) ltac:(by repeat constructor) Hmax ltac:(done)) as Hok.
  rewrite Hrun in Hok. cbv zeta in Hok. cbn [spec_mutations] in Hok.
  destruct (spec_mutation _ m A) as [e|r] eqn:He; cbn [res_bind] in Hok; [|by destruct Hok]. cbn [any_produced existsb] in Hok.
  rewrite orb_false_r in Hok. destruct (0 <? mr_n (ef_result e)) eqn:Hn; destruct Hok as [Ho Hok];
    injection Ho as -> ->; (split; [done|]; exists e; rewrite Hn; split_and!; [done|done|]); apply Hok.
Qed.

(** A put that was admitted and applied answers the revision the store gave
    it and, where asked for, the record it replaced. *)
Lemma kv_put_exact user req (st st1 st2 st3 st4 : Inner E) A rev rs :
  let m := put_request_to_mutation req in
  put_admit self user req st = (Ok (), st1) → propose self (EntApply [m]) st1 = (Ok (RspApply rev rs), st4) →
  store_inv st2 → abs_rel A (idx_gens (index st2)) (contents (engine st2)) → mutation_wf m →
  current_rev (write_state st2) < i64_max → apply [m] st2 = (Ok (rev, rs), st3) →
  ∃ e, spec_mutation (mkRev rev 0) m A = Ok e ∧ advanced st2 st3 rev (ef_abs e) ∧
    kv_put self user req st
    = (Ok (mkPutResponse rev (if pr_prev_kv req then record_to_kv <$> a_live A (pr_key req) else None)), st4).
Proof.
  intros m Hadm Hp Hst HA Hm Hmax Hrun. destruct (applied_alone _ _ A m _ _ Hst HA Hm Hmax Hrun) as (Hrev & e & He & -> & Hadv).
  exists e. unfold kv_put. rewrite (pbind_run _ _ _ _ _ Hadm), (pbind_run _ _ _ _ _ Hp). cbn [spec_mutation m put_request_to_mutation] in He.
  split; [done|]. unfold spec_put in He. destruct (_ && _); [done|]. injection He as <-. cbn [ef_result mr_n ef_abs Z.ltb Z.compare] in *.
  split; [done|]. unfold pbind, applied_one, pret, put_response. cbn. destruct (pr_prev_kv req); [|done]. by destruct (a_live A _).
Qed.

(** A delete answers how many keys it deleted and, where asked for, the
    records they had. *)
Lemma kv_delete_exact user req (st st1 st2 st3 st4 : Inner E) A rev rs :
  let m := delete_request_to_mutation req in
  let victims := a_range A (dr_key req) (dr_range_end req) in
  authorized user (delete_accesses req) st = (Ok (), st1) → propose self (EntApply [m]) st1 = (Ok (RspApply rev rs), st4) →
  store_inv st2 → abs_rel A (idx_gens (index st2)) (contents (engine st2)) → mutation_wf m →
  current_rev (write_state st2) < i64_max → apply [m] st2 = (Ok (rev, rs), st3) →
  kv_delete_range self user req st
  = (Ok (mkDeleteResponse rev (Z.of_nat (length victims)) (if dr_prev_kv req then record_to_kv <$> victims.*2 else [])), st4).
Proof.
  intros m victims Ha Hp Hst HA Hm Hmax Hrun. destruct (applied_alone _ _ A m _ _ Hst HA Hm Hmax Hrun) as (Hrev & e & He & -> & _).
  unfold kv_delete_range. rewrite (pbind_run _ _ _ _ _ Ha), (pbind_run _ _ _ _ _ Hp). injection He as <-.
  unfold pbind, applied_one, pret, delete_response. cbn. by destruct (dr_prev_kv req).
Qed.

(** A range served by this member, after the read barrier unless the client
    does without. *)
Lemma kv_range_exact user req (st st1 st2 : Inner E) :
  let t := rq_revision req in
  let cur := current_rev (write_state st2) in
  authorized user [mkAccess PermToRead (rq_key req) (rq_range_end req)] st = (Ok (), st1) →
  (if rq_serializable req then st2 = st1 else read_barrier self st1 = (Ok (), st2)) → store_inv st2 →
  (0 <? t) && (cur <? t) = false → (0 <? t) && (t <? compact_rev (write_state st2)) = false →
  ∃ st3, same_store st2 st3 ∧
    let res := spec_options req (store_view st2 (if t =? 0 then cur else t) (rq_key req) (rq_range_end req)) in
    kv_range self user req st
    = (Ok (mkRangeResponse cur (record_to_kv <$> rr_kvs res) (rr_more res) (rr_count res)), st3).
Proof.
  intros t cur Ha Hb Hst Hf Hc. pose proof (serve_local_ok st2 req Hst) as Hok. destruct (serve_local req st2) as [r st3] eqn:Hr.
  fold t cur in Hok. cbv zeta in Hok. rewrite Hf, Hc in Hok. destruct Hok as [Hs ->]. exists st3. split; [done|].
  unfold kv_range. rewrite (pbind_run _ _ _ _ _ Ha).
  assert (serve_range self req st1 = or_status mvcc_error_to_status (serve_local req) st2) as Hsr.
  { unfold serve_range. destruct (rq_serializable req); [by subst|]. unfold pbind, linearize_read. by rewrite Hb. }
  unfold pbind. rewrite Hsr. unfold or_status. rewrite Hr. unfold pret, range_result_to_response. do 2 f_equal.
  destruct (rq_count_only req) eqn:Hco; [|done]. unfold spec_options. by rewrite Hco.
Qed.
End service.

(** ** Witnesses *)

Module SoleDemo.
Import Demo GuardedDemo.

Definition demo_run : MvccResult TxnResult * Inner MemEngine := txn demo_parts.1.1 demo_parts.1.2 demo_parts.2 demo_store1.
Definition demo_b : KvRecord := mkKv (str "b") (str "2") 1 1 1 0 false.
Definition demo_out : TxnResult :=
  mkTxnResult true 2 [ResRange (mkRangeResult [demo_b] false 1); ResMutation (mkMutationResult 1 [demo_b])].
Definition demo_responses : list ResponseOp :=
  [ResponseRange (mkRangeResponse 2 [record_to_kv demo_b] false 1); ResponsePut (mkPutResponse 2 (Some (record_to_kv demo_b)))].

Lemma demo_admits : txn_admit demo_server None demo_txn demo_store1 = (Ok demo_parts, demo_store1).
Proof.
  assert ((txn_admit demo_server None demo_txn demo_store1).1 = Ok demo_parts) as Ha by (vm_compute; reflexivity).
  destruct (txn_admit demo_server None demo_txn demo_store1) as [r st1] eqn:Hadm. cbn [fst] in Ha. subst r.
  by rewrite (admit_state _ _ _ _ _ _ Hadm).
Qed.

Lemma demo_ran : txn demo_parts.1.1 demo_parts.1.2 demo_parts.2 demo_store1 = (Ok demo_out, demo_run.2).
Proof.
  assert (demo_run.1 = Ok demo_out) as <- by (vm_compute; reflexivity). apply surjective_pairing.
Qed.

Lemma demo_checked :
  prechecked demo_server (EntTxn demo_parts.1.1 demo_parts.1.2 demo_parts.2) demo_store1 = (Ok (), demo_store1).
Proof. reflexivity. Qed.

Definition demo_submit : result Status LogResponse * Inner MemEngine :=
  submit demo_server (EntTxn demo_parts.1.1 demo_parts.1.2 demo_parts.2) demo_store1.

Lemma demo_written :
  submit demo_server (EntTxn demo_parts.1.1 demo_parts.1.2 demo_parts.2) demo_store1 = (Ok (RspTxn demo_out), demo_submit.2).
Proof.
  assert (demo_submit.1 = Ok (RspTxn demo_out)) as <- by (vm_compute; reflexivity). apply surjective_pairing.
Qed.

Lemma demo_expected : ∃ s, spec_request (store_env demo_store1 demo_abs1) 2 demo_txn = Ok (true, demo_responses, s).
Proof. eexists. vm_compute. reflexivity. Qed.
End SoleDemo.

Section witnesses.
Import Demo GuardedDemo SoleDemo.

End witnesses.
