(* ===== verification/Watch.v ===== *)
(** * Watch streams ([server/src/watch.rs])

    One stream: its watchers, the forwarder that takes batches off the
    store's broadcast, and what is sent to the client.  The store is an
    interface, [WatchSource]: the revisions it shows and the history it reads
    back.

    The stream's lock is held for a whole operation, but the store moves on,
    and the forwarder may take a batch off the broadcast, wherever the code
    waits.  [yield] is such a point: it runs the next moves of a schedule, an
    argument of the operation.  What is sent after the lock is dropped is an
    operation of its own, which the task has still to do.  A [HashMap] of
    watchers is iterated in the order of its finite map; cancel reasons are
    their arguments, not their text; a response header is its revision; the
    gauges are not modelled. *)

From S2P Require Import Prelude Revision Record KvStore Lease Cache Auth Store RangeOptions Conv.

(** ** Messages *)

Record PbEvent := mkPbEvent { pe_type : EventKind; pe_kv : KeyValue; pe_prev_kv : option KeyValue }.

Inductive CancelReason :=
| NoReason
| StartCompacted (start compact : Z)
| HistoryUnread (e : MvccError)
| BehindCompacted (required compact : Z)
| BehindUnread (e : MvccError)
| Denied (reason : string).

Record WatchResponse := mkResponse {
  wr_revision : Z;
  wr_watch_id : Z;
  wr_created : bool;
  wr_canceled : bool;
  wr_compact_revision : Z;
  wr_cancel_reason : CancelReason;
  wr_fragment : bool;
  wr_events : list PbEvent
}.

Record WatchCreateRequest := mkCreate {
  wc_key : bytes;
  wc_range_end : bytes;
  wc_start_revision : Z;
  wc_progress_notify : bool;
  wc_filters : list Z;
  wc_prev_kv : bool;
  wc_watch_id : Z;
  wc_fragment : bool
}.

Definition set_events (evs : list PbEvent) (r : WatchResponse) : WatchResponse :=
  mkResponse (wr_revision r) (wr_watch_id r) (wr_created r) (wr_canceled r) (wr_compact_revision r)
    (wr_cancel_reason r) (wr_fragment r) evs.
Definition set_fragment (b : bool) (r : WatchResponse) : WatchResponse :=
  mkResponse (wr_revision r) (wr_watch_id r) (wr_created r) (wr_canceled r) (wr_compact_revision r)
    (wr_cancel_reason r) b (wr_events r).

Definition events_response (header watch_id : Z) (events : list PbEvent) : WatchResponse :=
  mkResponse header watch_id false false 0 NoReason false events.

(** ** Watchers *)

Record Watcher := mkWatcher {
  w_key : bytes;
  w_range_end : bytes;
  w_progress_notify : bool;
  w_filter_no_put : bool;
  w_filter_no_delete : bool;
  w_prev_kv : bool;
  w_fragment : bool;
  w_next_rev : Z
}.

Definition set_next_rev (n : Z) (w : Watcher) : Watcher :=
  mkWatcher (w_key w) (w_range_end w) (w_progress_notify w) (w_filter_no_put w) (w_filter_no_delete w)
    (w_prev_kv w) (w_fragment w) n.

Definition matches_key (w : Watcher) (key : bytes) : bool :=
  if bool_decide (w_range_end w = []) then bool_decide (key = w_key w)
  else if bool_decide (w_range_end w = [x00]) then bytes_leb (w_key w) key
  else bytes_leb (w_key w) key && bytes_ltb key (w_range_end w).

Definition passes_filter (w : Watcher) (e : MvccEvent) : bool :=
  match ev_kind e with
  | EvPut => negb (w_filter_no_put w)
  | EvDelete => negb (w_filter_no_delete w)
  end.

Definition to_pb (w : Watcher) (e : MvccEvent) : PbEvent :=
  mkPbEvent (ev_kind e) (record_to_kv (ev_kv e)) (if w_prev_kv w then record_to_kv <$> ev_prev_kv e else None).

(** [FilterType::try_from]: 0 is NOPUT, 1 is NODELETE. *)
Definition no_put (filters : list Z) : bool := existsb (Z.eqb 0) filters.
Definition no_delete (filters : list Z) : bool := existsb (Z.eqb 1) filters.

(** ** The stream *)

(** What the store offers a watch stream. *)
Class WatchSource (W : Type) := {
  src_current : W → Z;
  src_compact : W → Z;
  src_events_until : bytes → bytes → Z → Z → W → result MvccError (list MvccEvent)
}.

(** What the forwarder does next. *)
Inductive Forwarder := FwIdle | FwDeliver (batch : EventBatch) | FwResync | FwStopped.

(** What happens while an operation waits: the store moves on, sending
    batches; the broadcast drops batches this stream was too slow for; the
    forwarder takes one; the client goes away. *)
Inductive Move (W : Type) :=
| MvStore (w : W) (batches : list EventBatch)
| MvLag (n : nat)
| MvReceive
| MvClose.
Arguments MvStore {W}.
Arguments MvLag {W}.
Arguments MvReceive {W}.
Arguments MvClose {W}.

(** What the inbound task still has to send, without the lock. *)
Inductive Inbound :=
| InIdle
| InSend (r : WatchResponse)
| InCancel (watch_id compact : Z) (reason : CancelReason)
| InDenied (reason : string)
| InProgress.

Record WatchStream (W : Type) := mkStream {
  ws_world : W;
  ws_queue : list EventBatch;
  ws_lagged : bool;
  ws_last_rev : Z;
  ws_forwarder : Forwarder;
  ws_watchers : gmap Z Watcher;
  ws_next_auto_id : Z;
  ws_inbound : Inbound;
  ws_ticking : bool;
  ws_out : list WatchResponse;
  ws_closed : bool;
  ws_schedule : list (list (Move W))
}.
Arguments mkStream {W}.
Arguments ws_world {W}.
Arguments ws_queue {W}.
Arguments ws_lagged {W}.
Arguments ws_last_rev {W}.
Arguments ws_forwarder {W}.
Arguments ws_watchers {W}.
Arguments ws_next_auto_id {W}.
Arguments ws_inbound {W}.
Arguments ws_ticking {W}.
Arguments ws_out {W}.
Arguments ws_closed {W}.
Arguments ws_schedule {W}.

Section stream.
Context {W : Type} `{WatchSource W}.

(** [max_request_bytes], and prost's [encoded_len]. *)
Variable max_bytes : Z.
Variable encoded_len : WatchResponse → Z.

Abbreviation MS A := (prog (WatchStream W) () A).

Definition set_forward (queue : list EventBatch) (lagged : bool) (last : Z) (fw : Forwarder) (s : WatchStream W)
    : WatchStream W :=
  mkStream (ws_world s) queue lagged last fw (ws_watchers s) (ws_next_auto_id s) (ws_inbound s)
    (ws_ticking s) (ws_out s) (ws_closed s) (ws_schedule s).
Definition set_world (w : W) (queue : list EventBatch) (s : WatchStream W) : WatchStream W :=
  mkStream w queue (ws_lagged s) (ws_last_rev s) (ws_forwarder s) (ws_watchers s) (ws_next_auto_id s)
    (ws_inbound s) (ws_ticking s) (ws_out s) (ws_closed s) (ws_schedule s).
Definition set_watchers (m : gmap Z Watcher) (s : WatchStream W) : WatchStream W :=
  mkStream (ws_world s) (ws_queue s) (ws_lagged s) (ws_last_rev s) (ws_forwarder s) m (ws_next_auto_id s)
    (ws_inbound s) (ws_ticking s) (ws_out s) (ws_closed s) (ws_schedule s).
Definition set_next_auto_id (n : Z) (s : WatchStream W) : WatchStream W :=
  mkStream (ws_world s) (ws_queue s) (ws_lagged s) (ws_last_rev s) (ws_forwarder s) (ws_watchers s) n
    (ws_inbound s) (ws_ticking s) (ws_out s) (ws_closed s) (ws_schedule s).
Definition set_out (out : list WatchResponse) (s : WatchStream W) : WatchStream W :=
  mkStream (ws_world s) (ws_queue s) (ws_lagged s) (ws_last_rev s) (ws_forwarder s) (ws_watchers s)
    (ws_next_auto_id s) (ws_inbound s) (ws_ticking s) out (ws_closed s) (ws_schedule s).
Definition set_closed (s : WatchStream W) : WatchStream W :=
  mkStream (ws_world s) (ws_queue s) (ws_lagged s) (ws_last_rev s) (ws_forwarder s) (ws_watchers s)
    (ws_next_auto_id s) (ws_inbound s) (ws_ticking s) (ws_out s) true (ws_schedule s).
Definition set_schedule (l : list (list (Move W))) (s : WatchStream W) : WatchStream W :=
  mkStream (ws_world s) (ws_queue s) (ws_lagged s) (ws_last_rev s) (ws_forwarder s) (ws_watchers s)
    (ws_next_auto_id s) (ws_inbound s) (ws_ticking s) (ws_out s) (ws_closed s) l.
Definition set_inbound (i : Inbound) (s : WatchStream W) : WatchStream W :=
  mkStream (ws_world s) (ws_queue s) (ws_lagged s) (ws_last_rev s) (ws_forwarder s) (ws_watchers s)
    (ws_next_auto_id s) i (ws_ticking s) (ws_out s) (ws_closed s) (ws_schedule s).
Definition set_ticking (b : bool) (s : WatchStream W) : WatchStream W :=
  mkStream (ws_world s) (ws_queue s) (ws_lagged s) (ws_last_rev s) (ws_forwarder s) (ws_watchers s)
    (ws_next_auto_id s) (ws_inbound s) b (ws_out s) (ws_closed s) (ws_schedule s).

(** [event_rx.recv()] in [forward_events], up to where it needs the lock. *)
Definition take_batch (s : WatchStream W) : WatchStream W :=
  match ws_forwarder s with
  | FwIdle =>
      if ws_lagged s then set_forward (ws_queue s) false (ws_last_rev s) FwResync s
      else
        match ws_queue s with
        | [] => s
        | batch :: queue =>
            if eb_revision batch <=? ws_last_rev s then set_forward queue false (ws_last_rev s) (FwDeliver batch) s
            else if negb (eb_revision batch =? ws_last_rev s + 1) then set_forward queue false (ws_last_rev s) FwResync s
            else set_forward queue false (eb_revision batch) (FwDeliver batch) s
        end
  | _ => s
  end.

Definition move (m : Move W) (s : WatchStream W) : WatchStream W :=
  match m with
  | MvStore w batches => set_world w (ws_queue s ++ batches) s
  | MvLag n => if (0 <? n)%nat && (n <=? length (ws_queue s))%nat
               then set_forward (drop n (ws_queue s)) true (ws_last_rev s) (ws_forwarder s) s
               else s
  | MvReceive => take_batch s
  | MvClose => set_closed s
  end.

Definition moves (ms : list (Move W)) (s : WatchStream W) : WatchStream W := foldl (λ s m, move m s) s ms.

Definition yield : MS () := λ s,
  match ws_schedule s with
  | [] => (Ok (), s)
  | ms :: rest => (Ok (), moves ms (set_schedule rest s))
  end.

Definition store_revision : MS Z := let* _ := yield in let* s := pget in pret (src_current (ws_world s)).
Definition store_compacted : MS Z := let* _ := yield in let* s := pget in pret (src_compact (ws_world s)).

(** [tx.send(Ok(resp)).await]. *)
Definition send_response (r : WatchResponse) : MS () :=
  let* _ := yield in
  let* s := pget in
  if ws_closed s then pfail () else pmodify (λ s, set_out (ws_out s ++ [r]) s).

(** *** Fragments *)

(** The events of one part, and what is left. *)
Fixpoint take_fragment (empty : WatchResponse) (cur events : list PbEvent) : list PbEvent * list PbEvent :=
  match events with
  | [] => (cur, [])
  | ev :: rest =>
      let cur' := cur ++ [ev] in
      if (1 <? length cur')%nat && (max_bytes <=? encoded_len (set_events cur' empty)) then (cur, ev :: rest)
      else take_fragment empty cur' rest
  end.

(** Each part takes at least one event, so [fuel] their number. *)
Fixpoint fragment_loop (fuel : nat) (empty : WatchResponse) (events : list PbEvent) : list WatchResponse :=
  match fuel, events with
  | O, _ | _, [] => []
  | S fuel', _ =>
      let '(cur, rest) := take_fragment empty [] events in
      set_fragment (negb (bool_decide (rest = []))) (set_events cur empty) :: fragment_loop fuel' empty rest
  end.

Definition fragments (resp : WatchResponse) : list WatchResponse :=
  if (encoded_len resp <? max_bytes) || (length (wr_events resp) <? 2)%nat then [resp]
  else fragment_loop (length (wr_events resp)) (set_fragment true (set_events [] resp)) (wr_events resp).

Fixpoint send_all (l : list WatchResponse) : MS () :=
  match l with
  | [] => pret ()
  | r :: l' => let* _ := send_response r in send_all l'
  end.

Definition send_events (fragment : bool) (resp : WatchResponse) : MS () :=
  if fragment then send_all (fragments resp) else send_response resp.

(** *** History *)

Definition REPLAY_CHUNK_BYTES : Z := 1048576.

Inductive Replayed := ReplayDone | ReplayCompacted (compact_rev : Z) | ReplayFailed (e : MvccError).

Definition event_bytes (w : Watcher) (e : MvccEvent) : Z :=
  Z.of_nat (length (rec_key (ev_kv e)) + length (rec_value (ev_kv e))) +
  match ev_prev_kv e with
  | Some p => if w_prev_kv w then Z.of_nat (length (rec_key p) + length (rec_value p)) else 0
  | None => 0
  end.

(** The loop over the events, with the chunk so far. *)
Fixpoint replay_loop (w : Watcher) (watch_id header : Z) (events : list MvccEvent) (chunk : list PbEvent)
    (chunk_bytes chunk_rev : Z) : MS () :=
  match events with
  | [] => match chunk with [] => pret () | _ => send_events (w_fragment w) (events_response header watch_id chunk) end
  | e :: events' =>
      if passes_filter w e then
        let rev := mod_revision (ev_kv e) in
        if (REPLAY_CHUNK_BYTES <=? chunk_bytes) && negb (rev =? chunk_rev) then
          let* _ := send_events (w_fragment w) (events_response header watch_id chunk) in
          replay_loop w watch_id header events' [to_pb w e] (event_bytes w e) rev
        else replay_loop w watch_id header events' (chunk ++ [to_pb w e]) (chunk_bytes + event_bytes w e) rev
      else replay_loop w watch_id header events' chunk chunk_bytes chunk_rev
  end.

Definition replay_history (watch_id : Z) (w : Watcher) (upto : Z) : MS Replayed :=
  if upto <? w_next_rev w then pret ReplayDone
  else
    let* compact_rev := store_compacted in
    if w_next_rev w <? compact_rev then pret (ReplayCompacted compact_rev)
    else
      let* _ := yield in
      let* s := pget in
      match src_events_until (w_key w) (w_range_end w) (w_next_rev w - 1) upto (ws_world s) with
      | Err (Compacted _ compact_rev) => pret (ReplayCompacted compact_rev)
      | Err e => pret (ReplayFailed e)
      | Ok events => let* _ := replay_loop w watch_id upto events [] 0 0 in pret ReplayDone
      end.

(** *** Requests *)

Definition send_cancel (watch_id compact : Z) (reason : CancelReason) : MS () :=
  let* rev := store_revision in
  send_response (mkResponse rev watch_id false true compact reason false []).

Definition send_denied (reason : string) : MS () :=
  let* rev := store_revision in
  send_response (mkResponse rev (-1) true true 0 (Denied reason) false []).

(** The id of a create, and the stream that has given it. *)
Definition create_id (create : WatchCreateRequest) : MS Z := λ s,
  if 0 <? wc_watch_id create then (Ok (wc_watch_id create), s)
  else let id := ws_next_auto_id s + 1 in (Ok id, set_next_auto_id id s).

Definition new_watcher (create : WatchCreateRequest) (next_rev : Z) : Watcher :=
  mkWatcher (wc_key create) (wc_range_end create) (wc_progress_notify create) (no_put (wc_filters create))
    (no_delete (wc_filters create)) (wc_prev_kv create) (wc_fragment create) next_rev.

Definition leave (i : Inbound) : MS () := pmodify (set_inbound i).

(** Up to where the lock is dropped. *)
Definition handle_create (create : WatchCreateRequest) : MS () :=
  let* current_rev := store_revision in
  let* compact_rev := store_compacted in
  let* watch_id := create_id create in
  let start := wc_start_revision create in
  if (0 <? start) && (start <? compact_rev) then
    leave (InSend (mkResponse current_rev watch_id true true compact_rev (StartCompacted start compact_rev) false []))
  else
    let next_rev := if 0 <? start then start else current_rev + 1 in
    let watcher := new_watcher create next_rev in
    let* _ := send_response (mkResponse current_rev watch_id true false 0 NoReason false []) in
    let* replayed := replay_history watch_id watcher current_rev in
    match replayed with
    | ReplayDone =>
        pmodify (λ s, set_watchers (<[watch_id := set_next_rev (Z.max next_rev (current_rev + 1)) watcher]> (ws_watchers s)) s)
    | ReplayCompacted c => leave (InCancel watch_id c (StartCompacted start c))
    | ReplayFailed e => leave (InCancel watch_id 0 (HistoryUnread e))
    end.

Definition handle_cancel (watch_id : Z) : MS () :=
  let* _ := pmodify (λ s, set_watchers (delete watch_id (ws_watchers s)) s) in
  leave (InCancel watch_id 0 NoReason).

Definition handle_progress : MS () :=
  let* s := pget in
  if bool_decide (ws_watchers s = ∅) then pret () else leave InProgress.

Definition send_progress : MS () :=
  let* rev := store_revision in
  send_response (mkResponse rev (-1) false false 0 NoReason false []).

(** What was left to send. *)
Definition finish_inbound : MS () :=
  let* s := pget in
  let* _ := leave InIdle in
  match ws_inbound s with
  | InIdle => pret ()
  | InSend r => send_response r
  | InCancel id c reason => send_cancel id c reason
  | InDenied reason => send_denied reason
  | InProgress => send_progress
  end.

(** A tick of [progress_notify_ticker]: with the lock, and without. *)
Definition progress_tick : MS () :=
  let* s := pget in
  pmodify (set_ticking (existsb (λ x : Z * Watcher, w_progress_notify x.2) (map_to_list (ws_watchers s)))).

Definition finish_tick : MS () :=
  let* s := pget in
  let* _ := pmodify (set_ticking false) in
  if ws_ticking s then send_progress else pret ().

(** *** The forwarder *)

(** A batch for one watcher: its cursor past it, and the events it selects. *)
Definition deliver_one (batch : EventBatch) (w : Watcher) : Watcher * list PbEvent :=
  if eb_revision batch <? w_next_rev w then (w, [])
  else (set_next_rev (eb_revision batch + 1) w,
        to_pb w <$> base.filter (λ e, matches_key w (rec_key (ev_kv e)) && passes_filter w e = true) (eb_events batch)).

Fixpoint send_deliveries (rev : Z) (l : list (Z * bool * list PbEvent)) : MS () :=
  match l with
  | [] => pret ()
  | (id, fragment, evs) :: l' => let* _ := send_events fragment (events_response rev id evs) in send_deliveries rev l'
  end.

Definition deliveries (batch : EventBatch) (ws : gmap Z Watcher) : list (Z * bool * list PbEvent) :=
  omap (λ x : Z * Watcher,
    match (deliver_one batch x.2).2 with [] => None | evs => Some (x.1, w_fragment x.2, evs) end) (map_to_list ws).

Definition deliver (batch : EventBatch) : MS () :=
  let* s := pget in
  let ws := ws_watchers s in
  let* _ := pmodify (λ s, set_watchers (fst ∘ deliver_one batch <$> ws) s) in
  send_deliveries (eb_revision batch) (deliveries batch ws).

(** The watchers to catch up, and those to cancel after. *)
Fixpoint resync_loop (l : list (Z * Watcher)) (upto : Z) (cancelled : list (Z * Z * CancelReason))
    : MS (list (Z * Z * CancelReason)) :=
  match l with
  | [] => pret cancelled
  | (id, w) :: l' =>
      if upto <? w_next_rev w then resync_loop l' upto cancelled
      else
        let* replayed := replay_history id w upto in
        match replayed with
        | ReplayDone =>
            let* _ := pmodify (λ s, set_watchers (<[id := set_next_rev (upto + 1) w]> (ws_watchers s)) s) in
            resync_loop l' upto cancelled
        | ReplayCompacted c => resync_loop l' upto (cancelled ++ [(id, c, BehindCompacted (w_next_rev w) c)])
        | ReplayFailed e => resync_loop l' upto (cancelled ++ [(id, 0, BehindUnread e)])
        end
  end.

Fixpoint cancel_all (l : list (Z * Z * CancelReason)) : MS () :=
  match l with
  | [] => pret ()
  | (id, c, reason) :: l' =>
      let* _ := pmodify (λ s, set_watchers (delete id (ws_watchers s)) s) in
      let* _ := send_cancel id c reason in
      cancel_all l'
  end.

Definition resync : MS Z :=
  let* upto := store_revision in
  let* s := pget in
  let* cancelled := resync_loop (map_to_list (ws_watchers s)) upto [] in
  let* _ := cancel_all cancelled in
  pret upto.

(** Once the forwarder returns, the watchers are cleared. *)
Definition stop (s : WatchStream W) : WatchStream W :=
  set_watchers ∅ (set_forward (ws_queue s) (ws_lagged s) (ws_last_rev s) FwStopped s).

(** What [forward_events] does with the lock. *)
Definition forward (s : WatchStream W) : WatchStream W :=
  match ws_forwarder s with
  | FwDeliver batch =>
      match deliver batch s with
      | (Ok _, s) => set_forward (ws_queue s) (ws_lagged s) (ws_last_rev s) FwIdle s
      | (Err _, s) => stop s
      end
  | FwResync =>
      match resync s with
      | (Ok rev, s) => set_forward (ws_queue s) (ws_lagged s) (Z.max (ws_last_rev s) rev) FwIdle s
      | (Err _, s) => stop s
      end
  | _ => s
  end.

(** ** Runs *)

Inductive WatchRequest :=
| RqCreate (create : WatchCreateRequest)
| RqDenied (reason : string)
| RqCancel (watch_id : Z)
| RqProgress.

(** The tasks of the stream: the inbound one takes a request once it has sent
    what it owes. *)
Inductive WatchOp :=
| WoMove (m : Move W)
| WoRequest (r : WatchRequest)
| WoInbound
| WoTick
| WoTicked
| WoForward
| WoExit.

Definition request (r : WatchRequest) : MS () :=
  match r with
  | RqCreate create => handle_create create
  | RqDenied reason => leave (InDenied reason)
  | RqCancel id => handle_cancel id
  | RqProgress => handle_progress
  end.

Definition op_step (op : WatchOp) (s : WatchStream W) : WatchStream W :=
  match op with
  | WoMove m => move m s
  | WoRequest r => match ws_inbound s with InIdle => (request r s).2 | _ => s end
  | WoInbound => (finish_inbound s).2
  | WoTick => (progress_tick s).2
  | WoTicked => (finish_tick s).2
  | WoForward => forward s
  | WoExit => if ws_closed s then stop s else s
  end.

(** An operation, with what happens while it waits. *)
Definition watch_step (s : WatchStream W) (x : WatchOp * list (list (Move W))) : WatchStream W :=
  set_schedule [] (op_step x.1 (set_schedule x.2 s)).

Definition watch_run (ops : list (WatchOp * list (list (Move W)))) (s : WatchStream W) : WatchStream W :=
  foldl watch_step s ops.

(** [watch]: [queue] came between subscribing and reading the revision. *)
Definition watch_open (w : W) (queue : list EventBatch) : WatchStream W :=
  mkStream w queue false (src_current w) FwIdle ∅ 0 InIdle false [] false [].
End stream.
