(* ===== verification/WatchInv.v ===== *)
(** * What a watch stream keeps

    The events sent to a watcher, in whatever responses and fragments, are
    those of a window of the history: from where it started to its cursor. *)

From S2P Require Import Prelude Revision Record KvStore Lease Cache Auth Store RangeOptions Conv Watch.

(** ** Events up to their previous record *)

Abbreviation core := (EventKind * KvRecord)%type.

Definition ev_core (e : MvccEvent) : core := (ev_kind e, ev_kv e).
Definition pb_of (c : core) : EventKind * KeyValue := (c.1, record_to_kv c.2).
Definition pb_core (p : PbEvent) : EventKind * KeyValue := (pe_type p, pe_kv p).

Lemma to_pb_core w e : pb_core (to_pb w e) = pb_of (ev_core e).
Proof. done. Qed.

(** What a watcher passes on of an event depends on its core only. *)
Definition passes (w : Watcher) (c : core) : bool :=
  match c.1 with EvPut => negb (w_filter_no_put w) | EvDelete => negb (w_filter_no_delete w) end.
Definition selects (w : Watcher) (c : core) : bool := matches_key w (rec_key c.2) && passes w c.

Definition selected (w : Watcher) (l : list core) : list (EventKind * KeyValue) :=
  pb_of <$> base.filter (λ c, selects w c = true) l.

Lemma selected_app w a b : selected w (a ++ b) = selected w a ++ selected w b.
Proof. unfold selected. by rewrite filter_app, fmap_app. Qed.

Lemma selected_next n w l : selected (set_next_rev n w) l = selected w l.
Proof. done. Qed.

Lemma matches_key_range w k : matches_key w k = in_range k (w_key w) (w_range_end w).
Proof. done. Qed.

Lemma pb_cores_of w (evs : list MvccEvent) :
  pb_core <$> (to_pb w <$> base.filter (λ e, passes_filter w e = true) evs)
  = pb_of <$> base.filter (λ c, passes w c = true) (ev_core <$> evs).
Proof.
  induction evs as [|e evs IH]; [done|]. rewrite !filter_cons, fmap_cons, filter_cons.
  change (passes w (ev_core e)) with (passes_filter w e). case_decide; cbn [fmap list_fmap]; by rewrite IH.
Qed.

Lemma pb_cores_live w (evs : list MvccEvent) :
  pb_core <$> (to_pb w <$> base.filter (λ e, matches_key w (rec_key (ev_kv e)) && passes_filter w e = true) evs)
  = selected w (ev_core <$> evs).
Proof.
  unfold selected. induction evs as [|e evs IH]; [done|]. rewrite fmap_cons, !filter_cons.
  change (selects w (ev_core e)) with (matches_key w (rec_key (ev_kv e)) && passes_filter w e).
  case_decide; cbn [fmap list_fmap]; by rewrite IH.
Qed.

Lemma selected_passes w l :
  pb_of <$> base.filter (λ c, passes w c = true) (base.filter (λ c, in_range (rec_key c.2) (w_key w) (w_range_end w) = true) l)
  = selected w l.
Proof.
  unfold selected. rewrite list_filter_filter. f_equal. apply list_filter_iff. intros c.
  unfold selects. rewrite <- matches_key_range, andb_true_iff. tauto.
Qed.

(** ** What the client has seen *)

(** The events sent on a watch id since it was last created. *)
Definition delivered_step (id : Z) (acc : list (EventKind * KeyValue)) (r : WatchResponse) : list (EventKind * KeyValue) :=
  if wr_watch_id r =? id
  then (if wr_created r then [] else acc) ++ (pb_core <$> wr_events r) else acc.
Definition delivered (out : list WatchResponse) (id : Z) : list (EventKind * KeyValue) :=
  foldl (delivered_step id) [] out.

(** Whether the client takes a watch id for open. *)
Definition open_step (id : Z) (acc : bool) (r : WatchResponse) : bool :=
  if wr_watch_id r =? id then (if wr_canceled r then false else wr_created r || acc) else acc.
Definition open_in (out : list WatchResponse) (id : Z) : bool := foldl (open_step id) false out.

(** An events response for a watch id. *)
Definition events_for (id : Z) (r : WatchResponse) : Prop :=
  wr_watch_id r = id ∧ wr_created r = false ∧ wr_canceled r = false.

Definition sent_cores (rs : list WatchResponse) : list (EventKind * KeyValue) := concat ((λ r, pb_core <$> wr_events r) <$> rs).

Lemma delivered_events out id rs :
  Forall (events_for id) rs → delivered (out ++ rs) id = delivered out id ++ sent_cores rs.
Proof.
  unfold delivered. rewrite foldl_app. intros Hrs. generalize (foldl (delivered_step id) [] out) as acc.
  induction Hrs as [|r rs (Hid & Hc & Hx) _ IH]; intros acc; [by rewrite app_nil_r|].
  unfold sent_cores in *. cbn [foldl fmap list_fmap concat]. rewrite IH. unfold delivered_step.
  rewrite Hid, Z.eqb_refl, Hc. by rewrite app_assoc.
Qed.

Lemma delivered_other out id rs :
  Forall (λ r, wr_watch_id r ≠ id) rs → delivered (out ++ rs) id = delivered out id.
Proof.
  unfold delivered. rewrite foldl_app. intros Hrs. generalize (foldl (delivered_step id) [] out) as acc.
  induction Hrs as [|r rs Hid _ IH]; intros acc; [done|]. cbn [foldl]. rewrite IH. unfold delivered_step.
  by rewrite (proj2 (Z.eqb_neq _ _) Hid).
Qed.

Lemma open_events out id id' rs : Forall (events_for id') rs → open_in (out ++ rs) id = open_in out id.
Proof.
  unfold open_in. rewrite foldl_app. intros Hrs. generalize (foldl (open_step id) false out) as acc.
  induction Hrs as [|r rs (Hid & Hc & Hx) _ IH]; intros acc; [done|]. cbn [foldl]. rewrite IH. unfold open_step.
  rewrite Hc, Hx. by destruct (_ =? _).
Qed.

Lemma open_other out id rs : Forall (λ r, wr_watch_id r ≠ id) rs → open_in (out ++ rs) id = open_in out id.
Proof.
  unfold open_in. rewrite foldl_app. intros Hrs. generalize (foldl (open_step id) false out) as acc.
  induction Hrs as [|r rs Hid _ IH]; intros acc; [done|]. cbn [foldl]. rewrite IH. unfold open_step.
  by rewrite (proj2 (Z.eqb_neq _ _) Hid).
Qed.

Lemma events_for_other id id' rs : id' ≠ id → Forall (events_for id') rs → Forall (λ r, wr_watch_id r ≠ id) rs.
Proof. intros Hne Hrs. eapply Forall_impl; [exact Hrs|]. by intros r (-> & _). Qed.

(** ** The history *)

Definition hist (H : Z → list core) (a b : Z) : list core := concat (H <$> seqZ a (b - a)).

Lemma hist_empty H a b : b ≤ a → hist H a b = [].
Proof. intros Hab. unfold hist. by rewrite seqZ_nil by lia. Qed.

Lemma hist_split H a b c : a ≤ b ≤ c → hist H a c = hist H a b ++ hist H b c.
Proof.
  intros Hab. unfold hist. replace (c - a) with ((b - a) + (c - b)) by lia.
  rewrite seqZ_app by lia. rewrite fmap_app, concat_app. by replace (a + (b - a)) with b by lia.
Qed.

Lemma hist_one H a : hist H a (a + 1) = H a.
Proof. unfold hist. replace (a + 1 - a) with 1 by lia. cbn. apply app_nil_r. Qed.

(** What the store promises: what it reads back, when it does, is the
    history. *)
Class WatchHistory (W : Type) `{SRC : WatchSource W} (H : Z → list core) (good : W → Prop) : Prop := {
  src_exact w key range_end start upto evs :
    good w → src_events_until key range_end start upto w = Ok evs →
    ev_core <$> evs = base.filter (λ c, in_range (rec_key c.2) key range_end = true)
                        (hist H (start + 1) (Z.min (src_current w) upto + 1))
}.

Section inv.
Context {W : Type} `{SRC : WatchSource W} (H : Z → list core) (good : W → Prop) `{!WatchHistory W H good}.
Variable max_bytes : Z.
Variable encoded_len : WatchResponse → Z.

(** Whether every revision is broadcast: no snapshot is installed. *)
Variable full : Prop.

(** ** While an operation waits *)

Definition batch_ok (cur : Z) (b : EventBatch) : Prop :=
  ev_core <$> eb_events b = H (eb_revision b) ∧ eb_revision b ≤ cur.

(** The store moves forward, and sends batches of the history. *)
Fixpoint chain_ok (w : W) (ms : list (Move W)) : Prop :=
  match ms with
  | [] => True
  | MvStore w' bs :: ms' =>
      good w' ∧ src_current w ≤ src_current w' ∧ Forall (batch_ok (src_current w')) bs ∧
      (full → eb_revision <$> bs = seqZ (src_current w + 1) (src_current w' - src_current w)) ∧ chain_ok w' ms'
  | _ :: ms' => chain_ok w ms'
  end.

Definition fw_ok (fw : Forwarder) (last : Z) : Prop :=
  match fw with
  | FwDeliver b => ev_core <$> eb_events b = H (eb_revision b) ∧ eb_revision b ≤ last
  | _ => True
  end.

(** The newest revision the queue is without. *)
Definition behind (s : WatchStream W) : Z := src_current (ws_world s) - Z.of_nat (length (ws_queue s)).

(** The queue ends at the current revision, and what it is without was
    accounted for, or the forwarder knows to look back. *)
Definition seen_upto (s : WatchStream W) : Prop :=
  eb_revision <$> ws_queue s = seqZ (behind s + 1) (Z.of_nat (length (ws_queue s))) ∧
  (ws_lagged s = true ∨ ws_forwarder s = FwResync ∨ ws_forwarder s = FwStopped ∨ behind s ≤ ws_last_rev s).

Record base (s : WatchStream W) : Prop := {
  bs_good : good (ws_world s);
  bs_last : ws_last_rev s ≤ src_current (ws_world s);
  bs_queue : Forall (batch_ok (src_current (ws_world s))) (ws_queue s);
  bs_fw : fw_ok (ws_forwarder s) (ws_last_rev s);
  bs_chain : chain_ok (ws_world s) (concat (ws_schedule s));
  bs_covered : full → seen_upto s
}.

(** The forwarder takes at most one batch. *)
Definition fw_moved (fw : Forwarder) (last : Z) (fw' : Forwarder) (last' : Z) : Prop :=
  (fw' = fw ∧ last' = last) ∨
  (fw = FwIdle ∧ fw' ≠ FwStopped ∧
   (last' = last ∨ ∃ b, fw' = FwDeliver b ∧ eb_revision b = last' ∧ last' = last + 1)).

Lemma fw_moved_refl fw last : fw_moved fw last fw last.
Proof. by left. Qed.

Lemma fw_moved_trans fw last fw1 last1 fw2 last2 :
  fw_moved fw last fw1 last1 → fw_moved fw1 last1 fw2 last2 → fw_moved fw last fw2 last2.
Proof.
  intros [[-> ->]|(-> & Hne & Hl)]; [done|]. intros [[-> ->]|(-> & Hne2 & Hl2)]; [by right|].
  right. split_and!; [done|done|]. destruct Hl as [->|(b & ? & _)]; [done|done].
Qed.

(** [rs] was sent, the store moved on, and nothing else changed. *)
Record moved (rs : list WatchResponse) (s s' : WatchStream W) : Prop := {
  mv_out : ws_out s' = ws_out s ++ rs;
  mv_watchers : ws_watchers s' = ws_watchers s;
  mv_auto : ws_next_auto_id s' = ws_next_auto_id s;
  mv_inbound : ws_inbound s' = ws_inbound s;
  mv_cur : src_current (ws_world s) ≤ src_current (ws_world s');
  mv_closed : ws_closed s = true → ws_closed s' = true;
  mv_fw : fw_moved (ws_forwarder s) (ws_last_rev s) (ws_forwarder s') (ws_last_rev s');
  mv_lagged : ws_forwarder s ≠ FwIdle → ws_lagged s = true → ws_lagged s' = true;
  mv_behind : full → ws_forwarder s ≠ FwIdle → ws_lagged s' = true ∨ behind s' = behind s
}.

Lemma moved_refl s : moved [] s s.
Proof. split; try done; [by rewrite app_nil_r|apply fw_moved_refl|by right]. Qed.

Lemma moved_trans rs1 rs2 s s1 s2 : moved rs1 s s1 → moved rs2 s1 s2 → moved (rs1 ++ rs2) s s2.
Proof.
  intros [] []. split; [|congruence..|lia|tauto|by eapply fw_moved_trans| |].
  - rewrite app_assoc. congruence.
  - intros Hne Hl. destruct mv_fw0 as [[Hf _]|[? _]]; [|done]. apply mv_lagged1; [congruence|auto].
  - intros Hfl Hne. destruct mv_fw0 as [[Hf _]|[? _]]; [|done]. rewrite Hf in *.
    destruct (mv_behind0 Hfl Hne) as [Hl|Hb]; [left; by auto|].
    destruct (mv_behind1 Hfl Hne) as [?|?]; [by left|right; congruence].
Qed.

Lemma batch_ok_mono cur cur' l : cur ≤ cur' → Forall (batch_ok cur) l → Forall (batch_ok cur') l.
Proof. intros Hc Hl. eapply Forall_impl; [exact Hl|]. intros b [? ?]. split; [done|lia]. Qed.

Lemma receive_base s : base s → base (take_batch s).
Proof.
  intros Hb. pose proof Hb as [Hg Hl Hq Hf Hc Hcov]. unfold take_batch.
  destruct (ws_forwarder s) eqn:Hfw; try done.
  destruct (ws_lagged s) eqn:Hlag.
  { split; try done. intros Hfl. destruct (Hcov Hfl) as [H1 _]. split; [done|]. right. by left. }
  destruct (ws_queue s) as [|b q] eqn:Hqu; [done|].
  apply Forall_cons in Hq as [[Hbc Hbr] Hq].
  assert (full → eb_revision b = behind s + 1 ∧
    eb_revision <$> q = seqZ (behind s + 1 + 1) (Z.of_nat (length q)) ∧ behind s ≤ ws_last_rev s) as Hhead.
  { intros Hfl. destruct (Hcov Hfl) as [H1 H2]. rewrite Hqu, fmap_cons in H1. cbn [length] in H1.
    rewrite Nat2Z.inj_succ, seqZ_cons in H1 by lia. injection H1 as H1a H1b.
    split_and!; [done|by replace (Z.of_nat (length q)) with (Z.pred (Z.succ (Z.of_nat (length q)))) by lia|].
    destruct H2 as [?|[?|[?|?]]]; congruence || done. }
  assert (∀ last fw, (fw = FwResync ∨ eb_revision b ≤ last) → full → seen_upto (set_forward q false last fw s)) as Hcov'.
  { intros last fw Hor Hfl. destruct (Hhead Hfl) as (H1 & H2 & H3). unfold seen_upto, behind in *. cbn. rewrite Hqu in *. cbn [length] in *.
    replace (src_current (ws_world s) - Z.of_nat (length q) + 1) with (src_current (ws_world s) - Z.of_nat (S (length q)) + 1 + 1) by lia.
    split; [done|]. destruct Hor as [->|?]; [right; by left|]. right; right; right. lia. }
  destruct (Z.leb_spec (eb_revision b) (ws_last_rev s)).
  { split; try done. apply Hcov'. by right. }
  destruct (Z.eqb_spec (eb_revision b) (ws_last_rev s + 1)) as [He|]; cbn [negb].
  - split; cbn; try done. apply Hcov'. by right.
  - split; cbn; try done. apply Hcov'. by left.
Qed.

Lemma receive_moved s : moved [] s (take_batch s).
Proof.
  unfold take_batch. destruct (ws_forwarder s) eqn:Hfw; try apply moved_refl.
  assert (∀ q l last fw, (fw ≠ FwStopped ∧ (last = ws_last_rev s ∨ ∃ b, fw = FwDeliver b ∧ eb_revision b = last ∧ last = ws_last_rev s + 1)) →
    moved [] s (set_forward q l last fw s)) as Hset.
  { intros q l last fw [Hne Hl]. split; cbn; rewrite ?app_nil_r; try done; [|by rewrite Hfw..]. right. by rewrite Hfw. }
  destruct (ws_lagged s); [apply Hset; by auto|].
  destruct (ws_queue s) as [|b q]; [apply moved_refl|].
  destruct (eb_revision b <=? ws_last_rev s); [apply Hset; by auto|].
  destruct (Z.eqb_spec (eb_revision b) (ws_last_rev s + 1)) as [He|]; cbn [negb]; apply Hset; [|by auto].
  split; [done|]. right. by exists b.
Qed.

Lemma behind_store w bs (s : WatchStream W) :
  eb_revision <$> bs = seqZ (src_current (ws_world s) + 1) (src_current w - src_current (ws_world s)) →
  src_current (ws_world s) ≤ src_current w → behind (set_world w (ws_queue s ++ bs) s) = behind s.
Proof.
  intros Hbs Hle. unfold behind. cbn. apply (f_equal length) in Hbs. rewrite length_fmap, length_seqZ in Hbs.
  rewrite length_app, Nat2Z.inj_add, Hbs. lia.
Qed.

Lemma drop_seqZ n m k : Z.of_nat n ≤ k → drop n (seqZ m k) = seqZ (m + Z.of_nat n) (k - Z.of_nat n).
Proof.
  intros Hn. replace k with (Z.of_nat n + (k - Z.of_nat n)) at 1 by lia. rewrite seqZ_app by lia.
  rewrite drop_app_length'; [done|]. rewrite length_seqZ. lia.
Qed.

Lemma move_ok m ms s :
  base s → chain_ok (ws_world s) (m :: ms) →
  base (set_schedule [] (move m s)) ∧ moved [] s (move m s) ∧ chain_ok (ws_world (move m s)) ms.
Proof.
  intros Hb Hm. pose proof Hb as [Hg Hl Hq Hf Hc Hcov]. destruct m as [w bs|n| |]; cbn [chain_ok move] in *.
  - destruct Hm as (Hg' & Hcur & Hbs & Hfull & Hms). split_and!; [| |done].
    + split; cbn; try done; [lia|apply Forall_app; split; [by eapply batch_ok_mono|done]|].
      intros Hfl. specialize (Hfull Hfl). pose proof (behind_store w bs s Hfull Hcur) as Hbe. destruct (Hcov Hfl) as [H1 H2].
      unfold seen_upto. change (behind (set_schedule [] (set_world w (ws_queue s ++ bs) s))) with (behind (set_world w (ws_queue s ++ bs) s)).
      rewrite Hbe. cbn. split; [|done]. rewrite fmap_app, H1, Hfull, length_app, Nat2Z.inj_add, seqZ_app by lia. f_equal.
      apply (f_equal length) in Hfull. rewrite length_fmap, length_seqZ in Hfull. rewrite Hfull. unfold behind. f_equal; lia.
    + split; cbn; rewrite ?app_nil_r; try done; [apply fw_moved_refl|]. intros Hfl _. right. by apply behind_store; [apply Hfull|].
  - destruct (_ && _) eqn:Hn; cbn; [|by split_and!; [destruct Hb; split|apply moved_refl|]].
    apply andb_true_iff in Hn as [Hn1%Nat.ltb_lt Hn2%Nat.leb_le].
    split_and!; [|split; cbn; rewrite ?app_nil_r; try done; [apply fw_moved_refl|by left]|done].
    split; try done; cbn; [by apply Forall_drop|]. intros Hfl. destruct (Hcov Hfl) as [H1 _]. split; [|by left].
    unfold behind. cbn. rewrite length_drop. rewrite fmap_drop, H1, drop_seqZ by lia. unfold behind. f_equal; lia.
  - pose proof (receive_base s Hb) as Hb'. split_and!; [by destruct Hb'; split|apply receive_moved|].
    unfold take_batch. repeat case_match; done.
  - split_and!; [by split|split; cbn; rewrite ?app_nil_r; try done; [apply fw_moved_refl|by right]|done].
Qed.

Lemma base_schedule s l : base (set_schedule [] s) → chain_ok (ws_world s) (concat l) → base (set_schedule l s).
Proof. intros [] ?. by split. Qed.

Lemma moved_schedule rs s s' l l' : moved rs (set_schedule l s) (set_schedule l' s') ↔ moved rs s s'.
Proof. split; intros []; by split. Qed.

Lemma moves_ok ms : ∀ s rest,
  base (set_schedule [] s) → chain_ok (ws_world s) (ms ++ rest) →
  base (set_schedule [] (moves ms s)) ∧ moved [] s (moves ms s) ∧ chain_ok (ws_world (moves ms s)) rest.
Proof.
  induction ms as [|m ms IH]; intros s rest Hb Hc; [by split_and!; [|apply moved_refl|]|].
  change (moves (m :: ms) s) with (moves ms (move m s)).
  destruct (move_ok m (ms ++ rest) (set_schedule [] s)) as (Hb1 & Hm1 & Hc1); [done|done|].
  assert (move m (set_schedule [] s) = set_schedule [] (move m s)) as Hcom.
  { destruct m as [w bs|n| |]; try done; cbn.
    - by destruct (_ && _).
    - unfold take_batch. cbn. by repeat case_match. }
  rewrite Hcom in *. destruct (IH (move m s) rest) as (Hb2 & Hm2 & Hc2); [by destruct Hb1; split|done|].
  split_and!; [done| |done]. apply (moved_trans [] []) with (move m s); [|done]. by apply moved_schedule in Hm1.
Qed.

Lemma yield_ok s : base s → base (yield s).2 ∧ moved [] s (yield s).2 ∧ (yield s).1 = Ok ().
Proof.
  intros Hb. unfold yield. destruct (ws_schedule s) as [|ms rest] eqn:Hs; [by split_and!; [|apply moved_refl|]|].
  cbn [fst snd]. pose proof Hb as [Hg Hl Hq Hf Hc]. rewrite Hs in Hc. cbn [concat] in Hc.
  destruct (moves_ok ms (set_schedule rest s) (concat rest)) as (Hb1 & Hm1 & Hc1); [by split|done|].
  split_and!; [|by apply (moved_schedule _ _ _ (ws_schedule s) (ws_schedule (moves ms (set_schedule rest s)))) in Hm1; destruct Hm1; split|done].
  assert (∀ s, ws_schedule (moves ms s) = ws_schedule s) as Hsch.
  { clear. induction ms as [|m ms IH]; intros s; [done|].
    change (moves (m :: ms) s) with (moves ms (move m s)). rewrite IH. destruct m as [w bs|n| |]; try done; cbn.
    - by destruct (_ && _).
    - unfold take_batch. by repeat case_match. }
  destruct Hb1. split; try done. rewrite Hsch. done.
Qed.

Lemma current_ok s : base s →
  ∃ s', store_revision s = (Ok (src_current (ws_world s')), s') ∧ base s' ∧ moved [] s s'.
Proof.
  intros Hb. destruct (yield_ok s Hb) as (Hb' & Hm & Hr). unfold store_revision.
  destruct (yield s) as [r s'] eqn:Hy. cbn in *. subst r. rewrite (pbind_run _ _ _ _ _ Hy). by exists s'.
Qed.

Lemma compacted_ok s : base s →
  ∃ s', store_compacted s = (Ok (src_compact (ws_world s')), s') ∧ base s' ∧ moved [] s s'.
Proof.
  intros Hb. destruct (yield_ok s Hb) as (Hb' & Hm & Hr). unfold store_compacted.
  destruct (yield s) as [r s'] eqn:Hy. cbn in *. subst r. rewrite (pbind_run _ _ _ _ _ Hy). by exists s'.
Qed.

(** ** Sending *)

Lemma send_response_ok r s x s' :
  base s → send_response r s = (x, s') →
  base s' ∧ match x with Ok _ => moved [r] s s' | Err _ => moved [] s s' ∧ ws_closed s' = true end.
Proof.
  intros Hb. destruct (yield_ok s Hb) as (Hb' & Hm & Hr). unfold send_response.
  destruct (yield s) as [r1 s1] eqn:Hy. cbn in *. subst r1. rewrite (pbind_run _ _ _ _ _ Hy).
  rewrite (pbind_run pget _ s1 s1 s1) by done.
  destruct (ws_closed s1) eqn:Hc; intros [= <- <-]; [done|].
  split; [by destruct Hb'; split|]. destruct Hm as [Ho]. split; try done. cbn. by rewrite Ho, app_nil_r.
Qed.

Lemma send_responses_ok l : ∀ s x s',
  base s → send_all l s = (x, s') →
  base s' ∧ match x with
            | Ok _ => moved l s s'
            | Err _ => ∃ rs, rs `prefix_of` l ∧ moved rs s s' ∧ ws_closed s' = true
            end.
Proof.
  induction l as [|r l IH]; intros s x s' Hb; cbn [send_all].
  { intros [= <- <-]. split; [done|apply moved_refl]. }
  unfold pbind. destruct (send_response r s) as [[[]|e] s1] eqn:Hs.
  - apply send_response_ok in Hs as [Hb1 Hm]; [|done]. intros Hr. apply IH in Hr as [Hb2 Hr]; [|done].
    split; [done|]. destruct x as [[]|e].
    + by apply (moved_trans [r] l _ s1).
    + destruct Hr as (rs & Hp & Hm2 & Hc). exists (r :: rs). split_and!; [by apply prefix_cons|by apply (moved_trans [r] rs _ s1)|done].
  - apply send_response_ok in Hs as [Hb1 [Hm Hc]]; [|done]. intros [= <- <-]. split; [done|].
    exists []. split_and!; [apply prefix_nil|done|done].
Qed.

(** *** Fragments *)

(** A part of more than one event is under the limit. *)
Definition part_fits (empty : WatchResponse) (evs : list PbEvent) : Prop :=
  (length evs ≤ 1)%nat ∨ encoded_len (set_events evs empty) < max_bytes.

Lemma take_fragment_ok empty events : ∀ cur,
  part_fits empty cur →
  let '(a, rest) := take_fragment max_bytes encoded_len empty cur events in
  a ++ rest = cur ++ events ∧ part_fits empty a ∧ (length rest ≤ length events)%nat ∧
  (cur = [] → events ≠ [] → a ≠ [] ∧ (length rest < length events)%nat).
Proof.
  induction events as [|ev events IH]; intros cur Hfit; cbn [take_fragment]; [by split_and!|].
  destruct (_ && _) eqn:Hc.
  - split_and!; [done|done|done|]. intros -> _. cbn in Hc. done.
  - specialize (IH (cur ++ [ev])). destruct (take_fragment _ _ empty (cur ++ [ev]) events) as [a rest].
    destruct IH as (Ha & Hf & Hl & _).
    { apply andb_false_iff in Hc as [Hc%Nat.ltb_ge|Hc%Z.leb_gt]; [by left|by right]. }
    rewrite <- app_assoc in Ha. split_and!; [done|done|cbn; lia|]. intros -> _. cbn in *.
    split; [|lia]. intros ->. cbn in Ha. apply (f_equal length) in Ha. cbn in Ha. lia.
Qed.

Lemma fragment_loop_ok fuel empty events :
  (length events ≤ fuel)%nat → wr_events empty = [] →
  let parts := fragment_loop max_bytes encoded_len fuel empty events in
  concat (wr_events <$> parts) = events ∧
  Forall (λ p, set_fragment (wr_fragment empty) (set_events [] p) = empty ∧ wr_events p ≠ [] ∧
               part_fits empty (wr_events p)) parts ∧
  ∀ i p, parts !! i = Some p → wr_fragment p = negb (S i =? length parts)%nat.
Proof.
  revert events. induction fuel as [|fuel IH]; intros events Hf He; cbv zeta.
  { destruct events; [by split_and!|cbn in Hf; lia]. }
  destruct events as [|ev events]; [by split_and!|]. cbn [fragment_loop].
  pose proof (take_fragment_ok empty (ev :: events) []) as Ht.
  destruct (take_fragment _ _ empty [] (ev :: events)) as [a rest]. destruct Ht as (Ha & Hfit & _ & Hne); [left; cbn; lia|].
  destruct Hne as [Hane Hlen]; [done|done|]. cbn [length] in *.
  destruct (IH rest) as (IH1 & IH2 & IH3); [lia|done|]. cbn [app] in Ha.
  split_and!.
  - cbn [fmap list_fmap concat]. rewrite IH1. exact Ha.
  - constructor; [|done]. cbn. split_and!; [|done|done]. destruct empty. cbn in *. by subst.
  - intros [|i] p Hp; cbn in Hp.
    + injection Hp as <-. cbn. destruct rest as [|x rest]; [by destruct fuel|].
      destruct (fragment_loop max_bytes encoded_len fuel empty (x :: rest)) eqn:Hl; [|done].
      cbn in IH1. done.
    + rewrite (IH3 i p Hp). done.
Qed.


Lemma fragments_for id resp :
  events_for id resp →
  Forall (events_for id) (fragments max_bytes encoded_len resp) ∧
  concat (wr_events <$> fragments max_bytes encoded_len resp) = wr_events resp.
Proof.
  intros Hr. unfold fragments. destruct (_ || _).
  { cbn. rewrite app_nil_r. split; [by constructor|done]. }
  destruct (fragment_loop_ok (length (wr_events resp)) (set_fragment true (set_events [] resp)) (wr_events resp))
    as (H1 & H2 & _); [done|done|]. split; [|done].
  eapply Forall_impl; [exact H2|]. intros p (Hs & _). destruct Hr as (R1 & R2 & R3), p, resp. cbn in *.
  unfold set_fragment, set_events in Hs. cbn in Hs. injection Hs as -> -> -> -> -> ->. by split_and!.
Qed.

Lemma sent_cores_concat rs : sent_cores rs = pb_core <$> concat (wr_events <$> rs).
Proof. unfold sent_cores. induction rs as [|r rs IH]; [done|]. cbn [fmap list_fmap concat]. by rewrite fmap_app, IH. Qed.

Lemma sent_cores_app a b : sent_cores (a ++ b) = sent_cores a ++ sent_cores b.
Proof. unfold sent_cores. by rewrite fmap_app, concat_app. Qed.

(** What a program that sends events on a watch id does: [evs] of them, or
    some before the client went. *)
Definition sends_for (id : Z) (evs : list PbEvent) (s : WatchStream W) (x : result () ()) (s' : WatchStream W) : Prop :=
  base s' ∧ ∃ rs, moved rs s s' ∧ Forall (events_for id) rs ∧
    match x with Ok _ => sent_cores rs = pb_core <$> evs | Err _ => ws_closed s' = true end.

Lemma sends_for_cons id evs1 evs2 s s1 x s' :
  sends_for id evs1 s (Ok ()) s1 → sends_for id evs2 s1 x s' → sends_for id (evs1 ++ evs2) s x s'.
Proof.
  intros (_ & rs1 & Hm1 & Hf1 & He1) (Hb & rs2 & Hm2 & Hf2 & He2). split; [done|]. exists (rs1 ++ rs2).
  split_and!; [by eapply moved_trans|by apply Forall_app|].
  destruct x; [|done]. by rewrite sent_cores_app, He1, He2, fmap_app.
Qed.

Lemma send_events_ok fragment header id evs s x s' :
  base s → send_events max_bytes encoded_len fragment (events_response header id evs) s = (x, s') →
  sends_for id evs s x s'.
Proof.
  intros Hb. unfold send_events. assert (events_for id (events_response header id evs)) as Hfor by done. destruct fragment.
  - intros Hs. apply send_responses_ok in Hs as [Hb' Hs]; [|done]. destruct (fragments_for id _ Hfor) as [Hf He].
    split; [done|]. destruct x as [[]|[]].
    + eexists. split_and!; [exact Hs|done|]. by rewrite sent_cores_concat, He.
    + destruct Hs as (rs & [l Hp] & Hm & Hc). exists rs. split_and!; [done| |done].
      rewrite Hp in Hf. by apply Forall_app in Hf as [? _].
  - intros Hs. apply send_response_ok in Hs as [Hb' Hs]; [|done]. split; [done|]. destruct x as [[]|[]].
    + eexists. split_and!; [exact Hs|by constructor|]. cbn. by rewrite app_nil_r.
    + destruct Hs as [Hm Hc]. exists []. by split_and!.
Qed.

Lemma replay_loop_ok w id header events : ∀ chunk n rev s x s',
  base s → replay_loop max_bytes encoded_len w id header events chunk n rev s = (x, s') →
  sends_for id (chunk ++ (to_pb w <$> base.filter (λ e, passes_filter w e = true) events)) s x s'.
Proof.
  induction events as [|e events IH]; intros chunk n rev s x s' Hb; cbn [replay_loop].
  { cbn. rewrite app_nil_r. destruct chunk as [|c chunk]; [|by apply send_events_ok].
    intros [= <- <-]. split; [done|]. exists []. split_and!; [apply moved_refl|done|done]. }
  rewrite filter_cons. destruct (passes_filter w e); [|rewrite decide_False by done; by apply IH].
  rewrite decide_True by done. cbv zeta. rewrite fmap_cons.
  destruct (_ && _).
  - unfold pbind. destruct (send_events _ _ _ _ s) as [[[]|[]] s1] eqn:Hs; apply send_events_ok in Hs; try done.
    + intros Hr. apply IH in Hr; [|apply Hs]. eapply sends_for_cons; [exact Hs|exact Hr].
    + intros [= <- <-]. destruct Hs as (Hb1 & rs & Hm & Hf & Hc). split; [done|]. by exists rs.
  - intros Hr. apply IH in Hr; [|done]. by rewrite <- app_assoc in Hr.
Qed.

(** The history of a watcher up to [upto], the revision it was caught up to
    when it was read. *)
Lemma replay_history_ok id w upto s x s' :
  base s → upto ≤ src_current (ws_world s) →
  replay_history max_bytes encoded_len id w upto s = (x, s') →
  base s' ∧ ∃ rs, moved rs s s' ∧ Forall (events_for id) rs ∧
    match x with
    | Ok ReplayDone => sent_cores rs = selected w (hist H (w_next_rev w) (upto + 1))
    | Ok _ => rs = []
    | Err _ => ws_closed s' = true
    end.
Proof.
  intros Hb Hup. unfold replay_history. destruct (Z.ltb_spec upto (w_next_rev w)).
  { intros [= <- <-]. split; [done|]. exists []. split_and!; [apply moved_refl|done|]. by rewrite hist_empty by lia. }
  destruct (compacted_ok s Hb) as (s1 & Hc & Hb1 & Hm1). rewrite (pbind_run _ _ _ _ _ Hc).
  destruct (_ <? _).
  { intros [= <- <-]. split; [done|]. exists []. by split_and!. }
  destruct (yield_ok s1 Hb1) as (Hb2 & Hm2 & Hr2). destruct (yield s1) as [r2 s2] eqn:Hy. cbn in Hb2, Hm2, Hr2. subst r2.
  rewrite (pbind_run _ _ _ _ _ Hy), (pbind_run pget _ s2 s2 s2) by done.
  pose proof (moved_trans _ _ _ _ _ Hm1 Hm2) as Hm. cbn [app] in Hm.
  destruct (src_events_until _ _ _ _ _) as [evs|e] eqn:He.
  - apply (src_exact _ _ _ _ _ _ (bs_good _ Hb2)) in He.
    unfold pbind. destruct (replay_loop _ _ w id upto evs [] 0 0 s2) as [y s3] eqn:Hl.
    apply replay_loop_ok in Hl as (Hb3 & rs & Hm3 & Hf & Hs); [|done]. cbn [app] in Hs.
    pose proof (moved_trans _ _ _ _ _ Hm Hm3) as Hm13. cbn [app] in Hm13.
    destruct y as [[]|[]]; intros [= <- <-]; (split; [done|]); exists rs; split_and!; try done.
    rewrite Hs, pb_cores_of, He, selected_passes. f_equal.
    replace (Z.min (src_current (ws_world s2)) upto) with upto; [by replace (w_next_rev w - 1 + 1) with (w_next_rev w) by lia|].
    pose proof (mv_cur _ _ _ Hm). lia.
  - destruct e; intros [= <- <-]; (split; [done|]); exists []; by split_and!.
Qed.
End inv.
