(* ===== verification/WatchExact.v ===== *)
(** * Watches are exact

    The invariant of a watch stream, kept by every operation of its tasks in
    any order and whatever happens while they wait; and that a client is told
    of every watch that ends. *)

From S2P Require Import Prelude Revision Record KvStore Lease Cache Auth Store RangeOptions Conv Watch WatchInv.

(** ** Responses that neither open nor end a watch *)

Definition quiet (r : WatchResponse) : Prop := wr_created r = false ∧ wr_canceled r = false.

Definition sent_to (id : Z) (rs : list WatchResponse) : list (EventKind * KeyValue) :=
  sent_cores (base.filter (λ r, wr_watch_id r = id) rs).

Lemma events_for_quiet id rs : Forall (events_for id) rs → Forall quiet rs.
Proof. intros Hr. eapply Forall_impl; [exact Hr|]. by intros r (_ & ? & ?). Qed.

Lemma delivered_quiet out id rs :
  Forall quiet rs → delivered (out ++ rs) id = delivered out id ++ sent_to id rs.
Proof.
  intros Hrs. unfold delivered. rewrite foldl_app. generalize (foldl (delivered_step id) [] out) as acc.
  induction Hrs as [|r rs [Hc Hx] _ IH]; intros acc; [by rewrite app_nil_r|].
  unfold sent_to in *. cbn [foldl]. rewrite IH, filter_cons. unfold delivered_step. rewrite Hc.
  destruct (Z.eqb_spec (wr_watch_id r) id) as [Heq|Hne].
  - rewrite decide_True by done. unfold sent_cores. cbn [fmap list_fmap concat]. by rewrite app_assoc.
  - by rewrite decide_False by done.
Qed.

Lemma open_quiet out id rs : Forall quiet rs → open_in (out ++ rs) id = open_in out id.
Proof.
  intros Hrs. unfold open_in. rewrite foldl_app. generalize (foldl (open_step id) false out) as acc.
  induction Hrs as [|r rs [Hc Hx] _ IH]; intros acc; [done|]. cbn [foldl]. rewrite IH. unfold open_step.
  rewrite Hc, Hx. by destruct (_ =? _).
Qed.

Lemma sent_to_for id id' rs :
  Forall (events_for id') rs → sent_to id rs = if id' =? id then sent_cores rs else [].
Proof.
  intros Hrs. unfold sent_to. destruct (Z.eqb_spec id' id) as [->|Hne].
  - rewrite filter_all; [done|]. intros r Hr. rewrite Forall_forall in Hrs. by apply Hrs.
  - rewrite filter_none; [done|]. intros r Hr. rewrite Forall_forall in Hrs. destruct (Hrs r Hr) as (-> & _). done.
Qed.

Lemma sent_to_app id a b : sent_to id (a ++ b) = sent_to id a ++ sent_to id b.
Proof. unfold sent_to. by rewrite filter_app, sent_cores_app. Qed.

Lemma delivered_snoc out id r :
  delivered (out ++ [r]) id = delivered_step id (delivered out id) r.
Proof. unfold delivered. by rewrite foldl_app. Qed.
Lemma open_snoc out id r : open_in (out ++ [r]) id = open_step id (open_in out id) r.
Proof. unfold open_in. by rewrite foldl_app. Qed.

Section exact.
Context {W : Type} `{SRC : WatchSource W} (H : Z → list core) (good : W → Prop) `{!WatchHistory W H good}.
Variable max_bytes : Z.
Variable encoded_len : WatchResponse → Z.
Variable full : Prop.
Abbreviation base := (base H good full).
Abbreviation moved := (moved (W := W) full).

(** ** The invariant *)

(** The cursor is past what the stream has accounted for, or at the batch the
    forwarder is about to deliver. *)
Definition cursor_ok (s : WatchStream W) (w : Watcher) : Prop :=
  ws_last_rev s < w_next_rev w ∨
  ∃ b, ws_forwarder s = FwDeliver b ∧ eb_revision b = ws_last_rev s ∧ w_next_rev w = ws_last_rev s.

(** [starts] has where each watch began. *)
Record winv (s : WatchStream W) (starts : gmap Z Z) : Prop := {
  wi_base : base s;
  wi_cursor id w : ws_watchers s !! id = Some w → 0 < id ∧ cursor_ok s w;
  wi_sent id w : ws_watchers s !! id = Some w →
    ∃ start, starts !! id = Some start ∧ start ≤ w_next_rev w ∧
      delivered (ws_out s) id = selected w (hist H start (w_next_rev w));
  wi_open id w : ws_watchers s !! id = Some w → open_in (ws_out s) id = true;
  wi_known id : ws_closed s = false → open_in (ws_out s) id = true →
    is_Some (ws_watchers s !! id) ∨ ∃ c r, ws_inbound s = InCancel id c r;
  wi_inbound :
    match ws_inbound s with
    | InCancel id _ _ => ws_watchers s !! id = None
    | InSend r => wr_canceled r = true ∧ ws_watchers s !! wr_watch_id r = None
    | _ => True
    end;
  wi_auto : 0 ≤ ws_next_auto_id s
}.

Lemma cursor_moved rs s s' w : moved rs s s' → cursor_ok s w → cursor_ok s' w.
Proof.
  intros Hm Hc. unfold cursor_ok in *. destruct (mv_fw _ _ _ _ Hm) as [[-> ->]|(Hi & Hne & Hl)]; [done|].
  destruct Hc as [Hc|(b & Hf & _)]; [|congruence].
  destruct Hl as [->|(b & Hb & Hr & Hl)]; [by left|].
  destruct (decide (ws_last_rev s' < w_next_rev w)); [by left|]. right. exists b. split_and!; [done|done|lia].
Qed.

(** What changes nothing of the watches. *)
Lemma winv_moved rs s s' starts :
  winv s starts → base s' → moved rs s s' →
  (∀ id, is_Some (ws_watchers s !! id) →
     delivered (ws_out s ++ rs) id = delivered (ws_out s) id ∧ open_in (ws_out s ++ rs) id = open_in (ws_out s) id) →
  (∀ id, ws_closed s' = false → open_in (ws_out s ++ rs) id = true → open_in (ws_out s) id = true) →
  winv s' starts.
Proof.
  intros [] Hb Hm Hsame Hopen. pose proof Hm as [Ho Hw Ha Hi Hc Hcl Hf _ _]. split; rewrite ?Hw, ?Ho, ?Ha, ?Hi; try done.
  - intros id w Hl. destruct (wi_cursor0 id w Hl). split; [done|]. by eapply cursor_moved.
  - intros id w Hl. destruct (Hsame id) as [-> _]; [by eauto|]. by apply wi_sent0.
  - intros id w Hl. destruct (Hsame id) as [_ ->]; [by eauto|]. by eapply wi_open0.
  - intros id Hcl' Hop. apply wi_known0; [|by apply Hopen].
    destruct (ws_closed s); [|done]. by rewrite Hcl in Hcl'.
Qed.

Lemma winv_quiet rs s s' starts :
  winv s starts → base s' → moved rs s s' → Forall quiet rs →
  (∀ id, is_Some (ws_watchers s !! id) → sent_to id rs = []) → winv s' starts.
Proof.
  intros Hi Hb Hm Hq Hs. eapply winv_moved; [done..| |].
  - intros id Hid. rewrite delivered_quiet, open_quiet, (Hs id Hid), app_nil_r by done. done.
  - intros id _. by rewrite open_quiet.
Qed.

Lemma winv_nothing s s' starts : winv s starts → base s' → moved [] s s' → winv s' starts.
Proof. intros. by eapply winv_quiet. Qed.

(** What is left of a stream whose client went. *)
Record stoppable (s : WatchStream W) : Prop := {
  sp_base : base s;
  sp_closed : ws_closed s = true;
  sp_inbound r : ws_inbound s = InSend r → wr_canceled r = true;
  sp_auto : 0 ≤ ws_next_auto_id s
}.

Lemma stoppable_of s s' starts :
  winv s starts → base s' → ws_closed s' = true → ws_inbound s' = ws_inbound s → ws_next_auto_id s' = ws_next_auto_id s →
  stoppable s'.
Proof.
  intros Hi Hb Hc Hin Ha. split; [done|done| |rewrite Ha; apply Hi].
  intros r Hr. pose proof (wi_inbound _ _ Hi) as Hx. rewrite <- Hin, Hr in Hx. by destruct Hx.
Qed.

(** ** Delivering a batch *)

Definition evs_for (id : Z) (l : list (Z * bool * list PbEvent)) : list (EventKind * KeyValue) :=
  concat ((λ x : Z * bool * list PbEvent, if x.1.1 =? id then pb_core <$> x.2 else []) <$> l).

Lemma send_deliveries_ok rev l : ∀ s x s',
  base s → send_deliveries max_bytes encoded_len rev l s = (x, s') →
  base s' ∧ ∃ rs, moved rs s s' ∧ Forall quiet rs ∧
    match x with
    | Ok _ => ∀ id, sent_to id rs = evs_for id l
    | Err _ => ws_closed s' = true
    end.
Proof.
  induction l as [|[[id fragment] evs] l IH]; intros s x s' Hb; cbn [send_deliveries].
  { intros [= <- <-]. split; [done|]. exists []. by split_and!; [apply moved_refl|..]. }
  unfold pbind. destruct (send_events _ _ _ _ s) as [[[]|[]] s1] eqn:Hs;
    apply (send_events_ok H good _ _ full) in Hs as (Hb1 & rs1 & Hm1 & Hf1 & He1); try done.
  - intros Hr. apply IH in Hr as (Hb2 & rs2 & Hm2 & Hq2 & He2); [|done]. split; [done|]. exists (rs1 ++ rs2).
    split_and!; [by eapply moved_trans|apply Forall_app; split; [by eapply events_for_quiet|done]|].
    destruct x; [|done]. intros id'. rewrite sent_to_app, He2, (sent_to_for _ id) by done.
    unfold evs_for. cbn [fmap list_fmap concat fst snd]. by rewrite He1.
  - intros [= <- <-]. split; [done|]. exists rs1. split_and!; [done|by eapply events_for_quiet|done].
Qed.

Lemma evs_for_deliveries batch (l : list (Z * Watcher)) id :
  NoDup l.*1 →
  evs_for id (omap (λ x : Z * Watcher,
    match (deliver_one batch x.2).2 with [] => None | evs => Some (x.1, w_fragment x.2, evs) end) l)
  = match list_to_map (M := gmap Z Watcher) l !! id with Some w => pb_core <$> (deliver_one batch w).2 | None => [] end.
Proof.
  induction l as [|[i w] l IH]; intros Hnd; [done|]. rewrite fmap_cons in Hnd. apply NoDup_cons in Hnd as [Hni Hnd].
  specialize (IH Hnd). cbn [omap list_omap list_to_map foldr fst snd]. cbn [fst] in Hni.
  change (foldr (λ p : Z * Watcher, <[p.1:=p.2]>) ∅ l) with (list_to_map (M := gmap Z Watcher) l) in *.
  destruct (decide (i = id)) as [->|Hne].
  - rewrite lookup_insert_eq. rewrite not_elem_of_list_to_map_1 in IH by done.
    destruct (deliver_one batch w).2 as [|ev evs] eqn:Hd; [exact IH|].
    unfold evs_for in *. cbn [fmap list_fmap concat fst snd]. rewrite Z.eqb_refl. etrans; [|apply app_nil_r]. f_equal. exact IH.
  - rewrite lookup_insert_ne by done. rewrite <- IH.
    destruct (deliver_one batch w).2 as [|ev evs] eqn:Hd; [done|].
    unfold evs_for. cbn [fmap list_fmap concat fst snd]. by rewrite (proj2 (Z.eqb_neq _ _) Hne).
Qed.

Lemma deliveries_for batch ws id :
  evs_for id (deliveries batch ws)
  = match ws !! id with Some w => pb_core <$> (deliver_one batch w).2 | None => [] end.
Proof.
  unfold deliveries. rewrite evs_for_deliveries by apply NoDup_fst_map_to_list. by rewrite list_to_map_to_list.
Qed.

(** A batch at the cursor is the next revision of the history. *)
Lemma deliver_one_exact batch s w start acc :
  ws_forwarder s = FwDeliver batch → fw_ok H (ws_forwarder s) (ws_last_rev s) → cursor_ok s w →
  start ≤ w_next_rev w → acc = selected w (hist H start (w_next_rev w)) →
  let '(w', evs) := deliver_one batch w in
  ws_last_rev s < w_next_rev w' ∧ start ≤ w_next_rev w' ∧
  acc ++ (pb_core <$> evs) = selected w' (hist H start (w_next_rev w')).
Proof.
  intros Hf Hok Hc Hst ->. rewrite Hf in Hok. destruct Hok as [Hev Hle]. unfold deliver_one.
  destruct (Z.ltb_spec (eb_revision batch) (w_next_rev w)) as [Hlt|Hge].
  - rewrite app_nil_r. split_and!; [|done|done]. destruct Hc as [?|(b & Hb & Hr & Hn)]; [done|].
    rewrite Hf in Hb. injection Hb as <-. lia.
  - assert (w_next_rev w = eb_revision batch ∧ eb_revision batch = ws_last_rev s) as [Hn Hl].
    { destruct Hc as [?|(b & Hb & Hr & Hn)]; [lia|]. rewrite Hf in Hb. injection Hb as <-. lia. }
    cbn [w_next_rev set_next_rev]. split_and!; [lia|lia|].
    rewrite pb_cores_live, Hev, selected_next, Hn, <- selected_app, <- (hist_one H (eb_revision batch)), <- hist_split by lia.
    done.
Qed.

Lemma deliver_winv batch s starts x s' :
  winv s starts → ws_forwarder s = FwDeliver batch → deliver max_bytes encoded_len batch s = (x, s') →
  match x with
  | Ok _ => winv (set_forward (ws_queue s') (ws_lagged s') (ws_last_rev s') FwIdle s') starts
  | Err _ => stoppable s'
  end.
Proof.
  intros Hi Hf. unfold deliver. rewrite (pbind_run pget _ s s s) by done. cbv zeta.
  erewrite pbind_run by reflexivity. cbv beta. set (s1 := set_watchers _ s). intros Hs.
  assert (base s1) as Hb1 by (destruct (wi_base _ _ Hi); by split).
  apply send_deliveries_ok in Hs as (Hb & rs & Hm & Hq & He); [|done].
  pose proof Hm as [Ho Hw Ha Hin Hcur Hcl Hfw Hlg Hbe]. cbn in Ho, Hw, Ha, Hin, Hcur, Hcl, Hfw.
  destruct x as [[]|[]]; [|by eapply stoppable_of].
  assert (ws_forwarder s' = FwDeliver batch ∧ ws_last_rev s' = ws_last_rev s) as [Hf' Hl'].
  { destruct Hfw as [[-> ->]|(Hx & _)]; [done|]. congruence. }
  assert (∀ id w', ws_watchers s' !! id = Some w' → ∃ w start, ws_watchers s !! id = Some w ∧ w' = (deliver_one batch w).1 ∧
    ws_last_rev s < w_next_rev w' ∧ starts !! id = Some start ∧ start ≤ w_next_rev w' ∧
    delivered (ws_out s') id = selected w' (hist H start (w_next_rev w'))) as Hall.
  { intros id w' Hl. rewrite Hw, lookup_fmap in Hl. destruct (ws_watchers s !! id) as [w|] eqn:Hwl; [|done].
    cbn in Hl. injection Hl as <-. destruct (wi_sent _ _ Hi id w Hwl) as (start & Hst & Hle & Hd).
    destruct (wi_cursor _ _ Hi id w Hwl) as [_ Hc].
    pose proof (deliver_one_exact batch s w start _ Hf (bs_fw _ _ _ _ (wi_base _ _ Hi)) Hc Hle Hd) as Hx.
    exists w, start. rewrite Ho, delivered_quiet, He, deliveries_for, Hwl by done.
    destruct (deliver_one batch w) as [w' evs]. cbn [fst snd] in *. destruct Hx as (Hx1 & Hx2 & Hx3). by split_and!. }
  assert (∀ id, is_Some (ws_watchers s' !! id) ↔ is_Some (ws_watchers s !! id)) as Hdom.
  { intros id. by rewrite Hw, lookup_fmap, fmap_is_Some. }
  split; cbn [set_forward ws_watchers ws_out ws_closed ws_inbound ws_next_auto_id ws_last_rev ws_forwarder].
  - destruct Hb as [? ? ? ? ? Hcov]. split; try done. intros Hfl. destruct (Hcov Hfl) as [H1 H2]. split; [done|].
    destruct H2 as [?|[?|[?|?]]]; [by left|congruence|congruence|by right; right; right].
  - intros id w' Hl. destruct (Hall id w' Hl) as (w & start & Hwl & _ & Hlt & _).
    split; [by apply (wi_cursor _ _ Hi id w Hwl)|]. left. cbn. lia.
  - intros id w' Hl. destruct (Hall id w' Hl) as (w & start & _ & _ & _ & Hst). exists start. tauto.
  - intros id w' Hl. destruct (Hall id w' Hl) as (w & start & Hwl & _). rewrite Ho, open_quiet by done. by eapply wi_open.
  - intros id Hc Hop. rewrite Ho, open_quiet in Hop by done. rewrite Hdom, Hin. apply (wi_known _ _ Hi); [|done].
    destruct (ws_closed s); [|done]. by rewrite Hcl in Hc.
  - pose proof (wi_inbound _ _ Hi) as Hx. rewrite Hin.
    destruct (ws_inbound s); try done; rewrite Hw, lookup_fmap; [destruct Hx as [? ->]|rewrite Hx]; done.
  - rewrite Ha. apply (wi_auto _ _ Hi).
Qed.

(** ** Catching up *)

(** The broadcast lags or the queue is without no more than before. *)
Definition no_further (s s' : WatchStream W) : Prop :=
  (ws_lagged s = true → ws_lagged s' = true) ∧ (full → ws_lagged s' = true ∨ behind s' = behind s).

Lemma no_further_refl s : no_further s s.
Proof. split; [done|by right]. Qed.

Lemma no_further_trans s s1 s2 : no_further s s1 → no_further s1 s2 → no_further s s2.
Proof.
  intros [Ha Hb] [Hc Hd]. split; [auto|]. intros Hf.
  destruct (Hb Hf) as [?|Heq]; [left; by auto|]. rewrite <- Heq. by apply Hd.
Qed.

Lemma no_further_moved rs s s' : moved rs s s' → ws_forwarder s ≠ FwIdle → no_further s s'.
Proof. intros Hm Hne. split; [by eapply mv_lagged|]. intros Hf. by eapply mv_behind. Qed.

(** One watcher, caught up to [upto]. *)
Lemma caught_up id w upto rs s s1 starts :
  winv s starts → base s1 → moved rs s s1 → ws_watchers s !! id = Some w →
  ws_last_rev s1 ≤ upto → w_next_rev w ≤ upto →
  Forall (events_for id) rs → sent_cores rs = selected w (hist H (w_next_rev w) (upto + 1)) →
  winv (set_watchers (<[id := set_next_rev (upto + 1) w]> (ws_watchers s1)) s1) starts.
Proof.
  intros Hi Hb Hm Hwl Hlast Hnext Hf Hs. pose proof Hm as [Ho Hw Ha Hin Hcur Hcl Hfw Hlg Hbe].
  pose proof (events_for_quiet _ _ Hf) as Hq.
  split; cbn [set_watchers ws_watchers ws_out ws_closed ws_inbound ws_next_auto_id]; rewrite ?Hw, ?Ho, ?Ha, ?Hin.
  - destruct Hb. by split.
  - intros id' w'. rewrite lookup_insert_Some. intros [[<- <-]|[Hne Hl]].
    + split; [by apply (wi_cursor _ _ Hi id w)|]. left. cbn. lia.
    + destruct (wi_cursor _ _ Hi id' w' Hl) as [? Hc]. split; [done|]. apply (cursor_moved _ _ _ _ Hm) in Hc. exact Hc.
  - intros id' w'. rewrite delivered_quiet, (sent_to_for _ id), lookup_insert_Some by done. intros [[<- <-]|[Hne Hl]].
    + destruct (wi_sent _ _ Hi id w Hwl) as (start & Hst & Hle & Hd). exists start. cbn [w_next_rev set_next_rev].
      split_and!; [done|lia|]. rewrite Z.eqb_refl, Hd, Hs, selected_next, <- selected_app, <- hist_split by lia. done.
    + rewrite (proj2 (Z.eqb_neq _ _) Hne), app_nil_r. by apply (wi_sent _ _ Hi).
  - intros id' w'. rewrite open_quiet, lookup_insert_Some by done. intros [[<- _]|[_ Hl]]; by eapply wi_open.
  - intros id' Hc Hop. rewrite open_quiet in Hop by done. rewrite lookup_insert_is_Some'.
    destruct (wi_known _ _ Hi id') as [?|?]; [|done|by left; right|by right].
    destruct (ws_closed s); [|done]. by rewrite Hcl in Hc.
  - pose proof (wi_inbound _ _ Hi) as Hx.
    destruct (ws_inbound s); try done; [destruct Hx as [? Hx]; split; [done|]|]; rewrite lookup_insert_ne; try done; congruence.
  - apply (wi_auto _ _ Hi).
Qed.

Lemma elem_of_ids (cs : list (Z * Z * CancelReason)) id c r : (id, c, r) ∈ cs → id ∈ cs.*1.*1.
Proof. intros Hin. by do 2 apply (list_elem_of_fmap_2 fst) in Hin. Qed.

(** The loop of [resync] over the watchers [l] of the stream. *)
Lemma resync_loop_winv upto l : ∀ cancelled s starts x s',
  winv s starts → ws_forwarder s = FwResync → ws_last_rev s ≤ upto ≤ src_current (ws_world s) →
  NoDup l.*1 → (∀ y, y ∈ l → ws_watchers s !! y.1 = Some y.2) →
  resync_loop max_bytes encoded_len l upto cancelled s = (x, s') →
  match x with
  | Ok cancelled' => winv s' starts ∧ ws_forwarder s' = FwResync ∧ ws_last_rev s' = ws_last_rev s ∧
      (src_current (ws_world s) ≤ src_current (ws_world s') ∧ no_further s s') ∧
      (∀ y, y ∈ cancelled → y ∈ cancelled') ∧
      dom (ws_watchers s') = dom (ws_watchers s) ∧
      (∀ id, id ∉ l.*1 → ws_watchers s' !! id = ws_watchers s !! id) ∧
      ∀ id w, id ∈ l.*1 → ws_watchers s' !! id = Some w → upto < w_next_rev w ∨ id ∈ cancelled'.*1.*1
  | Err _ => stoppable s'
  end.
Proof.
  induction l as [|[id w] l IH]; intros cancelled s starts x s' Hi Hfw Hup Hnd Hin; cbn [resync_loop].
  { intros [= <- <-]. split_and!; try done; [apply no_further_refl|]. by intros id w ?%elem_of_nil. }
  rewrite fmap_cons in Hnd. apply NoDup_cons in Hnd as [Hni Hnd]. cbn [fst] in Hni.
  assert (ws_watchers s !! id = Some w) as Hwl by (apply (Hin (id, w)); by left).
  assert (∀ s1 : WatchStream W, ws_watchers s1 = ws_watchers s → ∀ y, y ∈ l → ws_watchers s1 !! y.1 = Some y.2) as Hin'.
  { intros s1 -> y Hy. apply Hin. by right. }
  destruct (Z.ltb_spec upto (w_next_rev w)) as [Hlt|Hge].
  { intros Hr. apply (IH _ _ starts) in Hr; [|done..|by apply Hin']. destruct x as [cs|[]]; [|done].
    destruct Hr as (H1 & H2 & H3 & [H4 H4'] & H5 & H6 & H7 & H8). split_and!; try done.
    - intros id' Hid'. apply H7. set_solver.
    - intros id' w'. rewrite fmap_cons, elem_of_cons. intros [->|?] Hl; [|by apply H8].
      cbn [fst] in *. rewrite H7, Hwl in Hl by done. injection Hl as <-. by left. }
  unfold pbind at 1. destruct (replay_history _ _ id w upto s) as [y s1] eqn:Hh.
  apply (replay_history_ok H good _ _ full) in Hh as (Hb1 & rs & Hm & Hf & Hs); [|apply Hi|lia].
  pose proof Hm as [Ho Hw Ha Hinb Hcur Hcl Hfwm Hlg Hbe].
  assert (no_further s s1) as Hno by (eapply no_further_moved; [exact Hm|by rewrite Hfw]).
  assert (ws_forwarder s1 = FwResync ∧ ws_last_rev s1 = ws_last_rev s) as [Hf1 Hl1].
  { destruct Hfwm as [[-> ->]|(Hx & _)]; [done|congruence]. }
  destruct y as [[|c|e]|[]].
  2,3: subst rs; intros Hr; apply (IH _ _ starts) in Hr; [|by eapply winv_nothing|done|lia|done|by apply Hin'].
  2,3: destruct x as [cs|[]]; [|done].
  2,3: destruct Hr as (H1 & H2 & H3 & [H4 H4'] & H5 & H6 & H7 & H8); rewrite Hw in *; split_and!; try done;
    [congruence|lia|by eapply no_further_trans|intros z Hz; apply H5; set_solver|intros id' Hid'; apply H7; set_solver|].
  2,3: intros id' w'; rewrite fmap_cons, elem_of_cons; intros [->|?] Hl; [|by apply H8]; right;
    eapply elem_of_ids, H5, elem_of_app; right; apply list_elem_of_singleton; reflexivity.
  - erewrite pbind_run by reflexivity. cbv beta. set (s2 := set_watchers _ s1). intros Hr.
    assert (winv s2 starts) as Hi2 by (eapply (caught_up id w upto rs s s1); [done..|lia|lia|done|done]).
    apply (IH _ _ starts) in Hr; [|done|done|cbn; lia|done|].
    2:{ intros y Hy. cbn. rewrite Hw, lookup_insert_ne; [apply Hin; by right|].
        intros ->. apply Hni. by apply list_elem_of_fmap_2. }
    destruct x as [cs|[]]; [|done].
    destruct Hr as (H1 & H2 & H3 & [H4 H4'] & H5 & H6 & H7 & H8). cbn in H3, H4, H6.
    split_and!; try done; [congruence|lia|by apply (no_further_trans s s1 s')| | |].
    + rewrite H6, dom_insert_L, Hw. apply elem_of_dom_2 in Hwl. set_solver.
    + intros id' Hid'. rewrite fmap_cons, not_elem_of_cons in Hid'. destruct Hid' as [Hne Hid']. cbn [fst] in Hne.
      rewrite H7 by done. cbn. by rewrite lookup_insert_ne, Hw by done.
    + intros id' w'. rewrite fmap_cons, elem_of_cons. intros [->|?] Hl; [|by apply H8].
      cbn [fst] in *. rewrite H7 in Hl by done. cbn in Hl. rewrite lookup_insert_eq in Hl. injection Hl as <-. left. cbn. lia.
  - intros [= <- <-]. by eapply stoppable_of.
Qed.

(** A cancel response ends a watch the stream has let go of. *)
Lemma ended id rs r s s1 starts :
  winv s starts → base s1 → moved (rs ++ [r]) (set_watchers (delete id (ws_watchers s)) s) s1 → rs = [] →
  wr_watch_id r = id → wr_canceled r = true → wr_events r = [] →
  winv s1 starts.
Proof.
  intros Hi Hb Hm -> Hid Hc He. cbn [app] in Hm. pose proof Hm as [Ho Hw Ha Hin Hcur Hcl Hfw Hlg Hbe]. cbn in Ho, Hw, Ha, Hin, Hcl.
  split; rewrite ?Hw, ?Ho, ?Ha, ?Hin; [done|..].
  - intros id' w'. rewrite lookup_delete_Some. intros [Hne Hl].
    destruct (wi_cursor _ _ Hi id' w' Hl) as [? Hx]. split; [done|]. by apply (cursor_moved _ _ _ _ Hm) in Hx.
  - intros id' w'. rewrite lookup_delete_Some. intros [Hne Hl].
    rewrite delivered_other by (constructor; [congruence|constructor]). by apply (wi_sent _ _ Hi).
  - intros id' w'. rewrite lookup_delete_Some. intros [Hne Hl]. rewrite open_other by (constructor; [congruence|constructor]).
    by eapply wi_open.
  - intros id' Hcl' Hop. rewrite open_snoc in Hop. unfold open_step in Hop. rewrite Hid, Hc in Hop.
    destruct (Z.eqb_spec id id') as [->|Hne]; [done|]. rewrite lookup_delete_ne by done.
    apply (wi_known _ _ Hi); [|done]. destruct (ws_closed s); [|done]. by rewrite Hcl in Hcl'.
  - pose proof (wi_inbound _ _ Hi) as Hx.
    destruct (ws_inbound s); try done; [destruct Hx as [? Hx]; split; [done|]|]; rewrite lookup_delete_None; by right.
  - apply (wi_auto _ _ Hi).
Qed.

Lemma send_cancel_ok id c reason s x s' :
  base s → send_cancel id c reason s = (x, s') →
  base s' ∧ ∃ r, wr_watch_id r = id ∧ wr_canceled r = true ∧ wr_events r = [] ∧
    match x with Ok _ => moved [r] s s' | Err _ => moved [] s s' ∧ ws_closed s' = true end.
Proof.
  intros Hb. unfold send_cancel. destruct (current_ok H good full s Hb) as (s1 & Hc & Hb1 & Hm1).
  rewrite (pbind_run _ _ _ _ _ Hc). intros Hs. apply (send_response_ok H good full) in Hs as [Hb2 Hs]; [|done].
  split; [done|]. eexists. split_and!; [| | |destruct x as [[]|[]]; [apply (moved_trans _ [] [_] _ s1); [done|exact Hs]|]]; try done.
  destruct Hs as [Hm2 Hcl]. split; [by apply (moved_trans _ [] [] _ s1)|done].
Qed.

Lemma cancel_all_winv l : ∀ s starts x s',
  winv s starts → cancel_all l s = (x, s') →
  match x with
  | Ok _ => winv s' starts ∧ fw_moved (ws_forwarder s) (ws_last_rev s) (ws_forwarder s') (ws_last_rev s') ∧
      src_current (ws_world s) ≤ src_current (ws_world s') ∧ (ws_forwarder s ≠ FwIdle → no_further s s') ∧
      ∀ id w, ws_watchers s' !! id = Some w → ws_watchers s !! id = Some w ∧ id ∉ l.*1.*1
  | Err _ => stoppable s'
  end.
Proof.
  induction l as [|[[id c] reason] l IH]; intros s starts x s' Hi; cbn [cancel_all].
  { intros [= <- <-]. split_and!; [done|apply fw_moved_refl|done|intros _; apply no_further_refl|]. intros id w ?. split; [done|apply not_elem_of_nil]. }
  erewrite pbind_run by reflexivity. cbv beta. set (s1 := set_watchers _ s).
  assert (base s1) as Hb1 by (destruct (wi_base _ _ Hi); by split).
  unfold pbind at 1. destruct (send_cancel id c reason s1) as [y s2] eqn:Hs.
  apply send_cancel_ok in Hs as (Hb2 & r & Hr1 & Hr2 & Hr3 & Hm); [|done].
  destruct y as [[]|[]].
  - pose proof (ended id [] r s s2 starts Hi Hb2 Hm eq_refl Hr1 Hr2 Hr3) as Hi2. intros Hx.
    apply (IH _ starts) in Hx; [|done]. pose proof Hm as [_ Hw Ha Hin Hcur _ Hfw Hlg Hbe]. cbn in Hw, Ha, Hin, Hcur, Hfw.
    destruct x as [[]|[]]; [|done]. destruct Hx as (H1 & H2 & H2' & H2'' & H3).
    split_and!; [done|by eapply fw_moved_trans|lia| |].
    { intros Hne. apply (no_further_trans s s2 s'); [by apply (no_further_moved [r] s1 s2)|].
      apply H2''. destruct Hfw as [[-> _]|[? _]]; done. } intros id' w Hl. destruct (H3 id' w Hl) as [Hl2 Hni].
    rewrite Hw, lookup_delete_Some in Hl2. destruct Hl2 as [Hne Hl2]. split; [done|].
    rewrite !fmap_cons, not_elem_of_cons. by split.
  - intros [= <- <-]. destruct Hm as [Hm Hcl]. pose proof Hm as [_ _ Ha Hin _ _ _ _ _]. by eapply stoppable_of.
Qed.

Lemma resync_winv s starts x s' :
  winv s starts → ws_forwarder s = FwResync → resync max_bytes encoded_len s = (x, s') →
  match x with
  | Ok rev => winv (set_forward (ws_queue s') (ws_lagged s') (Z.max (ws_last_rev s') rev) FwIdle s') starts
  | Err _ => stoppable s'
  end.
Proof.
  intros Hi Hf. unfold resync. destruct (current_ok H good full s (wi_base _ _ Hi)) as (s1 & Hc & Hb1 & Hm1).
  rewrite (pbind_run _ _ _ _ _ Hc), (pbind_run pget _ s1 s1 s1) by done. set (upto := src_current (ws_world s1)).
  pose proof (winv_nothing _ _ _ Hi Hb1 Hm1) as Hi1. pose proof Hm1 as [_ _ Ha1 Hin1 _ _ Hfw1 _ _].
  assert (ws_forwarder s1 = FwResync) as Hf1.
  { destruct Hfw1 as [[-> _]|(Hx & _)]; [done|congruence]. }
  unfold pbind at 1. destruct (resync_loop _ _ _ upto [] s1) as [[cs|[]] s2] eqn:Hl.
  2:{ eapply resync_loop_winv in Hl; [|done|done| |apply NoDup_fst_map_to_list|].
      - by intros [= <- <-].
      - split; [apply Hb1|done].
      - intros [id w] Hy. by apply elem_of_map_to_list. }
  eapply resync_loop_winv in Hl as (Hi2 & Hf2 & Hl2 & [Hc2 Hno2] & _ & Hd2 & _ & Hn2);
    [|done|done|split; [apply Hb1|done]|apply NoDup_fst_map_to_list|intros [id w] Hy; by apply elem_of_map_to_list].
  unfold pbind. destruct (cancel_all cs s2) as [y s3] eqn:Hca. eapply cancel_all_winv in Hca; [|done].
  destruct y as [[]|[]]; intros [= <- <-]; [|done]. destruct Hca as (Hi3 & Hfw3 & Hc3 & Hno3 & Hw3).
  assert (ws_last_rev s3 = ws_last_rev s1) as Hl3.
  { destruct Hfw3 as [[_ ->]|(Hx & _)]; [done|congruence]. }
  pose proof (bs_last _ _ _ _ Hb1) as Hlast. fold upto in Hlast. rewrite Hl3. replace (Z.max (ws_last_rev s1) upto) with upto by lia.
  destruct Hi3. split; cbn [set_forward ws_watchers ws_out ws_closed ws_inbound ws_next_auto_id]; try done.
  - destruct wi_base0. split; cbn [set_forward ws_world ws_last_rev ws_queue ws_forwarder ws_schedule]; try done; [lia|].
    intros Hfl. destruct (bs_covered Hfl) as [H1 _]. split; [done|]. cbn.
    destruct (no_further_trans _ _ _ Hno2 (Hno3 ltac:(congruence))) as [_ Hno]. destruct (Hno Hfl) as [?|Heq]; [by left|].
    right; right; right. change (behind s3 ≤ upto). rewrite Heq. unfold behind. lia.
  - intros id w Hl. split; [by apply (wi_cursor0 id w)|]. left. cbn. destruct (Hw3 id w Hl) as [Hl' Hni].
    destruct (Hn2 id w) as [?|?]; [|done|done|done].
    apply elem_of_dom_2 in Hl'. rewrite Hd2, elem_of_dom in Hl'. destruct Hl' as [w' Hw'].
    apply (list_elem_of_fmap_2 fst _ (id, w')). by apply elem_of_map_to_list.
Qed.

Lemma stop_winv s starts : stoppable s → winv (stop s) starts.
Proof.
  intros [[? ? ? ? ? Hcov] Hc Hin Ha]. split; cbn; try done.
  - split; try done. intros Hfl. destruct (Hcov Hfl) as [H1 _]. split; [done|]. by right; right; left.
  - intros id Hx. congruence.
  - destruct (ws_inbound s) eqn:Hi; try done. split; [by apply Hin|done].
Qed.

Lemma forward_winv s starts : winv s starts → winv (forward max_bytes encoded_len s) starts.
Proof.
  intros Hi. unfold forward. destruct (ws_forwarder s) as [|batch| |] eqn:Hf; try done.
  - destruct (deliver _ _ batch s) as [[[]|[]] s'] eqn:Hd; eapply deliver_winv in Hd; try done. by apply stop_winv.
  - destruct (resync _ _ s) as [[rev|[]] s'] eqn:Hr; eapply resync_winv in Hr; try done. by apply stop_winv.
Qed.
End exact.
