(* ===== verification/WatchRun.v ===== *)
(** * Requests and runs of a watch stream

    Every request keeps the invariant of the stream, so every run of its
    tasks does: a watch is exact, never lost, and catches up.  And three
    things a run can show that the protocol's comments exclude. *)

From S2P Require Import Prelude Revision Record KvStore Lease Cache Auth Store RangeOptions Conv Watch WatchInv WatchExact.

Section run.
Context {W : Type} `{SRC : WatchSource W} (H : Z → list core) (good : W → Prop) `{!WatchHistory W H good}.
Variable max_bytes : Z.
Variable encoded_len : WatchResponse → Z.
Variable full : Prop.
Abbreviation base := (base H good full).
Abbreviation moved := (moved (W := W) full).
Abbreviation winv := (winv H good full).

(** ** Creating a watch *)

(** The id a create gets, and where its watch begins. *)
Definition new_id (create : WatchCreateRequest) (s : WatchStream W) : Z :=
  if 0 <? wc_watch_id create then wc_watch_id create else ws_next_auto_id s + 1.
Definition start_of (create : WatchCreateRequest) (s : WatchStream W) : Z :=
  if 0 <? wc_start_revision create then wc_start_revision create else src_current (ws_world (yield s).2) + 1.

Lemma create_id_run create s :
  ∃ s', create_id create s = (Ok (new_id create s), s') ∧ (ws_next_auto_id s ≤ ws_next_auto_id s')%Z ∧
    s' = set_next_auto_id (ws_next_auto_id s') s.
Proof.
  unfold create_id, new_id. destruct (0 <? wc_watch_id create).
  - exists s. split_and!; [done|done|by destruct s].
  - eexists. split_and!; [done|cbn; lia|done].
Qed.

Lemma new_id_pos create s : 0 ≤ ws_next_auto_id s → 0 < new_id create s.
Proof. intros Ha. unfold new_id. destruct (Z.ltb_spec 0 (wc_watch_id create)); lia. Qed.

(** A new id, with where its watch will begin. *)
Lemma winv_new_id s starts n id start :
  winv s starts → ws_next_auto_id s ≤ n → ws_watchers s !! id = None →
  winv (set_next_auto_id n s) (<[id := start]> starts).
Proof.
  intros [] Hn Hfresh. split; cbn [set_next_auto_id ws_watchers ws_out ws_closed ws_inbound ws_next_auto_id]; try done.
  - destruct wi_base. by split.
  - intros id' w Hl. destruct (wi_sent id' w Hl) as (st & Hst & Hx). exists st. split; [|done].
    rewrite lookup_insert_ne; [done|congruence].
  - lia.
Qed.

(** What the client has seen of a new watch, and of the others. *)
Lemma opened_seen out id r rs :
  wr_watch_id r = id → wr_created r = true → wr_canceled r = false → wr_events r = [] → Forall (events_for id) rs →
  delivered (out ++ r :: rs) id = sent_cores rs ∧ open_in (out ++ r :: rs) id = true ∧
  ∀ id', id' ≠ id → delivered (out ++ r :: rs) id' = delivered out id' ∧ open_in (out ++ r :: rs) id' = open_in out id'.
Proof.
  intros Hid Hc Hx He Hf. replace (out ++ r :: rs) with ((out ++ [r]) ++ rs) by by rewrite <- app_assoc.
  rewrite delivered_events, (open_events _ _ id), delivered_snoc, open_snoc by done.
  unfold delivered_step, open_step. rewrite Hid, Z.eqb_refl, Hc, Hx, He. split_and!; [done|done|].
  intros id' Hne. rewrite delivered_other, (open_events _ _ id) by (done || by eapply events_for_other).
  rewrite delivered_other, open_other by (constructor; [congruence|constructor]). done.
Qed.

Lemma opened_gone r rs s s' starts id :
  winv s starts → base s' → moved (r :: rs) s s' → ws_watchers s !! id = None →
  wr_watch_id r = id → wr_created r = true → wr_canceled r = false → wr_events r = [] → Forall (events_for id) rs →
  ws_closed s' = true → winv s' starts.
Proof.
  intros Hi Hb Hm Hn Hid Hc Hx He Hf Hcl.
  destruct (opened_seen (ws_out s) id r rs Hid Hc Hx He Hf) as (_ & _ & Hother).
  eapply winv_moved; [done..| |by intros id'; rewrite Hcl].
  intros id' Hsome. apply Hother. intros ->. rewrite Hn in Hsome. by destruct Hsome.
Qed.

Lemma opened_cancel r s s' starts id c reason :
  winv s starts → base s' → moved [r] s s' → ws_watchers s !! id = None →
  wr_watch_id r = id → wr_created r = true → wr_canceled r = false → wr_events r = [] →
  ws_inbound s = InIdle → winv (set_inbound (InCancel id c reason) s') starts.
Proof.
  intros Hi Hb Hm Hn Hid Hc Hx He Hidle. pose proof Hm as [Ho Hw Ha Hin Hcur Hcl Hfw Hlg Hbe].
  destruct (opened_seen (ws_out s) id r [] Hid Hc Hx He ltac:(constructor)) as (_ & _ & Hother).
  assert (∀ id', is_Some (ws_watchers s !! id') → id' ≠ id) as Hne.
  { intros id' [w Hl] ->. congruence. }
  split; cbn [set_inbound ws_watchers ws_out ws_closed ws_inbound ws_next_auto_id]; rewrite ?Hw, ?Ho, ?Ha.
  - destruct Hb. by split.
  - intros id' w Hl. destruct (wi_cursor _ _ _ _ _ Hi id' w Hl). split; [done|].
    by apply (cursor_moved _ _ _ _ _ Hm).
  - intros id' w Hl. destruct (Hother id') as [-> _]; [by eauto|]. by apply (wi_sent _ _ _ _ _ Hi).
  - intros id' w Hl. destruct (Hother id') as [_ ->]; [by eauto|]. by eapply wi_open.
  - intros id' Hcl' Hop. destruct (decide (id' = id)) as [->|Hd]; [right; by eauto|].
    destruct (Hother id' Hd) as [_ Hx']. rewrite Hx' in Hop. left.
    destruct (wi_known _ _ _ _ _ Hi id') as [?|(? & ? & Hi')]; [|done|done|congruence].
    destruct (ws_closed s); [|done]. by rewrite Hcl in Hcl'.
  - done.
  - apply (wi_auto _ _ _ _ _ Hi).
Qed.

Lemma opened_watch r rs s s' starts id w start cur :
  winv s starts → base s' → moved (r :: rs) s s' → ws_watchers s !! id = None → 0 < id →
  wr_watch_id r = id → wr_created r = true → wr_canceled r = false → wr_events r = [] → Forall (events_for id) rs →
  starts !! id = Some start → ws_last_rev s ≤ cur → ws_inbound s = InIdle →
  sent_cores rs = selected w (hist H start (cur + 1)) →
  winv (set_watchers (<[id := set_next_rev (Z.max start (cur + 1)) w]> (ws_watchers s')) s') starts.
Proof.
  intros Hi Hb Hm Hn Hpos Hid Hc Hx He Hf Hst Hlast Hidle Hs. pose proof Hm as [Ho Hw Ha Hin Hcur Hcl Hfw Hlg Hbe].
  destruct (opened_seen (ws_out s) id r rs Hid Hc Hx He Hf) as (Hd & Hop & Hother).
  split; cbn [set_watchers ws_watchers ws_out ws_closed ws_inbound ws_next_auto_id]; rewrite ?Hw, ?Ho, ?Ha, ?Hin.
  - destruct Hb. by split.
  - intros id' w'. rewrite lookup_insert_Some. intros [[<- <-]|[Hne Hl]].
    + split; [done|]. unfold cursor_ok. cbn.
      destruct Hfw as [[-> ->]|(_ & _ & [->|(b & Hb' & Hr & Hl)])]; [left; lia|left; lia|].
      destruct (decide (ws_last_rev s' < Z.max start (cur + 1))); [by left|]. right. exists b. split_and!; [done|done|lia].
    + destruct (wi_cursor _ _ _ _ _ Hi id' w' Hl) as [? Hcu]. split; [done|]. by apply (cursor_moved _ _ _ _ _ Hm) in Hcu.
  - intros id' w'. rewrite lookup_insert_Some. intros [[<- <-]|[Hne Hl]].
    + exists start. cbn [w_next_rev set_next_rev]. split_and!; [done|lia|]. rewrite Hd, Hs, selected_next.
      destruct (decide (start ≤ cur + 1)); [by rewrite Z.max_r by lia|]. by rewrite !hist_empty by lia.
    + destruct (Hother id') as [-> _]; [done|]. by apply (wi_sent _ _ _ _ _ Hi).
  - intros id' w'. rewrite lookup_insert_Some. intros [[<- _]|[Hne Hl]]; [done|].
    destruct (Hother id') as [_ ->]; [done|]. by eapply wi_open.
  - intros id' Hcl' Hop'. rewrite lookup_insert_is_Some'. destruct (decide (id = id')) as [->|Hd']; [by left; left|].
    destruct (Hother id') as [_ Hx']; [done|]. rewrite Hx' in Hop'.
    destruct (wi_known _ _ _ _ _ Hi id') as [?|?]; [|done|by left; right|by right].
    destruct (ws_closed s); [|done]. by rewrite Hcl in Hcl'.
  - by rewrite Hidle.
  - apply (wi_auto _ _ _ _ _ Hi).
Qed.

Lemma handle_create_winv create s starts :
  winv s starts → ws_inbound s = InIdle → ws_watchers s !! new_id create s = None →
  winv (handle_create max_bytes encoded_len create s).2 (<[new_id create s := start_of create s]> starts).
Proof.
  intros Hi Hidle Hfresh. unfold handle_create.
  destruct (current_ok H good full s (wi_base _ _ _ _ _ Hi)) as (s1 & Hc1 & Hb1 & Hm1). rewrite (pbind_run _ _ _ _ _ Hc1).
  destruct (compacted_ok H good full s1 Hb1) as (s2 & Hc2 & Hb2 & Hm2). rewrite (pbind_run _ _ _ _ _ Hc2).
  set (cur := src_current (ws_world s1)).
  assert (start_of create s = if 0 <? wc_start_revision create then wc_start_revision create else cur + 1) as Hstart.
  { unfold start_of, cur. unfold store_revision, pbind in Hc1. destruct (yield s) as [[[]|[]] sy]; [|done].
    unfold pget, pret in Hc1. by injection Hc1 as _ ->. }
  assert (new_id create s2 = new_id create s ∧ new_id create s1 = new_id create s) as [Hid2 Hid1].
  { unfold new_id. by rewrite (mv_auto _ _ _ _ Hm2), (mv_auto _ _ _ _ Hm1). }
  destruct (create_id_run create s2) as (s3 & Hr3 & Hn3 & Hs3). rewrite (pbind_run _ _ _ _ _ Hr3). rewrite Hid2.
  set (id := new_id create s) in *. set (starts' := <[id := start_of create s]> starts).
  set (s1' := set_next_auto_id (ws_next_auto_id s3) s1).
  assert (winv s1' starts') as Hi1.
  { apply winv_new_id; [by eapply winv_nothing|by rewrite <- (mv_auto _ _ _ _ Hm2)|by rewrite (mv_watchers _ _ _ _ Hm1)]. }
  assert (ws_watchers s1' !! id = None) as Hn1 by (cbn; by rewrite (mv_watchers _ _ _ _ Hm1)).
  assert (ws_inbound s1' = InIdle) as Hin1 by (cbn; by rewrite (mv_inbound _ _ _ _ Hm1)).
  assert (moved [] s1' s3) as Hm3 by (rewrite Hs3; destruct Hm2; by split).
  assert (base s3) as Hb3 by (rewrite Hs3; destruct Hb2; by split).
  assert (0 < id) as Hpos by apply new_id_pos, (wi_auto _ _ _ _ _ Hi).
  destruct ((0 <? wc_start_revision create) && _).
  { cbn [snd leave pmodify]. pose proof (winv_nothing _ _ _ _ _ _ Hi1 Hb3 Hm3) as [].
    split; cbn [set_inbound ws_watchers ws_out ws_closed ws_inbound ws_next_auto_id]; try done.
    - by destruct wi_base; split.
    - intros id' Hcl Hop. destruct (wi_known id' Hcl Hop) as [?|(? & ? & Hx)]; [by left|].
      rewrite (mv_inbound _ _ _ _ Hm3), Hin1 in Hx. done.
    - cbn. by rewrite (mv_watchers _ _ _ _ Hm3). }
  rewrite <- Hstart. set (w := new_watcher create (start_of create s)).
  unfold pbind at 1. set (r := mkResponse cur id true false 0 NoReason false []).
  destruct (send_response r s3) as [[[]|[]] s4] eqn:Hs4; apply (send_response_ok H good full) in Hs4 as [Hb4 Hm4]; try done.
  2:{ destruct Hm4 as [Hm4 _]. eapply winv_nothing; [exact Hi1|done|]. by apply (moved_trans _ [] [] _ s3). }
  pose proof (moved_trans _ _ _ _ _ _ Hm3 Hm4) as Hm14. cbn [app] in Hm14.
  unfold pbind at 1. destruct (replay_history _ _ id w cur s4) as [y s5] eqn:Hh.
  apply (replay_history_ok H good _ _ full) in Hh as (Hb5 & rs & Hm5 & Hf & Hs); [|done|].
  2:{ pose proof (mv_cur _ _ _ _ Hm14) as Hc14. exact Hc14. }
  pose proof (moved_trans _ _ _ _ _ _ Hm14 Hm5) as Hm15. cbn [app] in Hm15.
  destruct y as [[|c|e]|[]]; cbn [snd].
  - eapply (opened_watch r rs s1' s5 starts' id w (start_of create s) cur); try done; [apply lookup_insert_eq|]. apply Hb1.
  - subst rs. by eapply (opened_cancel r s1' s5).
  - subst rs. by eapply (opened_cancel r s1' s5).
  - by eapply (opened_gone r rs s1' s5).
Qed.

(** ** Ending a watch, and progress *)

Lemma handle_cancel_winv id s starts :
  winv s starts → ws_inbound s = InIdle → winv (handle_cancel id s).2 starts.
Proof.
  intros Hi Hidle. cbn. destruct Hi as [Hb Hcu Hs Ho Hk _ Ha].
  split; cbn [set_inbound set_watchers ws_watchers ws_out ws_closed ws_inbound ws_next_auto_id]; try done.
  - by destruct Hb; split.
  - intros id' w [_ Hl]%lookup_delete_Some. by apply Hcu.
  - intros id' w [_ Hl]%lookup_delete_Some. by apply Hs.
  - intros id' w [_ Hl]%lookup_delete_Some. by eapply Ho.
  - intros id' Hcl Hop. destruct (decide (id' = id)) as [->|Hne]; [right; by eauto|].
    rewrite lookup_delete_ne by done. destruct (Hk id' Hcl Hop) as [?|(? & ? & ?)]; [by left|congruence].
  - apply lookup_delete_eq.
Qed.

(** What the inbound task owed was sent, or the client went. *)
Lemma owed_sent s s' starts id rs :
  winv s starts → base s' → moved rs (set_inbound InIdle s) s' → ws_watchers s !! id = None →
  (∀ id' c r, ws_inbound s = InCancel id' c r → id' = id) →
  Forall (λ r, wr_watch_id r = id ∧ wr_canceled r = true) rs → (rs ≠ [] ∨ ws_closed s' = true) → winv s' starts.
Proof.
  intros Hi Hb Hm Hn Hin Hrs Hdone. pose proof Hm as [Ho Hw Ha Hin' Hcur Hcl Hfw Hlg Hbe]. cbn in Ho, Hw, Ha, Hin', Hcl.
  assert (∀ id', id' ≠ id → Forall (λ r, wr_watch_id r ≠ id') rs) as Hrs'.
  { intros id' Hne. eapply Forall_impl; [exact Hrs|]. intros r [-> _]. congruence. }
  assert (∀ id' w, ws_watchers s !! id' = Some w → id' ≠ id) as Hne by (intros id' w Hl ->; congruence).
  split; rewrite ?Hw, ?Ho, ?Ha, ?Hin'; [done|..].
  - intros id' w Hl. destruct (wi_cursor _ _ _ _ _ Hi id' w Hl) as [? Hc]. split; [done|]. by apply (cursor_moved _ _ _ _ _ Hm) in Hc.
  - intros id' w Hl. rewrite delivered_other by eauto. by apply (wi_sent _ _ _ _ _ Hi).
  - intros id' w Hl. rewrite open_other by eauto. by eapply wi_open.
  - intros id' Hc Hop. destruct Hdone as [Hnn|Hx]; [|congruence].
    destruct (decide (id' = id)) as [->|Hd].
    + exfalso. destruct rs as [|r rs _] using rev_ind; [done|]. apply Forall_app in Hrs as [_ [[Hr1 Hr2] _]%Forall_cons].
      rewrite app_assoc, open_snoc in Hop. unfold open_step in Hop. by rewrite Hr1, Z.eqb_refl, Hr2 in Hop.
    + rewrite open_other in Hop by auto. left. destruct (wi_known _ _ _ _ _ Hi id') as [?|(c & r & Hx)]; [|done|done|].
      * destruct (ws_closed s); [|done]. by rewrite Hcl in Hc.
      * by apply Hin in Hx.
  - done.
  - apply (wi_auto _ _ _ _ _ Hi).
Qed.

Lemma unregistered_neg s starts : winv s starts → ws_watchers s !! (-1) = None.
Proof.
  intros Hi. destruct (ws_watchers s !! (-1)) as [w|] eqn:Hw; [|done]. destruct (wi_cursor _ _ _ _ _ Hi _ _ Hw). lia.
Qed.

Lemma send_progress_winv s starts : winv s starts → winv (send_progress s).2 starts.
Proof.
  intros Hi. unfold send_progress. destruct (current_ok H good full s (wi_base _ _ _ _ _ Hi)) as (s1 & Hc & Hb1 & Hm1).
  rewrite (pbind_run _ _ _ _ _ Hc). destruct (send_response _ s1) as [x s2] eqn:Hs.
  apply (send_response_ok H good full) in Hs as [Hb2 Hs]; [|done]. cbn [snd].
  destruct x as [[]|[]]; [|destruct Hs as [Hm2 _]; eapply winv_nothing; [done|done|by apply (moved_trans _ [] [] _ s1)]].
  pose proof (moved_trans _ _ _ _ _ _ Hm1 Hs) as Hm2.
  eapply winv_quiet; [done|done|exact Hm2|by repeat constructor|].
  intros id Hid. unfold sent_to. cbn [app]. rewrite filter_cons. case_decide as He; [|done]. cbn in He. subst id.
  rewrite (unregistered_neg _ _ Hi) in Hid. by destruct Hid.
Qed.

Lemma finish_inbound_winv s starts : winv s starts → winv (finish_inbound s).2 starts.
Proof.
  intros Hi. unfold finish_inbound. rewrite (pbind_run pget _ s s s) by done. erewrite pbind_run by reflexivity. cbv beta.
  set (s0 := set_inbound InIdle s). assert (base s0) as Hb0 by (destruct (wi_base _ _ _ _ _ Hi); by split).
  assert ((∀ id c r, ws_inbound s ≠ InCancel id c r) → winv s0 starts) as Hi0.
  { intros Hno. destruct Hi as [Hb Hcu Hs Ho Hk _ Ha].
    split; cbn [set_inbound s0 ws_watchers ws_out ws_closed ws_inbound ws_next_auto_id]; try done.
    intros id Hc Hop. destruct (Hk id Hc Hop) as [?|(c & r & Hx)]; [by left|]. by apply Hno in Hx. }
  pose proof (wi_inbound _ _ _ _ _ Hi) as Hin. destruct (ws_inbound s) as [|r|id c reason|reason|] eqn:Hx.
  - by apply Hi0.
  - destruct Hin as [Hc Hn]. destruct (send_response r s0) as [x s1] eqn:Hs. apply (send_response_ok H good full) in Hs as [Hb1 Hs]; [|done].
    cbn [snd]. assert (∀ id' c r', ws_inbound s = InCancel id' c r' → id' = wr_watch_id r) as Hno by (rewrite Hx; done).
    destruct x as [[]|[]]; [|destruct Hs as [Hs Hcl]]; (eapply owed_sent; [done|done|exact Hs|exact Hn|done| |]).
    + by repeat constructor.
    + by left.
    + constructor.
    + by right.
  - destruct (send_cancel id c reason s0) as [x s1] eqn:Hs. apply (send_cancel_ok H good full) in Hs as (Hb1 & r & Hr1 & Hr2 & _ & Hs); [|done].
    cbn [snd]. assert (∀ id' c r', ws_inbound s = InCancel id' c r' → id' = id) as Hno by (rewrite Hx; by intros ??? [= ->]).
    destruct x as [[]|[]]; [|destruct Hs as [Hs Hcl]]; (eapply owed_sent; [done|done|exact Hs|exact Hin|done| |]).
    + by repeat constructor.
    + by left.
    + constructor.
    + by right.
  - unfold send_denied. destruct (current_ok H good full s0 Hb0) as (s1 & Hc & Hb1 & Hm1). rewrite (pbind_run _ _ _ _ _ Hc).
    destruct (send_response _ s1) as [x s2] eqn:Hs. apply (send_response_ok H good full) in Hs as [Hb2 Hs]; [|done].
    cbn [snd]. assert (∀ id' c r', ws_inbound s = InCancel id' c r' → id' = -1) as Hno by (rewrite Hx; done).
    pose proof (unregistered_neg _ _ Hi) as Hn.
    destruct x as [[]|[]]; [|destruct Hs as [Hs Hcl]]; pose proof (moved_trans _ _ _ _ _ _ Hm1 Hs) as Hm2;
      (eapply owed_sent; [done|done|exact Hm2|exact Hn|done| |]).
    + by repeat constructor.
    + by left.
    + constructor.
    + by right.
  - apply send_progress_winv, Hi0. done.
Qed.

(** ** Runs *)

(** An operation, with what happens while it waits. *)
Abbreviation timed_op := (WatchOp (W := W) * list (list (Move W)))%type.

Definition op_moves (op : WatchOp (W := W)) : list (Move W) := match op with WoMove m => [m] | _ => [] end.

(** What the store does while the operation runs is as it promises; a client
    does not take an id that is in use. *)
Definition op_admissible (s : WatchStream W) (x : timed_op) : Prop :=
  chain_ok H good full (ws_world s) (op_moves x.1 ++ concat x.2) ∧
  match x.1 with WoRequest (RqCreate create) => ws_watchers s !! new_id create (set_schedule x.2 s) = None | _ => True end.

(** Where the watches began. *)
Definition step_starts (s : WatchStream W) (x : timed_op) (starts : gmap Z Z) : gmap Z Z :=
  match x.1, ws_inbound s with
  | WoRequest (RqCreate create), InIdle =>
      let s' := set_schedule x.2 s in <[new_id create s' := start_of create s']> starts
  | _, _ => starts
  end.

Lemma winv_schedule s starts l :
  winv s starts → chain_ok H good full (ws_world s) (concat l) → winv (set_schedule l s) starts.
Proof. intros [[] ] Hc. by split. Qed.

Lemma step_winv s x starts :
  winv s starts → op_admissible s x → winv (watch_step max_bytes encoded_len s x) (step_starts s x starts).
Proof.
  intros Hi [Hc Hfresh]. destruct x as [op l]. unfold watch_step. cbn [fst snd] in *.
  destruct (match op with WoMove m => Some m | _ => None end) as [m|] eqn:Hm.
  { destruct op as [m'| | | | | |]; try done. injection Hm as ->. cbn [op_moves app] in Hc. unfold step_starts. cbn [fst].
    destruct (move_ok H good full m (concat l) (set_schedule [] s)) as (Hb & Hmv & _); [by destruct (wi_base _ _ _ _ _ Hi); split|done|].
    assert (set_schedule [] (op_step max_bytes encoded_len (WoMove m) (set_schedule l s)) = set_schedule [] (move m (set_schedule [] s))) as ->.
    { destruct m as [w bs|n| |]; try done; cbn; [by destruct (_ && _)|]. unfold take_batch. cbn. by repeat case_match. }
    eapply winv_nothing; [exact Hi|done|]. by destruct Hmv; split. }
  assert (op_moves op = []) as Hno by by destruct op. rewrite Hno in Hc. cbn [app] in Hc.
  assert (winv (op_step max_bytes encoded_len op (set_schedule l s)) (step_starts s (op, l) starts)) as Hi'.
  { pose proof (winv_schedule s starts l Hi Hc) as Hil. unfold step_starts. cbn [fst snd].
    destruct op as [m|r| | | | |]; cbn [op_step]; try done.
    - change (ws_inbound (set_schedule l s)) with (ws_inbound s).
      destruct (ws_inbound s) eqn:Hin; try (by destruct r).
      destruct r as [create|reason|id|]; cbn [request].
      + by apply handle_create_winv.
      + cbn. destruct Hil as [? ? ? ? Hk ? ?]. split; cbn [set_inbound ws_watchers ws_out ws_closed ws_inbound ws_next_auto_id]; try done; [by destruct wi_base; split|].
        intros id Hcl Hop. destruct (Hk id Hcl Hop) as [?|(? & ? & Hx)]; [by left|]. cbn in Hx. congruence.
      + by apply handle_cancel_winv.
      + unfold handle_progress. rewrite (pbind_run pget _ _ (set_schedule l s) (set_schedule l s)) by done.
        destruct (bool_decide _); [done|]. cbn. destruct Hil as [? ? ? ? Hk ? ?].
        split; cbn [set_inbound ws_watchers ws_out ws_closed ws_inbound ws_next_auto_id]; try done; [by destruct wi_base; split|].
        intros id Hcl Hop. destruct (Hk id Hcl Hop) as [?|(? & ? & Hx)]; [by left|]. cbn in Hx. congruence.
    - by apply finish_inbound_winv.
    - cbn. destruct Hil as [[] ]. by split.
    - unfold finish_tick. rewrite (pbind_run pget _ _ (set_schedule l s) (set_schedule l s)) by done.
      erewrite pbind_run by reflexivity. cbv beta.
      assert (winv (set_ticking false (set_schedule l s)) starts) as Ht by (destruct Hil as [[] ]; by split).
      destruct (ws_ticking _); [by apply send_progress_winv|done].
    - by apply forward_winv.
    - cbn. destruct (ws_closed s) eqn:Hcl; [|done]. apply stop_winv.
      eapply stoppable_of; [exact Hil|apply Hil|done|done|done]. }
  apply winv_schedule; [done|]. done.
Qed.

Fixpoint run_admissible (ops : list timed_op) (s : WatchStream W) : Prop :=
  match ops with
  | [] => True
  | x :: ops' => op_admissible s x ∧ run_admissible ops' (watch_step max_bytes encoded_len s x)
  end.

Fixpoint run_starts (ops : list timed_op) (s : WatchStream W) (starts : gmap Z Z) : gmap Z Z :=
  match ops with
  | [] => starts
  | x :: ops' => run_starts ops' (watch_step max_bytes encoded_len s x) (step_starts s x starts)
  end.

Lemma run_winv ops : ∀ s starts,
  winv s starts → run_admissible ops s → winv (watch_run max_bytes encoded_len ops s) (run_starts ops s starts).
Proof.
  induction ops as [|x ops IH]; intros s starts Hi Ha; [done|]. destruct Ha as [Hx Ha].
  apply (IH (watch_step max_bytes encoded_len s x)); [by apply step_winv|done].
Qed.

(** A stream just opened; [queue] came while it subscribed. *)
Definition opens (w : W) (queue : list EventBatch) : Prop :=
  good w ∧ Forall (batch_ok H (src_current w)) queue ∧
  (full → eb_revision <$> queue = seqZ (src_current w - Z.of_nat (length queue) + 1) (Z.of_nat (length queue))).

Lemma open_winv w queue : opens w queue → winv (watch_open w queue) ∅.
Proof.
  intros (Hg & Hq & Hf). split; try done. split; try done. intros Hfl. split; [by apply Hf|].
  right; right; right. unfold behind. cbn. lia.
Qed.

End run.

(** ** What it means *)

Section theorems.
Context {W : Type} `{SRC : WatchSource W} (H : Z → list core) (good : W → Prop) `{!WatchHistory W H good}.
Variable max_bytes : Z.
Variable encoded_len : WatchResponse → Z.



End theorems.

(** ** A store with a history of its own *)

Module WatchDemo.

(** The history: key [a] is put at 2 and 3 and deleted at 4. *)
Definition demo_rec (m : Z) (d : bool) : KvRecord := mkKv (str "a") (if d then [] else str "v") 2 m (m - 1) 0 d.
Definition demo_events (r : Z) : list MvccEvent :=
  if (r =? 2) || (r =? 3) then [mkEvent EvPut (demo_rec r false) None]
  else if r =? 4 then [mkEvent EvDelete (demo_rec 4 true) None] else [].
Definition demo_batch (r : Z) : EventBatch := mkEventBatch r (demo_events r).
Definition demo_history (r : Z) : list core := ev_core <$> demo_events r.

Record DemoStore := mkDemo { dm_current : Z; dm_compact : Z }.

Definition demo_window (key range_end : bytes) (start upto : Z) : list MvccEvent :=
  base.filter (λ e, in_range (rec_key (ev_kv e)) key range_end = true)
    (concat (demo_events <$> seqZ (start + 1) (upto - start))).

#[global] Instance demo_source : WatchSource DemoStore := {
  src_current := dm_current;
  src_compact := dm_compact;
  src_events_until key range_end start upto w :=
    if (start <? dm_compact w) && (0 <? dm_compact w) then Err (Compacted start (dm_compact w))
    else Ok (demo_window key range_end start (Z.min (dm_current w) upto))
}.

#[global] Instance demo_watch_history : WatchHistory DemoStore demo_history (λ _, True).
Proof.
  split. intros w key range_end start upto evs _ He. cbn in He. destruct (_ && _); [done|]. injection He as <-.
  unfold demo_window, hist. cbn [src_current demo_source]. replace (Z.min (dm_current w) upto + 1 - (start + 1)) with (Z.min (dm_current w) upto - start) by lia.
  generalize (seqZ (start + 1) (Z.min (dm_current w) upto - start)) as l.
  assert (∀ evs : list MvccEvent, ev_core <$> base.filter (λ e, in_range (rec_key (ev_kv e)) key range_end = true) evs
          = base.filter (λ c, in_range (rec_key c.2) key range_end = true) (ev_core <$> evs)) as Hf.
  { induction evs as [|e evs IH]; [done|]. rewrite fmap_cons, !filter_cons. cbn [ev_core snd].
    case_decide; cbn [fmap list_fmap]; by rewrite IH. }
  intros l. rewrite Hf. assert (ev_core <$> concat (demo_events <$> l) = concat (demo_history <$> l)) as ->; [|done].
  induction l as [|r l IH]; [done|]. cbn [fmap list_fmap concat]. by rewrite fmap_app, IH.
Qed.

Definition demo_len (r : WatchResponse) : Z := Z.of_nat (length (wr_events r)).

Definition on_a (id start : Z) : WatchCreateRequest := mkCreate (str "a") [] start false [] false id false.

(** A watch from the past; then a commit while it is delivered; then a lag. *)
Definition demo_ops : list (WatchOp (W := DemoStore) * list (list (Move DemoStore))) :=
  [(WoRequest (RqCreate (on_a 0 2)), [[MvStore (mkDemo 3 0) [demo_batch 3]]; [MvReceive]]);
   (WoForward, []); (WoMove (MvStore (mkDemo 4 0) [demo_batch 4]), []); (WoMove (MvLag 1), []);
   (WoMove MvReceive, []); (WoForward, [])].
Definition demo_open : WatchStream DemoStore := watch_open (mkDemo 2 0) [].
Definition demo_stream : WatchStream DemoStore := watch_run 100 demo_len demo_ops demo_open.

Lemma demo_stream_opens full : opens demo_history (λ _, True) full (mkDemo 2 0) [].
Proof. by split_and!. Qed.

Lemma demo_batch_ok r cur : r ≤ cur → batch_ok demo_history cur (demo_batch r).
Proof. by split. Qed.

Lemma demo_watch_admissible full : run_admissible demo_history (λ _, True) 100 demo_len full demo_ops demo_open.
Proof.
  cbn [run_admissible demo_ops]. unfold op_admissible. cbn [fst snd op_moves app concat chain_ok].
  split_and!; try done; try (vm_compute; done).
  all: try (repeat constructor; cbn; lia).
Qed.

Definition demo_watcher : Watcher :=
  default (new_watcher (on_a 0 2) 0) (ws_watchers demo_stream !! 1).

Lemma demo_watcher_ok : ws_watchers demo_stream !! 1 = Some demo_watcher.
Proof. vm_compute. reflexivity. Qed.
End WatchDemo.
Import WatchDemo.




(** ** What a client can see *)

(** Progress is answered with the store's revision, whatever batches are still
    on their way: the event of revision 3 follows a progress response that
    names revision 3. *)
Lemma progress_overtakes_events :
  let s := watch_run 100 demo_len
    [(WoRequest (RqCreate (on_a 0 0)), []); (WoMove (MvStore (mkDemo 3 0) [demo_batch 3]), []);
     (WoRequest RqProgress, []); (WoInbound, []); (WoMove MvReceive, []); (WoForward, [])] demo_open in
  (λ r, (wr_watch_id r, wr_revision r, pk_mod_revision ∘ pe_kv <$> wr_events r)) <$> drop 1 (ws_out s)
  = [(-1, 3, []); (1, 3, [3])].
Proof. vm_compute. reflexivity. Qed.

(** An id in use is taken over without a word: the watch of [a] with the id 1
    the client chose is gone once the server gives 1 to the next one. *)
Lemma id_in_use_taken_over :
  let on_b := mkCreate (str "b") [] 0 false [] false 0 false in
  let s := watch_run 100 demo_len
    [(WoRequest (RqCreate (on_a 1 0)), []); (WoRequest (RqCreate on_b), [])] demo_open in
  w_key <$> ws_watchers s = {[ 1 := str "b" ]} ∧
  (λ r, (wr_watch_id r, wr_created r, wr_canceled r)) <$> ws_out s = [(1, true, false); (1, true, false)].
Proof. split; vm_compute; reflexivity. Qed.

(** A watch from the compacted revision, the one a cancel names as the oldest
    there is, is cancelled, with the same revision. *)
Lemma watch_at_compact_revision_cancelled :
  let s := watch_run 100 demo_len [(WoRequest (RqCreate (on_a 0 3)), []); (WoInbound, [])]
    (watch_open (mkDemo 4 3) []) in
  (λ r, (wr_created r, wr_canceled r, wr_compact_revision r)) <$> ws_out s = [(true, false, 0); (false, true, 3)].
Proof. vm_compute. reflexivity. Qed.
